(* ===== verification/_CoqProject ===== *)
-Q . S2P
Prelude.v
GoStd.v
GoBytes.v
GoText.v
HookAbi.v
ArgExpr.v
ArgFilter.v
SetMap.v
SetMapFacts.v
SetEntries.v
Run.v
ByteCaps.v
Accounting.v
TagFinal.v
TagFinalFacts.v
Worklist.v
Asm.v
CtxFlow.v
CtxFlowFacts.v
FrameView.v
CtxFlowSound.v
FlowProgram.v
FlowProgramFacts.v
CtxAnalyze.v
CtxCallback.v
ArgReads.v
ArgReadsFacts.v
CtxProve.v
CtxProveFacts.v
CtxExamples.v
CtxPassFacts.v
Ast.v
ScanValue.v
Lexer.v
Parser.v
ParserFacts.v
Ir.v
Typing.v
StackDepth.v
RingBuf.v
Record.v
RecordFacts.v
PcapNg.v
RawSample.v
RecordBuild.v
Ebpf.v
EbpfFacts.v
Helpers.v
Gate.v
GateFacts.v
GateRecord.v
GateSets.v
GateWhole.v
SetFilters.v
SetGate.v
GateExamples.v
RingHelpers.v
Capture.v
CaptureFacts.v
CaptureBlock.v
CaptureSample.v
CaptureRun.v
EntryBlock.v
CaptureTail.v
CaptureWhole.v
CaptureExamples.v
Heap.v
KWay.v
Merge.v
MergePcap.v
Codegen.v
WhereArith.v
WhereArithFacts.v
FieldLoad.v
FieldLoadFacts.v
Where.v
WhereSpec.v
WhereFacts.v
LiteralFacts.v
WherePacket.v
