(* ===== verification/Prelude.v ===== *)
(** * bpf-ninja: a verification development (root file)

    bpf-ninja attaches eBPF probes to loaded BPF programs, filters packets
    with a small language (kunai), records what the probed program decided
    and writes pcap-ng captures. This library models the parts of it that
    decide something, each from its Go source, and proves what makes them
    correct. Paths below are under src/.

    ** How the parts interact

    A filter text is scanned and parsed (pkg/kunai/lexer, parser) into a
    syntax tree (ast), resolved against protocol definitions and typed
    (resolve) into a program (ir), and compiled to instructions. Arguments
    of the probed function are selected and compared by --arg-filter
    (internal/attach, internal/filter), sets of keys live in pinned maps
    (internal/setmap). Before a program is rewritten, its context is traced
    (internal/ctxflow) and its stack use is checked (pkg/inject). A probe
    writes records into per-CPU rings; shards read them
    (internal/capture/fastrb, capture), write pcap-ng files with a comment
    per packet (internal/record, recordbuild, output), count them against
    limits and acknowledge tags as final (cmd/bpf-ninja), and the shards'
    files are merged (internal/output).

    ** Files

    Shared: [Prelude] (results, machine integers, tactics, lemmas on lists),
    [GoStd], [GoText], [GoBytes] (the Go library functions the code calls,
    written out), [Run] (runs of a transition system with optional steps:
    reachability and rule induction), [Heap] (container/heap), [Worklist]
    (the fixpoint loop of the two analyses of ctxflow over the interface
    [JoinOrder]/[JoinLaws]), [Asm] (the accessors of cilium/ebpf's
    instructions).

    The filter language:
    - [Ast], [ScanValue], [Lexer], [Parser]: pkg/kunai/ast, lexer
      (scanvalue.go, lexer.go, token.go), parser (all files). A Go method is
      a definition of its name over the state passed explicitly; syntax
      errors are values.
    - [ParserFacts]: the parser terminates within its fuel and its results
      are well formed.
    - [Ir]: pkg/kunai/ir (ir.go, parents.go) and the field part of
      vocab/model.go; walk.go is in [Where].
    - [Typing]: pkg/kunai/resolve/typing.go, typing_errors.go, the literal
      checks of predicate.go.

    Arguments and sets:
    - [HookAbi], [ArgExpr], [ArgFilter]: internal/hookabi/hookabi.go,
      internal/attach/argmember.go, internal/filter/argfilter.go. BTF is the
      class [Btf]: the library's size and underlying-type functions.
    - [SetMap], [SetMapFacts], [SetEntries]: internal/setmap (setmap.go,
      ops.go) on the contents of the map.

    Rewriting programs:
    - [StackDepth]: pkg/inject/stackdepth.go without the reading of the call
      graph from instructions.
    - [CtxFlow] (ctxflow.go of internal/ctxflow), [FlowProgram] (the lookups
      of prove.go), [CtxAnalyze] (its [analyze]), [CtxCallback]
      (callback.go), [ArgReads] (pass.go up to [FreeArg]), [CtxProve]
      ([Prove], [passes], [proveCallback]). [FrameView] is not code: it is
      the semantics of registers and slots, in the verifier's view, that the
      comments of ctxflow.go appeal to. [CtxFlowFacts], [CtxFlowSound],
      [FlowProgramFacts], [ArgReadsFacts], [CtxProveFacts], [CtxPassFacts],
      [CtxExamples] hold the proofs.

    Emitted code:
    - [Ebpf]: the machine (registers, stack, context, map values, the ring
      reservation, kernel memory); [exec] runs a fragment with labels,
      [exec_machine] relates it to the program counter. [EbpfFacts]: its laws
      and one rule per instruction. [Helpers]: what the kernel documents of
      its helpers, as a class, and a kernel that keeps it.
    - [Gate]: the front of a capture program (internal/program: program.go
      from [buildFilterBody] on, record.go), as the lists the functions emit.
      [GateFacts] (loads, comparisons, snapshots), [GateRecord] (fields read
      once), [GateSets] (keys and lookups), [GateWhole] (all of it),
      [GateExamples] (runs).
    - [SetFilters]: internal/filter/setfilter.go. [SetGate]: its key layout
      is the one [set add] writes.
    - [Capture]: what runs once the filters passed (program.go from
      [captureWithRecord], record.go, sharded_ringbuf.go, export_stats.go,
      tag_barrier.go, [loadSavedReturn]). [RingHelpers]: the helpers it
      calls, as a class, and a kernel. [CaptureFacts] (stores, the wakeup
      flag, the reserve), [CaptureBlock] and [EntryBlock] (the two record
      blocks), [CaptureRun] (metadata, copy, submit, counters),
      [CaptureTail] (the whole tail over any record block),
      [CaptureSample], [CaptureWhole] (what the reader makes of it),
      [CaptureExamples] (runs).

    The code of a where clause (pkg/kunai/codegen), from resolved condition
    to instructions:
    - [Codegen]: labels, scratch slots, jump tables, constant loads; the
      code generator's state is the label counter, threaded by the monad
      [gen], and [whereCtx] the part a call sets for the calls below it. The
      relations of the proofs: [runs] and [falls], [upto] (what a fragment
      may write), [owned] (which labels it holds).
    - [WhereArith], [WhereArithFacts]: arithmetic and comparisons of where.go,
      64-bit and 128-bit, with the reference [evalArith]; field loads are the
      interface [FieldCode] with the laws [FieldCodeOk].
    - [FieldLoad], [FieldLoadFacts]: windows, slices, bounded loads, gating and
      option loads of codegen.go and option_demand.go, the instance
      [where_fields] of that interface, and its laws over a packet.
    - [Where]: where.go from [gen] to [genNot] with quantifiers, guards and the
      rebinding of iterators, where_fold.go, the choice of where_auxloop.go,
      and the comparisons with network literals (the interface [LiteralCode],
      its instance [where_literals]).
    - [WhereSpec]: what a condition means ([evalCond]), after the Lean model
      of the repository (spec/lean); folding, rebinding and fuel.
      [WhereFacts]: the code of a condition against the interface [WhereOk],
      and its instance over a packet. [LiteralFacts]: network literals.
      [WherePacket]: the theorems, and a packet they run on.

    Capturing:
    - [RingBuf]: internal/capture/fastrb/reader.go over a shared ring.
    - [RawSample]: internal/capture/capture.go, the layout of a ring record,
      its parser, and the batches with their arena.
    - [ByteCaps], [Accounting]: cmd/bpf-ninja/bytecap.go, accounting.go, with
      their atomics one access at a time.
    - [TagFinal], [TagFinalFacts]: the finalization of a tag, across
      cmd/bpf-ninja (finalize.go, main.go), internal/capture (capture.go,
      session.go) and internal/program/export_stats.go, as a transition
      system of exports, shards and the poll loop.
    - [Record], [RecordFacts], [RecordBuild]: internal/record (record.go,
      decode.go), internal/recordbuild, and the hook case of
      internal/output's WriteBatch.
    - [PcapNg]: internal/output (fastpcapng.go, record.go, pcap_blocks.go and
      the reader of hookmerge.go) on bytes.
    - [KWay], [Merge], [MergePcap]: the two shard merges of internal/output
      as instances of one loop over the interface [Source].

    ** What the theorems show

    - Language: scanning is lossless, parsing terminates and yields
      well-formed trees, the type checks accept exactly what their rules
      say, and the wide-slice rewriting keeps every packet's verdict.
    - Arguments: a resolved argument stays inside the object it names;
      printing and parsing agree; no accepted filter is always false.
    - Sets: what [Create] asks the kernel for is what [describe] reads back;
      keys are the bytes of the C layout; adding changes exactly the entry it
      names, and a state change the entries the iteration showed whose tag
      matches in its low 32 bits, also when the kernel refuses one.
    - Emitted code: for any kernel that keeps its helpers' contracts, the gate
      never gets stuck and falls through exactly when every condition passes
      on the value read and every set holds its key; when recording, the
      values in the snapshot are the ones tested; an entry added with [set
      add] is found by the packets that have its values. The tail ends on
      every path with its reservation given back and one counter moved, and
      what it submits is parsed to the packet it saw, with a block its
      layout accepts; a reader is woken once per quarter ring.
    - Where clause: the code falls through when the condition holds of the
      packet and leaves for the fail label when it does not, through every
      operator, quantifier, guard and field load; arithmetic is exact at its
      width, a load leaves the field's bits or rejects as the packet's length
      says, a network literal decides the bits it is compared with. The scope
      is [wf_cond], [ref_ok] and [literal_known]. Folding keeps the meaning. The code of a
      network on a gated header leaves the gate out ([gated_network_admits]).
    - Context flow: the domain is a semilattice of finite height, so the
      analyses end; [step] and [call] cover every effect of FrameView; hence
      on every run a register or slot [HeldAt] names holds the context.
      [ArgReads] is exact over all paths and callees.
    - Stack: the longest chains are the longest, the order is topological
      exactly when there is no cycle, and a passing check keeps the limits.
    - Capturing: the reader delivers the committed records in order; a batch
      owns its packets' bytes; the budget is shared exactly and its loop ends; a tag is capped once; a
      published tag is complete and never changes; comments show exactly a
      block's values and nothing secret; every session and merge yields a
      valid file with every packet once, in order of time.

    ** Fuel and bounds

    Recursions that are not structural run on fuel, and a theorem shows the
    fuel given is enough: the input length plus one for the lexer's and
    parser's loops; for [analyze], twice the 734 joins a state allows at
    each pc of the function (three per register and slot, 512 for the
    floor) plus the start; for [ArgReads], six joins per instruction and a
    recursion no deeper than the instructions; for [Prove], one round per
    function; for [passes], the functions on the recursion; for [whereGen], the
    depth of the condition. Offsets in a layer stay below 2^20 in the
    theorems of the where clause ([small]). Machine integers
    are [Z] with the wrap-around written at the operations that can leave
    the range.

    ** Parameters

    Third-party code is a parameter with named assumptions: the size and
    underlying type of BTF types ([Btf]); the kernel's helpers ([Kernel],
    [Helpers], [Rings]); what the kernel answers to the calls on a set's map
    ([MapCalls]); the pcap-ng reader and writer of [MergePcap]; the kernel's handing out of ring records by tag in
    [TagFinal]. Parts of the code generator that decide before the where
    clause are classes of the clause's files: where a layer starts and which
    slot a walk wrote ([WherePlan], [WherePlanSlots]), what a protocol's parse
    machine says of its stacks ([AuxVocab], [StackVocab]), the layers and the
    host's actions ([WhereProgram]); [where_known] and [wsite] say what the
    walks left in those slots. The concurrency models interleave the atomic accesses of
    the sources under sequential consistency, which Go's sync/atomic gives.

    ** Not modelled

    Name and layer resolution of the DSL; of the code generator the walks of
    the layers, the stack plan and bracket predicates; of the where clause
    the addresses of entries at runtime offsets (the parameter
    [stackEntryAddress]; [ref_ok] asks of a field that its place is known when
    the clause is compiled) and the [bpf_loop] form of a quantifier (the
    parameter [loop], which [wf_cond] leaves out); the p4lite front end; the observer injection and its checker; of internal/program
    the hook prologues, the run of the packet filter, gated pairs and the
    native XDP program; hook descriptions; ptrace observation;
    the command line, and everything that is a system call, BTF or kernel
    I/O, or output formatting. [CallsRefusal] of ctxflow takes its context
    type from BTF types and is left out. The manifest lists each part. *)

From Stdlib Require Import ZArith Lia Bool Ascii String List.
From stdpp Require Import base list strings numbers option.

(** ** Notation and the error monad *)

Declare Scope go_scope.
Delimit Scope go_scope with go.

(** A Go call that returns [(value, error)]: exactly one of the two is
    meaningful at every call site of the modelled code. *)
Inductive result (E A : Type) : Type :=
| Ok (a : A)
| Err (e : E).
Arguments Ok {E A} _.
Arguments Err {E A} _.

Definition result_bind {E A B : Type} (m : result E A) (k : A -> result E B) : result E B :=
  match m with
  | Ok a => k a
  | Err e => Err e
  end.

Notation "'let?' x ':=' m 'in' k" := (result_bind m (fun x => k))
  (at level 10, x pattern, m at level 100, k at level 200) : go_scope.

Definition is_ok {E A} (r : result E A) : bool := match r with Ok _ => true | Err _ => false end.

(** ** Machine integers

    A Go [uint64] is a [Z] in [[0, 2^64)]; every operation that can leave
    the range writes its wrap-around out with [u64]. [int64_of_u64] is the
    conversion [int64(x)] (and [int(x)] on the supported 64-bit hosts). *)
Definition two64 : Z := 18446744073709551616.
Definition two63 : Z := 9223372036854775808.

Definition u64 (z : Z) : Z := z mod two64.
Definition int64_of_u64 (x : Z) : Z := if (x <? two63)%Z then x else (x - two64)%Z.
Definition in_u64 (x : Z) : Prop := (0 <= x < two64)%Z.

(** A Go [int64] or [int] is a [Z] in [[-2^63, 2^63)], wrapped by [i64];
    [i16] is the conversion to [int16]. *)
Definition i64 (z : Z) : Z := ((z + two63) mod two64 - two63)%Z.
Definition i32 (z : Z) : Z := ((z + 2147483648) mod 4294967296 - 2147483648)%Z.
Definition i16 (z : Z) : Z := ((z + 32768) mod 65536 - 32768)%Z.
Definition in_i64 (z : Z) : Prop := (- two63 <= z < two63)%Z.

Lemma i32_small z : (-2147483648 <= z < 2147483648)%Z -> i32 z = z.
Proof. intros Hz. unfold i32. rewrite Z.mod_small by lia. lia. Qed.

Lemma i64_small z : (- two63 <= z < two63)%Z -> i64 z = z.
Proof. unfold i64, two63, two64. intros H. rewrite Z.mod_small; lia. Qed.

Lemma i16_small z : (-32768 <= z < 32768)%Z -> i16 z = z.
Proof. unfold i16. intros H. rewrite Z.mod_small; lia. Qed.

(** ** Shared tactics *)

Ltac deex :=
  repeat match goal with
  | H : exists (x : _), _ |- _ => let x' := fresh x in destruct H as [x' H]
  | H : _ /\ _ |- _ => destruct H
  end.

(** Splits conjunctions without unfolding definitions. *)
Ltac splits := repeat match goal with |- _ /\ _ => split end.

(** Case analysis on the scrutinee of the innermost [match] of a
    hypothesis, keeping the equation. *)
Ltac case_in H :=
  match type of H with
  | context [match ?x with _ => _ end] =>
      lazymatch x with
      | context [match _ with _ => _ end] => fail
      | _ => let E := fresh "E" in destruct x eqn:E
      end
  end.

(** Case analysis on the outermost [if] of a hypothesis. *)
Ltac case_if H :=
  match type of H with
  | (if ?b then _ else _) = _ => let E := fresh "E" in destruct b eqn:E
  end.

Ltac case_goal :=
  match goal with
  | |- context [match ?x with _ => _ end] =>
      lazymatch x with
      | context [match _ with _ => _ end] => fail
      | _ => let E := fresh "E" in destruct x eqn:E
      end
  end.

(** Turns boolean comparisons in the context into propositions. *)
Ltac bools :=
  repeat match goal with
  | H : _ && _ = true |- _ => apply andb_prop in H; destruct H
  | H : _ || _ = false |- _ => apply orb_false_elim in H; destruct H
  | H : negb _ = true |- _ => apply negb_true_iff in H
  | H : negb _ = false |- _ => apply negb_false_iff in H
  | H : (_ <=? _)%Z = true |- _ => apply Z.leb_le in H
  | H : (_ <=? _)%Z = false |- _ => apply Z.leb_gt in H
  | H : (_ <? _)%Z = true |- _ => apply Z.ltb_lt in H
  | H : (_ <? _)%Z = false |- _ => apply Z.ltb_ge in H
  | H : (_ =? _)%Z = true |- _ => apply Z.eqb_eq in H
  | H : (_ =? _)%Z = false |- _ => apply Z.eqb_neq in H
  | H : (_ <=? _)%nat = true |- _ => apply Nat.leb_le in H
  | H : (_ <=? _)%nat = false |- _ => apply Nat.leb_gt in H
  | H : (_ <? _)%nat = true |- _ => apply Nat.ltb_lt in H
  | H : (_ <? _)%nat = false |- _ => apply Nat.ltb_ge in H
  | H : (_ =? _)%nat = true |- _ => apply Nat.eqb_eq in H
  | H : (_ =? _)%nat = false |- _ => apply Nat.eqb_neq in H
  end.

(** ** Hints and generic lemmas *)

Create HintDb go.
Create Rewrite HintDb go.

Lemma result_bind_ok {E A B} (m : result E A) (k : A -> result E B) b :
  result_bind m k = Ok b <-> exists a, m = Ok a /\ k a = Ok b.
Proof.
  destruct m as [a|e]; simpl; split.
  - intros H. now exists a.
  - now intros (a' & [= ->] & H).
  - discriminate.
  - now intros (a' & [=] & _).
Qed.

Lemma result_bind_err {E A B} (m : result E A) (k : A -> result E B) e :
  result_bind m k = Err e <-> m = Err e \/ exists a, m = Ok a /\ k a = Err e.
Proof.
  destruct m as [a|e']; simpl; split.
  - intros H. right. now exists a.
  - intros [[=]|(a' & [= ->] & H)]. exact H.
  - intros [= ->]. now left.
  - intros [[= ->]|(a' & [=] & _)]. reflexivity.
Qed.

Lemma u64_range z : in_u64 (u64 z).
Proof. unfold in_u64, u64. apply Z.mod_pos_bound. reflexivity. Qed.

Lemma u64_small z : in_u64 z -> u64 z = z.
Proof. apply Z.mod_small. Qed.

Lemma int64_of_u64_nonneg x : in_u64 x -> (0 <= int64_of_u64 x)%Z -> int64_of_u64 x = x.
Proof. unfold in_u64, int64_of_u64, two64, two63. case_goal; bools; lia. Qed.

Lemma string_list_ascii_inv s : string_of_list_ascii (list_ascii_of_string s) = s.
Proof. apply string_of_list_ascii_of_string. Qed.

Lemma list_ascii_string_inv l : list_ascii_of_string (string_of_list_ascii l) = l.
Proof. apply list_ascii_of_string_of_list_ascii. Qed.

Lemma drop_lookup_cons {A} (l : list A) i x : l !! i = Some x -> drop i l = x :: drop (S i) l.
Proof. intros H. now apply drop_S. Qed.

Lemma drop_head_lookup {A} (l : list A) i x r : drop i l = x :: r -> l !! i = Some x.
Proof.
  intros H. pose proof (lookup_drop l i 0) as E. rewrite Nat.add_0_r, H in E. now symmetry.
Qed.

#[export] Hint Resolve u64_range : go.
#[export] Hint Rewrite @list_ascii_string_inv string_list_ascii_inv : go.
