(* ===== verification/GoStd.v ===== *)
(** * GoStd: the parts of Go's standard library the modelled code calls

    [strconv.ParseUint]/[ParseInt], [strings.Cut]/[HasPrefix]/[Count]/
    [Split], [netip.ParseAddr] behind [net.ParseIP] and [net.ParseCIDR],
    the fixed-width encoders of [encoding/binary], and Go errors as
    un-rendered format strings with their arguments. Nothing here has an
    entry in the development's map: the package is not under src/. *)

From Stdlib Require Import ZArith Lia Bool Ascii String List.
From stdpp Require Import pretty base list strings numbers option.
From S2P Require Import Prelude.
Local Open Scope Z_scope.
Local Open Scope go_scope.

(** ** Errors

    [fmt.Errorf(format, args...)] without the rendering: the format is
    the source's literal and the arguments are the values it is given. *)
Inductive error : Type :=
| Errorf (format : string) (args : list fmtarg)
with fmtarg : Type :=
| AStr (s : string)
| AInt (z : Z)
| AByte (c : ascii)
| AAddr (ip : list Z)
| AErr (e : error).

(** ** Bytes and characters *)

Abbreviation bytes := (list ascii).
Definition ord (c : ascii) : Z := Z.of_N (N_of_ascii c).
Definition B (s : string) : bytes := list_ascii_of_string s.
Definition str (b : bytes) : string := string_of_list_ascii b.

(** ** strconv.AppendUint, AppendInt, AppendBool; encoding/hex *)

Definition digit (d : Z) : ascii := ascii_of_N (Z.to_N (48 + d)).

(** The decimal digits of a [uint64]: at most 20 of them. *)
Fixpoint decimal (fuel : nat) (v : Z) (acc : bytes) : bytes :=
  match fuel with
  | O => acc
  | S fuel => if v <? 10 then digit v :: acc else decimal fuel (v / 10) (digit (v mod 10) :: acc)
  end.

Definition AppendUint (dst : bytes) (v : Z) : bytes := dst ++ decimal 20 v [].

Definition AppendInt (dst : bytes) (v : Z) : bytes :=
  if v <? 0 then AppendUint (dst ++ B "-") (- v) else AppendUint dst v.

Definition AppendBool (dst : bytes) (b : bool) : bytes := dst ++ B (if b then "true" else "false").

(** ["0123456789abcdef"[d]]. *)
Definition hex_digit (d : Z) : ascii := if d <? 10 then digit d else ascii_of_N (Z.to_N (87 + d)).

(** [hex.AppendEncode]: two lowercase digits per byte. *)
Definition AppendHex (dst : bytes) (data : list Z) : bytes :=
  dst ++ concat (map (fun b => [hex_digit (b / 16); hex_digit (b mod 16)]) data).

Lemma decimal_length fuel v acc : (length (decimal fuel v acc) <= fuel + length acc)%nat.
Proof.
  revert v acc. induction fuel as [|fuel IH]; intros v acc; simpl; [lia|].
  destruct (v <? 10); simpl; [lia|]. specialize (IH (v / 10) (digit (v mod 10) :: acc)). simpl in IH. lia.
Qed.

(** A number below [10^k] has at most [k] digits. *)
Lemma decimal_small fuel v acc k :
  0 <= v < 10 ^ Z.of_nat k -> (0 < k)%nat -> (length (decimal fuel v acc) <= k + length acc)%nat.
Proof.
  revert v acc k. induction fuel as [|fuel IH]; intros v acc k Hv Hk; simpl; [lia|].
  destruct (Z.ltb_spec v 10) as [H|H]; simpl; [lia|].
  destruct k as [|[|k]]; [lia|simpl in Hv; lia|].
  specialize (IH (v / 10) (digit (v mod 10) :: acc) (S k)).
  assert (0 <= v / 10 < 10 ^ Z.of_nat (S k)).
  { split; [apply Z.div_pos; lia|]. apply Z.div_lt_upper_bound; [lia|].
    rewrite <- Z.pow_succ_r by lia. rewrite <- Nat2Z.inj_succ. lia. }
  specialize (IH ltac:(lia) ltac:(lia)). simpl in IH. lia.
Qed.

Lemma AppendUint_length dst v : (length (AppendUint dst v) <= length dst + 20)%nat.
Proof. unfold AppendUint. rewrite length_app. pose proof (decimal_length 20 v []). simpl in *. lia. Qed.

Lemma AppendInt_length dst v : - two63 <= v < two63 -> (length (AppendInt dst v) <= length dst + 20)%nat.
Proof.
  intros Hv. unfold AppendInt. destruct (Z.ltb_spec v 0); [|apply AppendUint_length].
  unfold AppendUint. rewrite !length_app. simpl length.
  pose proof (decimal_small 20 (- v) [] 19 ltac:(unfold two63 in Hv; simpl; lia) ltac:(lia)). simpl length in *. lia.
Qed.

Lemma AppendBool_length dst b : (length (AppendBool dst b) <= length dst + 20)%nat.
Proof. unfold AppendBool. rewrite length_app. destruct b; simpl; lia. Qed.

Lemma AppendHex_length dst data : length (AppendHex dst data) = (length dst + 2 * length data)%nat.
Proof.
  unfold AppendHex. rewrite length_app. f_equal. induction data as [|b data IH]; [reflexivity|]. simpl in *. lia.
Qed.

(** [fmt]'s [%d] for an [int]. *)
Definition fmtd (z : Z) : string := pretty z.

(** ** strings *)

Fixpoint HasPrefix (s p : bytes) {struct p} : bool :=
  match p, s with
  | [], _ => true
  | c :: p', d :: s' => Ascii.eqb c d && HasPrefix s' p'
  | _ :: _, [] => false
  end.

(** [strings.Cut(s, sep)] for a non-empty [sep]. *)
Fixpoint Cut (s sep : bytes) : option (bytes * bytes) :=
  if HasPrefix s sep then Some ([], drop (length sep) s)
  else match s with
       | [] => None
       | c :: s' =>
           match Cut s' sep with
           | Some (before, after) => Some (c :: before, after)
           | None => None
           end
       end.

Definition ContainsRune (s : bytes) (c : ascii) : bool := existsb (Ascii.eqb c) s.
Definition CountByte (s : bytes) (c : ascii) : nat := length (List.filter (Ascii.eqb c) s).

(** [strings.Split(s, sep)] for a one-byte separator. *)
Fixpoint Split (s : bytes) (sep : ascii) : list bytes :=
  match s with
  | [] => [[]]
  | c :: s' =>
      if Ascii.eqb c sep then [] :: Split s' sep
      else match Split s' sep with
           | [] => [[c]]
           | w :: ws => (c :: w) :: ws
           end
  end.

(** ** strconv *)

Definition errSyntax (s : bytes) : error :=
  Errorf "strconv.Parse: parsing %q: invalid syntax" [AStr (str s)].
Definition errRange (s : bytes) : error :=
  Errorf "strconv.Parse: parsing %q: value out of range" [AStr (str s)].

Definition lower (c : ascii) : Z := Z.lor (ord c) 32.
Definition is_digit (c : ascii) : bool := (48 <=? ord c) && (ord c <=? 57).

Definition digit_val (c : ascii) : option Z :=
  if is_digit c then Some (ord c - 48)
  else if (97 <=? lower c) && (lower c <=? 122) then Some (lower c - 97 + 10)
  else None.

(** The digit loop of [ParseUint]: the value and whether an underscore
    was skipped. *)
Fixpoint parseUint_loop (base : Z) (base0 : bool) (maxVal : Z) (s0 s : bytes) (n : Z)
    (underscores : bool) : result error (Z * bool) :=
  match s with
  | [] => Ok (n, underscores)
  | c :: s' =>
      if Ascii.eqb c "_" && base0 then parseUint_loop base base0 maxVal s0 s' n true
      else match digit_val c with
      | None => Err (errSyntax s0)
      | Some d =>
          if base <=? d then Err (errSyntax s0)
          else if (two64 - 1) / base + 1 <=? n then Err (errRange s0)
          else
            let n' := n * base in
            let n1 := u64 (n' + d) in
            if (n1 <? n') || (maxVal <? n1) then Err (errRange s0)
            else parseUint_loop base base0 maxVal s0 s' n1 underscores
      end
  end.

(** [underscoreOK]'s scan: [saw] is the class of the last character. *)
Inductive saw_kind := SawStart | SawDigit | SawUnderscore | SawOther.

Fixpoint underscoreOK_loop (hex : bool) (saw : saw_kind) (s : bytes) : bool :=
  match s with
  | [] => match saw with SawUnderscore => false | _ => true end
  | c :: s' =>
      if is_digit c || (hex && ((97 <=? lower c) && (lower c <=? 102)))
      then underscoreOK_loop hex SawDigit s'
      else if Ascii.eqb c "_"
      then match saw with SawDigit => underscoreOK_loop hex SawUnderscore s' | _ => false end
      else match saw with SawUnderscore => false | _ => underscoreOK_loop hex SawOther s' end
  end.

Definition underscoreOK (s : bytes) : bool :=
  let s := match s with
           | c :: s' => if Ascii.eqb c "-" || Ascii.eqb c "+" then s' else s
           | [] => s
           end in
  match s with
  | "0"%char :: p :: s' =>
      if lower p =? 98 then underscoreOK_loop false SawDigit s'
      else if lower p =? 111 then underscoreOK_loop false SawDigit s'
      else if lower p =? 120 then underscoreOK_loop true SawDigit s'
      else underscoreOK_loop false SawStart s
  | _ => underscoreOK_loop false SawStart s
  end.

(** The base and the digits [ParseUint] reads for [base == 0]. *)
Definition base_prefix (s : bytes) : Z * bytes :=
  match s with
  | "0"%char :: s1 =>
      match s1 with
      | p :: ((_ :: _) as s2) =>
          if lower p =? 98 then (2, s2)
          else if lower p =? 111 then (8, s2)
          else if lower p =? 120 then (16, s2)
          else (8, s1)
      | _ => (8, s1)
      end
  | _ => (10, s)
  end.

Definition ParseUint (s : bytes) (base bitSize : Z) : result error Z :=
  match s with
  | [] => Err (errSyntax s)
  | _ =>
      let base0 := base =? 0 in
      let '(b, digits) := if base0 then base_prefix s else (base, s) in
      let? (n, underscores) :=
        parseUint_loop b base0 (2 ^ bitSize - 1) s digits 0 false in
      if underscores && negb (underscoreOK s) then Err (errSyntax s) else Ok n
  end.

(** [ParseInt(s, base, 64)]: the signed value. *)
Definition ParseInt (s : bytes) (base : Z) : result error Z :=
  match s with
  | [] => Err (errSyntax s)
  | c :: s' =>
      let neg := Ascii.eqb c "-" in
      let digits := if neg || Ascii.eqb c "+" then s' else s in
      let? un := ParseUint digits base 64 in
      if negb neg && (two63 <=? un) then Err (errRange s)
      else if neg && (two63 <? un) then Err (errRange s)
      else Ok (if neg then - un else un)
  end.

(** ** net/netip *)

Definition errAddr (msg : string) (s : bytes) : error :=
  Errorf "ParseAddr(%q): %s" [AStr (str s); AStr msg].

(** [netip.parseIPv4Fields] on the remaining bytes: [prev] is the
    previous byte ([None] at the start), [fields] the octets read. *)
Fixpoint parseIPv4Fields (s : bytes) (prev : option ascii) (val : Z) (digLen : nat)
    (fields : list Z) : option (list Z) :=
  match s with
  | [] => if (length fields <? 3)%nat then None else Some (fields ++ [val])
  | c :: s' =>
      if is_digit c then
        if ((digLen =? 1)%nat && (val =? 0)) then None
        else
          let val' := val * 10 + (ord c - 48) in
          if 255 <? val' then None
          else parseIPv4Fields s' (Some c) val' (S digLen) fields
      else if Ascii.eqb c "." then
        match prev, s' with
        | None, _ => None
        | _, [] => None
        | Some p, _ =>
            if Ascii.eqb p "." then None
            else if (length fields =? 3)%nat then None
            else parseIPv4Fields s' (Some c) 0 0 (fields ++ [val])
        end
      else None
  end.

Definition hex_val (c : ascii) : option Z :=
  if is_digit c then Some (ord c - 48)
  else if (97 <=? ord c) && (ord c <=? 102) then Some (ord c - 97 + 10)
  else if (65 <=? ord c) && (ord c <=? 70) then Some (ord c - 65 + 10)
  else None.

(** One hex group: its value, its length and the rest. [None] when the
    group has more than four digits. *)
Fixpoint hex_group (s : bytes) (acc : Z) (off : nat) : option (Z * nat * bytes) :=
  match s with
  | c :: s' =>
      match hex_val c with
      | Some d =>
          if (3 <? off)%nat then None
          else hex_group s' (acc * 16 + d) (S off)
      | None => Some (acc, off, s)
      end
  | [] => Some (acc, off, s)
  end.

(** The group loop of [netip.parseIPv6]: [ip] holds the [i] bytes read so
    far; the result is those bytes, the position of [::] and the bytes
    left over. *)
Fixpoint parseIPv6_loop (fuel : nat) (s : bytes) (ip : list Z) (ellipsis : option nat)
    : option (list Z * option nat * bytes) :=
  match fuel with
  | O => Some (ip, ellipsis, s)
  | S fuel' =>
      let i := length ip in
      if (16 <=? i)%nat then Some (ip, ellipsis, s)
      else match hex_group s 0 0 with
      | None => None
      | Some (acc, off, rest) =>
          if (off =? 0)%nat then None
          else if HasPrefix rest (B ".") then
            if match ellipsis with None => negb (i =? 12)%nat | Some _ => false end then None
            else if (16 <? i + 4)%nat then None
            else match parseIPv4Fields s None 0 0 [] with
                 | None => None
                 | Some v4 => Some (ip ++ v4, ellipsis, [])
                 end
          else
            let ip := ip ++ [acc / 256; acc mod 256] in
            match rest with
            | [] => Some (ip, ellipsis, [])
            | c :: s1 =>
                if negb (Ascii.eqb c ":") then None
                else match s1 with
                | [] => None
                | c2 :: s2 =>
                    if Ascii.eqb c2 ":" then
                      match ellipsis with
                      | Some _ => None
                      | None =>
                          match s2 with
                          | [] => Some (ip, Some (length ip), [])
                          | _ => parseIPv6_loop fuel' s2 ip (Some (length ip))
                          end
                      end
                    else parseIPv6_loop fuel' s1 ip ellipsis
                end
            end
      end
  end.

Definition finish_ipv6 (ip : list Z) (ellipsis : option nat) (s : bytes) : option (list Z) :=
  match s with
  | _ :: _ => None
  | [] =>
      if (length ip <? 16)%nat then
        match ellipsis with
        | None => None
        | Some e => Some (take e ip ++ repeat 0 (16 - length ip) ++ drop e ip)
        end
      else match ellipsis with Some _ => None | None => Some ip end
  end.

Definition is_Some_b {A} (o : option A) : bool := match o with Some _ => true | None => false end.

(** [netip.parseIPv6] on an address without a zone. *)
Definition parseIPv6 (s : bytes) : option (list Z) :=
  let '(s, ellipsis) :=
    if HasPrefix s (B "::") then (drop 2 s, Some 0%nat) else (s, None) in
  if (length s =? 0)%nat && is_Some_b ellipsis then Some (repeat 0 16)
  else match parseIPv6_loop 8 s [] ellipsis with
       | Some (ip, e, rest) => finish_ipv6 ip e rest
       | None => None
       end.

(** A parsed address without a zone: 4 octets, or 16 bytes. *)
Inductive Addr := Addr4 (o : list Z) | Addr6 (b : list Z).

(** [netip.ParseAddr] restricted to zone-less results: the callers reject
    an address that has a zone, and a [%] anywhere makes [ParseAddr] fail
    or return one. *)
Definition ParseAddr (s : bytes) : option Addr :=
  match find (fun c => Ascii.eqb c "." || Ascii.eqb c ":" || Ascii.eqb c "%") s with
  | Some c =>
      if Ascii.eqb c "." then option_map Addr4 (parseIPv4Fields s None 0 0 [])
      else if Ascii.eqb c ":" && negb (ContainsRune s "%") then option_map Addr6 (parseIPv6 s)
      else None
  | None => None
  end.

Definition v4InV6Prefix : list Z := repeat 0 10 ++ [255; 255].

(** [net.ParseIP]: the 16-byte form. *)
Definition ParseIP (s : bytes) : option (list Z) :=
  match ParseAddr s with
  | Some (Addr4 o) => Some (v4InV6Prefix ++ o)
  | Some (Addr6 b) => Some b
  | None => None
  end.

(** [IP.To4] of a 16-byte address. *)
Definition To4 (ip : list Z) : option (list Z) :=
  if decide (take 12 ip = v4InV6Prefix) then Some (drop 12 ip) else None.

(** [net.CIDRMask(ones, 8 * n)] as bytes, the most significant first. *)
Definition mask_byte (ones : Z) : Z :=
  if 8 <=? ones then 255 else if ones <=? 0 then 0 else 255 - (2 ^ (8 - ones) - 1).

Definition CIDRMask (ones : Z) (n : nat) : list Z :=
  map (fun i => mask_byte (ones - 8 * Z.of_nat i)) (seq 0 n).

Definition mask_ip (ip m : list Z) : list Z := zip_with Z.land ip m.

(** [dtoi]: the decimal prefix, [None] when it is missing or too big. *)
Fixpoint dtoi_loop (s : bytes) (n : Z) (i : nat) : option (Z * nat) :=
  match s with
  | c :: s' =>
      if is_digit c then
        let n' := n * 10 + (ord c - 48) in
        if 16777215 <=? n' then None else dtoi_loop s' n' (S i)
      else Some (n, i)
  | [] => Some (n, i)
  end.

Definition dtoi (s : bytes) : option (Z * nat) :=
  match dtoi_loop s 0 0 with
  | Some (_, O) | None => None
  | Some r => Some r
  end.

(** [net.ParseCIDR]: the address, the network address (4 or 16 bytes, the
    address's own family) and the prefix length. The 4-byte form of the
    address is used when the family is IPv4, the form [IP.Equal] compares. *)
Definition ParseCIDR (s : bytes) : option (list Z * list Z * Z) :=
  match Cut s (B "/") with
  | None => None
  | Some (addr, mask) =>
      match ParseAddr addr, dtoi mask with
      | Some a, Some (n, i) =>
          let ip := match a with Addr4 o => o | Addr6 b => b end in
          if negb (i =? length mask)%nat || (8 * Z.of_nat (length ip) <? n) then None
          else Some (ip, mask_ip ip (CIDRMask n (length ip)), n)
      | _, _ => None
      end
  end.

(** ** Lemmas *)

(** Bytes of a network address. *)
Definition octets (n : nat) (l : list Z) : Prop :=
  length l = n /\ Forall (fun b => 0 <= b < 256) l.

Lemma ord_range c : 0 <= ord c < 256.
Proof. unfold ord. pose proof (N_ascii_bounded c). lia. Qed.

Lemma is_digit_range c : is_digit c = true -> 0 <= ord c - 48 <= 9.
Proof. unfold is_digit. intros H. bools. lia. Qed.

Lemma lower_nonneg c : 0 <= lower c.
Proof. unfold lower. apply Z.lor_nonneg. pose proof (ord_range c). lia. Qed.

Lemma digit_val_nonneg c d : digit_val c = Some d -> 0 <= d.
Proof.
  unfold digit_val. destruct (is_digit c) eqn:Hd.
  - intros [= <-]. apply is_digit_range in Hd. lia.
  - pose proof (lower_nonneg c). case_goal; [|discriminate]. intros [= <-]. bools. lia.
Qed.

Lemma hex_val_range c d : hex_val c = Some d -> 0 <= d <= 15.
Proof.
  unfold hex_val. destruct (is_digit c) eqn:Hd.
  - intros [= <-]. apply is_digit_range in Hd. lia.
  - repeat case_goal; intros [=]; bools; lia.
Qed.

Lemma parseUint_loop_range base base0 maxVal s0 s n us m us' :
  0 <= n <= maxVal ->
  parseUint_loop base base0 maxVal s0 s n us = Ok (m, us') -> 0 <= m <= maxVal.
Proof.
  revert n us. induction s as [|c s IH]; simpl; intros n us Hn H.
  - injection H as <- <-. exact Hn.
  - destruct (Ascii.eqb c "_" && base0); [eauto|].
    destruct (digit_val c) as [d|] eqn:Hd; [|discriminate].
    case_in H; [discriminate|]. case_in H; [discriminate|]. case_in H; [discriminate|].
    bools. eapply IH; [|exact H]. pose proof (u64_range (n * base + d)) as [Hr _]. lia.
Qed.

Lemma ParseUint_range s base bitSize n :
  0 <= bitSize -> ParseUint s base bitSize = Ok n -> 0 <= n <= 2 ^ bitSize - 1.
Proof.
  intros Hb. unfold ParseUint. destruct s as [|c s']; [discriminate|].
  destruct (if base =? 0 then _ else _) as [b digits].
  intros H. apply result_bind_ok in H as ([m us] & Hl & H).
  assert (0 < 2 ^ bitSize) by (apply Z.pow_pos_nonneg; lia).
  case_in H; [discriminate|]. injection H as <-.
  eapply parseUint_loop_range; [|exact Hl]. lia.
Qed.

Lemma ParseUint_in_u64 s base n : ParseUint s base 64 = Ok n -> in_u64 n.
Proof. intros H. apply ParseUint_range in H; [|lia]. unfold in_u64, two64. lia. Qed.

Lemma ParseInt_range s base n : ParseInt s base = Ok n -> - two63 <= n < two63.
Proof.
  unfold ParseInt. destruct s as [|c s']; [discriminate|].
  intros H. apply result_bind_ok in H as (un & Hu & H). apply ParseUint_in_u64 in Hu.
  unfold in_u64, two63, two64 in *.
  destruct (Ascii.eqb c "-"); simpl in H; repeat (case_in H; try discriminate);
    injection H as <-; bools; lia.
Qed.

Lemma parseIPv4Fields_octets s prev val dl fields v4 :
  0 <= val < 256 -> (length fields <= 3)%nat -> Forall (fun b => 0 <= b < 256) fields ->
  parseIPv4Fields s prev val dl fields = Some v4 -> octets 4 v4.
Proof.
  revert prev val dl fields. induction s as [|c s IH]; simpl; intros prev val dl fields Hv Hl Hf H.
  - case_in H; [discriminate|]. injection H as <-. bools. split.
    + rewrite length_app. simpl. lia.
    + apply Forall_app. split; [exact Hf|]. now constructor.
  - destruct (is_digit c) eqn:Hd.
    + case_in H; [discriminate|]. case_in H; [discriminate|]. bools.
      apply is_digit_range in Hd. eapply IH; [| |exact Hf|exact H]; lia.
    + case_in H; [|discriminate]. destruct prev as [p|]; [|discriminate].
      destruct s as [|c' s']; [discriminate|].
      case_in H; [discriminate|]. case_in H; [discriminate|]. bools.
      eapply IH; [| | |exact H]; [lia| |].
      * rewrite length_app. simpl. lia.
      * apply Forall_app. split; [exact Hf|]. now constructor.
Qed.

Lemma hex_group_range s acc off v n rest :
  0 <= acc < 16 ^ Z.of_nat off -> (off <= 4)%nat ->
  hex_group s acc off = Some (v, n, rest) -> 0 <= v < 65536.
Proof.
  revert acc off. induction s as [|c s IH]; simpl; intros acc off Ha Ho H.
  - injection H as <- <- <-.
    assert (16 ^ Z.of_nat off <= 16 ^ 4) by (apply Z.pow_le_mono_r; lia). lia.
  - destruct (hex_val c) as [d|] eqn:Hd.
    + case_in H; [discriminate|]. bools. apply hex_val_range in Hd.
      eapply IH; [| |exact H]; [|lia].
      rewrite Nat2Z.inj_succ, Z.pow_succ_r by lia. lia.
    + injection H as <- <- <-.
      assert (16 ^ Z.of_nat off <= 16 ^ 4) by (apply Z.pow_le_mono_r; lia). lia.
Qed.

Lemma parseIPv6_loop_octets fuel s ip e ip' e' rest :
  (length ip + 2 * fuel = 16)%nat -> Forall (fun b => 0 <= b < 256) ip ->
  (forall k, e = Some k -> (k <= length ip)%nat) ->
  parseIPv6_loop fuel s ip e = Some (ip', e', rest) ->
  (length ip' <= 16)%nat /\ Forall (fun b => 0 <= b < 256) ip' /\
  (forall k, e' = Some k -> (k <= length ip')%nat).
Proof.
  revert s ip e. induction fuel as [|fuel IH]; intros s ip e Hl Hf He H; cbn [parseIPv6_loop] in H.
  { injection H as <- <- <-. repeat split; auto; lia. }
  cbv zeta in H. case_in H; [injection H as <- <- <-; repeat split; auto; lia|]. bools.
  destruct (hex_group s 0 0) as [[[acc off] r]|] eqn:Hg; [|discriminate].
  apply hex_group_range in Hg; [|simpl; lia|lia].
  case_in H; [discriminate|].
  assert (Hchunk : Forall (fun b => 0 <= b < 256) (ip ++ [acc / 256; acc mod 256])).
  { apply Forall_app. split; [exact Hf|].
    pose proof (Z.mod_pos_bound acc 256 eq_refl).
    pose proof (Z.div_lt_upper_bound acc 256 256).
    pose proof (Z.div_pos acc 256). repeat constructor; lia. }
  assert (Hlen : length (ip ++ [acc / 256; acc mod 256]) = (length ip + 2)%nat)
    by (rewrite length_app; reflexivity).
  remember (ip ++ [acc / 256; acc mod 256]) as ip2 eqn:Eip2. clear Eip2.
  assert (Hstop : forall q, Some (ip2, q, @nil ascii) = Some (ip', e', rest) ->
            (forall k, q = Some k -> (k <= length ip2)%nat) ->
            (length ip' <= 16)%nat /\ Forall (fun b => 0 <= b < 256) ip' /\
            (forall k, e' = Some k -> (k <= length ip')%nat)).
  { intros q [= <- <- <-] Hq. repeat split; auto; lia. }
  assert (He2 : forall k, e = Some k -> (k <= length ip2)%nat).
  { intros k Hk. apply He in Hk. lia. }
  assert (Hnew : forall k, Some (length ip2) = Some k -> (k <= length ip2)%nat).
  { intros k [= <-]. lia. }
  case_if H.
  - case_if H; [discriminate|]. case_if H; [discriminate|]. bools.
    destruct (parseIPv4Fields s None 0 0 []) as [v4|] eqn:H4; [|discriminate].
    apply parseIPv4Fields_octets in H4 as [H4l H4f]; [|lia|simpl; lia|constructor].
    injection H as <- <- <-. rewrite length_app, H4l. repeat split.
    + lia.
    + apply Forall_app. now split.
    + intros k Hk. apply He in Hk. lia.
  - destruct r as [|c r]; [eauto|]. case_if H; [discriminate|].
    destruct r as [|c2 r]; [discriminate|]. case_if H.
    + destruct e; [discriminate|]. destruct r as [|c3 r]; [eauto|].
      eapply IH; [| | |exact H]; auto. lia.
    + eapply IH; [| | |exact H]; auto. lia.
Qed.

Lemma finish_ipv6_octets ip e rest out :
  (length ip <= 16)%nat -> Forall (fun b => 0 <= b < 256) ip ->
  (forall k, e = Some k -> (k <= length ip)%nat) ->
  finish_ipv6 ip e rest = Some out -> octets 16 out.
Proof.
  intros Hl Hf He. unfold finish_ipv6. destruct rest; [|discriminate].
  case_goal; bools.
  - destruct e as [k|]; [|discriminate]. intros [= <-]. specialize (He k eq_refl). split.
    + rewrite !length_app, length_take, length_drop, repeat_length. lia.
    + rewrite !Forall_app. repeat split.
      * now apply Forall_take.
      * apply Forall_forall. intros x Hx. apply repeat_spec in Hx. lia.
      * now apply Forall_drop.
  - destruct e; [discriminate|]. intros [= <-]. split; [lia|exact Hf].
Qed.

Lemma parseIPv6_octets s ip : parseIPv6 s = Some ip -> octets 16 ip.
Proof.
  unfold parseIPv6.
  assert (He : forall s1 e, (if HasPrefix s (B "::") then (drop 2 s, Some 0%nat) else (s, None)) = (s1, e) ->
    forall k : nat, e = Some k -> (k <= length (@nil Z))%nat).
  { intros s1 e. case_goal; intros [= <- <-] k; [intros [= <-]; simpl; lia|discriminate]. }
  destruct (if HasPrefix s (B "::") then _ else _) as [s1 e]. specialize (He _ _ eq_refl).
  case_goal.
  - intros [= <-]. split; [reflexivity|]. repeat constructor; lia.
  - destruct (parseIPv6_loop 8 s1 [] e) as [[[ip' e'] rest]|] eqn:Hl; [|discriminate].
    apply parseIPv6_loop_octets in Hl as (H1 & H2 & H3); auto. now apply finish_ipv6_octets.
Qed.

Lemma ParseAddr_octets s a :
  ParseAddr s = Some a ->
  match a with Addr4 o => octets 4 o | Addr6 b => octets 16 b end.
Proof.
  unfold ParseAddr. destruct (find _ s) as [c|]; [|discriminate].
  case_goal; [|case_goal; [|discriminate]].
  - destruct (parseIPv4Fields s None 0 0 []) eqn:E'; [|discriminate]. intros [= <-].
    eapply parseIPv4Fields_octets in E'; [exact E'|lia|simpl; lia|constructor].
  - destruct (parseIPv6 s) eqn:E'; [|discriminate]. intros [= <-]. now apply parseIPv6_octets in E'.
Qed.

Lemma v4InV6_octets o : octets 4 o -> octets 16 (v4InV6Prefix ++ o).
Proof.
  intros [El Ef]. split.
  - rewrite length_app, El. reflexivity.
  - apply Forall_app. split; [|exact Ef]. repeat constructor; lia.
Qed.

Lemma ParseIP_octets s ip : ParseIP s = Some ip -> octets 16 ip.
Proof.
  unfold ParseIP. destruct (ParseAddr s) as [a|] eqn:E; [|discriminate].
  apply ParseAddr_octets in E. intros H. destruct a as [o|b].
  - apply v4InV6_octets in E. congruence.
  - congruence.
Qed.

Lemma To4_octets ip v4 : octets 16 ip -> To4 ip = Some v4 -> octets 4 v4.
Proof.
  intros [Hl Hf]. unfold To4. case_goal; [|discriminate]. intros [= <-]. split.
  - rewrite length_drop. lia.
  - now apply Forall_drop.
Qed.

Lemma dtoi_loop_nonneg s n i m j : 0 <= n -> dtoi_loop s n i = Some (m, j) -> 0 <= m.
Proof.
  revert n i. induction s as [|c s IH]; simpl; intros n i Hn H; [injection H as <- <-; lia|].
  destruct (is_digit c) eqn:Hd; [|injection H as <- <-; lia].
  case_in H; [discriminate|]. apply is_digit_range in Hd. eapply IH; [|exact H]. lia.
Qed.

Lemma dtoi_nonneg s n i : dtoi s = Some (n, i) -> 0 <= n.
Proof.
  unfold dtoi. destruct (dtoi_loop s 0 0) as [[m j]|] eqn:E; [|discriminate].
  apply dtoi_loop_nonneg in E; [|lia]. destruct j; [discriminate|]. now intros [= <- <-].
Qed.

Lemma ParseCIDR_spec s ip network n :
  ParseCIDR s = Some (ip, network, n) ->
  (octets 4 ip \/ octets 16 ip) /\ 0 <= n <= 8 * Z.of_nat (length ip) /\
  network = mask_ip ip (CIDRMask n (length ip)).
Proof.
  unfold ParseCIDR. destruct (Cut s (B "/")) as [[addr mask]|]; [|discriminate].
  destruct (ParseAddr addr) as [a|] eqn:Ea; [|discriminate].
  destruct (dtoi mask) as [[m i]|] eqn:Ed; [|discriminate].
  apply ParseAddr_octets in Ea. apply dtoi_nonneg in Ed.
  destruct (negb _ || _) eqn:Hc; [discriminate|]. intros [= <- <- <-]. bools.
  split; [|split; [lia|reflexivity]]. destruct a; auto.
Qed.

(** ** Prefixes and cuts *)

Lemma HasPrefix_inv s p : HasPrefix s p = true -> exists r, s = p ++ r.
Proof.
  revert s. induction p as [|c p IH]; intros s H; [now exists s|].
  destruct s as [|d s]; [discriminate|]. simpl in H. apply andb_true_iff in H as [E H]. apply Ascii.eqb_eq in E. subst.
  destruct (IH s) as [r ->]; [assumption|]. now exists r.
Qed.


Lemma HasPrefix_app p s : HasPrefix (p ++ s) p = true.
Proof. induction p as [|c p IH]; [reflexivity|]. cbn [app HasPrefix]. now rewrite Ascii.eqb_refl. Qed.

Lemma Cut_absent c sep s : Forall (fun x => Ascii.eqb c x = false) s -> Cut s (c :: sep) = None.
Proof. induction 1 as [|x s Hx _ IH]; [reflexivity|]. cbn [Cut HasPrefix]. now rewrite Hx, IH. Qed.

Lemma neq_eqb c s : Forall (fun d => d <> c) s -> Forall (fun d => Ascii.eqb c d = false) s.
Proof. intros H. eapply List.Forall_impl; [|exact H]. intros d Hd. apply Ascii.eqb_neq. auto. Qed.
