(* ===== verification/GoBytes.v ===== *)
(** * GoBytes: byte slices and fixed-width integers in them

    Bytes are [Z] in [[0, 256)]. [encoding/binary]'s little-endian integers
    (the byte order of the supported hosts, so also [NativeEndian]), slicing
    and indexing with the bounds checks that panic ([None]). *)

From Stdlib Require Import ZArith Lia Bool Ascii String List.
From stdpp Require Import base list numbers option.
From S2P Require Import Prelude GoStd.
Local Open Scope Z_scope.

Definition u32 (z : Z) : Z := z mod 2 ^ 32.
Definition u16 (z : Z) : Z := z mod 2 ^ 16.

(** ** Little-endian integers *)

(** [binary.LittleEndian.PutUint16/32/64]: the low [n] bytes of [v]. *)
Fixpoint le (n : nat) (v : Z) : list Z :=
  match n with
  | O => []
  | S n' => v mod 256 :: le n' (v / 256)
  end.

Definition unle (l : list Z) : Z := fold_right (fun b acc => b + 256 * acc) 0 l.

(** [Uint16/32/64(b[off:])]; [None] is a slice out of range. *)
Definition rd (n : nat) (off : nat) (b : list Z) : option Z :=
  if (off + n <=? length b)%nat then Some (unle (take n (drop off b))) else None.

(** [b[lo:hi]]. *)
Definition sl (lo hi : nat) (b : list Z) : option (list Z) :=
  if ((lo <=? hi) && (hi <=? length b))%nat then Some (take (hi - lo) (drop lo b)) else None.

Definition len (b : list Z) : Z := Z.of_nat (length b).

(** ** Calls that can panic *)

(** An error, or a run-time panic (an index out of range). *)
Inductive rcerr := RcErr (e : error) | RcPanic.

Definition getp {A} (o : option A) : result rcerr A := match o with Some a => Ok a | None => Err RcPanic end.
Definition rerrorf {A} (f : string) (args : list fmtarg) : result rcerr A := Err (RcErr (Errorf f args)).

(** [copy(buf[off:off+len(data)], data)]. *)
Definition copy_at (off : nat) (data buf : list Z) : option (list Z) :=
  if (off + length data <=? length buf)%nat then Some (take off buf ++ data ++ drop (off + length data) buf) else None.

(** ** Lemmas *)

Lemma u32_small z : 0 <= z < 2 ^ 32 -> u32 z = z.
Proof. apply Z.mod_small. Qed.

Lemma le_length n v : length (le n v) = n.
Proof. revert v. induction n as [|n IH]; intros v; [reflexivity|]. simpl. now rewrite IH. Qed.

Lemma unle_le n v : unle (le n v) = v mod 256 ^ Z.of_nat n.
Proof.
  revert v. induction n as [|n IH]; intros v; [simpl; now rewrite Z.mod_1_r|].
  cbn [le unle fold_right]. fold (unle (le n (v / 256))). rewrite IH, Nat2Z.inj_succ, Z.pow_succ_r by lia.
  rewrite Z.rem_mul_r by lia. lia.
Qed.

Lemma unle_le4 v : 0 <= v < 2 ^ 32 -> unle (le 4 v) = v.
Proof. intros H. rewrite unle_le. now apply Z.mod_small. Qed.

(** Reading past a prefix of known length. *)
Lemma rd_app n off a b : length a = off -> rd n off (a ++ b) = rd n 0 b.
Proof.
  intros <-. unfold rd. rewrite length_app, drop_app_length.
  destruct (_ <=? _)%nat eqn:E1, (_ <=? length b)%nat eqn:E2; auto; bools; lia.
Qed.

Lemma rd_le n v b : rd n 0 (le n v ++ b) = Some (v mod 256 ^ Z.of_nat n).
Proof.
  unfold rd. rewrite length_app, le_length. replace (0 + n <=? n + length b)%nat with true by (symmetry; apply Nat.leb_le; lia).
  rewrite drop_0. rewrite take_app_length' by (symmetry; apply le_length). now rewrite unle_le.
Qed.

Lemma len_nonneg b : 0 <= len b.
Proof. unfold len. lia. Qed.


Definition byte (x : Z) : Prop := 0 <= x < 256.

Lemma unle_range b : Forall byte b -> 0 <= unle b < 256 ^ len b.
Proof.
  induction 1 as [|x b Hx _ IH]; [unfold len; simpl; lia|]. cbn [unle fold_right].
  fold (unle b). unfold len in *. simpl length. rewrite Nat2Z.inj_succ, Z.pow_succ_r by lia. unfold byte in Hx. nia.
Qed.

Lemma le_byte n v : Forall byte (le n v).
Proof. revert v. induction n as [|n IH]; intros v; cbn [le]; constructor; [now apply Z.mod_pos_bound|apply IH]. Qed.
