(* ===== verification/GoText.v ===== *)
(** * GoText: strings, decimal numbers and regular expressions of the Go library

    The functions of [strings] and [regexp] the argument syntax uses. A
    regular expression is data; its matcher lists what is left after each
    way to match, preferred first (Go's leftmost-first choice), and is
    exactly the language the expression denotes. *)

From Stdlib Require Import ZArith Lia Bool Ascii String List.
From stdpp Require Import base list strings numbers option.
From S2P Require Import Prelude GoStd.
Local Open Scope Z_scope.

(** ** strings *)

Definition HasSuffix (s p : bytes) : bool := HasPrefix (rev s) (rev p).

Definition TrimPrefix (s p : bytes) : bytes := if HasPrefix s p then drop (length p) s else s.
Definition TrimSuffix (s p : bytes) : bytes := if HasSuffix s p then take (length s - length p) s else s.

(** The UTF-8 encodings of the runes [unicode.IsSpace] accepts. *)
Definition of_codes (l : list Z) : bytes := map (fun z => ascii_of_N (Z.to_N z)) l.

Definition spaces : list bytes :=
  map of_codes
    ([[9]; [10]; [11]; [12]; [13]; [32]; [194; 133]; [194; 160]; [225; 154; 128]]
     ++ map (fun z => [226; 128; z]) [128; 129; 130; 131; 132; 133; 134; 135; 136; 137; 138; 168; 169; 175]
     ++ [[226; 129; 159]; [227; 128; 128]]).

(** Drops leading members of [set] (non-empty strings). *)
Fixpoint trim_left (fuel : nat) (set : list bytes) (s : bytes) : bytes :=
  match fuel with
  | O => s
  | S fuel =>
      match find (HasPrefix s) set with
      | Some p => trim_left fuel set (drop (length p) s)
      | None => s
      end
  end.

(** [strings.TrimSpace]. *)
Definition TrimSpace (s : bytes) : bytes :=
  let s := trim_left (length s) spaces s in
  rev (trim_left (length s) (map (@rev ascii) spaces) (rev s)).

(** [strings.Split(s, sep)] for a non-empty [sep]. *)
Fixpoint split_fuel (fuel : nat) (s sep : bytes) : list bytes :=
  match fuel with
  | O => [s]
  | S fuel =>
      match Cut s sep with
      | Some (before, after) => before :: split_fuel fuel after sep
      | None => [s]
      end
  end.

Definition SplitS (s sep : bytes) : list bytes := split_fuel (length s) s sep.

Fixpoint Join (l : list bytes) (sep : bytes) : bytes :=
  match l with
  | [] => []
  | [x] => x
  | x :: l => x ++ sep ++ Join l sep
  end.

Definition ContainsAny (s chars : bytes) : bool := existsb (fun c => existsb (Ascii.eqb c) chars) s.

(** ** regexp *)

Inductive re :=
| Chr (p : ascii -> bool)
| Eps
| Seq (a b : re)
| Alt (a b : re)
| Star (a : re).

Definition Plus (a : re) : re := Seq a (Star a).
Definition Opt (a : re) : re := Alt a Eps.
Fixpoint Lit (s : bytes) : re := match s with [] => Eps | c :: s => Seq (Chr (Ascii.eqb c)) (Lit s) end.

(** [a*]: an iteration that matches nothing ends the loop. *)
Fixpoint star (fuel : nat) (f : bytes -> list bytes) (s : bytes) : list bytes :=
  match fuel with
  | O => [s]
  | S fuel => flat_map (fun r => if (length r <? length s)%nat then star fuel f r else []) (f s) ++ [s]
  end.

(** What is left of [s] after each match of [e] at its front, in order of
    preference. *)
Fixpoint rests (e : re) (s : bytes) : list bytes :=
  match e with
  | Chr p => match s with c :: r => if p c then [r] else [] | [] => [] end
  | Eps => [s]
  | Seq a b => flat_map (rests b) (rests a s)
  | Alt a b => rests a s ++ rests b s
  | Star a => star (length s) (rests a) s
  end.

(** [^e$]. *)
Definition MatchString (e : re) (s : bytes) : bool :=
  existsb (fun r => match r with [] => true | _ => false end) (rests e s).

(** [a b] for the text [a] in front of [rest]. *)
Definition before (s rest : bytes) : bytes := take (length s - length rest) s.

(** The submatches of [^(a)(b)...$]: the preferred way to match the groups
    in turn. *)
Fixpoint submatches (groups : list re) (s : bytes) : option (list bytes) :=
  match groups with
  | [] => match s with [] => Some [] | _ => None end
  | g :: groups =>
      (fix first (l : list bytes) : option (list bytes) :=
         match l with
         | [] => None
         | r :: l =>
             match submatches groups r with
             | Some ms => Some (before s r :: ms)
             | None => first l
             end
         end) (rests g s)
  end.

(** ** The language of an expression *)

Inductive lang : re -> bytes -> Prop :=
| L_chr p c : p c = true -> lang (Chr p) [c]
| L_eps : lang Eps []
| L_seq a b s t : lang a s -> lang b t -> lang (Seq a b) (s ++ t)
| L_altl a b s : lang a s -> lang (Alt a b) s
| L_altr a b s : lang b s -> lang (Alt a b) s
| L_star0 a : lang (Star a) []
| L_star a s t : lang a s -> s <> [] -> lang (Star a) t -> lang (Star a) (s ++ t).

Lemma star_spec f (P : bytes -> Prop) (HP : forall s r, In r (f s) <-> exists p, s = p ++ r /\ P p) :
  forall fuel s r, (length s <= fuel)%nat ->
    In r (star fuel f s) <->
    exists ps, s = concat ps ++ r /\ Forall (fun p => P p /\ p <> []) ps.
Proof.
  induction fuel as [|fuel IH]; intros s r Hf; cbn [star].
  { destruct s; [|simpl in Hf; lia]. split.
    - intros [<-|[]]. exists []. now split.
    - intros (ps & Hs & _). symmetry in Hs. apply app_eq_nil in Hs as [_ ->]. now left. }
  rewrite in_app_iff, in_flat_map. split.
  - intros [(x & Hx & Hr)|[<-|[]]]; [|exists []; now split].
    destruct (Nat.ltb_spec (length x) (length s)) as [Hlt|]; [|easy].
    apply HP in Hx as (p & -> & Hp). rewrite length_app in Hlt, Hf.
    apply IH in Hr as (ps & -> & Hps); [|lia]. exists (p :: ps). split; [simpl; now rewrite <- app_assoc|].
    constructor; [|exact Hps]. split; [exact Hp|]. intros ->. simpl in Hlt. lia.
  - intros (ps & -> & Hps). destruct Hps as [|p ps [Hp Hne] Hps]; [right; now left|left].
    exists (concat ps ++ r). split; [apply HP; exists p; split; [simpl; now rewrite <- app_assoc|exact Hp]|].
    assert (0 < length p)%nat by (destruct p; [easy|simpl; lia]).
    simpl concat in *. rewrite !length_app in *. replace (_ <? _)%nat with true by (symmetry; apply Nat.ltb_lt; lia).
    apply IH; [rewrite length_app; lia|]. exists ps. now split.
Qed.

Lemma lang_star_concat a w : lang (Star a) w <-> exists ps, w = concat ps /\ Forall (fun p => lang a p /\ p <> []) ps.
Proof.
  split.
  - remember (Star a) as e eqn:E. intros H. induction H; try discriminate; injection E as ->; [exists []; now split|].
    destruct IHlang2 as (ps & -> & Hps); [reflexivity|]. exists (s :: ps). split; [reflexivity|]. now constructor.
  - intros (ps & -> & Hps). induction Hps as [|p ps [Hp Hn] _ IH]; [constructor|]. now apply L_star.
Qed.

(** The matcher finds exactly the words of the language. *)
Lemma rests_spec e s r : In r (rests e s) <-> exists p, s = p ++ r /\ lang e p.
Proof.
  revert s r. induction e as [p| |a IHa b IHb|a IHa b IHb|a IHa]; intros s r; cbn [rests].
  - split.
    + destruct s as [|c s]; [easy|]. destruct (p c) eqn:E; [|easy]. intros [<-|[]]. exists [c]. split; [reflexivity|now constructor].
    + intros (w & -> & Hw). inversion Hw; subst. simpl. rewrite H0. now left.
  - split; [intros [<-|[]]; exists []; split; [reflexivity|constructor]|]. intros (w & -> & Hw). inversion Hw. now left.
  - rewrite in_flat_map. split.
    + intros (x & Hx & Hr). apply IHa in Hx as (w & -> & Hw). apply IHb in Hr as (v & -> & Hv).
      exists (w ++ v). split; [apply app_assoc|now constructor].
    + intros (w & -> & Hw). inversion Hw; subst. exists (t ++ r). rewrite <- app_assoc.
      split; [apply IHa|apply IHb]; eauto.
  - rewrite in_app_iff, IHa, IHb. split.
    + intros [(w & -> & Hw)|(w & -> & Hw)]; exists w; split; auto; [now apply L_altl|now apply L_altr].
    + intros (w & -> & Hw). inversion Hw; subst; eauto.
  - rewrite (star_spec _ (lang a) IHa) by lia. split.
    + intros (ps & -> & Hps). exists (concat ps). split; [reflexivity|]. apply lang_star_concat. eauto.
    + intros (w & -> & Hw). apply lang_star_concat in Hw as (ps & -> & Hps). eauto.
Qed.

Lemma MatchString_spec e s : MatchString e s = true <-> lang e s.
Proof.
  unfold MatchString. rewrite existsb_exists. split.
  - intros ([|] & Hr & H); [|discriminate]. apply rests_spec in Hr as (p & -> & Hp). now rewrite app_nil_r.
  - intros H. exists []. split; [|reflexivity]. apply rests_spec. exists s. now rewrite app_nil_r.
Qed.

Lemma before_app a b : before (a ++ b) b = a.
Proof. unfold before. rewrite length_app, Nat.add_sub. apply take_app_length. Qed.

(** The submatches concatenate to the string, each in its group's language. *)
Lemma submatches_sound groups s ms :
  submatches groups s = Some ms -> s = concat ms /\ Forall2 lang groups ms.
Proof.
  revert s ms. induction groups as [|g groups IH]; intros s ms; cbn [submatches].
  { destruct s; [|discriminate]. intros [= <-]. now split. }
  assert (Hin : forall r, In r (rests g s) -> exists p, s = p ++ r /\ lang g p) by (intros r; apply rests_spec).
  revert Hin. generalize (rests g s). intros l. induction l as [|r l IHl]; intros Hin; [discriminate|].
  destruct (submatches groups r) as [ms'|] eqn:E; [|apply IHl; intros; apply Hin; now right].
  intros [= <-]. destruct (IH r ms' E) as [-> HF]. destruct (Hin _ (or_introl eq_refl)) as (p & -> & Hp).
  rewrite before_app. split; [reflexivity|now constructor].
Qed.

(** When a first group can only end in one place, the rest follows. *)
Lemma submatches_unique g groups p rest ms :
  lang g p -> submatches groups rest = Some ms ->
  (forall q r, lang g q -> p ++ rest = q ++ r -> q <> p -> submatches groups r = None) ->
  submatches (g :: groups) (p ++ rest) = Some (p :: ms).
Proof.
  intros Hp Hms Hu. cbn [submatches].
  assert (Hin : forall r, In r (rests g (p ++ rest)) -> exists q, p ++ rest = q ++ r /\ lang g q) by (intros r; apply rests_spec).
  assert (Hr : In rest (rests g (p ++ rest))) by (apply rests_spec; eauto).
  revert Hin Hr. generalize (rests g (p ++ rest)). intros l. induction l as [|r l IHl]; intros Hin Hr; [easy|].
  destruct (Hin r (or_introl eq_refl)) as (q & Hq & Lq).
  destruct (list_eq_dec ascii_dec q p) as [->|Hne].
  - apply app_inv_head in Hq as <-. rewrite Hms, before_app. reflexivity.
  - rewrite (Hu q r Lq Hq Hne). apply IHl; [intros; apply Hin; now right|].
    destruct Hr as [->|Hr]; [|exact Hr]. apply app_inv_tail in Hq. now symmetry in Hq.
Qed.

(** ** Decimal numbers *)

(** The value of a digit string. *)
Definition decimal_value (s : bytes) : Z := fold_left (fun n c => 10 * n + (ord c - 48)) s 0.

Lemma ord_digit d : 0 <= d < 10 -> ord (digit d) = 48 + d.
Proof.
  intros Hd. unfold ord, digit. rewrite N_ascii_embedding by lia. lia.
Qed.

Lemma digit_is_digit d : 0 <= d < 10 -> is_digit (digit d) = true.
Proof. intros Hd. unfold is_digit. rewrite ord_digit by exact Hd. apply andb_true_intro. split; lia. Qed.

Lemma decimal_digits fuel v acc :
  0 <= v -> (fuel = 0%nat \/ v < 10 ^ Z.of_nat fuel) -> Forall (fun c => is_digit c = true) acc ->
  Forall (fun c => is_digit c = true) (decimal fuel v acc).
Proof.
  revert v acc. induction fuel as [|fuel IH]; intros v acc Hv Hf Ha; cbn [decimal]; [exact Ha|].
  destruct (Z.ltb_spec v 10); [constructor; [apply digit_is_digit; lia|exact Ha]|].
  apply IH; [apply Z.div_pos; lia| |].
  - destruct Hf as [|Hf]; [easy|]. right. rewrite Nat2Z.inj_succ, Z.pow_succ_r in Hf by lia. apply Z.div_lt_upper_bound; lia.
  - constructor; [apply digit_is_digit, Z.mod_pos_bound; lia|exact Ha].
Qed.

Lemma decimal_nonempty fuel v acc : (0 < fuel)%nat -> decimal fuel v acc <> [].
Proof.
  assert (H : forall fuel v acc, acc <> [] -> decimal fuel v acc <> []).
  { induction fuel0 as [|f IH]; intros w a Ha; cbn [decimal]; [exact Ha|]. destruct (w <? 10); [discriminate|]. apply IH. discriminate. }
  destruct fuel as [|f]; [lia|]. intros _. cbn [decimal]. destruct (v <? 10); [discriminate|]. apply H. discriminate.
Qed.

Definition push_digit (n : Z) (c : ascii) : Z := 10 * n + (ord c - 48).

Lemma push_mono s n : 0 <= n -> Forall (fun c => is_digit c = true) s -> n <= fold_left push_digit s n.
Proof.
  intros Hn Hs. revert n Hn. induction Hs as [|c s Hc _ IH]; intros n Hn; [simpl; lia|]. cbn [fold_left].
  apply is_digit_range in Hc. unfold push_digit at 2. assert (n <= 10 * n + (ord c - 48)) by lia.
  specialize (IH (push_digit n c)). unfold push_digit in *. lia.
Qed.

Lemma decimal_fold fuel v acc n :
  0 <= v -> v < 10 ^ Z.of_nat fuel ->
  exists k, fold_left push_digit (decimal fuel v acc) n = fold_left push_digit acc (n * 10 ^ Z.of_nat k + v) /\ (k <= fuel)%nat.
Proof.
  revert v acc. induction fuel as [|fuel IH]; intros v acc Hv Hf; cbn [decimal].
  { exists 0%nat. simpl Z.of_nat in *. change (10 ^ 0) with 1 in *. split; [f_equal; lia|lia]. }
  destruct (Z.ltb_spec v 10).
  - exists 1%nat. cbn [fold_left]. split; [|lia]. f_equal. unfold push_digit. rewrite ord_digit by lia. change (Z.of_nat 1) with 1. lia.
  - rewrite Nat2Z.inj_succ, Z.pow_succ_r in Hf by lia.
    destruct (IH (v / 10) (digit (v mod 10) :: acc)) as (k & -> & Hk); [apply Z.div_pos; lia|apply Z.div_lt_upper_bound; lia|].
    exists (S k). split; [|lia]. cbn [fold_left]. f_equal. unfold push_digit. rewrite ord_digit by (apply Z.mod_pos_bound; lia).
    rewrite Nat2Z.inj_succ, Z.pow_succ_r by lia. pose proof (Z.div_mod v 10). lia.
Qed.

Lemma parseUint_digits maxVal s0 s n us :
  Forall (fun c => is_digit c = true) s -> 0 <= n -> fold_left push_digit s n <= maxVal -> maxVal < two64 ->
  parseUint_loop 10 false maxVal s0 s n us = Ok (fold_left push_digit s n, us).
Proof.
  intros Hs. revert n us. induction Hs as [|c s Hc Hs IH]; intros n us Hn Hm H64; [reflexivity|].
  cbn [parseUint_loop fold_left] in *. rewrite andb_false_r. unfold digit_val. rewrite Hc.
  pose proof (is_digit_range c Hc) as Hd. replace (10 <=? ord c - 48) with false by lia.
  pose proof (push_mono s (push_digit n c)) as Hmono. specialize (Hmono ltac:(unfold push_digit; lia) Hs).
  unfold push_digit in Hmono at 1. assert (Hn64 : 10 * n + (ord c - 48) <= maxVal) by lia.
  replace ((two64 - 1) / 10 + 1 <=? n) with false by (unfold two64 in *; symmetry; apply Z.leb_gt; change ((18446744073709551616 - 1) / 10) with 1844674407370955161; lia).
  rewrite u64_small by (unfold in_u64; lia).
  replace (n * 10 + (ord c - 48) <? n * 10) with false by lia. replace (maxVal <? n * 10 + (ord c - 48)) with false by lia.
  cbn [orb]. replace (n * 10 + (ord c - 48)) with (push_digit n c) by (unfold push_digit; lia). apply IH; unfold push_digit in *; lia.
Qed.

(** Printing and parsing an unsigned number. *)
Lemma ParseUint_decimal v : in_u64 v -> ParseUint (AppendUint [] v) 10 64 = Ok v.
Proof.
  intros Hv. unfold in_u64, two64 in Hv. unfold AppendUint. rewrite app_nil_l. unfold ParseUint.
  destruct (decimal 20 v []) as [|c s] eqn:E; [now apply decimal_nonempty in E; [|lia]|]. rewrite <- E. clear E c s.
  change (10 =? 0) with false. cbv beta iota zeta.
  destruct (decimal_fold 20 v [] 0) as (k & Hk & _); [lia|change (10 ^ Z.of_nat 20) with 100000000000000000000; lia|].
  cbn [fold_left] in Hk. rewrite Z.mul_0_l, Z.add_0_l in Hk.
  rewrite parseUint_digits; [cbn [result_bind]; now rewrite Hk|..]; try lia.
  - apply decimal_digits; [lia|right; change (10 ^ Z.of_nat 20) with 100000000000000000000; lia|constructor].
  - reflexivity.
Qed.

Lemma AppendUint_digits v : in_u64 v -> Forall (fun c => is_digit c = true) (AppendUint [] v).
Proof.
  intros Hv. unfold in_u64, two64 in Hv. apply decimal_digits; [lia| |constructor]. right.
  change (10 ^ Z.of_nat 20) with 100000000000000000000. lia.
Qed.

Lemma AppendUint_nonempty v : AppendUint [] v <> [].
Proof. apply decimal_nonempty. lia. Qed.

Lemma ParseInt_decimal v : - two63 <= v < two63 -> ParseInt (AppendInt [] v) 10 = Ok v.
Proof.
  intros Hv. unfold AppendInt. unfold two63 in Hv. destruct (Z.ltb_spec v 0).
  - change (AppendUint ([] ++ B "-") (- v)) with ("-"%char :: AppendUint [] (- v)). unfold ParseInt.
    change (Ascii.eqb "-" "-") with true. cbn [orb andb negb].
    rewrite ParseUint_decimal by (unfold in_u64, two64; lia). cbn [result_bind].
    replace (two63 <? - v) with false by (unfold two63; lia). f_equal. lia.
  - pose proof (AppendUint_digits v ltac:(unfold in_u64, two64; lia)) as Hd. pose proof (ParseUint_decimal v ltac:(unfold in_u64, two64; lia)) as Hp.
    unfold ParseInt. destruct (AppendUint [] v) as [|c s]; [discriminate|]. inversion Hd as [|? ? Hc _]; subst.
    assert (Hc' : Ascii.eqb c "-" = false /\ Ascii.eqb c "+" = false).
    { split; apply Ascii.eqb_neq; intros ->; discriminate Hc. }
    destruct Hc' as [-> ->]. cbn [orb andb negb]. rewrite Hp. cbn [result_bind]. replace (two63 <=? v) with false by (unfold two63; lia). reflexivity.
Qed.

(** ** Trimming and splitting clean text *)

Definition starts_outside (p : bytes) : bool := match p with c :: _ => (ord c <? 33) || (128 <=? ord c) | [] => false end.

Definition printable (c : ascii) : Prop := 33 <= ord c < 128.

Lemma trim_left_clean set fuel s :
  forallb starts_outside set = true -> Forall printable s -> trim_left fuel set s = s.
Proof.
  intros Hset Hs. destruct fuel as [|fuel]; [reflexivity|]. cbn [trim_left].
  destruct (find (HasPrefix s) set) as [p|] eqn:E; [|reflexivity]. apply find_some in E as [Hin Hpre].
  rewrite forallb_forall in Hset. specialize (Hset p Hin). destruct p as [|c q]; [discriminate|].
  destruct Hs as [|d t Hd _]; [discriminate|]. cbn [HasPrefix] in Hpre. apply andb_prop in Hpre as [He _].
  apply Ascii.eqb_eq in He as ->. unfold starts_outside, printable in *. lia.
Qed.

(** Printable text is not trimmed. *)
Lemma TrimSpace_clean s : Forall printable s -> TrimSpace s = s.
Proof.
  intros Hs. unfold TrimSpace. rewrite (trim_left_clean spaces) by (reflexivity || exact Hs).
  rewrite trim_left_clean; [apply rev_involutive|reflexivity|]. now apply Forall_rev.
Qed.
