(* ===== verification/HookAbi.v ===== *)
(** * HookAbi: BTF types and the rule for what may be shown (internal/hookabi)

    The types of github.com/cilium/ebpf/btf as data, with the two library
    functions the code calls, [UnderlyingType] and [Sizeof], as parameters;
    hookabi.go's [Plain] and [Opaque]; and the theorem that plain types hold
    no pointer and no kernel-managed struct. *)

From Stdlib Require Import ZArith Lia Bool Ascii String List.
From stdpp Require Import base list strings numbers option.
From S2P Require Import Prelude GoStd GoBytes.
Local Open Scope Z_scope.

(** [btf.IntEncoding]: the bit flags of a BTF integer. *)
Definition Encoding : Type := Z.
Definition EncUnsigned : Encoding := 0.
Definition EncSigned : Encoding := 1.
Definition EncChar : Encoding := 2.
Definition EncBool : Encoding := 4.

(** The type constructors the source tells apart; [TQual] stands for
    typedefs (with their name) and qualifiers, [TOther] for every other kind. BTF types can be
    cyclic through pointers only; the code never looks behind a second
    pointer, so a target below the first may be cut off. *)
Inductive Ty :=
| TVoid
| TInt (Size : Z) (enc : Encoding)
| TEnum (Size : Z) (Signed : bool)
| TPointer (Target : Ty)
| TArray (Elem : Ty) (Nelems : Z)
| TStruct (Name : bytes) (Size : Z) (Members : list Member)
| TUnion (Name : bytes) (Size : Z) (Members : list Member)
| TQual (Name : option bytes) (t : Ty)
| TFloat (Size : Z)
| TOther
with Member :=
| mkMember (Name : bytes) (Type_ : Ty) (Offset BitfieldSize : Z).

Definition MName (m : Member) : bytes := match m with mkMember n _ _ _ => n end.
Definition MType (m : Member) : Ty := match m with mkMember _ t _ _ => t end.
Definition MOffset (m : Member) : Z := match m with mkMember _ _ o _ => o end.
Definition BitfieldSize (m : Member) : Z := match m with mkMember _ _ _ b => b end.

Fixpoint depth (t : Ty) : nat :=
  let members := fix members (ms : list Member) : nat :=
    match ms with
    | [] => 0%nat
    | mkMember _ t _ _ :: ms => Nat.max (depth t) (members ms)
    end in
  match t with
  | TArray e _ => S (depth e)
  | TStruct _ _ ms | TUnion _ _ ms => S (members ms)
  | TQual _ t => depth t
  | _ => 0%nat
  end.

Definition depth_members (ms : list Member) : nat := fold_right (fun m n => Nat.max (depth (MType m)) n) 0%nat ms.

(** The library: [UnderlyingType] skips qualifiers and typedefs, so its
    result is no deeper; [Sizeof] is a size in bytes, or fails: the declared
    size of a sized type, an array's element size times its length. *)
Class Btf := {
  UnderlyingType : Ty -> Ty;
  Sizeof : Ty -> option Z;
  UnderlyingType_depth t : (depth (UnderlyingType t) <= depth t)%nat;
  UnderlyingType_self t : (forall n q, t <> TQual n q) -> UnderlyingType t = t;
  UnderlyingType_qual n t : (forall n q, t <> TQual n q) -> UnderlyingType (TQual n t) = t;
  UnderlyingType_bare t n q : UnderlyingType t <> TQual n q;
  Sizeof_range t n : Sizeof t = Some n -> 0 <= n < two63;
  Sizeof_underlying t : Sizeof (UnderlyingType t) = Sizeof t;
  Sizeof_int n enc : 0 <= n < 2 ^ 32 -> Sizeof (TInt n enc) = Some n;
  Sizeof_enum n sg : 0 <= n < 2 ^ 32 -> Sizeof (TEnum n sg) = Some n;
  Sizeof_struct name n ms : 0 <= n < 2 ^ 32 -> Sizeof (TStruct name n ms) = Some n;
  Sizeof_union name n ms : 0 <= n < 2 ^ 32 -> Sizeof (TUnion name n ms) = Some n;
  Sizeof_array e n k : 0 <= n -> Sizeof e = Some k -> k * n < 2 ^ 32 -> Sizeof (TArray e n) = Some (k * n)
}.

Definition Opaque (name : bytes) : bool :=
  if bool_decide (name = B "bpf_lpm_trie_key") || bool_decide (name = B "bpf_lpm_trie_key_hdr")
     || bool_decide (name = B "bpf_lpm_trie_key_u8")
  then false else HasPrefix name (B "bpf_").

Section Plain.
Context `{Btf}.

(** [fuel] is [33 - depth]: the source gives up past depth 32. *)
Fixpoint plain (fuel : nat) (t : Ty) : bool :=
  match fuel with
  | O => false
  | S fuel =>
      match UnderlyingType t with
      | TInt _ _ | TEnum _ _ => true
      | TArray e _ => plain fuel e
      | TStruct name _ ms => if Opaque name then false else forallb (fun m => plain fuel (MType m)) ms
      | TUnion _ _ ms => forallb (fun m => plain fuel (MType m)) ms
      | _ => false
      end
  end.

Definition Plain (t : Ty) : bool := plain 33 t.

(** [holds t u]: a value of type [t] holds a value of (underlying) type [u]. *)
Inductive holds : Ty -> Ty -> Prop :=
| holds_self t : holds t (UnderlyingType t)
| holds_elem t e n u : UnderlyingType t = TArray e n -> holds e u -> holds t u
| holds_struct t name sz ms m u : UnderlyingType t = TStruct name sz ms -> In m ms -> holds (MType m) u -> holds t u
| holds_union t name sz ms m u : UnderlyingType t = TUnion name sz ms -> In m ms -> holds (MType m) u -> holds t u.

(** What must never be shown: pointers, [bpf_*] structs, unknown kinds. *)
Definition secret (t : Ty) : bool :=
  match t with
  | TInt _ _ | TEnum _ _ | TArray _ _ | TUnion _ _ _ => false
  | TStruct name _ _ => Opaque name
  | _ => true
  end.

Lemma plain_holds fuel t u : plain fuel t = true -> holds t u -> secret u = false.
Proof.
  intros Hp Hh. revert fuel Hp. induction Hh as [t|t e n u Et _ IH|t name sz ms m u Et Hm _ IH|t name sz ms m u Et Hm _ IH];
    intros [|fuel] Hp; try discriminate; cbn [plain] in Hp.
  - destruct (UnderlyingType t); try discriminate; auto. simpl. now destruct (Opaque _).
  - rewrite Et in Hp. eauto.
  - rewrite Et in Hp. destruct (Opaque name); [discriminate|]. rewrite forallb_forall in Hp. eapply IH, Hp, Hm.
  - rewrite Et in Hp. rewrite forallb_forall in Hp. eapply IH, Hp, Hm.
Qed.

(** Up to the depth limit nothing plain is refused. *)
Lemma holds_plain t fuel :
  (depth t < fuel)%nat -> (forall u, holds t u -> secret u = false) -> plain fuel t = true.
Proof.
  revert t. induction fuel as [|fuel IH]; intros t Hd Hs; [lia|]. cbn [plain].
  pose proof (UnderlyingType_depth t) as Hu. pose proof (Hs _ (holds_self t)) as H0.
  assert (Hms : forall ms, (depth_members ms < fuel)%nat -> (forall m u, In m ms -> holds (MType m) u -> secret u = false) ->
    forallb (fun m => plain fuel (MType m)) ms = true).
  { intros ms Hms Hh. apply forallb_forall. intros m Hm. apply IH; [|intros u; now apply Hh].
    clear - Hms Hm. induction ms as [|x ms IHm]; [easy|]. simpl in Hms. destruct Hm as [->|Hm]; [lia|apply IHm; [lia|exact Hm]]. }
  assert (Hdm : forall ms, (fix members (ms : list Member) : nat :=
    match ms with [] => 0%nat | mkMember _ t _ _ :: ms => Nat.max (depth t) (members ms) end) ms = depth_members ms).
  { intros ms. induction ms as [|[n0 t0 o0 b0] ms IHm]; simpl; [reflexivity|]. now rewrite IHm. }
  destruct (UnderlyingType t) as [|sz enc|sz sg|tg|e n|name nsz ms|name nsz ms|qn q|fsz|] eqn:Et; try discriminate; auto.
  - apply IH; [cbn [depth] in Hu; lia|]. intros u Hh. eapply Hs, holds_elem; eassumption.
  - simpl in H0. rewrite H0. cbn [depth] in Hu. rewrite Hdm in Hu. apply Hms; [lia|].
    intros m u Hm Hh. eapply Hs, holds_struct; eassumption.
  - cbn [depth] in Hu. rewrite Hdm in Hu. apply Hms; [lia|]. intros m u Hm Hh. eapply Hs, holds_union; eassumption.
Qed.
End Plain.

(** A reading of the library for examples: qualifiers are skipped and
    every type has the size it declares. *)
Fixpoint strip (t : Ty) : Ty := match t with TQual _ q => strip q | t => t end.

Fixpoint size_of (t : Ty) : option Z :=
  match t with
  | TInt n _ | TEnum n _ | TStruct _ n _ | TUnion _ n _ | TFloat n => Some (u32 n)
  | TPointer _ => Some 8
  | TArray e n =>
      match size_of e with
      | Some s => if (0 <=? s * n) && (s * n <? 2 ^ 32) then Some (s * n) else None
      | None => None
      end
  | TQual _ q => size_of q
  | _ => None
  end.

Definition strip_btf : Btf.
Proof.
  assert (Hu : forall n : Z, 0 <= u32 n < two63).
  { intros n. pose proof (Z.mod_pos_bound n (2 ^ 32) eq_refl). unfold u32, two63. lia. }
  refine {| UnderlyingType := strip; Sizeof := size_of |}.
  - fix IH 1. intros [| | | | | | |qn q| |]; simpl; auto.
  - intros t Hq. destruct t; try reflexivity. now destruct (Hq Name t).
  - intros n t Hq. destruct t; try reflexivity. now destruct (Hq Name t).
  - fix IH 1. intros [| | | | | | |qn t| |] n q; try discriminate. apply (IH t).
  - fix IH 1. intros [| | | |e ne| | |qn q| |] n; cbn [size_of]; intros Hn; try discriminate; try (injection Hn as <-; apply Hu).
    + injection Hn as <-. unfold two63. lia.
    + destruct (size_of e) as [k|]; [|discriminate]. destruct (_ && _) eqn:E; [|discriminate]. injection Hn as <-. bools. unfold two63. lia.
    + now apply (IH q).
  - fix IH 1. intros [| | | | | | |qn q| |]; simpl; auto.
  - intros n enc Hn. cbn [size_of]. now rewrite u32_small.
  - intros n sg Hn. cbn [size_of]. now rewrite u32_small.
  - intros name n ms Hn. cbn [size_of]. now rewrite u32_small.
  - intros name n ms Hn. cbn [size_of]. now rewrite u32_small.
  - intros e n k Hn He Hk. cbn [size_of]. rewrite He. destruct (Z.leb_spec 0 (k * n)); [|exfalso].
    + apply Z.ltb_lt in Hk. now rewrite Hk.
    + enough (0 <= k) by nia. revert He. clear. revert k. revert e.
      fix IH 1. intros [| | | |e ne| | |qn q| |] m; cbn [size_of]; intros Hn; try discriminate; try (injection Hn as <-; apply Z.mod_pos_bound; lia).
      * injection Hn as <-. lia.
      * destruct (size_of e) as [k|]; [|discriminate]. destruct (_ && _) eqn:E; [|discriminate]. injection Hn as <-. bools. lia.
      * now apply (IH q).
Defined.

(** ** Decl tags *)

Definition sizePrefix : bytes := B "bpf-ninja:".

Definition SizeTag (name : bytes) (size : Z) : bytes := sizePrefix ++ name ++ B "_size=" ++ AppendUint [] size.

(** [strings.CutPrefix]. *)
Definition CutPrefix (s p : bytes) : option bytes := if HasPrefix s p then Some (drop (length p) s) else None.

(** The two entries of the map [out]. *)
Record sizes := mkSizes { key_size : option Z; value_size : option Z }.

Definition SizeTags (tags : list bytes) : sizes :=
  fold_left (fun out tag =>
    match CutPrefix tag sizePrefix with
    | None => out
    | Some rest =>
        let size name := match CutPrefix rest (name ++ B "_size=") with
                         | None => None
                         | Some v => match ParseUint v 10 32 with Ok n => Some n | Err _ => None end
                         end in
        mkSizes (match size (B "key") with Some n => Some n | None => key_size out end)
                (match size (B "value") with Some n => Some n | None => value_size out end)
    end) tags (mkSizes None None).
