(* ===== verification/ArgExpr.v ===== *)
(** * ArgExpr: argument expressions and pointer members (internal/attach/argmember.go)

    The syntax of [param->member[N].member], its resolution against BTF, and
    the theorem that a resolved member lies inside the pointee. *)

From Stdlib Require Import ZArith Lia Bool Ascii String List.
From stdpp Require Import base list strings numbers option.
From S2P Require Import Prelude GoStd GoText HookAbi.
Local Open Scope Z_scope.
Local Open Scope go_scope.

(** ** The expression syntax *)

Definition is_letter (c : ascii) : bool := let z := ord c in (97 <=? z) && (z <=? 122) || (65 <=? z) && (z <=? 90).

(** [[a-zA-Z_][a-zA-Z0-9_]*] *)
Definition ident_start (c : ascii) : bool := is_letter c || Ascii.eqb c "_".
Definition ident_char (c : ascii) : bool := is_letter c || is_digit c || Ascii.eqb c "_".
Definition ident : re := Seq (Chr ident_start) (Star (Chr ident_char)).

(** [\[[^\].>]*\]] *)
Definition index_char (c : ascii) : bool := negb (Ascii.eqb c "]" || Ascii.eqb c "." || Ascii.eqb c ">").
Definition argIndex : re := Seq (Chr (Ascii.eqb "[")) (Seq (Star (Chr index_char)) (Chr (Ascii.eqb "]"))).
Definition argMemberStep : re := Seq ident (Star argIndex).

Definition dot_steps : re := Star (Seq (Chr (Ascii.eqb ".")) argMemberStep).

Definition ArgExpressionPattern : re :=
  Seq ident
    (Opt (Alt (Seq (Lit (B "->")) (Seq argMemberStep dot_steps))
         (Alt (Seq (Plus argIndex) dot_steps)
              (Seq (Chr (Ascii.eqb ".")) ident)))).

(** ** Parameters *)

(** [attach.FuncParamInfo]; [PType] is nil for an integer. *)
Record FuncParamInfo := mkParam {
  PName : bytes; PIndex : Z; PSize : Z; PSigned : bool; PKind : bytes; PTypeName : bytes; PType : option Ty;
  PDeref : bool; POffset : Z; PThroughOpaque : bool; PVoidSize : Z; PStatusWord : bool
}.

Definition is_empty (b : bytes) : bool := match b with [] => true | _ => false end.

Definition errf {A} (f : string) (args : list fmtarg) : result error A := Err (Errorf f args).
Definition abytes (b : bytes) : fmtarg := AStr (str b).
Definition alist (l : list bytes) : fmtarg := AStr (str (B "[" ++ Join l (B " ") ++ B "]")).

(** [strings.Cut] with its three results. *)
Definition cut (s sep : bytes) : bytes * bytes * bool :=
  match Cut s sep with
  | Some (b, a) => (b, a, true)
  | None => (s, [], false)
  end.

(** [splitIndexes] *)
Definition splitIndexes (s : bytes) : list bytes := SplitS (TrimSuffix s (B "]")) (B "][").

(** [memberKind] of a [btf.Type] ([TQual] is a type it does not name). *)
Definition memberKind (t : Ty) : bytes :=
  match t with
  | TStruct _ _ _ => B "struct (select one of its members)"
  | TUnion _ _ _ => B "union (select one of its members)"
  | TArray _ n => if n =? 0 then B "zero-length array" else B "array (select an element with [N])"
  | TPointer _ => B "pointer (only one dereference is supported)"
  | TFloat _ => B "float"
  | TVoid => B "void"
  | TInt _ _ => B "integer"
  | TEnum _ _ => B "enum"
  | _ => B "unsupported type"
  end.

Record argMember := mkArgMember { am_member : Member; am_bits : Z; am_offset : Z; am_opaque : bool }.

Section Resolve.
Context `{Btf}.

(** [indexArray] *)
Fixpoint indexArray_loop (expr : bytes) (typ : Ty) (indexes : list bytes) (offset : Z) : result error (Ty * Z) :=
  match indexes with
  | [] => Ok (typ, offset)
  | s :: indexes =>
      let bad := errf "%q: array index [%s] must be a non-negative decimal constant" [abytes expr; abytes s] in
      match ParseUint s 10 64 with
      | Err _ => bad
      | Ok n =>
          if (1 <? length s)%nat && HasPrefix s (B "0") then bad
          else match typ with
          | TArray e nelems =>
              if nelems <=? n then
                errf "%q: index %d is out of range for an array of %d elements" [abytes expr; AInt n; AInt nelems]
              else
                let typ := UnderlyingType e in
                match Sizeof typ with
                | None => errf "%q: sizing the array element: %w" [abytes expr]
                | Some size => indexArray_loop expr typ indexes (u64 (offset + u64 (n * u64 size)))
                end
          | _ => errf "%q: cannot apply [%d] to %s; expected a fixed-length array" [abytes expr; AInt n; abytes (memberKind typ)]
          end
      end
  end.

Definition indexArray (expr : bytes) (typ : Ty) (indexes : list bytes) : result error (Ty * Z) :=
  indexArray_loop expr typ indexes 0.

Definition aggregateMembers (typ : Ty) : option (list Member) :=
  match UnderlyingType typ with
  | TStruct _ _ ms => Some ms
  | TUnion _ _ ms => Some ms
  | _ => None
  end.

(** [walkPromotedMembers] with a visitor that never stops: the members it
    visits. [fuel] is [33 - depth]. The walk's set of active types catches a
    type nested in itself, which the finite [Ty] cannot express. *)
Fixpoint promoted (fuel : nat) (members : list Member) (offset bits : Z) (opaque : bool) : list argMember :=
  match fuel with
  | O => []
  | S fuel =>
      flat_map (fun m =>
        let mbits := if bits =? 0 then BitfieldSize m else bits in
        let at_ := u64 (offset + u64 (MOffset m)) in
        if negb (is_empty (MName m)) then [mkArgMember m mbits at_ opaque]
        else
          let typ := UnderlyingType (MType m) in
          match aggregateMembers typ with
          | Some children =>
              let op := match typ with TStruct name _ _ => Opaque name | _ => false end in
              promoted fuel children at_ mbits (opaque || op)
          | None => []
          end) members
  end.

Definition findMembers (members : list Member) (name : bytes) : list argMember * list bytes :=
  let all := promoted 33 members 0 0 false in
  (List.filter (fun m => bool_decide (MName (am_member m) = name)) all, map (fun m => MName (am_member m)) all).

(** [resolveStatusField] *)
Definition resolveStatusField (expr field : bytes) (p : FuncParamInfo) : result error FuncParamInfo :=
  if negb (is_empty (PKind p)) then
    errf "%q: parameter %q is a pointer; select a member with %s->%s" [abytes expr; abytes (PName p); abytes (PName p); abytes field]
  else if negb (PStatusWord p) then
    errf "%q: only the status argument of a generated hook has .ret and .flags" [abytes expr]
  else
    let half signed off :=
      Ok (mkParam expr (PIndex p) 4 signed (PKind p) (PTypeName p) (PType p) (PDeref p) off (PThroughOpaque p) (PVoidSize p) (PStatusWord p)) in
    if bool_decide (field = B "ret") then half true (POffset p)
    else if bool_decide (field = B "flags") then half false 4
    else errf "%q: status has the fields ret and flags, not %q" [abytes expr; abytes field].

(** One step of the member path: the type, the byte offset and whether a
    [bpf_*] struct was crossed. *)
Definition member_step (expr step : bytes) (st : Ty * Z * bool) : result error (Ty * Z * bool) :=
  let '(typ, offset, through) := st in
  let '(member, rest, indexed) := cut step (B "[") in
  let through := match typ with TStruct name _ _ => if Opaque name then true else through | _ => through end in
  match aggregateMembers typ with
  | None => errf "%q: cannot select member %q from %s; expected struct/union" [abytes expr; abytes member; abytes (memberKind typ)]
  | Some members =>
      let '(matches, names) := findMembers members member in
      match matches with
      | [] => errf "%q: member %q not found; available members: %v" [abytes expr; abytes member; alist names]
      | _ :: _ :: _ => errf "%q: ambiguous anonymous member %q" [abytes expr; abytes member]
      | [m] =>
          if negb (am_bits m =? 0) then errf "%q: bitfield member %q is not supported" [abytes expr; abytes member]
          else if negb (am_offset m mod 8 =? 0) then errf "%q: member %q is not byte-aligned" [abytes expr; abytes member]
          else
            let offset := u64 (offset + am_offset m / 8) in
            let typ := UnderlyingType (MType (am_member m)) in
            let through := through || am_opaque m in
            if indexed then
              let? (elem, at_) := indexArray expr typ (splitIndexes rest) in
              Ok (elem, u64 (offset + at_), through)
            else Ok (typ, offset, through)
      end
  end.

Fixpoint member_path (expr : bytes) (steps : list bytes) (st : Ty * Z * bool) : result error (Ty * Z * bool) :=
  match steps with
  | [] => Ok st
  | step :: steps => let? st := member_step expr step st in member_path expr steps st
  end.

(** The pointee: a sized untyped key or value reads as
    [struct { u8 bytes[N]; }]. *)
Definition pointee (p : FuncParamInfo) (target : Ty) : Ty :=
  match UnderlyingType target with
  | TVoid =>
      if 0 <? PVoidSize p
      then TStruct [] (PVoidSize p) [mkMember (B "bytes") (TArray (TInt 1 EncUnsigned) (PVoidSize p)) 0 0]
      else TVoid
  | t => t
  end.

Definition MaxInt32 : Z := 2147483647.

(** The part of [ResolveArg] after the pointer is known. *)
Definition resolveMember (expr : bytes) (p : FuncParamInfo) (target : Ty) (rootIndexes : option (list bytes)) (path : bytes)
    : result error FuncParamInfo :=
  let? (typ, offset) :=
    match rootIndexes with
    | None => Ok (pointee p target, 0)
    | Some idx =>
        match idx with
        | [] => errf "index out of range [0] with length 0" []     (* unreachable: strings.Split returns at least one string *)
        | i0 :: idx =>
            if negb (bool_decide (i0 = B "0")) then
              errf "%q: a pointer argument takes only [0] before any array index, got [%s]" [abytes expr; abytes i0]
            else indexArray expr (pointee p target) idx
        end
    end in
  let steps := if is_empty path then [] else SplitS path (B ".") in
  let? (typ, offset, through) := member_path expr steps (typ, offset, false) in
  let? (size, signed) :=
    match typ with
    | TInt sz enc => Ok (sz, negb (Z.land enc EncSigned =? 0))
    | TEnum sz sg => Ok (sz, sg)
    | _ => errf "%q: final member must be an integer or enum, got %s" [abytes expr; abytes (memberKind typ)]
    end in
  if negb ((size =? 1) || (size =? 2) || (size =? 4) || (size =? 8)) then
    errf "%q: unsupported member size %d (expected 1, 2, 4, or 8)" [abytes expr; AInt size]
  else if MaxInt32 <? offset then
    errf "%q: member offset %d exceeds supported range" [abytes expr; AInt offset]
  else
    Ok (mkParam expr (PIndex p) size signed [] [] (PType p) true offset through (PVoidSize p) (PStatusWord p)).

(** The loop body for the parameter the expression names. *)
Definition resolveParam (expr name field path : bytes) (deref isField : bool) (rootIndexes : option (list bytes))
    (p : FuncParamInfo) : result error FuncParamInfo :=
  if isField then resolveStatusField expr field p
  else if negb deref then
    if negb (is_empty (PKind p)) then
      errf "parameter %q is a pointer; select an integer member with %s->member or %s[0], or compare it with null"
        [abytes name; abytes name; abytes name]
    else Ok p
  else
    match option_map UnderlyingType (PType p) with
    | Some (TPointer target) => resolveMember expr p target rootIndexes path
    | _ =>
        if PStatusWord p then
          errf "%q: status is not a pointer; use %s.ret or %s.flags" [abytes expr; abytes name; abytes name]
        else errf "parameter %q must be a pointer to a struct/union" [abytes name]
    end.

(** The pieces of an expression: name, field after a dot (if any), whether
    a member is read, the root indexes and the member path. *)
Record pieces := mkPieces { q_name : bytes; q_field : bytes; q_isField : bool; q_deref : bool; q_root : option (list bytes); q_path : bytes }.

Definition split_expr (expr : bytes) : pieces :=
  let '(name, path, deref) := cut expr (B "->") in
  let '(name, root, path, deref) :=
    match Cut name (B "[") with
    | Some (base, rest) =>
        let '(indexes, members, _) := cut rest (B "].") in
        (base, Some (splitIndexes indexes), members, true)
    | None => (name, None, path, deref)
    end in
  let '(name, field, isField) := cut name (B ".") in
  mkPieces name field isField deref root path.

Definition ResolveArg (expr : bytes) (params : list FuncParamInfo) : result error FuncParamInfo :=
  if negb (MatchString ArgExpressionPattern expr) then
    errf "invalid argument expression %q (expected param, param->member[N].member, param[0][N].member, or status.ret/status.flags)" [abytes expr]
  else
    let q := split_expr expr in
    match find (fun p => bool_decide (PName p = q_name q)) params with
    | Some p => resolveParam expr (q_name q) (q_field q) (q_path q) (q_deref q) (q_isField q) (q_root q) p
    | None => errf "parameter %q not found; available parameters: %v" [abytes (q_name q); alist (map PName params)]
    end.

(** [StatusFields] *)
Definition StatusFields (p : FuncParamInfo) : list FuncParamInfo :=
  if negb (PStatusWord p) then []
  else
    flat_map (fun field =>
      match resolveStatusField (PName p ++ B "." ++ field) field p with
      | Ok f => [f]
      | Err _ => [mkParam [] 0 0 false [] [] None false 0 false 0 false]
      end) [B "ret"; B "flags"].

(** [ResolveEchoArgs] *)
Fixpoint resolve_all (exprs : list bytes) (params : list FuncParamInfo) : result error (list FuncParamInfo) :=
  match exprs with
  | [] => Ok []
  | e :: exprs =>
      let? p := ResolveArg e params in
      let? ps := resolve_all exprs params in
      Ok (p :: ps)
  end.

Definition ResolveEchoArgs (exprs : list bytes) (params : list FuncParamInfo) : result error (list FuncParamInfo) :=
  match exprs with
  | [] => Ok (List.filter (fun p => is_empty (PKind p)) params)
  | _ => resolve_all exprs params
  end.

(** [ResolvePointerArg] *)
Definition ResolvePointerArg (expr : bytes) (params : list FuncParamInfo) : result error FuncParamInfo :=
  match find (fun p => bool_decide (PName p = expr)
                       && match option_map UnderlyingType (PType p) with Some (TPointer _) => true | _ => false end) params with
  | Some p => Ok (mkParam (PName p) (PIndex p) 8 false (PKind p) (PTypeName p) (PType p) (PDeref p) (POffset p)
                    (PThroughOpaque p) (PVoidSize p) (PStatusWord p))
  | None => errf "%q: null comparison requires a pointer parameter (see --list-params)" [abytes expr]
  end.
End Resolve.

(** ** Resolved members lie inside the pointee *)

Section Bounds.
Context `{Btf}.

(** BTF as the kernel accepts it: a member that is not a bitfield ends
    inside its struct or union, and sizes are 32-bit. *)
Definition member_fits (size : Z) (m : Member) : Prop :=
  0 <= MOffset m < 2 ^ 32 /\
  (BitfieldSize m = 0 -> forall s, Sizeof (MType m) = Some s -> MOffset m + 8 * s <= 8 * size).

Inductive wf : Ty -> Prop :=
| wf_leaf t :
    match UnderlyingType t with TArray _ _ | TStruct _ _ _ | TUnion _ _ _ => False | TInt n _ | TEnum n _ => 0 <= n < 2 ^ 32 | _ => True end -> wf t
| wf_array t e n :
    UnderlyingType t = TArray e n -> 0 <= n -> (forall k, Sizeof e = Some k -> k * n < 2 ^ 32) -> wf e -> wf t
| wf_struct t name size ms :
    UnderlyingType t = TStruct name size ms -> 0 <= size < 2 ^ 32 ->
    (forall m, In m ms -> member_fits size m) -> (forall m, In m ms -> wf (MType m)) -> wf t
| wf_union t name size ms :
    UnderlyingType t = TUnion name size ms -> 0 <= size < 2 ^ 32 ->
    (forall m, In m ms -> member_fits size m) -> (forall m, In m ms -> wf (MType m)) -> wf t.

Lemma UnderlyingType_idem t : UnderlyingType (UnderlyingType t) = UnderlyingType t.
Proof. apply UnderlyingType_self. intros n q. apply UnderlyingType_bare. Qed.

Lemma wf_underlying t : wf t -> wf (UnderlyingType t).
Proof.
  intros Hw. inversion Hw; subst.
  - apply wf_leaf. now rewrite UnderlyingType_idem.
  - eapply wf_array; [rewrite UnderlyingType_idem; eassumption|eassumption..].
  - eapply wf_struct; [rewrite UnderlyingType_idem; eassumption|eassumption..].
  - eapply wf_union; [rewrite UnderlyingType_idem; eassumption|eassumption..].
Qed.

(** Structs and unions alike. *)
Lemma wf_aggregate t ms :
  wf t -> aggregateMembers t = Some ms ->
  exists size, Sizeof t = Some size /\ 0 <= size < 2 ^ 32 /\
    forall m, In m ms -> member_fits size m /\ wf (MType m).
Proof.
  unfold aggregateMembers. intros Hw Ha. inversion Hw as [? Hl|? e n Et|? name size ms0 Et Hs Hf Hm|? name size ms0 Et Hs Hf Hm]; subst;
    rewrite ?Et in Ha; try discriminate.
  - destruct (UnderlyingType t); try discriminate; easy.
  - injection Ha as ->. exists size. splits; auto; try lia.
    rewrite <- Sizeof_underlying, Et. apply Sizeof_struct. lia.
  - injection Ha as ->. exists size. splits; auto; try lia.
    rewrite <- Sizeof_underlying, Et. apply Sizeof_union. lia.
Qed.

(** Promoted members, counted in bits. *)
Lemma promoted_fits fuel ms offset bits opaque size limit :
  (forall m, In m ms -> member_fits size m /\ wf (MType m)) ->
  0 <= offset -> (bits = 0 -> offset + 8 * size <= limit) -> limit < 2 ^ 63 ->
  forall a, In a (promoted fuel ms offset bits opaque) -> am_bits a = 0 ->
    wf (MType (am_member a)) /\ 0 <= am_offset a /\
    (forall s, Sizeof (MType (am_member a)) = Some s -> am_offset a + 8 * s <= limit).
Proof.
  revert ms offset bits opaque size. induction fuel as [|fuel IH]; intros ms offset bits opaque size Hm Ho Hb Hl a; cbn [promoted]; [easy|].
  intros Ha Hz. apply in_flat_map in Ha as (m & Hin & Ha). destruct (Hm m Hin) as [[Hr Hf] Hw].
  set (mbits := if bits =? 0 then BitfieldSize m else bits) in *. cbv zeta in Ha.
  assert (Hmb : mbits = 0 -> bits = 0 /\ BitfieldSize m = 0) by (unfold mbits; destruct (Z.eqb_spec bits 0); lia).
  set (at_ := u64 (offset + u64 (MOffset m))) in *. assert (Hat0 : 0 <= at_) by apply u64_range.
  assert (Hat : mbits = 0 -> forall s, Sizeof (MType m) = Some s -> at_ + 8 * s <= limit).
  { intros H0 s Hs. destruct (Hmb H0) as [Hb0 Hbf]. specialize (Hb Hb0). specialize (Hf Hbf s Hs).
    pose proof (Sizeof_range _ _ Hs). unfold at_. rewrite (u64_small (MOffset m)) by (unfold in_u64, two64; lia).
    rewrite u64_small by (unfold in_u64, two64; lia). lia. }
  destruct (is_empty (MName m)); cbn [negb] in Ha.
  - destruct (aggregateMembers (UnderlyingType (MType m))) as [children|] eqn:Ec; [|easy].
    destruct (wf_aggregate _ _ (wf_underlying _ Hw) Ec) as (sz & Hsz & Hrange & Hch). rewrite Sizeof_underlying in Hsz.
    eapply (IH children at_ mbits _ sz); eauto.
  - destruct Ha as [<-|[]]. cbn [am_bits am_offset am_member] in *. auto.
Qed.

(** What is known of the type reached and its byte offset in [root]. *)
Definition located (root typ : Ty) (offset : Z) : Prop :=
  wf typ /\ UnderlyingType typ = typ /\ 0 <= offset /\
  (forall s, Sizeof typ = Some s -> exists R, Sizeof root = Some R /\ offset + s <= R).

Lemma indexArray_located root expr typ idx offset t o :
  indexArray_loop expr typ idx offset = Ok (t, o) -> located root typ offset -> located root t o.
Proof.
  revert typ offset. induction idx as [|s idx IH]; intros typ offset; cbn [indexArray_loop].
  { now intros [= -> ->]. }
  intros Hi (Hw & Hu & Ho & Hs). destruct (ParseUint s 10 64) as [n|e] eqn:En; [|discriminate].
  case_if Hi; [discriminate|]. destruct typ as [| | | |e nelems| | | | |]; try discriminate.
  destruct (Z.leb_spec nelems n) as [|Hn]; [discriminate|]. destruct (Sizeof (UnderlyingType e)) as [size|] eqn:Es; [|discriminate].
  apply ParseUint_in_u64 in En. unfold in_u64 in En. eapply IH; [exact Hi|].
  inversion Hw as [? Hl|? e' n' Eu Hn0 Hk He|? ? ? ? Eu|? ? ? ? Eu]; subst; rewrite Hu in *; try easy; try discriminate.
  injection Eu as <- <-. pose proof Es as Es'. rewrite Sizeof_underlying in Es'. specialize (Hk _ Es').
  destruct (Hs _ (Sizeof_array _ _ _ Hn0 Es' Hk)) as (R & HR & Hle). pose proof (Sizeof_range _ _ HR) as HR0.
  pose proof (Sizeof_range _ _ Es) as Hsz. assert (n * size + size <= size * nelems) by nia. unfold two63 in *.
  rewrite (u64_small size) by (unfold in_u64, two64; lia). rewrite (u64_small (n * size)) by (unfold in_u64, two64; nia).
  rewrite u64_small by (unfold in_u64, two64; nia). unfold located. splits; [now apply wf_underlying|apply UnderlyingType_idem|nia|].
  intros s0 E0. rewrite E0 in Es. injection Es as ->. exists R. split; [exact HR|lia].
Qed.

Lemma located_self t : wf t -> UnderlyingType t = t -> located t t 0.
Proof. intros Hw Hu. unfold located. splits; auto; [lia|]. intros s Hs. exists s. split; [exact Hs|lia]. Qed.

Lemma located_trans root mid t o o' : located root mid o -> located mid t o' -> located root t (u64 (o + o')).
Proof.
  intros (_ & _ & Ho & Hm) (Hw & Hu & Ho' & Ht). unfold located. splits; auto; [apply u64_range|]. intros s Hs.
  destruct (Ht s Hs) as (M & HM & Hle). destruct (Hm M HM) as (R & HR & HleR). exists R. split; [exact HR|].
  pose proof (Sizeof_range _ _ HR) as Hr. pose proof (Sizeof_range _ _ Hs). unfold two63 in *.
  rewrite u64_small by (unfold in_u64, two64; lia). lia.
Qed.

Lemma findMembers_fits ms name size m names :
  (forall m, In m ms -> member_fits size m /\ wf (MType m)) -> 0 <= size < 2 ^ 32 ->
  findMembers ms name = ([m], names) -> am_bits m = 0 -> am_offset m mod 8 = 0 ->
  wf (MType (am_member m)) /\
  forall s, Sizeof (MType (am_member m)) = Some s -> 0 <= am_offset m / 8 /\ am_offset m / 8 + s <= size.
Proof.
  intros Hms Hr. unfold findMembers. generalize 33%nat. intros fuel [= Ef _] Hb Ho.
  assert (Hin : In m (promoted fuel ms 0 0 false)) by (eapply proj1, filter_In; rewrite Ef; now left).
  destruct (promoted_fits fuel ms 0 0 false size (8 * size) Hms ltac:(lia) ltac:(lia) ltac:(lia) m Hin Hb) as (Hwm & Hom & Hfit).
  split; [exact Hwm|]. intros s Hs. specialize (Hfit s Hs). pose proof (Z.div_mod (am_offset m) 8). lia.
Qed.

Lemma member_step_located root expr step typ offset through t o th :
  member_step expr step (typ, offset, through) = Ok (t, o, th) -> located root typ offset -> located root t o.
Proof.
  intros Hm (Hw & Hu & Ho & Hs). unfold member_step in Hm. destruct (cut step (B "[")) as [[member rest] indexed].
  destruct (aggregateMembers typ) as [ms|] eqn:Ea; [|discriminate].
  destruct (wf_aggregate _ _ Hw Ea) as (size & Hsz & Hrange & Hms). destruct (Hs _ Hsz) as (R & HR & Hle).
  pose proof (Sizeof_range _ _ HR) as HR0. unfold two63 in HR0.
  destruct (findMembers ms member) as [matches names] eqn:Ef. destruct matches as [|m [|]]; try discriminate.
  destruct (negb (am_bits m =? 0)) eqn:Eb; [discriminate|]. destruct (negb (am_offset m mod 8 =? 0)) eqn:Eo; [discriminate|]. bools.
  destruct (findMembers_fits _ _ _ _ _ Hms Hrange Ef Eb Eo) as [Hwm Hfit].
  assert (Hloc : located root (UnderlyingType (MType (am_member m))) (u64 (offset + am_offset m / 8))).
  { unfold located. splits; [now apply wf_underlying|apply UnderlyingType_idem|apply u64_range|].
    intros s E0. rewrite Sizeof_underlying in E0. specialize (Hfit s E0). pose proof (Sizeof_range _ _ E0).
    exists R. split; [exact HR|]. rewrite u64_small by (unfold in_u64, two64; lia). lia. }
  destruct indexed; [|injection Hm as <- <- <-; exact Hloc].
  apply result_bind_ok in Hm as ([elem at_] & Hi & Hm). injection Hm as <- <- <-.
  apply (located_trans root (UnderlyingType (MType (am_member m)))); [exact Hloc|].
  apply (indexArray_located _ _ _ _ _ _ _ Hi). apply located_self; [|apply UnderlyingType_idem]. now apply wf_underlying.
Qed.

Lemma member_path_located root expr steps st t o th :
  member_path expr steps st = Ok (t, o, th) -> located root st.1.1 st.1.2 -> located root t o.
Proof.
  revert st. induction steps as [|step steps IH]; intros [[typ offset] through]; cbn [member_path fst snd].
  { now intros [= -> -> ->]. }
  intros Hm Hl. apply result_bind_ok in Hm as ([[typ' offset'] through'] & Hs & Hm).
  apply (IH _ Hm). cbn [fst snd]. eapply member_step_located; eauto.
Qed.

(** The pointer parameter's pointee is well formed and 32-bit sized tags
    are below the kernel's array limit. *)
Definition wf_param (p : FuncParamInfo) : Prop :=
  PDeref p = false /\ POffset p = 0 /\ (PStatusWord p = true -> PSize p = 8) /\ 0 <= PVoidSize p < 2 ^ 32 /\
  forall t target, PType p = Some t -> UnderlyingType t = TPointer target -> wf target.

Lemma pointee_wf p target : wf target -> 0 <= PVoidSize p < 2 ^ 32 -> wf (pointee p target) /\ UnderlyingType (pointee p target) = pointee p target.
Proof.
  intros Hw Hv. unfold pointee. pose proof (wf_underlying _ Hw) as Hwu. pose proof (UnderlyingType_idem target) as Hi.
  destruct (UnderlyingType target) eqn:Et; try (split; assumption). destruct (Z.ltb_spec 0 (PVoidSize p)); [|split; assumption].
  assert (Hb : forall t, (forall n q, t <> TQual n q) -> UnderlyingType t = t) by (intros; now apply UnderlyingType_self).
  split; [|apply Hb; discriminate].
  assert (Hs1 : Sizeof (TInt 1 EncUnsigned) = Some 1) by (apply Sizeof_int; lia).
  assert (Hwi : wf (TInt 1 EncUnsigned)) by (apply wf_leaf; rewrite Hb by discriminate; lia).
  eapply wf_struct; [apply Hb; discriminate|lia| |].
  - intros m [<-|[]]. split; [simpl; lia|]. intros _ s. simpl. rewrite (Sizeof_array _ _ 1) by (assumption || lia). intros [= <-]. lia.
  - intros m [<-|[]]. simpl. eapply wf_array; [apply Hb; discriminate|lia| |exact Hwi]. rewrite Hs1. intros k [= <-]. lia.
Qed.

Definition access_size (z : Z) : Prop := z = 1 \/ z = 2 \/ z = 4 \/ z = 8.

Lemma resolveMember_spec expr p target root path r :
  wf target -> 0 <= PVoidSize p < 2 ^ 32 -> resolveMember expr p target root path = Ok r ->
  PIndex r = PIndex p /\ PDeref r = true /\ access_size (PSize r) /\ 0 <= POffset r <= MaxInt32 /\
  exists R, Sizeof (pointee p target) = Some R /\ POffset r + PSize r <= R.
Proof.
  intros Hw Hv Hr. destruct (pointee_wf p target Hw Hv) as [Hwp Hup]. unfold resolveMember in Hr.
  apply result_bind_ok in Hr as ([typ0 off0] & H0 & Hr). apply result_bind_ok in Hr as ([[typ off] through] & H1 & Hr).
  apply result_bind_ok in Hr as ([size signed] & H2 & Hr).
  assert (Hl0 : located (pointee p target) typ0 off0).
  { pose proof (located_self _ Hwp Hup) as Hs. destruct root as [[|i0 idx]|]; [discriminate| |now injection H0 as <- <-].
    case_if H0; [discriminate|]. eapply indexArray_located; eauto. }
  pose proof (member_path_located _ _ _ _ _ _ _ H1 Hl0) as (Hwt & Hut & Ho & Hfit).
  case_if Hr; [discriminate|]. case_if Hr; [discriminate|]. injection Hr as <-. bools. cbn [PIndex PDeref PSize POffset].
  assert (Ha : access_size size).
  { unfold access_size. repeat match goal with H : _ || _ = true |- _ => apply orb_prop in H as [H|H] end; bools; lia. }
  assert (Hs : Sizeof typ = Some size).
  { assert (0 <= size < 2 ^ 32) by (unfold access_size in Ha; lia).
    destruct typ; try discriminate; injection H2 as <- <-; [apply Sizeof_int|apply Sizeof_enum]; assumption. }
  destruct (Hfit _ Hs) as (R & HR & Hle). splits; eauto; lia.
Qed.

Lemma resolveStatusField_spec expr field p r :
  wf_param p -> resolveStatusField expr field p = Ok r ->
  PIndex r = PIndex p /\ PDeref r = false /\ 0 <= POffset r /\ POffset r + PSize r <= PSize p /\ PKind r = [].
Proof.
  intros (Hd & Ho & Hw & _) Hr. unfold resolveStatusField in Hr.
  destruct (PKind p) eqn:Ek; cbn [is_empty negb] in Hr; [|discriminate].
  destruct (PStatusWord p); cbn [negb] in Hr; [|discriminate]. specialize (Hw eq_refl).
  case_bool_decide; [injection Hr as <-|case_bool_decide; [injection Hr as <-|discriminate]]; cbn [PIndex PDeref POffset PSize PKind];
    splits; auto; lia.
Qed.

(** C35: whatever expression is given, a resolved argument reads memory it
    may read. A pointer member is an access of 1, 2, 4 or 8 bytes that ends
    inside the object the parameter points to (the sized bytes of an untyped
    key or value included) at an offset an instruction can encode; anything
    else is the parameter itself or a half of the status word, inside the
    argument. Anonymous nesting, unions, array indexes and bitfields are
    covered, and none of the 64-bit offset sums wraps. *)
Theorem ResolveArg_in_bounds expr params r :
  Forall wf_param params -> ResolveArg expr params = Ok r ->
  exists p, In p params /\ PName p = q_name (split_expr expr) /\ PIndex r = PIndex p /\ 0 <= POffset r /\
    if PDeref r
    then access_size (PSize r) /\ POffset r <= MaxInt32 /\
         exists t target R, PType p = Some t /\ UnderlyingType t = TPointer target /\
           Sizeof (pointee p target) = Some R /\ POffset r + PSize r <= R
    else PKind r = [] /\ POffset r + PSize r <= PSize p.
Proof.
  intros Hwf Hr. unfold ResolveArg in Hr. case_if Hr; [discriminate|]. cbv zeta in Hr.
  destruct (find _ params) as [p|] eqn:Ef; [|discriminate]. apply find_some in Ef as [Hin Hn]. apply bool_decide_eq_true in Hn.
  rewrite List.Forall_forall in Hwf. pose proof (Hwf p Hin) as Hp. exists p. split; [exact Hin|]. split; [exact Hn|].
  unfold resolveParam in Hr. case_if Hr.
  { destruct (resolveStatusField_spec _ _ _ _ Hp Hr) as (Hi & Hd & H0 & Hle & Hk). rewrite Hd. auto. }
  destruct Hp as (Hd & Ho & Hw & Hv & Ht). case_if Hr.
  { destruct (PKind p) eqn:Ek; cbn [is_empty negb] in Hr; [|discriminate]. injection Hr as <-. rewrite Hd, Ho, Ek.
    splits; auto; lia. }
  destruct (PType p) as [t|] eqn:Et; cbn [option_map] in Hr; [|now case_if Hr].
  destruct (UnderlyingType t) as [| | |target| | | | | |] eqn:Eu; try (now case_if Hr).
  destruct (resolveMember_spec _ _ _ _ _ _ (Ht _ _ eq_refl Eu) Hv Hr) as (Hi & Hdr & Ha & Hor & R & HR & Hle). rewrite Hdr.
  splits; auto; try lia. exists t, target, R. auto.
Qed.
End Bounds.

(** A hook on a lookup: [struct key { u32 a; struct { u16 b; u16 c[2]; }; }]. *)
Definition sample_key : Ty :=
  TStruct (B "key") 12
    [mkMember (B "a") (TInt 4 EncUnsigned) 0 0;
     mkMember [] (TStruct [] 8 [mkMember (B "b") (TInt 2 EncSigned) 0 0;
                                mkMember (B "c") (TArray (TInt 2 EncUnsigned) 2) 16 0]) 32 0].

Definition sample_params : list FuncParamInfo :=
  [mkParam (B "key") 1 8 false (B "ptr-struct") (B "key") (Some (TPointer (TQual None sample_key))) false 0 false 0 false;
   mkParam (B "status") 2 8 false [] [] None false 0 false 0 true].

#[local] Definition sample_wf : let _ := strip_btf in wf (TQual None sample_key).
Proof.
  intros b. assert (H2 : forall enc, wf (TInt 2 enc)) by (intros; apply wf_leaf; simpl; lia).
  eapply wf_struct; [reflexivity|lia| |].
  - intros m [<-|[<-|[]]]; (split; [simpl; lia|]); intros _ s [= <-]; simpl; vm_compute; easy.
  - intros m [<-|[<-|[]]]; [apply wf_leaf; simpl; lia|]. eapply wf_struct; [reflexivity|lia| |].
    + intros m [<-|[<-|[]]]; (split; [simpl; lia|]); intros _ s [= <-]; simpl; vm_compute; easy.
    + intros m [<-|[<-|[]]]; [apply H2|]. eapply wf_array; [reflexivity|lia| |apply H2]. intros k [= <-]. vm_compute. easy.
Defined.

Lemma ResolveArg_in_bounds_witness :
  let _ := strip_btf in
  ResolveArg (B "key->c[1]") sample_params =
    Ok (mkParam (B "key->c[1]") 1 2 false [] [] (Some (TPointer (TQual None sample_key))) true 8 false 0 false) /\
  8 + 2 <= 12.
Proof.
  intros b. split; [vm_compute; reflexivity|].
  destruct (ResolveArg_in_bounds (B "key->c[1]") sample_params
    (mkParam (B "key->c[1]") 1 2 false [] [] (Some (TPointer (TQual None sample_key))) true 8 false 0 false)) as (p & [<-|[<-|[]]] & _ & Hi & _ & H);
    [|vm_compute; reflexivity| |discriminate].
  - apply List.Forall_forall. intros p [<-|[<-|[]]]; unfold wf_param; (splits; [reflexivity|reflexivity|easy|simpl; lia|simpl; lia|]);
      intros t target Ht Hu; [|discriminate]. injection Ht as <-. injection Hu as <-. apply sample_wf.
  - destruct H as (_ & _ & t & target & R & [= <-] & [= <-] & [= <-] & Hle). exact Hle.
Defined.
