(* ===== verification/ArgFilter.v ===== *)
(** * ArgFilter: --arg-filter conditions (internal/filter/argfilter.go)

    Parsing of [EXPR op value], the range check against the parameter's
    BTF width, and the printer; the printer and the parser are inverse, and
    an accepted condition can always be met. *)

From Stdlib Require Import ZArith Lia Bool Ascii String List.
From stdpp Require Import base list strings numbers option.
From S2P Require Import Prelude GoStd GoBytes GoText HookAbi ArgExpr.
Local Open Scope Z_scope.
Local Open Scope go_scope.

Inductive ArgFilterOp := OpEqual | OpGreaterEqual | OpLessEqual | OpRange | OpNotEqual.

#[global] Instance ArgFilterOp_eq_dec : EqDecision ArgFilterOp.
Proof. solve_decision. Defined.

Record ArgFilter := mkArgFilter {
  ParamName : bytes; ParamIndex : Z; ParamSize : Z; Signed : bool; Pointer : bool; Deref : bool; Offset : Z;
  Op : ArgFilterOp; Value : Z; MaxValue : Z; ThroughOpaque : bool
}.

(** [ArgFilter.String] *)
Definition fmtVal (f : ArgFilter) (v : Z) : bytes :=
  if Pointer f then B "null" else if Signed f then AppendInt [] (int64_of_u64 v) else AppendUint [] v.

Definition ArgFilter_String (f : ArgFilter) : bytes :=
  match Op f with
  | OpEqual => ParamName f ++ B "=" ++ fmtVal f (Value f)
  | OpNotEqual => ParamName f ++ B "!=" ++ fmtVal f (Value f)
  | OpGreaterEqual => ParamName f ++ B ">=" ++ fmtVal f (Value f)
  | OpLessEqual => ParamName f ++ B "<=" ++ fmtVal f (Value f)
  | OpRange => ParamName f ++ B "=" ++ fmtVal f (Value f) ++ B ".." ++ fmtVal f (MaxValue f)
  end.

Record ParsedFilter := mkParsed {
  pf_name : bytes; pf_null : bool; pf_be : Z; pf_op : ArgFilterOp; pf_value : Z; pf_max : Z
}.

(** ** The patterns *)

Definition any : re := Plus (Chr (fun c => negb (Ascii.eqb c "010"))).
Definition comparison : re :=
  Alt (Lit (B "==")) (Alt (Lit (B "!=")) (Alt (Lit (B ">=")) (Alt (Lit (B "<=")) (Lit (B "="))))).

(** [filterPattern]: the groups of [^(EXPR)(==|!=|>=|<=|=)(.+)$]. *)
Definition filterPattern : list re := [ArgExpressionPattern; comparison; any].

(** [^be(16|32|64)\((.+)\)$] *)
Definition networkValuePattern : list re :=
  [Lit (B "be"); Alt (Lit (B "16")) (Alt (Lit (B "32")) (Lit (B "64"))); Lit (B "("); any; Lit (B ")")].

(** ** Values *)

Definition parseValue (s : bytes) : result error Z :=
  let s := TrimSpace s in
  if HasPrefix s (B "0x") || HasPrefix s (B "0X") then ParseUint (drop 2 s) 16 64
  else if HasPrefix s (B "-") then let? v := ParseInt s 10 in Ok (u64 v)
  else ParseUint s 10 64.

(** [int64(1) << n] for a [uint32] count. *)
Definition shl1 (n : Z) : Z := if n <? 64 then int64_of_u64 (u64 (Z.shiftl 1 n)) else 0.

Definition validateValueRange (value size : Z) (signed : bool) (expr : bytes) : result error unit :=
  if 8 <=? size then Ok tt
  else
    let bits := u32 (size * 8) in
    if signed then
      let min := - shl1 (u32 (bits - 1)) in
      let max := shl1 (u32 (bits - 1)) - 1 in
      let sv := int64_of_u64 value in
      if (sv <? min) || (max <? sv)
      then errf "value %d in %q is out of range for %d-bit signed parameter [%d, %d]" [AInt sv; abytes expr; AInt bits; AInt min; AInt max]
      else Ok tt
    else
      let max := u64 (shl1 bits - 1) in
      if max <? value
      then errf "value %d in %q is out of range for %d-bit unsigned parameter [0, %d]" [AInt value; abytes expr; AInt bits; AInt max]
      else Ok tt.

(** The big-endian bytes of [v] read back in the host's (little-endian)
    order at the given width. *)
Definition native_of_be (width v : Z) : Z :=
  let buf := rev (le 8 v) in
  if width =? 2 then unle (drop 6 buf) else if width =? 4 then unle (drop 4 buf) else if width =? 8 then unle buf else v.

Definition parseFilterValue (s : bytes) : result error (Z * Z) :=
  match submatches networkValuePattern s with
  | Some [_; bits; _; text; _] =>
      let n := match ParseInt bits 10 with Ok n => n | Err _ => 0 end in
      let width := u32 (n / 8) in
      let literal := TrimSpace text in
      if HasPrefix literal (B "-") then errf "%s requires an unsigned value" [abytes s]
      else
        let? v := parseValue literal in
        let? _ := validateValueRange v width false s in
        Ok (native_of_be width v, width)
  | _ => let? v := parseValue s in Ok (v, 0)
  end.

(** ** ParseArgFilter *)

Definition op_of (s : bytes) : ArgFilterOp :=
  if bool_decide (s = B "=") || bool_decide (s = B "==") then OpEqual
  else if bool_decide (s = B "!=") then OpNotEqual
  else if bool_decide (s = B ">=") then OpGreaterEqual
  else OpLessEqual.

Definition is_equality (o : ArgFilterOp) : bool := bool_decide (o = OpEqual) || bool_decide (o = OpNotEqual).

(** The loop over the parts of the right-hand side. *)
Fixpoint parse_parts (expr : bytes) (first : bool) (parts : list bytes) (pf : ParsedFilter) : result error ParsedFilter :=
  match parts with
  | [] => Ok pf
  | part :: parts =>
      match parseFilterValue (TrimSpace part) with
      | Err e => errf "invalid value in %q: %w" [abytes expr; AErr e]
      | Ok (v, width) =>
          if negb (width =? 0) && negb (is_equality (pf_op pf)) then
            errf "%q: beNN literals only support equality (=, ==, !=); network byte order does not preserve numeric ordering for ranges or >=/<=" [abytes expr]
          else
            parse_parts expr false parts
              (if first then mkParsed (pf_name pf) (pf_null pf) width (pf_op pf) v (pf_max pf)
               else mkParsed (pf_name pf) (pf_null pf) (pf_be pf) (pf_op pf) (pf_value pf) v)
      end
  end.

Definition ParseArgFilter (expr : bytes) : result error ParsedFilter :=
  match submatches filterPattern expr with
  | Some [name; cmp; rest] =>
      let op := op_of cmp in
      let rhs := TrimSpace rest in
      if bool_decide (rhs = B "null") then
        if negb (is_equality op) then errf "%q: null only supports =, ==, or !=" [abytes expr]
        else Ok (mkParsed name true 0 op 0 0)
      else
        let parts := SplitS rhs (B "..") in
        let? op :=
          if (1 <? length parts)%nat then
            if negb (bool_decide (op = OpEqual)) || negb (length parts =? 2)%nat
            then errf "invalid range in %q: use =min..max" [abytes expr]
            else Ok OpRange
          else Ok op in
        let? pf := parse_parts expr true parts (mkParsed name false 0 op 0 0) in
        if bool_decide (pf_op pf = OpRange) && (pf_max pf <? pf_value pf)
           && (int64_of_u64 (pf_max pf) <? int64_of_u64 (pf_value pf))
        then errf "invalid range in %q: min > max" [abytes expr]
        else Ok pf
  | _ => errf "invalid filter expression: %q (expected EXPR=value, EXPR!=value, EXPR>=value, EXPR<=value, or EXPR=min..max, where EXPR is param, param->member[N].member, param[0][N].member, or status.ret/status.flags)" [abytes expr]
  end.

(** ** ParseAndValidateFilters *)

Section Validate.
Context `{Btf}.

(** [uint64(int64(v<<shift) >> shift)] with [shift = 64 - size*8]. *)
Definition extend (v size : Z) : Z :=
  let shift := u32 (64 - size * 8) in u64 (Z.shiftr (int64_of_u64 (u64 (Z.shiftl v shift))) shift).

(** One turn of the loop. *)
Definition validate_one (expr : bytes) (params : list FuncParamInfo) : result error ArgFilter :=
  let? pf := ParseArgFilter expr in
  let? param := if pf_null pf then ResolvePointerArg (pf_name pf) params else ResolveArg (pf_name pf) params in
  let? value :=
    if negb (pf_be pf =? 0) then
      if negb (pf_be pf =? PSize param) then
        errf "%q: be%d width must equal the %d-bit argument/member width" [abytes expr; AInt (pf_be pf * 8); AInt (PSize param * 8)]
      else Ok (if PSigned param && (PSize param <? 8) then extend (pf_value pf) (PSize param) else pf_value pf)
    else Ok (pf_value pf) in
  let? _ := validateValueRange value (PSize param) (PSigned param) expr in
  let? _ :=
    if bool_decide (pf_op pf = OpRange) then
      let? _ := validateValueRange (pf_max pf) (PSize param) (PSigned param) expr in
      if PSigned param then
        if int64_of_u64 (pf_max pf) <? int64_of_u64 value then
          errf "invalid range in %q: min (%d) > max (%d) for signed parameter"
            [abytes expr; AInt (int64_of_u64 value); AInt (int64_of_u64 (pf_max pf))]
        else Ok tt
      else
        if pf_max pf <? value then errf "invalid range in %q: min (%d) > max (%d)" [abytes expr; AInt value; AInt (pf_max pf)]
        else Ok tt
    else Ok tt in
  Ok (mkArgFilter (pf_name pf) (PIndex param) (PSize param) (PSigned param) (pf_null pf) (PDeref param) (POffset param)
        (pf_op pf) value (pf_max pf) (PThroughOpaque param)).

Fixpoint ParseAndValidateFilters (exprs : list bytes) (params : list FuncParamInfo) : result error (list ArgFilter) :=
  match exprs with
  | [] => Ok []
  | e :: exprs =>
      let? f := validate_one e params in
      let? fs := ParseAndValidateFilters exprs params in
      Ok (f :: fs)
  end.
End Validate.

Example parse_hex : ParseArgFilter (B "len>=0x40") = Ok (mkParsed (B "len") false 0 OpGreaterEqual 64 0).
Proof. reflexivity. Qed.
Example parse_neg_range : ParseArgFilter (B "ret=-5 .. 3") = Ok (mkParsed (B "ret") false 0 OpRange (two64 - 5) 3).
Proof. reflexivity. Qed.
Example parse_be : ParseArgFilter (B "sk->port==be16(443)") = Ok (mkParsed (B "sk->port") false 2 OpEqual 47873 0).
Proof. reflexivity. Qed.

(** ** Where an expression ends *)

(** The expression syntax as an automaton. *)
Inductive estate := EStart | EName | EDash | ENeedStep | EStep | EIn | EAfter | ENeedField | EField.

Definition estep (st : estate) (c : ascii) : option estate :=
  match st with
  | EStart => if ident_start c then Some EName else None
  | EName =>
      if ident_char c then Some EName
      else if Ascii.eqb c "-" then Some EDash
      else if Ascii.eqb c "[" then Some EIn
      else if Ascii.eqb c "." then Some ENeedField
      else None
  | EDash => if Ascii.eqb c ">" then Some ENeedStep else None
  | ENeedStep => if ident_start c then Some EStep else None
  | EStep =>
      if ident_char c then Some EStep
      else if Ascii.eqb c "[" then Some EIn
      else if Ascii.eqb c "." then Some ENeedStep
      else None
  | EIn => if Ascii.eqb c "]" then Some EAfter else if index_char c then Some EIn else None
  | EAfter => if Ascii.eqb c "[" then Some EIn else if Ascii.eqb c "." then Some ENeedStep else None
  | ENeedField => if ident_start c then Some EField else None
  | EField => if ident_char c then Some EField else None
  end.

Fixpoint erun (st : estate) (s : bytes) : option estate :=
  match s with
  | [] => Some st
  | c :: s => match estep st c with Some st => erun st s | None => None end
  end.

Definition eaccepting (st : estate) : bool := match st with EName | EStep | EAfter | EField => true | _ => false end.

Lemma erun_app st s t : erun st (s ++ t) = match erun st s with Some st => erun st t | None => None end.
Proof. revert st. induction s as [|c s IH]; intros st; simpl; [reflexivity|]. destruct (estep st c); auto. Qed.

Lemma erun_star p st s : (forall c, p c = true -> estep st c = Some st) -> lang (Star (Chr p)) s -> erun st s = Some st.
Proof.
  intros Hst Hs. apply lang_star_concat in Hs as (ps & -> & Hps). induction Hps as [|w ps [Hw _] _ IH]; [reflexivity|].
  inversion Hw as [? c Hc| | | | | |]; subst. cbn [concat app erun]. now rewrite (Hst c Hc).
Qed.

Lemma erun_ident st st' s :
  (forall c, ident_start c = true -> estep st c = Some st') -> (forall c, ident_char c = true -> estep st' c = Some st') ->
  lang ident s -> erun st s = Some st'.
Proof.
  intros H1 H2 Hs. inversion Hs as [| |? ? w v Hw Hv| | | |]; subst. inversion Hw as [? c Hc| | | | | |]; subst.
  cbn [app erun]. rewrite (H1 c Hc). eapply erun_star; eauto.
Qed.

Lemma index_char_step c : index_char c = true -> estep EIn c = Some EIn.
Proof. intros Hc. cbn [estep]. rewrite Hc. unfold index_char in Hc. now destruct (Ascii.eqb c "]"). Qed.

Lemma lang_eqb c s : lang (Chr (Ascii.eqb c)) s -> s = [c].
Proof. intros Hs. inversion Hs as [? d Hd| | | | | |]; subst. apply Ascii.eqb_eq in Hd as ->. reflexivity. Qed.

Lemma erun_index st s : estep st "[" = Some EIn -> lang argIndex s -> erun st s = Some EAfter.
Proof.
  intros Hst Hs. inversion Hs as [| |? ? a b Ha Hb| | | |]; subst. inversion Hb as [| |? ? w z Hw Hz| | | |]; subst.
  apply lang_eqb in Ha as ->. apply lang_eqb in Hz as ->. cbn [app erun]. rewrite Hst, erun_app.
  now rewrite (erun_star index_char EIn w index_char_step Hw).
Qed.

(** After a step, or after an index, a run of indexes. *)
Lemma erun_indexes st s : st = EStep \/ st = EAfter -> lang (Star argIndex) s -> erun st s = Some EStep \/ erun st s = Some EAfter.
Proof.
  intros Hst Hs. apply lang_star_concat in Hs as (ps & -> & Hps). revert st Hst.
  induction Hps as [|w ps [Hw _] _ IH]; intros st Hst; [simpl; intuition congruence|]. cbn [concat]. rewrite erun_app.
  rewrite (erun_index st w); [apply IH; now right|now destruct Hst as [->| ->]|exact Hw].
Qed.

Lemma ident_no_bracket c : ident_char c = true -> Ascii.eqb c "[" = false /\ Ascii.eqb c "." = false /\ Ascii.eqb c "-" = false.
Proof. intros Hc. repeat split; apply Ascii.eqb_neq; intros ->; discriminate Hc. Qed.

Lemma erun_memberStep s : lang argMemberStep s -> erun ENeedStep s = Some EStep \/ erun ENeedStep s = Some EAfter.
Proof.
  intros Hs. inversion Hs as [| |? ? a b Ha Hb| | | |]; subst. rewrite erun_app, (erun_ident ENeedStep EStep a).
  - apply erun_indexes; [now left|exact Hb].
  - intros c Hc. cbn [estep]. now rewrite Hc.
  - intros c Hc. cbn [estep]. now rewrite Hc.
  - exact Ha.
Qed.

Lemma erun_dots st s : st = EStep \/ st = EAfter -> lang dot_steps s -> erun st s = Some EStep \/ erun st s = Some EAfter.
Proof.
  intros Hst Hs. apply lang_star_concat in Hs as (ps & -> & Hps). revert st Hst.
  induction Hps as [|w ps [Hw _] _ IH]; intros st Hst; [simpl; intuition congruence|]. cbn [concat]. rewrite erun_app.
  inversion Hw as [| |? ? a b Ha Hb| | | |]; subst. apply lang_eqb in Ha as ->. cbn [app erun].
  assert (estep st "." = Some ENeedStep) as -> by now destruct Hst as [->| ->].
  destruct (erun_memberStep b Hb) as [->| ->]; apply IH; auto.
Qed.

Lemma erun_expr s : lang ArgExpressionPattern s -> exists st, erun EStart s = Some st /\ eaccepting st = true.
Proof.
  intros Hs. inversion Hs as [| |? ? a b Ha Hb| | | |]; subst. rewrite erun_app, (erun_ident EStart EName a); [|..|exact Ha];
    [|intros c Hc; cbn [estep]; now rewrite Hc..].
  assert (Hends : forall st t, erun EName t = Some st -> st = EStep \/ st = EAfter \/ st = EField ->
     exists st, erun EName t = Some st /\ eaccepting st = true).
  { intros st t Ht Hc. exists st. split; [exact Ht|]. now destruct Hc as [->|[->| ->]]. }
  inversion Hb as [| | |? ? w Hw|? ? w Hw| |]; subst; [|inversion Hw; subst; exists EName; now split].
  inversion Hw as [| | |? ? w1 Hw1|? ? w1 Hw1| |]; subst.
  - inversion Hw1 as [| |? ? d m Hd Hm| | | |]; subst. inversion Hm as [| |? ? m1 m2 Hm1 Hm2| | | |]; subst.
    inversion Hd as [| |? ? d1 d2 Hd1 Hd2| | | |]; subst. inversion Hd2 as [| |? ? d3 d4 Hd3 Hd4| | | |]; subst. inversion Hd4; subst.
    apply lang_eqb in Hd1 as ->. apply lang_eqb in Hd3 as ->.
    match goal with |- context [erun EName ?w] => change (erun EName w) with (erun ENeedStep (m1 ++ m2)) end. rewrite erun_app. destruct (erun_memberStep m1 Hm1) as [->| ->].
    + destruct (erun_dots EStep m2) as [E|E]; auto; rewrite E; eexists; split; reflexivity.
    + destruct (erun_dots EAfter m2) as [E|E]; auto; rewrite E; eexists; split; reflexivity.
  - inversion Hw1 as [| | |? ? w2 Hw2|? ? w2 Hw2| |]; subst.
    + inversion Hw2 as [| |? ? i m Hi Hm| | | |]; subst. inversion Hi as [| |? ? i1 i2 Hi1 Hi2| | | |]; subst.
      rewrite !erun_app, (erun_index EName i1 eq_refl Hi1).
      destruct (erun_indexes EAfter i2) as [E|E]; auto; rewrite E;
        [destruct (erun_dots EStep m) as [E'|E']|destruct (erun_dots EAfter m) as [E'|E']]; auto; rewrite E'; eexists; split; reflexivity.
    + inversion Hw2 as [| |? ? d f Hd Hf| | | |]; subst. apply lang_eqb in Hd as ->. cbn [app erun]. change (estep EName ".") with (Some ENeedField).
      cbv beta iota. rewrite (erun_ident ENeedField EField f); [|intros c Hc; cbn [estep]; now rewrite Hc..|exact Hf]. eexists. split; reflexivity.
Qed.

Definition op_char (c : ascii) : bool := Ascii.eqb c "=" || Ascii.eqb c "!" || Ascii.eqb c ">" || Ascii.eqb c "<".

Lemma accepting_stops st c : eaccepting st = true -> op_char c = true -> estep st c = None.
Proof.
  intros Hst Hc. unfold op_char in Hc. repeat (apply orb_prop in Hc as [Hc|Hc]); apply Ascii.eqb_eq in Hc as ->;
    destruct st; try discriminate; reflexivity.
Qed.

(** An expression in front of a comparison ends only there. *)
Lemma expr_unique p q c t d r :
  lang ArgExpressionPattern p -> lang ArgExpressionPattern q -> op_char c = true -> op_char d = true ->
  p ++ c :: t = q ++ d :: r -> p = q.
Proof.
  intros Hp Hq Hc Hd E. destruct (erun_expr p Hp) as (sp & Ep & Ap). destruct (erun_expr q Hq) as (sq & Eq & Aq).
  apply app_eq_inv in E as [(k & -> & E)|(k & -> & E)].
  - destruct k as [|x k]; [apply app_nil_r|]. injection E as <- _. rewrite erun_app, Eq in Ep. cbn [erun] in Ep.
    now rewrite accepting_stops in Ep.
  - destruct k as [|x k]; [symmetry; apply app_nil_r|]. injection E as <- _. rewrite erun_app, Ep in Eq. cbn [erun] in Eq.
    now rewrite accepting_stops in Eq.
Qed.

(** ** Printing and parsing *)

(** The characters of a printed number. *)
Definition num_char (c : ascii) : Prop := is_digit c = true \/ c = "-"%char.

Lemma num_char_codes c : num_char c -> 45 <= ord c <= 57 /\ c <> "."%char.
Proof.
  intros [Hc| ->]; [|vm_compute; easy]. pose proof (is_digit_range c Hc). split; [lia|]. intros ->. discriminate Hc.
Qed.

Definition num (signed : bool) (v : Z) : bytes := if signed then AppendInt [] (int64_of_u64 v) else AppendUint [] v.

Lemma int64_bounds v : in_u64 v -> - two63 <= int64_of_u64 v < two63.
Proof. unfold in_u64, int64_of_u64, two64, two63. destruct (Z.ltb_spec v 9223372036854775808); lia. Qed.

Lemma num_chars signed v : in_u64 v -> Forall num_char (num signed v).
Proof.
  intros Hv. assert (Hd : forall w, in_u64 w -> Forall num_char (AppendUint [] w)).
  { intros w Hw. eapply List.Forall_impl; [|exact (AppendUint_digits w Hw)]. now left. }
  unfold num. destruct signed; [|now apply Hd]. pose proof (int64_bounds v Hv) as Hb. unfold two63 in Hb. unfold AppendInt.
  destruct (Z.ltb_spec (int64_of_u64 v) 0).
  - change (AppendUint ([] ++ B "-") (- int64_of_u64 v)) with ("-"%char :: AppendUint [] (- int64_of_u64 v)).
    constructor; [now right|]. apply Hd. unfold in_u64, two64. lia.
  - apply Hd. unfold in_u64, two64. lia.
Qed.

Lemma num_nonempty signed v : num signed v <> [].
Proof.
  unfold num, AppendInt. destruct signed; [|apply AppendUint_nonempty]. destruct (_ <? 0); [discriminate|apply AppendUint_nonempty].
Qed.

Lemma num_printable s : Forall num_char s -> Forall printable s.
Proof. intros Hs. eapply List.Forall_impl; [|exact Hs]. intros c Hc. apply num_char_codes in Hc. unfold printable. lia. Qed.

Lemma num_trim s : Forall num_char s -> TrimSpace s = s.
Proof. intros Hs. now apply TrimSpace_clean, num_printable. Qed.

(** The numeric prefixes and [beNN] do not start a printed number. *)
Lemma num_no_prefix (P : ascii -> Prop) s p c : Forall P s -> In c p -> ~ P c -> HasPrefix s p = false.
Proof.
  intros Hs. revert p. induction Hs as [|d s Hd _ IH]; intros [|x p] Hin Hc; try easy. cbn [HasPrefix].
  destruct Hin as [->|Hin].
  - destruct (Ascii.eqb_spec c d); [now subst|reflexivity].
  - rewrite (IH p Hin Hc). apply andb_false_r.
Qed.

Lemma AppendUint_neg w : AppendUint ([] ++ B "-") w = "-"%char :: AppendUint [] w.
Proof. reflexivity. Qed.

Lemma u64_int64 v : in_u64 v -> u64 (int64_of_u64 v) = v.
Proof.
  unfold int64_of_u64, in_u64, u64, two63, two64. intros Hv. destruct (Z.ltb_spec v 9223372036854775808); [apply Z.mod_small; lia|].
  symmetry. apply (Z.mod_unique_pos _ _ (-1)); lia.
Qed.

Lemma digits_no_minus w : in_u64 w -> HasPrefix (AppendUint [] w) (B "-") = false.
Proof.
  intros Hw. apply (num_no_prefix (fun c => is_digit c = true) _ _ "-"); [now apply AppendUint_digits|now left|easy].
Qed.

Lemma num_minus v : in_u64 v ->
  (if HasPrefix (AppendInt [] (int64_of_u64 v)) (B "-") then let? v := ParseInt (AppendInt [] (int64_of_u64 v)) 10 in Ok (u64 v)
   else ParseUint (AppendInt [] (int64_of_u64 v)) 10 64) = Ok v.
Proof.
  intros Hv. pose proof (int64_bounds v Hv) as Hb. rewrite (ParseInt_decimal _ Hb). cbn [result_bind]. rewrite u64_int64 by exact Hv.
  unfold AppendInt. pose proof (u64_int64 v Hv) as Hr. destruct (Z.ltb_spec (int64_of_u64 v) 0).
  - rewrite AppendUint_neg. reflexivity.
  - assert (Hi : in_u64 (int64_of_u64 v)) by (unfold in_u64, two64, two63 in *; lia).
    rewrite digits_no_minus by exact Hi. rewrite ParseUint_decimal by exact Hi. f_equal. rewrite u64_small in Hr by exact Hi. exact Hr.
Qed.

Lemma parseValue_num signed v : in_u64 v -> parseValue (num signed v) = Ok v.
Proof.
  intros Hv. pose proof (num_chars signed v Hv) as Hs. unfold parseValue. rewrite num_trim by exact Hs.
  assert (Hx : forall x, x = "x"%char \/ x = "X"%char -> ~ num_char x) by (intros x [->| ->] [H|H]; discriminate H).
  rewrite (num_no_prefix num_char _ (B "0x") "x") by (auto; right; now left).
  rewrite (num_no_prefix num_char _ (B "0X") "X") by (auto; right; now left).
  cbn [orb]. unfold num. destruct signed; [now apply num_minus|].
  rewrite digits_no_minus by exact Hv. now apply ParseUint_decimal.
Qed.

Lemma submatches_head g groups s : rests g s = [] -> submatches (g :: groups) s = None.
Proof. intros Hs. cbn [submatches]. now rewrite Hs. Qed.

Lemma parseFilterValue_num signed v : in_u64 v -> parseFilterValue (num signed v) = Ok (v, 0).
Proof.
  intros Hv. unfold parseFilterValue, networkValuePattern. rewrite submatches_head.
  - rewrite parseValue_num by exact Hv. reflexivity.
  - pose proof (num_chars signed v Hv) as Hs. destruct (num signed v) as [|c s]; [reflexivity|].
    inversion Hs as [|? ? Hc _]; subst. cbn [B list_ascii_of_string Lit rests].
    destruct (Ascii.eqb_spec "b" c) as [<-|]; [|reflexivity]. destruct Hc as [Hc|Hc]; discriminate Hc.
Qed.

Lemma Cut_first s c p t : Forall (fun d => d <> c) s -> Cut (s ++ (c :: p) ++ t) (c :: p) = Some (s, t).
Proof.
  intros Hs. induction Hs as [|d s Hd _ IH].
  - change ([] ++ (c :: p) ++ t) with (c :: (p ++ t)). cbn [Cut]. change (c :: (p ++ t)) with ((c :: p) ++ t).
    rewrite HasPrefix_app. now rewrite drop_app_length.
  - cbn [app Cut HasPrefix]. destruct (Ascii.eqb_spec c d); [now subst|]. cbn [andb]. simpl app in IH. now rewrite IH.
Qed.

Lemma num_no_dot s : Forall num_char s -> Forall (fun d => d <> "."%char) s.
Proof. intros Hs. eapply List.Forall_impl; [|exact Hs]. intros c Hc. now apply num_char_codes. Qed.

Lemma split_one s : Forall num_char s -> SplitS s (B "..") = [s].
Proof.
  intros Hs. unfold SplitS. destruct (length s); [reflexivity|]. cbn [split_fuel].
  change (B "..") with ("."%char :: B "."). now rewrite Cut_absent by (apply neq_eqb; now apply num_no_dot).
Qed.

Lemma split_two a b : Forall num_char a -> Forall num_char b -> SplitS (a ++ B ".." ++ b) (B "..") = [a; b].
Proof.
  intros Ha Hb. unfold SplitS. rewrite !length_app. change (length (B "..")) with 2%nat.
  replace (length a + (2 + length b))%nat with (S (S (length a + length b))) by lia. change (B "..") with ("."%char :: B ".").
  cbn [split_fuel]. rewrite Cut_first by now apply num_no_dot. now rewrite Cut_absent by (apply neq_eqb; now apply num_no_dot).
Qed.

Definition op_text (o : ArgFilterOp) : bytes :=
  match o with
  | OpEqual | OpRange => B "="
  | OpNotEqual => B "!="
  | OpGreaterEqual => B ">="
  | OpLessEqual => B "<="
  end.

(** Text that can stand on the right-hand side: not empty, no newline, and
    not taken for a second [=]. *)
Definition value_text (s : bytes) : Prop := Forall (fun c => c <> "010"%char /\ c <> "="%char) s /\ s <> [].

Lemma lang_any s : value_text s -> lang any s.
Proof.
  intros [Hs Hne]. destruct Hs as [|c s [Hc _] Hs]; [easy|]. unfold any, Plus.
  assert (Hch : forall c, c <> "010"%char -> lang (Chr (fun c => negb (Ascii.eqb c "010"))) [c]).
  { intros d Hd. constructor. apply negb_true_iff. now apply Ascii.eqb_neq. }
  change (c :: s) with ([c] ++ s). constructor; [now apply Hch|]. clear Hne Hc. induction Hs as [|d s [Hd _] _ IH]; [constructor|].
  change (d :: s) with ([d] ++ s). apply L_star; [now apply Hch|discriminate|exact IH].
Qed.

Lemma submatches_last g s : lang g s -> submatches [g] s = Some [s].
Proof.
  intros Hs. pose proof (submatches_unique g [] s [] []) as H. rewrite app_nil_r in H. apply H; [exact Hs|reflexivity|].
  intros q r _ E Hne. destruct r; [|reflexivity]. rewrite app_nil_r in E. now symmetry in E.
Qed.

(** Evaluates the comparisons of concrete characters. *)
Ltac eval_eqb :=
  repeat match goal with
  | |- context [Ascii.eqb ?a ?b] =>
      let v := eval vm_compute in (Ascii.eqb a b) in
      lazymatch v with true => idtac | false => idtac end;
      change (Ascii.eqb a b) with v
  end.

Lemma submatches_comparison o s : value_text s -> submatches [comparison; any] (op_text o ++ s) = Some [op_text o; s].
Proof.
  intros Hs. pose proof (submatches_last any s (lang_any s Hs)) as Hl.
  assert (Hr : rests comparison (op_text o ++ s) = [s]).
  { destruct Hs as [Hs Hne]. destruct Hs as [|c s [_ Hc] _]; [easy|]. apply not_eq_sym, Ascii.eqb_neq in Hc.
    destruct o; cbn -[Ascii.eqb]; eval_eqb; cbn -[Ascii.eqb]; rewrite ?Hc; reflexivity. }
  remember [any] as gs. cbn [submatches]. rewrite Hr, Hl, before_app. reflexivity.
Qed.

Lemma op_text_char o : exists c t, op_text o = c :: t /\ op_char c = true.
Proof. destruct o; do 2 eexists; split; reflexivity. Qed.

Lemma comparison_char w : lang comparison w -> exists c t, w = c :: t /\ op_char c = true.
Proof.
  intros Hw. assert (Hin : In [] (rests comparison w)) by (apply rests_spec; exists w; now rewrite app_nil_r).
  destruct w as [|c t]; [simpl in Hin; easy|]. exists c, t. split; [reflexivity|]. unfold op_char.
  destruct (Ascii.eqb c "=") eqn:E1, (Ascii.eqb c "!") eqn:E2, (Ascii.eqb c ">") eqn:E3, (Ascii.eqb c "<") eqn:E4; try reflexivity.
  exfalso. rewrite Ascii.eqb_sym in E1, E2, E3, E4. cbn [rests comparison Lit B list_ascii_of_string] in Hin.
  rewrite E1, E2, E3, E4 in Hin. exact Hin.
Qed.

Lemma submatches_filter name o s :
  lang ArgExpressionPattern name -> value_text s ->
  submatches filterPattern (name ++ op_text o ++ s) = Some [name; op_text o; s].
Proof.
  intros Hn Hs. unfold filterPattern. apply submatches_unique; [exact Hn|now apply submatches_comparison|].
  intros q r Hq E Hne. destruct (submatches [comparison; any] r) as [ms|] eqn:Em; [|reflexivity]. exfalso. apply Hne. symmetry.
  apply submatches_sound in Em as [-> HF]. inversion HF as [|? w ? ms' Hw _]; subst.
  destruct (comparison_char w Hw) as (d & t & -> & Hd). destruct (op_text_char o) as (c & u & Ho & Hc). rewrite Ho in E.
  cbn [concat app] in E. exact (expr_unique name q c _ d _ Hn Hq Hc Hd E).
Qed.

Lemma num_value_text s : Forall num_char s -> s <> [] -> value_text s.
Proof.
  intros Hs Hne. split; [|exact Hne]. eapply List.Forall_impl; [|exact Hs]. intros c [Hc| ->]; [|split; discriminate].
  split; intros ->; discriminate Hc.
Qed.

(** ** Canonical filters *)

(** What [ParseAndValidateFilters] returns satisfies these. *)
Definition canonical (f : ArgFilter) : Prop :=
  lang ArgExpressionPattern (ParamName f) /\ in_u64 (Value f) /\ in_u64 (MaxValue f) /\
  (Op f <> OpRange -> MaxValue f = 0) /\
  (Pointer f = true -> is_equality (Op f) = true /\ Value f = 0) /\
  (Op f = OpRange -> if Signed f then int64_of_u64 (Value f) <= int64_of_u64 (MaxValue f) else Value f <= MaxValue f).

Definition parsed (f : ArgFilter) : ParsedFilter := mkParsed (ParamName f) (Pointer f) 0 (Op f) (Value f) (MaxValue f).

Definition rhs_text (f : ArgFilter) : bytes :=
  if bool_decide (Op f = OpRange) then fmtVal f (Value f) ++ B ".." ++ fmtVal f (MaxValue f) else fmtVal f (Value f).

Lemma String_parts f : ArgFilter_String f = ParamName f ++ op_text (Op f) ++ rhs_text f.
Proof. unfold ArgFilter_String, rhs_text. destruct (Op f); reflexivity. Qed.

Lemma op_of_text o : op_of (op_text o) = match o with OpRange => OpEqual | o => o end.
Proof. destruct o; reflexivity. Qed.

Lemma parse_null f : canonical f -> Pointer f = true -> ParseArgFilter (ArgFilter_String f) = Ok (parsed f).
Proof.
  intros (Hn & _ & _ & Hm & Hp & _) Hptr. destruct (Hp Hptr) as [Heq Hv].
  assert (Hop : Op f <> OpRange) by (intros Ho; rewrite Ho in Heq; discriminate).
  assert (Hrt : rhs_text f = B "null") by (unfold rhs_text, fmtVal; rewrite bool_decide_false by exact Hop; now rewrite Hptr).
  rewrite String_parts, Hrt. unfold ParseArgFilter. rewrite submatches_filter; [|exact Hn|].
  - cbv beta iota zeta. change (bool_decide (TrimSpace (B "null") = B "null")) with true. cbv iota. rewrite op_of_text.
    unfold parsed. rewrite Hv, (Hm Hop), Hptr. destruct (Op f); try discriminate; reflexivity.
  - split; [|discriminate]. repeat (constructor; [split; discriminate|]). constructor.
Qed.

Lemma num_not_null s : Forall num_char s -> bool_decide (s = B "null") = false.
Proof.
  intros Hs. apply bool_decide_false. intros ->. inversion Hs as [|? ? Hc _]; subst. destruct Hc as [Hc|Hc]; discriminate Hc.
Qed.

Lemma parse_part expr first (signed : bool) v parts pf :
  in_u64 v ->
  parse_parts expr first (num signed v :: parts) pf =
  parse_parts expr false parts
    (if first then mkParsed (pf_name pf) (pf_null pf) 0 (pf_op pf) v (pf_max pf)
     else mkParsed (pf_name pf) (pf_null pf) (pf_be pf) (pf_op pf) (pf_value pf) v).
Proof.
  intros Hv. cbn [parse_parts]. rewrite num_trim by now apply num_chars. rewrite parseFilterValue_num by exact Hv. reflexivity.
Qed.

Lemma range_not_rejected signed a b :
  in_u64 a -> in_u64 b -> (if signed : bool then int64_of_u64 a <= int64_of_u64 b else a <= b) ->
  (b <? a) && (int64_of_u64 b <? int64_of_u64 a) = false.
Proof. intros Ha Hb Hr. apply andb_false_iff. destruct signed; [right|left]; apply Z.ltb_ge; lia. Qed.

Lemma parse_number f : canonical f -> Pointer f = false -> ParseArgFilter (ArgFilter_String f) = Ok (parsed f).
Proof.
  intros (Hn & Hv & Hx & Hm & _ & Hr) Hptr.
  assert (Hf : forall v, fmtVal f v = num (Signed f) v) by (intros v; unfold fmtVal; now rewrite Hptr).
  pose proof (num_chars (Signed f) _ Hv) as Cv. pose proof (num_chars (Signed f) _ Hx) as Cx.
  pose proof (num_nonempty (Signed f) (Value f)) as Nv.
  rewrite String_parts. unfold ParseArgFilter, rhs_text. rewrite !Hf. destruct (decide (Op f = OpRange)) as [Ho|Ho].
  - rewrite bool_decide_true by exact Ho. specialize (Hr Ho).
    assert (Hrt : value_text (num (Signed f) (Value f) ++ B ".." ++ num (Signed f) (MaxValue f))).
    { split; [|intros E; apply app_eq_nil in E as [E _]; exact (Nv E)]. apply Forall_app. split; [now apply num_value_text|].
      apply Forall_app. split; [repeat (constructor; [split; discriminate|]); constructor|]. apply num_value_text; [exact Cx|apply num_nonempty]. }
    rewrite submatches_filter by assumption. cbv beta iota zeta. rewrite TrimSpace_clean.
    2: { apply Forall_app. split; [now apply num_printable|]. apply Forall_app. split; [|now apply num_printable].
         repeat (constructor; [vm_compute; easy|]). constructor. }
    rewrite bool_decide_false.
    2: { destruct (num (Signed f) (Value f)) as [|c s]; [easy|]. inversion Cv as [|? ? Hc _]; subst. intros [= -> _].
         destruct Hc as [Hc|Hc]; discriminate Hc. }
    rewrite split_two by assumption. rewrite Ho, op_of_text. cbn [length Nat.ltb Nat.leb Nat.eqb].
    change (negb (bool_decide (OpEqual = OpEqual)) || negb true) with false. cbv iota. cbn [result_bind].
    rewrite !parse_part by assumption. cbn [parse_parts result_bind pf_name pf_null pf_be pf_op pf_value pf_max].
    rewrite <- andb_assoc, (range_not_rejected _ _ _ Hv Hx Hr), andb_false_r. unfold parsed. now rewrite Hptr, Ho.
  - rewrite bool_decide_false by exact Ho. rewrite submatches_filter by (auto using num_value_text). cbv beta iota zeta.
    rewrite num_trim by exact Cv. rewrite num_not_null by exact Cv. rewrite split_one by exact Cv. cbn [length Nat.ltb Nat.leb result_bind].
    assert (Hop : op_of (op_text (Op f)) = Op f) by (rewrite op_of_text; now destruct (Op f)). rewrite Hop.
    rewrite parse_part by exact Hv. cbn [parse_parts result_bind pf_name pf_null pf_be pf_op pf_value pf_max].
    rewrite bool_decide_false by exact Ho. unfold parsed. now rewrite Hptr, (Hm Ho).
Qed.

Lemma parse_canonical f : canonical f -> ParseArgFilter (ArgFilter_String f) = Ok (parsed f).
Proof. intros Hf. destruct (Pointer f) eqn:E; [now apply parse_null|now apply parse_number]. Qed.

(** ** What the parser returns *)

Lemma parseValue_u64 s v : parseValue s = Ok v -> in_u64 v.
Proof.
  unfold parseValue. destruct (_ || _); [apply ParseUint_in_u64|]. destruct (HasPrefix _ _); [|apply ParseUint_in_u64].
  intros H. apply result_bind_ok in H as (w & _ & [= <-]). apply u64_range.
Qed.

Lemma unle_u64 l : (length l <= 8)%nat -> Forall byte l -> in_u64 (unle l).
Proof.
  intros Hl Hb. pose proof (unle_range l Hb) as H. unfold len in H.
  assert (256 ^ Z.of_nat (length l) <= 256 ^ 8) by (apply Z.pow_le_mono_r; lia). unfold in_u64. change two64 with (256 ^ 8). lia.
Qed.

Lemma native_of_be_u64 w v : in_u64 v -> in_u64 (native_of_be w v).
Proof.
  intros Hv. unfold native_of_be. assert (Hb : Forall byte (rev (le 8 v))) by apply Forall_rev, le_byte.
  assert (Hl : length (rev (le 8 v)) = 8%nat) by (rewrite length_rev; apply le_length).
  repeat case_goal; auto; apply unle_u64; rewrite ?length_drop, ?Hl; try lia; auto using Forall_drop.
Qed.

Lemma parseFilterValue_u64 s v w : parseFilterValue s = Ok (v, w) -> in_u64 v.
Proof.
  unfold parseFilterValue. assert (Hp : (let? v := parseValue s in Ok (v, 0)) = Ok (v, w) -> in_u64 v).
  { intros H. apply result_bind_ok in H as (v' & Hv & [= -> _]). now apply parseValue_u64 in Hv. }
  destruct (submatches _ _) as [[|a [|b [|c [|d [|e [|]]]]]]|]; auto. clear Hp. intros H. cbv zeta in H. case_if H; [discriminate|].
  apply result_bind_ok in H as (v' & Hv & H). apply result_bind_ok in H as (_ & _ & [= <- _]).
  apply native_of_be_u64. now apply parseValue_u64 in Hv.
Qed.

Lemma lang_name expr ms name cmp rest :
  submatches filterPattern expr = Some ms -> ms = [name; cmp; rest] -> lang ArgExpressionPattern name.
Proof. intros H ->. apply submatches_sound in H as [_ HF]. now inversion HF. Qed.

(** What holds of every parsed filter. *)
Definition parsed_ok (pf : ParsedFilter) : Prop :=
  lang ArgExpressionPattern (pf_name pf) /\ in_u64 (pf_value pf) /\ in_u64 (pf_max pf) /\
  (pf_op pf <> OpRange -> pf_max pf = 0) /\
  (pf_null pf = true -> is_equality (pf_op pf) = true /\ pf_value pf = 0 /\ pf_be pf = 0) /\
  (pf_be pf <> 0 -> is_equality (pf_op pf) = true).

Lemma parse_one expr first part parts pf pf' :
  parse_parts expr first (part :: parts) pf = Ok pf' ->
  exists v w, in_u64 v /\ (w <> 0 -> is_equality (pf_op pf) = true) /\
    parse_parts expr false parts
      (if first then mkParsed (pf_name pf) (pf_null pf) w (pf_op pf) v (pf_max pf)
       else mkParsed (pf_name pf) (pf_null pf) (pf_be pf) (pf_op pf) (pf_value pf) v) = Ok pf'.
Proof.
  cbn [parse_parts]. destruct (parseFilterValue _) as [[v w]|e] eqn:Ev; [|discriminate]. intros H. case_if H; [discriminate|].
  exists v, w. split; [now apply parseFilterValue_u64 in Ev|]. split; [|exact H]. intros Hw.
  apply andb_false_iff in E as [E|E]; [|now apply negb_false_iff in E]. apply negb_false_iff, Z.eqb_eq in E. easy.
Qed.

Lemma ParseArgFilter_ok expr pf : ParseArgFilter expr = Ok pf -> parsed_ok pf.
Proof.
  unfold ParseArgFilter. destruct (submatches filterPattern expr) as [ms|] eqn:Em; [|discriminate].
  destruct ms as [|name [|cmp [|rest [|]]]]; try discriminate. pose proof (lang_name _ _ _ _ _ Em eq_refl) as Hn.
  assert (H0 : in_u64 0) by (unfold in_u64, two64; lia). cbv zeta. set (rhs := TrimSpace rest). set (op := op_of cmp).
  intros H. case_if H.
  { case_if H; [discriminate|]. injection H as <-. bools. unfold parsed_ok. cbn. splits; auto. }
  apply result_bind_ok in H as (op' & Hop & H). apply result_bind_ok in H as (pf' & Hp & H). case_if H; [discriminate|]. injection H as ->.
  destruct (SplitS rhs (B "..")) as [|p1 [|p2 [|]]] eqn:Es; cbn [length Nat.ltb Nat.leb] in Hop.
  - injection Hop as <-. injection Hp as <-. unfold parsed_ok. cbn. splits; auto; discriminate || easy.
  - injection Hop as <-. destruct (parse_one _ _ _ _ _ _ Hp) as (v & w & Hv & Hw & Hq). injection Hq as <-.
    unfold parsed_ok. cbn in *. splits; auto; discriminate.
  - case_if Hop; [discriminate|]. injection Hop as <-. destruct (parse_one _ _ _ _ _ _ Hp) as (v & w & Hv & Hw & Hq).
    destruct (parse_one _ _ _ _ _ _ Hq) as (v2 & w2 & Hv2 & Hw2 & Hq2). injection Hq2 as <-.
    unfold parsed_ok. cbn in *. splits; auto; try discriminate. easy.
  - case_if Hop; [discriminate|]. cbn in E1. rewrite orb_true_r in E1. discriminate.
Qed.

(** ** Accepted filters *)

Section Accepted.
Context `{Btf}.

Definition resolve (pf : ParsedFilter) (params : list FuncParamInfo) : result error FuncParamInfo :=
  if pf_null pf then ResolvePointerArg (pf_name pf) params else ResolveArg (pf_name pf) params.

Lemma validateValueRange_expr v size signed e e' :
  validateValueRange v size signed e = Ok tt -> validateValueRange v size signed e' = Ok tt.
Proof. unfold validateValueRange. cbv zeta. repeat case_goal; auto; discriminate. Qed.

(** What [validate_one] has checked. *)
Lemma validate_one_ok expr params f :
  validate_one expr params = Ok f ->
  exists pf p,
    ParseArgFilter expr = Ok pf /\ resolve pf params = Ok p /\ parsed_ok pf /\
    f = mkArgFilter (pf_name pf) (PIndex p) (PSize p) (PSigned p) (pf_null pf) (PDeref p) (POffset p) (pf_op pf) (Value f) (pf_max pf) (PThroughOpaque p) /\
    in_u64 (Value f) /\ (pf_be pf = 0 -> Value f = pf_value pf) /\
    validateValueRange (Value f) (PSize p) (PSigned p) expr = Ok tt /\
    (pf_op pf = OpRange -> validateValueRange (pf_max pf) (PSize p) (PSigned p) expr = Ok tt /\
       if PSigned p then int64_of_u64 (Value f) <= int64_of_u64 (pf_max pf) else Value f <= pf_max pf).
Proof.
  unfold validate_one. intros Hv. apply result_bind_ok in Hv as (pf & Hpf & Hv). pose proof (ParseArgFilter_ok _ _ Hpf) as Hok.
  apply result_bind_ok in Hv as (p & Hp & Hv). apply result_bind_ok in Hv as (value & Hval & Hv).
  apply result_bind_ok in Hv as ([] & Hr & Hv). apply result_bind_ok in Hv as ([] & Hm & Hv). injection Hv as <-.
  exists pf, p. cbn [Value]. splits; auto.
  - destruct Hok as (_ & Hu & _). case_if Hval; [|now injection Hval as <-]. case_if Hval; [discriminate|]. injection Hval as <-.
    destruct (_ && _); [apply u64_range|exact Hu].
  - intros Hz. rewrite Hz in Hval. now injection Hval as <-.
  - intros Ho. rewrite Ho in Hm. rewrite bool_decide_true in Hm by reflexivity. apply result_bind_ok in Hm as ([] & Hm1 & Hm).
    split; [exact Hm1|]. destruct (PSigned p); case_if Hm; try discriminate; bools; lia.
Qed.

Lemma validate_one_canonical expr params f : validate_one expr params = Ok f -> canonical f.
Proof.
  intros Hv. destruct (validate_one_ok _ _ _ Hv) as (pf & p & _ & _ & (Hn & _ & Hx & Hmx & Hnull & _) & Ef & Hu & Hbe & _ & Hr).
  rewrite Ef in *. unfold canonical. cbn in *. splits; auto.
  - intros Hnl. destruct (Hnull Hnl) as (Hq & Hv0 & Hb0). split; [exact Hq|]. rewrite Hbe by exact Hb0. exact Hv0.
  - intros Ho. now apply Hr.
Qed.

(** Validating a printed filter gives the filter back. *)
Lemma validate_one_stable expr params f :
  validate_one expr params = Ok f -> validate_one (ArgFilter_String f) params = Ok f.
Proof.
  intros Hv. pose proof (validate_one_canonical _ _ _ Hv) as Hc.
  destruct (validate_one_ok _ _ _ Hv) as (pf & p & _ & Hp & _ & Ef & _ & _ & Hr1 & Hr2). clear Hv.
  unfold validate_one. rewrite (parse_canonical f Hc). cbn [result_bind].
  set (e' := ArgFilter_String f). unfold parsed. cbn [pf_null pf_name pf_be pf_op pf_value pf_max].
  assert (Hnn : Pointer f = pf_null pf /\ ParamName f = pf_name pf /\ Op f = pf_op pf /\ MaxValue f = pf_max pf) by (rewrite Ef; auto).
  destruct Hnn as (-> & -> & -> & ->). unfold resolve in Hp. rewrite Hp. cbn [result_bind]. change (negb (0 =? 0)) with false. cbv iota.
  cbn [result_bind]. rewrite (validateValueRange_expr _ _ _ _ e' Hr1). cbn [result_bind].
  destruct (decide (pf_op pf = OpRange)) as [Ho|Ho].
  - destruct (Hr2 Ho) as [Hm Hle]. rewrite bool_decide_true by exact Ho. rewrite (validateValueRange_expr _ _ _ _ e' Hm). cbn [result_bind].
    destruct (PSigned p) eqn:Es; (destruct (_ <? _) eqn:E; [bools; lia|]); cbn [result_bind]; rewrite Ef at 2; reflexivity.
  - rewrite bool_decide_false by exact Ho. cbn [result_bind]. rewrite Ef at 2. reflexivity.
Qed.

(** Printing and parsing of filters agree. Whatever expressions were
    accepted for a target (hexadecimal, signed, ranges, network-order
    literals, NULL tests), printing the resulting filters and giving the
    text back for the same target yields exactly the same filters. *)
Theorem ParseAndValidateFilters_stable exprs params fs :
  ParseAndValidateFilters exprs params = Ok fs -> ParseAndValidateFilters (map ArgFilter_String fs) params = Ok fs.
Proof.
  revert fs. induction exprs as [|e exprs IH]; intros fs; cbn [ParseAndValidateFilters]; [now intros [= <-]|].
  intros Hf. apply result_bind_ok in Hf as (f & H1 & Hf). apply result_bind_ok in Hf as (fs' & H2 & Hf). injection Hf as <-.
  cbn [map ParseAndValidateFilters]. rewrite (validate_one_stable _ _ _ H1). cbn [result_bind].
  rewrite (IH _ H2). reflexivity.
Qed.

(** ** An accepted filter can be met *)

(** The 64-bit value compared: the argument's bytes, sign-extended when the
    parameter is signed. *)
Definition widen (size : Z) (signed : bool) (x : Z) : Z :=
  if signed && (2 ^ (8 * size - 1) <=? x) then u64 (x - 2 ^ (8 * size)) else x.

Definition passes (f : ArgFilter) (x : Z) : bool :=
  let v := widen (ParamSize f) (Signed f) x in
  let leq a b := if Signed f then int64_of_u64 a <=? int64_of_u64 b else a <=? b in
  match Op f with
  | OpEqual => v =? Value f
  | OpNotEqual => negb (v =? Value f)
  | OpGreaterEqual => leq (Value f) v
  | OpLessEqual => leq v (Value f)
  | OpRange => leq (Value f) v && leq v (MaxValue f)
  end.

Lemma halves size : access_size size -> 2 ^ (8 * size) = 2 * 2 ^ (8 * size - 1) /\ 0 < 2 ^ (8 * size - 1) <= two63.
Proof. intros [->|[->|[->| ->]]]; vm_compute; easy. Qed.

Lemma widen_range size (signed : bool) x :
  access_size size -> 0 <= x < 2 ^ (8 * size) ->
  in_u64 (widen size signed x) /\
  (if signed then int64_of_u64 (widen size signed x) = (if 2 ^ (8 * size - 1) <=? x then x - 2 ^ (8 * size) else x)
   else widen size signed x = x).
Proof.
  intros Hs. destruct (halves size Hs) as [E Hh]. unfold widen, in_u64, u64, int64_of_u64, two63, two64 in *. rewrite !E.
  set (h := 2 ^ (8 * size - 1)) in *. intros Hx. destruct signed; cbn [andb]; [|split; [lia|reflexivity]].
  destruct (Z.leb_spec h x).
  - replace ((x - 2 * h) mod 18446744073709551616) with (x - 2 * h + 18446744073709551616) by (apply (Z.mod_unique_pos _ _ (-1)); lia).
    destruct (Z.ltb_spec (x - 2 * h + 18446744073709551616) 9223372036854775808); lia.
  - destruct (Z.ltb_spec x 9223372036854775808); lia.
Qed.

(** The limits the range check computes with shifts. *)
Lemma range_limits size :
  access_size size -> (8 <=? size) = false ->
  shl1 (u32 (u32 (size * 8) - 1)) = 2 ^ (8 * size - 1) /\ u64 (shl1 (u32 (size * 8)) - 1) = 2 ^ (8 * size) - 1.
Proof. intros [->|[->|[->| ->]]] H8; try discriminate; split; reflexivity. Qed.

Lemma validateValueRange_bounds v size (signed : bool) expr :
  in_u64 v -> access_size size ->
  validateValueRange v size signed expr = Ok tt <->
  if signed then - 2 ^ (8 * size - 1) <= int64_of_u64 v < 2 ^ (8 * size - 1) else v < 2 ^ (8 * size).
Proof.
  intros Hv Hs. pose proof (int64_bounds v Hv) as Hb. unfold validateValueRange. destruct (8 <=? size) eqn:E8.
  - split; [intros _|reflexivity]. assert (size = 8) as -> by (bools; unfold access_size in Hs; lia).
    change (2 ^ (8 * 8 - 1)) with two63. change (2 ^ (8 * 8)) with two64. unfold in_u64, two63, two64 in *. destruct signed; lia.
  - destruct (range_limits size Hs E8) as [-> ->]. cbv zeta. destruct signed.
    + destruct (Z.ltb_spec (int64_of_u64 v) (- 2 ^ (8 * size - 1))); cbn [orb]; [split; [discriminate|lia]|].
      destruct (Z.ltb_spec (2 ^ (8 * size - 1) - 1) (int64_of_u64 v)); split; try discriminate; try reflexivity; lia.
    + destruct (Z.ltb_spec (2 ^ (8 * size) - 1) v); split; try discriminate; try reflexivity; lia.
Qed.

(** The range check accepts exactly the values an argument can have. *)
Lemma validateValueRange_exact v size signed expr :
  in_u64 v -> access_size size ->
  validateValueRange v size signed expr = Ok tt <-> exists x, 0 <= x < 2 ^ (8 * size) /\ widen size signed x = v.
Proof.
  intros Hv Hs. rewrite (validateValueRange_bounds v size signed expr Hv Hs). destruct (halves size Hs) as [E Hh]. split.
  - intros Hr. destruct signed; [|exists v; unfold in_u64 in Hv; split; [lia|reflexivity]].
    exists (if int64_of_u64 v <? 0 then int64_of_u64 v + 2 ^ (8 * size) else int64_of_u64 v). pose proof (u64_int64 v Hv) as Hu.
    unfold widen. cbn [andb]. destruct (Z.ltb_spec (int64_of_u64 v) 0).
    + replace (2 ^ (8 * size - 1) <=? _) with true by (symmetry; apply Z.leb_le; lia).
      split; [lia|]. rewrite <- Hu at 2. f_equal. lia.
    + replace (2 ^ (8 * size - 1) <=? _) with false by (symmetry; apply Z.leb_gt; lia).
      split; [lia|]. rewrite <- Hu at 2. symmetry. apply u64_small. unfold in_u64, two64, two63 in *. lia.
  - intros (x & Hx & <-). destruct (widen_range size signed x Hs Hx) as [Hu Hw]. destruct signed; [|lia].
    rewrite Hw. destruct (Z.leb_spec (2 ^ (8 * size - 1)) x); lia.
Qed.

Lemma resolve_size pf params p :
  Forall (fun p => access_size (PSize p)) params -> resolve pf params = Ok p -> access_size (PSize p).
Proof.
  intros Hps. rewrite List.Forall_forall in Hps. unfold resolve. destruct (pf_null pf).
  { unfold ResolvePointerArg. destruct (find _ _); [|discriminate]. intros [= <-]. cbn. unfold access_size. auto. }
  unfold ResolveArg. destruct (negb _); [discriminate|]. cbv zeta. destruct (find _ params) as [q|] eqn:Ef; [|discriminate].
  apply find_some in Ef as [Hin _]. specialize (Hps q Hin). unfold resolveParam. intros Hr. case_if Hr.
  { unfold resolveStatusField in Hr. repeat (case_if Hr; try discriminate); injection Hr as <-; cbn; unfold access_size; auto. }
  case_if Hr; [case_if Hr; [discriminate|now injection Hr as <-]|].
  destruct (option_map UnderlyingType (PType q)) as [[]|]; try (now case_if Hr). unfold resolveMember in Hr.
  apply result_bind_ok in Hr as ([typ0 off0] & _ & Hr). apply result_bind_ok in Hr as ([[typ off] th] & _ & Hr).
  apply result_bind_ok in Hr as ([sz sg] & _ & Hr). case_if Hr; [discriminate|]. case_if Hr; [discriminate|]. injection Hr as <-. cbn.
  apply negb_false_iff in E1. unfold access_size. repeat (apply orb_prop in E1 as [E1|E1]); bools; auto.
Qed.

(** No accepted filter is always false: for each there is an argument of
    the parameter's width that passes it, compared the way the probe
    compares it (the bytes sign-extended when the parameter is signed, and
    the order signed or unsigned accordingly). An out-of-range or
    inverted-range value never gets through. *)
Theorem ParseAndValidateFilters_satisfiable exprs params fs :
  Forall (fun p => access_size (PSize p)) params -> ParseAndValidateFilters exprs params = Ok fs ->
  Forall (fun f => exists x, 0 <= x < 2 ^ (8 * ParamSize f) /\ passes f x = true) fs.
Proof.
  intros Hps. revert fs. induction exprs as [|e exprs IH]; intros fs; cbn [ParseAndValidateFilters]; [now intros [= <-]|].
  intros Hf. apply result_bind_ok in Hf as (f & H1 & Hf). apply result_bind_ok in Hf as (fs' & H2 & Hf). injection Hf as <-.
  constructor; [|now apply IH]. destruct (validate_one_ok _ _ _ H1) as (pf & p & _ & Hp & _ & Ef & Hu & _ & Hr & Hrange).
  pose proof (resolve_size _ _ _ Hps Hp) as Hs.
  apply (validateValueRange_exact _ _ _ _ Hu Hs) in Hr as (x & Hx & Hw).
  assert (Hsz : ParamSize f = PSize p /\ Signed f = PSigned p /\ Op f = pf_op pf /\ MaxValue f = pf_max pf) by (rewrite Ef; auto).
  destruct Hsz as (Es & Esg & Eo & Em). unfold passes. rewrite Es, Esg, Eo, Em.
  destruct (pf_op pf) eqn:Ho.
  1-4: exists x; split; [exact Hx|]; cbv zeta; rewrite Hw; destruct (PSigned p); rewrite ?Z.eqb_refl, ?Z.leb_refl; auto.
  - destruct (Hrange eq_refl) as [_ Hle]. apply Z.leb_le. exact Hle.
  - destruct (Hrange eq_refl) as [_ Hle]. apply Z.leb_le. exact Hle.
  - assert (H01 : exists y, 0 <= y < 2 ^ (8 * PSize p) /\ widen (PSize p) (PSigned p) y <> Value f).
    { assert (Hw0 : forall y, y = 0 \/ y = 1 -> 0 <= y < 2 ^ (8 * PSize p) /\ widen (PSize p) (PSigned p) y = y).
      { intros y Hy. unfold widen. destruct Hs as [->|[->|[->| ->]]], Hy as [->| ->], (PSigned p); vm_compute; easy. }
      destruct (Z.eq_dec (Value f) 0) as [->|Hne]; [exists 1; destruct (Hw0 1) as [? ->]|exists 0; destruct (Hw0 0) as [? ->]]; auto. }
    destruct H01 as (y & Hy & Hne). exists y. split; [exact Hy|]. apply negb_true_iff, Z.eqb_neq. exact Hne.
Qed.
End Accepted.

(** *** Witnesses *)

Definition sample_exprs : list bytes :=
  [B "key->a>=0x10"; B "status.ret != -1"; B "key!=null"; B "key->b=-3 .. 7"; B "key->c[0]==be16(443)"].

Definition sample_texts : list bytes := [B "key->a>=16"; B "key!=null"; B "key->b=-3..7"; B "key->c[0]=47873"].

Definition sample_filters : list ArgFilter :=
  [mkArgFilter (B "key->a") 1 4 false false true 0 OpGreaterEqual 16 0 false;
   mkArgFilter (B "key") 1 8 false true false 0 OpNotEqual 0 0 false;
   mkArgFilter (B "key->b") 1 2 true false true 4 OpRange (two64 - 3) 7 false;
   mkArgFilter (B "key->c[0]") 1 2 false false true 6 OpEqual 47873 0 false].

Definition sample_accepted : list bytes :=
  [B "key->a>=0x10"; B "key!=null"; B "key->b=-3 .. 7"; B "key->c[0]==be16(443)"].

Lemma ParseAndValidateFilters_stable_witness :
  let _ := strip_btf in
  ParseAndValidateFilters sample_texts sample_params = Ok sample_filters /\
  is_ok (ParseAndValidateFilters sample_exprs sample_params) = false.
Proof.
  intros b. split; [|vm_compute; reflexivity].
  change sample_texts with (map ArgFilter_String sample_filters).
  apply (ParseAndValidateFilters_stable sample_accepted). vm_compute. reflexivity.
Defined.

Lemma ParseAndValidateFilters_satisfiable_witness :
  let _ := strip_btf in Forall (fun f => exists x, 0 <= x < 2 ^ (8 * ParamSize f) /\ passes f x = true) sample_filters.
Proof.
  intros b. apply (ParseAndValidateFilters_satisfiable sample_accepted sample_params).
  - apply List.Forall_forall. intros p [<-|[<-|[]]]; right; right; right; reflexivity.
  - vm_compute. reflexivity.
Defined.
