(* ===== verification/SetMap.v ===== *)
(** * SetMap: pinned hash maps used as match sets (internal/setmap)

    setmap.go reads a set's key and value schemas from the map's BTF;
    ops.go creates maps from a schema text, builds keys and updates entries.
    The map's contents are a finite map from key bytes to value bytes; the
    system calls that open, create and pin maps are not modelled. *)

From Stdlib Require Import ZArith Lia Bool Ascii String List.
From stdpp Require Import base list strings numbers option gmap.
From S2P Require Import Prelude GoStd GoBytes GoText HookAbi ArgExpr.
Local Open Scope Z_scope.
Local Open Scope go_scope.

Definition MaxKeySize : Z := 64.

Record KeyField := mkKeyField { kf_Name : bytes; kf_Off : Z; kf_Size : Z; kf_IsBytes : bool }.

(** [Definition] without its map handle; [d_ValueSize] is [Map.ValueSize()]. *)
Record Definition_ := mkDefinition {
  d_KeySize : Z; d_ValueSize : Z; d_Fields : list KeyField; d_IsScalar : bool; d_ValFields : list KeyField
}.

Definition ValFieldTag : bytes := B "tag".
Definition ValFieldState : bytes := B "state".
Definition ValFieldMaxBytes : bytes := B "max_bytes".

Definition StateActive : Z := 0.
Definition StateCapped : Z := 1.
Definition StateFinalized : Z := 2.

Definition fieldAlign (size : Z) (isBytes : bool) : Z := if isBytes then 8 else size.
Definition Align (f : KeyField) : Z := fieldAlign (kf_Size f) (kf_IsBytes f).

Definition find_field (name : bytes) (fs : list KeyField) : option KeyField := find (fun f => bool_decide (kf_Name f = name)) fs.

Definition TagField (d : Definition_) : KeyField :=
  match d_ValFields d with
  | [] => mkKeyField ValFieldTag 0 (d_ValueSize d) false
  | f :: _ => f
  end.
Definition TagWidth (d : Definition_) : Z := kf_Size (TagField d).
Definition ValField (d : Definition_) (name : bytes) : option KeyField := find_field name (d_ValFields d).
Definition StateOff (d : Definition_) : Z := match ValField d ValFieldState with Some f => kf_Off f | None => -1 end.
Definition DField (d : Definition_) (name : bytes) : option KeyField := find_field name (d_Fields d).

(** ** --set specifications *)

Record MapEntry := mkMapEntry { me_Field : bytes; me_Source : bytes }.
Record SpecRef := mkSpecRef { sr_Name : bytes; sr_Path : bytes; sr_Mapping : list MapEntry }.
Record Set_ := mkSet { s_Ref : SpecRef; s_Def : Definition_ }.

(** The loop over the comma-separated entries of [key(...)]. *)
Fixpoint parse_mapping (s : bytes) (ents : list bytes) (acc : list MapEntry) : result error (list MapEntry) :=
  match ents with
  | [] => Ok acc
  | ent :: ents =>
      let ent := TrimSpace ent in
      if is_empty ent then parse_mapping s ents acc
      else
        let '(field, source, hasSource) := cut ent (B "=") in
        let field := TrimSpace field in
        let source := TrimSpace source in
        if is_empty field then errf "--set %q: empty key field name in %q" [abytes s; abytes ent]
        else if existsb (fun m => bool_decide (me_Field m = field)) acc then
          errf "--set %q: key field %q mapped twice" [abytes s; abytes field]
        else
          let source := if hasSource then source else B "arg:" ++ field in
          if negb (HasPrefix source (B "arg:")) || (length source <=? 4)%nat then
            errf "--set %q: source %q must be arg:<param> (pkt: sources are not supported yet)" [abytes s; abytes source]
          else parse_mapping s ents (acc ++ [mkMapEntry field source])
  end.

Definition ParseSetSpec (s : bytes) : result error SpecRef :=
  let '(name, rest, ok) := cut s (B "=") in
  if negb ok || is_empty name then errf "--set %q: want NAME=/pinned/path[,key(...)]" [abytes s]
  else
    let '(path, keySpec, hasKey) := cut rest (B ",") in
    if is_empty path then errf "--set %q: empty pinned map path" [abytes s]
    else if negb hasKey then Ok (mkSpecRef name path [])
    else
      let bad := errf "--set %q: expected key(field=source,...) after the path, got %q" [abytes s; abytes keySpec] in
      match CutPrefix keySpec (B "key(") with
      | None => bad
      | Some inner =>
          if negb (HasSuffix inner (B ")")) then bad
          else
            let inner := TrimSuffix inner (B ")") in
            let? m := parse_mapping s (SplitS inner (B ",")) [] in
            match m with
            | [] => errf "--set %q: empty key(...) mapping" [abytes s]
            | _ => Ok (mkSpecRef name path m)
            end
      end.

(** ** Schemas from BTF *)

Definition validValueFieldSize (n : Z) : bool := (n =? 1) || (n =? 2) || (n =? 4) || (n =? 8).

(** The loop of [validateValueFields] over the fields after the tag. *)
Fixpoint validate_rest (seen : list bytes) (fields : list KeyField) : result error unit :=
  match fields with
  | [] => Ok tt
  | f :: fields =>
      if bool_decide (kf_Name f ∈ seen) then errf "value field %q appears twice" [abytes (kf_Name f)]
      else
        let? _ :=
          if bool_decide (kf_Name f = ValFieldState) then
            if negb (kf_Size f =? 1) then errf "value field %q must be u8" [abytes ValFieldState] else Ok tt
          else if bool_decide (kf_Name f = ValFieldMaxBytes) then
            if negb (kf_Size f =? 8) then errf "value field %q must be u64" [abytes ValFieldMaxBytes] else Ok tt
          else
            errf "unrecognized value field %q (only %q, %q, %q are supported)"
              [abytes (kf_Name f); abytes ValFieldTag; abytes ValFieldState; abytes ValFieldMaxBytes] in
        validate_rest (kf_Name f :: seen) fields
  end.

Definition validateValueFields (fields : list KeyField) : result error unit :=
  let bad := errf "value struct must start with a %q field at offset 0" [abytes ValFieldTag] in
  match fields with
  | [] => bad
  | f :: rest =>
      if negb (bool_decide (kf_Name f = ValFieldTag)) || negb (kf_Off f =? 0) then bad
      else if negb (validValueFieldSize (kf_Size f)) then errf "value field %q must be u8/u16/u32/u64" [abytes ValFieldTag]
      else validate_rest [ValFieldTag] rest
  end.

Definition scalarUnnamed : bytes := B "key".
Definition scalarKeyName (t : Ty) : bytes := match t with TQual (Some name) _ => name | _ => scalarUnnamed end.

Section Schema.
Context `{Btf}.

(** The size and whether it is a byte string; [None] when not a field type. *)
Definition resolveFieldType (t : Ty) : option (Z * bool) :=
  match UnderlyingType t with
  | TInt size _ => if validValueFieldSize size then Some (size, false) else None
  | TArray e n =>
      match UnderlyingType e with
      | TInt 1 _ => if n =? 16 then Some (16, true) else None
      | _ => None
      end
  | _ => None
  end.

(** [Bits.Bytes()] *)
Definition offset_bytes (m : Member) : Z := u32 (MOffset m / 8).

Fixpoint value_members (valSize : Z) (ms : list Member) (acc : list KeyField) : result error (list KeyField) :=
  match ms with
  | [] => Ok acc
  | m :: ms =>
      let bad := errf "value field %s: only u8/u16/u32/u64 fields are supported" [abytes (MName m)] in
      match resolveFieldType (MType m) with
      | None => bad
      | Some (size, isBytes) =>
          if isBytes || negb (BitfieldSize m =? 0) then bad
          else
            let f := mkKeyField (MName m) (offset_bytes m) size false in
            if valSize <? u32 (kf_Off f + kf_Size f) then
              errf "value field %s (offset %d, size %d) extends past the %d-byte value"
                [abytes (kf_Name f); AInt (kf_Off f); AInt (kf_Size f); AInt valSize]
            else value_members valSize ms (acc ++ [f])
      end
  end.

Definition resolveValueSchema (valueType : option Ty) (valSize : Z) : result error (list KeyField) :=
  match valueType with
  | None =>
      if negb (validValueFieldSize valSize) then errf "value size %d is not a supported tag width (u8/u16/u32/u64)" [AInt valSize]
      else Ok [mkKeyField ValFieldTag 0 valSize false]
  | Some t =>
      match UnderlyingType t with
      | TInt size _ =>
          if negb (validValueFieldSize size) then errf "scalar value BTF %s is not a supported tag width (u8/u16/u32/u64)" []
          else if negb (size =? valSize) then
            errf "value BTF size %d does not match the map's value size %d" [AInt size; AInt valSize]
          else Ok [mkKeyField ValFieldTag 0 size false]
      | TStruct _ _ ms =>
          let? fields := value_members valSize ms [] in
          let? _ := validateValueFields fields in
          Ok fields
      | _ => errf "value BTF type %s is not an integer or struct" []
      end
  end.

Fixpoint key_members (keySize : Z) (ms : list Member) (acc : list KeyField) : result error (list KeyField) :=
  match ms with
  | [] => Ok acc
  | m :: ms =>
      if negb (BitfieldSize m =? 0) then errf "key field %s: bitfields are not supported" [abytes (MName m)]
      else
        match resolveFieldType (MType m) with
        | None => errf "key field %s: only u8/u16/u32/u64 or __u8[16] fields are supported (got %s)" [abytes (MName m)]
        | Some (size, isBytes) =>
            let f := mkKeyField (MName m) (offset_bytes m) size isBytes in
            if negb (kf_Off f mod Align f =? 0) then
              errf "key field %s: offset %d is not aligned to %d (packed keys are not supported)"
                [abytes (MName m); AInt (kf_Off f); AInt (Align f)]
            else if keySize <? u32 (kf_Off f + kf_Size f) then
              errf "key field %s: extends past the %d-byte key" [abytes (MName m); AInt keySize]
            else key_members keySize ms (acc ++ [f])
        end
  end.

(** What the kernel tells about a map. *)
Record MapInfo := mkMapInfo { mi_hash : bool; mi_KeySize : Z; mi_ValueSize : Z; mi_key : Ty; mi_value : option Ty }.

Definition describe (m : MapInfo) : result error Definition_ :=
  if negb (mi_hash m) then errf "map type %s is not supported (need hash: the key is the match value)" []
  else if MaxKeySize <? mi_KeySize m then errf "key size %d exceeds the %d-byte limit" [AInt (mi_KeySize m); AInt MaxKeySize]
  else
    let? vals := resolveValueSchema (mi_value m) (mi_ValueSize m) in
    let def fields scalar := mkDefinition (mi_KeySize m) (mi_ValueSize m) fields scalar vals in
    let scalar :=
      match resolveFieldType (mi_key m) with
      | None => errf "scalar key BTF %s is not a supported key field (u8/u16/u32/u64 or __u8[16])" []
      | Some (size, isBytes) => Ok (def [mkKeyField (scalarKeyName (mi_key m)) 0 size isBytes] true)
      end in
    match UnderlyingType (mi_key m) with
    | TInt _ _ => scalar
    | TArray _ _ => scalar
    | TStruct name _ ms =>
        let? fields := key_members (mi_KeySize m) ms [] in
        match fields with
        | [] => errf "key struct %s has no fields" [abytes name]
        | _ => Ok (def fields false)
        end
    | _ => errf "key BTF type %s is not a struct, integer, or byte array" []
    end.

(** [OpenSet], given what [Open] made of the path. *)
Definition OpenSet (ref : SpecRef) (opened : result error Definition_) : result error Set_ :=
  match opened with
  | Err e => errf "set %q: %w" [abytes (sr_Name ref); AErr e]
  | Ok def =>
      let def :=
        match d_IsScalar def, d_Fields def, sr_Mapping ref with
        | true, f :: fs, [m] =>
            if bool_decide (kf_Name f = scalarUnnamed)
            then mkDefinition (d_KeySize def) (d_ValueSize def) (mkKeyField (me_Field m) (kf_Off f) (kf_Size f) (kf_IsBytes f) :: fs)
                   true (d_ValFields def)
            else def
        | _, _, _ => def
        end in
      Ok (mkSet ref def)
  end.
End Schema.

(** ** Schema texts *)

Record FieldSpec := mkFieldSpec { fs_Name : bytes; fs_Size : Z; fs_IsBytes : bool }.

Definition typeKind (t : bytes) : result error (Z * bool) :=
  if bool_decide (t = B "u8") then Ok (1, false)
  else if bool_decide (t = B "u16") then Ok (2, false)
  else if bool_decide (t = B "u32") then Ok (4, false)
  else if bool_decide (t = B "u64") then Ok (8, false)
  else if bool_decide (t = B "ipv6") then Ok (16, true)
  else errf "unsupported type %q (u8/u16/u32/u64/ipv6)" [abytes t].

(** The keys of the map [seen] are the names of [acc]. *)
Fixpoint parse_schema (ents : list bytes) (acc : list FieldSpec) : result error (list FieldSpec) :=
  match ents with
  | [] => Ok acc
  | ent :: ents =>
      let ent := TrimSpace ent in
      if is_empty ent then parse_schema ents acc
      else
        let '(name, typ, ok) := cut ent (B ":") in
        let name := TrimSpace name in
        if negb ok || is_empty name then errf "schema entry %q: want name:type (e.g. imsi:u64)" [abytes ent]
        else if bool_decide (name ∈ map fs_Name acc) then errf "duplicate field name %q in schema" [abytes name]
        else
          match typeKind (TrimSpace typ) with
          | Err e => errf "schema entry %q: %w" [abytes ent; AErr e]
          | Ok (size, isBytes) => parse_schema ents (acc ++ [mkFieldSpec name size isBytes])
          end
  end.

Definition ParseSchema (s : bytes) : result error (list FieldSpec) :=
  let? out := parse_schema (SplitS s (B ",")) [] in
  match out with
  | [] => errf "empty schema" []
  | _ => Ok out
  end.

(** [(n + align - 1) &^ (align - 1)] on [uint32]. *)
Definition align_up (n align : Z) : Z := Z.ldiff (u32 (n + align - 1)) (align - 1).

Fixpoint layout_loop (fields : list FieldSpec) (cur maxAlign : Z) (acc : list KeyField) : list KeyField * Z * Z :=
  match fields with
  | [] => (acc, cur, maxAlign)
  | f :: fields =>
      let align := fieldAlign (fs_Size f) (fs_IsBytes f) in
      let maxAlign := if maxAlign <? align then align else maxAlign in
      let cur := align_up cur align in
      layout_loop fields (u32 (cur + fs_Size f)) maxAlign (acc ++ [mkKeyField (fs_Name f) cur (fs_Size f) (fs_IsBytes f)])
  end.

Definition layout (fields : list FieldSpec) : list KeyField * Z :=
  let '(out, cur, maxAlign) := layout_loop fields 0 1 [] in (out, align_up cur maxAlign).

Definition intType (size : Z) : Ty := TInt size EncUnsigned.
Definition fieldType (f : KeyField) : Ty := if kf_IsBytes f then TArray (intType 1) (kf_Size f) else intType (kf_Size f).

Definition synthesizeStruct (name : bytes) (fields : list KeyField) (size : Z) : Ty :=
  TStruct name size (map (fun f => mkMember (kf_Name f) (fieldType f) (u32 (kf_Off f * 8)) 0) fields).

Definition synthesizeType (structName : bytes) (fields : list KeyField) (size : Z) : Ty :=
  match fields with
  | [f] => if (kf_Off f =? 0) && (kf_Size f =? size) then TQual (Some (kf_Name f)) (fieldType f) else synthesizeStruct structName fields size
  | _ => synthesizeStruct structName fields size
  end.

Definition reservedTagName : bytes := B "tag".
Definition reservedMaxBytesName : bytes := B "max-bytes".
Definition DefaultValueSchema : bytes := B "tag:u32,state:u8,max_bytes:u64".

(** What [Create] asks the kernel for. *)
Record Created := mkCreated { c_key : list KeyField; c_keySize : Z; c_val : list KeyField; c_valSize : Z }.

Definition Create (keySchema valueSchema : bytes) : result error Created :=
  match ParseSchema keySchema with
  | Err e => errf "--key: %w" [AErr e]
  | Ok keySpecs =>
      let '(keyFields, keySize) := layout keySpecs in
      if MaxKeySize <? keySize then errf "key size %d exceeds the %d-byte limit" [AInt keySize; AInt MaxKeySize]
      else
        match find (fun f => bool_decide (kf_Name f = reservedTagName) || bool_decide (kf_Name f = reservedMaxBytesName)
                             || bool_decide (kf_Name f = ValFieldMaxBytes) || bool_decide (kf_Name f = ValFieldState)) keyFields with
        | Some f => errf "key field name %q is reserved (it is a value assignment or value-layout field name)" [abytes (kf_Name f)]
        | None =>
            let valueSchema := if is_empty valueSchema then DefaultValueSchema else valueSchema in
            match ParseSchema valueSchema with
            | Err e => errf "--value: %w" [AErr e]
            | Ok valSpecs =>
                let '(valFields, valSize) := layout valSpecs in
                let legacy := match valFields with [f] => negb (kf_IsBytes f) && validValueFieldSize valSize | _ => false end in
                if legacy then Ok (mkCreated keyFields keySize valFields valSize)
                else
                  match validateValueFields valFields with
                  | Err e => errf "--value %q: %w" [abytes valueSchema; AErr e]
                  | Ok _ => Ok (mkCreated keyFields keySize valFields valSize)
                  end
            end
        end
  end.

(** The map [ebpf.NewMap] makes of it. *)
Definition created_info (c : Created) : MapInfo :=
  mkMapInfo true (c_keySize c) (c_valSize c) (synthesizeType (B "bpfninja_set_key") (c_key c) (c_keySize c))
    (Some (synthesizeType (B "bpfninja_set_val") (c_val c) (c_valSize c))).

(** ** Numbers and keys *)

(** The native-endian value of 1, 2, 4 or 8 bytes; other widths read 0 and
    write nothing. *)
Definition getUint (buf : list Z) : Z := if validValueFieldSize (len buf) then unle buf else 0.
Definition putUint (buf : list Z) (v : Z) : list Z := if validValueFieldSize (len buf) then le (length buf) v else buf.

Definition parseUint (s : bytes) : result error Z :=
  if HasPrefix s (B "0x") || HasPrefix s (B "0X") then ParseUint (drop 2 s) 16 64 else ParseUint s 10 64.

(** [net.xtoi2]: two hex digits, then [e] or the end. *)
Definition xtoi2 (s : bytes) (e : option ascii) : option Z :=
  match s with
  | a :: b :: rest =>
      match hex_val a, hex_val b with
      | Some x, Some y =>
          match rest with
          | [] => Some (16 * x + y)
          | c :: _ => if bool_decide (Some c = e) then Some (16 * x + y) else None
          end
      | _, _ => None
      end
  | _ => None
  end.

(** The groups of [net.ParseMAC] with a [:] or [-] separator. *)
Fixpoint mac_groups (n : nat) (s : bytes) (sep : ascii) : option (list Z) :=
  match n with
  | O => Some []
  | S n =>
      match xtoi2 s (Some sep) with
      | Some b => match mac_groups n (drop 3 s) sep with Some l => Some (b :: l) | None => None end
      | None => None
      end
  end.

(** [net.ParseMAC] of six bytes in the separated form (the dotted form has
    neither [:] nor [-], which the caller requires). *)
Definition ParseMAC6 (s : bytes) : option (list Z) :=
  match s !! 2%nat with
  | Some sep =>
      if (Ascii.eqb sep ":" || Ascii.eqb sep "-") && (length s =? 17)%nat then mac_groups 6 s sep else None
  | None => None
  end.

Definition typeName (f : KeyField) : bytes := if kf_IsBytes f then B "ipv6" else B "u" ++ AppendUint [] (kf_Size f * 8).

Definition parseKeyValue (f : KeyField) (s : bytes) : result error Z :=
  if negb (ContainsAny s (B ":-")) then
    match parseUint s with
    | Ok v => Ok v
    | Err e => errf "key field %s: %w" [abytes (kf_Name f); AErr e]
    end
  else
    match ParseMAC6 s with
    | None => errf "key field %s: %q is not a number or a 6-byte MAC address" [abytes (kf_Name f); abytes s]
    | Some hw =>
        if negb (kf_Size f =? 8) then errf "key field %s: a MAC address needs a u64 field, not %s" [abytes (kf_Name f); abytes (typeName f)]
        else Ok (fold_left (fun n b => 256 * n + b) hw 0)
    end.

Definition fieldNames (d : Definition_) : bytes := Join (map (fun f => kf_Name f ++ B ":" ++ typeName f) (d_Fields d)) (B ", ").

(** A number that does not fit the field is refused, an IPv4 literal is not
    an IPv6 address. The result is the field's bytes in the key. *)
Definition field_bytes (f : KeyField) (s : bytes) : result error (list Z) :=
  if kf_IsBytes f then
    let bad := errf "key field %s: %q is not an IPv6 address" [abytes (kf_Name f); abytes s] in
    match ParseIP s with
    | None => bad
    | Some ip => if is_Some_b (To4 ip) then bad else Ok ip
    end
  else
    let? v := parseKeyValue f s in
    if (kf_Size f <? 8) && (2 ^ (8 * kf_Size f) <=? v) then
      errf "value %d does not fit key field %s (u%d)" [AInt v; abytes (kf_Name f); AInt (kf_Size f * 8)]
    else Ok (putUint (repeat 0 (Z.to_nat (kf_Size f))) v).

(** The loop over the key fields; a slice out of the key panics. *)
Fixpoint build_fields (fs : list KeyField) (values : gmap bytes bytes) (key : list Z) : result rcerr (list Z) :=
  match fs with
  | [] => Ok key
  | f :: fs =>
      match values !! kf_Name f with
      | None => rerrorf "missing key field %s (%s at offset %d) — partial keys are not supported" [abytes (kf_Name f); abytes (typeName f); AInt (kf_Off f)]
      | Some s =>
          match field_bytes f s with
          | Err e => Err (RcErr e)
          | Ok b =>
              let? _ := getp (sl (Z.to_nat (kf_Off f)) (Z.to_nat (kf_Off f + kf_Size f)) key) in
              let? key := getp (copy_at (Z.to_nat (kf_Off f)) b key) in
              build_fields fs values key
          end
      end
  end.

(** Which unknown name is reported first is up to the map's iteration. *)
Definition BuildKey (d : Definition_) (values : gmap bytes bytes) : result rcerr (list Z) :=
  let? key := build_fields (d_Fields d) values (repeat 0 (Z.to_nat (d_KeySize d))) in
  match find (fun nv => negb (bool_decide (nv.1 ∈ map kf_Name (d_Fields d)))) (map_to_list values) with
  | Some (name, _) => rerrorf "unknown key field %q (key has: %s)" [abytes name; abytes (fieldNames d)]
  | None => Ok key
  end.

(** ** set add/del arguments *)

Record EntryValue := mkEntryValue { ev_Tag : Z; ev_MaxBytes : Z; ev_HasTag : bool; ev_HasMaxBytes : bool }.

Fixpoint parse_field_values (args : list bytes) (fields : gmap bytes bytes) (val : EntryValue)
    : result error (gmap bytes bytes * EntryValue) :=
  match args with
  | [] => Ok (fields, val)
  | a :: args =>
      let '(name, vs, ok) := cut a (B "=") in
      let number k := match parseUint vs with Ok v => k v | Err e => errf "argument %q: %w" [abytes a; AErr e] end in
      if negb ok || is_empty name || is_empty vs then errf "argument %q: want field=value" [abytes a]
      else if bool_decide (name = reservedTagName) then
        if ev_HasTag val then errf "%s= given twice" [abytes reservedTagName]
        else number (fun v => parse_field_values args fields (mkEntryValue v (ev_MaxBytes val) true (ev_HasMaxBytes val)))
      else if bool_decide (name = reservedMaxBytesName) || bool_decide (name = ValFieldMaxBytes) then
        if ev_HasMaxBytes val then errf "%s= given twice (max_bytes= is the same assignment)" [abytes reservedMaxBytesName]
        else number (fun v => parse_field_values args fields (mkEntryValue (ev_Tag val) v (ev_HasTag val) true))
      else if is_Some_b (fields !! name) then errf "field %q given twice" [abytes name]
      else parse_field_values args (<[name := vs]> fields) val
  end.

Definition ParseFieldValues (args : list bytes) : result error (gmap bytes bytes * EntryValue) :=
  parse_field_values args ∅ (mkEntryValue 0 0 false false).

(** ** Entries *)

(** The map: full key bytes to value bytes. *)
Abbreviation entries := (gmap (list Z) (list Z)).

Definition getField (val : list Z) (f : KeyField) : result rcerr Z :=
  let? b := getp (sl (Z.to_nat (kf_Off f)) (Z.to_nat (kf_Off f + kf_Size f)) val) in Ok (getUint b).

Definition putField (val : list Z) (f : KeyField) (v : Z) : result rcerr (list Z) :=
  let? b := getp (sl (Z.to_nat (kf_Off f)) (Z.to_nat (kf_Off f + kf_Size f)) val) in
  getp (copy_at (Z.to_nat (kf_Off f)) (putUint b v) val).

(** [if hasField { putField(val, f, v) }]. *)
Definition put_if (has : option KeyField) (v : Z) (val : list Z) : result rcerr (list Z) :=
  match has with Some f => putField val f v | None => Ok val end.

(** What the kernel answers to the map operations of one call, besides what
    the entries decide: an operation may fail ([put_err n] is of the [n]th
    update, from 0), and an iteration yields the keys [visits] in its order.
    A key is looked up when the iteration reaches it, and one whose entry is
    gone is passed over; replacing an entry can make the iteration yield its
    key again. *)
Record MapCalls := mkMapCalls {
  lookup_err : option error; put_err : Z -> option error; delete_err : option error;
  visits : list (list Z); iter_err : option error
}.

(** [Map.Put] of a hash map of at most [max] entries. *)
Definition map_put (K : MapCalls) (max : nat) (k v : list Z) (m : entries) : result rcerr entries :=
  match put_err K 0 with
  | Some e => Err (RcErr e)
  | None => if is_Some_b (m !! k) || (size m <? max)%nat then Ok (<[k := v]> m) else rerrorf "update failed: argument list too long" []
  end.

Definition Add (K : MapCalls) (max : nat) (d : Definition_) (values : gmap bytes bytes) (ev : EntryValue) (m : entries) : result rcerr entries :=
  let? key := BuildKey d values in
  let tf := TagField d in
  if (kf_Size tf <? 8) && (2 ^ (8 * kf_Size tf) <=? ev_Tag ev) then
    rerrorf "tag %d does not fit the map's %d-byte tag field" [AInt (ev_Tag ev); AInt (kf_Size tf)]
  else
    let mf := ValField d ValFieldMaxBytes in
    if ev_HasMaxBytes ev && negb (is_Some_b mf) then
      rerrorf "this map's value has no %s field (created with a plain tag value); recreate it with --value %q to use per-entry caps"
        [abytes ValFieldMaxBytes; abytes DefaultValueSchema]
    else if ev_HasMaxBytes ev && (0 <? ev_MaxBytes ev) && (ev_Tag ev =? 0) then
      rerrorf "tag 0 is the unmatched-traffic tag and can never be cap-enforced; give the entry a non-zero tag" []
    else
      let? val := putField (repeat 0 (Z.to_nat (d_ValueSize d))) tf (ev_Tag ev) in
      let? val := put_if mf (ev_MaxBytes ev) val in
      let sf := ValField d ValFieldState in
      let? val :=
        if is_Some_b sf || is_Some_b mf then
          match lookup_err K, m !! key with
          | Some e, _ => rerrorf "reading existing entry before update: %w" [AErr e]
          | None, None => Ok val
          | None, Some old =>
              let? oldTag := getField old tf in
              if oldTag =? ev_Tag ev then
                let? val := match sf with Some f => let? s := getField old f in putField val f s | None => Ok val end in
                if negb (ev_HasMaxBytes ev)
                then match mf with Some f => let? x := getField old f in putField val f x | None => Ok val end
                else Ok val
              else Ok val
          end
        else Ok val in
      map_put K max key val m.

Definition Delete (K : MapCalls) (d : Definition_) (values : gmap bytes bytes) (m : entries) : result rcerr entries :=
  let? key := BuildKey d values in
  match delete_err K, m !! key with
  | Some e, _ => Err (RcErr e)
  | None, Some _ => Ok (delete key m)
  | None, None => rerrorf "delete: key does not exist" []
  end.

Record TagInfo := mkTagInfo { ti_Tag : Z; ti_State : Z; ti_MaxBytes : Z }.

Definition u8 (z : Z) : Z := z mod 256.

Definition tag_info (d : Definition_) (val : list Z) : result rcerr TagInfo :=
  let? tag := getField val (TagField d) in
  let? state := match ValField d ValFieldState with Some f => getField val f | None => Ok 0 end in
  let? mb := match ValField d ValFieldMaxBytes with Some f => getField val f | None => Ok 0 end in
  Ok (mkTagInfo (u32 tag) (u8 state) mb).

Fixpoint collect {A B} (f : A -> result rcerr B) (l : list A) : result rcerr (list B) :=
  match l with
  | [] => Ok []
  | x :: l => let? y := f x in let? ys := collect f l in Ok (y :: ys)
  end.

(** One [TagInfo] per entry the iteration yields; its callers drop the list
    when the iteration failed. *)
Definition TagInfos (K : MapCalls) (d : Definition_) (m : entries) : result rcerr (list TagInfo) :=
  let? infos := collect (tag_info d) (omap (fun k => m !! k) (visits K)) in
  match iter_err K with Some e => Err (RcErr e) | None => Ok infos end.

(** The loop of [SetState]: the entries, the number of updates and Go's
    error, on every way out ([Err] is a panic). *)
Fixpoint set_state (K : MapCalls) (d : Definition_) (sf : KeyField) (tag state : Z) (ks : list (list Z)) (m : entries) (updated : Z)
    : result rcerr (entries * Z * option error) :=
  match ks with
  | [] => Ok (m, updated, iter_err K)
  | k :: ks =>
      match m !! k with
      | None => set_state K d sf tag state ks m updated
      | Some val =>
          let? t := getField val (TagField d) in
          let? s := getField val sf in
          if negb (u32 t =? tag) || (u8 s =? state) then set_state K d sf tag state ks m updated
          else
            let? val := putField val sf state in
            match put_err K updated with
            | Some e => Ok (m, updated, Some e)
            | None => set_state K d sf tag state ks (<[k := val]> m) (updated + 1)
            end
      end
  end.

Definition SetState (K : MapCalls) (d : Definition_) (tag state : Z) (m : entries) : result rcerr (entries * Z * option error) :=
  match ValField d ValFieldState with
  | None => Ok (m, 0, None)
  | Some sf => set_state K d sf tag state (visits K) m 0
  end.
