(* ===== verification/SetMapFacts.v ===== *)
(** * SetMapFacts: created maps open as they were declared; keys are exact

    The struct layout of a schema is aligned, in bounds and without overlap;
    what [Create] asks for, [describe] reads back; a key's bytes determine
    and are determined by its field values; entry updates keep the state and
    cap of a tag. *)

From Stdlib Require Import ZArith Lia Bool Ascii String List.
From stdpp Require Import base list strings numbers option gmap.
From S2P Require Import Prelude GoStd GoBytes GoText HookAbi ArgExpr SetMap.
Local Open Scope Z_scope.
Local Open Scope go_scope.

(** ** Layout *)

Definition align_ok (a : Z) : Prop := a = 1 \/ a = 2 \/ a = 4 \/ a = 8.

Lemma ldiff_align x a : align_ok a -> 0 <= x -> Z.ldiff x (a - 1) = a * (x / a).
Proof.
  assert (H : forall k, 0 <= k -> Z.ldiff x (2 ^ k - 1) = 2 ^ k * (x / 2 ^ k)).
  { intros k Hk. replace (2 ^ k - 1) with (Z.ones k) by (rewrite Z.ones_equiv; lia). rewrite Z.ldiff_ones_r by exact Hk.
    rewrite Z.shiftl_mul_pow2, Z.shiftr_div_pow2 by exact Hk. lia. }
  intros [->|[->|[->| ->]]] Hx; [apply (H 0)|apply (H 1)|apply (H 2)|apply (H 3)]; lia.
Qed.

Lemma align_up_spec n a :
  align_ok a -> 0 <= n -> n + 8 <= 2 ^ 32 -> n <= align_up n a < n + a /\ align_up n a mod a = 0.
Proof.
  intros Ha Hn Hm. assert (1 <= a <= 8) by (unfold align_ok in Ha; lia). unfold align_up. rewrite u32_small by lia.
  rewrite ldiff_align by (assumption || lia). pose proof (Z.div_mod (n + a - 1) a ltac:(lia)) as Hd.
  pose proof (Z.mod_pos_bound (n + a - 1) a ltac:(lia)). split; [lia|]. rewrite Z.mul_comm. apply Z.mod_mul. lia.
Qed.

(** A field type the schema language has. *)
Definition kind_ok (size : Z) (isBytes : bool) : Prop :=
  if isBytes then size = 16 else size = 1 \/ size = 2 \/ size = 4 \/ size = 8.

Lemma kind_align size isBytes : kind_ok size isBytes -> align_ok (fieldAlign size isBytes) /\ 1 <= size <= 16 /\ size mod fieldAlign size isBytes = 0.
Proof. unfold kind_ok, align_ok, fieldAlign. destruct isBytes; intros H; [subst; auto with lia|]. intuition (subst; auto with lia). Qed.

(** Fields one after the other between [lo] and [hi], each aligned. *)
Fixpoint chain (lo : Z) (fs : list KeyField) (hi : Z) : Prop :=
  match fs with
  | [] => lo <= hi
  | f :: fs => lo <= kf_Off f /\ kf_Off f mod Align f = 0 /\ kind_ok (kf_Size f) (kf_IsBytes f) /\ chain (kf_Off f + kf_Size f) fs hi
  end.

Definition spec_ok (s : FieldSpec) : Prop := kind_ok (fs_Size s) (fs_IsBytes s).
Definition spec_of (f : KeyField) : FieldSpec := mkFieldSpec (kf_Name f) (kf_Size f) (kf_IsBytes f).

Lemma layout_loop_spec specs cur ma acc :
  Forall spec_ok specs -> 0 <= cur -> cur + 24 * Z.of_nat (length specs) + 8 <= 2 ^ 32 -> align_ok ma ->
  exists fs cur' ma', layout_loop specs cur ma acc = (acc ++ fs, cur', ma') /\ chain cur fs cur' /\ map spec_of fs = specs /\
    cur <= cur' <= cur + 24 * Z.of_nat (length specs) /\ align_ok ma'.
Proof.
  intros Hs. revert cur ma acc. induction Hs as [|s specs Hk _ IH]; intros cur ma acc Hc Hb Hm.
  { exists [], cur, ma. rewrite app_nil_r. cbn. splits; auto; lia. }
  cbn [layout_loop]. cbv zeta. destruct (kind_align _ _ Hk) as (Ha & Hsz & _). cbn [length] in *. rewrite Nat2Z.inj_succ in *.
  destruct (align_up_spec cur _ Ha Hc ltac:(lia)) as [Hup Hmod]. set (a := fieldAlign _ _) in *. set (off := align_up cur a) in *.
  assert (1 <= a <= 8) by (unfold align_ok in Ha; lia). rewrite u32_small by lia.
  destruct (IH (off + fs_Size s) (if ma <? a then a else ma) (acc ++ [mkKeyField (fs_Name s) off (fs_Size s) (fs_IsBytes s)]))
    as (fs & cur' & ma' & -> & Hch & Hmap & Hcur & Hma); [lia|lia|now destruct (ma <? a)|].
  exists (mkKeyField (fs_Name s) off (fs_Size s) (fs_IsBytes s) :: fs), cur', ma'. rewrite <- app_assoc.
  splits; auto; try lia; [|now cbn; rewrite Hmap; destruct s]. cbn [chain kf_Off kf_Size kf_IsBytes]. unfold Align. cbn. splits; auto; lia.
Qed.

Lemma layout_spec specs :
  Forall spec_ok specs -> 24 * Z.of_nat (length specs) + 16 <= 2 ^ 32 ->
  exists fs total, layout specs = (fs, total) /\ chain 0 fs total /\ (map spec_of fs = specs) /\ total <= 24 * Z.of_nat (length specs) + 8.
Proof.
  intros Hs Hb. destruct (layout_loop_spec specs 0 1 [] Hs ltac:(lia) ltac:(lia) ltac:(now left)) as (fs & cur & ma & E & Hch & Hmap & Hcur & Hma).
  unfold layout. rewrite E. exists fs, (align_up cur ma). destruct (align_up_spec cur ma Hma ltac:(lia) ltac:(lia)) as [Hup _].
  assert (1 <= ma <= 8) by (unfold align_ok in Hma; lia). splits; auto; [|lia].
  clear - Hch Hup. revert Hch. generalize 0. induction fs as [|f fs IH]; intros lo; cbn [chain app]; [lia|]. intuition auto.
Qed.

Lemma layout_single s : spec_ok s -> layout [s] = ([mkKeyField (fs_Name s) 0 (fs_Size s) (fs_IsBytes s)], fs_Size s).
Proof.
  destruct s as [n sz ib]. unfold spec_ok, kind_ok. cbn [fs_Name fs_Size fs_IsBytes].
  destruct ib; intros H; [subst; reflexivity|]. destruct H as [->|[->|[->| ->]]]; reflexivity.
Qed.

(** Chained fields are in bounds, and later ones start after earlier ones. *)
Lemma chain_bounds lo fs hi : chain lo fs hi -> lo <= hi /\ Forall (fun f => lo <= kf_Off f /\ kf_Off f + kf_Size f <= hi) fs.
Proof.
  revert lo. induction fs as [|f fs IH]; intros lo; cbn [chain]; [auto|]. intros (H1 & H2 & H3 & H4).
  destruct (IH _ H4) as [Hle HF]. destruct (kind_align _ _ H3) as (_ & Hs & _). split; [lia|]. constructor; [lia|].
  eapply List.Forall_impl; [|exact HF]. cbn. intros g Hg. lia.
Qed.

Lemma chain_kinds lo fs hi : chain lo fs hi -> Forall (fun f => kf_Off f mod Align f = 0 /\ kind_ok (kf_Size f) (kf_IsBytes f)) fs.
Proof. revert lo. induction fs as [|f fs IH]; intros lo; cbn [chain]; [constructor|]. intros (_ & H2 & H3 & H4). constructor; eauto. Qed.

(** ** Schema texts *)

Lemma typeKind_ok t size isBytes : typeKind t = Ok (size, isBytes) -> kind_ok size isBytes.
Proof. unfold typeKind. repeat case_goal; intros [= <- <-]; cbn; auto 6. Qed.

Lemma parse_schema_spec ents acc out :
  parse_schema ents acc = Ok out -> Forall spec_ok acc -> NoDup (map fs_Name acc) ->
  Forall spec_ok out /\ NoDup (map fs_Name out) /\ (length out <= length acc + length ents)%nat.
Proof.
  revert acc. induction ents as [|ent ents IH]; intros acc; cbn [parse_schema]; [intros [= <-]; auto with arith|].
  intros Hp Ha Hn. case_if Hp; [destruct (IH _ Hp Ha Hn) as (? & ? & ?); splits; auto; simpl; lia|].
  destruct (cut _ _) as [[name typ] ok]. case_if Hp; [discriminate|]. case_if Hp; [discriminate|]. apply bool_decide_eq_false in E1.
  destruct (typeKind _) as [[size isBytes]|e] eqn:Et; [|discriminate]. apply typeKind_ok in Et.
  destruct (IH _ Hp) as (H1 & H2 & H3).
  - apply Forall_app. split; [exact Ha|]. now constructor.
  - rewrite map_app. apply NoDup_app. splits; auto.
    + intros x Hx Hin. apply list_elem_of_singleton in Hin as ->. easy.
    + apply NoDup_singleton.
  - splits; auto. rewrite length_app in H3. simpl in *. lia.
Qed.

Lemma Cut_shorter s sep b a : Cut s sep = Some (b, a) -> (0 < length sep)%nat -> (length a < length s)%nat.
Proof.
  revert b. induction s as [|c s IH]; intros b; cbn [Cut]; intros Hc Hs.
  - destruct (HasPrefix [] sep) eqn:E; [|discriminate]. destruct sep; [simpl in Hs; lia|discriminate].
  - destruct (HasPrefix (c :: s) sep); [injection Hc as <- <-; rewrite length_drop; simpl; lia|].
    destruct (Cut s sep) as [[b' a']|] eqn:E; [|discriminate]. injection Hc as <- <-. specialize (IH b' eq_refl Hs). simpl. lia.
Qed.

Lemma SplitS_length s sep : (0 < length sep)%nat -> (length (SplitS s sep) <= S (length s))%nat.
Proof.
  intros Hs. unfold SplitS. assert (H : forall fuel t, (length (split_fuel fuel t sep) <= S (length t))%nat).
  { induction fuel as [|fuel IH]; intros t; cbn [split_fuel]; [simpl; lia|]. destruct (Cut t sep) as [[b a]|] eqn:E; [|simpl; lia].
    pose proof (Cut_shorter _ _ _ _ E Hs). specialize (IH a). cbn [length]. lia. }
  apply H.
Qed.

Lemma ParseSchema_spec s out :
  ParseSchema s = Ok out ->
  out <> [] /\ Forall spec_ok out /\ NoDup (map fs_Name out) /\ (length out <= S (length s))%nat.
Proof.
  unfold ParseSchema. intros H. apply result_bind_ok in H as (l & Hl & H).
  destruct (parse_schema_spec _ _ _ Hl) as (H1 & H2 & H3); [constructor|constructor|].
  pose proof (SplitS_length s (B ",") ltac:(simpl; lia)). destruct l; [discriminate|]. injection H as <-. splits; auto.
  cbn [length Nat.add] in H3 |- *. lia.
Qed.

(** ** What is created opens the same *)

Section Roundtrip.
Context `{Btf}.

Lemma Underlying_self t : (forall n q, t <> TQual n q) -> UnderlyingType t = t.
Proof. apply UnderlyingType_self. Qed.

Lemma validSize_kind size : validValueFieldSize size = true <-> kind_ok size false.
Proof.
  unfold validValueFieldSize, kind_ok. rewrite !orb_true_iff, !Z.eqb_eq. tauto.
Qed.

Lemma fieldType_resolves f : kind_ok (kf_Size f) (kf_IsBytes f) -> resolveFieldType (fieldType f) = Some (kf_Size f, kf_IsBytes f).
Proof.
  unfold resolveFieldType, fieldType. destruct (kf_IsBytes f); intros Hk.
  - rewrite !Underlying_self by discriminate. cbn in Hk |- *. now rewrite Hk.
  - unfold intType. rewrite Underlying_self by discriminate. now rewrite (proj2 (validSize_kind _) Hk).
Qed.

Lemma fieldType_bare f n q : fieldType f <> TQual n q.
Proof. unfold fieldType. destruct (kf_IsBytes f); discriminate. Qed.

Lemma synthesized_offset f : 0 <= kf_Off f < 2 ^ 29 -> offset_bytes (mkMember (kf_Name f) (fieldType f) (u32 (kf_Off f * 8)) 0) = kf_Off f.
Proof.
  intros Ho. unfold offset_bytes. cbn [MOffset]. rewrite (u32_small (kf_Off f * 8)) by lia. rewrite Z.div_mul by lia. apply u32_small. lia.
Qed.

Definition member_of (f : KeyField) : Member := mkMember (kf_Name f) (fieldType f) (u32 (kf_Off f * 8)) 0.

Lemma key_members_synthesized keySize fs acc :
  Forall (fun f => 0 <= kf_Off f /\ kf_Off f + kf_Size f <= keySize) fs ->
  Forall (fun f => kf_Off f mod Align f = 0 /\ kind_ok (kf_Size f) (kf_IsBytes f)) fs -> keySize < 2 ^ 29 ->
  key_members keySize (map member_of fs) acc = Ok (acc ++ fs).
Proof.
  intros Hb Hk Hs. revert acc. induction fs as [|f fs IH]; intros acc; cbn [map key_members]; [now rewrite app_nil_r|].
  inversion Hb as [|? ? Hbf Hb']; inversion Hk as [|? ? [Hal Hkf] Hk']; subst. destruct (kind_align _ _ Hkf) as (_ & Hsz & _).
  cbn [BitfieldSize member_of MType MName]. change (negb (0 =? 0)) with false. cbv iota. rewrite fieldType_resolves by exact Hkf.
  cbv zeta. unfold Align in *. cbn [kf_Off kf_Size kf_IsBytes kf_Name]. unfold member_of. rewrite synthesized_offset by lia.
  rewrite Hal. change (negb (0 =? 0)) with false. cbv iota. rewrite u32_small by lia.
  replace (keySize <? kf_Off f + kf_Size f) with false by lia. fold member_of in *. specialize (IH Hb' Hk').
  change (map (fun f => mkMember (kf_Name f) (fieldType f) (u32 (kf_Off f * 8)) 0) fs) with (map member_of fs).
  rewrite IH, <- app_assoc. now destruct f.
Qed.

Lemma value_members_synthesized valSize fs acc :
  Forall (fun f => 0 <= kf_Off f /\ kf_Off f + kf_Size f <= valSize) fs ->
  Forall (fun f => kind_ok (kf_Size f) false /\ kf_IsBytes f = false) fs -> valSize < 2 ^ 29 ->
  value_members valSize (map member_of fs) acc = Ok (acc ++ fs).
Proof.
  intros Hb Hk Hs. revert acc. induction fs as [|f fs IH]; intros acc; cbn [map value_members]; [now rewrite app_nil_r|].
  inversion Hb as [|? ? Hbf Hb']; inversion Hk as [|? ? [Hkf Hib] Hk']; subst.
  assert (Hsz : 1 <= kf_Size f <= 16) by (destruct (kind_align _ _ Hkf) as (_ & Hsz & _); exact Hsz).
  cbn [BitfieldSize member_of MType MName]. rewrite fieldType_resolves by now rewrite Hib. rewrite Hib. cbn [orb].
  change (negb (0 =? 0)) with false. cbv iota zeta. cbn [kf_Off kf_Size kf_Name]. unfold member_of. rewrite synthesized_offset by lia.
  rewrite u32_small by lia. replace (valSize <? kf_Off f + kf_Size f) with false by lia.
  change (map (fun f => mkMember (kf_Name f) (fieldType f) (u32 (kf_Off f * 8)) 0) fs) with (map member_of fs).
  rewrite (IH Hb' Hk'), <- app_assoc. destruct f as [n o z b]. cbn in Hib. now subst.
Qed.

(** A valid value layout has no byte strings. *)
Lemma validateValueFields_kinds fs :
  Forall (fun f => kind_ok (kf_Size f) (kf_IsBytes f)) fs -> validateValueFields fs = Ok tt ->
  Forall (fun f => kind_ok (kf_Size f) false /\ kf_IsBytes f = false) fs.
Proof.
  assert (Hone : forall f, kind_ok (kf_Size f) (kf_IsBytes f) -> kind_ok (kf_Size f) false -> kind_ok (kf_Size f) false /\ kf_IsBytes f = false).
  { intros f Hk Hs. split; [exact Hs|]. destruct (kf_IsBytes f); [|reflexivity]. cbn in Hk, Hs. lia. }
  assert (Hrest : forall fs seen, Forall (fun f => kind_ok (kf_Size f) (kf_IsBytes f)) fs -> validate_rest seen fs = Ok tt ->
     Forall (fun f => kind_ok (kf_Size f) false /\ kf_IsBytes f = false) fs).
  { intros l seen Hl. revert seen. induction Hl as [|f l Hf _ IH]; intros seen; cbn [validate_rest]; [constructor|].
    destruct (bool_decide _); [discriminate|]. intros Hv. apply result_bind_ok in Hv as ([] & H1 & Hv). constructor; [|eauto].
    apply Hone; [exact Hf|]. unfold kind_ok. repeat (case_if H1; try discriminate); bools; auto. }
  intros Hf Hv. unfold validateValueFields in Hv. destruct fs as [|f fs]; [constructor|]. inversion Hf as [|? ? Hk Hf']; subst.
  case_if Hv; [discriminate|]. case_if Hv; [discriminate|]. bools. constructor; [|eauto]. apply Hone; [exact Hk|]. now apply validSize_kind.
Qed.

Definition opened_values (fs : list KeyField) : list KeyField :=
  match fs with [f] => [mkKeyField ValFieldTag 0 (kf_Size f) false] | fs => fs end.

Definition is_single {A} (l : list A) : bool := match l with [_] => true | _ => false end.

Lemma synthesize_single name s :
  spec_ok s -> synthesizeType name (fst (layout [s])) (fs_Size s) = TQual (Some (fs_Name s)) (fieldType (mkKeyField (fs_Name s) 0 (fs_Size s) (fs_IsBytes s))).
Proof. intros Hs. rewrite layout_single by exact Hs. cbn. now rewrite Z.eqb_refl. Qed.

Lemma resolve_typedef n f : kind_ok (kf_Size f) (kf_IsBytes f) -> resolveFieldType (TQual n (fieldType f)) = Some (kf_Size f, kf_IsBytes f).
Proof.
  intros Hk. rewrite <- (fieldType_resolves f Hk). unfold resolveFieldType. rewrite UnderlyingType_qual by apply fieldType_bare.
  rewrite (Underlying_self (fieldType f)) by apply fieldType_bare. reflexivity.
Qed.

(** Two or more fields make a struct. *)
Lemma synthesize_struct name fs size : is_single fs = false -> synthesizeType name fs size = TStruct name size (map member_of fs).
Proof. destruct fs as [|f [|g fs]]; [reflexivity|discriminate|reflexivity]. Qed.

Lemma layout_is_single specs fs total : layout specs = (fs, total) -> map spec_of fs = specs -> Forall spec_ok specs -> is_single fs = true ->
  exists s, specs = [s] /\ fs = [mkKeyField (fs_Name s) 0 (fs_Size s) (fs_IsBytes s)] /\ total = fs_Size s.
Proof.
  intros El Hm Hs H1. destruct fs as [|f [|]]; try discriminate. destruct specs as [|s [|]]; try discriminate.
  clear Hm. inversion Hs; subst. rewrite layout_single in El by assumption. exists s. injection El as <- <-. splits; reflexivity.
Qed.

Lemma describe_key specs fs total vsz v name :
  layout specs = (fs, total) -> specs <> [] -> Forall spec_ok specs -> map spec_of fs = specs -> chain 0 fs total -> total <= MaxKeySize ->
  describe (mkMapInfo true total vsz (synthesizeType name fs total) v) =
  let? vals := resolveValueSchema v vsz in Ok (mkDefinition total vsz fs (is_single fs) vals).
Proof.
  intros El Hne Hs Hm Hch Hmax. unfold describe. cbn [mi_hash mi_KeySize mi_ValueSize mi_key mi_value negb].
  replace (MaxKeySize <? total) with false by lia. destruct (resolveValueSchema v vsz) as [vals|e]; [|reflexivity]. cbn [result_bind].
  destruct (is_single fs) eqn:E1.
  - destruct (layout_is_single _ _ _ El Hm Hs E1) as (s & -> & -> & ->). inversion Hs as [|? ? Hk _]; subst.
    pose proof (synthesize_single name s Hk) as Hsyn. rewrite layout_single in Hsyn by exact Hk. cbn [fst] in Hsyn. rewrite Hsyn.
    pose proof (resolve_typedef (Some (fs_Name s)) (mkKeyField (fs_Name s) 0 (fs_Size s) (fs_IsBytes s)) Hk) as Hr.
    rewrite Hr, UnderlyingType_qual by apply fieldType_bare. unfold fieldType. cbn [kf_IsBytes kf_Size scalarKeyName].
    destruct (fs_IsBytes s); reflexivity.
  - rewrite synthesize_struct by exact E1. rewrite Underlying_self by discriminate.
    destruct (chain_bounds _ _ _ Hch) as [_ Hb]. unfold MaxKeySize in *.
    rewrite key_members_synthesized; [|exact Hb|now apply chain_kinds in Hch|lia]. cbn [result_bind app].
    destruct fs as [|f fs]; [subst; easy|reflexivity].
Qed.

Lemma describe_value specs fs total name :
  layout specs = (fs, total) -> Forall spec_ok specs -> map spec_of fs = specs -> chain 0 fs total -> total < 2 ^ 29 ->
  (is_single fs = true /\ (exists f, fs = [f] /\ kf_IsBytes f = false)) \/ (is_single fs = false /\ validateValueFields fs = Ok tt) ->
  resolveValueSchema (Some (synthesizeType name fs total)) total = Ok (opened_values fs).
Proof.
  intros El Hs Hm Hch Hmax Hcase. unfold resolveValueSchema. destruct Hcase as [[E1 (f & Ef & Hib)]|[E1 Hv]].
  - destruct (layout_is_single _ _ _ El Hm Hs E1) as (s & -> & -> & ->). injection Ef as <-. inversion Hs as [|? ? Hk _]; subst.
    pose proof (synthesize_single name s Hk) as Hsyn. rewrite layout_single in Hsyn by exact Hk. cbn [fst] in Hsyn. rewrite Hsyn.
    rewrite UnderlyingType_qual by apply fieldType_bare. unfold fieldType. cbn [kf_IsBytes] in *. rewrite Hib. cbn [kf_Size intType].
    unfold spec_ok in Hk. rewrite Hib in Hk. rewrite (proj2 (validSize_kind _) Hk), Z.eqb_refl. reflexivity.
  - rewrite synthesize_struct by exact E1. rewrite Underlying_self by discriminate.
    destruct (chain_bounds _ _ _ Hch) as [_ Hb]. pose proof (chain_kinds _ _ _ Hch) as Hk.
    assert (Hk' : Forall (fun f => kind_ok (kf_Size f) (kf_IsBytes f)) fs) by (eapply List.Forall_impl; [|exact Hk]; now intros f []).
    rewrite value_members_synthesized; [|exact Hb|now apply validateValueFields_kinds|exact Hmax]. cbn [result_bind app]. rewrite Hv. cbn [result_bind].
    now destruct fs as [|f [|]].
Qed.

(** C37: creating and opening a set stay in step. For every key and value
    schema [Create] accepts (texts under 4 MiB), the map it asks the kernel
    for, with BTF synthesised from the C struct layout, is opened by
    [describe] with exactly the key fields, offsets and sizes that were laid
    out; the value fields are those too, a lone one being the tag. *)
Theorem Create_describe keySchema valueSchema c :
  Create keySchema valueSchema = Ok c -> Z.of_nat (length keySchema) < 2 ^ 22 -> Z.of_nat (length valueSchema) < 2 ^ 22 ->
  describe (created_info c) =
    Ok (mkDefinition (c_keySize c) (c_valSize c) (c_key c) (is_single (c_key c)) (opened_values (c_val c))).
Proof.
  intros Hc Hlk Hlv. unfold Create in Hc. destruct (ParseSchema keySchema) as [ks|] eqn:Ek; [|discriminate].
  apply ParseSchema_spec in Ek as (Hkne & Hks & _ & Hkl).
  destruct (layout_spec ks Hks ltac:(lia)) as (kf & ksz & Elk & Hkch & Hkmap & _). rewrite Elk in Hc.
  destruct (Z.ltb_spec MaxKeySize ksz) as [|Hmax]; [discriminate|]. destruct (find _ kf); [discriminate|]. cbv zeta in Hc.
  set (vs := if is_empty valueSchema then DefaultValueSchema else valueSchema) in *.
  assert (Hvs : Z.of_nat (length vs) < 2 ^ 22) by (unfold vs; destruct (is_empty valueSchema); [vm_compute; reflexivity|exact Hlv]).
  destruct (ParseSchema vs) as [vl|] eqn:Ev; [|discriminate]. apply ParseSchema_spec in Ev as (Hvne & Hvl & _ & Hvlen).
  destruct (layout_spec vl Hvl ltac:(lia)) as (vf & vsz & Elv & Hvch & Hvmap & Hvsz). rewrite Elv in Hc.
  pose proof (describe_key _ _ _ vsz (Some (synthesizeType (B "bpfninja_set_val") vf vsz)) (B "bpfninja_set_key") Elk Hkne Hks Hkmap Hkch Hmax) as Hdk.
  assert (Hval : resolveValueSchema (Some (synthesizeType (B "bpfninja_set_val") vf vsz)) vsz = Ok (opened_values vf) ->
    describe (created_info (mkCreated kf ksz vf vsz)) = Ok (mkDefinition ksz vsz kf (is_single kf) (opened_values vf))).
  { intros E. unfold created_info. cbn [c_key c_keySize c_val c_valSize]. rewrite Hdk, E. reflexivity. }
  assert (Hfin : c = mkCreated kf ksz vf vsz /\
     ((is_single vf = true /\ (exists f, vf = [f] /\ kf_IsBytes f = false)) \/ (is_single vf = false /\ validateValueFields vf = Ok tt))).
  { destruct vf as [|f [|g vf]].
    - discriminate Hc.
    - case_if Hc; [injection Hc as <-; bools; eauto 6|]. exfalso. destruct (validateValueFields [f]) as [[]|] eqn:Evf; [|discriminate].
      apply validateValueFields_kinds in Evf; [|eapply List.Forall_impl; [|exact (chain_kinds _ _ _ Hvch)]; now intros h []].
      inversion Evf as [|? ? [Hk Hib] _]; subst. rewrite Hib in E. cbn [negb andb] in E.
      destruct (layout_is_single _ _ _ Elv eq_refl Hvl eq_refl) as (s & _ & Ef & ->). injection Ef as Ef. subst f. cbn in Hk.
      apply validSize_kind in Hk. congruence.
    - destruct (validateValueFields (f :: g :: vf)) as [[]|] eqn:Evf; [|discriminate]. injection Hc as <-. auto. }
  destruct Hfin as [-> Hcase]. cbn [c_key c_keySize c_val c_valSize]. apply Hval. eapply describe_value; eauto. lia.
Qed.
End Roundtrip.

Definition sample_schema : bytes := B "imsi:u64, sid:ipv6, port:u16".

Definition sample_created : Created :=
  mkCreated [mkKeyField (B "imsi") 0 8 false; mkKeyField (B "sid") 8 16 true; mkKeyField (B "port") 24 2 false] 32
    [mkKeyField (B "tag") 0 4 false; mkKeyField (B "state") 4 1 false; mkKeyField (B "max_bytes") 8 8 false] 16.

Lemma Create_describe_witness :
  let _ := strip_btf in
  describe (created_info sample_created) = Ok (mkDefinition 32 16 (c_key sample_created) false (c_val sample_created)).
Proof. intros b. apply (Create_describe sample_schema [] sample_created); vm_compute; reflexivity. Defined.

(** ** Slices of a buffer *)

Lemma copy_at_ok off data buf :
  (off + length data <= length buf)%nat -> copy_at off data buf = Some (take off buf ++ data ++ drop (off + length data) buf).
Proof. intros H. unfold copy_at. now rewrite (proj2 (Nat.leb_le _ _) H). Qed.

Lemma copy_at_length off data buf r : copy_at off data buf = Some r -> length r = length buf.
Proof.
  unfold copy_at. destruct (_ <=? _)%nat eqn:E; [|discriminate]. intros [= <-]. bools. rewrite !length_app, length_take, length_drop. lia.
Qed.

Lemma sl_some lo n buf : (lo + n <= length buf)%nat -> sl lo (lo + n) buf = Some (take n (drop lo buf)).
Proof.
  intros H. unfold sl. replace (_ && _) with true by (symmetry; apply andb_true_iff; split; apply Nat.leb_le; lia).
  replace (lo + n - lo)%nat with n by lia. reflexivity.
Qed.

(** What was written is read back, and the rest is unchanged. *)
Lemma sl_copy_at off data buf r :
  copy_at off data buf = Some r ->
  sl off (off + length data) r = Some data /\
  forall lo n, (lo + n <= length buf)%nat -> (lo + n <= off \/ off + length data <= lo)%nat -> sl lo (lo + n) r = sl lo (lo + n) buf.
Proof.
  intros Hc. pose proof (copy_at_length _ _ _ _ Hc) as Hl. unfold copy_at in Hc. destruct (_ <=? _)%nat eqn:E; [|discriminate].
  injection Hc as <-. bools. assert (Ht : length (take off buf) = off) by (rewrite length_take; lia). split.
  - rewrite sl_some by lia. f_equal. rewrite drop_app_ge by lia. rewrite Ht, Nat.sub_diag, drop_0. now rewrite take_app_length.
  - intros lo n Hb Hd. rewrite !sl_some by lia. f_equal. apply list_eq. intros i.
    destruct (Nat.lt_ge_cases i n) as [Hi|Hi]; [|rewrite !lookup_take_ge by lia; reflexivity].
    rewrite !lookup_take_lt, !lookup_drop by lia. destruct Hd as [Hd|Hd].
    + rewrite lookup_app_l by lia. apply lookup_take_lt. lia.
    + rewrite lookup_app_r by lia. rewrite lookup_app_r by lia. rewrite lookup_drop. f_equal. lia.
Qed.

(** ** Keys *)

(** The fields' bytes with zero padding between them. *)
Fixpoint assemble (lo : Z) (fs : list KeyField) (bs : list (list Z)) (hi : Z) : list Z :=
  match fs, bs with
  | f :: fs, b :: bs => repeat 0 (Z.to_nat (kf_Off f - lo)) ++ b ++ assemble (kf_Off f + kf_Size f) fs bs hi
  | _, _ => repeat 0 (Z.to_nat (hi - lo))
  end.

(** Two texts denote the same value of a key field. *)
Definition field_value (f : KeyField) (s : bytes) : result error (Z + list Z) :=
  if kf_IsBytes f then match ParseIP s with Some ip => Ok (inr ip) | None => errf "" [] end
  else let? v := parseKeyValue f s in Ok (inl v).

Lemma xtoi2_range s e v : xtoi2 s e = Some v -> 0 <= v < 256.
Proof.
  unfold xtoi2. destruct s as [|a [|b rest]]; try discriminate. destruct (hex_val a) as [x|] eqn:Ea; [|discriminate].
  destruct (hex_val b) as [y|] eqn:Eb; [|discriminate]. apply hex_val_range in Ea, Eb.
  destruct rest; [intros [= <-]; lia|]. case_goal; [intros [= <-]; lia|discriminate].
Qed.

Lemma mac_groups_range n s sep l : mac_groups n s sep = Some l -> length l = n /\ Forall byte l.
Proof.
  revert s l. induction n as [|n IH]; intros s l; cbn [mac_groups]; [intros [= <-]; auto|].
  destruct (xtoi2 _ _) as [b|] eqn:Eb; [|discriminate]. destruct (mac_groups n _ _) as [l'|] eqn:El; [|discriminate].
  intros [= <-]. apply IH in El as [Hl Hb]. apply xtoi2_range in Eb. split; [simpl; lia|]. now constructor.
Qed.

Lemma big_endian_range l acc k :
  Forall byte l -> 0 <= acc < 256 ^ k -> 0 <= k -> 0 <= fold_left (fun n b => 256 * n + b) l acc < 256 ^ (k + Z.of_nat (length l)).
Proof.
  intros Hl. revert acc k. induction Hl as [|b l Hb _ IH]; intros acc k Ha Hk; cbn [fold_left length]; [now rewrite Z.add_0_r|].
  replace (k + Z.of_nat (S (length l))) with (k + 1 + Z.of_nat (length l)) by lia. apply IH; [|lia].
  unfold byte in Hb. rewrite Z.pow_add_r by lia. lia.
Qed.

Lemma parseKeyValue_u64 f s v : parseKeyValue f s = Ok v -> in_u64 v.
Proof.
  unfold parseKeyValue. destruct (negb _).
  - destruct (parseUint s) as [w|] eqn:E; [|discriminate]. intros [= <-]. unfold parseUint in E.
    destruct (_ || _); now apply ParseUint_in_u64 in E.
  - destruct (ParseMAC6 s) as [hw|] eqn:E; [|discriminate]. destruct (negb _); [discriminate|]. intros [= <-].
    unfold ParseMAC6 in E. destruct (s !! 2%nat); [|discriminate]. destruct (_ && _); [|discriminate].
    apply mac_groups_range in E as [Hl Hb]. pose proof (big_endian_range hw 0 0 Hb ltac:(lia) ltac:(lia)) as H. rewrite Hl in H.
    change (256 ^ (0 + Z.of_nat 6)) with 281474976710656 in H. unfold in_u64, two64. lia.
Qed.

Lemma field_bytes_spec f s b :
  kind_ok (kf_Size f) (kf_IsBytes f) -> field_bytes f s = Ok b ->
  length b = Z.to_nat (kf_Size f) /\
  exists v, field_value f s = Ok v /\
    match v with inl n => b = le (Z.to_nat (kf_Size f)) n /\ 0 <= n < 256 ^ kf_Size f | inr ip => b = ip end.
Proof.
  unfold field_bytes, field_value. intros Hk Hb. destruct (kf_IsBytes f).
  - destruct (ParseIP s) as [ip|] eqn:Ei; [|discriminate]. destruct (is_Some_b _); [discriminate|]. injection Hb as <-.
    cbn in Hk. rewrite Hk. apply ParseIP_octets in Ei as [Hl _]. split; [exact Hl|]. now exists (inr ip).
  - apply result_bind_ok in Hb as (v & Hv & Hb). pose proof (parseKeyValue_u64 _ _ _ Hv) as Hu. rewrite Hv. cbn [result_bind].
    case_if Hb; [discriminate|]. injection Hb as <-. pose proof Hk as Hk'. apply validSize_kind in Hk'. unfold putUint, len.
    rewrite repeat_length. cbn in Hk. rewrite Z2Nat.id, Hk' by lia. rewrite le_length. split; [reflexivity|].
    exists (inl v). splits; auto; unfold in_u64, two64 in Hu; [lia|]. change 256 with (2 ^ 8). rewrite <- Z.pow_mul_r by lia.
    apply andb_false_iff in E as [E|E]; bools; [|exact E]. assert (kf_Size f = 8) as -> by lia. change (2 ^ (8 * 8)) with 18446744073709551616. lia.
Qed.

Lemma assemble_length fs bs lo hi :
  chain lo fs hi -> length bs = length fs -> Forall2 (fun f b => length b = Z.to_nat (kf_Size f)) fs bs ->
  length (assemble lo fs bs hi) = Z.to_nat (hi - lo).
Proof.
  intros Hc _ HF. revert lo Hc. induction HF as [|f b fs bs Hb _ IH]; intros lo Hc; cbn [assemble]; [apply repeat_length|].
  destruct Hc as (H1 & H2 & H3 & H4). destruct (kind_align _ _ H3) as (_ & Hs & _). destruct (chain_bounds _ _ _ H4) as [Hle _].
  rewrite !length_app, repeat_length, Hb, (IH _ H4). lia.
Qed.

Lemma take_repeat {A} (x : A) n m : take n (repeat x m) = repeat x (Nat.min n m).
Proof. revert m. induction n as [|n IH]; intros [|m]; simpl; congruence. Qed.

Lemma drop_repeat {A} (x : A) n m : drop n (repeat x m) = repeat x (m - n).
Proof. revert m. induction n as [|n IH]; intros [|m]; simpl; auto. Qed.

(** The loop fills the zeroed key from left to right. *)
Lemma build_fields_spec fs values pre lo hi :
  chain lo fs hi -> 0 <= lo -> length pre = Z.to_nat lo ->
  match build_fields fs values (pre ++ repeat 0 (Z.to_nat (hi - lo))) with
  | Ok key => exists bs, key = pre ++ assemble lo fs bs hi /\
      Forall2 (fun f b => exists s, values !! kf_Name f = Some s /\ field_bytes f s = Ok b) fs bs
  | Err RcPanic => False
  | Err (RcErr _) => True
  end.
Proof.
  revert pre lo. induction fs as [|f fs IH]; intros pre lo Hc Hlo Hp; cbn [build_fields]; [now exists []|].
  destruct Hc as (H1 & H2 & H3 & H4). destruct (kind_align _ _ H3) as (_ & Hs & _). destruct (chain_bounds _ _ _ H4) as [Hle _].
  destruct (values !! kf_Name f) as [s|] eqn:Ev; [|exact I]. destruct (field_bytes f s) as [b|e] eqn:Eb; [|exact I].
  destruct (field_bytes_spec _ _ _ H3 Eb) as [Hbl _].
  assert (Hlen : length (pre ++ repeat 0 (Z.to_nat (hi - lo))) = Z.to_nat hi) by (rewrite length_app, repeat_length; lia).
  replace (Z.to_nat (kf_Off f + kf_Size f)) with (Z.to_nat (kf_Off f) + Z.to_nat (kf_Size f))%nat by lia.
  rewrite sl_some by lia. cbn [getp result_bind]. rewrite copy_at_ok by lia. cbn [getp result_bind].
  assert (E : take (Z.to_nat (kf_Off f)) (pre ++ repeat 0 (Z.to_nat (hi - lo))) ++ b ++
      drop (Z.to_nat (kf_Off f) + length b) (pre ++ repeat 0 (Z.to_nat (hi - lo)))
    = (pre ++ repeat 0 (Z.to_nat (kf_Off f - lo)) ++ b) ++ repeat 0 (Z.to_nat (hi - (kf_Off f + kf_Size f)))).
  { rewrite take_app, drop_app, take_ge, drop_ge by lia. rewrite <- !app_assoc. f_equal. rewrite take_repeat, drop_repeat. cbn [app].
    repeat f_equal; lia. }
  rewrite E. specialize (IH (pre ++ repeat 0 (Z.to_nat (kf_Off f - lo)) ++ b) (kf_Off f + kf_Size f) H4 ltac:(lia)
    ltac:(rewrite !length_app, repeat_length; lia)).
  destruct (build_fields _ _ _) as [key|[e|]]; auto. destruct IH as (bs & -> & HF). exists (b :: bs). split.
  - cbn [assemble]. now rewrite <- !app_assoc.
  - constructor; eauto.
Qed.

Lemma assemble_inj lo fs bs cs hi :
  Forall2 (fun f b => length b = Z.to_nat (kf_Size f)) fs bs -> Forall2 (fun f b => length b = Z.to_nat (kf_Size f)) fs cs ->
  assemble lo fs bs hi = assemble lo fs cs hi -> bs = cs.
Proof.
  intros Hb. revert lo cs. induction Hb as [|f b fs bs Hl _ IH]; intros lo cs Hc E; inversion Hc as [|? c ? cs' Hl' Hc']; subst; [reflexivity|].
  cbn [assemble] in E. apply app_inv_head in E. apply app_inj_1 in E as [-> E]; [|congruence]. f_equal. eapply IH; eauto.
Qed.

(** The value the arguments give a field. *)
Definition key_value (values : gmap bytes bytes) (f : KeyField) : option (result error (Z + list Z)) :=
  option_map (field_value f) (values !! kf_Name f).

Lemma BuildKey_spec d values :
  chain 0 (d_Fields d) (d_KeySize d) ->
  match BuildKey d values with
  | Ok key => exists bs, key = assemble 0 (d_Fields d) bs (d_KeySize d) /\
      Forall2 (fun f b => exists s, values !! kf_Name f = Some s /\ field_bytes f s = Ok b) (d_Fields d) bs /\
      forall name s, values !! name = Some s -> name ∈ map kf_Name (d_Fields d)
  | Err RcPanic => False
  | Err (RcErr _) => True
  end.
Proof.
  intros Hc. unfold BuildKey. pose proof (build_fields_spec (d_Fields d) values [] 0 (d_KeySize d) Hc ltac:(lia) eq_refl) as Hb.
  rewrite Z.sub_0_r in Hb. cbn [app] in Hb. destruct (build_fields _ _ _) as [key|[e|]]; cbn [result_bind]; auto.
  destruct Hb as (bs & -> & HF). destruct (find _ (map_to_list values)) as [[name s]|] eqn:Ef; [exact I|].
  exists bs. splits; auto. intros name s Hn. destruct (decide (name ∈ map kf_Name (d_Fields d))) as [Hin|Hout]; [exact Hin|].
  apply elem_of_map_to_list in Hn. apply list_elem_of_In in Hn. pose proof (find_none _ _ Ef _ Hn) as Hf. cbn in Hf.
  now rewrite bool_decide_false in Hf.
Qed.

Lemma key_bytes_lengths (values : gmap bytes bytes) fs bs lo hi :
  chain lo fs hi -> Forall2 (fun f b => exists s, values !! kf_Name f = Some s /\ field_bytes f s = Ok b) fs bs ->
  Forall2 (fun f b => length b = Z.to_nat (kf_Size f)) fs bs.
Proof.
  intros Hc HF. apply chain_kinds in Hc. induction HF as [|f b fs bs (s & _ & Hb) _ IH]; [constructor|].
  inversion Hc as [|? ? [_ Hk] Hc']; subst. constructor; [|auto]. now destruct (field_bytes_spec _ _ _ Hk Hb).
Qed.

(** Equal bytes are equal values. *)
Lemma field_bytes_inj f s t b c :
  kind_ok (kf_Size f) (kf_IsBytes f) -> field_bytes f s = Ok b -> field_bytes f t = Ok c ->
  b = c <-> field_value f s = field_value f t.
Proof.
  intros Hk Hb Hc. destruct (field_bytes_spec _ _ _ Hk Hb) as (_ & v & Hv & Hbv). destruct (field_bytes_spec _ _ _ Hk Hc) as (_ & w & Hw & Hcw).
  rewrite Hv, Hw. destruct (kind_align _ _ Hk) as (_ & Hsz & _).
  assert (Hkind : match v, w with inl _, inl _ | inr _, inr _ => True | _, _ => False end).
  { unfold field_value in Hv, Hw. destruct (kf_IsBytes f).
    - destruct (ParseIP s); [|discriminate]. destruct (ParseIP t); [|discriminate]. injection Hv as <-. now injection Hw as <-.
    - apply result_bind_ok in Hv as (? & _ & [= <-]). now apply result_bind_ok in Hw as (? & _ & [= <-]). }
  destruct v as [n|ip], w as [m|ip']; try easy; split.
  - intros E. destruct Hbv as [-> Hn], Hcw as [-> Hm]. apply (f_equal unle) in E. rewrite !unle_le, Z2Nat.id in E by lia.
    rewrite !Z.mod_small in E by assumption. now subst.
  - intros [= <-]. destruct Hbv as [-> _], Hcw as [-> _]. reflexivity.
  - intros E. now subst.
  - intros [= <-]. now subst.
Qed.

(** C38: keys are exact. For a key schema laid out as C lays it out,
    building a key never panics; a built key has the map's key size, names
    every field and nothing else; and two assignments build the same bytes
    exactly when every field has the same value (the number, however it is
    written, or the address), so no two entries collide and the zeroed
    padding never splits one entry in two. *)
Theorem BuildKey_exact d :
  chain 0 (d_Fields d) (d_KeySize d) ->
  (forall values, BuildKey d values <> Err RcPanic) /\
  forall v1 v2 k1 k2, BuildKey d v1 = Ok k1 -> BuildKey d v2 = Ok k2 ->
    len k1 = d_KeySize d /\
    (forall name, is_Some (v1 !! name) <-> name ∈ map kf_Name (d_Fields d)) /\
    (k1 = k2 <-> Forall (fun f => key_value v1 f = key_value v2 f) (d_Fields d)).
Proof.
  intros Hc. split.
  { intros values E. pose proof (BuildKey_spec d values Hc) as H0. now rewrite E in H0. }
  intros v1 v2 k1 k2 H1 H2. pose proof (BuildKey_spec d v1 Hc) as S1. pose proof (BuildKey_spec d v2 Hc) as S2. rewrite H1 in S1. rewrite H2 in S2.
  destruct S1 as (bs & -> & F1 & N1). destruct S2 as (cs & -> & F2 & _).
  pose proof (key_bytes_lengths _ _ _ _ _ Hc F1) as L1. pose proof (key_bytes_lengths _ _ _ _ _ Hc F2) as L2.
  destruct (chain_bounds _ _ _ Hc) as [Hle _]. splits.
  - unfold len. rewrite (assemble_length _ _ _ _ Hc); [lia| |exact L1]. symmetry. now apply Forall2_length in L1.
  - intros name. split; [intros [s Hs]; eauto|]. intros Hin. apply list_elem_of_fmap in Hin as (f & -> & Hf).
    clear - F1 Hf. induction F1 as [|g b fs bs (s & Hs & _) _ IH]; [now apply elem_of_nil in Hf|].
    apply list.elem_of_cons in Hf as [->|Hf]; eauto.
  - pose proof (chain_kinds _ _ _ Hc) as Hk.
    assert (Hiff : bs = cs <-> Forall (fun f => key_value v1 f = key_value v2 f) (d_Fields d)).
    { clear - F1 F2 Hk. revert cs F2. induction F1 as [|f b fs bs (s & Hs & Hb) _ IH]; intros cs F2; inversion F2 as [|? c ? cs' (t & Ht & Hct) F2']; subst.
      { split; auto. }
      inversion Hk as [|? ? [_ Hkf] Hk']; subst. pose proof (field_bytes_inj f s t b c Hkf Hb Hct) as Hi.
      split.
      - intros [= -> ->]. constructor; [|now apply (IH Hk' cs' F2')]. unfold key_value. rewrite Hs, Ht. cbn. f_equal. now apply Hi.
      - intros HF. inversion HF as [|? ? H0 HF']; subst. unfold key_value in H0. rewrite Hs, Ht in H0. cbn in H0. injection H0 as H0.
        f_equal; [now apply Hi|now apply (IH Hk' cs' F2')]. }
    rewrite <- Hiff. split; [|now intros ->]. intros E. eapply assemble_inj; eauto.
Qed.

Definition sample_set : Definition_ := mkDefinition 32 16 (c_key sample_created) false (c_val sample_created).

Definition sample_args (sid port : string) : gmap bytes bytes :=
  <[B "imsi" := B "00:11:22:aa:bb:cc"]> (<[B "sid" := B sid]> {[B "port" := B port]}).

Definition sample_key_bytes (last : Z) : list Z :=
  [204; 187; 170; 34; 17; 0; 0; 0; 252; 0; 0; 0; 0; 0; 0; 0; 0; 0; 0; 0; 0; 0; 0; last; 80; 0; 0; 0; 0; 0; 0; 0].

Lemma BuildKey_exact_witness :
  sample_key_bytes 1 = sample_key_bytes 1 /\
  key_value (sample_args "fc00::1" "0x50") (mkKeyField (B "sid") 8 16 true) <> key_value (sample_args "fc00::2" "80") (mkKeyField (B "sid") 8 16 true).
Proof.
  assert (Hc : chain 0 (d_Fields sample_set) (d_KeySize sample_set)) by (vm_compute; intuition congruence).
  assert (E1 : BuildKey sample_set (sample_args "fc00::1" "0x50") = Ok (sample_key_bytes 1)) by (vm_compute; reflexivity).
  assert (E2 : BuildKey sample_set (sample_args "FC00:0:0::0:1" "80") = Ok (sample_key_bytes 1)) by (vm_compute; reflexivity).
  assert (E3 : BuildKey sample_set (sample_args "fc00::2" "80") = Ok (sample_key_bytes 2)) by (vm_compute; reflexivity).
  destruct (BuildKey_exact sample_set Hc) as [_ H]. split.
  - apply (proj2 (proj2 (H _ _ _ _ E1 E2))). repeat (constructor; [vm_compute; reflexivity|]). constructor.
  - intros E. assert (Hne : sample_key_bytes 1 <> sample_key_bytes 2) by (vm_compute; discriminate).
    apply Hne, (proj2 (proj2 (H _ _ _ _ E1 E3))). constructor; [vm_compute; reflexivity|]. constructor; [exact E|].
    constructor; [vm_compute; reflexivity|]. constructor.
Defined.
