(* ===== verification/SetEntries.v ===== *)
(** * SetEntries: what updates do to a set's entries

    Reading and writing the fields of a value; [Add] keeps the state and the
    cap of an entry whose tag does not change; [SetState] moves exactly the
    entries of one tag. *)

From Stdlib Require Import ZArith Lia Bool Ascii String List.
From stdpp Require Import base list strings numbers option gmap.
From S2P Require Import Prelude GoStd GoBytes GoText HookAbi ArgExpr SetMap SetMapFacts.
Local Open Scope Z_scope.
Local Open Scope go_scope.

(** ** Fields of a value *)

(** The value schemas [resolveValueSchema] returns for a C layout. *)
Definition value_ok (d : Definition_) : Prop :=
  chain 0 (d_ValFields d) (d_ValueSize d) /\ Forall (fun f => kf_IsBytes f = false) (d_ValFields d) /\
  exists fs, d_ValFields d = TagField d :: fs /\ kf_Name (TagField d) = ValFieldTag /\ ~ ValFieldTag ∈ map kf_Name fs.

Definition disjoint (f g : KeyField) : Prop := kf_Off f + kf_Size f <= kf_Off g \/ kf_Off g + kf_Size g <= kf_Off f.

Lemma chain_disjoint lo fs hi f g : chain lo fs hi -> f ∈ fs -> g ∈ fs -> f = g \/ disjoint f g.
Proof.
  revert lo. induction fs as [|h fs IH]; intros lo; cbn [chain]; [now intros _ H%elem_of_nil|].
  intros (_ & _ & _ & Hc) Hf Hg. destruct (chain_bounds _ _ _ Hc) as [_ Hb]. rewrite Forall_forall in Hb.
  apply list.elem_of_cons in Hf as [->|Hf]; apply list.elem_of_cons in Hg as [->|Hg]; auto.
  - right. left. now apply Hb.
  - right. right. now apply Hb.
  - eauto.
Qed.

(** A field of the schema lies inside a value of the map's size. *)
Definition in_value (size : Z) (f : KeyField) : Prop :=
  0 <= kf_Off f /\ kf_Off f + kf_Size f <= size /\ kind_ok (kf_Size f) false.

Lemma value_ok_in d f : value_ok d -> f ∈ d_ValFields d -> in_value (d_ValueSize d) f.
Proof.
  intros (Hc & Hib & _) Hf. destruct (chain_bounds _ _ _ Hc) as [_ Hb]. pose proof (chain_kinds _ _ _ Hc) as Hk.
  rewrite Forall_forall in Hb, Hk, Hib. specialize (Hb f Hf). specialize (Hk f Hf). specialize (Hib f Hf).
  unfold in_value. rewrite Hib in Hk. intuition lia.
Qed.

(** A value of the map: bytes of its value size. *)
Definition stored (size : Z) (val : list Z) : Prop := len val = size /\ Forall byte val.

Lemma getField_some size f val :
  in_value size f -> stored size val ->
  getField val f = Ok (unle (take (Z.to_nat (kf_Size f)) (drop (Z.to_nat (kf_Off f)) val))) /\
  sl (Z.to_nat (kf_Off f)) (Z.to_nat (kf_Off f + kf_Size f)) val = Some (take (Z.to_nat (kf_Size f)) (drop (Z.to_nat (kf_Off f)) val)).
Proof.
  intros (H0 & Hs & Hk) [Hl _]. destruct (kind_align _ _ Hk) as (_ & Hsz & _). unfold len in Hl.
  replace (Z.to_nat (kf_Off f + kf_Size f)) with (Z.to_nat (kf_Off f) + Z.to_nat (kf_Size f))%nat by lia.
  unfold getField. replace (Z.to_nat (kf_Off f + kf_Size f)) with (Z.to_nat (kf_Off f) + Z.to_nat (kf_Size f))%nat by lia.
  rewrite sl_some by lia. cbn [getp result_bind]. split; [|reflexivity]. f_equal. unfold getUint, len.
  rewrite length_take, length_drop. replace (Z.of_nat _) with (kf_Size f) by lia. now rewrite (proj2 (validSize_kind _) Hk).
Qed.

Lemma getField_det size f val : in_value size f -> stored size val -> exists v, getField val f = Ok v.
Proof. intros Hf Hl. destruct (getField_some size f val Hf Hl) as [-> _]. eauto. Qed.

Lemma putField_ok size f val v :
  in_value size f -> stored size val ->
  exists val', putField val f v = Ok val' /\ stored size val' /\ getField val' f = Ok (v mod 256 ^ kf_Size f) /\
    forall g, in_value size g -> disjoint f g -> getField val' g = getField val g.
Proof.
  intros Hf Hst. pose proof Hst as [Hl Hby]. pose proof Hf as (H0 & Hs & Hk). destruct (kind_align _ _ Hk) as (_ & Hsz & _).
  destruct (getField_some size f val Hf Hst) as [_ Hsl]. unfold putField. rewrite Hsl. cbn [getp result_bind].
  set (old := take _ _). assert (Hold : length old = Z.to_nat (kf_Size f)).
  { unfold old. rewrite length_take, length_drop. unfold len in Hl. lia. }
  assert (Hput : putUint old v = le (Z.to_nat (kf_Size f)) v).
  { unfold putUint, len. rewrite Hold, Z2Nat.id by lia. now rewrite (proj2 (validSize_kind _) Hk). }
  rewrite Hput. destruct (copy_at (Z.to_nat (kf_Off f)) (le (Z.to_nat (kf_Size f)) v) val) as [val'|] eqn:Ec.
  2: { rewrite copy_at_ok in Ec; [discriminate|]. rewrite le_length. unfold len in Hl. lia. }
  pose proof (copy_at_length _ _ _ _ Ec) as Hlen. destruct (sl_copy_at _ _ _ _ Ec) as [Hr Hother]. rewrite le_length in Hr, Hother.
  assert (Hl' : stored size val').
  { split; [unfold len in *; lia|]. unfold copy_at in Ec. case_if Ec; [|discriminate]. injection Ec as <-.
    apply Forall_app. split; [now apply Forall_take|]. apply Forall_app. split; [apply le_byte|now apply Forall_drop]. }
  exists val'. split; [reflexivity|]. split; [exact Hl'|]. split.
  - unfold getField. replace (Z.to_nat (kf_Off f + kf_Size f)) with (Z.to_nat (kf_Off f) + Z.to_nat (kf_Size f))%nat by lia.
    rewrite Hr. cbn [getp result_bind]. f_equal. unfold getUint, len. rewrite le_length, Z2Nat.id by lia.
    rewrite (proj2 (validSize_kind _) Hk), unle_le, Z2Nat.id by lia. reflexivity.
  - intros g (G0 & Gs & Gk) Hd. destruct (kind_align _ _ Gk) as (_ & Gsz & _). unfold getField. unfold len in Hl.
    replace (Z.to_nat (kf_Off g + kf_Size g)) with (Z.to_nat (kf_Off g) + Z.to_nat (kf_Size g))%nat by lia.
    rewrite Hother; [reflexivity|lia|]. unfold disjoint in Hd. lia.
Qed.

Lemma find_field_spec name fs f : find_field name fs = Some f -> f ∈ fs /\ kf_Name f = name.
Proof. intros H. apply find_some in H as [Hin Hn]. apply bool_decide_eq_true in Hn. now apply list_elem_of_In in Hin. Qed.

Lemma TagField_in d : value_ok d -> TagField d ∈ d_ValFields d /\ kf_Name (TagField d) = ValFieldTag.
Proof. intros (_ & _ & fs & E & Hn & _). split; [|exact Hn]. rewrite E. apply list.elem_of_cons. now left. Qed.

(** Fields of different names do not overlap. *)
Lemma named_disjoint d f g : value_ok d -> f ∈ d_ValFields d -> g ∈ d_ValFields d -> kf_Name f <> kf_Name g -> disjoint f g.
Proof. intros (Hc & _) Hf Hg Hn. destruct (chain_disjoint _ _ _ _ _ Hc Hf Hg) as [->|H]; [easy|exact H]. Qed.

Lemma disjoint_sym f g : disjoint f g -> disjoint g f.
Proof. unfold disjoint. tauto. Qed.

Lemma ValField_tag_disjoint d name f : value_ok d -> ValField d name = Some f -> name <> ValFieldTag -> disjoint f (TagField d).
Proof.
  intros Hd Hf Hn. apply find_field_spec in Hf as [Hin Hname]. destruct (TagField_in d Hd) as [Ht Htn].
  apply (named_disjoint d); auto. rewrite Hname, Htn. exact Hn.
Qed.

(** What is known of a stored value. *)
Record cells := mkCells { cl_tag : Z; cl_state : option Z; cl_max : option Z }.

Definition get_if (val : list Z) (has : option KeyField) : result rcerr (option Z) :=
  match has with Some f => let? v := getField val f in Ok (Some v) | None => Ok None end.

Definition cells_of (d : Definition_) (val : list Z) : result rcerr cells :=
  let? t := getField val (TagField d) in
  let? s := get_if val (ValField d ValFieldState) in
  let? m := get_if val (ValField d ValFieldMaxBytes) in
  Ok (mkCells t s m).

Lemma tag_info_cells d val :
  tag_info d val = let? c := cells_of d val in Ok (mkTagInfo (u32 (cl_tag c)) (u8 (default 0 (cl_state c))) (default 0 (cl_max c))).
Proof.
  unfold tag_info, cells_of. destruct (getField val (TagField d)) as [t|]; [cbn [result_bind]|reflexivity].
  unfold get_if. destruct (ValField d ValFieldState) as [sf|]; [destruct (getField val sf); [|reflexivity]|];
    (destruct (ValField d ValFieldMaxBytes) as [mf|]; [destruct (getField val mf); reflexivity|reflexivity]).
Qed.

Section Values.
Variable d : Definition_.
Hypothesis Hd : value_ok d.

Let size := d_ValueSize d.

Lemma tag_in_value : in_value size (TagField d).
Proof. apply (value_ok_in d _ Hd), TagField_in, Hd. Qed.

Lemma ValField_in_value name f : ValField d name = Some f -> in_value size f.
Proof. intros H. apply find_field_spec in H as [Hin _]. now apply (value_ok_in d). Qed.

Lemma cells_total val : stored size val -> exists c, cells_of d val = Ok c.
Proof.
  intros Hl. unfold cells_of. destruct (getField_det _ _ _ tag_in_value Hl) as [t ->]. cbn [result_bind]. unfold get_if.
  destruct (ValField d ValFieldState) as [sf|] eqn:Es; [destruct (getField_det _ _ _ (ValField_in_value _ _ Es) Hl) as [s ->]|];
    cbn [result_bind]; (destruct (ValField d ValFieldMaxBytes) as [mf|] eqn:Em;
      [destruct (getField_det _ _ _ (ValField_in_value _ _ Em) Hl) as [m ->]|]); cbn [result_bind]; eauto.
Qed.

Lemma put_tag val v : stored size val ->
  exists val', putField val (TagField d) v = Ok val' /\ stored size val' /\
    forall c, cells_of d val = Ok c -> cells_of d val' = Ok (mkCells (v mod 256 ^ TagWidth d) (cl_state c) (cl_max c)).
Proof.
  intros Hl. destruct (putField_ok size _ val v tag_in_value Hl) as (val' & Hp & Hl' & Hg & Ho). exists val'. splits; auto.
  intros c Hc. unfold cells_of in *. rewrite Hg. apply result_bind_ok in Hc as (t & _ & Hc). cbn [result_bind].
  assert (Hkeep : forall name, name <> ValFieldTag -> get_if val' (ValField d name) = get_if val (ValField d name)).
  { intros name Hn. unfold get_if. destruct (ValField d name) as [f|] eqn:Ef; [|reflexivity].
    rewrite Ho; [reflexivity|now apply ValField_in_value in Ef|]. now apply disjoint_sym, (ValField_tag_disjoint d name). }
  rewrite !Hkeep by discriminate. apply result_bind_ok in Hc as (s & Hs & Hc). apply result_bind_ok in Hc as (m & Hm & Hc).
  rewrite Hs, Hm. injection Hc as <-. reflexivity.
Qed.

(** Writing the state or the cap changes that cell alone. *)
Lemma put_named name f val v :
  ValField d name = Some f -> name = ValFieldState \/ name = ValFieldMaxBytes -> stored size val ->
  exists val', putField val f v = Ok val' /\ stored size val' /\
    forall c, cells_of d val = Ok c ->
      cells_of d val' = Ok (if bool_decide (name = ValFieldState) then mkCells (cl_tag c) (Some (v mod 256 ^ kf_Size f)) (cl_max c)
                            else mkCells (cl_tag c) (cl_state c) (Some (v mod 256 ^ kf_Size f))).
Proof.
  intros Hf Hn Hl. pose proof (ValField_in_value _ _ Hf) as Hin. destruct (putField_ok size _ val v Hin Hl) as (val' & Hp & Hl' & Hg & Ho).
  assert (Hnt : name <> ValFieldTag) by (destruct Hn as [->| ->]; discriminate).
  exists val'. splits; auto. intros c Hc. unfold cells_of in *.
  rewrite Ho; [|exact tag_in_value|now apply (ValField_tag_disjoint d name)].
  apply result_bind_ok in Hc as (t & Ht & Hc). apply result_bind_ok in Hc as (s & Hs & Hc). apply result_bind_ok in Hc as (m & Hm & Hc).
  injection Hc as <-. rewrite Ht. cbn [result_bind cl_tag cl_state cl_max].
  assert (Hkeep : forall other, other <> name -> get_if val' (ValField d other) = get_if val (ValField d other)).
  { intros other Hne. unfold get_if. destruct (ValField d other) as [g|] eqn:Eg; [|reflexivity].
    pose proof (ValField_in_value _ _ Eg) as Hging. apply find_field_spec in Eg as [Hgin Hgn]. apply find_field_spec in Hf as [Hfin Hfn].
    rewrite Ho; [reflexivity|exact Hging|]. apply (named_disjoint d); auto. rewrite Hfn, Hgn. auto. }
  destruct Hn as [->| ->].
  - rewrite bool_decide_true by reflexivity. rewrite (Hkeep ValFieldMaxBytes) by discriminate. rewrite Hm.
    unfold get_if. rewrite Hf, Hg. reflexivity.
  - rewrite bool_decide_false by discriminate. rewrite (Hkeep ValFieldState) by discriminate. rewrite Hs. cbn [result_bind].
    unfold get_if. rewrite Hf, Hg. reflexivity.
Qed.
End Values.

(** ** SetState *)

(** Every value is one the map can hold. *)
Definition sized (d : Definition_) (m : entries) : Prop := forall k v, m !! k = Some v -> stored (d_ValueSize d) v.

Lemma getField_range size f val v : in_value size f -> stored size val -> getField val f = Ok v -> 0 <= v < 256 ^ kf_Size f.
Proof.
  intros Hf Hs Hg. destruct (getField_some size f val Hf Hs) as [E _]. rewrite E in Hg. injection Hg as <-. destruct Hs as [Hl Hb].
  destruct Hf as (H0 & Hle & Hk). destruct (kind_align _ _ Hk) as (_ & Hsz & _).
  pose proof (unle_range (take (Z.to_nat (kf_Size f)) (drop (Z.to_nat (kf_Off f)) val)) ltac:(now apply Forall_take, Forall_drop)) as Hr.
  unfold len in *. rewrite length_take, length_drop in Hr. replace (Z.of_nat _) with (kf_Size f) in Hr by lia. exact Hr.
Qed.

(** The entries [SetState] changes: the ones whose tag, in its low 32 bits,
    is the one given, and whose state is not. *)
Definition matches (d : Definition_) (tag state : Z) (v : list Z) : bool :=
  match cells_of d v with
  | Ok c => (u32 (cl_tag c) =? tag) && negb (bool_decide (cl_state c = Some state))
  | Err _ => false
  end.

(** The whole tag and the cap are kept, and the state is the one given. *)
Definition moved (d : Definition_) (state : Z) (v v' : list Z) : Prop :=
  exists c, cells_of d v = Ok c /\ cells_of d v' = Ok (mkCells (cl_tag c) (Some state) (cl_max c)).

Section SetState.
Variables (d : Definition_) (sf : KeyField) (tag state : Z).
Hypotheses (Hd : value_ok d) (Hsf : ValField d ValFieldState = Some sf) (Hsz : kf_Size sf = 1) (Hst : 0 <= state < 256).

Lemma moved_keeps v v' : moved d state v v' -> matches d tag state v' = false.
Proof. intros (c & _ & Hc). unfold matches. rewrite Hc. cbn [cl_state]. rewrite bool_decide_true by reflexivity. apply andb_false_r. Qed.

Lemma moved_changes v v' : matches d tag state v = true -> moved d state v v' -> v' <> v.
Proof. intros Hm Hv ->. rewrite (moved_keeps _ _ Hv) in Hm. discriminate. Qed.

(** One entry of the loop. *)
Lemma set_state_step val : stored (d_ValueSize d) val ->
  exists t s, getField val (TagField d) = Ok t /\ getField val sf = Ok s /\
    negb (u32 t =? tag) || (u8 s =? state) = negb (matches d tag state val) /\
    exists val', putField val sf state = Ok val' /\ stored (d_ValueSize d) val' /\ moved d state val val'.
Proof.
  intros Hl. destruct (cells_total d Hd val Hl) as [c Hc]. pose proof Hc as Hc'. unfold cells_of in Hc'.
  apply result_bind_ok in Hc' as (t & Ht & Hc'). apply result_bind_ok in Hc' as (s & Hs & Hc'). apply result_bind_ok in Hc' as (mb & _ & Hc').
  injection Hc' as <-. unfold get_if in Hs. rewrite Hsf in Hs. apply result_bind_ok in Hs as (s0 & Hs0 & Hs). injection Hs as <-.
  pose proof (getField_range _ _ _ _ (ValField_in_value d Hd _ _ Hsf) Hl Hs0) as Hr. rewrite Hsz in Hr.
  exists t, s0. splits; auto.
  - unfold matches. rewrite Hc. cbn [cl_tag cl_state]. rewrite negb_andb, negb_involutive. f_equal. unfold u8. rewrite Z.mod_small by exact Hr.
    apply eq_true_iff_eq. rewrite Z.eqb_eq, bool_decide_eq_true. split; congruence.
  - destruct (put_named d Hd ValFieldState sf val state Hsf (or_introl eq_refl) Hl) as (val' & Hp & Hl' & Hcells). exists val'. splits; auto.
    exists (mkCells t (Some s0) mb). split; [exact Hc|]. rewrite (Hcells _ Hc), bool_decide_true by reflexivity. rewrite Hsz, Z.mod_small by exact Hst. reflexivity.
Qed.

(** The entries that are not as they were. *)
Definition changed (m m' : entries) : entries := filter (fun kv => m' !! kv.1 <> Some kv.2) m.

Lemma changed_same m : changed m m = ∅.
Proof. apply map_empty. intros k. apply map_lookup_filter_None. right. intros v Hv Hn. now apply Hn. Qed.

Lemma changed_insert m m' k v v' : m !! k = Some v -> m' !! k = Some v -> v' <> v -> size (changed m (<[k := v']> m')) = S (size (changed m m')).
Proof.
  intros Hm Hm' Hv. assert (E : changed m (<[k := v']> m') = <[k := v]> (changed m m')).
  { apply map_eq. intros k2. unfold changed. destruct (decide (k2 = k)) as [->|Hn].
    - rewrite lookup_insert_eq. apply map_lookup_filter_Some. split; [exact Hm|]. cbn. rewrite lookup_insert_eq. congruence.
    - rewrite lookup_insert_ne by auto. apply option_eq. intros w. rewrite !map_lookup_filter_Some. cbn. now rewrite lookup_insert_ne by auto. }
  rewrite E. apply map_size_insert_None. apply map_lookup_filter_None. right. intros w Hw Hn. cbn in Hn. congruence.
Qed.

(** What holds of the entries between two of them. *)
Record progress (m m' : entries) (n : Z) : Prop := mkProgress {
  pg_sized : sized d m';
  pg_each : forall k, match m !! k, m' !! k with
                      | Some v, Some v' => v' = v \/ matches d tag state v = true /\ moved d state v v'
                      | None, None => True
                      | _, _ => False
                      end;
  pg_count : n = Z.of_nat (size (changed m m'))
}.

Lemma progress_step m m' n k val val' : progress m m' n -> m' !! k = Some val -> matches d tag state val = true ->
  stored (d_ValueSize d) val' -> moved d state val val' -> progress m (<[k := val']> m') (n + 1) /\ m !! k = Some val.
Proof.
  intros [Hs He Hc] Hk Hm Hl Hv. pose proof (He k) as Hek. rewrite Hk in Hek. destruct (m !! k) as [v|] eqn:Ek; [|easy].
  destruct Hek as [->|[_ Hmv]]; [|now rewrite (moved_keeps _ _ Hmv) in Hm]. split; [|reflexivity]. split.
  - intros k2 v2 H2. destruct (decide (k2 = k)) as [->|Hn]; [rewrite lookup_insert_eq in H2; now injection H2 as <-|].
    rewrite lookup_insert_ne in H2 by auto. eauto.
  - intros k2. destruct (decide (k2 = k)) as [->|Hn]; [|rewrite lookup_insert_ne by auto; apply He].
    rewrite Ek, lookup_insert_eq. auto.
  - rewrite (changed_insert m m' k v val'); [lia|assumption..|]. now apply moved_changes.
Qed.

Lemma set_state_loop K m ks m1 n : progress m m1 n ->
  exists m2 n2 e, set_state K d sf tag state ks m1 n = Ok (m2, n2, e) /\ progress m m2 n2 /\
    match e with
    | Some e => put_err K n2 = Some e \/ iter_err K = Some e
    | None => iter_err K = None /\ forall k v, k ∈ ks -> m2 !! k = Some v -> matches d tag state v = false
    end /\ (forall k v, m1 !! k = Some v -> matches d tag state v = false -> m2 !! k = Some v).
Proof.
  revert m1 n. induction ks as [|k ks IH]; intros m1 n Hp; cbn [set_state].
  { exists m1, n, (iter_err K). splits; auto. destruct (iter_err K); [now right|]. split; [reflexivity|]. intros k v Hk. now apply not_elem_of_nil in Hk. }
  destruct (m1 !! k) as [val|] eqn:Ek.
  - destruct (set_state_step val (pg_sized _ _ _ Hp _ _ Ek)) as (t & s & -> & -> & Hcond & val' & Hput & Hl' & Hmv). cbn [result_bind]. rewrite Hcond.
    destruct (matches d tag state val) eqn:Em; cbn [negb].
    + rewrite Hput. cbn [result_bind]. destruct (put_err K n) as [e|] eqn:Ee.
      * exists m1, n, (Some e). splits; auto.
      * destruct (progress_step m m1 n k val val' Hp Ek Em Hl' Hmv) as [Hp' _].
        destruct (IH _ _ Hp') as (m2 & n2 & e & -> & Hp2 & He & Hkeep). exists m2, n2, e. splits; auto.
        -- destruct e; [exact He|]. destruct He as [Hi He]. split; [exact Hi|]. intros k2 v2 Hk2 H2. apply list.elem_of_cons in Hk2 as [->|Hk2]; [|eauto].
           rewrite (Hkeep k val') in H2; [injection H2 as <-; now apply moved_keeps in Hmv|apply lookup_insert_eq|now apply moved_keeps in Hmv].
        -- intros k2 v2 H2 Hf. destruct (decide (k2 = k)) as [->|Hn]; [congruence|]. apply Hkeep; [now rewrite lookup_insert_ne by auto|exact Hf].
    + destruct (IH _ _ Hp) as (m2 & n2 & e & -> & Hp2 & He & Hkeep). exists m2, n2, e. splits; auto. destruct e; [exact He|]. destruct He as [Hi He].
      split; [exact Hi|]. intros k2 v2 Hk2 H2. apply list.elem_of_cons in Hk2 as [->|Hk2]; [|eauto]. rewrite (Hkeep k val Ek Em) in H2. congruence.
  - destruct (IH _ _ Hp) as (m2 & n2 & e & -> & Hp2 & He & Hkeep). exists m2, n2, e. splits; auto. destruct e; [exact He|]. destruct He as [Hi He].
    split; [exact Hi|]. intros k2 v2 Hk2 H2. apply list.elem_of_cons in Hk2 as [->|Hk2]; [|eauto].
    pose proof (pg_each _ _ _ Hp k) as H1. pose proof (pg_each _ _ _ Hp2 k) as H3. rewrite Ek in H1. rewrite H2 in H3. now destruct (m !! k).
Qed.
End SetState.

(** C39: parking a tag changes its entries' states and nothing else,
    whatever the kernel answers. On a set whose value layout carries a
    state, [SetState] does not panic; whether or not it returns an error,
    the same keys are present, every entry is either untouched or was one of
    the tag (compared in the low 32 bits) in another state and now shows the
    new state with its whole tag and its cap unchanged, and the count
    returned is the number of entries that changed. An error is the
    iteration's or that of the first update that failed; without one, and
    when the iteration reached every key, every entry of the tag has the
    new state. *)
Theorem SetState_exact K d sf tag state m :
  value_ok d -> ValField d ValFieldState = Some sf -> kf_Size sf = 1 -> 0 <= state < 256 -> sized d m ->
  exists m' n e, SetState K d tag state m = Ok (m', n, e) /\ sized d m' /\
    (forall k, match m !! k, m' !! k with
               | Some v, Some v' => v' = v \/ matches d tag state v = true /\ moved d state v v'
               | None, None => True
               | _, _ => False
               end) /\
    n = Z.of_nat (size (filter (fun kv => m' !! kv.1 <> Some kv.2) m)) /\
    match e with
    | Some e => put_err K n = Some e \/ iter_err K = Some e
    | None => iter_err K = None /\
        ((forall k, k ∈ dom m -> k ∈ visits K) ->
         forall k v, m !! k = Some v -> matches d tag state v = true -> exists v', m' !! k = Some v' /\ moved d state v v')
    end.
Proof.
  intros Hd Hsf Hsz Hst Hm. unfold SetState. rewrite Hsf.
  assert (Hp : progress d tag state m m 0).
  { split; [exact Hm|intros k; destruct (m !! k); auto|]. now rewrite changed_same. }
  destruct (set_state_loop d sf tag state Hd Hsf Hsz Hst K m (visits K) m 0 Hp) as (m' & n & e & -> & [Hs He Hn] & Hend & _).
  exists m', n, e. splits; auto. destruct e; [exact Hend|]. destruct Hend as [Hi Hend]. split; [exact Hi|]. intros Hall k v Hk Hmt.
  specialize (He k). rewrite Hk in He. destruct (m' !! k) as [v'|] eqn:Ek; [|easy]. exists v'. split; [reflexivity|].
  destruct He as [->|[_ Hmv]]; [|exact Hmv]. rewrite (Hend k v) in Hmt; [discriminate| |exact Ek]. apply Hall. apply elem_of_dom. eauto.
Qed.

(** ** Add *)

(** The entry [Add] leaves: the given tag; the old state and, unless a cap
    was given, the old cap when the tag was already the entry's; otherwise
    active, with the cap given. *)
Definition added (d : Definition_) (ev : EntryValue) (old : option cells) : cells :=
  let keep := match old with Some c => if cl_tag c =? ev_Tag ev then Some c else None | None => None end in
  mkCells (ev_Tag ev)
    (match ValField d ValFieldState with
     | None => None
     | Some _ => Some (match keep with Some c => default 0 (cl_state c) | None => StateActive end)
     end)
    (match ValField d ValFieldMaxBytes with
     | None => None
     | Some _ => Some (match keep with
                       | Some c => if ev_HasMaxBytes ev then ev_MaxBytes ev else default 0 (cl_max c)
                       | None => ev_MaxBytes ev
                       end)
     end).

Lemma zero_stored n : 0 <= n -> stored n (repeat 0 (Z.to_nat n)).
Proof. intros Hn. split; [unfold len; rewrite repeat_length; lia|]. apply Forall_forall. intros x Hx. apply list_elem_of_In, repeat_spec in Hx. subst. unfold byte. lia. Qed.

(** The optional field writes of [Add]. *)
Lemma put_if_named d name val v :
  value_ok d -> name = ValFieldState \/ name = ValFieldMaxBytes -> stored (d_ValueSize d) val ->
  (forall f, ValField d name = Some f -> 0 <= v < 256 ^ kf_Size f) ->
  exists val', put_if (ValField d name) v val = Ok val' /\ stored (d_ValueSize d) val' /\
    forall c, cells_of d val = Ok c ->
      cells_of d val' = Ok (if bool_decide (name = ValFieldState)
                            then mkCells (cl_tag c) (option_map (fun _ => v) (ValField d name)) (cl_max c)
                            else mkCells (cl_tag c) (cl_state c) (option_map (fun _ => v) (ValField d name))).
Proof.
  intros Hd Hn Hs Hv. destruct (ValField d name) as [f|] eqn:Ef; cbn [put_if option_map].
  - destruct (put_named d Hd name f val v Ef Hn Hs) as (val' & Hp & Hs' & Hc). exists val'. splits; auto. intros c Hcc.
    rewrite (Hc c Hcc), Z.mod_small by now apply Hv. reflexivity.
  - exists val. splits; auto. intros c Hcc. rewrite Hcc. pose proof Hcc as Hc. unfold cells_of in Hc.
    apply result_bind_ok in Hc as (t & _ & Hc). apply result_bind_ok in Hc as (s & H1 & Hc). apply result_bind_ok in Hc as (mb & H2 & Hc).
    injection Hc as <-. cbn [cl_tag cl_state cl_max]. destruct Hn as [->| ->].
    + rewrite bool_decide_true by reflexivity. rewrite Ef in H1. injection H1 as <-. reflexivity.
    + rewrite bool_decide_false by discriminate. rewrite Ef in H2. injection H2 as <-. reflexivity.
Qed.

(** What the schema promises of the optional fields. *)
Definition widths_ok (d : Definition_) : Prop :=
  (forall f, ValField d ValFieldState = Some f -> kf_Size f = 1) /\ (forall f, ValField d ValFieldMaxBytes = Some f -> kf_Size f = 8).

Lemma unle_zeros n : unle (repeat 0 n) = 0.
Proof. induction n as [|n IH]; [reflexivity|]. cbn [repeat unle fold_right]. fold (unle (repeat 0 n)). rewrite IH. reflexivity. Qed.

Lemma cells_zero d : value_ok d -> 0 <= d_ValueSize d ->
  cells_of d (repeat 0 (Z.to_nat (d_ValueSize d))) =
    Ok (mkCells 0 (option_map (fun _ => 0) (ValField d ValFieldState)) (option_map (fun _ => 0) (ValField d ValFieldMaxBytes))).
Proof.
  intros Hd Hs. assert (Hz : forall f, in_value (d_ValueSize d) f -> getField (repeat 0 (Z.to_nat (d_ValueSize d))) f = Ok 0).
  { intros f Hf. destruct (getField_some _ _ _ Hf (zero_stored _ Hs)) as [-> _]. rewrite drop_repeat, take_repeat, unle_zeros. reflexivity. }
  unfold cells_of. rewrite (Hz _ (tag_in_value d Hd)). cbn [result_bind]. unfold get_if.
  destruct (ValField d ValFieldState) as [sf|] eqn:Es; [rewrite (Hz _ (ValField_in_value d Hd _ _ Es))|];
    (destruct (ValField d ValFieldMaxBytes) as [mf|] eqn:Em; [rewrite (Hz _ (ValField_in_value d Hd _ _ Em))|]); reflexivity.
Qed.

Lemma tag_fits d tag :
  value_ok d -> in_u64 tag -> (kf_Size (TagField d) <? 8) && (2 ^ (8 * kf_Size (TagField d)) <=? tag) = false ->
  tag mod 256 ^ TagWidth d = tag.
Proof.
  intros Hd Hu Hc. destruct (tag_in_value d Hd) as (_ & _ & Hk). apply Z.mod_small. unfold TagWidth. unfold in_u64 in Hu.
  assert (E : 256 ^ kf_Size (TagField d) = 2 ^ (8 * kf_Size (TagField d))).
  { change 256 with (2 ^ 8). rewrite <- Z.pow_mul_r; [reflexivity|lia|]. unfold kind_ok in Hk. lia. }
  rewrite E. apply andb_false_iff in Hc as [Hc|Hc]; bools; [|lia].
  assert (Hk8 : kf_Size (TagField d) = 8) by (unfold kind_ok in Hk; lia). rewrite Hk8. exact Hu.
Qed.

(** The state and cap kept from an entry that already has the tag. *)
Definition keep_cells (d : Definition_) (ev : EntryValue) (old val : list Z) : result rcerr (list Z) :=
  let? oldTag := getField old (TagField d) in
  if oldTag =? ev_Tag ev then
    let? val := match ValField d ValFieldState with Some f => let? s := getField old f in putField val f s | None => Ok val end in
    if negb (ev_HasMaxBytes ev)
    then match ValField d ValFieldMaxBytes with Some f => let? x := getField old f in putField val f x | None => Ok val end
    else Ok val
  else Ok val.

Lemma keep_cells_ok d ev old val co :
  value_ok d -> stored (d_ValueSize d) old -> stored (d_ValueSize d) val -> cells_of d old = Ok co ->
  cells_of d val = Ok (added d ev None) ->
  exists val', keep_cells d ev old val = Ok val' /\ stored (d_ValueSize d) val' /\ cells_of d val' = Ok (added d ev (Some co)).
Proof.
  intros Hd Ho Hv Hco Hcv. pose proof Hco as Hc. unfold cells_of in Hc. apply result_bind_ok in Hc as (t & Ht & Hc).
  apply result_bind_ok in Hc as (s & H1 & Hc). apply result_bind_ok in Hc as (mb & H2 & Hc). injection Hc as <-.
  unfold keep_cells. rewrite Ht. cbn [result_bind]. unfold added in *. cbn [cl_tag cl_state cl_max] in *.
  destruct (t =? ev_Tag ev) eqn:Et; [|exists val; auto].
  assert (Hst : exists v1, match ValField d ValFieldState with Some f => let? s := getField old f in putField val f s | None => Ok val end = Ok v1 /\
    stored (d_ValueSize d) v1 /\ cells_of d v1 = Ok (mkCells (ev_Tag ev)
      (match ValField d ValFieldState with None => None | Some _ => Some (default 0 s) end)
      (match ValField d ValFieldMaxBytes with None => None | Some _ => Some (ev_MaxBytes ev) end))).
  { unfold get_if in H1. destruct (ValField d ValFieldState) as [sf|] eqn:Es; [|exists val; auto].
    apply result_bind_ok in H1 as (s0 & Hs0 & H1). injection H1 as <-. rewrite Hs0. cbn [result_bind].
    pose proof (getField_range _ _ _ _ (ValField_in_value d Hd _ _ Es) Ho Hs0) as Hr.
    destruct (put_named d Hd ValFieldState sf val s0 Es (or_introl eq_refl) Hv) as (v1 & Hp & Hs1 & Hc1). exists v1. splits; auto.
    rewrite (Hc1 _ Hcv), bool_decide_true by reflexivity. rewrite Z.mod_small by exact Hr. reflexivity. }
  destruct Hst as (v1 & -> & Hs1 & Hc1). cbn [result_bind]. destruct (ev_HasMaxBytes ev); cbn [negb]; [exists v1; auto|].
  unfold get_if in H2. destruct (ValField d ValFieldMaxBytes) as [mf|] eqn:Em; [|exists v1; auto].
  apply result_bind_ok in H2 as (x & Hx & H2). injection H2 as <-. rewrite Hx. cbn [result_bind].
  pose proof (getField_range _ _ _ _ (ValField_in_value d Hd _ _ Em) Ho Hx) as Hr.
  destruct (put_named d Hd ValFieldMaxBytes mf v1 x Em (or_intror eq_refl) Hs1) as (v2 & Hp & Hs2 & Hc2). exists v2. splits; auto.
  rewrite (Hc2 _ Hc1), bool_decide_false by discriminate. rewrite Z.mod_small by exact Hr. reflexivity.
Qed.

(** What a successful [Add] wrote. *)
Lemma Add_entry K max d values ev m m' :
  value_ok d -> widths_ok d -> 0 <= d_ValueSize d -> sized d m -> in_u64 (ev_Tag ev) -> in_u64 (ev_MaxBytes ev) ->
  Add K max d values ev m = Ok m' ->
  exists key v, BuildKey d values = Ok key /\ m' = <[key := v]> m /\ sized d m' /\
    exists old, cells_of d v = Ok (added d ev old) /\
      match m !! key with Some o => exists c, cells_of d o = Ok c /\ old = Some c | None => old = None end.
Proof.
  intros Hd Hw Hz Hm Ht Hmb Ha. unfold Add in Ha. apply result_bind_ok in Ha as (key & Hk & Ha). cbv zeta in Ha.
  case_if Ha; [discriminate|]. case_if Ha; [discriminate|]. case_if Ha; [discriminate|].
  apply result_bind_ok in Ha as (v1 & Hv1 & Ha). apply result_bind_ok in Ha as (v2 & Hv2 & Ha).
  destruct (put_tag d Hd _ (ev_Tag ev) (zero_stored _ Hz)) as (v1' & Hv1' & Hs1 & Hc1). rewrite Hv1 in Hv1'. injection Hv1' as <-.
  specialize (Hc1 _ (cells_zero d Hd Hz)). cbn [cl_state cl_max] in Hc1. rewrite tag_fits in Hc1 by assumption.
  destruct (put_if_named d ValFieldMaxBytes v1 (ev_MaxBytes ev) Hd (or_intror eq_refl) Hs1) as (v2' & Hv2' & Hs2 & Hc2).
  { intros f Hf. rewrite (proj2 Hw f Hf). exact Hmb. }
  rewrite Hv2 in Hv2'. injection Hv2' as <-. specialize (Hc2 _ Hc1). rewrite bool_decide_false in Hc2 by discriminate. cbn [cl_tag cl_state] in Hc2.
  assert (Hnone : cells_of d v2 = Ok (added d ev None)).
  { rewrite Hc2. unfold added. destruct (ValField d ValFieldState), (ValField d ValFieldMaxBytes); reflexivity. }
  apply result_bind_ok in Ha as (v & Hv & Ha).
  assert (Hl : is_Some_b (ValField d ValFieldState) || is_Some_b (ValField d ValFieldMaxBytes) = true -> lookup_err K = None).
  { intros Hf. rewrite Hf in Hv. now destruct (lookup_err K). }
  assert (Hres : stored (d_ValueSize d) v /\ exists old, cells_of d v = Ok (added d ev old) /\
      match m !! key with Some o => exists c, cells_of d o = Ok c /\ old = Some c | None => old = None end).
  { destruct (m !! key) as [o|] eqn:Eo.
    - destruct (cells_total d Hd o (Hm _ _ Eo)) as [co Hco].
      destruct (is_Some_b _ || is_Some_b _) eqn:Ef.
      + rewrite (Hl eq_refl) in Hv. change (keep_cells d ev o v2 = Ok v) in Hv.
        destruct (keep_cells_ok d ev o v2 co Hd (Hm _ _ Eo) Hs2 Hco Hnone) as (v' & Hv' & Hs' & Hc'). rewrite Hv in Hv'. injection Hv' as <-.
        split; [exact Hs'|]. exists (Some co). split; [exact Hc'|]. eauto.
      + injection Hv as <-. split; [exact Hs2|]. exists (Some co). split; [|eauto]. rewrite Hnone. unfold added.
        destruct (ValField d ValFieldState); [discriminate|]. destruct (ValField d ValFieldMaxBytes); [discriminate|reflexivity].
    - assert (v2 = v) as -> by (destruct (is_Some_b _ || is_Some_b _); [rewrite (Hl eq_refl) in Hv|]; now injection Hv). split; [exact Hs2|]. exists None. auto. }
  destruct Hres as [Hsv Hold]. unfold map_put in Ha. destruct (put_err K 0); [discriminate|]. case_if Ha; [|discriminate]. injection Ha as <-.
  exists key, v. splits; auto. intros k w Hkw. destruct (decide (k = key)) as [->|Hne].
  - rewrite lookup_insert_eq in Hkw. now injection Hkw as <-.
  - rewrite lookup_insert_ne in Hkw by auto. eauto.
Qed.

(** C40: adding an entry is sticky. When [Add] succeeds it writes one entry,
    under the key the arguments build, whose cells are exactly [added]: the
    tag asked for; if the key already carried that tag, its state (a parked
    entry is not reactivated) and, unless a cap was given, its cap; and
    otherwise the active state with the given cap. *)
Theorem Add_sticky K max d values ev m m' :
  value_ok d -> widths_ok d -> 0 <= d_ValueSize d -> sized d m -> in_u64 (ev_Tag ev) -> in_u64 (ev_MaxBytes ev) ->
  Add K max d values ev m = Ok m' ->
  exists key v, BuildKey d values = Ok key /\ m' = <[key := v]> m /\ sized d m' /\
    exists old, cells_of d v = Ok (added d ev old) /\
      match m !! key with Some o => exists c, cells_of d o = Ok c /\ old = Some c | None => old = None end.
Proof. apply Add_entry. Qed.

(** A one-entry set: tag 1, active, cap 100. *)
Definition sample_value (tag state cap : Z) : list Z := le 4 tag ++ [state; 0; 0; 0] ++ le 8 cap.
Definition sample_entries : entries := {[ sample_key_bytes 1 := sample_value 1 0 100 ]}.

Lemma sample_value_ok : value_ok sample_set.
Proof.
  repeat split; try (vm_compute; intuition congruence).
  - repeat constructor.
  - exists (drop 1 (c_val sample_created)). repeat split; try (vm_compute; reflexivity).
    rewrite list_elem_of_In. vm_compute. intuition congruence.
Qed.

Lemma sample_sized : sized sample_set sample_entries.
Proof.
  intros k v Hv. unfold sample_entries in Hv. apply lookup_singleton_Some in Hv as [_ <-]. split; [vm_compute; reflexivity|].
  apply (List.Forall_forall byte). intros x Hx. vm_compute in Hx. unfold byte. intuition (subst; lia).
Qed.

(** A kernel that reaches the given keys and fails nothing, and one that
    refuses the first update. *)
Definition sample_calls (ks : list (list Z)) : MapCalls := mkMapCalls None (fun _ => None) None ks None.
Definition full_error : error := Errorf "update: no space left on device" [].
Definition refusing (ks : list (list Z)) : MapCalls := mkMapCalls None (fun _ => Some full_error) None ks None.

Lemma SetState_exact_witness :
  (exists m', SetState (sample_calls [sample_key_bytes 1]) sample_set 1 1 sample_entries = Ok (m', 1, None) /\ sized sample_set m') /\
  exists m', SetState (refusing [sample_key_bytes 1]) sample_set 1 1 sample_entries = Ok (m', 0, Some full_error) /\ sized sample_set m'.
Proof.
  split.
  - destruct (SetState_exact (sample_calls [sample_key_bytes 1]) sample_set (mkKeyField (B "state") 4 1 false) 1 1 sample_entries sample_value_ok)
      as (m' & n & e & H & Hs & _); [vm_compute; reflexivity|reflexivity|lia|exact sample_sized|].
    exists m'. split; [rewrite H|exact Hs]. vm_compute in H. injection H as <- <- <-. reflexivity.
  - destruct (SetState_exact (refusing [sample_key_bytes 1]) sample_set (mkKeyField (B "state") 4 1 false) 1 1 sample_entries sample_value_ok)
      as (m' & n & e & H & Hs & _); [vm_compute; reflexivity|reflexivity|lia|exact sample_sized|].
    exists m'. split; [rewrite H|exact Hs]. vm_compute in H. injection H as <- <- <-. reflexivity.
Defined.

Definition sample_ev : EntryValue := mkEntryValue 1 0 true false.
Definition sample_key_args : gmap bytes bytes := sample_args "fc00::1" "80".

Lemma sample_added : Add (sample_calls []) 10 sample_set sample_key_args sample_ev sample_entries = Ok sample_entries.
Proof. vm_compute. reflexivity. Qed.

Lemma sample_built : BuildKey sample_set sample_key_args = Ok (sample_key_bytes 1).
Proof. vm_compute. reflexivity. Qed.

Lemma sample_cells : cells_of sample_set (sample_value 1 0 100) = Ok (mkCells 1 (Some 0) (Some 100)).
Proof. vm_compute. reflexivity. Qed.

Lemma sample_lookup : sample_entries !! sample_key_bytes 1 = Some (sample_value 1 0 100).
Proof. apply lookup_singleton_eq. Qed.

Lemma sample_widths : widths_ok sample_set.
Proof. split; intros f Hf; vm_compute in Hf; injection Hf as <-; reflexivity. Qed.

Lemma sample_small : in_u64 1 /\ in_u64 0 /\ 0 <= d_ValueSize sample_set.
Proof. vm_compute. intuition congruence. Qed.

Lemma Add_sticky_witness :
  exists key v, BuildKey sample_set sample_key_args = Ok key /\ sample_entries = <[key := v]> sample_entries /\
    cells_of sample_set v = Ok (mkCells 1 (Some 0) (Some 100)).
Proof.
  destruct sample_small as (H1 & H0 & Hz).
  pose proof (Add_sticky (sample_calls []) 10 sample_set sample_key_args sample_ev sample_entries sample_entries
    sample_value_ok sample_widths Hz sample_sized H1 H0 sample_added) as (key & v & Hk & Hm & _ & old & Hc & Ho).
  exists key, v. split; [exact Hk|]. split; [exact Hm|]. rewrite Hc. f_equal.
  rewrite sample_built in Hk. injection Hk as <-. rewrite sample_lookup in Ho. destruct Ho as (c & Hc' & ->).
  rewrite sample_cells in Hc'. injection Hc' as <-. vm_compute. reflexivity.
Defined.
