(* ===== verification/Run.v ===== *)
(** * Run: executable transition systems

    Interleavings of goroutines are sequences of atomic actions; [exec]
    performs one, [None] when it is not enabled. Shared by the accounting,
    cap and finalization models. *)

From Stdlib Require Import List Lia.
From stdpp Require Import base list option.
From S2P Require Import Prelude.

Section Run.
Context {S A : Type} (exec : A -> S -> option S).

Fixpoint run (l : list A) (s : S) : option S :=
  match l with
  | [] => Some s
  | a :: l => match exec a s with Some s => run l s | None => None end
  end.

Inductive reachable (s0 : S) : S -> Prop :=
| reach_here : reachable s0 s0
| reach_step s a s' : reachable s0 s -> exec a s = Some s' -> reachable s0 s'.

Lemma run_app l1 l2 s : run (l1 ++ l2) s = match run l1 s with Some s => run l2 s | None => None end.
Proof. revert s. induction l1 as [|a l1 IH]; intros s; [reflexivity|]. cbn [app run]. destruct (exec a s); auto. Qed.

Lemma reachable_trans s0 s1 s2 : reachable s0 s1 -> reachable s1 s2 -> reachable s0 s2.
Proof. intros H. induction 1; eauto using reach_step. Qed.

Lemma run_reachable l s s' : run l s = Some s' -> reachable s s'.
Proof.
  revert s. induction l as [|a l IH]; intros s H; cbn [run] in H.
  - injection H as <-. constructor.
  - destruct (exec a s) as [s1|] eqn:E; [|discriminate].
    eapply reachable_trans; [|apply IH, H]. econstructor; [constructor|exact E].
Qed.

(** Rule induction: an invariant of the initial state that every action
    preserves holds in every reachable state. *)
Lemma reachable_inv (I : S -> Prop) s0 :
  I s0 -> (forall s a s', I s -> exec a s = Some s' -> I s') -> forall s, reachable s0 s -> I s.
Proof. intros H0 Hs s. induction 1; eauto. Qed.
End Run.
