(* ===== verification/ByteCaps.v ===== *)
(** * ByteCaps: per-tag and total output caps (cmd/bpf-ninja/bytecap.go)

    The counters are atomics shared by every shard; a cached [*tagCounter]
    is the map's entry for its tag, since entries are created once and never
    replaced. The map operations run under the mutex, so they are functions
    of the state; [addTag]'s three atomic accesses are also modelled one by
    one, interleaved over any number of goroutines. *)

From Stdlib Require Import ZArith Lia Bool List.
From stdpp Require Import base list numbers option gmap fin_maps.
From S2P Require Import Prelude GoStd GoBytes SetMap Run.
Local Open Scope Z_scope.

Record tagCounter := mkTagCounter { bytes_ : Z; limit : Z; capped : bool }.

Record byteCaps := mkByteCaps { perTag : bool; totalLimit : Z; total : Z; tags : gmap Z tagCounter }.

Definition newByteCaps (perTag : bool) (total : Z) : option byteCaps :=
  if negb perTag && (total =? 0) then None else Some (mkByteCaps perTag total 0 ∅).

Definition freshCounter : tagCounter := mkTagCounter 0 0 false.
Definition set_tags (t : gmap Z tagCounter) (c : byteCaps) : byteCaps := mkByteCaps (perTag c) (totalLimit c) (total c) t.

(** The counter, and the state with it created. *)
Definition counterFor (tag : Z) (c : byteCaps) : tagCounter * byteCaps :=
  match tags c !! tag with
  | Some ctr => (ctr, c)
  | None => (freshCounter, set_tags (<[tag := freshCounter]> (tags c)) c)
  end.

Definition effective_step (limits : gmap Z Z) (i : TagInfo) : gmap Z Z :=
  if ti_Tag i =? 0 then limits
  else
    match limits !! ti_Tag i with
    | None => <[ti_Tag i := ti_MaxBytes i]> limits
    | Some cur =>
        if (cur =? 0) || (ti_MaxBytes i =? 0) then <[ti_Tag i := 0]> limits
        else if cur <? ti_MaxBytes i then <[ti_Tag i := ti_MaxBytes i]> limits
        else limits
    end.

Definition effectiveLimits (infos : list TagInfo) : gmap Z Z := fold_left effective_step infos ∅.

Definition store_limit (c : byteCaps) (tl : Z * Z) : byteCaps :=
  let '(ctr, c) := counterFor tl.1 c in
  set_tags (<[tl.1 := mkTagCounter (bytes_ ctr) tl.2 (capped ctr)]> (tags c)) c.

Definition refreshLimits (infos : list TagInfo) (c : byteCaps) : byteCaps :=
  fold_left store_limit (map_to_list (effectiveLimits infos)) c.

(** [addTag] without interleaving: the counter after, and the result. *)
Definition addTag (ctr : tagCounter) (n : Z) : tagCounter * bool :=
  let t := u64 (bytes_ ctr + n) in
  if (0 <? limit ctr) && (limit ctr <=? t)
  then (mkTagCounter t (limit ctr) true, negb (capped ctr))
  else (mkTagCounter t (limit ctr) (capped ctr), false).

Definition addTotal (n : Z) (c : byteCaps) : byteCaps * bool :=
  let t := u64 (total c + n) in
  (mkByteCaps (perTag c) (totalLimit c) t (tags c), (totalLimit c <=? t) && (0 <? totalLimit c)).

Definition totalReached (c : byteCaps) : bool := (0 <? totalLimit c) && (totalLimit c <=? total c).

(** In the map's iteration order. *)
Definition cappedTags (c : byteCaps) : list Z := map fst (List.filter (fun kv => capped kv.2) (map_to_list (tags c))).

Definition isCapped (tag : Z) (c : byteCaps) : bool :=
  match tags c !! tag with Some ctr => capped ctr | None => false end.

Fixpoint unionTagInfos (sets : list (Set_ * entries * MapCalls)) : result rcerr (list TagInfo) :=
  match sets with
  | [] => Ok []
  | (s, m, K) :: sets =>
      match TagInfos K (s_Def s) m with
      | Err e => Err e
      | Ok l => match unionTagInfos sets with Err e => Err e | Ok r => Ok (l ++ r) end
      end
  end.

Fixpoint active_loop (infos : list TagInfo) (acc : list Z) : list Z :=
  match infos with
  | [] => acc
  | i :: infos =>
      if negb (ti_Tag i =? 0) && (ti_State i =? StateActive) && negb (bool_decide (ti_Tag i ∈ acc))
      then active_loop infos (acc ++ [ti_Tag i])
      else active_loop infos acc
  end.

Definition activeTags (infos : list TagInfo) : list Z := active_loop infos [].

(** ** One counter shared by many goroutines

    Each goroutine is inside one call [addTag ctr n]: [Adding n] before
    [bytes.Add], [Loading t] before [limit.Load], [Swapping] before the
    compare-and-swap, [Returned r] after. The poll loop stores limits. *)

Inductive addPC := Adding (n : Z) | Loading (t : Z) | Swapping | Returned (r : bool).
Inductive addAct := Advance (i : nat) | StoreLimit (l : Z).

Record adders := mkAdders { ctr : tagCounter; pcs : list addPC }.

Definition advance (c : tagCounter) (pc : addPC) : option (tagCounter * addPC) :=
  match pc with
  | Adding n => let t := u64 (bytes_ c + n) in Some (mkTagCounter t (limit c) (capped c), Loading t)
  | Loading t => Some (c, if (0 <? limit c) && (limit c <=? t) then Swapping else Returned false)
  | Swapping => Some (mkTagCounter (bytes_ c) (limit c) true, Returned (negb (capped c)))
  | Returned _ => None
  end.

Definition add_exec (a : addAct) (s : adders) : option adders :=
  match a with
  | StoreLimit l => Some (mkAdders (mkTagCounter (bytes_ (ctr s)) l (capped (ctr s))) (pcs s))
  | Advance i =>
      match pcs s !! i with
      | Some pc => match advance (ctr s) pc with
                   | Some (c, pc') => Some (mkAdders c (<[i := pc']> (pcs s)))
                   | None => None
                   end
      | None => None
      end
  end.

Definition calls (ns : list Z) : adders := mkAdders freshCounter (map Adding ns).
Definition fired (pcs : list addPC) : nat := length (List.filter (fun pc => match pc with Returned true => true | _ => false end) pcs).

(** ** Specifications *)

(** The caps the entries of one tag ask for, and the limit they amount to:
    an uncapped entry lifts the limit, otherwise the largest cap counts. *)
Definition caps_of (tag : Z) (infos : list TagInfo) : list Z :=
  map ti_MaxBytes (List.filter (fun i => ti_Tag i =? tag) infos).

Definition limit_spec (caps : list Z) : option Z :=
  match caps with
  | [] => None
  | _ => Some (if existsb (Z.eqb 0) caps then 0 else fold_right Z.max 0 caps)
  end.

Definition combine_limit (cur : option Z) (cap : Z) : option Z :=
  match cur with
  | None => Some cap
  | Some c => Some (if (c =? 0) || (cap =? 0) then 0 else Z.max c cap)
  end.

Lemma effective_step_lookup limits i tag :
  effective_step limits i !! tag =
  if negb (ti_Tag i =? 0) && (ti_Tag i =? tag) then combine_limit (limits !! tag) (ti_MaxBytes i) else limits !! tag.
Proof.
  unfold effective_step. destruct (Z.eqb_spec (ti_Tag i) 0) as [E|E]; [reflexivity|]. cbn [negb andb].
  destruct (Z.eqb_spec (ti_Tag i) tag) as [<-|Ht].
  - unfold combine_limit. destruct (limits !! ti_Tag i) as [cur|] eqn:El; [|now rewrite lookup_insert_eq].
    destruct ((cur =? 0) || (ti_MaxBytes i =? 0)); [now rewrite lookup_insert_eq|].
    destruct (Z.ltb_spec cur (ti_MaxBytes i)); [rewrite lookup_insert_eq|rewrite El]; f_equal; lia.
  - destruct (limits !! ti_Tag i); repeat case_match; rewrite ?lookup_insert_ne by auto; reflexivity.
Qed.

Lemma fold_max_snoc l z : 0 <= z -> fold_right Z.max 0 (l ++ [z]) = Z.max (fold_right Z.max 0 l) z.
Proof. intros Hz. induction l as [|a l IH]; cbn [app fold_right]; lia. Qed.

Lemma fold_max_pos l : Forall (Z.le 0) l -> existsb (Z.eqb 0) l = false -> l <> [] -> 0 < fold_right Z.max 0 l.
Proof.
  induction 1 as [|a l Ha _ IH]; intros He Hn; [congruence|]. cbn [existsb fold_right] in *. bools. lia.
Qed.

Lemma combine_app caps cap : Forall (Z.le 0) caps -> 0 <= cap ->
  combine_limit (limit_spec caps) cap = limit_spec (caps ++ [cap]).
Proof.
  intros Hc Hp. destruct (decide (caps = [])) as [->|Hn].
  { unfold combine_limit, limit_spec. cbn [app existsb fold_right]. destruct (Z.eqb_spec 0 cap); cbn [orb]; f_equal; lia. }
  pose proof (fold_max_pos _ Hc) as Hpos.
  replace (limit_spec (caps ++ [cap])) with
    (Some (if existsb (Z.eqb 0) (caps ++ [cap]) then 0 else fold_right Z.max 0 (caps ++ [cap]))) by (destruct caps; reflexivity).
  rewrite existsb_app, fold_max_snoc by exact Hp. cbn [existsb]. rewrite orb_false_r, (Z.eqb_sym 0 cap).
  replace (limit_spec caps) with (Some (if existsb (Z.eqb 0) caps then 0 else fold_right Z.max 0 caps)) by (destruct caps; [congruence|reflexivity]).
  unfold combine_limit. f_equal. destruct (existsb (Z.eqb 0) caps); [reflexivity|]. specialize (Hpos eq_refl Hn).
  destruct (Z.eqb_spec (fold_right Z.max 0 caps) 0); [lia|]. reflexivity.
Qed.

Lemma effectiveLimits_spec infos tag : Forall (fun i => 0 <= ti_MaxBytes i) infos ->
  effectiveLimits infos !! tag = if tag =? 0 then None else limit_spec (caps_of tag infos).
Proof.
  intros H. unfold effectiveLimits. induction infos as [|i infos IH] using rev_ind.
  { cbn. rewrite lookup_empty. now destruct (tag =? 0). }
  apply Forall_app in H as [H Hi]. pose proof (List.Forall_inv Hi) as Hi0. cbn in Hi0. specialize (IH H).
  rewrite fold_left_app. cbn [fold_left]. rewrite effective_step_lookup, IH. unfold caps_of. rewrite List.filter_app, map_app. cbn [List.filter].
  destruct (Z.eqb_spec (ti_Tag i) tag) as [->|Ht]; [|rewrite andb_false_r; cbn [map]; now rewrite app_nil_r].
  destruct (tag =? 0); [reflexivity|]. cbn [negb andb map]. apply combine_app; [|exact Hi0].
  apply List.Forall_forall. intros x Hx. apply in_map_iff in Hx as (j & <- & Hj). apply filter_In in Hj as [Hj _].
  now apply (proj1 (List.Forall_forall _ _) H).
Qed.

Lemma limit_spec_perm l l' : Permutation l l' -> limit_spec l = limit_spec l'.
Proof.
  intros H. unfold limit_spec. destruct l as [|a l].
  { now apply Permutation_nil in H as ->. }
  destruct l' as [|b l']; [symmetry in H; now apply Permutation_nil in H|]. f_equal.
  replace (existsb (Z.eqb 0) (b :: l')) with (existsb (Z.eqb 0) (a :: l)).
  - destruct (existsb _ _); [reflexivity|]. clear -H. induction H; cbn [fold_right]; lia.
  - apply eq_true_iff_eq. rewrite !existsb_exists. split; intros (x & Hx & E); exists x; split; auto.
    + eapply Permutation_in; eauto.
    + eapply Permutation_in; [symmetry|]; eauto.
Qed.

Lemma caps_of_perm tag infos infos' : Permutation infos infos' -> Permutation (caps_of tag infos) (caps_of tag infos').
Proof.
  intros H. apply Permutation_map. induction H; cbn [List.filter]; auto.
  - destruct (ti_Tag x =? tag); auto.
  - destruct (ti_Tag x =? tag), (ti_Tag y =? tag); auto. constructor.
  - etransitivity; eauto.
Qed.

(** Entries that share a tag reduce to one limit that does not depend on
    the map's iteration order: no limit for tag 0 or a tag without entries,
    0 (uncapped) as soon as one entry is uncapped, and otherwise the largest
    of the entries' caps. *)
Theorem effectiveLimits_exact infos :
  Forall (fun i => 0 <= ti_MaxBytes i) infos ->
  (forall tag, effectiveLimits infos !! tag = if tag =? 0 then None else limit_spec (caps_of tag infos)) /\
  (forall infos', Permutation infos infos' -> effectiveLimits infos' = effectiveLimits infos).
Proof.
  intros H. split; [intros tag; now apply effectiveLimits_spec|]. intros infos' Hp. apply map_eq. intros tag.
  assert (H' : Forall (fun i => 0 <= ti_MaxBytes i) infos').
  { apply List.Forall_forall. intros x Hx. apply (proj1 (List.Forall_forall _ _) H). eapply Permutation_in; [symmetry|]; eauto. }
  rewrite !effectiveLimits_spec by assumption. destruct (tag =? 0); [reflexivity|].
  apply limit_spec_perm, caps_of_perm. now symmetry.
Qed.

Lemma effectiveLimits_exact_witness :
  effectiveLimits [mkTagInfo 7 0 100; mkTagInfo 0 0 9; mkTagInfo 7 1 300; mkTagInfo 8 0 5] !! 7 = Some 300.
Proof.
  destruct (effectiveLimits_exact [mkTagInfo 7 0 100; mkTagInfo 0 0 9; mkTagInfo 7 1 300; mkTagInfo 8 0 5]) as [H _].
  - repeat (constructor; [cbn; lia|]). constructor.
  - rewrite H. vm_compute. reflexivity.
Defined.

(** ** addTag, interleaved *)

(** Bytes the calls still have to add. *)
Definition pending (pc : addPC) : Z := match pc with Adding n => n | _ => 0 end.
Definition sum (l : list Z) : Z := fold_right Z.add 0 l.

Lemma sum_update f (l : list addPC) i pc pc' :
  l !! i = Some pc -> sum (map f (<[i := pc']> l)) = sum (map f l) - f pc + f pc'.
Proof.
  unfold sum. revert i. induction l as [|a l IH]; intros [|i] H; try discriminate.
  - injection H as ->. cbn. lia.
  - specialize (IH _ H). change (<[S i := pc']> (a :: l)) with (a :: <[i := pc']> l). cbn [map fold_right]. lia.
Qed.

Lemma fired_update l i pc pc' : l !! i = Some pc -> pc <> Returned true ->
  fired (<[i := pc']> l) = (fired l + match pc' with Returned true => 1 | _ => 0 end)%nat.
Proof.
  unfold fired. revert i. induction l as [|a l IH]; intros [|i] H Hne; try discriminate.
  - injection H as ->. destruct pc as [| | |[]]; try congruence; destruct pc' as [| | |[]]; cbn; lia.
  - specialize (IH _ H Hne). change (<[S i := pc']> (a :: l)) with (a :: <[i := pc']> l).
    cbn [List.filter]. destruct a as [| | |[]]; cbn [length]; lia.
Qed.

(** The latch: a call has returned [true] exactly when [capped] is set. *)
Definition latch (s : adders) : Prop := fired (pcs s) = if capped (ctr s) then 1%nat else 0%nat.

Lemma advance_fires c pc c' pc' :
  advance c pc = Some (c', pc') ->
  pc <> Returned true /\
  ((if capped c then 1 else 0) + match pc' with Returned true => 1 | _ => 0 end)%nat = if capped c' then 1%nat else 0%nat.
Proof.
  intros H. destruct pc; cbn in H; try discriminate; injection H as <- <-; (split; [discriminate|]); cbn.
  - lia.
  - destruct (_ && _); lia.
  - destruct (capped c); reflexivity.
Qed.

Lemma add_exec_latch s a s' : latch s -> add_exec a s = Some s' -> latch s'.
Proof.
  unfold latch. intros Hl H. destruct a as [i|l]; cbn in H; [|injection H as <-; exact Hl].
  destruct (pcs s !! i) as [pc|] eqn:Hi; [|discriminate]. destruct (advance (ctr s) pc) as [[c pc']|] eqn:Ha; [|discriminate].
  injection H as <-. cbn [ctr pcs]. apply advance_fires in Ha as [Hne Hf]. rewrite (fired_update _ _ _ _ Hi Hne), Hl. exact Hf.
Qed.

(** With the limit fixed at [L], a reached limit is never missed. *)
Record watched (L B : Z) (s : adders) : Prop := {
  w_limit : limit (ctr s) = L;
  w_sum : bytes_ (ctr s) + sum (map pending (pcs s)) = B;
  w_pending : Forall (fun pc => 0 <= pending pc) (pcs s);
  w_bytes : 0 <= bytes_ (ctr s);
  w_loaded : forall i t, pcs s !! i = Some (Loading t) -> t <= bytes_ (ctr s);
  w_swapping : forall i, pcs s !! i = Some Swapping -> 0 < L <= bytes_ (ctr s);
  w_capped : capped (ctr s) = true -> 0 < L <= bytes_ (ctr s);
  w_seen : 0 < L <= bytes_ (ctr s) -> capped (ctr s) = true \/
           exists i, pcs s !! i = Some Swapping \/ exists t, pcs s !! i = Some (Loading t) /\ L <= t
}.

Lemma sum_nonneg l : Forall (Z.le 0) l -> 0 <= sum l.
Proof. unfold sum. induction 1; cbn [fold_right]; lia. Qed.

Lemma pending_nonneg l : Forall (fun pc => 0 <= pending pc) l -> 0 <= sum (map pending l).
Proof. intros H. apply sum_nonneg. induction H; cbn; auto. Qed.

Lemma pending_pick (l : list addPC) i pc : l !! i = Some pc -> Forall (fun pc => 0 <= pending pc) l -> pending pc <= sum (map pending l).
Proof.
  revert i. induction l as [|a l IH]; intros [|i] H Hf; try discriminate; inversion Hf as [|? ? Ha Hl]; subst; cbn [map]; pose proof (pending_nonneg _ Hl); unfold sum in *; cbn [fold_right].
  - injection H as ->. lia.
  - specialize (IH _ H Hl). lia.
Qed.

Lemma calls_watched L ns : Forall (Z.le 0) ns -> watched L (sum ns) (mkAdders (mkTagCounter 0 L false) (map Adding ns)).
Proof.
  intros H. assert (Hp : map pending (map Adding ns) = ns) by (clear; induction ns; cbn; congruence).
  constructor; cbn [ctr pcs bytes_ limit capped]; try lia; try discriminate.
  - now rewrite Hp.
  - clear Hp. induction H; cbn; constructor; auto.
  - intros i t Hi. rewrite list_lookup_fmap in Hi. destruct (ns !! i); discriminate.
  - intros i Hi. rewrite list_lookup_fmap in Hi. destruct (ns !! i); discriminate.
Qed.

Lemma watched_step L B s i s' : B < two64 -> watched L B s -> add_exec (Advance i) s = Some s' -> watched L B s'.
Proof.
  intros HB W H. cbn in H. destruct (pcs s !! i) as [pc|] eqn:Hi; [|discriminate].
  destruct (advance (ctr s) pc) as [[c pc']|] eqn:Ha; [|discriminate]. injection H as <-.
  destruct W as [Wl Ws Wp Wb Wld Wsw Wc Wse]. pose proof (sum_update pending _ _ _ pc' Hi) as Hsum.
  pose proof (lookup_lt_Some _ _ _ Hi) as Hlt. pose proof (pending_pick _ _ _ Hi Wp) as Hpick.
  assert (Hpos : 0 <= pending pc) by (rewrite Forall_lookup in Wp; eauto).
  assert (Hfresh : forall j q, <[i := pc']> (pcs s) !! j = Some q -> j = i /\ q = pc' \/ j <> i /\ pcs s !! j = Some q).
  { intros j q Hj. destruct (decide (j = i)) as [->|Hne].
    - rewrite list_lookup_insert_eq in Hj by exact Hlt. injection Hj as <-. auto.
    - rewrite list_lookup_insert_ne in Hj by auto. auto. }
  assert (Hkeep : forall j q, pcs s !! j = Some q -> j <> i -> <[i := pc']> (pcs s) !! j = Some q).
  { intros j q Hj Hne. now rewrite list_lookup_insert_ne by auto. }
  assert (Hat : <[i := pc']> (pcs s) !! i = Some pc') by now apply list_lookup_insert_eq.
  assert (Hwp : 0 <= pending pc' -> Forall (fun pc => 0 <= pending pc) (<[i := pc']> (pcs s))) by (intros; now apply Forall_insert).
  destruct pc as [n|t| |r]; cbn in Ha; try discriminate; injection Ha as <- <-; cbn [pending] in *.
  - assert (Hu : u64 (bytes_ (ctr s) + n) = bytes_ (ctr s) + n) by (apply u64_small; unfold in_u64; lia).
    rewrite Hu in *. constructor; cbn [ctr pcs bytes_ limit capped].
    + exact Wl.
    + lia.
    + apply Hwp. cbn. lia.
    + lia.
    + intros j t Hj. apply Hfresh in Hj as [[_ [= ->]]|[Hne Hj]]; [lia|]. apply Wld in Hj. lia.
    + intros j Hj. apply Hfresh in Hj as [[_ [=]]|[Hne Hj]]. apply Wsw in Hj. lia.
    + intros Hc. apply Wc in Hc. lia.
    + intros HL. right. exists i. right. eexists. split; [exact Hat|lia].
  - constructor; cbn [ctr pcs bytes_ limit capped].
    + exact Wl.
    + rewrite Hsum. destruct (_ && _); cbn; lia.
    + apply Hwp. destruct (_ && _); cbn; lia.
    + exact Wb.
    + intros j t' Hj. apply Hfresh in Hj as [[_ Hj]|[Hne Hj]]; [destruct (_ && _); discriminate|]. eauto.
    + intros j Hj. apply Hfresh in Hj as [[_ Hj]|[Hne Hj]]; [|eauto].
      destruct (_ && _) eqn:E; [|discriminate]. bools. apply Wld in Hi. lia.
    + exact Wc.
    + intros HL. destruct (Wse HL) as [Hc|(j & Hj)]; [auto|]. right. destruct (decide (j = i)) as [->|Hne].
      * exists i. rewrite Hi in Hj. destruct Hj as [Hj|(t' & [= ->] & Ht)]; [discriminate|].
        left. rewrite Hat, Wl. destruct (Z.ltb_spec 0 L), (Z.leb_spec L t'); try lia. reflexivity.
      * exists j. destruct Hj as [Hj|(t' & Hj & Ht)]; [left; auto|right; eauto].
  - pose proof (Wsw _ Hi) as HL. constructor; cbn [ctr pcs bytes_ limit capped].
    + exact Wl.
    + lia.
    + apply Hwp. cbn. lia.
    + exact Wb.
    + intros j t' Hj. apply Hfresh in Hj as [[_ [=]]|[Hne Hj]]. eauto.
    + intros j Hj. apply Hfresh in Hj as [[_ [=]]|[Hne Hj]]. eauto.
    + intros _. exact HL.
    + intros _. auto.
Qed.

(** A tag is capped exactly once. However the calls of [addTag] for one
    tag interleave, and whatever limits are stored meanwhile, exactly one
    call has returned true once the tag is capped and none before. If the
    limit stays fixed, then when all calls have returned the tag is capped
    exactly if a limit is set and the bytes of all calls reach it. *)
Theorem addTag_once L ns :
  Forall (Z.le 0) ns -> sum ns < two64 ->
  (forall s, reachable add_exec (calls ns) s -> fired (pcs s) = if capped (ctr s) then 1%nat else 0%nat) /\
  (forall s, reachable (fun i => add_exec (Advance i)) (mkAdders (mkTagCounter 0 L false) (map Adding ns)) s ->
     Forall (fun pc => exists r, pc = Returned r) (pcs s) ->
     bytes_ (ctr s) = sum ns /\ capped (ctr s) = (0 <? L) && (L <=? sum ns)).
Proof.
  intros Hn HB. split.
  - apply (reachable_inv add_exec latch); [|intros; eapply add_exec_latch; eauto].
    unfold latch, fired. cbn. clear. induction ns; cbn; auto.
  - intros s Hr Hall.
    assert (W : watched L (sum ns) s).
    { revert s Hr Hall. intros s Hr _. revert s Hr. apply reachable_inv; [now apply calls_watched|]. intros. eapply watched_step; eauto. }
    destruct W as [Wl Ws Wp Wb Wld Wsw Wc Wse].
    assert (H0 : sum (map pending (pcs s)) = 0).
    { clear -Hall. induction Hall as [|pc l [r ->] _ IH]; cbn; [reflexivity|]. unfold sum in *. lia. }
    split; [lia|]. rewrite Forall_lookup in Hall. replace (sum ns) with (bytes_ (ctr s)) by lia.
    destruct (capped (ctr s)) eqn:Ec.
    + specialize (Wc eq_refl). symmetry. apply andb_true_iff. rewrite Z.ltb_lt, Z.leb_le. lia.
    + symmetry. apply andb_false_iff. rewrite Z.ltb_ge, Z.leb_gt. destruct (Z.le_gt_cases L 0); [auto|]. right.
      apply Z.nle_gt. intros Hle. destruct (Wse ltac:(lia)) as [?|(i & [Hi|(t & Hi & _)])]; [discriminate| |];
        destruct (Hall _ _ Hi) as [r Hr']; discriminate.
Qed.

(** Two calls of 60 bytes against a limit of 100: whichever swaps first
    reports the cap. *)
Lemma addTag_once_witness :
  exists s, run add_exec [StoreLimit 100; Advance 0; Advance 1; Advance 0; Advance 1; Advance 1] (calls [60; 60]) = Some s /\
            fired (pcs s) = 1%nat.
Proof.
  eexists. split; [vm_compute; reflexivity|].
  refine (proj1 (addTag_once 100 [60; 60] _ _) _ _).
  - repeat (constructor; [lia|]). constructor.
  - reflexivity.
  - apply (run_reachable add_exec [StoreLimit 100; Advance 0; Advance 1; Advance 0; Advance 1; Advance 1]). vm_compute. reflexivity.
Defined.
