(* ===== verification/Accounting.v ===== *)
(** * Accounting: the packet budget and the final report
    (cmd/bpf-ninja/accounting.go)

    [claimPackets] is a compare-and-swap loop that every shard runs on the
    shared counter of [-c]; its atomic accesses are modelled one by one.
    [captureReport] is the line a capture ends with. *)

From Stdlib Require Import ZArith Lia Bool Ascii String List.
From stdpp Require Import base list numbers option.
From S2P Require Import Prelude GoStd GoBytes Run.
Local Open Scope Z_scope.


Definition claimable (limit old wanted : Z) : Z := Z.min wanted (Z.max 0 (i64 (limit - old))).

Inductive claimPC := Claiming (wanted : Z) | Loaded (wanted old : Z) | Claimed (n : Z).

Record claims := mkClaims { used : Z; shards : list claimPC }.

Definition claim_step (limit used : Z) (pc : claimPC) : option (Z * claimPC) :=
  match pc with
  | Claiming wanted => Some (used, Loaded wanted used)
  | Loaded wanted old =>
      let n := claimable limit old wanted in
      if n =? 0 then Some (used, Claimed n)
      else if used =? old then Some (i64 (old + n), Claimed n)
      else Some (used, Claiming wanted)
  | Claimed _ => None
  end.

(** Shard [i] performs its next atomic access. *)
Definition claim_exec (limit : Z) (i : nat) (s : claims) : option claims :=
  match shards s !! i with
  | Some pc => match claim_step limit (used s) pc with
               | Some (u, pc') => Some (mkClaims u (<[i := pc']> (shards s)))
               | None => None
               end
  | None => None
  end.

(** [program.ExportStats]. *)
Record ExportStats := mkExportStats {
  Submitted : Z; ReserveFail : Z; LookupMiss : Z; CopyFail : Z;
  HoldOverwrite : Z; HoldUnpaired : Z; HoldOverflow : Z; HoldResync : Z
}.

(** The counters of [captureControl] the report reads, and the reader's
    statistics ([None] when the reader did not start). *)
Record SessionStats := mkSessionStats { Consumed : Z; Malformed : Z; DrainedAtStop : Z; AffinityFailures : Z }.
Record captureControl := mkCaptureControl { written : Z; limited : Z; nullRecords : Z; stats : option SessionStats }.

Definition unconfirmed_of (c : captureControl) (st : SessionStats) : Z :=
  let settled := u64 (u64 (u64 (written c + limited c) + nullRecords c) + Malformed st) in
  if settled <? Consumed st then u64 (Consumed st - written c - limited c - nullRecords c - Malformed st) else 0.

Definition report_status (k : ExportStats) (statsErr errorResult : bool) (c : captureControl) (st : SessionStats) : bytes :=
  let settled := u64 (u64 (u64 (written c + limited c) + nullRecords c) + Malformed st) in
  let status := B "complete" in
  let status := if 0 <? limited c then B "limited" else status in
  let status := if 0 <? nullRecords c then B "discarded" else status in
  if statsErr || errorResult || (0 <? Malformed st) || (0 <? unconfirmed_of c st) || (Consumed st <? settled)
     || (0 <? u64 (ReserveFail k + LookupMiss k + CopyFail k + HoldOverwrite k + HoldUnpaired k + HoldOverflow k + HoldResync k))
     || negb (Submitted k =? Consumed st)
  then B "incomplete" else status.

Definition num (z : Z) : bytes := AppendUint [] z.

Definition producer (k : ExportStats) (statsErr : bool) : bytes :=
  if statsErr then
    B "selected=unknown exported=unknown ringbuf_reserve_fail=unknown lookup_miss=unknown copy_fail=unknown hold_overwrite=unknown hold_unpaired=unknown hold_depth_overflow=unknown hold_depth_resync=unknown"
  else
    B "selected=" ++ num (u64 (Submitted k + ReserveFail k + LookupMiss k + CopyFail k)) ++
    B " exported=" ++ num (Submitted k) ++ B " ringbuf_reserve_fail=" ++ num (ReserveFail k) ++
    B " lookup_miss=" ++ num (LookupMiss k) ++ B " copy_fail=" ++ num (CopyFail k) ++
    B " hold_overwrite=" ++ num (HoldOverwrite k) ++ B " hold_unpaired=" ++ num (HoldUnpaired k) ++
    B " hold_depth_overflow=" ++ num (HoldOverflow k) ++ B " hold_depth_resync=" ++ num (HoldResync k).

Definition captureReport (k : ExportStats) (statsErr errorResult : bool) (c : captureControl) : bytes :=
  match stats c with
  | None => B "capture status=incomplete transport=unavailable (reader did not start)"
  | Some st =>
      B "capture status=" ++ report_status k statsErr errorResult c st ++ B " " ++ producer k statsErr ++
      B " consumed=" ++ num (Consumed st) ++ B " written=" ++ num (written c) ++
      B " intentional_limit=" ++ num (limited c) ++ B " null_discard=" ++ num (nullRecords c) ++
      B " malformed=" ++ num (Malformed st) ++ B " persistence_unconfirmed=" ++ num (unconfirmed_of c st) ++
      B " drained_at_stop=" ++ num (DrainedAtStop st) ++ B " affinity_failures=" ++ num (AffinityFailures st) ++
      B " filtered_or_parse_rejected=unmeasured"
  end.

(** ** The packet budget *)

Definition zsum (l : list Z) : Z := fold_right Z.add 0 l.

Definition granted (pc : claimPC) : Z := match pc with Claimed n => n | _ => 0 end.
Definition returned (pc : claimPC) : bool := match pc with Claimed _ => true | _ => false end.

Lemma zsum_update {P} (f : P -> Z) (l : list P) i pc pc' :
  l !! i = Some pc -> zsum (map f (<[i := pc']> l)) = zsum (map f l) - f pc + f pc'.
Proof.
  unfold zsum. revert i. induction l as [|a l IH]; intros [|i] H; try discriminate.
  - injection H as ->. cbn. lia.
  - specialize (IH _ H). change (<[S i := pc']> (a :: l)) with (a :: <[i := pc']> l). cbn [map fold_right]. lia.
Qed.

Lemma zsum_le {P} (f g : P -> Z) (l : list P) : (forall x, x ∈ l -> f x <= g x) -> zsum (map f l) <= zsum (map g l).
Proof.
  unfold zsum. induction l as [|a l IH]; intros H; cbn [map fold_right]; [lia|].
  pose proof (H a ltac:(now left)). assert (forall x, x ∈ l -> f x <= g x) by (intros; apply H; now right). specialize (IH H1). lia.
Qed.

(** What is known of a shard that asked for [w] packets. *)
Definition claim_ok (limit used w : Z) (pc : claimPC) : Prop :=
  match pc with
  | Claiming v => v = w
  | Loaded v old => v = w /\ 0 <= old <= used
  | Claimed n => 0 <= n <= w /\ (n = w \/ used = limit)
  end.

Record budget (limit : Z) (ws : list Z) (s : claims) : Prop := {
  b_used : 0 <= used s <= limit;
  b_sum : zsum (map granted (shards s)) = used s;
  b_ok : Forall2 (claim_ok limit (used s)) ws (shards s)
}.


Lemma claim_ok_grow limit used used' w pc :
  used <= used' <= limit -> claim_ok limit used w pc -> claim_ok limit used' w pc.
Proof. destruct pc; cbn; intuition lia. Qed.

Section Claim.
Context (limit : Z) (Hlimit : 0 <= limit < two63).

Lemma claim_step_ok w u pc u' pc' :
  0 <= w -> 0 <= u <= limit -> claim_ok limit u w pc -> claim_step limit u pc = Some (u', pc') ->
  u <= u' <= limit /\ claim_ok limit u' w pc' /\ u' = u - granted pc + granted pc'.
Proof.
  intros Hw Hu Hok H. destruct pc as [v|v old|n]; cbn in H; [| |discriminate].
  - injection H as <- <-. cbn in *. lia.
  - destruct Hok as [-> Hold]. unfold claimable in H.
    rewrite (i64_small (limit - old)) in H by (unfold two63 in *; lia).
    case_if H; [|case_if H]; injection H as <- <-; bools.
    + rewrite E. cbn. repeat split; lia.
    + rewrite i64_small by (unfold two63 in *; lia). cbn. subst old. repeat split; try lia.
    + cbn. lia.
Qed.

Lemma budget_step ws s i s' : Forall (Z.le 0) ws -> budget limit ws s -> claim_exec limit i s = Some s' -> budget limit ws s'.
Proof.
  intros Hws [Hu Hs Hok] H. unfold claim_exec in H. destruct (shards s !! i) as [pc|] eqn:Hi; [|discriminate].
  destruct (claim_step limit (used s) pc) as [[u pc']|] eqn:Hst; [|discriminate]. injection H as <-.
  destruct (Forall2_lookup_r _ _ _ _ _ Hok Hi) as (w & Hw & Hc).
  assert (Hw0 : 0 <= w) by (rewrite Forall_lookup in Hws; eauto).
  destruct (claim_step_ok _ _ _ _ _ Hw0 Hu Hc Hst) as (Hle & Hc' & Hu'). constructor; cbn [used shards].
  - lia.
  - rewrite (zsum_update _ _ _ _ _ Hi). lia.
  - assert (Hg : Forall2 (claim_ok limit u) ws (shards s)) by (eapply List.Forall2_impl; [intros; eapply claim_ok_grow; eauto|exact Hok]).
    rewrite <- (list_insert_id ws i w Hw). now apply Forall2_insert.
Qed.

Lemma budget_init ws : Forall (Z.le 0) ws -> budget limit ws (mkClaims 0 (map Claiming ws)).
Proof.
  intros H. constructor; cbn [used shards]; [lia| |].
  - clear H. unfold zsum. induction ws; cbn in *; [reflexivity|]. rewrite IHws. reflexivity.
  - clear H. induction ws; constructor; cbn; auto.
Qed.

Lemma zsum_min ws pcs u :
  Forall2 (claim_ok limit u) ws pcs -> forallb returned pcs = true -> zsum (map granted pcs) = u -> u <= limit -> Forall (Z.le 0) ws ->
  u = Z.min limit (zsum ws).
Proof.
  intros H2 Hr Hs Hu Hw. assert (Hle : zsum (map granted pcs) <= zsum ws /\ (u = limit \/ zsum (map granted pcs) = zsum ws)).
  { clear Hs. unfold zsum. induction H2 as [|w pc ws pcs Hok _ IH]; cbn [map fold_right]; [lia|].
    cbn [forallb] in Hr. apply andb_true_iff in Hr as [Hp Hr]. inversion Hw; subst. destruct (IH Hr ltac:(assumption)) as [I1 I2].
    destruct pc; try discriminate. cbn in Hok |- *. lia. }
  lia.
Qed.

(** Steps a shard still needs while the counter does not move: a claim that
    has read an old value must read again. *)
Definition cost (u : Z) (pc : claimPC) : nat :=
  match pc with Claiming _ => 2 | Loaded _ old => if u =? old then 1 else 3 | Claimed _ => 0 end.
Definition nsum (l : list nat) : nat := fold_right Nat.add 0%nat l.
Definition open (pcs : list claimPC) : nat := length (List.filter (fun pc => negb (returned pc)) pcs).
Definition measure (s : claims) : nat := (2 * open (shards s) * open (shards s) + nsum (map (cost (used s)) (shards s)))%nat.

Lemma nsum_update (f : claimPC -> nat) l i pc pc' :
  l !! i = Some pc -> (nsum (map f (<[i := pc']> l)) + f pc = nsum (map f l) + f pc')%nat.
Proof.
  unfold nsum. revert i. induction l as [|a l IH]; intros [|i] H; try discriminate.
  - injection H as ->. cbn. lia.
  - specialize (IH _ H). change (<[S i := pc']> (a :: l)) with (a :: <[i := pc']> l). cbn [map fold_right]. lia.
Qed.

Lemma open_update l i pc pc' :
  l !! i = Some pc -> (open (<[i := pc']> l) + (if returned pc then 0 else 1) = open l + (if returned pc' then 0 else 1))%nat.
Proof.
  unfold open. revert i. induction l as [|a l IH]; intros [|i] H; try discriminate.
  - injection H as ->. change (<[0%nat := pc']> (pc :: l)) with (pc' :: l). cbn [List.filter].
    destruct (returned pc), (returned pc'); cbn [negb length]; lia.
  - specialize (IH _ H). change (<[S i := pc']> (a :: l)) with (a :: <[i := pc']> l). cbn [List.filter].
    destruct (returned a); cbn [negb length]; lia.
Qed.

Lemma cost_move u u' l : (nsum (map (cost u') l) <= nsum (map (cost u) l) + 2 * open l)%nat.
Proof.
  unfold nsum, open. induction l as [|a l IH]; cbn [map fold_right List.filter]; [lia|].
  destruct a as [w|w old|n]; cbn [returned negb length cost]; try lia. destruct (u =? old), (u' =? old); lia.
Qed.

Lemma claim_measure i s s' : claim_exec limit i s = Some s' -> (measure s' < measure s)%nat.
Proof.
  unfold claim_exec. intros H. destruct (shards s !! i) as [pc|] eqn:Hi; [|discriminate].
  destruct (claim_step limit (used s) pc) as [[u pc']|] eqn:Hst; [|discriminate]. injection H as <-.
  unfold measure. cbn [used shards]. pose proof (nsum_update (cost u) _ _ _ pc' Hi) as Hn.
  pose proof (open_update _ _ _ pc' Hi) as Ho.
  destruct pc as [w|w old|n]; cbn in Hst; [| |discriminate]; [|case_if Hst; [|case_if Hst]]; injection Hst as <- <-; cbn [cost returned] in *.
  - rewrite Z.eqb_refl in Hn. replace (open (<[i:=Loaded w (used s)]> (shards s))) with (open (shards s)) by lia. lia.
  - assert (Hlt : (open (<[i:=Claimed (claimable limit old w)]> (shards s)) <= open (shards s))%nat) by lia.
    destruct (used s =? old); nia.
  - pose proof (cost_move (used s) (i64 (old + claimable limit old w)) (shards s)) as Hm.
    bools. subst old. destruct (i64 (used s + claimable limit (used s) w) =? used s) eqn:E2; bools.
    + rewrite E2 in *. nia.
    + nia.
  - rewrite E0 in Hn. replace (open (<[i:=Claiming w]> (shards s))) with (open (shards s)) by lia. lia.
Qed.
End Claim.

Lemma claim_run_bound limit : 0 <= limit < two63 -> forall l s s', run (claim_exec limit) l s = Some s' -> (length l + measure s' <= measure s)%nat.
Proof.
  intros Hl. induction l as [|i l IH]; intros s s' H; cbn [run] in H; [injection H as <-; cbn; lia|].
  destruct (claim_exec limit i s) as [s1|] eqn:E; [|discriminate]. apply claim_measure in E; [|exact Hl]. apply IH in H. cbn [length]. lia.
Qed.

(** Concurrent shards share the [-c] budget exactly. At every point of
    every interleaving the counter is the number of packets granted so far,
    never above the limit and never more to a shard than it asked for; when
    all calls have returned, exactly min(limit, requested) packets were
    granted. *)
Theorem claimPackets_exact limit ws s :
  0 <= limit < two63 -> Forall (Z.le 0) ws -> reachable (claim_exec limit) (mkClaims 0 (map Claiming ws)) s ->
  zsum (map granted (shards s)) = used s /\ used s <= limit /\
  Forall2 (fun w pc => 0 <= granted pc <= w) ws (shards s) /\
  (forallb returned (shards s) = true -> used s = Z.min limit (zsum ws)).
Proof.
  intros Hl Hw Hr. assert (B : budget limit ws s).
  { revert s Hr. apply reachable_inv; [now apply budget_init|]. intros. eapply budget_step; eauto. }
  destruct B as [Hu Hs Hok]. splits; auto; [lia| |].
  - clear -Hok Hw. induction Hok as [|w pc ws pcs H _ IH]; inversion Hw; subst; constructor; auto. destruct pc; cbn in *; lia.
  - intros Hall. eapply zsum_min; eauto. lia.
Qed.

(** C31: the compare-and-swap loop always ends. Every interleaving of [k]
    calls takes at most 2k(k+1) atomic accesses, since a swap fails only
    because another succeeded; and as long as a call has not returned some
    access is enabled, so running on always gets every call to return. *)
Theorem claimPackets_ends limit ws l s :
  0 <= limit < two63 -> run (claim_exec limit) l (mkClaims 0 (map Claiming ws)) = Some s ->
  (length l <= 2 * length ws * (length ws + 1))%nat /\
  (forallb returned (shards s) = true \/ exists i s', claim_exec limit i s = Some s').
Proof.
  intros Hl H. split.
  - apply claim_run_bound in H; [|exact Hl]. unfold measure at 2 in H. cbn [used shards] in H.
    assert (Hc : open (map Claiming ws) = length ws /\ nsum (map (cost 0) (map Claiming ws)) = (2 * length ws)%nat).
    { clear. unfold open, nsum. induction ws as [|w ws [IH1 IH2]]; [auto|]. cbn [map List.filter returned negb length fold_right cost] in *. lia. }
    destruct Hc as [Ho Hc]. rewrite Ho, Hc in H. nia.
  - destruct (forallb returned (shards s)) eqn:E; [auto|]. right.
    assert (Hx : exists i pc, shards s !! i = Some pc /\ returned pc = false).
    { clear H. revert E. generalize (shards s). induction l0 as [|pc l0 IH]; cbn [forallb]; [discriminate|]. intros E.
      destruct (returned pc) eqn:Ep; [destruct (IH E) as (i & pc' & Hi & Hn); now exists (S i), pc'|now exists 0%nat, pc]. }
    destruct Hx as (i & pc & Hi & Hn). exists i. unfold claim_exec. rewrite Hi.
    destruct pc; [| |discriminate]; cbn [claim_step]; repeat case_goal; eauto.
Qed.

(** Three shards want 5 packets each of a budget of 7; the second loses a
    race and claims again. *)
Lemma claimPackets_exact_witness :
  exists s, run (claim_exec 7) [0; 1; 0; 1; 1; 1; 2; 2]%nat (mkClaims 0 (map Claiming [5; 5; 5])) = Some s /\ used s = 7.
Proof.
  eexists. split; [vm_compute; reflexivity|].
  refine (proj2 (proj2 (proj2 (claimPackets_exact 7 [5; 5; 5] _ _ _ _))) _).
  - vm_compute. intuition congruence.
  - repeat (constructor; [lia|]). constructor.
  - apply (run_reachable (claim_exec 7) [0; 1; 0; 1; 1; 1; 2; 2]%nat). vm_compute. reflexivity.
  - vm_compute. reflexivity.
Defined.

Lemma claimPackets_ends_witness : (length [0; 1; 0; 1; 1; 1; 2; 2]%nat <= 24)%nat.
Proof.
  assert (H : exists s, run (claim_exec 7) [0; 1; 0; 1; 1; 1; 2; 2]%nat (mkClaims 0 (map Claiming [5; 5; 5])) = Some s) by (eexists; vm_compute; reflexivity).
  destruct H as [s H]. refine (proj1 (claimPackets_ends 7 [5; 5; 5] _ s _ H)). vm_compute. intuition congruence.
Defined.

(** ** The report *)

(** Nothing was lost between the kernel's decision to export and the file. *)
Definition lossless (k : ExportStats) (c : captureControl) (st : SessionStats) : Prop :=
  Submitted k = Consumed st /\ Consumed st = written c /\
  limited c = 0 /\ nullRecords c = 0 /\ Malformed st = 0 /\
  ReserveFail k = 0 /\ LookupMiss k = 0 /\ CopyFail k = 0 /\
  HoldOverwrite k = 0 /\ HoldUnpaired k = 0 /\ HoldOverflow k = 0 /\ HoldResync k = 0.

Definition losses (k : ExportStats) : list Z :=
  [ReserveFail k; LookupMiss k; CopyFail k; HoldOverwrite k; HoldUnpaired k; HoldOverflow k; HoldResync k].

(** Counters in range, and far from overflowing together. *)
Definition counters_ok (k : ExportStats) (c : captureControl) (st : SessionStats) : Prop :=
  Forall (Z.le 0) (losses k) /\ zsum (losses k) < two64 /\
  Forall (Z.le 0) [written c; limited c; nullRecords c; Malformed st] /\
  written c + limited c + nullRecords c + Malformed st < two64 /\ in_u64 (Consumed st).

Lemma status_complete k se ee c st : counters_ok k c st ->
  report_status k se ee c st = B "complete" <-> se = false /\ ee = false /\ lossless k c st.
Proof.
  intros (Hl & Hs & Hw & Ht & Hc). unfold losses, zsum in *. cbn [fold_right] in Hs.
  repeat match goal with H : Forall _ (_ :: _) |- _ => inversion H; clear H; subst end. unfold in_u64 in Hc.
  unfold report_status, unconfirmed_of, lossless.
  rewrite (u64_small (written c + limited c)) by (unfold in_u64; lia).
  rewrite (u64_small (written c + limited c + nullRecords c)) by (unfold in_u64; lia).
  rewrite (u64_small (written c + limited c + nullRecords c + Malformed st)) by (unfold in_u64; lia).
  rewrite (u64_small (ReserveFail k + _ + _ + _ + _ + _ + _)) by (unfold in_u64; lia).
  assert (Hu : (0 <? (if written c + limited c + nullRecords c + Malformed st <? Consumed st
                      then u64 (Consumed st - written c - limited c - nullRecords c - Malformed st) else 0)) =
               (written c + limited c + nullRecords c + Malformed st <? Consumed st)).
  { destruct (Z.ltb_spec (written c + limited c + nullRecords c + Malformed st) (Consumed st)) as [H|H]; [|reflexivity].
    rewrite u64_small by (unfold in_u64; lia). apply Z.ltb_lt. lia. }
  rewrite Hu. clear Hu. destruct se, ee; try (split; [discriminate|intros (? & ? & _); discriminate]). cbn [orb].
  set (bad := (_ || _ || _ || _ || _)). destruct bad eqn:Eb; subst bad.
  - split; [discriminate|]. intros (_ & _ & H). repeat rewrite orb_true_iff in Eb. rewrite !Z.ltb_lt, negb_true_iff, Z.eqb_neq in Eb. lia.
  - bools. split.
    + destruct (Z.ltb_spec 0 (nullRecords c)); [discriminate|]. destruct (Z.ltb_spec 0 (limited c)); [discriminate|].
      intros _. splits; auto; lia.
    + intros (_ & _ & H'). destruct (Z.ltb_spec 0 (nullRecords c)); [lia|]. destruct (Z.ltb_spec 0 (limited c)); [lia|]. reflexivity.
Qed.

Lemma status_cases k se ee c st :
  report_status k se ee c st = B "complete" \/ report_status k se ee c st = B "limited" \/
  report_status k se ee c st = B "discarded" \/ report_status k se ee c st = B "incomplete".
Proof. unfold report_status. repeat case_match; tauto. Qed.

(** A capture reports itself complete exactly when nothing was lost:
    the reader ran, the statistics could be read, no error ended the
    capture, every record the kernel submitted was consumed and written,
    and no counter of lost, limited, discarded or malformed records is
    above zero. *)
Theorem captureReport_complete k se ee c :
  (forall st, stats c = Some st -> counters_ok k c st) ->
  HasPrefix (captureReport k se ee c) (B "capture status=complete ") = true <->
  se = false /\ ee = false /\ exists st, stats c = Some st /\ lossless k c st.
Proof.
  intros Hok. unfold captureReport. destruct (stats c) as [st|] eqn:Est.
  - specialize (Hok st eq_refl). pose proof (status_complete k se ee c st Hok) as Hs.
    match goal with |- HasPrefix (_ ++ _ ++ _ ++ ?r) _ = true <-> _ => generalize r; intros rest end.
    destruct (status_cases k se ee c st) as [E|[E|[E|E]]]; rewrite E in *; cycle 1;
      try (split; [discriminate|intros (-> & -> & st' & [= <-] & H); pose proof (proj2 Hs (conj eq_refl (conj eq_refl H))); discriminate]).
    split; [intros _; destruct (proj1 Hs eq_refl) as (-> & -> & H); eauto|]. intros _.
    clear. reflexivity.
  - split; [discriminate|]. now intros (_ & _ & st & [=] & _).
Qed.

Definition sample_control : captureControl := mkCaptureControl 10 0 0 (Some (mkSessionStats 10 0 2 0)).
Definition sample_stats : ExportStats := mkExportStats 10 0 0 0 0 0 0 0.

Lemma captureReport_complete_witness :
  HasPrefix (captureReport sample_stats false false sample_control) (B "capture status=complete ") = true.
Proof.
  apply captureReport_complete.
  - intros st [= <-]. repeat split; repeat (constructor; [vm_compute; congruence|]); try constructor; vm_compute; congruence.
  - splits; auto. eexists. split; [reflexivity|]. vm_compute. auto 20.
Defined.
