(* ===== verification/TagFinal.v ===== *)
(** * TagFinal: finalizing a tag while shards write
    (cmd/bpf-ninja/finalize.go, writeShard and pumpShards of main.go,
    internal/capture/session.go and the reader loop of capture.go)

    A capture with [--split-by-tag --finalize-on-del]: one goroutine per
    shard reads its ring, hands batches to [sink]/[writeShard] and
    acknowledges what it consumed; the poll loop's [tagFinalizer] blocks a
    removed tag in the kernel, snapshots every ring's producer position
    ([Barrier]), waits until every shard has acknowledged that position,
    then closes and merges the tag's files. Every goroutine is a state
    machine over its atomic accesses; [exec] is one access of one of them.

    Positions count records instead of bytes. The environment decides what
    the kernel exports, how much a read returns, what the packet and byte
    budgets grant ([Accounting], [ByteCaps]) and which file operations
    fail. The kernel is assumed to honour [BlockTag]: after it returned, no
    record of that tag is exported. *)

From Stdlib Require Import ZArith Lia Bool List.
From stdpp Require Import base list numbers option gmap sets sorting.
From S2P Require Import Prelude Run.
Local Open Scope Z_scope.

(** A [capture.Packet]: its tag, and the rest as one number. *)
Record pkt := mkPkt { p_tag : Z; p_id : Z }.

#[export] Instance pkt_eq_dec : EqDecision pkt.
Proof. solve_decision. Defined.

(** What became of a packet the shard took from its ring. *)
Inductive fate := Written | Limited | Lost.

#[export] Instance fate_eq_dec : EqDecision fate.
Proof. solve_decision. Defined.

(** A shard file [<base>.cpuN.<tag>]: whether its writer is open, and the
    packets in it. *)
Record file := mkFile { f_open : bool; f_pkts : list pkt }.

(** Where a shard's goroutine is: waiting for data, entering [sink], at the
    head of [writeShard]'s loop, past the check of [finalized], opening the
    run's writer, registering it, writing the run, adding its bytes to the
    cap, closing a capped writer, deregistering it, reporting a failed tag,
    recording the failure, failing the session, about to acknowledge. *)
Inductive shardPC :=
| Wait | Sink | Runs | CapCheck | Open | Register | Write | AddBytes (t : Z)
| CloseCapped (t : Z) | Deregister (t : Z) | FailTag (t : Z) | RecordFailure | FailSession | Acknowledge.

(** [batch] is what [writeShard] still has to handle, [tail_] what [sink]
    cut off; [opened] the tags whose [e.w] is not nil, [seen] those with an
    entry; [log] the packets handled so far, in order. *)
Record shard := mkShard {
  ring : list pkt; nread : nat; nack : nat; pc : shardPC; batch : list pkt; tail_ : list pkt;
  seen : gset Z; opened : gset Z; files : gmap Z file; log : list (pkt * fate)
}.

(** [tagFinState]. *)
Record tagFinState := mkTagFinState { finalized : bool; merged : bool; warned : bool }.

(** Where the poll loop is: idle; in [tick] past its check of [Err] and
    before [step]; in [step] (holding the lock) at the loop
    over the tags, in [BlockTag], in [Barrier], in the barrier's poll before
    and after its error check; in [finalize] for the first tag of a list, in
    its closes, merge and [markMerged]. *)
Inductive coordPC :=
| Idle | Ticking
| Visit
| Blocking (t : Z) | Snapshot (t : Z) (targets : list nat)
| PollErr (t : Z) | PollAck (t : Z) (i : nat)
| Finalize (done : list Z) | Close (t : Z) (ws : list nat) (failed : bool) (done : list Z)
| Merge (t : Z) (done : list Z) | Mark (t : Z) (done : list Z).

(** [tagFinalizer] with the poll loop's position: the tags' states, the
    registered (tag, shard) writers, the pending barriers' targets, the
    failed and closing tags; [live] and [todo] are [step]'s locals. *)
Record finalizer := mkFin {
  tags : gmap Z tagFinState; writers : gset (Z * nat); pending : gmap Z (list nat);
  failed : gset Z; closing : gset Z; at_ : coordPC; live : list Z; todo : list Z
}.

(** The whole capture: the shards, the finalizer, the kernel's blocked tags,
    the capped tags, whether [outputFailure] and the session have an error,
    and the merged files, one list of packets per shard. *)
Record sys := mkSys {
  shards : list shard; fin : finalizer; blocked : gset Z; capped : gset Z;
  outputErr : bool; sessionErr : bool; outputs : gmap Z (list (list pkt))
}.

(** ** The shard goroutine *)

(** What a shard sees of the shared state at one access. *)
Record view := mkView { v_lock : bool; v_finalized : Z -> bool; v_capped : gset Z; v_outputErr : bool }.

(** The change of the shared state one access makes. *)
Inductive effect :=
| ENone | EState (t : Z) | EWarn (t : Z) | ERegister (t : Z) | EDeregister (t : Z) | EFail (t : Z)
| ECap (t : Z) | EOutputErr | ESessionErr.

(** The environment's part of an access: it succeeds with a number, or fails. *)
Inductive outcome := Did (n : nat) | Fails (n : nat).

Definition run_tag (b : list pkt) : Z := match b with p :: _ => p_tag p | [] => 0 end.

(** The maximal same-tag prefix, and the rest. *)
Fixpoint span (t : Z) (b : list pkt) : list pkt * list pkt :=
  match b with
  | p :: b' => if p_tag p =? t then let '(r, k) := span t b' in (p :: r, k) else ([], b)
  | [] => ([], [])
  end.

Definition fated (o : fate) (l : list pkt) : list (pkt * fate) := map (fun p => (p, o)) l.

Definition at_pc (c : shardPC) (sh : shard) : shard :=
  mkShard (ring sh) (nread sh) (nack sh) c (batch sh) (tail_ sh) (seen sh) (opened sh) (files sh) (log sh).

(** The run leaves the batch with fate [o]; the goroutine goes on at [c]. *)
Definition settle (o : fate) (c : shardPC) (sh : shard) : shard :=
  let '(r, k) := span (run_tag (batch sh)) (batch sh) in
  mkShard (ring sh) (nread sh) (nack sh) c k (tail_ sh) (seen sh) (opened sh) (files sh) (log sh ++ fated o r).

Definition set_opened (o : gset Z) (sh : shard) : shard :=
  mkShard (ring sh) (nread sh) (nack sh) (pc sh) (batch sh) (tail_ sh) (seen sh) o (files sh) (log sh).
Definition set_file (t : Z) (f : file) (sh : shard) : shard :=
  mkShard (ring sh) (nread sh) (nack sh) (pc sh) (batch sh) (tail_ sh) (seen sh) (opened sh) (<[t := f]> (files sh)) (log sh).

Definition close_file (t : Z) (sh : shard) : shard :=
  match files sh !! t with Some f => set_file t (mkFile false (f_pkts f)) sh | None => sh end.

(** An access under the finalizer's lock waits while [step] holds it. *)
Definition locked (v : view) (r : shard * effect) : option (shard * effect) := if v_lock v then None else Some r.

Definition shard_step (v : view) (o : outcome) (sh : shard) : option (shard * effect) :=
  let t := run_tag (batch sh) in
  match pc sh, o with
  | Wait, Did n =>
      (* ReadBatch, then flush: no batch, no sink call *)
      let b := take n (drop (nread sh) (ring sh)) in
      Some (mkShard (ring sh) (nread sh + length b) (nack sh) (match b with [] => Acknowledge | _ => Sink end)
              b [] (seen sh) (opened sh) (files sh) (log sh), ENone)
  | Sink, Did n =>
      (* claimPackets and totalReached cut the batch; an earlier failure drops it *)
      let sh' := mkShard (ring sh) (nread sh) (nack sh) (pc sh) (take n (batch sh)) (drop n (batch sh)) (seen sh) (opened sh) (files sh) (log sh) in
      Some (match n with
            | O => at_pc Acknowledge sh'
            | S _ => if v_outputErr v then at_pc FailSession sh' else at_pc Runs sh'
            end, ENone)
  | Runs, Did _ =>
      match batch sh with
      | [] => Some (at_pc Acknowledge sh, ENone)
      | _ =>
          if negb (bool_decide (t ∈ seen sh)) then
            (* entryFor: stateFor creates the tag's state *)
            locked v (mkShard (ring sh) (nread sh) (nack sh) Runs (batch sh) (tail_ sh) ({[t]} ∪ seen sh) (opened sh) (files sh) (log sh), EState t)
          else if v_finalized v t then Some (settle Limited Runs (set_opened (opened sh ∖ {[t]}) sh), EWarn t)
          else Some (at_pc CapCheck sh, ENone)
      end
  | CapCheck, Did _ =>
      if bool_decide (t ∈ v_capped v)
      then Some (settle Limited (if bool_decide (t ∈ opened sh) then CloseCapped t else Runs) sh, ENone)
      else Some (at_pc (if bool_decide (t ∈ opened sh) then Write else Open) sh, ENone)
  | Open, Did _ => Some (at_pc Register (set_opened ({[t]} ∪ opened sh) (set_file t (mkFile true []) sh)), ENone)
  | Open, Fails _ => Some (at_pc (FailTag t) sh, ENone)
  | Register, Did _ => locked v (at_pc Write sh, ERegister t)
  | Write, Did _ =>
      match files sh !! t with
      | Some f =>
          if f_open f
          then Some (settle Written (AddBytes t) (set_file t (mkFile true (f_pkts f ++ fst (span t (batch sh)))) sh), ENone)
          else None
      | None => None
      end
  | Write, Fails k =>
      (* the first [k] packets of the run reached the file *)
      match files sh !! t with
      | Some f =>
          let w := if f_open f then take k (fst (span t (batch sh))) else [] in
          let sh' := set_file t (mkFile (f_open f) (f_pkts f ++ w)) sh in
          Some (mkShard (ring sh) (nread sh) (nack sh) (FailTag t) (drop (length w) (batch sh)) (tail_ sh) (seen sh) (opened sh)
                  (files sh') (log sh ++ fated Written w), ENone)
      | None => None
      end
  | AddBytes t, Did O => Some (at_pc Runs sh, ENone)
  | AddBytes t, Did (S _) => if bool_decide (t ∈ v_capped v) then None else Some (at_pc (CloseCapped t) sh, ECap t)
  | CloseCapped t, Did _ => Some (at_pc (Deregister t) (close_file t sh), ENone)
  | CloseCapped t, Fails _ => Some (at_pc (FailTag t) (close_file t sh), ENone)
  | Deregister t, Did _ => locked v (at_pc Runs (set_opened (opened sh ∖ {[t]}) sh), EDeregister t)
  | FailTag t, Did _ => locked v (at_pc RecordFailure sh, EFail t)
  | RecordFailure, Did _ => Some (at_pc FailSession sh, EOutputErr)
  | FailSession, Did _ =>
      Some (mkShard (ring sh) (nread sh) (nack sh) Acknowledge [] (tail_ sh) (seen sh) (opened sh) (files sh) (log sh ++ fated Lost (batch sh)), ESessionErr)
  | Acknowledge, Did _ =>
      Some (mkShard (ring sh) (nread sh) (nread sh) Wait [] [] (seen sh) (opened sh) (files sh) (log sh ++ fated Limited (tail_ sh)), ENone)
  | _, _ => None
  end.

(** ** The shared state *)

Definition fresh_state : tagFinState := mkTagFinState false false false.

(** [stateForLocked]. *)
Definition stateFor (t : Z) (m : gmap Z tagFinState) : gmap Z tagFinState :=
  match m !! t with Some _ => m | None => <[t := fresh_state]> m end.

Definition is_finalized (m : gmap Z tagFinState) (t : Z) : bool := match m !! t with Some st => finalized st | None => false end.
Definition is_merged (m : gmap Z tagFinState) (t : Z) : bool := match m !! t with Some st => merged st | None => false end.

Definition with_tags (x : gmap Z tagFinState) (f : finalizer) : finalizer :=
  mkFin x (writers f) (pending f) (failed f) (closing f) (at_ f) (live f) (todo f).
Definition with_writers (x : gset (Z * nat)) (f : finalizer) : finalizer :=
  mkFin (tags f) x (pending f) (failed f) (closing f) (at_ f) (live f) (todo f).
Definition with_pending (x : gmap Z (list nat)) (f : finalizer) : finalizer :=
  mkFin (tags f) (writers f) x (failed f) (closing f) (at_ f) (live f) (todo f).
Definition with_failed (t : Z) (f : finalizer) : finalizer :=
  mkFin (tags f) (writers f) (pending f) ({[t]} ∪ failed f) (closing f) (at_ f) (live f) (todo f).
Definition with_closing (x : gset Z) (f : finalizer) : finalizer :=
  mkFin (tags f) (writers f) (pending f) (failed f) x (at_ f) (live f) (todo f).
Definition goto (c : coordPC) (f : finalizer) : finalizer :=
  mkFin (tags f) (writers f) (pending f) (failed f) (closing f) c (live f) (todo f).

(** Whether [step] holds the lock. *)
Definition holds_lock (c : coordPC) : bool :=
  match c with Visit | Blocking _ | Snapshot _ _ | PollErr _ | PollAck _ _ => true | _ => false end.

Definition view_of (s : sys) : view :=
  mkView (holds_lock (at_ (fin s))) (is_finalized (tags (fin s))) (capped s) (outputErr s).

Definition with_fin (f : finalizer) (s : sys) : sys := mkSys (shards s) f (blocked s) (capped s) (outputErr s) (sessionErr s) (outputs s).

Definition set_warned (st : tagFinState) : tagFinState := mkTagFinState (finalized st) (merged st) true.

Definition apply_effect (i : nat) (e : effect) (s : sys) : sys :=
  match e with
  | ENone => s
  | EState t => with_fin (with_tags (stateFor t (tags (fin s))) (fin s)) s
  | EWarn t => with_fin (with_tags (alter set_warned t (tags (fin s))) (fin s)) s
  | ERegister t => with_fin (with_writers ({[(t, i)]} ∪ writers (fin s)) (fin s)) s
  | EDeregister t => with_fin (with_writers (writers (fin s) ∖ {[(t, i)]}) (fin s)) s
  | EFail t => with_fin (with_failed t (fin s)) s
  | ECap t => mkSys (shards s) (fin s) (blocked s) ({[t]} ∪ capped s) (outputErr s) (sessionErr s) (outputs s)
  | EOutputErr => mkSys (shards s) (fin s) (blocked s) (capped s) true (sessionErr s) (outputs s)
  | ESessionErr => mkSys (shards s) (fin s) (blocked s) (capped s) (outputErr s) true (outputs s)
  end.

Definition put_shard (i : nat) (sh : shard) (s : sys) : sys :=
  mkSys (<[i := sh]> (shards s)) (fin s) (blocked s) (capped s) (outputErr s) (sessionErr s) (outputs s).

Definition shard_exec (i : nat) (o : outcome) (s : sys) : option sys :=
  match shards s !! i with
  | Some sh => match shard_step (view_of s) o sh with
               | Some (sh', e) => Some (apply_effect i e (put_shard i sh' s))
               | None => None
               end
  | None => None
  end.

(** ** The finalizer *)

(** [step]'s loop goes on with the next tag. *)
Definition next_tag (f : finalizer) : finalizer :=
  mkFin (tags f) (writers f) (pending f) (failed f) (closing f) Visit (live f) (List.tl (todo f)).

Definition update_state (g : tagFinState -> tagFinState) (t : Z) (f : finalizer) : finalizer :=
  with_tags (alter g t (tags f)) f.
Definition set_finalized (st : tagFinState) : tagFinState := mkTagFinState true (merged st) (warned st).
Definition set_merged (st : tagFinState) : tagFinState := mkTagFinState (finalized st) true (warned st).

(** The packets of tag [t] in a shard's file. *)
Definition content (t : Z) (sh : shard) : list pkt := match files sh !! t with Some f => f_pkts f | None => [] end.

(** [slices.Sort] of the closing tags that have not failed. *)
Definition acknowledged (f : finalizer) : list Z := merge_sort Z.le (elements (closing f ∖ failed f)).

Definition close_shard_file (t : Z) (i : nat) (s : sys) : sys :=
  mkSys (alter (close_file t) i (shards s)) (fin s) (blocked s) (capped s) (outputErr s) (sessionErr s) (outputs s).

Definition coord_exec (o : outcome) (s : sys) : option sys :=
  let f := fin s in
  let ok f := Some (with_fin f s) in
  match at_ f, o with
  | Idle, Did _ => if bool_decide (failed f = ∅) then ok (goto Ticking f) else None   (* tick: the capture stops *)
  | Visit, Did _ =>
      match todo f with
      | [] => ok (goto (Finalize (acknowledged f)) f)
      | t :: _ =>
          if (t =? 0) || is_finalized (tags f) t || bool_decide (t ∈ failed f) then ok (next_tag f)
          else
            match pending f !! t with
            | Some _ => ok (goto (PollErr t) f)
            | None => if bool_decide (t ∈ live f) then ok (next_tag f) else ok (goto (Blocking t) f)
            end
      end
  | Blocking t, Did _ =>
      Some (mkSys (shards s) (goto (Snapshot t []) f) ({[t]} ∪ blocked s) (capped s) (outputErr s) (sessionErr s) (outputs s))
  | Blocking t, Fails _ => ok (next_tag (with_failed t f))
  | Snapshot t targets, Did _ =>
      match shards s !! length targets with
      | Some sh => ok (goto (Snapshot t (targets ++ [length (ring sh)])) f)
      | None => ok (goto (PollErr t) (with_pending (<[t := targets]> (pending f)) f))
      end
  | PollErr t, Did _ => if sessionErr s then ok (next_tag (with_failed t f)) else ok (goto (PollAck t 0) f)
  | PollAck t i, Did _ =>
      match shards s !! i, pending f !! t with
      | Some sh, Some targets =>
          if (nack sh <? default 0%nat (targets !! i))%nat then ok (next_tag f) else ok (goto (PollAck t (S i)) f)
      | None, _ =>
          let f := update_state set_finalized t f in
          ok (next_tag (with_closing ({[t]} ∪ closing f) (with_pending (delete t (pending f)) f)))
      | _, None => None
      end
  | Finalize [], Did _ => ok (goto Idle f)
  | Finalize (t :: done), Did _ =>
      if bool_decide (t ∈ failed f) || is_merged (tags f) t then ok (goto (Finalize done) f)
      else
        let ws := List.filter (fun i => bool_decide ((t, i) ∈ writers f)) (seq 0 (length (shards s))) in
        ok (goto (Close t ws false done) (with_writers (filter (fun w => w.1 <> t) (writers f)) f))
  | Close t (i :: ws) e done, Did _ => Some (with_fin (goto (Close t ws e done) f) (close_shard_file t i s))
  | Close t (i :: ws) e done, Fails _ => Some (with_fin (goto (Close t ws true done) f) (close_shard_file t i s))
  | Close t [] e done, Did _ => if e then ok (goto (Finalize done) (with_failed t f)) else ok (goto (Merge t done) f)
  | Merge t done, Did _ =>
      Some (mkSys (shards s) (goto (Mark t done) f) (blocked s) (capped s) (outputErr s) (sessionErr s)
              (<[t := map (content t) (shards s)]> (outputs s)))
  | Merge t done, Fails _ => ok (goto (Finalize done) f)
  | Mark t done, Did _ =>
      if bool_decide (t ∈ failed f) then ok (goto (Finalize done) f)
      else ok (goto (Finalize done) (with_closing (closing f ∖ {[t]}) (update_state set_merged t f)))
  | _, _ => None
  end.

(** ** The system *)

Inductive action :=
| Export (i : nat) (p : pkt)          (* the kernel commits a record to ring [i] *)
| Shard (i : nat) (o : outcome)       (* the next access of shard [i] *)
| Tick (union order : list Z)         (* the poll loop enters [step] *)
| Coord (o : outcome).                (* the poll loop's next access *)

(** [step] first creates the states of the union; [order] is the order in
    which the loop ranges over the map. *)
Definition exec (a : action) (s : sys) : option sys :=
  match a with
  | Export i p =>
      if bool_decide (p_tag p ∈ blocked s) then None
      else
        match shards s !! i with
        | Some sh => Some (put_shard i (mkShard (ring sh ++ [p]) (nread sh) (nack sh) (pc sh) (batch sh) (tail_ sh) (seen sh) (opened sh) (files sh) (log sh)) s)
        | None => None
        end
  | Shard i o => shard_exec i o s
  | Tick union order =>
      match at_ (fin s) with
      | Ticking =>
          let m := fold_left (fun m t => stateFor t m) union (tags (fin s)) in
          if bool_decide (order ≡ₚ map fst (map_to_list m))
          then Some (with_fin (mkFin m (writers (fin s)) (pending (fin s)) (failed (fin s)) (closing (fin s)) Visit union order) s)
          else None
      | _ => None
      end
  | Coord o => coord_exec o s
  end.

Definition empty_shard : shard := mkShard [] 0 0 Wait [] [] ∅ ∅ ∅ [].
Definition start (n : nat) : sys := mkSys (repeat empty_shard n) (mkFin ∅ ∅ ∅ ∅ ∅ Idle [] []) ∅ ∅ false false ∅.
