(* ===== verification/TagFinalFacts.v ===== *)
(** * TagFinalFacts: what the finalization protocol guarantees

    Invariants of every interleaving of [TagFinal.exec], and the properties
    of the merged files they give. *)

From Stdlib Require Import ZArith Lia Bool List.
From stdpp Require Import base list numbers option gmap sets sorting.
From S2P Require Import Prelude Run TagFinal.
Local Open Scope Z_scope.

(** ** One shard *)

(** No record of tag [t] at position [n] or later; none unacknowledged. *)
Definition past (t : Z) (n : nat) (sh : shard) : Prop := Forall (fun p => p_tag p <> t) (drop n (ring sh)).
Definition quiet (t : Z) (sh : shard) : Prop := past t (nack sh) sh.

Definition of_tag (t : Z) (l : list pkt) : list pkt := List.filter (fun p => p_tag p =? t) l.

(** The packets of tag [t] that were written, in order. *)
Definition written (t : Z) (l : list (pkt * fate)) : list pkt :=
  map fst (List.filter (fun e => (p_tag e.1 =? t) && bool_decide (e.2 = Written)) l).

Definition lossless (l : list (pkt * fate)) : Prop := Forall (fun e => e.2 <> Lost) l.

Lemma written_app t l1 l2 : written t (l1 ++ l2) = written t l1 ++ written t l2.
Proof. unfold written. now rewrite List.filter_app, map_app. Qed.

Lemma written_fated t o l : written t (fated o l) = if bool_decide (o = Written) then of_tag t l else [].
Proof.
  unfold written, fated, of_tag. induction l as [|p l IH]; [now destruct (bool_decide _)|].
  cbn [map List.filter fst snd]. destruct (bool_decide (o = Written)); [|now rewrite andb_false_r].
  rewrite andb_true_r. destruct (p_tag p =? t); cbn [map fst]; congruence.
Qed.

Lemma fated_fst o l : map fst (fated o l) = l.
Proof. unfold fated. rewrite map_map. apply map_id. Qed.

Lemma fated_lossless o l : o <> Lost -> lossless (fated o l).
Proof. intros H. unfold lossless, fated. induction l; cbn; constructor; auto. Qed.

Lemma lossless_app l1 l2 : lossless l1 -> lossless l2 -> lossless (l1 ++ l2).
Proof. unfold lossless. intros. now apply Forall_app. Qed.

Lemma of_tag_none t l : Forall (fun p => p_tag p <> t) l -> of_tag t l = [].
Proof. unfold of_tag. induction 1 as [|p l Hp _ IH]; [reflexivity|]. cbn [List.filter]. now destruct (Z.eqb_spec (p_tag p) t). Qed.

Lemma span_spec t b : let '(r, k) := span t b in b = r ++ k /\ Forall (fun p => p_tag p = t) r.
Proof.
  induction b as [|p b IH]; cbn [span]; [auto|]. destruct (Z.eqb_spec (p_tag p) t) as [E|E]; [|auto].
  destruct (span t b) as [r k]. destruct IH as [-> H]. auto.
Qed.

Lemma of_tag_run t t' r : Forall (fun p => p_tag p = t') r -> of_tag t r = if t' =? t then r else [].
Proof.
  unfold of_tag. induction 1 as [|p r <- _ IH]; [now destruct (t' =? t)|]. cbn [List.filter].
  destruct (p_tag p =? t); congruence.
Qed.

Lemma content_set t t' f sh : content t (set_file t' f sh) = if t' =? t then f_pkts f else content t sh.
Proof.
  unfold content, set_file. cbn [files]. destruct (Z.eqb_spec t' t) as [->|E].
  - now rewrite lookup_insert_eq.
  - now rewrite lookup_insert_ne by auto.
Qed.

Lemma content_close t t' sh : content t (close_file t' sh) = content t sh.
Proof.
  unfold close_file. destruct (files sh !! t') as [f|] eqn:E; [|reflexivity]. rewrite content_set.
  destruct (Z.eqb_spec t' t) as [->|_]; [|reflexivity]. unfold content. now rewrite E.
Qed.

(** Facts about one shard: the log and the rest of the batch are what it has
    read; what it has acknowledged is logged; each file holds the written
    packets of its tag; a tag with a file is open or capped. *)
Definition pc_ok (cap : gset Z) (sh : shard) : Prop :=
  match pc sh with
  | Wait => batch sh = [] /\ tail_ sh = []
  | Sink => tail_ sh = []
  | Acknowledge => batch sh = []
  | CapCheck => batch sh <> []
  | Register | Write => batch sh <> [] /\ run_tag (batch sh) ∈ opened sh
  | Open => batch sh <> [] /\ written (run_tag (batch sh)) (log sh) = []
  | CloseCapped t | Deregister t => t ∈ cap
  | _ => True
  end.

Record shard_ok (cap : gset Z) (serr : bool) (sh : shard) : Prop := {
  so_log : map fst (log sh) ++ batch sh ++ tail_ sh = take (nread sh) (ring sh);
  so_read : (nread sh <= length (ring sh))%nat;
  so_ack : (nack sh <= length (log sh))%nat;
  so_pc : pc_ok cap sh;
  so_files : forall t, content t sh = written t (log sh);
  so_open : forall t, written t (log sh) <> [] -> t ∈ opened sh \/ t ∈ cap;
  so_lost : serr = false -> lossless (log sh)
}.

Lemma shard_ok_mono cap cap' serr serr' sh :
  cap ⊆ cap' -> (serr = true -> serr' = true) -> shard_ok cap serr sh -> shard_ok cap' serr' sh.
Proof.
  intros Hc Hs [H1 H2 H3 H4 H5 H6 H7]. constructor; auto.
  - unfold pc_ok in *. destruct (pc sh); auto.
  - intros t Ht. destruct (H6 t Ht); auto.
  - intros E. apply H7. destruct serr; auto. now rewrite Hs in E.
Qed.

(** What a shard has not handled is unacknowledged. *)
Lemma shard_batch cap serr sh t :
  shard_ok cap serr sh -> quiet t sh -> Forall (fun p => p_tag p <> t) (batch sh ++ tail_ sh).
Proof.
  intros [H1 H2 H3 _ _ _ _] Hq. unfold quiet, past in Hq. rewrite <- (take_drop (nread sh) (ring sh)), <- H1 in Hq.
  rewrite <- app_assoc, drop_app_le in Hq by (rewrite length_map; lia).
  apply Forall_app in Hq as [_ Hq]. apply Forall_app in Hq as [Hq _]. exact Hq.
Qed.

Lemma run_not_quiet cap serr sh t : shard_ok cap serr sh -> quiet t sh -> batch sh <> [] -> run_tag (batch sh) <> t.
Proof.
  intros H Hq Hb. pose proof (shard_batch _ _ _ _ H Hq) as Hf. apply Forall_app in Hf as [Hf _].
  destruct (batch sh) as [|p b]; [congruence|]. now inversion Hf.
Qed.

(** The shared facts one access changes. *)
Definition eff_cap (e : effect) (cap : gset Z) : gset Z := match e with ECap t => {[t]} ∪ cap | _ => cap end.
Definition eff_serr (e : effect) (serr : bool) : bool := match e with ESessionErr => true | _ => serr end.

(** Taking the run out of the batch with fate [o]. *)
Lemma settle_spec o c sh :
  exists r k, batch sh = r ++ k /\ Forall (fun p => p_tag p = run_tag (batch sh)) r /\
    settle o c sh = mkShard (ring sh) (nread sh) (nack sh) c k (tail_ sh) (seen sh) (opened sh) (files sh) (log sh ++ fated o r) /\
    fst (span (run_tag (batch sh)) (batch sh)) = r.
Proof.
  unfold settle. pose proof (span_spec (run_tag (batch sh)) (batch sh)) as H.
  destruct (span (run_tag (batch sh)) (batch sh)) as [r k]. destruct H as [H1 H2]. exists r, k. auto.
Qed.

(** What an access preserves of a shard: it consumes its ring in order, and
    never touches the file of a tag that is quiet for it. *)
Definition step_ok (cap : gset Z) (serr : bool) (sh sh' : shard) (e : effect) : Prop :=
  ring sh' = ring sh /\ (nack sh <= nack sh')%nat /\ shard_ok (eff_cap e cap) (eff_serr e serr) sh' /\
  (forall t, quiet t sh -> content t sh' = content t sh).

(** An access that only moves, changes [opened] upwards or [seen]. *)
Lemma step_ok_move cap serr sh c sn op e :
  shard_ok cap serr sh -> opened sh ⊆ op ->
  pc_ok (eff_cap e cap) (mkShard (ring sh) (nread sh) (nack sh) c (batch sh) (tail_ sh) sn op (files sh) (log sh)) ->
  step_ok cap serr sh (mkShard (ring sh) (nread sh) (nack sh) c (batch sh) (tail_ sh) sn op (files sh) (log sh)) e.
Proof.
  intros H Ho Hp. unfold step_ok. cbn [ring nack]. splits; auto.
  eapply (shard_ok_mono cap (eff_cap e cap) serr (eff_serr e serr)) in H as [H1 H2 H3 H4 H5 H6 H7].
  - constructor; auto. intros t Ht. destruct (H6 t Ht); auto.
  - destruct e; cbn; set_solver.
  - destruct e; cbn; auto.
Qed.

(** The run is dropped by a cap. *)
Lemma step_ok_limited cap serr sh c :
  shard_ok cap serr sh -> match c with Runs => True | CloseCapped t => t ∈ cap | _ => False end ->
  step_ok cap serr sh (settle Limited c sh) ENone.
Proof.
  intros H Hc. destruct (settle_spec Limited c sh) as (r & k & Hb & Hr & -> & _). destruct H as [H1 H2 H3 H4 H5 H6 H7].
  unfold step_ok. cbn [ring nack eff_cap eff_serr]. splits; auto. constructor; cbn [ring nread nack pc batch tail_ opened log].
  - rewrite map_app, fated_fst, <- H1, Hb, <- !app_assoc. reflexivity.
  - exact H2.
  - rewrite length_app. lia.
  - destruct c; cbn; auto; contradiction.
  - intros t. rewrite written_app, written_fated, bool_decide_false, app_nil_r by discriminate. apply H5.
  - intros t. rewrite written_app, written_fated, bool_decide_false, app_nil_r by discriminate. apply H6.
  - intros E. apply lossless_app; [auto|]. now apply fated_lossless.
Qed.

(** [WriteBatch] put [w], a prefix of the run, into the run's file. *)
Lemma step_ok_wrote cap serr sh c w k f b :
  shard_ok cap serr sh -> batch sh <> [] -> batch sh = w ++ k -> Forall (fun p => p_tag p = run_tag (batch sh)) w ->
  files sh !! run_tag (batch sh) = Some f -> (w <> [] -> run_tag (batch sh) ∈ opened sh) ->
  match c with AddBytes _ | FailTag _ => True | _ => False end ->
  step_ok cap serr sh
    (mkShard (ring sh) (nread sh) (nack sh) c k (tail_ sh) (seen sh) (opened sh)
       (<[run_tag (batch sh) := mkFile b (f_pkts f ++ w)]> (files sh)) (log sh ++ fated Written w)) ENone.
Proof.
  intros H Hne Hb Hw Hf Ho Hc. set (t0 := run_tag (batch sh)) in *.
  assert (Hq : forall t, quiet t sh -> t0 <> t) by (intros; eapply run_not_quiet; eauto).
  destruct H as [H1 H2 H3 H4 H5 H6 H7]. unfold step_ok. cbn [ring nack eff_cap eff_serr].
  assert (Hcont : forall t, content t (mkShard (ring sh) (nread sh) (nack sh) c k (tail_ sh) (seen sh) (opened sh)
       (<[t0 := mkFile b (f_pkts f ++ w)]> (files sh)) (log sh ++ fated Written w)) = content t sh ++ if t0 =? t then w else []).
  { intros t. unfold content. cbn [files]. destruct (Z.eqb_spec t0 t) as [<-|E].
    - now rewrite lookup_insert_eq, Hf.
    - now rewrite lookup_insert_ne, app_nil_r by auto. }
  splits; auto.
  - constructor; cbn [ring nread nack pc batch tail_ opened log]; auto.
    + rewrite map_app, fated_fst, <- H1, Hb, <- !app_assoc. reflexivity.
    + rewrite length_app. lia.
    + destruct c; cbn; auto; contradiction.
    + intros t. rewrite Hcont, written_app, written_fated, bool_decide_true, (of_tag_run t t0) by auto. now rewrite H5.
    + intros t. rewrite written_app, written_fated, bool_decide_true, (of_tag_run t t0) by auto.
      destruct (Z.eqb_spec t0 t) as [<-|E]; [|rewrite app_nil_r; auto]. intros Hne'. destruct w; [rewrite app_nil_r in Hne'; auto|].
      left. apply Ho. discriminate.
    + intros E. apply lossless_app; [auto|]. now apply fated_lossless.
  - intros t Ht. rewrite Hcont. destruct (Z.eqb_spec t0 t) as [E|E]; [now apply Hq in Ht|]. now rewrite app_nil_r.
Qed.

(** The accesses that move packets between ring, batch and log. *)
Lemma step_ok_read cap serr sh n c :
  shard_ok cap serr sh -> batch sh = [] -> tail_ sh = [] -> let b := take n (drop (nread sh) (ring sh)) in
  c = match b with [] => Acknowledge | _ => Sink end ->
  step_ok cap serr sh (mkShard (ring sh) (nread sh + length b) (nack sh) c b [] (seen sh) (opened sh) (files sh) (log sh)) ENone.
Proof.
  intros [H1 H2 H3 H4 H5 H6 H7] Hb Ht b Hc. unfold step_ok. cbn [ring nack eff_cap eff_serr]. splits; auto.
  assert (Hlen : (nread sh + length b <= length (ring sh))%nat) by (subst b; rewrite length_take, length_drop; lia).
  constructor; cbn [ring nread nack pc batch tail_ opened log]; auto.
  - rewrite app_nil_r, <- take_take_drop, <- H1, Hb, Ht, !app_nil_r. f_equal. subst b. rewrite length_take.
    destruct (Nat.le_ge_cases n (length (drop (nread sh) (ring sh)))).
    + now rewrite Nat.min_l by assumption.
    + rewrite Nat.min_r by assumption. rewrite !firstn_all2 by lia. reflexivity.
  - subst c. cbn. destruct b; cbn; auto.
Qed.

Lemma step_ok_sink cap serr sh n c :
  shard_ok cap serr sh -> tail_ sh = [] ->
  match c with Acknowledge => n = 0%nat | FailSession | Runs => True | _ => False end ->
  step_ok cap serr sh (mkShard (ring sh) (nread sh) (nack sh) c (take n (batch sh)) (drop n (batch sh)) (seen sh) (opened sh) (files sh) (log sh)) ENone.
Proof.
  intros [H1 H2 H3 H4 H5 H6 H7] Ht Hc. unfold step_ok. cbn [ring nack eff_cap eff_serr]. splits; auto.
  constructor; cbn [ring nread nack pc batch tail_ opened log]; auto.
  - rewrite take_drop, <- H1, Ht, app_nil_r. reflexivity.
  - destruct c; cbn; auto; try contradiction. now subst n.
Qed.

Lemma step_ok_lost cap serr sh :
  shard_ok cap serr sh ->
  step_ok cap serr sh (mkShard (ring sh) (nread sh) (nack sh) Acknowledge [] (tail_ sh) (seen sh) (opened sh) (files sh) (log sh ++ fated Lost (batch sh))) ESessionErr.
Proof.
  intros [H1 H2 H3 H4 H5 H6 H7]. unfold step_ok. cbn [ring nack eff_cap eff_serr]. splits; auto.
  constructor; cbn [ring nread nack pc batch tail_ opened log]; auto; try discriminate.
  - rewrite map_app, fated_fst, <- app_assoc. exact H1.
  - rewrite length_app. lia.
  - cbn. auto.
  - intros t. rewrite written_app, written_fated, bool_decide_false, app_nil_r by discriminate. apply H5.
  - intros t. rewrite written_app, written_fated, bool_decide_false, app_nil_r by discriminate. apply H6.
Qed.

Lemma step_ok_ack cap serr sh :
  shard_ok cap serr sh -> batch sh = [] ->
  step_ok cap serr sh (mkShard (ring sh) (nread sh) (nread sh) Wait [] [] (seen sh) (opened sh) (files sh) (log sh ++ fated Limited (tail_ sh))) ENone.
Proof.
  intros [H1 H2 H3 H4 H5 H6 H7] Hb. pose proof (f_equal length H1) as Hl.
  rewrite Hb, !length_app, length_map, length_take in Hl. cbn [app length] in Hl.
  unfold step_ok. cbn [ring nack eff_cap eff_serr]. splits; auto; [lia|].
  constructor; cbn [ring nread nack pc batch tail_ opened log]; auto.
  - rewrite map_app, fated_fst, !app_nil_r, <- H1, Hb. reflexivity.
  - unfold fated. rewrite length_app, length_map. lia.
  - cbn. auto.
  - intros t. rewrite written_app, written_fated, bool_decide_false, app_nil_r by discriminate. apply H5.
  - intros t. rewrite written_app, written_fated, bool_decide_false, app_nil_r by discriminate. apply H6.
  - intros E. apply lossless_app; [auto|]. now apply fated_lossless.
Qed.

(** Closing keeps the packets; opening truncates a file nothing was written to. *)
Lemma step_ok_close cap serr sh t c e :
  shard_ok cap serr sh -> match c with Deregister u => u ∈ cap | FailTag _ => True | _ => False end -> e = ENone ->
  step_ok cap serr sh (at_pc c (close_file t sh)) e.
Proof.
  intros [H1 H2 H3 H4 H5 H6 H7] Hc ->. unfold step_ok.
  assert (Hr : ring (at_pc c (close_file t sh)) = ring sh /\ nack (at_pc c (close_file t sh)) = nack sh /\ nread (at_pc c (close_file t sh)) = nread sh /\
    batch (at_pc c (close_file t sh)) = batch sh /\ tail_ (at_pc c (close_file t sh)) = tail_ sh /\ opened (at_pc c (close_file t sh)) = opened sh /\
    log (at_pc c (close_file t sh)) = log sh) by (unfold close_file; destruct (files sh !! t); auto 10).
  destruct Hr as (Er & Ea & En & Eb & Et & Eo & El).
  assert (Hcont : forall u, content u (at_pc c (close_file t sh)) = content u sh) by (intros u; exact (content_close u t sh)).
  rewrite Er, Ea. cbn [eff_cap eff_serr]. splits; auto. constructor; rewrite ?Er, ?Ea, ?En, ?Eb, ?Et, ?Eo, ?El; auto.
  - unfold pc_ok. cbn [pc at_pc]. destruct c; auto; contradiction.
  - intros u. rewrite Hcont. apply H5.
Qed.

Lemma step_ok_open cap serr sh :
  shard_ok cap serr sh -> batch sh <> [] -> written (run_tag (batch sh)) (log sh) = [] ->
  step_ok cap serr sh (at_pc Register (set_opened ({[run_tag (batch sh)]} ∪ opened sh) (set_file (run_tag (batch sh)) (mkFile true []) sh))) ENone.
Proof.
  intros H Hb Hw. assert (Hq : forall t, quiet t sh -> run_tag (batch sh) <> t) by (intros; eapply run_not_quiet; eauto).
  destruct H as [H1 H2 H3 H4 H5 H6 H7]. unfold step_ok. cbn [ring nack eff_cap eff_serr at_pc set_opened set_file].
  set (t0 := run_tag (batch sh)) in *.
  assert (Hcont : forall t, content t (at_pc Register (set_opened ({[t0]} ∪ opened sh) (set_file t0 (mkFile true []) sh))) =
    if t0 =? t then [] else content t sh) by (intros t; exact (content_set t t0 (mkFile true []) sh)).
  splits; auto.
  - constructor; cbn [ring nread nack pc batch tail_ opened log]; auto.
    + cbn. split; [exact Hb|]. set_solver.
    + intros t. etransitivity; [apply Hcont|]. destruct (Z.eqb_spec t0 t) as [<-|E]; [symmetry; exact Hw|apply H5].
    + intros t Ht. destruct (H6 t Ht); [left; set_solver|auto].
  - intros t Ht. etransitivity; [apply Hcont|]. destruct (Z.eqb_spec t0 t) as [E|E]; [now apply Hq in Ht|reflexivity].
Qed.

Lemma step_ok_deregister cap serr sh t :
  shard_ok cap serr sh -> t ∈ cap -> step_ok cap serr sh (at_pc Runs (set_opened (opened sh ∖ {[t]}) sh)) (EDeregister t).
Proof.
  intros [H1 H2 H3 H4 H5 H6 H7] Ht. unfold step_ok. cbn [ring nack eff_cap eff_serr at_pc set_opened]. splits; auto.
  constructor; cbn [ring nread nack pc batch tail_ opened log]; auto; [exact I|].
  intros u Hu. destruct (decide (u = t)) as [->|Hne]; [auto|]. destruct (H6 u Hu); [left; set_solver|auto].
Qed.

Ltac moved := eapply step_ok_move; [eassumption|set_solver|unfold pc_ok; cbn].

Lemma shard_step_ok v serr o sh sh' e :
  shard_step v o sh = Some (sh', e) -> shard_ok (v_capped v) serr sh -> (forall t, v_finalized v t = true -> quiet t sh) ->
  step_ok (v_capped v) serr sh sh' e.
Proof.
  intros Hs H Hf. pose proof (so_pc _ _ _ H) as Hp. unfold pc_ok in Hp.
  unfold shard_step, locked, at_pc in Hs. destruct (pc sh) eqn:Epc, o; try discriminate.
  - injection Hs as <- <-. destruct Hp. now apply step_ok_read.
  - injection Hs as <- <-. destruct n; [|destruct (v_outputErr v)]; now apply step_ok_sink.
  - destruct (batch sh) as [|p b] eqn:Eb; [injection Hs as <- <-; rewrite <- Eb; moved; exact Eb|]. rewrite <- Eb in *.
    assert (Hb : batch sh <> []) by (rewrite Eb; discriminate).
    case_if Hs; [case_if Hs; [discriminate|]|case_if Hs]; injection Hs as <- <-.
    + moved. exact I.
    + apply Hf in E0. exfalso. now apply (run_not_quiet _ _ _ _ H E0).
    + moved. exact Hb.
  - case_if Hs; injection Hs as <- <-; bools.
    + apply bool_decide_eq_true in E. apply step_ok_limited; [exact H|]. destruct (bool_decide _); auto.
    + apply bool_decide_eq_false in E. destruct (bool_decide (run_tag (batch sh) ∈ opened sh)) eqn:Eo; moved.
      * apply bool_decide_eq_true in Eo. auto.
      * apply bool_decide_eq_false in Eo. split; [exact Hp|]. destruct (written (run_tag (batch sh)) (log sh)) eqn:Ew; [exact Ew|].
        exfalso. destruct (so_open _ _ _ H (run_tag (batch sh))) as [?|?]; [rewrite Ew; discriminate| |]; contradiction.
  - injection Hs as <- <-. now apply step_ok_open.
  - injection Hs as <- <-. moved. exact I.
  - case_if Hs; [discriminate|]. injection Hs as <- <-. moved. exact Hp.
  - destruct Hp as [Hb Ho]. destruct (files sh !! run_tag (batch sh)) as [f|] eqn:Ef; [|discriminate]. case_if Hs; [|discriminate].
    injection Hs as <- <-.
    destruct (settle_spec Written (AddBytes (run_tag (batch sh))) (set_file (run_tag (batch sh)) (mkFile true (f_pkts f ++ fst (span (run_tag (batch sh)) (batch sh)))) sh)) as (r & k & E1 & E2 & -> & E3).
    cbn [batch set_file] in E1, E2, E3. cbn [ring nread nack tail_ seen opened files log set_file]. rewrite E3.
    eapply step_ok_wrote; eauto.
  - destruct Hp as [Hb Ho]. destruct (files sh !! run_tag (batch sh)) as [f|] eqn:Ef; [|discriminate]. injection Hs as <- <-.
    pose proof (span_spec (run_tag (batch sh)) (batch sh)) as Hsp. destruct (span (run_tag (batch sh)) (batch sh)) as [r k]. destruct Hsp as [E1 E2].
    cbn [fst files set_file]. set (w := if f_open f then take n r else []).
    assert (Hw : exists r', r = w ++ r') by (subst w; destruct (f_open f); [exists (drop n r); now rewrite take_drop|exists r; reflexivity]).
    destruct Hw as [r' Hw]. eapply step_ok_wrote; eauto.
    + assert (Ed : batch sh = w ++ (r' ++ k)) by now rewrite E1, Hw, <- app_assoc. rewrite Ed at 2. rewrite drop_app_length. exact Ed.
    + rewrite Hw in E2. now apply Forall_app in E2 as [E2 _].
  - destruct n; [|case_if Hs; [discriminate|]]; injection Hs as <- <-; moved; [exact I|set_solver].
  - injection Hs as <- <-. apply step_ok_close; auto.
  - injection Hs as <- <-. apply step_ok_close; auto.
  - case_if Hs; [discriminate|]. injection Hs as <- <-. now apply step_ok_deregister.
  - case_if Hs; [discriminate|]. injection Hs as <- <-. moved. exact I.
  - injection Hs as <- <-. moved. exact I.
  - injection Hs as <- <-. now apply step_ok_lost.
  - injection Hs as <- <-. now apply step_ok_ack.
Qed.

(** ** The whole capture *)

(** The kernel exports no more records of [t], and no shard has one left. *)
Definition closed (t : Z) (s : sys) : Prop :=
  t ∈ blocked s /\ forall i sh, shards s !! i = Some sh -> quiet t sh.

(** [targets] are positions no record of the blocked tag [t] lies behind. *)
Definition bounded (t : Z) (targets : list nat) (s : sys) : Prop :=
  t ∈ blocked s /\ forall i sh x, shards s !! i = Some sh -> targets !! i = Some x -> past t x sh.

Definition published (t : Z) (s : sys) : Prop := is_Some (outputs s !! t).

(** The tags [finalize] works on. *)
Definition finishing (c : coordPC) : list Z :=
  match c with Finalize done => done | Close t _ _ done | Merge t done | Mark t done => t :: done | _ => [] end.

Definition coord_ok (s : sys) : Prop :=
  Forall (fun t => closed t s) (finishing (at_ (fin s))) /\
  match at_ (fin s) with
  | Snapshot t targets => bounded t targets s /\ (length targets <= length (shards s))%nat
  | PollErr t => is_Some (pending (fin s) !! t)
  | PollAck t i => is_Some (pending (fin s) !! t) /\ forall j sh, (j < i)%nat -> shards s !! j = Some sh -> quiet t sh
  | Mark t _ => published t s
  | _ => True
  end.

Record inv (s : sys) : Prop := {
  i_shards : forall i sh, shards s !! i = Some sh -> shard_ok (capped s) (sessionErr s) sh;
  i_final : forall t, is_finalized (tags (fin s)) t = true -> closed t s;
  i_pending : forall t ts, pending (fin s) !! t = Some ts -> bounded t ts s /\ length ts = length (shards s);
  i_closing : forall t, t ∈ closing (fin s) -> closed t s;
  i_outputs : forall t c, outputs s !! t = Some c -> closed t s /\ c = map (content t) (shards s);
  i_merged : forall t, is_merged (tags (fin s)) t = true -> published t s;
  i_coord : coord_ok s
}.

Lemma past_le t n m sh : (n <= m)%nat -> past t n sh -> past t m sh.
Proof.
  unfold past. intros Hle H. replace m with (n + (m - n))%nat by lia. rewrite <- drop_drop. now apply Forall_drop.
Qed.

(** How a state may grow: tags stay blocked, acknowledgements advance, the
    rings gain no record of a blocked tag, and the file of a tag that is
    quiet for a shard keeps its packets. *)
Definition shard_grows (blk : gset Z) (sh sh' : shard) : Prop :=
  (nack sh <= nack sh')%nat /\ (forall t n, t ∈ blk -> past t n sh -> past t n sh') /\
  (forall t, t ∈ blk -> quiet t sh -> content t sh' = content t sh).

Definition grows (s s' : sys) : Prop :=
  blocked s ⊆ blocked s' /\ Forall2 (shard_grows (blocked s)) (shards s) (shards s').

Lemma shard_grows_refl blk sh : shard_grows blk sh sh.
Proof. repeat split; auto. Qed.

Lemma Forall2_refl_grows blk l : Forall2 (shard_grows blk) l l.
Proof. induction l; constructor; auto using shard_grows_refl. Qed.

Lemma grows_put s i sh sh' :
  shards s !! i = Some sh -> shard_grows (blocked s) sh sh' -> Forall2 (shard_grows (blocked s)) (shards s) (<[i := sh']> (shards s)).
Proof.
  intros Hi H. rewrite <- (list_insert_id (shards s) i sh Hi) at 1. apply Forall2_insert; auto using Forall2_refl_grows.
Qed.

Lemma grows_shard s s' i sh' : grows s s' -> shards s' !! i = Some sh' ->
  exists sh, shards s !! i = Some sh /\ shard_grows (blocked s) sh sh'.
Proof. intros [_ H] Hi. now destruct (Forall2_lookup_r _ _ _ _ _ H Hi) as (sh & ? & ?); eauto. Qed.

Lemma closed_grows s s' t : grows s s' -> closed t s -> closed t s'.
Proof.
  intros G [Hb Hq]. split; [destruct G; set_solver|]. intros i sh' Hi. destruct (grows_shard _ _ _ _ G Hi) as (sh & Hs & Ha & Hp & _).
  unfold quiet in *. eapply past_le; [exact Ha|]. apply Hp; [exact Hb|]. eapply Hq, Hs.
Qed.

Lemma bounded_grows s s' t ts : grows s s' -> bounded t ts s -> bounded t ts s'.
Proof.
  intros G [Hb Hq]. split; [destruct G; set_solver|]. intros i sh' x Hi Hx. destruct (grows_shard _ _ _ _ G Hi) as (sh & Hs & Ha & Hp & _).
  apply Hp; [exact Hb|]. eapply Hq; eauto.
Qed.

Lemma contents_grow s s' t : grows s s' -> closed t s -> map (content t) (shards s') = map (content t) (shards s).
Proof.
  intros [_ H] [Hb Hq]. assert (Hall : Forall (quiet t) (shards s)) by (rewrite Forall_lookup; eauto).
  clear Hq. revert Hall. induction H as [|sh sh' l l' (_ & _ & Hc) _ IH]; intros Hall; [reflexivity|].
  apply Forall_cons in Hall as [Hsh Hl]. cbn [map]. f_equal; [now apply Hc|now apply IH].
Qed.

Lemma quiet_below s s' n t : grows s s' -> t ∈ blocked s ->
  (forall j sh, (j < n)%nat -> shards s !! j = Some sh -> quiet t sh) ->
  forall j sh, (j < n)%nat -> shards s' !! j = Some sh -> quiet t sh.
Proof.
  intros G Hb H j sh' Hj Hs'. destruct (grows_shard _ _ _ _ G Hs') as (sh & Hs & Ha & Hp & _).
  unfold quiet in *. eapply past_le; [exact Ha|]. apply Hp; [exact Hb|]. eapply H; eauto.
Qed.

(** A step that grows the state and leaves the finalizer's decisions alone
    keeps the invariant. *)
Definition same_decisions (f f' : finalizer) : Prop :=
  (forall t, is_finalized (tags f') t = is_finalized (tags f) t) /\ (forall t, is_merged (tags f') t = is_merged (tags f) t) /\
  pending f' = pending f /\ closing f' = closing f.

Lemma inv_grow s s' :
  inv s -> grows s s' -> same_decisions (fin s) (fin s') -> outputs s' = outputs s ->
  (forall i sh, shards s' !! i = Some sh -> shard_ok (capped s') (sessionErr s') sh) -> coord_ok s' -> inv s'.
Proof.
  intros [I1 I2 I3 I4 I5 I6 I7] G (D1 & D2 & D3 & D4) Eo Hs Hc. constructor; auto.
  - intros t. rewrite D1. eauto using closed_grows.
  - intros t ts. rewrite D3. intros Hp. destruct (I3 _ _ Hp) as [Hb Hl]. split; [eauto using bounded_grows|].
    rewrite Hl. apply (Forall2_length _ _ _ (proj2 G)).
  - intros t. rewrite D4. eauto using closed_grows.
  - intros t c. rewrite Eo. intros Ho. destruct (I5 _ _ Ho) as [Hcl ->]. split; [eauto using closed_grows|]. symmetry. now apply contents_grow.
  - intros t. rewrite D2. unfold published. rewrite Eo. apply I6.
Qed.

Lemma coord_grow s s' :
  inv s -> grows s s' -> at_ (fin s') = at_ (fin s) -> pending (fin s') = pending (fin s) -> outputs s' = outputs s -> coord_ok s'.
Proof.
  intros I G Ea Ep Eo. destruct (i_coord _ I) as [Hf Hm]. unfold coord_ok. rewrite Ea. split.
  - eapply List.Forall_impl; [|exact Hf]. intros t. now apply closed_grows.
  - destruct (at_ (fin s)); auto.
    + destruct Hm as [Hb Hl]. split; [eauto using bounded_grows|]. now rewrite <- (Forall2_length _ _ _ (proj2 G)).
    + now rewrite Ep.
    + rewrite Ep. destruct Hm as [[ts Hp] Hq]. split; [eauto|]. eapply quiet_below; eauto. now destruct (i_pending _ I _ _ Hp) as [[? _] _].
    + unfold published in *. now rewrite Eo.
Qed.

Lemma stateFor_finalized u m t : is_finalized (stateFor u m) t = is_finalized m t.
Proof.
  unfold stateFor, is_finalized. destruct (m !! u) eqn:E; [reflexivity|]. destruct (decide (u = t)) as [->|Hne].
  - now rewrite lookup_insert_eq, E.
  - now rewrite lookup_insert_ne by auto.
Qed.

Lemma stateFor_merged u m t : is_merged (stateFor u m) t = is_merged m t.
Proof.
  unfold stateFor, is_merged. destruct (m !! u) eqn:E; [reflexivity|]. destruct (decide (u = t)) as [->|Hne].
  - now rewrite lookup_insert_eq, E.
  - now rewrite lookup_insert_ne by auto.
Qed.

Lemma alter_finalized g u m t : is_finalized (alter g u m) t = if decide (u = t) then match m !! u with Some st => finalized (g st) | None => false end else is_finalized m t.
Proof.
  unfold is_finalized. destruct (decide (u = t)) as [->|Hne].
  - rewrite lookup_alter_eq. now destruct (m !! t).
  - now rewrite lookup_alter_ne by auto.
Qed.

Lemma alter_merged g u m t : is_merged (alter g u m) t = if decide (u = t) then match m !! u with Some st => merged (g st) | None => false end else is_merged m t.
Proof.
  unfold is_merged. destruct (decide (u = t)) as [->|Hne].
  - rewrite lookup_alter_eq. now destruct (m !! t).
  - now rewrite lookup_alter_ne by auto.
Qed.

(** What an access of a shard leaves alone. *)
Lemma apply_effect_frame i e s :
  let s' := apply_effect i e s in
  shards s' = shards s /\ blocked s' = blocked s /\ outputs s' = outputs s /\ capped s' = eff_cap e (capped s) /\
  sessionErr s' = eff_serr e (sessionErr s) /\ at_ (fin s') = at_ (fin s) /\ same_decisions (fin s) (fin s').
Proof.
  unfold same_decisions. destruct e; cbn; splits; auto.
  - apply stateFor_finalized.
  - apply stateFor_merged.
  - intros u. rewrite alter_finalized. destruct (decide (t = u)) as [->|]; [|reflexivity]. unfold is_finalized. now destruct (tags (fin s) !! u).
  - intros u. rewrite alter_merged. destruct (decide (t = u)) as [->|]; [|reflexivity]. unfold is_merged. now destruct (tags (fin s) !! u).
Qed.

Lemma inv_shard s i o s' : inv s -> shard_exec i o s = Some s' -> inv s' /\ grows s s'.
Proof.
  intros I H. unfold shard_exec in H. destruct (shards s !! i) as [sh|] eqn:Hi; [|discriminate].
  destruct (shard_step (view_of s) o sh) as [[sh' e]|] eqn:Hst; [|discriminate]. injection H as <-.
  assert (Hq : forall t, v_finalized (view_of s) t = true -> quiet t sh).
  { intros t Ht. destruct (i_final _ I t Ht) as [_ Hq]. eauto. }
  destruct (shard_step_ok _ _ _ _ _ _ Hst (i_shards _ I _ _ Hi) Hq) as (Hr & Ha & Hok & Hc). cbn [v_capped view_of] in Hok.
  destruct (apply_effect_frame i e (put_shard i sh' s)) as (Fs & Fb & Fo & Fc & Fe & Fa & Fd).
  set (s' := apply_effect i e (put_shard i sh' s)) in *. cbn [put_shard shards blocked outputs capped sessionErr fin] in *.
  assert (G : grows s s').
  { split; [now rewrite Fb|]. rewrite Fs. eapply grows_put; [exact Hi|]. split; [exact Ha|]. split.
    - intros t n _ Hp. unfold past in *. now rewrite Hr.
    - intros t _. apply Hc. }
  split; [|exact G]. eapply inv_grow; eauto.
  - intros j shj Hj. rewrite Fc, Fe. rewrite Fs in Hj. destruct (decide (j = i)) as [->|Hne].
    + rewrite list_lookup_insert_eq in Hj by (eapply lookup_lt_Some; eauto). now injection Hj as <-.
    + rewrite list_lookup_insert_ne in Hj by auto. apply (shard_ok_mono (capped s) _ (sessionErr s)); [destruct e; cbn; set_solver|destruct e; cbn; auto|]. exact (i_shards _ I _ _ Hj).
  - eapply coord_grow; eauto. apply Fd.
Qed.

Lemma inv_export s i p s' : inv s -> exec (Export i p) s = Some s' -> inv s' /\ grows s s'.
Proof.
  intros I H. cbn in H. case_if H; [discriminate|]. apply bool_decide_eq_false in E.
  destruct (shards s !! i) as [sh|] eqn:Hi; [|discriminate]. injection H as <-.
  set (sh' := mkShard (ring sh ++ [p]) (nread sh) (nack sh) (pc sh) (batch sh) (tail_ sh) (seen sh) (opened sh) (files sh) (log sh)).
  assert (G : grows s (put_shard i sh' s)).
  { split; [reflexivity|]. eapply grows_put; [exact Hi|]. split; [cbn; lia|]. split; [|reflexivity].
    intros t n Hb Hp. unfold past in *. cbn [ring sh']. rewrite drop_app. apply Forall_app. split; [exact Hp|].
    apply Forall_drop. constructor; [|constructor]. intros <-. contradiction. }
  split; [|exact G]. eapply inv_grow; eauto.
  - repeat split.
  - cbn. intros j shj Hj. destruct (decide (j = i)) as [->|Hne].
    + rewrite list_lookup_insert_eq in Hj by (eapply lookup_lt_Some; eauto). injection Hj as <-.
      destruct (i_shards _ I _ _ Hi) as [H1 H2 H3 H4 H5 H6 H7]. constructor; auto; cbn [nread ring sh' log batch tail_ nack].
      * rewrite take_app_le by exact H2. exact H1.
      * rewrite length_app. cbn. lia.
    + rewrite list_lookup_insert_ne in Hj by auto. eapply (i_shards _ I); eauto.
  - eapply coord_grow; eauto.
Qed.

Lemma grows_same s s' : shards s' = shards s -> blocked s ⊆ blocked s' -> grows s s'.
Proof. intros E H. split; [exact H|]. rewrite E. apply Forall2_refl_grows. Qed.

Lemma same_decisions_refl f f' : tags f' = tags f -> pending f' = pending f -> closing f' = closing f -> same_decisions f f'.
Proof. unfold same_decisions. intros -> -> ->. repeat split. Qed.

(** The finalizer moves, deciding nothing. *)
Lemma inv_moved s f :
  inv s -> same_decisions (fin s) f -> coord_ok (with_fin f s) -> inv (with_fin f s) /\ grows s (with_fin f s).
Proof.
  intros I D C. assert (G : grows s (with_fin f s)) by (apply grows_same; reflexivity). split; [|exact G].
  eapply inv_grow; eauto. exact (i_shards _ I).
Qed.

(** Every loop position of [step] is fine as such. *)
Lemma coord_ok_next s f : coord_ok (with_fin (next_tag f) s).
Proof. split; cbn; auto. Qed.

Lemma acknowledged_in f t : t ∈ acknowledged f -> t ∈ closing f.
Proof. unfold acknowledged. rewrite merge_sort_Permutation, elem_of_elements. intros H. now apply elem_of_difference in H as [H _]. Qed.

Section Coord.
Context (s : sys) (I : inv s).

Lemma inv_visit o s' : at_ (fin s) = Visit -> coord_exec o s = Some s' -> inv s' /\ grows s s'.
Proof.
  unfold coord_exec. intros Ea H. rewrite Ea in H. destruct o; [|discriminate]. destruct (todo (fin s)) as [|t todo'].
  - injection H as <-. apply inv_moved; [exact I|now apply same_decisions_refl|]. split; [|exact Logic.I]. cbn.
    apply Forall_forall. intros t Ht. apply acknowledged_in in Ht. exact (i_closing _ I _ Ht).
  - case_if H; [injection H as <-; apply inv_moved; [exact I|now apply same_decisions_refl|apply coord_ok_next]|].
    destruct (pending (fin s) !! t) eqn:Ep; [|case_if H]; injection H as <-;
      (apply inv_moved; [exact I|now apply same_decisions_refl|]); [|apply coord_ok_next|split; cbn; auto].
    split; cbn; [auto|]. rewrite Ep. eauto.
Qed.

Lemma inv_blocking t o s' : at_ (fin s) = Blocking t -> coord_exec o s = Some s' -> inv s' /\ grows s s'.
Proof.
  unfold coord_exec. intros Ea H. rewrite Ea in H. destruct o; injection H as <-.
  - set (s' := mkSys _ _ _ _ _ _ _). assert (G : grows s s') by (apply grows_same; [reflexivity|cbn; set_solver]).
    split; [|exact G]. eapply inv_grow; eauto; [now apply same_decisions_refl|exact (i_shards _ I)|].
    split; [constructor|]. cbn. repeat split; [set_solver| |lia]. intros i sh x _ Hx. discriminate.
  - apply inv_moved; [exact I|now apply same_decisions_refl|apply coord_ok_next].
Qed.

Lemma inv_snapshot t targets o s' : at_ (fin s) = Snapshot t targets -> coord_exec o s = Some s' -> inv s' /\ grows s s'.
Proof.
  unfold coord_exec. intros Ea H. rewrite Ea in H. destruct o; [|discriminate].
  destruct (i_coord _ I) as [_ Hm]. rewrite Ea in Hm. destruct Hm as [[Hb Hp] Hlen].
  destruct (shards s !! length targets) as [sh|] eqn:Hsh; injection H as <-.
  - apply inv_moved; [exact I|now apply same_decisions_refl|]. split; [constructor|]. cbn. repeat split; [exact Hb| |].
    + intros i sh' x Hi Hx. apply lookup_app_Some in Hx as [Hx|[Hle Hx]]; [eauto|].
      destruct (i - length targets)%nat as [|k] eqn:Ek; [|discriminate]. injection Hx as <-.
      assert (i = length targets) as -> by lia. cbn in Hi. rewrite Hsh in Hi. injection Hi as <-.
      unfold past. rewrite drop_all. constructor.
    + apply lookup_lt_Some in Hsh. rewrite length_app. cbn. lia.
  - apply lookup_ge_None in Hsh. set (f := goto _ _). assert (G : grows s (with_fin f s)) by (apply grows_same; reflexivity).
    split; [|exact G]. destruct I as [I1 I2 I3 I4 I5 I6 I7]. constructor; auto.
    + cbn. intros u ts. destruct (decide (t = u)) as [->|Hne].
      * rewrite lookup_insert_eq. intros [= <-]. split; [split; auto|lia].
      * rewrite lookup_insert_ne by auto. apply I3.
    + split; [constructor|]. cbn. rewrite lookup_insert_eq. eauto.
Qed.

Lemma inv_poll_err t o s' : at_ (fin s) = PollErr t -> coord_exec o s = Some s' -> inv s' /\ grows s s'.
Proof.
  unfold coord_exec. intros Ea H. rewrite Ea in H. destruct o; [|discriminate].
  destruct (i_coord _ I) as [_ Hm]. rewrite Ea in Hm.
  destruct (sessionErr s); injection H as <-; (apply inv_moved; [exact I|now apply same_decisions_refl|]); [apply coord_ok_next|].
  split; [constructor|]. cbn. split; [exact Hm|]. lia.
Qed.

Lemma inv_poll_ack t i o s' : at_ (fin s) = PollAck t i -> coord_exec o s = Some s' -> inv s' /\ grows s s'.
Proof.
  unfold coord_exec. intros Ea H. rewrite Ea in H. destruct o; [|discriminate].
  destruct (i_coord _ I) as [_ Hm]. rewrite Ea in Hm. destruct Hm as [[ts Hts] Hq].
  destruct (i_pending _ I _ _ Hts) as [[Hb Hp] Hl]. rewrite Hts in H.
  destruct (shards s !! i) as [sh|] eqn:Hi.
  - case_if H; injection H as <-; (apply inv_moved; [exact I|now apply same_decisions_refl|]); [apply coord_ok_next|].
    split; [constructor|]. cbn. split; [eauto|]. intros j shj Hj Hs. destruct (decide (j = i)) as [->|Hne]; [|eapply Hq; eauto; lia].
    rewrite Hi in Hs. injection Hs as <-. pose proof (lookup_lt_Some _ _ _ Hi) as Hlt. rewrite <- Hl in Hlt.
    destruct (lookup_lt_is_Some_2 _ _ Hlt) as [x Hx]. rewrite Hx in E. cbn [default] in E. apply Nat.ltb_ge in E.
    unfold quiet. eapply past_le; [exact E|]. eauto.
  - injection H as <-. apply lookup_ge_None in Hi.
    assert (Hcl : closed t s). { split; [exact Hb|]. intros j sh Hs. eapply Hq; [|exact Hs]. apply lookup_lt_Some in Hs. lia. }
    set (f := next_tag _). assert (G : grows s (with_fin f s)) by (apply grows_same; reflexivity).
    split; [|exact G]. destruct I as [I1 I2 I3 I4 I5 I6 I7]. constructor; auto.
    + intros u. cbn. rewrite alter_finalized. destruct (decide (t = u)) as [->|]; [intros _; exact Hcl|apply I2].
    + intros u us. cbn. destruct (decide (t = u)) as [->|Hne].
      * now rewrite lookup_delete_eq.
      * rewrite lookup_delete_ne by auto. apply I3.
    + intros u. cbn. rewrite elem_of_union, elem_of_singleton. intros [->|Hu]; [exact Hcl|]. now apply I4.
    + intros u. cbn. rewrite alter_merged. destruct (decide (t = u)) as [->|]; [|apply I6].
      intros Hu. apply I6. unfold is_merged. now destruct (tags (fin s) !! u).
    + apply coord_ok_next.
Qed.

Lemma finishing_closed : Forall (fun t => closed t s) (finishing (at_ (fin s))).
Proof. exact (proj1 (i_coord _ I)). Qed.

Lemma close_file_grows t sh : shard_grows (blocked s) sh (close_file t sh).
Proof.
  assert (E : ring (close_file t sh) = ring sh /\ nack (close_file t sh) = nack sh) by (unfold close_file; now destruct (files sh !! t)).
  destruct E as [Er En]. split; [lia|]. split; [|intros; apply content_close].
  intros u n _ H. unfold past in *. now rewrite Er.
Qed.

Lemma close_file_ok cap serr t sh : shard_ok cap serr sh -> shard_ok cap serr (close_file t sh).
Proof.
  intros [H1 H2 H3 H4 H5 H6 H7].
  assert (Hc : forall u, content u (close_file t sh) = content u sh) by (intros; apply content_close).
  unfold close_file in *. destruct (files sh !! t) as [f|]; [|now constructor]. constructor; auto. intros u. now rewrite Hc.
Qed.

Lemma inv_finalize done o s' : at_ (fin s) = Finalize done -> coord_exec o s = Some s' -> inv s' /\ grows s s'.
Proof.
  pose proof finishing_closed as Hf. intros Ea H. rewrite Ea in Hf. unfold coord_exec in H. rewrite Ea in H. cbn in Hf.
  destruct done as [|t done], o; try discriminate; [|case_if H]; injection H as <-;
    (apply inv_moved; [exact I|now apply same_decisions_refl|]); (split; [cbn|exact Logic.I]).
  - constructor.
  - now inversion Hf.
  - exact Hf.
Qed.

Lemma alter_list {A} (f : A -> A) i (l : list A) :
  alter f i l = match l !! i with Some x => <[i := f x]> l | None => l end.
Proof.
  revert i. induction l as [|a l IH]; intros [|i]; try reflexivity. change (alter f (S i) (a :: l)) with (a :: alter f i l).
  rewrite IH. change ((a :: l) !! S i) with (l !! i). now destruct (l !! i).
Qed.

Lemma inv_close t ws e done o s' : at_ (fin s) = Close t ws e done -> coord_exec o s = Some s' -> inv s' /\ grows s s'.
Proof.
  pose proof finishing_closed as Hf. intros Ea H. rewrite Ea in Hf. unfold coord_exec in H. rewrite Ea in H. cbn in Hf.
  destruct ws as [|i ws].
  - destruct o; [|discriminate]. destruct e; injection H as <-; (apply inv_moved; [exact I|now apply same_decisions_refl|]); split; cbn; auto.
    now inversion Hf.
  - assert (Hs : exists e', s' = with_fin (goto (Close t ws e' done) (fin s)) (close_shard_file t i s)) by (destruct o; injection H as <-; eauto).
    destruct Hs as [e' ->]. clear H. set (s' := with_fin _ _).
    assert (G : grows s s').
    { split; [reflexivity|]. cbn. rewrite alter_list. destruct (shards s !! i) as [sh|] eqn:Hi.
      - eapply grows_put; [exact Hi|apply close_file_grows].
      - apply Forall2_refl_grows. }
    split; [|exact G]. eapply inv_grow; eauto; [now apply same_decisions_refl| |].
    + cbn. intros j sh Hj. rewrite list_lookup_alter in Hj. destruct (decide (i = j)); [|exact (i_shards _ I _ _ Hj)].
      apply fmap_Some in Hj as (sh0 & H0 & ->). apply close_file_ok, (i_shards _ I _ _ H0).
    + split; [|exact Logic.I]. cbn. eapply List.Forall_impl; [|exact Hf]. intros u. now apply closed_grows.
Qed.

Lemma inv_merge t done o s' : at_ (fin s) = Merge t done -> coord_exec o s = Some s' -> inv s' /\ grows s s'.
Proof.
  pose proof finishing_closed as Hf. intros Ea H. rewrite Ea in Hf. unfold coord_exec in H. rewrite Ea in H. cbn in Hf.
  inversion Hf as [|? ? Ht Hd]; subst. destruct o; injection H as <-.
  - set (s' := mkSys _ _ _ _ _ _ _). assert (G : grows s s') by (apply grows_same; reflexivity). split; [|exact G].
    destruct I as [I1 I2 I3 I4 I5 I6 I7]. constructor; auto.
    + cbn. intros u c. destruct (decide (t = u)) as [->|Hne].
      * rewrite lookup_insert_eq. intros [= <-]. auto.
      * rewrite lookup_insert_ne by auto. apply I5.
    + intros u Hu. unfold published. cbn. destruct (decide (t = u)) as [->|Hne].
      * rewrite lookup_insert_eq. eauto.
      * rewrite lookup_insert_ne by auto. apply I6, Hu.
    + split; [exact Hf|]. cbn. unfold published. cbn. rewrite lookup_insert_eq. eauto.
  - apply inv_moved; [exact I|now apply same_decisions_refl|]. split; cbn; auto.
Qed.

Lemma inv_mark t done o s' : at_ (fin s) = Mark t done -> coord_exec o s = Some s' -> inv s' /\ grows s s'.
Proof.
  pose proof finishing_closed as Hf. intros Ea H. rewrite Ea in Hf. pose proof (proj2 (i_coord _ I)) as Hm. rewrite Ea in Hm.
  unfold coord_exec in H. rewrite Ea in H. cbn in Hf. inversion Hf as [|? ? Ht Hd]; subst.
  destruct o; [|discriminate]. case_if H; injection H as <-.
  - apply inv_moved; [exact I|now apply same_decisions_refl|]. split; cbn; auto.
  - set (f := goto _ _). assert (G : grows s (with_fin f s)) by (apply grows_same; reflexivity). split; [|exact G].
    destruct I as [I1 I2 I3 I4 I5 I6 I7]. constructor; auto.
    + intros u. cbn. rewrite alter_finalized. destruct (decide (t = u)) as [->|]; [|apply I2]. intros Hu. apply I2.
      unfold is_finalized. now destruct (tags (fin s) !! u).
    + intros u. cbn. intros Hu. apply I4. now apply elem_of_difference in Hu as [Hu _].
    + intros u. cbn. rewrite alter_merged. destruct (decide (t = u)) as [->|]; [intros _; exact Hm|apply I6].
    + split; cbn; auto.
Qed.
End Coord.

Lemma fold_stateFor union m t :
  is_finalized (fold_left (fun m u => stateFor u m) union m) t = is_finalized m t /\
  is_merged (fold_left (fun m u => stateFor u m) union m) t = is_merged m t.
Proof.
  revert m. induction union as [|u union IH]; intros m; [auto|]. cbn [fold_left]. destruct (IH (stateFor u m)) as [-> ->].
  now rewrite stateFor_finalized, stateFor_merged.
Qed.

Lemma inv_exec s a s' : inv s -> exec a s = Some s' -> inv s' /\ grows s s'.
Proof.
  intros I H. destruct a as [i p|i o|union order|o].
  - now apply (inv_export s i p).
  - now apply (inv_shard s i o).
  - cbn in H. destruct (at_ (fin s)) eqn:Ea; try discriminate. case_if H; [|discriminate]. injection H as <-.
    apply inv_moved; [exact I| |split; cbn; auto]. repeat split; intros t; apply fold_stateFor.
  - cbn [exec] in H. destruct (at_ (fin s)) eqn:Ea.
    + unfold coord_exec in H. rewrite Ea in H. destruct o; [|discriminate]. case_if H; [|discriminate]. injection H as <-.
      apply inv_moved; [exact I|now apply same_decisions_refl|split; cbn; auto].
    + unfold coord_exec in H. rewrite Ea in H. discriminate.
    + eapply inv_visit; eauto.
    + eapply inv_blocking; eauto.
    + eapply inv_snapshot; eauto.
    + eapply inv_poll_err; eauto.
    + eapply inv_poll_ack; eauto.
    + eapply inv_finalize; eauto.
    + eapply inv_close; eauto.
    + eapply inv_merge; eauto.
    + eapply inv_mark; eauto.
Qed.

Lemma inv_start n : inv (start n).
Proof.
  assert (H0 : forall i sh, shards (start n) !! i = Some sh -> sh = empty_shard).
  { intros i sh Hi. apply (repeat_spec n), list_elem_of_In, (list_elem_of_lookup_2 _ i). exact Hi. }
  constructor; cbn [start fin tags outputs pending closing].
  - intros i sh Hi. rewrite (H0 _ _ Hi). constructor; cbn; auto; [|intros _; constructor]. intros t Ht. contradiction.
  - intros t. unfold is_finalized. rewrite lookup_empty. discriminate.
  - intros t ts. rewrite lookup_empty. discriminate.
  - intros t Ht. now apply elem_of_empty in Ht.
  - intros t c. rewrite lookup_empty. discriminate.
  - intros t. unfold is_merged. rewrite lookup_empty. discriminate.
  - split; cbn; auto.
Qed.

Lemma inv_reachable n s : reachable exec (start n) s -> inv s.
Proof. revert s. apply reachable_inv; [apply inv_start|]. intros s a s' I H. now apply (inv_exec s a). Qed.

(** ** Properties *)

Lemma of_tag_app t l1 l2 : of_tag t (l1 ++ l2) = of_tag t l1 ++ of_tag t l2.
Proof. apply List.filter_app. Qed.

(** Everything a quiet shard's ring holds of the tag has been handled. *)
Lemma quiet_handled cap serr sh t :
  shard_ok cap serr sh -> quiet t sh -> of_tag t (ring sh) = of_tag t (map fst (log sh)).
Proof.
  intros H Hq. pose proof (shard_batch _ _ _ _ H Hq) as Hb. destruct H as [H1 H2 H3 _ _ _ _].
  rewrite <- (take_drop (nread sh) (ring sh)) at 1. rewrite <- H1, !of_tag_app.
  apply Forall_app in Hb as [Hb1 Hb2]. rewrite (of_tag_none t (batch sh)), (of_tag_none t (tail_ sh)) by assumption.
  assert (Hn : (nack sh <= nread sh)%nat).
  { pose proof (f_equal length H1) as Hl. rewrite !length_app, length_map, length_take in Hl. lia. }
  rewrite (of_tag_none t (drop _ _)), !app_nil_r; [reflexivity|]. eapply past_le; eauto.
Qed.

(** Outputs are only added. *)
Lemma outputs_kept s a s' : exec a s = Some s' -> forall t, outputs s' !! t = outputs s !! t \/ is_Some (outputs s' !! t).
Proof.
  intros H t. destruct a as [i p|i o|union order|o]; cbn [exec] in H.
  - case_if H; [discriminate|]. destruct (shards s !! i); [|discriminate]. injection H as <-. auto.
  - unfold shard_exec in H. destruct (shards s !! i) as [sh|]; [|discriminate]. destruct (shard_step _ _ _) as [[sh' e]|]; [|discriminate].
    injection H as <-. destruct (apply_effect_frame i e (put_shard i sh' s)) as (_ & _ & Fo & _). rewrite Fo. auto.
  - destruct (at_ (fin s)); try discriminate. case_if H; [|discriminate]. injection H as <-. auto.
  - unfold coord_exec in H. cbv zeta in H. destruct (at_ (fin s)), o; try discriminate; repeat (case_match; try discriminate); injection H as <-; auto.
    cbn. destruct (decide (t0 = t)) as [->|Hne]; [rewrite lookup_insert_eq; eauto|]. rewrite lookup_insert_ne by auto. auto.
Qed.

(** C5: a published tag is complete and final. In every interleaving of
    exports, shards and the poll loop, once the merged file of a tag exists
    the kernel exports no further record of it; the file holds, shard by
    shard and in order, exactly the packets the shards wrote; every record
    of the tag any ring ever held has been handled; and while the session
    has no error none of them was lost: each was written or dropped by a
    limit the user asked for. *)
Theorem merged_complete n s t c :
  reachable exec (start n) s -> outputs s !! t = Some c ->
  t ∈ blocked s /\ c = map (fun sh => written t (log sh)) (shards s) /\
  Forall (fun sh =>
    of_tag t (ring sh) = of_tag t (map fst (log sh)) /\
    (sessionErr s = false -> Forall (fun e => e.2 = Written \/ e.2 = Limited) (log sh))) (shards s).
Proof.
  intros Hr Ho. pose proof (inv_reachable _ _ Hr) as I. destruct (i_outputs _ I _ _ Ho) as [[Hb Hq] ->]. splits; auto.
  - apply map_ext_in. intros sh Hin. apply list_elem_of_In, list_elem_of_lookup in Hin as [i Hi]. apply (so_files _ _ _ (i_shards _ I _ _ Hi)).
  - apply Forall_lookup. intros i sh Hi. pose proof (i_shards _ I _ _ Hi) as Hs. split; [eapply quiet_handled; eauto|].
    intros Hse. eapply List.Forall_impl; [|exact (so_lost _ _ _ Hs Hse)]. intros [p []]; cbn; auto. congruence.
Qed.

(** The ack is immutable. A collector may take a merged file as soon as
    it exists: no later action of the kernel, a shard or the poll loop
    changes it, even if the tag's set entry is added again. *)
Theorem merged_final n s a s' t c :
  reachable exec (start n) s -> exec a s = Some s' -> outputs s !! t = Some c -> outputs s' !! t = Some c.
Proof.
  intros Hr Ha Ho. pose proof (inv_reachable _ _ Hr) as I. destruct (i_outputs _ I _ _ Ho) as [Hc Ec].
  destruct (inv_exec _ _ _ I Ha) as [I' G]. assert (Hs : is_Some (outputs s' !! t)).
  { destruct (outputs_kept _ _ _ Ha t) as [E|E]; [rewrite E, Ho; eauto|exact E]. }
  destruct Hs as [c' E']. destruct (i_outputs _ I' _ _ E') as [_ ->]. rewrite E', Ec. f_equal. now apply contents_grow.
Qed.

(** ** Schedules *)

(** One packet of tag 8 goes from ring to file and is acknowledged. *)
Definition one_packet : list action :=
  Export 0 (mkPkt 8 1) :: Shard 0 (Did 10) :: Shard 0 (Did 10) :: repeat (Shard 0 (Did 0)) 9.

(** A tick of the poll loop that finds tag 8 removed, up to the error check
    of its barrier. *)
Definition tick_to_poll (order : list Z) : list action := Tick [] order :: repeat (Coord (Did 0)) (length order + 3).

(** The polls, the end of [step], and [finalize]. *)
Definition poll_to_ack : list action := repeat (Coord (Did 0)) 8.

Definition plain_schedule : list action := one_packet ++ [Coord (Did 0)] ++ tick_to_poll [8] ++ Coord (Did 0) :: poll_to_ack.

(** While the poll loop is between its own error check and [step], opening
    the file of tag 7 fails; the batch also holds a packet of tag 8, whose
    set entry is gone. The shard fails the session and acknowledges between
    the barrier's error check and its look at the positions. *)
Definition race_schedule : list action :=
  one_packet ++
  [Export 0 (mkPkt 7 2); Export 0 (mkPkt 8 3); Shard 0 (Did 10); Shard 0 (Did 10)] ++ repeat (Shard 0 (Did 0)) 3 ++ [Shard 0 (Fails 0)] ++
  [Coord (Did 0); Shard 0 (Did 0)] ++
  tick_to_poll [7; 8] ++ [Coord (Did 0)] ++
  repeat (Shard 0 (Did 0)) 3 ++
  poll_to_ack.

Definition after (l : list action) : sys := default (start 1) (run exec l (start 1)).

Lemma after_run l : match run exec l (start 1) with Some _ => true | None => false end = true -> run exec l (start 1) = Some (after l).
Proof. unfold after. now destruct (run exec l (start 1)). Qed.

Lemma plain_reachable : reachable exec (start 1) (after plain_schedule).
Proof. apply (run_reachable exec plain_schedule), after_run. vm_compute. reflexivity. Qed.

Lemma merged_complete_witness :
  outputs (after plain_schedule) !! 8 = Some [[mkPkt 8 1]] /\
  [[mkPkt 8 1]] = map (fun sh => written 8 (log sh)) (shards (after plain_schedule)).
Proof.
  assert (H : outputs (after plain_schedule) !! 8 = Some [[mkPkt 8 1]]) by (vm_compute; reflexivity).
  split; [exact H|]. exact (proj1 (proj2 (merged_complete 1 _ 8 _ plain_reachable H))).
Defined.

Definition retick : sys := default (start 1) (exec (Coord (Did 0)) (after plain_schedule)).

Lemma merged_final_witness : outputs retick !! 8 = Some [[mkPkt 8 1]].
Proof.
  apply (merged_final 1 (after plain_schedule) (Coord (Did 0))); [exact plain_reachable| |]; vm_compute; reflexivity.
Defined.

(** C30: the barrier can let an incomplete tag through. Its poll checks the
    session's error before it reads the acknowledged positions, and a shard
    that fails acknowledges the batch it dropped: if both happen in
    between, the tag is published and marked merged although a packet of it
    was lost. *)
Theorem barrier_race :
  exists l s sh, run exec l (start 1) = Some s /\ shards s = [sh] /\
    is_merged (tags (fin s)) 8 = true /\ outputs s !! 8 = Some [[mkPkt 8 1]] /\
    of_tag 8 (ring sh) = [mkPkt 8 1; mkPkt 8 3] /\ In (mkPkt 8 3, Lost) (log sh).
Proof.
  exists race_schedule, (after race_schedule), (List.hd empty_shard (shards (after race_schedule))).
  split; [apply after_run; vm_compute; reflexivity|]. split; [vm_compute; reflexivity|]. split; [vm_compute; reflexivity|].
  split; [vm_compute; reflexivity|]. split; [vm_compute; reflexivity|]. vm_compute. auto.
Qed.
