(* ===== verification/Worklist.v ===== *)
(** * Worklist: fixpoints over a control flow graph

    The loop both analyses of internal/ctxflow run: pop a position, compute
    the state after it and its successors, merge that state into each
    successor's and push the successors whose state changed. States come
    from a join semilattice whose ascending chains are finite. *)

From Stdlib Require Import ZArith Lia Bool List.
From stdpp Require Import base list numbers option gmap sets.
From S2P Require Import Prelude.
Local Open Scope Z_scope.

(** A join with its order; [height] bounds the strict joins still possible. *)
Class JoinOrder (A : Type) := { join : A -> A -> A; leq : A -> A -> Prop; height : A -> nat }.

Class JoinLaws (A : Type) `{JO : JoinOrder A} (ok : A -> Prop) : Prop := {
  leq_refl a : leq a a;
  leq_trans a b c : leq a b -> leq b c -> leq a c;
  join_l a b : ok a -> ok b -> leq a (join a b);
  join_r a b : ok a -> ok b -> leq b (join a b);
  join_ok a b : ok a -> ok b -> ok (join a b);
  join_height a b : ok a -> ok b -> join a b <> a -> (height (join a b) < height a)%nat
}.

Inductive wlerr (E : Type) := OutOfFuel | Refused (e : E).
Arguments OutOfFuel {E}.
Arguments Refused {E} e.

Section Worklist.
Context {A B E : Type} `{EqDec : EqDecision A} `{JO : JoinOrder A}.

(** The effect of the instruction at a position: an error, or what is
    accumulated, the state after it, and its successors. *)
Variable flow : Z -> A -> B -> result E (B * A * list Z).

Definition merge (a : A) (mw : gmap Z A * list Z) (s : Z) : gmap Z A * list Z :=
  let '(m, work) := mw in
  match m !! s with
  | Some old => let j := join old a in if decide (j = old) then (m, work) else (<[s := j]> m, s :: work)
  | None => (<[s := a]> m, s :: work)
  end.

Fixpoint solve (fuel : nat) (m : gmap Z A) (work : list Z) (acc : B) : result (wlerr E) (gmap Z A * B) :=
  match work with
  | [] => Ok (m, acc)
  | pc :: work =>
      match fuel with
      | O => Err OutOfFuel
      | S fuel =>
          match m !! pc with
          | None => solve fuel m work acc
          | Some a =>
              match flow pc a acc with
              | Err e => Err (Refused e)
              | Ok (acc, a', succ) => let '(m, work) := fold_left (merge a') succ (m, work) in solve fuel m work acc
              end
          end
      end
  end.

(** A refusal is one of [flow]'s. *)
Lemma solve_refused fuel m work acc e : solve fuel m work acc = Err (Refused e) -> exists pc a acc', flow pc a acc' = Err e.
Proof.
  revert m work acc. induction fuel as [|fuel IH]; intros m work acc Hs; destruct work as [|pc work]; cbn [solve] in Hs; try discriminate.
  destruct (m !! pc) as [a|]; [|eauto]. destruct (flow pc a acc) as [[[acc1 a'] succ]|e'] eqn:Ef; [|injection Hs as ->; eauto].
  destruct (fold_left (merge a') succ (m, work)) as [m1 work1]. eauto.
Qed.

(** A property of the merged state and of every state, kept by joins. *)
Lemma merge_all_prop (P : Z -> A -> Prop) a succ m work m' work' :
  (forall i x y, P i x -> P i y -> P i (join x y)) -> (forall s, In s succ -> P s a) -> (forall i x, m !! i = Some x -> P i x) ->
  fold_left (merge a) succ (m, work) = (m', work') -> forall i x, m' !! i = Some x -> P i x.
Proof.
  intros HJ. revert m work. induction succ as [|s succ IH]; intros m work Hs Hm Hf; cbn [fold_left] in Hf; [now injection Hf as <- <-|].
  destruct (merge a (m, work) s) as [m1 work1] eqn:E1. apply (IH m1 work1); [intros t Ht; apply Hs; now right| |exact Hf].
  assert (Hins : forall j, P s j -> forall i x, <[s := j]> m !! i = Some x -> P i x).
  { intros j Hj i x Hx. destruct (decide (s = i)) as [<-|Hne]; [rewrite lookup_insert_eq in Hx; now injection Hx as <-|].
    rewrite lookup_insert_ne in Hx by exact Hne. auto. }
  unfold merge in E1. destruct (m !! s) as [old|] eqn:Es.
  - destruct (decide (join old a = old)); injection E1 as <- <-; [exact Hm|]. apply Hins, HJ; [auto|apply Hs; now left].
  - injection E1 as <- <-. apply Hins, Hs. now left.
Qed.

(** ** Post-fixpoints *)

(** [a'] has been merged into [s]. *)
Definition covers (m : gmap Z A) (a' : A) (s : Z) : Prop := exists b, m !! s = Some b /\ leq a' b.

Variable ok : A -> Prop.
Context `{!JoinLaws A ok}.

Definition all_ok (m : gmap Z A) : Prop := forall pc a, m !! pc = Some a -> ok a.
Definition grew (m m' : gmap Z A) : Prop := forall pc a, m !! pc = Some a -> exists b, m' !! pc = Some b /\ leq a b.

Lemma grew_refl m : grew m m.
Proof. intros pc a Ha. exists a. split; [exact Ha|apply leq_refl]. Qed.

Lemma grew_trans m1 m2 m3 : grew m1 m2 -> grew m2 m3 -> grew m1 m3.
Proof. intros H1 H2 pc a Ha. destruct (H1 _ _ Ha) as (b & Hb & Hab). destruct (H2 _ _ Hb) as (c & Hc & Hbc). exists c. split; [exact Hc|]. eapply leq_trans; eauto. Qed.

Lemma merge_spec a m work s m' work' :
  all_ok m -> ok a -> merge a (m, work) s = (m', work') ->
  all_ok m' /\ grew m m' /\ covers m' a s /\
  (forall pc, m' !! pc <> m !! pc -> pc = s /\ work' = s :: work) /\ (work' = work /\ m' = m \/ work' = s :: work).
Proof.
  intros Hm Ha Hmg. unfold merge in Hmg.
  assert (Hins : forall j, ok j -> (forall old, m !! s = Some old -> leq old j) -> leq a j ->
    all_ok (<[s := j]> m) /\ grew m (<[s := j]> m) /\ covers (<[s := j]> m) a s /\
    (forall pc, <[s := j]> m !! pc <> m !! pc -> pc = s /\ s :: work = s :: work)).
  { intros j Hj Hold Haj. splits.
    - intros pc b Hb. destruct (decide (pc = s)) as [->|Hne]; [rewrite lookup_insert_eq in Hb; now injection Hb as <-|].
      rewrite lookup_insert_ne in Hb by auto. eauto.
    - intros pc b Hb. destruct (decide (pc = s)) as [->|Hne].
      + exists j. rewrite lookup_insert_eq. auto.
      + exists b. rewrite lookup_insert_ne by auto. split; [exact Hb|apply leq_refl].
    - exists j. rewrite lookup_insert_eq. auto.
    - intros pc Hne. destruct (decide (pc = s)) as [->|Hn]; [auto|]. now rewrite lookup_insert_ne in Hne by auto. }
  destruct (m !! s) as [old|] eqn:Es.
  - pose proof (Hm _ _ Es) as Ho. destruct (decide (join old a = old)) as [E1|E1]; injection Hmg as <- <-.
    + splits; auto using grew_refl; [|now intros pc []]. exists old. split; [exact Es|]. pose proof (join_r old a Ho Ha) as J. now rewrite E1 in J.
    + destruct (Hins (join old a)) as (H1 & H2 & H3 & H4); [now apply join_ok| |now apply join_r|splits; auto].
      intros o [= <-]. now apply join_l.
  - injection Hmg as <- <-. destruct (Hins a) as (H1 & H2 & H3 & H4); [exact Ha|discriminate|apply leq_refl|]. splits; auto.
Qed.

Lemma merge_all_spec a succ m work m' work' :
  all_ok m -> ok a -> fold_left (merge a) succ (m, work) = (m', work') ->
  all_ok m' /\ grew m m' /\ Forall (covers m' a) succ /\
  (forall pc, m' !! pc <> m !! pc -> pc ∈ work' /\ In pc succ) /\ (forall pc, pc ∈ work -> pc ∈ work') /\ (forall pc, pc ∈ work' -> pc ∈ work \/ In pc succ).
Proof.
  revert m work. induction succ as [|s succ IH]; intros m work Hm Ha Hf; cbn [fold_left] in Hf.
  { injection Hf as <- <-. splits; auto using grew_refl. now intros pc []. }
  destruct (merge a (m, work) s) as [m1 work1] eqn:E1.
  destruct (merge_spec _ _ _ _ _ _ Hm Ha E1) as (H1 & H2 & H3 & H4 & H5).
  destruct (IH _ _ H1 Ha Hf) as (K1 & K2 & K3 & K4 & K5 & K6). splits; auto.
  - eapply grew_trans; eauto.
  - constructor; [|exact K3]. destruct H3 as (b & Hb & Hab). destruct (K2 _ _ Hb) as (c & Hc & Hbc). exists c. split; [exact Hc|]. eapply leq_trans; eauto.
  - intros pc Hne. destruct (decide (m' !! pc = m1 !! pc)) as [Eq|Ne].
    + rewrite Eq in Hne. destruct (H4 _ Hne) as [-> ->]. split; [apply K5; now left|now left].
    + destruct (K4 _ Ne). split; [assumption|now right].
  - intros pc Hin. apply K5. destruct H5 as [[-> _]| ->]; [exact Hin|now right].
  - intros pc Hin. destruct (K6 _ Hin) as [Hin'|Hin']; [|right; now right].
    destruct H5 as [[-> _]| ->]; [auto|]. apply list.elem_of_cons in Hin' as [->|]; [right; now left|auto].
Qed.

Hypothesis flow_ok : forall pc a acc acc' a' succ, ok a -> flow pc a acc = Ok (acc', a', succ) -> ok a'.

(** Rule induction over the loop. *)
Lemma solve_inv (I : gmap Z A -> list Z -> B -> Prop) :
  (forall m pc work acc, I m (pc :: work) acc -> m !! pc = None -> I m work acc) ->
  (forall m pc work acc a acc' a' succ m' work', I m (pc :: work) acc -> m !! pc = Some a ->
     flow pc a acc = Ok (acc', a', succ) -> fold_left (merge a') succ (m, work) = (m', work') -> I m' work' acc') ->
  forall fuel m work acc m' acc', I m work acc -> solve fuel m work acc = Ok (m', acc') -> I m' [] acc'.
Proof.
  intros H0 H1. induction fuel as [|fuel IH]; intros m work acc m' acc' HI Hs.
  - destruct work as [|pc work]; [|discriminate]. now injection Hs as <- <-.
  - destruct work as [|pc work]; [now injection Hs as <- <-|]. cbn [solve] in Hs. destruct (m !! pc) as [a|] eqn:Ea; [|eauto].
    destruct (flow pc a acc) as [[[acc1 a'] succ]|] eqn:Ef; [|discriminate].
    destruct (fold_left (merge a') succ (m, work)) as [m1 work1] eqn:Em. eauto.
Qed.

(** A position whose instruction's effect is covered by its successors. *)
Definition settled (m : gmap Z A) (pc : Z) (a : A) : Prop :=
  exists acc acc' a' succ, flow pc a acc = Ok (acc', a', succ) /\ Forall (covers m a') succ.

Definition fixed (m : gmap Z A) (work : list Z) : Prop :=
  all_ok m /\ forall pc a, m !! pc = Some a -> pc ∈ work \/ settled m pc a.

Lemma covers_grew m m' a s : grew m m' -> covers m a s -> covers m' a s.
Proof. intros Hg (b & Hb & Hab). destruct (Hg _ _ Hb) as (c & Hc & Hbc). exists c. split; [exact Hc|]. eapply leq_trans; eauto. Qed.

Lemma solve_fixed m0 fuel m work acc m' acc' :
  grew m0 m -> fixed m work -> solve fuel m work acc = Ok (m', acc') -> grew m0 m' /\ fixed m' [].
Proof.
  intros Hg Hf. apply (solve_inv (fun m work _ => grew m0 m /\ fixed m work)); [| |auto].
  - clear. intros m pc work _ [Hg [Hok Hf]] Hn. split; [exact Hg|]. split; [exact Hok|]. intros q a Ha. destruct (Hf _ _ Ha) as [Hin|]; [|auto].
    apply list.elem_of_cons in Hin as [->|]; [congruence|auto].
  - clear -flow_ok JoinLaws0. intros m pc work acc a acc' a' succ m' work' [Hg [Hok Hf]] Ha Hfl Hm.
    destruct (merge_all_spec _ _ _ _ _ _ Hok (flow_ok _ _ _ _ _ _ (Hok _ _ Ha) Hfl) Hm) as (K1 & K2 & K3 & K4 & K5 & _).
    split; [eapply grew_trans; eauto|]. split; [exact K1|]. intros q b Hb.
    destruct (decide (m' !! q = m !! q)) as [Eq|Ne]; [|left; now apply K4].
    rewrite Eq in Hb. destruct (decide (q = pc)) as [->|Hqp].
    + right. rewrite Ha in Hb. injection Hb as <-. exists acc, acc', a', succ. auto.
    + destruct (Hf _ _ Hb) as [Hin|(c1 & c2 & b' & sc & Hfb & Hcov)].
      * apply list.elem_of_cons in Hin as [->|]; [contradiction|]. left. auto.
      * right. exists c1, c2, b', sc. split; [exact Hfb|]. eapply List.Forall_impl; [|exact Hcov]. intros s. now apply covers_grew.
Qed.

(** ** Termination *)

Variables (dom : list Z) (top : nat).
Hypothesis flow_dom : forall pc a acc acc' a' succ, flow pc a acc = Ok (acc', a', succ) -> Forall (fun s => In s dom) succ.
Hypothesis height_bound : forall a, ok a -> (height a <= top)%nat.

Definition room (m : gmap Z A) (pc : Z) : nat := match m !! pc with None => S top | Some a => height a end.
Definition rooms (m : gmap Z A) : nat := fold_right (fun pc n => (room m pc + n)%nat) 0%nat dom.

Lemma rooms_insert m s a : In s dom -> (room (<[s := a]> m) s < room m s)%nat -> (rooms (<[s := a]> m) < rooms m)%nat.
Proof.
  unfold rooms. intros Hin Hlt. assert (Hle : forall l, (fold_right (fun pc n => (room (<[s := a]> m) pc + n)%nat) 0%nat l <= fold_right (fun pc n => (room m pc + n)%nat) 0%nat l)%nat /\
    (In s l -> (fold_right (fun pc n => (room (<[s := a]> m) pc + n)%nat) 0%nat l < fold_right (fun pc n => (room m pc + n)%nat) 0%nat l)%nat)).
  { induction l as [|pc l [IH1 IH2]]; cbn [fold_right]; [easy|].
    assert (Hpc : pc = s \/ room (<[s := a]> m) pc = room m pc).
    { destruct (decide (pc = s)) as [|Hne]; [auto|]. right. unfold room. now rewrite lookup_insert_ne by auto. }
    split; [destruct Hpc as [->|Epc]; lia|]. intros [->|Hl]; [lia|]. specialize (IH2 Hl). destruct Hpc as [->|Epc]; lia. }
  now apply Hle.
Qed.

Lemma merge_rooms a m work s m' work' :
  all_ok m -> ok a -> In s dom -> merge a (m, work) s = (m', work') -> (2 * rooms m' + length work' <= 2 * rooms m + length work)%nat.
Proof.
  intros Hm Ha Hs Hmg. unfold merge in Hmg. destruct (m !! s) as [old|] eqn:Es.
  - destruct (decide (join old a = old)) as [E1|E1]; injection Hmg as <- <-; [lia|].
    assert (Hlt : (rooms (<[s := join old a]> m) < rooms m)%nat).
    { apply rooms_insert; [exact Hs|]. unfold room. rewrite lookup_insert_eq, Es. apply join_height; eauto. }
    cbn [length]. lia.
  - injection Hmg as <- <-. assert (Hlt : (rooms (<[s := a]> m) < rooms m)%nat).
    { apply rooms_insert; [exact Hs|]. unfold room. rewrite lookup_insert_eq, Es. specialize (height_bound _ Ha). lia. }
    cbn [length]. lia.
Qed.

Lemma merge_all_rooms a succ m work m' work' :
  all_ok m -> ok a -> Forall (fun s => In s dom) succ -> fold_left (merge a) succ (m, work) = (m', work') ->
  (2 * rooms m' + length work' <= 2 * rooms m + length work)%nat.
Proof.
  intros Hm Ha Hs. revert m work Hm. induction Hs as [|s succ Hs _ IH]; intros m work Hm Hf; cbn [fold_left] in Hf; [injection Hf as <- <-; lia|].
  destruct (merge a (m, work) s) as [m1 work1] eqn:E1. pose proof (merge_rooms _ _ _ _ _ _ Hm Ha Hs E1).
  destruct (merge_spec _ _ _ _ _ _ Hm Ha E1) as (Hm1 & _). specialize (IH _ _ Hm1 Hf). lia.
Qed.

(** With fuel for the room and the pending positions, the loop ends. *)
Lemma solve_total fuel m work acc : all_ok m -> (2 * rooms m + length work <= fuel)%nat -> solve fuel m work acc <> Err OutOfFuel.
Proof.
  revert m work acc. induction fuel as [|fuel IH]; intros m work acc Hm Hf; destruct work as [|pc work]; cbn [solve length] in *; try discriminate; [lia|].
  destruct (m !! pc) as [a|] eqn:Ea; [|apply IH; [exact Hm|lia]].
  destruct (flow pc a acc) as [[[acc1 a'] succ]|e] eqn:Ef; [|discriminate].
  pose proof (flow_ok _ _ _ _ _ _ (Hm _ _ Ea) Ef) as Ha'.
  destruct (fold_left (merge a') succ (m, work)) as [m1 work1] eqn:Em.
  pose proof (merge_all_rooms _ _ _ _ _ _ Hm Ha' (flow_dom _ _ _ _ _ _ Ef) Em).
  destruct (merge_all_spec _ _ _ _ _ _ Hm Ha' Em) as (Hm1 & _). apply IH; [exact Hm1|lia].
Qed.

Lemma rooms_start s a : ok a -> (2 * rooms {[s := a]} + 1 <= 2 * (S top * length dom) + 1)%nat.
Proof.
  intros Ha. assert (Hr : forall pc, (room {[s := a]} pc <= S top)%nat).
  { intros pc. unfold room. destruct (({[s := a]} : gmap Z A) !! pc) as [b|] eqn:Eb; [|lia]. apply lookup_singleton_Some in Eb as [_ <-].
    specialize (height_bound _ Ha). lia. }
  unfold rooms. clear -Hr. induction dom as [|pc l IH]; cbn [fold_right length]; [lia|]. specialize (Hr pc). lia.
Qed.
End Worklist.
