(* ===== verification/Asm.v ===== *)
(** * Asm: eBPF instructions as the sources read them

    The sources use cilium/ebpf's [asm.Instruction] through its fields and
    the accessors of its opcode. An instruction is here what those accessors
    return: class, ALU and jump operation, source, mode and size of the
    opcode, the registers, offset and constant, and the symbol, reference
    and BTF function metadata attached to it. Register numbers, the pseudo
    sources and the two-slot encoding of 64-bit immediates are the kernel's
    documented instruction set. *)

From Stdlib Require Import ZArith Lia Bool Ascii String List.
From stdpp Require Import base list strings numbers option gmap.
From S2P Require Import Prelude GoStd.
Local Open Scope Z_scope.

Inductive Class_ := LdClass | LdXClass | StClass | StXClass | ALUClass | JumpClass | Jump32Class | ALU64Class.
Inductive ALUOp_ := Add | Sub | Mul | Div | Or | And | LSh | RSh | Neg | Mod | Xor | Mov | ArSh | Swap | InvalidALUOp.
Inductive JumpOp_ := Ja | JEq | JGT | JGE | JSet | JNE | JSGT | JSGE | Call | Exit | JLT | JLE | JSLT | JSLE | InvalidJumpOp.
Inductive Source_ := ImmSource | RegSource | InvalidSource.
Inductive Mode_ := ImmMode | AbsMode | IndMode | MemMode | MemSXMode | AtomicMode | OtherMode.
Inductive Size_ := DWord | Word | Half | Byte | InvalidSize.

#[export] Instance Class__eq_dec : EqDecision Class_. Proof. solve_decision. Defined.
#[export] Instance ALUOp__eq_dec : EqDecision ALUOp_. Proof. solve_decision. Defined.
#[export] Instance JumpOp__eq_dec : EqDecision JumpOp_. Proof. solve_decision. Defined.
#[export] Instance Source__eq_dec : EqDecision Source_. Proof. solve_decision. Defined.
#[export] Instance Mode__eq_dec : EqDecision Mode_. Proof. solve_decision. Defined.
#[export] Instance Size__eq_dec : EqDecision Size_. Proof. solve_decision. Defined.

(** [ALUOp] is [InvalidALUOp] outside ALU classes, and so on. *)
Record OpCode_ := mkOp { Class : Class_; ALUOp : ALUOp_; JumpOp : JumpOp_; Source : Source_; Mode : Mode_; OpSize : Size_ }.

(** [btf.FuncMetadata]: whether the function is static, and for each
    parameter of its prototype whether its pointee is the context type. *)
Record FuncMeta := mkFuncMeta { fm_Name : bytes; fm_Static : bool; fm_Global : bool; fm_Params : list bool }.

Record Instruction := mkIns {
  OpCode : OpCode_; Dst : Z; Src : Z; Offset : Z; Constant : Z;
  Reference : bytes; Symbol : bytes; FuncMetadata : option FuncMeta
}.

Definition R0 : Z := 0.
Definition R1 : Z := 1.
Definition R2 : Z := 2.
Definition R3 : Z := 3.
Definition R4 : Z := 4.
Definition R5 : Z := 5.
Definition R6 : Z := 6.
Definition R7 : Z := 7.
Definition R8 : Z := 8.
Definition R9 : Z := 9.
Definition RFP : Z := 10.

Definition PseudoMapFD : Z := 1.
Definition PseudoCall : Z := 1.
Definition PseudoFunc : Z := 4.

Definition class (i : Instruction) : Class_ := Class (OpCode i).
Definition IsALU (c : Class_) : bool := match c with ALUClass | ALU64Class => true | _ => false end.
Definition IsJump (c : Class_) : bool := match c with JumpClass | Jump32Class => true | _ => false end.
Definition IsStore (c : Class_) : bool := match c with StClass | StXClass => true | _ => false end.

Definition Sizeof (s : Size_) : Z := match s with DWord => 8 | Word => 4 | Half => 2 | Byte => 1 | InvalidSize => -1 end.

Definition IsDWordLoad (i : Instruction) : bool :=
  bool_decide (class i = LdClass) && bool_decide (Mode (OpCode i) = ImmMode) && bool_decide (OpSize (OpCode i) = DWord).
Definition IsCall (i : Instruction) : bool := bool_decide (JumpOp (OpCode i) = Call).
Definition IsLoadOfFunctionPointer (i : Instruction) : bool := IsDWordLoad i && (Src i =? PseudoFunc).
Definition IsFunctionCall (i : Instruction) : bool := IsCall i && (Src i =? PseudoCall).
Definition IsBuiltinCall (i : Instruction) : bool := IsCall i && (Src i =? R0) && (Dst i =? R0).

(** [Size()/InstructionSize]: raw slots. *)
Definition slots (i : Instruction) : Z := if IsDWordLoad i then 2 else 1.

(** [Instructions.Iterate]: raw offsets; index and instruction with them. *)
Fixpoint offsets (from : Z) (l : list Instruction) : list Z :=
  match l with
  | [] => []
  | i :: l => from :: offsets (from + slots i) l
  end.

Definition Iterate (l : list Instruction) : list (Z * Instruction) := combine (offsets 0 l) l.
Fixpoint raw_size (l : list Instruction) : Z := match l with [] => 0 | i :: l => slots i + raw_size l end.

Definition has_text (s : bytes) : bool := match s with [] => false | _ => true end.

(** ** The constructors the sources build instructions with *)

Definition no_op (c : Class_) : OpCode_ := mkOp c InvalidALUOp InvalidJumpOp InvalidSource OtherMode InvalidSize.
Definition mem_op (c : Class_) (m : Mode_) (size : Size_) : OpCode_ := mkOp c InvalidALUOp InvalidJumpOp InvalidSource m size.
Definition bare (op : OpCode_) (dst src off c : Z) (ref : bytes) : Instruction := mkIns op dst src off c ref [] None.

(** [op.Imm(dst, value)] and [op.Reg(dst, src)] of an ALU operation. *)
Definition Imm (op : ALUOp_) (dst value : Z) : Instruction :=
  bare (mkOp ALU64Class op InvalidJumpOp ImmSource OtherMode InvalidSize) dst 0 0 value [].
Definition Reg (op : ALUOp_) (dst src : Z) : Instruction :=
  bare (mkOp ALU64Class op InvalidJumpOp RegSource OtherMode InvalidSize) dst src 0 0 [].

(** [HostTo(BE, dst, size)] *)
Definition HostToBE (dst : Z) (size : Size_) : Instruction :=
  bare (mkOp ALUClass Swap InvalidJumpOp RegSource OtherMode InvalidSize) dst 0 0 (8 * Sizeof size) [].

(** [op.Imm(dst, value, label)] and [op.Reg(dst, src, label)] of a jump. *)
Definition JImm (op : JumpOp_) (dst value : Z) (label : bytes) : Instruction :=
  bare (mkOp JumpClass InvalidALUOp op ImmSource OtherMode InvalidSize) dst 0 (-1) value label.
Definition JReg (op : JumpOp_) (dst src : Z) (label : bytes) : Instruction :=
  bare (mkOp JumpClass InvalidALUOp op RegSource OtherMode InvalidSize) dst src (-1) 0 label.
(** [op.Imm32(dst, value, label)]: the low 32 bits are compared. *)
Definition JImm32 (op : JumpOp_) (dst value : Z) (label : bytes) : Instruction :=
  bare (mkOp Jump32Class InvalidALUOp op ImmSource OtherMode InvalidSize) dst 0 (-1) value label.
Definition JaLabel (label : bytes) : Instruction :=
  bare (mkOp JumpClass InvalidALUOp Ja ImmSource OtherMode InvalidSize) 0 0 (-1) 0 label.
Definition Return : Instruction := bare (mkOp JumpClass InvalidALUOp Exit ImmSource OtherMode InvalidSize) 0 0 0 0 [].
Definition BuiltinCall (fn : Z) : Instruction := bare (mkOp JumpClass InvalidALUOp Call ImmSource OtherMode InvalidSize) 0 0 0 fn [].

Definition LoadMem (dst src off : Z) (size : Size_) : Instruction := bare (mem_op LdXClass MemMode size) dst src off 0 [].
Definition StoreMem (dst off src : Z) (size : Size_) : Instruction := bare (mem_op StXClass MemMode size) dst src off 0 [].
(** [StoreXAdd]: the atomic operation is encoded in the immediate, add is 0. *)
Definition StoreXAdd (dst src : Z) (size : Size_) : Instruction := bare (mem_op StXClass AtomicMode size) dst src 0 0 [].
Definition StoreImm (dst off value : Z) (size : Size_) : Instruction := bare (mem_op StClass MemMode size) dst 0 off value [].
Definition LoadImm (dst value : Z) : Instruction := bare (mem_op LdClass ImmMode DWord) dst 0 0 value [].
Definition LoadMapPtr (dst fd : Z) : Instruction := bare (mem_op LdClass ImmMode DWord) dst PseudoMapFD 0 fd [].

Definition WithSymbol (label : bytes) (i : Instruction) : Instruction :=
  mkIns (OpCode i) (Dst i) (Src i) (Offset i) (Constant i) (Reference i) label (FuncMetadata i).

(** Helper numbers of the kernel's interface. *)
Definition FnMapLookupElem : Z := 1.
Definition FnKtimeGetNs : Z := 5.
Definition FnGetSmpProcessorId : Z := 8.
Definition FnProbeReadKernel : Z := 113.
Definition FnJiffies64 : Z := 118.
Definition FnRingbufReserve : Z := 131.
Definition FnRingbufSubmit : Z := 132.
Definition FnRingbufDiscard : Z := 133.
Definition FnRingbufQuery : Z := 134.
Definition FnGetFuncArg : Z := 183.
Definition FnGetFuncRet : Z := 184.
