(* ===== verification/CtxFlow.v ===== *)
(** * CtxFlow: the context through registers and stack slots
    (internal/ctxflow/ctxflow.go)

    The abstract domain of the context-flow proof: what each register and
    each 8-byte slot of the frame may hold, the join of two such states, and
    the effect of an instruction ([step]) and of a call ([call]) on them.
    CtxFlowFacts proves it sound for the verifier's view of the frame. *)

From Stdlib Require Import ZArith Lia Bool Ascii String List.
From stdpp Require Import base list strings numbers option gmap.
From S2P Require Import Prelude GoStd Asm Worklist.
Local Open Scope Z_scope.

(** ** The domain *)

Inductive ctxTag := ctxOther | ctxValue | ctxFunc | ctxFrame | ctxAny.

#[export] Instance ctxTag_eq_dec : EqDecision ctxTag. Proof. solve_decision. Defined.

(** The iota values; the code compares tags with them. *)
Definition rank (t : ctxTag) : Z := match t with ctxOther => 0 | ctxValue => 1 | ctxFunc => 2 | ctxFrame => 3 | ctxAny => 4 end.
Definition atMost (a b : ctxTag) : bool := rank a <=? rank b.

Record ctxKind := mkKind { tag : ctxTag; koff : Z }.

#[export] Instance ctxKind_eq_dec : EqDecision ctxKind. Proof. solve_decision. Defined.

Definition kOther : ctxKind := mkKind ctxOther 0.
Definition kValue : ctxKind := mkKind ctxValue 0.
Definition kFunc : ctxKind := mkKind ctxFunc 0.
Definition kAny : ctxKind := mkKind ctxAny 0.
Definition kFrame (off : Z) : ctxKind := mkKind ctxFrame off.

Record ctxState := mkState { regs : list ctxKind; sslots : list ctxKind; floor : Z }.

#[export] Instance ctxState_eq_dec : EqDecision ctxState. Proof. solve_decision. Defined.

Definition emptyState : ctxState := mkState (replicate 10 kOther) (replicate 64 kOther) 0.

Definition joinCtx (a b : ctxKind) : ctxKind :=
  if decide (a = b) then a
  else if atMost (tag a) ctxValue && atMost (tag b) ctxValue then kOther
  else if atMost (tag a) ctxFunc && atMost (tag b) ctxFunc then kFunc
  else kAny.

Definition joinState (s o : ctxState) : ctxState :=
  mkState (zip_with joinCtx (regs s) (regs o)) (zip_with joinCtx (sslots s) (sslots o)) (Z.min (floor s) (floor o)).

Definition kreg (s : ctxState) (r : Z) : ctxKind := default kOther (regs s !! Z.to_nat r).

Definition reg (s : ctxState) (r : Z) : ctxKind :=
  if r =? RFP then kFrame 0 else if r <? RFP then kreg s r else kAny.

Definition set (s : ctxState) (r : Z) (k : ctxKind) : ctxState :=
  if r <? RFP then mkState (<[Z.to_nat r := k]> (regs s)) (sslots s) (floor s) else s.

Definition set_all (s : ctxState) (rs : list Z) (k : ctxKind) : ctxState := fold_left (fun s r => set s r k) rs s.

(** The offset of slot [i]. *)
Definition slot_off (i : nat) : Z := -8 * (Z.of_nat i + 1).

Definition with_slots (s : ctxState) (f : nat -> ctxKind -> ctxKind) : ctxState := mkState (regs s) (imap f (sslots s)) (floor s).

Definition fill (s : ctxState) (lo hi : Z) (k : ctxKind) : ctxState :=
  with_slots s (fun i old => if (slot_off i <? hi) && (lo <? slot_off i + 8) then k else old).

Definition clobber (s : ctxState) (lo : Z) : ctxState :=
  with_slots s (fun i old => if lo <? slot_off i + 8 then joinCtx old kOther else old).

(** Go's [/] and [%] truncate. *)
Definition ctxSlot (off : Z) : Z * bool :=
  (Z.quot (- off) 8 - 1, (off <=? -8) && (-512 <=? off) && (Z.rem off 8 =? 0)).

Definition store (s : ctxState) (base : ctxKind) (off size : Z) (k : ctxKind) : ctxState :=
  match tag base with
  | ctxFrame =>
      let at_ := koff base + off in
      let '(i, ok) := ctxSlot at_ in
      if ok && (size =? 8) then mkState (regs s) (<[Z.to_nat i := k]> (sslots s)) (floor s)
      else fill s at_ (at_ + size) (if bool_decide (tag k = ctxAny) then k else kOther)
  | ctxAny => fill s (-512) 0 kAny
  | _ => clobber s (floor s)
  end.

(** ** Instructions *)

Definition isALU64 (i : Instruction) (op : ALUOp_) : bool := bool_decide (class i = ALU64Class) && bool_decide (ALUOp (OpCode i) = op).
Definition fromReg (i : Instruction) : bool := bool_decide (Source (OpCode i) = RegSource).
Definition fromImm (i : Instruction) : bool := bool_decide (Source (OpCode i) = ImmSource).
Definition memMode (i : Instruction) : bool := bool_decide (Mode (OpCode i) = MemMode).
Definition dword (i : Instruction) : bool := bool_decide (OpSize (OpCode i) = DWord).

(** What [Add] and [Sub] leave in the destination. *)
Definition offset_kind (s : ctxState) (i : Instruction) : ctxKind :=
  let d := reg s (Dst i) in
  if fromImm i && bool_decide (tag d = ctxFrame) then
    let off := if isALU64 i Sub then i64 (koff d - Constant i) else i64 (koff d + Constant i) in
    if (-512 <=? off) && (off <=? 0) then kFrame (i16 off) else kAny
  else if atMost ctxFunc (tag d) || fromReg i && atMost ctxFunc (tag (reg s (Src i))) then kAny
  else kOther.

(** What a load leaves in the destination. *)
Definition load_kind (s : ctxState) (i : Instruction) : ctxKind :=
  let base := reg s (Src i) in
  if bool_decide (tag base = ctxAny) then base
  else
    let '(n, ok) := ctxSlot (koff base + Offset i) in
    if ok && bool_decide (tag base = ctxFrame) && memMode i && dword i
    then default kOther (sslots s !! Z.to_nat n) else kOther.

(** PROBE_ATOMIC too, in translated code. *)
Definition isAtomic (i : Instruction) : bool := bool_decide (class i = StXClass) && negb (memMode i).

Definition loaded_kind (s : ctxState) (i : Instruction) : ctxKind :=
  if atMost ctxFrame (tag (reg s (Dst i))) || atMost ctxFrame (tag (reg s (Src i))) then kAny else kOther.

Definition store_step (s : ctxState) (i : Instruction) : ctxState :=
  let k := if isAtomic i then kAny
           else if bool_decide (class i = StXClass) && dword i then reg s (Src i) else kOther in
  let s := store s (reg s (Dst i)) (Offset i) (Sizeof (OpSize (OpCode i))) k in
  if isAtomic i then
    let loaded := loaded_kind s i in
    fold_left (fun s r => set s r (joinCtx (reg s r) loaded)) [R0; Src i; Dst i] s
  else s.

Definition step (s : ctxState) (i : Instruction) : ctxState :=
  if isALU64 i Mov && (Offset i =? 0) then set s (Dst i) (if fromReg i then reg s (Src i) else kOther)
  else if isALU64 i Add || isALU64 i Sub then set s (Dst i) (offset_kind s i)
  else if IsALU (class i) then set s (Dst i) kOther
  else if bool_decide (class i = LdXClass) then set s (Dst i) (load_kind s i)
  else if bool_decide (class i = LdClass) && bool_decide (Mode (OpCode i) = ImmMode) then
    set s (Dst i) (if IsLoadOfFunctionPointer i then kFunc else kOther)
  else if bool_decide (class i = LdClass) then set_all s [R0; R1; R2; R3; R4; R5] kOther
  else if bool_decide (class i = StClass) && bool_decide (Mode (OpCode i) = AtomicMode) then s
  else if IsStore (class i) then store_step s i
  else s.

(** ** Calls *)

Definition args : list Z := [R1; R2; R3; R4; R5].

Definition mayCallBack (k : ctxKind) : bool := bool_decide (tag k = ctxFunc) || bool_decide (tag k = ctxAny).
Definition mayFrame (k : ctxKind) : bool := atMost ctxFrame (tag k).

(** The lowest offset a helper is passed through this argument. *)
Definition arg_floor (k : ctxKind) (floor : Z) : Z :=
  if mayFrame k then Z.min floor (if bool_decide (tag k = ctxFrame) then koff k else -512) else floor.

Definition call (s : ctxState) (helper writeFree fnPtrElsewhere : bool) : ctxState :=
  let ks := map (kreg s) args in
  let exposed := existsb mayFrame ks in
  let callback := existsb mayCallBack ks in
  let s := mkState (regs s) (sslots s) (if helper then fold_left (fun f k => arg_floor k f) ks (floor s) else floor s) in
  let s := clobber s (floor s) in
  let s := if exposed && (helper && callback || negb helper && negb writeFree) then fill s (-512) 0 kAny else s in
  let s := set_all s [R0; R1; R2; R3; R4; R5] kOther in
  if helper then s
  else
    let s := if callback || fnPtrElsewhere then set s R0 kFunc else s in
    if exposed then set s R0 kAny else s.

(** ** Contexts held *)

(** [HeldAt]: the lowest of R6-R9 that holds the context, or the shallowest
    slot; [(reg, slot, ok)]. *)
Definition HeldAt (s : ctxState) : Z * Z * bool :=
  match find (fun r => bool_decide (tag (reg s r) = ctxValue)) [6; 7; 8; 9] with
  | Some r => (r, 0, true)
  | None =>
      match list_find (fun k => tag k = ctxValue) (sslots s) with
      | Some (i, _) => (0, i16 (slot_off i), true)
      | None => (0, 0, false)
      end
  end.
