(* ===== verification/CtxFlowFacts.v ===== *)
(** * CtxFlowFacts: the context-flow domain is a semilattice and is sound

    The laws the fixpoint of [analyze] relies on, the invariant of the
    domain's states, and the soundness of [step] and [call] with respect to
    the verifier's view of one frame. *)

From Stdlib Require Import ZArith Lia Bool Ascii String List.
From stdpp Require Import base list strings numbers option gmap.
From S2P Require Import Prelude GoStd Asm Worklist CtxFlow.
Local Open Scope Z_scope.

(** ** The semilattice *)

Definition kind_ok (k : ctxKind) : Prop := match tag k with ctxFrame => -512 <= koff k <= 0 | _ => koff k = 0 end.

Definition state_ok (s : ctxState) : Prop :=
  length (regs s) = 10%nat /\ length (sslots s) = 64%nat /\ Forall kind_ok (regs s) /\ Forall kind_ok (sslots s) /\ -512 <= floor s <= 0.

Definition leqK (a b : ctxKind) : Prop :=
  a = b \/ b = kAny \/ (b = kFunc /\ atMost (tag a) ctxFunc = true) \/ (b = kOther /\ atMost (tag a) ctxValue = true).

Definition heightK (k : ctxKind) : nat := match tag k with ctxValue => 3 | ctxOther => 2 | ctxFunc => 1 | ctxFrame => 1 | ctxAny => 0 end.

Definition leqS (a b : ctxState) : Prop := Forall2 leqK (regs a) (regs b) /\ Forall2 leqK (sslots a) (sslots b) /\ floor b <= floor a.

Fixpoint sumK (l : list ctxKind) : nat := match l with [] => 0%nat | k :: l => (heightK k + sumK l)%nat end.
Definition heightS (s : ctxState) : nat := (sumK (regs s) + sumK (sslots s) + Z.to_nat (floor s + 512))%nat.

#[export] Instance ctx_join : JoinOrder ctxState := {| join := joinState; leq := leqS; height := heightS |}.

Lemma leqK_trans a b c : leqK a b -> leqK b c -> leqK a c.
Proof. unfold leqK. intros [-> |[-> |[[-> Ha]|[-> Ha]]]] [<- |[-> |[[-> Hb]|[-> Hb]]]]; try (destruct a as [[] ?]); cbn in *; intuition congruence. Qed.

Lemma joinCtx_l a b : leqK a (joinCtx a b).
Proof. unfold leqK, joinCtx. case_decide; [auto|]. destruct (atMost (tag a) ctxValue && _) eqn:E1; [bools; auto|]. destruct (atMost (tag a) ctxFunc && _) eqn:E2; bools; auto. Qed.

Lemma joinCtx_r a b : leqK b (joinCtx a b).
Proof. unfold leqK, joinCtx. case_decide; [auto|]. destruct (atMost (tag a) ctxValue && _) eqn:E1; [bools; auto|]. destruct (atMost (tag a) ctxFunc && _) eqn:E2; bools; auto. Qed.

Lemma joinCtx_ok a b : kind_ok a -> kind_ok b -> kind_ok (joinCtx a b).
Proof. unfold joinCtx. intros Ha Hb. case_decide; [exact Ha|]. destruct (_ && _); [easy|]. now destruct (_ && _). Qed.

Lemma joinCtx_height a b : kind_ok a -> (heightK (joinCtx a b) <= heightK a)%nat /\ (joinCtx a b <> a -> (heightK (joinCtx a b) < heightK a)%nat).
Proof.
  unfold joinCtx. intros Ha. case_decide as E; [split; [lia|easy]|]. destruct a as [ta oa], b as [tb ob].
  destruct ta, tb; cbn in *; subst; (split; [lia|intros Hne; first [lia|now destruct Hne|now destruct E]]).
Qed.

Lemma zip_join_laws la lb : length la = length lb -> Forall kind_ok la -> Forall kind_ok lb ->
  let j := zip_with joinCtx la lb in
  length j = length la /\ Forall kind_ok j /\ Forall2 leqK la j /\ Forall2 leqK lb j /\
  (sumK j <= sumK la)%nat /\ (j <> la -> (sumK j < sumK la)%nat).
Proof.
  revert lb. induction la as [|a la IH]; intros [|b lb] Hl Ha Hb; cbn in *; try discriminate; [splits; auto; easy|].
  apply Forall_cons in Ha as [Ha1 Ha]. apply Forall_cons in Hb as [Hb1 Hb]. destruct (IH lb) as (H1 & H2 & H3 & H4 & H5 & H6); [lia|auto..|].
  destruct (joinCtx_height a b Ha1) as [J1 J2].
  splits; [lia|constructor; auto using joinCtx_ok|constructor; auto using joinCtx_l|constructor; auto using joinCtx_r|lia|].
  intros Hne. destruct (decide (joinCtx a b = a)) as [E|E]; [|specialize (J2 E); lia].
  assert (Hne' : zip_with joinCtx la lb <> la) by (intros E'; apply Hne; now rewrite E, E'). specialize (H6 Hne'). lia.
Qed.

#[export] Instance ctx_join_laws : JoinLaws ctxState state_ok.
Proof.
  assert (Hrefl : forall l : list ctxKind, Forall2 leqK l l) by (induction l; constructor; auto; now left).
  assert (Htr : forall l1 l2 l3 : list ctxKind, Forall2 leqK l1 l2 -> Forall2 leqK l2 l3 -> Forall2 leqK l1 l3).
  { intros l1 l2 l3 H12. revert l3. induction H12; intros l3 H23; inversion H23; subst; constructor; eauto using leqK_trans. }
  split.
  - intros [r sl f]. split; [apply Hrefl|]. split; [apply Hrefl|]. cbn. lia.
  - intros a b c (A1 & A2 & A3) (B1 & B2 & B3). unfold leq, ctx_join, leqS. splits; [eauto..|lia].
  - intros a b (A1 & A2 & A3 & A4 & A5) (B1 & B2 & B3 & B4 & B5).
    destruct (zip_join_laws (regs a) (regs b)) as (_ & _ & R3 & _ & _); [lia|auto..|]. destruct (zip_join_laws (sslots a) (sslots b)) as (_ & _ & S3 & _); [lia|auto..|].
    unfold leq, join, ctx_join, leqS, joinState. cbn. splits; [auto..|lia].
  - intros a b (A1 & A2 & A3 & A4 & A5) (B1 & B2 & B3 & B4 & B5).
    destruct (zip_join_laws (regs a) (regs b)) as (_ & _ & _ & R3 & _); [lia|auto..|]. destruct (zip_join_laws (sslots a) (sslots b)) as (_ & _ & _ & S3 & _); [lia|auto..|].
    unfold leq, join, ctx_join, leqS, joinState. cbn. splits; [auto..|lia].
  - intros a b (A1 & A2 & A3 & A4 & A5) (B1 & B2 & B3 & B4 & B5).
    destruct (zip_join_laws (regs a) (regs b)) as (R1 & R2 & _); [lia|auto..|]. destruct (zip_join_laws (sslots a) (sslots b)) as (S1 & S2 & _); [lia|auto..|].
    unfold join, ctx_join, state_ok, joinState. cbn [regs sslots floor]. splits; [congruence|congruence|auto|auto|lia|lia].
  - intros a b (A1 & A2 & A3 & A4 & A5) (B1 & B2 & B3 & B4 & B5) Hne.
    destruct (zip_join_laws (regs a) (regs b)) as (_ & _ & _ & _ & R5 & R6); [lia|auto..|]. destruct (zip_join_laws (sslots a) (sslots b)) as (_ & _ & _ & _ & S5 & S6); [lia|auto..|].
    unfold height, join, ctx_join, heightS in *. unfold joinState in *. cbn [regs sslots floor] in *.
    destruct (decide (zip_with joinCtx (regs a) (regs b) = regs a)) as [Er|Er]; [|specialize (R6 Er); lia].
    destruct (decide (zip_with joinCtx (sslots a) (sslots b) = sslots a)) as [Es|Es]; [|specialize (S6 Es); lia].
    assert (Z.min (floor a) (floor b) <> floor a); [|lia]. intros Ef. apply Hne. rewrite Er, Es, Ef. now destruct a.
Qed.

Lemma sumK_bound l : (sumK l <= 3 * length l)%nat.
Proof. induction l as [|k l IH]; cbn; [lia|]. assert (heightK k <= 3)%nat by (unfold heightK; destruct (tag k); lia). lia. Qed.

(** The longest chain: three joins per register and slot, and the floor. *)
Definition top_height : nat := 734.

Lemma heightS_bound s : state_ok s -> (heightS s <= top_height)%nat.
Proof. intros (H1 & H2 & _ & _ & H5). unfold heightS, top_height. pose proof (sumK_bound (regs s)). pose proof (sumK_bound (sslots s)). lia. Qed.

(** ** The states' invariant *)

Lemma emptyState_ok : state_ok emptyState.
Proof. unfold state_ok. cbn [regs sslots floor emptyState]. splits; try (now rewrite ?length_replicate); try lia; apply Forall_replicate; reflexivity. Qed.

Lemma kreg_ok s r : state_ok s -> kind_ok (kreg s r).
Proof. intros (_ & _ & H & _). unfold kreg. destruct (regs s !! Z.to_nat r) as [k|] eqn:E; [|reflexivity]. exact (Forall_lookup_1 _ _ _ _ H E). Qed.

Lemma reg_ok s r : state_ok s -> kind_ok (reg s r).
Proof. intros H. unfold reg. destruct (r =? RFP); [cbn; lia|]. destruct (r <? RFP); [now apply kreg_ok|reflexivity]. Qed.

Lemma set_ok s r k : state_ok s -> kind_ok k -> state_ok (set s r k).
Proof. intros (H1 & H2 & H3 & H4 & H5) Hk. unfold set. destruct (r <? RFP); [|easy]. unfold state_ok. cbn. rewrite length_insert. splits; auto; try lia. now apply Forall_insert. Qed.

Lemma set_all_ok s rs k : state_ok s -> kind_ok k -> state_ok (set_all s rs k).
Proof. revert s. induction rs as [|r rs IH]; intros s Hs Hk; cbn; [exact Hs|]. apply IH; [now apply set_ok|exact Hk]. Qed.

Lemma with_slots_ok s f : state_ok s -> (forall i k, kind_ok k -> kind_ok (f i k)) -> state_ok (with_slots s f).
Proof.
  intros (H1 & H2 & H3 & H4 & H5) Hf. unfold state_ok. cbn. rewrite length_imap. splits; auto; try lia.
  apply Forall_lookup_2. intros i k Hk. rewrite list_lookup_imap in Hk. destruct (sslots s !! i) as [k0|] eqn:E; [|discriminate]. injection Hk as <-.
  apply Hf. exact (Forall_lookup_1 _ _ _ _ H4 E).
Qed.

Lemma fill_ok s lo hi k : state_ok s -> kind_ok k -> state_ok (fill s lo hi k).
Proof. intros Hs Hk. apply with_slots_ok; [exact Hs|]. intros i o Ho. now destruct (_ && _). Qed.

Lemma clobber_ok s lo : state_ok s -> state_ok (clobber s lo).
Proof. intros Hs. apply with_slots_ok; [exact Hs|]. intros i o Ho. destruct (_ <? _); [now apply joinCtx_ok|exact Ho]. Qed.

Lemma store_ok s base off size k : state_ok s -> kind_ok k -> state_ok (store s base off size k).
Proof.
  intros Hs Hk. unfold store. destruct (tag base); try now apply clobber_ok.
  - destruct (ctxSlot _) as [i ok]. destruct (ok && _).
    + destruct Hs as (H1 & H2 & H3 & H4 & H5). unfold state_ok. cbn. rewrite length_insert. splits; auto; try lia. now apply Forall_insert.
    + apply fill_ok; [exact Hs|]. now destruct (bool_decide _).
  - now apply fill_ok.
Qed.

Lemma offset_kind_ok s i : kind_ok (offset_kind s i).
Proof.
  unfold offset_kind. destruct (_ && _); [|now destruct (_ || _)]. cbn. match goal with |- context [if ?b && ?c then kFrame (i16 ?x) else _] => destruct (b && c) eqn:E; [|reflexivity]; bools; rewrite i16_small by lia; cbn; lia end.
Qed.

Lemma load_kind_ok s i : state_ok s -> kind_ok (load_kind s i).
Proof.
  intros Hs. unfold load_kind. destruct (bool_decide _); [now apply reg_ok|]. destruct (ctxSlot _) as [n ok]. destruct (_ && _); [|reflexivity].
  destruct (sslots s !! Z.to_nat n) as [k|] eqn:E; [|reflexivity]. destruct Hs as (_ & _ & _ & H & _). exact (Forall_lookup_1 _ _ _ _ H E).
Qed.

Lemma step_ok s i : state_ok s -> state_ok (step s i).
Proof.
  intros Hs. unfold step.
  destruct (isALU64 i Mov && _); [apply set_ok; [exact Hs|destruct (fromReg i); [now apply reg_ok|reflexivity]]|].
  destruct (isALU64 i Add || _); [apply set_ok; [exact Hs|apply offset_kind_ok]|].
  destruct (IsALU _); [now apply set_ok|]. destruct (bool_decide _); [apply set_ok; [exact Hs|now apply load_kind_ok]|].
  destruct (_ && _); [apply set_ok; [exact Hs|now destruct (IsLoadOfFunctionPointer i)]|].
  destruct (bool_decide _); [now apply set_all_ok|]. destruct (_ && _); [exact Hs|]. destruct (IsStore _); [|exact Hs].
  unfold store_step. match goal with |- context [store s ?b ?o ?z ?k] => assert (Hst : state_ok (store s b o z k)) end.
  { apply store_ok; [exact Hs|]. destruct (isAtomic i); [reflexivity|]. destruct (_ && _); [now apply reg_ok|reflexivity]. }
  destruct (isAtomic i); [|exact Hst]. cbn [fold_left].
  repeat (apply set_ok; [|apply joinCtx_ok; [apply reg_ok|unfold loaded_kind; now destruct (_ || _)]]); try exact Hst;
    repeat (apply set_ok; [|apply joinCtx_ok; [apply reg_ok|unfold loaded_kind; now destruct (_ || _)]]); exact Hst.
Qed.

Lemma arg_floor_ok k f : kind_ok k -> -512 <= f <= 0 -> -512 <= arg_floor k f <= f.
Proof. unfold arg_floor, kind_ok, mayFrame. intros Hk Hf. destruct (tag k); cbn in *; try case_bool_decide; try congruence; lia. Qed.

Lemma arg_floors_ok ks f : Forall kind_ok ks -> -512 <= f <= 0 -> -512 <= fold_left (fun f k => arg_floor k f) ks f <= f.
Proof. intros Hks. revert f. induction Hks as [|k ks Hk _ IH]; intros f Hf; cbn; [lia|]. pose proof (arg_floor_ok k f Hk Hf). specialize (IH (arg_floor k f)). lia. Qed.

Lemma call_ok s h w e : state_ok s -> state_ok (call s h w e).
Proof.
  intros Hs. unfold call. set (ks := map (kreg s) args).
  assert (Hks : Forall kind_ok ks) by (repeat constructor; now apply kreg_ok).
  assert (H1 : state_ok (mkState (regs s) (sslots s) (if h then fold_left (fun f k => arg_floor k f) ks (floor s) else floor s))).
  { destruct Hs as (A1 & A2 & A3 & A4 & A5). unfold state_ok. cbn [regs sslots floor]. pose proof (arg_floors_ok ks (floor s) Hks A5). splits; auto; destruct h; lia. }
  match goal with |- context [if ?c then fill ?x _ _ _ else _] => assert (H2 : state_ok (if c then fill x (-512) 0 kAny else x)) end.
  { destruct (_ && _); [apply fill_ok; [|reflexivity]|]; now apply clobber_ok. }
  match goal with |- context [set_all ?x ?l kOther] => assert (H3 : state_ok (set_all x l kOther)) by (now apply set_all_ok) end.
  destruct h; [exact H3|]. destruct (existsb mayFrame ks), (existsb mayCallBack ks || e); repeat apply set_ok; auto; reflexivity.
Qed.
