(* ===== verification/FrameView.v ===== *)
(** * FrameView: the verifier's view of one frame

    What internal/ctxflow/ctxflow.go says the kernel's verifier does to the
    registers and stack slots of a frame, as a nondeterministic semantics:
    the specification the domain of CtxFlow is sound for. A value is data
    (a scalar, or a pointer neither into this frame nor to a function), the
    entry context, a function pointer, or a pointer into this frame. *)

From Stdlib Require Import ZArith Lia Bool List.
From stdpp Require Import base list numbers option.
From S2P Require Import Prelude GoStd Asm CtxFlow.
Local Open Scope Z_scope.

Inductive val := Data | Ctx | Fn | Fp (off : Z).

(** [vfloor]: the lowest frame offset a helper was passed, above which a
    pointer the helper returned may alias the frame. *)
Record vstate := mkV { vregs : Z -> val; vslots : nat -> val; vfloor : Z }.

Definition isFp (v : val) : Prop := match v with Fp _ => True | _ => False end.
Definition isFn (v : val) : Prop := match v with Fn => True | _ => False end.

(** The value a register operand has: R10 is the frame's base; the scratch
    registers of translated code may hold anything. *)
Definition vread (s : vstate) (r : Z) (v : val) : Prop :=
  if r =? RFP then v = Fp 0 else if r <? RFP then v = vregs s r else True.

Definition same_slots (s s' : vstate) : Prop := forall i, (i < 64)%nat -> vslots s' i = vslots s i.
Definition same_regs (s s' : vstate) : Prop := forall q, vregs s' q = vregs s q.

Definition vset (s s' : vstate) (r : Z) (v : val) : Prop :=
  (forall q, vregs s' q = if (q =? r) && (r <? RFP) then v else vregs s q) /\ same_slots s s' /\ vfloor s' = vfloor s.

(** Frame bytes [[at_, at_ + size)] reach slot [i]; they are slot [i]. *)
Definition reaches (at_ size : Z) (i : nat) : Prop := exists b, at_ <= b < at_ + size /\ slot_off i <= b < slot_off i + 8.
Definition exactly (at_ size : Z) (i : nat) : Prop := at_ = slot_off i /\ size = 8.

(** A write the frame's slots may see through an alias above [f]: a slot it
    misses is kept. *)
Definition alias_write (s s' : vstate) (f : Z) : Prop :=
  forall i, (i < 64)%nat -> vslots s' i = vslots s i \/ f < slot_off i + 8 /\ vslots s' i = Data.

(** A store of [w] through [base]; an atomic may leave anything. *)
Definition vstore (s s' : vstate) (base : val) (off size : Z) (atomic : bool) (w : val) : Prop :=
  match base with
  | Fp o =>
      forall i, (i < 64)%nat ->
        (exactly (o + off) size i -> atomic = true \/ vslots s' i = w) /\
        (reaches (o + off) size i -> ~ exactly (o + off) size i -> atomic = true \/ vslots s' i = Data) /\
        (~ reaches (o + off) size i -> vslots s' i = vslots s i)
  | _ => alias_write s s' (vfloor s)
  end.

Definition shifted (i : Instruction) (o : Z) : Z := if isALU64 i Sub then o - Constant i else o + Constant i.

Definition alu_result (i : Instruction) (s : vstate) (v : val) : Prop :=
  if isALU64 i Mov && (Offset i =? 0) then (if fromReg i then vread s (Src i) v else v = Data)
  else if isALU64 i Add || isALU64 i Sub then
    exists d e, vread s (Dst i) d /\ (if fromReg i then vread s (Src i) e else e = Data) /\
      (match d with Fp o => fromImm i = true -> v = Fp (shifted i o) | _ => True end) /\
      (~ isFp d -> ~ isFn d -> ~ isFp e -> ~ isFn e -> v = Data)
  else v = Data.

Definition load_result (i : Instruction) (s : vstate) (v : val) : Prop :=
  if Src i <=? RFP then
    exists base, vread s (Src i) base /\
      match base with
      | Fp o =>
          (forall n, (n < 64)%nat -> exactly (o + Offset i) 8 n -> memMode i = true -> dword i = true -> v = vslots s n) /\
          ((forall n, (n < 64)%nat -> ~ exactly (o + Offset i) 8 n) \/ memMode i = false \/ dword i = false -> v = Data)
      | _ => v = Data
      end
  else True.

Definition store_value (i : Instruction) (s : vstate) (w : val) : Prop :=
  if bool_decide (class i = StXClass) && dword i then vread s (Src i) w else w = Data.

(** An atomic writes memory through Dst, or reads it through Src (a
    load-acquire), and may load the old value into R0, Src or Dst. *)
Definition vatomic (s s' : vstate) (i : Instruction) : Prop :=
  exists d e, vread s (Dst i) d /\ vread s (Src i) e /\
    vstore s s' d (Offset i) (Sizeof (OpSize (OpCode i))) true Data /\ vfloor s' = vfloor s /\
    forall q, vregs s' q = vregs s q \/ (q = R0 \/ q = Src i \/ q = Dst i) /\ (isFp d \/ isFp e \/ vregs s' q = Data).

(** An instruction that is neither a jump nor a call. *)
Definition vstep (i : Instruction) (s s' : vstate) : Prop :=
  match class i with
  | ALUClass | ALU64Class => exists v, alu_result i s v /\ vset s s' (Dst i) v
  | LdXClass => exists v, load_result i s v /\ vset s s' (Dst i) v
  | LdClass =>
      if bool_decide (Mode (OpCode i) = ImmMode) then vset s s' (Dst i) (if IsLoadOfFunctionPointer i then Fn else Data)
      else (forall q, vregs s' q = if q <=? R5 then Data else vregs s q) /\ same_slots s s' /\ vfloor s' = vfloor s
  | StClass =>
      if bool_decide (Mode (OpCode i) = AtomicMode) then same_regs s s' /\ same_slots s s' /\ vfloor s' = vfloor s
      else exists d, vread s (Dst i) d /\ vstore s s' d (Offset i) (Sizeof (OpSize (OpCode i))) false Data /\ same_regs s s' /\ vfloor s' = vfloor s
  | StXClass =>
      if isAtomic i then vatomic s s' i
      else exists d w, vread s (Dst i) d /\ store_value i s w /\
        vstore s s' d (Offset i) (Sizeof (OpSize (OpCode i))) false w /\ same_regs s s' /\ vfloor s' = vfloor s
  | _ => False
  end.

Definition arg_low (v : val) (f : Z) : Z := match v with Fp o => Z.min f o | _ => f end.
Definition someArg (s : vstate) (P : val -> Prop) : Prop := exists r, In r args /\ P (vregs s r).

(** A call: a helper writes forward of the frame pointers it gets, and
    anywhere through one when it runs a callback; a BPF function writes
    anywhere through one unless it is [writeFree]. *)
Definition vcall (helper writeFree elsewhere : bool) (s s' : vstate) : Prop :=
  vfloor s' = (if helper then fold_left (fun f r => arg_low (vregs s r) f) args (vfloor s) else vfloor s) /\
  (someArg s isFp /\ (helper = true /\ someArg s isFn \/ helper = false /\ writeFree = false) \/ alias_write s s' (vfloor s')) /\
  (forall q, In q args -> vregs s' q = Data) /\ (forall q, R5 < q -> vregs s' q = vregs s q) /\
  (vregs s' R0 = Data \/
   helper = false /\ (vregs s' R0 = Ctx \/ vregs s' R0 = Fn /\ (someArg s isFn \/ elsewhere = true) \/ someArg s isFp)).

(** bpf_get_smp_processor_id, once inlined, keeps R1-R5. *)
Definition vcall_keeping (s s' : vstate) : Prop :=
  exists s1, vcall true false false s s1 /\ vfloor s' = vfloor s1 /\ same_slots s1 s' /\
    forall q, vregs s' q = vregs s1 q \/ In q args /\ vregs s' q = vregs s q.
