(* ===== verification/CtxFlowSound.v ===== *)
(** * CtxFlowSound: the context-flow domain covers the verifier's view *)

From Stdlib Require Import ZArith Lia Bool List.
From stdpp Require Import base list numbers option.
From S2P Require Import Prelude GoStd Asm Worklist CtxFlow CtxFlowFacts FrameView.
Local Open Scope Z_scope.

(** Case analysis on the condition of the goal. *)
Ltac if_goal := match goal with |- context [if ?b then _ else _] => destruct b eqn:? end.

Definition gammaK (k : ctxKind) (v : val) : Prop :=
  match tag k with
  | ctxOther => v = Data \/ v = Ctx
  | ctxValue => v = Ctx
  | ctxFunc => ~ isFp v
  | ctxFrame => v = Fp (koff k)
  | ctxAny => True
  end.

Definition kslot (a : ctxState) (i : nat) : ctxKind := default kOther (sslots a !! i).

Definition gamma (a : ctxState) (s : vstate) : Prop :=
  (forall r, 0 <= r < 10 -> gammaK (kreg a r) (vregs s r)) /\
  (forall i, (i < 64)%nat -> gammaK (kslot a i) (vslots s i)) /\
  floor a <= Z.max (-512) (vfloor s).

(** What the encoding guarantees of an instruction's fields: the two size
    bits of a store are one of the four sizes. *)
Definition ins_ok (i : Instruction) : Prop :=
  0 <= Dst i /\ 0 <= Src i /\ in_i64 (Constant i) /\ (IsStore (class i) = true -> 0 < Sizeof (OpSize (OpCode i))).

Lemma gammaK_leq a b v : leqK a b -> gammaK a v -> gammaK b v.
Proof. intros [-> |[-> |[[-> Ha]|[-> Ha]]]] Hv; [exact Hv|exact I| |]; destruct a as [[] o], v; cbn in *; intuition congruence. Qed.

Lemma gammaK_join_l a b v : gammaK a v -> gammaK (joinCtx a b) v.
Proof. apply gammaK_leq, joinCtx_l. Qed.

Lemma gammaK_join_r a b v : gammaK b v -> gammaK (joinCtx a b) v.
Proof. apply gammaK_leq, joinCtx_r. Qed.

Lemma gammaK_other k : gammaK (joinCtx k kOther) Data.
Proof. apply gammaK_join_r. now left. Qed.

Lemma leq_default l l' i : Forall2 leqK l l' -> leqK (default kOther (l !! i)) (default kOther (l' !! i)).
Proof.
  intros H. destruct (Forall2_lookup leqK l l') as [F _]. specialize (F H i).
  inversion F; subst; cbn; first [assumption|now left].
Qed.

Lemma gamma_leq a b s : leq a b -> gamma a s -> gamma b s.
Proof.
  intros (H1 & H2 & H3) (G1 & G2 & G3). split; [|split; [|lia]].
  - intros r Hr. exact (gammaK_leq _ _ _ (leq_default _ _ _ H1) (G1 r Hr)).
  - intros i Hi. exact (gammaK_leq _ _ _ (leq_default _ _ _ H2) (G2 i Hi)).
Qed.

Lemma reg_sound a s r v : gamma a s -> 0 <= r -> vread s r v -> gammaK (reg a r) v.
Proof.
  intros (G & _) Hr. unfold vread, reg, RFP. destruct (r =? 10) eqn:E1; [now intros ->|]. destruct (r <? 10) eqn:E2; [|easy].
  bools. intros ->. apply G. lia.
Qed.

(** ** Lookups after an update *)

Lemma kreg_set a r k q : state_ok a -> 0 <= r -> 0 <= q < 10 -> kreg (set a r k) q = if (q =? r) && (r <? RFP) then k else kreg a q.
Proof.
  intros (Hl & _) Hr Hq. unfold set, kreg. destruct (r <? RFP) eqn:E1; [|now rewrite andb_false_r]. unfold RFP in E1. bools. cbn.
  destruct (q =? r) eqn:E2; bools; cbn; [subst; now rewrite list_lookup_insert_eq by lia|now rewrite list_lookup_insert_ne by lia].
Qed.

Lemma kslot_set a r k i : kslot (set a r k) i = kslot a i.
Proof. unfold set. now destruct (_ <? _). Qed.

Lemma floor_set a r k : floor (set a r k) = floor a.
Proof. unfold set. now destruct (_ <? _). Qed.

Lemma kslot_with a f i : state_ok a -> (i < 64)%nat -> kslot (with_slots a f) i = f i (kslot a i).
Proof.
  intros (_ & Hl & _) Hi. unfold kslot. cbn. rewrite list_lookup_imap. destruct (lookup_lt_is_Some_2 (sslots a) i) as [k ->]; [lia|reflexivity].
Qed.

Lemma gamma_set a s s' r k v : state_ok a -> 0 <= r -> gamma a s -> gammaK k v -> vset s s' r v -> gamma (set a r k) s'.
Proof.
  intros Ha Hr (G1 & G2 & G3) Hk (V1 & V2 & V3). split; [|split].
  - intros q Hq. rewrite kreg_set, V1 by auto. destruct (_ && _); auto.
  - intros i Hi. rewrite kslot_set, V2 by auto. auto.
  - rewrite floor_set. lia.
Qed.

Lemma kreg_set_all a rs k q : state_ok a -> kind_ok k -> Forall (fun r => 0 <= r < 10) rs -> 0 <= q < 10 ->
  kreg (set_all a rs k) q = if existsb (Z.eqb q) rs then k else kreg a q.
Proof.
  intros Ha Hk Hrs Hq. revert a Ha. induction Hrs as [|r rs Hr _ IH]; intros a Ha; cbn; [reflexivity|].
  change (fold_left (fun s r0 => set s r0 k) rs (set a r k)) with (set_all (set a r k) rs k).
  rewrite IH by (now apply set_ok). rewrite kreg_set by (auto; lia).
  assert (E : (r <? RFP) = true) by (apply Z.ltb_lt; unfold RFP; lia). rewrite E, andb_true_r. destruct (q =? r); cbn; [|reflexivity]. now destruct (existsb _ rs).
Qed.

Lemma set_all_rest a rs k : sslots (set_all a rs k) = sslots a /\ floor (set_all a rs k) = floor a.
Proof. revert a. induction rs as [|r rs IH]; intros a; [auto|]. change (set_all a (r :: rs) k) with (set_all (set a r k) rs k). destruct (IH (set a r k)) as [-> ->]. unfold set. now destruct (_ <? _). Qed.

(** ** Stores *)

Lemma ctxSlot_exact at_ : let '(i, ok) := ctxSlot at_ in
  if ok then (Z.to_nat i < 64)%nat /\ at_ = slot_off (Z.to_nat i) else forall i, (i < 64)%nat -> at_ <> slot_off i.
Proof.
  unfold ctxSlot. destruct (_ && _) eqn:E.
  - bools. assert (Hq : - at_ = 8 * Z.quot (- at_) 8).
    { rewrite (Z.quot_rem' (- at_) 8) at 1. rewrite Z.rem_opp_l'. lia. }
    unfold slot_off. split; lia.
  - intros i Hi ->. unfold slot_off in E. apply andb_false_iff in E as [E|E]; [bools; lia|]. apply Z.eqb_neq in E. apply E.
    replace (-8 * (Z.of_nat i + 1)) with ((- (Z.of_nat i + 1)) * 8) by lia. apply Z.rem_mul. lia.
Qed.

Lemma reaches_iff at_ size i : 0 < size -> reaches at_ size i <-> slot_off i < at_ + size /\ at_ < slot_off i + 8.
Proof.
  intros Hs. unfold reaches. split; [intros (b & ? & ?); lia|]. intros [? ?]. exists (Z.max at_ (slot_off i)). lia.
Qed.

Lemma alias_write_mono s s' f g : f <= g -> alias_write s s' g -> alias_write s s' f.
Proof. intros Hf H i Hi. destruct (H i Hi) as [E|[L E]]; [now left|right; split; [lia|exact E]]. Qed.

(** Slots above an abstract floor no higher than the frame's. *)
Lemma clobber_sound a s s' f lo : state_ok a -> (forall i, (i < 64)%nat -> gammaK (kslot a i) (vslots s i)) -> lo <= Z.max (-512) f ->
  alias_write s s' f -> forall i, (i < 64)%nat -> gammaK (kslot (clobber a lo) i) (vslots s' i).
Proof.
  intros Ha G Hlo H i Hi. unfold clobber. rewrite kslot_with by auto.
  assert (Hb : -512 <= slot_off i <= -8) by (unfold slot_off; lia).
  destruct (lo <? slot_off i + 8) eqn:E; bools.
  - destruct (H i Hi) as [-> |[_ ->]]; [apply gammaK_join_l; auto|apply gammaK_other].
  - destruct (H i Hi) as [-> |[? _]]; [auto|lia].
Qed.

Lemma fill_any a i lo : state_ok a -> (i < 64)%nat -> lo <= -512 -> kslot (fill a lo 0 kAny) i = kAny.
Proof.
  intros Ha Hi Hl. unfold fill. rewrite kslot_with by auto. assert (Hb : -512 <= slot_off i <= -8) by (unfold slot_off; lia).
  destruct (slot_off i <? 0) eqn:E1; bools; [|lia]. destruct (lo <? slot_off i + 8) eqn:E2; bools; [reflexivity|lia].
Qed.

Lemma gammaK_other_not k v : atMost ctxFunc (tag k) = false -> gammaK k v -> ~ isFp v /\ ~ isFn v.
Proof. destruct k as [[] o]; cbn; try discriminate; intros _; [intros [-> | ->]|intros ->]; cbn; auto. Qed.

Lemma gammaK_below_frame k v : mayFrame k = false -> gammaK k v -> ~ isFp v.
Proof. destruct k as [[] o]; cbn; try discriminate; intros _; [intros [-> | ->]|intros ->|]; cbn; auto. Qed.

Lemma kslot_sound_store a s s' base b off size atomic k w :
  state_ok a -> gamma a s -> 0 < size -> gammaK base b -> vstore s s' b off size atomic w ->
  (if atomic then k = kAny else gammaK k w) ->
  forall i, (i < 64)%nat -> gammaK (kslot (store a base off size k) i) (vslots s' i).
Proof.
  intros Ha (_ & G & Hfl) Hsz Hb Hst Hk i Hi. unfold store. destruct (tag base) eqn:Et.
  1-3: destruct b; unfold gammaK in Hb; rewrite Et in Hb; try (cbn in Hb; intuition congruence); exact (clobber_sound a s s' _ _ Ha G Hfl Hst i Hi).
  - unfold gammaK in Hb. rewrite Et in Hb. subst b. specialize (Hst i Hi) as (S1 & S2 & S3).
    pose proof (ctxSlot_exact (koff base + off)) as Hc. destruct (ctxSlot (koff base + off)) as [n ok].
    destruct (ok && (size =? 8)) eqn:E.
    + bools. subst ok. destruct Hc as [Hn Eat]. destruct (decide (i = Z.to_nat n)) as [->|Hne].
      * unfold kslot. cbn. destruct Ha as (_ & Hl & _). rewrite list_lookup_insert_eq by lia. cbn.
        destruct (S1 ltac:(split; assumption)) as [-> | ->]; [now subst k|]. destruct atomic; [now subst k|exact Hk].
      * unfold kslot. cbn. rewrite list_lookup_insert_ne by auto. rewrite S3; [now apply G|].
        rewrite reaches_iff by exact Hsz. unfold slot_off in *. lia.
    + assert (Hex : ~ exactly (koff base + off) size i).
      { intros [Eat ->]. cbn in E. rewrite andb_true_r in E. subst ok. now apply (Hc i Hi). }
      unfold fill. rewrite kslot_with by auto. destruct ((slot_off i <? _) && _) eqn:Er.
      * bools. destruct S2 as [-> | ->]; [apply reaches_iff; lia|exact Hex| |].
        { subst k. exact I. } { destruct (bool_decide (tag k = ctxAny)) eqn:Ek; [|now left]. apply bool_decide_eq_true in Ek. unfold gammaK. now rewrite Ek. }
      * rewrite S3; [now apply G|]. rewrite reaches_iff by exact Hsz. intros [H1 H2]. apply andb_false_iff in Er as [Er|Er]; bools; lia.
  - now rewrite fill_any by (auto; lia).
Qed.

Lemma store_rest a base off size k : regs (store a base off size k) = regs a /\ floor (store a base off size k) = floor a.
Proof. unfold store. destruct (tag base); auto. destruct (ctxSlot _). now destruct (_ && _). Qed.


(** ** Instructions *)

(** A wrapped sum that lands in the frame has not wrapped. *)
Lemma i64_near x : - two63 - 512 <= x <= two63 -> -512 <= i64 x <= 0 -> i64 x = x.
Proof.
  unfold i64. intros Hx Hi. pose proof (Z.div_mod (x + two63) two64 ltac:(easy)) as Hd. pose proof (Z.mod_pos_bound (x + two63) two64 ltac:(easy)).
  unfold two63, two64 in *. lia.
Qed.

Lemma offset_sound a s i v : state_ok a -> ins_ok i -> gamma a s -> isALU64 i Mov = false ->
  isALU64 i Add || isALU64 i Sub = true -> alu_result i s v -> gammaK (offset_kind a i) v.
Proof.
  intros Ha (Hd & Hs & Hc & _) G Hm Has. unfold alu_result. rewrite Hm, Has. cbn [andb]. intros (d & e & Rd & Re & Rf & Rn).
  pose proof (reg_sound _ _ _ _ G Hd Rd) as Gd. unfold offset_kind. destruct (fromImm i && bool_decide (tag (reg a (Dst i)) = ctxFrame)) eqn:E.
  - apply andb_prop in E as [E1 E2]. apply bool_decide_eq_true in E2. pose proof (reg_ok a (Dst i) Ha) as Hok. unfold gammaK in Gd. unfold kind_ok in Hok. destruct (reg a (Dst i)) as [t o]. cbn in *. subst t d. rewrite Rf by auto.
    unfold shifted. destruct (isALU64 i Sub); cbv zeta;
      match goal with |- context [i64 ?x] => destruct ((-512 <=? i64 x) && (i64 x <=? 0)) eqn:Er; [|exact I]; bools;
        rewrite (i16_small (i64 x)) by lia; assert (Ex : i64 x = x) by (apply i64_near; unfold in_i64 in *; lia); now rewrite Ex end.
  - destruct (atMost ctxFunc _ || _) eqn:E2; [exact I|]. apply orb_false_elim in E2 as [E2 E3].
    destruct (gammaK_other_not _ _ E2 Gd) as [N1 N2]. left.
    assert (Ne : ~ isFp e /\ ~ isFn e); [|now apply Rn].
    destruct (fromReg i); [exact (gammaK_other_not _ _ E3 (reg_sound _ _ _ _ G Hs Re))|subst e; now split].
Qed.

Lemma load_sound a s i v : ins_ok i -> gamma a s -> load_result i s v -> gammaK (load_kind a i) v.
Proof.
  intros (Hd & Hs & _) G. pose proof G as (_ & Gs & _). unfold load_result, load_kind. destruct (Src i <=? RFP) eqn:Er.
  2:{ intros _. unfold reg. unfold RFP in *. bools. destruct (Src i =? 10) eqn:E1; bools; [lia|]. destruct (Src i <? 10) eqn:E2; bools; [lia|]. exact I. }
  intros (b & Rb & Hb). pose proof (reg_sound _ _ _ _ G Hs Rb) as Gb. case_bool_decide as Ea; [unfold gammaK; now rewrite Ea|].
  pose proof (ctxSlot_exact (koff (reg a (Src i)) + Offset i)) as Hc. destruct (ctxSlot _) as [n ok].
  unfold gammaK in Gb. destruct (tag (reg a (Src i))) eqn:Et; try easy.
  1-3: rewrite andb_false_r; cbn [andb]; left; destruct b; cbn in Gb; intuition congruence.
  subst b. destruct Hb as [B1 B2]. rewrite bool_decide_true, andb_true_r by reflexivity. destruct (ok && memMode i && dword i) eqn:E.
  - bools. subst ok. destruct Hc as [Hn Eat]. change (default kOther (sslots a !! Z.to_nat n)) with (kslot a (Z.to_nat n)). rewrite (B1 (Z.to_nat n)); auto. now split.
  - left. apply B2. destruct ok; cbn in E; [right; now apply andb_false_iff in E|]. left. intros m Hm [Eat _]. now apply (Hc m Hm).
Qed.

Lemma gamma_same a s s' : gamma a s -> same_regs s s' -> same_slots s s' -> vfloor s' = vfloor s -> gamma a s'.
Proof.
  intros (G1 & G2 & G3) Hr Hs Hf. split; [|split; [|lia]]; [intros r Hq; rewrite Hr; auto|intros i Hi; rewrite Hs; auto].
Qed.

(** The values an atomic leaves in a register cover what it may load. *)
Lemma atomic_regs a i rs q : state_ok a -> Forall (fun r => 0 <= r) rs -> 0 <= q < 10 ->
  let a' := fold_left (fun s r => set s r (joinCtx (reg s r) (loaded_kind a i))) rs a in
  leqK (kreg a q) (kreg a' q) /\ (In q rs -> leqK (loaded_kind a i) (kreg a' q)) /\ sslots a' = sslots a /\ floor a' = floor a /\ state_ok a'.
Proof.
  intros Ha Hrs Hq. set (k := loaded_kind a i). assert (Hk : kind_ok k) by (unfold k, loaded_kind; now destruct (_ || _)). clearbody k.
  revert a Ha. induction Hrs as [|r rs Hr _ IH]; intros a Ha; cbn [fold_left]; [splits; auto; [now left|easy]|].
  assert (Ha' : state_ok (set a r (joinCtx (reg a r) k))) by (apply set_ok; [exact Ha|apply joinCtx_ok; [now apply reg_ok|exact Hk]]).
  destruct (IH _ Ha') as (I1 & I2 & I3 & I4 & I5).
  assert (Hkr : leqK (kreg a q) (kreg (set a r (joinCtx (reg a r) k)) q) /\ (q = r -> leqK k (kreg (set a r (joinCtx (reg a r) k)) q))).
  { rewrite kreg_set by auto. assert (El : (q <? RFP) = true) by (apply Z.ltb_lt; unfold RFP; lia).
    destruct (q =? r) eqn:E; [apply Z.eqb_eq in E|apply Z.eqb_neq in E].
    - subst r. rewrite El. cbn [andb]. assert (Er : reg a q = kreg a q).
      { unfold reg. rewrite El. destruct (q =? RFP) eqn:E2; [unfold RFP in *; bools; lia|reflexivity]. }
      rewrite Er. split; [apply joinCtx_l|intros _; apply joinCtx_r].
    - cbn [andb]. split; [now left|easy]. }
  destruct Hkr as [K1 K2]. splits; [eapply leqK_trans; eauto| | | |exact I5].
  - intros [<-|Hin]; [eapply leqK_trans; [now apply K2|exact I1]|now apply I2].
  - rewrite I3. unfold set. now destruct (_ <? _).
  - now rewrite I4, floor_set.
Qed.

Lemma loaded_kind_store a i base off size k : loaded_kind (store a base off size k) i = loaded_kind a i.
Proof. unfold loaded_kind, reg, kreg. now rewrite (proj1 (store_rest a base off size k)). Qed.

Lemma gamma_store a s s' base b off size atomic k w :
  state_ok a -> gamma a s -> 0 < size -> gammaK base b -> vstore s s' b off size atomic w -> (if atomic then k = kAny else gammaK k w) ->
  same_regs s s' -> vfloor s' = vfloor s -> gamma (store a base off size k) s'.
Proof.
  intros Ha G Hsz Hb Hst Hk Hr Hf. pose proof (store_rest a base off size k) as [E1 E2]. split; [|split].
  - intros r Hq. unfold kreg. rewrite E1, Hr. now apply G.
  - eapply kslot_sound_store; eauto.
  - rewrite E2, Hf. apply G.
Qed.

Lemma atomic_sound a s s' i : state_ok a -> ins_ok i -> gamma a s -> IsStore (class i) = true -> isAtomic i = true ->
  vatomic s s' i -> gamma (store_step a i) s'.
Proof.
  intros Ha (Hd & Hs & _ & Hsz) G Hcl Hat (d & e & Rd & Re & Hst & Hf & Hr). unfold store_step. rewrite Hat. cbv zeta.
  set (a1 := store a _ _ _ _). assert (Ha1 : state_ok a1) by (now apply store_ok).
  assert (G1 : gamma a1 (mkV (vregs s) (vslots s') (vfloor s'))).
  { eapply gamma_store with (s := s) (atomic := true); [exact Ha|exact G|auto|exact (reg_sound _ _ _ _ G Hd Rd)|exact Hst|reflexivity|easy|exact Hf]. }
  assert (Hl : loaded_kind a1 i = loaded_kind a i) by apply loaded_kind_store.
  assert (Hnn : Forall (fun r => 0 <= r) [R0; Src i; Dst i]) by (repeat constructor; unfold R0; lia).
  pose proof (fun q Hq => atomic_regs a1 i [R0; Src i; Dst i] q Ha1 Hnn Hq) as Hregs. cbv zeta in Hregs. destruct G1 as (G11 & G12 & G13).
  split; [|split].
  - intros q Hq. destruct (Hregs q Hq) as (L1 & L2 & _). destruct (Hr q) as [-> |[Hin Hv]].
    + exact (gammaK_leq _ _ _ L1 (G11 q Hq)).
    + eapply gammaK_leq; [apply L2; cbn; intuition|]. rewrite Hl. unfold loaded_kind. destruct (atMost ctxFrame _ || _) eqn:E; [exact I|].
      apply orb_false_elim in E as [E1 E2]. pose proof (gammaK_below_frame _ _ E1 (reg_sound _ _ _ _ G Hd Rd)). pose proof (gammaK_below_frame _ _ E2 (reg_sound _ _ _ _ G Hs Re)).
      left. tauto.
  - intros n Hn. destruct (Hregs 0 ltac:(lia)) as (_ & _ & Hsl & _). unfold kslot. rewrite Hsl. now apply G12.
  - destruct (Hregs 0 ltac:(lia)) as (_ & _ & _ & Hfl & _). rewrite Hfl. exact G13.
Qed.

Lemma store_sound a s s' i d w : state_ok a -> ins_ok i -> gamma a s -> IsStore (class i) = true -> isAtomic i = false ->
  vread s (Dst i) d -> store_value i s w -> vstore s s' d (Offset i) (Sizeof (OpSize (OpCode i))) false w ->
  same_regs s s' -> vfloor s' = vfloor s -> gamma (store_step a i) s'.
Proof.
  intros Ha (Hd & Hs & _ & Hsz) G Hcl Hat Rd Rw Hst Hr Hf. unfold store_step. rewrite Hat. unfold store_value in Rw.
  eapply gamma_store with (s := s) (atomic := false); [exact Ha|exact G|auto|exact (reg_sound _ _ _ _ G Hd Rd)|exact Hst| |exact Hr|exact Hf].
  destruct (_ && _); [exact (reg_sound _ _ _ _ G Hs Rw)|left; exact Rw].
Qed.

(** [step] covers every effect an instruction can have. *)
Lemma step_sound a s s' i : state_ok a -> ins_ok i -> gamma a s -> vstep i s s' -> gamma (step a i) s'.
Proof.
  intros Ha Hi G Hv. pose proof Hi as (Hd & _ & _ & Hsz). unfold vstep in Hv. unfold step.
  assert (Hcls : forall op, isALU64 i op = true -> class i = ALU64Class) by (intros op Ho; unfold isALU64 in Ho; apply andb_prop in Ho as [Ho _]; now apply bool_decide_eq_true in Ho).
  assert (Hno : forall op, class i <> ALU64Class -> isALU64 i op = false) by (intros op Hn; destruct (isALU64 i op) eqn:E; [now apply Hcls in E|reflexivity]).
  destruct (IsALU (class i)) eqn:Ealu.
  - assert (Hv' : exists v, alu_result i s v /\ vset s s' (Dst i) v) by (destruct (class i); try discriminate; exact Hv). clear Hv.
    destruct Hv' as (v & Hr & Hset). pose proof Hr as Hr'. unfold alu_result in Hr.
    destruct (isALU64 i Mov && (Offset i =? 0)) eqn:Em.
    + apply (gamma_set a s s' _ _ v Ha Hd G); [|exact Hset]. destruct (fromReg i); [|now left]. eapply reg_sound; [exact G|apply Hi|exact Hr].
    + destruct (isALU64 i Add || isALU64 i Sub) eqn:Eas; (apply (gamma_set a s s' _ _ v Ha Hd G); [|exact Hset]).
      * apply (offset_sound a s i v Ha Hi G); [|exact Eas|exact Hr'].
        destruct (isALU64 i Mov) eqn:E1; [|reflexivity]. exfalso. unfold isALU64 in *. apply andb_prop in E1 as [_ E1]. apply bool_decide_eq_true in E1.
        rewrite E1, !andb_false_r in Eas. discriminate.
      * now left.
  - assert (Hn : class i <> ALU64Class) by (intros E; now rewrite E in Ealu). rewrite !Hno by exact Hn. cbn [andb orb].
    destruct (class i) eqn:Ec; try discriminate; try contradiction.
    + cbn [bool_decide decide_rel]. rewrite (bool_decide_false (LdClass = LdXClass)) by discriminate. rewrite bool_decide_true by reflexivity. cbn [andb].
      destruct (bool_decide (Mode (OpCode i) = ImmMode)).
      * apply (gamma_set a s s' _ _ _ Ha Hd G) with (2 := Hv). destruct (IsLoadOfFunctionPointer i); [now intros []|now left].
      * destruct Hv as (V1 & V2 & V3). destruct (set_all_rest a [R0; R1; R2; R3; R4; R5] kOther) as [S1 S2]. destruct G as (G1 & G2 & G3). split; [|split].
        -- intros q Hq. rewrite kreg_set_all by (try easy; repeat constructor; easy). rewrite V1. cbn [existsb]. unfold R0, R1, R2, R3, R4, R5.
           destruct (q <=? 5) eqn:E5; bools.
           ++ match goal with |- context [if ?b then _ else _] => destruct b eqn:E end; [now left|]. bools. lia.
           ++ match goal with |- context [if ?b then _ else _] => destruct b eqn:E end; [|now apply G1]. repeat apply orb_prop in E as [E|E]; bools; try lia; discriminate.
        -- intros n Hn'. unfold kslot. rewrite S1, V2 by exact Hn'. now apply G2.
        -- rewrite S2. lia.
    + rewrite bool_decide_true by reflexivity. destruct Hv as (v & Hr & Hset). apply (gamma_set a s s' _ _ v Ha Hd G); [|exact Hset]. now apply (load_sound a s).
    + change (bool_decide (StClass = LdXClass)) with false. change (bool_decide (StClass = LdClass)) with false. change (bool_decide (StClass = StClass)) with true. cbn [andb].
      destruct (bool_decide (Mode (OpCode i) = AtomicMode)).
      * destruct Hv as (V1 & V2 & V3). now apply (gamma_same a s).
      * destruct Hv as (d & Rd & Hst & V1 & V3). cbn [IsStore].
        assert (Ex : bool_decide (class i = StXClass) = false) by (apply bool_decide_eq_false; congruence).
        apply (store_sound a s s' i d Data Ha Hi G); auto; unfold isAtomic, store_value; rewrite ?Ex; [now rewrite Ec|reflexivity..].
    + change (bool_decide (StXClass = LdXClass)) with false. change (bool_decide (StXClass = LdClass)) with false. change (bool_decide (StXClass = StClass)) with false. cbn [andb IsStore]. destruct (isAtomic i) eqn:Eat.
      * apply (atomic_sound a s s' i Ha Hi G); [now rewrite Ec|exact Eat|exact Hv].
      * destruct Hv as (d & w & Rd & Rw & Hst & V1 & V3). apply (store_sound a s s' i d w Ha Hi G); auto. now rewrite Ec.
Qed.

(** ** Calls *)

Lemma arg_in_range r : In r args -> 0 <= r < 10.
Proof. cbn. unfold R1, R2, R3, R4, R5. lia. Qed.

Lemma someArg_abs a s (P : val -> Prop) (b : ctxKind -> bool) :
  gamma a s -> (forall k v, gammaK k v -> P v -> b k = true) -> someArg s P -> existsb b (map (kreg a) args) = true.
Proof.
  intros (G & _) Hb (r & Hin & HP). apply existsb_exists. exists (kreg a r). split; [now apply in_map|]. eapply Hb; [|exact HP]. now apply G, arg_in_range.
Qed.

Lemma mayFrame_sound k v : gammaK k v -> isFp v -> mayFrame k = true.
Proof. destruct (mayFrame k) eqn:E; [reflexivity|]. intros G HF. now destruct (gammaK_below_frame _ _ E G). Qed.

Lemma mayCallBack_sound k v : gammaK k v -> isFn v -> mayCallBack k = true.
Proof. destruct k as [[] o], v; cbn; intuition congruence. Qed.

Lemma arg_floor_sound k v f g : kind_ok k -> gammaK k v -> f <= Z.max (-512) g -> arg_floor k f <= Z.max (-512) (arg_low v g).
Proof.
  unfold kind_ok, gammaK, arg_floor, mayFrame. intros Hk Hg Hf. destruct k as [[] o]; cbn in *; subst.
  - destruct Hg as [-> | ->]; exact Hf.
  - exact Hf.
  - destruct v; cbn; try exact Hf. now destruct Hg.
  - cbn. case_bool_decide; [lia|congruence].
  - case_bool_decide; [discriminate|]. destruct v; cbn; lia.
Qed.

Lemma arg_floors_sound a s rs f g : state_ok a -> (forall r, In r rs -> gammaK (kreg a r) (vregs s r)) -> f <= Z.max (-512) g ->
  fold_left (fun f k => arg_floor k f) (map (kreg a) rs) f <= Z.max (-512) (fold_left (fun f r => arg_low (vregs s r) f) rs g).
Proof.
  intros Ha. revert f g. induction rs as [|r rs IH]; intros f g Hg Hf; cbn [map fold_left]; [exact Hf|].
  apply IH; [intros q Hq; apply Hg; now right|]. apply arg_floor_sound; [now apply kreg_ok|apply Hg; now left|exact Hf].
Qed.

(** The slots and the floor after a call. *)
Definition call_frame (a : ctxState) (helper writeFree : bool) : ctxState :=
  let ks := map (kreg a) args in
  let a1 := mkState (regs a) (sslots a) (if helper then fold_left (fun f k => arg_floor k f) ks (floor a) else floor a) in
  let a2 := clobber a1 (floor a1) in
  if existsb mayFrame ks && (helper && existsb mayCallBack ks || negb helper && negb writeFree) then fill a2 (-512) 0 kAny else a2.

Definition call_ret (a : ctxState) (helper elsewhere : bool) : ctxKind :=
  let ks := map (kreg a) args in
  if helper then kOther
  else if existsb mayFrame ks then kAny else if existsb mayCallBack ks || elsewhere then kFunc else kOther.

Lemma call_spec a h w e : state_ok a ->
  sslots (call a h w e) = sslots (call_frame a h w) /\ floor (call a h w e) = floor (call_frame a h w) /\
  (forall q, 0 <= q < 10 -> kreg (call a h w e) q = if q =? 0 then call_ret a h e else if q <=? 5 then kOther else kreg a q).
Proof.
  intros Ha. unfold call. fold (call_frame a h w). assert (Hf : state_ok (call_frame a h w)).
  { pose proof (call_ok a h w e Ha) as Hc. unfold call in Hc. fold (call_frame a h w) in Hc. clear -Ha. unfold call_frame.
    match goal with |- context [clobber (mkState ?r ?s ?f)] => assert (H1 : state_ok (mkState r s f)) end.
    { destruct Ha as (A1 & A2 & A3 & A4 & A5). unfold state_ok. cbn [regs sslots floor].
      assert (Hks : Forall kind_ok (map (kreg a) args)) by (repeat constructor; apply kreg_ok; unfold state_ok; auto).
      pose proof (arg_floors_ok _ (floor a) Hks A5). splits; auto; destruct h; lia. }
    destruct (_ && _); [apply fill_ok; [|reflexivity]|]; now apply clobber_ok. }
  assert (Hr : regs (call_frame a h w) = regs a) by (unfold call_frame; now destruct (_ && _)).
  destruct (set_all_rest (call_frame a h w) [R0; R1; R2; R3; R4; R5] kOther) as [S1 S2].
  assert (Hall : forall q, 0 <= q < 10 -> kreg (set_all (call_frame a h w) [R0; R1; R2; R3; R4; R5] kOther) q = if q <=? 5 then kOther else kreg a q).
  { intros q Hq. rewrite kreg_set_all by (try easy; repeat constructor; easy). unfold kreg. rewrite Hr. cbn [existsb]. unfold R0, R1, R2, R3, R4, R5.
    match goal with |- context [if ?b then _ else _] => destruct b eqn:E end; destruct (q <=? 5) eqn:E5; try reflexivity; exfalso.
    - repeat apply orb_prop in E as [E|E]; bools; try lia; discriminate.
    - bools. lia. }
  set (a3 := set_all _ _ _) in *. assert (H3 : state_ok a3) by (now apply set_all_ok). unfold call_ret.
  destruct h; [splits; auto; intros q Hq; rewrite Hall by exact Hq; destruct (q =? 0) eqn:E0; [bools; now subst q|reflexivity]|].
  assert (Hset : forall b k, state_ok b -> (forall q, 0 <= q < 10 -> q <> 0 -> kreg b q = if q <=? 5 then kOther else kreg a q) ->
     forall q, 0 <= q < 10 -> kreg (set b R0 k) q = if q =? 0 then k else if q <=? 5 then kOther else kreg a q).
  { intros b k Hb Hbq q Hq. rewrite kreg_set by (try easy; unfold R0; lia). unfold R0 at 1. destruct (q =? 0) eqn:E0; [reflexivity|]. bools. now apply Hbq. }
  destruct (existsb mayFrame _), (existsb mayCallBack _ || e); unfold set; cbn [Z.ltb R0 RFP]; splits; auto.
  all: first [apply Hset; [apply set_ok; easy|intros q Hq Hn; rewrite (Hset a3 kFunc H3) by auto; now destruct (q =? 0) eqn:E0; bools]
             |apply Hset; [exact H3|intros q Hq Hn; now apply Hall]
             |intros q Hq; rewrite Hall by exact Hq; destruct (q =? 0) eqn:E0; [bools; now subst q|reflexivity]].
Qed.

Lemma call_sound a s s' h w e : state_ok a -> gamma a s -> vcall h w e s s' -> gamma (call a h w e) s'.
Proof.
  intros Ha G (Vf & Vs & V1 & V2 & V0). destruct (call_spec a h w e Ha) as (C1 & C2 & C3). pose proof G as (G1 & G2 & G3).
  set (f := if h then fold_left (fun f k => arg_floor k f) (map (kreg a) args) (floor a) else floor a).
  assert (Hf : f <= Z.max (-512) (vfloor s')).
  { rewrite Vf. unfold f. destruct h; [|exact G3]. apply arg_floors_sound; auto. intros r Hr. now apply G1, arg_in_range. }
  split; [|split].
  - intros q Hq. rewrite C3 by exact Hq. destruct (q =? 0) eqn:E0.
    + bools. subst q. change (vregs s' 0) with (vregs s' R0). unfold call_ret.
      destruct V0 as [-> |(-> & [-> |[[-> Hfn]|Hfp]])].
      * destruct h; [now left|]. if_goal; [exact I|]. if_goal; [now intros []|now left].
      * if_goal; [exact I|]. if_goal; [now intros []|now right].
      * if_goal; [exact I|]. assert (E : existsb mayCallBack (map (kreg a) args) || e = true).
        { destruct Hfn as [Hfn| ->]; [|apply orb_true_r]. now rewrite (someArg_abs a s isFn mayCallBack G mayCallBack_sound Hfn). }
        rewrite E. now intros [].
      * rewrite (someArg_abs a s isFp mayFrame G mayFrame_sound Hfp). exact I.
    + bools. destruct (q <=? 5) eqn:E5; bools.
      * rewrite V1; [now left|]. cbn. unfold R1, R2, R3, R4, R5. lia.
      * rewrite V2 by (unfold R5; lia). now apply G1.
  - intros i Hi. unfold kslot. rewrite C1. change (gammaK (kslot (call_frame a h w) i) (vslots s' i)). unfold call_frame. fold f.
    assert (Hok : state_ok (mkState (regs a) (sslots a) f)).
    { destruct Ha as (A1 & A2 & A3 & A4 & A5). unfold state_ok, f. cbn [regs sslots floor].
      assert (Hks : Forall kind_ok (map (kreg a) args)) by (repeat constructor; apply kreg_ok; unfold state_ok; auto).
      pose proof (arg_floors_ok _ (floor a) Hks A5). splits; auto; destruct h; lia. }
    destruct (_ && _) eqn:E; [now rewrite fill_any by (auto using clobber_ok; lia)|].
    apply (clobber_sound _ s s' (vfloor s') f Hok G2 Hf); [|exact Hi]. destruct Vs as [[Hfp Hc]|Hal]; [exfalso|exact Hal].
    rewrite (someArg_abs a s isFp mayFrame G mayFrame_sound Hfp) in E. destruct Hc as [[-> Hfn]|[-> ->]]; [|discriminate].
    now rewrite (someArg_abs a s isFn mayCallBack G mayCallBack_sound Hfn) in E.
  - rewrite C2. unfold call_frame. fold f. now destruct (_ && _).
Qed.

(** The state after the inlined helper. *)
Definition keep_args (a a1 : ctxState) : ctxState := fold_left (fun s r => set s r (joinCtx (kreg a r) kOther)) args a1.
