(* ===== verification/FlowProgram.v ===== *)
(** * FlowProgram: the functions of a program and its calls
    (internal/ctxflow/prove.go: [functions], [newFlowProgram], [target],
    [functionWriteFree])

    A BTF function metadata carries, for each parameter of the function's
    prototype, whether its pointee is the context type the caller asked for:
    BTF's types are those of the cilium/ebpf library. *)

From Stdlib Require Import ZArith Lia Bool Ascii String List.
From stdpp Require Import base list strings numbers option gmap.
From S2P Require Import Prelude GoStd Asm.
Local Open Scope Z_scope.

Record function := mkFn { fnName : bytes; Start : Z; End_ : Z; isStatic : bool; isGlobal : bool; CtxParam : Z }.

(** The first parameter whose pointee is the context, or -1. *)
Fixpoint first_param (from : Z) (l : list bool) : Z :=
  match l with
  | [] => -1
  | b :: l => if b then from else first_param (from + 1) l
  end.

Definition describe (off : Z) (i : Instruction) : option function :=
  match FuncMetadata i with
  | None => None
  | Some fm => Some (mkFn (fm_Name fm) off 0 (fm_Static fm) (fm_Global fm) (first_param 0 (fm_Params fm)))
  end.

Definition set_end (f : function) (e : Z) : function := mkFn (fnName f) (Start f) e (isStatic f) (isGlobal f) (CtxParam f).

(** Each function ends where the next starts, the last with the program. *)
Fixpoint set_ends (size : Z) (l : list function) : list function :=
  match l with
  | [] => []
  | f :: l' => set_end f (match l' with g :: _ => Start g | [] => size end) :: set_ends size l'
  end.

Definition functions (insns : list Instruction) : list function :=
  set_ends (raw_size insns) (omap (fun '(off, i) => describe off i) (Iterate insns)).

Record callSite := mkSite { caller : nat; site_pc : Z }.

#[export] Instance callSite_eq_dec : EqDecision callSite. Proof. solve_decision. Defined.

(** The lookups [newFlowProgram] fills first. *)
Record flowBase := mkBase {
  insns : list Instruction; funcs : list function;
  at_ : gmap Z nat; symbols : gmap bytes Z; starts : gmap Z nat
}.

Definition index_starts (l : list function) : gmap Z nat := fold_left (fun m '(n, f) => <[Start f := n]> m) (imap pair l) ∅.
Definition index_pcs (l : list Instruction) : gmap Z nat := fold_left (fun m '(n, pc) => <[pc := n]> m) (imap pair (offsets 0 l)) ∅.
Definition index_symbols (l : list Instruction) : gmap bytes Z :=
  fold_left (fun m '(pc, i) => if has_text (Symbol i) then <[Symbol i := pc]> m else m) (Iterate l) ∅.

Definition newFlowBase (insns : list Instruction) : flowBase :=
  mkBase insns (functions insns) (index_pcs insns) (index_symbols insns) (index_starts (functions insns)).

(** The instruction at a raw pc. *)
Definition ins_at (p : flowBase) (pc : Z) : option Instruction :=
  match at_ p !! pc with Some idx => insns p !! idx | None => None end.

Definition target (p : flowBase) (pc : Z) (i : Instruction) : Z * bool :=
  if has_text (Reference i) then
    match symbols p !! Reference i with Some t => (t, true) | None => (0, false) end
  else
    let rel := if IsFunctionCall i && (Offset i =? 0) || IsLoadOfFunctionPointer i
                  || bool_decide (class i = Jump32Class) && bool_decide (JumpOp (OpCode i) = Ja)
               then i32 (Constant i) else Offset i in
    let t := pc + 1 + rel in
    (t, bool_decide (is_Some (starts p !! t))).

(** The instructions of [[pc, end_)] in order, and whether each was found. *)
Fixpoint walk (fuel : nat) (p : flowBase) (pc end_ : Z) : list (Z * Instruction) * bool :=
  if end_ <=? pc then ([], true)
  else
    match fuel with
    | O => ([], false)
    | S fuel =>
        match ins_at p pc with
        | None => ([], false)
        | Some i => let '(l, ok) := walk fuel p (pc + slots i) end_ in ((pc, i) :: l, ok)
        end
    end.

Definition body (p : flowBase) (fn : function) : list (Z * Instruction) * bool := walk (Z.to_nat (End_ fn - Start fn)) p (Start fn) (End_ fn).

Definition writes_memory (i : Instruction) : bool :=
  bool_decide (JumpOp (OpCode i) = Call) ||
  (bool_decide (class i = StXClass) || bool_decide (class i = StClass) && negb (bool_decide (Mode (OpCode i) = AtomicMode))) && negb (Dst i =? RFP).

Definition functionWriteFree (p : flowBase) (fn : function) : bool :=
  let '(l, ok) := body p fn in ok && forallb (fun '(_, i) => negb (writes_memory i)) l.

Record flowProgram := mkFlow {
  base : flowBase;
  callback : gmap Z bool; refs : gmap Z (list callSite); callers : gmap Z (list callSite);
  writeFree : gmap Z bool; fnPtrElsewhere : bool
}.

Definition add_site (m : gmap Z (list callSite)) (t : Z) (c : callSite) : gmap Z (list callSite) := <[t := default [] (m !! t) ++ [c]]> m.

Definition scan_ins (n : nat) (p : flowProgram) (x : Z * Instruction) : flowProgram :=
  let '(pc, i) := x in
  let '(t, ok) := target (base p) pc i in
  let p :=
    if IsLoadOfFunctionPointer i then
      mkFlow (base p) (if ok then <[t := true]> (callback p) else callback p) (if ok then add_site (refs p) t (mkSite n pc) else refs p)
        (callers p) (writeFree p) (fnPtrElsewhere p || (0 <? n)%nat)
    else p in
  if IsFunctionCall i && ok
  then mkFlow (base p) (callback p) (refs p) (add_site (callers p) t (mkSite n pc)) (writeFree p) (fnPtrElsewhere p)
  else p.

Definition scan_fn (p : flowProgram) (x : nat * function) : flowProgram :=
  let '(n, fn) := x in
  let p := mkFlow (base p) (callback p) (refs p) (callers p) (<[Start fn := functionWriteFree (base p) fn]> (writeFree p)) (fnPtrElsewhere p) in
  fold_left (scan_ins n) (fst (body (base p) fn)) p.

Definition newFlowProgram (l : list Instruction) : flowProgram :=
  let b := newFlowBase l in
  fold_left scan_fn (imap pair (funcs b)) (mkFlow b ∅ ∅ ∅ ∅ false).

Definition isCallback (p : flowProgram) (start : Z) : bool := default false (callback p !! start).
Definition callersOf (p : flowProgram) (start : Z) : list callSite := default [] (callers p !! start).
Definition refsOf (p : flowProgram) (start : Z) : list callSite := default [] (refs p !! start).
Definition isWriteFree (p : flowProgram) (start : Z) : bool := default false (writeFree p !! start).
