(* ===== verification/FlowProgramFacts.v ===== *)
(** * FlowProgramFacts: the lookups of a flow program

    A raw pc finds the instruction that starts there; a function's body lists
    every instruction in its range; every direct call in a body is recorded
    as a caller of its target. *)

From Stdlib Require Import ZArith Lia Bool Ascii String List.
From stdpp Require Import base list strings numbers option gmap.
From S2P Require Import Prelude GoStd Asm FlowProgram.
Local Open Scope Z_scope.

Lemma slots_pos i : 1 <= slots i <= 2.
Proof. unfold slots. destruct (IsDWordLoad i); lia. Qed.

(** ** Raw offsets *)

Definition offset_of (l : list Instruction) (k : nat) : Z := raw_size (take k l).

Lemma raw_size_nonneg l : 0 <= raw_size l.
Proof. induction l as [|i l IH]; cbn; [lia|]. pose proof (slots_pos i). lia. Qed.

Lemma offsets_lookup from l k i : l !! k = Some i -> offsets from l !! k = Some (from + offset_of l k).
Proof.
  revert from k. induction l as [|j l IH]; intros from k Hk; [discriminate|]. destruct k as [|k]; [cbn; f_equal; unfold offset_of; cbn; lia|].
  change (offsets from (j :: l) !! S k) with (offsets (from + slots j) l !! k). rewrite (IH (from + slots j) k Hk). f_equal. unfold offset_of. cbn [take raw_size]. lia.
Qed.

Lemma length_offsets from l : length (offsets from l) = length l.
Proof. revert from. induction l as [|i l IH]; intros from; cbn; [reflexivity|]. now rewrite IH. Qed.

Lemma offset_step l k i : l !! k = Some i -> offset_of l (S k) = offset_of l k + slots i.
Proof.
  revert k. induction l as [|j l IH]; intros k Hk; [discriminate|]. destruct k as [|k]; cbn in Hk.
  - injection Hk as <-. unfold offset_of. rewrite !firstn_cons, !firstn_O. cbn [raw_size]. lia.
  - specialize (IH k Hk). unfold offset_of in *. cbn [take raw_size] in *. lia.
Qed.

Lemma offset_mono l j k : (j <= k <= length l)%nat -> offset_of l j + Z.of_nat (k - j) <= offset_of l k.
Proof.
  intros [Hjk Hk]. induction k as [|k IH]; [replace j with 0%nat by lia; cbn; lia|].
  destruct (decide (j = S k)) as [->|Hne]; [replace (S k - S k)%nat with 0%nat by lia; lia|].
  destruct (lookup_lt_is_Some_2 l k) as [i Hi]; [lia|]. rewrite (offset_step l k i Hi). pose proof (slots_pos i). specialize (IH ltac:(lia) ltac:(lia)). lia.
Qed.

(** Inserting distinct keys in order keeps each. *)
Lemma fold_insert_lookup {V} (l : list (V * Z)) (m : gmap Z V) (k : nat) v pc :
  l !! k = Some (v, pc) -> (forall j w, l !! j = Some (w, pc) -> j = k) -> fold_left (fun m '(n, pc) => <[pc := n]> m) l m !! pc = Some v.
Proof.
  revert m k. induction l as [|[w q] l IH]; intros m k Hk Hu; [discriminate|]. cbn [fold_left].
  destruct k as [|k]; cbn in Hk.
  - injection Hk as -> ->. assert (Hnot : forall j w, l !! j <> Some (w, pc)) by (intros j w Hj; specialize (Hu (S j) w Hj); lia).
    clear -Hnot. assert (Hlk : (<[pc := v]> m : gmap Z V) !! pc = Some v) by apply lookup_insert_eq. revert Hlk. generalize (<[pc := v]> m : gmap Z V).
    induction l as [|[w q] l IH]; intros m' Hm; cbn [fold_left]; [exact Hm|]. apply IH; [intros j w'; exact (Hnot (S j) w')|].
    rewrite lookup_insert_ne; [exact Hm|]. intros ->. now apply (Hnot 0%nat w).
  - eapply IH; [exact Hk|]. intros j w' Hj. specialize (Hu (S j) w' Hj). lia.
Qed.

Lemma fold_insert_inv {V} (l : list (V * Z)) (m : gmap Z V) v pc :
  fold_left (fun m '(n, pc) => <[pc := n]> m) l m !! pc = Some v -> m !! pc = Some v \/ exists k, l !! k = Some (v, pc).
Proof.
  revert m. induction l as [|[w q] l IH]; intros m Hm; cbn [fold_left] in Hm; [auto|].
  destruct (IH _ Hm) as [E|[k Hk]]; [|right; exists (S k); exact Hk].
  destruct (decide (q = pc)) as [->|Hne]; [rewrite lookup_insert_eq in E; injection E as ->; right; now exists 0%nat|].
  rewrite lookup_insert_ne in E by exact Hne. auto.
Qed.

Lemma index_pcs_lookup l k i : l !! k = Some i -> index_pcs l !! offset_of l k = Some k.
Proof.
  intros Hk. unfold index_pcs. apply (fold_insert_lookup _ _ k).
  - rewrite list_lookup_imap, (offsets_lookup 0 l k i Hk). reflexivity.
  - intros j w Hj. rewrite list_lookup_imap in Hj. destruct (offsets 0 l !! j) as [o|] eqn:Eo; [|discriminate]. injection Hj as <- ->.
    pose proof (lookup_lt_Some _ _ _ Eo) as Hlt. rewrite length_offsets in Hlt. destruct (lookup_lt_is_Some_2 l j Hlt) as [ij Hij].
    rewrite (offsets_lookup 0 l j ij Hij) in Eo. injection Eo as Eo. pose proof (lookup_lt_Some _ _ _ Hk).
    destruct (Nat.lt_total j k) as [Hjk|[Hjk|Hjk]]; [|exact Hjk|].
    + pose proof (offset_mono l j k ltac:(lia)). lia.
    + pose proof (offset_mono l k j ltac:(lia)). lia.
Qed.

Lemma ins_at_new l pc i : ins_at (newFlowBase l) pc = Some i <-> exists k, l !! k = Some i /\ pc = offset_of l k.
Proof.
  unfold ins_at, newFlowBase. cbn [at_ insns]. split.
  - destruct (index_pcs l !! pc) as [k|] eqn:E; [|discriminate]. intros Hk. exists k. split; [exact Hk|].
    unfold index_pcs in E. apply fold_insert_inv in E as [E|[j Hj]]; [now rewrite lookup_empty in E|].
    rewrite list_lookup_imap in Hj. destruct (offsets 0 l !! j) as [o|] eqn:Eo; [|discriminate]. injection Hj as -> ->.
    rewrite (offsets_lookup 0 l k i Hk) in Eo. now injection Eo as <-.
  - intros (k & Hk & ->). now rewrite (index_pcs_lookup l k i Hk).
Qed.

(** ** Bodies *)

Lemma walk_complete l fuel j k i end_ : (j <= k)%nat -> l !! k = Some i -> offset_of l k < end_ ->
  (Z.to_nat (end_ - offset_of l j) <= fuel)%nat -> In (offset_of l k, i) (fst (walk fuel (newFlowBase l) (offset_of l j) end_)).
Proof.
  revert j. induction fuel as [|fuel IH]; intros j Hjk Hk Hend Hf; cbn [walk];
    pose proof (offset_mono l j k ltac:(pose proof (lookup_lt_Some _ _ _ Hk); lia)) as Hm;
    (destruct (end_ <=? offset_of l j) eqn:E; bools; [lia|]); [lia|].
  destruct (lookup_lt_is_Some_2 l j) as [ij Hij]; [pose proof (lookup_lt_Some _ _ _ Hk); lia|].
  assert (Ea : ins_at (newFlowBase l) (offset_of l j) = Some ij) by (apply ins_at_new; eauto). rewrite Ea.
  rewrite <- (offset_step l j ij Hij). destruct (walk fuel (newFlowBase l) (offset_of l (S j)) end_) as [w ok] eqn:Ew. cbn [fst].
  destruct (decide (j = k)) as [->|Hne]; [left; congruence|]. right. specialize (IH (S j) ltac:(lia) Hk Hend).
  rewrite Ew in IH. apply IH. pose proof (slots_pos ij). rewrite (offset_step l j ij Hij). lia.
Qed.

Lemma body_complete l fn pc i : (exists s, ins_at (newFlowBase l) (Start fn) = Some s) ->
  ins_at (newFlowBase l) pc = Some i -> Start fn <= pc < End_ fn -> In (pc, i) (fst (body (newFlowBase l) fn)).
Proof.
  intros [s Hs] Hi Hr. apply ins_at_new in Hs as (j & Hj & Ej). apply ins_at_new in Hi as (k & Hk & ->). unfold body. rewrite Ej in *.
  assert (Hjk : (j <= k)%nat).
  { destruct (le_lt_dec j k) as [|Hlt]; [assumption|]. pose proof (offset_mono l k j ltac:(pose proof (lookup_lt_Some _ _ _ Hj); lia)). lia. }
  apply walk_complete; auto; lia.
Qed.

(** ** Function starts *)

Lemma set_ends_starts size l : map Start (set_ends size l) = map Start l.
Proof. induction l as [|f l IH]; cbn; [reflexivity|]. now rewrite IH. Qed.

Lemma functions_start l fn : In fn (functions l) -> exists i, ins_at (newFlowBase l) (Start fn) = Some i.
Proof.
  intros Hin. assert (Hs : In (Start fn) (map Start (functions l))) by now apply in_map. unfold functions in Hs. rewrite set_ends_starts in Hs.
  apply in_map_iff in Hs as (g & <- & Hg). apply list_elem_of_In, list_elem_of_omap in Hg as ([off i] & Hin' & Hd).
  unfold describe in Hd. destruct (FuncMetadata i); [|discriminate]. injection Hd as <-. cbn [Start].
  apply list_elem_of_lookup_1 in Hin' as [k Hk]. exists i. apply ins_at_new. exists k. unfold Iterate in Hk.
  apply lookup_zip_Some in Hk as [H1 H2]. split; [exact H2|]. rewrite (offsets_lookup 0 l k i H2) in H1. now injection H1 as <-.
Qed.

(** ** Callers *)

Lemma scan_ins_base n p x : base (scan_ins n p x) = base p.
Proof. destruct x as [pc i]. unfold scan_ins. destruct (target _ _ _) as [t ok]. destruct (IsLoadOfFunctionPointer i), (IsFunctionCall i && ok); reflexivity. Qed.

Lemma add_site_keeps m t c u d : In d (default [] (m !! u)) -> In d (default [] (add_site m t c !! u)).
Proof.
  unfold add_site. destruct (decide (t = u)) as [->|Hne]; [rewrite lookup_insert_eq; cbn; intros H; apply in_or_app; now left|].
  now rewrite lookup_insert_ne.
Qed.

Lemma scan_ins_keeps n p x u d : In d (callersOf p u) -> In d (callersOf (scan_ins n p x) u).
Proof.
  destruct x as [pc i]. unfold scan_ins, callersOf. destruct (target _ _ _) as [t ok].
  destruct (IsLoadOfFunctionPointer i), (IsFunctionCall i && ok); cbn [callers]; auto using add_site_keeps.
Qed.

Lemma scan_ins_adds n p pc i t : IsFunctionCall i = true -> target (base p) pc i = (t, true) -> In (mkSite n pc) (callersOf (scan_ins n p (pc, i)) t).
Proof.
  intros Hf Ht. unfold scan_ins, callersOf. rewrite Ht, Hf. cbn [andb]. destruct (IsLoadOfFunctionPointer i); cbn [callers];
    unfold add_site; rewrite lookup_insert_eq; apply in_or_app; right; now left.
Qed.

Lemma scan_all_keeps n l p u d : In d (callersOf p u) -> In d (callersOf (fold_left (scan_ins n) l p) u).
Proof. revert p. induction l as [|x l IH]; intros p H; [exact H|]. apply IH. now apply scan_ins_keeps. Qed.

Lemma scan_all_base n l p : base (fold_left (scan_ins n) l p) = base p.
Proof. revert p. induction l as [|x l IH]; intros p; cbn [fold_left]; [reflexivity|]. now rewrite IH, scan_ins_base. Qed.

Lemma scan_all_adds n l p pc i t : In (pc, i) l -> IsFunctionCall i = true -> target (base p) pc i = (t, true) ->
  In (mkSite n pc) (callersOf (fold_left (scan_ins n) l p) t).
Proof.
  revert p. induction l as [|x l IH]; intros p Hin Hf Ht; [easy|]. cbn [fold_left]. destruct Hin as [->|Hin].
  - apply scan_all_keeps. now apply scan_ins_adds.
  - apply IH; auto. now rewrite scan_ins_base.
Qed.

Lemma scan_fn_base p x : base (scan_fn p x) = base p.
Proof. destruct x as [n fn]. unfold scan_fn. now rewrite scan_all_base. Qed.

Lemma scan_fns_base l p : base (fold_left scan_fn l p) = base p.
Proof. revert p. induction l as [|x l IH]; intros p; cbn [fold_left]; [reflexivity|]. now rewrite IH, scan_fn_base. Qed.

Lemma scan_fns_keeps l p u d : In d (callersOf p u) -> In d (callersOf (fold_left scan_fn l p) u).
Proof. revert p. induction l as [|[n fn] l IH]; intros p H; [exact H|]. apply IH. unfold scan_fn. now apply scan_all_keeps. Qed.

Lemma newFlowProgram_base l : base (newFlowProgram l) = newFlowBase l.
Proof. unfold newFlowProgram. now rewrite scan_fns_base. Qed.

(** Every direct call in a body is among its target's callers. *)
Lemma callers_complete l n fn pc i t : functions l !! n = Some fn ->
  ins_at (newFlowBase l) pc = Some i -> Start fn <= pc < End_ fn -> IsFunctionCall i = true -> target (newFlowBase l) pc i = (t, true) ->
  In (mkSite n pc) (callersOf (newFlowProgram l) t).
Proof.
  intros Hn Hi Hr Hf Ht. pose proof (list_elem_of_lookup_2 _ _ _ Hn) as Hin. apply list_elem_of_In in Hin.
  pose proof (body_complete l fn pc i (functions_start l fn Hin) Hi Hr) as Hb. unfold newFlowProgram.
  assert (Hel : In (n, fn) (imap pair (funcs (newFlowBase l)))).
  { apply list_elem_of_In, (list_elem_of_lookup_2 _ n). rewrite list_lookup_imap. cbn [funcs newFlowBase]. now rewrite Hn. }
  assert (Hbase : base (mkFlow (newFlowBase l) ∅ ∅ ∅ ∅ false) = newFlowBase l) by reflexivity.
  revert Hbase Hel. generalize (mkFlow (newFlowBase l) ∅ ∅ ∅ ∅ false) as p. generalize (imap pair (funcs (newFlowBase l))) as fs.
  induction fs as [|x fs IH]; intros p Hbase Hel; [easy|]. cbn [fold_left]. destruct Hel as [->|Hel].
  - apply scan_fns_keeps. unfold scan_fn. rewrite Hbase. eapply scan_all_adds; [exact Hb|exact Hf|exact Ht].
  - apply IH; [now rewrite scan_fn_base|exact Hel].
Qed.

(** ** Function starts are distinct *)

Lemma offsets_ge from l k pc : offsets from l !! k = Some pc -> from <= pc.
Proof.
  intros Hk. pose proof (lookup_lt_Some _ _ _ Hk) as Hlt. rewrite length_offsets in Hlt. destruct (lookup_lt_is_Some_2 l k Hlt) as [i Hi].
  rewrite (offsets_lookup from l k i Hi) in Hk. injection Hk as <-. unfold offset_of. pose proof (raw_size_nonneg (take k l)). lia.
Qed.

Lemma omap_starts_sorted from l : forall k1 k2 f1 f2, (k1 < k2)%nat ->
  omap (fun '(off, i) => describe off i) (combine (offsets from l) l) !! k1 = Some f1 ->
  omap (fun '(off, i) => describe off i) (combine (offsets from l) l) !! k2 = Some f2 -> Start f1 < Start f2.
Proof.
  assert (Hge : forall l from k f, omap (fun '(off, i) => describe off i) (combine (offsets from l) l) !! k = Some f -> from <= Start f).
  { intros l0 from0 k f Hk. apply list_elem_of_lookup_2, list_elem_of_omap in Hk as ([off i] & Hin & Hd). apply list_elem_of_lookup_1 in Hin as [j Hj].
    apply lookup_zip_Some in Hj as [H1 _]. apply offsets_ge in H1. unfold describe in Hd. destruct (FuncMetadata i); [|discriminate]. now injection Hd as <-. }
  revert from. induction l as [|i l IH]; intros from k1 k2 f1 f2 Hlt H1 H2; cbn [offsets combine omap list_omap] in *; [discriminate|].
  destruct (describe from i) as [g|] eqn:Eg.
  - destruct k2 as [|k2]; [lia|]. change (omap (fun '(off, i) => describe off i) (combine (offsets (from + slots i) l) l) !! k2 = Some f2) in H2.
    destruct k1 as [|k1].
    + injection H1 as <-. apply Hge in H2. unfold describe in Eg. destruct (FuncMetadata i); [|discriminate]. injection Eg as <-. cbn [Start]. pose proof (slots_pos i). lia.
    + change (omap (fun '(off, i) => describe off i) (combine (offsets (from + slots i) l) l) !! k1 = Some f1) in H1. eapply IH; [|exact H1|exact H2]. lia.
  - eapply IH; eauto.
Qed.

Lemma functions_start_inj l n m f g : functions l !! n = Some f -> functions l !! m = Some g -> Start f = Start g -> n = m.
Proof.
  unfold functions, Iterate. set (fs := omap _ _). intros Hf Hg E.
  assert (Hs : forall k h, set_ends (raw_size l) fs !! k = Some h -> exists h0, fs !! k = Some h0 /\ Start h0 = Start h).
  { intros k h Hk. assert (Hm : map Start (set_ends (raw_size l) fs) !! k = Some (Start h)) by (rewrite list_lookup_fmap; now rewrite Hk).
    rewrite set_ends_starts, list_lookup_fmap in Hm. destruct (fs !! k) as [h0|]; [|discriminate]. injection Hm as Hm. now exists h0. }
  destruct (Hs _ _ Hf) as (f0 & F1 & F2). destruct (Hs _ _ Hg) as (g0 & G1 & G2).
  destruct (Nat.lt_total n m) as [Hlt|[Heq|Hlt]]; [|exact Heq|].
  - pose proof (omap_starts_sorted 0 l n m f0 g0 Hlt F1 G1). lia.
  - pose proof (omap_starts_sorted 0 l m n g0 f0 Hlt G1 F1). lia.
Qed.
