(* ===== verification/CtxAnalyze.v ===== *)
(** * CtxAnalyze: the context-flow analysis of one function
    (internal/ctxflow/prove.go: [analyze])

    [flow] is one turn of the loop of [analyze] at a position; the loop is
    [solve] of Worklist over the states of CtxFlow. The analysis is sound
    for every execution of the function in the verifier's view and ends
    within its fuel. *)

From Stdlib Require Import ZArith Lia Bool Ascii String List.
From stdpp Require Import base list strings numbers option gmap.
From S2P Require Import Prelude GoStd Asm Worklist CtxFlow CtxFlowFacts FrameView CtxFlowSound FlowProgram FlowProgramFacts.
Local Open Scope Z_scope.
Local Open Scope go_scope.

(** The texts of the sources, with the values they print. *)
Inductive reason :=
| RNoFuel
| RLeaves
| RStackArg
| RCallTarget (pc : Z)
| RIndirect (pc : Z)
| RJumpTarget (pc : Z)
| RNoParam
| REntryParam
| RCallback
| RNoCaller
| RCaller (name : bytes) (pc : Z).

#[export] Instance reason_eq_dec : EqDecision reason. Proof. solve_decision. Defined.

Definition regParams : Z := 11.
Definition FnGetSmpProcessorId : Z := 8.

Definition isCallIns (i : Instruction) : bool := IsJump (class i) && bool_decide (JumpOp (OpCode i) = Call).

Definition jump_target (p : flowBase) (pc : Z) (i : Instruction) : Z * bool :=
  if has_text (Reference i) then
    match symbols p !! Reference i with Some t => (t, true) | None => (0, false) end
  else (pc + 1 + (if bool_decide (class i = Jump32Class) && bool_decide (JumpOp (OpCode i) = Ja) then i32 (Constant i) else Offset i), true).

(** Inlined, the helper keeps R1-R5. *)
Definition keep_args (kept s : ctxState) : ctxState := fold_left (fun s r => set s r (joinCtx (kreg kept r) kOther)) args s.

(** The state after the instruction at [pc], and where control goes. *)
Definition effect (p : flowProgram) (pc : Z) (i : Instruction) (s : ctxState) : result reason (ctxState * list Z) :=
  let next := pc + slots i in
  if isCallIns i then
    let '(callee, direct) := if IsFunctionCall i then target (base p) pc i else (-1, false) in
    if IsFunctionCall i && negb direct then Err (RCallTarget pc)
    else
      let s' := call s (negb direct) (direct && isWriteFree p callee) (fnPtrElsewhere p) in
      Ok (if IsBuiltinCall i && (Constant i =? FnGetSmpProcessorId) then keep_args s s' else s', [next])
  else if IsJump (class i) && bool_decide (JumpOp (OpCode i) = Ja) && fromReg i then Err (RIndirect pc)
  else if IsJump (class i) && bool_decide (JumpOp (OpCode i) = Exit) then Ok (s, [])
  else if IsJump (class i) then
    let '(t, ok) := jump_target (base p) pc i in
    if ok then Ok (s, if bool_decide (JumpOp (OpCode i) = Ja) then [t] else [t; next])
    else Err (RJumpTarget pc)
  else Ok (step s i, [next]).

Definition within (fn : function) (pc : Z) : bool := (Start fn <=? pc) && (pc <? End_ fn).

Definition flow (p : flowProgram) (fn : function) (pc : Z) (s : ctxState) (_ : unit) : result reason (unit * ctxState * list Z) :=
  match ins_at (base p) pc with
  | None => Err RLeaves
  | Some i =>
      if negb (within fn pc) then Err RLeaves
      else if IsStore (class i) && (Dst i =? regParams) then Err RStackArg
      else
        let? x := effect p pc i s in
        if forallb (within fn) (snd x) then Ok (tt, fst x, snd x) else Err RLeaves
  end.

Definition initial (fn : function) : ctxState := set emptyState (R1 + CtxParam fn) kValue.

Definition analyze_fuel (fn : function) : nat := 2 * (S top_height * Z.to_nat (End_ fn - Start fn)) + 1.

Definition analyze (p : flowProgram) (fn : function) : result reason (gmap Z ctxState) :=
  match solve (flow p fn) (analyze_fuel fn) {[Start fn := initial fn]} [Start fn] tt with
  | Ok (m, _) => Ok m
  | Err OutOfFuel => Err RNoFuel
  | Err (Refused r) => Err r
  end.

(** ** Executions of a function in the verifier's view *)

Definition vnext (p : flowProgram) (pc : Z) (i : Instruction) (s : vstate) (pc' : Z) (s' : vstate) : Prop :=
  if isCallIns i then
    pc' = pc + slots i /\
    (if IsFunctionCall i then vcall false (isWriteFree p (fst (target (base p) pc i))) (fnPtrElsewhere p) s s'
     else vcall true false false s s' \/ IsBuiltinCall i && (Constant i =? FnGetSmpProcessorId) = true /\ vcall_keeping s s')
  else if IsJump (class i) then
    s' = s /\
    match JumpOp (OpCode i) with
    | Exit => False
    | Ja => fromReg i = true \/ pc' = fst (jump_target (base p) pc i)
    | _ => pc' = fst (jump_target (base p) pc i) \/ pc' = pc + slots i
    end
  else pc' = pc + slots i /\ vstep i s s'.

(** [s] is a state of some execution of the function that starts in [s0],
    before the instruction at [pc]. *)
Inductive visits (p : flowProgram) (fn : function) (s0 : vstate) : Z -> vstate -> Prop :=
| visits_start : visits p fn s0 (Start fn) s0
| visits_step pc i s pc' s' : visits p fn s0 pc s -> ins_at (base p) pc = Some i -> vnext p pc i s pc' s' -> visits p fn s0 pc' s'.

Definition program_ok (p : flowProgram) : Prop := Forall ins_ok (insns (base p)).

(** ** Soundness *)

Lemma keep_args_spec kept s q : state_ok kept -> state_ok s -> 0 <= q < 10 ->
  kreg (keep_args kept s) q = (if (1 <=? q) && (q <=? 5) then joinCtx (kreg kept q) kOther else kreg s q) /\
  sslots (keep_args kept s) = sslots s /\ floor (keep_args kept s) = floor s /\ state_ok (keep_args kept s).
Proof.
  intros Hk Hs Hq. unfold keep_args.
  assert (Hgen : forall rs s, state_ok s -> Forall (fun r => 0 <= r < 10) rs ->
    let s' := fold_left (fun s r => set s r (joinCtx (kreg kept r) kOther)) rs s in
    kreg s' q = (if existsb (Z.eqb q) rs then joinCtx (kreg kept q) kOther else kreg s q) /\ sslots s' = sslots s /\ floor s' = floor s /\ state_ok s').
  { clear s Hs. intros rs s Hs Hrs. revert s Hs. induction Hrs as [|r rs Hr _ IH]; intros s Hs; cbn [fold_left existsb]; [auto|].
    assert (Hs' : state_ok (set s r (joinCtx (kreg kept r) kOther))) by (apply set_ok; [exact Hs|apply joinCtx_ok; [now apply kreg_ok|reflexivity]]).
    destruct (IH _ Hs') as (I1 & I2 & I3 & I4). cbv zeta in *. splits; [| |rewrite I3; now rewrite floor_set|exact I4].
    - rewrite I1, kreg_set by (auto; lia). assert (E : (r <? RFP) = true) by (apply Z.ltb_lt; unfold RFP; lia). rewrite E, andb_true_r.
      destruct (q =? r) eqn:Eq; [apply Z.eqb_eq in Eq; subst r; cbn [orb]; now destruct (existsb _ rs)|reflexivity].
    - rewrite I2. unfold set. now destruct (_ <? _). }
  destruct (Hgen args s Hs) as (I1 & I2 & I3 & I4); [repeat constructor; easy|]. splits; auto. rewrite I1. cbn [existsb args]. unfold args, R1, R2, R3, R4, R5. cbn [existsb].
  destruct ((1 <=? q) && (q <=? 5)) eqn:E; if_goal; try reflexivity; exfalso.
  - bools. lia.
  - repeat match goal with H : _ || _ = true |- _ => apply orb_prop in H as [H|H] end; bools; subst; discriminate.
Qed.

Lemma keep_args_sound a a1 s s1 s' : state_ok a -> state_ok a1 -> gamma a s -> gamma a1 s1 ->
  vfloor s' = vfloor s1 -> same_slots s1 s' -> (forall q, vregs s' q = vregs s1 q \/ In q args /\ vregs s' q = vregs s q) ->
  (forall q, In q args -> vregs s1 q = Data) -> gamma (keep_args a a1) s'.
Proof.
  intros Ha Ha1 (G & _) (G1 & G2 & G3) Hf Hs Hr Hd. split; [|split].
  - intros q Hq. destruct (keep_args_spec a a1 q Ha Ha1 Hq) as (-> & _). destruct ((1 <=? q) && (q <=? 5)) eqn:E.
    + bools. assert (Hin : In q args) by (cbn; unfold R1, R2, R3, R4, R5; lia).
      destruct (Hr q) as [-> |[_ ->]]; [rewrite (Hd q Hin); apply gammaK_other|apply gammaK_join_l; now apply G].
    + destruct (Hr q) as [-> |[Hin _]]; [now apply G1|]. cbn in Hin. unfold R1, R2, R3, R4, R5 in Hin. apply andb_false_iff in E as [E|E]; bools; lia.
  - intros i Hi. unfold kslot. destruct (keep_args_spec a a1 0 Ha Ha1 ltac:(lia)) as (_ & -> & _). rewrite (Hs i Hi). now apply G2.
  - destruct (keep_args_spec a a1 0 Ha Ha1 ltac:(lia)) as (_ & _ & -> & _). lia.
Qed.

Lemma Ok_pair_inj {E A B} (a a' : A) (b b' : B) : @Ok E (A * B) (a, b) = Ok (a', b') -> a = a' /\ b = b'.
Proof. now intros [= -> ->]. Qed.

(** Every effect on an execution is covered, at a listed successor. *)
Lemma effect_sound p pc i a s a' succ pc' s' : state_ok a -> ins_ok i -> gamma a s ->
  effect p pc i a = Ok (a', succ) -> vnext p pc i s pc' s' -> gamma a' s' /\ In pc' succ.
Proof.
  intros Ha Hi G He Hv. unfold effect, vnext in *. destruct (isCallIns i) eqn:Ec.
  { destruct Hv as [-> Hv]. destruct (IsFunctionCall i) eqn:Ef.
    - destruct (target (base p) pc i) as [callee direct]. destruct direct; [|discriminate]. cbn [andb negb fst] in *.
      assert (Eb : IsBuiltinCall i = false).
      { unfold IsFunctionCall, IsBuiltinCall, PseudoCall, R0 in *. destruct (IsCall i); [|reflexivity]. cbn in *. bools. rewrite Ef. reflexivity. }
      rewrite Eb in He. apply Ok_pair_inj in He as [<- <-]. split; [now apply (call_sound a s)|now left].
    - cbn [andb negb] in He. destruct Hv as [Hv|[Ek Hv]].
      + assert (Hv' : vcall true false (fnPtrElsewhere p) s s') by (destruct Hv as (V1 & V2 & V3 & V4 & [V5|[V5 _]]); [unfold vcall; auto 6|discriminate]).
        pose proof (call_sound a s s' _ _ _ Ha G Hv') as Gc. destruct (IsBuiltinCall i && _); apply Ok_pair_inj in He as [<- <-]; (split; [|now left]); [|exact Gc].
        apply (keep_args_sound a _ s s' s'); auto using call_ok; [now intros n|apply Hv'].
      + rewrite Ek in He. apply Ok_pair_inj in He as [<- <-]. destruct Hv as (s1 & Hv & K1 & K2 & K3).
        assert (Hv' : vcall true false (fnPtrElsewhere p) s s1) by (destruct Hv as (V1 & V2 & V3 & V4 & [V5|[V5 _]]); [unfold vcall; auto 6|discriminate]).
        split; [|now left]. apply (keep_args_sound a _ s s1 s'); auto using call_ok; [now apply (call_sound a s)|apply Hv']. }
  destruct (IsJump (class i)) eqn:Ej; cbn [andb] in He; [|apply Ok_pair_inj in He as [<- <-]; destruct Hv as [-> Hv]; split; [now apply (step_sound a s)|now left]].
  destruct Hv as [-> Hv]. destruct (bool_decide (JumpOp (OpCode i) = Ja) && fromReg i) eqn:E1; [discriminate|].
  destruct (bool_decide (JumpOp (OpCode i) = Exit)) eqn:E2; [apply bool_decide_eq_true in E2; now rewrite E2 in Hv|].
  destruct (jump_target (base p) pc i) as [t ok]. destruct ok; [|discriminate]. apply Ok_pair_inj in He as [<- <-]. split; [exact G|]. cbn [fst] in Hv.
  destruct (decide (JumpOp (OpCode i) = Ja)) as [Eo|Eo].
  - rewrite Eo in *. rewrite bool_decide_true in * by reflexivity. cbn in E1. destruct Hv as [Hv|Hv]; [congruence|now left].
  - rewrite bool_decide_false by exact Eo. destruct (JumpOp (OpCode i)); cbn; intuition congruence.
Qed.

Lemma flow_inv p fn pc a acc acc' a' succ : flow p fn pc a acc = Ok (acc', a', succ) ->
  within fn pc = true /\ exists i, ins_at (base p) pc = Some i /\ effect p pc i a = Ok (a', succ) /\ forallb (within fn) succ = true.
Proof.
  unfold flow. destruct (ins_at (base p) pc) as [i|]; [|discriminate]. destruct (within fn pc) eqn:Ew; [|discriminate]. cbn [negb].
  destruct (IsStore (class i) && _); [discriminate|]. destruct (effect p pc i a) as [[a1 s1]|] eqn:Ee; [|discriminate]. cbn.
  destruct (forallb (within fn) s1) eqn:Ea; [|discriminate]. intros [= _ <- <-]. split; [reflexivity|]. exists i. splits; auto.
Qed.

Lemma effect_ok p pc i a a' succ : state_ok a -> effect p pc i a = Ok (a', succ) -> state_ok a'.
Proof.
  intros Ha. unfold effect. destruct (isCallIns i).
  - destruct (if IsFunctionCall i then _ else _) as [callee direct]. destruct (IsFunctionCall i && _); [discriminate|]. intros He. apply Ok_pair_inj in He as [<- _].
    pose proof (call_ok a (negb direct) (direct && isWriteFree p callee) (fnPtrElsewhere p) Ha) as Hc.
    destruct (IsBuiltinCall i && _); [|exact Hc]. now apply (keep_args_spec a _ 0).
  - destruct (_ && fromReg i); [discriminate|]. destruct (IsJump (class i) && bool_decide (JumpOp (OpCode i) = Exit)); [now intros [= <- <-]|].
    destruct (IsJump (class i)); [|intros He; apply Ok_pair_inj in He as [<- _]; now apply step_ok]. destruct (jump_target (base p) pc i) as [t ok]. destruct ok; [now intros [= <- <-]|discriminate].
Qed.

Lemma flow_ok p fn pc a acc acc' a' succ : state_ok a -> flow p fn pc a acc = Ok (acc', a', succ) -> state_ok a'.
Proof. intros Ha Hf. apply flow_inv in Hf as (_ & i & _ & He & _). now apply effect_ok in He. Qed.

Lemma initial_ok fn : state_ok (initial fn).
Proof. apply set_ok; [apply emptyState_ok|reflexivity]. Qed.

Lemma analyze_states p fn m : analyze p fn = Ok m ->
  (exists a, m !! Start fn = Some a /\ leq (initial fn) a) /\
  forall pc a, m !! pc = Some a -> state_ok a /\ within fn pc = true /\
    exists i a' succ, ins_at (base p) pc = Some i /\ effect p pc i a = Ok (a', succ) /\ Forall (covers m a') succ.
Proof.
  unfold analyze. destruct (solve _ _ _ _ _) as [[m' acc]|[]] eqn:Es; try discriminate. intros [= <-].
  assert (Hstart : all_ok state_ok {[Start fn := initial fn]}).
  { intros pc a Ha. apply lookup_singleton_Some in Ha as [_ <-]. apply initial_ok. }
  eapply (solve_fixed (flow p fn) state_ok) in Es as [Hg [Hok Hf]].
  - split; [apply (Hg (Start fn)); apply lookup_singleton_eq|]. intros pc a Ha. split; [eauto|]. destruct (Hf pc a Ha) as [Hin|(c1 & c2 & a' & succ & Hfl & Hcov)]; [now apply list.not_elem_of_nil in Hin|].
    apply flow_inv in Hfl as (Hw & i & Hi & He & _). split; [exact Hw|]. exists i, a', succ. auto.
  - intros pc a acc0 acc' a' succ. apply flow_ok.
  - eapply grew_refl, ctx_join_laws.
  - split; [exact Hstart|]. intros pc a Ha. apply lookup_singleton_Some in Ha as [<- _]. left. now left.
Qed.

(** On an execution from a covered start, the analysis covers every state. *)
Lemma analyze_covers p fn m s0 : program_ok p -> analyze p fn = Ok m -> gamma (initial fn) s0 ->
  forall pc s, visits p fn s0 pc s -> exists a, m !! pc = Some a /\ state_ok a /\ gamma a s.
Proof.
  intros Hp Han G0 pc s Hv. destruct (analyze_states p fn m Han) as [(a0 & Ha0 & Hl) Hall]. induction Hv as [|pc i s pc' s' _ (a & Ha & Hok & G) Hi Hn].
  - exists a0. split; [exact Ha0|]. split; [now apply (Hall (Start fn))|]. eapply gamma_leq; eauto.
  - destruct (Hall pc a Ha) as (_ & _ & i' & a' & succ & Hi' & He & Hcov). rewrite Hi in Hi'. injection Hi' as <-.
    assert (Hio : ins_ok i). { unfold ins_at in Hi. destruct (at_ (base p) !! pc) as [k|]; [|discriminate]. exact (Forall_lookup_1 _ _ _ _ Hp Hi). }
    destruct (effect_sound p pc i a s a' succ pc' s' Hok Hio G He Hn) as [G' Hin].
    rewrite List.Forall_forall in Hcov. destruct (Hcov pc' Hin) as (b & Hb & Hle). exists b. split; [exact Hb|]. split; [now apply (Hall pc')|]. eapply gamma_leq; eauto.
Qed.

(** ** The loop ends *)

Lemma flow_dom p fn pc a acc acc' a' succ : flow p fn pc a acc = Ok (acc', a', succ) -> Forall (fun s => In s (seqZ (Start fn) (End_ fn - Start fn))) succ.
Proof.
  intros Hf. apply flow_inv in Hf as (_ & i & _ & _ & Hs). rewrite forallb_forall in Hs. apply List.Forall_forall. intros s Hin.
  specialize (Hs s Hin). unfold within in Hs. bools. apply list_elem_of_In, elem_of_seqZ. lia.
Qed.

Lemma effect_fuel p pc i a : effect p pc i a <> Err RNoFuel.
Proof.
  unfold effect. destruct (isCallIns i).
  - destruct (if IsFunctionCall i then _ else _) as [callee direct]. now destruct (IsFunctionCall i && _).
  - destruct (_ && fromReg i); [discriminate|]. destruct (IsJump (class i) && bool_decide _); [discriminate|]. destruct (IsJump (class i)); [|discriminate].
    destruct (jump_target (base p) pc i) as [t ok]. now destruct ok.
Qed.

Lemma analyze_total p fn : analyze p fn <> Err RNoFuel.
Proof.
  unfold analyze. destruct (solve _ _ _ _ _) as [[m acc]|[|r]] eqn:Es; [discriminate| |].
  - exfalso. revert Es. apply (solve_total (flow p fn) state_ok) with (dom := seqZ (Start fn) (End_ fn - Start fn)) (top := top_height).
    + intros pc a acc acc' a' succ. apply flow_ok.
    + intros pc a acc acc' a' succ. apply flow_dom.
    + apply heightS_bound.
    + intros pc a Ha. apply lookup_singleton_Some in Ha as [_ <-]. apply initial_ok.
    + etransitivity; [cbn [length]; apply (rooms_start state_ok); [apply heightS_bound|apply initial_ok]|]. unfold analyze_fuel. rewrite length_seqZ. lia.
  - intros [= ->]. apply solve_refused in Es as (pc & a & acc & Hf). unfold flow in Hf. destruct (ins_at (base p) pc) as [i|]; [|discriminate].
    destruct (negb _); [discriminate|]. destruct (IsStore (class i) && _); [discriminate|]. pose proof (effect_fuel p pc i a) as He.
    destruct (effect p pc i a) as [[a1 s1]|e]; cbn in Hf; [now destruct (forallb _ s1)|congruence].
Qed.
