(* ===== verification/CtxCallback.v ===== *)
(** * CtxCallback: the frame address a callback receives
    (internal/ctxflow/callback.go: [CallbackCall], [landingIn], [pc])

    A synchronous callback reaches the context through the frame address its
    caller passes the helper in R3. [CallbackCall] reads that address off the
    straight-line code before the call; [CallbackCall_arg] shows it is the
    one every execution of that code passes. *)

From Stdlib Require Import ZArith Lia Bool Ascii String List.
From stdpp Require Import base list strings numbers option gmap.
From S2P Require Import Prelude GoStd Asm CtxFlow FrameView FlowProgram.
Local Open Scope Z_scope.

Record Callback := mkCallback { Helper : Z; Param : Z; Arg : Z }.

#[export] Instance Callback_eq_dec : EqDecision Callback. Proof. solve_decision. Defined.

(** Why a function-pointer load is refused; [CPanic]: no such instruction. *)
Inductive cbWhy :=
| CPanic
| CNotCallbackArg
| CNoCall
| CBranch
| CCopied
| CNotHelper
| CAsync
| CHelper (helper : Z)
| CNotFrame
| CNotFrameBlock
| CImplicit
| COutside (off : Z)
| CNull.

Definition FnForEachMapElem : Z := 164.
Definition FnTimerSetCallback : Z := 170.
Definition FnLoop : Z := 181.

Definition writesImplicitly (i : Instruction) : bool :=
  bool_decide (class i = StXClass) && negb (memMode i) ||
  bool_decide (class i = LdClass) && negb (bool_decide (Mode (OpCode i) = ImmMode)).

Definition isCallJump (i : Instruction) : bool := IsJump (class i) && bool_decide (JumpOp (OpCode i) = Call).

(** The index of the first call at or after [call]. *)
Fixpoint find_call (l : list Instruction) (call : nat) : result cbWhy nat :=
  match l with
  | [] => Err CNoCall
  | i :: l =>
      if isCallJump i then Ok call
      else if IsJump (class i) then Err CBranch
      else if (Dst i =? R2) || (Src i =? R2) && negb (bool_decide (class i = LdClass)) || writesImplicitly i then Err CCopied
      else find_call l (S call)
  end.

Definition callback_param (i : Instruction) : result cbWhy Callback :=
  let h := i32 (Constant i) in
  if negb (IsBuiltinCall i) then Err CNotHelper
  else if h =? FnLoop then Ok (mkCallback h R2 0)
  else if h =? FnForEachMapElem then Ok (mkCallback h R4 0)
  else if h =? FnTimerSetCallback then Err CAsync
  else Err (CHelper h).

Definition isAddImm (i : Instruction) : bool := isALU64 i Asm.Add && fromImm i.
Definition isMovFrame (i : Instruction) : bool := isALU64 i Mov && fromReg i && (Src i =? RFP) && (Offset i =? 0).
Definition isMovZero (i : Instruction) : bool := isALU64 i Mov && fromImm i && (Constant i =? 0).

(** The instructions before index [n], from the last: the offset R3 has and
    the index of the [r3 = r10] it comes from. *)
Fixpoint find_frame (l : list Instruction) (n : nat) (offset : Z) : result cbWhy (Z * nat) :=
  match n with
  | O => Err CNotFrame
  | S j =>
      match l !! j with
      | None => Err CPanic
      | Some i =>
          if IsJump (class i) then Err CNotFrameBlock
          else if writesImplicitly i then Err CImplicit
          else if IsStore (class i) || negb (Dst i =? R3) then find_frame l j offset
          else if isAddImm i then find_frame l j (i64 (offset + Constant i))
          else if isMovFrame i then
            if (-8 <? offset) || (offset <? -512) then Err (COutside offset) else Ok (i16 offset, j)
          else if isMovZero i && (offset =? 0) then Err CNull
          else Err CNotFrame
      end
  end.

Definition CallbackCall (l : list Instruction) (i : nat) : result cbWhy (Callback * nat * nat) :=
  match l !! i with
  | None => Err CPanic
  | Some load =>
      if negb (Dst load =? R2) then Err CNotCallbackArg
      else
        match find_call (drop (S i) l) (S i) with
        | Err w => Err w
        | Ok call =>
            match l !! call with
            | None => Err CPanic
            | Some ci =>
                match callback_param ci with
                | Err w => Err w
                | Ok out =>
                    match find_frame l call 0 with
                    | Err w => Err w
                    | Ok (arg, j) => Ok (mkCallback (Helper out) (Param out) arg, j, call)
                    end
                end
            end
        end
  end.

(** [landingIn]: a branch target in the raw range [(from, to_]]. *)
Fixpoint landing (p : flowBase) (l : list (Z * Instruction)) (from to_ : Z) : Z * bool :=
  match l with
  | [] => (0, false)
  | (pc, i) :: l =>
      if IsJump (class i) && negb (bool_decide (JumpOp (OpCode i) = Call)) && negb (bool_decide (JumpOp (OpCode i) = Exit)) then
        let t := fst (target p pc i) in
        if has_text (Reference i) && negb (bool_decide (is_Some (symbols p !! Reference i))) || (from <? t) && (t <=? to_)
        then (t, true) else landing p l from to_
      else landing p l from to_
  end.

Definition landingIn (p : flowBase) (from to_ : Z) : Z * bool := landing p (Iterate (insns p)) from to_.
Definition pc_of (p : flowBase) (index : nat) : Z := raw_size (take index (insns p)).

(** ** The address passed *)

(** The instructions of [[j, n)] run in order. *)
Inductive straight (l : list Instruction) (j : nat) (s : vstate) : nat -> vstate -> Prop :=
| straight_nil : straight l j s j s
| straight_snoc n i s1 s2 : straight l j s n s1 -> l !! n = Some i -> vstep i s1 s2 -> straight l j s (S n) s2.

(** An ALU immediate has 32 bits. *)
Definition imm_ok (i : Instruction) : Prop := -2147483648 <= Constant i < 2147483648.

(** A register survives what writes neither it nor anything implicitly. *)
Lemma skipped_keeps i s s' r : IsJump (class i) = false -> writesImplicitly i = false -> IsStore (class i) || negb (Dst i =? r) = true ->
  vstep i s s' -> vregs s' r = vregs s r.
Proof.
  intros Hj Hw Hd Hv. unfold vstep, writesImplicitly in *.
  assert (Hset : forall v, negb (Dst i =? r) = true -> vset s s' (Dst i) v -> vregs s' r = vregs s r).
  { intros v Hn (V1 & _). rewrite V1, Z.eqb_sym. now destruct (Dst i =? r). }
  destruct (class i) eqn:Ec; try discriminate; cbn [IsStore orb] in Hd.
  - change (bool_decide (LdClass = StXClass)) with false in Hw. change (bool_decide (LdClass = LdClass)) with true in Hw. cbn [andb orb] in Hw. apply negb_false_iff in Hw. rewrite Hw in Hv. eauto.
  - destruct Hv as (v & _ & Hv). eauto.
  - destruct (bool_decide (Mode (OpCode i) = AtomicMode)); [now destruct Hv as (V & _)|]. destruct Hv as (d & _ & _ & V & _). apply V.
  - change (bool_decide (StXClass = StXClass)) with true in Hw. change (bool_decide (StXClass = LdClass)) with false in Hw. rewrite orb_false_r in Hw.
    cbn [andb] in Hw. assert (Ha : isAtomic i = false) by (unfold isAtomic; rewrite Ec; exact Hw). rewrite Ha in Hv. destruct Hv as (d & w & _ & _ & _ & V & _). apply V.
  - destruct Hv as (v & _ & Hv). eauto.
  - destruct Hv as (v & _ & Hv). eauto.
Qed.

Lemma class_ALU64 i op : isALU64 i op = true -> class i = ALU64Class /\ ALUOp (OpCode i) = op.
Proof. unfold isALU64. intros H. apply andb_prop in H as [H1 H2]. apply bool_decide_eq_true in H1, H2. auto. Qed.

Lemma add_steps i s s' o : Dst i = R3 -> isAddImm i = true -> vregs s R3 = Fp o -> vstep i s s' -> vregs s' R3 = Fp (o + Constant i).
Proof.
  unfold isAddImm. intros Hd Ha Hs Hv. apply andb_prop in Ha as [Ha Hi]. destruct (class_ALU64 i Asm.Add Ha) as [Hc Ho]. unfold vstep in Hv. rewrite Hc in Hv.
  destruct Hv as (v & Hr & (V1 & _)). rewrite V1, Hd. change (R3 =? R3) with true. change (R3 <? RFP) with true. cbn [andb].
  unfold alu_result in Hr. assert (Hm : isALU64 i Mov = false) by (unfold isALU64; rewrite Ho; apply andb_false_r). rewrite Hm, Ha in Hr. cbn [andb orb] in Hr.
  destruct Hr as (d & e & Rd & _ & Hf & _). unfold vread in Rd. rewrite Hd in Rd. change (R3 =? RFP) with false in Rd. change (R3 <? RFP) with true in Rd. cbn in Rd.
  subst d. rewrite Hs in Hf. unfold shifted in Hf. assert (Hsub : isALU64 i Asm.Sub = false) by (unfold isALU64; rewrite Ho; apply andb_false_r). rewrite Hsub in Hf. auto.
Qed.

Lemma mov_steps i s s' : Dst i = R3 -> isMovFrame i = true -> vstep i s s' -> vregs s' R3 = Fp 0.
Proof.
  unfold isMovFrame. intros Hd Hm Hv. repeat match goal with H : _ && _ = true |- _ => apply andb_prop in H as [? ?] end. bools.
  destruct (class_ALU64 i Mov ltac:(assumption)) as [Hc Ho]. unfold vstep in Hv. rewrite Hc in Hv. destruct Hv as (v & Hr & (V1 & _)).
  rewrite V1, Hd. change (R3 =? R3) with true. change (R3 <? RFP) with true. cbn [andb]. unfold alu_result in Hr.
  repeat match goal with H : ?b = true |- _ => rewrite H in Hr; clear H end. rewrite (proj2 (Z.eqb_eq (Offset i) 0)) in Hr by assumption. cbn [andb] in Hr.
  unfold vread in Hr. now rewrite (proj2 (Z.eqb_eq (Src i) RFP)) in Hr by assumption.
Qed.

(** Between [find_frame]'s start and the call the frame offset only grows by
    the constants it sums. *)
Lemma find_frame_run l n acc arg j : Forall imm_ok l -> - Z.of_nat (length l - n) * 2147483648 <= acc <= Z.of_nat (length l - n) * 2147483648 ->
  (n <= length l)%nat -> Z.of_nat (length l) < 2147483648 -> find_frame l n acc = Ok (arg, j) ->
  (j < n)%nat /\ -512 <= arg <= -8 /\ forall s s', straight l j s n s' -> vregs s' R3 = Fp (arg - acc).
Proof.
  intros Hi. revert acc. induction n as [|n IH]; intros acc Hacc Hn Hlen Hf; [discriminate|]. cbn [find_frame] in Hf.
  destruct (l !! n) as [i|] eqn:Ei; [|discriminate]. pose proof (Forall_lookup_1 _ _ _ _ Hi Ei) as Him. unfold imm_ok in Him.
  destruct (IsJump (class i)) eqn:Ej; [discriminate|]. destruct (writesImplicitly i) eqn:Ew; [discriminate|].
  assert (Hlast : forall s s', (j < S n)%nat -> straight l j s (S n) s' -> exists s1, straight l j s n s1 /\ vstep i s1 s').
  { intros s s' Hj Hs. inversion Hs; subst; [lia|]. exists s1. split; [assumption|]. congruence. }
  destruct (IsStore (class i) || negb (Dst i =? R3)) eqn:Es.
  { destruct (IH acc) as (H1 & H2 & H3); [lia..|exact Hf|]. splits; [lia|lia|lia|]. intros s s' Hs. destruct (Hlast s s' ltac:(lia) Hs) as (s1 & Hs1 & Hv).
    rewrite (skipped_keeps i s1 s' R3 Ej Ew Es Hv). now apply (H3 s). }
  apply orb_false_elim in Es as [_ Ed]. apply negb_false_iff, Z.eqb_eq in Ed. destruct (isAddImm i) eqn:Ea.
  { assert (Hw : i64 (acc + Constant i) = acc + Constant i) by (apply i64_small; unfold two63; lia). rewrite Hw in Hf.
    destruct (IH (acc + Constant i)) as (H1 & H2 & H3); [lia..|exact Hf|]. splits; [lia|lia|lia|]. intros s s' Hs. destruct (Hlast s s' ltac:(lia) Hs) as (s1 & Hs1 & Hv).
    rewrite (add_steps i s1 s' _ Ed Ea (H3 s s1 Hs1) Hv). f_equal. lia. }
  destruct (isMovFrame i) eqn:Em; [|destruct (isMovZero i && _); discriminate]. destruct (_ || _) eqn:Er in Hf; [discriminate|]. injection Hf as <- <-.
  apply orb_false_elim in Er as [Er1 Er2]. apply Z.ltb_ge in Er1, Er2. rewrite i16_small by lia. splits; [lia|lia|lia|]. intros s s' Hs. destruct (Hlast s s' ltac:(lia) Hs) as (s1 & _ & Hv).
  rewrite (mov_steps i s1 s' Ed Em Hv). f_equal. lia.
Qed.

Lemma find_call_ge l c call : find_call l c = Ok call -> (c <= call)%nat /\ exists i, l !! (call - c)%nat = Some i /\ isCallJump i = true.
Proof.
  revert c. induction l as [|i l IH]; intros c Hf; cbn [find_call] in Hf; [discriminate|]. destruct (isCallJump i) eqn:Ec.
  - injection Hf as ->. split; [lia|]. exists i. now rewrite Nat.sub_diag.
  - destruct (IsJump (class i)); [discriminate|]. destruct (_ || writesImplicitly i); [discriminate|]. destruct (IH (S c) Hf) as (H1 & j & H2 & H3).
    split; [lia|]. exists j. split; [|exact H3]. replace (call - c)%nat with (S (call - S c)) by lia. exact H2.
Qed.

Lemma find_call_keeps l c call : find_call l c = Ok call ->
  forall k i s s', (c <= k < call)%nat -> l !! (k - c)%nat = Some i -> vstep i s s' -> vregs s' R2 = vregs s R2.
Proof.
  revert c. induction l as [|j l IH]; intros c Hf k i s s' Hk Hi Hv; cbn [find_call] in Hf; [discriminate|]. destruct (isCallJump j); [injection Hf as ->; lia|].
  destruct (IsJump (class j)) eqn:Ej; [discriminate|]. destruct (_ || writesImplicitly j) eqn:Ew; [discriminate|].
  apply orb_false_elim in Ew as [Ew1 Ew2]. apply orb_false_elim in Ew1 as [Ed _].
  destruct (decide (k = c)) as [->|Hne].
  - rewrite Nat.sub_diag in Hi. injection Hi as ->. apply (skipped_keeps i s s' R2 Ej Ew2); [|exact Hv]. now rewrite Ed, orb_true_r.
  - apply (IH (S c) Hf k i); [lia| |exact Hv]. replace (k - c)%nat with (S (k - S c)) in Hi by lia. exact Hi.
Qed.

Lemma find_call_pointer l c call s n s' : find_call (drop c l) c = Ok call -> (n <= call)%nat -> straight l c s n s' -> vregs s' R2 = vregs s R2.
Proof.
  intros Hf Hn Hs. assert (Hcn : (c <= n)%nat) by (induction Hs; lia). induction Hs as [|n i s1 s2 Hs IH Hi Hv]; [reflexivity|].
  assert (Hcn' : (c <= n)%nat) by (clear -Hs; induction Hs; lia).
  rewrite <- (IH ltac:(lia) ltac:(lia)). apply (find_call_keeps _ _ _ Hf n i); [lia| |exact Hv].
  rewrite lookup_drop. now replace (c + (n - c))%nat with n by lia.
Qed.

(** An accepted function-pointer load reaches a bpf_loop or
    bpf_for_each_map_elem call with the pointer still in R2, and on every
    execution of the code that leads to the call R3 holds the frame address
    R10+Arg, inside the frame. *)
Theorem CallbackCall_arg (l : list Instruction) (i : nat) (cb : Callback) (j call : nat) :
  Forall imm_ok l -> Z.of_nat (length l) < 2147483648 -> CallbackCall l i = Ok (cb, j, call) ->
  (i < call)%nat /\ (j < call)%nat /\ -512 <= Arg cb <= -8 /\
  (Helper cb = FnLoop /\ Param cb = R2 \/ Helper cb = FnForEachMapElem /\ Param cb = R4) /\
  (forall s s', straight l j s call s' -> vregs s' R3 = Fp (Arg cb)) /\
  (forall s s', straight l (S i) s call s' -> vregs s' R2 = vregs s R2).
Proof.
  intros Him Hlen. unfold CallbackCall. destruct (l !! i) as [load|] eqn:Ei; [|discriminate]. destruct (negb _); [discriminate|].
  destruct (find_call (drop (S i) l) (S i)) as [c|] eqn:Ec; [|discriminate]. destruct (l !! c) as [ci|] eqn:El; [|discriminate].
  destruct (callback_param ci) as [out|] eqn:Ep; [|discriminate]. destruct (find_frame l c 0) as [[arg j']|] eqn:Ef; [|discriminate].
  intros [= <- <- <-]. pose proof (lookup_lt_Some _ _ _ El). destruct (find_frame_run l c 0 arg j' Him) as (H1 & H2 & H3); [lia|lia|exact Hlen|exact Ef|].
  destruct (find_call_ge _ _ _ Ec) as [H4 _]. cbn [Arg Helper Param]. splits; try lia.
  - unfold callback_param in Ep. destruct (negb _); [discriminate|]. cbv zeta in Ep.
    destruct (_ =? FnLoop) eqn:E1; [injection Ep as <-; apply Z.eqb_eq in E1; now left|].
    destruct (_ =? FnForEachMapElem) eqn:E2; [injection Ep as <-; apply Z.eqb_eq in E2; now right|]. now destruct (_ =? FnTimerSetCallback).
  - intros s s' Hs. rewrite (H3 s s' Hs). f_equal. lia.
  - intros s s' Hs. exact (find_call_pointer l (S i) c s c s' Ec (le_n c) Hs).
Qed.

(** [r2 = callback; r3 = r10; r3 += -16; call bpf_loop]. *)
Definition ex_ins (o : OpCode_) (dst src : Z) (c : Z) : Instruction := mkIns o dst src 0 c [] [] None.
Definition ex_alu (op : ALUOp_) (src : Source_) : OpCode_ := mkOp ALU64Class op InvalidJumpOp src OtherMode InvalidSize.
Definition ex_loop : list Instruction :=
    [ex_ins (mkOp LdClass InvalidALUOp InvalidJumpOp InvalidSource ImmMode DWord) R2 PseudoFunc 0;
     ex_ins (ex_alu Mov RegSource) R3 RFP 0; ex_ins (ex_alu Asm.Add ImmSource) R3 0 (-16);
     ex_ins (mkOp JumpClass InvalidALUOp Call ImmSource OtherMode InvalidSize) 0 0 FnLoop].

Lemma CallbackCall_arg_witness :
  CallbackCall ex_loop 0 = Ok (mkCallback FnLoop R2 (-16), 1%nat, 3%nat) /\
  (forall s s', straight ex_loop 1 s 3 s' -> vregs s' R3 = Fp (-16)).
Proof.
  split; [reflexivity|].
  apply (CallbackCall_arg ex_loop 0 (mkCallback FnLoop R2 (-16)) 1 3); [repeat constructor; cbn; discriminate|reflexivity|reflexivity].
Defined.
