(* ===== verification/ArgReads.v ===== *)
(** * ArgReads: the argument registers a function reads
    (internal/ctxflow/pass.go: [operands], [ArgReads], [FreeArg])

    Positions are decoded indices. Register sets are bit sets over R0-R5, as
    in the code. *)

From Stdlib Require Import ZArith Lia Bool Ascii String List.
From stdpp Require Import base list strings numbers option gmap sets.
From S2P Require Import Prelude GoStd Asm Worklist CtxFlow.
Local Open Scope Z_scope.
Local Open Scope go_scope.

Definition helperArgs : string :=
  ("0" ++
   "2423050055533002131442215435333231032322103231125434424352242243254544444434141024255132244" ++
   "311111155433344421553333210445113053124322221111144434233541421242020315453413231111341454" ++
   "332101144533231442255333220442")%string.

Definition digit (c : ascii) : Z := Z.of_N (N_of_ascii c) - 48.

(** [uint8(1<<(n+1)-1) &^ 1]. *)
Definition first_args (n : Z) : Z := Z.ldiff ((Z.shiftl 1 (n + 1) - 1) mod 256) 1.

Definition all_args : Z := 62.

Definition bit (r : Z) : Z := if r <=? R5 then Z.shiftl 1 r else 0.

(** The registers R0-R5 an instruction reads and writes. *)
Definition operands (i : Instruction) : Z * Z :=
  let cls := class i in
  if IsALU cls then
    let '(src, use) :=
      match ALUOp (OpCode i) with
      | Mov => (fromReg i, 0)
      | Neg | Swap => (false, bit (Dst i))
      | _ => (fromReg i, bit (Dst i))
      end in
    (if src then Z.lor use (bit (Src i)) else use, bit (Dst i))
  else if bool_decide (cls = LdXClass) then (bit (Src i), bit (Dst i))
  else if bool_decide (cls = LdClass) && IsDWordLoad i then (0, bit (Dst i))
  else if bool_decide (cls = LdClass) then (Z.lor (bit (Src i)) all_args, 63)
  else if bool_decide (cls = StClass) then (bit (Dst i), 0)
  else if bool_decide (cls = StXClass) && memMode i then (Z.lor (bit (Dst i)) (bit (Src i)), 0)
  else if bool_decide (cls = StXClass) then (Z.lor (Z.lor (bit (Dst i)) (bit (Src i))) 1, 0)
  else if bool_decide (JumpOp (OpCode i) = Exit) then (1, 0)
  else if bool_decide (JumpOp (OpCode i) = Call) then
    (if IsBuiltinCall i then
       match (if 0 <=? Constant i then String.get (Z.to_nat (Constant i)) helperArgs else None) with
       | Some c => first_args (digit c)
       | None => all_args
       end
     else all_args, 63)
  else if bool_decide (JumpOp (OpCode i) = Ja) then (0, 0)
  else if IsJump cls then (if fromReg i then Z.lor (bit (Dst i)) (bit (Src i)) else bit (Dst i), 0)
  else (63, 0).

(** ** The analysis *)

Inductive argErr :=
| ANoFuel
| AUnknownSymbol (i : Z) (ref : bytes)
| ANoTarget (i : Z)
| ARecursive (i : Z)
| ALeaves (i : Z).

#[export] Instance argErr_eq_dec : EqDecision argErr. Proof. solve_decision. Defined.

Record argProgram := mkArgs { ains : list Instruction; apcs : list Z; aindex : gmap Z Z; asymbols : gmap bytes Z }.

Definition newArgProgram (l : list Instruction) : argProgram :=
  mkArgs l (offsets 0 l)
    (fold_left (fun m '(n, pc) => <[pc := Z.of_nat n]> m) (imap pair (offsets 0 l)) ∅)
    (fold_left (fun m '(n, i) => if has_text (Symbol i) then <[Symbol i := Z.of_nat n]> m else m) (imap pair l) ∅).

Definition ins_of (p : argProgram) (i : Z) : option Instruction := if i <? 0 then None else ains p !! Z.to_nat i.

Definition arg_target (p : argProgram) (i : Z) (ins : Instruction) : result argErr Z :=
  if has_text (Reference ins) then
    match asymbols p !! Reference ins with Some t => Ok t | None => Err (AUnknownSymbol i (Reference ins)) end
  else
    let rel := if IsFunctionCall ins || bool_decide (class ins = Jump32Class) && bool_decide (JumpOp (OpCode ins) = Ja)
               then i32 (Constant ins) else Offset ins in
    match aindex p !! (default 0 (apcs p !! Z.to_nat i) + 1 + rel) with Some t => Ok t | None => Err (ANoTarget i) end.

(** A callee whose BTF says it is not static. *)
Definition checked_callee (p : argProgram) (t : Z) : bool :=
  match ins_of p t with Some ins => match FuncMetadata ins with Some fm => negb (fm_Static fm) | None => false end | None => false end.

Definition arg_succ (p : argProgram) (i : Z) (ins : Instruction) : result argErr (list Z) :=
  if IsJump (class ins) && bool_decide (JumpOp (OpCode ins) = Exit) then Ok []
  else if IsJump (class ins) && negb (bool_decide (JumpOp (OpCode ins) = Call)) then
    let? t := arg_target p i ins in
    Ok (if bool_decide (JumpOp (OpCode ins) = Ja) then [t] else [t; i + 1])
  else Ok [i + 1].

(** Sets every path has written join by intersection. *)
#[local] Instance written_join : JoinOrder Z :=
  {| join := Z.land; leq a b := Z.land a b = b;
     height := fun a => length (filter (fun r => Z.testbit a r = true) [0; 1; 2; 3; 4; 5]) |}.

Notation memoMap := (gmap Z Z).

(** The read set so far and the memo. *)
Definition arg_flow (p : argProgram) (callee : Z -> memoMap -> result argErr (Z * memoMap))
    (i w : Z) (acc : Z * memoMap) : result argErr (Z * memoMap * Z * list Z) :=
  match ins_of p i with
  | None => Err (ALeaves i)
  | Some ins =>
      let '(use, def) := operands ins in
      let? um :=
        (if IsFunctionCall ins then
           let? t := arg_target p i ins in
           if checked_callee p t then Ok (all_args, snd acc) else callee t (snd acc)
         else Ok (use, snd acc)) in
      let? succ := arg_succ p i ins in
      Ok (Z.lor (fst acc) (Z.ldiff (fst um) w), snd um, Z.lor w def, succ)
  end.

Definition written_height : nat := 6.
Definition arg_fuel (p : argProgram) : nat := 2 * (S written_height * (length (ains p) + 2)) + 1.

Fixpoint reads (depth : nat) (p : argProgram) (busy : list Z) (start : Z) (memo : memoMap) : result argErr (Z * memoMap) :=
  match memo !! start with
  | Some r => Ok (r, memo)
  | None =>
      if bool_decide (start ∈ busy) then Err (ARecursive start)
      else
        match depth with
        | O => Err ANoFuel
        | S depth =>
            match solve (arg_flow p (reads depth p (start :: busy))) (arg_fuel p) {[start := 0]} [start] (0, memo) with
            | Err OutOfFuel => Err ANoFuel
            | Err (Refused e) => Err e
            | Ok (_, (out, memo)) => Ok (out, <[start := out]> memo)
            end
        end
  end.

Definition reads_depth (p : argProgram) : nat := length (ains p) + 2.

Definition ArgReads (l : list Instruction) (start : Z) : result argErr Z :=
  let p := newArgProgram l in
  let? rm := reads (reads_depth p) p [] start ∅ in
  Ok (Z.ldiff (fst rm) 1).

Definition FreeArg (reads : Z) : Z :=
  default 0 (find (fun r => negb (Z.testbit reads r)) [R5; R4; R3; R2; R1]).
