(* ===== verification/ArgReadsFacts.v ===== *)
(** * ArgReadsFacts: the read set is exact, and is computed

    A register is in [ArgReads] exactly when some path from the function's
    start reads it before writing it, and the analysis never runs out of
    its fuel: it returns a set or one of the sources' errors. *)

From Stdlib Require Import ZArith Lia Bool Ascii String List.
From stdpp Require Import base list strings numbers option gmap sets.
From S2P Require Import Prelude GoStd Asm Worklist CtxFlow FlowProgram FlowProgramFacts ArgReads.
Local Open Scope Z_scope.
Local Open Scope go_scope.
#[local] Existing Instance written_join.

(** ** Paths *)

(** [w] has been written on some path from [start] to [i]. *)
Inductive arg_path (p : argProgram) (start : Z) : Z -> Z -> Prop :=
| path_start : arg_path p start start 0
| path_step i w ins ss s : arg_path p start i w -> ins_of p i = Some ins -> arg_succ p i ins = Ok ss -> In s ss ->
    arg_path p start s (Z.lor w (snd (operands ins))).

(** Some path from [start] reads [r] before writing it: an instruction does,
    a call whose callee is checked against its prototype does for R1-R5, and
    another call does when its callee does. *)
Inductive reads_first (p : argProgram) : Z -> Z -> Prop :=
| reads_at start i w ins r : arg_path p start i w -> ins_of p i = Some ins -> uses p i ins r -> Z.testbit w r = false -> reads_first p start r
with uses (p : argProgram) : Z -> Instruction -> Z -> Prop :=
| use_ins i ins r : IsFunctionCall ins = false -> Z.testbit (fst (operands ins)) r = true -> uses p i ins r
| use_checked i ins t r : IsFunctionCall ins = true -> arg_target p i ins = Ok t -> checked_callee p t = true -> Z.testbit all_args r = true -> uses p i ins r
| use_callee i ins t r : IsFunctionCall ins = true -> arg_target p i ins = Ok t -> checked_callee p t = false -> reads_first p t r -> uses p i ins r.

Definition exact_set (p : argProgram) (t v : Z) : Prop := forall r, Z.testbit v r = true <-> reads_first p t r.
Definition memo_ok (p : argProgram) (m : memoMap) : Prop := forall t v, m !! t = Some v -> exact_set p t v.

(** ** Sets of written registers *)

Definition written_ok (w : Z) : Prop := 0 <= w < 64.

Definition popcount (a : Z) : nat := length (filter (fun r => Z.testbit a r = true) [0; 1; 2; 3; 4; 5]).

Definition land_strict : bool :=
  forallb (fun a => forallb (fun b => (Z.land a b =? a) || (popcount (Z.land a b) <? popcount a)%nat) (seqZ 0 64)) (seqZ 0 64).

Lemma land_strict_true : land_strict = true.
Proof. vm_compute. reflexivity. Qed.

Lemma in_seqZ64 a : 0 <= a < 64 -> In a (seqZ 0 64).
Proof. intros H. apply list_elem_of_In, elem_of_seqZ. lia. Qed.

Lemma land_ok a b : written_ok a -> written_ok b -> written_ok (Z.land a b).
Proof.
  unfold written_ok. intros Ha Hb. split; [apply Z.land_nonneg; lia|].
  rewrite <- (Z.mod_small a 64) by lia. change 64 with (2 ^ 6). rewrite <- Z.land_ones by lia. rewrite <- Z.land_assoc, (Z.land_comm (Z.ones 6)), Z.land_assoc, Z.land_ones by lia.
  apply Z.mod_pos_bound. lia.
Qed.

Lemma lor_ok a b : written_ok a -> written_ok b -> written_ok (Z.lor a b).
Proof.
  unfold written_ok. intros Ha Hb. assert (Hnn : 0 <= Z.lor a b) by (apply Z.lor_nonneg; lia). split; [exact Hnn|].
  destruct (decide (Z.lor a b = 0)) as [->|Hn]; [lia|]. change 64 with (2 ^ 6) in *. apply Z.log2_lt_pow2; [lia|].
  rewrite Z.log2_lor by lia. apply Z.max_lub_lt.
  - destruct (decide (a = 0)) as [->|]; [cbn; lia|]. apply Z.log2_lt_pow2; lia.
  - destruct (decide (b = 0)) as [->|]; [cbn; lia|]. apply Z.log2_lt_pow2; lia.
Qed.

#[local] Instance written_laws : JoinLaws Z written_ok.
Proof.
  split; cbn.
  - apply Z.land_diag.
  - intros a b c H1 H2. rewrite <- H2 at 1. now rewrite Z.land_assoc, H1.
  - intros a b _ _. now rewrite Z.land_assoc, Z.land_diag.
  - intros a b _ _. now rewrite (Z.land_comm a b), Z.land_assoc, Z.land_diag.
  - apply land_ok.
  - intros a b Ha Hb Hne. pose proof land_strict_true as Hs. unfold land_strict in Hs. rewrite forallb_forall in Hs.
    specialize (Hs a (in_seqZ64 a Ha)). rewrite forallb_forall in Hs. specialize (Hs b (in_seqZ64 b Hb)).
    apply orb_prop in Hs as [Hs|Hs]; [now apply Z.eqb_eq in Hs|]. now apply Nat.ltb_lt in Hs.
Qed.

Lemma bit_ok r : written_ok (bit r).
Proof.
  unfold bit, written_ok, R5. destruct (r <=? 5) eqn:E; bools; [|lia]. rewrite Z.shiftl_1_l. destruct (decide (0 <= r)).
  - assert (2 ^ r <= 2 ^ 5) by (apply Z.pow_le_mono_r; lia). assert (0 < 2 ^ r) by (apply Z.pow_pos_nonneg; lia). lia.
  - rewrite Z.pow_neg_r by lia. lia.
Qed.

Lemma operands_def_ok i : written_ok (snd (operands i)).
Proof.
  unfold operands. destruct (IsALU (class i)); [destruct (ALUOp (OpCode i)); apply bit_ok|].
  repeat (destruct (bool_decide _ && _); [cbn; try apply bit_ok; unfold written_ok; lia|]). 
  repeat (match goal with |- context [if ?b then _ else _] => destruct b end; cbn; try apply bit_ok; try (unfold written_ok; lia)).
Qed.

(** ** One function, given its callees *)

Section OneFunction.
Variables (p : argProgram) (start : Z) (callee : Z -> memoMap -> result argErr (Z * memoMap)).
Hypothesis callee_exact : forall t m v m', memo_ok p m -> callee t m = Ok (v, m') -> exact_set p t v /\ memo_ok p m'.

Definition settled_at (m : gmap Z Z) (out i w : Z) : Prop :=
  exists ins ss, ins_of p i = Some ins /\ arg_succ p i ins = Ok ss /\
    (forall r, uses p i ins r -> Z.testbit w r = false -> Z.testbit out r = true) /\
    Forall (covers m (Z.lor w (snd (operands ins)))) ss.

Definition arg_inv (m : gmap Z Z) (work : list Z) (acc : Z * memoMap) : Prop :=
  memo_ok p (snd acc) /\ all_ok written_ok m /\ grew {[start := 0]} m /\
  (forall i w r, m !! i = Some w -> Z.testbit w r = false -> exists w', arg_path p start i w' /\ Z.testbit w' r = false) /\
  (forall r, Z.testbit (fst acc) r = true -> reads_first p start r) /\
  (forall i w, m !! i = Some w -> i ∈ work \/ settled_at m (fst acc) i w).

(** What [arg_flow] adds to the set is what the instruction uses. *)
Lemma arg_flow_inv i w acc acc' w' ss : memo_ok p (snd acc) -> arg_flow p callee i w acc = Ok (acc', w', ss) ->
  exists ins u, ins_of p i = Some ins /\ arg_succ p i ins = Ok ss /\ w' = Z.lor w (snd (operands ins)) /\
    (forall r, Z.testbit u r = true <-> uses p i ins r) /\ fst acc' = Z.lor (fst acc) (Z.ldiff u w) /\ memo_ok p (snd acc').
Proof.
  intros Hm. unfold arg_flow. destruct (ins_of p i) as [ins|] eqn:Ei; [|discriminate]. destruct (operands ins) as [use def] eqn:Eo.
  destruct (IsFunctionCall ins) eqn:Ec.
  - destruct (arg_target p i ins) as [t|] eqn:Et; [|discriminate]. cbn [result_bind]. destruct (checked_callee p t) eqn:Ek; cbn [result_bind].
    + destruct (arg_succ p i ins) as [ss1|] eqn:Es; [|discriminate]. cbn. intros [= <- <- <-]. exists ins, all_args. rewrite Eo. splits; auto.
      intros r. split; [intros Hr; now apply (use_checked p i ins t)|]. intros Hu. inversion Hu; subst; congruence.
    + destruct (callee t (snd acc)) as [[u m1]|] eqn:Eu; [|discriminate]. cbn. destruct (arg_succ p i ins) as [ss1|] eqn:Es; [|discriminate].
      cbn. intros [= <- <- <-]. destruct (callee_exact _ _ _ _ Hm Eu) as [Hx Hm1]. exists ins, u. rewrite Eo. splits; auto.
      intros r. rewrite (Hx r). split; [intros Hr; now apply (use_callee p i ins t)|]. intros Hu. inversion Hu; subst; congruence.
  - cbn [result_bind]. destruct (arg_succ p i ins) as [ss1|] eqn:Es; [|discriminate]. cbn. intros [= <- <- <-]. exists ins, use. rewrite Eo. splits; auto.
    intros r. split; [intros Hr; apply use_ins; [exact Ec|now rewrite Eo]|]. intros Hu. inversion Hu; subst; try congruence. now rewrite Eo in *.
Qed.

Lemma settled_grew m m' out out' i w : grew m m' -> (forall r, Z.testbit out r = true -> Z.testbit out' r = true) -> settled_at m out i w -> settled_at m' out' i w.
Proof.
  intros Hg Ho (ins & ss & H1 & H2 & H3 & H4). exists ins, ss. splits; auto. eapply List.Forall_impl; [|exact H4]. intros s. apply covers_grew with (ok := written_ok); auto using written_laws.
Qed.

Lemma arg_inv_step m pc work acc w acc' w' ss m' work' : arg_inv m (pc :: work) acc -> m !! pc = Some w ->
  arg_flow p callee pc w acc = Ok (acc', w', ss) -> fold_left (merge w') ss (m, work) = (m', work') -> arg_inv m' work' acc'.
Proof.
  intros (I1 & I2 & I3 & I4 & I5 & I6) Hpc Hf Hmg. destruct (arg_flow_inv _ _ _ _ _ _ I1 Hf) as (ins & u & Hi & Hs & -> & Hu & Ho & Hm).
  assert (Hok : written_ok (Z.lor w (snd (operands ins)))) by (apply lor_ok; [now apply (I2 pc)|apply operands_def_ok]).
  destruct (merge_all_spec written_ok _ _ _ _ _ _ I2 Hok Hmg) as (K1 & K2 & K3 & K4 & K5 & _).
  assert (Hup : forall r, Z.testbit (fst acc) r = true -> Z.testbit (fst acc') r = true) by (intros r Hr; rewrite Ho, Z.lor_spec, Hr; reflexivity).
  unfold arg_inv. splits; auto.
  - eapply grew_trans; [exact written_laws|exact I3|exact K2].
  - intros i w1 r. revert i w1. apply (merge_all_prop (fun i x => Z.testbit x r = false -> exists w', arg_path p start i w' /\ Z.testbit w' r = false) _ _ _ _ _ _) with (4 := Hmg).
    + intros i x y Hx Hy. cbn [join written_join]. rewrite Z.land_spec. intros Hxy. apply andb_false_iff in Hxy as [Hxy|Hxy]; auto.
    + intros s Hin. rewrite Z.lor_spec. intros Hr. apply orb_false_elim in Hr as [Hr1 Hr2]. destruct (I4 _ _ _ Hpc Hr1) as (w1 & P1 & P2).
      exists (Z.lor w1 (snd (operands ins))). split; [eapply path_step; eauto|]. now rewrite Z.lor_spec, P2, Hr2.
    + intros i x Hx. now apply I4.
  - intros r Hr. rewrite Ho, Z.lor_spec, Z.ldiff_spec in Hr. apply orb_prop in Hr as [Hr|Hr]; [auto|]. apply andb_prop in Hr as [Hr1 Hr2]. apply negb_true_iff in Hr2.
    destruct (I4 _ _ _ Hpc Hr2) as (w1 & P1 & P2). eapply reads_at; [exact P1|exact Hi|now apply Hu|exact P2].
  - intros i w1 Hw1. destruct (decide (m' !! i = m !! i)) as [Eq|Ne]; [|left; now apply K4]. rewrite Eq in Hw1.
    destruct (decide (i = pc)) as [->|Hne].
    + right. rewrite Hpc in Hw1. injection Hw1 as <-. exists ins, ss. splits; auto. intros r Hr Hw. rewrite Ho, Z.lor_spec, Z.ldiff_spec, Hw, (proj2 (Hu r) Hr). apply orb_true_r.
    + destruct (I6 _ _ Hw1) as [Hin|Hset]; [apply list.elem_of_cons in Hin as [->|]; [contradiction|left; auto]|]. right. now apply (settled_grew m m' (fst acc)).
Qed.

Lemma reads_one fuel m out memo memo' : memo_ok p memo -> solve (arg_flow p callee) fuel {[start := 0]} [start] (0, memo) = Ok (m, (out, memo')) ->
  exact_set p start out /\ memo_ok p memo'.
Proof.
  intros Hm Hs. assert (HI : arg_inv m [] (out, memo')).
  { apply (solve_inv (arg_flow p callee) arg_inv) with (4 := Hs).
    - intros m0 pc work acc (I1 & I2 & I3 & I4 & I5 & I6) Hn. unfold arg_inv. splits; auto. intros i w Hw. destruct (I6 i w Hw) as [Hin|]; [|auto].
      apply list.elem_of_cons in Hin as [->|]; [congruence|auto].
    - intros m0 pc work acc a acc' a' succ m' work' HI Ha Hf Hmg. exact (arg_inv_step _ _ _ _ _ _ _ _ _ _ HI Ha Hf Hmg).
    - unfold arg_inv. splits; [exact Hm| | | | |].
      + intros pc a Ha. apply lookup_singleton_Some in Ha as [_ <-]. unfold written_ok. lia.
      + eapply grew_refl, written_laws.
      + intros i w r Hw _. apply lookup_singleton_Some in Hw as [<- <-]. exists 0. split; [constructor|apply Z.bits_0].
      + intros r Hr. cbn [fst] in Hr. now rewrite Z.bits_0 in Hr.
      + intros i w Hw. apply lookup_singleton_Some in Hw as [<- _]. left. now left. }
  destruct HI as (I1 & I2 & I3 & I4 & I5 & I6). cbn [fst snd] in *. split; [|exact I1]. intros r. split; [apply I5|].
  assert (Hcov : forall i w', arg_path p start i w' -> exists w, m !! i = Some w /\ forall q, Z.testbit w q = true -> Z.testbit w' q = true).
  { intros i w' Hp. induction Hp as [|i w' ins ss s Hp (w & Hw & Hsub) Hi Hss Hin].
    - destruct (I3 start 0) as (w & Hw & Hl); [apply lookup_singleton_eq|]. exists w. split; [exact Hw|]. intros q Hq. change (Z.land 0 w = w) in Hl. rewrite Z.land_0_l in Hl. subst w. now rewrite Z.bits_0 in Hq.
    - destruct (I6 _ _ Hw) as [Hn|(ins' & ss' & H1 & H2 & _ & H4)]; [now apply list.not_elem_of_nil in Hn|]. rewrite Hi in H1. injection H1 as <-. rewrite Hss in H2. injection H2 as <-.
      rewrite List.Forall_forall in H4. destruct (H4 s Hin) as (w2 & Hw2 & Hl). exists w2. split; [exact Hw2|]. change (Z.land (Z.lor w (snd (operands ins))) w2 = w2) in Hl. intros q Hq.
      rewrite <- Hl, Z.land_spec, Z.lor_spec in Hq. apply andb_prop in Hq as [Hq _]. rewrite Z.lor_spec. apply orb_prop in Hq as [Hq|Hq]; [now rewrite (Hsub _ Hq)|rewrite Hq; apply orb_true_r]. }
  intros Hr. inversion Hr as [? i w' ins r0 Hp Hi Hu Hw]; subst. destruct (Hcov _ _ Hp) as (w & Hwm & Hsub).
  destruct (I6 _ _ Hwm) as [Hn|(ins' & ss' & H1 & _ & H3 & _)]; [now apply list.not_elem_of_nil in Hn|]. rewrite Hi in H1. injection H1 as <-.
  apply H3; [exact Hu|]. destruct (Z.testbit w r) eqn:E; [|reflexivity]. rewrite (Hsub _ E) in Hw. discriminate.
Qed.
End OneFunction.

Lemma reads_exact p depth busy start memo out memo' : memo_ok p memo -> reads depth p busy start memo = Ok (out, memo') ->
  exact_set p start out /\ memo_ok p memo'.
Proof.
  revert busy start memo out memo'. induction depth as [|depth IH]; intros busy start memo out memo' Hm Hr; cbn [reads] in Hr;
    (destruct (memo !! start) as [v|] eqn:Em; [injection Hr as <- <-; split; [exact (Hm _ _ Em)|exact Hm]|]); (destruct (bool_decide _); [discriminate|]); [discriminate|].
  destruct (solve _ _ _ _ _) as [[m [o mo]]|[]] eqn:Es; try discriminate. injection Hr as <- <-.
  destruct (reads_one p start (reads depth p (start :: busy)) (fun t m v m' => IH _ t m v m') _ _ _ _ _ Hm Es) as [Hx Hmo]. split; [exact Hx|].
  intros t v Ht. destruct (decide (start = t)) as [<-|Hne]; [rewrite lookup_insert_eq in Ht; now injection Ht as <-|]. rewrite lookup_insert_ne in Ht by exact Hne. now apply Hmo.
Qed.

(** ** The fuel suffices *)

Definition in_program (p : argProgram) (t : Z) : Prop := 0 <= t < Z.of_nat (length (ains p)).

Lemma fold_values {V} (l : list (nat * V)) (f : gmap Z Z -> nat * V -> gmap Z Z) (P : Z -> Prop) m :
  (forall m x, (forall k v, m !! k = Some v -> P v) -> In x l -> forall k v, f m x !! k = Some v -> P v) ->
  (forall k v, m !! k = Some v -> P v) -> forall k v, fold_left f l m !! k = Some v -> P v.
Proof.
  revert m. induction l as [|x l IH]; intros m Hf Hm; cbn [fold_left]; [exact Hm|]. apply IH; [intros m' y H Hy; apply Hf; [exact H|now right]|].
  apply (Hf m x Hm). now left.
Qed.

Lemma arg_target_in l i ins t : let p := newArgProgram l in arg_target p i ins = Ok t -> in_program p t.
Proof.
  cbv zeta. unfold arg_target. destruct (has_text (Reference ins)).
  - destruct (asymbols (newArgProgram l) !! Reference ins) as [v|] eqn:E; [|discriminate]. intros [= <-]. unfold newArgProgram in E. cbn [asymbols] in E.
    assert (Hgen : forall ps m, (forall s v, m !! s = Some v -> in_program (newArgProgram l) v) -> (forall n j, In (n, j) ps -> (n < length l)%nat) ->
      forall s v, fold_left (fun (m : gmap bytes Z) '(n, i) => if has_text (Symbol i) then <[Symbol i := Z.of_nat n]> m else m) ps m !! s = Some v -> in_program (newArgProgram l) v).
    { clear. induction ps as [|[n j] ps IH]; intros m Hm Hn s v Hv; cbn [fold_left] in Hv; [eauto|]. eapply IH; [|intros n' j' Hin; apply (Hn n' j'); now right|exact Hv].
      intros s' v' Hv'. destruct (has_text (Symbol j)); [|eauto]. destruct (decide (Symbol j = s')) as [<-|Hne]; [|rewrite lookup_insert_ne in Hv' by exact Hne; eauto].
      rewrite lookup_insert_eq in Hv'. injection Hv' as <-. unfold in_program. cbn. specialize (Hn n j (or_introl eq_refl)). lia. }
    eapply Hgen; [| |exact E]; [intros s v0 Hs; now rewrite lookup_empty in Hs|]. intros n j Hin. apply list_elem_of_In, list_elem_of_lookup_1 in Hin as [k Hk].
    rewrite list_lookup_imap in Hk. destruct (l !! k) as [x|] eqn:Ex; [|discriminate]. injection Hk as -> ->. now apply lookup_lt_Some in Ex.
  - destruct (aindex _ !! _) as [v|] eqn:E; [|discriminate]. intros [= <-]. unfold newArgProgram in E. cbn [aindex] in E.
    revert E. generalize (default 0 (apcs (newArgProgram l) !! Z.to_nat i) + 1 + (if IsFunctionCall ins || bool_decide (class ins = Jump32Class) && bool_decide (JumpOp (OpCode ins) = Ja) then i32 (Constant ins) else Offset ins)).
    intros k E. eapply (fold_values (imap pair (offsets 0 l)) _ (in_program (newArgProgram l))); [| |exact E]; [|intros k' v' Hk'; now rewrite lookup_empty in Hk'].
    intros m [n pc] Hm Hin k' v' Hk'. destruct (decide (pc = k')) as [<-|Hne]; [|rewrite lookup_insert_ne in Hk' by exact Hne; eauto].
    rewrite lookup_insert_eq in Hk'. injection Hk' as <-. apply list_elem_of_In, list_elem_of_lookup_1 in Hin as [j Hj]. rewrite list_lookup_imap in Hj.
    destruct (offsets 0 l !! j) as [o|] eqn:Eo; [|discriminate]. injection Hj as -> ->. apply lookup_lt_Some in Eo. rewrite length_offsets in Eo.
    unfold in_program. cbn. lia.
Qed.

Lemma ins_of_in p i ins : ins_of p i = Some ins -> in_program p i.
Proof. unfold ins_of, in_program. destruct (i <? 0) eqn:E; [discriminate|]. bools. intros H. apply lookup_lt_Some in H. lia. Qed.

Lemma arg_succ_in l i ins ss : let p := newArgProgram l in ins_of p i = Some ins -> arg_succ p i ins = Ok ss ->
  Forall (fun s => In s (seqZ 0 (Z.of_nat (length l) + 1))) ss.
Proof.
  cbv zeta. intros Hi. apply ins_of_in in Hi. unfold in_program in Hi. cbn [ains newArgProgram] in Hi.
  assert (Hdom : forall s, 0 <= s <= Z.of_nat (length l) -> In s (seqZ 0 (Z.of_nat (length l) + 1))) by (intros s Hs; apply list_elem_of_In, elem_of_seqZ; lia).
  unfold arg_succ. destruct (IsJump (class ins) && bool_decide (JumpOp (OpCode ins) = Exit)); [intros [= <-]; constructor|].
  destruct (IsJump (class ins) && negb _).
  - destruct (arg_target (newArgProgram l) i ins) as [t|] eqn:Et; [|discriminate]. cbn [result_bind]. pose proof (arg_target_in l i ins t Et) as Ht. unfold in_program in Ht. cbn [ains newArgProgram] in Ht.
    intros [= <-]. destruct (bool_decide _); repeat constructor; apply Hdom; lia.
  - intros [= <-]. repeat constructor. apply Hdom. lia.
Qed.

Lemma arg_solve_ends l callee start memo :
  let p := newArgProgram l in solve (arg_flow p callee) (arg_fuel p) {[start := 0]} [start] (0, memo) <> Err OutOfFuel.
Proof.
  cbv zeta. set (p := newArgProgram l). set (dom := start :: seqZ 0 (Z.of_nat (length l) + 1)).
  assert (Hinv : forall i w acc acc' w' ss, arg_flow p callee i w acc = Ok (acc', w', ss) ->
    exists ins, ins_of p i = Some ins /\ arg_succ p i ins = Ok ss /\ w' = Z.lor w (snd (operands ins))).
  { intros i w acc acc' w' ss. unfold arg_flow. destruct (ins_of p i) as [ins|]; [|discriminate]. destruct (operands ins) as [use def] eqn:Eo.
    match goal with |- context [result_bind ?x _] => destruct x as [um|]; [|discriminate] end. cbn [result_bind].
    destruct (arg_succ p i ins) as [s1|] eqn:Es; [|discriminate]. cbn. intros [= _ <- <-]. exists ins. now rewrite Eo. }
  apply (solve_total (arg_flow p callee) written_ok) with (dom := dom) (top := written_height).
  - intros i w acc acc' w' ss Hw Hf. destruct (Hinv _ _ _ _ _ _ Hf) as (ins & _ & _ & ->). apply lor_ok; [exact Hw|apply operands_def_ok].
  - intros i w acc acc' w' ss Hf. destruct (Hinv _ _ _ _ _ _ Hf) as (ins & Hi & Hs & _). eapply List.Forall_impl; [|exact (arg_succ_in l i ins ss Hi Hs)].
    intros s Hs'. now right.
  - intros a _. cbn [height written_join]. unfold written_height. etransitivity; [apply length_filter|]. cbn. lia.
  - intros pc a Ha. apply lookup_singleton_Some in Ha as [_ <-]. unfold written_ok. lia.
  - etransitivity; [cbn [length]; apply (rooms_start written_ok); [|unfold written_ok; lia]|].
    + intros a _. cbn [height written_join]. unfold written_height. etransitivity; [apply length_filter|]. cbn. lia.
    + unfold arg_fuel, dom. cbn [length]. rewrite length_seqZ. cbn [ains p newArgProgram]. lia.
Qed.

Lemma arg_target_fuel p i ins : arg_target p i ins <> Err ANoFuel.
Proof. unfold arg_target. destruct (has_text _); [now destruct (asymbols p !! _)|now destruct (aindex p !! _)]. Qed.

Lemma arg_succ_fuel p i ins : arg_succ p i ins <> Err ANoFuel.
Proof.
  unfold arg_succ. destruct (IsJump (class ins) && bool_decide _); [discriminate|]. destruct (IsJump (class ins) && negb _); [|discriminate].
  pose proof (arg_target_fuel p i ins). destruct (arg_target p i ins); cbn; congruence.
Qed.

Lemma reads_total l depth busy start memo D :
  let p := newArgProgram l in NoDup busy -> (forall t, t ∈ start :: busy -> t ∈ D) -> (forall t, in_program p t -> t ∈ D) ->
  (length D < depth + length busy)%nat -> reads depth p busy start memo <> Err ANoFuel.
Proof.
  cbv zeta. revert busy start memo. induction depth as [|depth IH]; intros busy start memo Hnd Hb Hall Hd; cbn [reads];
    (destruct (memo !! start); [discriminate|]); (case_bool_decide as Hin; [discriminate|]).
  - assert (Hle : (length (start :: busy) <= length D)%nat).
    { apply submseteq_length, NoDup_submseteq; [now constructor|exact Hb]. }
    cbn [length] in *. lia.
  - destruct (solve _ _ _ _ _) as [[m [o mo]]|[|e]] eqn:Es; [discriminate|now apply (arg_solve_ends l) in Es|].
    intros [= ->]. apply solve_refused in Es as (i & w & acc & Hf). unfold arg_flow in Hf. destruct (ins_of _ i) as [ins|] eqn:Ei; [|discriminate].
    destruct (operands ins) as [use def]. destruct (IsFunctionCall ins).
    + destruct (arg_target _ i ins) as [t|e] eqn:Et; cbn [result_bind] in Hf.
      * destruct (checked_callee _ t); cbn [result_bind] in Hf; [destruct (arg_succ _ i ins) as [|e] eqn:Es; [discriminate|]|].
        -- injection Hf as ->. now apply arg_succ_fuel in Es.
        -- assert (Hle : (length (start :: busy) <= length D)%nat) by (apply submseteq_length, NoDup_submseteq; [now constructor|exact Hb]).
           destruct (reads depth _ (start :: busy) t (snd acc)) as [|e] eqn:Er; cbn [result_bind] in Hf.
           ++ destruct (arg_succ _ i ins) as [|e] eqn:Es; [discriminate|]. injection Hf as ->. now apply arg_succ_fuel in Es.
           ++ injection Hf as ->. revert Er. apply IH; [now constructor| |exact Hall|cbn [length] in *; lia].
              intros t' Ht'. apply list.elem_of_cons in Ht' as [->|Ht']; [apply Hall; now apply (arg_target_in l i ins)|now apply Hb].
      * injection Hf as ->. now apply arg_target_fuel in Et.
    + cbn [result_bind] in Hf. destruct (arg_succ _ i ins) as [|e] eqn:Es; [discriminate|]. injection Hf as ->. now apply arg_succ_fuel in Es.
Qed.

(** ** [ArgReads] and [FreeArg] *)

(** C18: [ArgReads] returns exactly the argument registers that some path
    from the function's start reads before writing, callees included. *)
Theorem ArgReads_exact (l : list Instruction) (start out : Z) :
  ArgReads l start = Ok out -> forall r, Z.testbit out r = true <-> r <> 0 /\ reads_first (newArgProgram l) start r.
Proof.
  unfold ArgReads. destruct (reads _ _ _ _ _) as [[v m]|] eqn:E; [|discriminate]. cbn. intros [= <-] r.
  destruct (reads_exact _ _ _ _ _ _ _ ltac:(intros t x Hx; now rewrite lookup_empty in Hx) E) as [Hx _]. rewrite Z.ldiff_spec, <- (Hx r).
  destruct (decide (r = 0)) as [->|Hr]; [split; [intros H; apply andb_prop in H as [_ H]; discriminate|tauto]|].
  assert (Hb : Z.testbit 1 r = false). { destruct (Z.neg_nonneg_cases r) as [Hn|Hn]; [now apply Z.testbit_neg_r|]. change 1 with (2 ^ 0). apply Z.pow2_bits_false. lia. }
  rewrite Hb, andb_true_r. tauto.
Qed.

(** The analysis of [ArgReads], nested through calls, ends within its
    fuel on every program, recursive or not. *)
Theorem ArgReads_total (l : list Instruction) (start : Z) : ArgReads l start <> Err ANoFuel.
Proof.
  unfold ArgReads. destruct (reads _ _ _ _ _) as [[v m]|e] eqn:E; [discriminate|]. cbn. intros [= ->]. revert E.
  apply (reads_total l _ [] start ∅ (start :: seqZ 0 (Z.of_nat (length l)))).
  - constructor.
  - intros t Ht. apply list.elem_of_cons in Ht as [->|Ht]; [now left|now apply list.not_elem_of_nil in Ht].
  - intros t Ht. right. apply elem_of_seqZ. exact Ht.
  - cbn [length]. rewrite length_seqZ. unfold reads_depth. cbn. lia.
Qed.

(** A free argument register is an R1-R5 that no path reads before
    writing it; there is none exactly when all five are read. *)
Lemma FreeArg_free (l : list Instruction) (start out : Z) :
  ArgReads l start = Ok out ->
  (FreeArg out <> 0 -> In (FreeArg out) args /\ ~ reads_first (newArgProgram l) start (FreeArg out)) /\
  (FreeArg out = 0 -> forall r, In r args -> reads_first (newArgProgram l) start r).
Proof.
  intros Ha. unfold ArgReads in Ha. destruct (reads _ _ _ _ _) as [[v m]|] eqn:E; [|discriminate]. cbn in Ha. injection Ha as <-.
  destruct (reads_exact _ _ _ _ _ _ _ ltac:(intros t x Hx; now rewrite lookup_empty in Hx) E) as [Hx _].
  assert (Hbit : forall r, In r args -> Z.testbit (Z.ldiff v 1) r = Z.testbit v r).
  { intros r Hr. rewrite Z.ldiff_spec. assert (Hb : Z.testbit 1 r = false); [|now rewrite Hb, andb_true_r].
    change 1 with (2 ^ 0). apply Z.pow2_bits_false. intros <-. cbn in Hr. unfold R1, R2, R3, R4, R5 in Hr. lia. }
  unfold FreeArg. destruct (find _ _) as [r|] eqn:Ef; cbn [default].
  - apply find_some in Ef as [Hin Hn]. assert (Hr : In r args) by (cbn in *; intuition). rewrite Hbit in Hn by exact Hr. apply negb_true_iff in Hn.
    split; [intros _; split; [exact Hr|]|].
    + intros Hc. apply Hx in Hc. change (id r) with r in *. congruence.
    + intros H0. change (id r) with r in H0. subst r. cbn in Hr. unfold R1, R2, R3, R4, R5 in Hr. lia.
  - split; [easy|]. intros _ r Hr. apply Hx. pose proof (find_none _ _ Ef r ltac:(cbn in *; intuition)) as Hn. cbn beta in Hn. apply negb_false_iff in Hn. now rewrite Hbit in Hn.
Qed.

Definition mov_from (dst src : Z) : Instruction := mkIns (mkOp ALU64Class Mov InvalidJumpOp RegSource OtherMode InvalidSize) dst src 0 0 [] [] None.
Definition call_rel (rel : Z) : Instruction := mkIns (mkOp JumpClass InvalidALUOp Call ImmSource OtherMode InvalidSize) 0 PseudoCall 0 rel [] [] None.
Definition exit_ins : Instruction := mkIns (mkOp JumpClass InvalidALUOp Exit ImmSource OtherMode InvalidSize) 0 0 0 0 [] [] None.

(** [r1 = r4; call f; exit; f: r0 = r2; exit] reads R4 and, in [f], R2. *)
Definition ex_reads : list Instruction := [mov_from 1 4; call_rel 1; exit_ins; mov_from 0 2; exit_ins].

Lemma ArgReads_exact_witness : ArgReads ex_reads 0 = Ok 20 /\ (Z.testbit 20 2 = true <-> 2 <> 0 /\ reads_first (newArgProgram ex_reads) 0 2).
Proof. assert (E : ArgReads ex_reads 0 = Ok 20) by (vm_compute; reflexivity). split; [exact E|apply (ArgReads_exact ex_reads 0 20 E)]. Defined.
