(* ===== verification/CtxProve.v ===== *)
(** * CtxProve: which functions have the context, and where
    (internal/ctxflow/prove.go: [Prove]; pass.go: [passes],
    [pass]; callback.go: [proveCallback])

    A root (the entry, a global function) starts with the context its BTF
    prototype names; a static function does when every direct caller is
    proved to pass it. The rest of a function's proof says whether it is a
    callback whose context is known, and how the context can be passed down
    to it. *)

From Stdlib Require Import ZArith Lia Bool Ascii String List.
From stdpp Require Import base list strings numbers option gmap.
From S2P Require Import Prelude GoStd Asm Worklist CtxFlow FlowProgram CtxAnalyze CtxCallback ArgReads.
Local Open Scope Z_scope.
Local Open Scope go_scope.

Inductive cbReason :=
| CbNotStatic
| CbAlsoCalled
| CbEntry
| CbCaller (name : bytes) (pc : Z)
| CbCall (why : cbWhy)
| CbLanding (at_ : Z)
| CbNoState (pc : Z)
| CbVaries (pc : Z)
| CbDiffer.

Inductive proofReason := Because (r : reason) | Unproved (c : cbReason).

Inductive passWhy :=
| PNoFuel
| PNotStatic
| PCallbackUse
| PNoCaller
| PArgReads (e : argErr)
| PNoFree
| PCaller (name : bytes) (pc : Z)
| PRecursive.

Record Pass := mkPass { passName : bytes; passStart : Z; passIndex : Z; passReg : Z; passSaved : bool }.

Record Proof_ := mkProof {
  Proven : bool; Reason : option proofReason; States : gmap Z ctxState;
  ProofCallback : option Callback; ProofPass : list Pass; PassReason : option passWhy
}.

Definition noProof : Proof_ := mkProof false None ∅ None [] None.
Definition proofOf (out : gmap Z Proof_) (start : Z) : Proof_ := default noProof (out !! start).

(** ** Context provenance *)

Definition entryStart (p : flowProgram) : Z := match funcs (base p) with f :: _ => Start f | [] => 0 end.

Definition first_reason (p : flowProgram) (fn : function) : option reason :=
  if (CtxParam fn <? 0) || (5 <=? CtxParam fn) then Some RNoParam
  else if (Start fn =? entryStart p) && negb (CtxParam fn =? 0) then Some REntryParam
  else if isCallback p (Start fn) then Some RCallback
  else None.

Definition refused (r : reason) : Proof_ := mkProof false (Some (Because r)) ∅ None [] None.

Definition analyzed (p : flowProgram) (fn : function) : Proof_ :=
  match analyze p fn with
  | Ok states => mkProof true None states None [] None
  | Err r => refused r
  end.

Inductive callersVerdict := Ready | NotReady | Bad (r : reason).

Definition call_reason (p : flowProgram) (c : callSite) : reason :=
  RCaller (match funcs (base p) !! caller c with Some g => fnName g | None => [] end) (site_pc c).

(** Whether every caller in the list is proved to pass the context. *)
Fixpoint check_callers (p : flowProgram) (out : gmap Z Proof_) (fn : function) (cs : list callSite) : callersVerdict :=
  match cs with
  | [] => Ready
  | c :: cs =>
      let pr := match funcs (base p) !! caller c with Some g => proofOf out (Start g) | None => noProof end in
      if negb (Proven pr) then
        match Reason pr with None => NotReady | Some _ => Bad (call_reason p c) end
      else
        match States pr !! site_pc c with
        | Some a => if bool_decide (tag (reg a (R1 + CtxParam fn)) = ctxValue) then check_callers p out fn cs else Bad (call_reason p c)
        | None => Bad (call_reason p c)
        end
  end.

(** The proof a function gets in this round, if it can be decided. *)
Definition decide_fn (p : flowProgram) (out : gmap Z Proof_) (n : nat) (fn : function) : option Proof_ :=
  let pr := proofOf out (Start fn) in
  if Proven pr || bool_decide (is_Some (Reason pr)) then None
  else if (n =? 0)%nat || isGlobal fn then Some (analyzed p fn)
  else
    match callersOf p (Start fn) with
    | [] => Some (refused RNoCaller)
    | cs =>
        match check_callers p out fn cs with
        | NotReady => None
        | Bad r => Some (refused r)
        | Ready => Some (analyzed p fn)
        end
    end.

(** [out], whether the round decided anything, and how many remain. *)
Definition round_fn (p : flowProgram) (st : gmap Z Proof_ * bool * Z) (x : nat * function) : gmap Z Proof_ * bool * Z :=
  let '(out, progress, remaining) := st in
  match decide_fn p out (fst x) (snd x) with
  | None => st
  | Some pr => (<[Start (snd x) := pr]> out, true, remaining - 1)
  end.

Definition round (p : flowProgram) (out : gmap Z Proof_) (remaining : Z) : gmap Z Proof_ * bool * Z :=
  fold_left (round_fn p) (imap pair (funcs (base p))) (out, false, remaining).

Fixpoint prove_loop (fuel : nat) (p : flowProgram) (out : gmap Z Proof_) (progress : bool) (remaining : Z) : option (gmap Z Proof_) :=
  if progress && (0 <? remaining) then
    match fuel with
    | O => None
    | S fuel => let '(out, progress, remaining) := round p out remaining in prove_loop fuel p out progress remaining
    end
  else Some out.

(** A function of a cycle no caller decides. *)
Definition close_fn (p : flowProgram) (out : gmap Z Proof_) (fn : function) : gmap Z Proof_ :=
  let pr := proofOf out (Start fn) in
  if negb (Proven pr) && bool_decide (Reason pr = None) then
    <[Start fn := mkProof (Proven pr)
        (Some (Because (match callersOf p (Start fn) with c :: _ => call_reason p c | [] => RNoCaller end)))
        (States pr) (ProofCallback pr) (ProofPass pr) (PassReason pr)]> out
  else out.

(** ** Callbacks *)

Fixpoint prove_refs (p : flowProgram) (entry : Proof_) (rs : list callSite) (out : option Callback) : result cbReason (option Callback) :=
  match rs with
  | [] => Ok out
  | ref :: rs =>
      if negb (caller ref =? 0)%nat then
        Err (CbCaller (match funcs (base p) !! caller ref with Some g => fnName g | None => [] end) (site_pc ref))
      else
        match CallbackCall (insns (base p)) (default 0%nat (at_ (base p) !! site_pc ref)) with
        | Err w => Err (CbCall w)
        | Ok (use, from, call) =>
            let callPC := pc_of (base p) call in
            let '(at_, lands) := landingIn (base p) (pc_of (base p) from) callPC in
            if lands then Err (CbLanding at_)
            else
              match States entry !! callPC with
              | None => Err (CbNoState callPC)
              | Some a =>
                  let k := reg a R3 in
                  if negb (bool_decide (tag k = ctxFrame)) || negb (koff k =? Arg use) then Err (CbVaries callPC)
                  else if match out with Some o => negb (bool_decide (o = use)) | None => false end then Err CbDiffer
                  else prove_refs p entry rs (Some use)
              end
        end
  end.

Definition proveCallback (p : flowProgram) (fn : function) (entry : Proof_) : result cbReason (option Callback) :=
  if negb (isStatic fn) then Err CbNotStatic
  else match callersOf p (Start fn) with
  | _ :: _ => Err CbAlsoCalled
  | [] => if negb (Proven entry) then Err CbEntry else prove_refs p entry (refsOf p (Start fn)) None
  end.

Definition callback_fn (p : flowProgram) (out : gmap Z Proof_) (fn : function) : gmap Z Proof_ :=
  if isCallback p (Start fn) then
    let pr := proofOf out (Start fn) in
    let '(cb, r) := match proveCallback p fn (proofOf out (entryStart p)) with Ok cb => (cb, Because RCallback) | Err w => (None, Unproved w) end in
    <[Start fn := mkProof (Proven pr) (Some r) (States pr) cb (ProofPass pr) (PassReason pr)]> out
  else out.

(** ** Passing the context down *)

Record passState := mkPassState { chains : gmap Z (list Pass); whys : gmap Z passWhy }.

Definition add_chain (acc : list Pass * list Z) (up : list Pass) : list Pass * list Z :=
  fold_left (fun '(chain, seen) q => if bool_decide (passStart q ∈ seen) then (chain, seen) else (chain ++ [q], passStart q :: seen)) up acc.

Definition funcAt (p : flowProgram) (n : nat) : function := default (mkFn [] 0 0 false false (-1)) (funcs (base p) !! n).

Fixpoint pass_callers (p : flowProgram) (resolve : function -> passState -> result passWhy (list Pass) * passState)
    (cs : list callSite) (acc : list Pass * list Z) (st : passState) : result passWhy (list Pass) * passState :=
  match cs with
  | [] => (Ok (fst acc), st)
  | c :: cs =>
      if (caller c =? 0)%nat then pass_callers p resolve cs acc st
      else
        let g := funcAt p (caller c) in
        let '(up, st) := resolve g st in
        match up with
        | Err _ => (Err (PCaller (fnName g) (site_pc c)), st)
        | Ok up => pass_callers p resolve cs (add_chain acc up) st
        end
  end.

Definition indexOf (p : flowProgram) (pc : Z) : Z := Z.of_nat (default 0%nat (at_ (base p) !! pc)).

Definition pass (p : flowProgram) (resolve : function -> passState -> result passWhy (list Pass) * passState)
    (fn : function) (proven : bool) (st : passState) : result passWhy (list Pass) * passState :=
  if negb (isStatic fn) then (Err PNotStatic, st)
  else if isCallback p (Start fn) then (Err PCallbackUse, st)
  else if proven then (Ok [mkPass (fnName fn) (Start fn) (indexOf p (Start fn)) (R1 + CtxParam fn) true], st)
  else
    match callersOf p (Start fn) with
    | [] => (Err PNoCaller, st)
    | cs =>
        match ArgReads (insns (base p)) (indexOf p (Start fn)) with
        | Err e => (Err (PArgReads e), st)
        | Ok reads =>
            let r := FreeArg reads in
            if r =? 0 then (Err PNoFree, st)
            else pass_callers p resolve cs ([mkPass (fnName fn) (Start fn) (indexOf p (Start fn)) r false], [Start fn]) st
        end
    end.

Fixpoint resolve (fuel : nat) (p : flowProgram) (proofs : gmap Z Proof_) (busy : list Z) (fn : function) (st : passState)
    : result passWhy (list Pass) * passState :=
  match chains st !! Start fn with
  | Some chain => (Ok chain, st)
  | None =>
      match whys st !! Start fn with
      | Some w => (Err w, st)
      | None =>
          if bool_decide (Start fn ∈ busy) then (Err PRecursive, st)
          else
            match fuel with
            | O => (Err PNoFuel, st)
            | S fuel =>
                let '(r, st) := pass p (resolve fuel p proofs (Start fn :: busy)) fn (Proven (proofOf proofs (Start fn))) st in
                match r with
                | Ok chain => (Ok chain, mkPassState (<[Start fn := chain]> (chains st)) (whys st))
                | Err w => (Err w, mkPassState (chains st) (<[Start fn := w]> (whys st)))
                end
            end
      end
  end.

Definition passes (p : flowProgram) (proofs : gmap Z Proof_) : passState :=
  fold_left (fun st fn => snd (resolve (S (length (funcs (base p)))) p proofs [] fn st)) (tail (funcs (base p))) (mkPassState ∅ ∅).

Definition with_pass (st : passState) (start : Z) (pr : Proof_) : Proof_ :=
  if start =? 0 then pr
  else mkProof (Proven pr) (Reason pr) (States pr) (ProofCallback pr) (default [] (chains st !! start)) (whys st !! start).

(** ** [Prove] *)

Definition firstProofs (p : flowProgram) : gmap Z Proof_ :=
  fold_left (fun out fn => <[Start fn := mkProof false (option_map Because (first_reason p fn)) ∅ None [] None]> out) (funcs (base p)) ∅.

(** [None]: out of fuel. *)
Definition Prove (l : list Instruction) : option (gmap Z Proof_) :=
  let p := newFlowProgram l in
  let fs := funcs (base p) in
  match fs with
  | [] => Some ∅
  | f0 :: _ =>
      if negb (Start f0 =? 0) then Some ∅
      else
        match prove_loop (S (length fs)) p (firstProofs p) true (Z.of_nat (length fs)) with
        | None => None
        | Some out =>
            let out := fold_left (close_fn p) fs out in
            let out := fold_left (callback_fn p) fs out in
            Some (map_imap (fun start pr => Some (with_pass (passes p out) start pr)) out)
        end
  end.
