(* ===== verification/CtxProveFacts.v ===== *)
(** * CtxProveFacts: a proved function has the context on every run

    The invariant of [Prove]'s proofs, and its meaning: on every execution
    of the program in the verifier's view, through direct calls, a proved
    function's states cover the registers and slots, so that a register or
    slot [HeldAt] names holds the context. *)

From Stdlib Require Import ZArith Lia Bool Ascii String List.
From stdpp Require Import base list strings numbers option gmap.
From S2P Require Import Prelude GoStd Asm Worklist CtxFlow CtxFlowFacts FrameView CtxFlowSound FlowProgram FlowProgramFacts CtxAnalyze CtxCallback ArgReads CtxProve.
Local Open Scope Z_scope.

(** ** The invariant of the proofs *)

(** A caller is proved, and at the call its parameter register holds the
    context. *)
Definition passes_ctx (p : flowProgram) (out : gmap Z Proof_) (fn : function) (c : callSite) : Prop :=
  exists g pr a, funcs (base p) !! caller c = Some g /\ out !! Start g = Some pr /\ Proven pr = true /\
    States pr !! site_pc c = Some a /\ tag (reg a (R1 + CtxParam fn)) = ctxValue.

Definition justified (p : flowProgram) (out : gmap Z Proof_) (n : nat) (fn : function) (pr : Proof_) : Prop :=
  Reason pr = None /\ analyze p fn = Ok (States pr) /\ first_reason p fn = None /\
  (n = 0%nat \/ isGlobal fn = true \/ Forall (passes_ctx p out fn) (callersOf p (Start fn))).

Definition proofs_ok (p : flowProgram) (out : gmap Z Proof_) : Prop :=
  forall n fn, funcs (base p) !! n = Some fn -> exists pr, out !! Start fn = Some pr /\
    (Proven pr = true -> justified p out n fn pr) /\
    (Proven pr = false -> Reason pr = None -> first_reason p fn = None).

(** The functions of a program start at distinct pcs. *)
Definition starts_distinct (p : flowProgram) : Prop :=
  forall n m f g, funcs (base p) !! n = Some f -> funcs (base p) !! m = Some g -> Start f = Start g -> n = m.

Lemma justified_weaken p out out' n fn pr :
  (forall s q, out !! s = Some q -> Proven q = true -> out' !! s = Some q) -> justified p out n fn pr -> justified p out' n fn pr.
Proof.
  intros Hk (H1 & H2 & H3 & H4). unfold justified. splits; auto. destruct H4 as [H4|[H4|H4]]; auto. right. right.
  eapply List.Forall_impl; [|exact H4]. intros c (g & q & a & C1 & C2 & C3 & C4 & C5). exists g, q, a. splits; auto.
Qed.

Lemma proofs_ok_insert p out n fn pr : starts_distinct p -> proofs_ok p out -> funcs (base p) !! n = Some fn ->
  Proven (proofOf out (Start fn)) = false -> (Proven pr = true -> justified p out n fn pr) ->
  (Proven pr = false -> Reason pr = None -> first_reason p fn = None) -> proofs_ok p (<[Start fn := pr]> out).
Proof.
  intros Hd Hok Hn Hold Hj Hr. assert (Hkeep : forall s q, out !! s = Some q -> Proven q = true -> <[Start fn := pr]> out !! s = Some q).
  { intros s q Hs Hq. rewrite lookup_insert_ne; [exact Hs|]. intros <-. unfold proofOf in Hold. rewrite Hs in Hold. cbn in Hold. congruence. }
  intros m g Hm. destruct (decide (Start g = Start fn)) as [E|E].
  - assert (m = n) by (eapply Hd; eauto). subst m. rewrite Hn in Hm. injection Hm as <-. exists pr. rewrite lookup_insert_eq. splits; auto.
    intros Hp. apply (justified_weaken p out); auto.
  - destruct (Hok m g Hm) as (q & Q1 & Q2 & Q3). exists q. rewrite lookup_insert_ne by auto. splits; auto. intros Hp. apply (justified_weaken p out); auto.
Qed.

Lemma check_callers_ready p out fn cs : check_callers p out fn cs = Ready -> Forall (passes_ctx p out fn) cs.
Proof.
  induction cs as [|c cs IH]; cbn [check_callers]; [constructor|]. destruct (funcs (base p) !! caller c) as [g|] eqn:Eg; [|cbn; discriminate].
  unfold proofOf. destruct (out !! Start g) as [pr|] eqn:Eo; cbn [default]; [|cbn; discriminate]. change (id pr) with pr.
  destruct (Proven pr) eqn:Ep; cbn [negb]; [|destruct (Reason pr); discriminate]. destruct (States pr !! site_pc c) as [a|] eqn:Ea; [|discriminate].
  case_bool_decide as Et; [|discriminate]. intros H. constructor; [|now apply IH]. exists g, pr, a. auto.
Qed.

Lemma analyzed_spec p out n fn : first_reason p fn = None ->
  (n = 0%nat \/ isGlobal fn = true \/ Forall (passes_ctx p out fn) (callersOf p (Start fn))) ->
  (Proven (analyzed p fn) = true -> justified p out n fn (analyzed p fn)) /\ (Proven (analyzed p fn) = false -> Reason (analyzed p fn) <> None).
Proof.
  intros Hf Hc. unfold analyzed. destruct (analyze p fn) as [m|r] eqn:Ea; cbn [Proven Reason refused]; [|easy]. split; [|easy]. intros _. unfold justified. cbn. auto.
Qed.

Lemma decide_fn_ok p out n fn pr : starts_distinct p -> proofs_ok p out -> funcs (base p) !! n = Some fn -> decide_fn p out n fn = Some pr ->
  proofs_ok p (<[Start fn := pr]> out) /\ (Proven pr = false -> Reason pr <> None) /\
  Proven (proofOf out (Start fn)) = false /\ Reason (proofOf out (Start fn)) = None.
Proof.
  intros Hd Hok Hn. unfold decide_fn. destruct (Proven (proofOf out (Start fn))) eqn:Ep; [discriminate|]. cbn [orb]. case_bool_decide as Er; [discriminate|].
  assert (Er' : Reason (proofOf out (Start fn)) = None) by (destruct (Reason _); [exfalso; apply Er; eauto|reflexivity]).
  assert (Hf : first_reason p fn = None).
  { destruct (Hok n fn Hn) as (q & Q1 & _ & Q3). unfold proofOf in *. rewrite Q1 in *. cbn in *. auto. }
  assert (Han : forall Hc : n = 0%nat \/ isGlobal fn = true \/ Forall (passes_ctx p out fn) (callersOf p (Start fn)), Some (analyzed p fn) = Some pr ->
    proofs_ok p (<[Start fn := pr]> out) /\ (Proven pr = false -> Reason pr <> None)).
  { intros Hc [= <-]. destruct (analyzed_spec p out n fn Hf Hc) as [A1 A2]. split; [|exact A2]. eapply proofs_ok_insert; eauto. }
  assert (Href : forall r, Some (refused r) = Some pr -> proofs_ok p (<[Start fn := pr]> out) /\ (Proven pr = false -> Reason pr <> None)).
  { intros r [= <-]. split; [|easy]. eapply proofs_ok_insert; eauto; easy. }
  destruct ((n =? 0)%nat || isGlobal fn) eqn:Eg.
  - intros H. destruct (Han ltac:(apply orb_prop in Eg as [Eg|Eg]; [left; now apply Nat.eqb_eq|auto]) H) as [H1 H2]. auto.
  - destruct (callersOf p (Start fn)) as [|c cs] eqn:Ec; [intros H; apply Href in H as [H1 H2]; auto|].
    destruct (check_callers p out fn (c :: cs)) eqn:Ev; [|discriminate|intros H; apply Href in H as [H1 H2]; auto].
    intros H. destruct (Han ltac:(right; right; now apply check_callers_ready) H) as [H1 H2]. auto.
Qed.

Lemma imap_pair_lookup {A} (l : list A) n x : In (n, x) (imap pair l) <-> l !! n = Some x.
Proof.
  rewrite <- list_elem_of_In, list_elem_of_lookup. split.
  - intros (k & Hk). rewrite list_lookup_imap in Hk. destruct (l !! k) eqn:E; [|discriminate]. cbn in Hk. injection Hk as <- <-. exact E.
  - intros H. exists n. now rewrite list_lookup_imap, H.
Qed.

(** The functions not decided yet. *)
Definition undecided (out : gmap Z Proof_) (fn : function) : bool := negb (Proven (proofOf out (Start fn))) && bool_decide (Reason (proofOf out (Start fn)) = None).
Definition open_count (p : flowProgram) (out : gmap Z Proof_) : nat := length (List.filter (undecided out) (funcs (base p))).

Lemma filter_le {A} (f g : A -> bool) l : (forall x, In x l -> f x = true -> g x = true) -> (length (List.filter f l) <= length (List.filter g l))%nat.
Proof.
  induction l as [|x l IH]; intros H; cbn; [lia|]. specialize (IH (fun y Hy => H y (or_intror Hy))). pose proof (H x (or_introl eq_refl)) as Hx.
  destruct (f x), (g x); cbn; lia.
Qed.

Lemma filter_lt {A} (f g : A -> bool) l x : In x l -> f x = false -> g x = true -> (forall y, In y l -> f y = true -> g y = true) ->
  (length (List.filter f l) < length (List.filter g l))%nat.
Proof.
  induction l as [|y l IH]; intros Hin Hf Hg H; [easy|]. cbn. destruct Hin as [->|Hin].
  - rewrite Hf, Hg. cbn. pose proof (filter_le f g l (fun y Hy => H y (or_intror Hy))). lia.
  - specialize (IH Hin Hf Hg (fun z Hz => H z (or_intror Hz))). pose proof (H y (or_introl eq_refl)) as Hy. destruct (f y), (g y); cbn; lia.
Qed.

Lemma round_ok p : starts_distinct p -> forall l out prog rem, (forall n fn, In (n, fn) l -> funcs (base p) !! n = Some fn) -> proofs_ok p out ->
  let '(out', prog', _) := fold_left (round_fn p) l (out, prog, rem) in
  proofs_ok p out' /\ (open_count p out' <= open_count p out)%nat /\ (prog' = true -> prog = true \/ (open_count p out' < open_count p out)%nat).
Proof.
  intros Hd l. induction l as [|[n fn] l IH]; intros out prog rem Hl Hok; cbn [fold_left]; [auto|].
  unfold round_fn at 2. cbn [fst snd]. destruct (decide_fn p out n fn) as [pr|] eqn:Ed.
  - pose proof (Hl n fn (or_introl eq_refl)) as Hn. destruct (decide_fn_ok p out n fn pr Hd Hok Hn Ed) as (H1 & H2 & H3 & H4).
    specialize (IH (<[Start fn := pr]> out) true (rem - 1) (fun m g Hm => Hl m g (or_intror Hm)) H1).
    destruct (fold_left (round_fn p) l (<[Start fn := pr]> out, true, rem - 1)) as [[out' prog'] rem']. destruct IH as (I1 & I2 & I3).
    assert (Hlt : (open_count p (<[Start fn := pr]> out) < open_count p out)%nat).
    { unfold open_count. apply filter_lt with (x := fn).
      - now apply list_elem_of_In, list_elem_of_lookup_2 with n.
      - unfold undecided, proofOf. rewrite lookup_insert_eq. cbn. destruct (Proven pr) eqn:Ep; [reflexivity|]. cbn. apply bool_decide_eq_false. auto.
      - unfold undecided. rewrite H3, H4. reflexivity.
      - intros g _. unfold undecided, proofOf. destruct (decide (Start fn = Start g)) as [E|E]; [|now rewrite lookup_insert_ne by exact E].
        intros _. rewrite <- E. fold (proofOf out (Start fn)). now rewrite H3, H4. }
    splits; [exact I1|lia|]. intros _. right. lia.
  - specialize (IH out prog rem (fun m g Hm => Hl m g (or_intror Hm)) Hok). exact IH.
Qed.

Lemma prove_loop_ok p fuel out prog rem : starts_distinct p -> proofs_ok p out -> (open_count p out < fuel)%nat ->
  exists out', prove_loop fuel p out prog rem = Some out' /\ proofs_ok p out'.
Proof.
  intros Hd. revert out prog rem. induction fuel as [|fuel IH]; intros out prog rem Hok Hf; [lia|]. cbn [prove_loop]. destruct (prog && (0 <? rem)); [|eauto].
  unfold round. pose proof (round_ok p Hd (imap pair (funcs (base p))) out false rem (fun n fn Hn => proj1 (imap_pair_lookup _ n fn) Hn) Hok) as Hr.
  destruct (fold_left _ _ _) as [[out' prog'] rem']. destruct Hr as (R1 & R2 & R3). destruct prog'.
  - destruct (R3 eq_refl) as [|Hlt]; [discriminate|]. apply IH; [exact R1|lia].
  - destruct fuel; cbn [prove_loop andb]; eauto.
Qed.

(** ** The other passes leave proved functions alone *)

Definition proved_ok (p : flowProgram) (out : gmap Z Proof_) : Prop :=
  forall n fn pr, funcs (base p) !! n = Some fn -> out !! Start fn = Some pr -> Proven pr = true -> justified p out n fn pr.

Lemma proofs_proved p out : proofs_ok p out -> proved_ok p out.
Proof. intros H n fn pr Hn Ho Hp. destruct (H n fn Hn) as (q & Q1 & Q2 & _). rewrite Ho in Q1. injection Q1 as <-. auto. Qed.

Lemma proved_ok_insert p out s pr : proved_ok p out -> Proven (proofOf out s) = false -> Proven pr = false -> proved_ok p (<[s := pr]> out).
Proof.
  intros Hok Hold Hp n fn q Hn Hq Hqp. destruct (decide (s = Start fn)) as [E|E].
  - rewrite E, lookup_insert_eq in Hq. congruence.
  - rewrite lookup_insert_ne in Hq by exact E. apply (justified_weaken p out); [|eauto]. intros t r Ht Hr. rewrite lookup_insert_ne; [exact Ht|].
    intros <-. unfold proofOf in Hold. rewrite Ht in Hold. cbn in Hold. congruence.
Qed.

Lemma close_fns_ok p l out : proved_ok p out -> proved_ok p (fold_left (close_fn p) l out).
Proof.
  revert out. induction l as [|fn l IH]; intros out Hok; cbn [fold_left]; [exact Hok|]. apply IH. unfold close_fn.
  destruct (Proven (proofOf out (Start fn))) eqn:Ep; cbn [negb andb]; [exact Hok|]. destruct (bool_decide _); [|exact Hok]. now apply proved_ok_insert.
Qed.

Lemma callback_not_proven p out fn n : proved_ok p out -> funcs (base p) !! n = Some fn -> isCallback p (Start fn) = true -> Proven (proofOf out (Start fn)) = false.
Proof.
  intros Hok Hn Hc. unfold proofOf. destruct (out !! Start fn) as [pr|] eqn:Eo; [|reflexivity]. cbn. destruct (Proven pr) eqn:Ep; [|reflexivity].
  destruct (Hok n fn pr Hn Eo Ep) as (_ & _ & Hf & _). unfold first_reason in Hf. rewrite Hc in Hf.
  destruct (_ || _); [discriminate|]. destruct (_ && _); discriminate.
Qed.

Lemma callback_fns_ok p l out : (forall fn, In fn l -> exists n, funcs (base p) !! n = Some fn) -> proved_ok p out -> proved_ok p (fold_left (callback_fn p) l out).
Proof.
  revert out. induction l as [|fn l IH]; intros out Hl Hok; cbn [fold_left]; [exact Hok|]. apply IH; [intros g Hg; apply Hl; now right|]. unfold callback_fn.
  destruct (isCallback p (Start fn)) eqn:Ec; [|exact Hok]. destruct (match proveCallback _ _ _ with Ok cb => _ | Err w => _ end) as [cb r].
  destruct (Hl fn (or_introl eq_refl)) as [n Hn]. pose proof (callback_not_proven p out fn n Hok Hn Ec). now apply proved_ok_insert.
Qed.

Lemma with_pass_ok p st out : proved_ok p out -> proved_ok p (map_imap (fun s pr => Some (with_pass st s pr)) out).
Proof.
  intros Hok n fn pr Hn Ho Hp. rewrite map_lookup_imap in Ho. destruct (out !! Start fn) as [q|] eqn:Eq; [|discriminate]. cbn in Ho. injection Ho as <-.
  assert (Hw : forall s q, Proven (with_pass st s q) = Proven q /\ Reason (with_pass st s q) = Reason q /\ States (with_pass st s q) = States q) by (intros s r; unfold with_pass; now destruct (s =? 0)).
  destruct (Hw (Start fn) q) as (W1 & W2 & W3). rewrite W1 in Hp. destruct (Hok n fn q Hn Eq Hp) as (J1 & J2 & J3 & J4). unfold justified. rewrite W2, W3.
  splits; auto. destruct J4 as [J4|[J4|J4]]; auto. right. right. eapply List.Forall_impl; [|exact J4].
  intros c (g & pg & a & C1 & C2 & C3 & C4 & C5). exists g, (with_pass st (Start g) pg), a. destruct (Hw (Start g) pg) as (V1 & V2 & V3). rewrite V1, V3.
  splits; auto. now rewrite map_lookup_imap, C2.
Qed.

Lemma find_snoc {A} (f : A -> bool) l x : find f (l ++ [x]) = match find f l with Some y => Some y | None => if f x then Some x else None end.
Proof. induction l as [|y l IH]; cbn; [reflexivity|]. now destruct (f y). Qed.

Lemma firstProofs_ok p : starts_distinct p -> proofs_ok p (firstProofs p).
Proof.
  intros Hd n fn Hn. unfold firstProofs. set (f := fun (out : gmap Z Proof_) fn => _).
  assert (Hgen : forall l out, fold_left f l out !! Start fn = (match find (fun g => Start g =? Start fn) (rev l) with
    | Some g => Some (mkProof false (option_map Because (first_reason p g)) ∅ None [] None) | None => out !! Start fn end)).
  { induction l as [|g l IH]; intros out; cbn [fold_left rev find]; [reflexivity|]. rewrite IH. rewrite find_snoc. destruct (find _ (rev l)); [reflexivity|].
    unfold f at 1. destruct (Start g =? Start fn) eqn:E; bools; [now rewrite E, lookup_insert_eq|now rewrite lookup_insert_ne]. }
  rewrite Hgen. destruct (find _ _) as [g|] eqn:Ef.
  - apply find_some in Ef as [Hin Eg]. apply Z.eqb_eq in Eg. apply in_rev, list_elem_of_In, list_elem_of_lookup_1 in Hin as [m Hm].
    assert (m = n) by (eapply Hd; eauto). subst m. rewrite Hn in Hm. injection Hm as <-. eexists. split; [reflexivity|]. cbn. split; [discriminate|]. intros _.
    now destruct (first_reason p fn).
  - exfalso. assert (Hin : In fn (rev (funcs (base p)))) by (apply -> in_rev; apply list_elem_of_In; now apply list_elem_of_lookup_2 with n).
    pose proof (find_none _ _ Ef fn Hin) as Hx. cbn in Hx. now rewrite Z.eqb_refl in Hx.
Qed.

Lemma new_starts_distinct l : starts_distinct (newFlowProgram l).
Proof. intros n m f g Hf Hg. rewrite newFlowProgram_base in *. cbn [funcs newFlowBase] in *. now apply (functions_start_inj l n m f g). Qed.

Lemma Prove_spec l : exists out, Prove l = Some out /\ (out = ∅ \/ proved_ok (newFlowProgram l) out /\ entryStart (newFlowProgram l) = 0).
Proof.
  unfold Prove. set (p := newFlowProgram l). destruct (funcs (base p)) as [|f0 fs] eqn:Ef; [eauto|]. destruct (negb (Start f0 =? 0)) eqn:E0; [eauto|].
  rewrite <- Ef. pose proof (new_starts_distinct l) as Hd. fold p in Hd.
  destruct (prove_loop_ok p (S (length (funcs (base p)))) (firstProofs p) true (Z.of_nat (length (funcs (base p)))) Hd (firstProofs_ok p Hd)) as (out & -> & Hok).
  { unfold open_count. pose proof (filter_le (undecided (firstProofs p)) (fun _ => true) (funcs (base p)) (fun _ _ _ => eq_refl)) as Hl.
    assert (Ht : forall k : list function, List.filter (fun _ => true) k = k) by (induction k as [|x k IHk]; cbn; [reflexivity|now rewrite IHk]). rewrite Ht in Hl. lia. }
  eexists. split; [reflexivity|]. right. split; [|unfold entryStart; rewrite Ef; bools; assumption].
  apply with_pass_ok, callback_fns_ok, close_fns_ok, proofs_proved; [|exact Hok]. intros fn Hin. apply list_elem_of_In, list_elem_of_lookup_1 in Hin. exact Hin.
Qed.

(** ** Runs of the program *)

(** A root starts with the context in one register; what else its
    registers and slots hold is data, or the context again. *)
Definition starts_with (r : Z) (s : vstate) : Prop :=
  vregs s r = Ctx /\ (forall q, 0 <= q < 10 -> q <> r -> vregs s q = Data \/ vregs s q = Ctx) /\
  (forall i, (i < 64)%nat -> vslots s i = Data) /\ 0 <= vfloor s.

(** A callee's frame: pointers into the caller's frame are not into it. *)
Definition passed_state (s s0 : vstate) : Prop :=
  (forall r, In r args -> vregs s0 r = match vregs s r with Fp _ => Data | v => v end) /\
  (forall r, 0 <= r < 10 -> ~ In r args -> vregs s0 r = Data) /\
  (forall i, (i < 64)%nat -> vslots s0 i = Data) /\ 0 <= vfloor s0.

Definition call_to (p : flowProgram) (pc : Z) (fn : function) : Prop :=
  exists i, ins_at (base p) pc = Some i /\ IsFunctionCall i = true /\ target (base p) pc i = (Start fn, true).

(** [runs p n pc s]: some run of the program reaches [pc] in function [n]
    with its frame in [s]. The verifier checks a global function on its own,
    keeps control in its function and refuses a call to the entry. *)
Inductive runs (p : flowProgram) : nat -> Z -> vstate -> Prop :=
| runs_root n fn s : funcs (base p) !! n = Some fn -> n = 0%nat \/ isGlobal fn = true ->
    starts_with (if (n =? 0)%nat then R1 else R1 + CtxParam fn) s -> runs p n (Start fn) s
| runs_callback n fn s : funcs (base p) !! n = Some fn -> isCallback p (Start fn) = true -> runs p n (Start fn) s
| runs_call g gfn pc s n fn s0 : runs p g pc s -> funcs (base p) !! g = Some gfn -> within gfn pc = true ->
    call_to p pc fn -> funcs (base p) !! n = Some fn -> n <> 0%nat -> isGlobal fn = false -> passed_state s s0 -> runs p n (Start fn) s0
| runs_step n fn pc i s pc' s' : runs p n pc s -> funcs (base p) !! n = Some fn -> ins_at (base p) pc = Some i ->
    vnext p pc i s pc' s' -> within fn pc' = true -> runs p n pc' s'.

(** No static function is passed a function pointer. *)
Definition no_fn_args (p : flowProgram) : Prop :=
  forall g pc s n fn, runs p g pc s -> call_to p pc fn -> funcs (base p) !! n = Some fn -> isGlobal fn = false -> ~ someArg s isFn.

Lemma gamma_initial fn s : 0 <= CtxParam fn < 5 -> starts_with (R1 + CtxParam fn) s -> gamma (initial fn) s.
Proof.
  intros Hc (S1 & S2 & S3 & S4). unfold initial, R1 in *. split; [|split].
  - intros q Hq. rewrite kreg_set by (auto using emptyState_ok; lia). assert (Hlt : (1 + CtxParam fn <? RFP) = true) by (apply Z.ltb_lt; unfold RFP; lia). rewrite Hlt, andb_true_r.
    destruct (q =? 1 + CtxParam fn) eqn:E; bools; [now subst q|]. assert (Ek : kreg emptyState q = kOther).
    { unfold kreg, emptyState. cbn [regs]. rewrite (lookup_replicate_2 10 kOther) by lia. reflexivity. }
    rewrite Ek. unfold gammaK. cbn. destruct (S2 q Hq E) as [-> | ->]; auto.
  - intros i Hi. rewrite kslot_set, (S3 i Hi). unfold kslot, emptyState. cbn [sslots]. rewrite (lookup_replicate_2 64 kOther) by lia. now left.
  - rewrite floor_set. cbn. lia.
Qed.

Lemma HeldAt_sound a s r slot : state_ok a -> gamma a s -> HeldAt a = (r, slot, true) ->
  (r <> 0 -> 6 <= r <= 9 /\ vregs s r = Ctx) /\ (r = 0 -> exists i, (i < 64)%nat /\ slot = slot_off i /\ vslots s i = Ctx).
Proof.
  intros Ha (G1 & G2 & _). unfold HeldAt. destruct (find _ _) as [q|] eqn:Ef.
  - intros [= <- <-]. apply find_some in Ef as [Hin Ht]. apply bool_decide_eq_true in Ht. assert (Hq : 6 <= q <= 9) by (cbn in Hin; lia).
    split; [|lia]. intros _. split; [exact Hq|]. assert (Er : reg a q = kreg a q).
    { unfold reg, RFP. destruct (q =? 10) eqn:E1; bools; [lia|]. destruct (q <? 10) eqn:E2; bools; [reflexivity|lia]. }
    rewrite Er in Ht. specialize (G1 q ltac:(lia)). unfold gammaK in G1. now rewrite Ht in G1.
  - destruct (list_find _ _) as [[i k]|] eqn:El; [|discriminate]. intros [= <- <-]. split; [easy|]. intros _. apply list_find_Some in El as (Hk & Ht & _).
    assert (Hi : (i < 64)%nat) by (destruct Ha as (_ & <- & _); now apply lookup_lt_Some in Hk).
    exists i. split; [exact Hi|]. split; [apply i16_small; unfold slot_off; lia|]. specialize (G2 i Hi). unfold kslot, gammaK in G2. rewrite Hk in G2. cbn in G2. now rewrite Ht in G2.
Qed.

Lemma first_reason_inv p n fn : funcs (base p) !! n = Some fn -> first_reason p fn = None -> 0 <= CtxParam fn < 5 /\ (n = 0%nat -> CtxParam fn = 0).
Proof.
  intros Hm Hf. unfold first_reason in Hf. destruct (_ || _) eqn:E1; [discriminate|]. apply orb_false_elim in E1 as [E1 E1']. apply Z.ltb_ge in E1. apply Z.leb_gt in E1'.
  split; [lia|]. intros ->. assert (Es : entryStart p = Start fn) by (unfold entryStart; destruct (funcs (base p)); [discriminate|now injection Hm as ->]).
  rewrite Es, Z.eqb_refl in Hf. cbn [andb] in Hf. destruct (CtxParam fn =? 0) eqn:E2; [now apply Z.eqb_eq|discriminate].
Qed.

(** A callee passed the context in [r], and no function pointer, starts with
    it there. *)
Lemma passed_starts s s0 c : 0 <= c < 5 -> vregs s (R1 + c) = Ctx -> ~ someArg s isFn -> passed_state s s0 -> starts_with (R1 + c) s0.
Proof.
  intros Hc Hctx Hnofn (P1 & P2 & P3 & P4). assert (Harg : In (R1 + c) args) by (cbn; unfold R1, R2, R3, R4, R5; lia).
  split; [|split; [|split; [exact P3|exact P4]]]; [now rewrite P1, Hctx by exact Harg|].
  intros q Hq Hne. destruct (in_dec Z.eq_dec q args) as [Hina|Hnin]; [|left; now apply P2]. rewrite (P1 q Hina).
  destruct (vregs s q) eqn:Eq; auto. exfalso. apply Hnofn. exists q. split; [exact Hina|]. now rewrite Eq.
Qed.

Lemma reg_value a s r : gamma a s -> 0 <= r < 10 -> tag (reg a r) = ctxValue -> vregs s r = Ctx.
Proof.
  intros G Hr Ht. pose proof (reg_sound a s r (vregs s r) G ltac:(lia)) as Hreg. unfold gammaK in Hreg. rewrite Ht in Hreg. apply Hreg.
  unfold vread, RFP. destruct (r =? 10) eqn:E1; bools; [lia|]. destruct (r <? 10) eqn:E2; bools; [reflexivity|lia].
Qed.

Lemma runs_covered l out n pc s : program_ok (newFlowProgram l) -> no_fn_args (newFlowProgram l) ->
  proved_ok (newFlowProgram l) out -> entryStart (newFlowProgram l) = 0 -> runs (newFlowProgram l) n pc s ->
  forall fn pr, funcs (base (newFlowProgram l)) !! n = Some fn -> out !! Start fn = Some pr -> Proven pr = true ->
  exists a, States pr !! pc = Some a /\ state_ok a /\ gamma a s.
Proof.
  set (p := newFlowProgram l). intros Hp Hnf Hok He Hr.
  assert (Hstart : forall n fn pr s, funcs (base p) !! n = Some fn -> out !! Start fn = Some pr -> Proven pr = true -> starts_with (R1 + CtxParam fn) s ->
    exists a, States pr !! Start fn = Some a /\ state_ok a /\ gamma a s).
  { intros m fn pr s0 Hm Ho Hpr Hs. destruct (Hok m fn pr Hm Ho Hpr) as (_ & Ha & Hf & _). destruct (analyze_states p fn _ Ha) as [(a & A1 & A2) Hall].
    exists a. split; [exact A1|]. split; [now apply (Hall (Start fn))|]. eapply gamma_leq; [exact A2|]. apply gamma_initial; [now apply (first_reason_inv p m)|exact Hs]. }
  induction Hr as [n fn s Hn Hroot Hs|n fn s Hn Hc|g gfn pc s n fn s0 Hg IH Hgf Hw Hcall Hn Hn0 Hgl Hps|n fn pc i s pc' s' Hr IH Hn Hi Hv Hw].
  - intros fn' pr Hn' Ho Hpr. rewrite Hn in Hn'. injection Hn' as <-. apply (Hstart n fn pr s Hn Ho Hpr). destruct (n =? 0)%nat eqn:E0; [|exact Hs].
    apply Nat.eqb_eq in E0. destruct (Hok n fn pr Hn Ho Hpr) as (_ & _ & Hf & _). destruct (first_reason_inv p n fn Hn Hf) as [_ Hz]. rewrite (Hz E0). exact Hs.
  - intros fn' pr Hn' Ho Hpr. rewrite Hn in Hn'. injection Hn' as <-. pose proof (callback_not_proven p out fn n Hok Hn Hc) as Hnp. unfold proofOf in Hnp. rewrite Ho in Hnp. cbn in Hnp. congruence.
  - intros fn' pr Hn' Ho Hpr. rewrite Hn in Hn'. injection Hn' as <-. apply (Hstart n fn pr s0 Hn Ho Hpr).
    destruct (Hok n fn pr Hn Ho Hpr) as (_ & _ & Hf & [Hx|[Hx|Hcs]]); [contradiction|congruence|]. destruct (first_reason_inv p n fn Hn Hf) as [Hcp _].
    pose proof (Hnf g pc s n fn Hg Hcall Hn Hgl) as Hnofn. destruct Hcall as (i & Hi & Hfc & Ht). unfold within in Hw. apply andb_prop in Hw as [Hw1 Hw2]. apply Z.leb_le in Hw1. apply Z.ltb_lt in Hw2.
    assert (Hb : base p = newFlowBase l) by apply newFlowProgram_base. rewrite Hb in *.
    pose proof (callers_complete l g gfn pc i (Start fn) Hgf Hi (conj Hw1 Hw2) Hfc Ht) as Hin. rewrite List.Forall_forall in Hcs.
    destruct (Hcs _ Hin) as (g' & pg & a & C1 & C2 & C3 & C4 & C5). cbn [caller site_pc] in *. rewrite Hb in C1. rewrite Hgf in C1. injection C1 as <-.
    destruct (IH gfn pg Hgf C2 C3) as (a' & A1 & A2 & A3). rewrite C4 in A1. injection A1 as <-. 
    apply (passed_starts s s0 _ Hcp); [|exact Hnofn|exact Hps]. apply (reg_value a s); [exact A3|unfold R1; lia|exact C5].
  - intros fn' pr Hn' Ho Hpr. rewrite Hn in Hn'. injection Hn' as <-. destruct (IH fn pr Hn Ho Hpr) as (a & A1 & A2 & A3).
    destruct (Hok n fn pr Hn Ho Hpr) as (_ & Ha & _). destruct (analyze_states p fn _ Ha) as [_ Hall]. destruct (Hall pc a A1) as (_ & _ & i' & a' & succ & Hi' & Heff & Hcov).
    rewrite Hi in Hi'. injection Hi' as <-. assert (Hio : ins_ok i).
    { unfold ins_at in Hi. destruct (at_ (base p) !! pc) as [k|]; [|discriminate]. exact (Forall_lookup_1 _ _ _ _ Hp Hi). }
    destruct (effect_sound p pc i a s a' succ pc' s' A2 Hio A3 Heff Hv) as [G' Hin]. rewrite List.Forall_forall in Hcov. destruct (Hcov pc' Hin) as (b & B1 & B2).
    exists b. split; [exact B1|]. split; [now apply (Hall pc')|]. eapply gamma_leq; eauto.
Qed.

(** C6: for a program in which no static function is ever passed a pointer to
    a function ([no_fn_args]; [Prove_fn_arg_gap] shows what happens to one
    that does): on every run, whatever its calls do to the frame in the
    verifier's view, a function [Prove] proves is only at positions it has
    states for, and the register or stack slot [HeldAt] names for that
    position holds the program's context. *)
Theorem Prove_held (l : list Instruction) (out : gmap Z Proof_) (n : nat) (fn : function) (pr : Proof_) (pc : Z) (s : vstate) :
  program_ok (newFlowProgram l) -> no_fn_args (newFlowProgram l) ->
  Prove l = Some out -> funcs (base (newFlowProgram l)) !! n = Some fn -> out !! Start fn = Some pr -> Proven pr = true ->
  runs (newFlowProgram l) n pc s ->
  exists a, States pr !! pc = Some a /\
    forall r slot, HeldAt a = (r, slot, true) ->
      (r <> 0 -> 6 <= r <= 9 /\ vregs s r = Ctx) /\
      (r = 0 -> exists i, (i < 64)%nat /\ slot = slot_off i /\ vslots s i = Ctx).
Proof.
  intros Hp Hnf HP Hn Ho Hpr Hr. destruct (Prove_spec l) as (out' & E & Hout). rewrite E in HP. injection HP as <-.
  destruct Hout as [->|[Hok He]]; [now rewrite lookup_empty in Ho|].
  destruct (runs_covered l out' n pc s Hp Hnf Hok He Hr fn pr Hn Ho Hpr) as (a & A1 & A2 & A3). exists a. split; [exact A1|].
  intros r slot. now apply HeldAt_sound.
Qed.

(** C20: [Prove] returns on every program: the rounds over the functions
    stop, and no analysis runs out of its fuel. *)
Theorem Prove_total (l : list Instruction) : exists out, Prove l = Some out /\ forall fn, analyze (newFlowProgram l) fn <> Err RNoFuel.
Proof. destruct (Prove_spec l) as (out & E & _). exists out. split; [exact E|]. intros fn. apply analyze_total. Qed.
