(* ===== verification/CtxExamples.v ===== *)
(** * CtxExamples: a program whose context reaches a static function

    The witness of [Prove_held]: an entry calls a static function, which
    keeps the context in R6. *)

From Stdlib Require Import ZArith Lia Bool Ascii String List.
From stdpp Require Import base list strings numbers option gmap.
From S2P Require Import Prelude GoStd Asm Worklist CtxFlow CtxFlowFacts FrameView CtxFlowSound FlowProgram FlowProgramFacts CtxAnalyze CtxCallback ArgReads CtxProve CtxProveFacts.
Local Open Scope Z_scope.

(** ** Example programs *)

Definition jump_op (op : JumpOp_) : OpCode_ := mkOp JumpClass InvalidALUOp op ImmSource OtherMode InvalidSize.
Definition alu_op (op : ALUOp_) (src : Source_) : OpCode_ := mkOp ALU64Class op InvalidJumpOp src OtherMode InvalidSize.
Definition plain (o : OpCode_) (dst src off c : Z) : Instruction := mkIns o dst src off c [] [] None.
Definition head (fm : FuncMeta) (i : Instruction) : Instruction := mkIns (OpCode i) (Dst i) (Src i) (Offset i) (Constant i) (Reference i) (Symbol i) (Some fm).
Definition ctx_first (static : bool) : FuncMeta := mkFuncMeta [] static (negb static) [true].

(** [entry: call f; exit] and [f: r6 = r1; exit]. *)
Definition ex_pass : list Instruction :=
  [head (ctx_first false) (plain (jump_op Call) 0 PseudoCall 0 1); plain (jump_op Exit) 0 0 0 0;
   head (ctx_first true) (plain (alu_op Mov RegSource) 6 1 0 0); plain (jump_op Exit) 0 0 0 0].

Definition entry_state : vstate := mkV (fun r => if r =? 1 then Ctx else Data) (fun _ => Data) 0.
Definition held_state : vstate := mkV (fun r => if (r =? 1) || (r =? 6) then Ctx else Data) (fun _ => Data) 0.

Lemma entry_starts : starts_with R1 entry_state.
Proof. split; [reflexivity|]. split; [|now split]. intros q _ Hq. left. unfold entry_state. cbn. unfold R1 in Hq. destruct (q =? 1) eqn:E; bools; [contradiction|reflexivity]. Qed.

Definition pass_entry : function := mkFn [] 0 2 false true 0.
Definition pass_f : function := mkFn [] 2 4 true false 0.

Lemma ex_pass_funcs : funcs (base (newFlowProgram ex_pass)) = [pass_entry; pass_f].
Proof. vm_compute. reflexivity. Qed.

Lemma ex_pass_ins pc i : ins_at (base (newFlowProgram ex_pass)) pc = Some i ->
  pc = 0 /\ class i = JumpClass /\ JumpOp (OpCode i) = Call /\ slots i = 1 \/ pc <> 0 /\ IsFunctionCall i = false /\ (pc = 1 -> class i = JumpClass /\ JumpOp (OpCode i) = Exit).
Proof.
  rewrite newFlowProgram_base. intros Hi. apply ins_at_new in Hi as (k & Hk & ->).
  destruct k as [|[|[|[|k]]]]; [injection Hk as <-; vm_compute; intuition discriminate..|discriminate].
Qed.

(** The entry is at its call, in its first state, or after it. *)
Lemma ex_pass_entry g pc s : runs (newFlowProgram ex_pass) g pc s -> (g = 0%nat -> pc = 0 /\ starts_with R1 s \/ pc = 1) /\ (g <> 0%nat -> pc <> 0).
Proof.
  assert (Hf : forall n fn, funcs (base (newFlowProgram ex_pass)) !! n = Some fn -> n = 0%nat /\ fn = pass_entry \/ n = 1%nat /\ fn = pass_f).
  { intros n fn Hn. rewrite ex_pass_funcs in Hn. destruct n as [|[|n]]; [injection Hn as <-; auto..|discriminate]. }
  intros Hr. induction Hr as [n fn s Hn Hroot Hs|n fn s Hn Hc|g gfn pc s n fn s0 Hg IH Hgf Hw Hcall Hn Hn0 Hgl Hps|n fn pc i s pc' s' Hr IH Hn Hi Hv Hw];
    destruct (Hf n fn Hn) as [[-> ->]|[-> ->]].
  - split; [left; auto|easy].
  - split; [easy|]. now cbn.
  - exfalso. assert (Hx : isCallback (newFlowProgram ex_pass) (Start pass_entry) = false) by (vm_compute; reflexivity). congruence.
  - split; [easy|]. now cbn.
  - contradiction.
  - split; [easy|]. now cbn.
  - split; [|easy]. intros _. destruct (ex_pass_ins pc i Hi) as [(-> & E1 & E2 & E3)|(Hne & _ & H1)].
    + right. unfold vnext, isCallIns in Hv. rewrite E1, E2, E3 in Hv. destruct Hv as [-> _]. reflexivity.
    + exfalso. destruct (proj1 IH eq_refl) as [[-> _]| ->]; [contradiction|]. destruct (H1 eq_refl) as [E1 E2]. unfold vnext, isCallIns in Hv. rewrite E1, E2 in Hv. now destruct Hv as [_ []].
  - split; [easy|]. intros _ ->. discriminate.
Qed.

Lemma ex_pass_no_fn : no_fn_args (newFlowProgram ex_pass).
Proof.
  intros g pc s n fn Hr (i & Hi & Hf & _) Hn Hg (r & Hin & Hfn). destruct (ex_pass_ins pc i Hi) as [(-> & _)|(_ & E & _)]; [|congruence].
  destruct (ex_pass_entry g 0 s Hr) as [H0 H1]. destruct (decide (g = 0%nat)) as [Hg0|Hg0]; [|now apply H1 in Hg0]. destruct (H0 Hg0) as [[_ (S1 & S2 & _)]|]; [|discriminate].
  assert (Hq : 0 <= r < 10) by (cbn in Hin; unfold R1, R2, R3, R4, R5 in Hin; lia).
  destruct (decide (r = R1)) as [->|Hne]; [now rewrite S1 in Hfn|]. destruct (S2 r Hq Hne) as [E|E]; now rewrite E in Hfn.
Qed.

Definition call_f : Instruction := head (ctx_first false) (plain (jump_op Call) 0 PseudoCall 0 1).
Definition keep_r6 : Instruction := head (ctx_first true) (plain (alu_op Mov RegSource) 6 1 0 0).

Lemma ex_pass_call_f : call_to (newFlowProgram ex_pass) 0 pass_f.
Proof.
  exists call_f. assert (H : ins_at (base (newFlowProgram ex_pass)) 0 = Some call_f) by (vm_compute; reflexivity).
  split; [exact H|]. split; [reflexivity|]. vm_compute. reflexivity.
Qed.

Lemma ex_pass_keep : ins_at (base (newFlowProgram ex_pass)) 2 = Some keep_r6.
Proof. vm_compute. reflexivity. Qed.

Lemma entry_passes : passed_state entry_state entry_state.
Proof.
  split; [|split; [|now split]].
  - intros r _. unfold entry_state. cbn. now destruct (r =? 1).
  - intros r _ Hr. unfold entry_state. cbn. destruct (r =? 1) eqn:E; bools; [|reflexivity]. exfalso. apply Hr. left. now subst r.
Qed.

Lemma keep_r6_step : vstep keep_r6 entry_state held_state.
Proof.
  exists Ctx. split; [reflexivity|]. split; [|split; [now intros i|reflexivity]].
  intros q. cbn. unfold RFP. rewrite andb_true_r. destruct (q =? 1) eqn:E1, (q =? 6) eqn:E6; reflexivity.
Qed.

Lemma ex_pass_fn n fn : [pass_entry; pass_f] !! n = Some fn -> funcs (base (newFlowProgram ex_pass)) !! n = Some fn.
Proof. now rewrite ex_pass_funcs. Qed.

Lemma ex_pass_run : runs (newFlowProgram ex_pass) 1 3 held_state.
Proof.
  eapply runs_step with (fn := pass_f) (i := keep_r6); [|now apply ex_pass_fn|exact ex_pass_keep|split; [reflexivity|exact keep_r6_step]|reflexivity].
  change 2 with (Start pass_f).
  apply runs_call with (g := 0%nat) (gfn := pass_entry) (pc := 0) (s := entry_state); [|now apply ex_pass_fn|reflexivity|exact ex_pass_call_f|now apply ex_pass_fn|easy|reflexivity|exact entry_passes].
  change 0 with (Start pass_entry). apply runs_root; [now apply ex_pass_fn|now left|exact entry_starts].
Qed.

Lemma ex_pass_program_ok : program_ok (newFlowProgram ex_pass).
Proof.
  unfold program_ok. rewrite newFlowProgram_base. cbn [insns newFlowBase]. unfold ex_pass.
  repeat constructor; cbn; try lia; unfold in_i64, two63; cbn; try lia; discriminate.
Qed.

Definition ex_pass_out : gmap Z Proof_ := default ∅ (Prove ex_pass).
Definition ex_pass_proof : Proof_ := proofOf ex_pass_out 2.

Lemma ex_pass_prove : Prove ex_pass = Some ex_pass_out.
Proof. unfold ex_pass_out. destruct (Prove_spec ex_pass) as (out & -> & _). reflexivity. Qed.

Lemma ex_pass_proven : Proven ex_pass_proof = true.
Proof. vm_compute. reflexivity. Qed.

Lemma ex_pass_lookup : ex_pass_out !! 2 = Some ex_pass_proof.
Proof. pose proof ex_pass_proven as H. unfold ex_pass_proof, proofOf in *. destruct (ex_pass_out !! 2); [reflexivity|discriminate]. Qed.

Lemma Prove_held_witness :
  runs (newFlowProgram ex_pass) 1 3 held_state /\
  exists a, States ex_pass_proof !! 3 = Some a /\ forall r slot, HeldAt a = (r, slot, true) ->
      (r <> 0 -> 6 <= r <= 9 /\ vregs held_state r = Ctx) /\
      (r = 0 -> exists i, (i < 64)%nat /\ slot = slot_off i /\ vslots held_state i = Ctx).
Proof.
  split; [exact ex_pass_run|].
  exact (Prove_held ex_pass ex_pass_out 1 pass_f ex_pass_proof 3 held_state ex_pass_program_ok ex_pass_no_fn ex_pass_prove
           (ex_pass_fn 1 pass_f eq_refl) ex_pass_lookup ex_pass_proven ex_pass_run).
Defined.

(** [HeldAt] names R6 there. *)
Lemma ex_pass_held : option_map HeldAt (States ex_pass_proof !! 3) = Some (6, 0, true).
Proof. vm_compute. reflexivity. Qed.

(** ** A function pointer passed to a static function

    [no_fn_args] is needed: [analyze] starts every parameter but the context
    as [ctxOther], "never a function pointer". Here the entry passes [f] the
    context and a callback. [f] keeps the context below the buffer it gives
    bpf_loop, whose callback may write anywhere in the frame; the analysis
    sees no callback in R2 and still names the slot. *)

Definition ld_func (dst c : Z) : Instruction := plain (mkOp LdClass InvalidALUOp InvalidJumpOp InvalidSource ImmMode DWord) dst PseudoFunc 0 c.
Definition stx_dw (base off src : Z) : Instruction := plain (mkOp StXClass InvalidALUOp InvalidJumpOp InvalidSource MemMode DWord) base src off 0.
Definition gap_st : Instruction := head (ctx_first true) (stx_dw RFP (-16) 1).
Definition gap_mov : Instruction := plain (alu_op Mov RegSource) 3 RFP 0 0.
Definition gap_add : Instruction := plain (alu_op Asm.Add ImmSource) 3 0 0 (-8).
Definition gap_one : Instruction := plain (alu_op Mov ImmSource) 1 0 0 1.
Definition gap_loop : Instruction := plain (jump_op Call) 0 0 0 FnLoop.
Definition gap_load : Instruction := head (ctx_first false) (ld_func 2 9).

Definition ex_gap : list Instruction :=
  [gap_load; plain (jump_op Call) 0 PseudoCall 0 1; plain (jump_op Exit) 0 0 0 0;
   gap_st; gap_mov; gap_add; gap_one; gap_loop; plain (jump_op Exit) 0 0 0 0;
   head (mkFuncMeta [] true false []) (plain (alu_op Mov ImmSource) 0 0 0 0); plain (jump_op Exit) 0 0 0 0].

Definition gap_entry : function := mkFn [] 0 4 false true 0.
Definition gap_f : function := mkFn [] 4 10 true false 0.

(** R1-R3, and slot fp-16. *)
Definition gap_state (r1 r2 r3 : val) (slot : val) (f : Z) : vstate :=
  mkV (fun r => if r =? 1 then r1 else if r =? 2 then r2 else if r =? 3 then r3 else Data) (fun i => if (i =? 1)%nat then slot else Data) f.

Lemma ex_gap_fn n fn : [gap_entry; gap_f; mkFn [] 10 12 true false (-1)] !! n = Some fn -> funcs (base (newFlowProgram ex_gap)) !! n = Some fn.
Proof. assert (E : funcs (base (newFlowProgram ex_gap)) = [gap_entry; gap_f; mkFn [] 10 12 true false (-1)]) by (vm_compute; reflexivity). now rewrite E. Qed.

Lemma ex_gap_ins k i pc : ex_gap !! k = Some i -> offset_of ex_gap k = pc -> ins_at (base (newFlowProgram ex_gap)) pc = Some i.
Proof. intros Hk <-. rewrite newFlowProgram_base. apply ins_at_new. eauto. Qed.

Lemma vset_gap r1 r2 r3 sl f s' r v : (forall q, vregs s' q = if (q =? r) && (r <? RFP) then v else vregs (gap_state r1 r2 r3 sl f) q) ->
  (forall i, vslots s' i = vslots (gap_state r1 r2 r3 sl f) i) -> vfloor s' = f -> vset (gap_state r1 r2 r3 sl f) s' r v.
Proof. intros H1 H2 H3. split; [exact H1|]. split; [intros i _; apply H2|exact H3]. Qed.

Ltac gap_regs := intros q; cbn; unfold RFP; rewrite andb_true_r; destruct (q =? 1) eqn:?, (q =? 2) eqn:?, (q =? 3) eqn:?; bools; try reflexivity; lia.

Lemma ex_gap_enter : runs (newFlowProgram ex_gap) 1 4 (gap_state Ctx Fn Data Data 0).
Proof.
  change 4 with (Start gap_f).
  apply runs_call with (g := 0%nat) (gfn := gap_entry) (pc := 2) (s := gap_state Ctx Fn Data Data 0); [|now apply ex_gap_fn|reflexivity| |now apply ex_gap_fn|easy|reflexivity|].
  - apply runs_step with (fn := gap_entry) (pc := 0) (i := gap_load) (s := gap_state Ctx Data Data Data 0); [|now apply ex_gap_fn|now apply (ex_gap_ins 0)| |reflexivity].
    + apply (runs_root (newFlowProgram ex_gap) 0 gap_entry); [now apply ex_gap_fn|now left|]. split; [reflexivity|]. split; [|split; [|cbn; lia]].
      * intros q _ _. cbn. destruct (q =? 1), (q =? 2), (q =? 3); auto.
      * intros i _. cbn. now destruct (i =? 1)%nat.
    + split; [reflexivity|]. apply vset_gap; [gap_regs|reflexivity|reflexivity].
  - exists (plain (jump_op Call) 0 PseudoCall 0 1). split; [now apply (ex_gap_ins 1)|]. split; [reflexivity|]. vm_compute. reflexivity.
  - split; [|split; [|split; [|cbn; lia]]].
    + intros r _. cbn. now destruct (r =? 1), (r =? 2), (r =? 3).
    + intros r _ Hr. cbn. destruct (r =? 1) eqn:E1; bools; [exfalso; apply Hr; cbn; auto|]. destruct (r =? 2) eqn:E2; bools; [exfalso; apply Hr; cbn; auto|]. now destruct (r =? 3).
    + intros i _. cbn. now destruct (i =? 1)%nat.
Qed.

Lemma ex_gap_step k pc i s pc' s' : runs (newFlowProgram ex_gap) 1 pc s -> ex_gap !! k = Some i -> offset_of ex_gap k = pc ->
  vnext (newFlowProgram ex_gap) pc i s pc' s' -> within gap_f pc' = true -> runs (newFlowProgram ex_gap) 1 pc' s'.
Proof. intros Hr Hk Ho Hv Hw. eapply runs_step; [exact Hr|now apply ex_gap_fn|exact (ex_gap_ins k i pc Hk Ho)|exact Hv|exact Hw]. Qed.

(** The callback overwrites the slot. *)
Lemma ex_gap_run : runs (newFlowProgram ex_gap) 1 9 (gap_state Data Data Data Data (-8)).
Proof.
  apply (ex_gap_step 7 8 gap_loop (gap_state Data Fn (Fp (-8)) Ctx 0)); try reflexivity.
  2:{ split; [reflexivity|]. left. split; [reflexivity|]. split; [left; split; [exists R3; cbn; auto|left; split; [reflexivity|exists R2; cbn; auto 6]]|].
      split; [intros q _; cbn; now destruct (q =? 1), (q =? 2), (q =? 3)|]. split; [|now left].
      intros q Hq. cbn. unfold R5 in Hq. destruct (q =? 1) eqn:?, (q =? 2) eqn:?, (q =? 3) eqn:?; bools; reflexivity || lia. }
  apply (ex_gap_step 6 7 gap_one (gap_state Ctx Fn (Fp (-8)) Ctx 0)); try reflexivity.
  2:{ split; [reflexivity|]. exists Data. split; [reflexivity|]. apply vset_gap; [gap_regs|reflexivity|reflexivity]. }
  apply (ex_gap_step 5 6 gap_add (gap_state Ctx Fn (Fp 0) Ctx 0)); try reflexivity.
  2:{ split; [reflexivity|]. exists (Fp (-8)). split; [|apply vset_gap; [gap_regs|reflexivity|reflexivity]].
      exists (Fp 0), Data. split; [reflexivity|]. split; [reflexivity|]. split; [reflexivity|]. cbn. tauto. }
  apply (ex_gap_step 4 5 gap_mov (gap_state Ctx Fn Data Ctx 0)); try reflexivity.
  2:{ split; [reflexivity|]. exists (Fp 0). split; [reflexivity|]. apply vset_gap; [gap_regs|reflexivity|reflexivity]. }
  apply (ex_gap_step 3 4 gap_st (gap_state Ctx Fn Data Data 0)); try reflexivity; [exact ex_gap_enter|].
  split; [reflexivity|]. exists (Fp 0), Ctx. split; [reflexivity|]. split; [reflexivity|]. split; [|split; [now intros q|reflexivity]].
  intros i Hi. cbn. change (0 + -16) with (-16). unfold exactly, slot_off. split; [|split].
  - intros [E _]. right. assert (i = 1%nat) by lia. now subst i.
  - rewrite reaches_iff by lia. unfold slot_off. intros H1 H2. exfalso. lia.
  - rewrite reaches_iff by lia. unfold slot_off. intros H1. destruct (i =? 1)%nat eqn:E; [|reflexivity]. bools. subst i. exfalso. apply H1. lia.
Qed.

Definition ex_gap_proof : Proof_ := proofOf (default ∅ (Prove ex_gap)) 4.

(** C29: the proof of a static function that is passed a function pointer
    can name a slot that no longer holds the context: [f] is proved, slot fp-16 is named after the call, and the run above
    reaches that point with data in it. *)
Theorem Prove_fn_arg_gap :
  Proven ex_gap_proof = true /\ option_map HeldAt (States ex_gap_proof !! 9) = Some (0, -16, true) /\
  exists s, runs (newFlowProgram ex_gap) 1 9 s /\ vslots s 1 = Data.
Proof. split; [vm_compute; reflexivity|]. split; [vm_compute; reflexivity|]. eexists. split; [exact ex_gap_run|reflexivity]. Qed.
