(* ===== verification/CtxPassFacts.v ===== *)
(** * CtxPassFacts: a pass chain reaches the entry on every call path

    [passes] gives a function the list of functions that must save the
    context for it to have it. Such a chain is closed: each function in it
    either starts with the context, or is called only from the entry and
    from functions of the chain, and takes the context in an argument
    register it does not read. *)

From Stdlib Require Import ZArith Lia Bool Ascii String List.
From stdpp Require Import base list strings numbers option gmap.
From S2P Require Import Prelude GoStd Asm CtxFlow FlowProgram CtxAnalyze CtxCallback ArgReads ArgReadsFacts CtxProve.
Local Open Scope Z_scope.

Section Passes.
Variables (p : flowProgram) (proofs : gmap Z Proof_).

Definition in_chain (chain : list Pass) (start : Z) : Prop := In start (map passStart chain).

(** What one entry of a chain promises, given the chain. *)
Definition pass_ok (chain : list Pass) (q : Pass) : Prop :=
  isCallback p (passStart q) = false /\ passIndex q = indexOf p (passStart q) /\
  if passSaved q then Proven (proofOf proofs (passStart q)) = true
  else In (passReg q) args /\
    ~ reads_first (newArgProgram (insns (base p))) (passIndex q) (passReg q) /\
    forall c, In c (callersOf p (passStart q)) -> caller c = 0%nat \/ in_chain chain (Start (funcAt p (caller c))).

Definition chain_ok (start : Z) (chain : list Pass) : Prop :=
  Forall (pass_ok chain) chain /\ NoDup (map passStart chain) /\ exists q qs, chain = q :: qs /\ passStart q = start.

Definition passes_ok (st : passState) : Prop :=
  (forall s chain, chains st !! s = Some chain -> chain_ok s chain) /\ (forall s, whys st !! s <> Some PNoFuel).

Lemma pass_ok_incl chain chain' q : (forall s, in_chain chain s -> in_chain chain' s) -> pass_ok chain q -> pass_ok chain' q.
Proof.
  unfold pass_ok. intros Hi (H1 & H2 & H3). splits; auto. destruct (passSaved q); [exact H3|]. destruct H3 as (H3 & H4 & H5). splits; auto.
  intros c Hc. destruct (H5 c Hc); auto.
Qed.

(** [add_chain] appends what is not there yet. *)
Lemma add_chain_spec chain seen up : (forall s, In s seen <-> in_chain chain s) -> NoDup (map passStart chain) ->
  let '(chain', seen') := add_chain (chain, seen) up in
  (forall s, In s seen' <-> in_chain chain' s) /\ NoDup (map passStart chain') /\
  (exists rest, chain' = chain ++ rest /\ forall q, In q rest -> In q up) /\ (forall q, In q up -> in_chain chain' (passStart q)).
Proof.
  unfold add_chain. revert chain seen. induction up as [|q up IH]; intros chain seen Hs Hnd; cbn [fold_left].
  - splits; auto; [exists []; now rewrite app_nil_r|easy].
  - destruct (bool_decide (passStart q ∈ seen)) eqn:E.
    + apply bool_decide_eq_true, list_elem_of_In, Hs in E. specialize (IH chain seen Hs Hnd). destruct (fold_left _ up (chain, seen)) as [chain' seen'].
      destruct IH as (I1 & I2 & (rest & -> & I3) & I4). splits; auto.
      * exists rest. split; [reflexivity|]. intros x Hx. right. auto.
      * intros x [->|Hx]; [|auto]. unfold in_chain in *. rewrite map_app. apply in_or_app. now left.
    + apply bool_decide_eq_false in E. rewrite list_elem_of_In, Hs in E.
      assert (Hs' : forall s, In s (passStart q :: seen) <-> in_chain (chain ++ [q]) s).
      { intros s. unfold in_chain in *. rewrite map_app, in_app_iff. cbn. rewrite Hs. tauto. }
      assert (Hnd' : NoDup (map passStart (chain ++ [q]))).
      { rewrite map_app. apply NoDup_app. split; [exact Hnd|]. split; [|constructor; [apply list.not_elem_of_nil|constructor]].
        intros s H1 H2. apply list_elem_of_In in H1. apply list.elem_of_cons in H2 as [->|H2]; [contradiction|now apply list.not_elem_of_nil in H2]. }
      specialize (IH (chain ++ [q]) (passStart q :: seen) Hs' Hnd'). destruct (fold_left _ up _) as [chain' seen'].
      destruct IH as (I1 & I2 & (rest & -> & I3) & I4). splits; auto.
      * exists (q :: rest). split; [now rewrite <- app_assoc|]. intros x [->|Hx]; [now left|right; auto].
      * intros x [->|Hx]; [|auto]. unfold in_chain. rewrite map_app, in_app_iff. left. rewrite map_app, in_app_iff. right. now left.
Qed.

Section Callers.
Variable resolve_ : function -> passState -> result passWhy (list Pass) * passState.
Hypothesis resolve_ok : forall n st, passes_ok st -> passes_ok (snd (resolve_ (funcAt p n) st)) /\
  match fst (resolve_ (funcAt p n) st) with Ok up => chain_ok (Start (funcAt p n)) up | Err w => w <> PNoFuel end.

(** The first entry is the function itself, whose callers are being added. *)
Lemma pass_callers_ok q0 cs : forall rest seen st, passes_ok st ->
  (forall s, In s seen <-> in_chain (q0 :: rest) s) -> NoDup (map passStart (q0 :: rest)) -> Forall (pass_ok (q0 :: rest)) rest ->
  let r := pass_callers p resolve_ cs (q0 :: rest, seen) st in
  passes_ok (snd r) /\
  match fst r with
  | Err w => w <> PNoFuel
  | Ok chain => NoDup (map passStart chain) /\ (exists rest', chain = q0 :: rest' /\ Forall (pass_ok chain) rest') /\
      (forall s, in_chain (q0 :: rest) s -> in_chain chain s) /\
      forall c, In c cs -> caller c = 0%nat \/ in_chain chain (Start (funcAt p (caller c)))
  end.
Proof.
  induction cs as [|c cs IH]; intros rest seen st Hst Hseen Hnd Hrest; cbn [pass_callers fst snd].
  - split; [exact Hst|]. splits; [exact Hnd|exists rest; auto|auto|easy].
  - destruct (caller c =? 0)%nat eqn:E0.
    + destruct (IH rest seen st Hst Hseen Hnd Hrest) as [H1 H2]. split; [exact H1|]. destruct (fst _) as [chain|]; [|exact H2].
      destruct H2 as (H2 & H3 & H4 & H5). splits; auto. intros d [<-|Hd]; [left; now apply Nat.eqb_eq|auto].
    + destruct (resolve_ok (caller c) st Hst) as [R1 R2]. destruct (resolve_ (funcAt p (caller c)) st) as [up st1]. cbn [fst snd] in R1, R2.
      destruct up as [up|w]; cbn [fst snd]; [|split; [exact R1|discriminate]]. destruct R2 as (U1 & _ & (uq & uqs & -> & Uq)).
      pose proof (add_chain_spec (q0 :: rest) seen (uq :: uqs) Hseen Hnd) as Ha. destruct (add_chain (q0 :: rest, seen) (uq :: uqs)) as [chain' seen'].
      destruct Ha as (A1 & A2 & (more & -> & A3) & A4).
      assert (Hup : forall s, in_chain (uq :: uqs) s -> in_chain ((q0 :: rest) ++ more) s).
      { intros s Hs. unfold in_chain in Hs. apply in_map_iff in Hs as (x & <- & Hx). now apply A4. }
      assert (Hold : forall s, in_chain (q0 :: rest) s -> in_chain ((q0 :: rest) ++ more) s) by (intros s Hs; unfold in_chain; rewrite map_app; apply in_or_app; now left).
      destruct (IH (rest ++ more) seen' st1 R1 A1 A2) as [H1 H2].
      { apply List.Forall_app. split; [eapply List.Forall_impl; [|exact Hrest]; intros x; now apply pass_ok_incl|].
        apply List.Forall_forall. intros x Hx. rewrite List.Forall_forall in U1. apply (pass_ok_incl (uq :: uqs)); [exact Hup|]. apply U1. now apply A3. }
      split; [exact H1|]. destruct (fst _) as [chain|]; [|exact H2]. destruct H2 as (H2 & H3 & H4 & H5). splits; auto.
      intros d [<-|Hd]; [|auto]. right. apply H4, Hup. rewrite <- Uq. now left.
Qed.

Lemma pass_ok_step fn st : passes_ok st ->
  let r := pass p resolve_ fn (Proven (proofOf proofs (Start fn))) st in
  passes_ok (snd r) /\ match fst r with Ok chain => chain_ok (Start fn) chain | Err w => w <> PNoFuel end.
Proof.
  intros Hst. unfold pass. destruct (negb (isStatic fn)); [split; [exact Hst|discriminate]|].
  destruct (isCallback p (Start fn)) eqn:Ec; [split; [exact Hst|discriminate]|]. destruct (Proven (proofOf proofs (Start fn))) eqn:Ep.
  - split; [exact Hst|]. cbn [fst]. split; [|split; [apply NoDup_singleton|now repeat eexists]]. constructor; [|constructor]. now splits.
  - destruct (callersOf p (Start fn)) as [|c cs] eqn:Ecs; [split; [exact Hst|discriminate]|].
    destruct (ArgReads (insns (base p)) (indexOf p (Start fn))) as [reads|e] eqn:Er; [|split; [exact Hst|discriminate]].
    destruct (FreeArg reads =? 0) eqn:E0; [split; [exact Hst|discriminate]|]. bools. destruct (proj1 (FreeArg_free _ _ _ Er) E0) as [F1 F2].
    set (q0 := mkPass (fnName fn) (Start fn) (indexOf p (Start fn)) (FreeArg reads) false).
    destruct (pass_callers_ok q0 (c :: cs) [] [Start fn] st Hst) as [H1 H2]; [intros s; reflexivity|apply NoDup_singleton|constructor|].
    split; [exact H1|]. destruct (fst _) as [chain|]; [|exact H2]. destruct H2 as (H2 & (rest & -> & H3) & _ & H5).
    split; [|split; [exact H2|exists q0, rest; auto]]. constructor; [|exact H3]. split; [exact Ec|]. split; [reflexivity|]. cbn [passSaved passReg passIndex passStart q0].
    rewrite Ecs. auto.
Qed.
End Callers.

Definition starts_of : list Z := 0 :: map Start (funcs (base p)).

Lemma funcAt_start n : In (Start (funcAt p n)) starts_of.
Proof.
  unfold funcAt, starts_of. destruct (funcs (base p) !! n) as [g|] eqn:E; [|now left]. right. apply in_map. apply list_elem_of_In. now apply list_elem_of_lookup_2 with n.
Qed.

(** The depth of the recursion is bounded by the functions on it. *)
Lemma resolve_spec fuel busy fn st : passes_ok st -> NoDup busy -> In (Start fn) starts_of -> (forall s, s ∈ busy -> In s starts_of) ->
  (length starts_of <= fuel + length busy)%nat ->
  passes_ok (snd (resolve fuel p proofs busy fn st)) /\
  match fst (resolve fuel p proofs busy fn st) with Ok chain => chain_ok (Start fn) chain | Err w => w <> PNoFuel end.
Proof.
  revert busy fn st. induction fuel as [|fuel IH]; intros busy fn st Hst Hnd Hin Hb Hlen; cbn [resolve];
    (destruct (chains st !! Start fn) as [chain|] eqn:Ec; [split; [exact Hst|exact (proj1 Hst _ _ Ec)]|]);
    (destruct (whys st !! Start fn) as [w|] eqn:Ew; [split; [exact Hst|cbn; intros ->; now apply (proj2 Hst (Start fn))]|]);
    (case_bool_decide as Hbusy; [split; [exact Hst|discriminate]|]).
  - exfalso. assert (Hle : (length (Start fn :: busy) <= length starts_of)%nat).
    { apply submseteq_length, NoDup_submseteq; [now constructor|]. intros s Hs. apply list_elem_of_In. apply list.elem_of_cons in Hs as [->|Hs]; auto. }
    cbn [length] in *. lia.
  - destruct (pass_ok_step (resolve fuel p proofs (Start fn :: busy))) with (fn := fn) (st := st) as [H1 H2]; [|exact Hst|].
    { intros n st' Hst'. apply IH; [exact Hst'|now constructor|apply funcAt_start| |cbn [length]; lia]. intros s Hs. apply list.elem_of_cons in Hs as [->|Hs]; auto. }
    destruct (pass _ _ _ _ _) as [r st1]. cbn [fst snd] in H1, H2. destruct H1 as [C1 C2].
    destruct r as [chain|w]; cbn [fst snd]; (split; [split; cbn [chains whys]|]); auto.
    + intros s ch Hs. destruct (decide (Start fn = s)) as [<-|Hne]; [rewrite lookup_insert_eq in Hs; now injection Hs as <-|]. rewrite lookup_insert_ne in Hs by exact Hne. auto.
    + intros s Hs. destruct (decide (Start fn = s)) as [<-|Hne]; [rewrite lookup_insert_eq in Hs; now injection Hs as ->|]. rewrite lookup_insert_ne in Hs by exact Hne. now apply (C2 s).
Qed.
End Passes.

(** Whatever the call graph, recursive or not, [passes] ends; a chain it
    gives a function starts with the function, names each function once, and
    is closed: each function in it starts with the context in its own
    parameter, or is entered only from the program's entry and from functions
    of the chain, with the context in an argument register that no path
    through it reads before writing. *)
Theorem passes_closed (p : flowProgram) (proofs : gmap Z Proof_) :
  (forall start chain, chains (passes p proofs) !! start = Some chain ->
     NoDup (map passStart chain) /\ option_map passStart (hd_error chain) = Some start /\
     forall q, In q chain ->
       isCallback p (passStart q) = false /\
       (passSaved q = true -> Proven (proofOf proofs (passStart q)) = true) /\
       (passSaved q = false -> In (passReg q) args /\
          ~ reads_first (newArgProgram (insns (base p))) (passIndex q) (passReg q) /\
          forall c, In c (callersOf p (passStart q)) -> caller c = 0%nat \/ In (Start (funcAt p (caller c))) (map passStart chain))) /\
  (forall start, whys (passes p proofs) !! start <> Some PNoFuel).
Proof.
  assert (Hok : passes_ok p proofs (passes p proofs)).
  { unfold passes. assert (Hin : forall fn, In fn (tail (funcs (base p))) -> In (Start fn) (starts_of p)).
    { intros fn Hfn. right. apply in_map. destruct (funcs (base p)); [easy|now right]. }
    assert (H0 : passes_ok p proofs (mkPassState ∅ ∅)) by (split; intros s; [intros ch|]; cbn [chains whys]; rewrite lookup_empty; discriminate).
    revert Hin H0. generalize (tail (funcs (base p))) as l. generalize (mkPassState ∅ ∅) as st. intros st l. revert st.
    induction l as [|fn l IH]; intros st Hin H0; cbn [fold_left]; [exact H0|]. apply IH; [intros g Hg; apply Hin; now right|].
    apply (resolve_spec p proofs); [exact H0|constructor|apply Hin; now left|intros s Hs; now apply list.not_elem_of_nil in Hs|].
    unfold starts_of. cbn [length]. rewrite length_map. lia. }
  destruct Hok as [Hc Hw]. split; [|exact Hw]. intros start chain Hch. destruct (Hc _ _ Hch) as (H1 & H2 & (q & qs & E & Eq)).
  split; [exact H2|]. split; [rewrite E; cbn; now rewrite Eq|]. intros x Hx. rewrite List.Forall_forall in H1. destruct (H1 x Hx) as (K1 & _ & K3).
  split; [exact K1|]. destruct (passSaved x); split; try discriminate; auto.
Qed.
