(* ===== verification/Ast.v ===== *)
(** * Ast: the syntax tree of the filter DSL (pkg/kunai/ast)

    Go's "kind plus the fields that kind uses" structs are tagged unions
    here: a constructor per kind with exactly the fields that kind sets.
    The [String] methods that diagnostics and round trips use are kept. *)

From Stdlib Require Import ZArith Lia Bool Ascii String List.
From stdpp Require Import base list strings numbers option.
From S2P Require Import Prelude GoStd.
Local Open Scope Z_scope.

(** 1-indexed line and byte column. *)
Record Position := mkPos { Line : Z; Col : Z }.

#[export] Instance Position_eq_dec : EqDecision Position.
Proof. solve_decision. Defined.

(** ** Kinds *)

Inductive LayerKind := LayerProto | LayerAltGroup.

Definition LayerKind_String (k : LayerKind) : string :=
  match k with LayerProto => "proto" | LayerAltGroup => "alt" end.

(** [QuantRange min max]: [max = -1] is the open upper bound. *)
Inductive QuantKind :=
| QuantOne | QuantOpt | QuantPlus | QuantStar
| QuantRange (RangeMin RangeMax : Z).

Definition QuantKind_String (q : QuantKind) : string :=
  match q with
  | QuantOne => "one" | QuantOpt => "?" | QuantPlus => "+" | QuantStar => "*"
  | QuantRange _ _ => "{n,m}"
  end.

Inductive CmpOp := CmpEq | CmpNeq | CmpLt | CmpLe | CmpGt | CmpGe.

#[export] Instance CmpOp_eq_dec : EqDecision CmpOp.
Proof. solve_decision. Defined.

Definition CmpOp_String (o : CmpOp) : string :=
  match o with
  | CmpEq => "==" | CmpNeq => "!=" | CmpLt => "<" | CmpLe => "<="
  | CmpGt => ">" | CmpGe => ">="
  end.

Inductive ArithOp :=
| ArithAdd | ArithSub | ArithMul | ArithDiv | ArithMod
| ArithAnd | ArithOr | ArithXor | ArithShl | ArithShr.

#[export] Instance ArithOp_eq_dec : EqDecision ArithOp.
Proof. solve_decision. Defined.

Definition ArithOp_String (o : ArithOp) : string :=
  match o with
  | ArithAdd => "+" | ArithSub => "-" | ArithMul => "*" | ArithDiv => "/"
  | ArithMod => "%" | ArithAnd => "&" | ArithOr => "|" | ArithXor => "^"
  | ArithShl => "<<" | ArithShr => ">>"
  end.

Inductive ValueKind :=
| ValKInt | ValKIPv4 | ValKIPv6 | ValKMAC | ValKCIDR | ValKRange | ValKString | ValKIdent.

Definition ValueKind_String (v : ValueKind) : string :=
  match v with
  | ValKInt => "int" | ValKIPv4 => "ipv4" | ValKIPv6 => "ipv6" | ValKMAC => "mac"
  | ValKCIDR => "cidr" | ValKRange => "range" | ValKString => "string"
  | ValKIdent => "ident"
  end.

(** ** Literal values *)

Inductive ValueData :=
| ValInt (Int : Z) (Negative : bool)
| ValIPv4 (V4 : list Z)
| ValIPv6 (V6 : list Z)
| ValMAC (MAC : list Z)
| ValCIDR4 (V4 : list Z) (Prefix : Z)
| ValCIDR6 (V6 : list Z) (Prefix : Z)
| ValRange (RangeLo RangeHi : Z)
| ValString (Str : string)
| ValIdent (Ident : string).

Record Value := mkValue { Val : ValueData; Raw : string; ValPos : Position }.

Definition Value_Kind (v : Value) : ValueKind :=
  match Val v with
  | ValInt _ _ => ValKInt | ValIPv4 _ => ValKIPv4 | ValIPv6 _ => ValKIPv6
  | ValMAC _ => ValKMAC | ValCIDR4 _ _ | ValCIDR6 _ _ => ValKCIDR
  | ValRange _ _ => ValKRange | ValString _ => ValKString | ValIdent _ => ValKIdent
  end.

(** ** Field paths and their indices *)

Inductive FieldPath :=
| mkFieldPath (Parts : list string) (Indices : list (option IndexExpr)) (Pos : Position)
with IndexExpr :=
| IdxInt (Int : Z) (Pos : Position)
| IdxField (Field : FieldPath) (Pos : Position)
| IdxSlice (SliceLo SliceHi : Z) (Pos : Position).

Definition Parts (f : FieldPath) : list string := let '(mkFieldPath p _ _) := f in p.
Definition Indices (f : FieldPath) : list (option IndexExpr) := let '(mkFieldPath _ i _) := f in i.
Definition FPos (f : FieldPath) : Position := let '(mkFieldPath _ _ p) := f in p.

(** [fmtInt]: the digits of a [uint64], least significant first into a
    20-byte buffer filled from the end. *)
Fixpoint fmtInt_loop (fuel : nat) (v : Z) (buf : bytes) : bytes :=
  match fuel with
  | O => buf
  | S fuel' =>
      if 0 <? v
      then fmtInt_loop fuel' (v / 10) (ascii_of_N (Z.to_N (48 + v mod 10)) :: buf)
      else buf
  end.

Definition fmtInt (v : Z) : string :=
  if v =? 0 then "0" else str (fmtInt_loop 20 v []).

(** [FieldPath.String] and [IndexExpr.String]: the parts joined by dots,
    each followed by its bracketed index when it has one. *)
Fixpoint join_indexed (first : bool) (ps : list string) (ix : list (option string)) : string :=
  match ps with
  | [] => ""
  | p :: ps' =>
      (if first then "" else ".") +:+ p +:+
      match ix with Some e :: _ => "[" +:+ e +:+ "]" | _ => "" end +:+
      join_indexed false ps' (tl ix)
  end.

Fixpoint FieldPath_String (f : FieldPath) : string :=
  match f with
  | mkFieldPath parts indices _ =>
      join_indexed true parts
        (List.map (fun o => match o with Some e => Some (IndexExpr_String e) | None => None end) indices)
  end
with IndexExpr_String (e : IndexExpr) : string :=
  match e with
  | IdxSlice lo hi _ => fmtInt lo +:+ ":" +:+ fmtInt hi
  | IdxInt n _ => fmtInt n
  | IdxField fp _ => FieldPath_String fp
  end.

(** ** Layers and predicates *)

Inductive PredData :=
| PredCmp (Op : CmpOp) (V : Value)
| PredIn (Vs : list Value)
| PredHas (FlagName : string)
| PredInSet (SetName : string)
| PredValid.

Record Predicate := mkPredicate { PKind : PredData; PField : FieldPath; PPos : Position }.

Definition PredKind_String (p : PredData) : string :=
  match p with
  | PredCmp _ _ => "cmp" | PredIn _ => "in" | PredHas _ => "has"
  | PredInSet _ => "in-set" | PredValid => "valid"
  end.

(** [Label = ""] when the layer has no label. *)
Inductive Layer :=
| mkProto (ProtoName Label : string) (Predicates : list Predicate) (Quant : QuantKind) (Pos : Position)
| mkAltGroup (Alternatives : list Layer) (Quant : QuantKind) (Pos : Position).

Definition Layer_Kind (l : Layer) : LayerKind :=
  match l with mkProto _ _ _ _ _ => LayerProto | mkAltGroup _ _ _ => LayerAltGroup end.

Definition Quant (l : Layer) : QuantKind :=
  match l with mkProto _ _ _ q _ => q | mkAltGroup _ q _ => q end.

(** The assignment [layer.Quant = q] (with the range bounds). *)
Definition set_Quant (q : QuantKind) (l : Layer) : Layer :=
  match l with
  | mkProto n lab ps _ pos => mkProto n lab ps q pos
  | mkAltGroup alts _ pos => mkAltGroup alts q pos
  end.

(** ** Where expressions *)

Inductive ArithExpr :=
| ArithConst (Const ConstHi : Z) (Negative Wide : bool) (Pos : Position)
| ArithField (Field : FieldPath) (Pos : Position)
| ArithBinOp (Op : ArithOp) (Left Right : ArithExpr) (Pos : Position).

Definition ArithKind_String (e : ArithExpr) : string :=
  match e with
  | ArithConst _ _ _ _ _ => "const" | ArithField _ _ => "field"
  | ArithBinOp _ _ _ _ => "binop"
  end.

Inductive WhereExpr :=
| WOr (Left Right : WhereExpr) (Pos : Position)
| WAnd (Left Right : WhereExpr) (Pos : Position)
| WNot (Inner : WhereExpr) (Pos : Position)
| WAtomArith (ArithL : ArithExpr) (Op : CmpOp) (ArithR : ArithExpr) (Pos : Position)
| WAtomLiteralCmp (LiteralField : FieldPath) (LiteralOp : CmpOp) (LiteralValue : Value) (Pos : Position)
| WAtomAction (ActionValue : string) (Pos : Position)
| WAny (Inner : WhereExpr) (Pos : Position)
| WAll (Inner : WhereExpr) (Pos : Position)
| WAtomBoolLit (BoolLitValue : bool) (Pos : Position)
| WAtomBoolExists (BoolField : FieldPath) (Pos : Position)
| WAtomBoolEq (BoolL : WhereExpr) (BoolEqOp : CmpOp) (BoolR : WhereExpr) (Pos : Position)
| WAtomBoolValid (BoolField : FieldPath) (Pos : Position).

Definition WhereKind_String (w : WhereExpr) : string :=
  match w with
  | WOr _ _ _ => "or" | WAnd _ _ _ => "and" | WNot _ _ => "not"
  | WAtomArith _ _ _ _ => "arith" | WAtomLiteralCmp _ _ _ _ => "literalcmp"
  | WAtomAction _ _ => "action" | WAny _ _ => "any" | WAll _ _ => "all"
  | WAtomBoolLit _ _ => "boollit" | WAtomBoolExists _ _ => "boolexists"
  | WAtomBoolEq _ _ _ _ => "booleq" | WAtomBoolValid _ _ => "boolvalid"
  end.

(** ** Capture clauses and the filter *)

Inductive CaptureData :=
| CapAll
| CapHeaders
| CapHeadersPlus (Extra : Z)
| CapFields (Fields : list FieldPath)
| CapToLayer (LayerName : string) (Extra : Z)
| CapAbsolute (Extra : Z).

Definition CaptureKind_String (c : CaptureData) : string :=
  match c with
  | CapAll => "all" | CapHeaders => "headers" | CapHeadersPlus _ => "headers+N"
  | CapFields _ => "fields" | CapToLayer _ _ => "tolayer" | CapAbsolute _ => "absolute"
  end.

Record CaptureClause := mkCapture {
  CKind : CaptureData;
  CWhere : option WhereExpr;
  CUnsupported : bool;
  CPos : Position
}.

Record Filter := mkFilter {
  Layers : list Layer;
  Where : option WhereExpr;
  Captures : list CaptureClause;
  FilterPos : Position
}.

(** ** Lemmas *)

Lemma set_Quant_Quant q l : Quant (set_Quant q l) = q.
Proof. now destruct l. Qed.

#[export] Hint Rewrite set_Quant_Quant : go.
