(* ===== verification/ScanValue.v ===== *)
(** * ScanValue: classification of value-mode runs (pkg/kunai/lexer/scanvalue.go)

    [classifyValue] turns the bytes of one bracket value into a typed
    literal. The character classes of lexer.go are here because both
    scanners use them. *)

From Stdlib Require Import ZArith Lia Bool Ascii String List.
From stdpp Require Import base list strings numbers option.
From S2P Require Import Prelude GoStd Ast.
Local Open Scope Z_scope.
Local Open Scope go_scope.

(** ** Character classes (lexer.go) *)

Definition isIdentStart (b : ascii) : bool :=
  Ascii.eqb b "_" || ((97 <=? ord b) && (ord b <=? 122)) || ((65 <=? ord b) && (ord b <=? 90)).

Definition isIdentCont (b : ascii) : bool :=
  isIdentStart b || ((48 <=? ord b) && (ord b <=? 57)).

Definition isHexChar (b : ascii) : bool :=
  ((48 <=? ord b) && (ord b <=? 57)) || ((97 <=? ord b) && (ord b <=? 102))
  || ((65 <=? ord b) && (ord b <=? 70)).

Definition isValueByte (b : ascii) : bool :=
  if (48 <=? ord b) && (ord b <=? 57) then true
  else if (97 <=? ord b) && (ord b <=? 122) then true
  else if (65 <=? ord b) && (ord b <=? 90) then true
  else Ascii.eqb b "." || Ascii.eqb b ":" || Ascii.eqb b "/" || Ascii.eqb b "_"
       || Ascii.eqb b "-" || Ascii.eqb b "%".

(** ** Shape tests *)

(** The loop of [isMACShape] from index [i]. *)
Fixpoint isMACShape_loop (i : nat) (s : bytes) : bool :=
  match s with
  | [] => true
  | c :: s' =>
      if ((i + 1) mod 3 =? 0)%nat
      then if Ascii.eqb c ":" then isMACShape_loop (S i) s' else false
      else if isHexChar c then isMACShape_loop (S i) s' else false
  end.

Definition isMACShape (s : bytes) : bool :=
  if negb (length s =? 17)%nat then false else isMACShape_loop 0 s.

Definition isIntegerLiteral (s : bytes) : bool :=
  match s with
  | [] => false
  | c :: s1 =>
      if Ascii.eqb c "-" && (length s =? 1)%nat then false
      else
        let s := if Ascii.eqb c "-" then s1 else s in
        if HasPrefix s (B "0x") || HasPrefix s (B "0X") then
          if (length s =? 2)%nat then false else forallb isHexChar (drop 2 s)
        else forallb (fun c => (48 <=? ord c) && (ord c <=? 57)) s
  end.

Definition isIdentLiteral (s : bytes) : bool :=
  match s with
  | [] => false
  | c :: s' => if isIdentStart c then forallb isIdentCont s' else false
  end.

(** ** Builders *)

Definition buildRange (raw loStr hiStr : bytes) (pos : Position) : result error Value :=
  match loStr, hiStr with
  | [], _ | _, [] => Err (Errorf "range %q: empty side of '..'" [AStr (str raw)])
  | _, _ =>
      match ParseUint loStr 0 64 with
      | Err err => Err (Errorf "range lower bound %q: %v" [AStr (str loStr); AErr err])
      | Ok lo =>
          match ParseUint hiStr 0 64 with
          | Err err => Err (Errorf "range upper bound %q: %v" [AStr (str hiStr); AErr err])
          | Ok hi =>
              if hi <? lo
              then Err (Errorf "range %q: lower %d exceeds upper %d" [AStr (str raw); AInt lo; AInt hi])
              else Ok (mkValue (ValRange lo hi) (str raw) pos)
          end
      end
  end.

Definition buildCIDR (raw : bytes) (pos : Position) : result error Value :=
  match ParseCIDR raw with
  | None => Err (Errorf "CIDR %q: %v" [AStr (str raw); AErr (errAddr "invalid CIDR address" raw)])
  | Some (ip, network, ones) =>
      let bits := 8 * Z.of_nat (length network) in
      if negb (bool_decide (ip = network)) then
        Err (Errorf "CIDR %q has host bits set; network would be %s (suggestion: %s for the subnet, or %s/%d for the single host)"
               [AStr (str raw); AAddr network; AInt ones; AAddr network; AInt ones; AAddr ip; AInt bits])
      else if (length network =? 4)%nat
      then Ok (mkValue (ValCIDR4 network ones) (str raw) pos)
      else Ok (mkValue (ValCIDR6 network ones) (str raw) pos)
  end.

Definition buildIPv4 (raw : bytes) (pos : Position) : result error Value :=
  match ParseIP raw with
  | None => Err (Errorf "invalid IPv4 address %q" [AStr (str raw)])
  | Some ip =>
      match To4 ip with
      | None => Err (Errorf "not an IPv4 address: %q" [AStr (str raw)])
      | Some v4 => Ok (mkValue (ValIPv4 v4) (str raw) pos)
      end
  end.

(** [To16] of a 16-byte address is the address. *)
Definition buildIPv6 (raw : bytes) (pos : Position) : result error Value :=
  match ParseIP raw with
  | None => Err (Errorf "invalid IPv6 address %q" [AStr (str raw)])
  | Some v6 => Ok (mkValue (ValIPv6 v6) (str raw) pos)
  end.

Fixpoint buildMAC_loop (raw : bytes) (parts : list bytes) : result error (list Z) :=
  match parts with
  | [] => Ok []
  | p :: parts' =>
      match ParseUint p 16 8 with
      | Err err => Err (Errorf "MAC %q: octet %q: %v" [AStr (str raw); AStr (str p); AErr err])
      | Ok n => let? mac := buildMAC_loop raw parts' in Ok (n :: mac)
      end
  end.

Definition buildMAC (raw : bytes) (pos : Position) : result error Value :=
  let? mac := buildMAC_loop raw (Split raw ":") in
  Ok (mkValue (ValMAC mac) (str raw) pos).

Definition buildInt (raw : bytes) (pos : Position) : result error Value :=
  if HasPrefix raw (B "-") then
    match ParseInt raw 0 with
    | Err err => Err (Errorf "invalid integer %q: %v" [AStr (str raw); AErr err])
    | Ok signed => Ok (mkValue (ValInt (u64 signed) true) (str raw) pos)
    end
  else
    match ParseUint raw 0 64 with
    | Err err => Err (Errorf "invalid integer %q: %v" [AStr (str raw); AErr err])
    | Ok v => Ok (mkValue (ValInt v false) (str raw) pos)
    end.

Definition classifyValue (raw : bytes) (pos : Position) : result error Value :=
  match raw with
  | [] => Err (Errorf "empty value" [])
  | _ =>
      match Cut raw (B "..") with
      | Some (loStr, hiStr) => buildRange raw loStr hiStr pos
      | None =>
          if ContainsRune raw "/" then buildCIDR raw pos
          else if (CountByte raw "." =? 3)%nat && negb (ContainsRune raw ":")
          then buildIPv4 raw pos
          else if ContainsRune raw ":" then
            if isMACShape raw then buildMAC raw pos else buildIPv6 raw pos
          else if isIntegerLiteral raw then buildInt raw pos
          else if isIdentLiteral raw then Ok (mkValue (ValIdent (str raw)) (str raw) pos)
          else Err (Errorf "unrecognized value %q" [AStr (str raw)])
      end
  end.

Example cv1 : classifyValue (B "10.0.0.0/8") (mkPos 1 1)
  = Ok (mkValue (ValCIDR4 [10; 0; 0; 0] 8) "10.0.0.0/8" (mkPos 1 1)).
Proof. vm_compute. reflexivity. Qed.
Example cv2 : classifyValue (B "fe80::1:ff/128") (mkPos 1 1)
  = Ok (mkValue (ValCIDR6 [254;128;0;0;0;0;0;0;0;0;0;0;0;1;0;255] 128) "fe80::1:ff/128" (mkPos 1 1)).
Proof. vm_compute. reflexivity. Qed.
Example cv3 : classifyValue (B "010") (mkPos 1 1) = Ok (mkValue (ValInt 8 false) "010" (mkPos 1 1)).
Proof. vm_compute. reflexivity. Qed.
Example cv4 : classifyValue (B "0b1..1_0") (mkPos 1 1) = Ok (mkValue (ValRange 1 10) "0b1..1_0" (mkPos 1 1)).
Proof. vm_compute. reflexivity. Qed.
Example cv5 : classifyValue (B "aa:bb:cc:dd:ee:0F") (mkPos 1 1) = Ok (mkValue (ValMAC [170;187;204;221;238;15]) "aa:bb:cc:dd:ee:0F" (mkPos 1 1)).
Proof. vm_compute. reflexivity. Qed.
Example cv6 : classifyValue (B "-9223372036854775808") (mkPos 1 1) = Ok (mkValue (ValInt 9223372036854775808 true) "-9223372036854775808" (mkPos 1 1)).
Proof. vm_compute. reflexivity. Qed.
Example cv7 : classifyValue (B "::ffff:1.2.3.4") (mkPos 1 1) = Ok (mkValue (ValIPv6 (v4InV6Prefix ++ [1;2;3;4])) "::ffff:1.2.3.4" (mkPos 1 1)).
Proof. vm_compute. reflexivity. Qed.
Example cv8 : classifyValue (B "1.2.3.4") (mkPos 1 1) = Ok (mkValue (ValIPv4 [1;2;3;4]) "1.2.3.4" (mkPos 1 1)).
Proof. vm_compute. reflexivity. Qed.

(** ** Well-formedness of a classified literal *)

Definition ValueData_wf (raw : bytes) (v : ValueData) : Prop :=
  match v with
  | ValInt n neg => in_u64 n /\ (neg = true -> - two63 <= int64_of_u64 n <= 0)
  | ValIPv4 o => octets 4 o
  | ValIPv6 b => octets 16 b
  | ValMAC m => octets 6 m
  | ValCIDR4 o p => octets 4 o /\ 0 <= p <= 32 /\ mask_ip o (CIDRMask p 4) = o
  | ValCIDR6 b p => octets 16 b /\ 0 <= p <= 128 /\ mask_ip b (CIDRMask p 16) = b
  | ValRange lo hi => in_u64 lo /\ in_u64 hi /\ lo <= hi
  | ValString _ => False
  | ValIdent s => s = str raw /\ isIdentLiteral raw = true
  end.

Definition Value_wf (raw : bytes) (pos : Position) (v : Value) : Prop :=
  ValueData_wf raw (Val v) /\ Raw v = str raw /\ ValPos v = pos.

(** ** Lemmas *)

Lemma buildRange_wf raw lo hi pos v : buildRange raw lo hi pos = Ok v -> Value_wf raw pos v.
Proof.
  unfold buildRange. destruct lo as [|c lo]; [discriminate|]. destruct hi as [|d hi]; [discriminate|].
  destruct (ParseUint (c :: lo) 0 64) as [a|] eqn:Ha; [|discriminate].
  destruct (ParseUint (d :: hi) 0 64) as [b|] eqn:Hb; [|discriminate].
  case_goal; [discriminate|]. intros [= <-]. bools.
  apply ParseUint_in_u64 in Ha, Hb. repeat split; simpl; unfold in_u64 in *; lia.
Qed.

Lemma buildCIDR_wf raw pos v : buildCIDR raw pos = Ok v -> Value_wf raw pos v.
Proof.
  unfold buildCIDR. destruct (ParseCIDR raw) as [[[ip network] n]|] eqn:E; [|discriminate].
  apply ParseCIDR_spec in E as (Hip & Hn & Hnet).
  case_bool_decide as Heq; simpl; [|discriminate]. subst network. rewrite <- Heq.
  destruct Hip as [[Hl Hf]|[Hl Hf]]; rewrite Hl in *; simpl; intros [= <-];
    (split; [|split; reflexivity]); simpl; rewrite <- Heq; (split; [now split|split; [lia|reflexivity]]).
Qed.

Lemma buildIPv4_wf raw pos v : buildIPv4 raw pos = Ok v -> Value_wf raw pos v.
Proof.
  unfold buildIPv4. destruct (ParseIP raw) as [ip|] eqn:E; [|discriminate].
  apply ParseIP_octets in E. destruct (To4 ip) as [v4|] eqn:E4; [|discriminate].
  apply To4_octets in E4; [|exact E]. now intros [= <-].
Qed.

Lemma buildIPv6_wf raw pos v : buildIPv6 raw pos = Ok v -> Value_wf raw pos v.
Proof.
  unfold buildIPv6. destruct (ParseIP raw) as [ip|] eqn:E; [|discriminate].
  apply ParseIP_octets in E. now intros [= <-].
Qed.

Lemma buildInt_wf raw pos v : buildInt raw pos = Ok v -> Value_wf raw pos v.
Proof.
  unfold buildInt. destruct (HasPrefix raw (B "-")) eqn:Hp.
  - destruct (ParseInt raw 0) as [n|] eqn:E; [|discriminate]. intros [= <-].
    split; [|split; reflexivity]. simpl. split; [apply u64_range|]. intros _.
    assert (- two63 <= n <= 0).
    { pose proof (ParseInt_range _ _ _ E) as [Hlo _]. split; [exact Hlo|].
      destruct raw as [|c raw]; [discriminate|].
      apply andb_prop in Hp as [Hc _]. apply Ascii.eqb_eq in Hc. subst c.
      unfold ParseInt in E. cbn [Ascii.eqb Bool.eqb orb negb andb] in E.
      apply result_bind_ok in E as (un & Hu & E). apply ParseUint_in_u64 in Hu.
      unfold in_u64 in Hu. case_if E; [discriminate|]. injection E as <-. lia. }
    unfold u64, int64_of_u64, two63, two64 in *.
    destruct (decide (n = 0)) as [->|]; [vm_compute; split; discriminate|].
    replace (n mod 18446744073709551616) with (n + 18446744073709551616).
    + case_goal; bools; lia.
    + rewrite <- (Z_mod_plus_full n 1), Z.mul_1_l. rewrite Z.mod_small; lia.
  - destruct (ParseUint raw 0 64) as [n|] eqn:E; [|discriminate]. intros [= <-].
    apply ParseUint_in_u64 in E. split; [|split; reflexivity]. simpl. now split.
Qed.

Lemma isHexChar_digit c : isHexChar c = true ->
  Ascii.eqb c ":" = false /\ exists d, digit_val c = Some d /\ 0 <= d < 16.
Proof.
  intros H. split.
  - destruct (Ascii.eqb_spec c ":"); [now subst|reflexivity].
  - revert H. destruct c as [[] [] [] [] [] [] [] []]; vm_compute; intros H; try discriminate H;
      eexists; (split; [reflexivity|]); (split; [discriminate|reflexivity]).
Qed.

Lemma ParseUint_hex_pair a b x y :
  digit_val a = Some x -> digit_val b = Some y -> 0 <= x < 16 -> 0 <= y < 16 ->
  ParseUint [a; b] 16 8 = Ok (16 * x + y).
Proof.
  intros Ha Hb Hx Hy.
  assert (Hs : forall c d n us s0 s, digit_val c = Some d -> 0 <= d < 16 -> 0 <= n <= 15 ->
    parseUint_loop 16 false 255 s0 (c :: s) n us = parseUint_loop 16 false 255 s0 s (n * 16 + d) us).
  { intros c d n us s0 s Hc Hd Hn. simpl. rewrite andb_false_r, Hc.
    destruct (16 <=? d) eqn:E1; bools; [lia|].
    replace ((two64 - 1) / 16 + 1) with 1152921504606846976 by reflexivity.
    destruct (1152921504606846976 <=? n) eqn:E2; bools; [lia|].
    rewrite u64_small by (unfold in_u64, two64; lia).
    destruct (n * 16 + d <? n * 16) eqn:E3; bools; [lia|].
    destruct (255 <? n * 16 + d) eqn:E4; bools; [lia|]. reflexivity. }
  unfold ParseUint. change (2 ^ 8 - 1) with 255. change (16 =? 0) with false. cbv beta iota zeta.
  rewrite (Hs a x), (Hs b y) by (auto; lia). simpl. f_equal. lia.
Qed.

Lemma isMACShape_loop_cons i c s :
  isMACShape_loop i (c :: s) = true ->
  (if ((i + 1) mod 3 =? 0)%nat then c = ":"%char else isHexChar c = true) /\
  isMACShape_loop (S i) s = true.
Proof.
  cbn [isMACShape_loop]. case_goal; intros H; case_if H; try discriminate; split; auto.
  now apply Ascii.eqb_eq.
Qed.

(** The six octets of a [XX:XX:XX:XX:XX:XX] run. *)
Lemma buildMAC_total raw pos :
  isMACShape raw = true ->
  exists mac, buildMAC raw pos = Ok (mkValue (ValMAC mac) (str raw) pos) /\ octets 6 mac.
Proof.
  unfold isMACShape. destruct (length raw =? 17)%nat eqn:Hl; simpl; [|discriminate]. bools.
  do 17 (destruct raw as [|? raw]; [discriminate|]). destruct raw; [clear Hl|discriminate].
  intros H.
  repeat (let E := fresh "E" in apply isMACShape_loop_cons in H as [E H];
    let n := match type of E with (if ?n then _ else _) => n end in
    let b := eval vm_compute in n in change n with b in E; cbv iota in E; try subst).
  repeat match goal with
  | E : isHexChar _ = true |- _ =>
      apply isHexChar_digit in E as (?Hc & ?d & ?Hd & ?Hr)
  end.
  unfold buildMAC. cbn [Split Ascii.eqb Bool.eqb].
  repeat match goal with E : Ascii.eqb ?c ":" = false |- _ => rewrite E; clear E end.
  cbn [buildMAC_loop].
  repeat match goal with |- context [ParseUint [?a; ?b] 16 8] =>
    erewrite (ParseUint_hex_pair a b) by eassumption; cbn [result_bind] end.
  eexists. split; [reflexivity|]. split; [reflexivity|]. repeat constructor; lia.
Qed.

Lemma buildMAC_wf raw pos v :
  isMACShape raw = true -> buildMAC raw pos = Ok v -> Value_wf raw pos v.
Proof.
  intros Hs H. destruct (buildMAC_total raw pos Hs) as (mac & E & Ho).
  rewrite E in H. injection H as <-. now split.
Qed.

Lemma classifyValue_Ok_wf raw pos v : classifyValue raw pos = Ok v -> Value_wf raw pos v.
Proof.
  unfold classifyValue. destruct raw as [|c raw']; [discriminate|]. set (raw := c :: raw').
  destruct (Cut raw (B "..")) as [[lo hi]|]; [apply buildRange_wf|].
  repeat case_goal; eauto using buildCIDR_wf, buildIPv4_wf, buildMAC_wf, buildIPv6_wf, buildInt_wf.
  - intros [= <-]. now split.
  - discriminate.
Qed.

(** ** Dotted-decimal text and its round trip *)

(** The canonical text of an octet, an IPv4 address and an IPv4 CIDR. *)
Definition octet_text (n : Z) : bytes := B (fmtInt n).
Definition ipv4_text (a b c d : Z) : bytes :=
  octet_text a ++ "."%char :: octet_text b ++ "."%char :: octet_text c ++ "."%char :: octet_text d.
Definition cidr4_text (a b c d p : Z) : bytes := ipv4_text a b c d ++ "/"%char :: octet_text p.

Lemma octet_cases (P : Z -> Prop) :
  Forall P (map Z.of_nat (seq 0 256)) -> forall n, 0 <= n < 256 -> P n.
Proof.
  intros H n Hn. rewrite List.Forall_forall in H. apply H.
  apply in_map_iff. exists (Z.to_nat n). split; [lia|]. apply in_seq. lia.
Qed.

Definition octet_text_ok (n : Z) : bool :=
  match octet_text n with
  | c :: ds => is_digit c && forallb is_digit ds
  | [] => false
  end && match dtoi (octet_text n) with
         | Some (m, i) => (m =? n) && (i =? length (octet_text n))%nat
         | None => false
         end.

Lemma octet_text_checked n : 0 <= n < 256 -> octet_text_ok n = true.
Proof.
  apply (octet_cases (fun n => octet_text_ok n = true)).
  assert (forallb octet_text_ok (map Z.of_nat (seq 0 256)) = true) as H by (vm_compute; reflexivity).
  rewrite forallb_forall in H. rewrite List.Forall_forall. exact H.
Qed.

Lemma octet_text_digits n : 0 <= n < 256 ->
  octet_text n <> [] /\ Forall (fun c => is_digit c = true) (octet_text n).
Proof.
  intros Hn. apply octet_text_checked in Hn. unfold octet_text_ok in Hn. bools.
  destruct (octet_text n) as [|c ds]; [discriminate|]. bools. split; [discriminate|].
  constructor; [assumption|]. rewrite List.Forall_forall. now apply forallb_forall.
Qed.

Lemma octet_text_dtoi n : 0 <= n < 256 -> dtoi (octet_text n) = Some (n, length (octet_text n)).
Proof.
  intros Hn. apply octet_text_checked in Hn. unfold octet_text_ok in Hn. bools.
  destruct (dtoi (octet_text n)) as [[m i]|]; [|discriminate]. bools. now subst.
Qed.

Definition octet_text_run (n : Z) : Prop :=
  forall rest prev fields, exists last k, is_digit last = true /\
    parseIPv4Fields (octet_text n ++ rest) prev 0 0 fields = parseIPv4Fields rest (Some last) n k fields.

Lemma octet_text_fields n : 0 <= n < 256 -> octet_text_run n.
Proof.
  apply octet_cases.
  repeat (constructor;
    [intros rest prev fields; eexists _, _; split; [|cbn -[Z.eqb Nat.eqb]; reflexivity]; reflexivity|]).
  constructor.
Qed.

Lemma digit_facts c : is_digit c = true ->
  Ascii.eqb "." c = false /\ Ascii.eqb "/" c = false /\ Ascii.eqb ":" c = false /\
  Ascii.eqb "%" c = false /\ Ascii.eqb c "." = false /\ Ascii.eqb c ":" = false /\ Ascii.eqb c "%" = false.
Proof.
  intros H. destruct c as [[] [] [] [] [] [] [] []]; vm_compute in H; try discriminate H; repeat split.
Qed.

(** Digits neither contain nor start a separator, so every scan skips them. *)
Lemma Cut_digits ds rest sep s0 :
  Forall (fun c => is_digit c = true) ds -> (sep = "."%char \/ sep = "/"%char) ->
  Cut (ds ++ rest) (sep :: s0) =
    match Cut rest (sep :: s0) with Some (b, a) => Some (ds ++ b, a) | None => None end.
Proof.
  intros Hd Hs. induction Hd as [|c ds Hc Hd IH]; simpl.
  - now destruct (Cut rest (sep :: s0)) as [[? ?]|].
  - apply digit_facts in Hc as (H1 & H2 & _).
    assert (Ascii.eqb sep c = false) as -> by (destruct Hs; subst; assumption).
    simpl. rewrite IH. now destruct (Cut rest (sep :: s0)) as [[? ?]|].
Qed.

Lemma existsb_digits ds rest sep :
  Forall (fun c => is_digit c = true) ds -> In sep ["."; "/"; ":"; "%"]%char ->
  ContainsRune (ds ++ rest) sep = ContainsRune rest sep.
Proof.
  intros Hd Hs. unfold ContainsRune. induction Hd as [|c ds Hc Hd IH]; [reflexivity|]. simpl.
  apply digit_facts in Hc as (H1 & H2 & H3 & H4 & _). rewrite IH.
  simpl in Hs. destruct Hs as [<-|[<-|[<-|[<-|[]]]]]; [rewrite H1|rewrite H2|rewrite H3|rewrite H4]; reflexivity.
Qed.

Lemma find_digits ds rest :
  Forall (fun c => is_digit c = true) ds ->
  find (fun c => Ascii.eqb c "." || Ascii.eqb c ":" || Ascii.eqb c "%") (ds ++ rest) =
  find (fun c => Ascii.eqb c "." || Ascii.eqb c ":" || Ascii.eqb c "%") rest.
Proof.
  intros Hd. induction Hd as [|c ds Hc Hd IH]; [reflexivity|]. simpl.
  apply digit_facts in Hc as (_ & _ & _ & _ & -> & -> & ->). exact IH.
Qed.

Lemma parseIPv4Fields_dot n v rest last k fields :
  0 <= n < 256 -> is_digit last = true -> (length fields < 3)%nat ->
  parseIPv4Fields ("."%char :: octet_text n ++ rest) (Some last) v k fields =
  parseIPv4Fields (octet_text n ++ rest) (Some "."%char) 0 0 (fields ++ [v]).
Proof.
  intros Hn Hl Hf. apply octet_text_digits in Hn as [Hn _].
  cbn [parseIPv4Fields]. change (is_digit ".") with false. cbv iota. cbn [Ascii.eqb Bool.eqb].
  apply digit_facts in Hl as (_ & _ & _ & _ & -> & _).
  destruct (length fields =? 3)%nat eqn:E; bools; [lia|].
  destruct (octet_text n); [now destruct Hn|reflexivity].
Qed.

Lemma parseIPv4Fields_text a b c d :
  0 <= a < 256 -> 0 <= b < 256 -> 0 <= c < 256 -> 0 <= d < 256 ->
  parseIPv4Fields (ipv4_text a b c d) None 0 0 [] = Some [a; b; c; d].
Proof.
  intros Ha Hb Hc Hd. unfold ipv4_text.
  edestruct (octet_text_fields a Ha) as (la & ka & Hla & ->).
  rewrite parseIPv4Fields_dot by (auto; simpl; lia).
  edestruct (octet_text_fields b Hb) as (lb & kb & Hlb & ->).
  rewrite parseIPv4Fields_dot by (auto; simpl; lia).
  edestruct (octet_text_fields c Hc) as (lc & kc & Hlc & ->).
  rewrite <- (app_nil_r (octet_text d)), parseIPv4Fields_dot by (auto; simpl; lia).
  edestruct (octet_text_fields d Hd) as (ld & kd & Hld & ->). reflexivity.
Qed.

Lemma ParseAddr_ipv4_text a b c d :
  0 <= a < 256 -> 0 <= b < 256 -> 0 <= c < 256 -> 0 <= d < 256 ->
  ParseAddr (ipv4_text a b c d) = Some (Addr4 [a; b; c; d]).
Proof.
  intros Ha Hb Hc Hd. unfold ParseAddr.
  assert (find (fun c => Ascii.eqb c "." || Ascii.eqb c ":" || Ascii.eqb c "%") (ipv4_text a b c d)
          = Some "."%char) as ->.
  { unfold ipv4_text. rewrite find_digits by now apply octet_text_digits. reflexivity. }
  cbn [Ascii.eqb Bool.eqb]. now rewrite parseIPv4Fields_text.
Qed.

Lemma Cut_dot_digits n rest :
  0 <= n < 256 ->
  Cut ("."%char :: octet_text n ++ rest) (B "..") =
    match Cut (octet_text n ++ rest) (B "..") with
    | Some (b, a) => Some ("."%char :: b, a) | None => None end.
Proof.
  intros Hn. apply octet_text_digits in Hn as [Hne Hd]. destruct Hd as [|x ds Hx Hd]; [now destruct Hne|].
  apply digit_facts in Hx as (H1 & _).
  cbn [Cut HasPrefix B list_ascii_of_string app andb]. rewrite H1. reflexivity.
Qed.

Section Ipv4Text.
Context (a b c d : Z) (Ha : 0 <= a < 256) (Hb : 0 <= b < 256) (Hc : 0 <= c < 256) (Hd : 0 <= d < 256).

Lemma ipv4_text_no_range rest :
    Cut rest (B "..") = None -> Cut (ipv4_text a b c d ++ rest) (B "..") = None.
  Proof.
    intros Hr. unfold ipv4_text.
    repeat (rewrite <- app_assoc; cbn [app]).
    assert (Hrun : forall n r, 0 <= n < 256 -> Cut r (B "..") = None -> Cut (octet_text n ++ r) (B "..") = None).
    { intros n r Hn E. change (B "..") with ("."%char :: ["."%char]).
      rewrite Cut_digits by (auto; now apply octet_text_digits).
      change ("."%char :: ["."%char]) with (B ".."). now rewrite E. }
    apply Hrun; [exact Ha|]. rewrite Cut_dot_digits, Hrun; auto.
    rewrite Cut_dot_digits, Hrun; auto. rewrite Cut_dot_digits, Hrun; auto.
  Qed.

Lemma ipv4_text_contains rest sep :
    In sep ["/"; ":"; "%"]%char -> ContainsRune (ipv4_text a b c d ++ rest) sep = ContainsRune rest sep.
  Proof.
    intros Hs. unfold ipv4_text. repeat (rewrite <- app_assoc; cbn [app]).
    assert (Hdot : forall r, ContainsRune ("."%char :: r) sep = ContainsRune r sep).
    { intros r. unfold ContainsRune. simpl in *. destruct Hs as [<-|[<-|[<-|[]]]]; reflexivity. }
    assert (Hin : In sep ["."; "/"; ":"; "%"]%char) by (right; exact Hs).
    repeat (rewrite existsb_digits by (auto; now apply octet_text_digits); try rewrite Hdot).
    reflexivity.
  Qed.

Lemma ipv4_text_cut_slash rest :
    Cut (ipv4_text a b c d ++ "/"%char :: rest) (B "/") = Some (ipv4_text a b c d, rest).
  Proof.
    unfold ipv4_text. repeat (rewrite <- app_assoc; cbn [app]). change (B "/") with ["/"%char].
    assert (Hdot : forall r, Cut ("."%char :: r) ["/"%char] =
      match Cut r ["/"%char] with Some (x, y) => Some ("."%char :: x, y) | None => None end) by reflexivity.
    repeat (rewrite Cut_digits by (auto; now apply octet_text_digits); try rewrite Hdot).
    change (Cut ("/"%char :: rest) ["/"%char]) with (Some (@nil ascii, rest)). cbv iota.
    now rewrite app_nil_r.
  Qed.

Lemma ipv4_text_nonempty rest : exists x l, ipv4_text a b c d ++ rest = x :: l.
  Proof.
    unfold ipv4_text. destruct (octet_text_digits a Ha) as [Hne _].
    destruct (octet_text a); [now destruct Hne|]. simpl. eauto.
  Qed.

  (** Parsing the text of a CIDR gives the address and the prefix back, or
      refuses it when host bits are set. *)
Lemma classifyValue_cidr4_text p pos :
    0 <= p <= 32 ->
    classifyValue (cidr4_text a b c d p) pos =
      if bool_decide (mask_ip [a; b; c; d] (CIDRMask p 4) = [a; b; c; d])
      then Ok (mkValue (ValCIDR4 [a; b; c; d] p) (str (cidr4_text a b c d p)) pos)
      else buildCIDR (cidr4_text a b c d p) pos.
  Proof.
    intros Hp. unfold cidr4_text. set (rest := "/"%char :: octet_text p).
    assert (Hpd : octet_text p <> [] /\ Forall (fun c => is_digit c = true) (octet_text p))
      by (apply octet_text_digits; lia).
    assert (Hcls : classifyValue (ipv4_text a b c d ++ rest) pos = buildCIDR (ipv4_text a b c d ++ rest) pos).
    { unfold classifyValue. destruct (ipv4_text_nonempty rest) as (x & l & E). rewrite E. rewrite <- E.
      rewrite ipv4_text_no_range, ipv4_text_contains; [reflexivity|simpl; auto|].
      unfold rest. change (B "..") with ("."%char :: ["."%char]).
      cbn [Cut HasPrefix Ascii.eqb Bool.eqb andb]. rewrite <- (app_nil_r (octet_text p)).
      now rewrite Cut_digits by (auto; apply Hpd). }
    rewrite Hcls. case_bool_decide as Hm; [|reflexivity].
    unfold buildCIDR, ParseCIDR, rest. rewrite ipv4_text_cut_slash, ParseAddr_ipv4_text by assumption.
    rewrite octet_text_dtoi by lia. rewrite Nat.eqb_refl.
    change (length [a; b; c; d]) with 4%nat. change (8 * Z.of_nat 4) with 32.
    destruct (32 <? p) eqn:E; bools; [lia|]. cbn [negb orb]. rewrite Hm.
    rewrite bool_decide_eq_true_2 by reflexivity. reflexivity.
  Qed.
End Ipv4Text.

(** A CIDR with host bits set is refused. *)
Lemma buildCIDR_host_bits raw pos ip network ones :
  ParseCIDR raw = Some (ip, network, ones) -> ip <> network -> is_ok (buildCIDR raw pos) = false.
Proof. intros E H. unfold buildCIDR. rewrite E, bool_decide_eq_false_2 by exact H. reflexivity. Qed.

Lemma ParseCIDR_cidr4_text a b c d p :
  0 <= a < 256 -> 0 <= b < 256 -> 0 <= c < 256 -> 0 <= d < 256 -> 0 <= p <= 32 ->
  ParseCIDR (cidr4_text a b c d p) = Some ([a; b; c; d], mask_ip [a; b; c; d] (CIDRMask p 4), p).
Proof.
  intros Ha Hb Hc Hd Hp. unfold ParseCIDR, cidr4_text.
  rewrite ipv4_text_cut_slash, ParseAddr_ipv4_text by assumption.
  rewrite octet_text_dtoi by lia. rewrite Nat.eqb_refl.
  change (length [a; b; c; d]) with 4%nat. change (8 * Z.of_nat 4) with 32.
  destruct (32 <? p) eqn:E; bools; [lia|]. reflexivity.
Qed.

Lemma ContainsRune_absent c s : Forall (fun x => Ascii.eqb c x = false) s -> ContainsRune s c = false.
Proof. unfold ContainsRune. induction 1 as [|x s Hx _ IH]; [reflexivity|]. cbn [existsb]. now rewrite Hx, IH. Qed.

Lemma CountByte_absent c s : Forall (fun x => Ascii.eqb c x = false) s -> CountByte s c = 0%nat.
Proof. unfold CountByte. induction 1 as [|x s Hx _ IH]; [reflexivity|]. cbn [List.filter]. now rewrite Hx. Qed.

Lemma mac_char_not c i s :
  isHexChar c = false -> Ascii.eqb c ":" = false -> isMACShape_loop i s = true ->
  Forall (fun x => Ascii.eqb c x = false) s.
Proof.
  intros Hc Hcol. revert i. induction s as [|x s IH]; intros i H; constructor.
  - apply isMACShape_loop_cons in H as [H _]. destruct (Ascii.eqb_spec c x) as [->|]; [|reflexivity].
    destruct (_ =? 0)%nat; [subst; discriminate|congruence].
  - apply isMACShape_loop_cons in H as [_ H]. now apply (IH (S i)).
Qed.

Lemma mac_has_colon s : length s = 17%nat -> isMACShape_loop 0 s = true -> ContainsRune s ":" = true.
Proof.
  destruct s as [|a [|b [|c s]]]; try discriminate. intros _ H.
  do 2 apply isMACShape_loop_cons in H as [_ H]. apply isMACShape_loop_cons in H as [H _].
  cbn in H. subst. unfold ContainsRune. cbn [existsb]. now rewrite Ascii.eqb_refl, !orb_true_r.
Qed.

(** ** Properties *)

(** A word of the shape [XX:XX:XX:XX:XX:XX] is always classified as a
    MAC literal of six octets; the classification never reads it as an IPv6
    address and never fails on it. *)
Theorem classifyValue_mac raw pos :
  isMACShape raw = true ->
  exists mac, classifyValue raw pos = Ok (mkValue (ValMAC mac) (str raw) pos) /\ octets 6 mac.
Proof.
  intros H. destruct (buildMAC_total raw pos H) as (mac & E & Ho). exists mac. split; [|exact Ho].
  rewrite <- E. pose proof H as Hs. unfold isMACShape in Hs.
  destruct (length raw =? 17)%nat eqn:Hl; [|discriminate]. cbn [negb] in Hs. bools.
  unfold classifyValue. destruct raw as [|x raw']; [discriminate|]. set (raw := x :: raw') in *.
  change (B "..") with ["."; "."]%char.
  rewrite Cut_absent by now apply (mac_char_not "."%char 0).
  rewrite ContainsRune_absent by now apply (mac_char_not "/"%char 0).
  rewrite CountByte_absent by now apply (mac_char_not "."%char 0).
  rewrite mac_has_colon by assumption. cbn [Nat.eqb andb]. now rewrite H.
Qed.

Lemma classifyValue_mac_witness :
  exists mac, classifyValue (B "aa:bb:cc:dd:ee:0F") (mkPos 1 5)
    = Ok (mkValue (ValMAC mac) "aa:bb:cc:dd:ee:0F" (mkPos 1 5)) /\ octets 6 mac.
Proof. apply (classifyValue_mac (B "aa:bb:cc:dd:ee:0F")). reflexivity. Defined.

(** The canonical text of an IPv4 CIDR is read back as exactly that
    address and prefix when no host bit is set, and refused when one is. *)
Theorem classifyValue_cidr4 a b c d p pos :
  0 <= a < 256 -> 0 <= b < 256 -> 0 <= c < 256 -> 0 <= d < 256 -> 0 <= p <= 32 ->
  (mask_ip [a; b; c; d] (CIDRMask p 4) = [a; b; c; d] ->
   classifyValue (cidr4_text a b c d p) pos
   = Ok (mkValue (ValCIDR4 [a; b; c; d] p) (str (cidr4_text a b c d p)) pos)) /\
  (mask_ip [a; b; c; d] (CIDRMask p 4) <> [a; b; c; d] ->
   is_ok (classifyValue (cidr4_text a b c d p) pos) = false).
Proof.
  intros Ha Hb Hc Hd Hp. rewrite classifyValue_cidr4_text by assumption. split; intros Hm.
  - now rewrite bool_decide_eq_true_2.
  - rewrite bool_decide_eq_false_2 by exact Hm.
    eapply buildCIDR_host_bits; [now apply ParseCIDR_cidr4_text|congruence].
Qed.

Lemma classifyValue_cidr4_witness :
  is_ok (classifyValue (cidr4_text 10 1 2 3 8) (mkPos 1 1)) = false /\
  is_ok (classifyValue (cidr4_text 10 0 0 0 8) (mkPos 1 1)) = true.
Proof.
  split.
  - apply (classifyValue_cidr4 10 1 2 3 8 (mkPos 1 1)); [lia..|discriminate].
  - now rewrite (proj1 (classifyValue_cidr4 10 0 0 0 8 (mkPos 1 1) ltac:(lia) ltac:(lia) ltac:(lia) ltac:(lia) ltac:(lia))).
Defined.
