(* ===== verification/Lexer.v ===== *)
(** * Lexer: the DSL tokeniser (pkg/kunai/lexer)

    A byte-level scanner with a structural mode ([Next]) and a value mode
    ([NextValue]). Scanning loops run on fuel [S (length src - pos)];
    [advance_while_spec] shows it never runs out. *)

From Stdlib Require Import ZArith Lia Bool Ascii String List.
From stdpp Require Import base list strings numbers option.
From S2P Require Import Prelude GoStd Ast ScanValue.
Local Open Scope Z_scope.
Local Open Scope go_scope.

(** ** Tokens (token.go) *)

Inductive TokenKind :=
| TokEOF | TokIdent | TokInt | TokValue | TokWide
| TokWhere | TokCapture | TokAll | TokAny | TokHeaders | TokAnd | TokOr | TokNot
| TokIn | TokHas | TokAction | TokTrue | TokFalse
| TokSlash | TokAt | TokLBracket | TokRBracket | TokLParen | TokRParen
| TokLBrace | TokRBrace | TokComma | TokDot | TokPipe | TokQuestion | TokPlus
| TokStar | TokMinus | TokPercent | TokAmp | TokCaret | TokShl | TokShr
| TokColon | TokEq
| TokEqEq | TokNeq | TokLt | TokLe | TokGt | TokGe.

#[export] Instance TokenKind_eq_dec : EqDecision TokenKind.
Proof. solve_decision. Defined.

Definition TokenKind_String (k : TokenKind) : string :=
  match k with
  | TokEOF => "EOF" | TokIdent => "identifier" | TokInt => "integer"
  | TokWide => "int<128> literal" | TokValue => "value"
  | TokWhere => "'where'" | TokCapture => "'capture'" | TokAll => "'all'"
  | TokAny => "'any'" | TokHeaders => "'headers'" | TokAnd => "'and'" | TokOr => "'or'"
  | TokNot => "'not'" | TokIn => "'in'" | TokHas => "'has'" | TokAction => "'action'"
  | TokTrue => "'true'" | TokFalse => "'false'"
  | TokSlash => "'/'" | TokAt => "'@'" | TokLBracket => "'['" | TokRBracket => "']'"
  | TokLParen => "'('" | TokRParen => "')'" | TokLBrace => "'{'" | TokRBrace => "'}'"
  | TokComma => "','" | TokDot => "'.'" | TokPipe => "'|'" | TokQuestion => "'?'"
  | TokPlus => "'+'" | TokStar => "'*'" | TokMinus => "'-'" | TokPercent => "'%'"
  | TokAmp => "'&'" | TokCaret => "'^'" | TokShl => "'<<'" | TokShr => "'>>'"
  | TokColon => "':'" | TokEq => "'='" | TokEqEq => "'=='" | TokNeq => "'!='"
  | TokLt => "'<'" | TokLe => "'<='" | TokGt => "'>'" | TokGe => "'>='"
  end.

(** [Int]/[IntHi]/[TValue] are meaningful for the kinds the source names;
    the other kinds leave Go's zero values. *)
Record Token := mkToken {
  Kind : TokenKind;
  Text : string;
  Int : Z;
  IntHi : Z;
  TValue : option Value;
  TPos : Position
}.

(** [Token{Kind: k, Text: text, Pos: pos}]. *)
Definition tok (k : TokenKind) (text : string) (pos : Position) : Token :=
  mkToken k text 0 0 None pos.

Definition keywords (text : string) : option TokenKind :=
  if String.eqb text "where" then Some TokWhere
  else if String.eqb text "capture" then Some TokCapture
  else if String.eqb text "all" then Some TokAll
  else if String.eqb text "any" then Some TokAny
  else if String.eqb text "headers" then Some TokHeaders
  else if String.eqb text "and" then Some TokAnd
  else if String.eqb text "or" then Some TokOr
  else if String.eqb text "not" then Some TokNot
  else if String.eqb text "in" then Some TokIn
  else if String.eqb text "has" then Some TokHas
  else if String.eqb text "action" then Some TokAction
  else if String.eqb text "true" then Some TokTrue
  else if String.eqb text "false" then Some TokFalse
  else None.

(** ** The scanner state (lexer.go) *)

Record SyntaxError := mkSyntaxError { EFile : string; EPos : Position; Message : error; Hint : string }.

Record Lexer := mkLexer { src : bytes; pos : nat; line : Z; col : Z; file : string }.

Definition New (src : bytes) (file : string) : Lexer := mkLexer src 0 1 1 file.

Record Snapshot := mkSnapshot { spos : nat; sline : Z; scol : Z }.

Definition Save (l : Lexer) : Snapshot := mkSnapshot (pos l) (line l) (col l).
Definition Restore (s : Snapshot) (l : Lexer) : Lexer :=
  mkLexer (src l) (spos s) (sline s) (scol s) (file l).

Definition currentPos (l : Lexer) : Position := mkPos (line l) (col l).

Definition newline : ascii := "010"%char.

Definition advance (l : Lexer) : Lexer :=
  match src l !! pos l with
  | None => l
  | Some b =>
      if Ascii.eqb b newline
      then mkLexer (src l) (S (pos l)) (line l + 1) 1 (file l)
      else mkLexer (src l) (S (pos l)) (line l) (col l + 1) (file l)
  end.

Definition syntaxErr {A} (l : Lexer) (p : Position) (m : error) : result SyntaxError A :=
  Err (mkSyntaxError (file l) p m "").

(** [for l.pos < len(l.src) && f(l.src[l.pos]) { l.advance() }]. *)
Fixpoint advance_while_fuel (fuel : nat) (f : ascii -> bool) (l : Lexer) : Lexer :=
  match fuel with
  | O => l
  | S fuel' =>
      match src l !! pos l with
      | Some b => if f b then advance_while_fuel fuel' f (advance l) else l
      | None => l
      end
  end.

Definition advance_while (f : ascii -> bool) (l : Lexer) : Lexer :=
  advance_while_fuel (S (length (src l) - pos l)) f l.

Definition is_trivia (b : ascii) : bool :=
  Ascii.eqb b " " || Ascii.eqb b "009" || Ascii.eqb b newline || Ascii.eqb b "013".

Definition skipTrivia (l : Lexer) : Lexer := advance_while is_trivia l.

(** [l.src[start:l.pos]]. *)
Definition slice_from (start : nat) (l : Lexer) : bytes :=
  take (pos l - start) (drop start (src l)).

Definition atHex (l : Lexer) : bool :=
  match src l !! pos l with Some b => isHexChar b | None => false end.

Fixpoint advance_n (n : nat) (l : Lexer) : Lexer :=
  match n with O => l | S n' => advance_n n' (advance l) end.

(** [consume(s)]: [Some] of the advanced lexer when the cursor is at [s]. *)
Definition consume (s : bytes) (l : Lexer) : option Lexer :=
  if HasPrefix (drop (pos l) (src l)) s then Some (advance_n (length s) l) else None.

Definition widePrefix : bytes := B "int<".

Definition atWidePrefix (l : Lexer) : bool := HasPrefix (drop (pos l) (src l)) widePrefix.

Definition readIdent (p : Position) (l : Lexer) : Token * Lexer :=
  let start := pos l in
  let l := advance_while isIdentCont l in
  let text := str (slice_from start l) in
  match keywords text with
  | Some kw => (tok kw text p, l)
  | None => (tok TokIdent text p, l)
  end.

(** [big.Int.SetString(text, 0)]: the base-prefixed value, unbounded.
    [readInt] passes digit runs without underscores. *)
Definition bigSetString0 (text : bytes) : option Z :=
  let '(b, digits) := base_prefix text in
  (fix go (s : bytes) (n : Z) : option Z :=
     match s with
     | [] => Some n
     | c :: s' =>
         match digit_val c with
         | Some d => if (b <=? d)%Z then None else go s' (n * b + d)%Z
         | None => None
         end
     end) digits 0.

Definition readInt (p : Position) (l : Lexer) : result SyntaxError (Token * Lexer) :=
  let start := pos l in
  let hexPrefix :=
    match src l !! pos l, src l !! S (pos l) with
    | Some "0"%char, Some x => Ascii.eqb x "x" || Ascii.eqb x "X"
    | _, _ => false
    end in
  let? l :=
    if hexPrefix then
      let l := advance (advance l) in
      if negb (atHex l) then syntaxErr l p (Errorf "malformed hex integer literal" [])
      else Ok (advance_while isHexChar l)
    else Ok (advance_while is_digit l) in
  let text := slice_from start l in
  match ParseUint text 0 64 with
  | Err err =>
      match if (length text <=? 40)%nat then bigSetString0 text else None with
      | Some b =>
          if b <? 2 ^ 128
          then syntaxErr l p (Errorf "integer literal %s exceeds 64 bits; write int<128>(%s) for a wider value"
                                [AStr (str text); AInt b])
          else syntaxErr l p (Errorf "invalid integer literal %q: %v" [AStr (str text); AErr err])
      | None => syntaxErr l p (Errorf "invalid integer literal %q: %v" [AStr (str text); AErr err])
      end
  | Ok v => Ok (mkToken TokInt (str text) v 0 None p, l)
  end.

(** [big.Int.SetString(digits, 10)] of a digit run. *)
Definition decimal_value (digits : bytes) : Z :=
  fold_left (fun n c => n * 10 + (ord c - 48)) digits 0.

Definition readWide (p : Position) (l : Lexer) : result SyntaxError (Token * Lexer) :=
  let start := pos l in
  let l := advance_n (length widePrefix) l in
  let wStart := pos l in
  let l := advance_while is_digit l in
  let width := str (slice_from wStart l) in
  match if String.eqb width "128" then consume (B ">(") l else None with
  | None =>
      syntaxErr l p (Errorf "a typed literal is written int<128>(n); int<%s> is not supported" [AStr width])
  | Some l =>
      let dStart := pos l in
      let l := advance_while is_digit l in
      let digits := slice_from dStart l in
      match if negb (length digits =? 0)%nat then consume (B ")") l else None with
      | None => syntaxErr l p (Errorf "int<128>(n) takes a decimal literal n" [])
      | Some l =>
          let b := if (length digits <=? 39)%nat then Some (decimal_value digits) else None in
          match b with
          | Some b =>
              if 2 ^ 128 <=? b
              then syntaxErr l p (Errorf "int<128>(%s) does not fit Int<128>" [AStr (str digits)])
              else Ok (mkToken TokWide (str (slice_from start l)) (u64 b) (Z.shiftr b 64) None p, l)
          | None =>
              syntaxErr l p (Errorf "int<128>(%s) does not fit Int<128>" [AStr (str (take 39 digits) +:+ "…")])
          end
      end
  end.

(** The two-character operators. *)
Definition twoCharOp (b n : ascii) : option (TokenKind * string) :=
  if Ascii.eqb b "=" && Ascii.eqb n "=" then Some (TokEqEq, "==")
  else if Ascii.eqb b "!" && Ascii.eqb n "=" then Some (TokNeq, "!=")
  else if Ascii.eqb b "<" && Ascii.eqb n "=" then Some (TokLe, "<=")
  else if Ascii.eqb b ">" && Ascii.eqb n "=" then Some (TokGe, ">=")
  else if Ascii.eqb b "<" && Ascii.eqb n "<" then Some (TokShl, "<<")
  else if Ascii.eqb b ">" && Ascii.eqb n ">" then Some (TokShr, ">>")
  else None.

(** The single-character punctuation. *)
Definition oneCharTok (b : ascii) : option (TokenKind * string) :=
  match b with
  | "/"%char => Some (TokSlash, "/")
  | "@"%char => Some (TokAt, "@")
  | "["%char => Some (TokLBracket, "[")
  | "]"%char => Some (TokRBracket, "]")
  | "("%char => Some (TokLParen, "(")
  | ")"%char => Some (TokRParen, ")")
  | "{"%char => Some (TokLBrace, "{")
  | "}"%char => Some (TokRBrace, "}")
  | ","%char => Some (TokComma, ",")
  | "."%char => Some (TokDot, ".")
  | "|"%char => Some (TokPipe, "|")
  | "?"%char => Some (TokQuestion, "?")
  | "+"%char => Some (TokPlus, "+")
  | "*"%char => Some (TokStar, "*")
  | "-"%char => Some (TokMinus, "-")
  | "%"%char => Some (TokPercent, "%")
  | "&"%char => Some (TokAmp, "&")
  | "^"%char => Some (TokCaret, "^")
  | ":"%char => Some (TokColon, ":")
  | "="%char => Some (TokEq, "=")
  | "<"%char => Some (TokLt, "<")
  | ">"%char => Some (TokGt, ">")
  | _ => None
  end.

Definition Next (l : Lexer) : result SyntaxError (Token * Lexer) :=
  let l := skipTrivia l in
  match src l !! pos l with
  | None => Ok (tok TokEOF "" (currentPos l), l)
  | Some b =>
      let p := currentPos l in
      if isIdentStart b then
        if atWidePrefix l then readWide p l else Ok (readIdent p l)
      else if (48 <=? ord b) && (ord b <=? 57) then readInt p l
      else
        match match src l !! S (pos l) with Some n => twoCharOp b n | None => None end with
        | Some (k, text) => Ok (tok k text p, advance (advance l))
        | None =>
            let l := advance l in
            match oneCharTok b with
            | Some (k, text) => Ok (tok k text p, l)
            | None => syntaxErr l p (Errorf "unexpected character %q" [AByte b])
            end
        end
  end.

Definition NextValue (l : Lexer) : result SyntaxError (Token * Lexer) :=
  let l := skipTrivia l in
  match src l !! pos l with
  | None => Ok (tok TokEOF "" (currentPos l), l)
  | Some b0 =>
      let p := currentPos l in
      if atWidePrefix l
      then syntaxErr l p (Errorf "int<128>(n) is only valid in a where expression" [])
      else
        let start := pos l in
        let l := advance_while isValueByte l in
        if (pos l =? start)%nat
        then syntaxErr l p (Errorf "expected a value, got %q" [AByte b0])
        else
          let raw := slice_from start l in
          match classifyValue raw p with
          | Err err => syntaxErr l p (Errorf "%v" [AErr err])
          | Ok v => Ok (mkToken TokValue (str raw) 0 0 (Some v) p, l)
          end
  end.
(** ** What the scanner promises

    [consumed l bs l']: [l'] is [l] after reading exactly the bytes [bs]. *)

Definition pos_step (lc : Z * Z) (b : ascii) : Z * Z :=
  if Ascii.eqb b newline then (lc.1 + 1, 1) else (lc.1, lc.2 + 1).

(** Line and column of the byte that follows [prefix]. *)
Definition pos_after (prefix : bytes) : Position :=
  let '(ln, c) := fold_left pos_step prefix (1, 1) in mkPos ln c.

Definition consumed (l : Lexer) (bs : bytes) (l' : Lexer) : Prop :=
  src l' = src l /\ file l' = file l /\ pos l' = (pos l + length bs)%nat /\
  drop (pos l) (src l) = bs ++ drop (pos l') (src l) /\
  (line l', col l') = fold_left pos_step bs (line l, col l).

(** The cursor is in bounds and its line and column are the position of
    the next byte. *)
Definition wf (l : Lexer) : Prop :=
  (pos l <= length (src l))%nat /\ currentPos l = pos_after (take (pos l) (src l)).

(** ** Lemmas *)

Lemma consumed_refl l : consumed l [] l.
Proof. repeat split; simpl; auto. Qed.

Lemma consumed_trans l1 b1 l2 b2 l3 :
  consumed l1 b1 l2 -> consumed l2 b2 l3 -> consumed l1 (b1 ++ b2) l3.
Proof.
  intros (S1 & F1 & P1 & D1 & L1) (S2 & F2 & P2 & D2 & L2). unfold consumed.
  rewrite S2, S1, F2, F1, P2, P1, length_app, fold_left_app, <- L1, <- L2.
  repeat split; try lia.
  rewrite D1, <- app_assoc. f_equal. rewrite S1, P2, P1 in D2. rewrite <- P1 in D2 at 1. rewrite P1 in D2.
  rewrite P1. rewrite D2. do 2 f_equal.
Qed.

Lemma consumed_src l bs l' : consumed l bs l' -> src l' = src l.
Proof. now intros [H _]. Qed.

Lemma consumed_pos l bs l' : consumed l bs l' -> pos l' = (pos l + length bs)%nat.
Proof. now intros (_ & _ & H & _). Qed.

Lemma consumed_slice l bs l' : consumed l bs l' -> slice_from (pos l) l' = bs.
Proof.
  intros (S & _ & P & D & _). unfold slice_from. rewrite S, P, D.
  replace (pos l + length bs - pos l)%nat with (length bs) by lia. apply take_app_length.
Qed.

Lemma consumed_slice_mid l0 b0 l bs l' :
  consumed l0 b0 l -> consumed l bs l' -> slice_from (pos l0) l' = b0 ++ bs.
Proof. intros H1 H2. eapply consumed_slice, consumed_trans; eassumption. Qed.

Lemma consumed_take l bs l' :
  consumed l bs l' -> (pos l <= length (src l))%nat ->
  take (pos l') (src l') = take (pos l) (src l) ++ bs.
Proof.
  intros (S & _ & P & D & _) Hle. rewrite S, P.
  rewrite <- (take_drop (pos l) (src l)) at 1.
  rewrite take_app. rewrite length_take, Nat.min_l by exact Hle.
  rewrite take_take, Nat.min_r by lia. f_equal. rewrite D.
  replace (pos l + length bs - pos l)%nat with (length bs) by lia. apply take_app_length.
Qed.

Lemma consumed_bound l bs l' :
  consumed l bs l' -> (pos l <= length (src l))%nat -> (pos l' <= length (src l'))%nat.
Proof.
  intros (S & _ & P & D & _) Hle. rewrite S.
  apply (f_equal length) in D. rewrite length_app, !length_drop in D. lia.
Qed.

Lemma consumed_wf l bs l' : consumed l bs l' -> wf l -> wf l'.
Proof.
  intros H [Hle Hp]. split; [eapply consumed_bound; eassumption|].
  rewrite (consumed_take _ _ _ H Hle). destruct H as (_ & _ & _ & _ & L).
  unfold currentPos, pos_after in *. rewrite fold_left_app.
  destruct (fold_left pos_step (take (pos l) (src l)) (1, 1)) as [a b].
  injection Hp as Ha Hb. rewrite Ha, Hb in L. rewrite <- L. reflexivity.
Qed.

Lemma advance_consumed l b : src l !! pos l = Some b -> consumed l [b] (advance l).
Proof.
  intros H. unfold advance. rewrite H.
  assert (drop (pos l) (src l) = [b] ++ drop (S (pos l)) (src l)) by now apply drop_lookup_cons.
  unfold consumed, pos_step. simpl. case_goal; simpl; repeat split; try assumption; lia.
Qed.

Lemma advance_none l : src l !! pos l = None -> advance l = l.
Proof. intros H. unfold advance. now rewrite H. Qed.

Lemma advance_while_fuel_spec f fuel l :
  (length (src l) - pos l < fuel)%nat ->
  exists bs, consumed l bs (advance_while_fuel fuel f l) /\ Forall (fun b => f b = true) bs /\
    forall b, src l !! pos (advance_while_fuel fuel f l) = Some b -> f b = false.
Proof.
  revert l. induction fuel as [|fuel IH]; intros l Hf; [lia|]. simpl.
  destruct (src l !! pos l) as [b|] eqn:Hb.
  - destruct (f b) eqn:Hfb.
    + pose proof (advance_consumed l b Hb) as Ha.
      pose proof (consumed_pos _ _ _ Ha) as Hp. pose proof (consumed_src _ _ _ Ha) as Hs.
      apply lookup_lt_Some in Hb. simpl in Hp.
      destruct (IH (advance l)) as (bs & Hc & Hall & Hend); [rewrite Hs; lia|].
      exists (b :: bs). split; [|split].
      * change (b :: bs) with ([b] ++ bs). eapply consumed_trans; eassumption.
      * now constructor.
      * rewrite <- Hs. exact Hend.
    + exists []. split; [apply consumed_refl|]. split; [constructor|]. rewrite Hb. congruence.
  - exists []. split; [apply consumed_refl|]. split; [constructor|]. rewrite Hb. discriminate.
Qed.

(** The fuel of [advance_while] is always enough: it stops at the end of
    the input or at a byte the class rejects. *)
Lemma advance_while_spec f l :
  exists bs, consumed l bs (advance_while f l) /\ Forall (fun b => f b = true) bs /\
    forall b, src l !! pos (advance_while f l) = Some b -> f b = false.
Proof. apply advance_while_fuel_spec. lia. Qed.

Lemma advance_n_consumed bs l r :
  drop (pos l) (src l) = bs ++ r -> consumed l bs (advance_n (length bs) l).
Proof.
  revert l. induction bs as [|b bs IH]; intros l H; [apply consumed_refl|]. simpl.
  assert (Hb : src l !! pos l = Some b).
  { now apply drop_head_lookup with (r := bs ++ r). }
  pose proof (advance_consumed l b Hb) as Ha.
  change (b :: bs) with ([b] ++ bs). eapply consumed_trans; [exact Ha|]. apply IH.
  destruct Ha as (S & _ & P & D & _). rewrite S. rewrite D in H. simpl in H. now injection H.
Qed.

Lemma consume_consumed s l l' : consume s l = Some l' -> consumed l s l'.
Proof.
  unfold consume. case_goal; [|discriminate]. intros [= <-].
  apply HasPrefix_inv in E as [r E]. eapply advance_n_consumed, E.
Qed.

#[export] Hint Resolve consumed_refl advance_consumed consume_consumed : go.

(** A scan loop's result by its characteristic facts. *)
Ltac scan f l :=
  let bs := fresh "bs" in let Hc := fresh "Hc" in let Hall := fresh "Hall" in
  let Hend := fresh "Hend" in let l' := fresh "l" in let El := fresh "El" in
  destruct (advance_while_spec f l) as (bs & Hc & Hall & Hend);
  set (l' := advance_while f l) in *.

(** What a successful scan from [l] returns: [ws] is the skipped trivia,
    the token's text is the bytes read after it, and its position is the
    position of its first byte. *)
Definition scanned (l : Lexer) (t : Token) (l' : Lexer) : Prop :=
  exists ws l0, consumed l ws l0 /\ Forall (fun b => is_trivia b = true) ws /\
    consumed l0 (B (Text t)) l' /\ TPos t = currentPos l0 /\
    match Kind t with
    | TokEOF => Text t = ""%string /\ pos l' = length (src l)
    | _ => Text t <> ""%string
    end.

Lemma B_str bs : B (str bs) = bs.
Proof. apply list_ascii_string_inv. Qed.

Lemma str_nonempty bs : bs <> [] -> str bs <> ""%string.
Proof. intros H E. apply H. rewrite <- (B_str bs), E. reflexivity. Qed.

Lemma advance_while_first f l b :
  src l !! pos l = Some b -> f b = true ->
  exists bs, consumed l (b :: bs) (advance_while f l) /\ Forall (fun b => f b = true) (b :: bs).
Proof.
  intros Hb Hf. destruct (advance_while_spec f l) as (bs & Hc & Hall & Hend).
  destruct bs as [|b' bs].
  - pose proof (consumed_pos _ _ _ Hc) as Hp. simpl in Hp. rewrite Nat.add_0_r in Hp.
    rewrite Hp in Hend. specialize (Hend _ Hb). congruence.
  - exists bs. destruct Hc as (S & F & P & D & L).
    assert (b' = b).
    { apply drop_head_lookup in D. congruence. }
    subst b'. split; [now repeat split|exact Hall].
Qed.

Lemma readIdent_spec p l b t l' :
  src l !! pos l = Some b -> isIdentStart b = true -> readIdent p l = (t, l') ->
  consumed l (B (Text t)) l' /\ TPos t = p /\ Text t <> ""%string /\ Kind t <> TokEOF /\
  isIdentLiteral (B (Text t)) = true /\
  Kind t = match keywords (Text t) with Some k => k | None => TokIdent end.
Proof.
  intros Hb Hi. unfold readIdent.
  assert (Hcont : isIdentCont b = true) by (unfold isIdentCont; now rewrite Hi).
  destruct (advance_while_first isIdentCont l b Hb Hcont) as (bs & Hc & Hall).
  rewrite (consumed_slice _ _ _ Hc).
  assert (Hk : forall text k, keywords text = Some k -> k <> TokEOF).
  { intros text k. unfold keywords. repeat case_goal; intros [= <-]; discriminate. }
  assert (Hne : str (b :: bs) <> ""%string) by now apply str_nonempty.
  assert (Hlit : isIdentLiteral (b :: bs) = true).
  { unfold isIdentLiteral. rewrite Hi. apply forallb_forall. rewrite <- List.Forall_forall.
    now inversion Hall. }
  remember (b :: bs) as run eqn:Er. clear Er.
  destruct (keywords (str run)) as [k|] eqn:E; intros [= <- <-]; cbn [Text TPos Kind tok];
    rewrite B_str, E; splits; eauto; discriminate.
Qed.

Lemma readInt_spec p l b t l' :
  src l !! pos l = Some b -> is_digit b = true -> readInt p l = Ok (t, l') ->
  consumed l (B (Text t)) l' /\ TPos t = p /\ Text t <> ""%string /\ Kind t = TokInt /\
  ParseUint (B (Text t)) 0 64 = Ok (Int t).
Proof.
  intros Hb Hd H. unfold readInt in H.
  apply result_bind_ok in H as (l1 & H1 & H).
  assert (Hc : exists bs, consumed l (b :: bs) l1).
  { destruct (match src l !! pos l with Some _ => _ | None => _ end).
    - case_if H1; [discriminate|]. injection H1 as <-.
      pose proof (advance_consumed l b Hb) as Ha.
      unfold atHex in E.
      destruct (src (advance (advance l)) !! pos (advance (advance l))) as [h|] eqn:Hh; [|discriminate].
      apply negb_false_iff in E.
      destruct (advance_while_first isHexChar _ h Hh E) as (bs & Hx & _).
      destruct (src (advance l) !! pos (advance l)) as [x|] eqn:Hx1.
      + pose proof (advance_consumed _ x Hx1) as Ha2. exists (x :: h :: bs).
        change (b :: x :: h :: bs) with ([b] ++ [x] ++ h :: bs).
        eapply consumed_trans; [exact Ha|]. eapply consumed_trans; [exact Ha2|exact Hx].
      + exfalso. rewrite (advance_none _ Hx1) in Hh. congruence.
    - injection H1 as <-. destruct (advance_while_first is_digit l b Hb Hd) as (bs & Hx & _). eauto. }
  destruct Hc as (bs & Hc). rewrite (consumed_slice _ _ _ Hc) in H.
  assert (Hne : str (b :: bs) <> ""%string) by now apply str_nonempty.
  remember (b :: bs) as run eqn:Er. clear Er.
  destruct (ParseUint run 0 64) as [v|err] eqn:Ev.
  - injection H as <- <-. cbn [Text TPos Kind Int]. rewrite B_str. splits; auto.
  - unfold syntaxErr in H. repeat (case_in H; try discriminate).
Qed.

Lemma fold_decimal_nonneg ds n :
  0 <= n -> Forall (fun c => is_digit c = true) ds ->
  0 <= fold_left (fun n c => n * 10 + (ord c - 48)) ds n.
Proof.
  intros Hn Hd. revert n Hn. induction Hd as [|c ds Hc Hd IH]; intros n Hn; [exact Hn|].
  simpl. apply IH. apply is_digit_range in Hc. lia.
Qed.

(** [int<128>(n)]: the two halves of the token are [n]. *)
Lemma readWide_spec p l t l' :
  readWide p l = Ok (t, l') -> atWidePrefix l = true ->
  exists ds, consumed l (B (Text t)) l' /\ TPos t = p /\ Text t <> ""%string /\ Kind t = TokWide /\
  B (Text t) = B "int<128>(" ++ ds ++ B ")" /\ Forall (fun c => is_digit c = true) ds /\
  in_u64 (Int t) /\ in_u64 (IntHi t) /\ Int t + two64 * IntHi t = decimal_value ds.
Proof.
  intros H Hw. unfold readWide in H.
  apply HasPrefix_inv in Hw as [r Hr].
  pose proof (advance_n_consumed _ _ _ Hr) as H1. set (l1 := advance_n (length widePrefix) l) in *.
  destruct (advance_while_spec is_digit l1) as (w & H2 & _ & _). set (l2 := advance_while is_digit l1) in *.
  rewrite (consumed_slice _ _ _ H2) in H.
  destruct (String.eqb (str w) "128") eqn:Ew; [|discriminate].
  destruct (consume (B ">(") l2) as [l3|] eqn:H3; [|discriminate]. apply consume_consumed in H3.
  destruct (advance_while_spec is_digit l3) as (ds & H4 & Hds & _). set (l4 := advance_while is_digit l3) in *.
  rewrite (consumed_slice _ _ _ H4) in H.
  destruct (negb (length ds =? 0)%nat); [|discriminate].
  destruct (consume (B ")") l4) as [l5|] eqn:H5; [|discriminate]. apply consume_consumed in H5.
  apply String.eqb_eq in Ew. apply (f_equal B) in Ew. rewrite B_str in Ew. subst w.
  assert (Hall : consumed l (B "int<128>(" ++ ds ++ B ")") l5).
  { change (B "int<128>(") with (widePrefix ++ B "128" ++ B ">("). rewrite <- !app_assoc.
    eapply consumed_trans; [exact H1|]. eapply consumed_trans; [exact H2|].
    eapply consumed_trans; [exact H3|]. eapply consumed_trans; eassumption. }
  rewrite (consumed_slice _ _ _ Hall) in H. exists ds.
  assert (Hne : str (B "int<128>(" ++ ds ++ B ")") <> ""%string) by now apply str_nonempty.
  remember (B "int<128>(" ++ ds ++ B ")") as run eqn:Er.
  destruct (length ds <=? 39)%nat; [|discriminate].
  case_if H; [discriminate|]. injection H as <- <-. cbn [Text TPos Kind Int IntHi]. rewrite B_str.
  pose proof (fold_decimal_nonneg ds 0 ltac:(lia) Hds) as Hnn. fold (decimal_value ds) in Hnn. bools.
  rewrite Z.shiftr_div_pow2 by lia. change (2 ^ 64) with two64. change (2 ^ 128) with (two64 * two64) in *.
  assert (0 < two64) by reflexivity.
  splits; auto with go; try discriminate.
  - split; [apply Z.div_pos|apply Z.div_lt_upper_bound]; lia.
  - unfold u64. rewrite Z.add_comm. symmetry. apply Z.div_mod. lia.
Qed.

Lemma twoCharOp_spec b n k text :
  twoCharOp b n = Some (k, text) -> B text = [b; n] /\ k <> TokEOF.
Proof.
  unfold twoCharOp. repeat case_goal; intros [= <- <-]; bools;
    repeat match goal with E : Ascii.eqb _ _ = true |- _ => apply Ascii.eqb_eq in E; subst end;
    split; (reflexivity || discriminate).
Qed.

Lemma oneCharTok_spec b k text :
  oneCharTok b = Some (k, text) -> B text = [b] /\ k <> TokEOF.
Proof.
  destruct b as [[] [] [] [] [] [] [] []]; cbv; intros [= <- <-]; split; (reflexivity || discriminate).
Qed.

Lemma scanned_intro l ws l0 t l' p :
  consumed l ws l0 -> Forall (fun b => is_trivia b = true) ws -> p = currentPos l0 ->
  consumed l0 (B (Text t)) l' /\ TPos t = p /\ Text t <> ""%string /\ Kind t <> TokEOF ->
  scanned l t l'.
Proof.
  intros H1 H2 -> (H3 & H4 & H5 & H6). exists ws, l0. splits; auto.
  now destruct (Kind t).
Qed.

Lemma scanned_EOF l ws l0 :
  consumed l ws l0 -> Forall (fun b => is_trivia b = true) ws -> src l0 !! pos l0 = None ->
  (pos l <= length (src l))%nat -> scanned l (tok TokEOF "" (currentPos l0)) l0.
Proof.
  intros H1 H2 H3 Hle. exists ws, l0. splits; auto with go.
  cbn [Kind Text tok]. split; [reflexivity|]. apply lookup_ge_None in H3.
  pose proof (consumed_bound _ _ _ H1 Hle). rewrite (consumed_src _ _ _ H1) in *. lia.
Qed.

Lemma Next_scanned l t l' :
  (pos l <= length (src l))%nat -> Next l = Ok (t, l') -> scanned l t l'.
Proof.
  intros Hle. unfold Next, skipTrivia.
  destruct (advance_while_spec is_trivia l) as (ws & Hws & Htr & _).
  set (l0 := advance_while is_trivia l) in *.
  destruct (src l0 !! pos l0) as [b|] eqn:Hb; [|intros [= <- <-]; eapply scanned_EOF; eassumption].
  destruct (isIdentStart b) eqn:Hi; [|destruct ((48 <=? ord b) && (ord b <=? 57)) eqn:Hd].
  - destruct (atWidePrefix l0) eqn:Hw; intros H.
    + apply readWide_spec in H as (ds & H1 & H2 & H3 & H4 & _); [|exact Hw].
      eapply scanned_intro; eauto. splits; auto. now rewrite H4.
    + injection H as H. eapply readIdent_spec in H as (H1 & H2 & H3 & H4 & _); eauto.
      eapply scanned_intro; eauto.
  - intros H. eapply readInt_spec in H as (H1 & H2 & H3 & H4 & _); eauto.
    eapply scanned_intro; eauto. splits; auto. now rewrite H4.
  - pose proof (advance_consumed _ _ Hb) as Ha.
    destruct (match src l0 !! S (pos l0) with Some n => twoCharOp b n | None => None end)
      as [[k text]|] eqn:E2.
    + destruct (src l0 !! S (pos l0)) as [n|] eqn:Hn; [|discriminate].
      apply twoCharOp_spec in E2 as [Et Hk]. intros [= <- <-].
      eapply scanned_intro; eauto. cbn [Text TPos Kind tok]. rewrite Et. splits; auto.
      * change [b; n] with ([b] ++ [n]). eapply consumed_trans; [exact Ha|].
        apply advance_consumed. rewrite (consumed_src _ _ _ Ha), (consumed_pos _ _ _ Ha).
        now rewrite Nat.add_1_r.
      * intros ->. discriminate.
    + destruct (oneCharTok b) as [[k text]|] eqn:E1; [|discriminate].
      apply oneCharTok_spec in E1 as [Et Hk]. intros [= <- <-].
      eapply scanned_intro; eauto. cbn [Text TPos Kind tok]. rewrite Et. splits; auto.
      intros ->. discriminate.
Qed.

Lemma NextValue_scanned l t l' :
  (pos l <= length (src l))%nat -> NextValue l = Ok (t, l') ->
  scanned l t l' /\
  (Kind t = TokEOF \/
   Kind t = TokValue /\
   (exists v, TValue t = Some v /\ classifyValue (B (Text t)) (TPos t) = Ok v) /\
   Forall (fun b => isValueByte b = true) (B (Text t)) /\
   forall b, src l' !! pos l' = Some b -> isValueByte b = false).
Proof.
  intros Hle. unfold NextValue, skipTrivia.
  destruct (advance_while_spec is_trivia l) as (ws & Hws & Htr & _).
  set (l0 := advance_while is_trivia l) in *.
  destruct (src l0 !! pos l0) as [b|] eqn:Hb;
    [|intros [= <- <-]; split; [eapply scanned_EOF; eassumption|now left]].
  destruct (atWidePrefix l0); [discriminate|].
  destruct (advance_while_spec isValueByte l0) as (bs & Hc & Hall & Hend).
  set (l1 := advance_while isValueByte l0) in *.
  rewrite (consumed_slice _ _ _ Hc), (consumed_pos _ _ _ Hc).
  destruct (pos l0 + length bs =? pos l0)%nat eqn:E; [discriminate|]. bools.
  assert (Hne : str bs <> ""%string) by (apply str_nonempty; intros ->; simpl in E; lia).
  destruct (classifyValue bs (currentPos l0)) as [v|] eqn:Ev; [|discriminate].
  intros [= <- <-]. split.
  - eapply scanned_intro; eauto. cbn [Text TPos Kind]. rewrite B_str. now splits.
  - right. cbn [Text TPos Kind TValue]. rewrite B_str. splits; auto.
    + now exists v.
    + rewrite (consumed_src _ _ _ Hc). exact Hend.
Qed.

Lemma scanned_consumed l t l' :
  scanned l t l' -> exists ws, Forall (fun b => is_trivia b = true) ws /\ consumed l (ws ++ B (Text t)) l'.
Proof.
  intros (ws & l0 & H1 & H2 & H3 & _). exists ws. split; [exact H2|]. eapply consumed_trans; eassumption.
Qed.

Lemma scanned_wf l t l' : scanned l t l' -> wf l -> wf l'.
Proof. intros H. apply scanned_consumed in H as (ws & _ & H). eapply consumed_wf, H. Qed.

(** A token other than the end of input consumes at least one byte. *)
Lemma scanned_progress l t l' : scanned l t l' -> Kind t <> TokEOF -> (pos l < pos l')%nat.
Proof.
  intros (ws & l0 & H1 & _ & H3 & _ & H5) Hk.
  apply consumed_pos in H1, H3.
  assert (B (Text t) <> []).
  { intros E. apply (f_equal str) in E. unfold str, B in E.
    rewrite string_list_ascii_inv in E. destruct (Kind t); auto. }
  destruct (B (Text t)); [easy|]. simpl in H3. lia.
Qed.

Lemma New_wf s f : wf (New s f).
Proof. split; [simpl; lia|]. now destruct s. Qed.

Lemma Restore_Save l bs l' : consumed l bs l' -> Restore (Save l) l' = l.
Proof. intros (S & F & _). unfold Restore, Save. simpl. rewrite S, F. now destruct l. Qed.

#[export] Hint Resolve New_wf scanned_wf : go.

(** ** Facts about the tokens themselves *)

(** An identifier that is not a keyword. *)
Definition ident_ok (s : string) : Prop := isIdentLiteral (B s) = true /\ keywords s = None.

Definition tok_ok (t : Token) : Prop :=
  match Kind t with
  | TokIdent => ident_ok (Text t)
  | TokInt => in_u64 (Int t)
  | TokWide => in_u64 (Int t) /\ in_u64 (IntHi t)
  | TokValue => False
  | _ => True
  end.

Lemma keywords_not_value text k :
  keywords text = Some k -> k <> TokIdent /\ k <> TokInt /\ k <> TokWide /\ k <> TokValue.
Proof. unfold keywords. repeat case_goal; intros [= <-]; splits; discriminate. Qed.

Lemma twoCharOp_kind b n k text : twoCharOp b n = Some (k, text) -> tok_ok (tok k text (mkPos 0 0)).
Proof. unfold twoCharOp. repeat case_goal; intros [= <- <-]; exact I. Qed.

Lemma oneCharTok_kind b k text : oneCharTok b = Some (k, text) -> tok_ok (tok k text (mkPos 0 0)).
Proof.
  destruct b as [[] [] [] [] [] [] [] []]; cbn [oneCharTok]; intros H; try discriminate H;
    injection H as <- <-; exact I.
Qed.

Lemma Next_tok_ok l t l' : Next l = Ok (t, l') -> tok_ok t.
Proof.
  unfold Next. set (l0 := skipTrivia l).
  destruct (src l0 !! pos l0) as [b|] eqn:Hb; [|intros [= <- <-]; exact I].
  destruct (isIdentStart b) eqn:Hi; [|destruct ((48 <=? ord b) && (ord b <=? 57)) eqn:Hd].
  - destruct (atWidePrefix l0) eqn:Hw; intros H; unfold tok_ok.
    + apply readWide_spec in H as (ds & _ & _ & _ & -> & _ & _ & H1 & H2 & _); auto.
    + injection H as H. eapply readIdent_spec in H as (_ & _ & _ & _ & H1 & H2); eauto.
      destruct (keywords (Text t)) as [k|] eqn:Ek; rewrite H2; [|now split].
      apply keywords_not_value in Ek as (? & ? & ? & ?). destruct k; try exact I; congruence.
  - intros H. eapply readInt_spec in H as (_ & _ & _ & H4 & H5); eauto.
    unfold tok_ok. rewrite H4. eapply ParseUint_in_u64, H5.
  - destruct (match src l0 !! S (pos l0) with Some n => twoCharOp b n | None => None end)
      as [[k text]|] eqn:E2.
    + destruct (src l0 !! S (pos l0)) as [n|] eqn:Hn; [|discriminate].
      apply twoCharOp_kind in E2. intros [= <- <-]. exact E2.
    + destruct (oneCharTok b) as [[k text]|] eqn:E1; [|discriminate].
      apply oneCharTok_kind in E1. intros [= <- <-]. exact E1.
Qed.

(** ** The whole token stream *)

(** [Next] until the end of input; [Err None] is exhausted fuel. *)
Fixpoint tokens (fuel : nat) (l : Lexer) : result (option SyntaxError) (list Token) :=
  match fuel with
  | O => Err None
  | S fuel' =>
      match Next l with
      | Err e => Err (Some e)
      | Ok (t, l') =>
          match Kind t with
          | TokEOF => Ok [t]
          | _ => match tokens fuel' l' with Ok ts => Ok (t :: ts) | Err e => Err e end
          end
      end
  end.

(** The tokens spell out [rest], trivia aside, up to an end-of-input token
    at its end; [prefix] is the source before [rest]. *)
Fixpoint spells (prefix rest : bytes) (ts : list Token) : Prop :=
  match ts with
  | [] => False
  | t :: ts' =>
      exists ws rest', rest = ws ++ B (Text t) ++ rest' /\
        Forall (fun b => is_trivia b = true) ws /\ TPos t = pos_after (prefix ++ ws) /\
        match Kind t with
        | TokEOF => ts' = [] /\ rest' = [] /\ Text t = ""%string
        | _ => Text t <> ""%string /\ spells (prefix ++ ws ++ B (Text t)) rest' ts'
        end
  end.

Lemma scanned_spell l t l' :
  wf l -> scanned l t l' ->
  exists ws, drop (pos l) (src l) = ws ++ B (Text t) ++ drop (pos l') (src l') /\
    Forall (fun b => is_trivia b = true) ws /\
    TPos t = pos_after (take (pos l) (src l) ++ ws) /\
    take (pos l') (src l') = take (pos l) (src l) ++ ws ++ B (Text t).
Proof.
  intros Hwf (ws & l0 & H1 & Hws & H3 & Hp & _). exists ws.
  pose proof (consumed_trans _ _ _ _ _ H1 H3) as H13. destruct Hwf as [Hle Hpos].
  splits; auto.
  - rewrite app_assoc. destruct H13 as (S & _ & _ & D & _). now rewrite S.
  - assert (Hwf0 : wf l0) by (eapply consumed_wf; [exact H1|now split]).
    destruct Hwf0 as [_ E]. rewrite Hp, E. f_equal. now apply consumed_take.
  - now apply consumed_take.
Qed.

Lemma tokens_spec fuel l :
  wf l -> (length (src l) - pos l < fuel)%nat ->
  match tokens fuel l with
  | Ok ts => spells (take (pos l) (src l)) (drop (pos l) (src l)) ts
  | Err (Some _) => True
  | Err None => False
  end.
Proof.
  revert l. induction fuel as [|fuel IH]; intros l Hwf Hf; [lia|]. cbn [tokens].
  destruct (Next l) as [[t l']|e] eqn:E; [|exact I].
  pose proof (Next_scanned _ _ _ (proj1 Hwf) E) as Hs.
  pose proof (scanned_wf _ _ _ Hs Hwf) as Hwf'.
  pose proof (scanned_consumed _ _ _ Hs) as (ws0 & _ & Hc).
  destruct (scanned_spell _ _ _ Hwf Hs) as (ws & H1 & H2 & H3 & H4).
  assert (Hend : match Kind t with TokEOF => Text t = ""%string /\ pos l' = length (src l) | _ => Text t <> ""%string end)
    by (destruct Hs as (? & ? & _ & _ & _ & _ & Hx); exact Hx).
  destruct (decide (Kind t = TokEOF)) as [K|K].
  - rewrite K in *. exists ws, (drop (pos l') (src l')). splits; auto. rewrite K. splits; try apply Hend; auto.
    apply drop_ge. destruct Hend as [_ ->]. now rewrite (consumed_src _ _ _ Hc).
  - assert (Htext : Text t <> ""%string) by (destruct (Kind t); easy).
    pose proof (scanned_progress _ _ _ Hs K) as Hpr.
    assert (Hf' : (length (src l') - pos l' < fuel)%nat).
    { rewrite (consumed_src _ _ _ Hc). destruct Hwf' as [Hle' _]. rewrite (consumed_src _ _ _ Hc) in Hle'. lia. }
    specialize (IH l' Hwf' Hf'). rewrite H4 in IH.
    assert (G : match tokens fuel l' with
                | Ok ts => spells (take (pos l) (src l)) (drop (pos l) (src l)) (t :: ts)
                | Err (Some _) => True | Err None => False end).
    { destruct (tokens fuel l') as [ts|[e|]]; auto. exists ws, (drop (pos l') (src l')). splits; auto.
      destruct (Kind t); easy. }
    destruct (Kind t) eqn:Kt; try easy; destruct (tokens fuel l') as [ts|[e|]]; auto.
Qed.

(** ** Properties *)

(** C27: scanning a source to its end terminates, and the tokens of a
    successful scan spell the source: each token's text is the next run of
    input bytes after skipped blanks, no byte is lost or invented, and each
    position is the line and column of the token's first byte. *)
Theorem tokens_lossless source fname :
  match tokens (S (length source)) (New source fname) with
  | Ok ts => spells [] source ts
  | Err (Some _) => True
  | Err None => False
  end.
Proof. apply (tokens_spec (S (length source)) (New source fname)); [apply New_wf|simpl; lia]. Qed.

(** A wide literal is exactly [int<128>(digits)], and the two 64-bit
    halves of its token are the value the digits denote. *)
Theorem Next_wide l t l' :
  Next l = Ok (t, l') -> Kind t = TokWide ->
  exists ds, B (Text t) = B "int<128>(" ++ ds ++ B ")" /\ Forall (fun c => is_digit c = true) ds /\
    in_u64 (Int t) /\ in_u64 (IntHi t) /\ Int t + two64 * IntHi t = decimal_value ds.
Proof.
  unfold Next. set (l0 := skipTrivia l).
  destruct (src l0 !! pos l0) as [b|] eqn:Hb; [|intros [= <- <-]; discriminate].
  destruct (isIdentStart b) eqn:Hi; [|destruct ((48 <=? ord b) && (ord b <=? 57)) eqn:Hd].
  - destruct (atWidePrefix l0) eqn:Hw; intros H K.
    + apply readWide_spec in H as (ds & _ & _ & _ & _ & H); [|exact Hw]. now exists ds.
    + injection H as H. eapply readIdent_spec in H as (_ & _ & _ & _ & _ & H2); eauto.
      destruct (keywords (Text t)) as [k|] eqn:Ek; [|congruence].
      apply keywords_not_value in Ek as (_ & _ & Hne & _). congruence.
  - intros H K. eapply readInt_spec in H as (_ & _ & _ & H4 & _); eauto. congruence.
  - intros H K.
    destruct (match src l0 !! S (pos l0) with Some n => twoCharOp b n | None => None end) as [[k text]|] eqn:E2.
    + destruct (src l0 !! S (pos l0)) as [n|] eqn:Hn; [|discriminate]. injection H as <- <-. simpl in K. subst.
      unfold twoCharOp in E2. repeat (case_in E2; try discriminate).
    + destruct (oneCharTok b) as [[k text]|] eqn:E1; [|discriminate]. injection H as <- <-. simpl in K. subst.
      clear - E1. destruct b as [[] [] [] [] [] [] [] []]; discriminate.
Qed.

Lemma Next_wide_witness :
  exists t l', Next (New (B "  int<128>(18446744073709551617) x") "f") = Ok (t, l') /\ IntHi t = 1 /\
    exists ds, Int t + two64 * IntHi t = decimal_value ds.
Proof.
  eexists _, _. split; [vm_compute; reflexivity|]. split; [reflexivity|].
  eassert (H : _) by (eapply (Next_wide (New (B "  int<128>(18446744073709551617) x") "f")); [vm_compute; reflexivity|reflexivity]).
  destruct H as (ds & _ & _ & _ & _ & H). exists ds. exact H.
Defined.

(** Value mode reads one maximal run of value bytes and types it: the
    token's text is non-empty, every byte of it is a value byte, the next
    byte is not, and the token carries the classified literal with its
    position. *)
Theorem NextValue_maximal l t l' :
  wf l -> NextValue l = Ok (t, l') -> Kind t <> TokEOF ->
  wf l' /\ Text t <> ""%string /\ Forall (fun b => isValueByte b = true) (B (Text t)) /\
  (forall b, src l' !! pos l' = Some b -> isValueByte b = false) /\
  exists v, TValue t = Some v /\ Value_wf (B (Text t)) (TPos t) v.
Proof.
  intros Hwf H K. destruct (NextValue_scanned l t l' (proj1 Hwf) H) as [Hs [HE|(_ & (v & Hv & Hc) & Hall & Hend)]]; [easy|].
  splits; auto.
  - now apply scanned_wf with l t.
  - destruct Hs as (_ & _ & _ & _ & _ & _ & Hx). destruct (Kind t); easy.
  - exists v. split; [exact Hv|]. now apply classifyValue_Ok_wf.
Qed.

Lemma NextValue_maximal_witness :
  exists t l', NextValue (New (B " 10.0.0.0/8, x") "f") = Ok (t, l') /\ Text t = "10.0.0.0/8"%string /\ wf l'.
Proof.
  eexists _, _. split; [vm_compute; reflexivity|]. split; [reflexivity|].
  eapply (NextValue_maximal (New (B " 10.0.0.0/8, x") "f")); [apply New_wf|vm_compute; reflexivity|discriminate].
Defined.
