(* ===== verification/Parser.v ===== *)
(** * Parser: the recursive-descent parser (pkg/kunai/parser)

    State passing over [pstate] with [SyntaxError]s as values. Loops and
    recursive calls run on fuel; [Parse] starts with one more than the
    input length, and ParserFacts.v shows that is always enough. Error
    messages are the source's format strings with their arguments. *)

From Stdlib Require Import ZArith Lia Bool Ascii String List.
From stdpp Require Import base list strings numbers option.
From S2P Require Import Prelude GoStd Ast ScanValue Lexer.
Local Open Scope Z_scope.

(** ** The parser state and monad *)

Inductive perr := PSyntax (e : SyntaxError) | PFuel.

Record pstate := mkP {
  lex : Lexer;
  cur : Token;
  preCurSnap : Snapshot;
  pfile : string;
  depth : Z;
  exprDepth : Z;
  parenDepth : Z;
  reservedLabels : string -> bool
}.

Definition M (A : Type) : Type := pstate -> result perr (A * pstate).

Definition ret {A} (a : A) : M A := fun p => Ok (a, p).
Definition bind {A B} (m : M A) (k : A -> M B) : M B :=
  fun p => match m p with Ok (a, p') => k a p' | Err e => Err e end.

Declare Scope parser_scope.
Delimit Scope parser_scope with parser.
Notation "x <-- m ;; k" := (bind m (fun x => k))
  (at level 20, m at level 99, k at level 200) : parser_scope.
Notation "m ;;; k" := (bind m (fun _ => k))
  (at level 100, k at level 200, right associativity) : parser_scope.
Local Open Scope parser_scope.

Definition getp : M pstate := fun p => Ok (p, p).
Definition out_of_fuel {A} : M A := fun _ => Err PFuel.

Definition set_depth (d : Z) (p : pstate) : pstate :=
  mkP (lex p) (cur p) (preCurSnap p) (pfile p) d (exprDepth p) (parenDepth p) (reservedLabels p).
Definition set_exprDepth (d : Z) (p : pstate) : pstate :=
  mkP (lex p) (cur p) (preCurSnap p) (pfile p) (depth p) d (parenDepth p) (reservedLabels p).
Definition set_parenDepth (d : Z) (p : pstate) : pstate :=
  mkP (lex p) (cur p) (preCurSnap p) (pfile p) (depth p) (exprDepth p) d (reservedLabels p).
Definition modify (f : pstate -> pstate) : M unit := fun p => Ok (tt, f p).

(** ** parser.go *)

Definition maxParenDepth : Z := 32.

Definition errorf {A} (pos : Position) (format : string) (args : list fmtarg) : M A :=
  fun p => Err (PSyntax (mkSyntaxError (pfile p) pos (Errorf format args) "")).

Definition advance : M unit := fun p =>
  let snap := Save (lex p) in
  match Next (lex p) with
  | Err e => Err (PSyntax e)
  | Ok (next, l) =>
      Ok (tt, mkP l next snap (pfile p) (depth p) (exprDepth p) (parenDepth p) (reservedLabels p))
  end.

Definition advanceValue : M unit := fun p =>
  match NextValue (lex p) with
  | Err e => Err (PSyntax e)
  | Ok (next, l) =>
      Ok (tt, mkP l next (preCurSnap p) (pfile p) (depth p) (exprDepth p) (parenDepth p) (reservedLabels p))
  end.

Definition AKind (k : TokenKind) : fmtarg := AStr (TokenKind_String k).

Definition expect (k : TokenKind) : M Token :=
  p <-- getp ;;
  if negb (bool_decide (Kind (cur p) = k))
  then errorf (TPos (cur p)) "expected %s, got %s (%q)" [AKind k; AKind (Kind (cur p)); AStr (Text (cur p))]
  else advance ;;; ret (cur p).

Definition accept (k : TokenKind) : M (option Token) :=
  p <-- getp ;;
  if negb (bool_decide (Kind (cur p) = k)) then ret None
  else advance ;;; ret (Some (cur p)).

Definition isReservedLabel (s : string) : M bool := p <-- getp ;; ret (reservedLabels p s).

(** [for p.cur.Kind == sep { advance; next := elem; acc = append(acc, next) }]. *)
Fixpoint sepLoop {A} (n : nat) (sep : TokenKind) (elem : M A) (acc : list A) : M (list A) :=
  match n with
  | O => out_of_fuel
  | S n' =>
      p <-- getp ;;
      if bool_decide (Kind (cur p) = sep)
      then advance ;;; next <-- elem ;; sepLoop n' sep elem (acc ++ [next])
      else ret acc
  end.

(** ** predicate.go *)

Definition cmpOpFor (k : TokenKind) : option CmpOp :=
  match k with
  | TokEqEq => Some CmpEq
  | TokNeq => Some CmpNeq
  | TokLt => Some CmpLt
  | TokLe => Some CmpLe
  | TokGt => Some CmpGt
  | TokGe => Some CmpGe
  | _ => None
  end.

Definition ensureIndexLen (indices : list (option IndexExpr)) (n : nat) : list (option IndexExpr) :=
  indices ++ repeat None (n - length indices).

Definition hasAnyIndex (fp : FieldPath) : bool := existsb is_Some_b (Indices fp).

(** [tryParseIndexExpr], given the parser of the path inside the brackets. *)
Definition tryParseIndexExpr_with (fromHead : Token -> M FieldPath) : M (option IndexExpr) :=
  p <-- getp ;;
  if negb (bool_decide (Kind (cur p) = TokLBracket)) then ret None
  else
    let openPos := TPos (cur p) in
    advance ;;;
    p <-- getp ;;
    match Kind (cur p) with
    | TokInt =>
        let v := Int (cur p) in
        advance ;;;
        p <-- getp ;;
        if bool_decide (Kind (cur p) = TokColon) then
          advance ;;;
          p <-- getp ;;
          if negb (bool_decide (Kind (cur p) = TokInt))
          then errorf (TPos (cur p)) "expected slice end after ':' in `[lo:hi]`, got %s" [AKind (Kind (cur p))]
          else
            let hi := Int (cur p) in
            advance ;;;
            _ <-- expect TokRBracket ;;
            if hi <=? v
            then errorf openPos "bit-slice [%d:%d] requires lo < hi" [AInt v; AInt hi]
            else ret (Some (IdxSlice v hi openPos))
        else
          _ <-- expect TokRBracket ;;
          ret (Some (IdxInt v openPos))
    | TokIdent =>
        head <-- expect TokIdent ;;
        fp <-- fromHead head ;;
        if hasAnyIndex fp
        then errorf openPos "nested index inside index expression %q is not supported" [AStr (FieldPath_String fp)]
        else
          _ <-- expect TokRBracket ;;
          ret (Some (IdxField fp openPos))
    | _ => errorf (TPos (cur p)) "expected integer or field reference inside `[...]`, got %s" [AKind (Kind (cur p))]
    end.

(** The dotted tail of [parseFieldPathFromHead]: [idx] is stored in the
    slot of the last part when it is not nil. *)
Definition storeIndex (indices : list (option IndexExpr)) (nparts : nat) (idx : option IndexExpr)
    : list (option IndexExpr) :=
  match idx with
  | Some _ => <[(nparts - 1)%nat := idx]> (ensureIndexLen indices nparts)
  | None => indices
  end.

Fixpoint fieldPathTail (n : nat) (tryIndex : M (option IndexExpr)) (parts : list string)
    (indices : list (option IndexExpr)) (pos : Position) : M FieldPath :=
  match n with
  | O => out_of_fuel
  | S n' =>
      p <-- getp ;;
      if bool_decide (Kind (cur p) = TokDot) then
        advance ;;;
        next <-- expect TokIdent ;;
        let parts := parts ++ [Text next] in
        idx <-- tryIndex ;;
        fieldPathTail n' tryIndex parts (storeIndex indices (length parts) idx) pos
      else ret (mkFieldPath parts indices pos)
  end.

Fixpoint parseFieldPathFromHead (n : nat) (head : Token) : M FieldPath :=
  match n with
  | O => out_of_fuel
  | S n' =>
      let tryIndex := tryParseIndexExpr_with (parseFieldPathFromHead n') in
      let parts := [Text head] in
      idx <-- tryIndex ;;
      fieldPathTail n tryIndex parts (storeIndex [] 1 idx) (TPos head)
  end.

Definition parseFieldPath (n : nat) : M FieldPath :=
  first <-- expect TokIdent ;;
  parseFieldPathFromHead n first.

Definition fieldPathIsValid (fp : FieldPath) : bool :=
  (length (Parts fp) =? 3)%nat && bool_decide (Parts fp !! 2%nat = Some "valid"%string)
  && (length (Indices fp) =? 0)%nat.

Definition fieldPathEndsWithExists (fp : FieldPath) : bool :=
  negb (length (Parts fp) =? 0)%nat
  && bool_decide (Parts fp !! (length (Parts fp) - 1)%nat = Some "exists"%string).

Definition stripExistsTail (fp : FieldPath) : FieldPath :=
  let n := (length (Parts fp) - 1)%nat in
  mkFieldPath (take n (Parts fp)) (take (Nat.min (length (Indices fp)) n) (Indices fp)) (FPos fp).

(** The value the parser has just read in value mode. *)
Definition curValue : M Value :=
  p <-- getp ;;
  match TValue (cur p) with
  | Some v => ret v
  | None => errorf (TPos (cur p)) "internal: value token without a value" []
  end.

(** The tail of [parseValueList]: comma-separated values, each read in
    value mode. *)
Fixpoint valueListTail (n : nat) (values : list Value) : M (list Value) :=
  match n with
  | O => out_of_fuel
  | S n' =>
      p <-- getp ;;
      if bool_decide (Kind (cur p) = TokComma) then
        advanceValue ;;;
        p <-- getp ;;
        if negb (bool_decide (Kind (cur p) = TokValue))
        then errorf (TPos (cur p)) "expected value after ',', got %s" [AKind (Kind (cur p))]
        else
          v <-- curValue ;;
          advance ;;;
          valueListTail n' (values ++ [v])
      else ret values
  end.

Definition parseValueList (n : nat) : M (list Value) :=
  p <-- getp ;;
  if negb (bool_decide (Kind (cur p) = TokLBracket))
  then errorf (TPos (cur p)) "expected '[' for value list, got %s" [AKind (Kind (cur p))]
  else
    advanceValue ;;;
    p <-- getp ;;
    if negb (bool_decide (Kind (cur p) = TokValue))
    then errorf (TPos (cur p)) "expected value inside [ ], got %s" [AKind (Kind (cur p))]
    else
      v <-- curValue ;;
      advance ;;;
      values <-- valueListTail n [v] ;;
      _ <-- expect TokRBracket ;;
      ret values.

Definition parsePredicate (n : nat) : M Predicate :=
  p <-- getp ;;
  let startPos := TPos (cur p) in
  field <-- parseFieldPath n ;;
  p <-- getp ;;
  if (length (Parts field) =? 2)%nat && bool_decide (Parts field !! 1%nat = Some "valid"%string)
     && (length (Indices field) =? 0)%nat
     && (bool_decide (Kind (cur p) = TokComma) || bool_decide (Kind (cur p) = TokRBracket))
  then ret (mkPredicate PredValid (stripExistsTail field) startPos)
  else
    match Kind (cur p) with
    | TokIn =>
        advance ;;;
        p <-- getp ;;
        if bool_decide (Kind (cur p) = TokAt) then
          advance ;;;
          name <-- expect TokIdent ;;
          ret (mkPredicate (PredInSet (Text name)) field startPos)
        else
          list <-- parseValueList n ;;
          ret (mkPredicate (PredIn list) field startPos)
    | TokHas =>
        advance ;;;
        flag <-- expect TokIdent ;;
        ret (mkPredicate (PredHas (Text flag)) field startPos)
    | k =>
        match cmpOpFor k with
        | None =>
            errorf (TPos (cur p)) "expected 'in', 'has', or comparison operator after field, got %s" [AKind k]
        | Some op =>
            advanceValue ;;;
            p <-- getp ;;
            if negb (bool_decide (Kind (cur p) = TokValue))
            then errorf (TPos (cur p)) "expected value after comparison operator, got %s" [AKind (Kind (cur p))]
            else
              v <-- curValue ;;
              advance ;;;
              ret (mkPredicate (PredCmp op v) field startPos)
        end
    end.

Definition parsePredicateList (n : nat) : M (list Predicate) :=
  first <-- parsePredicate n ;;
  sepLoop n TokComma (parsePredicate n) [first].

(** ** layer.go *)

Definition maxAltDepth : Z := 16.

Definition isQuantToken (k : TokenKind) : bool :=
  match k with
  | TokQuestion | TokPlus | TokStar | TokLBrace => true
  | _ => false
  end.

(** Returns the quantifier the source stores in [layer]. *)
Definition parseQuantRange : M QuantKind :=
  openTok <-- expect TokLBrace ;;
  minT <-- expect TokInt ;;
  let min := int64_of_u64 (Int minT) in
  comma <-- accept TokComma ;;
  max <-- match comma with
          | Some _ =>
              p <-- getp ;;
              if bool_decide (Kind (cur p) = TokInt) then
                maxT <-- expect TokInt ;;
                let max := int64_of_u64 (Int maxT) in
                if max <? min
                then errorf (TPos maxT) "quantifier range max %d less than min %d" [AInt max; AInt min]
                else ret max
              else ret (-1)
          | None => ret min
          end ;;
  _ <-- expect TokRBrace ;;
  if min <? 0
  then errorf (TPos openTok) "quantifier range min must be non-negative, got %d" [AInt min]
  else ret (QuantRange min max).

Definition parseQuantifier (layer : Layer) : M Layer :=
  p <-- getp ;;
  match Kind (cur p) with
  | TokQuestion => advance ;;; ret (set_Quant QuantOpt layer)
  | TokPlus => advance ;;; ret (set_Quant QuantPlus layer)
  | TokStar => advance ;;; ret (set_Quant QuantStar layer)
  | TokLBrace => q <-- parseQuantRange ;; ret (set_Quant q layer)
  | k => errorf (TPos (cur p)) "expected quantifier, got %s" [AKind k]
  end.

Definition parseProtoLeaf (n : nat) (startPos : Position) : M Layer :=
  nameTok <-- expect TokIdent ;;
  at_ <-- accept TokAt ;;
  label <-- match at_ with
            | Some _ =>
                labelTok <-- expect TokIdent ;;
                reserved <-- isReservedLabel (Text labelTok) ;;
                if (reserved : bool)
                then errorf (TPos labelTok) "label %q collides with a reserved action symbol" [AStr (Text labelTok)]
                else ret (Text labelTok)
            | None => ret ""%string
            end ;;
  p <-- getp ;;
  preds <-- (if bool_decide (Kind (cur p) = TokLBracket) then
               advance ;;;
               preds <-- parsePredicateList n ;;
               _ <-- expect TokRBracket ;;
               ret preds
             else ret []) ;;
  ret (mkProto (Text nameTok) label preds QuantOne startPos).

Definition parseLayerAltGroup (item : M Layer) (n : nat) (startPos : Position) : M Layer :=
  p <-- getp ;;
  if maxAltDepth <=? depth p
  then errorf startPos "alternation too deeply nested (max %d)" [AInt maxAltDepth]
  else
    modify (fun p => set_depth (depth p + 1) p) ;;;
    _ <-- expect TokLParen ;;
    first <-- item ;;
    p <-- getp ;;
    if negb (bool_decide (Kind (cur p) = TokPipe))
    then errorf (TPos (cur p)) "alternation group requires at least two alternatives separated by '|'" []
    else
      alts <-- sepLoop n TokPipe item [first] ;;
      _ <-- expect TokRParen ;;
      modify (fun p => set_depth (depth p - 1) p) ;;;
      ret (mkAltGroup alts QuantOne startPos).

Definition parseLayerAtom (item : M Layer) (n : nat) : M Layer :=
  p <-- getp ;;
  let startPos := TPos (cur p) in
  match Kind (cur p) with
  | TokIdent => parseProtoLeaf n startPos
  | TokLParen => parseLayerAltGroup item n startPos
  | k => errorf startPos "expected protocol name or '(', got %s (%q)" [AKind k; AStr (Text (cur p))]
  end.

Fixpoint parseLayerItem (n : nat) : M Layer :=
  match n with
  | O => out_of_fuel
  | S n' =>
      layer <-- parseLayerAtom (parseLayerItem n') n ;;
      p <-- getp ;;
      layer <-- (if isQuantToken (Kind (cur p)) then parseQuantifier layer else ret layer) ;;
      p <-- getp ;;
      if isQuantToken (Kind (cur p))
      then errorf (TPos (cur p)) "cannot chain quantifiers; %s follows another quantifier" [AKind (Kind (cur p))]
      else ret layer
  end.

Definition parseLayerChain (n : nat) : M (list Layer) :=
  first <-- parseLayerItem n ;;
  sepLoop n TokSlash (parseLayerItem n) [first].

(** ** where.go *)

(** An operand while it is parsed: exactly one of the source's [arith],
    [boolean] and [literal] pointers is set. *)
Inductive whereOperand :=
| VArith (a : ArithExpr)
| VBool (b : WhereExpr)
| VLit (v : Value).

Record whereValue := mkWV { operand : whereOperand; wpos : Position }.

Definition precOr : Z := 1.
Definition precAnd : Z := 2.
Definition precNot : Z := 3.
Definition precCmp : Z := 4.
Definition precAdd : Z := 5.
Definition precMul : Z := 6.

Definition whereBool (v : whereValue) : M WhereExpr :=
  match operand v with
  | VBool b => ret b
  | VLit _ => errorf (wpos v) "network literal requires a field comparison" []
  | VArith a =>
      ret (WAtomArith a CmpNeq (ArithConst 0 0 false false (wpos v)) (wpos v))
  end.

Definition wherePrecedence (k : TokenKind) : Z :=
  match k with
  | TokOr => precOr
  | TokAnd => precAnd
  | TokEqEq | TokNeq | TokLt | TokLe | TokGt | TokGe => precCmp
  | TokPlus | TokMinus | TokPipe | TokCaret => precAdd
  | TokStar | TokSlash | TokPercent | TokAmp | TokShl | TokShr => precMul
  | _ => 0
  end.

(** The final [switch] of [combineWhere]; Go's zero [ArithOp] is
    [ArithAdd]. *)
Definition arithOpFor (k : TokenKind) : ArithOp :=
  match k with
  | TokPlus => ArithAdd
  | TokMinus => ArithSub
  | TokPipe => ArithOr
  | TokCaret => ArithXor
  | TokStar => ArithMul
  | TokSlash => ArithDiv
  | TokPercent => ArithMod
  | TokAmp => ArithAnd
  | TokShl => ArithShl
  | TokShr => ArithShr
  | _ => ArithAdd
  end.

Definition isEqNeq (op : CmpOp) : bool := bool_decide (op = CmpEq) || bool_decide (op = CmpNeq).

Definition literalCompare (field : whereOperand) (op : CmpOp) (lit : Value) (side : string)
    (token : Token) (pos : Position) : M whereValue :=
  match field with
  | VArith (ArithField f _) => ret (mkWV (VBool (WAtomLiteralCmp f op lit pos)) pos)
  | _ => errorf (TPos token) "%s-hand side of network-literal comparison must be a single field path; got an arithmetic expression" [AStr side]
  end.

Definition combineWhere (left : whereValue) (token : Token) (right : whereValue) : M whereValue :=
  let pos := wpos left in
  if bool_decide (Kind token = TokAnd) || bool_decide (Kind token = TokOr) then
    l <-- whereBool left ;;
    r <-- whereBool right ;;
    ret (mkWV (VBool (if bool_decide (Kind token = TokOr)
                      then WOr l r (TPos token) else WAnd l r (TPos token))) pos)
  else
    match cmpOpFor (Kind token) with
    | Some op =>
        match operand left, operand right with
        | VLit lit, _ =>
            if negb (isEqNeq op)
            then errorf (TPos token) "ordered comparison %s not allowed for network literals" [AStr (CmpOp_String op)]
            else literalCompare (operand right) op lit "right" token pos
        | _, VLit lit =>
            if negb (isEqNeq op)
            then errorf (TPos token) "ordered comparison %s not allowed for network literals" [AStr (CmpOp_String op)]
            else literalCompare (operand left) op lit "left" token pos
        | VArith al, VArith ar => ret (mkWV (VBool (WAtomArith al op ar pos)) pos)
        | _, _ =>
            if negb (isEqNeq op)
            then errorf (TPos token) "ordered comparison %s not allowed for Bool (Bool supports only == and !=)" [AStr (CmpOp_String op)]
            else
              l <-- whereBool left ;;
              r <-- whereBool right ;;
              ret (mkWV (VBool (WAtomBoolEq l op r pos)) pos)
        end
    | None =>
        match operand left, operand right with
        | VArith al, VArith ar =>
            ret (mkWV (VArith (ArithBinOp (arithOpFor (Kind token)) al ar (TPos token))) pos)
        | _, _ => errorf (TPos token) "arithmetic operator %s requires integer operands" [AKind (Kind token)]
        end
    end.

Definition isNetworkLiteralKind (k : ValueKind) : bool :=
  match k with ValKIPv4 | ValKIPv6 | ValKMAC | ValKCIDR => true | _ => false end.

(** [tryNetworkLiteral(snap)]: re-reads a primary in value mode; on a miss
    the lexer and the current token are re-synchronised from [snap]. *)
Definition set_lex (l : Lexer) (p : pstate) : pstate :=
  mkP l (cur p) (preCurSnap p) (pfile p) (depth p) (exprDepth p) (parenDepth p) (reservedLabels p).
Definition set_cur (t : Token) (p : pstate) : pstate :=
  mkP (lex p) t (preCurSnap p) (pfile p) (depth p) (exprDepth p) (parenDepth p) (reservedLabels p).

Definition tryNetworkLiteral (snap : Snapshot) : M (option Value) := fun p =>
  let l0 := Restore snap (lex p) in
  let miss :=
    match Next l0 with
    | Err err2 => Err (PSyntax err2)
    | Ok (next, l) => Ok (None, set_cur next (set_lex l p))
    end in
  match NextValue l0 with
  | Ok (tok, l) =>
      match Kind tok, TValue tok with
      | TokValue, Some v =>
          if isNetworkLiteralKind (Value_Kind v)
          then (advance ;;; ret (Some v)) (set_lex l p)
          else miss
      | _, _ => miss
      end
  | Err _ => miss
  end.

Definition parseActionAtom (startPos : Position) : M WhereExpr :=
  _ <-- expect TokAction ;;
  p <-- getp ;;
  if negb (bool_decide (Kind (cur p) = TokEqEq))
  then errorf (TPos (cur p)) "expected '==' after 'action', got %s" [AKind (Kind (cur p))]
  else
    advance ;;;
    ident <-- expect TokIdent ;;
    ret (WAtomAction (Text ident) startPos).

(** [parseWhereGroup], given [parseWhereExpr]. *)
Definition parseWhereGroup (expr : Z -> M whereValue) : M whereValue :=
  p <-- getp ;;
  if maxParenDepth <=? parenDepth p
  then errorf (TPos (cur p)) "expression nesting too deep (limit: %d)" [AInt maxParenDepth]
  else
    modify (fun p => set_parenDepth (parenDepth p + 1) p) ;;;
    _ <-- expect TokLParen ;;
    inner <-- expr precOr ;;
    _ <-- expect TokRParen ;;
    modify (fun p => set_parenDepth (parenDepth p - 1) p) ;;;
    ret inner.

Definition parseWherePrimary (expr : Z -> M whereValue) (n : nat) : M whereValue :=
  p <-- getp ;;
  let pos := TPos (cur p) in
  match Kind (cur p) with
  | TokLParen => parseWhereGroup expr
  | TokNot =>
      advance ;;;
      inner <-- expr precNot ;;
      b <-- whereBool inner ;;
      ret (mkWV (VBool (WNot b pos)) pos)
  | TokTrue => advance ;;; ret (mkWV (VBool (WAtomBoolLit true pos)) pos)
  | TokFalse => advance ;;; ret (mkWV (VBool (WAtomBoolLit false pos)) pos)
  | TokAction =>
      b <-- parseActionAtom pos ;;
      ret (mkWV (VBool b) pos)
  | TokAny | TokAll =>
      let all := bool_decide (Kind (cur p) = TokAll) in
      advance ;;;
      p <-- getp ;;
      if negb (bool_decide (Kind (cur p) = TokLParen))
      then errorf (TPos (cur p)) "expected '(', got %s (%q)" [AKind (Kind (cur p)); AStr (Text (cur p))]
      else
        inner <-- parseWhereGroup expr ;;
        b <-- whereBool inner ;;
        ret (mkWV (VBool (if all then WAll b pos else WAny b pos)) pos)
  | TokMinus =>
      advance ;;;
      p <-- getp ;;
      if negb (bool_decide (Kind (cur p) = TokInt))
      then errorf (TPos (cur p)) "expected integer literal after unary '-', got %s" [AKind (Kind (cur p))]
      else
        let n := Int (cur p) in
        if two63 <? n
        then errorf pos "negative literal -%d exceeds the supported range [-2^63, 0)" [AInt n]
        else
          advance ;;;
          ret (mkWV (VArith (ArithConst (u64 (two64 - 1 - n + 1)) 0 true false pos)) pos)
  | _ =>
      lit <-- tryNetworkLiteral (preCurSnap p) ;;
      match lit with
      | Some v => ret (mkWV (VLit v) pos)
      | None =>
          p <-- getp ;;
          match Kind (cur p) with
          | TokInt =>
              let c := Int (cur p) in
              advance ;;; ret (mkWV (VArith (ArithConst c 0 false false pos)) pos)
          | TokWide =>
              let c := Int (cur p) in
              let hi := IntHi (cur p) in
              advance ;;; ret (mkWV (VArith (ArithConst c hi false true pos)) pos)
          | TokIdent =>
              field <-- parseFieldPath n ;;
              if fieldPathEndsWithExists field
              then ret (mkWV (VBool (WAtomBoolExists (stripExistsTail field) pos)) pos)
              else if fieldPathIsValid field
              then ret (mkWV (VBool (WAtomBoolValid (stripExistsTail field) pos)) pos)
              else ret (mkWV (VArith (ArithField field pos)) pos)
          | k => errorf pos "expected integer, field path, Boolean or '(' in expression, got %s" [AKind k]
          end
      end
  end.

Definition is_bool_operand (v : whereValue) : bool :=
  match operand v with VBool _ => true | _ => false end.

(** The operator loop of [parseWhereExpr]. *)
Fixpoint whereLoop (n : nat) (expr : Z -> M whereValue) (minPrec : Z) (left : whereValue) : M whereValue :=
  match n with
  | O => out_of_fuel
  | S n' =>
      p <-- getp ;;
      if bool_decide (Kind (cur p) = TokIn)
      then errorf (TPos (cur p)) "'in' is only valid in bracket predicates (`proto[field in [...]]`); inside `where` use a chain of `or` (`field == v1 or field == v2`) instead" []
      else
        let token := cur p in
        let prec := wherePrecedence (Kind token) in
        if prec <? minPrec then ret left
        else
          let boolComparison := (prec =? precCmp) && is_bool_operand left in
          let nextPrec := if boolComparison then prec else prec + 1 in
          advance ;;;
          right <-- expr nextPrec ;;
          left <-- combineWhere left token right ;;
          p <-- getp ;;
          if (prec =? precCmp) && negb boolComparison && is_Some_b (cmpOpFor (Kind (cur p)))
          then errorf (TPos (cur p)) "chained comparison not supported; use 'and' to combine" []
          else whereLoop n' expr minPrec left
  end.

Fixpoint parseWhereExpr (n : nat) (minPrec : Z) : M whereValue :=
  match n with
  | O => out_of_fuel
  | S n' =>
      p <-- getp ;;
      if maxParenDepth * 4 <=? exprDepth p
      then errorf (TPos (cur p)) "expression nesting too deep" []
      else
        modify (fun p => set_exprDepth (exprDepth p + 1) p) ;;;
        left <-- parseWherePrimary (parseWhereExpr n') n ;;
        v <-- whereLoop n (parseWhereExpr n') minPrec left ;;
        modify (fun p => set_exprDepth (exprDepth p - 1) p) ;;;
        ret v
  end.

Definition parseOrExpr (n : nat) : M WhereExpr :=
  value <-- parseWhereExpr n precOr ;;
  whereBool value.

Definition parseWhereClause (n : nat) : M WhereExpr :=
  _ <-- expect TokWhere ;;
  parseOrExpr n.

(** ** capture.go *)

Definition parseOptionalPlusInt : M (Z * bool) :=
  plus <-- accept TokPlus ;;
  match plus with
  | None => ret (0, false)
  | Some _ =>
      tok <-- expect TokInt ;;
      ret (int64_of_u64 (Int tok), true)
  end.

(** The clause without its position and condition, which
    [parseCaptureClause] fills in. *)
Definition parseCaptureIdent (n : nat) : M CaptureClause :=
  p <-- getp ;;
  let ident := cur p in
  let startPos := TPos ident in
  advance ;;;
  p <-- getp ;;
  if String.eqb (Text ident) "absolute" && bool_decide (Kind (cur p) = TokInt) then
    let n := Int (cur p) in
    advance ;;;
    ret (mkCapture (CapAbsolute (int64_of_u64 n)) None false startPos)
  else if bool_decide (Kind (cur p) = TokDot) then
    first <-- parseFieldPathFromHead n ident ;;
    fields <-- sepLoop n TokComma (parseFieldPath n) [first] ;;
    ret (mkCapture (CapFields fields) None true startPos)
  else
    extra <-- parseOptionalPlusInt ;;
    ret (mkCapture (CapToLayer (Text ident) (fst extra)) None false startPos).

Definition parseCaptureSpec (n : nat) : M CaptureClause :=
  p <-- getp ;;
  let startPos := TPos (cur p) in
  match Kind (cur p) with
  | TokAll =>
      advance ;;;
      ret (mkCapture CapAll None false startPos)
  | TokHeaders =>
      advance ;;;
      extra <-- parseOptionalPlusInt ;;
      let kind := if snd extra then CapHeadersPlus (fst extra) else CapHeaders in
      ret (mkCapture kind None false startPos)
  | TokIdent => parseCaptureIdent n
  | k => errorf startPos "expected 'all', 'headers', 'absolute', a layer label, or field path after 'capture', got %s" [AKind k]
  end.

Definition parseCaptureClause (n : nat) : M CaptureClause :=
  p <-- getp ;;
  let startPos := TPos (cur p) in
  _ <-- expect TokCapture ;;
  c <-- parseCaptureSpec n ;;
  p <-- getp ;;
  if bool_decide (Kind (cur p) = TokWhere) then
    w <-- parseWhereClause n ;;
    ret (mkCapture (CKind c) (Some w) (CUnsupported c) startPos)
  else ret (mkCapture (CKind c) (CWhere c) (CUnsupported c) startPos).

Fixpoint captureLoop (n : nat) (clause : M CaptureClause) (acc : list CaptureClause)
    : M (list CaptureClause) :=
  match n with
  | O => out_of_fuel
  | S n' =>
      p <-- getp ;;
      if bool_decide (Kind (cur p) = TokCapture)
      then c <-- clause ;; captureLoop n' clause (acc ++ [c])
      else ret acc
  end.

(** ** The entry point *)

Definition parseFilter (n : nat) : M Filter :=
  p <-- getp ;;
  let startPos := TPos (cur p) in
  if bool_decide (Kind (cur p) = TokEOF)
  then errorf startPos "empty filter expression" []
  else
    layers <-- parseLayerChain n ;;
    p <-- getp ;;
    where_ <-- (if bool_decide (Kind (cur p) = TokWhere)
                then w <-- parseWhereClause n ;; ret (Some w)
                else ret None) ;;
    captures <-- captureLoop n (parseCaptureClause n) [] ;;
    p <-- getp ;;
    if negb (bool_decide (Kind (cur p) = TokEOF))
    then errorf (TPos (cur p)) "unexpected trailing token %s (%q)" [AKind (Kind (cur p)); AStr (Text (cur p))]
    else ret (mkFilter layers where_ captures startPos).

Definition zeroToken : Token := tok TokEOF "" (mkPos 0 0).

Definition init (expr : bytes) (file : string) (reserved : string -> bool) : pstate :=
  let l := New expr file in
  mkP l zeroToken (Save l) file 0 0 0 reserved.

Definition Parse (expr : bytes) (file : string) (reserved : string -> bool) : result perr Filter :=
  let n := S (length expr) in
  match (advance ;;; parseFilter n) (init expr file reserved) with
  | Ok (f, _) => Ok f
  | Err e => Err e
  end.
