(* ===== verification/ParserFacts.v ===== *)
(** * ParserFacts: termination and well-formedness of the parser

    A weakest-precondition layer over the parser monad ([safe]), the
    invariant that ties the current token to the lexer ([synced]), the
    measure every loop decreases ([rem]) and one specification lemma per
    parser function. *)

From Stdlib Require Import ZArith Lia Bool Ascii String List.
From stdpp Require Import base list strings numbers option.
From S2P Require Import Prelude GoStd Ast ScanValue Lexer Parser.
Local Open Scope Z_scope.
Local Open Scope parser_scope.

(** ** Well-formed syntax trees *)

Definition quant_wf (q : QuantKind) : Prop :=
  match q with
  | QuantRange lo hi => 0 <= lo < two63 /\ (hi = -1 \/ lo <= hi < two63)
  | _ => True
  end.

Definition value_wf (v : Value) : Prop := exists raw pos, Value_wf raw pos v.

(** A path written inside index brackets: no indices of its own. *)
Definition flat_path (f : FieldPath) : Prop :=
  Parts f <> [] /\ Forall ident_ok (Parts f) /\ Indices f = [].

Definition index_wf (e : IndexExpr) : Prop :=
  match e with
  | IdxInt n _ => in_u64 n
  | IdxSlice lo hi _ => in_u64 lo /\ in_u64 hi /\ lo < hi
  | IdxField f _ => flat_path f
  end.

Definition opt_index_wf (o : option IndexExpr) : Prop :=
  match o with Some e => index_wf e | None => True end.

(** [Indices] is nil or ends with a present index at or before the last
    part. *)
Definition indices_wf (ix : list (option IndexExpr)) (nparts : nat) : Prop :=
  Forall opt_index_wf ix /\ (length ix <= nparts)%nat /\
  (ix = [] \/ exists ix' e, ix = ix' ++ [Some e]).

Definition path_wf (f : FieldPath) : Prop :=
  Parts f <> [] /\ Forall ident_ok (Parts f) /\ indices_wf (Indices f) (length (Parts f)).

(** What [stripExistsTail] leaves: possibly no part at all. *)
Definition stripped_path_wf (f : FieldPath) : Prop :=
  Forall ident_ok (Parts f) /\ Forall opt_index_wf (Indices f) /\
  (length (Indices f) <= length (Parts f))%nat.

Definition pred_wf (p : Predicate) : Prop :=
  match PKind p with
  | PredCmp _ v => path_wf (PField p) /\ value_wf v
  | PredIn vs => path_wf (PField p) /\ vs <> [] /\ Forall value_wf vs
  | PredHas s | PredInSet s => path_wf (PField p) /\ ident_ok s
  | PredValid => length (Parts (PField p)) = 1%nat /\ stripped_path_wf (PField p)
  end.

Fixpoint Layer_wf (reserved : string -> bool) (l : Layer) : Prop :=
  match l with
  | mkProto name label preds q _ =>
      ident_ok name /\ (label = ""%string \/ ident_ok label /\ reserved label = false) /\
      Forall pred_wf preds /\ quant_wf q
  | mkAltGroup alts q _ =>
      (2 <= length alts)%nat /\ fold_right (fun a acc => Layer_wf reserved a /\ acc) True alts /\ quant_wf q
  end.

(** Nesting of alternation groups. *)
Fixpoint alt_nesting (l : Layer) : Z :=
  match l with
  | mkProto _ _ _ _ _ => 0
  | mkAltGroup alts _ _ => 1 + fold_right (fun a acc => Z.max (alt_nesting a) acc) 0 alts
  end.

Fixpoint arith_wf (e : ArithExpr) : Prop :=
  match e with
  | ArithConst c hi neg wide _ =>
      in_u64 c /\ in_u64 hi /\ (wide = false -> hi = 0) /\
      (neg = true -> wide = false /\ - two63 <= int64_of_u64 c <= 0)
  | ArithField f _ => path_wf f
  | ArithBinOp _ l r _ => arith_wf l /\ arith_wf r
  end.

Fixpoint where_wf (w : WhereExpr) : Prop :=
  match w with
  | WOr l r _ | WAnd l r _ => where_wf l /\ where_wf r
  | WNot i _ | WAny i _ | WAll i _ => where_wf i
  | WAtomArith l _ r _ => arith_wf l /\ arith_wf r
  | WAtomLiteralCmp f op v _ =>
      path_wf f /\ isEqNeq op = true /\ value_wf v /\ isNetworkLiteralKind (Value_Kind v) = true
  | WAtomAction s _ => ident_ok s
  | WAtomBoolLit _ _ => True
  | WAtomBoolExists f _ => stripped_path_wf f
  | WAtomBoolValid f _ => stripped_path_wf f /\ length (Parts f) = 2%nat
  | WAtomBoolEq l op r _ => where_wf l /\ isEqNeq op = true /\ where_wf r
  end.

Definition int64_range (z : Z) : Prop := - two63 <= z < two63.

Definition capture_wf (c : CaptureClause) : Prop :=
  match CWhere c with Some w => where_wf w | None => True end /\
  match CKind c with
  | CapFields fs => CUnsupported c = true /\ fs <> [] /\ Forall path_wf fs
  | CapAll | CapHeaders => CUnsupported c = false
  | CapHeadersPlus n | CapAbsolute n => CUnsupported c = false /\ int64_range n
  | CapToLayer name n => CUnsupported c = false /\ int64_range n /\ ident_ok name
  end.

Definition Filter_wf (reserved : string -> bool) (f : Ast.Filter) : Prop :=
  Layers f <> [] /\ Forall (Layer_wf reserved) (Layers f) /\
  Forall (fun l => alt_nesting l <= maxAltDepth) (Layers f) /\
  match Where f with Some w => where_wf w | None => True end /\
  Forall capture_wf (Captures f).

(** ** The weakest-precondition layer *)

(** [m] from [p] runs without exhausting its fuel and, when it succeeds,
    ends in [Q]. *)
Definition safe {A} (m : M A) (p : pstate) (Q : A -> pstate -> Prop) : Prop :=
  match m p with
  | Ok (a, p') => Q a p'
  | Err PFuel => False
  | Err (PSyntax _) => True
  end.

(** The bytes not yet covered by the current token. *)
Definition rem (p : pstate) : nat := (length (src (lex p)) - spos (preCurSnap p))%nat.

(** The current token is what [Next] reads from [preCurSnap], and the
    lexer stands after it. *)
Definition synced (p : pstate) : Prop :=
  (pos (lex p) <= length (src (lex p)))%nat /\ (spos (preCurSnap p) <= pos (lex p))%nat /\
  Next (Restore (preCurSnap p) (lex p)) = Ok (cur p, lex p) /\
  (Kind (cur p) <> TokEOF -> (spos (preCurSnap p) < pos (lex p))%nat) /\ tok_ok (cur p).

(** [p'] continues [p]: same input and settings, at least [k] further. *)
Record step (k : nat) (p p' : pstate) : Prop := {
  step_synced : synced p';
  step_src : src (lex p') = src (lex p);
  step_rem : (rem p' + k <= rem p)%nat;
  step_reserved : reservedLabels p' = reservedLabels p;
  step_depth : depth p' = depth p
}.

(** ** Lemmas on the layer *)

Lemma safe_bind {A B} (m : M A) (k : A -> M B) p Q :
  safe m p (fun a p' => safe (k a) p' Q) -> safe (bind m k) p Q.
Proof. unfold safe, bind. now destruct (m p) as [[a p']|[e|]]. Qed.

Lemma safe_mono {A} (m : M A) p (Q R : A -> pstate -> Prop) :
  safe m p Q -> (forall a p', Q a p' -> R a p') -> safe m p R.
Proof. unfold safe. destruct (m p) as [[a p']|[e|]]; auto. Qed.

Lemma safe_ret {A} (a : A) p (Q : A -> pstate -> Prop) : Q a p -> safe (ret a) p Q.
Proof. auto. Qed.

Lemma safe_getp p (Q : pstate -> pstate -> Prop) : Q p p -> safe getp p Q.
Proof. auto. Qed.

Lemma safe_errorf {A} pos f args p (Q : A -> pstate -> Prop) : safe (errorf pos f args) p Q.
Proof. exact I. Qed.

Lemma safe_modify f p (Q : unit -> pstate -> Prop) : Q tt (f p) -> safe (modify f) p Q.
Proof. auto. Qed.

Lemma step_trans j k p1 p2 p3 : step j p1 p2 -> step k p2 p3 -> step (j + k) p1 p3.
Proof. intros [] []. constructor; try congruence; lia. Qed.

Lemma step_refl p : synced p -> step 0 p p.
Proof. constructor; auto. lia. Qed.

Lemma step_weaken j k p1 p2 : step j p1 p2 -> (k <= j)%nat -> step k p1 p2.
Proof. intros [] ?. constructor; auto. lia. Qed.

#[export] Hint Resolve step_refl : go.

(** Reaches a [step] goal through the steps in the context. *)
Ltac step_chain :=
  match goal with
  | H : step _ ?p ?q |- step _ ?p ?q => exact H
  | H : step ?j ?p ?q |- step _ ?p ?r => eapply (step_trans j _ p q r H); step_chain
  | H : synced ?p |- step _ ?p ?p => apply (step_refl p H)
  | H : step _ _ ?p |- step _ ?p ?p => apply (step_refl p (step_synced _ _ _ H))
  end.
Ltac steps := eapply step_weaken; [step_chain|lia].

(** Closes [synced] and fuel side conditions. *)
Ltac sync :=
  match goal with
  | H : synced ?p |- synced ?p => exact H
  | H : step _ _ ?p |- synced ?p => exact (step_synced _ _ _ H)
  end.
Ltac fuel :=
  repeat match goal with H : step _ _ _ |- _ => apply step_rem in H end; lia.

(** Runs the specification [L] of the next call. *)
Ltac side := first [sync | discriminate | congruence | assumption | fuel | steps | idtac].
Ltac call L := apply safe_bind; eapply safe_mono; [apply L; side|].
Ltac tailcall L := eapply safe_mono; [apply L; side|].

Ltac run :=
  cbn [negb];
  lazymatch goal with
  | |- safe (bind getp _) _ _ => apply safe_bind, safe_getp
  | |- safe (bind (modify _) _) _ _ => apply safe_bind, safe_modify
  | |- safe (bind (ret _) _) _ _ => apply safe_bind, safe_ret
  | |- safe (bind (errorf _ _ _) _) _ _ => apply safe_bind, safe_errorf
  | |- safe (errorf _ _ _) _ _ => apply safe_errorf
  | |- safe (ret _) _ _ => apply safe_ret
  end.

Lemma advance_raw p :
  (pos (lex p) <= length (src (lex p)))%nat ->
  safe advance p (fun _ p' => synced p' /\ src (lex p') = src (lex p) /\
    spos (preCurSnap p') = pos (lex p) /\ reservedLabels p' = reservedLabels p /\ depth p' = depth p).
Proof.
  intros Hle. unfold safe, advance. destruct (Next (lex p)) as [[t l]|e] eqn:E; [|exact I].
  pose proof (Next_scanned _ _ _ Hle E) as Hs. pose proof (scanned_consumed _ _ _ Hs) as (ws & _ & Hc).
  splits; try reflexivity; [|apply (consumed_src _ _ _ Hc)].
  unfold synced. simpl. splits.
  - eapply consumed_bound; eassumption.
  - rewrite (consumed_pos _ _ _ Hc). lia.
  - now rewrite (Restore_Save _ _ _ Hc).
  - now apply scanned_progress.
  - now apply Next_tok_ok in E.
Qed.

Lemma advance_spec p :
  synced p -> Kind (cur p) <> TokEOF -> safe advance p (fun _ p' => step 1 p p').
Proof.
  intros (H1 & H2 & _ & H4 & _) Hk. eapply safe_mono; [now apply advance_raw|].
  intros [] p' (Hs & Hsrc & Hpos & Hr & Hd). specialize (H4 Hk).
  constructor; auto. unfold rem. rewrite Hpos, Hsrc. lia.
Qed.

Lemma expect_spec p k :
  synced p -> k <> TokEOF ->
  safe (expect k) p (fun t p' => t = cur p /\ Kind t = k /\ tok_ok t /\ step 1 p p').
Proof.
  intros Hs Hk. unfold expect. run. case_bool_decide as E; simpl; [|run].
  apply safe_bind. eapply safe_mono; [apply advance_spec; auto; congruence|].
  intros [] p' Hstep. run. splits; auto. apply Hs.
Qed.

Lemma accept_spec p k :
  synced p -> k <> TokEOF ->
  safe (accept k) p (fun o p' => step 0 p p' /\
    match o with Some t => t = cur p /\ Kind t = k /\ tok_ok t /\ step 1 p p'
               | None => p' = p /\ Kind (cur p) <> k end).
Proof.
  intros Hs Hk. unfold accept. run. case_bool_decide as E; simpl.
  - apply safe_bind. eapply safe_mono; [apply advance_spec; auto; congruence|].
    intros [] p' Hstep. run. splits; auto; [steps|apply Hs].
  - run. splits; auto with go.
Qed.

(** Separated lists: [elem] only needs to be safe where less input is
    left than at the start. *)
Lemma sepLoop_spec {A} (R : A -> Prop) n sep (elem : M A) acc p :
  synced p -> sep <> TokEOF -> (rem p < n)%nat -> Forall R acc ->
  (forall p1, step 1 p p1 -> safe elem p1 (fun a p' => step 0 p1 p' /\ R a)) ->
  safe (sepLoop n sep elem acc) p
    (fun l p' => step 0 p p' /\ Forall R l /\ (length acc <= length l)%nat /\
       (Kind (cur p) = sep -> (length acc < length l)%nat)).
Proof.
  intros Hs Hk. revert acc p Hs. induction n as [|n IH]; intros acc p Hs Hf Hacc Helem; [lia|].
  simpl. run. case_bool_decide as E.
  - apply safe_bind. eapply safe_mono; [apply advance_spec; auto; congruence|]. intros [] p1 H1.
    apply safe_bind. eapply safe_mono; [apply (Helem _ H1)|]. intros a p2 [H2 Ha].
    eapply safe_mono; [apply IH|].
    + apply H2.
    + pose proof (step_rem _ _ _ H1). pose proof (step_rem _ _ _ H2). lia.
    + apply Forall_app. split; [exact Hacc|]. now constructor.
    + intros p3 H3. apply Helem. steps.
    + intros l p3 (H3 & Hl & Hlen & _). rewrite length_app in Hlen. simpl in Hlen.
      splits; auto; try steps; lia.
  - run. splits; auto with go. intros E'. congruence.
Qed.

(** ** Field paths *)

Lemma storeIndex_wf ix n idx :
  indices_wf ix n -> opt_index_wf idx -> indices_wf (storeIndex ix (S n) idx) (S n).
Proof.
  intros (H1 & H2 & H3) Hi. destruct idx as [e|]; [|unfold storeIndex, indices_wf; splits; auto; lia].
  
  unfold storeIndex, ensureIndexLen, indices_wf.
  replace (S n - length ix)%nat with (n - length ix + 1)%nat by lia.
  rewrite repeat_app, app_assoc. replace (S n - 1)%nat with (length (ix ++ repeat None (n - length ix)) + 0)%nat
    by (rewrite length_app, repeat_length; lia).
  rewrite insert_app_r. simpl. splits.
  - apply Forall_app. split; [|now constructor].
    apply Forall_app. split; [exact H1|]. apply List.Forall_forall. now intros x ->%repeat_spec.
  - rewrite !length_app, repeat_length. simpl. lia.
  - right. eauto.
Qed.

Lemma no_index_flat f : path_wf f -> hasAnyIndex f = false -> flat_path f.
Proof.
  intros (H1 & H2 & _ & _ & [H3|(ix & e & H3)]) H4; [easy|].
  unfold hasAnyIndex in H4. rewrite H3, existsb_app in H4. simpl in H4. now rewrite orb_true_r in H4.
Qed.

Definition path_post (p : pstate) (f : FieldPath) (p' : pstate) : Prop := step 0 p p' /\ path_wf f.

Lemma tryParseIndexExpr_spec fromHead p :
  synced p ->
  (forall head p1, step 2 p p1 -> ident_ok (Text head) -> safe (fromHead head) p1 (path_post p1)) ->
  safe (tryParseIndexExpr_with fromHead) p (fun o p' => step 0 p p' /\ opt_index_wf o).
Proof.
  intros Hs Hf. unfold tryParseIndexExpr_with. run. case_bool_decide as E; [|run; split; [steps|exact I]].
  cbn [negb]. call advance_spec. intros [] p1 H1. run.
  pose proof (step_synced _ _ _ H1) as (_ & _ & _ & _ & Htok). unfold tok_ok in Htok.
  destruct (Kind (cur p1)) eqn:K; try run.
  - call expect_spec. intros head p2 (-> & _ & Hid & H2). unfold tok_ok in Hid. rewrite K in Hid.
    apply safe_bind. eapply safe_mono; [apply Hf; [steps|exact Hid]|]. intros f p3 [H3 Hw].
    destruct (hasAnyIndex f) eqn:Hany; [run|]. call expect_spec. intros _ p4 (_ & _ & _ & H4). run.
    split; [steps|]. now apply no_index_flat.
  - call advance_spec. intros [] p2 H2. run. case_bool_decide as K2.
    + call advance_spec. intros [] p3 H3. run. case_bool_decide as K3; [|run].
      pose proof (step_synced _ _ _ H3) as (_ & _ & _ & _ & Htok3). unfold tok_ok in Htok3.
      rewrite K3 in Htok3. cbn [negb]. call advance_spec. intros [] p4 H4.
      call expect_spec. intros _ p5 (_ & _ & _ & H5). destruct (_ <=? _) eqn:Hle; run. bools.
      split; [steps|]. now splits.
    + call expect_spec. intros _ p3 (_ & _ & _ & H3). run. split; [steps|exact Htok].
Qed.

Lemma fieldPathTail_spec n tryIndex parts indices pos p :
  synced p -> (rem p < n)%nat -> path_wf (mkFieldPath parts indices pos) ->
  (forall p1, step 2 p p1 -> safe tryIndex p1 (fun o p' => step 0 p1 p' /\ opt_index_wf o)) ->
  safe (fieldPathTail n tryIndex parts indices pos) p (path_post p).
Proof.
  revert parts indices p. induction n as [|n IH]; intros parts indices p Hs Hn Hw Hidx; [lia|].
  cbn [fieldPathTail]. run. case_bool_decide as E; [|run; split; [steps|exact Hw]].
  - call advance_spec. intros [] p1 H1. call expect_spec. intros next p2 (_ & Hk & Hid & H2).
    unfold tok_ok in Hid. rewrite Hk in Hid. apply safe_bind. eapply safe_mono; [apply Hidx; steps|].
    intros o p3 [H3 Ho]. destruct Hw as (_ & Hp & Hi). cbn [Parts Indices] in *.
    rewrite length_app. cbn [length]. rewrite Nat.add_1_r. tailcall IH.
    + unfold path_wf. cbn [Parts Indices]. splits.
      * now destruct parts.
      * apply Forall_app. split; [exact Hp|now constructor].
      * rewrite length_app. cbn [length]. rewrite Nat.add_1_r. now apply storeIndex_wf.
    + intros p4 H4. apply Hidx. steps.
    + intros f p4 [H4 Hf]. split; [steps|exact Hf].
Qed.

Lemma parseFieldPathFromHead_spec n head p :
  synced p -> (rem p < n)%nat -> ident_ok (Text head) ->
  safe (parseFieldPathFromHead n head) p (path_post p).
Proof.
  revert head p. induction n as [|n IH]; intros head p Hs Hn Hid; [lia|].
  assert (Hidx : forall p1, step 0 p p1 ->
    safe (tryParseIndexExpr_with (parseFieldPathFromHead n)) p1 (fun o p' => step 0 p1 p' /\ opt_index_wf o)).
  { intros p1 H1. apply tryParseIndexExpr_spec; [sync|]. intros h p2 H2 Hh. apply IH; [sync|fuel|exact Hh]. }
  cbn [parseFieldPathFromHead]. apply safe_bind. eapply safe_mono; [apply Hidx; steps|].
  intros o p1 [H1 Ho]. tailcall fieldPathTail_spec.
  - unfold path_wf. cbn [Parts Indices length]. splits; [discriminate|now constructor|].
    apply storeIndex_wf; [|exact Ho]. unfold indices_wf. splits; auto.
  - intros p2 H2. apply Hidx. steps.
  - intros f p2 [H2 Hf]. split; [steps|exact Hf].
Qed.

Lemma parseFieldPath_spec n p :
  synced p -> (rem p < n)%nat -> safe (parseFieldPath n) p (fun f p' => step 1 p p' /\ path_wf f).
Proof.
  intros Hs Hn. unfold parseFieldPath. call expect_spec. intros t p1 (_ & Hk & Hid & H1).
  unfold tok_ok in Hid. rewrite Hk in Hid. tailcall parseFieldPathFromHead_spec.
  intros f p2 [H2 Hf]. split; [steps|exact Hf].
Qed.

(** ** Values and predicates *)

(** [p'] is [p] after one token in value mode: the parser has a token that
    it still has to [advance] over to be synchronised again. *)
Definition reading (p p' : pstate) : Prop :=
  (pos (lex p') <= length (src (lex p')))%nat /\ src (lex p') = src (lex p) /\
  (spos (preCurSnap p) < pos (lex p'))%nat /\
  reservedLabels p' = reservedLabels p /\ depth p' = depth p /\
  (Kind (cur p') = TokValue -> exists v, TValue (cur p') = Some v /\ value_wf v).

Lemma advanceValue_spec p :
  synced p -> Kind (cur p) <> TokEOF -> safe advanceValue p (fun _ p' => reading p p').
Proof.
  intros (H1 & H2 & _ & H4 & _) Hk. specialize (H4 Hk). unfold safe, advanceValue.
  destruct (NextValue (lex p)) as [[t l]|e] eqn:E; [|exact I].
  pose proof (NextValue_scanned _ _ _ H1 E) as [Hs Hv].
  pose proof (scanned_consumed _ _ _ Hs) as (ws & _ & Hc). unfold reading. cbn [lex cur preCurSnap]. splits; auto.
  - eapply consumed_bound; eassumption.
  - apply (consumed_src _ _ _ Hc).
  - rewrite (consumed_pos _ _ _ Hc). lia.
  - destruct Hv as [Hv|(_ & (v & Hv & Hcl) & _)]; [congruence|]. intros _. exists v. split; [exact Hv|].
    exists (B (Text t)), (TPos t). now apply classifyValue_Ok_wf.
Qed.

Lemma readValue_spec {A} (k : Value -> M A) p p1 Q :
  synced p -> reading p p1 -> Kind (cur p1) = TokValue ->
  (forall v p2, step 1 p p2 -> value_wf v -> safe (k v) p2 Q) ->
  safe (v <-- curValue ;; advance ;;; k v) p1 Q.
Proof.
  intros Hs (H1 & H2 & H3 & H4 & H5 & H6) Hk Hc. destruct (H6 Hk) as (v & Hv & Hw).
  unfold curValue. apply safe_bind. run. rewrite Hv. run.
  apply safe_bind. eapply safe_mono; [now apply advance_raw|].
  intros [] p2 (Hs2 & Hsrc & Hpos & Hr & Hd). apply Hc; [|exact Hw].
  constructor; auto; try congruence. unfold rem. rewrite Hpos, Hsrc, H2.
  destruct Hs as (? & ? & _). rewrite H2 in H1. lia.
Qed.

Lemma valueListTail_spec n values p :
  synced p -> (rem p < n)%nat -> values <> [] -> Forall value_wf values ->
  safe (valueListTail n values) p (fun vs p' => step 0 p p' /\ vs <> [] /\ Forall value_wf vs).
Proof.
  revert values p. induction n as [|n IH]; intros values p Hs Hn Hne Hw; [lia|].
  cbn [valueListTail]. run. case_bool_decide as E; [|run; splits; auto; steps].
  call advanceValue_spec. intros [] p1 H1. run. case_bool_decide as K; run || cbn [negb].
  eapply readValue_spec; eauto. intros v p2 H2 Hv. tailcall IH.
  - now destruct values.
  - apply Forall_app. split; [exact Hw|now constructor].
  - intros vs p3 (H3 & Hvs). split; [steps|exact Hvs].
Qed.

Lemma parseValueList_spec n p :
  synced p -> (rem p < n)%nat ->
  safe (parseValueList n) p (fun vs p' => step 1 p p' /\ vs <> [] /\ Forall value_wf vs).
Proof.
  intros Hs Hn. unfold parseValueList. run. case_bool_decide as E; [|run]. cbn [negb].
  call advanceValue_spec. intros [] p1 H1. run. case_bool_decide as K; [|run]. cbn [negb].
  eapply readValue_spec; eauto. intros v p2 H2 Hv. call valueListTail_spec; [now constructor|].
  intros vs p3 (H3 & Hvs). call expect_spec. intros _ p4 (_ & _ & _ & H4). run. split; [steps|exact Hvs].
Qed.

Lemma stripExistsTail_wf f : path_wf f -> stripped_path_wf (stripExistsTail f).
Proof.
  intros (_ & H2 & H3 & H4 & _). unfold stripped_path_wf, stripExistsTail. cbn [Parts Indices]. splits.
  - now apply Forall_take.
  - now apply Forall_take.
  - rewrite !length_take. lia.
Qed.

Lemma parseCmp_spec f op start p :
  synced p -> Kind (cur p) <> TokEOF -> path_wf f ->
  safe (advanceValue ;;;
        p <-- getp ;;
        if negb (bool_decide (Kind (cur p) = TokValue))
        then errorf (TPos (cur p)) "expected value after comparison operator, got %s" [AKind (Kind (cur p))]
        else
          v <-- curValue ;;
          advance ;;;
          ret (mkPredicate (PredCmp op v) f start)) p (fun q p' => step 0 p p' /\ pred_wf q).
Proof.
  intros Hs HE Hf. call advanceValue_spec. intros [] p2 H2. run.
  case_bool_decide as K; [|run]. cbn [negb]. eapply readValue_spec; eauto.
  intros v p3 H3 Hv. run. split; [steps|]. now split.
Qed.

Lemma parsePredicate_spec n p :
  synced p -> (rem p < n)%nat -> safe (parsePredicate n) p (fun q p' => step 0 p p' /\ pred_wf q).
Proof.
  intros Hs Hn. unfold parsePredicate. run. call parseFieldPath_spec. intros f p1 [H1 Hf]. run.
  destruct (_ && _ && _ && _) eqn:Ev.
  { run. split; [steps|]. unfold pred_wf. cbn [PKind PField]. split; [|now apply stripExistsTail_wf].
    bools. unfold stripExistsTail. cbn [Parts]. rewrite length_take. lia. }
  clear Ev. destruct (Kind (cur p1)) eqn:K; cbn [cmpOpFor];
    first [run | tailcall parseCmp_spec; intros q p2 [H2 Hq]; split; [steps|exact Hq] | idtac].
  - call advance_spec. intros [] p2 H2. run. case_bool_decide as K2.
    + call advance_spec. intros [] p3 H3. call expect_spec. intros t p4 (_ & Hk & Hid & H4).
      unfold tok_ok in Hid. rewrite Hk in Hid. run. split; [steps|]. now split.
    + call parseValueList_spec. intros vs p3 (H3 & Hvs). run. split; [steps|]. now split.
  - call advance_spec. intros [] p2 H2. call expect_spec. intros t p3 (_ & Hk & Hid & H3).
    unfold tok_ok in Hid. rewrite Hk in Hid. run. split; [steps|]. now split.
Qed.

Lemma parsePredicateList_spec n p :
  synced p -> (rem p < n)%nat ->
  safe (parsePredicateList n) p (fun qs p' => step 0 p p' /\ Forall pred_wf qs).
Proof.
  intros Hs Hn. unfold parsePredicateList. call parsePredicate_spec. intros q p1 [H1 Hq].
  tailcall (sepLoop_spec pred_wf).
  - now constructor.
  - intros p2 H2. tailcall parsePredicate_spec. auto.
  - intros qs p2 (H2 & Hqs & _). split; [steps|exact Hqs].
Qed.

(** ** Layers *)

Lemma int64_of_u64_range x : in_u64 x -> - two63 <= int64_of_u64 x < two63.
Proof. unfold in_u64, int64_of_u64, two64, two63. case_goal; bools; lia. Qed.

Lemma expect_int_spec p :
  synced p -> safe (expect TokInt) p (fun t p' => in_u64 (Int t) /\ step 1 p p').
Proof.
  intros Hs. tailcall expect_spec. intros t p' (_ & Hk & Ht & H1). unfold tok_ok in Ht.
  rewrite Hk in Ht. now split.
Qed.

Lemma expect_ident_spec p :
  synced p -> safe (expect TokIdent) p (fun t p' => ident_ok (Text t) /\ step 1 p p').
Proof.
  intros Hs. tailcall expect_spec. intros t p' (_ & Hk & Ht & H1). unfold tok_ok in Ht.
  rewrite Hk in Ht. now split.
Qed.

Lemma parseQuantRange_spec p : synced p -> safe parseQuantRange p (fun q p' => step 1 p p' /\ quant_wf q).
Proof.
  intros Hs. unfold parseQuantRange. call expect_spec. intros o p1 (_ & _ & _ & H1).
  call expect_int_spec. intros t p2 [Ht H2]. apply int64_of_u64_range in Ht.
  set (mn := int64_of_u64 (Int t)) in *. call accept_spec. intros comma p3 [H3 _].
  apply safe_bind. eapply (safe_mono _ _ (fun mx p4 => step 0 p3 p4 /\ (mx = -1 \/ mn <= mx < two63))).
  - destruct comma; [|run; split; [steps|lia]]. run. case_bool_decide; [|run; split; [steps|now left]].
    call expect_int_spec. intros t2 p4 [Ht2 H4]. apply int64_of_u64_range in Ht2.
    destruct (_ <? _) eqn:Hlt; run. bools. split; [steps|lia].
  - intros mx p4 [H4 Hmx]. call expect_spec. intros c p5 (_ & _ & _ & H5).
    destruct (mn <? 0) eqn:Hneg; run. bools. split; [steps|]. split; [lia|exact Hmx].
Qed.

Definition layer_post (p : pstate) (l : Layer) (p' : pstate) : Prop :=
  step 1 p p' /\ Layer_wf (reservedLabels p) l /\ alt_nesting l + depth p <= maxAltDepth.

Lemma Layer_wf_set_Quant r q l : quant_wf q -> Layer_wf r l -> Layer_wf r (set_Quant q l).
Proof. destruct l; simpl; tauto. Qed.

Lemma alt_nesting_set_Quant q l : alt_nesting (set_Quant q l) = alt_nesting l.
Proof. now destruct l. Qed.

Lemma parseQuantifier_spec l p :
  synced p -> Layer_wf (reservedLabels p) l -> alt_nesting l + depth p <= maxAltDepth ->
  safe (parseQuantifier l) p (layer_post p).
Proof.
  intros Hs Hl Hd. unfold parseQuantifier. run.
  destruct (Kind (cur p)) eqn:K; try run;
    first [call parseQuantRange_spec; intros q p1 [H1 Hq]; run | call advance_spec; intros [] p1 H1; run];
    unfold layer_post; rewrite alt_nesting_set_Quant; splits; auto;
    apply Layer_wf_set_Quant; auto; exact I.
Qed.

Lemma parseProtoLeaf_spec n start p :
  synced p -> (rem p < n)%nat -> depth p <= maxAltDepth ->
  safe (parseProtoLeaf n start) p (layer_post p).
Proof.
  intros Hs Hn Hd. unfold parseProtoLeaf. call expect_ident_spec. intros t p1 [Ht H1].
  call accept_spec. intros o p2 [H2 _].
  apply safe_bind. eapply (safe_mono _ _ (fun lab p3 => step 0 p2 p3 /\
    (lab = ""%string \/ ident_ok lab /\ reservedLabels p lab = false))).
  { destruct o; [|run; split; [steps|now left]]. call expect_ident_spec. intros lt p3 [Hlt H3].
    unfold isReservedLabel at 1. apply safe_bind. run. run.
    destruct (reservedLabels p3 (Text lt)) eqn:Er; run. split; [steps|]. right. split; [exact Hlt|].
    now rewrite <- (step_reserved _ _ _ H1), <- (step_reserved _ _ _ H2), <- (step_reserved _ _ _ H3). }
  intros lab p3 [H3 Hlab]. run.
  apply safe_bind. eapply (safe_mono _ _ (fun qs p4 => step 0 p3 p4 /\ Forall pred_wf qs)).
  { case_bool_decide; [|run; split; [steps|constructor]]. call advance_spec. intros [] p4 H4.
    call parsePredicateList_spec. intros qs p5 [H5 Hqs]. call expect_spec. intros c p6 (_ & _ & _ & H6).
    run. split; [steps|exact Hqs]. }
  intros qs p4 [H4 Hqs]. run. unfold layer_post. simpl. splits; auto. steps.
Qed.

Lemma step_set_depth k p p1 :
  step k (set_depth (depth p + 1) p) p1 -> step k p (set_depth (depth p1 - 1) p1).
Proof. intros [H1 H2 H3 H4 H5]. constructor; auto. simpl in *. lia. Qed.

Lemma fold_and_Forall {A} (P : A -> Prop) l : Forall P l -> fold_right (fun a acc => P a /\ acc) True l.
Proof. induction 1; simpl; auto. Qed.

Lemma fold_max_le {A} (f : A -> Z) l b :
  0 <= b -> Forall (fun a => f a <= b) l -> fold_right (fun a acc => Z.max (f a) acc) 0 l <= b.
Proof. intros Hb. induction 1; simpl; lia. Qed.

Lemma parseLayerAltGroup_spec item n start p :
  synced p -> (rem p < n)%nat ->
  (forall p1, step 1 (set_depth (depth p + 1) p) p1 -> depth p1 <= maxAltDepth ->
     safe item p1 (layer_post p1)) ->
  safe (parseLayerAltGroup item n start) p (layer_post p).
Proof.
  intros Hs Hn Hitem. unfold parseLayerAltGroup. run. destruct (maxAltDepth <=? depth p) eqn:Hd; [run|]. bools.
  run. set (p0 := set_depth (depth p + 1) p) in *. assert (Hs0 : synced p0) by exact Hs.
  assert (Hn0 : (rem p0 < n)%nat) by exact Hn.
  set (R := fun l => Layer_wf (reservedLabels p) l /\ alt_nesting l + (depth p + 1) <= maxAltDepth).
  assert (Hit : forall p1, step 1 p0 p1 -> safe item p1 (fun l p' => step 1 p1 p' /\ R l)).
  { intros p1 H1. assert (Hd1 : depth p1 = depth p + 1) by apply (step_depth _ _ _ H1).
    assert (Hr1 : reservedLabels p1 = reservedLabels p) by apply (step_reserved _ _ _ H1).
    eapply safe_mono; [apply Hitem; [exact H1|lia]|]. unfold layer_post, R. rewrite Hd1, Hr1. auto. }
  assert (Ep0 : p0 = set_depth (depth p + 1) p) by reflexivity.
  clearbody p0. call expect_spec. intros t p1 (_ & _ & _ & H1).
  apply safe_bind. eapply safe_mono; [apply Hit; steps|]. intros first p2 [H2 Hfirst]. run.
  case_bool_decide as K; [|run]. cbn [negb]. call (sepLoop_spec R).
  - now constructor.
  - intros p3 H3. eapply safe_mono; [apply Hit; steps|]. intros a p4 [H4 Ha]. split; [steps|exact Ha].
  - intros alts p3 (H3 & Halts & _ & Hlen). specialize (Hlen K). call expect_spec. intros c p4 (_ & _ & _ & H4).
    run. run. unfold layer_post. splits.
    + apply step_set_depth. rewrite <- Ep0. steps.
    + cbn [Layer_wf quant_wf]. splits; auto. apply fold_and_Forall. eapply List.Forall_impl; [|exact Halts]. now intros a [].
    + cbn [alt_nesting].
      assert (fold_right (fun a acc => Z.max (alt_nesting a) acc) 0 alts <= maxAltDepth - (depth p + 1)); [|lia].
      apply fold_max_le; [lia|]. eapply List.Forall_impl; [|exact Halts]. intros a [_ ?]. simpl in *. lia.
Qed.

Lemma parseLayerItem_spec n p :
  synced p -> (rem p < n)%nat -> depth p <= maxAltDepth -> safe (parseLayerItem n) p (layer_post p).
Proof.
  revert p. induction n as [|n IH]; intros p Hs Hn Hd; [lia|]. cbn [parseLayerItem].
  apply safe_bind. eapply (safe_mono _ _ (layer_post p)).
  - unfold parseLayerAtom. run. destruct (Kind (cur p)); try run.
    + now apply parseProtoLeaf_spec.
    + apply parseLayerAltGroup_spec; auto. intros p1 H1 Hd1. apply IH; [sync| |exact Hd1].
      apply step_rem in H1. unfold rem, set_depth in *. simpl in *. lia.
  - intros l p1 (H1 & Hl & Hdl). run.
    apply safe_bind. eapply (safe_mono _ _ (layer_post p)).
    + destruct (isQuantToken _); [|run; unfold layer_post; splits; auto].
      tailcall parseQuantifier_spec.
      * now rewrite (step_reserved _ _ _ H1).
      * now rewrite (step_depth _ _ _ H1).
      * unfold layer_post. rewrite (step_reserved _ _ _ H1), (step_depth _ _ _ H1).
        intros l' p2 (H2 & Hl2). split; [steps|exact Hl2].
    + intros l' p2 H2. run. destruct (isQuantToken _); run. exact H2.
Qed.

Lemma parseLayerChain_spec n p :
  synced p -> (rem p < n)%nat -> depth p = 0 ->
  safe (parseLayerChain n) p (fun ls p' => step 0 p p' /\ ls <> [] /\
    Forall (Layer_wf (reservedLabels p)) ls /\ Forall (fun l => alt_nesting l <= maxAltDepth) ls).
Proof.
  intros Hs Hn Hd. unfold parseLayerChain.
  set (R := fun l => Layer_wf (reservedLabels p) l /\ alt_nesting l <= maxAltDepth).
  assert (Hit : forall p1, step 0 p p1 -> safe (parseLayerItem n) p1 (fun l p' => step 1 p1 p' /\ R l)).
  { intros p1 H1. pose proof (step_reserved _ _ _ H1) as Hr. pose proof (step_depth _ _ _ H1) as Hd1.
    eapply safe_mono; [apply parseLayerItem_spec; [sync|fuel|unfold maxAltDepth; lia]|].
    unfold layer_post, R. rewrite Hr, Hd1, Hd. intros l p2 (H2 & Hl & Hn2). splits; auto. lia. }
  apply safe_bind. eapply safe_mono; [apply Hit; steps|]. intros first p1 [H1 Hf].
  tailcall (sepLoop_spec R).
  - now constructor.
  - intros p2 H2. eapply safe_mono; [apply Hit; steps|]. intros a p3 [H3 Ha]. split; [steps|exact Ha].
  - intros ls p2 (H2 & Hls & Hlen & _). splits; [steps|now destruct ls|..];
      (eapply List.Forall_impl; [|exact Hls]); now intros a [].
Qed.

(** ** Where expressions *)

Definition operand_wf (o : whereOperand) : Prop :=
  match o with
  | VArith a => arith_wf a
  | VBool b => where_wf b
  | VLit v => value_wf v /\ isNetworkLiteralKind (Value_Kind v) = true
  end.

Definition where_post (p : pstate) (v : whereValue) (p' : pstate) : Prop :=
  step 1 p p' /\ operand_wf (operand v).

Lemma whereBool_spec v p :
  operand_wf (operand v) -> safe (whereBool v) p (fun w p' => p' = p /\ where_wf w).
Proof.
  intros Hw. unfold whereBool. destruct (operand v); run; (split; [reflexivity|]); [|exact Hw].
  simpl. splits; try exact Hw; try discriminate; unfold in_u64, two64; lia.
Qed.

Lemma literalCompare_spec o op lit side t pos p :
  operand_wf o -> isEqNeq op = true -> operand_wf (VLit lit) ->
  safe (literalCompare o op lit side t pos) p (fun v p' => p' = p /\ operand_wf (operand v)).
Proof.
  intros Ho He [Hl1 Hl2]. unfold literalCompare. destruct o as [[]| |]; run. split; [reflexivity|].
  simpl. now splits.
Qed.

Lemma combineWhere_spec l t r p :
  operand_wf (operand l) -> operand_wf (operand r) ->
  safe (combineWhere l t r) p (fun v p' => p' = p /\ operand_wf (operand v)).
Proof.
  intros Hl Hr. unfold combineWhere. destruct (_ || _).
  { call whereBool_spec. intros a p1 [-> Ha]. call whereBool_spec. intros b p2 [-> Hb]. run.
    split; [reflexivity|]. destruct (bool_decide _); now split. }
  destruct (cmpOpFor (Kind t)) as [op|].
  - assert (Hbool : safe (if negb (isEqNeq op)
        then errorf (TPos t) "ordered comparison %s not allowed for Bool (Bool supports only == and !=)" [AStr (CmpOp_String op)]
        else l0 <-- whereBool l ;; r0 <-- whereBool r ;; ret (mkWV (VBool (WAtomBoolEq l0 op r0 (wpos l))) (wpos l)))
        p (fun v p' => p' = p /\ operand_wf (operand v))).
    { destruct (isEqNeq op) eqn:He; run || cbn [negb]. call whereBool_spec. intros a p1 [-> Ha].
      call whereBool_spec. intros b p2 [-> Hb]. run. split; [reflexivity|]. now splits. }
    destruct (operand l) eqn:El, (operand r) eqn:Er; try exact Hbool;
      try (destruct (isEqNeq op) eqn:He; [now apply literalCompare_spec|run]).
    run. now splits.
  - destruct (operand l) eqn:El, (operand r) eqn:Er; run. split; [reflexivity|]. now split.
Qed.

Lemma tryNetworkLiteral_spec p :
  synced p ->
  safe (tryNetworkLiteral (preCurSnap p)) p (fun o p' =>
    match o with
    | Some v => step 1 p p' /\ operand_wf (VLit v)
    | None => p' = p
    end).
Proof.
  intros (H1 & H2 & H3 & _). unfold safe, tryNetworkLiteral. rewrite H3.
  set (l0 := Restore (preCurSnap p) (lex p)) in *.
  assert (Hmiss : set_cur (cur p) (set_lex (lex p) p) = p) by now destruct p.
  destruct (NextValue l0) as [[t l]|e] eqn:E; [|exact Hmiss].
  assert (Hle : (pos l0 <= length (src l0))%nat) by (simpl; lia).
  destruct (NextValue_scanned _ _ _ Hle E) as [Hs Hv].
  destruct (Kind t) eqn:K; try exact Hmiss. destruct (TValue t) as [v|] eqn:Tv; [|exact Hmiss].
  destruct (isNetworkLiteralKind (Value_Kind v)) eqn:Hn; [|exact Hmiss].
  assert (Hlit : operand_wf (VLit v)).
  { split; [|exact Hn]. destruct Hv as [|(_ & (v' & Hv' & Hcl) & _)]; [congruence|].
    replace v' with v in Hcl by congruence. exists (B (Text t)), (TPos t). now apply classifyValue_Ok_wf. }
  pose proof (scanned_progress _ _ _ Hs ltac:(congruence)) as Hpr.
  pose proof (scanned_consumed _ _ _ Hs) as (ws & _ & Hc).
  pose proof (consumed_bound _ _ _ Hc Hle) as Hb. pose proof (consumed_src _ _ _ Hc) as Hsrc.
  pose proof (advance_raw (set_lex l p) Hb) as Ha. unfold safe, bind, ret in *.
  destruct (advance (set_lex l p)) as [[[] p']|[e'|]]; [|exact I|exact Ha].
  destruct Ha as (Hs' & Hsrc' & Hpos & Hr & Hd). split; [|exact Hlit].
  simpl in Hsrc', Hpos, Hr, Hd, Hpr, Hsrc. constructor; auto; try congruence.
  unfold rem. rewrite Hpos, Hsrc', Hsrc. rewrite Hsrc in Hb. lia.
Qed.

(** The nesting counters do not take part in [step]. *)
Lemma step_set_parenDepth k d e p p1 :
  step k (set_parenDepth d p) p1 -> step k p (set_parenDepth e p1).
Proof. intros []. now constructor. Qed.

Lemma step_set_exprDepth k d e p p1 :
  step k (set_exprDepth d p) p1 -> step k p (set_exprDepth e p1).
Proof. intros []. now constructor. Qed.

(** What the recursive calls of an expression parser must satisfy. *)
Definition expr_ok (expr : Z -> M whereValue) (p : pstate) : Prop :=
  forall prec p1, 0 < prec -> step 1 p p1 -> safe (expr prec) p1 (where_post p1).

Lemma expr_ok_step expr p p1 k : expr_ok expr p -> step k p p1 -> expr_ok expr p1.
Proof. intros H H1 prec p2 Hp H2. apply H; [exact Hp|steps]. Qed.

Lemma parseWhereGroup_spec expr p :
  synced p -> expr_ok expr p -> safe (parseWhereGroup expr) p (where_post p).
Proof.
  intros Hs He. unfold parseWhereGroup. run. destruct (_ <=? _); run.
  set (p0 := set_parenDepth (parenDepth p + 1) p). assert (Hs0 : synced p0) by exact Hs.
  assert (He0 : expr_ok expr p0).
  { intros prec p1 Hp H1. apply He; [exact Hp|]. destruct H1. now constructor. }
  assert (Hback : forall k d p1, step k p0 p1 -> step k p (set_parenDepth d p1)).
  { intros k d p1. apply step_set_parenDepth. }
  clearbody p0. call expect_spec. intros t p1 (_ & _ & _ & H1).
  call He0; [reflexivity|]. intros v p2 [H2 Hv]. call expect_spec. intros c p3 (_ & _ & _ & H3). run. run.
  split; [|exact Hv]. apply Hback. steps.
Qed.

Lemma parseActionAtom_spec start p :
  synced p -> safe (parseActionAtom start) p (fun w p' => step 1 p p' /\ where_wf w).
Proof.
  intros Hs. unfold parseActionAtom. call expect_spec. intros t p1 (_ & _ & _ & H1). run.
  case_bool_decide; [|run]. cbn [negb]. call advance_spec. intros [] p2 H2.
  call expect_ident_spec. intros i p3 [Hi H3]. run. split; [steps|exact Hi].
Qed.

Lemma negative_const n :
  in_u64 n -> n <= two63 ->
  in_u64 (u64 (two64 - 1 - n + 1)) /\ int64_of_u64 (u64 (two64 - 1 - n + 1)) = - n.
Proof.
  intros Hn Hle. split; [auto with go|]. replace (two64 - 1 - n + 1) with (two64 - n) by lia.
  unfold in_u64 in Hn. destruct (Z.eq_dec n 0) as [->|Hnz]; [reflexivity|].
  rewrite u64_small by (unfold in_u64; lia). unfold int64_of_u64, two63, two64 in *.
  case_goal; bools; lia.
Qed.

Lemma where_post_field n start p :
  synced p -> (rem p < n)%nat ->
  safe (field <-- parseFieldPath n ;;
        if fieldPathEndsWithExists field
        then ret (mkWV (VBool (WAtomBoolExists (stripExistsTail field) start)) start)
        else if fieldPathIsValid field
        then ret (mkWV (VBool (WAtomBoolValid (stripExistsTail field) start)) start)
        else ret (mkWV (VArith (ArithField field start)) start)) p (where_post p).
Proof.
  intros Hs Hn. call parseFieldPath_spec. intros f p1 [H1 Hf].
  destruct (fieldPathEndsWithExists f); [run; split; [steps|now apply stripExistsTail_wf]|].
  destruct (fieldPathIsValid f) eqn:Hv; run; (split; [steps|]); [|exact Hf].
  split; [now apply stripExistsTail_wf|]. unfold fieldPathIsValid in Hv. bools.
  unfold stripExistsTail. cbn [Parts]. rewrite length_take. lia.
Qed.

Lemma parseWherePrimary_spec expr n p :
  synced p -> (rem p < n)%nat -> expr_ok expr p -> safe (parseWherePrimary expr n) p (where_post p).
Proof.
  intros Hs Hn He. unfold parseWherePrimary. run. set (start := TPos (cur p)).
  assert (Hdef : safe (lit <-- tryNetworkLiteral (preCurSnap p) ;;
      match lit with
      | Some v => ret (mkWV (VLit v) start)
      | None =>
          p <-- getp ;;
          match Kind (cur p) with
          | TokInt =>
              let c := Int (cur p) in
              advance ;;; ret (mkWV (VArith (ArithConst c 0 false false start)) start)
          | TokWide =>
              let c := Int (cur p) in
              let hi := IntHi (cur p) in
              advance ;;; ret (mkWV (VArith (ArithConst c hi false true start)) start)
          | TokIdent =>
              field <-- parseFieldPath n ;;
              if fieldPathEndsWithExists field
              then ret (mkWV (VBool (WAtomBoolExists (stripExistsTail field) start)) start)
              else if fieldPathIsValid field
              then ret (mkWV (VBool (WAtomBoolValid (stripExistsTail field) start)) start)
              else ret (mkWV (VArith (ArithField field start)) start)
          | k => errorf start "expected integer, field path, Boolean or '(' in expression, got %s" [AKind k]
          end
      end) p (where_post p)).
  { call tryNetworkLiteral_spec. intros [v|] p1; [intros [H1 Hv]; run; now split|intros ->].
    run. pose proof Hs as (_ & _ & _ & _ & Ht). unfold tok_ok in Ht.
    destruct (Kind (cur p)) eqn:K; try run; [now apply where_post_field|..];
      call advance_spec; intros [] p1 H1; run; (split; [steps|]); simpl; splits;
      try tauto; try discriminate; unfold in_u64, two64; lia. }
  destruct (Kind (cur p)) eqn:K; try exact Hdef; clear Hdef.
  1,2: call advance_spec; intros [] p1 H1; run; (case_bool_decide as K1; [|run]); cbn [negb];
    call parseWhereGroup_spec; [eapply expr_ok_step; eassumption|]; intros v p2 [H2 Hv];
    call whereBool_spec; intros b p3 [-> Hb]; run; (split; [steps|exact Hb]).
  - call advance_spec. intros [] p1 H1. call He; [reflexivity|]. intros v p2 [H2 Hv].
    call whereBool_spec. intros b p3 [-> Hb]. run. split; [steps|exact Hb].
  - call parseActionAtom_spec. intros w p1 [H1 Hw]. run. now split.
  - call advance_spec. intros [] p1 H1. run. now split.
  - call advance_spec. intros [] p1 H1. run. now split.
  - now apply parseWhereGroup_spec.
  - call advance_spec. intros [] p1 H1. run. case_bool_decide as K1; [|run]. cbn [negb].
    pose proof (step_synced _ _ _ H1) as (_ & _ & _ & _ & Ht). unfold tok_ok in Ht. rewrite K1 in Ht.
    destruct (two63 <? Int (cur p1)) eqn:Hle; [run|]. bools. call advance_spec. intros [] p2 H2. run.
    split; [steps|]. destruct (negative_const (Int (cur p1)) Ht) as [Hu Hi]; [lia|].
    cbn [operand operand_wf arith_wf]. rewrite Hi. unfold in_u64, two64, two63 in *.
    splits; try tauto; try discriminate; lia.
Qed.

Lemma whereLoop_spec n expr minPrec left p :
  synced p -> (rem p < n)%nat -> 0 < minPrec -> operand_wf (operand left) -> expr_ok expr p ->
  safe (whereLoop n expr minPrec left) p (fun v p' => step 0 p p' /\ operand_wf (operand v)).
Proof.
  revert left p. induction n as [|n IH]; intros left p Hs Hn Hm Hl He; [lia|]. cbn [whereLoop]. run.
  case_bool_decide; [run|]. destruct (wherePrecedence (Kind (cur p)) <? minPrec) eqn:Hp.
  { run. split; [steps|exact Hl]. }
  bools. call advance_spec. { intros E. rewrite E in Hp. simpl in Hp. lia. }
  intros [] p1 H1. apply safe_bind. eapply safe_mono; [apply He; [case_goal; lia|steps]|].
  intros r p2 [H2 Hr]. call combineWhere_spec. intros v p3 [-> Hv]. run.
  destruct (_ && _); [run|]. tailcall IH; [eapply expr_ok_step; [exact He|step_chain]|].
  intros v' p3 [H3 Hv']. split; [steps|exact Hv'].
Qed.

Lemma parseWhereExpr_spec n prec p :
  synced p -> (rem p < n)%nat -> 0 < prec -> safe (parseWhereExpr n prec) p (where_post p).
Proof.
  revert prec p. induction n as [|n IH]; intros prec p Hs Hn Hp; [lia|]. cbn [parseWhereExpr]. run.
  destruct (_ <=? _); run.
  set (p0 := set_exprDepth (exprDepth p + 1) p). assert (Hs0 : synced p0) by exact Hs.
  assert (Hn0 : (rem p0 < S n)%nat) by exact Hn.
  assert (Hback : forall k d p1, step k p0 p1 -> step k p (set_exprDepth d p1)).
  { intros k d p1. apply step_set_exprDepth. }
  clearbody p0. assert (He : expr_ok (parseWhereExpr n) p0).
  { intros q p1 Hq H1. apply IH; [sync|fuel|exact Hq]. }
  call parseWherePrimary_spec. intros v p1 [H1 Hv].
  call whereLoop_spec; [eapply expr_ok_step; eassumption|]. intros v' p2 [H2 Hv']. run. run.
  split; [|exact Hv']. apply Hback. steps.
Qed.

Lemma parseOrExpr_spec n p :
  synced p -> (rem p < n)%nat -> safe (parseOrExpr n) p (fun w p' => step 1 p p' /\ where_wf w).
Proof.
  intros Hs Hn. unfold parseOrExpr. call parseWhereExpr_spec; [reflexivity|]. intros v p1 [H1 Hv].
  tailcall whereBool_spec. intros w p2 [-> Hw]. now split.
Qed.

Lemma parseWhereClause_spec n p :
  synced p -> (rem p < n)%nat -> safe (parseWhereClause n) p (fun w p' => step 1 p p' /\ where_wf w).
Proof.
  intros Hs Hn. unfold parseWhereClause. call expect_spec. intros t p1 (_ & _ & _ & H1).
  tailcall parseOrExpr_spec. intros w p2 [H2 Hw]. split; [steps|exact Hw].
Qed.

(** ** Captures and the whole filter *)

Lemma parseOptionalPlusInt_spec p :
  synced p -> safe parseOptionalPlusInt p (fun r p' => step 0 p p' /\ int64_range (fst r)).
Proof.
  intros Hs. unfold parseOptionalPlusInt. call accept_spec. intros [t|] p1 [H1 _].
  - call expect_int_spec. intros i p2 [Hi H2]. run. split; [steps|]. now apply int64_of_u64_range.
  - run. split; [steps|]. unfold int64_range, two63. simpl. lia.
Qed.

Lemma parseCaptureIdent_spec n p :
  synced p -> (rem p < n)%nat -> Kind (cur p) = TokIdent ->
  safe (parseCaptureIdent n) p (fun c p' => step 1 p p' /\ capture_wf c).
Proof.
  intros Hs Hn K. pose proof Hs as (_ & _ & _ & _ & Hid). unfold tok_ok in Hid. rewrite K in Hid.
  unfold parseCaptureIdent. run. call advance_spec. intros [] p1 H1. run.
  destruct (String.eqb _ _ && bool_decide (Kind (cur p1) = TokInt)) eqn:Ha.
  - apply andb_prop in Ha as [_ Ha]. apply bool_decide_eq_true in Ha.
    pose proof (step_synced _ _ _ H1) as (_ & _ & _ & _ & Hi). unfold tok_ok in Hi. rewrite Ha in Hi.
    call advance_spec. intros [] p2 H2. run. split; [steps|]. split; [exact I|]. simpl. split; [reflexivity|].
    now apply int64_of_u64_range.
  - clear Ha. case_bool_decide as Hd.
    + call parseFieldPathFromHead_spec. intros f p2 [H2 Hf]. call (sepLoop_spec path_wf).
      * now constructor.
      * intros p3 H3. tailcall parseFieldPath_spec. intros g p4 [H4 Hg]. split; [steps|exact Hg].
      * intros fs p3 (H3 & Hfs & Hlen & _). run. split; [steps|]. split; [exact I|]. simpl.
        splits; auto. now destruct fs.
    + call parseOptionalPlusInt_spec. intros r p2 [H2 Hr]. run. split; [steps|]. split; [exact I|]. simpl. auto.
Qed.

Lemma parseCaptureSpec_spec n p :
  synced p -> (rem p < n)%nat -> safe (parseCaptureSpec n) p (fun c p' => step 1 p p' /\ capture_wf c).
Proof.
  intros Hs Hn. unfold parseCaptureSpec. run. destruct (Kind (cur p)) eqn:K; try run.
  - now apply parseCaptureIdent_spec.
  - call advance_spec. intros [] p1 H1. run. now split.
  - call advance_spec. intros [] p1 H1. call parseOptionalPlusInt_spec. intros [x b] p2 [H2 Hx]. run.
    split; [steps|]. split; [exact I|]. simpl. now destruct b.
Qed.

Lemma parseCaptureClause_spec n p :
  synced p -> (rem p < n)%nat -> safe (parseCaptureClause n) p (fun c p' => step 1 p p' /\ capture_wf c).
Proof.
  intros Hs Hn. unfold parseCaptureClause. run. call expect_spec. intros t p1 (_ & _ & _ & H1).
  call parseCaptureSpec_spec. intros c p2 [H2 Hc]. run. case_bool_decide.
  - call parseWhereClause_spec. intros w p3 [H3 Hw]. run. split; [steps|]. split; [exact Hw|]. apply Hc.
  - run. split; [steps|exact Hc].
Qed.

Lemma captureLoop_spec n clause acc p :
  synced p -> (rem p < n)%nat -> Forall capture_wf acc ->
  (forall p1, step 0 p p1 -> safe clause p1 (fun c p' => step 1 p1 p' /\ capture_wf c)) ->
  safe (captureLoop n clause acc) p (fun cs p' => step 0 p p' /\ Forall capture_wf cs).
Proof.
  revert acc p. induction n as [|n IH]; intros acc p Hs Hn Hacc Hc; [lia|]. cbn [captureLoop]. run.
  case_bool_decide; [|run; split; [steps|exact Hacc]]. call Hc. intros c p1 [H1 Hw]. tailcall IH.
  - apply Forall_app. split; [exact Hacc|now constructor].
  - intros p2 H2. apply Hc. steps.
  - intros cs p2 [H2 Hcs]. split; [steps|exact Hcs].
Qed.

Lemma parseFilter_spec n p :
  synced p -> (rem p < n)%nat -> depth p = 0 ->
  safe (parseFilter n) p (fun f p' => Filter_wf (reservedLabels p) f /\ Kind (cur p') = TokEOF).
Proof.
  intros Hs Hn Hd. unfold parseFilter. run. case_bool_decide; [run|].
  call parseLayerChain_spec. intros ls p1 (H1 & Hls). run.
  apply safe_bind. eapply (safe_mono _ _ (fun o p2 => step 0 p1 p2 /\
    match o with Some w => where_wf w | None => True end)).
  { case_bool_decide; [|run; split; [steps|exact I]]. call parseWhereClause_spec. intros w p2 [H2 Hw].
    run. split; [steps|exact Hw]. }
  intros o p2 [H2 Ho]. call captureLoop_spec; [constructor|..].
  { intros p3 H3. apply parseCaptureClause_spec; [sync|fuel]. }
  intros cs p3 [H3 Hcs]. run. case_bool_decide as K; [|run]. cbn [negb]. run.
  unfold Filter_wf. cbn [Layers Where Captures]. destruct Hls as (? & ? & ?). now splits.
Qed.

Lemma Parse_spec expr file reserved :
  match Parse expr file reserved with
  | Ok f => Filter_wf reserved f
  | Err (PSyntax _) => True
  | Err PFuel => False
  end.
Proof.
  unfold Parse.
  assert (H : safe (advance ;;; parseFilter (S (length expr))) (init expr file reserved)
                (fun f _ => Filter_wf reserved f)).
  { apply safe_bind. eapply safe_mono; [apply advance_raw; simpl; lia|].
    intros [] p (Hs & Hsrc & Hpos & Hr & Hd). simpl in *. rewrite <- Hr.
    eapply safe_mono; [apply parseFilter_spec; auto|now intros f p' []].
    unfold rem. rewrite Hpos, Hsrc. lia. }
  unfold safe in H. case_goal; [destruct a|destruct e]; exact H.
Qed.

(** ** Properties *)

(** C25: parsing terminates: on every input the fuel [Parse] starts with is
    enough, so the result is a filter or a syntax error, never an exhausted
    recursion. *)
Theorem Parse_terminates expr file reserved : Parse expr file reserved <> Err PFuel.
Proof. intros E. pose proof (Parse_spec expr file reserved) as H. now rewrite E in H. Qed.


