(* ===== verification/Ir.v ===== *)
(** * Ir: the resolved program (pkg/kunai/ir)

    Layers, field references and resolved expressions, with the layer
    arithmetic the resolver and the code generator share: quantifier
    bounds, effective bit widths and the runtime parents of a layer.
    Pointers that are nil when a part is absent are options; [Predicates],
    [Unsupported], the marks of the stack plan ([NeedsRuntimeOffset],
    [LayerPos]) and the parse machine of a protocol are left out; the owner
    option of a stack is named by its out parameter. *)

From Stdlib Require Import ZArith Lia Bool Ascii String List.
From stdpp Require Import base list strings numbers option gmap pretty.
From S2P Require Import Prelude GoStd Ast.
Local Open Scope Z_scope.

(** ** vocab *)

Record Field := mkField { Name : string; Bits : Z }.

#[export] Instance vocab_field_eq_dec : EqDecision Field. Proof. solve_decision. Defined.

(** The header field that counts a stack: a byte, plus a constant. *)
Record StackCountSpec := mkStackCount { CountByteOff : Z; Addend : Z }.

(** What the modelled code reads of a protocol. *)
Record ProtocolSpec := mkSpec { SpecName : string; Fields : list Field; StackCounts : gmap string StackCountSpec }.

#[export] Instance stack_count_eq_dec : EqDecision StackCountSpec. Proof. solve_decision. Defined.
#[export] Instance spec_eq_dec : EqDecision ProtocolSpec. Proof. solve_decision. Defined.

(** [vocab.BitOffsetIn]: offset and width of the first field of the name. *)
Fixpoint BitOffsetIn_from (bitOff : Z) (fields : list Field) (name : string) : option (Z * Z) :=
  match fields with
  | [] => None
  | f :: fs => if bool_decide (Name f = name) then Some (bitOff, Bits f) else BitOffsetIn_from (bitOff + Bits f) fs name
  end.
Definition BitOffsetIn (fields : list Field) (name : string) : option (Z * Z) := BitOffsetIn_from 0 fields name.

(** When an aux header is there: a byte of the primary header, masked. *)
Inductive GatingOp := GatingEq | GatingNe.
Record AuxGating := mkGating { GateByteOff : Z; GateMask : Z; GateOp : GatingOp; GateValue : Z }.

(** [vocab.SumBits]. *)
Definition SumBits (fields : list Field) : Z := fold_left (fun total f => total + Bits f) fields 0.

(** ** Layers *)

Record DispatchChoice := mkDispatch { IsAltDiverged : bool }.

(** [Alternation = None] is Go's nil slice. The quantifier's [RangeMin]
    and [RangeMax] are the arguments of [QuantRange]. *)
Inductive LayerInstance := mkLayerInstance
  (Spec : option ProtocolSpec) (Label : string) (Quant : QuantKind)
  (Dispatch : option DispatchChoice) (Alternation : option (list LayerInstance)) (Pos : Position).

(** The code compares pointers to layers. A layer has its position in the
    source, so two layers of a program are not equal. *)
#[export] Instance dispatch_eq_dec : EqDecision DispatchChoice. Proof. solve_decision. Defined.
#[export] Instance quant_eq_dec : EqDecision QuantKind. Proof. solve_decision. Defined.

(** The equalities are used in the proofs only, so the test computes. *)
#[export] Instance layer_eq_dec : EqDecision LayerInstance.
Proof.
  unfold EqDecision, RelDecision, Decision. fix go 1. intros [s l q d alts p] [s' l' q' d' alts' p'].
  destruct (decide (s = s' /\ l = l' /\ q = q' /\ d = d' /\ p = p')) as [H|H]; [|right; intros [=]; tauto].
  destruct alts as [alts|], alts' as [alts'|]; [|right; congruence|right; congruence|left; intuition congruence].
  destruct (List.list_eq_dec go alts alts') as [Ha|Ha]; [left; intuition congruence|right; congruence].
Defined.

Definition Spec (l : LayerInstance) := let '(mkLayerInstance s _ _ _ _ _) := l in s.
Definition LQuant (l : LayerInstance) := let '(mkLayerInstance _ _ q _ _ _) := l in q.
Definition Dispatch (l : LayerInstance) := let '(mkLayerInstance _ _ _ d _ _) := l in d.
Definition Alternation (l : LayerInstance) := let '(mkLayerInstance _ _ _ _ a _) := l in a.
Definition LPos (l : LayerInstance) := let '(mkLayerInstance _ _ _ _ _ p) := l in p.

(** [strings.Join]. *)
Fixpoint Join (ss : list string) (sep : string) : string :=
  match ss with
  | [] => ""
  | [s] => s
  | s :: ss' => s +:+ sep +:+ Join ss' sep
  end.

Fixpoint DisplayName (l : LayerInstance) : string :=
  match l with
  | mkLayerInstance _ _ _ _ (Some alts) _ => "(" +:+ Join (map DisplayName alts) "|" +:+ ")"
  | mkLayerInstance None _ _ _ None _ => "?"
  | mkLayerInstance (Some spec) label _ _ None _ =>
      if bool_decide (label = ""%string) then SpecName spec else SpecName spec +:+ "@" +:+ label
  end.

(** [ast.Position.String]. *)
Definition Position_String (p : Position) : string := fmtd (Line p) +:+ ":" +:+ fmtd (Col p).

(** [LayersAt] slices off the last name: an empty list panics ([None]). *)
Definition LayersAt (ms : list LayerInstance) : option string :=
  let names := map (fun m => DisplayName m +:+ " at " +:+ Position_String (LPos m)) ms in
  let n := (length names - 1)%nat in
  match names, names !! n with
  | [name], _ => Some name
  | _, Some last => Some (Join (take n names) ", " +:+ " and " +:+ last)
  | _, None => None
  end.

Definition Absentable (l : LayerInstance) : bool :=
  match LQuant l with
  | QuantOpt | QuantStar => true
  | QuantRange lo _ => lo =? 0
  | _ => false
  end.

Definition Bounds (l : LayerInstance) : Z * Z :=
  match LQuant l with
  | QuantOne => (1, 1)
  | QuantOpt => (0, 1)
  | QuantPlus => (1, -1)
  | QuantStar => (0, -1)
  | QuantRange lo hi => (lo, hi)
  end.

Definition CanRepeat (l : LayerInstance) : bool :=
  let max := snd (Bounds l) in (max <? 0) || (1 <? max).

Definition QuantText (l : LayerInstance) : string :=
  match LQuant l with
  | QuantOne => ""
  | QuantOpt => "?"
  | QuantPlus => "+"
  | QuantStar => "*"
  | QuantRange lo hi =>
      if hi <? 0 then "{" +:+ fmtd lo +:+ ",}" else "{" +:+ fmtd lo +:+ "," +:+ fmtd hi +:+ "}"
  end.

(** The loop of [IsHeterogeneousAlt]: [hs] is the size of the members
    before, once there is one. *)
Fixpoint heterogeneous_from (hs : option Z) (alts : list LayerInstance) : bool :=
  match alts with
  | [] => false
  | alt :: alts' =>
      match Spec alt with
      | None => false
      | Some spec =>
          let bits := SumBits (Fields spec) in
          if negb (bits mod 8 =? 0) then false
          else
            let ahs := bits / 8 in
            match hs with
            | None => heterogeneous_from (Some ahs) alts'
            | Some hs => if negb (ahs =? hs) then true else heterogeneous_from (Some hs) alts'
            end
      end
  end.

Definition IsHeterogeneousAlt (l : LayerInstance) : bool :=
  match Alternation l with
  | None => false
  | Some alts => heterogeneous_from None alts
  end.

(** ** parents.go *)

(** The loop of [RuntimeParents] from [j - 1] down to 0. *)
Fixpoint RuntimeParents_loop (layers : list LayerInstance) (j : nat) (parents : list nat)
    : list nat * bool :=
  match j with
  | O => (parents, false)
  | S j' =>
      match layers !! j' with
      | None => (parents, false)
      | Some prev =>
          if is_Some_b (Alternation prev) then (parents, true)
          else if negb (Absentable prev) then (parents ++ [j'], false)
          else RuntimeParents_loop layers j' (parents ++ [j'])
      end
  end.

(** [i] is an index of [layers] or its length, as at every call site. *)
Definition RuntimeParents (layers : list LayerInstance) (i : nat) : list nat * bool :=
  RuntimeParents_loop layers i [].

Definition AbsentEdgeApplies (layers : list LayerInstance) (i : nat) : bool :=
  if ((i <? 1) || (length layers <=? i + 1))%nat then false
  else
    match layers !! i, layers !! (i - 1)%nat, layers !! (i + 1)%nat with
    | Some l, Some gp, Some next =>
        if negb (Absentable l) then false
        else if Absentable gp || is_Some_b (Alternation gp) then false
        else
          match LQuant next, Alternation next, Dispatch next with
          | QuantOne, None, Some d => negb (IsAltDiverged d)
          | _, _, _ => false
          end
    | _, _, _ => false
    end.

(** ** Field references *)

Record FieldSlice := mkFieldSlice { Lo : Z; Hi : Z }.

Definition FieldSlice_Bits (s : option FieldSlice) : Z :=
  match s with
  | None => 0
  | Some s => Hi s - Lo s
  end.

(** Which entry of a stack: [Dynamic] is the primary-header field of the
    same layer a dynamic index reads. *)
Record StackIndex := mkStackIndex {
  StackCapacity : Z;
  IsStatic : bool;
  Static : Z;
  Dynamic : option Field;
  IsIterator : bool;
  Guarded : bool
}.

Record AuxRef := mkAux {
  OutParam : string;
  HeaderName : string;
  OffsetInLayer : Z;
  HeaderSize : Z;
  Gating : option AuxGating;
  FieldBitOff : Z;
  FieldBitWidth : Z;
  Stack : option StackIndex;
  OwnerOption : option string;
  OffsetAfterOwner : Z
}.

Record FieldRef := mkFieldRef {
  RefLayer : LayerInstance;
  RefField : option Field;
  Aux : option AuxRef;
  Slice : option FieldSlice
}.

Definition EffectiveBits (r : FieldRef) : Z :=
  match Slice r, Aux r, RefField r with
  | Some s, _, _ => FieldSlice_Bits (Some s)
  | None, Some a, _ => FieldBitWidth a
  | None, None, Some f => Bits f
  | None, None, None => 0
  end.

Definition IsExistsCheck (r : FieldRef) : bool := is_Some_b (Aux r) && negb (is_Some_b (RefField r)).

(** ** Resolved expressions *)

Module IR.

Inductive ArithExpr :=
| ArithConst (Const ConstHi : Z) (Negative Wide : bool) (Pos : Position)
| ArithField (Field : FieldRef) (Pos : Position)
| ArithBinOp (Op : ArithOp) (Left Right : ArithExpr) (Pos : Position).

Definition Pos (e : ArithExpr) : Position :=
  match e with ArithConst _ _ _ _ p | ArithField _ p | ArithBinOp _ _ _ p => p end.

Record QuantTarget := mkQuantTarget {
  QLayer : LayerInstance; QOutParam : string; QHeaderName : string;
  QOffsetInLayer : Z; ElemSize : Z; Capacity : Z
}.

Inductive Condition :=
| COr (Left Right : Condition) (Pos : Position)
| CAnd (Left Right : Condition) (Pos : Position)
| CNot (Inner : Condition) (Pos : Position)
| CAny (Inner : Condition) (Target : QuantTarget) (Pos : Position)
| CAll (Inner : Condition) (Target : QuantTarget) (Pos : Position)
| CAtomArith (ArithL : ArithExpr) (Op : CmpOp) (ArithR : ArithExpr) (Pos : Position)
| CAtomLiteralCmp (LiteralField : FieldRef) (LiteralOp : CmpOp) (LiteralValue : Value) (Pos : Position)
| CAtomAction (ActionValue : string) (Pos : Position)
| CAtomBoolLit (BoolLitValue : bool) (Pos : Position)
| CAtomBoolExists (BoolField : FieldRef) (Pos : Position)
| CAtomBoolValid (BoolField : FieldRef) (Pos : Position)
| CAtomBoolEq (BoolL : Condition) (BoolEqOp : CmpOp) (BoolR : Condition) (Pos : Position).

End IR.

(** ** What the runtime parents of a layer are

    A packet instantiates the chain: it gives every layer a number of
    headers within its quantifier's bounds. The runtime parent of layer
    [i] is the last layer before it that got at least one header. *)

Definition count_ok (l : LayerInstance) (c : Z) : Prop :=
  fst (Bounds l) <= c /\ (0 <= snd (Bounds l) -> c <= snd (Bounds l)).

Definition instantiates (layers : list LayerInstance) (cs : list Z) : Prop := Forall2 count_ok layers cs.

Definition runtime_parent (cs : list Z) (i j : nat) : Prop :=
  (j < i)%nat /\ (exists c, cs !! j = Some c /\ 0 < c) /\
  forall k, (j < k < i)%nat -> cs !! k = Some 0.

(** Quantifier bounds that admit at least one header. *)
Definition quant_sat (l : LayerInstance) : Prop :=
  0 <= fst (Bounds l) /\ (snd (Bounds l) < 0 \/ fst (Bounds l) <= snd (Bounds l) /\ 0 < snd (Bounds l)).

Definition is_alt (layers : list LayerInstance) (k : nat) : Prop :=
  exists l, layers !! k = Some l /\ Alternation l <> None.

Definition plain (layers : list LayerInstance) (k : nat) : Prop :=
  exists l, layers !! k = Some l /\ Alternation l = None.

Definition absentable_at (layers : list LayerInstance) (k : nat) : Prop :=
  exists l, layers !! k = Some l /\ Absentable l = true.

Lemma Absentable_iff l : Absentable l = true <-> fst (Bounds l) = 0.
Proof. unfold Absentable, Bounds. destruct (LQuant l); simpl; split; intros H; bools; try lia; easy. Qed.

Lemma plain_iff layers k l : layers !! k = Some l -> (plain layers k <-> is_Some_b (Alternation l) = false).
Proof.
  intros Hl. unfold plain. split.
  - intros (l' & Hl' & Ha). replace l' with l in Ha by congruence. now rewrite Ha.
  - intros Ha. exists l. split; [exact Hl|]. now destruct (Alternation l).
Qed.

(** The walk, without reference to packets. *)
Lemma RuntimeParents_loop_spec layers i acc :
  (i <= length layers)%nat ->
  exists ps alt, RuntimeParents_loop layers i acc = (acc ++ ps, alt) /\
    (forall j, In j ps <-> (j < i)%nat /\ plain layers j /\
       forall k, (j < k < i)%nat -> plain layers k /\ absentable_at layers k) /\
    (alt = true <-> exists k, (k < i)%nat /\ is_alt layers k /\
       forall m, (k < m < i)%nat -> plain layers m /\ absentable_at layers m).
Proof.
  revert acc. induction i as [|i IH]; intros acc Hi; simpl.
  { exists [], false. rewrite app_nil_r. splits; [reflexivity|..].
    - intros j. simpl. split; [easy|lia].
    - split; [easy|]. intros (k & Hk & _). lia. }
  destruct (layers !! i) as [l|] eqn:Hl; [|apply lookup_ge_None in Hl; lia].
  pose proof (plain_iff _ _ _ Hl) as Hplain.
  destruct (is_Some_b (Alternation l)) eqn:Ea.
  { exists [], true. rewrite app_nil_r. splits; [reflexivity|..].
    - intros j. simpl. split; [easy|]. intros (Hj & Hp & Hk).
      assert (plain layers i) by (destruct (decide (j = i)) as [<-|]; [exact Hp|apply Hk; lia]). now apply Hplain in H.
    - split; [|easy]. intros _. exists i. splits; [lia| |intros; lia].
      exists l. split; [exact Hl|]. intros E. now rewrite E in Ea. }
  destruct (Absentable l) eqn:Eab; simpl.
  - destruct (IH (acc ++ [i])) as (ps & alt & E & Hps & Halt); [lia|].
    exists (i :: ps), alt. rewrite E, <- app_assoc. splits; [reflexivity|..].
    + intros j. simpl. rewrite Hps. split.
      * intros [<-|(Hj & Hp & Hk)]; splits; try lia; try tauto; try (intros; lia).
        intros k Hk'. destruct (decide (k = i)) as [->|]; [|apply Hk; lia].
        split; [now apply Hplain|now exists l].
      * intros (Hj & Hp & Hk). destruct (decide (j = i)); [now left|]. right.
        splits; [lia|exact Hp|]. intros k Hk'. apply Hk. lia.
    + rewrite Halt. split; intros (k & Hk & Ha & Hm); exists k; splits; auto; try lia.
      * intros m Hm'. destruct (decide (m = i)) as [->|]; [|apply Hm; lia].
        split; [now apply Hplain|now exists l].
      * destruct (decide (k = i)) as [->|]; [|lia]. destruct Ha as (l' & Hl' & Ha).
        replace l' with l in Ha by congruence. now destruct (Alternation l).
      * intros m Hm'. apply Hm. lia.
  - exists [i], false. splits; [reflexivity|..].
    + intros j. simpl. split.
      * intros [<-|[]]. splits; [lia|now apply Hplain|intros; lia].
      * intros (Hj & _ & Hk). left. destruct (decide (j = i)); [congruence|].
        destruct (Hk i) as [_ (l' & Hl' & Ha)]; [lia|]. congruence.
    + split; [easy|]. intros (k & Hk & (l' & Hl' & Ha) & Hm).
      destruct (decide (k = i)) as [->|].
      * replace l' with l in Ha by congruence. now destruct (Alternation l).
      * destruct (Hm i) as [_ (l2 & Hl2 & Hab)]; [lia|]. congruence.
Qed.

Lemma RuntimeParents_spec layers i :
  (i <= length layers)%nat ->
  exists ps alt, RuntimeParents layers i = (ps, alt) /\
    (forall j, In j ps <-> (j < i)%nat /\ plain layers j /\
       forall k, (j < k < i)%nat -> plain layers k /\ absentable_at layers k) /\
    (alt = true <-> exists k, (k < i)%nat /\ is_alt layers k /\
       forall m, (k < m < i)%nat -> plain layers m /\ absentable_at layers m).
Proof. intros Hi. destruct (RuntimeParents_loop_spec layers i [] Hi) as (ps & alt & H). now exists ps, alt. Qed.

(** The packet that makes [j] the runtime parent of [i]. *)
Definition parent_counts (layers : list LayerInstance) (i j : nat) : list Z :=
  imap (fun k l => if (j <? k)%nat && (k <? i)%nat then 0 else Z.max (fst (Bounds l)) 1) layers.

Lemma parent_counts_ok layers i j :
  Forall quant_sat layers -> (forall k, (j < k < i)%nat -> absentable_at layers k) ->
  instantiates layers (parent_counts layers i j).
Proof.
  intros Hq Ha. apply Forall2_lookup. intros k. unfold parent_counts. rewrite list_lookup_imap.
  destruct (layers !! k) as [l|] eqn:Hl; constructor.
  rewrite List.Forall_forall in Hq. destruct (Hq l) as [H0 H1].
  { apply list_elem_of_In, list_elem_of_lookup. now exists k. }
  unfold count_ok. destruct ((j <? k)%nat && (k <? i)%nat) eqn:E; bools; [|lia].
  destruct (Ha k) as (l' & Hl' & Hab); [lia|]. replace l' with l in Hab by congruence.
  apply Absentable_iff in Hab. lia.
Qed.

(** ** Properties *)

(** With no alternation in reach, [RuntimeParents layers i] lists
    exactly the layers that some packet, giving every layer a header count
    within its quantifier, makes the last header before layer [i]. *)
Theorem RuntimeParents_exact layers i ps :
  Forall quant_sat layers -> (i <= length layers)%nat -> RuntimeParents layers i = (ps, false) ->
  forall j, In j ps <-> exists cs, instantiates layers cs /\ runtime_parent cs i j.
Proof.
  intros Hq Hi E j. destruct (RuntimeParents_spec layers i Hi) as (ps' & alt & E' & Hps & Halt).
  rewrite E in E'. injection E' as <- <-. rewrite Hps. split.
  - intros (Hj & _ & Hk). exists (parent_counts layers i j).
    assert (Hc : instantiates layers (parent_counts layers i j)).
    { apply parent_counts_ok; [exact Hq|]. intros k Hk'. now apply Hk. }
    split; [exact Hc|]. unfold runtime_parent, parent_counts. splits; [exact Hj|..].
    + destruct (lookup_lt_is_Some_2 layers j) as [l Hl]; [lia|].
      exists (Z.max (fst (Bounds l)) 1). rewrite list_lookup_imap, Hl. simpl.
      replace (j <? j)%nat with false by (symmetry; apply Nat.ltb_ge; lia). split; [reflexivity|lia].
    + intros k Hk'. destruct (lookup_lt_is_Some_2 layers k) as [l Hl]; [lia|].
      rewrite list_lookup_imap, Hl. simpl.
      replace (j <? k)%nat with true by (symmetry; apply Nat.ltb_lt; lia).
      now replace (k <? i)%nat with true by (symmetry; apply Nat.ltb_lt; lia).
  - intros (cs & Hinst & Hj & _ & Hz).
    assert (Hab : forall k, (j < k < i)%nat -> absentable_at layers k).
    { intros k Hk. specialize (Hz k Hk). destruct (Forall2_lookup_r _ _ _ _ _ Hinst Hz) as (l & Hl & [Hc _]).
      exists l. split; [exact Hl|]. apply Absentable_iff. rewrite List.Forall_forall in Hq.
      destruct (Hq l) as [H0 _]; [apply list_elem_of_In, list_elem_of_lookup; now exists k|lia]. }
    assert (Hpl : forall n k, (k + n = i - 1)%nat -> (j <= k)%nat -> plain layers k).
    { induction n as [n IH] using lt_wf_ind. intros k Hk Hjk.
      destruct (lookup_lt_is_Some_2 layers k) as [l Hl]; [lia|].
      destruct (Alternation l) eqn:Ea; [|now exists l].
      enough (false = true) by easy. apply Halt. exists k. splits; [lia| |].
      - exists l. split; [exact Hl|congruence].
      - intros m Hm. split; [apply (IH (i - 1 - m)%nat); lia|apply Hab; lia]. }
    splits; [exact Hj|apply (Hpl (i - 1 - j)%nat); lia|].
    intros k Hk. split; [apply (Hpl (i - 1 - k)%nat); lia|now apply Hab].
Qed.

Definition layer_of (name : string) (q : QuantKind) : LayerInstance :=
  mkLayerInstance (Some (mkSpec name [] ∅)) "" q (Some (mkDispatch false)) None (mkPos 1 1).

Lemma RuntimeParents_exact_witness :
  let chain := [layer_of "eth" QuantOne; layer_of "vlan" QuantStar; layer_of "mpls" QuantOpt; layer_of "ipv4" QuantOne] in
  RuntimeParents chain 3 = ([2; 1; 0]%nat, false) /\
  exists cs, instantiates chain cs /\ runtime_parent cs 3 0.
Proof.
  intros chain. split; [reflexivity|].
  apply (RuntimeParents_exact chain 3 [2; 1; 0]%nat); [|simpl; lia|reflexivity|simpl; auto].
  repeat constructor; simpl; lia.
Defined.

(** When the absent edge of layer [i] dispatches layer [i + 1]
    against the grandparent, the runtime parents of layer [i + 1] are
    exactly layer [i] and the grandparent, so the two dispatches cover
    every packet. *)
Theorem AbsentEdgeApplies_covers layers i l :
  AbsentEdgeApplies layers i = true -> layers !! i = Some l -> Alternation l = None ->
  RuntimeParents layers (i + 1) = ([i; i - 1]%nat, false).
Proof.
  intros H Hl Ha. unfold AbsentEdgeApplies in H. case_if H; [discriminate|]. bools. rewrite Hl in H.
  destruct (layers !! (i - 1)%nat) as [gp|] eqn:Hgp; [|discriminate].
  destruct (layers !! (i + 1)%nat) as [next|]; [|discriminate].
  destruct (Absentable l) eqn:Eab; [|discriminate]. cbn [negb] in H.
  case_if H; [discriminate|]. apply orb_false_elim in E as [Hgb Hga]. unfold RuntimeParents.
  replace (i + 1)%nat with (S i) by lia. cbn [RuntimeParents_loop].
  rewrite Hl, Ha, Eab. cbn [is_Some_b negb app].
  destruct i as [|i]; [lia|]. replace (S i - 1)%nat with i in * by lia. cbn [RuntimeParents_loop].
  now rewrite Hgp, Hga, Hgb.
Qed.

Lemma AbsentEdgeApplies_covers_witness :
  RuntimeParents [layer_of "eth" QuantOne; layer_of "vlan" QuantOpt; layer_of "ipv4" QuantOne] (1 + 1)
  = ([1; 1 - 1]%nat, false).
Proof. eapply AbsentEdgeApplies_covers; [vm_compute; reflexivity|reflexivity|reflexivity]. Defined.
