(* ===== verification/Typing.v ===== *)
(** * Typing: the static checks of the resolver (pkg/kunai/resolve)

    typing.go, its diagnostics (typing_errors.go) and the literal checks of
    bracket predicates (predicate.go). A check returns [Ok tt], a
    [ResolveError], or [RPanic] where the source dereferences a nil
    pointer. *)

From Stdlib Require Import ZArith Lia Bool Ascii String List.
From stdpp Require Import base list strings numbers option.
From S2P Require Import Prelude GoStd Ast ScanValue Lexer Ir.
Local Open Scope Z_scope.
Local Open Scope go_scope.

Inductive rerr := RErr (e : SyntaxError) | RPanic.

Definition errorf {A} (pos : Position) (format : string) (args : list fmtarg) : result rerr A :=
  Err (RErr (mkSyntaxError "" pos (Errorf format args) "")).

(** A nil dereference panics. *)
Definition deref {A} (o : option A) : result rerr A :=
  match o with Some a => Ok a | None => Err RPanic end.

(** ** typing_errors.go *)

Definition errFitInField {A} (pos : Position) (value bits : Z) (protoName fieldName : string) : result rerr A :=
  errorf pos "value %d does not fit in %d-bit field %s.%s" [AInt value; AInt bits; AStr protoName; AStr fieldName].

Definition errFitInArith {A} (pos : Position) (value bits : Z) : result rerr A :=
  errorf pos "value %d does not fit in bit<%d> (in arithmetic context)" [AInt value; AInt bits].

Definition errStaticDivZero {A} (pos : Position) (op : ArithOp) : result rerr A :=
  errorf pos "%s by zero" [AStr (if bool_decide (op = ArithMod) then "modulo" else "division")].

Definition fieldRefPath (ref : FieldRef) : result rerr string :=
  let? spec := deref (Spec (RefLayer ref)) in
  let aux := match Aux ref with Some a => "." +:+ OutParam a | None => "" end in
  let? f := deref (RefField ref) in
  let slice := match Slice ref with
               | Some s => "[" +:+ fmtd (Lo s) +:+ ":" +:+ fmtd (Hi s) +:+ "]"
               | None => "" end in
  Ok (SpecName spec +:+ aux +:+ "." +:+ Name f +:+ slice).

Definition errLiteralFieldShape {A} (pos : Position) (kindLabel : string) (want : Z) (ref : FieldRef)
    : result rerr A :=
  let? path := fieldRefPath ref in
  errorf pos "%s literal needs a bit<%d> field; %s is bit<%d>"
    [AStr kindLabel; AInt want; AStr path; AInt (EffectiveBits ref)].

Definition errOrderedNotAllowed {A} (pos : Position) (op : CmpOp) (kind : string) : result rerr A :=
  errorf pos "ordered comparison %s not allowed for %s (%s supports only == and !=)"
    [AStr (CmpOp_String op); AStr kind; AStr kind].

Definition errArithOverflowSuspect {A} (pos : Position) (op : ArithOp) : result rerr A :=
  errorf pos "arith %s on two field operands likely overflows the result width (StrictArithLint); cast or rewrite to make the wrap intent explicit" [AStr (ArithOp_String op)].

Definition errArithUnderflowSuspect {A} (pos : Position) (lhsBits rhsBits : Z) : result rerr A :=
  errorf pos "arith - on two field operands (LHS bit<%d>, RHS bit<%d>) likely underflows: RHS is at least as wide as LHS (StrictArithLint)" [AInt lhsBits; AInt rhsBits].

Definition errBareIdentValue {A} (pos : Position) (ident : string) : result rerr A :=
  errorf pos "predicate value cannot be a bare identifier %q. predicate values must be integer/IPv4/IPv6/MAC/CIDR/range literal. for boolean coercion of an integer field, use 'where <proto>.<field> != 0'" [AStr ident].

(** ** Literal checks *)

Definition checkLiteralWidthShape (ref : FieldRef) (v : Value) (pos : Position) : result rerr unit :=
  let check (want : Z) (desc : string) :=
    if negb (EffectiveBits ref =? want) then errLiteralFieldShape pos desc want ref else Ok tt in
  match Val v with
  | ValIPv4 _ => check 32 "IPv4 address"%string
  | ValIPv6 _ => check 128 "IPv6 address"%string
  | ValMAC _ => check 48 "MAC address"%string
  | ValCIDR4 _ _ => check 32 "IPv4 CIDR"%string
  | ValCIDR6 _ _ => check 128 "IPv6 CIDR"%string
  | _ => errorf pos "internal: %v is not a network literal" [AStr (ValueKind_String (Value_Kind v))]
  end.

Definition isNetworkLiteral (v : option Value) : bool :=
  match v with
  | None => false
  | Some v =>
      match Value_Kind v with
      | ValKIPv4 | ValKIPv6 | ValKMAC | ValKCIDR => true
      | _ => false
      end
  end.

Definition literalFitsBits (v : Z) (negative : bool) (bits : Z) : bool :=
  if (bits <=? 0) || (64 <=? bits) then true
  else if negative
  then (- (Z.shiftl 1 (bits - 1)) <=? int64_of_u64 v) && (int64_of_u64 v <=? 0)
  else v <? Z.shiftl 1 bits.

Definition checkBracketIntFit (field : FieldRef) (v : option Value) (layerName : string) (pos : Position)
    : result rerr unit :=
  match v, RefField field with
  | Some v, Some f =>
      let bits := EffectiveBits field in
      let fieldName := match Aux field with
                       | Some a => OutParam a +:+ "." +:+ Name f
                       | None => Name f end in
      match Val v with
      | ValInt n neg =>
          if negb (literalFitsBits n neg bits) then errFitInField pos n bits layerName fieldName else Ok tt
      | ValRange lo hi =>
          if negb (literalFitsBits lo false bits) then errFitInField pos lo bits layerName fieldName
          else if negb (literalFitsBits hi false bits) then errFitInField pos hi bits layerName fieldName
          else if hi <? lo
          then errorf pos "range %d..%d on %s.%s is empty (lower bound above the upper bound)"
                 [AInt lo; AInt hi; AStr layerName; AStr fieldName]
          else Ok tt
      | _ => Ok tt
      end
  | _, _ => Ok tt
  end.

Definition rejectBareIdentValue (v : option Value) : result rerr unit :=
  match v with
  | Some v => match Val v with ValIdent i => errBareIdentValue (ValPos v) i | _ => Ok tt end
  | None => Ok tt
  end.

Definition checkBracketLiteral (field : FieldRef) (v : option Value) (layerName : string) (pos : Position)
    : result rerr unit :=
  match v with
  | Some w =>
      if isNetworkLiteral v then checkLiteralWidthShape field w pos
      else checkBracketIntFit field v layerName pos
  | None => checkBracketIntFit field v layerName pos
  end.

(** The typing part of [resolveBracketPredicate] for a comparison (its
    [PredCmp] branch) and for a list ([PredIn]). *)
Definition checkPredCmp (field : FieldRef) (layer : LayerInstance) (op : CmpOp) (v : Value) (pos : Position)
    : result rerr unit :=
  let? _ := rejectBareIdentValue (Some v) in
  let? spec := deref (Spec layer) in
  match Value_Kind v with
  | ValKRange =>
      let? f := deref (RefField field) in
      errorf pos "range literal %s is only valid in `in [...]` (%s.%s)"
        [AStr (Raw v); AStr (SpecName spec); AStr (Name f)]
  | ValKCIDR =>
      if negb (bool_decide (op = CmpEq)) && negb (bool_decide (op = CmpNeq))
      then errOrderedNotAllowed pos op "CIDR"
      else checkBracketLiteral field (Some v) (SpecName spec) pos
  | _ => checkBracketLiteral field (Some v) (SpecName spec) pos
  end.

Fixpoint checkPredIn_loop (field : FieldRef) (layerName : string) (vs : list Value) (pos : Position)
    : result rerr unit :=
  match vs with
  | [] => Ok tt
  | v :: vs' =>
      let? _ := rejectBareIdentValue (Some v) in
      let? _ := checkBracketLiteral field (Some v) layerName pos in
      checkPredIn_loop field layerName vs' pos
  end.

Definition checkPredIn (field : FieldRef) (layer : LayerInstance) (vs : list Value) (pos : Position)
    : result rerr unit :=
  match vs with
  | [] => errorf pos "'in' predicate needs at least one alternative" []
  | _ =>
      let? spec := deref (Spec layer) in
      checkPredIn_loop field (SpecName spec) vs pos
  end.

(** ** Arithmetic *)

Fixpoint exprMaxFieldBits (e : IR.ArithExpr) : Z :=
  match e with
  | IR.ArithConst _ _ _ wide _ => if wide then 128 else 0
  | IR.ArithField f _ => EffectiveBits f
  | IR.ArithBinOp _ le re _ =>
      let l := exprMaxFieldBits le in
      let r := exprMaxFieldBits re in
      if r <? l then l else r
  end.

Definition arithCmpTargetBits (l r : IR.ArithExpr) : Z :=
  let lBits := exprMaxFieldBits l in
  let rBits := exprMaxFieldBits r in
  if (lBits =? 0) && (rBits =? 0) then 0
  else if lBits =? 0 then rBits
  else if rBits =? 0 then lBits
  else if rBits <? lBits then lBits else rBits.

Definition isZeroLiteral (e : IR.ArithExpr) : bool :=
  match e with IR.ArithConst c hi _ _ _ => (c =? 0) && (hi =? 0) | _ => false end.

Definition literalContextBits (siblingBits : Z) : Z := if siblingBits =? 0 then 64 else siblingBits.

Fixpoint checkArithExpr (e : IR.ArithExpr) (bits : Z) : result rerr unit :=
  match e with
  | IR.ArithConst c _ neg wide pos =>
      if wide then Ok tt
      else if negb (literalFitsBits c neg bits) then errFitInArith pos c bits else Ok tt
  | IR.ArithField _ _ => Ok tt
  | IR.ArithBinOp op le re pos =>
      if (bool_decide (op = ArithDiv) || bool_decide (op = ArithMod)) && isZeroLiteral re
      then errStaticDivZero pos op
      else
        let wl := exprMaxFieldBits le in
        let wr := exprMaxFieldBits re in
        let w := Z.max wl wr in
        if (64 <? w) && negb (bool_decide (op = ArithAdd)) && negb (bool_decide (op = ArithSub))
        then errorf pos "%s on Int<%d>: only + and - are defined on fields wider than 64 bits (use a bit slice `field[lo:hi]` or a CIDR literal)" [AStr (ArithOp_String op); AInt w]
        else
          let? _ := checkArithExpr le (literalContextBits wr) in
          checkArithExpr re (literalContextBits wl)
  end.

(** On a [WAtomArith] condition. *)
Definition checkArithCondition (l r : IR.ArithExpr) : result rerr unit :=
  let bits := arithCmpTargetBits l r in
  let bits := if bits =? 0 then 64 else bits in
  let? _ := checkArithExpr l bits in
  checkArithExpr r bits.

Definition is_field (e : IR.ArithExpr) : bool :=
  match e with IR.ArithField _ _ => true | _ => false end.

Fixpoint lintArithExpr (e : IR.ArithExpr) : result rerr unit :=
  match e with
  | IR.ArithBinOp op le re pos =>
      let? _ := lintArithExpr le in
      let? _ := lintArithExpr re in
      match op with
      | ArithAdd | ArithMul =>
          if is_field le && is_field re then errArithOverflowSuspect pos op else Ok tt
      | ArithSub =>
          if is_field le && is_field re then
            let lb := exprMaxFieldBits le in
            let rb := exprMaxFieldBits re in
            if lb <=? rb then errArithUnderflowSuspect pos lb rb else Ok tt
          else Ok tt
      | _ => Ok tt
      end
  | _ => Ok tt
  end.

Definition lintArithCondition (l r : IR.ArithExpr) : result rerr unit :=
  let? _ := lintArithExpr l in
  lintArithExpr r.

(** ** Bit slices *)

Definition IsSlice (e : IndexExpr) : bool := match e with IdxSlice _ _ _ => true | _ => false end.

Definition detachTrailingSlice (fp : FieldPath) : FieldPath * option IndexExpr :=
  let '(mkFieldPath parts indices pos) := fp in
  if (length parts =? 0)%nat || (length indices =? 0)%nat then (fp, None)
  else
    let last := (length parts - 1)%nat in
    if (length indices <=? last)%nat then (fp, None)
    else
      match indices !! last with
      | Some (Some idx) =>
          if negb (IsSlice idx) then (fp, None)
          else (mkFieldPath parts (<[last := None]> indices) pos, Some idx)
      | _ => (fp, None)
      end.

(** [ref.Slice = ...] is the returned reference. *)
Definition attachSlice (ref : FieldRef) (slice : option (Z * Z * Position)) : result rerr FieldRef :=
  match slice with
  | None => Ok ref
  | Some (lo, hi, pos) =>
      let width := match Aux ref, RefField ref with
                   | Some a, _ => FieldBitWidth a
                   | None, Some f => Bits f
                   | None, None => 0 end in
      if width =? 0 then
        errorf pos "bit-slice [%d:%d] applied to a field with unknown width" [AInt lo; AInt hi]
      else if width <? int64_of_u64 hi then
        errorf pos "bit-slice [%d:%d] exceeds field width bit<%d>" [AInt lo; AInt hi; AInt width]
      else
        let bits := int64_of_u64 (u64 (hi - lo)) in
        if 128 <? bits then
          errorf pos "bit-slice [%d:%d] yields %d bits; the spec caps at bit<128>" [AInt lo; AInt hi; AInt bits]
        else if (64 <? bits) && (negb (lo mod 8 =? 0) || negb (hi mod 8 =? 0)) then
          errorf pos "bit-slice [%d:%d] yields %d bits and is not byte-aligned; the > 64 desugar path requires byte-aligned endpoints" [AInt lo; AInt hi; AInt bits]
        else
          Ok (mkFieldRef (RefLayer ref) (RefField ref) (Aux ref)
                (Some (mkFieldSlice (int64_of_u64 lo) (int64_of_u64 hi))))
  end.

(** ** The multi-load slice comparison *)

Definition chunk : Type := Z * Z.

Fixpoint splitSlice_loop (fuel : nat) (width pos : Z) : list chunk :=
  match fuel with
  | O => []
  | S fuel' =>
      if pos <? width then
        let bytesLeft := (width - pos) / 8 in
        let chunkBytes :=
          if 8 <=? bytesLeft then 8
          else if 4 <=? bytesLeft then 4
          else if 2 <=? bytesLeft then 2
          else 1 in
        (pos, pos + chunkBytes * 8) :: splitSlice_loop fuel' width (pos + chunkBytes * 8)
      else []
  end.

(** Each round advances by at least 8 bits, so [width] rounds suffice. *)
Definition splitSliceIntoLDXChunks (width : Z) : list chunk := splitSlice_loop (Z.to_nat width) width 0.

Definition cloneFieldRefWithSlice (orig : FieldRef) (lo hi : Z) : FieldRef :=
  mkFieldRef (RefLayer orig) (RefField orig) (Aux orig) (Some (mkFieldSlice lo hi)).

(** [conds] has at least one element at the call site; [and] selects
    [WAnd] over [WOr]. *)
Definition combineConditions (conds : list IR.Condition) (and : bool) (pos : Position) : option IR.Condition :=
  match conds with
  | [] => None
  | c :: cs =>
      Some (fold_left (fun result c => if and then IR.CAnd result c pos else IR.COr result c pos) cs c)
  end.

Definition tryDesugarMultiLDXSliceCmp (al ar : IR.ArithExpr) (op : CmpOp) (pos : Position)
    : option IR.Condition :=
  match al, ar with
  | IR.ArithField fl _, IR.ArithField fr _ =>
      match Slice fl, Slice fr with
      | Some sl, Some sr =>
          if negb (bool_decide (op = CmpEq)) && negb (bool_decide (op = CmpNeq)) then None
          else
            let lWidth := FieldSlice_Bits (Some sl) in
            let rWidth := FieldSlice_Bits (Some sr) in
            if negb (lWidth =? rWidth) then None
            else if lWidth <=? 64 then None
            else
              let chunks := splitSliceIntoLDXChunks lWidth in
              if (length chunks <=? 1)%nat then None
              else
                let cond (ch : chunk) :=
                  IR.CAtomArith
                    (IR.ArithField (cloneFieldRefWithSlice fl (Lo sl + fst ch) (Lo sl + snd ch)) pos) op
                    (IR.ArithField (cloneFieldRefWithSlice fr (Lo sr + fst ch) (Lo sr + snd ch)) pos) pos in
                combineConditions (map cond chunks) (negb (bool_decide (op = CmpNeq))) pos
      | _, _ => None
      end
  | _, _ => None
  end.

(** ** Lemmas: literals *)

Lemma literalFitsBits_unsigned v bits :
  0 < bits < 64 -> literalFitsBits v false bits = (v <? 2 ^ bits).
Proof.
  intros Hb. unfold literalFitsBits. replace (bits <=? 0) with false by (symmetry; apply Z.leb_gt; lia).
  replace (64 <=? bits) with false by (symmetry; apply Z.leb_gt; lia). simpl.
  rewrite Z.shiftl_1_l. reflexivity.
Qed.

Lemma literalFitsBits_signed v bits :
  0 < bits < 64 ->
  literalFitsBits v true bits = (- 2 ^ (bits - 1) <=? int64_of_u64 v) && (int64_of_u64 v <=? 0).
Proof.
  intros Hb. unfold literalFitsBits. replace (bits <=? 0) with false by (symmetry; apply Z.leb_gt; lia).
  replace (64 <=? bits) with false by (symmetry; apply Z.leb_gt; lia). simpl.
  rewrite Z.shiftl_1_l. reflexivity.
Qed.

(** The value of the low [bits] bits of [v], read as a signed number. *)
Definition sign_extend (bits v : Z) : Z :=
  let m := v mod 2 ^ bits in
  if m <? 2 ^ (bits - 1) then m else m - 2 ^ bits.

Lemma pow2_half bits : 0 < bits -> 2 ^ bits = 2 * 2 ^ (bits - 1).
Proof. intros H. rewrite <- Z.pow_succ_r by lia. f_equal. lia. Qed.

Lemma sign_extend_fix bits v :
  0 < bits -> (sign_extend bits v = v <-> - 2 ^ (bits - 1) <= v < 2 ^ (bits - 1)).
Proof.
  intros Hb. unfold sign_extend. pose proof (pow2_half bits Hb) as Hp.
  pose proof (Z.pow_pos_nonneg 2 (bits - 1)) as Hpos.
  pose proof (Z.mod_pos_bound v (2 ^ bits)) as Hm.
  pose proof (Z.div_mod v (2 ^ bits)) as Hd.
  set (m := v mod 2 ^ bits) in *. destruct (m <? 2 ^ (bits - 1)) eqn:E; bools; split; intros H; try lia.
  - assert (v / 2 ^ bits = 0); [|lia]. destruct (Z_lt_le_dec v 0).
    + exfalso. assert (v / 2 ^ bits = -1); [|lia].
      symmetry. apply (Z.div_unique v (2 ^ bits) (-1) (v + 2 ^ bits)); lia.
    + apply Z.div_small. lia.
  - assert (v / 2 ^ bits = -1); [|lia]. destruct (Z_lt_le_dec v 0).
    + symmetry. apply (Z.div_unique v (2 ^ bits) (-1) (v + 2 ^ bits)); lia.
    + exfalso. unfold m in E. rewrite Z.mod_small in E; lia.
Qed.

Lemma mod_fix v n : 0 < n -> 0 <= v -> (v mod n = v <-> v < n).
Proof.
  intros Hn Hv. split; intros H.
  - pose proof (Z.mod_pos_bound v n Hn). lia.
  - apply Z.mod_small. lia.
Qed.

(** ** Lemmas: chunks *)

(** [cs] cuts the bits from [pos] to [width], in order, into pieces a
    single load reads. *)
Fixpoint chunks_cover (pos width : Z) (cs : list chunk) : Prop :=
  match cs with
  | [] => pos = width
  | (lo, hi) :: cs' =>
      lo = pos /\ (hi - lo = 8 \/ hi - lo = 16 \/ hi - lo = 32 \/ hi - lo = 64) /\ hi <= width /\
      chunks_cover hi width cs'
  end.

Lemma splitSlice_cover fuel width pos :
  0 <= pos <= width -> (width - pos) mod 8 = 0 -> width - pos <= Z.of_nat fuel ->
  chunks_cover pos width (splitSlice_loop fuel width pos).
Proof.
  revert pos. induction fuel as [|fuel IH]; intros pos Hp Hm Hf; simpl; [lia|].
  destruct (pos <? width) eqn:E; bools; [|simpl; lia].
  pose proof (Z.div_mod (width - pos) 8 ltac:(lia)) as Hd. rewrite Hm in Hd.
  set (q := (width - pos) / 8) in *. assert (1 <= q) by lia.
  set (b := if 8 <=? q then 8 else if 4 <=? q then 4 else if 2 <=? q then 2 else 1).
  assert (Hb : (b = 1 \/ b = 2 \/ b = 4 \/ b = 8) /\ b <= q).
  { unfold b. destruct (8 <=? q) eqn:E8; bools; [lia|]. destruct (4 <=? q) eqn:E4; bools; [lia|].
    destruct (2 <=? q) eqn:E2; bools; lia. }
  simpl. splits; [lia|lia|lia|]. apply IH; [lia| |lia].
  replace (width - (pos + b * 8)) with ((q - b) * 8) by lia. apply Z.mod_mul. lia.
Qed.

Lemma split_cover width :
  0 <= width -> width mod 8 = 0 -> chunks_cover 0 width (splitSliceIntoLDXChunks width).
Proof. intros Hw Hm. apply splitSlice_cover; [lia| |lia]. now rewrite Z.sub_0_r. Qed.

(** ** The value of a field reference *)

(** The bits of every (unsliced) field of a packet, most significant
    first. *)
Definition packet : Type := LayerInstance -> option Field -> option AuxRef -> list bool.

Definition bits_val (l : list bool) : Z := fold_left (fun a b => 2 * a + Z.b2z b) l 0.

(** Bits [lo, hi) of a field. *)
Definition sub (l : list bool) (lo hi : Z) : list bool := take (Z.to_nat (hi - lo)) (drop (Z.to_nat lo) l).

Definition ref_bits (pkt : packet) (r : FieldRef) : list bool :=
  let l := pkt (RefLayer r) (RefField r) (Aux r) in
  match Slice r with Some s => sub l (Lo s) (Hi s) | None => l end.

Definition cmp_holds (op : CmpOp) (a b : Z) : bool :=
  match op with
  | CmpEq => a =? b | CmpNeq => negb (a =? b)
  | CmpLt => a <? b | CmpLe => a <=? b | CmpGt => b <? a | CmpGe => b <=? a
  end.

(** Conditions over field comparisons; [None] outside that fragment. *)
Fixpoint eval_fields (pkt : packet) (c : IR.Condition) : option bool :=
  match c with
  | IR.CAtomArith (IR.ArithField f _) op (IR.ArithField g _) _ =>
      Some (cmp_holds op (bits_val (ref_bits pkt f)) (bits_val (ref_bits pkt g)))
  | IR.CAnd a b _ =>
      match eval_fields pkt a, eval_fields pkt b with
      | Some x, Some y => Some (x && y) | _, _ => None end
  | IR.COr a b _ =>
      match eval_fields pkt a, eval_fields pkt b with
      | Some x, Some y => Some (x || y) | _, _ => None end
  | _ => None
  end.

Lemma bits_val_acc l a : fold_left (fun a b => 2 * a + Z.b2z b) l a = a * 2 ^ Z.of_nat (length l) + bits_val l.
Proof.
  unfold bits_val. revert a. induction l as [|b l IH]; intros a; [simpl; lia|].
  cbn [fold_left length]. rewrite IH, (IH (2 * 0 + Z.b2z b)), Nat2Z.inj_succ, Z.pow_succ_r by lia. ring.
Qed.

Lemma bits_val_range l : 0 <= bits_val l < 2 ^ Z.of_nat (length l).
Proof.
  induction l as [|b l IH]; [simpl; unfold bits_val; simpl; lia|].
  unfold bits_val. cbn [fold_left length]. rewrite bits_val_acc, Nat2Z.inj_succ, Z.pow_succ_r by lia.
  destruct b; simpl Z.b2z; lia.
Qed.

Lemma bits_val_inj a b : length a = length b -> bits_val a = bits_val b -> a = b.
Proof.
  revert b. induction a as [|x a IH]; intros [|y b] Hl Hv; try easy. injection Hl as Hl.
  unfold bits_val in Hv. cbn [fold_left] in Hv. rewrite !bits_val_acc, Hl in Hv.
  pose proof (bits_val_range a). pose proof (bits_val_range b). rewrite Hl in H.
  assert (x = y) as ->; [|f_equal; apply IH; [exact Hl|lia]].
  destruct x, y; simpl Z.b2z in Hv; auto; lia.
Qed.

Lemma sub_length l lo hi : 0 <= lo <= hi -> hi <= Z.of_nat (length l) -> length (sub l lo hi) = Z.to_nat (hi - lo).
Proof. intros H1 H2. unfold sub. rewrite length_take, length_drop. lia. Qed.

Lemma sub_split l lo mid hi :
  0 <= lo <= mid -> mid <= hi -> sub l lo hi = sub l lo mid ++ sub l mid hi.
Proof.
  intros H1 H2. unfold sub. replace (Z.to_nat (hi - lo)) with (Z.to_nat (mid - lo) + Z.to_nat (hi - mid))%nat by lia.
  replace (Z.to_nat mid) with (Z.to_nat lo + Z.to_nat (mid - lo))%nat by lia.
  rewrite <- drop_drop. symmetry. apply take_take_drop.
Qed.

Lemma app_eq_iff {A} (a b c d : list A) : length a = length c -> (a ++ b = c ++ d <-> a = c /\ b = d).
Proof. intros H. split; [apply app_inj_1; exact H|]. now intros [-> ->]. Qed.

(** Equality of two slices is equality of all their chunks. *)
Lemma chunks_equal A B la lb pos width cs :
  0 <= la -> 0 <= lb -> 0 <= pos <= width -> chunks_cover pos width cs ->
  la + width <= Z.of_nat (length A) -> lb + width <= Z.of_nat (length B) ->
  forallb (fun ch => bits_val (sub A (la + fst ch) (la + snd ch)) =? bits_val (sub B (lb + fst ch) (lb + snd ch))) cs
  = (bits_val (sub A (la + pos) (la + width)) =? bits_val (sub B (lb + pos) (lb + width))).
Proof.
  intros Ha Hb Hp Hc HA HB. revert pos Hp Hc. induction cs as [|[lo hi] cs IH]; intros pos Hp Hc; simpl in *.
  { subst pos. unfold sub. now rewrite !Z.sub_diag. }
  destruct Hc as (-> & Hs & Hw & Hc). rewrite (IH hi) by (lia || exact Hc).
  rewrite (sub_split A (la + pos) (la + hi) (la + width)), (sub_split B (lb + pos) (lb + hi) (lb + width)) by lia.
  assert (Hl1 : length (sub A (la + pos) (la + hi)) = length (sub B (lb + pos) (lb + hi))) by (rewrite !sub_length; lia).
  assert (Hl2 : length (sub A (la + hi) (la + width)) = length (sub B (lb + hi) (lb + width))) by (rewrite !sub_length; lia).
  assert (Hiff : forall a b, length a = length b -> ((bits_val a =? bits_val b) = true <-> a = b)).
  { intros a b Hl. rewrite Z.eqb_eq. split; [now apply bits_val_inj|now intros ->]. }
  apply eq_true_iff_eq. rewrite andb_true_iff, !Hiff, app_eq_iff; auto. rewrite !length_app. lia.
Qed.

(** The conjunction (or disjunction) the combiner builds. *)
Lemma eval_combine pkt (and : bool) pos conds bs c b :
  Forall2 (fun c b => eval_fields pkt c = Some b) conds bs -> eval_fields pkt c = Some b ->
  eval_fields pkt (fold_left (fun r c => if and then IR.CAnd r c pos else IR.COr r c pos) conds c)
  = Some (if and then b && forallb id bs else b || existsb id bs).
Proof.
  intros H. revert c b. induction H as [|c' b' conds bs Hc H IH]; intros c b Hb; simpl.
  - rewrite Hb. destruct and; [now rewrite andb_true_r|now rewrite orb_false_r].
  - destruct and.
    + rewrite (IH _ (b && b')) by (simpl; now rewrite Hb, Hc). now rewrite andb_assoc.
    + rewrite (IH _ (b || b')) by (simpl; now rewrite Hb, Hc). now rewrite orb_assoc.
Qed.

Lemma forallb_existsb_negb {A} (f : A -> bool) l : existsb (fun x => negb (f x)) l = negb (forallb f l).
Proof. induction l as [|x l IH]; [reflexivity|]. simpl. rewrite IH. now rewrite negb_andb. Qed.

Lemma Forall2_map_eval {A} pkt (cond : A -> IR.Condition) val l :
  (forall a, eval_fields pkt (cond a) = Some (val a)) ->
  Forall2 (fun c b => eval_fields pkt c = Some b) (map cond l) (map val l).
Proof. intros H. induction l; constructor; auto. Qed.

Lemma forallb_id_map {A} (f : A -> bool) l : forallb id (map f l) = forallb f l.
Proof. induction l as [|x l IH]; [reflexivity|]. simpl. now rewrite IH. Qed.

Lemma existsb_id_map {A} (f : A -> bool) l : existsb id (map f l) = existsb f l.
Proof. induction l as [|x l IH]; [reflexivity|]. simpl. now rewrite IH. Qed.

(** Widths of the operands of a combined condition. *)
Fixpoint operands_fit (c : IR.Condition) : Prop :=
  match c with
  | IR.CAtomArith (IR.ArithField f _) _ (IR.ArithField g _) _ =>
      0 < EffectiveBits f <= 64 /\ EffectiveBits g = EffectiveBits f
  | IR.CAnd a b _ | IR.COr a b _ => operands_fit a /\ operands_fit b
  | _ => False
  end.

Lemma operands_fit_fold (and : bool) pos conds c :
  Forall operands_fit conds -> operands_fit c ->
  operands_fit (fold_left (fun r c => if and then IR.CAnd r c pos else IR.COr r c pos) conds c).
Proof.
  intros H. revert c. induction H as [|c' conds Hc H IH]; intros c Hx; simpl; [exact Hx|].
  apply IH. destruct and; now split.
Qed.

(** What [tryDesugarMultiLDXSliceCmp] builds when it rewrites. *)
Lemma desugar_inv al ar op pos c :
  tryDesugarMultiLDXSliceCmp al ar op pos = Some c ->
  exists fl pl fr pr sl sr,
    al = IR.ArithField fl pl /\ ar = IR.ArithField fr pr /\ Slice fl = Some sl /\ Slice fr = Some sr /\
    (op = CmpEq \/ op = CmpNeq) /\ Hi sl - Lo sl = Hi sr - Lo sr /\ 64 < Hi sl - Lo sl /\
    combineConditions
      (map (fun ch : chunk =>
              IR.CAtomArith
                (IR.ArithField (cloneFieldRefWithSlice fl (Lo sl + fst ch) (Lo sl + snd ch)) pos) op
                (IR.ArithField (cloneFieldRefWithSlice fr (Lo sr + fst ch) (Lo sr + snd ch)) pos) pos)
         (splitSliceIntoLDXChunks (Hi sl - Lo sl)))
      (negb (bool_decide (op = CmpNeq))) pos = Some c.
Proof.
  unfold tryDesugarMultiLDXSliceCmp. intros H.
  destruct al as [|fl pl|]; try discriminate. destruct ar as [|fr pr|]; try discriminate.
  destruct (Slice fl) as [sl|] eqn:El; [|discriminate]. destruct (Slice fr) as [sr|] eqn:Er; [|discriminate].
  cbn [FieldSlice_Bits] in H. case_if H; [discriminate|]. case_if H; [discriminate|].
  case_if H; [discriminate|]. case_if H; [discriminate|]. bools.
  exists fl, pl, fr, pr, sl, sr. splits; auto; try lia.
  apply andb_false_iff in E as [E|E]; apply negb_false_iff, bool_decide_eq_true in E; auto.
Qed.

(** ** Properties *)

(** C2: a comparison of two byte-aligned slices wider than one load is
    rewritten into comparisons of at most 64 bits, and on every packet the
    rewritten condition has the same truth value as the comparison of the
    two wide slices. *)
Theorem desugar_correct al ar op pos c fl pl fr pr sl sr pkt :
  tryDesugarMultiLDXSliceCmp al ar op pos = Some c ->
  al = IR.ArithField fl pl -> ar = IR.ArithField fr pr -> Slice fl = Some sl -> Slice fr = Some sr ->
  (Hi sl - Lo sl) mod 8 = 0 -> 0 <= Lo sl -> 0 <= Lo sr ->
  Hi sl <= Z.of_nat (length (pkt (RefLayer fl) (RefField fl) (Aux fl))) ->
  Hi sr <= Z.of_nat (length (pkt (RefLayer fr) (RefField fr) (Aux fr))) ->
  operands_fit c /\ eval_fields pkt c = eval_fields pkt (IR.CAtomArith al op ar pos).
Proof.
  intros H -> -> El Er Hm Hl Hr HA HB.
  apply desugar_inv in H as (fl' & pl' & fr' & pr' & sl' & sr' & [= <- <-] & [= <- <-] & El' & Er' & Hop & Hw & H64 & H).
  rewrite El in El'. injection El' as <-. rewrite Er in Er'. injection Er' as <-.
  set (w := Hi sl - Lo sl) in *. pose proof (split_cover w ltac:(lia) Hm) as Hc.
  set (A := pkt (RefLayer fl) (RefField fl) (Aux fl)) in *. set (B := pkt (RefLayer fr) (RefField fr) (Aux fr)) in *.
  pose proof (chunks_equal A B (Lo sl) (Lo sr) 0 w _ Hl Hr ltac:(lia) Hc ltac:(lia) ltac:(lia)) as Heq.
  set (cond := fun ch : chunk => _) in H.
  set (test := fun ch : chunk => bits_val (sub A (Lo sl + fst ch) (Lo sl + snd ch))
                 =? bits_val (sub B (Lo sr + fst ch) (Lo sr + snd ch))) in Heq.
  assert (Hcond : forall ch, eval_fields pkt (cond ch) = Some (if bool_decide (op = CmpNeq) then negb (test ch) else test ch)).
  { intros ch. destruct Hop as [-> | ->]; reflexivity. }
  assert (Hfit : Forall operands_fit (map cond (splitSliceIntoLDXChunks w))).
  { clear - Hc. revert Hc. generalize 0. induction (splitSliceIntoLDXChunks w) as [|[lo hi] cs IH]; intros p Hc; constructor.
    - destruct Hc as (-> & Hs & _). simpl. unfold EffectiveBits. simpl. lia.
    - eapply IH, Hc. }
  destruct (splitSliceIntoLDXChunks w) as [|ch cs]; [discriminate|]. simpl in H. injection H as <-.
  inversion Hfit as [|? ? H1 H2]. subst. split; [now apply operands_fit_fold|].
  set (val := fun ch => if bool_decide (op = CmpNeq) then negb (test ch) else test ch) in *.
  rewrite (eval_combine _ _ _ _ (map val cs) _ (val ch)); [|now apply Forall2_map_eval|apply Hcond].
  cbn [eval_fields]. unfold ref_bits. rewrite El, Er. fold A B.
  replace (Hi sl) with (Lo sl + w) by lia. replace (Hi sr) with (Lo sr + w) by lia.
  rewrite !Z.add_0_r in Heq. unfold val. f_equal.
  rewrite forallb_id_map, existsb_id_map.
  destruct Hop as [-> | ->]; unfold cmp_holds; rewrite <- Heq; [reflexivity|].
  simpl. rewrite negb_andb. f_equal. apply forallb_existsb_negb.
Qed.

Definition ipv6_layer : LayerInstance :=
  mkLayerInstance (Some (mkSpec "ipv6" [mkField "src" 128; mkField "dst" 128] ∅)) "" QuantOne None None (mkPos 1 1).

Definition sliced (name : string) (lo hi : Z) : FieldRef :=
  mkFieldRef ipv6_layer (Some (mkField name 128)) None (Some (mkFieldSlice lo hi)).

Lemma desugar_correct_witness :
  let pkt : packet := fun _ f _ => replicate 128 true in
  let e n := IR.ArithField (sliced n 8 104) (mkPos 1 1) in
  exists c, tryDesugarMultiLDXSliceCmp (e "src"%string) (e "dst"%string) CmpNeq (mkPos 1 1) = Some c /\
    operands_fit c /\ eval_fields pkt c = Some false.
Proof.
  intros pkt e. eexists. split; [reflexivity|].
  eapply (desugar_correct (e "src"%string) (e "dst"%string) CmpNeq (mkPos 1 1) _ _ _ _ _ _ _ pkt);
    try reflexivity; vm_compute; discriminate.
Defined.

(** The width check on integer literals is exact: below 64 bits, an
    unsigned literal fits when truncating it to the field keeps its value,
    and a literal written with a minus sign fits when truncating it and
    sign-extending it back keeps its value. *)
Theorem literalFitsBits_exact v bits :
  0 < bits < 64 -> in_u64 v ->
  (literalFitsBits v false bits = true <-> v mod 2 ^ bits = v) /\
  (int64_of_u64 v <= 0 ->
   (literalFitsBits v true bits = true <-> sign_extend bits (int64_of_u64 v) = int64_of_u64 v)).
Proof.
  intros Hb Hv. split; [|intros Hneg].
  - rewrite literalFitsBits_unsigned, mod_fix, Z.ltb_lt by (lia || apply Z.pow_pos_nonneg || apply Hv; lia).
    reflexivity.
  - rewrite literalFitsBits_signed, sign_extend_fix, andb_true_iff, !Z.leb_le by lia.
    pose proof (Z.pow_pos_nonneg 2 (bits - 1)). lia.
Qed.

Lemma literalFitsBits_exact_witness :
  literalFitsBits (two64 - 128) true 8 = true /\ sign_extend 8 (-128) = -128.
Proof.
  split; [reflexivity|].
  apply (proj2 (literalFitsBits_exact (two64 - 128) 8 ltac:(lia) ltac:(split; [discriminate|reflexivity])));
    [discriminate|reflexivity].
Defined.

(** An accepted slice whose bounds are below 2^63 lies inside the
    field, is at most 128 bits wide, is byte-aligned when wider than 64,
    and the reference it yields has exactly the slice's width. *)
Theorem attachSlice_sound ref lo hi pos r :
  attachSlice ref (Some (lo, hi, pos)) = Ok r -> 0 <= lo < hi -> hi < two63 ->
  Slice r = Some (mkFieldSlice lo hi) /\ EffectiveBits r = hi - lo /\
  hi <= EffectiveBits (mkFieldRef (RefLayer ref) (RefField ref) (Aux ref) None) /\
  hi - lo <= 128 /\ (64 < hi - lo -> lo mod 8 = 0 /\ hi mod 8 = 0).
Proof.
  unfold attachSlice. intros H Hlo Hhi.
  assert (Hi1 : int64_of_u64 hi = hi) by (unfold int64_of_u64; case_goal; bools; lia).
  assert (Hi2 : int64_of_u64 lo = lo) by (unfold int64_of_u64; case_goal; bools; lia).
  assert (Hi3 : int64_of_u64 (u64 (hi - lo)) = hi - lo).
  { rewrite u64_small by (unfold in_u64, two64, two63 in *; lia). unfold int64_of_u64. case_goal; bools; lia. }
  rewrite Hi1, Hi2, Hi3 in H.
  case_if H; [discriminate|]. case_if H; [discriminate|]. case_if H; [discriminate|].
  case_if H; [discriminate|]. injection H as <-. bools. unfold EffectiveBits. simpl. splits; auto.
  intros H64. apply andb_false_iff in E2 as [E2|E2]; bools; [lia|now split].
Qed.

Lemma attachSlice_sound_witness :
  exists r, attachSlice (sliced "src" 0 0) (Some (64, 128, mkPos 1 9)) = Ok r /\ EffectiveBits r = 64.
Proof.
  eexists. split; [reflexivity|].
  eapply (attachSlice_sound (sliced "src" 0 0) 64 128 (mkPos 1 9)); [reflexivity|lia|reflexivity].
Defined.

(** Without that bound the check does not hold: the conversion to
    [int] wraps, and every slice of at most 64 bits whose bounds are 2^63 or
    more is accepted, with negative bounds, whatever the field's width. *)
Theorem attachSlice_wraps ref lo hi pos :
  EffectiveBits (mkFieldRef (RefLayer ref) (RefField ref) (Aux ref) None) > 0 ->
  two63 <= lo -> lo < hi < two64 -> hi - lo <= 64 ->
  exists r, attachSlice ref (Some (lo, hi, pos)) = Ok r /\
            Slice r = Some (mkFieldSlice (lo - two64) (hi - two64)) /\ hi - two64 < 0.
Proof.
  intros Hw Hlo Hhi Hb. unfold attachSlice, EffectiveBits in *. cbn [Slice Aux RefField] in Hw.
  assert (int64_of_u64 hi = hi - two64) as -> by (unfold int64_of_u64; case_goal; bools; lia).
  assert (int64_of_u64 lo = lo - two64) as -> by (unfold int64_of_u64; case_goal; bools; lia).
  rewrite u64_small by (unfold in_u64, two64, two63 in *; lia).
  assert (int64_of_u64 (hi - lo) = hi - lo) as -> by (unfold int64_of_u64, two63; case_goal; bools; lia).
  set (w := match Aux ref, RefField ref with Some a, _ => _ | None, Some f => _ | None, None => _ end) in *.
  assert (0 < w) by (subst w; destruct (Aux ref), (RefField ref); lia).
  repeat case_goal; bools; unfold two64, two63 in *; try lia.
  eexists. splits; [reflexivity|reflexivity|lia].
Qed.

Lemma attachSlice_wraps_witness :
  let ref := mkFieldRef ipv6_layer (Some (mkField "src" 128)) None None in
  exists r, attachSlice ref (Some (two63, two63 + 8, mkPos 1 9)) = Ok r /\
    Slice r = Some (mkFieldSlice (- two63) (- two63 + 8)) /\ - two63 + 8 < 0.
Proof.
  intros ref. apply (attachSlice_wraps ref two63 (two63 + 8) (mkPos 1 9)); vm_compute; try split; (reflexivity || discriminate).
Defined.

(** A network literal's width, from its bytes. *)
Definition literal_bits (v : Value) : option Z :=
  match Val v with
  | ValIPv4 b | ValIPv6 b | ValMAC b | ValCIDR4 b _ | ValCIDR6 b _ => Some (8 * Z.of_nat (length b))
  | _ => None
  end.

Lemma width_check ref pos want desc :
  (if negb (EffectiveBits ref =? want) then errLiteralFieldShape pos desc want ref else Ok tt) = Ok tt <->
  EffectiveBits ref = want.
Proof.
  destruct (Z.eqb_spec (EffectiveBits ref) want) as [E|E]; simpl; [now split|]. split; [|congruence].
  unfold errLiteralFieldShape. destruct (fieldRefPath ref); discriminate.
Qed.

(** A well-formed network literal is accepted for a field exactly when
    the field's effective width is the literal's own: 8 bits for each of
    its bytes. *)
Theorem checkLiteralWidthShape_exact ref v pos raw vpos :
  Value_wf raw vpos v -> isNetworkLiteral (Some v) = true ->
  (checkLiteralWidthShape ref v pos = Ok tt <-> literal_bits v = Some (EffectiveBits ref)).
Proof.
  intros [Hw _] Hn. unfold isNetworkLiteral, Value_Kind in Hn. unfold checkLiteralWidthShape, literal_bits.
  destruct (Val v) as [|b|b|b|b p|b p| | |]; try discriminate; cbn [ValueData_wf] in Hw;
    unfold octets in Hw; deex; match goal with Hl : length b = _ |- _ => rewrite Hl end;
    rewrite width_check;
    (split; [intros ->; reflexivity|intros Heq; injection Heq as <-; reflexivity]).
Qed.

Lemma checkLiteralWidthShape_exact_witness :
  let v := mkValue (ValIPv4 [10; 0; 0; 1]) "10.0.0.1" (mkPos 1 1) in
  checkLiteralWidthShape (sliced "dst" 96 128) v (mkPos 1 1) = Ok tt.
Proof.
  intros v. apply (checkLiteralWidthShape_exact _ v _ (B "10.0.0.1") (mkPos 1 1)); [|reflexivity|reflexivity].
  eapply classifyValue_Ok_wf. vm_compute. reflexivity.
Defined.

(** C32: a bracket predicate that compares an existence pseudo-field with a
    network literal never gets its diagnostic: rendering it dereferences the
    reference's nil field, so the check panics. *)
Theorem exists_literal_panics layer spec aux v pos :
  Spec layer = Some spec -> FieldBitWidth aux = 0 -> isNetworkLiteral (Some v) = true ->
  checkBracketLiteral (mkFieldRef layer None (Some aux) None) (Some v) (SpecName spec) pos = Err RPanic.
Proof.
  intros Hs Ha Hn. unfold checkBracketLiteral. rewrite Hn. unfold isNetworkLiteral, Value_Kind in Hn.
  unfold checkLiteralWidthShape, errLiteralFieldShape, fieldRefPath, EffectiveBits.
  cbn [Slice Aux RefField RefLayer]. rewrite Ha, Hs. destruct (Val v); try discriminate; reflexivity.
Qed.

Lemma exists_literal_panics_witness :
  let aux := mkAux "opt" "" 0 0 None 0 0 None None 0 in
  let v := mkValue (ValIPv4 [10; 0; 0; 1]) "10.0.0.1" (mkPos 1 18) in
  checkBracketLiteral (mkFieldRef ipv6_layer None (Some aux) None) (Some v) "ipv6" (mkPos 1 5) = Err RPanic.
Proof. intros aux v. eapply exists_literal_panics; reflexivity. Defined.

(** ** Arithmetic: the typing rules

    The rules of docs/ja/dsl-types.md, stated of expressions and not of the
    check. *)

(** The widths of the typed operands of an expression: its fields, and the
    literals written [int<128>(n)]. *)
Inductive operand_width : IR.ArithExpr -> Z -> Prop :=
| width_field f pos : operand_width (IR.ArithField f pos) (EffectiveBits f)
| width_wide c hi neg pos : operand_width (IR.ArithConst c hi neg true pos) 128
| width_left op l r pos w : operand_width l w -> operand_width (IR.ArithBinOp op l r pos) w
| width_right op l r pos w : operand_width r w -> operand_width (IR.ArithBinOp op l r pos) w.

(** A literal next to [es] is of the width of their widest operand, and of
    64 bits when they have none. *)
Definition context_width (es : list IR.ArithExpr) (w : Z) : Prop :=
  ((exists e, e ∈ es /\ operand_width e w) /\ forall e w', e ∈ es -> operand_width e w' -> w' <= w) \/
  (w = 64 /\ forall e w', e ∈ es -> ~ operand_width e w').

(** A literal with a minus sign is a signed number, one without unsigned. *)
Definition literal_fits (e : IR.ArithExpr) (w : Z) : Prop :=
  match e with
  | IR.ArithConst c _ neg false _ =>
      w < 64 -> if neg then - 2 ^ (w - 1) <= int64_of_u64 c <= 0 else c < 2 ^ w
  | _ => True
  end.

Inductive subexpr : IR.ArithExpr -> IR.ArithExpr -> Prop :=
| sub_here e : subexpr e e
| sub_left s op l r pos : subexpr s l -> subexpr s (IR.ArithBinOp op l r pos)
| sub_right s op l r pos : subexpr s r -> subexpr s (IR.ArithBinOp op l r pos).

(** An operation: no division by the literal zero, only + and - above 64
    bits, and a literal operand fits the other one. *)
Definition operation_ok (op : ArithOp) (l r : IR.ArithExpr) : Prop :=
  (op = ArithDiv \/ op = ArithMod -> forall neg wide pos, r <> IR.ArithConst 0 0 neg wide pos) /\
  ((exists w, 64 < w /\ (operand_width l w \/ operand_width r w)) -> op = ArithAdd \/ op = ArithSub) /\
  (forall w, context_width [r] w -> literal_fits l w) /\ (forall w, context_width [l] w -> literal_fits r w).

(** Every operand has a width, as resolution leaves them. *)
Definition widths_positive (e : IR.ArithExpr) : Prop := forall w, operand_width e w -> 0 < w.

Lemma operand_binop op l r pos w : operand_width (IR.ArithBinOp op l r pos) w <-> operand_width l w \/ operand_width r w.
Proof. split; [intros H; inversion H; auto|intros [H|H]; now constructor]. Qed.

(** What the implementation takes for the width. *)
Lemma max_bits_spec e : widths_positive e ->
  (exprMaxFieldBits e = 0 /\ forall w, ~ operand_width e w) \/
  (0 < exprMaxFieldBits e /\ operand_width e (exprMaxFieldBits e) /\ forall w, operand_width e w -> w <= exprMaxFieldBits e).
Proof.
  induction e as [c hi neg wide pos|f pos|op l IHl r IHr pos]; intros Hp; cbn [exprMaxFieldBits].
  - destruct wide; [right|left].
    + split; [lia|]. split; [constructor|]. intros w Hw. inversion Hw; subst; lia.
    + split; [reflexivity|]. intros w Hw. inversion Hw.
  - right. split; [apply Hp; constructor|]. split; [constructor|]. intros w Hw. inversion Hw; subst; lia.
  - specialize (IHl (fun w Hw => Hp w (width_left _ _ _ _ _ Hw))). specialize (IHr (fun w Hw => Hp w (width_right _ _ _ _ _ Hw))).
    destruct (Z.ltb_spec (exprMaxFieldBits r) (exprMaxFieldBits l)) as [Hlt|Hle].
    + destruct IHl as [[Hl _]|(Hl & Hw & Hm)]; [destruct IHr as [[? _]|(? & _)]; lia|]. right. split; [exact Hl|]. split; [now constructor|].
      intros w [H|H]%operand_binop; [now apply Hm|]. destruct IHr as [[_ Hn]|(_ & _ & Hm')]; [now apply Hn in H|]. apply Hm' in H. lia.
    + destruct IHr as [[Hr Hn]|(Hr & Hw & Hm)].
      * destruct IHl as [[Hl Hn']|(? & _)]; [|lia]. left. split; [exact Hr|]. intros w [H|H]%operand_binop; [now apply (Hn' w)|now apply (Hn w)].
      * right. split; [exact Hr|]. split; [now constructor|]. intros w [H|H]%operand_binop; [|now apply Hm].
        destruct IHl as [[_ Hn]|(_ & _ & Hm')]; [now apply Hn in H|]. apply Hm' in H. lia.
Qed.

Lemma context_width_one e w : widths_positive e -> context_width [e] w <-> w = literalContextBits (exprMaxFieldBits e).
Proof.
  intros Hp. unfold context_width, literalContextBits. destruct (max_bits_spec e Hp) as [[E Hn]|(H0 & Hw & Hm)].
  - rewrite E. change (0 =? 0) with true. cbv iota. split.
    + intros [[(x & Hx & Hw) _]|[-> _]]; [|reflexivity]. apply list_elem_of_singleton in Hx as ->. now apply Hn in Hw.
    + intros ->. right. split; [reflexivity|]. intros x w' Hx. apply list_elem_of_singleton in Hx as ->. apply Hn.
  - replace (exprMaxFieldBits e =? 0) with false by lia. split.
    + intros [[(x & Hx & Hw') Hall]|[_ Hn]]; [|now apply (Hn e _ ltac:(now apply list_elem_of_singleton)) in Hw]. apply list_elem_of_singleton in Hx as ->.
      apply Z.le_antisymm; [now apply Hm|]. apply (Hall e); [now apply list_elem_of_singleton|exact Hw].
    + intros ->. left. split; [exists e; split; [now apply list_elem_of_singleton|exact Hw]|]. intros x w' Hx. apply list_elem_of_singleton in Hx as ->. apply Hm.
Qed.

(** Two sides have the width of their sum. *)
Lemma context_width_two l r w :
  context_width [l; r] w <-> context_width [IR.ArithBinOp ArithAdd l r (mkPos 0 0)] w.
Proof.
  assert (E : forall w', operand_width (IR.ArithBinOp ArithAdd l r (mkPos 0 0)) w' <-> exists e, e ∈ [l; r] /\ operand_width e w').
  { intros w'. split.
    - intros [Hw|Hw]%operand_binop; [exists l|exists r]; (split; [|exact Hw]); rewrite list.elem_of_cons, list_elem_of_singleton; auto.
    - intros (e & He & Hw). apply list.elem_of_cons in He as [->|He]; [now apply width_left|]. apply list_elem_of_singleton in He as ->. now apply width_right. }
  unfold context_width. split; (intros [[(e & He & Hw) Hall]|[-> Hn]]; [left|right]).
  - split; [eexists; split; [now apply list_elem_of_singleton|]; apply E; eauto|]. intros x w' Hx Hw'. apply list_elem_of_singleton in Hx as ->.
    apply E in Hw' as (y & Hy & Hw'). eauto.
  - split; [reflexivity|]. intros x w' Hx Hw'. apply list_elem_of_singleton in Hx as ->. apply E in Hw' as (y & Hy & Hw'). now apply (Hn y w').
  - apply list_elem_of_singleton in He as ->. split; [now apply E|]. intros x w' Hx Hw'. eapply Hall; [now apply list_elem_of_singleton|]. apply E. eauto.
  - split; [reflexivity|]. intros x w' Hx Hw'. eapply Hn; [now apply list_elem_of_singleton|]. apply E. eauto.
Qed.

Lemma target_bits l r : widths_positive l -> widths_positive r ->
  arithCmpTargetBits l r = exprMaxFieldBits (IR.ArithBinOp ArithAdd l r (mkPos 0 0)).
Proof.
  intros Hl Hr. unfold arithCmpTargetBits. cbn [exprMaxFieldBits].
  destruct (max_bits_spec l Hl) as [[-> _]|(L & _)], (max_bits_spec r Hr) as [[-> _]|(R & _)]; try reflexivity.
  - destruct (Z.eqb_spec (exprMaxFieldBits r) 0), (Z.ltb_spec (exprMaxFieldBits r) 0); cbn; lia.
  - destruct (Z.eqb_spec (exprMaxFieldBits l) 0), (Z.ltb_spec 0 (exprMaxFieldBits l)); cbn; lia.
  - replace (exprMaxFieldBits l =? 0) with false by lia. replace (exprMaxFieldBits r =? 0) with false by lia. reflexivity.
Qed.

Lemma literalFitsBits_spec c hi neg pos w : 0 < w -> literalFitsBits c neg w = true <-> literal_fits (IR.ArithConst c hi neg false pos) w.
Proof.
  intros Hw. cbn [literal_fits]. destruct (Z.ltb_spec w 64) as [Hlt|Hge].
  - destruct neg.
    + rewrite literalFitsBits_signed by lia. rewrite andb_true_iff, !Z.leb_le. split; [intros H _; lia|intros H; now apply H].
    + rewrite literalFitsBits_unsigned by lia. rewrite Z.ltb_lt. split; [intros H _; lia|intros H; now apply H].
  - unfold literalFitsBits. replace (64 <=? w) with true by lia. rewrite orb_true_r. split; [intros _ H; lia|reflexivity].
Qed.

Lemma result_bind_tt (m k : result rerr unit) :
  (let? _ := m in k) = Ok tt <-> m = Ok tt /\ k = Ok tt.
Proof.
  destruct m as [[]|e]; simpl; (split; [intros H; try discriminate H; now split|]); intros [H1 H2]; [exact H2|easy].
Qed.

Lemma div_guard op (z : bool) :
  (bool_decide (op = ArithDiv) || bool_decide (op = ArithMod)) && z = false <->
  (op = ArithDiv \/ op = ArithMod -> z = false).
Proof.
  split.
  - intros H [-> | ->]; exact H.
  - intros H. destruct op; try reflexivity; apply H; auto.
Qed.

Lemma wide_guard op w :
  (64 <? w) && negb (bool_decide (op = ArithAdd)) && negb (bool_decide (op = ArithSub)) = false <->
  (64 < w -> op = ArithAdd \/ op = ArithSub).
Proof.
  destruct (Z.ltb_spec 64 w) as [Hw|Hw]; simpl; [|split; [lia|reflexivity]]. split.
  - intros H _. destruct op; auto; discriminate H.
  - intros H. destruct (H Hw) as [-> | ->]; reflexivity.
Qed.

Lemma context_bits_pos n : 0 <= n -> 0 < literalContextBits n.
Proof. intros Hn. unfold literalContextBits. destruct (Z.eqb_spec n 0); lia. Qed.

Lemma max_bits_nonneg e : widths_positive e -> 0 <= exprMaxFieldBits e.
Proof. intros Hp. destruct (max_bits_spec e Hp) as [[-> _]|(H & _)]; lia. Qed.

Lemma positive_left op l r pos : widths_positive (IR.ArithBinOp op l r pos) -> widths_positive l.
Proof. intros Hp w Hw. apply Hp. now apply width_left. Qed.

Lemma positive_right op l r pos : widths_positive (IR.ArithBinOp op l r pos) -> widths_positive r.
Proof. intros Hp w Hw. apply Hp. now apply width_right. Qed.

Lemma zero_literal e : isZeroLiteral e = false <-> forall neg wide pos, e <> IR.ArithConst 0 0 neg wide pos.
Proof.
  destruct e as [c hi neg wide pos|f pos|op l r pos]; cbn [isZeroLiteral]; try (split; [discriminate || intros _ neg wide pos'; discriminate|reflexivity]).
  rewrite andb_false_iff, !Z.eqb_neq. split.
  - intros [H|H] neg' wide' pos' [=]; congruence.
  - intros H. destruct (Z.eq_dec c 0) as [->|]; [|now left]. destruct (Z.eq_dec hi 0) as [->|]; [|now right]. now destruct (H neg wide pos).
Qed.

Lemma wide_operands l r : widths_positive l -> widths_positive r ->
  64 < Z.max (exprMaxFieldBits l) (exprMaxFieldBits r) <-> exists w, 64 < w /\ (operand_width l w \/ operand_width r w).
Proof.
  intros Hl Hr. split.
  - intros H. destruct (max_bits_spec l Hl) as [[El _]|(_ & Wl & _)], (max_bits_spec r Hr) as [[Er _]|(_ & Wr & _)]; [lia| | |].
    + exists (exprMaxFieldBits r). split; [lia|auto].
    + exists (exprMaxFieldBits l). split; [lia|auto].
    + destruct (Z.max_spec (exprMaxFieldBits l) (exprMaxFieldBits r)) as [[_ E]|[_ E]]; rewrite E in H; eauto.
  - intros (w & H & [Hw|Hw]).
    + destruct (max_bits_spec l Hl) as [[_ Hn]|(_ & _ & Hm)]; [now apply Hn in Hw|]. apply Hm in Hw. lia.
    + destruct (max_bits_spec r Hr) as [[_ Hn]|(_ & _ & Hm)]; [now apply Hn in Hw|]. apply Hm in Hw. lia.
Qed.

(** The check of an expression: what it asks of the expression itself as a
    literal, and of the operations in it. *)
Lemma checkArithExpr_spec e bits : 0 < bits -> widths_positive e ->
  checkArithExpr e bits = Ok tt <->
  literal_fits e bits /\ forall op l r pos, subexpr (IR.ArithBinOp op l r pos) e -> operation_ok op l r.
Proof.
  revert bits. induction e as [c hi neg wide pos|f pos|op l IHl r IHr pos]; intros bits Hb Hp; cbn [checkArithExpr].
  - assert (Hs : forall op l r p, ~ subexpr (IR.ArithBinOp op l r p) (IR.ArithConst c hi neg wide pos)) by (intros op l r p H; inversion H).
    destruct wide; [split; [|reflexivity]; intros _; split; [exact I|intros op l r p H; now apply Hs in H]|].
    rewrite <- literalFitsBits_spec by exact Hb. destruct (literalFitsBits c neg bits); cbn [negb]; split; easy.
  - split; [|reflexivity]. intros _. split; [exact I|]. intros op l r p H. inversion H.
  - pose proof (positive_left _ _ _ _ Hp) as Pl. pose proof (positive_right _ _ _ _ Hp) as Pr.
    assert (E : (if (bool_decide (op = ArithDiv) || bool_decide (op = ArithMod)) && isZeroLiteral r then errStaticDivZero pos op
                 else if (64 <? Z.max (exprMaxFieldBits l) (exprMaxFieldBits r)) && negb (bool_decide (op = ArithAdd)) && negb (bool_decide (op = ArithSub))
                 then errorf pos "%s on Int<%d>: only + and - are defined on fields wider than 64 bits (use a bit slice `field[lo:hi]` or a CIDR literal)"
                        [AStr (ArithOp_String op); AInt (Z.max (exprMaxFieldBits l) (exprMaxFieldBits r))]
                 else let? _ := checkArithExpr l (literalContextBits (exprMaxFieldBits r)) in checkArithExpr r (literalContextBits (exprMaxFieldBits l))) = Ok tt <->
                (op = ArithDiv \/ op = ArithMod -> isZeroLiteral r = false) /\
                (64 < Z.max (exprMaxFieldBits l) (exprMaxFieldBits r) -> op = ArithAdd \/ op = ArithSub) /\
                checkArithExpr l (literalContextBits (exprMaxFieldBits r)) = Ok tt /\ checkArithExpr r (literalContextBits (exprMaxFieldBits l)) = Ok tt).
    { rewrite <- div_guard, <- wide_guard. destruct ((_ || _) && _); [split; [discriminate|intros ([=] & _)]|].
      destruct (_ && _ && _); [split; [discriminate|intros (_ & [=] & _)]|]. rewrite result_bind_tt. tauto. }
    rewrite E, zero_literal, wide_operands, IHl, IHr by (assumption || apply context_bits_pos, max_bits_nonneg; assumption). clear E IHl IHr. split.
    + intros (Hz & Hw & [Fl Sl] & Fr & Sr). split; [exact I|]. intros op' l' r' pos' Hs. inversion Hs; subst; [|eauto..].
      split; [exact Hz|]. split; [exact Hw|]. split; intros w Hc; apply context_width_one in Hc as ->; assumption.
    + intros [_ Hs]. destruct (Hs _ _ _ _ (sub_here _)) as (Hz & Hw & Fl & Fr). splits; auto.
      * apply Fl. now apply context_width_one.
      * intros op' l' r' pos' H. eapply Hs, sub_left, H.
      * apply Fr. now apply context_width_one.
      * intros op' l' r' pos' H. eapply Hs, sub_right, H.
Qed.

(** C28: the arithmetic type check accepts a comparison exactly when the
    typing rules hold of it: a literal that is a side of the comparison fits
    the widest operand of the two sides (64 bits when there is none), and at
    every operation inside, a literal operand fits the widest operand of the
    other, nothing is divided by the literal zero, and an operand wider than
    64 bits is only added or subtracted. A literal with a minus sign fits w
    bits as a signed number, one without as an unsigned one, and every
    64-bit literal fits 64 bits or more. Fields have a width, as resolution
    leaves them; a literal written [int<128>(n)] is an operand of 128 bits. *)
Theorem checkArithCondition_exact l r :
  widths_positive l -> widths_positive r ->
  checkArithCondition l r = Ok tt <->
  (forall w, context_width [l; r] w -> literal_fits l w /\ literal_fits r w) /\
  (forall op a b pos, subexpr (IR.ArithBinOp op a b pos) l \/ subexpr (IR.ArithBinOp op a b pos) r -> operation_ok op a b).
Proof.
  intros Hl Hr. assert (Hp : widths_positive (IR.ArithBinOp ArithAdd l r (mkPos 0 0))) by (intros w Hw; inversion Hw; subst; auto).
  unfold checkArithCondition. rewrite target_bits by assumption. fold (literalContextBits (exprMaxFieldBits (IR.ArithBinOp ArithAdd l r (mkPos 0 0)))).
  set (w0 := literalContextBits _). assert (H0 : 0 < w0) by now apply context_bits_pos, max_bits_nonneg.
  rewrite result_bind_tt, !checkArithExpr_spec by assumption.
  assert (Hc : forall w, context_width [l; r] w <-> w = w0) by (intros w; rewrite context_width_two; now apply context_width_one). split.
  - intros [[Fl Sl] [Fr Sr]]. split; [intros w Hw; apply Hc in Hw as ->; auto|]. intros op a b pos [H|H]; eauto.
  - intros [F S]. destruct (F w0) as [Fl Fr]; [now apply Hc|]. splits; eauto.
Qed.

(** [x + 300 == 65535] on a 16-bit field [x], and [x + 65536] does not
    type. *)
Lemma checkArithCondition_exact_witness :
  let x := IR.ArithField (mkFieldRef ipv6_layer (Some (mkField "x" 16)) None None) (mkPos 1 1) in
  let num n := IR.ArithConst n 0 false false (mkPos 1 1) in
  let plus n := IR.ArithBinOp ArithAdd x (num n) (mkPos 1 1) in
  checkArithCondition (plus 300) (num 65535) = Ok tt /\ ~ operation_ok ArithAdd x (num 65536).
Proof.
  intros x num plus.
  assert (Hx : forall n, widths_positive (plus n)) by (intros n w Hw; inversion Hw as [| |? ? ? ? ? H|? ? ? ? ? H]; subst; inversion H; subst; cbn; lia).
  assert (Hn : forall n, widths_positive (num n)) by (intros n w Hw; inversion Hw).
  assert (Hc : context_width [x] 16).
  { left. split; [exists x; split; [now apply list_elem_of_singleton|exact (width_field (mkFieldRef ipv6_layer (Some (mkField "x" 16)) None None) (mkPos 1 1))]|]. intros e w' He Hw.
    apply list_elem_of_singleton in He as ->. inversion Hw; subst. cbn. lia. }
  split.
  - apply (checkArithCondition_exact (plus 300) (num 65535) (Hx 300) (Hn 65535)). split.
    + intros w Hw. split; [exact I|]. cbn [literal_fits num]. intros _. destruct Hw as [[(e & He & Hw) _]|[-> _]]; [|lia].
      apply list.elem_of_cons in He as [->|He]; [|apply list_elem_of_singleton in He as ->; inversion Hw].
      inversion Hw as [| |? ? ? ? ? H|? ? ? ? ? H]; subst; inversion H; subst. cbn. lia.
    + intros op a b pos [H|H]; inversion H as [|? ? ? ? ? H'|? ? ? ? ? H']; subst; try inversion H'.
      split; [intros [|]; discriminate|]. split; [auto|]. split; [intros w _; exact I|]. intros w Hw _.
      destruct Hw as [[(e & He & Hw) _]|[-> _]]; [|lia]. apply list_elem_of_singleton in He as ->. inversion Hw; subst. cbn. lia.
  - intros (_ & _ & _ & F). specialize (F 16 Hc). cbn in F. specialize (F eq_refl). discriminate.
Defined.

(** ** Slices are peeled off a path and can be put back *)

(** Detaching a trailing slice loses nothing: the parts are kept, the
    remaining path has no index at its last part, and putting the slice
    back there restores the written path. *)
Theorem detachTrailingSlice_roundtrip fp fp' idx :
  detachTrailingSlice fp = (fp', Some idx) ->
  IsSlice idx = true /\ Parts fp' = Parts fp /\
  Indices fp' !! (length (Parts fp) - 1)%nat = Some None /\
  fp = mkFieldPath (Parts fp') (<[(length (Parts fp') - 1)%nat := Some idx]> (Indices fp')) (FPos fp').
Proof.
  destruct fp as [parts indices pos]. unfold detachTrailingSlice. cbn [Parts Indices].
  destruct (_ || _); [discriminate|]. set (last := (length parts - 1)%nat).
  destruct (length indices <=? last)%nat eqn:El; [discriminate|]. bools.
  destruct (indices !! last) as [[e|]|] eqn:Hi; try discriminate.
  destruct (IsSlice e) eqn:Hs; [|discriminate]. intros [= <- <-]. cbn [Parts Indices FPos]. splits; auto.
  - apply list_lookup_insert_eq. lia.
  - f_equal. fold last. rewrite list_insert_insert_eq. symmetry. now apply list_insert_id.
Qed.

Lemma detachTrailingSlice_roundtrip_witness :
  let fp := mkFieldPath ["ipv6"; "src"]%string [None; Some (IdxSlice 0 32 (mkPos 1 9))] (mkPos 1 1) in
  exists fp', detachTrailingSlice fp = (fp', Some (IdxSlice 0 32 (mkPos 1 9))) /\ Parts fp' = Parts fp.
Proof.
  intros fp. eexists. split; [reflexivity|].
  eapply (detachTrailingSlice_roundtrip fp _ (IdxSlice 0 32 (mkPos 1 9))). reflexivity.
Defined.
