(* ===== verification/StackDepth.v ===== *)
(** * StackDepth: the kernel stack limits after a transform (pkg/inject)

    stackdepth.go: the topological order of a call graph, the longest
    chains of callers above every function and the three limits of the
    kernel's [check_max_stack_depth]. The call graph itself
    ([stackCallGraph], built from cilium/ebpf instructions) is the input:
    a list of [stackFunc] whose callees are indices of the list. *)

From Stdlib Require Import ZArith Lia Bool Ascii String List Relations.
From stdpp Require Import base list strings numbers option gmap.
From S2P Require Import Prelude GoStd Ir.
Local Open Scope Z_scope.
Local Open Scope go_scope.

Definition maxCallerDepth : Z := 256.
Definition maxCombinedStack : Z := 512.
Definition maxCallFrames : Z := 8.

Definition frameRounding32 (n : Z) : Z := Z.quot (Z.max n 1 + 31) 32 * 32.
Definition frameRounding16 (n : Z) : Z := Z.quot (n + 15) 16 * 16.

Record stackFunc := mkStackFunc {
  fname : string;
  fdepth : Z;
  tailCall : bool;
  changed : bool;
  callees : list nat
}.

(** [TFuel]: the recursion ran out of fuel (it never does); [TPanic]: an
    index out of range. *)
Inductive terr := TRecursive (name : string) | TFuel | TPanic.

(** ** stackTopoOrder *)

Inductive vstate := VNew | VOpen | VDone.

Definition dfs : Type := list vstate * list nat.

(** The loop [for _, c := range cs { if err := visit(c) ... }]. *)
Fixpoint visit_all (visit : nat -> dfs -> result terr dfs) (cs : list nat) (st : dfs) : result terr dfs :=
  match cs with
  | [] => Ok st
  | c :: cs' => let? st := visit c st in visit_all visit cs' st
  end.

Fixpoint visit (fuel : nat) (funcs : list stackFunc) (i : nat) (st : dfs) : result terr dfs :=
  match fuel with
  | O => Err TFuel
  | S fuel' =>
      match funcs !! i, fst st !! i with
      | Some f, Some VOpen => Err (TRecursive (fname f))
      | Some _, Some VDone => Ok st
      | Some f, Some VNew =>
          let? st := visit_all (visit fuel' funcs) (callees f) (<[i := VOpen]> (fst st), snd st) in
          Ok (<[i := VDone]> (fst st), snd st ++ [i])
      | _, _ => Err TPanic
      end
  end.

(** The recursion nests at most once per function. *)
Definition stackTopoOrder (funcs : list stackFunc) : result terr (list nat) :=
  let n := length funcs in
  let? st := visit_all (visit (S n) funcs) (seq 0 n) (replicate n VNew, []) in
  Ok (rev (snd st)).

(** ** Caller chains *)

Inductive chainKind := anyChain | changedChain.

(** [caller] is [None] at a root (the source's -1). *)
Record callerChain := mkChain { cbytes : Z; cframes : Z; caller : option nat; cfrom : chainKind }.

Record callerChains := mkChains { found : bool; byBytes : callerChain; byFrames : callerChain }.

Definition rootChain : callerChain := mkChain 0 0 None anyChain.
Definition zeroChains : callerChains := mkChains false (mkChain 0 0 (Some 0%nat) anyChain) (mkChain 0 0 (Some 0%nat) anyChain).

Definition grow (kind : chainKind) (by_ : nat) (bytes : Z) (c : callerChain) : callerChain :=
  mkChain (cbytes c + bytes) (cframes c + 1) (Some by_) kind.

Definition extend (cc from : callerChains) (kind : chainKind) (by_ : nat) (bytes : Z) : callerChains :=
  if negb (found from) then cc
  else
    let cb := grow kind by_ bytes (byBytes from) in
    let cf := grow kind by_ bytes (byFrames from) in
    mkChains true
      (if negb (found cc) || (cbytes (byBytes cc) <? cbytes cb) then cb else byBytes cc)
      (if negb (found cc) || (cframes (byFrames cc) <? cframes cf) then cf else byFrames cc).

(** [reach[i]]: the chains over every chain and over the changed ones. *)
Record reachAt := mkReach { any : callerChains; chg : callerChains }.

Definition initReach : reachAt := mkReach (mkChains true rootChain rootChain) zeroChains.

Definition reach_get (reach : list reachAt) (i : nat) : reachAt := default initReach (reach !! i).

(** The two [extend] calls for one callee [c] of [i]. *)
Definition relax (round : Z -> Z) (i : nat) (f : stackFunc) (reach : list reachAt) (c : nat) : list reachAt :=
  let from := reach_get reach i in
  let pass := if changed f then anyChain else changedChain in
  let passChains := if changed f then any from else chg from in
  let to := reach_get reach c in
  <[c := mkReach (extend (any to) (any from) anyChain i (round (fdepth f)))
                 (extend (chg to) passChains pass i (round (fdepth f)))]> reach.

Definition stackChains_step (funcs : list stackFunc) (round : Z -> Z) (reach : list reachAt) (i : nat)
    : list reachAt :=
  match funcs !! i with
  | Some f => fold_left (relax round i f) (callees f) reach
  | None => reach
  end.

Definition stackChains (funcs : list stackFunc) (round : Z -> Z) : result terr (list reachAt) :=
  let? order := stackTopoOrder funcs in
  Ok (fold_left (stackChains_step funcs round) order (replicate (length funcs) initReach)).

Definition counted (f : stackFunc) (r : reachAt) : callerChains := if changed f then any r else chg r.

(** [names]: the chain [c] leads to, root first. *)
Fixpoint names_loop (fuel : nat) (funcs : list stackFunc) (reach : list reachAt) (c : callerChain)
    (useFrames : bool) (names : list string) : list string :=
  match fuel, caller c with
  | S fuel', Some i =>
      let r := reach_get reach i in
      let next := match cfrom c with anyChain => any r | changedChain => chg r end in
      names_loop fuel' funcs reach (if useFrames then byFrames next else byBytes next) useFrames
        (match funcs !! i with Some f => fname f | None => "" end :: names)
  | _, _ => names
  end.

Definition names (funcs : list stackFunc) (reach : list reachAt) (f : stackFunc) (c : callerChain)
    (useFrames : bool) : string :=
  Join (names_loop (length funcs) funcs reach c useFrames [fname f]) " -> ".

(** ** stackLimitBroken *)

(** The assignments [broken[key] = message] of one round of the loop. *)
Definition limits_at (funcs : list stackFunc) (round : Z -> Z) (reach : list reachAt) (i : nat) (f : stackFunc)
    : list (string * error) :=
  let r := reach_get reach i in
  let callers := chg r in
  let total_callers := cbytes (byBytes callers) in
  let callerLimit :=
    if negb (i =? 0)%nat && tailCall f && found callers && (maxCallerDepth <=? total_callers)
    then [("caller:" +:+ fname f,
           Errorf "the frames calling %s (%s) total %d bytes, at or past the kernel's %d-byte caller-depth limit for a subprogram that calls bpf_tail_call"
             [AStr (fname f); AStr (names funcs reach f (byBytes callers) false); AInt total_callers; AInt maxCallerDepth])]
    else [] in
  let c := counted f r in
  if negb (found c) then callerLimit
  else
    let total := cbytes (byBytes c) + round (fdepth f) in
    let count := cframes (byFrames c) + 1 in
    callerLimit
    ++ (if maxCombinedStack <? total
        then [("combined:" +:+ fname f,
               Errorf "the call chain %s uses %d bytes of stack, past the kernel's %d-byte combined limit"
                 [AStr (names funcs reach f (byBytes c) false); AInt total; AInt maxCombinedStack])]
        else [])
    ++ (if maxCallFrames <? count
        then [("frames:" +:+ fname f,
               Errorf "the call chain %s is %d frames deep, past the kernel's %d-frame limit"
                 [AStr (names funcs reach f (byFrames c) true); AInt count; AInt maxCallFrames])]
        else []).

(** The map entry with the smallest key; later assignments to a key win. *)
Definition smallest (broken : gmap string error) : option error :=
  match map_to_list broken with
  | [] => None
  | kv :: kvs => Some (snd (fold_left (fun best kv => if String.ltb (fst kv) (fst best) then kv else best) kvs kv))
  end.

Definition stackLimitBroken (funcs : list stackFunc) (round : Z -> Z) : result terr (option error) :=
  let? reach := stackChains funcs round in
  let entries := concat (imap (limits_at funcs round reach) funcs) in
  let broken := fold_left (fun (m : gmap string error) kv => <[fst kv := snd kv]> m) entries ∅ in
  Ok (smallest broken).

(** ** stackLimitsBroken, from the two call graphs *)

Definition depthMap (before : list stackFunc) : gmap string Z :=
  fold_left (fun (m : gmap string Z) f =>
    <[fname f := if is_Some_b (m !! fname f) then -1 else fdepth f]> m) before ∅.

Definition markChanged (floor : string -> Z) (depth : gmap string Z) (f : stackFunc) : stackFunc :=
  let changed :=
    match depth !! fname f with
    | None => true
    | Some d => (d <? 0) || (d <? fdepth f) || (- floor (fname f) <? fdepth f)
    end in
  mkStackFunc (fname f) (fdepth f) (tailCall f) changed (callees f).

(** The rounding is the selected one ([selectedFrameRoundings]). *)
Definition selectedFrameRoundings (rounding : Z) : Z -> Z :=
  if rounding =? 16 then frameRounding16 else frameRounding32.

Definition stackLimitsBroken (before after : list stackFunc) (floor : string -> Z) (rounding : Z)
    : result terr (option error) :=
  stackLimitBroken (map (markChanged floor (depthMap before)) after) (selectedFrameRoundings rounding).

Definition demo_func (name : string) (d : Z) (cs : list nat) : stackFunc := mkStackFunc name d false true cs.

Definition diamond : list stackFunc :=
  [demo_func "main" 300 [1; 2]%nat; demo_func "a" 100 [3]%nat; demo_func "b" 200 [3]%nat; demo_func "c" 8 []].

Example diamond_order : stackTopoOrder diamond = Ok [0; 2; 1; 3]%nat.
Proof. reflexivity. Qed.

Example diamond_limit :
  stackLimitBroken diamond frameRounding32
  = Ok (Some (Errorf "the call chain %s uses %d bytes of stack, past the kernel's %d-byte combined limit"
                [AStr "main -> b"; AInt 544; AInt 512])).
Proof. vm_compute. reflexivity. Qed.

(** ** The call graph *)

Definition edge (funcs : list stackFunc) (a b : nat) : Prop :=
  exists f, funcs !! a = Some f /\ In b (callees f).

(** Every callee is a function of the list. *)
Definition graph_ok (funcs : list stackFunc) : Prop :=
  forall a b, edge funcs a b -> (b < length funcs)%nat.

Definition cyclic (funcs : list stackFunc) : Prop := exists j, clos_trans nat (edge funcs) j j.

(** ** Depth-first search *)

(** Every callee of a finished function was finished before it. *)
Definition post_ok (funcs : list stackFunc) (post : list nat) : Prop :=
  forall l1 i l2, post = l1 ++ i :: l2 -> forall c, edge funcs i c -> In c l1.

(** The open functions, innermost first, form a call chain. *)
Fixpoint stack_chain (funcs : list stackFunc) (s : list nat) : Prop :=
  match s with
  | [] => True
  | b :: s' => match s' with [] => True | a :: _ => edge funcs a b end /\ stack_chain funcs s'
  end.

Record dfs_inv (funcs : list stackFunc) (s : list nat) (st : dfs) : Prop := {
  inv_len : length (fst st) = length funcs;
  inv_open : forall j, fst st !! j = Some VOpen <-> In j s;
  inv_done : forall j, fst st !! j = Some VDone <-> In j (snd st);
  inv_nodup_s : List.NoDup s;
  inv_nodup : List.NoDup (snd st);
  inv_post : post_ok funcs (snd st);
  inv_stack : stack_chain funcs s
}.

Lemma stack_chain_reach funcs h s j :
  stack_chain funcs (h :: s) -> In j (h :: s) -> clos_refl_trans nat (edge funcs) j h.
Proof.
  revert h. induction s as [|a s IH]; intros h Hc [->|Hj]; try easy; try apply rt_refl.
  destruct Hc as [He Hc]. eapply rt_trans; [apply (IH a Hc Hj)|now apply rt_step].
Qed.

Lemma post_ok_snoc funcs post i :
  post_ok funcs post -> (forall c, edge funcs i c -> In c post) -> post_ok funcs (post ++ [i]).
Proof.
  intros H Hi l1 x l2 E c Hc. destruct l2 as [|y l2 _] using rev_ind.
  - apply app_inj_tail in E as [-> ->]. now apply Hi.
  - rewrite app_comm_cons, app_assoc in E. apply app_inj_tail in E as [-> _]. now apply (H l1 x l2).
Qed.

Lemma inv_bound funcs s st : dfs_inv funcs s st -> (length s <= length funcs)%nat.
Proof.
  intros H. rewrite <- (length_seq (length funcs) 0). apply List.NoDup_incl_length; [apply H|].
  intros j Hj. apply (inv_open _ _ _ H) in Hj. apply in_seq. rewrite <- (inv_len _ _ _ H).
  apply lookup_lt_Some in Hj. lia.
Qed.

(** Opening a function. *)
Lemma inv_push funcs s st i :
  dfs_inv funcs s st -> fst st !! i = Some VNew ->
  match s with [] => True | a :: _ => edge funcs a i end ->
  dfs_inv funcs (i :: s) (<[i := VOpen]> (fst st), snd st).
Proof.
  intros [H1 H2 H3 H4 H5 H6 H7] Hi He. pose proof (lookup_lt_Some _ _ _ Hi) as Hlt.
  constructor; cbn [fst snd]; auto.
  - now rewrite length_insert.
  - intros j. destruct (decide (j = i)) as [->|Hj].
    + rewrite list_lookup_insert_eq by exact Hlt. simpl. tauto.
    + rewrite list_lookup_insert_ne by congruence. rewrite H2. simpl. intuition congruence.
  - intros j. destruct (decide (j = i)) as [->|Hj].
    + rewrite list_lookup_insert_eq by exact Hlt. rewrite <- H3, Hi. split; discriminate.
    + rewrite list_lookup_insert_ne by congruence. apply H3.
  - constructor; [|exact H4]. rewrite <- H2, Hi. discriminate.
  - split; [exact He|exact H7].
Qed.

(** Finishing it. *)
Lemma inv_pop funcs s st i :
  dfs_inv funcs (i :: s) st -> (forall c, edge funcs i c -> In c (snd st)) ->
  dfs_inv funcs s (<[i := VDone]> (fst st), snd st ++ [i]).
Proof.
  intros [H1 H2 H3 H4 H5 H6 H7] Hc. assert (Hi : fst st !! i = Some VOpen) by (apply H2; now left).
  pose proof (lookup_lt_Some _ _ _ Hi) as Hlt. inversion H4 as [|? ? Hns Hnd]. subst.
  assert (Hnp : ~ In i (snd st)) by (rewrite <- H3, Hi; discriminate).
  constructor; cbn [fst snd]; auto.
  - now rewrite length_insert.
  - intros j. destruct (decide (j = i)) as [->|Hj].
    + rewrite list_lookup_insert_eq by exact Hlt. split; [discriminate|tauto].
    + rewrite list_lookup_insert_ne by congruence. rewrite H2. simpl. intuition congruence.
  - intros j. rewrite in_app_iff. destruct (decide (j = i)) as [->|Hj].
    + rewrite list_lookup_insert_eq by exact Hlt. simpl. tauto.
    + rewrite list_lookup_insert_ne by congruence. rewrite H3. simpl. intuition congruence.
  - apply List.NoDup_app; [exact H5|constructor; [easy|constructor]|]. intros j Hj [->|[]]. easy.
  - now apply post_ok_snoc.
  - apply H7.
Qed.

Definition dfs_post (funcs : list stackFunc) (s : list nat) (cs : list nat) (st : dfs) (r : result terr dfs) : Prop :=
  match r with
  | Ok st' => dfs_inv funcs s st' /\ (forall j, In j (snd st) -> In j (snd st')) /\ (forall c, In c cs -> In c (snd st'))
  | Err (TRecursive _) => cyclic funcs
  | Err _ => False
  end.

Lemma visit_all_spec funcs s (vis : nat -> dfs -> result terr dfs) cs st :
  dfs_inv funcs s st ->
  (forall c st, In c cs -> dfs_inv funcs s st -> dfs_post funcs s [c] st (vis c st)) ->
  dfs_post funcs s cs st (visit_all vis cs st).
Proof.
  revert st. induction cs as [|c cs IH]; intros st Hinv Hv; simpl.
  { splits; auto. easy. }
  pose proof (Hv c st (or_introl eq_refl) Hinv) as Hc. destruct (vis c st) as [st1|e]; [|exact Hc].
  destruct Hc as (H1 & H2 & H3). cbn [result_bind].
  pose proof (IH st1 H1 (fun c' st' Hi => Hv c' st' (or_intror Hi))) as Hr.
  destruct (visit_all vis cs st1) as [st2|e]; [|exact Hr]. destruct Hr as (H4 & H5 & H6).
  cbn [dfs_post]. splits; auto. intros c' [<-|Hc']; auto. apply H5, H3. now left.
Qed.

Lemma visit_spec funcs fuel i s st :
  graph_ok funcs -> (i < length funcs)%nat -> dfs_inv funcs s st ->
  (length funcs < fuel + length s)%nat -> match s with [] => True | a :: _ => edge funcs a i end ->
  dfs_post funcs s [i] st (visit fuel funcs i st).
Proof.
  intros Hg. revert i s st. induction fuel as [|fuel IH]; intros i s st Hi Hinv Hfuel He.
  { pose proof (inv_bound _ _ _ Hinv). lia. }
  simpl. destruct (lookup_lt_is_Some_2 funcs i Hi) as [f Hf]. rewrite Hf.
  destruct (lookup_lt_is_Some_2 (fst st) i) as [v Hv]; [rewrite (inv_len _ _ _ Hinv); exact Hi|]. rewrite Hv.
  destruct v.
  - pose proof (inv_push _ _ _ _ Hinv Hv He) as Hpush.
    pose proof (visit_all_spec funcs (i :: s) (visit fuel funcs) (callees f) _ Hpush) as Hall.
    assert (Hstep : forall c st', In c (callees f) -> dfs_inv funcs (i :: s) st' ->
      dfs_post funcs (i :: s) [c] st' (visit fuel funcs c st')).
    { intros c st' Hc Hinv'. assert (Hec : edge funcs i c) by (exists f; auto).
      apply IH; [apply (Hg i c Hec)|exact Hinv'|simpl; lia|exact Hec]. }
    specialize (Hall Hstep). destruct (visit_all _ _ _) as [st'|e]; [|exact Hall].
    destruct Hall as (H1 & H2 & H3). cbn [result_bind dfs_post fst snd]. splits.
    + apply inv_pop; [exact H1|]. intros c (f' & Hf' & Hc). apply H3. congruence.
    + intros j Hj. apply in_or_app. left. now apply H2.
    + intros c [<-|[]]. apply in_or_app. right. now left.
  - simpl. exists i. apply (inv_open _ _ _ Hinv) in Hv. destruct s as [|h s]; [easy|].
    pose proof (stack_chain_reach _ _ _ _ (inv_stack _ _ _ Hinv) Hv) as Hr.
    apply clos_rt_t with h; [exact Hr|now apply t_step].
  - simpl. splits; auto. intros c [<-|[]]. now apply (inv_done _ _ _ Hinv).
Qed.

Lemma dfs_init funcs : dfs_inv funcs [] (replicate (length funcs) VNew, []).
Proof.
  constructor; cbn [fst snd]; auto; try constructor.
  - apply length_replicate.
  - intros H. apply lookup_replicate in H as [[=] _].
  - easy.
  - intros H. apply lookup_replicate in H as [[=] _].
  - easy.
  - intros [|? ?] i l2 [=].
Qed.

(** ** The topological order *)

(** Every caller of a listed function is listed before it. *)
Definition callers_first (funcs : list stackFunc) (order : list nat) : Prop :=
  forall l1 i l2, order = l1 ++ i :: l2 -> forall a, edge funcs a i -> In a l1.

Lemma split_unique {A} (x : A) l1 l2 m1 m2 :
  List.NoDup (l1 ++ x :: l2) -> l1 ++ x :: l2 = m1 ++ x :: m2 -> l1 = m1 /\ l2 = m2.
Proof.
  revert m1. induction l1 as [|y l1 IH]; intros [|z m1] Hn E; simpl in *; injection E; clear E; intros; subst.
  - easy.
  - apply List.NoDup_cons_iff in Hn as [Hx _]. destruct Hx. apply in_or_app. right. now left.
  - apply List.NoDup_cons_iff in Hn as [Hx _]. destruct Hx. apply in_or_app. right. now left.
  - apply List.NoDup_cons_iff in Hn as [_ Hn]. destruct (IH m1) as [-> ->]; auto.
Qed.

Lemma post_rev_callers_first funcs post :
  List.NoDup post -> post_ok funcs post -> (forall a, (a < length funcs)%nat -> In a post) ->
  callers_first funcs (rev post).
Proof.
  intros Hn Hp Hall l1 i l2 E a Ha.
  assert (E' : post = rev l2 ++ i :: rev l1).
  { rewrite <- (rev_involutive post), E, rev_app_distr. simpl. now rewrite <- app_assoc. }
  assert (Hin : In a post) by (apply Hall; destruct Ha as (f & Hf & _); now apply lookup_lt_Some in Hf).
  apply in_split in Hin as (p1 & p2 & Ep). pose proof (Hp p1 a p2 Ep i Ha) as Hi.
  apply in_split in Hi as (q1 & q2 & ->). rewrite <- app_assoc in Ep. simpl in Ep.
  rewrite E' in Ep. apply split_unique in Ep as [_ Ep]; [|now rewrite <- E'].
  apply in_rev. rewrite Ep. apply in_or_app. right. now left.
Qed.

Definition before (order : list nat) (a b : nat) : Prop := exists l1 l2, order = l1 ++ b :: l2 /\ In a l1.

Lemma before_trans order a b c : List.NoDup order -> before order a b -> before order b c -> before order a c.
Proof.
  intros Hn (l1 & l2 & E1 & Ha) (m1 & m2 & E2 & Hb). exists m1, m2. split; [exact E2|].
  apply in_split in Hb as (n1 & n2 & ->). rewrite <- app_assoc in E2. simpl in E2. rewrite E1 in E2.
  apply split_unique in E2 as [-> _]; [|now rewrite <- E1]. apply in_or_app. now left.
Qed.

Lemma callers_first_acyclic funcs order :
  graph_ok funcs -> List.NoDup order -> (forall a, (a < length funcs)%nat -> In a order) ->
  callers_first funcs order -> ~ cyclic funcs.
Proof.
  intros Hg Hn Hall Hc [j Hj].
  assert (Hb : forall a b, clos_trans nat (edge funcs) a b -> before order a b).
  { induction 1 as [a b He|a b c _ IH1 _ IH2]; [|now apply before_trans with b].
    destruct (in_split b order (Hall b (Hg a b He))) as (l1 & l2 & E). exists l1, l2. split; [exact E|].
    now apply (Hc l1 b l2). }
  destruct (Hb _ _ Hj) as (l1 & l2 & E & Hin). rewrite E in Hn. apply NoDup_remove_2 in Hn.
  apply Hn. apply in_or_app. now left.
Qed.

Lemma stackTopoOrder_spec funcs :
  graph_ok funcs ->
  match stackTopoOrder funcs with
  | Ok order => List.NoDup order /\ (forall a, In a order <-> (a < length funcs)%nat) /\
                callers_first funcs order /\ ~ cyclic funcs
  | Err (TRecursive _) => cyclic funcs
  | Err _ => False
  end.
Proof.
  intros Hg. unfold stackTopoOrder. set (n := length funcs).
  pose proof (visit_all_spec funcs [] (visit (S n) funcs) (seq 0 n) _ (dfs_init funcs)) as H.
  assert (Hv : forall c st, In c (seq 0 n) -> dfs_inv funcs [] st -> dfs_post funcs [] [c] st (visit (S n) funcs c st)).
  { intros c st Hc Hi. apply in_seq in Hc. apply visit_spec; auto; unfold n in *; simpl; lia. }
  specialize (H Hv). fold n in H. destruct (visit_all _ _ _) as [[st post]|e]; [|exact H].
  destruct H as (Hinv & _ & Hall). cbn [result_bind snd] in *.
  assert (Hin : forall a, In a post <-> (a < n)%nat).
  { intros a. split; intros Ha; [|apply Hall, in_seq; lia].
    apply (inv_done _ _ _ Hinv) in Ha. apply lookup_lt_Some in Ha. now rewrite (inv_len _ _ _ Hinv) in Ha. }
  assert (Hn : List.NoDup (rev post)) by apply NoDup_rev, Hinv.
  assert (Hin' : forall a, In a (rev post) <-> (a < n)%nat) by (intros a; rewrite <- in_rev; apply Hin).
  assert (Hc : callers_first funcs (rev post)).
  { apply post_rev_callers_first; [apply Hinv|apply Hinv|]. intros a Ha. now apply Hin. }
  splits; auto. apply (callers_first_acyclic funcs (rev post)); auto. intros a Ha. now apply Hin'.
Qed.

(** ** Longest chains *)

(** The callers above [i], nearest first. *)
Inductive chain (funcs : list stackFunc) : nat -> list nat -> Prop :=
| chain_root i : chain funcs i []
| chain_call i a p : edge funcs a i -> chain funcs a p -> chain funcs i (a :: p).

Definition depth_at (funcs : list stackFunc) (a : nat) : Z :=
  match funcs !! a with Some f => fdepth f | None => 0 end.

Definition changed_at (funcs : list stackFunc) (a : nat) : Prop :=
  exists f, funcs !! a = Some f /\ changed f = true.

(** The rounded frame bytes of a chain. *)
Definition weight (funcs : list stackFunc) (round : Z -> Z) (p : list nat) : Z :=
  fold_right (fun a acc => round (depth_at funcs a) + acc) 0 p.

Definition frames (p : list nat) : Z := Z.of_nat (length p).

(** [v] is the largest measure of a chain in [P]. *)
Definition longest (P : list nat -> Prop) (measure : list nat -> Z) (v : Z) : Prop :=
  (exists p, P p /\ measure p = v) /\ forall p, P p -> measure p <= v.

(** [cc] holds the longest chains of the set [P]. *)
Definition measures (funcs : list stackFunc) (round : Z -> Z) (cc : callerChains) (P : list nat -> Prop) : Prop :=
  if found cc
  then longest P (weight funcs round) (cbytes (byBytes cc)) /\ longest P frames (cframes (byFrames cc))
  else forall p, ~ P p.

Lemma longest_ext P Q m v : (forall p, P p <-> Q p) -> longest P m v -> longest Q m v.
Proof.
  intros H [(p & Hp & Hm) Hmax]. split; [exists p; split; [now apply H|exact Hm]|].
  intros q Hq. now apply Hmax, H.
Qed.

Lemma measures_ext funcs round cc P Q :
  (forall p, P p <-> Q p) -> measures funcs round cc P -> measures funcs round cc Q.
Proof.
  unfold measures. intros H. destruct (found cc).
  - intros [H1 H2]. split; eapply longest_ext; eauto.
  - intros Hn p Hq. now apply (Hn p), H.
Qed.

(** One more caller on top of the chains of [Q], next to those of [P]. *)
Lemma longest_extend (P Q : list nat -> Prop) m i b v w (fnd : bool) :
  (forall p, m (i :: p) = m p + b) -> longest Q m w -> (if fnd then longest P m v else forall p, ~ P p) ->
  longest (fun p => P p \/ exists t, p = i :: t /\ Q t) m (if negb fnd || (v <? w + b) then w + b else v).
Proof.
  intros Hm [(q & Hq & Hw) Hmax] HP. destruct fnd; simpl.
  - destruct HP as [(p & Hp & Hv) HPmax]. destruct (Z.ltb_spec v (w + b)).
    + split; [exists (i :: q); split; [right; eauto|rewrite Hm; lia]|].
      intros r [Hr|(t & -> & Ht)]; [specialize (HPmax r Hr); lia|rewrite Hm; specialize (Hmax t Ht); lia].
    + split; [exists p; auto|].
      intros r [Hr|(t & -> & Ht)]; [now apply HPmax|rewrite Hm; specialize (Hmax t Ht); lia].
  - split; [exists (i :: q); split; [right; eauto|rewrite Hm; lia]|].
    intros r [Hr|(t & -> & Ht)]; [now apply HP in Hr|rewrite Hm; specialize (Hmax t Ht); lia].
Qed.

Lemma extend_measures funcs round cc from kind i P Q f :
  funcs !! i = Some f -> measures funcs round cc P -> measures funcs round from Q ->
  measures funcs round (extend cc from kind i (round (fdepth f))) (fun p => P p \/ exists t, p = i :: t /\ Q t).
Proof.
  intros Hf Hcc Hfrom. unfold extend. unfold measures in Hfrom. destruct (found from) eqn:Ef; simpl.
  - destruct Hfrom as [Hb Hfr]. unfold measures in *. cbn [found byBytes byFrames].
    split; (match goal with |- longest _ ?m (?g (if ?c then ?x else ?y)) =>
              replace (g (if c then x else y)) with (if c then g x else g y) by (destruct c; reflexivity) end);
      cbn [grow cbytes cframes]; apply longest_extend; auto.
    + intros p. simpl. unfold depth_at. rewrite Hf. lia.
    + destruct (found cc); [apply Hcc|exact Hcc].
    + intros p. unfold frames. simpl. lia.
    + destruct (found cc); [apply Hcc|exact Hcc].
  - eapply measures_ext; [|exact Hcc]. intros p. split; [auto|]. intros [Hp|(t & _ & Ht)]; [exact Hp|].
    now apply Hfrom in Ht.
Qed.

(** ** The measures after some edges were relaxed *)

Definition chains_via (funcs : list stackFunc) (D : nat -> nat -> Prop) (i : nat) (p : list nat) : Prop :=
  chain funcs i p /\ match p with [] => True | a :: _ => D a i end.

Definition changed_via (funcs : list stackFunc) (D : nat -> nat -> Prop) (i : nat) (p : list nat) : Prop :=
  chains_via funcs D i p /\ Exists (changed_at funcs) p.

Definition reach_inv (funcs : list stackFunc) (round : Z -> Z) (D : nat -> nat -> Prop) (reach : list reachAt) : Prop :=
  length reach = length funcs /\
  forall i, (i < length funcs)%nat ->
    measures funcs round (any (reach_get reach i)) (chains_via funcs D i) /\
    measures funcs round (chg (reach_get reach i)) (changed_via funcs D i).

Lemma reach_inv_ext funcs round D E reach :
  (forall a b, D a b <-> E a b) -> reach_inv funcs round D reach -> reach_inv funcs round E reach.
Proof.
  intros H [Hl Hr]. split; [exact Hl|]. intros i Hi. destruct (Hr i Hi) as [Ha Hc].
  assert (Hv : forall p, chains_via funcs D i p <-> chains_via funcs E i p).
  { intros [|a p]; unfold chains_via; [tauto|]. now rewrite H. }
  split; (eapply measures_ext; [|eassumption]); [exact Hv|]. intros p. unfold changed_via. now rewrite Hv.
Qed.

Lemma reach_get_insert reach c r : (c < length reach)%nat -> reach_get (<[c := r]> reach) c = r.
Proof. intros H. unfold reach_get. now rewrite list_lookup_insert_eq. Qed.

Lemma reach_get_insert_ne reach c i r : c <> i -> reach_get (<[c := r]> reach) i = reach_get reach i.
Proof. intros H. unfold reach_get. now rewrite list_lookup_insert_ne. Qed.

Lemma chains_via_add funcs D i c f p :
  funcs !! i = Some f -> edge funcs i c -> (forall a, edge funcs a i -> D a i) ->
  (chains_via funcs (fun a b => D a b \/ (a = i /\ b = c)) c p <->
   chains_via funcs D c p \/ exists t, p = i :: t /\ chains_via funcs D i t).
Proof.
  intros Hf He Hfull. unfold chains_via. split.
  - intros [Hp Hd]. destruct p as [|a t]; [tauto|]. destruct Hd as [Hd|[-> _]]; [tauto|]. right.
    exists t. split; [reflexivity|]. inversion Hp as [|? ? ? _ Ht]. subst. split; [exact Ht|].
    destruct t as [|b t]; [exact I|]. apply Hfull. now inversion Ht.
  - intros [[Hp Hd]|(t & -> & Ht & _)].
    + split; [exact Hp|]. destruct p; tauto.
    + split; [now constructor|]. auto.
Qed.

Lemma changed_via_add funcs D i c f p :
  funcs !! i = Some f -> edge funcs i c -> (forall a, edge funcs a i -> D a i) ->
  (changed_via funcs (fun a b => D a b \/ (a = i /\ b = c)) c p <->
   changed_via funcs D c p \/
   exists t, p = i :: t /\ (if changed f then chains_via funcs D i t else changed_via funcs D i t)).
Proof.
  intros Hf He Hfull. unfold changed_via at 1 2. rewrite (chains_via_add funcs D i c f p Hf He Hfull).
  assert (Hi : changed_at funcs i <-> changed f = true).
  { unfold changed_at. rewrite Hf. split; [intros (f' & [= <-] & H); exact H|intros H; now exists f]. }
  split.
  - intros [[Hp|(t & -> & Ht)] Hex]; [tauto|]. right. exists t. split; [reflexivity|].
    destruct (changed f) eqn:Ec; [exact Ht|]. split; [exact Ht|].
    apply Exists_cons in Hex as [Hex|Hex]; [apply Hi in Hex; discriminate|exact Hex].
  - intros [[Hp Hex]|(t & -> & Ht)]; [tauto|]. destruct (changed f) eqn:Ec.
    + split; [right; eauto|]. apply Exists_cons_hd. now apply Hi.
    + destruct Ht as [Ht Hex]. split; [right; eauto|]. now apply Exists_cons_tl.
Qed.

Lemma chains_via_other funcs D i c j p :
  j <> c -> chains_via funcs D j p <-> chains_via funcs (fun a b => D a b \/ (a = i /\ b = c)) j p.
Proof. intros Hj. unfold chains_via. destruct p as [|a p]; [tauto|]. intuition congruence. Qed.

Lemma relax_inv funcs round D i c f reach :
  graph_ok funcs -> funcs !! i = Some f -> edge funcs i c -> i <> c ->
  (forall a, edge funcs a i -> D a i) -> reach_inv funcs round D reach ->
  reach_inv funcs round (fun a b => D a b \/ (a = i /\ b = c)) (relax round i f reach c).
Proof.
  intros Hg Hf He Hne Hfull [Hlen Hr]. unfold relax. split; [now rewrite length_insert|].
  pose proof (Hg i c He) as Hc. pose proof (lookup_lt_Some _ _ _ Hf) as Hi.
  destruct (Hr i Hi) as [Hia Hic]. intros j Hj. destruct (Hr j Hj) as [Hja Hjc].
  destruct (decide (j = c)) as [->|Hjne].
  - rewrite reach_get_insert by (rewrite Hlen; exact Hc). cbn [any chg]. split.
    + eapply measures_ext; [|eapply extend_measures; [exact Hf|exact Hja|exact Hia]].
      intros p. symmetry. now apply (chains_via_add funcs D i c f).
    + eapply measures_ext; [intros p; symmetry; now apply (changed_via_add funcs D i c f)|].
      apply extend_measures; [exact Hf|exact Hjc|]. now destruct (changed f).
  - rewrite reach_get_insert_ne by congruence. split; (eapply measures_ext; [|eassumption]); intros p.
    + now apply chains_via_other.
    + unfold changed_via. now rewrite <- (chains_via_other funcs D i c j p Hjne).
Qed.

Lemma relax_all_inv funcs round i f cs D reach :
  graph_ok funcs -> funcs !! i = Some f -> (forall c, In c cs -> edge funcs i c /\ i <> c) ->
  (forall a, edge funcs a i -> D a i) -> reach_inv funcs round D reach ->
  reach_inv funcs round (fun a b => D a b \/ (a = i /\ In b cs)) (fold_left (relax round i f) cs reach).
Proof.
  intros Hg Hf. revert D reach. induction cs as [|c cs IH]; intros D reach Hcs Hfull Hr; simpl.
  - eapply reach_inv_ext; [|exact Hr]. simpl. tauto.
  - destruct (Hcs c (or_introl eq_refl)) as [He Hne]. eapply reach_inv_ext; [|apply (IH (fun a b => D a b \/ (a = i /\ b = c)))].
    + intros a b. simpl. intuition congruence.
    + intros c' Hc'. apply Hcs. now right.
    + intros a Ha. left. now apply Hfull.
    + now apply relax_inv.
Qed.

Lemma chain_closed funcs i p : chain funcs i p -> Forall (fun a => exists f, funcs !! a = Some f) p.
Proof. induction 1 as [|i a p (f & Hf & _) _ IH]; constructor; eauto. Qed.

Lemma init_inv funcs round :
  reach_inv funcs round (fun _ _ => False) (replicate (length funcs) initReach).
Proof.
  split; [apply length_replicate|]. intros i Hi. unfold reach_get. rewrite lookup_replicate_2 by exact Hi.
  simpl. assert (Hnil : forall p, chains_via funcs (fun _ _ => False) i p -> p = []).
  { intros [|a p] [_ H]; easy. }
  assert (Hroot : chains_via funcs (fun _ _ => False) i []) by (split; [constructor|exact I]).
  split; unfold measures; simpl.
  - split; (split; [exists []; split; [exact Hroot|reflexivity]|]); intros p Hp; apply Hnil in Hp as ->; reflexivity.
  - intros p [Hp Hex]. apply Hnil in Hp as ->. now apply Exists_nil in Hex.
Qed.

Lemma stackChains_fold funcs round done_ todo reach :
  graph_ok funcs -> ~ cyclic funcs -> callers_first funcs (done_ ++ todo) ->
  reach_inv funcs round (fun a b => In a done_ /\ edge funcs a b) reach ->
  reach_inv funcs round (fun a b => In a (done_ ++ todo) /\ edge funcs a b)
    (fold_left (stackChains_step funcs round) todo reach).
Proof.
  intros Hg Hac. revert done_ reach. induction todo as [|i todo IH]; intros done_ reach Hc Hr; simpl.
  { now rewrite app_nil_r. }
  replace (done_ ++ i :: todo) with ((done_ ++ [i]) ++ todo) in * by (rewrite <- app_assoc; reflexivity).
  apply IH; [exact Hc|]. unfold stackChains_step. destruct (funcs !! i) as [f|] eqn:Hf.
  - eapply reach_inv_ext; [|apply (relax_all_inv funcs round i f (callees f) (fun a b => In a done_ /\ edge funcs a b) reach Hg Hf); [| |exact Hr]].
    + intros a b. rewrite in_app_iff. simpl. split.
      * intros [[Ha He]|[-> Hb]]; [tauto|]. split; [tauto|]. now exists f.
      * intros [[Ha|[->|[]]] He]; [tauto|]. right. destruct He as (f' & Hf' & Hb). split; [reflexivity|]. congruence.
    + intros c Hcin. assert (He : edge funcs i c) by (now exists f). split; [exact He|]. intros <-.
      apply Hac. exists i. now apply t_step.
    + intros a Ha. split; [|exact Ha]. apply (Hc done_ i todo); [now rewrite <- app_assoc|exact Ha].
  - eapply reach_inv_ext; [|exact Hr]. intros a b. rewrite in_app_iff. simpl. split; [tauto|].
    intros [[Ha|[->|[]]] He]; [tauto|]. destruct He as (f & Hf' & _). congruence.
Qed.

Definition changed_chain (funcs : list stackFunc) (i : nat) (p : list nat) : Prop :=
  chain funcs i p /\ Exists (changed_at funcs) p.

Lemma stackChains_spec funcs round reach :
  graph_ok funcs -> stackChains funcs round = Ok reach ->
  ~ cyclic funcs /\ length reach = length funcs /\
  forall i, (i < length funcs)%nat ->
    measures funcs round (any (reach_get reach i)) (chain funcs i) /\
    measures funcs round (chg (reach_get reach i)) (changed_chain funcs i).
Proof.
  intros Hg. unfold stackChains. pose proof (stackTopoOrder_spec funcs Hg) as Ht.
  destruct (stackTopoOrder funcs) as [order|]; [|discriminate]. destruct Ht as (Hnd & Hin & Hc & Hac).
  intros [= <-]. split; [exact Hac|].
  assert (Hr : reach_inv funcs round (fun a b => In a ([] ++ order) /\ edge funcs a b)
                 (fold_left (stackChains_step funcs round) order (replicate (length funcs) initReach))).
  { apply stackChains_fold; [exact Hg|exact Hac|exact Hc|].
    eapply reach_inv_ext; [|apply init_inv]. simpl. tauto. }
  destruct Hr as [Hlen Hr]. split; [exact Hlen|]. intros i Hi. destruct (Hr i Hi) as [Ha Hch].
  assert (Hv : forall p, chains_via funcs (fun a b => In a ([] ++ order) /\ edge funcs a b) i p <-> chain funcs i p).
  { intros p. unfold chains_via. split; [tauto|]. intros Hp. split; [exact Hp|].
    destruct Hp as [|j a p He Hp]; [exact I|]. split; [|exact He]. apply Hin.
    destruct He as (f & Hf & _). now apply lookup_lt_Some in Hf. }
  split; (eapply measures_ext; [|eassumption]); [exact Hv|]. intros p. unfold changed_via, changed_chain. now rewrite Hv.
Qed.

(** ** The limits *)

(** The chains a changed chain through [i] is measured over. *)
Definition counted_chain (funcs : list stackFunc) (i : nat) (p : list nat) : Prop :=
  chain funcs i p /\ (changed_at funcs i \/ Exists (changed_at funcs) p).

(** [check_max_stack_depth]'s limits, over every changed call chain to
    function [i]. *)
Definition func_limits (funcs : list stackFunc) (round : Z -> Z) (i : nat) (f : stackFunc) : Prop :=
  (i <> 0%nat -> tailCall f = true -> forall p, changed_chain funcs i p -> weight funcs round p < maxCallerDepth) /\
  (forall p, counted_chain funcs i p ->
     weight funcs round p + round (fdepth f) <= maxCombinedStack /\ frames p + 1 <= maxCallFrames).

Definition limits_ok (funcs : list stackFunc) (round : Z -> Z) : Prop :=
  forall i f, funcs !! i = Some f -> func_limits funcs round i f.

Lemma longest_bound P m v b : longest P m v -> (v <= b <-> forall p, P p -> m p <= b).
Proof.
  intros [(q & Hq & Hm) Hmax]. split.
  - intros Hv p Hp. specialize (Hmax p Hp). lia.
  - intros H. specialize (H q Hq). lia.
Qed.

Lemma measures_bytes funcs round cc P b :
  measures funcs round cc P ->
  ((found cc = true -> cbytes (byBytes cc) <= b) <-> forall p, P p -> weight funcs round p <= b).
Proof.
  unfold measures. destruct (found cc).
  - intros [H _]. rewrite <- (longest_bound _ _ _ b H). tauto.
  - intros H. split; [|easy]. intros _ p Hp. now apply H in Hp.
Qed.

Lemma measures_frames funcs round cc P b :
  measures funcs round cc P ->
  ((found cc = true -> cframes (byFrames cc) <= b) <-> forall p, P p -> frames p <= b).
Proof.
  unfold measures. destruct (found cc).
  - intros [_ H]. rewrite <- (longest_bound _ _ _ b H). tauto.
  - intros H. split; [|easy]. intros _ p Hp. now apply H in Hp.
Qed.

Lemma counted_measures funcs round i f r :
  funcs !! i = Some f -> measures funcs round (any r) (chain funcs i) ->
  measures funcs round (chg r) (changed_chain funcs i) ->
  measures funcs round (counted f r) (counted_chain funcs i).
Proof.
  intros Hf Ha Hc. unfold counted.
  assert (Hi : changed_at funcs i <-> changed f = true).
  { unfold changed_at. rewrite Hf. split; [intros (f' & [= <-] & H); exact H|intros H; now exists f]. }
  destruct (changed f); (eapply measures_ext; [|eassumption]); intros p;
    unfold counted_chain, changed_chain; intuition congruence.
Qed.

Lemma app_nil_iff {A} (a b : list A) : a ++ b = [] <-> a = [] /\ b = [].
Proof. split; [apply app_eq_nil|]. now intros [-> ->]. Qed.

Lemma guard_nil {A} (g : bool) (x : A) : (if g then [x] else []) = [] <-> g = false.
Proof. now destruct g. Qed.

Lemma caller_guard i (tc fnd : bool) b v :
  negb (i =? 0)%nat && tc && fnd && (b <=? v) = false <->
  (i <> 0%nat -> tc = true -> fnd = true -> v <= b - 1).
Proof.
  destruct (Nat.eqb_spec i 0); simpl; [tauto|]. destruct tc, fnd; simpl; try (split; [easy|reflexivity]).
  rewrite Z.leb_gt. split; [intros; lia|]. intros H. specialize (H n eq_refl eq_refl). lia.
Qed.

Lemma limits_at_nil funcs round reach i f :
  funcs !! i = Some f ->
  measures funcs round (any (reach_get reach i)) (chain funcs i) ->
  measures funcs round (chg (reach_get reach i)) (changed_chain funcs i) ->
  (limits_at funcs round reach i f = [] <-> func_limits funcs round i f).
Proof.
  intros Hf Ha Hc. pose proof (counted_measures _ _ _ _ _ Hf Ha Hc) as Hm.
  unfold limits_at, func_limits. set (r := reach_get reach i) in *.
  set (caller_msg := ("caller:" +:+ fname f, _)). set (combined_msg := ("combined:" +:+ fname f, _)).
  set (frames_msg := ("frames:" +:+ fname f, _)).
  assert (Hcaller : (i <> 0%nat -> tailCall f = true -> forall p, changed_chain funcs i p -> weight funcs round p < maxCallerDepth)
      <-> (i <> 0%nat -> tailCall f = true -> found (chg r) = true -> cbytes (byBytes (chg r)) <= maxCallerDepth - 1)).
  { pose proof (measures_bytes _ _ _ _ (maxCallerDepth - 1) Hc) as Hb. fold r in Hb. split.
    - intros H Hi Ht. apply Hb. intros p Hp. specialize (H Hi Ht p Hp). lia.
    - intros H Hi Ht p Hp. pose proof (proj1 Hb (H Hi Ht) p Hp). lia. }
  rewrite Hcaller, <- caller_guard.
  assert (Hcount : (forall p, counted_chain funcs i p ->
       weight funcs round p + round (fdepth f) <= maxCombinedStack /\ frames p + 1 <= maxCallFrames)
    <-> (found (counted f r) = true -> cbytes (byBytes (counted f r)) <= maxCombinedStack - round (fdepth f)) /\
        (found (counted f r) = true -> cframes (byFrames (counted f r)) <= maxCallFrames - 1)).
  { rewrite (measures_bytes _ _ _ _ _ Hm), (measures_frames _ _ _ _ _ Hm). split.
    - intros H. split; intros p Hp; specialize (H p Hp); lia.
    - intros [H1 H2] p Hp. specialize (H1 p Hp). specialize (H2 p Hp). lia. }
  rewrite Hcount. destruct (found (counted f r)) eqn:Efd; cbn [negb].
  - rewrite !app_nil_iff, !guard_nil, !Z.ltb_ge. intuition lia.
  - rewrite guard_nil. intuition discriminate.
Qed.

Lemma insert_all_empty (entries : list (string * error)) (m : gmap string error) :
  fold_left (fun m kv => <[fst kv := snd kv]> m) entries m = ∅ <-> entries = [] /\ m = ∅.
Proof.
  revert m. induction entries as [|[k v] entries IH]; intros m; simpl; [tauto|].
  rewrite IH. split; [intros [_ H]; now apply insert_non_empty in H|intros [[=] _]].
Qed.

Lemma smallest_none broken : smallest broken = None <-> broken = ∅.
Proof.
  unfold smallest. rewrite <- map_to_list_empty_iff. destruct (map_to_list broken); split; easy.
Qed.

Lemma concat_imap_nil {A B} (g : nat -> A -> list B) l :
  concat (imap g l) = [] <-> forall i x, l !! i = Some x -> g i x = [].
Proof.
  revert g. induction l as [|x l IH]; intros g; simpl; [split; easy|].
  rewrite app_nil_iff, IH. split.
  - intros [H1 H2] [|i] y; simpl; [now intros [= <-]|apply H2].
  - intros H. split; [now apply (H 0%nat)|]. intros i y Hy. now apply (H (S i)).
Qed.

Lemma stackLimitBroken_spec funcs round :
  graph_ok funcs ->
  match stackLimitBroken funcs round with
  | Ok None => ~ cyclic funcs /\ limits_ok funcs round
  | Ok (Some _) => ~ cyclic funcs /\ ~ limits_ok funcs round
  | Err (TRecursive _) => cyclic funcs
  | Err _ => False
  end.
Proof.
  intros Hg. unfold stackLimitBroken. destruct (stackChains funcs round) as [reach|e] eqn:E.
  - destruct (stackChains_spec funcs round reach Hg E) as (Hac & _ & Hr). cbn [result_bind].
    assert (Hlim : concat (imap (limits_at funcs round reach) funcs) = [] <-> limits_ok funcs round).
    { rewrite concat_imap_nil. unfold limits_ok. split; intros H i f Hf;
        destruct (Hr i (lookup_lt_Some _ _ _ Hf)) as [Ha Hc];
        apply (limits_at_nil funcs round reach i f Hf Ha Hc); auto. }
    destruct (smallest _) eqn:Es.
    + split; [exact Hac|]. intros H. apply Hlim in H. rewrite H in Es. discriminate.
    + apply smallest_none, insert_all_empty in Es as [Es _]. split; [exact Hac|]. now apply Hlim.
  - unfold stackChains in E. pose proof (stackTopoOrder_spec funcs Hg) as Ht.
    destruct (stackTopoOrder funcs) as [order|e']; [discriminate|]. simpl in E. injection E as <-. exact Ht.
Qed.

(** ** Marking the functions a transform changed *)

Lemma depthMap_lookup before n d :
  depthMap before !! n = Some d -> d = -1 \/ exists g, In g before /\ fname g = n /\ fdepth g = d.
Proof.
  unfold depthMap. cut (forall m : gmap string Z, (forall d, m !! n = Some d -> d = -1 \/ exists g, In g before /\ fname g = n /\ fdepth g = d) ->
    forall d, fold_left (fun (m : gmap string Z) f => <[fname f := if is_Some_b (m !! fname f) then -1 else fdepth f]> m) before m !! n = Some d ->
    d = -1 \/ exists g, In g before /\ fname g = n /\ fdepth g = d).
  { intros H. apply H. intros d'. now rewrite lookup_empty. }
  assert (Hgen : forall rest m, (forall g, In g rest -> In g before) ->
    (forall d, m !! n = Some d -> d = -1 \/ exists g, In g before /\ fname g = n /\ fdepth g = d) ->
    forall d, fold_left (fun (m : gmap string Z) f => <[fname f := if is_Some_b (m !! fname f) then -1 else fdepth f]> m) rest m !! n = Some d ->
    d = -1 \/ exists g, In g before /\ fname g = n /\ fdepth g = d); [|intros m; now apply Hgen].
  induction rest as [|f rest IH]; intros m Hin Hm d0; simpl; [apply Hm|]. apply IH.
  - intros g Hg. apply Hin. now right.
  - intros d1. destruct (decide (fname f = n)) as [<-|Hne].
    + rewrite lookup_insert_eq. intros [= <-]. destruct (is_Some_b _); [now left|]. right. exists f.
      splits; auto. apply Hin. now left.
    + rewrite lookup_insert_ne by exact Hne. apply Hm.
Qed.

(** A function that is new, or deeper than every original of its name. *)
Definition deepened (before : list stackFunc) (f : stackFunc) : Prop :=
  0 <= fdepth f /\ forall g, In g before -> fname g = fname f -> fdepth g < fdepth f.

Lemma markChanged_deepened floor before f :
  deepened before f -> changed (markChanged floor (depthMap before) f) = true.
Proof.
  intros [H0 H]. unfold markChanged. simpl. destruct (depthMap before !! fname f) as [d|] eqn:E; [|reflexivity].
  apply depthMap_lookup in E as [->|(g & Hg & Hn & <-)]; [reflexivity|]. specialize (H g Hg Hn).
  replace (fdepth g <? fdepth f) with true by (symmetry; apply Z.ltb_lt; lia).
  now rewrite orb_true_r.
Qed.

Section Marked.
Context (floor : string -> Z) (depth : gmap string Z) (after : list stackFunc).
Let marked := map (markChanged floor depth) after.

Lemma marked_lookup i : marked !! i = markChanged floor depth <$> after !! i.
  Proof. apply list_lookup_fmap. Qed.

Lemma marked_edge a b : edge marked a b <-> edge after a b.
  Proof.
    unfold edge. setoid_rewrite marked_lookup. split.
    - intros (f & Hf & Hb). destruct (after !! a) as [g|]; [|discriminate]. injection Hf as <-. eauto.
    - intros (f & Hf & Hb). rewrite Hf. simpl. eauto.
  Qed.

Lemma marked_chain i p : chain after i p -> chain marked i p.
  Proof. induction 1; constructor; auto. now apply marked_edge. Qed.

Lemma marked_weight round p : weight marked round p = weight after round p.
  Proof.
    induction p as [|a p IH]; [reflexivity|]. simpl. rewrite IH. unfold depth_at. rewrite marked_lookup.
    now destruct (after !! a).
  Qed.

Lemma marked_graph_ok : graph_ok after -> graph_ok marked.
  Proof. intros H a b He. apply marked_edge in He. unfold marked. rewrite length_map. now apply (H a b). Qed.
End Marked.

(** ** Properties *)

(** [stackTopoOrder] lists every function once, callers before
    callees, exactly when the call graph has no cycle; a cycle is reported
    as recursion, and the search always ends. *)
Theorem stackTopoOrder_correct funcs :
  graph_ok funcs ->
  match stackTopoOrder funcs with
  | Ok order => List.NoDup order /\ (forall a, In a order <-> (a < length funcs)%nat) /\
                callers_first funcs order /\ ~ cyclic funcs
  | Err (TRecursive _) => cyclic funcs
  | Err _ => False
  end.
Proof. apply stackTopoOrder_spec. Qed.

Lemma demo_graph_ok (funcs : list stackFunc) :
  forallb (fun f => forallb (fun b => (b <? length funcs)%nat) (callees f)) funcs = true -> graph_ok funcs.
Proof.
  intros H a b (f & Hf & Hb). rewrite forallb_forall in H. specialize (H f (proj1 (list_elem_of_In _ _) (list_elem_of_lookup_2 _ _ _ Hf))).
  rewrite forallb_forall in H. now apply Nat.ltb_lt, H.
Qed.

Lemma stackTopoOrder_correct_witness :
  cyclic [demo_func "a" 8 [1]%nat; demo_func "b" 8 [0]%nat] /\
  callers_first diamond [0; 2; 1; 3]%nat.
Proof.
  split.
  - apply (stackTopoOrder_correct [demo_func "a" 8 [1]%nat; demo_func "b" 8 [0]%nat]). now apply demo_graph_ok.
  - apply (stackTopoOrder_correct diamond). now apply demo_graph_ok.
Defined.

(** For every function, [stackChains] holds the largest caller-frame
    total and the largest frame count over all call chains to it, and the
    same over the chains with a changed caller (none found when there is no
    such chain). *)
Theorem stackChains_longest funcs round reach i :
  graph_ok funcs -> stackChains funcs round = Ok reach -> (i < length funcs)%nat ->
  measures funcs round (any (reach_get reach i)) (chain funcs i) /\
  measures funcs round (chg (reach_get reach i)) (changed_chain funcs i).
Proof. intros Hg E Hi. destruct (stackChains_spec funcs round reach Hg E) as (_ & _ & H). now apply H. Qed.

Lemma stackChains_longest_witness :
  exists reach, stackChains diamond frameRounding32 = Ok reach /\
    cbytes (byBytes (any (reach_get reach 3))) = 544 /\
    measures diamond frameRounding32 (any (reach_get reach 3)) (chain diamond 3).
Proof.
  eexists. split; [vm_compute; reflexivity|]. split; [reflexivity|].
  eapply (stackChains_longest diamond frameRounding32); [now apply demo_graph_ok|vm_compute; reflexivity|simpl; lia].
Defined.

(** [stackLimitBroken] decides the kernel's limits: it reports none
    exactly when every changed call chain stays within the caller-depth
    limit of a tail-calling callee, the combined stack and the frame
    count. *)
Theorem stackLimitBroken_exact funcs round :
  graph_ok funcs -> ~ cyclic funcs ->
  (stackLimitBroken funcs round = Ok None <-> limits_ok funcs round).
Proof.
  intros Hg Hac. pose proof (stackLimitBroken_spec funcs round Hg) as H.
  destruct (stackLimitBroken funcs round) as [[e|]|[]]; try tauto; (split; [discriminate|tauto]).
Qed.

Lemma stackLimitBroken_exact_witness :
  stackLimitBroken diamond frameRounding32 <> Ok None /\ ~ limits_ok diamond frameRounding32.
Proof.
  assert (H : stackLimitBroken diamond frameRounding32 <> Ok None) by (vm_compute; discriminate).
  split; [exact H|]. intros Hl. apply H. apply stackLimitBroken_exact; [now apply demo_graph_ok| |exact Hl].
  apply (stackTopoOrder_spec diamond). now apply demo_graph_ok.
Defined.

(** C23: when the transform's check passes, every call chain to a function
    it added or deepened stays within the kernel's combined stack and frame
    count, whatever the audited floors. *)
Theorem stackLimitsBroken_sound before after floor rounding i f p :
  graph_ok after -> stackLimitsBroken before after floor rounding = Ok None ->
  after !! i = Some f -> deepened before f -> chain after i p ->
  weight after (selectedFrameRoundings rounding) p + selectedFrameRoundings rounding (fdepth f) <= maxCombinedStack /\
  frames p + 1 <= maxCallFrames.
Proof.
  intros Hg E Hf Hd Hp. unfold stackLimitsBroken in E.
  pose proof (stackLimitBroken_spec _ (selectedFrameRoundings rounding)
    (marked_graph_ok floor (depthMap before) after Hg)) as H. rewrite E in H. destruct H as [_ H].
  pose proof (marked_lookup floor (depthMap before) after i) as Hm. rewrite Hf in Hm. simpl in Hm.
  destruct (H i _ Hm) as [_ Hc].
  rewrite <- (marked_weight floor (depthMap before) after). apply (Hc p). split; [now apply marked_chain|].
  left. eexists. split; [exact Hm|]. now apply markChanged_deepened.
Qed.

Lemma stackLimitsBroken_sound_witness :
  let before := [demo_func "main" 64 [1]%nat; demo_func "sub" 32 []] in
  let after := [demo_func "main" 96 [1; 2]%nat; demo_func "sub" 32 []; demo_func "hook" 40 []] in
  weight after frameRounding32 [0]%nat + frameRounding32 40 <= maxCombinedStack.
Proof.
  intros before after.
  apply (stackLimitsBroken_sound before after (fun _ => -512) 32 2 (demo_func "hook" 40 []) [0]%nat).
  - now apply demo_graph_ok.
  - vm_compute. reflexivity.
  - reflexivity.
  - split; [simpl; lia|]. intros g [<-|[<-|[]]]; discriminate.
  - apply chain_call; [|apply chain_root]. eexists. split; [reflexivity|]. simpl. auto.
Defined.
