(* ===== verification/RingBuf.v ===== *)
(** * RingBuf: the BPF ring buffer reader (internal/capture/fastrb)

    [Reader.ReadBatch] over a snapshot of the mapped memory: the data pages
    are a byte list of twice the ring size (the kernel maps the ring twice
    in a row), positions are 64-bit counters that never wrap back. The
    producer is the kernel; its record layout (an 8-byte header with the
    length and the busy and discard bits, data padded to 8 bytes) is the
    predicate [laid_out]. *)

From Stdlib Require Import ZArith Lia Bool List.
From stdpp Require Import base list numbers option.
From S2P Require Import Prelude.
Local Open Scope Z_scope.

Definition hdrBusyBit : Z := Z.shiftl 1 31.
Definition hdrDiscardBit : Z := Z.shiftl 1 30.
Definition hdrLenMask : Z := Z.ldiff (2 ^ 32 - 1) (Z.lor hdrBusyBit hdrDiscardBit).
Definition hdrSize : Z := 8.

Record Reader := mkReader { consPos : Z; prodPos : Z; ring : list Z; mask : Z }.

(** [RPanic] is Go's index out of range; [RFuel] never happens. *)
Inductive rberr := RPanic | RFuel.

(** A little-endian 32-bit load at index [off]. *)
Definition load32 (mem : list Z) (off : Z) : option Z :=
  match take 4 (drop (Z.to_nat off) mem) with
  | [a; b; c; d] => Some (a + 256 * b + 65536 * c + 16777216 * d)
  | _ => None
  end.

(** [mem[lo:hi]]. *)
Definition slice (mem : list Z) (lo hi : Z) : option (list Z) :=
  if (lo <=? hi) && (hi <=? Z.of_nat (length mem))
  then Some (take (Z.to_nat (hi - lo)) (drop (Z.to_nat lo) mem)) else None.

(** One round of the loop per unit of fuel; [out] collects the records
    handed to [fn]. *)
Fixpoint readLoop (fuel : nat) (mem : list Z) (msk prod pos : Z) (out : list (list Z))
    : result rberr (list (list Z) * Z) :=
  match fuel with
  | O => Err RFuel
  | S fuel' =>
      if pos <? prod then
        let off := Z.land pos msk in
        match load32 mem off with
        | None => Err RPanic
        | Some lenWord =>
            if negb (Z.land lenWord hdrBusyBit =? 0) then Ok (out, pos)
            else
              let dataLen := Z.land lenWord hdrLenMask in
              let alignedData := Z.ldiff (u64 (dataLen + 7)) 7 in
              let dataStart := u64 (pos + hdrSize) in
              let dataOff := Z.land dataStart msk in
              let next := u64 (dataStart + alignedData) in
              if Z.land lenWord hdrDiscardBit =? 0 then
                match slice mem dataOff (dataOff + dataLen) with
                | None => Err RPanic
                | Some record => readLoop fuel' mem msk prod next (out ++ [record])
                end
              else readLoop fuel' mem msk prod next out
        end
      else Ok (out, pos)
  end.

(** The records delivered, their number and the reader with its consumer
    position published. *)
Definition ReadBatch (r : Reader) : result rberr (list (list Z) * Z * Reader) :=
  let fuel := S (Z.to_nat ((prodPos r - consPos r + 7) / 8)) in
  match readLoop fuel (ring r) (mask r) (prodPos r) (consPos r) [] with
  | Ok (out, pos) => Ok (out, Z.of_nat (length out), mkReader pos (prodPos r) (ring r) (mask r))
  | Err e => Err e
  end.

(** ** The producer's layout *)

Inductive rstate := Busy | Discarded | Committed.

#[export] Instance rstate_eq_dec : EqDecision rstate.
Proof. solve_decision. Defined.

Record rbrecord := mkRec { rstatus : rstate; rdata : list Z }.

Definition status_bits (s : rstate) : Z :=
  match s with Busy => hdrBusyBit | Discarded => hdrDiscardBit | Committed => 0 end.

Definition rec_len (r : rbrecord) : Z := Z.of_nat (length (rdata r)).

(** Header plus data, rounded up to 8 bytes. *)
Definition rec_size (r : rbrecord) : Z := 8 + (rec_len r + 7) / 8 * 8.

(** [recs] are the records between positions [pos] and [prod]. *)
Fixpoint laid_out (mem : list Z) (msk pos prod : Z) (recs : list rbrecord) : Prop :=
  match recs with
  | [] => pos = prod
  | r :: recs' =>
      rec_len r < 2 ^ 30 /\
      load32 mem (Z.land pos msk) = Some (rec_len r + status_bits (rstatus r)) /\
      (rstatus r = Committed ->
       slice mem (Z.land (pos + 8) msk) (Z.land (pos + 8) msk + rec_len r) = Some (rdata r)) /\
      laid_out mem msk (pos + rec_size r) prod recs'
  end.

(** The records before the first busy one. *)
Fixpoint ready (recs : list rbrecord) : list rbrecord :=
  match recs with
  | r :: recs' => match rstatus r with Busy => [] | _ => r :: ready recs' end
  | [] => []
  end.

Definition is_committed (r : rbrecord) : bool := match rstatus r with Committed => true | _ => false end.

Definition delivered (recs : list rbrecord) : list (list Z) := map rdata (List.filter is_committed (ready recs)).

Definition total_size (recs : list rbrecord) : Z := fold_right (fun r acc => rec_size r + acc) 0 recs.

(** ** Lemmas *)

Lemma rec_len_nonneg r : 0 <= rec_len r.
Proof. unfold rec_len. lia. Qed.

Lemma rec_size_pos r : 8 <= rec_size r.
Proof. unfold rec_size. pose proof (rec_len_nonneg r). pose proof (Z.div_pos (rec_len r + 7) 8). lia. Qed.

Lemma total_size_nonneg recs : 0 <= total_size recs.
Proof. induction recs as [|r recs IH]; simpl; [lia|]. pose proof (rec_size_pos r). lia. Qed.

Lemma laid_out_end mem msk pos prod recs : laid_out mem msk pos prod recs -> prod = pos + total_size recs.
Proof.
  revert pos. induction recs as [|r recs IH]; intros pos H; simpl in *; [lia|].
  destruct H as (_ & _ & _ & H). apply IH in H. lia.
Qed.

Lemma align_down x : 0 <= x -> Z.ldiff x 7 = x / 8 * 8.
Proof.
  intros Hx. change 7 with (Z.ones 3). rewrite Z.ldiff_ones_r by lia.
  rewrite Z.shiftr_div_pow2, Z.shiftl_mul_pow2 by lia. reflexivity.
Qed.

Lemma land_pow2 w n : 0 <= n -> (Z.land w (2 ^ n) = 0 <-> Z.testbit w n = false).
Proof.
  intros Hn. split; intros H.
  - apply (f_equal (fun x => Z.testbit x n)) in H.
    rewrite Z.land_spec, Z.pow2_bits_true, Z.bits_0, andb_true_r in H by lia. exact H.
  - apply Z.bits_inj'. intros m Hm. rewrite Z.land_spec, Z.bits_0.
    destruct (Z.eq_dec n m) as [->|Hne]; [now rewrite H|]. rewrite Z.pow2_bits_false by lia. apply andb_false_r.
Qed.

(** The header word of a record whose length fits in 30 bits. *)
Lemma header_bits len s :
  0 <= len < 2 ^ 30 ->
  Z.land (len + status_bits s) hdrLenMask = len /\
  (Z.land (len + status_bits s) hdrBusyBit =? 0) = negb (bool_decide (s = Busy)) /\
  (Z.land (len + status_bits s) hdrDiscardBit =? 0) = negb (bool_decide (s = Discarded)).
Proof.
  intros Hlen.
  assert (Hk : exists k, len + status_bits s = k * 2 ^ 30 + len /\
    k = match s with Busy => 2 | Discarded => 1 | Committed => 0 end).
  { destruct s; eexists; (split; [|reflexivity]); cbn [status_bits]; change hdrBusyBit with (2 ^ 31);
      change hdrDiscardBit with (2 ^ 30); lia. }
  destruct Hk as (k & -> & Hk).
  assert (Hdiv : (k * 2 ^ 30 + len) / 2 ^ 30 = k) by (rewrite Z.div_add_l, Z.div_small by lia; lia).
  assert (Hbit : forall n, 0 <= n -> (Z.land (k * 2 ^ 30 + len) (2 ^ (30 + n)) =? 0) = negb (Z.odd (k / 2 ^ n))).
  { intros n Hn. apply eq_true_iff_eq. rewrite Z.eqb_eq, land_pow2, Z.testbit_odd, Z.shiftr_div_pow2 by lia.
    rewrite Z.pow_add_r, <- Z.div_div, Hdiv by lia. now destruct (Z.odd _). }
  splits.
  - change hdrLenMask with (Z.ones 30). rewrite Z.land_ones, Z.add_comm, Z.mod_add, Z.mod_small by lia. reflexivity.
  - change hdrBusyBit with (2 ^ (30 + 1)). rewrite Hbit by lia. subst k. now destruct s.
  - change hdrDiscardBit with (2 ^ (30 + 0)). rewrite Hbit by lia. subst k. now destruct s.
Qed.

Lemma readLoop_spec fuel mem msk prod pos recs out :
  laid_out mem msk pos prod recs -> 0 <= pos -> prod < two64 - 8 ->
  Z.of_nat (length recs) < Z.of_nat fuel ->
  readLoop fuel mem msk prod pos out = Ok (out ++ delivered recs, pos + total_size (ready recs)).
Proof.
  revert pos recs out. induction fuel as [|fuel IH]; intros pos recs out H Hpos Hprod Hf; [lia|].
  pose proof (laid_out_end _ _ _ _ _ H) as Hend. simpl.
  destruct recs as [|r recs].
  { simpl in H. subst. rewrite Z.ltb_irrefl. unfold delivered. simpl. now rewrite app_nil_r, Z.add_0_r. }
  simpl in Hend. pose proof (rec_size_pos r). pose proof (total_size_nonneg recs).
  replace (pos <? prod) with true by (symmetry; apply Z.ltb_lt; lia).
  destruct H as (Hlen & Hw & Hd & Hrest). rewrite Hw. pose proof (rec_len_nonneg r) as Hnn.
  destruct (header_bits (rec_len r) (rstatus r) ltac:(lia)) as (-> & -> & ->).
  rewrite negb_involutive. unfold delivered. cbn [ready].
  assert (Hstart : u64 (pos + hdrSize) = pos + 8) by (apply u64_small; unfold in_u64, hdrSize; lia).
  assert (Hnext : u64 (u64 (pos + hdrSize) + Z.ldiff (u64 (rec_len r + 7)) 7) = pos + rec_size r).
  { rewrite Hstart, (u64_small (rec_len r + 7)), align_down by (unfold in_u64, two64; lia).
    unfold rec_size in *. rewrite u64_small; [lia|]. unfold in_u64.
    pose proof (Z.div_pos (rec_len r + 7) 8). lia. }
  rewrite Hnext, Hstart. simpl in Hf.
  assert (Hcm : is_committed r = bool_decide (rstatus r = Committed)) by (unfold is_committed; now destruct (rstatus r)).
  destruct (rstatus r) eqn:Es; cbn [List.filter]; rewrite ?Hcm; simpl.
  - now rewrite app_nil_r, Z.add_0_r.
  - rewrite (IH _ recs) by (exact Hrest || lia). unfold delivered. f_equal. f_equal. lia.
  - rewrite (Hd eq_refl), (IH _ recs) by (exact Hrest || lia). unfold delivered.
    rewrite <- app_assoc. f_equal. f_equal. lia.
Qed.

Lemma total_size_length recs : 8 * Z.of_nat (length recs) <= total_size recs.
Proof. induction recs as [|r recs IH]; simpl; [lia|]. pose proof (rec_size_pos r). lia. Qed.

(** ** Properties *)

(** C24: over records laid out between the consumer and the producer
    position, [ReadBatch] hands out the data of the committed records, in
    order, up to the first busy one, skips discarded records, and publishes
    the position of the first record it did not consume. *)
Theorem ReadBatch_delivers r recs :
  laid_out (ring r) (mask r) (consPos r) (prodPos r) recs ->
  0 <= consPos r -> prodPos r < two64 - 8 ->
  ReadBatch r = Ok (delivered recs, Z.of_nat (length (delivered recs)),
                    mkReader (consPos r + total_size (ready recs)) (prodPos r) (ring r) (mask r)).
Proof.
  intros H Hc Hp. unfold ReadBatch.
  rewrite (readLoop_spec _ _ _ _ _ recs) by
    (exact H || exact Hc || exact Hp ||
     (pose proof (laid_out_end _ _ _ _ _ H); pose proof (total_size_length recs);
      assert (Z.of_nat (length recs) <= (prodPos r - consPos r + 7) / 8) by (apply Z.div_le_lower_bound; lia);
      pose proof (Z.div_pos (prodPos r - consPos r + 7) 8); lia)).
  reflexivity.
Qed.

(** A 32-byte ring (mapped twice): a committed record that wraps, a
    discarded one, a committed one and a busy one. *)
Definition demo_ring : list Z :=
  let page := [7; 8; 9; 0; 0; 0; 0; 0; 2; 0; 0; 64; 0; 0; 0; 0;
               0; 0; 0; 0; 0; 0; 0; 0; 3; 0; 0; 0; 0; 0; 0; 0] in page ++ page.

Definition demo_records : list rbrecord :=
  [mkRec Committed [7; 8; 9]; mkRec Discarded [0; 0]].

Lemma ReadBatch_delivers_witness :
  ReadBatch (mkReader 24 56 demo_ring 31)
  = Ok ([[7; 8; 9]], 1, mkReader 56 56 demo_ring 31).
Proof.
  apply (ReadBatch_delivers (mkReader 24 56 demo_ring 31) demo_records); [|discriminate|reflexivity].
  vm_compute. repeat split; auto; discriminate.
Defined.
