(* ===== verification/Record.v ===== *)
(** * Record: decision-state blocks and their comments (internal/record)

    record.go's layouts and decode.go's validation and rendering of a
    block, with the bound on the rendered comment. A run-time panic (an
    index out of range) is the error [RcPanic]; the theorems show it is
    never reached. Blocks are in the capturing host's byte order, here
    little-endian. *)

From Stdlib Require Import ZArith Lia Bool Ascii String List.
From stdpp Require Import base list strings numbers option.
From S2P Require Import Prelude GoStd GoBytes HookAbi.
Local Open Scope Z_scope.
Local Open Scope go_scope.

Inductive Mode := ModeNone | ModeFilter | ModeEntry.

#[global] Instance Mode_eq_dec : EqDecision Mode.
Proof. solve_decision. Defined.

Definition ParseMode (s : bytes) : result error Mode :=
  if bool_decide (s = B "none") then Ok ModeNone
  else if bool_decide (s = B "filter") then Ok ModeFilter
  else if bool_decide (s = B "entry") then Ok ModeEntry
  else Err (Errorf "invalid --record %q: must be none, filter or entry" [AStr (str s)]).

Definition BlockVersion : Z := 1.
Definition HeaderSize : Z := 8.
Definition OffLen : Z := 0.
Definition OffVersion : Z := 2.
Definition OffKind : Z := 3.
Definition OffValid : Z := 4.
Definition EntryOffSite : Z := 8.
Definition EntryOffKeyLen : Z := 12.
Definition EntryOffValueLen : Z := 14.
Definition EntryOffStatus : Z := 16.
Definition EntryOffBytes : Z := 24.
Definition KindFilter : Z := 1.
Definition KindEntry : Z := 2.
Definition ValidSite : Z := 0.    (* bit numbers of 1 << iota *)
Definition ValidStatus : Z := 1.
Definition ValidKey : Z := 2.
Definition ValidValue : Z := 3.
Definition MaxBytesLimit : Z := 4096.
Definition MaxFields : Z := 32.
Definition MaxCommentBytes : Z := 65535.

Record Field := mkField {
  FName : bytes; FParamIndex : Z; FSize : Z; FSigned : bool; FDeref : bool; FPointer : bool; FOffset : Z
}.

Record Scalar := mkScalar { SName : bytes; SParamIndex : Z; SSize : Z }.
Definition Scalar_Present (s : Scalar) : bool := 0 <=? SParamIndex s.

(** [BType] is nil when absent. *)
Record Bytes := mkBytes {
  BName : bytes; BParamIndex : Z; BPointer : bool; BSize : Z; BLen : Z; BType : option Ty
}.
Definition Bytes_Present (b : Bytes) : bool := 0 <=? BParamIndex b.

Record Layout := mkLayout {
  LMode : Mode; Fields : list Field; Site : Scalar; Status : Scalar; Key : Bytes; Value : Bytes
}.

Fixpoint fieldIndex_from (i : Z) (fs : list Field) (paramIndex : Z) (deref pointer : bool) (offset size : Z) (signed : bool) : Z :=
  match fs with
  | [] => -1
  | f :: fs =>
      if (FParamIndex f =? paramIndex) && Bool.eqb (FDeref f) deref && Bool.eqb (FPointer f) pointer
         && (FOffset f =? offset) && (FSize f =? size) && Bool.eqb (FSigned f) signed
      then i else fieldIndex_from (i + 1) fs paramIndex deref pointer offset size signed
  end.

Definition FieldIndex (l : Layout) := fieldIndex_from 0 (Fields l).

Definition Layout_Size (l : Layout) : Z :=
  if bool_decide (LMode l = ModeFilter) then HeaderSize + 8 * Z.of_nat (length (Fields l))
  else EntryOffBytes + BLen (Key l) + BLen (Value l).

Definition Layout_Kind (l : Layout) : Z := if bool_decide (LMode l = ModeFilter) then KindFilter else KindEntry.

(** ** CheckBlock *)

(** [binary.NativeEndian.UintN(b[off:])]. *)
Definition load (n : nat) (off : Z) (b : list Z) : result rcerr Z := getp (rd n (Z.to_nat off) b).

Definition CheckBlock (l : Layout) (b : list Z) : result rcerr unit :=
  if len b <? HeaderSize then rerrorf "record block too short: %d bytes" [AInt (len b)]
  else
    let? n := load 2 OffLen b in
    if negb (n =? len b) || negb (n =? Layout_Size l)
    then rerrorf "record block length %d, layout %d, have %d" [AInt n; AInt (Layout_Size l); AInt (len b)]
    else
      let? ver := load 1 OffVersion b in
      let? kind := load 1 OffKind b in
      if negb (ver =? BlockVersion) || negb (kind =? Layout_Kind l)
      then rerrorf "record block version %d kind %d does not match the layout" [AInt ver; AInt kind]
      else if bool_decide (LMode l = ModeEntry) then
        let? k := load 2 EntryOffKeyLen b in
        let? v := load 2 EntryOffValueLen b in
        if negb (k =? BLen (Key l)) || negb (v =? BLen (Value l))
        then rerrorf "record block key/value lengths %d/%d do not match the layout" [AInt k; AInt v]
        else Ok tt
      else Ok tt.

(** ** commentBuf *)

Definition sep (c : bytes) : bytes := if (length c =? 0)%nat then c else c ++ B " ".
Definition raw (name rest c : bytes) : bytes := sep c ++ name ++ rest.
Definition put_uint (name : bytes) (v : Z) (c : bytes) : bytes := AppendUint (sep c ++ name ++ B "=") v.
Definition put_int (name : bytes) (v : Z) (c : bytes) : bytes := AppendInt (sep c ++ name ++ B "=") v.

(** [for shift := hi; shift >= 0; shift -= 4]. *)
Definition hex_word (shifts : list Z) (v : Z) : bytes :=
  map (fun shift => hex_digit (Z.land (Z.shiftr v shift) 15)) shifts.

Definition put_word (name : bytes) (v : Z) (c : bytes) : bytes :=
  sep c ++ name ++ B "=0x" ++ hex_word [60; 56; 52; 48; 44; 40; 36; 32; 28; 24; 20; 16; 12; 8; 4; 0] v.

Definition put_hex (name : bytes) (data : list Z) (c : bytes) : bytes := AppendHex (sep c ++ name ++ B "=") data.

Definition bytesMarker (name : bytes) (length size : Z) (c : bytes) : bytes :=
  AppendUint (AppendUint (sep c ++ name ++ B "_bytes=") length ++ B "/") size.

(** ** Rendering scalars *)

(** [copy(buf[:], b)] into eight bytes. *)
Definition readUint (b : list Z) : Z := unle (take 8 b).

Definition isScalar (t : option Ty) : bool :=
  match t with Some (TInt _ _) | Some (TEnum _ _) => true | _ => false end.

(** The size and whether it can be read. *)
Definition scalarSpan (t : option Ty) (bit bits : Z) : Z * bool :=
  let span size :=
    let size := if 0 <? bits then u32 (bit + bits + 7) / 8 else size in
    (size, (0 <? size) && (size <=? 8)) in
  match t with
  | Some (TInt size _) => span size
  | Some (TEnum size _) => span size
  | _ => (0, false)
  end.

(** [int64(v<<shift)>>shift]. *)
Definition sign_extend (v width : Z) : Z := Z.shiftr (int64_of_u64 (u64 (Z.shiftl v (64 - width)))) (64 - width).

Definition appendScalar (dst : bytes) (t : option Ty) (data : list Z) (off bit bits : Z) : result rcerr (bytes * bool) :=
  let '(size, ok) := scalarSpan t bit bits in
  if negb ok || (len data <? u32 (off + size)) then Ok (dst, false)
  else
    let '(signed, boolean, width) :=
      match t with
      | Some (TInt sz enc) => (enc =? EncSigned, enc =? EncBool, u32 (sz * 8))
      | Some (TEnum sz sg) => (sg, false, u32 (sz * 8))
      | _ => (false, false, u32 (size * 8))
      end in
    let width := if 0 <? bits then bits else width in
    let? window := getp (sl (Z.to_nat off) (Z.to_nat (u32 (off + size))) data) in
    let v := readUint window in
    let v := if 0 <? bits then Z.land (Z.shiftr v bit) (2 ^ bits - 1) else v in
    Ok (if boolean then AppendBool dst (negb (v =? 0))
        else if signed && (width <? 64) then AppendInt dst (sign_extend v width)
        else if signed then AppendInt dst (int64_of_u64 v)
        else AppendUint dst v, true).

(** [commentBuf.scalar]: nothing is left behind when the value lies past
    the recorded bytes. *)
Definition put_scalar (name : bytes) (t : option Ty) (data : list Z) (off bit bits : Z) (c : bytes) : result rcerr bytes :=
  let? r := appendScalar (sep c ++ name ++ B "=") t data off bit bits in
  let '(b, ok) := r in
  Ok (if ok then b else c).

(** ** memberSink *)

Definition maxUintDigits : Z := 20.

Record memberSink := mkSink { sc : option bytes; sdata : list Z; sn : Z }.

Definition blen (name : bytes) : Z := Z.of_nat (length name).

Definition visit (name : bytes) (t : option Ty) (off bits size : Z) (s : memberSink) : result rcerr memberSink :=
  match sc s with
  | None =>
      Ok (mkSink None (sdata s)
            (sn s + if isScalar t then 1 + blen name + 1 + maxUintDigits else 1 + blen name + 1 + 2 * size))
  | Some c =>
      let? c := if isScalar t then put_scalar name t (sdata s) (off / 8) (off mod 8) bits c
                else let? d := getp (sl (Z.to_nat (off / 8)) (Z.to_nat (off / 8 + size)) (sdata s)) in
                     Ok (put_hex name d c) in
      Ok (mkSink (Some c) (sdata s) (sn s))
  end.

Section Walk.
Context `{Btf}.

(** [for _, m := range members { f(m) }]. *)
Definition for_members (f : Member -> memberSink -> result rcerr memberSink) (ms : list Member) (s : memberSink)
    : result rcerr memberSink :=
  fold_left (fun acc m => let? s := acc in f m s) ms (Ok s).

(** [fuel] bounds the nesting of structs and anonymous unions. *)
Fixpoint walk (fuel : nat) (prefix : bytes) (members : list Member) (base n : Z) (s : memberSink) : result rcerr memberSink :=
  match fuel with
  | O => Ok s
  | S fuel =>
      for_members (fun m s =>
        let off := u32 (base + u32 (MOffset m)) in
        let name := prefix ++ MName m in
        let t := UnderlyingType (MType m) in
        match t with
        | TStruct sname _ ms =>
            if Opaque sname then Ok s
            else
              let p := if (length (MName m) =? 0)%nat then prefix else name ++ B "." in
              walk fuel p ms off n s
        | TInt _ _ | TEnum _ _ =>
            let bits := u32 (BitfieldSize m) in
            let '(size, ok) := scalarSpan (Some t) (off mod 8) bits in
            if ok && (u32 (off / 8 + size) <=? n) then visit name (Some t) off bits size s else Ok s
        | TUnion _ _ _ | TArray _ _ =>
            if negb (Plain t) then Ok s
            else
              match t, (length (MName m) =? 0)%nat with
              | TUnion _ _ ms, true => walk fuel prefix ms off n s
              | _, _ =>
                  match Sizeof t with
                  | Some size =>
                      if (0 <? size) && (off mod 8 =? 0) && (off / 8 + size <=? n)
                      then visit name (Some t) off 0 size s else Ok s
                  | None => Ok s
                  end
              end
        | _ => Ok s
        end) members s
  end.

Definition rawBytes (name : bytes) (ms : list Member) : bool :=
  match ms with
  | [m] =>
      if negb (length name =? 0)%nat || negb (bool_decide (MName m = B "bytes")) then false
      else match UnderlyingType (MType m) with
           | TArray e _ => match UnderlyingType e with TInt size _ => size =? 1 | _ => false end
           | _ => false
           end
  | _ => false
  end.

(** [n] recorded bytes of [v]. *)
Definition show (v : Bytes) (n : Z) (s : memberSink) : result rcerr memberSink :=
  if n =? 0 then Ok s
  else if negb (BPointer v) then
    match sc s with
    | None => Ok (mkSink None (sdata s) (sn s + (1 + blen (BName v) + 1 + maxUintDigits)))
    | Some c =>
        let? d := getp (sl 0 (Z.to_nat n) (sdata s)) in
        Ok (mkSink (Some (put_uint (BName v) (readUint d) c)) (sdata s) (sn s))
    end
  else
    let t := option_map UnderlyingType (BType v) in
    match t with
    | None | Some TVoid => visit (BName v) None 0 0 n s
    | Some (TStruct name _ ms) =>
        if rawBytes name ms then visit (BName v) None 0 0 n s
        else if Opaque name then Ok s
        else walk (S (depth_members ms)) (BName v ++ B "->") ms 0 n s
    | Some (TInt _ _) | Some (TEnum _ _) =>
        let '(size, ok) := scalarSpan t 0 0 in
        if ok && (size <=? n) then visit (BName v ++ B "[0]") t 0 0 size s else Ok s
    | Some (TArray _ _) | Some (TUnion _ _ _) =>
        match t with
        | Some t => if Plain t then visit (BName v) (Some t) 0 0 n s else Ok s
        | None => Ok s
        end
    | _ => Ok s
    end.

Definition renderBytes (v : Bytes) (data : list Z) (c : bytes) : result rcerr bytes :=
  let? s := show v (len data) (mkSink (Some c) data 0) in
  getp (sc s).

(** ** AppendComment *)

Definition put_field (valid : Z) (b : list Z) (i : nat) (f : Field) (c : bytes) : result rcerr bytes :=
  let? v := load 8 (HeaderSize + 8 * Z.of_nat i) b in
  Ok (if negb (Z.testbit valid (Z.of_nat i)) then raw (FName f) (B "=?") c
      else if FPointer f && (v =? 0) then raw (FName f) (B "=null") c
      else if FPointer f then raw (FName f) (B "!=null") c
      else if FSigned f then put_int (FName f) (int64_of_u64 v) c
      else put_uint (FName f) v c).

Fixpoint put_fields (valid : Z) (b : list Z) (i : nat) (fs : list Field) (c : bytes) : result rcerr bytes :=
  match fs with
  | [] => Ok c
  | f :: fs => let? c := put_field valid b i f c in put_fields valid b (S i) fs c
  end.

(** The closure [scalar]. *)
Definition put_entry_scalar (valid : Z) (s : Scalar) (bit : Z) (v : Z) (word : bool) (c : bytes) : bytes :=
  if negb (Scalar_Present s) then c
  else
    let name := if bool_decide (SName s = B "info") && (SSize s =? 4) then B "site" else SName s in
    if negb (Z.testbit valid bit) then raw name (B "=?") c
    else if word then put_word name v c
    else put_uint name v c.

(** One turn of the loop over key and value; [off] is where its bytes start. *)
Definition put_entry_bytes (valid : Z) (b : list Z) (off : Z) (v : Bytes) (bit : Z) (c : bytes) : result rcerr bytes :=
  let? data := getp (sl (Z.to_nat off) (Z.to_nat (off + BLen v)) b) in
  if negb (Bytes_Present v) then Ok c
  else if BLen v =? 0 then Ok (if 0 <? BSize v then bytesMarker (BName v) 0 (BSize v) c else c)
  else if negb (Z.testbit valid bit) then Ok (raw (BName v) (B "=?") c)
  else
    let? c := renderBytes v data c in
    Ok (if BLen v <? BSize v then bytesMarker (BName v) (BLen v) (BSize v) c else c).

Definition AppendComment (l : Layout) (dst : bytes) (b : list Z) : result rcerr bytes :=
  let? _ := CheckBlock l b in
  let? valid := load 4 OffValid b in
  if bool_decide (LMode l = ModeFilter) then put_fields valid b 0 (Fields l) dst
  else
    let? site := load 4 EntryOffSite b in
    let c := put_entry_scalar valid (Site l) ValidSite site false dst in
    let? status := load 8 EntryOffStatus b in
    let c := put_entry_scalar valid (Status l) ValidStatus status true c in
    let? c := put_entry_bytes valid b EntryOffBytes (Key l) ValidKey c in
    put_entry_bytes valid b (EntryOffBytes + BLen (Key l)) (Value l) ValidValue c.

Definition Comment (l : Layout) (b : list Z) : result rcerr bytes := AppendComment l [] b.

(** ** MaxCommentLen *)

Definition ReturnPrefixLen : Z := blen (B "return=0x00000000 ").

(** The closure [add]. *)
Definition add_len (extra n : Z) : Z := (if 0 <? n then n + 1 else n) + extra.

Definition add_bytes (v : Bytes) (n : Z) : Z :=
  if negb (Bytes_Present v) then n
  else
    let s := match show v (BLen v) (mkSink None [] 0) with Ok s => sn s | Err _ => 0 end in
    let n := add_len (Z.max s (blen (BName v) + blen (B "=?"))) n in
    if BLen v <? BSize v then add_len (blen (BName v) + blen (B "_bytes=") + 2 * maxUintDigits + 1) n else n.

Definition MaxCommentLen (l : Layout) : Z :=
  if bool_decide (LMode l = ModeFilter)
  then fold_left (fun n f => add_len (blen (FName f) + 1 + maxUintDigits) n) (Fields l) 0
  else
    let n := 0 in
    let n := if Scalar_Present (Site l) then add_len (blen (B "site") + 1 + maxUintDigits) n else n in
    let n := if Scalar_Present (Status l) then add_len (blen (SName (Status l)) + blen (B "=0x") + 16) n else n in
    add_bytes (Value l) (add_bytes (Key l) n).
End Walk.
