(* ===== verification/RecordFacts.v ===== *)
(** * RecordFacts: what the hook comment shows and how long it is

    [appendScalar], [show] and [AppendComment] stay within the counts of
    [MaxCommentLen]; the parts of a rendered value and why none of them is
    secret; and the text of a filter block. *)

From Stdlib Require Import ZArith Lia Bool Ascii String List.
From stdpp Require Import base list strings numbers option.
From S2P Require Import Prelude GoStd GoBytes HookAbi Record.
Local Open Scope Z_scope.
Local Open Scope go_scope.

(** ** Lemmas: lengths *)

Lemma readUint_range b : Forall byte b -> 0 <= readUint b < two64.
Proof.
  intros Hb. unfold readUint. pose proof (unle_range (take 8 b) (Forall_take _ _ _ Hb)) as H.
  assert (256 ^ len (take 8 b) <= 256 ^ 8); [|unfold two64; lia].
  apply Z.pow_le_mono_r; [lia|]. unfold len. rewrite length_take. lia.
Qed.

Lemma int64_range v : 0 <= v < two64 -> - two63 <= int64_of_u64 v < two63.
Proof. unfold int64_of_u64, two64, two63. case_goal; bools; lia. Qed.

Lemma sign_extend_range v width : width <= 64 -> - two63 <= sign_extend v width < two63.
Proof.
  intros Hw. unfold sign_extend. pose proof (int64_range _ (u64_range (Z.shiftl v (64 - width)))) as H.
  set (x := int64_of_u64 _) in *. rewrite Z.shiftr_div_pow2 by lia.
  assert (Hp : 0 < 2 ^ (64 - width)) by (apply Z.pow_pos_nonneg; lia). split.
  - apply Z.div_le_lower_bound; [exact Hp|]. unfold two63 in *. nia.
  - apply Z.div_lt_upper_bound; [exact Hp|]. unfold two63 in *. nia.
Qed.

Lemma blen_app a b : blen (a ++ b) = blen a + blen b.
Proof. unfold blen. rewrite length_app. lia. Qed.

Lemma blen_nonneg a : 0 <= blen a.
Proof. unfold blen. lia. Qed.

Lemma sep_len c : blen c <= blen (sep c) <= blen c + 1 /\ (0 < blen c -> blen (sep c) = blen c + 1) /\
  (blen c = 0 -> blen (sep c) = 0).
Proof. unfold sep, blen. destruct c; simpl; [lia|]. rewrite length_app. simpl. lia. Qed.

Lemma AppendUint_blen dst v : blen (AppendUint dst v) <= blen dst + 20.
Proof. unfold blen. pose proof (AppendUint_length dst v). lia. Qed.

Lemma AppendInt_blen dst v : - two63 <= v < two63 -> blen (AppendInt dst v) <= blen dst + 20.
Proof. intros H. unfold blen. pose proof (AppendInt_length dst v H). lia. Qed.

Lemma AppendBool_blen dst v : blen (AppendBool dst v) <= blen dst + 20.
Proof. unfold blen. pose proof (AppendBool_length dst v). lia. Qed.

Lemma sl_ok lo hi b : (lo <= hi <= length b)%nat -> exists d, sl lo hi b = Some d /\ length d = (hi - lo)%nat /\
  forall P, Forall P b -> Forall P d.
Proof.
  intros H. unfold sl. rewrite (proj2 (Nat.leb_le lo hi)), (proj2 (Nat.leb_le hi (length b))) by lia.
  eexists. splits; [reflexivity|rewrite length_take, length_drop; lia|]. intros P HP. now apply Forall_take, Forall_drop.
Qed.

Lemma rd_ok n off b : (off + n <= length b)%nat -> Forall byte b -> exists v, rd n off b = Some v /\ 0 <= v < 256 ^ Z.of_nat n.
Proof.
  intros H Hb. unfold rd. rewrite (proj2 (Nat.leb_le _ _)) by lia. eexists. split; [reflexivity|].
  pose proof (unle_range (take n (drop off b)) (Forall_take _ _ _ (Forall_drop _ _ _ Hb))) as Hr.
  unfold len in Hr. rewrite length_take, length_drop, Nat.min_l in Hr by lia. exact Hr.
Qed.

Lemma load_ok n off b : 0 <= off -> off + Z.of_nat n <= len b -> Forall byte b ->
  exists v, load n off b = Ok v /\ 0 <= v < 256 ^ Z.of_nat n.
Proof.
  intros H0 H Hb. destruct (rd_ok n (Z.to_nat off) b) as (v & E & Hv); [unfold len in H; lia|exact Hb|].
  exists v. unfold load, getp. now rewrite E.
Qed.

Lemma land_le a m : 0 <= a -> 0 <= Z.land a m <= a.
Proof.
  intros Ha. split; [apply Z.land_nonneg; now left|].
  assert (E : a = Z.lxor (Z.land a m) (Z.ldiff a m)).
  { apply Z.bits_inj'. intros n Hn. rewrite Z.lxor_spec, Z.land_spec, Z.ldiff_spec.
    now destruct (Z.testbit a n), (Z.testbit m n). }
  rewrite E at 2. rewrite <- Z.add_nocarry_lxor.
  - pose proof (proj2 (Z.ldiff_nonneg a m) (or_introl Ha)). lia.
  - apply Z.bits_inj'. intros n Hn. rewrite Z.land_spec, Z.land_spec, Z.ldiff_spec, Z.bits_0.
    now destruct (Z.testbit a n), (Z.testbit m n).
Qed.

(** A readable scalar renders into at most 20 characters. *)
Lemma appendScalar_ok dst t data off bit bits size :
  scalarSpan t bit bits = (size, true) -> 0 <= bit -> 0 <= off -> off + size < 2 ^ 32 -> off + size <= len data ->
  Forall byte data ->
  exists b, appendScalar dst t data off bit bits = Ok (b, true) /\ blen b <= blen dst + 20.
Proof.
  intros Hs Hbit Ho H32 Hl Hb. unfold appendScalar. rewrite Hs. cbn [negb orb].
  assert (Hsz : 0 < size) by (unfold scalarSpan in Hs; repeat case_in Hs; try discriminate; injection Hs as <- Hs; bools; lia).
  unfold u32 at 1. rewrite (Z.mod_small (off + size)) by lia.
  replace (len data <? off + size) with false by (symmetry; apply Z.ltb_ge; lia).
  destruct (match t with Some (TInt _ _) => _ | _ => _ end) as [[signed boolean] width] eqn:Ew.
  destruct (sl_ok (Z.to_nat off) (Z.to_nat (u32 (off + size))) data) as (w & Esl & _ & Hw).
  { unfold u32. rewrite Z.mod_small by lia. unfold len in Hl. lia. }
  rewrite Esl. cbn [getp result_bind]. eexists. split; [reflexivity|].
  pose proof (readUint_range w (Hw _ Hb)) as Hv. set (v := if 0 <? bits then _ else readUint w).
  assert (Hv' : 0 <= v < two64).
  { subst v. destruct (0 <? bits); [|exact Hv]. rewrite Z.shiftr_div_pow2 by exact Hbit.
    pose proof (Z.pow_pos_nonneg 2 bit ltac:(lia) Hbit) as Hp.
    assert (0 <= readUint w / 2 ^ bit <= readUint w).
    { split; [apply Z.div_pos; lia|]. apply Z.div_le_upper_bound; [exact Hp|]. nia. }
    pose proof (land_le (readUint w / 2 ^ bit) (2 ^ bits - 1)). lia. }
  repeat case_goal; bools; auto using AppendBool_blen, AppendUint_blen;
    (apply AppendInt_blen; first [apply sign_extend_range; lia|now apply int64_range]).
Qed.

(** ** The two modes of the sink move together

    [tracks k n r q]: [r] renders [n] recorded bytes, [q] counts, and what
    was rendered is within [k] of the count. *)
Definition tracks (k n : Z) (r q : memberSink) : Prop :=
  exists c, sc r = Some c /\ len (sdata r) = n /\ Forall byte (sdata r) /\ sc q = None /\ blen c <= sn q + k.

(** Both runs succeed, and the relation is kept. *)
Definition both (k n : Z) (f : memberSink -> result rcerr memberSink) : Prop :=
  forall r q, tracks k n r q -> exists r' q', f r = Ok r' /\ f q = Ok q' /\ tracks k n r' q'.

Lemma both_ret k n : both k n (fun s => Ok s).
Proof. intros r q H. eauto. Qed.

Lemma visit_both k n name t off bits size :
  0 <= off < 2 ^ 32 -> n < 2 ^ 31 -> 0 <= size -> off / 8 + size <= n ->
  (isScalar t = true -> scalarSpan t (off mod 8) bits = (size, true)) ->
  both k n (visit name t off bits size).
Proof.
  intros Ho Hn Hs0 Hs Hsc r q (c & Ec & Hd & Hb & Eq & Hl). unfold visit. rewrite Ec, Eq.
  pose proof (Z.div_pos off 8 ltac:(lia) ltac:(lia)) as Hdiv. pose proof (Z.mod_pos_bound off 8 ltac:(lia)) as Hmod.
  destruct (sep_len c) as (Hsep & _).
  destruct (isScalar t) eqn:Et.
  - unfold put_scalar.
    destruct (appendScalar_ok (sep c ++ name ++ B "=") t (sdata r) (off / 8) (off mod 8) bits size) as (b & -> & Hbl);
      [auto|lia|lia|lia|lia|exact Hb|].
    cbn [result_bind]. eexists _, _. splits; [reflexivity..|]. exists b. cbn [sc sdata sn]. splits; auto.
    rewrite !blen_app in Hbl. change (blen (B "=")) with 1 in Hbl. unfold maxUintDigits. lia.
  - destruct (sl_ok (Z.to_nat (off / 8)) (Z.to_nat (off / 8 + size)) (sdata r)) as (d & -> & Hdl & _); [unfold len in *; lia|].
    cbn [getp result_bind]. eexists _, _. splits; [reflexivity..|]. eexists. cbn [sc sdata sn]. splits; auto.
    unfold put_hex, blen. rewrite AppendHex_length, !length_app, Hdl. unfold blen in *. simpl (length (B "=")). lia.
Qed.

Section Bound.
Context `{Btf}.

Lemma for_members_both k n f ms : (forall m, In m ms -> both k n (f m)) -> both k n (for_members f ms).
Proof.
  unfold for_members. induction ms as [|m ms IH]; intros Hf r q Ht; cbn [fold_left]; [eauto|].
  destruct (Hf m ltac:(now left) r q Ht) as (r1 & q1 & Er & Eq & Ht1). cbn [result_bind]. rewrite Er, Eq.
  apply IH; [intros m' Hm; apply Hf; now right|exact Ht1].
Qed.

Lemma u32_range z : 0 <= u32 z < 2 ^ 32.
Proof. apply Z.mod_pos_bound. lia. Qed.

Lemma scalarSpan_range t bit bits size : scalarSpan t bit bits = (size, true) -> 0 < size <= 8.
Proof. unfold scalarSpan. intros Hs. repeat case_in Hs; try discriminate; injection Hs as <- Hs; bools; lia. Qed.

Lemma walk_both k n fuel prefix ms base : n < 2 ^ 31 -> both k n (walk fuel prefix ms base n).
Proof.
  intros Hn. revert prefix ms base. induction fuel as [|fuel IH]; intros prefix ms base; cbn [walk]; [apply both_ret|].
  apply for_members_both. intros m _. cbv zeta. set (off := u32 (base + u32 (MOffset m))).
  assert (Ho : 0 <= off < 2 ^ 32) by apply u32_range.
  pose proof (Z.div_pos off 8 ltac:(lia) ltac:(lia)) as Hdiv.
  assert (Hd8 : off / 8 < 2 ^ 29) by (apply Z.div_lt_upper_bound; lia).
  intros r q Ht. set (name := prefix ++ MName m).
  assert (Hscalar : forall t, both k n (fun s => let '(size, ok) := scalarSpan (Some t) (off mod 8) (u32 (BitfieldSize m)) in
    if ok && (u32 (off / 8 + size) <=? n) then visit name (Some t) off (u32 (BitfieldSize m)) size s else Ok s)).
  { intros t. destruct (scalarSpan (Some t) _ _) as [size [|]] eqn:Es; cbn [andb]; [|apply both_ret].
    pose proof (scalarSpan_range _ _ _ _ Es) as Hsz. rewrite (u32_small (off / 8 + size)) by lia.
    destruct (Z.leb_spec (off / 8 + size) n); [|apply both_ret]. apply visit_both; try lia. intros _. exact Es. }
  assert (Hbytes : forall t, isScalar (Some t) = false -> both k n (fun s => match Sizeof t with
    | Some size => if (0 <? size) && (off mod 8 =? 0) && (off / 8 + size <=? n) then visit name (Some t) off 0 size s else Ok s
    | None => Ok s end)).
  { intros t Hns. destruct (Sizeof t) as [size|]; [|apply both_ret]. destruct (_ && _ && _) eqn:E; [|apply both_ret].
    bools. apply visit_both; try lia. congruence. }
  destruct (UnderlyingType (MType m)) as [|sz enc|sz sg|tg|e ne|sname ssz sms|sname ssz sms|qn qt|fsz|] eqn:Et; eauto.
  - now apply Hscalar.
  - now apply Hscalar.
  - destruct (negb _); [eauto|]. now apply Hbytes.
  - destruct (Opaque sname); [eauto|]. now apply IH.
  - destruct (negb _); [eauto|]. destruct (length (MName m) =? 0)%nat; [now apply IH|now apply Hbytes].
Qed.

Lemma show_both k v n : 0 <= n < 2 ^ 31 -> both k n (show v n).
Proof.
  intros Hn. unfold show. destruct (n =? 0) eqn:E0; [apply both_ret|]. bools. destruct (BPointer v); cbn [negb].
  - destruct (option_map UnderlyingType (BType v)) as [t|] eqn:Et.
    2: { apply visit_both; try lia; [rewrite Z.div_0_l by lia; lia|discriminate]. }
    destruct t as [|sz enc|sz sg|tg|e ne|sname ssz sms|sname ssz sms|qn qt|fsz|]; try apply both_ret.
    + apply visit_both; try lia; [rewrite Z.div_0_l by lia; lia|discriminate].
    + destruct (scalarSpan _ 0 0) as [size [|]] eqn:Es; cbn [andb]; [|apply both_ret].
      pose proof (scalarSpan_range _ _ _ _ Es). destruct (Z.leb_spec size n); [|apply both_ret].
      apply visit_both; try lia; [rewrite Z.div_0_l by lia; lia|now rewrite Z.mod_0_l].
    + destruct (scalarSpan _ 0 0) as [size [|]] eqn:Es; cbn [andb]; [|apply both_ret].
      pose proof (scalarSpan_range _ _ _ _ Es). destruct (Z.leb_spec size n); [|apply both_ret].
      apply visit_both; try lia; [rewrite Z.div_0_l by lia; lia|now rewrite Z.mod_0_l].
    + destruct (Plain _); [|apply both_ret]. apply visit_both; try lia; [rewrite Z.div_0_l by lia; lia|discriminate].
    + destruct (rawBytes _ _); [apply visit_both; try lia; [rewrite Z.div_0_l by lia; lia|discriminate]|].
      destruct (Opaque sname); [apply both_ret|]. apply walk_both. lia.
    + destruct (Plain _); [|apply both_ret]. apply visit_both; try lia; [rewrite Z.div_0_l by lia; lia|discriminate].
  - intros r q (c & Ec & Hd & Hb & Eq & Hl). rewrite Ec, Eq.
    destruct (sl_ok 0 (Z.to_nat n) (sdata r)) as (d & -> & _ & _); [unfold len in *; lia|]. cbn [getp result_bind].
    eexists _, _. splits; [reflexivity..|]. eexists. cbn [sc sdata sn]. splits; auto.
    unfold put_uint. pose proof (AppendUint_blen (sep c ++ BName v ++ B "=") (readUint d)) as Hu.
    rewrite !blen_app in Hu. destruct (sep_len c) as (Hsep & _). change (blen (B "=")) with 1 in Hu. unfold maxUintDigits. lia.
Qed.

(** What counting one value costs bounds what rendering it writes. *)
Lemma renderBytes_ok v data c :
  len data = BLen v -> len data < 2 ^ 31 -> Forall byte data ->
  exists c' q, renderBytes v data c = Ok c' /\ show v (BLen v) (mkSink None [] 0) = Ok q /\ blen c' <= blen c + sn q.
Proof.
  intros Hl Hd Hb. unfold renderBytes. rewrite Hl.
  destruct (show_both (blen c) v (BLen v) ltac:(pose proof (len_nonneg data); lia) (mkSink (Some c) data 0) (mkSink None [] 0))
    as (r' & q' & -> & -> & c' & Ec & _ & _ & _ & Hbl).
  { exists c. cbn [sc sdata sn]. splits; auto; try lia. }
  cbn [result_bind]. rewrite Ec. exists c', q'. splits; [reflexivity..|lia].
Qed.
End Bound.

(** ** The bound on the whole comment *)

Section Comment.
Context `{Btf}.

(** What [buildEntry] makes sure of: lengths are sizes, and the scalar the
    block's site word holds is named site or is the low half of info. *)
Definition layout_ok (l : Layout) : Prop :=
  0 <= BLen (Key l) /\ 0 <= BLen (Value l) /\
  (LMode l <> ModeFilter -> Scalar_Present (Site l) = true -> SName (Site l) = B "site" \/ (SName (Site l) = B "info" /\ SSize (Site l) = 4)).

(** [c] extends a comment of [base] characters within the count [n]. *)
Definition bounded (base : Z) (c : bytes) (n : Z) : Prop :=
  (n = 0 -> blen c = base) /\ 0 <= n /\ blen c <= base + (if 0 <? base then 1 else 0) + n.

Lemma bounded_add base c c' n extra :
  bounded base c n -> 0 < extra -> blen c' <= blen (sep c) + extra -> bounded base c' (add_len extra n).
Proof.
  intros (H0 & Hn & Hc) He Hc'. destruct (sep_len c) as (Hs & Hs1 & Hs0). unfold bounded, add_len.
  pose proof (blen_nonneg c). destruct (Z.ltb_spec 0 n) as [Hp|Hp]; [splits; lia|].
  assert (n = 0) as -> by lia. specialize (H0 eq_refl). splits; [lia|lia|].
  destruct (Z.ltb_spec 0 base); [lia|]. rewrite Hs0 in Hc' by lia. lia.
Qed.

Lemma bounded_more base c n extra : bounded base c n -> 0 < extra -> bounded base c (add_len extra n).
Proof.
  intros Hb He. apply (bounded_add base c c n extra Hb He). destruct (sep_len c) as (Hs & _). lia.
Qed.

Lemma raw_blen name rest c : blen (raw name rest c) = blen (sep c) + blen name + blen rest.
Proof. unfold raw. rewrite !blen_app. lia. Qed.

Lemma put_uint_blen name v c : blen (put_uint name v c) <= blen (sep c) + (blen name + 1 + maxUintDigits).
Proof.
  unfold put_uint. pose proof (AppendUint_blen (sep c ++ name ++ B "=") v) as Hu. rewrite !blen_app in Hu.
  change (blen (B "=")) with 1 in Hu. unfold maxUintDigits. lia.
Qed.

Lemma put_int_blen name v c : - two63 <= v < two63 -> blen (put_int name v c) <= blen (sep c) + (blen name + 1 + maxUintDigits).
Proof.
  intros Hv. unfold put_int. pose proof (AppendInt_blen (sep c ++ name ++ B "=") v Hv) as Hu. rewrite !blen_app in Hu.
  change (blen (B "=")) with 1 in Hu. unfold maxUintDigits. lia.
Qed.

Lemma marker_blen name n size c :
  blen (bytesMarker name n size c) <= blen (sep c) + (blen name + blen (B "_bytes=") + 2 * maxUintDigits + 1).
Proof.
  unfold bytesMarker. pose proof (AppendUint_blen (AppendUint (sep c ++ name ++ B "_bytes=") n ++ B "/") size) as H1.
  pose proof (AppendUint_blen (sep c ++ name ++ B "_bytes=") n) as H2. rewrite blen_app in H1. rewrite !blen_app in H2.
  change (blen (B "/")) with 1 in H1. unfold maxUintDigits. lia.
Qed.

Lemma put_field_ok base valid b i f c n :
  HeaderSize + 8 * Z.of_nat i + 8 <= len b -> Forall byte b -> bounded base c n ->
  exists c', put_field valid b i f c = Ok c' /\ bounded base c' (add_len (blen (FName f) + 1 + maxUintDigits) n).
Proof.
  intros Hi Hb Hc. unfold put_field, HeaderSize in *. destruct (load_ok 8 (8 + 8 * Z.of_nat i) b) as (v & -> & Hv); [lia|lia|exact Hb|].
  cbn [result_bind]. eexists. split; [reflexivity|]. pose proof (blen_nonneg (FName f)) as Hf.
  apply (bounded_add base c _ n); [exact Hc|unfold maxUintDigits; lia|].
  repeat case_goal; rewrite ?raw_blen; try (unfold maxUintDigits; simpl (blen (B _)); unfold blen; simpl length; lia).
  - apply put_int_blen, int64_range. exact Hv.
  - apply put_uint_blen.
Qed.

Lemma put_fields_ok base valid b i fs c n :
  HeaderSize + 8 * Z.of_nat (i + length fs) <= len b -> Forall byte b -> bounded base c n ->
  exists c', put_fields valid b i fs c = Ok c' /\
    bounded base c' (fold_left (fun n f => add_len (blen (FName f) + 1 + maxUintDigits) n) fs n).
Proof.
  revert i c n. induction fs as [|f fs IH]; intros i c n Hi Hb Hc; cbn [put_fields fold_left]; [eauto|].
  cbn [length] in Hi. destruct (put_field_ok base valid b i f c n) as (c1 & -> & Hc1); [lia|exact Hb|exact Hc|].
  cbn [result_bind]. apply IH; [rewrite <- Nat.add_succ_comm in Hi; exact Hi|exact Hb|exact Hc1].
Qed.

Lemma put_entry_scalar_ok base valid s bit v (word : bool) c n name_len :
  (Scalar_Present s = true -> blen (if bool_decide (SName s = B "info") && (SSize s =? 4) then B "site" else SName s) <= name_len) ->
  0 <= name_len -> bounded base c n ->
  bounded base (put_entry_scalar valid s bit v word c)
    (if Scalar_Present s then add_len (if word then name_len + blen (B "=0x") + 16 else name_len + 1 + maxUintDigits) n else n).
Proof.
  intros Hname H0 Hc. unfold put_entry_scalar. destruct (Scalar_Present s); cbn [negb]; [|exact Hc].
  specialize (Hname eq_refl). set (name := if _ && _ then _ else _) in *.
  apply (bounded_add base c _ n); [exact Hc|unfold maxUintDigits; destruct word; unfold blen; simpl length; lia|].
  destruct (negb _); [rewrite raw_blen; unfold maxUintDigits; change (blen (B "=?")) with 2; change (blen (B "=0x")) with 3; destruct word; lia|].
  destruct word.
  - unfold put_word. rewrite !blen_app. change (blen (hex_word _ v)) with 16. lia.
  - pose proof (put_uint_blen name v c). lia.
Qed.

Lemma put_entry_bytes_ok base valid b off v bit c n :
  0 <= off -> 0 <= BLen v -> off + BLen v <= len b -> len b < 2 ^ 31 -> Forall byte b -> bounded base c n ->
  exists c', put_entry_bytes valid b off v bit c = Ok c' /\ bounded base c' (add_bytes v n).
Proof.
  intros Ho Hl Hlen H31 Hb Hc. unfold put_entry_bytes, add_bytes.
  destruct (sl_ok (Z.to_nat off) (Z.to_nat (off + BLen v)) b) as (data & -> & Hdl & Hdb); [unfold len in *; lia|].
  assert (Hd : len data = BLen v) by (unfold len; lia). cbn [getp result_bind].
  destruct (Bytes_Present v); cbn [negb]; [|eauto].
  set (s := match show v _ _ with Ok s => sn s | Err _ => 0 end).
  pose proof (blen_nonneg (BName v)) as Hn0. change (blen (B "=?")) with 2.
  assert (Hmore : bounded base c (add_len (Z.max s (blen (BName v) + 2)) n)) by (apply bounded_more; [exact Hc|lia]).
  assert (Hmark : forall c1 n1, bounded base c1 n1 -> bounded base (bytesMarker (BName v) (BLen v) (BSize v) c1)
     (add_len (blen (BName v) + blen (B "_bytes=") + 2 * maxUintDigits + 1) n1)).
  { intros c1 n1 H1. apply (bounded_add base c1 _ n1 _ H1); [unfold maxUintDigits; unfold blen; simpl length; lia|apply marker_blen]. }
  assert (Hmk : forall c1 n1, bounded base c1 n1 -> bounded base c1
     (if BLen v <? BSize v then add_len (blen (BName v) + blen (B "_bytes=") + 2 * maxUintDigits + 1) n1 else n1)).
  { intros c1 n1 H1. destruct (BLen v <? BSize v); [|exact H1]. apply bounded_more; [exact H1|].
    unfold maxUintDigits; unfold blen; simpl length; lia. }
  destruct (Z.eqb_spec (BLen v) 0) as [E0|E0].
  { eexists. split; [reflexivity|]. rewrite E0 in *. destruct (0 <? BSize v); [now apply Hmark|exact Hmore]. }
  destruct (negb (Z.testbit valid bit)).
  { eexists. split; [reflexivity|]. apply Hmk. apply (bounded_add base c _ n _ Hc); [lia|].
    rewrite raw_blen. change (blen (B "=?")) with 2. lia. }
  destruct (renderBytes_ok v data c Hd) as (c1 & q & -> & Eq & Hc1); [lia|now apply Hdb|].
  assert (Hs : s = sn q) by (unfold s; now rewrite Eq). cbn [result_bind]. eexists. split; [reflexivity|].
  assert (H1 : bounded base c1 (add_len (Z.max s (blen (BName v) + 2)) n)).
  { apply (bounded_add base c _ n _ Hc); [lia|]. destruct (sep_len c) as (Hsl & _). lia. }
  destruct (BLen v <? BSize v); [now apply Hmark|exact H1].
Qed.

Lemma CheckBlock_spec l b :
  layout_ok l -> Forall byte b ->
  match CheckBlock l b with
  | Ok _ => len b = Layout_Size l /\ len b < 2 ^ 16 /\ HeaderSize <= len b
  | Err RcPanic => False
  | Err (RcErr _) => True
  end.
Proof.
  intros (HK & HV & _) Hb. unfold CheckBlock. destruct (Z.ltb_spec (len b) HeaderSize) as [|Hl]; [exact I|]. unfold HeaderSize in Hl.
  destruct (load_ok 2 OffLen b ltac:(easy) ltac:(unfold OffLen; lia) Hb) as (n & -> & Hn). cbn [result_bind].
  destruct (negb _ || negb _) eqn:E; [exact I|]. bools.
  destruct (load_ok 1 OffVersion b ltac:(easy) ltac:(unfold OffVersion; lia) Hb) as (ver & -> & _). cbn [result_bind].
  destruct (load_ok 1 OffKind b ltac:(easy) ltac:(unfold OffKind; lia) Hb) as (kind & -> & _). cbn [result_bind].
  assert (Hok : len b = Layout_Size l /\ len b < 2 ^ 16 /\ HeaderSize <= len b).
  { change (256 ^ Z.of_nat 2) with (2 ^ 16) in Hn. unfold HeaderSize. lia. }
  destruct (negb _ || negb _); [exact I|]. case_bool_decide as Hm; [|exact Hok].
  assert (24 <= len b) by (rewrite (proj1 Hok); unfold Layout_Size; rewrite Hm, bool_decide_false by easy; unfold EntryOffBytes; lia).
  destruct (load_ok 2 EntryOffKeyLen b ltac:(easy) ltac:(unfold EntryOffKeyLen; lia) Hb) as (kl & -> & _). cbn [result_bind].
  destruct (load_ok 2 EntryOffValueLen b ltac:(easy) ltac:(unfold EntryOffValueLen; lia) Hb) as (vl & -> & _). cbn [result_bind].
  destruct (negb _ || negb _); [exact I|exact Hok].
Qed.

Lemma AppendComment_ok l dst b :
  layout_ok l -> Forall byte b -> CheckBlock l b = Ok tt ->
  exists c, AppendComment l dst b = Ok c /\ bounded (blen dst) c (MaxCommentLen l).
Proof.
  intros Hl Hb Hck. pose proof (CheckBlock_spec l b Hl Hb) as Hs. rewrite Hck in Hs. destruct Hs as (Hsz & H16 & H8).
  unfold HeaderSize in H8. unfold AppendComment. rewrite Hck. cbn [result_bind].
  destruct (load_ok 4 OffValid b ltac:(easy) ltac:(unfold OffValid; lia) Hb) as (valid & -> & _). cbn [result_bind].
  assert (H0 : bounded (blen dst) dst 0) by (unfold bounded; splits; [auto|lia|case_goal; lia]).
  unfold MaxCommentLen, Layout_Size in *. destruct Hl as (HK & HV & Hsite). case_bool_decide as Hm.
  { apply put_fields_ok; [lia|exact Hb|exact H0]. }
  unfold EntryOffBytes in *.
  destruct (load_ok 4 EntryOffSite b ltac:(easy) ltac:(unfold EntryOffSite; lia) Hb) as (site & -> & _). cbn [result_bind].
  destruct (load_ok 8 EntryOffStatus b ltac:(easy) ltac:(unfold EntryOffStatus; lia) Hb) as (status & -> & _). cbn [result_bind].
  cbv zeta.
  pose proof (put_entry_scalar_ok (blen dst) valid (Site l) ValidSite site false dst 0 (blen (B "site"))) as H1.
  specialize (H1 ltac:(intros Hp; destruct (Hsite Hm Hp) as [->|[-> ->]]; vm_compute; discriminate) (blen_nonneg _) H0).
  set (c1 := put_entry_scalar _ (Site l) _ _ _ _) in *. set (n1 := if Scalar_Present (Site l) then _ else _) in *.
  pose proof (put_entry_scalar_ok (blen dst) valid (Status l) ValidStatus status true c1 n1 (blen (SName (Status l)))) as H2.
  specialize (H2 ltac:(intros _; destruct (bool_decide _) eqn:En; [apply bool_decide_eq_true in En; rewrite En; case_goal; vm_compute; discriminate|simpl; lia])
                (blen_nonneg _) H1).
  set (c2 := put_entry_scalar _ (Status l) _ _ _ _) in *. set (n2 := if Scalar_Present (Status l) then _ else _) in *.
  destruct (put_entry_bytes_ok (blen dst) valid b 24 (Key l) ValidKey c2 n2) as (c3 & -> & H3); try lia; auto.
  cbn [result_bind]. apply (put_entry_bytes_ok (blen dst) valid b (24 + BLen (Key l)) (Value l) ValidValue c3); try lia; auto.
Qed.
End Comment.

(** ** What a comment shows of a key or value *)

Section Shown.
Context `{Btf}.

(** A rendered part: its name, type, bit offset, bitfield width and size. *)
Definition part : Type := bytes * option Ty * Z * Z * Z.

Definition visit_part (p : part) : memberSink -> result rcerr memberSink :=
  let '(name, t, off, bits, size) := p in visit name t off bits size.

Definition visit_all (ps : list part) (s : memberSink) : result rcerr memberSink :=
  fold_left (fun acc p => let? s := acc in visit_part p s) ps (Ok s).

Definition scalar_part (name : bytes) (t : Ty) (off bits n : Z) : list part :=
  let '(size, ok) := scalarSpan (Some t) (off mod 8) bits in
  if ok && (u32 (off / 8 + size) <=? n) then [(name, Some t, off, bits, size)] else [].

Definition bytes_part (name : bytes) (t : Ty) (off n : Z) : list part :=
  match Sizeof t with
  | Some size => if (0 <? size) && (off mod 8 =? 0) && (off / 8 + size <=? n) then [(name, Some t, off, 0, size)] else []
  | None => []
  end.

(** The parts of a struct's members, in order. *)
Fixpoint member_parts (fuel : nat) (prefix : bytes) (members : list Member) (base n : Z) : list part :=
  match fuel with
  | O => []
  | S fuel =>
      flat_map (fun m =>
        let off := u32 (base + u32 (MOffset m)) in
        let name := prefix ++ MName m in
        let anonymous := (length (MName m) =? 0)%nat in
        let t := UnderlyingType (MType m) in
        match t with
        | TStruct sname _ ms =>
            if Opaque sname then [] else member_parts fuel (if anonymous then prefix else name ++ B ".") ms off n
        | TInt _ _ | TEnum _ _ => scalar_part name t off (u32 (BitfieldSize m)) n
        | TArray _ _ => if Plain t then bytes_part name t off n else []
        | TUnion _ _ ms =>
            if Plain t then if anonymous then member_parts fuel prefix ms off n else bytes_part name t off n else []
        | _ => []
        end) members
  end.

Lemma visit_all_app a b s : visit_all (a ++ b) s = let? s := visit_all a s in visit_all b s.
Proof.
  unfold visit_all. rewrite fold_left_app. destruct (fold_left _ a (Ok s)) as [s'|e]; [reflexivity|].
  cbn [result_bind]. induction b as [|p b IH]; [reflexivity|exact IH].
Qed.

Lemma for_members_parts f g ms s :
  (forall m s, In m ms -> f m s = visit_all (g m) s) -> for_members f ms s = visit_all (flat_map g ms) s.
Proof.
  revert s. unfold for_members. induction ms as [|m ms IH]; intros s Hf; [reflexivity|]. cbn [fold_left flat_map].
  rewrite visit_all_app. cbn [result_bind]. rewrite Hf by now left.
  destruct (visit_all (g m) s) as [s'|e]; cbn [result_bind]; [apply IH; intros m' s0 Hm; apply Hf; now right|].
  clear. induction ms as [|m ms IH]; [reflexivity|exact IH].
Qed.

Lemma visit_all_one p s : visit_all [p] s = visit_part p s.
Proof. reflexivity. Qed.

Lemma walk_parts fuel prefix ms base n s :
  walk fuel prefix ms base n s = visit_all (member_parts fuel prefix ms base n) s.
Proof.
  revert prefix ms base s. induction fuel as [|fuel IH]; intros prefix ms base s; [reflexivity|]. cbn [walk member_parts].
  apply for_members_parts. intros m s0 _. cbv zeta.
  destruct (UnderlyingType (MType m)) as [|sz enc|sz sg|tg|e ne|sname ssz sms|sname ssz sms|qn qt|fsz|] eqn:Et; try reflexivity.
  - unfold scalar_part. destruct (scalarSpan _ _ _) as [size okk]. now destruct (okk && _).
  - unfold scalar_part. destruct (scalarSpan _ _ _) as [size okk]. now destruct (okk && _).
  - unfold bytes_part. destruct (Plain _); cbn [negb]; [|reflexivity]. destruct (Sizeof _); [|reflexivity]. now destruct (_ && _ && _).
  - destruct (Opaque sname); [reflexivity|apply IH].
  - destruct (Plain _); cbn [negb]; [|reflexivity]. destruct (length (MName m) =? 0)%nat; [apply IH|].
    unfold bytes_part. destruct (Sizeof _); [|reflexivity]. now destruct (_ && _ && _).
Qed.

(** A value whose bytes are shown raw: no BTF type, or the one-member
    struct of u8 bytes that stands for it. *)
Definition untyped (v : Bytes) : Prop :=
  match option_map UnderlyingType (BType v) with
  | None | Some TVoid => True
  | Some (TStruct name _ ms) => rawBytes name ms = true
  | _ => False
  end.

Definition value_parts (v : Bytes) (n : Z) : list part :=
  if n =? 0 then []
  else
    match option_map UnderlyingType (BType v) with
    | None | Some TVoid => [(BName v, None, 0, 0, n)]
    | Some (TStruct name _ ms) =>
        if rawBytes name ms then [(BName v, None, 0, 0, n)]
        else if Opaque name then [] else member_parts (S (depth_members ms)) (BName v ++ B "->") ms 0 n
    | Some (TInt _ _ as t) | Some (TEnum _ _ as t) =>
        let '(size, ok) := scalarSpan (Some t) 0 0 in
        if ok && (size <=? n) then [(BName v ++ B "[0]", Some t, 0, 0, size)] else []
    | Some (TArray _ _ as t) | Some (TUnion _ _ _ as t) => if Plain t then [(BName v, Some t, 0, 0, n)] else []
    | _ => []
    end.

Lemma show_parts v n s : BPointer v = true -> show v n s = visit_all (value_parts v n) s.
Proof.
  intros Hp. unfold show, value_parts. rewrite Hp. cbn [negb]. destruct (n =? 0); [reflexivity|].
  destruct (option_map UnderlyingType (BType v)) as [[|sz enc|sz sg|tg|e ne|sname ssz sms|sname ssz sms|qn qt|fsz|]|]; try reflexivity.
  - destruct (scalarSpan _ 0 0) as [size okk]. now destruct (okk && _).
  - destruct (scalarSpan _ 0 0) as [size okk]. now destruct (okk && _).
  - now destruct (Plain _).
  - destruct (rawBytes _ _); [reflexivity|]. destruct (Opaque sname); [reflexivity|apply walk_parts].
  - now destruct (Plain _).
Qed.

(** A part lies in the first [n] bytes, and no value of its type holds a
    pointer or a kernel-managed struct. *)
Definition part_safe (n : Z) (p : part) : Prop :=
  let '(name, t, off, bits, size) := p in
  0 <= off / 8 /\ off / 8 + size <= n /\
  match t with Some t => forall u, holds t u -> secret u = false | None => True end.

Lemma scalar_holds t u : isScalar (Some t) = true -> holds t u -> secret u = false.
Proof.
  intros Hs Hh. assert (Hu : UnderlyingType t = t) by (apply UnderlyingType_self; intros n q ->; discriminate).
  inversion Hh as [? Eu|? ? ? ? Et _ Eu|? ? ? ? ? ? Et _ _ Eu|? ? ? ? ? ? Et _ _ Eu]; subst; rewrite ?Hu in *;
    destruct t; try discriminate; reflexivity.
Qed.

Lemma Plain_holds t u : Plain t = true -> holds t u -> secret u = false.
Proof. apply plain_holds. Qed.

Lemma member_parts_safe fuel prefix ms base n :
  n < 2 ^ 31 -> Forall (part_safe n) (member_parts fuel prefix ms base n).
Proof.
  intros Hn. revert prefix ms base. induction fuel as [|fuel IH]; intros prefix ms base; [constructor|]. cbn [member_parts].
  apply Forall_flat_map, List.Forall_forall. intros m _. cbv zeta. set (off := u32 (base + u32 (MOffset m))).
  assert (Ho : 0 <= off < 2 ^ 32) by apply u32_range.
  pose proof (Z.div_pos off 8 ltac:(lia) ltac:(lia)) as Hdiv.
  assert (Hd8 : off / 8 < 2 ^ 29) by (apply Z.div_lt_upper_bound; lia).
  assert (Hsc : forall t name bits, isScalar (Some t) = true -> Forall (part_safe n) (scalar_part name t off bits n)).
  { intros t name bits Ht. unfold scalar_part. destruct (scalarSpan _ _ _) as [size [|]] eqn:Es; cbn [andb]; [|constructor].
    pose proof (scalarSpan_range _ _ _ _ Es). rewrite u32_small by lia. destruct (Z.leb_spec (off / 8 + size) n); [|constructor].
    constructor; [|constructor]. unfold part_safe. cbv beta iota. splits; [lia|lia|]. intros u. now apply scalar_holds. }
  assert (Hby : forall t name, Plain t = true -> Forall (part_safe n) (bytes_part name t off n)).
  { intros t name Ht. unfold bytes_part. destruct (Sizeof t); [|constructor]. destruct (_ && _ && _) eqn:E; [|constructor].
    bools. constructor; [|constructor]. unfold part_safe. cbv beta iota. splits; [lia|lia|]. intros u. now apply Plain_holds. }
  destruct (UnderlyingType (MType m)) as [|sz enc|sz sg|tg|e ne|sname ssz sms|sname ssz sms|qn qt|fsz|] eqn:Et; auto.
  - destruct (Plain _) eqn:Ep; [now apply Hby|constructor].
  - destruct (Opaque sname); [constructor|apply IH].
  - destruct (Plain _) eqn:Ep; [|constructor]. destruct (_ =? _)%nat; [apply IH|now apply Hby].
Qed.
(** The recorded bytes a part shows. *)
Definition shown (p : part) (data : list Z) : option (list Z) :=
  let '(_, _, off, _, size) := p in sl (Z.to_nat (off / 8)) (Z.to_nat (off / 8 + size)) data.

(** A scalar part names the span [appendScalar] reads. *)
Definition part_sized (p : part) : Prop :=
  let '(_, t, off, bits, size) := p in
  isScalar t = true -> scalarSpan t (off mod 8) bits = (size, true) /\ 0 <= off / 8 + size < 2 ^ 32.

Lemma scalar_part_sized name t off bits n :
  0 <= off < 2 ^ 32 -> Forall part_sized (scalar_part name t off bits n).
Proof.
  intros Ho. unfold scalar_part. destruct (scalarSpan _ _ _) as [size [|]] eqn:Es; cbn [andb]; [|constructor].
  pose proof (scalarSpan_range _ _ _ _ Es). case_match; [|constructor]. constructor; [|constructor]. intros _. split; [exact Es|].
  pose proof (Z.div_pos off 8 ltac:(lia) ltac:(lia)). assert (off / 8 < 2 ^ 29) by (apply Z.div_lt_upper_bound; lia). lia.
Qed.

Lemma bytes_part_sized name t off n : isScalar (Some t) = false -> Forall part_sized (bytes_part name t off n).
Proof.
  intros Ht. unfold bytes_part. destruct (Sizeof t); [|constructor]. case_match; [|constructor].
  constructor; [|constructor]. unfold part_sized. now rewrite Ht.
Qed.

Lemma member_parts_sized fuel prefix ms base n : Forall part_sized (member_parts fuel prefix ms base n).
Proof.
  revert prefix ms base. induction fuel as [|fuel IH]; intros prefix ms base; [constructor|]. cbn [member_parts].
  apply Forall_flat_map, List.Forall_forall. intros m _. cbv zeta. set (off := u32 (base + u32 (MOffset m))).
  assert (Ho : 0 <= off < 2 ^ 32) by apply u32_range.
  destruct (UnderlyingType (MType m)) as [|sz enc|sz sg|tg|e ne|sname ssz sms|sname ssz sms|qn qt|fsz|] eqn:Et;
    repeat case_match; auto using scalar_part_sized, bytes_part_sized.
Qed.

Lemma value_parts_safe v n : 0 <= n < 2 ^ 31 -> Forall (part_safe n) (value_parts v n).
Proof.
  intros Hn. unfold value_parts. case_match; [constructor|].
  assert (Hraw : Forall (part_safe n) [(BName v, None, 0, 0, n)]).
  { constructor; [|constructor]. unfold part_safe. change (0 / 8) with 0. splits; lia. }
  assert (Hsc : forall t, isScalar (Some t) = true ->
    Forall (part_safe n) (let '(size, ok) := scalarSpan (Some t) 0 0 in
       if ok && (size <=? n) then [(BName v ++ B "[0]", Some t, 0, 0, size)] else [])).
  { intros t Ht. destruct (scalarSpan _ _ _) as [size okk]. destruct (okk && _) eqn:E; [|constructor]. bools.
    constructor; [|constructor]. unfold part_safe. change (0 / 8) with 0. splits; [lia|lia|]. intros u. now apply scalar_holds. }
  assert (Hpl : forall t, Forall (part_safe n) (if Plain t then [(BName v, Some t, 0, 0, n)] else [])).
  { intros t. destruct (Plain t) eqn:Ep; [|constructor]. constructor; [|constructor]. unfold part_safe. change (0 / 8) with 0.
    splits; [lia|lia|]. intros u. now apply Plain_holds. }
  destruct (option_map UnderlyingType (BType v)) as [[|sz enc|sz sg|tg|e ne|sname ssz sms|sname ssz sms|qn qt|fsz|]|]; auto.
  destruct (rawBytes _ _); [exact Hraw|]. destruct (Opaque sname); [constructor|]. now apply member_parts_safe.
Qed.

Lemma value_parts_sized v n : 0 <= n -> Forall part_sized (value_parts v n).
Proof.
  intros Hn. unfold value_parts. case_match; [constructor|].
  assert (Hraw : Forall part_sized [(BName v, None, 0, 0, n)]) by (constructor; [easy|constructor]).
  assert (Hsc : forall t,
    Forall part_sized (let '(size, ok) := scalarSpan (Some t) 0 0 in
       if ok && (size <=? n) then [(BName v ++ B "[0]", Some t, 0, 0, size)] else [])).
  { intros t. destruct (scalarSpan _ _ _) as [size [|]] eqn:Es; cbn [andb]; [|constructor]. case_match; [|constructor].
    pose proof (scalarSpan_range _ _ _ _ Es). constructor; [|constructor]. intros _. split; [exact Es|]. change (0 / 8) with 0. lia. }
  destruct (option_map UnderlyingType (BType v)) as [[|sz enc|sz sg|tg|e ne|sname ssz sms|sname ssz sms|qn qt|fsz|]|]; auto.
  - destruct (Plain _); [|constructor]. constructor; [easy|constructor].
  - destruct (rawBytes _ _); [exact Hraw|]. destruct (Opaque sname); [constructor|]. apply member_parts_sized.
  - destruct (Plain _); [|constructor]. constructor; [easy|constructor].
Qed.

Lemma value_parts_typed v n : Exists (fun p : part => p.1.1.1.2 = None) (value_parts v n) -> untyped v.
Proof.
  assert (Hm : forall fuel prefix ms base, Forall (fun p : part => p.1.1.1.2 <> None) (member_parts fuel prefix ms base n)).
  { induction fuel as [|fuel IH]; intros prefix ms base; [constructor|]. cbn [member_parts].
    apply Forall_flat_map, List.Forall_forall. intros m _. cbv zeta. unfold scalar_part, bytes_part.
    repeat case_match; auto; repeat constructor; discriminate. }
  enough (untyped v \/ Forall (fun p : part => p.1.1.1.2 <> None) (value_parts v n)) as [Hu|Hf]; [now intros _| |].
  { intros He. apply Exists_exists in He as (p & Hp & Hn). rewrite Forall_forall in Hf. now destruct (Hf p Hp). }
  unfold value_parts, untyped.
  destruct (n =? 0); [right; constructor|]. destruct (option_map UnderlyingType (BType v)) as [[|sz enc|sz sg|tg|e ne|sname ssz sms|sname ssz sms|qn qt|fsz|]|]; auto;
    try (right; repeat case_match; repeat constructor; discriminate).
  destruct (rawBytes _ _); [now left|right]. destruct (Opaque sname); [constructor|apply Hm].
Qed.

(** Rendering a part depends on nothing but its recorded bytes. *)
Lemma visit_part_shown p s s' :
  part_sized p -> sc s = sc s' -> is_Some (sc s) -> len (sdata s) = len (sdata s') -> shown p (sdata s) = shown p (sdata s') ->
  match visit_part p s, visit_part p s' with
  | Ok r, Ok r' => sc r = sc r' /\ is_Some (sc r) /\ sdata r = sdata s /\ sdata r' = sdata s'
  | Err e, Err e' => e = e'
  | _, _ => False
  end.
Proof.
  destruct p as [[[[name t] off] bits] size]. intros Hz Hc [c Ec] Hlen Hsh. cbn [visit_part]. unfold visit.
  rewrite Ec, <- Hc, Ec. destruct (isScalar t) eqn:Et.
  - destruct (Hz Et) as [Es Hr]. unfold put_scalar, appendScalar. rewrite Es. cbn [negb orb]. rewrite Hlen.
    destruct (_ <? _); [cbn [result_bind sc sdata]; splits; eauto|].
    rewrite (u32_small (off / 8 + size)) by lia. cbn [shown] in Hsh. rewrite Hsh.
    match goal with |- context [match ?x with (_, _) => _ end] => destruct x as [[sg bl] w] end.
    destruct (sl _ _ (sdata s')); cbn [getp result_bind sc sdata]; [|reflexivity]. splits; eauto.
  - cbn [shown] in Hsh. rewrite Hsh. destruct (sl _ _ (sdata s')); cbn [getp result_bind sc sdata]; [|reflexivity]. splits; eauto.
Qed.

Lemma visit_all_shown ps s s' :
  Forall part_sized ps -> sc s = sc s' -> is_Some (sc s) -> len (sdata s) = len (sdata s') ->
  Forall (fun p => shown p (sdata s) = shown p (sdata s')) ps ->
  (let? r := visit_all ps s in getp (sc r)) = (let? r := visit_all ps s' in getp (sc r)).
Proof.
  intros Hz. revert s s'. induction Hz as [|p ps Hp _ IH]; intros s s' Hc Hs Hlen Hsh.
  { unfold visit_all. simpl. now rewrite Hc. }
  change (p :: ps) with ([p] ++ ps). rewrite !visit_all_app, !visit_all_one. inversion Hsh as [|? ? H1 H2]; subst.
  pose proof (visit_part_shown p s s' Hp Hc Hs Hlen H1) as Hv.
  destruct (visit_part p s) as [r|e], (visit_part p s') as [r'|e']; try easy; cbn [result_bind].
  - destruct Hv as (Hc' & Hs' & E & E'). apply IH; auto; rewrite ?E, ?E'; auto.
  - now subst.
Qed.
End Shown.

(** ** What the comment of a filter block says *)

(** The text of one field; [None] is a value that could not be read. *)
Definition field_text (f : Field) (v : option Z) : bytes :=
  FName f ++
  match v with
  | None => B "=?"
  | Some v =>
      if FPointer f then if v =? 0 then B "=null" else B "!=null"
      else B "=" ++ if FSigned f then AppendInt [] (int64_of_u64 v) else AppendUint [] v
  end.

Fixpoint join_sp (l : list bytes) : bytes :=
  match l with
  | [] => []
  | [x] => x
  | x :: l => x ++ B " " ++ join_sp l
  end.

Definition valid_bits (vals : list (option Z)) : Z :=
  fold_right (fun v acc => 2 * acc + Z.b2z (is_Some_b v)) 0 vals.

(** The block the probe writes for these values. *)
Definition filter_block (vals : list (option Z)) : list Z :=
  le 2 (8 + 8 * Z.of_nat (length vals)) ++ [BlockVersion; KindFilter] ++ le 4 (valid_bits vals)
  ++ concat (map (fun v => le 8 (default 0 v)) vals).

Lemma valid_bits_range vals : 0 <= valid_bits vals < 2 ^ Z.of_nat (length vals).
Proof.
  induction vals as [|v vals IH]; cbn [valid_bits fold_right length]; [lia|]. fold (valid_bits vals).
  rewrite Nat2Z.inj_succ, Z.pow_succ_r by lia. destruct v; simpl; lia.
Qed.

Lemma valid_bits_nth vals i v : vals !! i = Some v -> Z.testbit (valid_bits vals) (Z.of_nat i) = is_Some_b v.
Proof.
  revert i. induction vals as [|x vals IH]; intros i Hi; [discriminate|]. cbn [valid_bits fold_right]. fold (valid_bits vals).
  destruct i as [|i].
  - injection Hi as <-. apply Z.testbit_0_r.
  - rewrite Nat2Z.inj_succ, Z.testbit_succ_r by lia. now apply IH.
Qed.

Lemma words_rd vals i v pre :
  vals !! i = Some v -> in_u64 (default 0 v) ->
  rd 8 (length pre + 8 * i) (pre ++ concat (map (fun v => le 8 (default 0 v)) vals)) = Some (default 0 v).
Proof.
  revert i pre. induction vals as [|x vals IH]; intros i pre Hi Hv; [discriminate|]. cbn [map concat].
  destruct i as [|i].
  - injection Hi as ->. rewrite Nat.mul_0_r, Nat.add_0_r, rd_app by reflexivity. rewrite rd_le.
    f_equal. now apply u64_small.
  - specialize (IH i (pre ++ le 8 (default 0 x)) Hi Hv). rewrite length_app, le_length in IH. rewrite app_assoc.
    replace (length pre + 8 * S i)%nat with (length pre + 8 + 8 * i)%nat by lia. exact IH.
Qed.

Lemma words_length vals : length (concat (map (fun v => le 8 (default 0 v)) vals)) = (8 * length vals)%nat.
Proof. induction vals as [|v vals IH]; cbn [map concat length]; [reflexivity|]. rewrite length_app, le_length. lia. Qed.

Lemma filter_block_layout vals :
  exists pre, filter_block vals = pre ++ concat (map (fun v => le 8 (default 0 v)) vals) /\ length pre = 8%nat /\
    len (filter_block vals) = 8 + 8 * Z.of_nat (length vals).
Proof.
  eexists (le 2 (8 + 8 * Z.of_nat (length vals)) ++ [BlockVersion; KindFilter] ++ le 4 (valid_bits vals)).
  unfold filter_block, len. rewrite <- !app_assoc. splits; [reflexivity|reflexivity|].
  rewrite !length_app, !le_length, words_length. simpl length. lia.
Qed.

Lemma filter_block_header l vals :
  LMode l = ModeFilter -> length vals = length (Fields l) -> (length vals <= 32)%nat ->
  CheckBlock l (filter_block vals) = Ok tt /\ load 4 OffValid (filter_block vals) = Ok (valid_bits vals).
Proof.
  intros Hm Hl H32. destruct (filter_block_layout vals) as (_ & _ & _ & Hlen).
  assert (R0 : load 2 OffLen (filter_block vals) = Ok (8 + 8 * Z.of_nat (length vals))).
  { unfold load, filter_block. rewrite rd_le. simpl. rewrite Z.mod_small by lia. reflexivity. }
  assert (R4 : load 4 OffValid (filter_block vals) = Ok (valid_bits vals)).
  { unfold load, filter_block. change (Z.to_nat OffValid) with 4%nat. rewrite app_assoc, rd_app by reflexivity. rewrite rd_le.
    unfold getp. f_equal. apply Z.mod_small. pose proof (valid_bits_range vals) as Hr.
    assert (2 ^ Z.of_nat (length vals) <= 2 ^ 32) by (apply Z.pow_le_mono_r; lia). change (256 ^ Z.of_nat 4) with (2 ^ 32). lia. }
  split; [|exact R4]. unfold CheckBlock. rewrite Hlen. unfold HeaderSize.
  replace (_ <? 8) with false by (symmetry; apply Z.ltb_ge; lia). rewrite R0. cbn [result_bind].
  unfold Layout_Size, Layout_Kind. rewrite Hm, Hl. rewrite !bool_decide_true by reflexivity. unfold HeaderSize. rewrite !Z.eqb_refl.
  cbn [negb orb]. reflexivity.
Qed.

(** [sep] puts one space between texts. *)
Definition append_text (c x : bytes) : bytes := sep c ++ x.

Lemma append_texts c l : c <> [] -> Forall (fun x => x <> []) l -> fold_left append_text l c = join_sp (c :: l).
Proof.
  intros Hc Hl. revert c Hc. induction Hl as [|x l Hx _ IH]; intros c Hc; [reflexivity|]. cbn [fold_left].
  assert (E : append_text c x = c ++ B " " ++ x).
  { unfold append_text, sep. destruct c; [easy|]. simpl. now rewrite <- app_assoc. }
  rewrite E, IH by (destruct c; easy). clear E IH. destruct l; cbn [join_sp]; now rewrite <- ?app_assoc.
Qed.

Lemma join_texts l : Forall (fun x => x <> []) l -> fold_left append_text l [] = join_sp l.
Proof. intros H. destruct H as [|x l Hx Hl]; [reflexivity|]. cbn [fold_left append_text]. now apply append_texts. Qed.

Lemma AppendInt_app dst v : AppendInt dst v = dst ++ AppendInt [] v.
Proof. unfold AppendInt, AppendUint. destruct (v <? 0); simpl; now rewrite <- ?app_assoc. Qed.

Lemma put_field_text valid b i f c v :
  load 8 (HeaderSize + 8 * Z.of_nat i) b = Ok (default 0 v) -> Z.testbit valid (Z.of_nat i) = is_Some_b v ->
  put_field valid b i f c = Ok (append_text c (field_text f v)).
Proof.
  intros Hld Hbit. unfold put_field. rewrite Hld. cbn [result_bind]. rewrite Hbit. f_equal.
  unfold append_text, field_text, raw, put_int, put_uint. destruct v as [v|]; cbn [is_Some_b negb]; [change (default 0 (Some v)) with v|reflexivity].
  destruct (FPointer f); cbn [andb]; [now destruct (v =? 0)|].
  destruct (FSigned f); [rewrite AppendInt_app|unfold AppendUint]; now rewrite <- !app_assoc.
Qed.

Lemma field_text_nonempty f v : field_text f v <> [].
Proof.
  unfold field_text. intros H. apply app_eq_nil in H as [_ H]. destruct v as [v|]; [|discriminate].
  destruct (FPointer f); [destruct (v =? 0); discriminate|discriminate].
Qed.

Lemma put_fields_text valid b i fs vals c :
  length vals = length fs ->
  (forall k v, vals !! k = Some v -> load 8 (HeaderSize + 8 * Z.of_nat (i + k)) b = Ok (default 0 v) /\
     Z.testbit valid (Z.of_nat (i + k)) = is_Some_b v) ->
  put_fields valid b i fs c = Ok (fold_left append_text (zip_with field_text fs vals) c).
Proof.
  revert i vals c. induction fs as [|f fs IH]; intros i [|v vals] c Hl Hk; try discriminate; [reflexivity|].
  cbn [put_fields zip_with fold_left]. destruct (Hk 0%nat v eq_refl) as [H1 H2]. rewrite Nat.add_0_r in H1, H2.
  rewrite (put_field_text valid b i f c v H1 H2). cbn [result_bind]. apply IH; [now injection Hl|].
  intros k w Hw. specialize (Hk (S k) w Hw). now rewrite <- Nat.add_succ_comm in Hk.
Qed.

(** ** The comment states the block's values *)

(** The comment of a filter block is exactly the block's values: one
    [name=value] text per field in layout order, separated by one space;
    signed fields in two's complement, pointers as [=null] or [!=null], and
    [=?] for a value the probe could not read (its valid bit is clear). *)
Theorem Comment_filter_exact `{Btf} l vals :
  LMode l = ModeFilter -> length vals = length (Fields l) -> (length vals <= 32)%nat ->
  Forall (fun v => in_u64 (default 0 v)) vals ->
  Comment l (filter_block vals) = Ok (join_sp (zip_with field_text (Fields l) vals)).
Proof.
  intros Hm Hl H32 Hu. destruct (filter_block_header l vals Hm Hl H32) as [Hck Hv].
  destruct (filter_block_layout vals) as (pre & Hpre & Hp & _).
  unfold Comment, AppendComment. rewrite Hck. cbn [result_bind]. rewrite Hv. cbn [result_bind].
  rewrite bool_decide_true by exact Hm. rewrite put_fields_text with (vals := vals); [|exact Hl|].
  - f_equal. apply join_texts. apply Forall_zip_with_snd with (P := fun _ => True); [|now apply Forall_true].
    apply List.Forall_forall. intros f _ v _. apply field_text_nonempty.
  - intros k v Hk. split; [|now apply valid_bits_nth]. unfold load, HeaderSize. rewrite Hpre.
    replace (Z.to_nat (8 + 8 * Z.of_nat (0 + k))) with (length pre + 8 * k)%nat by lia.
    rewrite words_rd with (v := v); [reflexivity|exact Hk|]. now apply (Forall_lookup_1 _ _ _ _ Hu Hk).
Qed.

(** ** What a rendered value may depend on *)

(** C34: rendering a pointer's recorded bytes is fail closed. The text is
    determined by the parts [value_parts] lists: changing any byte outside
    them changes nothing. Every part lies inside the recorded bytes and its
    BTF type holds no pointer, no kernel-managed [bpf_*] struct and no
    unknown kind, and bytes are shown without a type only for a value that
    has none (a void or missing type, or the one-member byte struct). *)
Theorem renderBytes_fail_closed `{Btf} v data data' c :
  BPointer v = true -> len data < 2 ^ 31 -> len data' = len data ->
  let parts := value_parts v (len data) in
  Forall (part_safe (len data)) parts /\
  (Exists (fun p : part => p.1.1.1.2 = None) parts -> untyped v) /\
  (Forall (fun p => shown p data = shown p data') parts -> renderBytes v data c = renderBytes v data' c).
Proof.
  intros Hp Hn Hl parts. pose proof (len_nonneg data) as H0. split; [|split].
  - apply value_parts_safe. lia.
  - apply value_parts_typed.
  - intros Hsh. unfold renderBytes. rewrite Hl, !show_parts by exact Hp.
    apply visit_all_shown; eauto. apply value_parts_sized. lia.
Qed.

(** *** Witnesses: a struct with a hidden pointer between two shown members. *)

Definition sample_value : Bytes :=
  mkBytes (B "value") 2 true 24 24
    (Some (TStruct (B "item") 24 [mkMember (B "id") (TInt 4 EncUnsigned) 0 0;
                               mkMember (B "next") (TPointer TVoid) 64 0;
                               mkMember (B "delta") (TInt 8 EncSigned) 128 0])).

Definition sample_data (hidden : Z) : list Z := le 4 7 ++ le 4 hidden ++ le 8 hidden ++ le 8 (two64 - 5).

Lemma renderBytes_fail_closed_witness :
  let _ := strip_btf in
  renderBytes sample_value (sample_data 0) [] = renderBytes sample_value (sample_data 3735928559) [] /\ renderBytes sample_value (sample_data 0) [] = Ok (B "value->id=7 value->delta=-5").
Proof.
  intros btf. split; [|vm_compute; reflexivity].
  apply (renderBytes_fail_closed sample_value (sample_data 0) (sample_data 3735928559) []); try reflexivity.
  vm_compute. repeat constructor.
Defined.

Definition sample_filter : Layout :=
  mkLayout ModeFilter
    [mkField (B "pid") 0 4 false false false 0; mkField (B "ret") 1 4 true false false 0; mkField (B "sk") 2 8 false false true 0;
     mkField (B "len") 3 4 false false false 0]
    (mkScalar [] (-1) 0) (mkScalar [] (-1) 0) (mkBytes [] (-1) false 0 0 None) (mkBytes [] (-1) false 0 0 None).

Lemma Comment_filter_exact_witness :
  let _ := strip_btf in
  Comment sample_filter (filter_block [Some 42; Some (two64 - 1); Some 0; None]) = Ok (B "pid=42 ret=-1 sk=null len=?").
Proof.
  intros btf. rewrite Comment_filter_exact; [vm_compute; reflexivity|reflexivity|reflexivity|simpl; lia|].
  repeat constructor; vm_compute; easy.
Defined.
