(* ===== verification/PcapNg.v ===== *)
(** * PcapNg: the capture file writer and its readers (internal/output)

    fastpcapng.go and record.go write pcap-ng blocks byte by byte;
    pcap_blocks.go validates block framing before a merge; hookmerge.go
    reads hook blocks back with their options. Bytes are [Z] in [[0, 256)].
    The [io.Writer] is a sink that accepts a number of bytes and then
    fails, keeping what it took of the failing write. *)

From Stdlib Require Import ZArith Lia Bool String List.
From stdpp Require Import base list strings numbers option.
From S2P Require Import Prelude GoStd GoBytes.
Local Open Scope Z_scope.

(** [(x + 3) &^ 3]. *)
Definition pad4 (x : Z) : Z := Z.ldiff (x + 3) 3.

(** ** Constants *)

Definition blkSHB : Z := 168627466.           (* 0x0A0D0D0A *)
Definition blkIDB : Z := 1.
Definition blkEPB : Z := 6.
Definition shbByteOrderMagic : Z := 439041101. (* 0x1A2B3C4D *)
Definition idbOptIfTsresol : Z := 9.
Definition idbTsresolNs : Z := 9.
Definition idbOptIfName : Z := 2.
Definition idbOptIfDescription : Z := 3.
Definition epbOptPacketID : Z := 5.
Definition epbOptComment : Z := 1.
Definition optEndOfOpt : Z := 0.

(** ** The writer *)

Record FastNgWriter := mkW {
  written : list Z;
  room : nat;
  linkType : Z;
  nIfaces : Z
}.

(** [None]: a run-time panic. *)
Definition wres : Type := option (FastNgWriter * option error).

Definition shortWrite : error := Errorf "short write" [].

Definition write_raw (b : list Z) (fw : FastNgWriter) : FastNgWriter * option error :=
  if (length b <=? room fw)%nat
  then (mkW (written fw ++ b) (room fw - length b) (linkType fw) (nIfaces fw), None)
  else (mkW (written fw ++ take (room fw) b) 0 (linkType fw) (nIfaces fw), Some shortWrite).

(** [if _, err := w.Write(b); err != nil { return fmt.Errorf(what, err) }]. *)
Definition write (what : string) (b : list Z) (fw : FastNgWriter) : wres :=
  match write_raw b fw with
  | (fw, None) => Some (fw, None)
  | (fw, Some e) => Some (fw, Some (Errorf what [AErr e]))
  end.

Definition andThen (m : wres) (k : FastNgWriter -> wres) : wres :=
  match m with
  | Some (fw, None) => k fw
  | other => other
  end.

Definition fail (e : error) (fw : FastNgWriter) : wres := Some (fw, Some e).

Definition shbBytes : list Z :=
  le 4 blkSHB ++ le 4 28 ++ le 4 shbByteOrderMagic ++ le 2 1 ++ le 2 0 ++ le 8 (2 ^ 64 - 1) ++ le 4 28.

Definition writeSHB (fw : FastNgWriter) : wres := Some (write_raw shbBytes fw).

(** An option whose value is copied into a zeroed, padded area; empty
    values are left out. *)
Definition textOption (code : Z) (text : list Z) : list Z :=
  if (length text =? 0)%nat then []
  else le 2 code ++ le 2 (u16 (len text)) ++ text ++ repeat 0 (Z.to_nat (pad4 (len text) - len text)).

Definition idbTotal (name description : list Z) : Z :=
  let total := 16 + 8 + 4 + 4 in
  let total := if (length name =? 0)%nat then total else total + (4 + pad4 (len name)) in
  if (length description =? 0)%nat then total else total + (4 + pad4 (len description)).

Definition idbBytes (lt : Z) (name description : list Z) : list Z :=
  let total := u32 (idbTotal name description) in
  le 4 blkIDB ++ le 4 total ++ le 2 lt ++ le 2 0 ++ le 4 0
  ++ textOption idbOptIfName name ++ textOption idbOptIfDescription description
  ++ le 2 idbOptIfTsresol ++ le 2 1 ++ [idbTsresolNs; 0; 0; 0]
  ++ le 2 optEndOfOpt ++ le 2 0 ++ le 4 total.

Definition writeIDBDescription (lt : Z) (name description : list Z) (fw : FastNgWriter) : wres :=
  if (65535 <? len name) || (65535 <? len description)
  then fail (Errorf "interface name or description exceeds pcapng option length" []) fw
  else Some (write_raw (idbBytes lt name description) fw).

Definition writeIDB (lt : Z) (name : list Z) (fw : FastNgWriter) : wres := writeIDBDescription lt name [] fw.

Definition set_nIfaces (n : Z) (fw : FastNgWriter) : FastNgWriter :=
  mkW (written fw) (room fw) (linkType fw) n.

Definition NewFastNgWriter (room : nat) (lt : Z) : wres :=
  andThen (writeSHB (mkW [] room (u16 lt) 0)) (fun fw =>
  andThen (writeIDB (u16 lt) [] fw) (fun fw => Some (set_nIfaces 1 fw, None))).

(** The interface id is the count before the call. *)
Definition AddInterface (name : list Z) (fw : FastNgWriter) : wres :=
  andThen (writeIDB (linkType fw) name fw) (fun fw => Some (set_nIfaces (nIfaces fw + 1) fw, None)).

Definition epbZeroPad : list Z := [0; 0; 0].

Definition EPBSize (caplen : Z) : Z := 32 + pad4 caplen.
Definition epbIDOptSize : Z := 16.
Definition EPBSizeID (caplen : Z) : Z := EPBSize caplen + epbIDOptSize.

Definition origLength (data : list Z) (origLen : Z) : Z := Z.max origLen (u32 (len data)).

(** The seven header words; [tsNs] is [uint64(ts.UnixNano())]. *)
Definition epbHeader (total iface tsNs caplen orig : Z) : list Z :=
  le 4 blkEPB ++ le 4 total ++ le 4 iface ++ le 4 (u32 (Z.shiftr tsNs 32)) ++ le 4 (u32 tsNs)
  ++ le 4 caplen ++ le 4 orig.

(** The data and padding writes, skipped for an empty packet. *)
Definition writeData (data : list Z) (caplen pad : Z) (fw : FastNgWriter) : wres :=
  if 0 <? caplen then
    andThen (write "EPB data: %w" data fw) (fun fw =>
    if 0 <? pad then
      match sl 0 (Z.to_nat pad) epbZeroPad with
      | Some z => write "EPB pad: %w" z fw
      | None => None
      end
    else Some (fw, None))
  else Some (fw, None).

Definition WritePacketID (tsNs : Z) (data : list Z) (origLen ifaceID packetID : Z) (fw : FastNgWriter) : wres :=
  let caplen := u32 (len data) in
  let totalLen := u32 (EPBSizeID (len data)) in
  let pad := u32 (totalLen - 32 - epbIDOptSize - caplen) in
  andThen (write "EPB header: %w" (epbHeader totalLen (u32 ifaceID) tsNs caplen (origLength data origLen)) fw) (fun fw =>
  andThen (writeData data caplen pad fw) (fun fw =>
  write "EPB options/trailer: %w"
    (le 2 epbOptPacketID ++ le 2 8 ++ le 8 packetID ++ le 2 optEndOfOpt ++ le 2 0 ++ le 4 totalLen) fw)).

Definition WritePacket (tsNs : Z) (data : list Z) (origLen : Z) (fw : FastNgWriter) : wres :=
  let caplen := u32 (len data) in
  let totalLen := u32 (EPBSize (len data)) in
  let pad := u32 (totalLen - 32 - caplen) in
  andThen (write "EPB header: %w" (epbHeader totalLen 0 tsNs caplen (origLength data origLen)) fw) (fun fw =>
  andThen (writeData data caplen pad fw) (fun fw =>
  write "EPB trailer: %w" (le 4 totalLen) fw)).

(** ** record.go *)

Definition HookEPBSize (caplen : Z) (packetID : bool) (comment : Z) : Z :=
  let n := EPBSize caplen in
  let n := if packetID then n + 12 else n in
  let n := if 0 <? comment then n + (4 + pad4 comment) else n in
  if packetID || (0 <? comment) then n + 4 else n.

(** [epbZeroPad[:(4-n%4)%4]]. *)
Definition zeroPad (n : Z) : list Z := take (Z.to_nat ((4 - n mod 4) mod 4)) epbZeroPad.

Definition hookBytes (tsNs : Z) (data : list Z) (origLen ifaceID packetID : Z) (comment : list Z) : list Z :=
  let total := u32 (HookEPBSize (len data) (negb (packetID =? 0)) (len comment)) in
  epbHeader total (u32 ifaceID) tsNs (u32 (len data)) (origLength data origLen)
  ++ data ++ zeroPad (len data)
  ++ (if packetID =? 0 then [] else le 4 (Z.lor epbOptPacketID (Z.shiftl 8 16)) ++ le 8 packetID)
  ++ (if (length comment =? 0)%nat then []
      else le 4 (Z.lor epbOptComment (Z.shiftl (u32 (len comment)) 16)) ++ comment ++ zeroPad (len comment)
           ++ le 4 optEndOfOpt)
  ++ le 4 total.

Definition WriteHookPacket (tsNs : Z) (data : list Z) (origLen ifaceID packetID : Z) (comment : list Z)
    (fw : FastNgWriter) : wres :=
  if (length comment =? 0)%nat && negb (packetID =? 0)
  then WritePacketID tsNs data origLen ifaceID packetID fw
  else if 65535 <? len comment
  then fail (Errorf "record comment exceeds pcapng option length" []) fw
  else write "EPB: %w" (hookBytes tsNs data origLen ifaceID packetID comment) fw.

(** ** pcap_blocks.go *)

(** [io.ReadFull]: the bytes and the rest, or the error ([io.EOF] only when
    nothing was read). *)
Inductive readErr := EOF | UnexpectedEOF.

Definition readFull (n : nat) (src : list Z) : result readErr (list Z * list Z) :=
  if (length src <? n)%nat then Err (if (length src =? 0)%nat then EOF else UnexpectedEOF)
  else Ok (take n src, drop n src).

(** [io.CopyN(io.Discard, r, n)]. *)
Definition copyN (n : nat) (src : list Z) : result readErr (list Z) :=
  if (length src <? n)%nat then Err EOF else Ok (drop n src).

Inductive verr :=
| VRead (e : readErr)
| VMagic
| VNoSection
| VLength (n : Z)
| VTruncBlock (e : readErr)
| VTruncTrailer (e : readErr)
| VDisagree
| VFuel.

(** A 32-bit load in the section's byte order; [true] is big-endian. *)
Definition uint32 (big : bool) (b : list Z) : Z := unle (if big then rev b else b).

Fixpoint validate_loop (fuel : nat) (order : option bool) (r : list Z) : result verr unit :=
  match fuel with
  | O => Err VFuel
  | S fuel' =>
      match readFull 8 r with
      | Err EOF => Ok tt
      | Err e => Err (VRead e)
      | Ok (header, r) =>
          let section : result verr (option bool * Z * list Z) :=
            if unle (take 4 header) =? 168627466 then
              match readFull 4 r with
              | Err e => Err (VRead e)
              | Ok (magic, r) =>
                  if unle magic =? 439041101 then Ok (Some false, 12, r)
                  else if unle magic =? 1295788826 then Ok (Some true, 12, r)
                  else Err VMagic
              end
            else Ok (order, 8, r) in
          match section with
          | Err e => Err e
          | Ok (None, _, _) => Err VNoSection
          | Ok (Some big, used, r) =>
              let n := uint32 big (drop 4 header) in
              if (n <? used + 4) || negb (n mod 4 =? 0) then Err (VLength n)
              else
                match copyN (Z.to_nat (n - used - 4)) r with
                | Err e => Err (VTruncBlock e)
                | Ok r =>
                    match readFull 4 r with
                    | Err e => Err (VTruncTrailer e)
                    | Ok (trailer, r) =>
                        if negb (uint32 big trailer =? n) then Err VDisagree
                        else validate_loop fuel' (Some big) r
                    end
                end
          end
      end
  end.

(** Every round reads at least 12 bytes. *)
Definition validatePcapBlocks (src : list Z) : result verr unit := validate_loop (S (length src)) None src.

(** ** hookmerge.go *)

Definition maxHookBlockSize : Z := Z.shiftl 1 20.
Definition hookEPBHeaderSize : Z := 28.

Inductive herr :=
| HRead (e : readErr)
| HFmt (e : error)
| HPanic.

(** The block and the rest of the input. *)
Definition readHookBlock (r : list Z) : result herr (list Z * list Z) :=
  match readFull 8 r with
  | Err e => Err (HRead e)
  | Ok (hdr, r) =>
      let n := unle (drop 4 hdr) in
      if (n <? 12) || negb (n mod 4 =? 0) || (maxHookBlockSize <? n)
      then Err (HFmt (Errorf "invalid hook block length %d" [AInt n]))
      else
        match readFull (Z.to_nat (n - 8)) r with
        | Err _ => Err (HRead UnexpectedEOF)
        | Ok (body, r) =>
            let b := hdr ++ body in
            match rd 4 (length b - 4) b with
            | Some t => if negb (t =? n) then Err (HFmt (Errorf "hook block lengths disagree" [])) else Ok (b, r)
            | None => Err HPanic
            end
        end
  end.

(** The option loop of [checkHookOptions]. *)
Fixpoint options_loop (fuel : nat) (o : list Z) (pos : nat) (hasID sawComment : bool) : result herr bool :=
  match fuel with
  | O => Err HPanic
  | S fuel' =>
      if (length o <=? pos)%nat then Err (HFmt (Errorf "hook EPB options missing opt_endofopt" []))
      else if (length o - pos <? 4)%nat then Err (HFmt (Errorf "truncated hook EPB option header" []))
      else
        match rd 2 pos o, rd 2 (pos + 2) o with
        | Some code, Some n =>
            let pos := (pos + 4)%nat in
            if code =? optEndOfOpt then
              if negb (n =? 0) then Err (HFmt (Errorf "opt_endofopt has length %d" [AInt n])) else Ok hasID
            else if (length o <? pos + Z.to_nat n)%nat
            then Err (HFmt (Errorf "hook EPB option %d overruns the block" [AInt code]))
            else
              let next := (pos + Z.to_nat (pad4 n))%nat in
              if code =? epbOptPacketID then
                if hasID then Err (HFmt (Errorf "duplicate epb_packetid" []))
                else if sawComment then Err (HFmt (Errorf "epb_packetid after opt_comment" []))
                else if negb (n =? 8) then Err (HFmt (Errorf "invalid epb_packetid" []))
                else match rd 8 pos o with
                     | None => Err HPanic
                     | Some id => if id =? 0 then Err (HFmt (Errorf "invalid epb_packetid" []))
                                  else options_loop fuel' o next true sawComment
                     end
              else if code =? epbOptComment then
                if sawComment then Err (HFmt (Errorf "duplicate opt_comment" []))
                else if n =? 0 then Err (HFmt (Errorf "empty opt_comment" []))
                else options_loop fuel' o next hasID true
              else Err (HFmt (Errorf "unexpected hook EPB option %d" [AInt code]))
        | _, _ => Err HPanic
        end
  end.

(** Every option but the last takes at least 4 bytes. *)
Definition checkHookOptions (o : list Z) : result herr bool :=
  if (length o =? 0)%nat then Ok false else options_loop (S (length o)) o 0 false false.

(** What [next] reads of one block, before the run-id latch. *)
Record epbItem := mkItem { its : Z; block : list Z; hasID : bool }.

(** The checks [next] makes on one block of a shard, [nhooks] being the
    number of interfaces; [its] is the timestamp in nanoseconds. *)
Definition hookItem (nhooks : Z) (b : list Z) : result herr epbItem :=
  match rd 4 0 b with
  | None => Err HPanic
  | Some kind =>
      if negb (kind =? blkEPB) || (len b <? EPBSize 0) then Err (HFmt (Errorf "expected hook EPB" []))
      else
        match rd 4 8 b, rd 4 20 b, rd 4 12 b, rd 4 16 b with
        | Some iface, Some caplen, Some hi, Some lo =>
            if (nhooks <=? iface) || (65535 <? caplen) || (len b <? EPBSize caplen)
            then Err (HFmt (Errorf "invalid hook EPB interface or length" []))
            else
              match sl (Z.to_nat (hookEPBHeaderSize + pad4 caplen)) (length b - 4) b with
              | None => Err HPanic
              | Some o =>
                  match checkHookOptions o with
                  | Err e => Err e
                  | Ok id => Ok (mkItem (Z.lor (Z.shiftl hi 32) lo) b id)
                  end
              end
        | _, _, _, _ => Err HPanic
        end
  end.

(** One [next(i)]: the item and the rest of the shard. *)
Definition hookNext (nhooks : Z) (r : list Z) : result herr (epbItem * list Z) :=
  match readHookBlock r with
  | Err e => Err e
  | Ok (b, r) =>
      match hookItem nhooks b with
      | Err e => Err e
      | Ok it => Ok (it, r)
      end
  end.

Example hook_demo :
  let data := [1; 2; 3; 4; 5] in
  match WriteHookPacket 1000000007 data 9 2 77 [104; 105] (mkW [] 4096 1 3) with
  | Some (fw, None) =>
      match hookNext 3 (written fw ++ [1; 2]) with
      | Ok (it, rest) => (its it, hasID it, rest) = (1000000007, true, [1; 2])
      | Err _ => False
      end
  | _ => False
  end.
Proof. vm_compute. reflexivity. Qed.

Example session_demo :
  match NewFastNgWriter 4096 1 with
  | Some (fw, None) =>
      match AddInterface [97; 98; 99; 100; 101] fw with
      | Some (fw, None) =>
          match WritePacket 5 [1; 2; 3] 0 fw with
          | Some (fw, None) => validatePcapBlocks (written fw) = Ok tt
          | _ => False
          end
      | _ => False
      end
  | _ => False
  end.
Proof. vm_compute. reflexivity. Qed.

(** ** Lemmas: arithmetic and little-endian *)

Lemma pad4_eq x : 0 <= x -> pad4 x = (x + 3) / 4 * 4.
Proof.
  intros Hx. unfold pad4. change 3 with (Z.ones 2) at 2. rewrite Z.ldiff_ones_r by lia.
  rewrite Z.shiftr_div_pow2, Z.shiftl_mul_pow2 by lia. reflexivity.
Qed.

Lemma pad4_spec x : 0 <= x -> x <= pad4 x <= x + 3 /\ pad4 x mod 4 = 0.
Proof.
  intros Hx. rewrite pad4_eq by exact Hx. pose proof (Z.div_mod (x + 3) 4 ltac:(lia)) as H.
  pose proof (Z.mod_pos_bound (x + 3) 4 ltac:(lia)). split; [lia|]. apply Z.mod_mul. lia.
Qed.

Lemma pad4_zeroPad x : 0 <= x -> (4 - x mod 4) mod 4 = pad4 x - x.
Proof.
  intros Hx. destruct (pad4_spec x Hx) as [H1 H2]. symmetry.
  pose proof (Z.div_mod x 4 ltac:(lia)) as Hd. pose proof (Z.div_mod (pad4 x) 4 ltac:(lia)) as Hp.
  pose proof (Z.mod_pos_bound x 4 ltac:(lia)). rewrite H2 in Hp.
  destruct (Z.eq_dec (x mod 4) 0) as [E|E].
  - rewrite E. simpl. rewrite Z.mod_same by lia. lia.
  - rewrite Z.mod_small by lia. lia.
Qed.

(** ** Lemmas: the writer *)

(** [m] appends [b] when there is room, and otherwise fails after a prefix
    of it; the other fields are kept. *)
Definition appends (m : FastNgWriter -> wres) (b : list Z) : Prop :=
  forall fw, exists fw' e, m fw = Some (fw', e) /\ linkType fw' = linkType fw /\ nIfaces fw' = nIfaces fw /\
    if (length b <=? room fw)%nat
    then e = None /\ written fw' = written fw ++ b /\ room fw' = (room fw - length b)%nat
    else e <> None /\ written fw' = written fw ++ take (room fw) b /\ room fw' = 0%nat.

Lemma appends_nil : appends (fun fw => Some (fw, None)) [].
Proof. intros fw. exists fw, None. simpl. splits; auto; [now rewrite app_nil_r|lia]. Qed.

Lemma appends_write what b : appends (write what b) b.
Proof.
  intros fw. unfold write, write_raw. destruct (_ <=? _)%nat; simpl; eexists _, _; splits; try reflexivity; auto.
Qed.

Lemma appends_write_raw b : appends (fun fw => Some (write_raw b fw)) b.
Proof.
  intros fw. unfold write_raw. destruct (_ <=? _)%nat; simpl; eexists _, _; splits; try reflexivity; auto.
Qed.

Lemma appends_then m k b1 b2 :
  appends m b1 -> appends k b2 -> appends (fun fw => andThen (m fw) k) (b1 ++ b2).
Proof.
  intros Hm Hk fw. destruct (Hm fw) as (fw1 & e1 & -> & Hl1 & Hn1 & H1). rewrite length_app.
  destruct (length b1 <=? room fw)%nat eqn:E1; bools.
  - destruct H1 as (-> & Hw1 & Hr1). simpl. destruct (Hk fw1) as (fw2 & e2 & -> & Hl2 & Hn2 & H2).
    exists fw2, e2. splits; try congruence.
    destruct (length b2 <=? room fw1)%nat eqn:E2; bools.
    + replace (length b1 + length b2 <=? room fw)%nat with true by (symmetry; apply Nat.leb_le; lia).
      destruct H2 as (-> & -> & ->). rewrite Hw1, <- app_assoc. splits; auto. lia.
    + replace (length b1 + length b2 <=? room fw)%nat with false by (symmetry; apply Nat.leb_gt; lia).
      destruct H2 as (He & -> & ->). rewrite Hw1, <- app_assoc. splits; auto. f_equal.
      rewrite take_app_ge by lia. now rewrite Hr1.
  - destruct H1 as (He & Hw & Hr). destruct e1 as [e1|]; [|easy]. simpl.
    replace (length b1 + length b2 <=? room fw)%nat with false by (symmetry; apply Nat.leb_gt; lia).
    eexists _, _. splits; auto. rewrite Hw. f_equal. symmetry. apply take_app_le. lia.
Qed.

Lemma appends_ext m m' b b' : (forall fw, m fw = m' fw) -> b = b' -> appends m b -> appends m' b'.
Proof. intros H <- Ha fw. destruct (Ha fw) as (fw' & e & Hm). exists fw', e. now rewrite <- H. Qed.

(** An enhanced packet block. *)
Definition epbBytes (tsNs : Z) (data : list Z) (origLen ifaceID : Z) (opts : list Z) : list Z :=
  let total := 32 + pad4 (len data) + len opts in
  epbHeader total (u32 ifaceID) tsNs (len data) (origLength data origLen)
  ++ (data ++ repeat 0 (Z.to_nat (pad4 (len data) - len data))) ++ opts ++ le 4 total.

Lemma sl_zero n : (n <= 3)%nat -> sl 0 n epbZeroPad = Some (repeat 0 n).
Proof. intros H. destruct n as [|[|[|[|]]]]; try reflexivity. lia. Qed.

Lemma appends_data data pad :
  0 <= len data < 2 ^ 32 -> pad = pad4 (len data) - len data ->
  appends (writeData data (len data) pad) (data ++ repeat 0 (Z.to_nat pad)).
Proof.
  intros Hlen Hpad. destruct (pad4_spec (len data)) as [Hp Hm]; [lia|]. unfold writeData.
  destruct (0 <? len data) eqn:E; bools.
  - apply (appends_then (write _ data)); [apply appends_write|]. destruct (0 <? pad) eqn:E2; bools.
    + rewrite sl_zero by lia. apply appends_write.
    + replace pad with 0 by lia. apply appends_nil.
  - assert (length data = 0)%nat by (unfold len in *; lia). destruct data; [|discriminate].
    change (len []) with 0 in *. change (pad4 0) with 0 in Hpad. subst. apply appends_nil.
Qed.

Lemma appends_WritePacket tsNs data origLen :
  len data < 2 ^ 32 - 64 ->
  appends (WritePacket tsNs data origLen) (epbBytes tsNs data origLen 0 []).
Proof.
  intros Hlen. pose proof (len_nonneg data) as H0. destruct (pad4_spec (len data) H0) as [Hp Hm].
  unfold WritePacket, epbBytes, EPBSize. rewrite (u32_small (len data)), (u32_small (32 + _)) by lia.
  change (len []) with 0. rewrite Z.add_0_r. change (u32 0) with 0.
  replace (32 + pad4 (len data) - 32 - len data) with (pad4 (len data) - len data) by lia.
  rewrite (u32_small (_ - _)) by lia.
  apply (appends_then (write _ _)); [apply appends_write|].
  apply (appends_then (writeData _ _ _)); [apply appends_data; lia|apply appends_write].
Qed.

Definition idOptions (packetID : Z) : list Z :=
  le 2 epbOptPacketID ++ le 2 8 ++ le 8 packetID ++ le 2 optEndOfOpt ++ le 2 0.

Lemma appends_WritePacketID tsNs data origLen ifaceID packetID :
  len data < 2 ^ 32 - 64 ->
  appends (WritePacketID tsNs data origLen ifaceID packetID)
    (epbBytes tsNs data origLen ifaceID (idOptions packetID)).
Proof.
  intros Hlen. pose proof (len_nonneg data) as H0. destruct (pad4_spec (len data) H0) as [Hp Hm].
  unfold WritePacketID, epbBytes, EPBSizeID, EPBSize, epbIDOptSize.
  rewrite (u32_small (len data)), (u32_small (32 + _ + _)) by lia.
  change (len (idOptions packetID)) with 16.
  replace (32 + pad4 (len data) + 16 - 32 - 16 - len data) with (pad4 (len data) - len data) by lia.
  rewrite (u32_small (_ - _)) by lia.
  apply (appends_then (write _ _)); [apply appends_write|].
  apply (appends_then (writeData _ _ _)); [apply appends_data; lia|].
  eapply appends_ext; [reflexivity| |apply appends_write]. unfold idOptions. now rewrite <- !app_assoc.
Qed.

Lemma zeroPad_eq n : 0 <= n -> zeroPad n = repeat 0 (Z.to_nat (pad4 n - n)).
Proof.
  intros Hn. unfold zeroPad. rewrite pad4_zeroPad by exact Hn. destruct (pad4_spec n Hn) as [Hp _].
  assert (H : (Z.to_nat (pad4 n - n) = 0 \/ Z.to_nat (pad4 n - n) = 1 \/ Z.to_nat (pad4 n - n) = 2 \/
              Z.to_nat (pad4 n - n) = 3)%nat) by lia.
  destruct H as [-> |[-> |[-> | ->]]]; reflexivity.
Qed.

(** The options [WriteHookPacket] writes. *)
Definition commentOption (comment : list Z) : list Z :=
  le 2 epbOptComment ++ le 2 (len comment) ++ comment ++ repeat 0 (Z.to_nat (pad4 (len comment) - len comment)).

Definition hookOptions (packetID : Z) (comment : list Z) : list Z :=
  (if packetID =? 0 then [] else le 2 epbOptPacketID ++ le 2 8 ++ le 8 packetID)
  ++ (if (length comment =? 0)%nat then [] else commentOption comment)
  ++ (if (packetID =? 0) && (length comment =? 0)%nat then [] else le 2 optEndOfOpt ++ le 2 0).

Lemma le4_pair code n : 0 <= code < 2 ^ 16 -> 0 <= n < 2 ^ 16 ->
  le 4 (Z.lor code (Z.shiftl n 16)) = le 2 code ++ le 2 n.
Proof.
  intros Hc Hn.
  assert (E : Z.lor code (Z.shiftl n 16) = code + n * 2 ^ 16).
  { rewrite Z.shiftl_mul_pow2 by lia. rewrite <- Z.lxor_lor; [symmetry; apply Z.add_nocarry_lxor|];
      apply Z.bits_inj'; intros k Hk; rewrite Z.land_spec, Z.bits_0;
      (destruct (Z_lt_le_dec k 16);
       [rewrite Z.mul_pow2_bits_low by lia; apply andb_false_r
       |rewrite (Z.bits_above_log2 code k); [reflexivity|lia|];
        destruct (Z.eq_dec code 0) as [->|]; [simpl; lia|];
        apply Z.log2_lt_pow2; [lia|]; apply Z.lt_le_trans with (2 ^ 16); [lia|apply Z.pow_le_mono_r; lia]]). }
  rewrite E. change (2 ^ 16) with 65536 in *. cbn [le app].
  rewrite !Z.div_div by lia. change (256 * 256 * 256) with 16777216. change (256 * 256) with 65536.
  f_equal; [|f_equal; [|f_equal; [|f_equal]]].
  - replace (code + n * 65536) with (code + n * 256 * 256) by lia. apply Z.mod_add. lia.
  - replace (code + n * 65536) with (code + n * 256 * 256) by lia. rewrite Z.div_add by lia. apply Z.mod_add. lia.
  - rewrite Z.div_add, (Z.div_small code) by lia. f_equal.
  - replace 16777216 with (65536 * 256) by lia. rewrite <- Z.div_div, Z.div_add, (Z.div_small code) by lia. reflexivity.
Qed.

Lemma hookOptions_len packetID comment :
  len comment <= 65535 ->
  len (hookOptions packetID comment) =
    (if packetID =? 0 then 0 else 12) + (if (length comment =? 0)%nat then 0 else 4 + pad4 (len comment)) +
    (if (packetID =? 0) && (length comment =? 0)%nat then 0 else 4).
Proof.
  intros Hc. unfold hookOptions, commentOption. pose proof (len_nonneg comment) as H0.
  destruct (pad4_spec (len comment) H0) as [Hp _].
  unfold len in *. rewrite !length_app.
  destruct (packetID =? 0), (length comment =? 0)%nat; cbn [andb length];
    rewrite ?length_app, ?repeat_length, ?le_length; simpl length; lia.
Qed.

Lemma HookEPBSize_eq packetID data comment :
  len comment <= 65535 ->
  HookEPBSize (len data) (negb (packetID =? 0)) (len comment)
  = 32 + pad4 (len data) + len (hookOptions packetID comment).
Proof.
  intros Hc. rewrite hookOptions_len by exact Hc. unfold HookEPBSize, EPBSize.
  replace (0 <? len comment) with (negb (length comment =? 0)%nat).
  - destruct (packetID =? 0), (length comment =? 0)%nat; simpl; lia.
  - unfold len. destruct (Nat.eqb_spec (length comment) 0); simpl; symmetry; [apply Z.ltb_ge|apply Z.ltb_lt]; lia.
Qed.

Lemma hookBytes_eq tsNs data origLen ifaceID packetID comment :
  len data < 2 ^ 31 -> len comment <= 65535 -> (packetID = 0 \/ comment <> []) ->
  hookBytes tsNs data origLen ifaceID packetID comment
  = epbBytes tsNs data origLen ifaceID (hookOptions packetID comment).
Proof.
  intros Hd Hc Hor. pose proof (len_nonneg data) as H0. pose proof (len_nonneg comment) as H1.
  destruct (pad4_spec (len data) H0) as [Hp _]. destruct (pad4_spec (len comment) H1) as [Hp1 _].
  unfold hookBytes, epbBytes. rewrite HookEPBSize_eq by exact Hc.
  rewrite (u32_small (len data)), (u32_small (len comment)) by lia.
  rewrite (u32_small (32 + _ + _)).
  2: { rewrite hookOptions_len by exact Hc. repeat case_goal; lia. }
  rewrite !zeroPad_eq by lia. f_equal. rewrite <- app_assoc. f_equal. f_equal. rewrite app_assoc, (app_assoc _ _ (le 4 _)).
  f_equal. unfold hookOptions. rewrite (le4_pair epbOptPacketID 8) by (unfold epbOptPacketID; lia).
  rewrite (le4_pair epbOptComment (len comment)) by (unfold epbOptComment; lia).
  unfold commentOption. destruct (packetID =? 0) eqn:Ep, (length comment =? 0)%nat eqn:Ec; bools; cbn [andb app];
    rewrite <- ?app_assoc; auto.
  - destruct Hor as [->|Hne]; [easy|]. destruct comment; easy.
Qed.

Lemma appends_WriteHookPacket tsNs data origLen ifaceID packetID comment :
  len data < 2 ^ 31 -> len comment <= 65535 ->
  appends (WriteHookPacket tsNs data origLen ifaceID packetID comment)
    (epbBytes tsNs data origLen ifaceID (hookOptions packetID comment)).
Proof.
  intros Hd Hc. destruct ((length comment =? 0)%nat && negb (packetID =? 0)) eqn:E.
  - bools. eapply appends_ext; [| |apply (appends_WritePacketID tsNs data origLen ifaceID packetID); lia].
    + intros fw. unfold WriteHookPacket. rewrite (proj2 (Nat.eqb_eq _ _) H). now rewrite (proj2 (Z.eqb_neq _ _) H0).
    + destruct comment; [|discriminate]. unfold hookOptions, idOptions. rewrite (proj2 (Z.eqb_neq _ _) H0).
      now rewrite <- !app_assoc.
  - eapply appends_ext; [| |apply (appends_write "EPB: %w")].
    + intros fw. unfold WriteHookPacket. rewrite E.
      now replace (65535 <? len comment) with false by (symmetry; apply Z.ltb_ge; lia).
    + apply hookBytes_eq; auto. apply andb_false_iff in E as [E|E]; bools; [right|now left].
      now intros ->.
Qed.

(** ** Lemmas: block framing *)

Definition frame (kind : Z) (body : list Z) : list Z :=
  le 4 kind ++ le 4 (12 + len body) ++ body ++ le 4 (12 + len body).

Definition is_block (b : list Z) : Prop :=
  exists kind body, b = frame kind body /\ 0 <= kind < 2 ^ 32 /\ kind <> blkSHB /\
    (12 + len body) mod 4 = 0 /\ 12 + len body < 2 ^ 32.

Lemma frame_length kind body : length (frame kind body) = (12 + length body)%nat.
Proof. unfold frame. rewrite !length_app, !le_length. lia. Qed.

Lemma frame_app kind body r :
  frame kind body ++ r = le 4 kind ++ le 4 (12 + len body) ++ body ++ le 4 (12 + len body) ++ r.
Proof. unfold frame. now rewrite <- !app_assoc. Qed.

Lemma readFull_app n a r : length a = n -> readFull n (a ++ r) = Ok (a, r).
Proof.
  intros <-. unfold readFull. rewrite length_app.
  replace (length a + length r <? length a)%nat with false by (symmetry; apply Nat.ltb_ge; lia).
  now rewrite take_app_length, drop_app_length.
Qed.

Lemma copyN_app n a r : length a = n -> copyN n (a ++ r) = Ok r.
Proof.
  intros <-. unfold copyN. rewrite length_app.
  replace (length a + length r <? length a)%nat with false by (symmetry; apply Nat.ltb_ge; lia).
  now rewrite drop_app_length.
Qed.

(** The validator's round from a block header, the section order known. *)
Lemma validate_header fuel kind total r :
  0 <= kind < 2 ^ 32 -> kind <> blkSHB -> 12 <= total < 2 ^ 32 -> total mod 4 = 0 ->
  validate_loop (S fuel) (Some false) (le 4 kind ++ le 4 total ++ r) =
  match copyN (Z.to_nat (total - 12)) r with
  | Err e => Err (VTruncBlock e)
  | Ok r =>
      match readFull 4 r with
      | Err e => Err (VTruncTrailer e)
      | Ok (trailer, r) =>
          if negb (unle trailer =? total) then Err VDisagree else validate_loop fuel (Some false) r
      end
  end.
Proof.
  intros Hk Hne Ht Hm. cbn [validate_loop]. rewrite app_assoc, readFull_app by reflexivity.
  rewrite take_app_length', drop_app_length' by (symmetry; apply le_length). rewrite unle_le4 by exact Hk.
  replace (kind =? 168627466) with false by (symmetry; now apply Z.eqb_neq).
  unfold uint32. rewrite unle_le4 by lia.
  replace (total <? 8 + 4) with false by (symmetry; apply Z.ltb_ge; lia). rewrite Hm. cbn [negb orb Z.eqb].
  replace (total - 8 - 4) with (total - 12) by lia. reflexivity.
Qed.

Lemma validate_block fuel b r :
  is_block b -> validate_loop (S fuel) (Some false) (b ++ r) = validate_loop fuel (Some false) r.
Proof.
  intros (kind & body & -> & Hk & Hne & Hm & Ht). rewrite frame_app. pose proof (len_nonneg body).
  rewrite validate_header by (auto; lia). rewrite copyN_app by (unfold len; lia).
  rewrite readFull_app by apply le_length. rewrite unle_le4 by lia. now rewrite Z.eqb_refl.
Qed.

(** A block cut short is rejected. *)
Lemma validate_truncated fuel b k :
  is_block b -> (0 < k < length b)%nat -> validate_loop (S fuel) (Some false) (take k b) <> Ok tt.
Proof.
  intros (kind & body & -> & Hk & Hne & Hm & Ht) Hlen. pose proof (len_nonneg body).
  rewrite frame_length in Hlen. destruct (le_lt_dec 8 k) as [H8|H8].
  - unfold frame. rewrite app_assoc, take_app_ge by (rewrite length_app, !le_length; lia).
    rewrite length_app, !le_length, <- app_assoc.
    rewrite validate_header by (auto; lia). set (r := take _ _).
    assert (Hr : length r = (k - 8)%nat) by (unfold r; rewrite length_take, length_app, le_length; lia).
    unfold copyN. destruct (length r <? _)%nat eqn:E; [discriminate|]. bools.
    unfold readFull. rewrite length_drop, Hr.
    replace (k - 8 - Z.to_nat (12 + len body - 12) <? 4)%nat with true; [now destruct (_ =? 0)%nat|].
    symmetry. apply Nat.ltb_lt. unfold len. lia.
  - cbn [validate_loop]. unfold readFull. rewrite length_take, frame_length.
    replace (min k (12 + length body) <? 8)%nat with true by (symmetry; apply Nat.ltb_lt; lia).
    replace (min k (12 + length body) =? 0)%nat with false by (symmetry; apply Nat.eqb_neq; lia). discriminate.
Qed.

Lemma validate_shb fuel r order :
  validate_loop (S fuel) order (shbBytes ++ r) = validate_loop fuel (Some false) r.
Proof. reflexivity. Qed.

Lemma validate_nil fuel order : validate_loop (S fuel) order [] = Ok tt.
Proof. reflexivity. Qed.

Lemma block_length b : is_block b -> (12 <= length b)%nat.
Proof. intros (kind & body & -> & _). rewrite frame_length. lia. Qed.

Lemma validate_blocks bs fuel r :
  Forall is_block bs -> validate_loop (length bs + fuel) (Some false) (concat bs ++ r) = validate_loop fuel (Some false) r.
Proof.
  induction 1 as [|b bs Hb _ IH]; [reflexivity|]. cbn [concat length Nat.add]. rewrite <- app_assoc.
  now rewrite validate_block.
Qed.

Lemma concat_length_blocks bs : Forall is_block bs -> (length bs <= length (concat bs))%nat.
Proof.
  induction 1 as [|b bs Hb _ IH]; [simpl; lia|]. simpl. rewrite length_app.
  pose proof (block_length b Hb). lia.
Qed.

Lemma epb_is_block tsNs data origLen ifaceID opts :
  len data < 2 ^ 31 -> len opts mod 4 = 0 -> len opts < 2 ^ 30 -> is_block (epbBytes tsNs data origLen ifaceID opts).
Proof.
  intros Hd Ho Hol. pose proof (len_nonneg data) as H0. destruct (pad4_spec (len data) H0) as [Hp Hm].
  set (body := le 4 (u32 ifaceID) ++ le 4 (u32 (Z.shiftr tsNs 32)) ++ le 4 (u32 tsNs) ++ le 4 (len data)
    ++ le 4 (origLength data origLen) ++ (data ++ repeat 0 (Z.to_nat (pad4 (len data) - len data))) ++ opts).
  assert (Hb : 12 + len body = 32 + pad4 (len data) + len opts).
  { unfold body, len in *. rewrite !length_app, !le_length, repeat_length. lia. }
  exists blkEPB, body. splits; try (unfold blkEPB, blkSHB; lia).
  - unfold frame. rewrite Hb. unfold epbBytes, epbHeader, body. now rewrite <- !app_assoc.
  - rewrite Hb. pose proof (Z.div_mod (pad4 (len data)) 4 ltac:(lia)) as E1.
    pose proof (Z.div_mod (len opts) 4 ltac:(lia)) as E2. rewrite Hm in E1. rewrite Ho in E2.
    apply Z.mod_divide; [lia|]. exists (8 + pad4 (len data) / 4 + len opts / 4). lia.
Qed.

Lemma textOption_len code text :
  len (textOption code text) = if (length text =? 0)%nat then 0 else 4 + pad4 (len text).
Proof.
  unfold textOption. destruct (length text =? 0)%nat; [reflexivity|]. pose proof (len_nonneg text) as H0.
  destruct (pad4_spec (len text) H0) as [Hp _]. unfold len in *.
  rewrite !length_app, !le_length, repeat_length. lia.
Qed.

Lemma idb_is_block lt name description :
  len name <= 65535 -> len description <= 65535 -> is_block (idbBytes lt name description).
Proof.
  intros Hn Hd. pose proof (len_nonneg name) as H0. pose proof (len_nonneg description) as H1.
  destruct (pad4_spec (len name) H0) as [Hp Hm]. destruct (pad4_spec (len description) H1) as [Hp1 Hm1].
  set (body := le 2 lt ++ le 2 0 ++ le 4 0 ++ textOption idbOptIfName name
    ++ textOption idbOptIfDescription description ++ le 2 idbOptIfTsresol ++ le 2 1 ++ [idbTsresolNs; 0; 0; 0]
    ++ le 2 optEndOfOpt ++ le 2 0).
  assert (Hb : 12 + len body = idbTotal name description).
  { pose proof (textOption_len idbOptIfName name). pose proof (textOption_len idbOptIfDescription description).
    unfold body, idbTotal, len in *. rewrite !length_app, !le_length. cbn [length].
    destruct (length name =? 0)%nat, (length description =? 0)%nat; lia. }
  assert (Ht : idbTotal name description < 2 ^ 32 /\ idbTotal name description mod 4 = 0).
  { unfold idbTotal. split; [repeat case_goal; lia|]. pose proof (Z.div_mod (pad4 (len name)) 4 ltac:(lia)) as E1.
    pose proof (Z.div_mod (pad4 (len description)) 4 ltac:(lia)) as E2. rewrite Hm in E1. rewrite Hm1 in E2.
    apply Z.mod_divide; [lia|]. destruct (length name =? 0)%nat, (length description =? 0)%nat.
    - exists 8. lia.
    - exists (9 + pad4 (len description) / 4). lia.
    - exists (9 + pad4 (len name) / 4). lia.
    - exists (10 + pad4 (len name) / 4 + pad4 (len description) / 4). lia. }
  pose proof (len_nonneg body).
  destruct Ht as [Ht1 Ht2]. exists blkIDB, body. splits; try (unfold blkIDB, blkSHB; lia).
  - unfold frame. rewrite Hb. unfold idbBytes. rewrite u32_small by lia. unfold body. now rewrite <- !app_assoc.
  - now rewrite Hb.
Qed.

Lemma hookOptions_aligned packetID comment :
  len comment <= 65535 -> len (hookOptions packetID comment) mod 4 = 0 /\ len (hookOptions packetID comment) < 2 ^ 30.
Proof.
  intros Hc. rewrite hookOptions_len by exact Hc. pose proof (len_nonneg comment) as H0.
  destruct (pad4_spec (len comment) H0) as [Hp Hm]. split; [|repeat case_goal; lia].
  pose proof (Z.div_mod (pad4 (len comment)) 4 ltac:(lia)) as E1. rewrite Hm in E1. apply Z.mod_divide; [lia|].
  destruct (packetID =? 0), (length comment =? 0)%nat; cbn [andb];
    [exists 0|exists (2 + pad4 (len comment) / 4)|exists 4|exists (5 + pad4 (len comment) / 4)]; lia.
Qed.

(** The whole validation of a section: what is left to decide is the tail. *)
Lemma validate_length_split src bs b k :
  src = shbBytes ++ concat bs ++ take k b -> Forall is_block bs -> is_block b ->
  exists fuel, validate_loop (S (length src)) None src = validate_loop (S fuel) (Some false) (take k b).
Proof.
  intros -> Hbs Hb. pose proof (concat_length_blocks bs Hbs) as Hl.
  exists (length shbBytes + length (concat bs) + length (take k b) - 1 - length bs)%nat.
  rewrite validate_shb. rewrite !length_app. change (length shbBytes) with 28%nat.
  replace (28 + (length (concat bs) + length (take k b)))%nat
    with (length bs + S (28 + length (concat bs) + length (take k b) - 1 - length bs))%nat by lia.
  now rewrite validate_blocks.
Qed.

(** ** A session *)

Inductive wop :=
| OpIface (name : list Z)
| OpPacket (tsNs : Z) (data : list Z) (origLen : Z)
| OpPacketID (tsNs : Z) (data : list Z) (origLen ifaceID packetID : Z)
| OpHook (tsNs : Z) (data : list Z) (origLen ifaceID packetID : Z) (comment : list Z).

Definition run_op (op : wop) (fw : FastNgWriter) : wres :=
  match op with
  | OpIface name => AddInterface name fw
  | OpPacket ts data orig => WritePacket ts data orig fw
  | OpPacketID ts data orig iface id => WritePacketID ts data orig iface id fw
  | OpHook ts data orig iface id comment => WriteHookPacket ts data orig iface id comment fw
  end.

Fixpoint run_ops (ops : list wop) (fw : FastNgWriter) : wres :=
  match ops with
  | [] => Some (fw, None)
  | op :: ops' => andThen (run_op op fw) (run_ops ops')
  end.

(** Packets below 2 GiB. *)
Definition op_ok (op : wop) : Prop :=
  match op with
  | OpIface _ => True
  | OpPacket _ data _ | OpPacketID _ data _ _ _ | OpHook _ data _ _ _ _ => len data < 2 ^ 31
  end.

(** What one operation leaves in the file: a whole block, or a proper
    prefix of one together with an error. *)
Definition writes_block (fw : FastNgWriter) (m : wres) : Prop :=
  exists fw' e b k, m = Some (fw', e) /\ is_block b /\ written fw' = written fw ++ take k b /\
    ((e = None /\ k = length b) \/ (e <> None /\ (k < length b)%nat)).

Lemma appends_writes_block m b fw : appends m b -> is_block b -> writes_block fw (m fw).
Proof.
  intros H Hb. destruct (H fw) as (fw' & e & -> & _ & _ & Hc). exists fw', e, b.
  destruct (length b <=? room fw)%nat eqn:E; bools.
  - exists (length b). destruct Hc as (-> & Hw & _). splits; auto. now rewrite firstn_all.
  - exists (room fw). destruct Hc as (He & Hw & _). splits; auto.
Qed.

Lemma fail_writes_block e fw : writes_block fw (fail e fw).
Proof.
  exists fw, (Some e), (idbBytes 0 [] []), 0%nat. splits; auto.
  - now apply idb_is_block.
  - now rewrite app_nil_r.
  - right. split; [discriminate|]. pose proof (block_length _ (idb_is_block 0 [] [] ltac:(easy) ltac:(easy))). lia.
Qed.

Lemma run_op_writes op fw : op_ok op -> writes_block fw (run_op op fw).
Proof.
  destruct op as [name|ts data orig|ts data orig iface id|ts data orig iface id comment]; intros Hok; simpl in *.
  - unfold AddInterface, writeIDB, writeIDBDescription. change (65535 <? len []) with false. rewrite orb_false_r.
    destruct (65535 <? len name) eqn:E; [apply fail_writes_block|]. bools.
    assert (Hb : is_block (idbBytes (linkType fw) name [])) by (apply idb_is_block; [lia|easy]).
    destruct (appends_writes_block _ _ fw (appends_write_raw (idbBytes (linkType fw) name [])) Hb)
      as (fw' & e & b & k & Hm & Hb' & Hw & Hc). rewrite Hm. unfold andThen. destruct e as [e|].
    + exists fw', (Some e), b, k. now splits.
    + exists (set_nIfaces (nIfaces fw' + 1) fw'), None, b, k. now splits.
  - apply (appends_writes_block _ (epbBytes ts data orig 0 [])); [apply appends_WritePacket; lia|].
    now apply epb_is_block.
  - apply (appends_writes_block _ (epbBytes ts data orig iface (idOptions id))); [apply appends_WritePacketID; lia|].
    now apply epb_is_block.
  - destruct (65535 <? len comment) eqn:E; bools.
    + unfold WriteHookPacket. destruct (length comment =? 0)%nat eqn:Ec; bools; [unfold len in E; lia|]. cbn [andb].
      replace (65535 <? len comment) with true by (symmetry; apply Z.ltb_lt; lia). apply fail_writes_block.
    + apply (appends_writes_block _ (epbBytes ts data orig iface (hookOptions id comment)));
        [apply appends_WriteHookPacket; lia|].
      destruct (hookOptions_aligned id comment E). now apply epb_is_block.
Qed.

Lemma run_ops_writes ops fw :
  Forall op_ok ops ->
  exists fw' e bs b k, run_ops ops fw = Some (fw', e) /\ Forall is_block bs /\ is_block b /\
    written fw' = written fw ++ concat bs ++ take k b /\
    ((e = None /\ k = 0%nat) \/ (e <> None /\ (k < length b)%nat)).
Proof.
  intros H. revert fw. induction H as [|op ops Hop _ IH]; intros fw; cbn [run_ops].
  - exists fw, None, [], (idbBytes 0 [] []), 0%nat. splits; auto; [now apply idb_is_block|now rewrite app_nil_r].
  - destruct (run_op_writes op fw Hop) as (fw1 & e1 & b1 & k1 & -> & Hb1 & Hw1 & Hc1). unfold andThen.
    destruct Hc1 as [[-> ->]|[He Hk]].
    + destruct (IH fw1) as (fw2 & e2 & bs & b & k & -> & Hbs & Hb & Hw & Hc).
      exists fw2, e2, (b1 :: bs), b, k. splits; auto. rewrite Hw, Hw1, firstn_all. cbn [concat].
      now rewrite <- !app_assoc.
    + destruct e1 as [e1|]; [|easy]. exists fw1, (Some e1), [], b1, k1. splits; auto.
Qed.

Lemma New_written r lt fw :
  NewFastNgWriter r lt = Some (fw, None) -> written fw = shbBytes ++ idbBytes (u16 lt) [] [].
Proof.
  unfold NewFastNgWriter, writeSHB, writeIDB, writeIDBDescription, andThen, write_raw. cbn [room written].
  destruct (length shbBytes <=? r)%nat; cbn [room written]; [|discriminate]. cbn [Z.ltb orb].
  change (65535 <? len []) with false. cbn [orb]. destruct (_ <=? _)%nat; [|discriminate].
  intros [= <-]. reflexivity.
Qed.

(** ** Properties *)

(** C4: every session of the writer produces a file the merge's framing
    check accepts, and when a write fails the check accepts what is left
    exactly when no partial block was left behind. *)
Theorem session_valid r lt ops fw0 :
  NewFastNgWriter r lt = Some (fw0, None) -> Forall op_ok ops ->
  exists fw e, run_ops ops fw0 = Some (fw, e) /\
    (e = None -> validatePcapBlocks (written fw) = Ok tt) /\
    exists bs b k, Forall is_block bs /\ is_block b /\ (k < length b)%nat /\
      written fw = shbBytes ++ concat bs ++ take k b /\
      (validatePcapBlocks (written fw) = Ok tt <-> k = 0%nat).
Proof.
  intros Hnew Hok. apply New_written in Hnew.
  destruct (run_ops_writes ops fw0 Hok) as (fw & e & bs & b & k & Hrun & Hbs & Hb & Hw & Hc).
  assert (Hidb : is_block (idbBytes (u16 lt) [] [])) by now apply idb_is_block.
  assert (Hlen : (k < length b)%nat) by (destruct Hc as [[_ ->]|[_ ?]]; [pose proof (block_length b Hb)|]; lia).
  set (bs' := idbBytes (u16 lt) [] [] :: bs) in *.
  assert (Hbs' : Forall is_block bs') by now constructor.
  assert (Hw' : written fw = shbBytes ++ concat bs' ++ take k b).
  { rewrite Hw, Hnew. unfold bs'. cbn [concat]. now rewrite <- !app_assoc. }
  assert (Hv : validatePcapBlocks (written fw) = Ok tt <-> k = 0%nat).
  { unfold validatePcapBlocks. destruct (validate_length_split (written fw) bs' b k Hw' Hbs' Hb) as [fuel ->].
    split; [|intros ->; reflexivity]. intros H. destruct (decide (k = 0%nat)) as [->|]; [reflexivity|].
    exfalso. revert H. apply validate_truncated; [exact Hb|lia]. }
  exists fw, e. splits; auto.
  - intros ->. apply Hv. destruct Hc as [[_ ->]|[? _]]; easy.
  - exists bs', b, k. now splits.
Qed.

Definition demo_writer : FastNgWriter := mkW (shbBytes ++ idbBytes 1 [] []) 4036 1 1.

Lemma session_valid_witness :
  exists fw e, run_ops [OpIface [101; 116; 104]; OpPacket 5 [1; 2; 3] 0; OpHook 9 [1] 7 1 77 [104; 105]] demo_writer = Some (fw, e) /\
    (e = None -> validatePcapBlocks (written fw) = Ok tt).
Proof.
  destruct (session_valid 4096 1 [OpIface [101; 116; 104]; OpPacket 5 [1; 2; 3] 0; OpHook 9 [1] 7 1 77 [104; 105]] demo_writer)
    as (fw & e & H1 & H2 & _); [reflexivity| |now exists fw, e].
  repeat constructor; reflexivity.
Defined.

Lemma epbBytes_len ts data orig iface opts :
  len (epbBytes ts data orig iface opts) = 32 + pad4 (len data) + len opts.
Proof.
  pose proof (len_nonneg data) as H0. destruct (pad4_spec (len data) H0) as [Hp _].
  unfold epbBytes, epbHeader, len in *. rewrite !length_app, !le_length, repeat_length. lia.
Qed.

Lemma appends_size m b fw n :
  appends m b -> len b = n -> n <= Z.of_nat (room fw) ->
  exists fw', m fw = Some (fw', None) /\ len (written fw') = len (written fw) + n.
Proof.
  intros H Hn Hr. destruct (H fw) as (fw' & e & Hm & _ & _ & Hc).
  replace (length b <=? room fw)%nat with true in Hc by (symmetry; apply Nat.leb_le; unfold len in Hn; lia).
  destruct Hc as (-> & Hw & _). exists fw'. split; [exact Hm|]. rewrite Hw. unfold len in *. rewrite length_app. lia.
Qed.

(** The size functions the byte-cap accounting uses are exact: with
    room left, the three packet writers add exactly [EPBSize], [EPBSizeID]
    and [HookEPBSize] bytes, and never panic on the padding slice. *)
Theorem packet_sizes ts data orig iface id comment fw :
  len data < 2 ^ 31 -> len comment <= 65535 ->
  HookEPBSize (len data) true (len comment) <= Z.of_nat (room fw) ->
  (exists fw', WritePacket ts data orig fw = Some (fw', None) /\
     len (written fw') = len (written fw) + EPBSize (len data)) /\
  (exists fw', WritePacketID ts data orig iface id fw = Some (fw', None) /\
     len (written fw') = len (written fw) + EPBSizeID (len data)) /\
  (exists fw', WriteHookPacket ts data orig iface id comment fw = Some (fw', None) /\
     len (written fw') = len (written fw) + HookEPBSize (len data) (negb (id =? 0)) (len comment)).
Proof.
  intros Hd Hc Hr. pose proof (len_nonneg comment) as H0. destruct (pad4_spec (len comment) H0) as [Hp _].
  assert (Hroom : EPBSizeID (len data) <= Z.of_nat (room fw) /\
    HookEPBSize (len data) (negb (id =? 0)) (len comment) <= Z.of_nat (room fw)).
  { unfold EPBSizeID, HookEPBSize, epbIDOptSize in *. cbn [orb] in Hr.
    destruct (0 <? len comment) eqn:E; destruct (negb (id =? 0)); cbn [orb]; lia. }
  splits.
  - eapply appends_size; [apply appends_WritePacket; lia| |].
    + rewrite epbBytes_len. change (len []) with 0. unfold EPBSize. lia.
    + unfold EPBSizeID, epbIDOptSize in Hroom. lia.
  - eapply appends_size; [apply appends_WritePacketID; lia| |].
    + rewrite epbBytes_len. change (len (idOptions id)) with 16. unfold EPBSizeID, EPBSize, epbIDOptSize. lia.
    + apply Hroom.
  - eapply appends_size; [apply appends_WriteHookPacket; lia| |].
    + now rewrite epbBytes_len, HookEPBSize_eq.
    + apply Hroom.
Qed.

Lemma packet_sizes_witness :
  exists fw', WriteHookPacket 9 [1; 2; 3] 7 1 77 [104; 105] demo_writer = Some (fw', None) /\
     len (written fw') = len (written demo_writer) + 60.
Proof. apply (packet_sizes 9 [1; 2; 3] 7 1 77 [104; 105] demo_writer); vm_compute; easy. Defined.

(** ** Reading hook blocks back *)

Lemma rd_at n v a c off :
  length a = off -> 0 <= v < 256 ^ Z.of_nat n -> rd n off (a ++ le n v ++ c) = Some v.
Proof. intros Ha Hv. rewrite rd_app by exact Ha. rewrite rd_le. f_equal. now apply Z.mod_small. Qed.

Lemma sl_mid a b c lo hi : length a = lo -> (lo + length b)%nat = hi -> sl lo hi (a ++ b ++ c) = Some b.
Proof.
  intros <- <-. unfold sl. rewrite !length_app.
  replace ((length a <=? length a + length b) && (length a + length b <=? length a + (length b + length c)))%nat
    with true by (symmetry; apply andb_true_intro; split; apply Nat.leb_le; lia).
  rewrite drop_app_length, take_app_length'; [reflexivity|lia].
Qed.

Lemma combine_halves v : 0 <= v < 2 ^ 64 -> Z.lor (Z.shiftl (u32 (Z.shiftr v 32)) 32) (u32 v) = v.
Proof.
  intros Hv. assert (Hhi : Z.shiftr v 32 < 2 ^ 32).
  { rewrite Z.shiftr_div_pow2 by lia. apply Z.div_lt_upper_bound; lia. }
  assert (Hnn : 0 <= Z.shiftr v 32) by (apply Z.shiftr_nonneg; lia).
  rewrite (u32_small (Z.shiftr v 32)) by lia. unfold u32. rewrite <- Z.land_ones by lia.
  apply Z.bits_inj'. intros k Hk. rewrite Z.lor_spec, Z.land_spec.
  destruct (Z_lt_le_dec k 32).
  - rewrite Z.shiftl_spec_low, Z.ones_spec_low by lia. simpl. apply andb_true_r.
  - rewrite Z.shiftl_spec, Z.ones_spec_high, Z.shiftr_spec by lia. rewrite andb_false_r, orb_false_r. f_equal. lia.
Qed.

(** The option header at [pos]. *)
Lemma option_header pre code n rest :
  0 <= code < 2 ^ 16 -> 0 <= n < 2 ^ 16 ->
  let o := pre ++ le 2 code ++ le 2 n ++ rest in
  (length o <=? length pre)%nat = false /\ (length o - length pre <? 4)%nat = false /\
  rd 2 (length pre) o = Some code /\ rd 2 (length pre + 2) o = Some n.
Proof.
  intros Hc Hn o. unfold o. rewrite !length_app, !le_length. splits.
  - apply Nat.leb_gt. lia.
  - apply Nat.ltb_ge. lia.
  - apply (rd_at 2 code pre); [reflexivity|exact Hc].
  - rewrite (app_assoc pre). apply (rd_at 2 n); [rewrite length_app, le_length; reflexivity|exact Hn].
Qed.

Lemma options_end fuel pre rest h s :
  options_loop (S fuel) (pre ++ le 2 optEndOfOpt ++ le 2 0 ++ rest) (length pre) h s = Ok h.
Proof.
  cbn [options_loop]. destruct (option_header pre optEndOfOpt 0 rest ltac:(easy) ltac:(easy)) as (-> & -> & -> & ->).
  reflexivity.
Qed.

Lemma options_id fuel pre id rest :
  0 < id < 2 ^ 64 ->
  options_loop (S fuel) (pre ++ le 2 epbOptPacketID ++ le 2 8 ++ le 8 id ++ rest) (length pre) false false
  = options_loop fuel (pre ++ le 2 epbOptPacketID ++ le 2 8 ++ le 8 id ++ rest) (length pre + 12) true false.
Proof.
  intros Hid. cbn [options_loop].
  destruct (option_header pre epbOptPacketID 8 (le 8 id ++ rest) ltac:(easy) ltac:(easy)) as (-> & -> & -> & ->).
  change (epbOptPacketID =? optEndOfOpt) with false. change (epbOptPacketID =? epbOptPacketID) with true.
  change (8 =? 8) with true. cbn [negb].
  replace (_ <? length pre + 4 + Z.to_nat 8)%nat with false
    by (symmetry; apply Nat.ltb_ge; rewrite !length_app, !le_length; lia).
  rewrite (app_assoc pre), (app_assoc (pre ++ _)).
  rewrite (rd_at 8 id) by (rewrite ?length_app, ?le_length; simpl; lia).
  replace (id =? 0) with false by (symmetry; apply Z.eqb_neq; lia).
  f_equal. change (Z.to_nat (pad4 8)) with 8%nat. lia.
Qed.

Lemma options_comment fuel pre comment rest h :
  comment <> [] -> len comment <= 65535 ->
  options_loop (S fuel) (pre ++ commentOption comment ++ rest) (length pre) h false
  = options_loop fuel (pre ++ commentOption comment ++ rest) (length pre + length (commentOption comment)) h true.
Proof.
  intros Hne Hc. pose proof (len_nonneg comment) as H0. destruct (pad4_spec (len comment) H0) as [Hp _].
  assert (Hl : length (commentOption comment) = (4 + Z.to_nat (pad4 (len comment)))%nat).
  { unfold commentOption. rewrite !length_app, !le_length, repeat_length. unfold len in *. lia. }
  cbn [options_loop]. set (tail := comment ++ repeat 0 (Z.to_nat (pad4 (len comment) - len comment)) ++ rest).
  replace (pre ++ commentOption comment ++ rest) with (pre ++ le 2 epbOptComment ++ le 2 (len comment) ++ tail)
    by (unfold commentOption, tail; now rewrite <- !app_assoc).
  destruct (option_header pre epbOptComment (len comment) tail ltac:(easy) ltac:(lia)) as (-> & -> & -> & ->).
  change (epbOptComment =? optEndOfOpt) with false. change (epbOptComment =? epbOptPacketID) with false.
  change (epbOptComment =? epbOptComment) with true. cbn iota.
  replace (_ <? length pre + 4 + Z.to_nat (len comment))%nat with false
    by (symmetry; apply Nat.ltb_ge; unfold tail; rewrite !length_app, !le_length; unfold len; lia).
  replace (len comment =? 0) with false by (symmetry; apply Z.eqb_neq; unfold len; destruct comment; [easy|simpl; lia]).
  f_equal. rewrite Hl. lia.
Qed.

Lemma hookOptions_parse id comment :
  0 <= id < 2 ^ 64 -> len comment <= 65535 ->
  checkHookOptions (hookOptions id comment) = Ok (negb (id =? 0)).
Proof.
  intros Hid Hc. unfold checkHookOptions, hookOptions.
  destruct (Z.eqb_spec id 0) as [->|Hne]; destruct (length comment =? 0)%nat eqn:El; bools; cbn [andb app negb].
  - reflexivity.
  - assert (comment <> []) by (intros ->; easy).
    destruct (length (commentOption comment ++ le 2 optEndOfOpt ++ le 2 0)) as [|[|n]] eqn:E;
      [rewrite !length_app, !le_length in E; lia..|]. cbn [Nat.eqb].
    etransitivity; [exact (options_comment _ [] comment (le 2 optEndOfOpt ++ le 2 0) false H Hc)|].
    cbn [app length Nat.add]. rewrite <- (app_nil_r (le 2 0)). apply options_end.
  - rewrite <- !app_assoc. cbn [app]. set (o := le 2 epbOptPacketID ++ _).
    change (length o) with 16%nat. cbn [Nat.eqb]. unfold o.
    etransitivity; [exact (options_id _ [] id (le 2 optEndOfOpt ++ le 2 0) ltac:(lia))|].
    cbn [app length Nat.add]. rewrite <- (app_nil_r (le 2 0)).
    rewrite (app_assoc (le 2 epbOptPacketID)), (app_assoc (_ ++ _)).
    change 12%nat with (length ((le 2 epbOptPacketID ++ le 2 8) ++ le 8 id)). apply options_end.
  - assert (comment <> []) by (intros ->; easy). rewrite <- !app_assoc. cbn [app].
    set (o := le 2 epbOptPacketID ++ _).
    destruct (length o) as [|[|[|n]]] eqn:E;
      [unfold o in E; rewrite !length_app, !le_length in E; lia..|]. cbn [Nat.eqb]. unfold o.
    etransitivity; [exact (options_id _ [] id (commentOption comment ++ le 2 optEndOfOpt ++ le 2 0) ltac:(lia))|].
    cbn [app length Nat.add]. rewrite (app_assoc (le 2 epbOptPacketID)), (app_assoc (_ ++ _)).
    change 12%nat with (length ((le 2 epbOptPacketID ++ le 2 8) ++ le 8 id)).
    rewrite options_comment by assumption. rewrite <- (app_nil_r (le 2 0)).
    rewrite (app_assoc _ (commentOption comment)), <- length_app. apply options_end.
Qed.

(** [readHookBlock] takes exactly one frame. *)
Lemma readHookBlock_frame kind body rest :
  12 + len body <= maxHookBlockSize -> (12 + len body) mod 4 = 0 ->
  readHookBlock (frame kind body ++ rest) = Ok (frame kind body, rest).
Proof.
  intros Hmax Hm. pose proof (len_nonneg body) as H0. unfold maxHookBlockSize in Hmax.
  change (Z.shiftl 1 20) with 1048576 in Hmax. rewrite frame_app. unfold readHookBlock.
  rewrite app_assoc, readFull_app by reflexivity.
  rewrite drop_app_length' by (symmetry; apply le_length). rewrite unle_le4 by lia.
  replace (12 + len body <? 12) with false by (symmetry; apply Z.ltb_ge; lia). rewrite Hm.
  replace (maxHookBlockSize <? 12 + len body) with false
    by (symmetry; apply Z.ltb_ge; unfold maxHookBlockSize; change (Z.shiftl 1 20) with 1048576; lia).
  cbn [negb orb Z.eqb]. rewrite app_assoc.
  rewrite readFull_app by (rewrite length_app, le_length; unfold len; lia).
  replace ((le 4 kind ++ le 4 (12 + len body)) ++ body ++ le 4 (12 + len body)) with (frame kind body)
    by (unfold frame; now rewrite <- !app_assoc).
  rewrite frame_length. unfold frame at 1. rewrite (app_assoc (le 4 kind)), (app_assoc (_ ++ _)).
  rewrite <- (app_nil_r (le 4 (12 + len body))) at 2.
  rewrite (rd_at 4 (12 + len body)); [|rewrite !length_app, !le_length; lia|lia].
  now rewrite Z.eqb_refl.
Qed.

Definition hook_body (ts : Z) (data : list Z) (orig iface : Z) (opts : list Z) : list Z :=
  le 4 (u32 iface) ++ le 4 (u32 (Z.shiftr ts 32)) ++ le 4 (u32 ts) ++ le 4 (len data)
  ++ le 4 (origLength data orig) ++ (data ++ repeat 0 (Z.to_nat (pad4 (len data) - len data))) ++ opts.

Lemma epb_frame ts data orig iface opts :
  epbBytes ts data orig iface opts = frame blkEPB (hook_body ts data orig iface opts) /\
  12 + len (hook_body ts data orig iface opts) = 32 + pad4 (len data) + len opts.
Proof.
  pose proof (len_nonneg data) as H0. destruct (pad4_spec (len data) H0) as [Hp Hm].
  assert (Hb : 12 + len (hook_body ts data orig iface opts) = 32 + pad4 (len data) + len opts).
  { unfold hook_body, len in *. rewrite !length_app, !le_length, repeat_length. lia. }
  split; [|exact Hb]. unfold frame. rewrite Hb. unfold epbBytes, epbHeader, hook_body. now rewrite <- !app_assoc.
Qed.

Lemma hookItem_epb nhooks ts data orig iface opts id :
  len data <= 65535 -> 0 <= ts < 2 ^ 64 -> 0 <= iface < nhooks -> nhooks <= 2 ^ 32 -> len opts < 2 ^ 30 ->
  checkHookOptions opts = Ok id ->
  hookItem nhooks (epbBytes ts data orig iface opts) = Ok (mkItem ts (epbBytes ts data orig iface opts) id).
Proof.
  intros Hd Hts Hif Hn Ho Hopt. pose proof (len_nonneg data) as H0. destruct (pad4_spec (len data) H0) as [Hp Hm].
  pose proof (len_nonneg opts) as H1.
  set (b := epbBytes ts data orig iface opts) in *.
  assert (Hlen : len b = 32 + pad4 (len data) + len opts) by apply epbBytes_len.
  set (total := 32 + pad4 (len data) + len opts) in *.
  set (pay := data ++ repeat 0 (Z.to_nat (pad4 (len data) - len data))).
  set (w3 := le 4 (u32 (Z.shiftr ts 32))). set (w4 := le 4 (u32 ts)). set (w5 := le 4 (len data)).
  set (w6 := le 4 (origLength data orig)).
  assert (Hb : b = le 4 blkEPB ++ le 4 total ++ le 4 (u32 iface) ++ w3 ++ w4 ++ w5 ++ w6 ++ pay ++ opts ++ le 4 total).
  { unfold b, epbBytes, epbHeader, w3, w4, w5, w6, pay. now rewrite <- !app_assoc. }
  assert (Hu : forall z, 0 <= u32 z < 2 ^ 32) by (intros z; apply Z.mod_pos_bound; lia).
  unfold hookItem.
  assert (R0 : rd 4 0 b = Some blkEPB) by (rewrite Hb; apply (rd_at 4 blkEPB []); [reflexivity|unfold blkEPB; lia]).
  assert (R8 : rd 4 8 b = Some iface).
  { rewrite Hb, (app_assoc (le 4 blkEPB)). rewrite (u32_small iface) by lia. apply (rd_at 4 iface); [reflexivity|lia]. }
  assert (R12 : rd 4 12 b = Some (u32 (Z.shiftr ts 32))).
  { rewrite Hb, (app_assoc (le 4 blkEPB)), (app_assoc (_ ++ _)). apply (rd_at 4); [reflexivity|apply Hu]. }
  assert (R16 : rd 4 16 b = Some (u32 ts)).
  { rewrite Hb, (app_assoc (le 4 blkEPB)), (app_assoc (_ ++ _)), (app_assoc (_ ++ _)).
    apply (rd_at 4); [reflexivity|apply Hu]. }
  assert (R20 : rd 4 20 b = Some (len data)).
  { rewrite Hb, (app_assoc (le 4 blkEPB)), (app_assoc (_ ++ _)), (app_assoc (_ ++ _)), (app_assoc (_ ++ _)).
    apply (rd_at 4); [reflexivity|lia]. }
  rewrite R0, R8, R12, R16, R20. change (blkEPB =? blkEPB) with true. cbn [negb orb].
  change (EPBSize 0) with 32. unfold EPBSize. rewrite Hlen.
  replace (total <? 32) with false by (symmetry; apply Z.ltb_ge; lia).
  replace (nhooks <=? iface) with false by (symmetry; apply Z.leb_gt; lia).
  replace (65535 <? len data) with false by (symmetry; apply Z.ltb_ge; lia).
  replace (total <? 32 + pad4 (len data)) with false by (symmetry; apply Z.ltb_ge; lia). cbn [orb].
  replace (sl _ _ b) with (Some opts).
  - rewrite Hopt, combine_halves by exact Hts. reflexivity.
  - symmetry. replace b with ((le 4 blkEPB ++ le 4 total ++ le 4 (u32 iface) ++ w3 ++ w4 ++ w5 ++ w6 ++ pay) ++ opts ++ le 4 total) at 2
      by (rewrite Hb, <- !app_assoc; reflexivity).
    assert (Hpay : length pay = Z.to_nat (pad4 (len data))) by (unfold pay, len in *; rewrite length_app, repeat_length; lia).
    apply sl_mid; unfold hookEPBHeaderSize; rewrite ?length_app, ?Hpay; unfold w3, w4, w5, w6; rewrite ?le_length.
    + lia.
    + subst total. unfold len in *. lia.
Qed.

Lemma WriteHookPacket_comment ts data orig iface id comment fw fw' :
  WriteHookPacket ts data orig iface id comment fw = Some (fw', None) -> len comment <= 65535.
Proof.
  intros Hw. unfold WriteHookPacket in Hw. destruct (length comment =? 0)%nat eqn:E; bools; [unfold len; lia|].
  cbn [andb] in Hw. destruct (65535 <? len comment) eqn:E2; [discriminate|]. bools. exact E2.
Qed.

(** A hook block in front of anything is read back whole. *)
Lemma hookNext_epb nhooks ts data orig iface id comment rest :
  len comment <= 65535 -> len data <= 65535 -> 0 <= ts < 2 ^ 64 -> 0 <= id < 2 ^ 64 ->
  0 <= iface < nhooks -> nhooks <= 2 ^ 32 ->
  let b := epbBytes ts data orig iface (hookOptions id comment) in
  hookNext nhooks (b ++ rest) = Ok (mkItem ts b (negb (id =? 0)), rest).
Proof.
  intros Hc Hd Hts Hid Hif Hn b. unfold b. clear b.
  destruct (hookOptions_aligned id comment Hc) as [Hal Hol].
  destruct (epb_frame ts data orig iface (hookOptions id comment)) as [Hfr Hlen].
  pose proof (len_nonneg data) as H0. destruct (pad4_spec (len data) H0) as [Hp Hpm].
  pose proof (len_nonneg comment) as H1. destruct (pad4_spec (len comment) H1) as [Hp1 _].
  unfold hookNext. rewrite Hfr, readHookBlock_frame.
  - rewrite <- Hfr, (hookItem_epb nhooks ts data orig iface _ (negb (id =? 0))); auto.
    now apply hookOptions_parse.
  - rewrite Hlen, hookOptions_len by exact Hc. unfold maxHookBlockSize. change (Z.shiftl 1 20) with 1048576.
    repeat case_goal; lia.
  - destruct (epb_is_block ts data orig iface (hookOptions id comment)) as (kind & body & Hb & _ & _ & Hmod & _); [lia|exact Hal|exact Hol|].
    rewrite Hlen. rewrite <- (epbBytes_len ts data orig iface). rewrite Hb. unfold len in *. rewrite frame_length.
    rewrite Nat2Z.inj_add. exact Hmod.
Qed.

(** C26: what [WriteHookPacket] writes, the hook merge reads back: from
    the written bytes followed by anything, [next] yields exactly that
    block, its timestamp and whether it carries a packet id, and leaves the
    rest of the shard. *)
Theorem hook_roundtrip nhooks ts data orig iface id comment fw fw' rest :
  WriteHookPacket ts data orig iface id comment fw = Some (fw', None) ->
  len data <= 65535 -> 0 <= ts < 2 ^ 64 -> 0 <= id < 2 ^ 64 -> 0 <= iface < nhooks -> nhooks <= 2 ^ 32 ->
  exists b, written fw' = written fw ++ b /\
    hookNext nhooks (b ++ rest) = Ok (mkItem ts b (negb (id =? 0)), rest).
Proof.
  intros Hw Hd Hts Hid Hif Hn. assert (Hc : len comment <= 65535) by (eapply WriteHookPacket_comment; exact Hw).
  destruct (appends_WriteHookPacket ts data orig iface id comment ltac:(lia) Hc fw) as (fw1 & e & Hm & _ & _ & Happ).
  rewrite Hw in Hm. injection Hm as <- <-. destruct (_ <=? _)%nat; [|now destruct Happ as [[] _]].
  destruct Happ as (_ & Hwr & _). eexists. split; [exact Hwr|]. now apply hookNext_epb.
Qed.

Lemma hook_roundtrip_witness :
  exists fw' b, WriteHookPacket 1000000007 [1; 2; 3; 4; 5] 9 2 77 [104; 105] demo_writer = Some (fw', None) /\
    hookNext 3 (b ++ [1; 2]) = Ok (mkItem 1000000007 b true, [1; 2]).
Proof.
  destruct (WriteHookPacket 1000000007 [1; 2; 3; 4; 5] 9 2 77 [104; 105] demo_writer) as [[fw' [e|]]|] eqn:H;
    [vm_compute in H; discriminate| |vm_compute in H; discriminate].
  destruct (hook_roundtrip 3 1000000007 [1; 2; 3; 4; 5] 9 2 77 [104; 105] demo_writer fw' [1; 2] H) as (b & _ & Hb);
    [easy|lia|lia|lia|easy|].
  exists fw', b. split; [reflexivity|exact Hb].
Defined.
