(* ===== verification/RawSample.v ===== *)
(** * RawSample: ring records and batches of packets
    (internal/capture/capture.go)

    The layout of a ring record, its parser, and the batches a shard hands
    to its sink. A parsed packet's bytes alias the ring; a batch owns copies
    in an arena, so the model keeps the arrays and the slices into them. *)

From Stdlib Require Import ZArith Lia Bool Ascii String List.
From stdpp Require Import base list strings numbers option.
From S2P Require Import Prelude GoStd GoBytes.
Local Open Scope Z_scope.
Local Open Scope go_scope.

(** [Packet]; the time is in nanoseconds since the epoch. *)
Record Packet := mkPacket {
  Timestamp : Z; PData : list Z; Action : Z; PMode : Z; CapLen : Z; OrigLen : Z; PTag : Z; PacketID : Z; SiteID : Z;
  PRecord : option (list Z)
}.

Definition MetadataSize : Z := 32.
Definition OffsetKernelTs : Z := 0.
Definition OffsetAction : Z := 8.
Definition OffsetMode : Z := 12.
Definition OffsetSiteID : Z := 13.
Definition OffsetCapLen : Z := 14.
Definition OffsetTag : Z := 16.
Definition OffsetPacketID : Z := 20.
Definition OffsetOrigLen : Z := 28.
Definition RecordFlag : Z := 0x80.
Definition RecordHeaderSize : Z := 8.

(** [binary.NativeEndian.UintN(raw[off:])]; out of range panics. *)
Definition uint (n : nat) (off : Z) (raw : list Z) : result rcerr Z := getp (rd n (Z.to_nat off) raw).

Definition RecordKernelTs (raw : list Z) : result rcerr Z := uint 8 OffsetKernelTs raw.
Definition RecordCapLen (raw : list Z) : result rcerr Z := uint 2 OffsetCapLen raw.
Definition RecordOrigLen (raw : list Z) : result rcerr Z := uint 4 OffsetOrigLen raw.

Section Parse.
Variable WallOffsetNs : Z.

(** The block behind the metadata. *)
Definition record_block (raw : list Z) : result rcerr (list Z) :=
  if len raw <? MetadataSize + RecordHeaderSize then rerrorf "sample too short for a record block: %d bytes" [AInt (len raw)]
  else
    let? n := uint 2 MetadataSize raw in
    if (n <? RecordHeaderSize) || (len raw <? MetadataSize + n)
    then rerrorf "record block length %d exceeds sample %d" [AInt n; AInt (len raw - MetadataSize)]
    else getp (sl (Z.to_nat MetadataSize) (Z.to_nat (MetadataSize + n)) raw).

Definition ParseRawSample (raw : list Z) : result rcerr Packet :=
  if len raw <? MetadataSize then rerrorf "sample too short: %d bytes" [AInt (len raw)]
  else
    let? kernelTs := RecordKernelTs raw in
    let? caplen := RecordCapLen raw in
    let? rawMode := uint 1 OffsetMode raw in
    let? block := if negb (Z.land rawMode RecordFlag =? 0) then (let? b := record_block raw in Ok (Some b)) else Ok None in
    let mode := if negb (Z.land rawMode RecordFlag =? 0) then Z.ldiff rawMode RecordFlag else rawMode in
    let start := match block with Some b => MetadataSize + len b | None => MetadataSize end in
    let stop := start + caplen in
    if len raw <? stop then rerrorf "sample caplen %d exceeds payload %d" [AInt caplen; AInt (len raw - start)]
    else if 2 <? mode then rerrorf "invalid capture mode %d" [AInt rawMode]
    else
      let? action := uint 4 OffsetAction raw in
      let? site := uint 1 OffsetSiteID raw in
      let? orig := RecordOrigLen raw in
      let? tag := uint 4 OffsetTag raw in
      let? id := uint 8 OffsetPacketID raw in
      let? data := getp (sl (Z.to_nat start) (Z.to_nat stop) raw) in
      Ok (mkPacket (int64_of_u64 (u64 (kernelTs + WallOffsetNs))) data action mode caplen orig tag id site block).
End Parse.

(** ** Batches *)

(** Arrays by number; a slice is an array with an offset and a length. *)
Record slice := mkSlice { arr : nat; start : nat; size : nat }.
Abbreviation arrays := (list (list Z)).

Definition slice_bytes (s : slice) (m : arrays) : option (list Z) := m !! arr s ≫= fun a => sl (start s) (start s + size s) a.

Section Batch.
(** The capacity [append] grows to: at least what is needed. *)
Variable grow : nat -> nat -> nat.

(** [append(b, data...)] for [b = a[0:n]]: in place when the capacity of the
    array allows, in a copy otherwise. *)
Definition append (b : slice) (data : list Z) (m : arrays) : option (slice * arrays) :=
  match m !! arr b with
  | None => None
  | Some a =>
      let n := (size b + length data)%nat in
      if (n <=? length a)%nat then
        Some (mkSlice (arr b) 0 n, <[arr b := take (size b) a ++ data ++ drop n a]> m)
      else
        let fresh := take (size b) a ++ data in
        Some (mkSlice (length m) 0 n, m ++ [fresh ++ repeat 0 (grow (length a) n - n)])
  end.

(** A queued packet: its fields, and the slices of its data and block. *)
Record queued := mkQueued { q_pkt : Packet; q_data : slice; q_rec : option slice }.

(** [batchBuilder]; [arena] is the slice of the arena in use. *)
Record batchBuilder := mkBatch { buf : list queued; arena : slice; mem : arrays }.

Definition newBatchBuilder (arenaCap : nat) : batchBuilder := mkBatch [] (mkSlice 0 0 0) [repeat 0 arenaCap].

Definition add (p : Packet) (b : batchBuilder) : option batchBuilder :=
  match append (arena b) (PData p) (mem b) with
  | None => None
  | Some (a, m) =>
      let data := mkSlice (arr a) (size (arena b)) (length (PData p)) in
      match PRecord p with
      | None => Some (mkBatch (buf b ++ [mkQueued p data None]) a m)
      | Some r =>
          match append a r m with
          | None => None
          | Some (a', m') => Some (mkBatch (buf b ++ [mkQueued p data (Some (mkSlice (arr a') (size a) (length r)))]) a' m')
          end
      end
  end.

(** What the sink reads of a queued packet. *)
Definition seen (m : arrays) (q : queued) : option Packet :=
  match slice_bytes (q_data q) m with
  | None => None
  | Some d =>
      let with_rec r := mkPacket (Timestamp (q_pkt q)) d (Action (q_pkt q)) (PMode (q_pkt q)) (CapLen (q_pkt q)) (OrigLen (q_pkt q))
                          (PTag (q_pkt q)) (PacketID (q_pkt q)) (SiteID (q_pkt q)) r in
      match q_rec q with
      | None => Some (with_rec None)
      | Some s => option_map (fun r => with_rec (Some r)) (slice_bytes s m)
      end
  end.

(** [flush]: the packets given to the sink, and the builder afterwards. *)
Definition flush (b : batchBuilder) : option (list Packet * batchBuilder) :=
  match buf b with
  | [] => Some ([], b)
  | q => option_map (fun ps => (ps, mkBatch [] (mkSlice (arr (arena b)) 0 0) (mem b))) (mapM (seen (mem b)) q)
  end.

Fixpoint add_all (ps : list Packet) (b : batchBuilder) : option batchBuilder :=
  match ps with
  | [] => Some b
  | p :: ps => match add p b with Some b => add_all ps b | None => None end
  end.

(** ** Proof *)

(** What a slice below the arena's length shows survives an append. *)
Definition below (b : slice) (s : slice) : Prop := arr s <> arr b \/ (start s + size s <= size b)%nat.

Lemma sl_prefix st sz n (a rest : list Z) : (st + sz <= n)%nat -> (n <= length a)%nat ->
  take (st + sz - st) (drop st (take n a ++ rest)) = take (st + sz - st) (drop st a).
Proof.
  intros Hs Hn. rewrite !take_drop_commute. f_equal. replace (st + (st + sz - st))%nat with (st + sz)%nat by lia.
  rewrite take_app_le by (rewrite length_take; lia). rewrite take_take. f_equal. lia.
Qed.

Lemma append_spec b data m a :
  m !! arr b = Some a -> (size b <= length a)%nat ->
  exists b' m', append b data m = Some (b', m') /\ start b' = 0%nat /\ size b' = (size b + length data)%nat /\
    (exists a', m' !! arr b' = Some a' /\ (size b' <= length a')%nat) /\
    slice_bytes (mkSlice (arr b') (size b) (length data)) m' = Some data /\
    (forall s x, below b s -> slice_bytes s m = Some x -> slice_bytes s m' = Some x /\ below b' s).
Proof.
  intros Ha Hsz. unfold append. rewrite Ha. assert (Hlt : (arr b < length m)%nat) by now apply lookup_lt_Some in Ha.
  assert (Hcell : forall rest, sl (size b) (size b + length data) (take (size b) a ++ data ++ rest) = Some data).
  { intros rest. unfold sl. rewrite !length_app, length_take. replace (_ && _) with true by (symmetry; apply andb_true_intro; split; apply Nat.leb_le; lia).
    f_equal. rewrite drop_app_length' by (rewrite length_take; lia). rewrite Nat.add_comm, Nat.add_sub. now rewrite take_app_length. }
  destruct (Nat.leb_spec (size b + length data) (length a)) as [Hle|Hgt].
  - eexists _, _. split; [reflexivity|]. cbn [start size arr]. split; [reflexivity|]. split; [reflexivity|]. set (a' := take (size b) a ++ data ++ drop (size b + length data) a).
    assert (Hl : length a' = length a) by (unfold a'; rewrite !length_app, length_take, length_drop; lia).
    assert (Ha' : <[arr b := a']> m !! arr b = Some a') by now apply list_lookup_insert_eq.
    split; [exists a'; split; [exact Ha'|lia]|]. split.
    + unfold slice_bytes. cbn [arr start size]. rewrite Ha'. cbn [mbind option_bind]. apply Hcell.
    + intros s x Hb Hx. unfold slice_bytes in *. destruct (decide (arr s = arr b)) as [E|E].
      * destruct Hb as [Hb|Hb]; [contradiction|]. rewrite E in *. rewrite Ha in Hx. rewrite Ha'. cbn [mbind option_bind] in *. split; [|right; cbn; lia].
        unfold sl in *. rewrite Hl. destruct (_ && _); [|discriminate]. rewrite <- Hx. f_equal. unfold a'. now apply sl_prefix.
      * rewrite list_lookup_insert_ne by congruence. split; [exact Hx|now left].
  - eexists _, _. split; [reflexivity|]. cbn [start size arr]. split; [reflexivity|]. split; [reflexivity|].
    set (a' := (take (size b) a ++ data) ++ repeat 0 (grow (length a) (size b + length data) - (size b + length data))).
    assert (Ha' : (m ++ [a']) !! length m = Some a') by (apply list_lookup_middle; reflexivity).
    assert (Hl : (size b + length data <= length a')%nat) by (unfold a'; rewrite !length_app, length_take; lia).
    split; [exists a'; split; [exact Ha'|exact Hl]|]. split.
    + unfold slice_bytes. cbn [arr start size]. rewrite Ha'. cbn [mbind option_bind]. unfold a'. rewrite <- app_assoc. apply Hcell.
    + intros s x Hb Hx. unfold slice_bytes in *. destruct (m !! arr s) as [c|] eqn:Ec; [|discriminate]. pose proof (lookup_lt_Some _ _ _ Ec) as Hc.
      rewrite lookup_app_l by exact Hc. rewrite Ec. split; [exact Hx|]. left. cbn. lia.
Qed.

Lemma seen_append b data m b' m' a q p :
  m !! arr b = Some a -> (size b <= length a)%nat -> append b data m = Some (b', m') ->
  (forall s, s = q_data q \/ q_rec q = Some s -> below b s) -> seen m q = Some p ->
  seen m' q = Some p /\ forall s, s = q_data q \/ q_rec q = Some s -> below b' s.
Proof.
  intros Ha Hsz Happ Hb Hs. destruct (append_spec b data m a Ha Hsz) as (b2 & m2 & E & _ & _ & _ & _ & Hkeep).
  rewrite Happ in E. injection E as <- <-. unfold seen in *. destruct (slice_bytes (q_data q) m) as [d|] eqn:Ed; [|discriminate].
  destruct (Hkeep _ _ (Hb _ (or_introl eq_refl)) Ed) as [-> Hbd]. destruct (q_rec q) as [s|] eqn:Eq.
  - destruct (slice_bytes s m) as [r|] eqn:Er; [|discriminate]. destruct (Hkeep _ _ (Hb s (or_intror eq_refl)) Er) as [-> Hbs].
    split; [exact Hs|]. intros s0 [->|[= <-]]; assumption.
  - split; [exact Hs|]. intros s0 [->|Hn]; [assumption|discriminate].
Qed.

Definition batch_inv (b : batchBuilder) (ps : list Packet) : Prop :=
  (exists a, mem b !! arr (arena b) = Some a /\ (size (arena b) <= length a)%nat) /\
  Forall2 (fun q p => seen (mem b) q = Some p /\ forall s, s = q_data q \/ q_rec q = Some s -> below (arena b) s) (buf b) ps.

Lemma inv_append qs ps b data m b' m' a :
  m !! arr b = Some a -> (size b <= length a)%nat -> append b data m = Some (b', m') ->
  Forall2 (fun q p => seen m q = Some p /\ forall s, s = q_data q \/ q_rec q = Some s -> below b s) qs ps ->
  Forall2 (fun q p => seen m' q = Some p /\ forall s, s = q_data q \/ q_rec q = Some s -> below b' s) qs ps.
Proof.
  intros Ha Hsz Happ Hq. eapply Forall2_impl; [|exact Hq]. intros q p [Hs Hb]. now apply (seen_append b data m b' m' a).
Qed.

Lemma add_inv p b ps : batch_inv b ps -> exists b', add p b = Some b' /\ batch_inv b' (ps ++ [p]).
Proof.
  intros [(a & Ha & Hsz) Hq]. unfold add. destruct (append_spec (arena b) (PData p) (mem b) a Ha Hsz) as (b1 & m1 & E1 & _ & S1 & (a1 & Ha1 & Hsz1) & D1 & K1).
  rewrite E1. pose proof (inv_append _ _ _ _ _ _ _ _ Ha Hsz E1 Hq) as Hq1. destruct (PRecord p) as [r|] eqn:Er.
  - destruct (append_spec b1 r m1 a1 Ha1 Hsz1) as (b2 & m2 & E2 & _ & S2 & (a2 & Ha2 & Hsz2) & D2 & K2). rewrite E2. eexists. split; [reflexivity|].
    split; [now exists a2|]. cbn [buf mem arena]. apply Forall2_app; [now apply (inv_append _ _ b1 r m1 b2 m2 a1)|]. constructor; [|constructor].
    destruct (K2 (mkSlice (arr b1) (size (arena b)) (length (PData p))) (PData p)) as [D1' B1]; [right; cbn; lia|exact D1|].
    split; [unfold seen; cbn [q_data q_rec q_pkt]; rewrite D1', D2; cbn [option_map]; rewrite <- Er; now destruct p|].
    intros s [->|[= <-]]; [exact B1|right; cbn; lia].
  - eexists. split; [reflexivity|]. split; [now exists a1|]. cbn [buf mem arena]. apply Forall2_app; [exact Hq1|]. constructor; [|constructor].
    split; [unfold seen; cbn [q_data q_rec q_pkt]; rewrite D1; rewrite <- Er; now destruct p|]. intros s [->|Hn]; [right; cbn; lia|discriminate].
Qed.

Lemma add_all_inv ps : forall b qs, batch_inv b qs -> exists b', add_all ps b = Some b' /\ batch_inv b' (qs ++ ps).
Proof.
  induction ps as [|p ps IH]; intros b qs Hb; [exists b; now rewrite app_nil_r|]. cbn [add_all].
  destruct (add_inv p b qs Hb) as (b1 & -> & H1). destruct (IH b1 _ H1) as (b2 & E2 & H2). exists b2. split; [exact E2|]. now rewrite <- app_assoc in H2.
Qed.

Lemma flush_inv b ps : batch_inv b ps -> exists b', flush b = Some (ps, b') /\ batch_inv b' [].
Proof.
  intros [(a & Ha & Hsz) Hq]. unfold flush. destruct (buf b) as [|q qs] eqn:Eb.
  - inversion Hq; subst. exists b. split; [reflexivity|]. split; [now exists a|]. rewrite Eb. constructor.
  - assert (Hm : mapM (seen (mem b)) (q :: qs) = Some ps) by (apply mapM_Some; eapply Forall2_impl; [|exact Hq]; now intros ? ? [? _]).
    rewrite Hm. eexists. split; [reflexivity|]. split; [|constructor]. exists a. split; [exact Ha|]. cbn. lia.
Qed.

(** A shard's run: batches of packets, each added and flushed. *)
Fixpoint deliver (batches : list (list Packet)) (b : batchBuilder) : option (list (list Packet) * batchBuilder) :=
  match batches with
  | [] => Some ([], b)
  | ps :: batches =>
      match add_all ps b with
      | Some b =>
          match flush b with
          | Some (out, b) => option_map (fun r => (out :: r.1, r.2)) (deliver batches b)
          | None => None
          end
      | None => None
      end
  end.

(** C11: a batch owns its packets' bytes. From a new builder, whatever
    packets are added and batches flushed, however often the arena is grown
    or reused, [add] never fails and each flush hands the sink exactly the
    packets added since the last one, in order, with the data and block they
    had when they were added (the ring they were parsed from may have been
    overwritten since). *)
Theorem batches_own cap batches : exists b, deliver batches (newBatchBuilder cap) = Some (batches, b).
Proof.
  assert (H : forall bs b, batch_inv b [] -> exists b', deliver bs b = Some (bs, b')).
  { induction bs as [|ps bs IH]; intros b Hb; [now exists b|]. cbn [deliver].
    destruct (add_all_inv ps b [] Hb) as (b1 & -> & H1). destruct (flush_inv b1 _ H1) as (b2 & -> & H2).
    destruct (IH b2 H2) as (b3 & ->). now exists b3. }
  apply H. split; [|constructor]. exists (repeat 0 cap). split; [reflexivity|]. cbn. lia.
Qed.
End Batch.
