(* ===== verification/RecordBuild.v ===== *)
(** * RecordBuild: from a target and its filters to hook comments

    internal/recordbuild chooses the record layout of a capture target, and
    the hook path of internal/output's WriteBatch renders each packet's
    block with it. Together with [Record] and [PcapNg] this shows that a
    block of a layout [Build] returned always fits its pcapng option. *)

From Stdlib Require Import ZArith Lia Bool Ascii String List.
From stdpp Require Import base list strings numbers option.
From S2P Require Import Prelude GoStd GoBytes HookAbi RawSample ArgExpr ArgFilter Record RecordFacts PcapNg.
Local Open Scope Z_scope.
Local Open Scope go_scope.

(** ** recordbuild.go *)

(** [filter.SetKeyField], [filter.SetFilter] without its map handle. *)
Record SetKeyField := mkSetKeyField {
  sk_FieldName : bytes; sk_FieldOff : Z; sk_FieldSize : Z; sk_ParamName : bytes; sk_ParamIdx : Z; sk_ParamSize : Z;
  sk_ParamSigned : bool; sk_Deref : bool; sk_Offset : Z; sk_ThroughOpaque : bool
}.

Record SetFilter := mkSetFilter {
  sf_SetName : bytes; sf_KeySize : Z; sf_Fields : list SetKeyField; sf_TagWidth : Z; sf_StateOff : Z
}.

Record TargetFilters := mkTargetFilters { Args : list ArgFilter; Sets : list SetFilter }.

(** The parts of [attach.Target] read here. *)
Record Target := mkTarget { Params : list FuncParamInfo; Generated : bool }.

(** The mode is one [ParseMode] returned (the empty string is [ModeNone]). *)
Record Options := mkOptions { OMode : Mode; Explicit : bool; MaxBytes : Z }.

Definition OmittedFields (tf : TargetFilters) : list bytes :=
  flat_map (fun a => if ThroughOpaque a then [ParamName a] else []) (Args tf)
  ++ flat_map (fun s => flat_map (fun k => if sk_ThroughOpaque k then [sk_ParamName k] else []) (sf_Fields s)) (Sets tf).

(** A field without its name, the key of the map [seen]. *)
Definition nameless (f : Field) : Field := mkField [] (FParamIndex f) (FSize f) (FSigned f) (FDeref f) (FPointer f) (FOffset f).

#[global] Instance Field_eq_dec : EqDecision Field.
Proof. solve_decision. Defined.

(** The closure [add]: [seen] is the set of keys already added, which are
    the keys of the fields so far. *)
Definition add_field (f : Field) (opaque : bool) (fs : list Field) : list Field :=
  if opaque || bool_decide (nameless f ∈ map nameless fs) then fs else fs ++ [f].

Definition arg_field (a : ArgFilter) : Field :=
  mkField (ParamName a) (ParamIndex a) (ParamSize a) (Signed a) (Deref a) (Pointer a) (Offset a).

Definition key_field (k : SetKeyField) : Field :=
  mkField (sk_ParamName k) (sk_ParamIdx k) (sk_ParamSize k) (sk_ParamSigned k) (sk_Deref k) false (sk_Offset k).

Definition noScalar : Scalar := mkScalar [] 0 0.
Definition noBytes : Bytes := mkBytes [] 0 false 0 0 None.

Definition buildFilter (tf : TargetFilters) (explicit : bool) : result error (option Layout) :=
  match explicit, OmittedFields tf with
  | true, o :: _ =>
      errf "--record filter: %s is inside a bpf_* struct, which is never recorded; drop that condition, or keep it with --record entry or --record none" [abytes o]
  | _, _ =>
      let fs := fold_left (fun fs a => add_field (arg_field a) (ThroughOpaque a) fs) (Args tf) [] in
      let fs := fold_left (fun fs s => fold_left (fun fs k => add_field (key_field k) (sk_ThroughOpaque k) fs) (sf_Fields s) fs)
                  (Sets tf) fs in
      if (length fs =? 0)%nat then Ok None
      else if MaxFields <? Z.of_nat (length fs) then
        if explicit then errf "--record filter: %d fields, at most %d" [AInt (Z.of_nat (length fs)); AInt MaxFields] else Ok None
      else Ok (Some (mkLayout ModeFilter fs noScalar noScalar noBytes noBytes))
  end.

Section Build.
Context `{Btf}.

Definition entryBytes (p : FuncParamInfo) (maxBytes : Z) : Bytes :=
  if is_empty (PKind p) then
    mkBytes (PName p) (PIndex p) false (PSize p) (if PSize p <=? u32 maxBytes then PSize p else 0) None
  else
    match option_map UnderlyingType (PType p) with
    | Some (TPointer target) =>
        let size :=
          match UnderlyingType target with
          | TVoid => PVoidSize p
          | _ => match Sizeof target with Some size => if 0 <? size then u32 size else 0 | None => 0 end
          end in
        mkBytes (PName p) (PIndex p) true size (Z.min size (u32 maxBytes)) (Some target)
    | _ => mkBytes (PName p) (PIndex p) true 0 0 None
    end.

(** One turn of [buildEntry]'s loop. *)
Definition entry_param (maxBytes : Z) (l : Layout) (p : FuncParamInfo) : Layout :=
  if bool_decide (PName p = B "site") then
    if is_empty (PKind p) && (PSize p =? 4)
    then mkLayout (LMode l) (Fields l) (mkScalar (B "site") (PIndex p) 4) (Status l) (Key l) (Value l) else l
  else if bool_decide (PName p = B "info") then
    if is_empty (PKind p) && (PSize p =? 8) then
      let site := if negb (Scalar_Present (Site l)) then mkScalar (B "info") (PIndex p) 4 else Site l in
      let status := if negb (Scalar_Present (Status l)) then mkScalar (B "info") (PIndex p) 8 else Status l in
      mkLayout (LMode l) (Fields l) site status (Key l) (Value l)
    else l
  else if bool_decide (PName p = B "status") then
    if is_empty (PKind p) && (PSize p =? 8)
    then mkLayout (LMode l) (Fields l) (Site l) (mkScalar (B "status") (PIndex p) 8) (Key l) (Value l) else l
  else if bool_decide (PName p = B "key") then
    mkLayout (LMode l) (Fields l) (Site l) (Status l) (entryBytes p maxBytes) (Value l)
  else if bool_decide (PName p = B "value") then
    mkLayout (LMode l) (Fields l) (Site l) (Status l) (Key l) (entryBytes p maxBytes)
  else l.

Definition emptyEntry : Layout :=
  mkLayout ModeEntry [] (mkScalar [] (-1) 0) (mkScalar [] (-1) 0)
    (mkBytes (B "key") (-1) false 0 0 None) (mkBytes (B "value") (-1) false 0 0 None).

Definition buildEntry (params : list FuncParamInfo) (maxBytes : Z) : result error (option Layout) :=
  if (maxBytes <? 0) || (MaxBytesLimit <? maxBytes) then
    errf "--record-max %d: must be 0..%d" [AInt maxBytes; AInt MaxBytesLimit]
  else
    let l := fold_left (entry_param maxBytes) params emptyEntry in
    if negb (Scalar_Present (Site l)) && negb (Scalar_Present (Status l)) && negb (Bytes_Present (Key l)) && negb (Bytes_Present (Value l))
    then Ok None
    else Ok (Some l).

Definition Build (t : Target) (tf : TargetFilters) (opt : Options) : result error (option Layout) :=
  if bool_decide (OMode opt = ModeNone) then Ok None
  else if negb (Explicit opt) && negb (Generated t) then Ok None
  else
    let? l := if bool_decide (OMode opt = ModeFilter) then buildFilter tf (Explicit opt) else buildEntry (Params t) (MaxBytes opt) in
    match l with
    | None => Ok None
    | Some l =>
        let n := MaxCommentLen l + ReturnPrefixLen in
        if MaxCommentBytes <? n then
          if negb (Explicit opt) then Ok None
          else
            errf "--record %s: worst-case comment %d bytes exceeds %d; %s"
              [AStr (if bool_decide (OMode opt = ModeFilter) then "filter" else "entry"); AInt n; AInt MaxCommentBytes;
               AStr (if bool_decide (OMode opt = ModeEntry) then "lower --record-max" else "filter fewer fields")]
        else Ok (Some l)
    end.
End Build.

(** ** The hook path of the writer *)

(** The parts of [output.Config] read here; [NHooks] is [len(Hooks)]. *)
Record Config := mkConfig { NHooks : Z; NoRunIDs : bool; RecordReturn : bool; Records : list (option Layout) }.

Definition appendHex32 (b : bytes) (v : Z) : bytes :=
  b ++ map (fun shift => hex_digit (Z.land (Z.shiftr v shift) 15)) [28; 24; 20; 16; 12; 8; 4; 0].

Section Writer.
Context `{Btf}.

Definition recordComment (cfg : Config) (p : Packet) : result rcerr bytes :=
  let b := if RecordReturn cfg then appendHex32 (B "return=0x") (Action p) else [] in
  let i := SiteID p - 1 in
  let layout := if i <? 0 then getp None      (* an index of -1 panics *)
                else Ok (nth (Z.to_nat i) (Records cfg) None) in
  let? layout := layout in
  match layout with
  | None =>
      match PRecord p with
      | Some _ => rerrorf "site_id=%d records nothing but carries a record block" [AInt (SiteID p)]
      | None => Ok b
      end
  | Some l =>
      match PRecord p with
      | None => rerrorf "site_id=%d record has no record block" [AInt (SiteID p)]
      | Some r => AppendComment l b r
      end
  end.

Definition codes (b : bytes) : list Z := map ord b.

(** The hook case of [WriteBatch]'s loop: the writer, the bytes counted and
    the error, if any. *)
Definition writeHook (cfg : Config) (p : Packet) (fw : FastNgWriter) : option (FastNgWriter * Z * option rcerr) :=
  if (SiteID p =? 0) || (NHooks cfg <? SiteID p) || ((PacketID p =? 0) && negb (NoRunIDs cfg)) then
    Some (fw, 0, Some (RcErr (Errorf "invalid hook record: site_id=%d packet_id=%d" [AInt (SiteID p); AInt (PacketID p)])))
  else
    match recordComment cfg p with
    | Err e => Some (fw, 0, Some e)
    | Ok comment =>
        match WriteHookPacket (Timestamp p) (PData p) (OrigLen p) (SiteID p - 1) (PacketID p) (codes comment) fw with
        | None => None
        | Some (fw, None) => Some (fw, HookEPBSize (len (PData p)) (negb (PacketID p =? 0)) (len (codes comment)), None)
        | Some (fw, Some e) => Some (fw, 0, Some (RcErr e))
        end
    end.

(** The whole batch: it stops at the first error. *)
Fixpoint writeHooks (cfg : Config) (pkts : list Packet) (batchBytes : Z) (fw : FastNgWriter)
    : option (FastNgWriter * Z * option rcerr) :=
  match pkts with
  | [] => Some (fw, batchBytes, None)
  | p :: pkts =>
      match writeHook cfg p fw with
      | None => None
      | Some (fw, n, None) => writeHooks cfg pkts (u64 (batchBytes + n)) fw
      | Some (fw, _, Some e) => Some (fw, batchBytes, Some e)
      end
  end.
End Writer.

(** ** A built layout's comment fits its option *)

Section Fits.
Context `{Btf}.

Definition params_ok (params : list FuncParamInfo) : Prop := Forall (fun p => 0 <= PSize p /\ 0 <= PVoidSize p) params.

Lemma entryBytes_len p maxBytes : 0 <= PSize p -> 0 <= PVoidSize p -> 0 <= BLen (entryBytes p maxBytes).
Proof.
  intros Hs Hv. assert (Hu : forall z, 0 <= u32 z) by (intros z; now apply Z.mod_pos_bound). unfold entryBytes.
  destruct (is_empty _); [cbn [BLen]; case_goal; lia|].
  destruct (option_map UnderlyingType (PType p)) as [[| | |target| | | | | |]|]; cbn [BLen]; try lia.
  apply Z.min_glb; [|apply Hu].
  destruct (UnderlyingType target); try exact Hv; (destruct (Sizeof target); [case_goal; [apply Hu|lia]|lia]).
Qed.

Lemma entry_param_ok maxBytes l p :
  0 <= PSize p -> 0 <= PVoidSize p -> layout_ok l -> layout_ok (entry_param maxBytes l p).
Proof.
  intros Hs Hv (Hk & Hva & Hsite). pose proof (entryBytes_len p maxBytes Hs Hv) as He.
  assert (Hkeep : layout_ok l) by (unfold layout_ok; auto). unfold entry_param. cbv zeta.
  destruct (bool_decide (PName p = B "site")).
  { destruct (_ && _); [|exact Hkeep]. unfold layout_ok. cbn. auto. }
  destruct (bool_decide (PName p = B "info")).
  { destruct (_ && _); [|exact Hkeep]. unfold layout_ok. cbn [Key Value Site].
    destruct (Scalar_Present (Site l)) eqn:Ep; cbn [negb]; [|cbn]; auto. }
  destruct (bool_decide (PName p = B "status")).
  { destruct (_ && _); [|exact Hkeep]. unfold layout_ok. cbn. auto. }
  destruct (bool_decide (PName p = B "key")); [unfold layout_ok; cbn; auto|].
  destruct (bool_decide (PName p = B "value")); [unfold layout_ok; cbn; auto|exact Hkeep].
Qed.

Lemma buildEntry_ok params maxBytes l :
  params_ok params -> buildEntry params maxBytes = Ok (Some l) -> layout_ok l.
Proof.
  unfold buildEntry. intros Hp Hb. case_if Hb; [discriminate|]. cbv zeta in Hb. case_if Hb; [discriminate|]. injection Hb as <-.
  assert (H0 : layout_ok emptyEntry) by (unfold layout_ok; cbn; splits; try lia; easy).
  clear E E0. revert H0. generalize emptyEntry. induction Hp as [|p ps [Hs Hv] _ IH]; intros l0 Hl0; [exact Hl0|]. cbn [fold_left].
  apply IH. now apply entry_param_ok.
Qed.

Lemma buildFilter_ok tf explicit l : buildFilter tf explicit = Ok (Some l) -> layout_ok l.
Proof.
  unfold buildFilter. intros Hb.
  destruct explicit; [destruct (OmittedFields tf); [|discriminate]|]; cbv zeta in Hb;
    repeat (case_if Hb; try discriminate); injection Hb as <-; unfold layout_ok; cbn; splits; try lia; easy.
Qed.

(** Every layout [Build] returns is within the option limit. *)
Lemma Build_ok t tf opt l :
  params_ok (Params t) -> Build t tf opt = Ok (Some l) -> layout_ok l /\ MaxCommentLen l + ReturnPrefixLen <= MaxCommentBytes.
Proof.
  intros Hp. unfold Build. intros Hb. case_if Hb; [discriminate|]. case_if Hb; [discriminate|].
  apply result_bind_ok in Hb as ([l'|] & Hl & Hb); [|discriminate]. cbv zeta in Hb. case_if Hb; [case_if Hb; discriminate|].
  injection Hb as ->. bools. split; [|lia]. destruct (bool_decide (OMode opt = ModeFilter)); [now apply buildFilter_ok in Hl|now apply buildEntry_ok in Hl].
Qed.

(** The configuration's layouts were built, and the packet's block was
    written for its site's layout. *)
Definition built (o : option Layout) : Prop :=
  match o with
  | None => True
  | Some l => exists t tf opt, params_ok (Params t) /\ Build t tf opt = Ok (Some l)
  end.

Definition record_fits (cfg : Config) (p : Packet) : Prop :=
  match nth (Z.to_nat (SiteID p - 1)) (Records cfg) None with
  | None => PRecord p = None
  | Some l => exists r, PRecord p = Some r /\ Forall byte r /\ CheckBlock l r = Ok tt
  end.

Lemma appendHex32_blen b v : blen (appendHex32 b v) = blen b + 8.
Proof. unfold appendHex32, blen. rewrite length_app. simpl length. lia. Qed.

Lemma recordComment_ok cfg p :
  Forall built (Records cfg) -> 1 <= SiteID p -> record_fits cfg p ->
  exists c, recordComment cfg p = Ok c /\ blen c <= MaxCommentBytes.
Proof.
  intros Hb Hs Hr. unfold recordComment. cbv zeta. replace (SiteID p - 1 <? 0) with false by lia. cbn [result_bind].
  set (prefix := if RecordReturn cfg then _ else _).
  assert (Hpre : blen prefix = 0 \/ blen prefix + 1 = ReturnPrefixLen).
  { unfold prefix. destruct (RecordReturn cfg); [right|now left]. rewrite appendHex32_blen. reflexivity. }
  assert (HR : ReturnPrefixLen = 18) by reflexivity. assert (HM : MaxCommentBytes = 65535) by reflexivity.
  unfold record_fits in Hr. destruct (nth _ (Records cfg) None) as [l|] eqn:El; [|rewrite Hr; exists prefix; split; [reflexivity|lia]].
  destruct Hr as (r & -> & Hby & Hck).
  assert (Hl : built (Some l)).
  { destruct (Nat.lt_ge_cases (Z.to_nat (SiteID p - 1)) (length (Records cfg))) as [Hi|Hi]; [|now rewrite nth_overflow in El].
    rewrite <- El. rewrite List.Forall_forall in Hb. apply Hb. now apply nth_In. }
  destruct Hl as (t & tf & opt & Hps & Hbuild). destruct (Build_ok _ _ _ _ Hps Hbuild) as [Hok Hle].
  destruct (AppendComment_ok l prefix r Hok Hby Hck) as (c & -> & Hbd). exists c. split; [reflexivity|].
  unfold bounded in Hbd. destruct Hbd as (_ & Hn & Hc). pose proof (blen_nonneg prefix). destruct (Z.ltb_spec 0 (blen prefix)); lia.
Qed.

Lemma codes_len c : len (codes c) = blen c.
Proof. unfold codes, len, blen. now rewrite length_map. Qed.

(** C36: recording end to end. For layouts [Build] chose, a packet whose
    block passes its site's [CheckBlock] is always written: the comment
    renders without a panic or error and fits its pcapng option (with the
    [return=] prefix too), the bytes counted are the bytes written, and the
    hook merge reads the block back with its timestamp. *)
Theorem writeHook_recorded cfg p :
  Forall built (Records cfg) -> record_fits cfg p ->
  1 <= SiteID p <= NHooks cfg -> NHooks cfg <= 2 ^ 32 -> (PacketID p = 0 -> NoRunIDs cfg = true) ->
  len (PData p) <= 65535 -> 0 <= Timestamp p < 2 ^ 64 -> 0 <= PacketID p < 2 ^ 64 ->
  exists b,
    (forall fw, (length b <= room fw)%nat ->
       exists fw', writeHook cfg p fw = Some (fw', len b, None) /\ written fw' = written fw ++ b) /\
    forall rest, hookNext (NHooks cfg) (b ++ rest) = Ok (mkItem (Timestamp p) b (negb (PacketID p =? 0)), rest).
Proof.
  intros Hb Hr Hs Hn Hid Hd Hts Hpid. destruct (recordComment_ok cfg p Hb ltac:(lia) Hr) as (c & Hc & Hlen).
  unfold MaxCommentBytes in Hlen. rewrite <- codes_len in Hlen.
  exists (epbBytes (Timestamp p) (PData p) (OrigLen p) (SiteID p - 1) (hookOptions (PacketID p) (codes c))). split.
  - intros fw Hroom. destruct (appends_WriteHookPacket (Timestamp p) (PData p) (OrigLen p) (SiteID p - 1) (PacketID p) (codes c)
      ltac:(lia) Hlen fw) as (fw' & e & Hw & _ & _ & Ha). exists fw'. unfold writeHook.
    replace (_ || _ || _) with false.
    2: { symmetry. destruct (Z.eqb_spec (SiteID p) 0), (Z.ltb_spec (NHooks cfg) (SiteID p)); try lia. cbn [orb].
         destruct (Z.eqb_spec (PacketID p) 0) as [Hz|]; [|reflexivity]. now rewrite (Hid Hz). }
    rewrite Hc, Hw. apply Nat.leb_le in Hroom. rewrite Hroom in Ha. destruct Ha as (-> & Hwr & _). split; [|exact Hwr].
    do 3 f_equal. rewrite epbBytes_len. now apply HookEPBSize_eq.
  - intros rest. apply hookNext_epb; auto; lia.
Qed.
End Fits.

(** *** Witness: a generated hook with a site, a status and a key. *)

Definition sample_target : Target :=
  mkTarget
    [mkParam (B "site") 0 4 false [] [] None false 0 false 0 false;
     mkParam (B "key") 1 8 false (B "ptr-struct") (B "key") (Some (TPointer (TQual None sample_key))) false 0 false 0 false;
     mkParam (B "status") 2 8 false [] [] None false 0 false 0 true] true.

Definition sample_layout : Layout :=
  mkLayout ModeEntry [] (mkScalar (B "site") 0 4) (mkScalar (B "status") 2 8)
    (mkBytes (B "key") 1 true 12 12 (Some (TQual None sample_key))) (mkBytes (B "value") (-1) false 0 0 None).

Definition sample_block : list Z :=
  le 2 36 ++ [1; 2] ++ le 4 7 ++ le 4 9 ++ le 2 12 ++ le 2 0 ++ le 8 (two64 - 2) ++ le 4 5 ++ le 2 65535 ++ le 2 1 ++ le 2 2 ++ le 2 0.

Definition sample_config : Config := mkConfig 1 false true [Some sample_layout].
Definition sample_packet : Packet := mkPacket 1000000007 [1; 2; 3] 1 1 3 3 0 77 1 (Some sample_block).

Lemma writeHook_recorded_witness :
  let _ := strip_btf in
  recordComment sample_config sample_packet = Ok (B "return=0x00000001 site=9 status=0xfffffffffffffffe key->a=5 key->b=-1 key->c=01000200") /\
  exists b, (forall rest, hookNext 1 (b ++ rest) = Ok (mkItem 1000000007 b true, rest)).
Proof.
  intros btf. split; [vm_compute; reflexivity|].
  destruct (writeHook_recorded sample_config sample_packet) as (b & _ & Hb).
  - constructor; [|constructor]. exists sample_target, (mkTargetFilters [] []), (mkOptions ModeEntry true 4096). split.
    + repeat (constructor; [split; vm_compute; discriminate|]). constructor.
    + vm_compute. reflexivity.
  - exists sample_block. split; [reflexivity|]. split; [|vm_compute; reflexivity].
    vm_compute. repeat (constructor; [split; [discriminate|reflexivity]|]). constructor.
  - cbn. lia.
  - cbn. lia.
  - discriminate.
  - vm_compute. discriminate.
  - cbn. lia.
  - cbn. lia.
  - exists b. exact Hb.
Defined.
