(* ===== verification/Ebpf.v ===== *)
(** * Ebpf: what the emitted instructions do

    internal/program and kunai emit eBPF. This file is the machine they are
    written for: the kernel's documented instruction set over registers, a
    512-byte stack, the tracing context, map values and a ring reservation.
    A word is a number or a pointer, so that a program that leaves its
    objects, reads stack it has not written or calls a helper outside its
    contract is stuck. Helpers are code of the kernel: they are the class
    [Kernel], with the documented behaviour of those the sources rely on.

    [exec] runs a fragment. Jumps of the emitted code go forward to a label,
    so a fragment falls through, leaves for a label it does not hold, or
    returns; [exec_app] composes fragments. [Machine] is the program with a
    program counter and resolved labels, and [exec_machine] shows that
    running fragments is what it does. *)

From Stdlib Require Import ZArith Lia Bool Ascii String List.
From stdpp Require Import base list strings numbers option gmap relations.
From S2P Require Import Prelude GoStd GoBytes HookAbi Asm.
Local Open Scope Z_scope.

(** ** State *)

(** The objects a pointer can point into. [Ctx] is the argument array of a
    tracing program; [ValueOf fd key] a map's value, [RingOf fd key] a ring
    buffer found in a map of maps, [Reserved] the open ring reservation. *)
Inductive Region := Stack | Ctx | MapOf (fd : Z) | ValueOf (fd : Z) (key : list Z) | RingOf (fd : Z) (key : list Z) | Reserved.

Inductive val := Num (z : Z) | Ptr (r : Region) (off : Z).

(** A byte of the stack: a byte of a number, or the [k]th of a pointer. *)
Inductive cell := CByte (b : Z) | CPart (v : val) (k : nat).

#[export] Instance Region_eq_dec : EqDecision Region. Proof. solve_decision. Defined.
#[export] Instance val_eq_dec : EqDecision val. Proof. solve_decision. Defined.
#[export] Instance cell_eq_dec : EqDecision cell. Proof. solve_decision. Defined.

(** [words] are the context's arguments (and the return value at an fexit),
    [nargs] how many are arguments; [submitted] the ring records, oldest
    first, with their flags; [clock] counts helper calls. *)
Record st := mkSt {
  regs : gmap Z val; stack : gmap Z cell; words : list Z; nargs : Z; maps : gmap Z (gmap (list Z) (list Z));
  resv : option (list Z); submitted : list (list Z * Z); clock : nat
}.

Definition set_regs (r : gmap Z val) (s : st) : st := mkSt r (stack s) (words s) (nargs s) (maps s) (resv s) (submitted s) (clock s).
Definition set_stack (m : gmap Z cell) (s : st) : st := mkSt (regs s) m (words s) (nargs s) (maps s) (resv s) (submitted s) (clock s).
Definition set_maps (m : gmap Z (gmap (list Z) (list Z))) (s : st) : st :=
  mkSt (regs s) (stack s) (words s) (nargs s) m (resv s) (submitted s) (clock s).
Definition set_resv (b : option (list Z)) (s : st) : st := mkSt (regs s) (stack s) (words s) (nargs s) (maps s) b (submitted s) (clock s).
Definition set_submitted (l : list (list Z * Z)) (s : st) : st := mkSt (regs s) (stack s) (words s) (nargs s) (maps s) (resv s) l (clock s).
Definition set_clock (n : nat) (s : st) : st := mkSt (regs s) (stack s) (words s) (nargs s) (maps s) (resv s) (submitted s) n.

Definition setr (r : Z) (v : val) (s : st) : st := set_regs (<[r := v]> (regs s)) s.

(** [R10] is the frame pointer. *)
Definition getr (r : Z) (s : st) : option val := if r =? RFP then Some (Ptr Stack 0) else regs s !! r.

(** ** Memory *)

Definition peek (off : Z) (n : nat) (m : gmap Z cell) : list (option cell) := map (fun k => m !! (off + Z.of_nat k)) (seq 0 n).
Definition read (off : Z) (n : nat) (m : gmap Z cell) : option (list cell) := mapM id (peek off n m).

Fixpoint write (off : Z) (cs : list cell) (m : gmap Z cell) : gmap Z cell :=
  match cs with
  | [] => m
  | c :: cs => <[off := c]> (write (off + 1) cs m)
  end.

Definition byte_of (c : cell) : option Z := match c with CByte b => Some b | CPart _ _ => None end.

Definition parts (v : val) : list cell := map (CPart v) (seq 0 8).

Definition encode (n : nat) (v : val) : option (list cell) :=
  match v with
  | Num z => Some (map CByte (le n z))
  | Ptr _ _ => if (n =? 8)%nat then Some (parts v) else None
  end.

Definition decode (cs : list cell) : option val :=
  match cs with
  | CPart v _ :: _ => if bool_decide (cs = parts v) then Some v else None
  | _ => option_map (fun l => Num (unle l)) (mapM byte_of cs)
  end.

(** Within the 512 bytes below the frame pointer. *)
Definition in_frame (off : Z) (n : nat) : bool := (-512 <=? off) && (off + Z.of_nat n <=? 0).

Definition value (fd : Z) (key : list Z) (s : st) : option (list Z) := maps s !! fd ≫= fun m => m !! key.

(** The bytes of an object other than the stack and the context. *)
Definition object (r : Region) (s : st) : option (list Z) :=
  match r with
  | ValueOf fd key => value fd key s
  | Reserved => resv s
  | _ => None
  end.

Definition set_object (r : Region) (b : list Z) (s : st) : st :=
  match r with
  | ValueOf fd key => set_maps (<[fd := <[key := b]> (default ∅ (maps s !! fd))]> (maps s)) s
  | Reserved => set_resv (Some b) s
  | _ => s
  end.

(** [n] bytes at a pointer, and writing bytes there. *)
Definition bytes_at (p : val) (n : nat) (s : st) : option (list Z) :=
  match p with
  | Ptr Stack a => if in_frame a n then read a n (stack s) ≫= mapM byte_of else None
  | Ptr r a => if 0 <=? a then object r s ≫= sl (Z.to_nat a) (Z.to_nat a + n) else None
  | Num _ => None
  end.

Definition put_bytes (p : val) (bs : list Z) (s : st) : option st :=
  match p with
  | Ptr Stack a => if in_frame a (length bs) then Some (set_stack (write a (map CByte bs) (stack s)) s) else None
  | Ptr r a =>
      if 0 <=? a then object r s ≫= fun b => option_map (fun b => set_object r b s) (copy_at (Z.to_nat a) bs b) else None
  | Num _ => None
  end.

Definition add_off (p : val) (k : Z) : val := match p with Ptr r o => Ptr r (o + k) | Num z => Num (u64 (z + k)) end.

(** ** The kernel *)

(** Helpers by number, and kernel memory as it is after [n] helper calls
    ([None] faults). *)
Class Kernel := {
  helper : Z -> st -> option st;
  keySize : Z -> nat;
  kmem : nat -> Z -> option Z
}.

Definition clobber_regs (r : gmap Z val) : gmap Z val := delete R1 (delete R2 (delete R3 (delete R4 (delete R5 r)))).

(** The state after a helper: [R0] its result, [R1] to [R5] lost. *)
Definition returned (v : val) (s : st) : st := set_clock (S (clock s)) (set_regs (<[R0 := v]> (clobber_regs (regs s))) s).

Section Machine.
Context `{Kernel}.

Definition kbytes (t : nat) (a : Z) (n : nat) : option (list Z) := mapM (fun k => kmem t (u64 (a + Z.of_nat k))) (seq 0 n).

(** A load through a kernel address is fault-handled: it gives zero. *)
Definition probe_mem (t : nat) (a : Z) (n : nat) : Z := match kbytes t a n with Some l => unle l | None => 0 end.

Definition load_ctx (a : Z) (n : nat) (s : st) : option val :=
  if (0 <=? a) && (a mod 8 =? 0) then option_map (fun w => Num (w mod 256 ^ Z.of_nat n)) (words s !! Z.to_nat (a / 8)) else None.

Definition load (p : val) (n : nat) (s : st) : option val :=
  match p with
  | Num a => Some (Num (probe_mem (clock s) a n))
  | Ptr Stack a => if in_frame a n then read a n (stack s) ≫= decode else None
  | Ptr Ctx a => load_ctx a n s
  | Ptr _ _ => option_map (fun l => Num (unle l)) (bytes_at p n s)
  end.

Definition store (p : val) (n : nat) (v : val) (s : st) : option st :=
  match p, v with
  | Ptr Stack a, _ => if in_frame a n then option_map (fun cs => set_stack (write a cs (stack s)) s) (encode n v) else None
  | _, Num z => put_bytes p (le n z) s
  | _, _ => None
  end.

(** ** Arithmetic *)

Definition s32 (z : Z) : Z := let z := u32 z in if z <? 2 ^ 31 then z else z - 2 ^ 32.

Definition alu64 (op : ALUOp_) (a b : Z) : option Z :=
  match op with
  | Add => Some (u64 (a + b))
  | Sub => Some (u64 (a - b))
  | Mul => Some (u64 (a * b))
  | Div => Some (if b =? 0 then 0 else a / b)
  | Or => Some (Z.lor a b)
  | And => Some (Z.land a b)
  | LSh => Some (u64 (Z.shiftl a (b mod 64)))
  | RSh => Some (Z.shiftr a (b mod 64))
  | Neg => Some (u64 (- a))
  | Mod => Some (if b =? 0 then a else a mod b)
  | Xor => Some (Z.lxor a b)
  | Mov => Some b
  | ArSh => Some (u64 (Z.shiftr (int64_of_u64 a) (b mod 64)))
  | Swap | InvalidALUOp => None
  end.

Definition alu32 (op : ALUOp_) (a b : Z) : option Z :=
  let a := u32 a in
  let b := u32 b in
  match op with
  | LSh => Some (u32 (Z.shiftl a (b mod 32)))
  | RSh => Some (Z.shiftr a (b mod 32))
  | ArSh => Some (u32 (Z.shiftr (s32 a) (b mod 32)))
  | _ => option_map u32 (alu64 op a b)
  end.

(** Byte order conversion of the low [n] bytes on a little-endian host. *)
Definition to_be (n : nat) (a : Z) : Z := unle (rev (le n a)).

Definition alu_val (is64 : bool) (op : ALUOp_) (a b : val) : option val :=
  match op, is64, a, b with
  | Mov, true, _, _ => Some b
  | Add, true, Ptr _ _, Num k => Some (add_off a (int64_of_u64 k))
  | Add, true, Num k, Ptr _ _ => Some (add_off b (int64_of_u64 k))
  | Sub, true, Ptr _ _, Num k => Some (add_off a (- int64_of_u64 k))
  | _, true, Num a, Num b => option_map Num (alu64 op a b)
  | _, false, Num a, Num b => option_map Num (alu32 op a b)
  | _, _, _, _ => None
  end.

Definition cmp64 (op : JumpOp_) (a b : Z) : option bool :=
  match op with
  | JEq => Some (a =? b)
  | JNE => Some (negb (a =? b))
  | JGT => Some (b <? a)
  | JGE => Some (b <=? a)
  | JLT => Some (a <? b)
  | JLE => Some (a <=? b)
  | JSet => Some (negb (Z.land a b =? 0))
  | JSGT => Some (int64_of_u64 b <? int64_of_u64 a)
  | JSGE => Some (int64_of_u64 b <=? int64_of_u64 a)
  | JSLT => Some (int64_of_u64 a <? int64_of_u64 b)
  | JSLE => Some (int64_of_u64 a <=? int64_of_u64 b)
  | Ja | Call | Exit | InvalidJumpOp => None
  end.

(** The low 32 bits compared. *)
Definition cmp32 (op : JumpOp_) (a b : Z) : option bool :=
  match op with
  | JSGT => Some (s32 b <? s32 a)
  | JSGE => Some (s32 b <=? s32 a)
  | JSLT => Some (s32 a <? s32 b)
  | JSLE => Some (s32 a <=? s32 b)
  | _ => cmp64 op (u32 a) (u32 b)
  end.

(** A pointer is not null; two pointers into one object compare by offset. *)
Definition cmp_val (op : JumpOp_) (a b : val) : option bool :=
  match a, b with
  | Num a, Num b => cmp64 op a b
  | Ptr _ _, Num 0 => match op with JEq => Some false | JNE => Some true | _ => None end
  | Ptr r o, Ptr r' o' =>
      if bool_decide (r = r') then match op with JSGT | JSGE | JSLT | JSLE | JSet => None | _ => cmp64 op o o' end else None
  | _, _ => None
  end.

(** ** Instructions *)

Inductive outcome := Next (s : st) | Goto (label : bytes) (s : st) | Done (s : st) | Stuck.

Definition next (o : option st) : outcome := match o with Some s => Next s | None => Stuck end.

Definition operand (i : Instruction) (s : st) : option val :=
  match Source (OpCode i) with
  | ImmSource => Some (Num (u64 (Constant i)))
  | RegSource => getr (Src i) s
  | InvalidSource => None
  end.

Definition put_reg (r : Z) (v : val) (s : st) : option st := if r =? RFP then None else Some (setr r v s).

Definition size_of (i : Instruction) : nat := Z.to_nat (Sizeof (OpSize (OpCode i))).

Definition exec_alu (is64 : bool) (i : Instruction) (s : st) : option st :=
  match ALUOp (OpCode i) with
  | Swap =>
      match getr (Dst i) s with
      | Some (Num a) => put_reg (Dst i) (Num (to_be (Z.to_nat (Constant i / 8)) a)) s
      | _ => None
      end
  | Mov => operand i s ≫= fun b => alu_val is64 Mov b b ≫= fun v => put_reg (Dst i) v s
  | op => operand i s ≫= fun b => getr (Dst i) s ≫= fun a => alu_val is64 op a b ≫= fun v => put_reg (Dst i) v s
  end.

(** Jumps are to labels. *)
Definition take_jump (i : Instruction) (s : st) : outcome := if has_text (Reference i) then Goto (Reference i) s else Stuck.

Definition exec_jump (i : Instruction) (s : st) : outcome :=
  match JumpOp (OpCode i) with
  | Exit => Done s
  | Call => if (Src i =? 0) && (Dst i =? 0) then next (helper (Constant i) s) else Stuck
  | Ja => take_jump i s
  | op =>
      match operand i s ≫= fun b => getr (Dst i) s ≫= fun a => cmp_val op a b with
      | Some true => take_jump i s
      | Some false => Next s
      | None => Stuck
      end
  end.

Definition exec_jump32 (i : Instruction) (s : st) : outcome :=
  match JumpOp (OpCode i) with
  | Exit | Call | Ja => Stuck
  | op =>
      match operand i s, getr (Dst i) s with
      | Some (Num b), Some (Num a) =>
          match cmp32 op a b with Some true => take_jump i s | Some false => Next s | None => Stuck end
      | _, _ => Stuck
      end
  end.

(** An atomic add to memory. *)
Definition atomic_add (i : Instruction) (s : st) : option st :=
  getr (Dst i) s ≫= fun p => getr (Src i) s ≫= fun v => load (add_off p (Offset i)) (size_of i) s ≫= fun old =>
  alu_val true Add old v ≫= fun sum => store (add_off p (Offset i)) (size_of i) sum s.

Definition exec1 (i : Instruction) (s : st) : outcome :=
  match class i with
  | LdClass =>
      if IsDWordLoad i then
        if Src i =? 0 then next (put_reg (Dst i) (Num (u64 (Constant i))) s)
        else if Src i =? PseudoMapFD then next (put_reg (Dst i) (Ptr (MapOf (Constant i)) 0) s)
        else Stuck
      else Stuck
  | LdXClass =>
      if bool_decide (Mode (OpCode i) = MemMode) then
        next (getr (Src i) s ≫= fun p => load (add_off p (Offset i)) (size_of i) s ≫= fun v => put_reg (Dst i) v s)
      else Stuck
  | StClass =>
      if bool_decide (Mode (OpCode i) = MemMode) then
        next (getr (Dst i) s ≫= fun p => store (add_off p (Offset i)) (size_of i) (Num (u64 (Constant i))) s)
      else Stuck
  | StXClass =>
      if bool_decide (Mode (OpCode i) = MemMode) then
        next (getr (Dst i) s ≫= fun p => getr (Src i) s ≫= fun v => store (add_off p (Offset i)) (size_of i) v s)
      else if bool_decide (Mode (OpCode i) = AtomicMode) && (Constant i =? 0) then next (atomic_add i s)
      else Stuck
  | ALU64Class => next (exec_alu true i s)
  | ALUClass => next (exec_alu false i s)
  | JumpClass => exec_jump i s
  | Jump32Class => exec_jump32 i s
  end.

(** ** Fragments *)

(** [pend] is the label a jump is looking for. *)
Fixpoint exec (l : list Instruction) (pend : option bytes) (s : st) : outcome :=
  match l with
  | [] => match pend with None => Next s | Some label => Goto label s end
  | i :: l =>
      if match pend with None => true | Some label => bool_decide (Symbol i = label) end then
        match exec1 i s with
        | Next s => exec l None s
        | Goto label s => exec l (Some label) s
        | o => o
        end
      else exec l pend s
  end.

Lemma exec_app l1 l2 pend s :
  exec (l1 ++ l2) pend s =
  match exec l1 pend s with
  | Next s => exec l2 None s
  | Goto label s => exec l2 (Some label) s
  | o => o
  end.
Proof.
  revert pend s. induction l1 as [|i l1 IH]; intros pend s; cbn [app exec]; [now destruct pend|].
  case_match; [|apply IH]. destruct (exec1 i s); auto.
Qed.

Definition symbols (l : list Instruction) : list bytes := map Symbol l.

(** A jump to a label that is not here passes over the fragment. *)
Lemma exec_skip l label s : label ∉ symbols l -> exec l (Some label) s = Goto label s.
Proof.
  induction l as [|i l IH]; [reflexivity|]. cbn [symbols map exec]. intros Hn. apply not_elem_of_cons in Hn as [Hn Hl].
  rewrite bool_decide_false by congruence. now apply IH.
Qed.

(** ** The machine *)

(** The label table: the first instruction with the symbol. *)
Fixpoint find_label (label : bytes) (l : list Instruction) : option nat :=
  match l with
  | [] => None
  | i :: l => if bool_decide (Symbol i = label) then Some O else option_map S (find_label label l)
  end.

Definition machine_step (prog : list Instruction) (c c' : nat * st) : Prop :=
  exists i, prog !! fst c = Some i /\
    match exec1 i (snd c) with
    | Next s => c' = (S (fst c), s)
    | Goto label s => exists t, find_label label prog = Some t /\ c' = (t, s)
    | _ => False
    end.

(** Every label names one instruction (the loader rejects duplicates). *)
Definition labels_ok (prog : list Instruction) : Prop :=
  forall j k label, label <> [] -> symbols prog !! j = Some label -> symbols prog !! k = Some label -> j = k.

Lemma find_label_at prog k label :
  labels_ok prog -> label <> [] -> symbols prog !! k = Some label -> find_label label prog = Some k.
Proof.
  intros Hok Hl Hk. assert (Hf : exists j, find_label label prog = Some j /\ symbols prog !! j = Some label).
  { clear Hok. revert k Hk. induction prog as [|i l IH]; intros k Hk; [discriminate|]. cbn [find_label].
    destruct (decide (Symbol i = label)) as [E|E].
    - rewrite bool_decide_true by exact E. exists O. split; [reflexivity|]. cbn. now rewrite E.
    - rewrite bool_decide_false by exact E. destruct k as [|k]; [cbn in Hk; congruence|].
      destruct (IH k Hk) as (j & -> & Hj). now exists (S j). }
  destruct Hf as (j & Hf & Hj). rewrite Hf. f_equal. now apply (Hok j k label).
Qed.

(** What the machine has done when a fragment that ends at [fin] has run. *)
Definition reached (prog : list Instruction) (c : nat * st) (fin : nat) (o : outcome) : Prop :=
  let stops t o := exists j i, rtc (machine_step prog) c (j, t) /\ prog !! j = Some i /\ exec1 i t = o in
  match o with
  | Next s => rtc (machine_step prog) c (fin, s)
  | Goto label s =>
      match find_label label prog with
      | Some t => rtc (machine_step prog) c (t, s)
      | None => exists t, stops t o
      end
  | Done _ | Stuck => exists t, stops t o
  end.

Lemma reached_head prog c c' fin o : rtc (machine_step prog) c c' -> reached prog c' fin o -> reached prog c fin o.
Proof.
  intros Hc. destruct o as [s|label s|s|]; cbn [reached].
  - now apply (rtc_trans _ c').
  - destruct (find_label label prog); [now apply (rtc_trans _ c')|].
    intros (t & j & i & Hr & Hi). exists t, j, i. split; [now apply (rtc_trans _ c')|exact Hi].
  - intros (t & j & i & Hr & Hi). exists t, j, i. split; [now apply (rtc_trans _ c')|exact Hi].
  - intros (t & j & i & Hr & Hi). exists t, j, i. split; [now apply (rtc_trans _ c')|exact Hi].
Qed.

Lemma exec1_label i s label t : exec1 i s = Goto label t -> label <> [] /\ t = s.
Proof.
  unfold exec1, exec_jump, exec_jump32, take_jump, next. destruct (Reference i) as [|c r]; cbn [has_text]; intros E;
    repeat (case_match; try discriminate E); injection E as <- <-; now split.
Qed.

(** A fragment entered at its start, or by a jump of [i] at [j] to a label
    the fragment may hold. *)
Lemma exec_reached prog : labels_ok prog -> forall l pre post, prog = pre ++ l ++ post ->
  (forall s, reached prog (length pre, s) (length pre + length l) (exec l None s)) /\
  (forall c s label j i, label <> [] -> rtc (machine_step prog) c (j, s) -> prog !! j = Some i -> exec1 i s = Goto label s ->
     reached prog c (length pre + length l) (exec l (Some label) s)).
Proof.
  intros Hok. induction l as [|i l IH]; intros pre post Hp.
  - cbn [exec length reached]. rewrite Nat.add_0_r. split; [intros s; apply rtc_refl|]. intros c s label j i Hl Hc Hj Hi.
    destruct (find_label label prog) as [t|] eqn:Ef; [|now exists s, j, i].
    eapply rtc_r; [exact Hc|]. exists i. split; [exact Hj|]. cbn [snd]. rewrite Hi. now exists t.
  - assert (Hp' : prog = (pre ++ [i]) ++ l ++ post) by (rewrite <- app_assoc; exact Hp).
    destruct (IH _ _ Hp') as [IH1 IH2]. rewrite length_app in IH1, IH2. cbn [length] in IH1, IH2 |- *.
    replace (length pre + 1 + length l)%nat with (length pre + S (length l))%nat in IH1, IH2 by lia.
    replace (length pre + 1)%nat with (S (length pre)) in IH1 by lia.
    assert (Hi : prog !! length pre = Some i) by (rewrite Hp; apply list_lookup_middle; reflexivity).
    assert (H1 : forall s, reached prog (length pre, s) (length pre + S (length l)) (exec (i :: l) None s)).
    { intros s. cbn [exec]. destruct (exec1 i s) as [t|label t|t|] eqn:Ei.
      - apply (reached_head _ _ (S (length pre), t)); [|apply IH1]. apply rtc_once. exists i. split; [exact Hi|]. cbn [snd]. now rewrite Ei.
      - destruct (exec1_label _ _ _ _ Ei) as [Hl ->]. apply (IH2 _ _ _ (length pre) i); auto. apply rtc_refl.
      - exists s, (length pre), i. split; [apply rtc_refl|now split].
      - exists s, (length pre), i. split; [apply rtc_refl|now split]. }
    split; [exact H1|]. intros c s label j k Hl Hc Hj Hk. destruct (decide (Symbol i = label)) as [E|E].
    + replace (exec (i :: l) (Some label) s) with (exec (i :: l) None s) by (cbn [exec]; now rewrite bool_decide_true by exact E).
      apply (reached_head _ _ (length pre, s)); [|apply H1]. eapply rtc_r; [exact Hc|].
      exists k. split; [exact Hj|]. cbn [snd]. rewrite Hk. exists (length pre). split; [|reflexivity].
      apply find_label_at; auto. unfold symbols. rewrite list_lookup_fmap, Hi. cbn. now rewrite E.
    + cbn [exec]. rewrite bool_decide_false by exact E. now apply (IH2 _ _ _ j k).
Qed.

(** Running a fragment of a program is what the machine does: from its
    first instruction it falls out at its end, arrives at the label it left
    for, or stops where the fragment stopped. *)
Lemma exec_machine prog pre l post s :
  labels_ok prog -> prog = pre ++ l ++ post -> reached prog (length pre, s) (length pre + length l) (exec l None s).
Proof. intros Hok Hp. now apply (proj1 (exec_reached prog Hok l pre post Hp)). Qed.

End Machine.
