(* ===== verification/EbpfFacts.v ===== *)
(** * EbpfFacts: rules for the instructions, and the memory laws

    Registers and stack slots after updates, one rule per instruction
    constructor ([exec] of the instruction in front of a fragment), and the
    tactics that run a fragment symbolically: [step] finds the rule of the
    next instruction, [regs] and [slots] read registers and stack slots. *)

From Stdlib Require Import ZArith Lia Bool Ascii String List.
From stdpp Require Import base list strings numbers option gmap.
From S2P Require Import Prelude GoStd GoBytes HookAbi Asm Ebpf.
Local Open Scope Z_scope.

Lemma int64_u64 k : - two63 <= k < two63 -> int64_of_u64 (u64 k) = k.
Proof.
  unfold int64_of_u64, u64, two63, two64. intros Hk. destruct (Z.ltb_spec k 0).
  - replace (k mod 18446744073709551616) with (k + 18446744073709551616) by (apply (Z.mod_unique_pos _ _ (-1)); lia).
    destruct (Z.ltb_spec (k + 18446744073709551616) 9223372036854775808); lia.
  - rewrite Z.mod_small by lia. destruct (Z.ltb_spec k 9223372036854775808); lia.
Qed.

(** Bytes only keep a number at their width. *)
Lemma le_mod n v : le n (v mod 256 ^ Z.of_nat n) = le n v.
Proof.
  revert v. induction n as [|n IH]; intros v; [reflexivity|]. cbn [le]. replace (Z.of_nat (S n)) with (1 + Z.of_nat n) by lia.
  rewrite Z.pow_add_r, Z.pow_1_r by lia. assert (Hp : 0 < 256 ^ Z.of_nat n) by (apply Z.pow_pos_nonneg; lia).
  rewrite Z.rem_mul_r by lia. f_equal.
  - rewrite (Z.mul_comm 256), Z.mod_add by lia. apply Z.mod_mod. lia.
  - rewrite <- (IH (v / 256)). f_equal. rewrite (Z.mul_comm 256), Z.div_add by lia.
    rewrite (Z.div_small (v mod 256)) by (apply Z.mod_pos_bound; lia). lia.
Qed.

(** ** Registers *)

Lemma getr_same r v s : r <> RFP -> getr r (setr r v s) = Some v.
Proof. intros Hr. unfold getr. apply Z.eqb_neq in Hr as ->. apply lookup_insert_eq. Qed.

Lemma getr_other r r' v s : r <> r' -> getr r (setr r' v s) = getr r s.
Proof. intros Hr. unfold getr. destruct (r =? RFP); [reflexivity|]. cbn [setr set_regs regs]. apply lookup_insert_ne. congruence. Qed.

Lemma getr_fp s : getr RFP s = Some (Ptr Stack 0).
Proof. reflexivity. Qed.

Lemma getr_returned_0 v s : getr R0 (returned v s) = Some v.
Proof. unfold getr. cbn [returned set_clock set_regs regs Z.eqb]. apply lookup_insert_eq. Qed.

Lemma getr_returned r v s : 6 <= r -> getr r (returned v s) = getr r s.
Proof.
  intros Hr. unfold getr. destruct (r =? RFP); [reflexivity|]. cbn [returned set_clock set_regs regs]. unfold clobber_regs, R0, R1, R2, R3, R4, R5.
  rewrite lookup_insert_ne by lia. now rewrite !lookup_delete_ne by lia.
Qed.

Lemma setr_setr r v w s : setr r v (setr r w s) = setr r v s.
Proof. unfold setr, set_regs. cbn. now rewrite insert_insert_eq. Qed.

(** ** The stack *)

Lemma peek_length off n m : length (peek off n m) = n.
Proof. unfold peek. now rewrite length_map, length_seq. Qed.

Lemma peek_S off n m : peek off (S n) m = m !! off :: peek (off + 1) n m.
Proof.
  unfold peek. cbn [seq map]. f_equal; [f_equal; lia|]. rewrite <- seq_shift, map_map. apply map_ext. intros k. f_equal. lia.
Qed.

Lemma peek_app off n k m : peek off (n + k) m = peek off n m ++ peek (off + Z.of_nat n) k m.
Proof.
  revert off. induction n as [|n IH]; intros off.
  - change (peek off k m = peek (off + 0) k m). now rewrite Z.add_0_r.
  - cbn [Nat.add]. rewrite !peek_S, IH. cbn [app]. do 2 f_equal. f_equal. lia.
Qed.

Lemma write_other off cs m a : a < off \/ off + Z.of_nat (length cs) <= a -> write off cs m !! a = m !! a.
Proof.
  revert off. induction cs as [|c cs IH]; intros off Ha; [reflexivity|]. cbn [write length] in *.
  rewrite lookup_insert_ne by lia. apply IH. lia.
Qed.

Lemma peek_write_other off cs m a n :
  a + Z.of_nat n <= off \/ off + Z.of_nat (length cs) <= a -> peek a n (write off cs m) = peek a n m.
Proof.
  revert a. induction n as [|n IH]; intros a Ha; [reflexivity|]. rewrite !peek_S, write_other by lia. f_equal.
  apply IH. destruct n; lia.
Qed.

Lemma peek_insert_below off c a n m : off < a -> peek a n (<[off := c]> m) = peek a n m.
Proof.
  revert a. induction n as [|n IH]; intros a Ha; [reflexivity|]. rewrite !peek_S, lookup_insert_ne by lia. f_equal. apply IH. lia.
Qed.

Lemma peek_write_same off cs m : peek off (length cs) (write off cs m) = map Some cs.
Proof.
  revert off. induction cs as [|c cs IH]; intros off; [reflexivity|]. cbn [length write map].
  rewrite peek_S, lookup_insert_eq, peek_insert_below by lia. now rewrite IH.
Qed.

(** A write inside a window. *)
Lemma peek_write_inside off cs m a n k :
  off = a + Z.of_nat k -> (k + length cs <= n)%nat ->
  peek a n (write off cs m) = take k (peek a n m) ++ map Some cs ++ drop (k + length cs) (peek a n m).
Proof.
  intros -> Hn. replace n with (k + (length cs + (n - k - length cs)))%nat by lia. rewrite !peek_app.
  rewrite (peek_write_other _ _ _ a k) by lia. rewrite peek_write_same.
  rewrite (peek_write_other (a + Z.of_nat k) cs m (a + Z.of_nat k + Z.of_nat (length cs))) by lia.
  rewrite take_app_length' by (symmetry; apply peek_length). f_equal. f_equal.
  rewrite drop_app_ge by (rewrite peek_length; lia). rewrite peek_length. replace (k + length cs - k)%nat with (length cs) by lia.
  now rewrite drop_app_length' by (symmetry; apply peek_length).
Qed.

Lemma read_peek off n m m' : peek off n m = peek off n m' -> read off n m = read off n m'.
Proof. unfold read. now intros ->. Qed.

Lemma mapM_Some_list {A} (l : list A) : mapM id (map Some l) = Some l.
Proof. induction l as [|x l IH]; [reflexivity|]. cbn. now rewrite IH. Qed.

Lemma read_write_other off cs m a n :
  a + Z.of_nat n <= off \/ off + Z.of_nat (length cs) <= a -> read a n (write off cs m) = read a n m.
Proof. intros Ha. now apply read_peek, peek_write_other. Qed.

Lemma read_write_same off cs m n : length cs = n -> read off n (write off cs m) = Some cs.
Proof. intros <-. unfold read. now rewrite peek_write_same, mapM_Some_list. Qed.

Lemma read_app off n k m a b : read off n m = Some a -> read (off + Z.of_nat n) k m = Some b -> read off (n + k) m = Some (a ++ b).
Proof.
  unfold read. rewrite peek_app. intros Ha Hb. apply mapM_Some in Ha, Hb. apply mapM_Some. now apply Forall2_app.
Qed.

Lemma read_split off n k m l : read off (n + k) m = Some l -> read off n m = Some (take n l) /\ read (off + Z.of_nat n) k m = Some (drop n l).
Proof.
  unfold read. rewrite peek_app. intros Hl. apply mapM_Some in Hl. pose proof (peek_length off n m) as Hlen.
  apply Forall2_app_inv_l in Hl as (x & y & Hx & Hy & ->).
  assert (length x = n) as Hxl by (rewrite <- (Forall2_length _ _ _ Hx); exact Hlen).
  rewrite take_app_length', drop_app_length' by (symmetry; exact Hxl). split; now apply mapM_Some.
Qed.

(** ** Words in cells *)

Lemma encode_length n v cs : encode n v = Some cs -> length cs = n.
Proof.
  unfold encode. destruct v as [z|r o]; [intros [= <-]; rewrite length_map; apply le_length|].
  destruct (Nat.eqb_spec n 8); [intros [= <-]; subst; reflexivity|discriminate].
Qed.

Lemma bytes_of_cells l : mapM byte_of (map CByte l) = Some l.
Proof. induction l as [|x l IH]; [reflexivity|]. cbn. now rewrite IH. Qed.

Lemma decode_bytes l : decode (map CByte l) = Some (Num (unle l)).
Proof. unfold decode. destruct l as [|b l]; [reflexivity|]. cbn [map]. change (CByte b :: map CByte l) with (map CByte (b :: l)). now rewrite bytes_of_cells. Qed.

Lemma decode_parts v : decode (parts v) = Some v.
Proof. change (decode (parts v)) with (if bool_decide (parts v = parts v) then Some v else None). now rewrite bool_decide_true. Qed.

Lemma decode_encode_num n z cs : encode n (Num z) = Some cs -> decode cs = Some (Num (z mod 256 ^ Z.of_nat n)).
Proof. cbn [encode]. intros [= <-]. now rewrite decode_bytes, unle_le. Qed.

Lemma decode_encode8 v cs : (forall z, v = Num z -> in_u64 z) -> encode 8 v = Some cs -> decode cs = Some v.
Proof.
  destruct v as [z|r o]; intros Hv.
  - intros E. rewrite (decode_encode_num _ _ _ E). do 2 f_equal. apply Z.mod_small. pose proof (Hv z eq_refl). unfold in_u64, two64 in *. lia.
  - intros [= <-]. apply decode_parts.
Qed.

(** A write to the stack, and reading a word back. *)
Definition wr (a : Z) (cs : list cell) (s : st) : st := set_stack (write a cs (stack s)) s.
Definition ldst (a : Z) (n : nat) (s : st) : option val := read a n (stack s) ≫= decode.

Lemma ldst_wr_same a n cs s : length cs = n -> ldst a n (wr a cs s) = decode cs.
Proof. intros Hn. unfold ldst, wr. cbn [set_stack stack]. now rewrite read_write_same. Qed.

Lemma ldst_wr_other a n b cs s : a + Z.of_nat n <= b \/ b + Z.of_nat (length cs) <= a -> ldst a n (wr b cs s) = ldst a n s.
Proof. intros Hn. unfold ldst, wr. cbn [set_stack stack]. now rewrite read_write_other. Qed.

Lemma ldst_setr a n r v s : ldst a n (setr r v s) = ldst a n s.
Proof. reflexivity. Qed.

Lemma ldst_returned a n v s : ldst a n (returned v s) = ldst a n s.
Proof. reflexivity. Qed.

Lemma getr_wr r a cs s : getr r (wr a cs s) = getr r s.
Proof. reflexivity. Qed.

Lemma getr_set_resv r o s : getr r (set_resv o s) = getr r s.
Proof. reflexivity. Qed.
Lemma ldst_set_resv a n o s : ldst a n (set_resv o s) = ldst a n s.
Proof. reflexivity. Qed.

(** ** Map values *)

Lemma value_set_same fd key b s : value fd key (set_object (ValueOf fd key) b s) = Some b.
Proof. unfold value. cbn [set_object set_maps maps]. rewrite lookup_insert_eq. cbn [mbind option_bind]. apply lookup_insert_eq. Qed.

Lemma value_set_other fd key fd' key' b s : (fd, key) <> (fd', key') -> value fd' key' (set_object (ValueOf fd key) b s) = value fd' key' s.
Proof.
  intros Hn. unfold value. cbn [set_object set_maps maps]. destruct (decide (fd = fd')) as [->|Hf].
  - rewrite lookup_insert_eq. cbn [mbind option_bind]. rewrite lookup_insert_ne by congruence.
    destruct (maps s !! fd') as [m|]; [reflexivity|]. cbn [default]. apply lookup_empty.
  - now rewrite lookup_insert_ne.
Qed.

(** Eight bytes of a value as a number. *)
Definition cell_at (off : Z) (n : nat) (b : list Z) : option Z := if 0 <=? off then rd n (Z.to_nat off) b else None.

Definition put_cell (off : Z) (bs b : list Z) : list Z := take (Z.to_nat off) b ++ bs ++ drop (Z.to_nat off + length bs) b.

Lemma put_cell_length off bs b : 0 <= off -> off + len bs <= len b -> len (put_cell off bs b) = len b.
Proof. unfold put_cell, len. intros Ho Hb. rewrite !length_app, length_take, length_drop. lia. Qed.

Lemma cell_put_same off n v b : 0 <= off -> off + Z.of_nat n <= len b -> cell_at off n (put_cell off (le n v) b) = Some (v mod 256 ^ Z.of_nat n).
Proof.
  intros Ho Hb. unfold len in Hb. unfold cell_at, put_cell. replace (0 <=? off) with true by lia. rewrite rd_app by (rewrite length_take; lia). apply rd_le.
Qed.

Lemma cell_put_other off bs b off' n :
  0 <= off -> 0 <= off' -> off + len bs <= len b -> off' + Z.of_nat n <= off \/ off + len bs <= off' -> cell_at off' n (put_cell off bs b) = cell_at off' n b.
Proof.
  intros Ho Ho' Hb Hn. unfold cell_at. replace (0 <=? off') with true by lia. unfold rd.
  pose proof (put_cell_length off bs b Ho Hb) as Hl. unfold len in Hl, Hb, Hn. replace (length (put_cell off bs b)) with (length b) by lia.
  destruct (_ <=? _)%nat eqn:E; [|reflexivity]. do 2 f_equal. apply Nat.leb_le in E. unfold put_cell. apply list_eq. intros i.
  destruct (Nat.lt_ge_cases i n) as [Hi|Hi]; [|now rewrite !lookup_take_ge].
  rewrite !lookup_take_lt, !lookup_drop by exact Hi. destruct Hn as [Hn|Hn].
  - rewrite lookup_app_l by (rewrite length_take; lia). now rewrite lookup_take_lt by lia.
  - rewrite lookup_app_r by (rewrite length_take; lia). rewrite length_take. rewrite lookup_app_r by lia. rewrite lookup_drop. f_equal. lia.
Qed.

Lemma store_value `{Kernel} fd key o n v b s :
  value fd key s = Some b -> 0 <= o -> o + Z.of_nat n <= len b ->
  store (Ptr (ValueOf fd key) o) n (Num v) s = Some (set_object (ValueOf fd key) (put_cell o (le n v) b) s).
Proof.
  intros Hb Ho Hn. unfold len in Hn. cbn [store put_bytes]. replace (0 <=? o) with true by lia. cbn [object]. rewrite Hb. cbn [mbind option_bind].
  unfold copy_at. rewrite le_length. replace (_ <=? _)%nat with true by (symmetry; apply Nat.leb_le; lia). cbn [option_map].
  unfold put_cell. now rewrite le_length.
Qed.

Lemma load_value `{Kernel} fd key o n b v s :
  value fd key s = Some b -> cell_at o n b = Some v -> load (Ptr (ValueOf fd key) o) n s = Some (Num v).
Proof.
  unfold cell_at, rd, load, bytes_at, sl. intros Hb Hc. destruct (0 <=? o); [|discriminate]. cbn [object]. rewrite Hb. cbn [mbind option_bind].
  destruct (Z.to_nat o + n <=? length b)%nat eqn:E; [|discriminate].
  replace (Z.to_nat o <=? Z.to_nat o + n)%nat with true by (symmetry; apply Nat.leb_le; lia). cbn [andb option_map].
  replace (Z.to_nat o + n - Z.to_nat o)%nat with n by lia. now injection Hc as ->.
Qed.

(** ** One rule per instruction *)

#[local] Arguments alu_val : simpl never.
#[local] Arguments cmp_val : simpl never.

Section Rules.
Context `{Kernel}.
Variables (l : list Instruction) (s : st).

Lemma exec_Mov_Imm dst k : dst <> RFP -> exec (Imm Mov dst k :: l) None s = exec l None (setr dst (Num (u64 k)) s).
Proof. intros Hd. apply Z.eqb_neq in Hd. cbn. unfold exec_alu, put_reg. cbn. now rewrite Hd. Qed.

Lemma exec_Mov_Reg dst src v : dst <> RFP -> getr src s = Some v -> exec (Reg Mov dst src :: l) None s = exec l None (setr dst v s).
Proof. intros Hd Hv. apply Z.eqb_neq in Hd. cbn. unfold exec_alu, put_reg, operand. cbn. rewrite Hv. cbn. now rewrite Hd. Qed.

Lemma exec_Imm op dst k a v :
  op <> Mov -> op <> Swap -> dst <> RFP -> getr dst s = Some a -> alu_val true op a (Num (u64 k)) = Some v ->
  exec (Imm op dst k :: l) None s = exec l None (setr dst v s).
Proof.
  intros Hm Hs Hd Ha Hv. apply Z.eqb_neq in Hd. cbn. unfold exec_alu, put_reg, operand. cbn.
  destruct op; try congruence; rewrite Ha; cbn [mbind option_bind]; rewrite Hv; cbn; now rewrite Hd.
Qed.

Lemma exec_Reg op dst src a b v :
  op <> Mov -> op <> Swap -> dst <> RFP -> getr dst s = Some a -> getr src s = Some b -> alu_val true op a b = Some v ->
  exec (Reg op dst src :: l) None s = exec l None (setr dst v s).
Proof.
  intros Hm Hs Hd Ha Hb Hv. apply Z.eqb_neq in Hd. cbn. unfold exec_alu, put_reg, operand. cbn.
  destruct op; try congruence; rewrite Hb; cbn [mbind option_bind]; rewrite Ha; cbn [mbind option_bind]; rewrite Hv; cbn; now rewrite Hd.
Qed.

Lemma exec_Add_ptr dst k r o :
  dst <> RFP -> - two63 <= k < two63 -> getr dst s = Some (Ptr r o) ->
  exec (Imm Add dst k :: l) None s = exec l None (setr dst (Ptr r (o + k)) s).
Proof. intros Hd Hk Hp. apply (exec_Imm Add dst k (Ptr r o)); auto; try discriminate. cbv [alu_val add_off]. now rewrite int64_u64. Qed.

Lemma exec_JImm op dst k label a b :
  getr dst s = Some a -> cmp_val op a (Num (u64 k)) = Some b -> has_text label = true ->
  exec (JImm op dst k label :: l) None s = if b then exec l (Some label) s else exec l None s.
Proof.
  intros Ha Hc Hl. cbn. unfold exec_jump, operand, take_jump. cbn. rewrite Ha. cbn [mbind option_bind]. rewrite Hl.
  destruct op; try (rewrite Hc; now destruct b); destruct a; cbv [cmp_val] in Hc; cbn in Hc; repeat (case_match; try discriminate).
Qed.

Lemma exec_JReg op dst src label a c b :
  getr dst s = Some a -> getr src s = Some c -> cmp_val op a c = Some b -> has_text label = true ->
  exec (JReg op dst src label :: l) None s = if b then exec l (Some label) s else exec l None s.
Proof.
  intros Ha Hb Hc Hl. cbn. unfold exec_jump, operand, take_jump. cbn. rewrite Hb. cbn [mbind option_bind]. rewrite Ha. cbn [mbind option_bind].
  rewrite Hl. destruct op; try (rewrite Hc; now destruct b); destruct a, c; cbv [cmp_val] in Hc; cbn in Hc; repeat (case_match; try discriminate).
Qed.

Lemma exec_Ja label : has_text label = true -> exec (JaLabel label :: l) None s = exec l (Some label) s.
Proof. intros Hl. cbn. unfold exec_jump, take_jump. cbn. now rewrite Hl. Qed.

Lemma exec_Call fn : exec (BuiltinCall fn :: l) None s = match helper fn s with Some s => exec l None s | None => Stuck end.
Proof. cbn. unfold exec_jump. cbn. now destruct (helper fn s). Qed.

Lemma exec_LoadMapPtr dst fd : dst <> RFP -> exec (LoadMapPtr dst fd :: l) None s = exec l None (setr dst (Ptr (MapOf fd) 0) s).
Proof. intros Hd. apply Z.eqb_neq in Hd. cbn. unfold put_reg. now rewrite Hd. Qed.

Lemma exec_LoadImm dst k : dst <> RFP -> exec (LoadImm dst k :: l) None s = exec l None (setr dst (Num (u64 k)) s).
Proof. intros Hd. apply Z.eqb_neq in Hd. cbn. unfold put_reg. now rewrite Hd. Qed.

Lemma exec_LoadMem dst src off size p v :
  dst <> RFP -> getr src s = Some p -> load (add_off p off) (Z.to_nat (Sizeof size)) s = Some v ->
  exec (LoadMem dst src off size :: l) None s = exec l None (setr dst v s).
Proof. intros Hd Hp Hv. apply Z.eqb_neq in Hd. cbn. rewrite Hp. cbn [mbind option_bind]. unfold size_of. cbn. rewrite Hv. cbn. unfold put_reg. now rewrite Hd. Qed.

Lemma exec_StoreMem dst off src size p v s' :
  getr dst s = Some p -> getr src s = Some v -> store (add_off p off) (Z.to_nat (Sizeof size)) v s = Some s' ->
  exec (StoreMem dst off src size :: l) None s = exec l None s'.
Proof. intros Hp Hv Hs. cbn. rewrite Hp. cbn [mbind option_bind]. rewrite Hv. cbn [mbind option_bind]. unfold size_of. cbn. now rewrite Hs. Qed.

Lemma exec_StoreImm dst off k size p s' :
  getr dst s = Some p -> store (add_off p off) (Z.to_nat (Sizeof size)) (Num (u64 k)) s = Some s' ->
  exec (StoreImm dst off k size :: l) None s = exec l None s'.
Proof. intros Hp Hs. cbn. rewrite Hp. cbn [mbind option_bind]. unfold size_of. cbn. now rewrite Hs. Qed.

(** A jump passes over an instruction without a symbol. *)
Lemma exec_pass i label : has_text label = true -> Symbol i = [] -> exec (i :: l) (Some label) s = exec l (Some label) s.
Proof. intros Hl Hi. cbn [exec]. rewrite Hi. destruct label as [|c label]; [discriminate|]. reflexivity. Qed.

(** The same on the stack. *)
Lemma exec_load_stack dst src off size o v :
  dst <> RFP -> getr src s = Some (Ptr Stack o) -> in_frame (o + off) (Z.to_nat (Sizeof size)) = true ->
  ldst (o + off) (Z.to_nat (Sizeof size)) s = Some v ->
  exec (LoadMem dst src off size :: l) None s = exec l None (setr dst v s).
Proof. intros Hd Hp Hf Hv. apply (exec_LoadMem _ _ _ _ (Ptr Stack o)); auto. cbn. now rewrite Hf. Qed.

Lemma exec_store_stack dst off src size o v cs :
  getr dst s = Some (Ptr Stack o) -> getr src s = Some v -> in_frame (o + off) (Z.to_nat (Sizeof size)) = true ->
  encode (Z.to_nat (Sizeof size)) v = Some cs ->
  exec (StoreMem dst off src size :: l) None s = exec l None (wr (o + off) cs s).
Proof. intros Hp Hv Hf He. apply (exec_StoreMem _ _ _ _ (Ptr Stack o) v); auto. cbn. now rewrite Hf, He. Qed.

Lemma exec_storei_stack dst off k size o :
  getr dst s = Some (Ptr Stack o) -> in_frame (o + off) (Z.to_nat (Sizeof size)) = true ->
  exec (StoreImm dst off k size :: l) None s = exec l None (wr (o + off) (map CByte (le (Z.to_nat (Sizeof size)) (u64 k))) s).
Proof. intros Hp Hf. apply (exec_StoreImm _ _ _ _ (Ptr Stack o)); auto. cbn. now rewrite Hf. Qed.

End Rules.

(** ** Running fragments *)

(** [getr r s = Some ?v] for a register of an updated state. *)
Ltac regs :=
  repeat first [ rewrite getr_same by discriminate | rewrite getr_other by discriminate | rewrite getr_wr | rewrite getr_set_resv
               | rewrite getr_returned_0 | rewrite getr_returned by discriminate | rewrite getr_fp ];
  first [ reflexivity | eassumption ].

(** [ldst a n s = Some ?v] for a slot of an updated state. *)
Ltac slots :=
  cbn [Z.add Z.to_nat Sizeof Pos.to_nat Pos.iter_op Nat.add];
  repeat first [ rewrite ldst_setr | rewrite ldst_returned | rewrite ldst_set_resv
               | rewrite ldst_wr_other by (rewrite ?length_map, ?le_length; cbn; lia)
               | rewrite ldst_wr_same by (rewrite ?length_map, ?le_length; reflexivity) ];
  first [ rewrite decode_bytes, unle_le; reflexivity | rewrite decode_bytes; reflexivity | rewrite decode_parts; reflexivity | eassumption | reflexivity ].

(** The rule of the next instruction. *)
Ltac step :=
  lazymatch goal with
  | |- context [exec (Imm Mov ?d ?k :: _) None _] => rewrite exec_Mov_Imm by discriminate
  | |- context [exec (Reg Mov ?d ?k :: _) None _] => erewrite exec_Mov_Reg; [|discriminate|regs]
  | |- context [exec (LoadMapPtr _ _ :: _) None _] => rewrite exec_LoadMapPtr by discriminate
  | |- context [exec (LoadImm _ _ :: _) None _] => rewrite exec_LoadImm by discriminate
  | |- context [exec (Imm Add _ _ :: _) None _] => erewrite exec_Add_ptr; [|discriminate|easy|regs]
  | |- context [exec (LoadMem _ RFP _ _ :: _) None _] => erewrite exec_load_stack; [|discriminate|regs|reflexivity|slots]
  | |- context [exec (StoreMem RFP _ _ _ :: _) None _] => erewrite exec_store_stack; [|regs|regs|reflexivity|reflexivity]
  | |- context [exec (StoreImm RFP _ _ _ :: _) None _] => erewrite exec_storei_stack; [|regs|reflexivity]
  | |- context [exec (BuiltinCall _ :: _) None _] => rewrite exec_Call
  end.
