(* ===== verification/Helpers.v ===== *)
(** * Helpers: the kernel helpers the emitted code calls

    [Helpers] states what the kernel documents of the helpers the sources
    rely on; every theorem about emitted code is for any kernel that keeps
    it. [demo_kernel] is one that does, for concrete runs. *)

From Stdlib Require Import ZArith Lia Bool Ascii String List.
From stdpp Require Import base list strings numbers option gmap.
From S2P Require Import Prelude GoStd GoBytes HookAbi Asm Ebpf EbpfFacts.
Local Open Scope Z_scope.

(** A failing helper returns a negative errno. *)
Definition failure (e : Z) : Prop := e <> 0 /\ in_u64 e.

Class Helpers `{Kernel} := {
  efault : Z; efault_nonzero : failure efault;
  einval : Z; einval_nonzero : failure einval;

  (** [bpf_map_lookup_elem(map, key)]: the value's address, or NULL. *)
  map_lookup : forall s fd p key m,
    getr R1 s = Some (Ptr (MapOf fd) 0) -> getr R2 s = Some p -> bytes_at p (keySize fd) s = Some key -> maps s !! fd = Some m ->
    helper FnMapLookupElem s =
      Some (returned (match m !! key with Some _ => Ptr (ValueOf fd key) 0 | None => Num 0 end) s);

  (** [bpf_probe_read_kernel(dst, size, src)]: on a fault [dst] is zeroed. *)
  probe_read : forall s dst n a,
    getr R1 s = Some dst -> getr R2 s = Some (Num n) -> getr R3 s = Some (Num a) ->
    helper FnProbeReadKernel s =
      match kbytes (clock s) a (Z.to_nat n) with
      | Some bs => option_map (returned (Num 0)) (put_bytes dst bs s)
      | None => option_map (returned (Num efault)) (put_bytes dst (repeat 0 (Z.to_nat n)) s)
      end;

  (** [bpf_get_func_arg(ctx, n, dst)] *)
  get_func_arg : forall s n dst,
    getr R1 s = Some (Ptr Ctx 0) -> getr R2 s = Some (Num n) -> getr R3 s = Some dst ->
    helper FnGetFuncArg s =
      if n <? nargs s then words s !! Z.to_nat n ≫= fun w => option_map (returned (Num 0)) (put_bytes dst (le 8 w) s)
      else Some (returned (Num einval) s)
}.

(** ** A kernel *)

Section Demo.
Variables (ks : Z -> nat) (mem : nat -> Z -> option Z).

Definition demo_bytes (t : nat) (a : Z) (n : nat) : option (list Z) := mapM (fun k => mem t (u64 (a + Z.of_nat k))) (seq 0 n).

Definition demo_lookup (s : st) : option st :=
  match getr R1 s, getr R2 s with
  | Some (Ptr (MapOf fd) 0), Some p =>
      bytes_at p (ks fd) s ≫= fun key => maps s !! fd ≫= fun m =>
      Some (returned (match m !! key with Some _ => Ptr (ValueOf fd key) 0 | None => Num 0 end) s)
  | _, _ => None
  end.

Definition demo_probe (s : st) : option st :=
  match getr R1 s, getr R2 s, getr R3 s with
  | Some dst, Some (Num n), Some (Num a) =>
      match demo_bytes (clock s) a (Z.to_nat n) with
      | Some bs => option_map (returned (Num 0)) (put_bytes dst bs s)
      | None => option_map (returned (Num (two64 - 14))) (put_bytes dst (repeat 0 (Z.to_nat n)) s)
      end
  | _, _, _ => None
  end.

Definition demo_arg (s : st) : option st :=
  match getr R1 s, getr R2 s, getr R3 s with
  | Some (Ptr Ctx 0), Some (Num n), Some dst =>
      if n <? nargs s then words s !! Z.to_nat n ≫= fun w => option_map (returned (Num 0)) (put_bytes dst (le 8 w) s)
      else Some (returned (Num (two64 - 22)) s)
  | _, _, _ => None
  end.

Definition demo_helper (fn : Z) (s : st) : option st :=
  if fn =? FnMapLookupElem then demo_lookup s
  else if fn =? FnProbeReadKernel then demo_probe s
  else if fn =? FnGetFuncArg then demo_arg s
  else None.

Definition demo_kernel : Kernel := {| helper := demo_helper; keySize := ks; kmem := mem |}.

Definition demo_helpers : @Helpers demo_kernel.
Proof.
  refine (@Build_Helpers demo_kernel (two64 - 14) _ (two64 - 22) _ _ _ _).
  - now vm_compute.
  - now vm_compute.
  - intros s fd p key m H1 H2 Hk Hm. change (demo_lookup s = Some (returned (match m !! key with Some _ => Ptr (ValueOf fd key) 0 | None => Num 0 end) s)).
    unfold demo_lookup. rewrite H1, H2. cbn [keySize demo_kernel] in Hk. rewrite Hk. cbn [mbind option_bind]. now rewrite Hm.
  - intros s dst n a H1 H2 H3. unfold helper, demo_kernel, demo_helper. cbn. unfold demo_probe. now rewrite H1, H2, H3.
  - intros s n dst H1 H2 H3. unfold helper, demo_kernel, demo_helper. cbn. unfold demo_arg. now rewrite H1, H2, H3.
Defined.
End Demo.
