(* ===== verification/Gate.v ===== *)
(** * Gate: the argument and set filters of a capture program
    (internal/program: buildArgFilter, emitSetFilters and what they call,
    with the snapshots of record.go)

    The functions that emit the front of every capture program: reading an
    argument, a pointer argument or a member behind one, comparing it,
    snapshotting it for the record, building a set's key, looking it up and
    taking its tag. They are the source's instruction lists; [GateFacts]
    shows what running them does. *)

From Stdlib Require Import ZArith Lia Bool Ascii String List.
From stdpp Require Import base list strings numbers option gmap.
From S2P Require Import Prelude GoStd GoBytes HookAbi ArgFilter Record RecordBuild Asm.
Local Open Scope Z_scope.

Definition exit_label : bytes := B "exit".

Definition argMemberTmp : Z := -128.
Definition setKeyBase : Z := -120.
Definition tagSlot : Z := -8.

(** ** Loads *)

Definition asmSizeFor (n : Z) : Size_ := if n =? 1 then Byte else if n =? 2 then Half else if n =? 4 then Word else DWord.

Definition emitArgLoad (dst base offset size : Z) (signed : bool) : list Instruction :=
  LoadMem dst base offset (asmSizeFor size)
  :: if signed && (size <? 8) then
       let shift := i32 (u32 (u32 (8 - size) * 8)) in [Imm LSh dst shift; Imm ArSh dst shift]
     else [].

Definition emitIntArgLoad (base index offset size : Z) (signed : bool) : list Instruction :=
  if negb (offset =? 0) then [LoadMem R3 base (i16 (index * 8)) DWord; Imm RSh R3 (i32 (u32 (offset * 8)))]
  else emitArgLoad R3 base (i16 (index * 8)) size signed.

Definition emitArgPointerLoad (index : Z) (fail : bytes) : list Instruction :=
  [LoadMem R1 RFP (-48) DWord;
   Imm Mov R2 (i32 index);
   StoreImm RFP argMemberTmp 0 Word;
   StoreImm RFP (argMemberTmp + 4) 0 Word;
   Reg Mov R3 RFP;
   Imm Add R3 argMemberTmp;
   BuiltinCall FnGetFuncArg;
   JImm JNE R0 0 fail;
   LoadMem R3 RFP argMemberTmp DWord].

Definition emitArgMemberLoad (index offset size : Z) (signed : bool) (fail : bytes) : list Instruction :=
  emitArgPointerLoad index fail
  ++ [JImm JEq R3 0 fail;
      Imm Add R3 (i32 offset);
      Reg Mov R1 RFP;
      Imm Add R1 argMemberTmp;
      Imm Mov R2 (i32 size);
      BuiltinCall FnProbeReadKernel;
      JImm JNE R0 0 fail]
  ++ emitArgLoad R3 RFP argMemberTmp size signed.

(** [tracing args ptr] *)
Definition load_args : Instruction := LoadMem R2 RFP (-48) DWord.

(** ** Comparisons *)

Definition appendCmpJump (op : JumpOp_) (value : Z) : list Instruction :=
  if value <=? 0x7FFFFFFF then [JImm op R3 (i32 value) exit_label]
  else [LoadImm R4 (i64 value); JReg op R3 R4 exit_label].

Definition emitArgCompare (f : ArgFilter) : list Instruction :=
  let jLT := if Signed f then JSLT else JLT in
  let jGT := if Signed f then JSGT else JGT in
  match Op f with
  | OpEqual => appendCmpJump JNE (ArgFilter.Value f)
  | OpNotEqual => appendCmpJump JEq (ArgFilter.Value f)
  | OpGreaterEqual => appendCmpJump jLT (ArgFilter.Value f)
  | OpLessEqual => appendCmpJump jGT (ArgFilter.Value f)
  | OpRange => appendCmpJump jLT (ArgFilter.Value f) ++ appendCmpJump jGT (MaxValue f)
  end.

(** ** Snapshots *)

Record fieldSnap := mkSnap { sn_fd : Z; sn_key : Z; sn_layout : Layout }.

(** [fieldSnap.off], nil included. *)
Definition snap_off (snap : option fieldSnap) (paramIndex : Z) (deref pointer : bool) (offset size : Z) (signed : bool) : Z :=
  match snap with
  | None => -1
  | Some s =>
      let i := FieldIndex (sn_layout s) paramIndex deref pointer offset size signed in
      if i <? 0 then -1 else i16 (8 * i)
  end.

Definition snap_lookup (fd key : Z) : list Instruction :=
  [StoreImm RFP (-16) key Word;
   LoadMapPtr R1 fd;
   Reg Mov R2 RFP; Imm Add R2 (-16);
   BuiltinCall FnMapLookupElem;
   JImm JEq R0 0 exit_label].

Definition emitSnapStore (fd key off : Z) : list Instruction :=
  StoreMem RFP argMemberTmp R3 DWord
  :: snap_lookup fd key
  ++ [LoadMem R3 RFP argMemberTmp DWord;
      StoreMem R0 off R3 DWord;
      load_args].

Definition emitSnapLoad (fd key off : Z) : list Instruction :=
  snap_lookup fd key ++ [LoadMem R3 R0 off DWord; load_args].

(** ** Argument filters *)

(** One turn of [buildArgFilter]'s loop. *)
Definition arg_filter_step (f : ArgFilter) : list Instruction :=
  (if Pointer f then emitArgPointerLoad (ParamIndex f) exit_label ++ [load_args]
   else if Deref f then emitArgMemberLoad (ParamIndex f) (ArgFilter.Offset f) (ParamSize f) (Signed f) exit_label ++ [load_args]
   else emitIntArgLoad R2 (ParamIndex f) (ArgFilter.Offset f) (ParamSize f) (Signed f))
  ++ emitArgCompare f.

(** [field], the key of [groups]. *)
Record field := mkFieldKey { fk_index : Z; fk_deref : bool; fk_ptr : bool; fk_offset : Z; fk_size : Z; fk_signed : bool }.

#[export] Instance field_eq_dec : EqDecision field. Proof. solve_decision. Defined.

Definition field_of (f : ArgFilter) : field := mkFieldKey (ParamIndex f) (Deref f) (Pointer f) (ArgFilter.Offset f) (ParamSize f) (Signed f).

(** [groups] in the order of [order]: each field with its representative and
    its conditions. *)
Record group := mkGroup { g_rep : ArgFilter; g_conds : list ArgFilter }.

Fixpoint add_cond (f : ArgFilter) (gs : list (field * group)) : list (field * group) :=
  match gs with
  | [] => [(field_of f, mkGroup f [f])]
  | (k, g) :: gs =>
      if bool_decide (k = field_of f) then (k, mkGroup (g_rep g) (g_conds g ++ [f])) :: gs else (k, g) :: add_cond f gs
  end.

Definition group_filters (filters : list ArgFilter) : list (field * group) := fold_left (fun gs f => add_cond f gs) filters [].

(** One turn of the loop over [order]. *)
Definition group_step (snap : fieldSnap) (g : group) : list Instruction :=
  let f := g_rep g in
  let off := snap_off (Some snap) (ParamIndex f) (Deref f) (Pointer f) (ArgFilter.Offset f) (ParamSize f) (Signed f) in
  (if Pointer f then emitArgPointerLoad (ParamIndex f) exit_label
   else if Deref f then emitArgMemberLoad (ParamIndex f) (ArgFilter.Offset f) (ParamSize f) (Signed f) exit_label
   else emitIntArgLoad R2 (ParamIndex f) (ArgFilter.Offset f) (ParamSize f) (Signed f))
  ++ (if 0 <=? off then emitSnapStore (sn_fd snap) (sn_key snap) off else [load_args])
  ++ flat_map emitArgCompare (g_conds g).

Definition buildRecordingArgFilter (filters : list ArgFilter) (snap : fieldSnap) : list Instruction :=
  load_args :: flat_map (fun kg => group_step snap (snd kg)) (group_filters filters).

Definition buildArgFilter (filters : list ArgFilter) (snap : option fieldSnap) : list Instruction :=
  match filters, snap with
  | [], _ => []
  | _, Some snap => buildRecordingArgFilter filters snap
  | _, None => load_args :: flat_map arg_filter_step filters
  end.

(** ** Set filters *)

Definition emitTagSlotZero : list Instruction := [Imm Mov R3 0; StoreMem RFP tagSlot R3 DWord].

Definition emitSetLookup (mapFD keyOff tagSize stateOff : Z) : list Instruction :=
  [LoadMapPtr R1 mapFD;
   Reg Mov R2 RFP;
   Imm Add R2 (i32 keyOff);
   BuiltinCall FnMapLookupElem;
   JImm JEq R0 0 exit_label]
  ++ (if 0 <=? stateOff then [LoadMem R1 R0 (i16 stateOff) Byte; JImm JNE R1 0 exit_label] else [])
  ++ (if (tagSize =? 1) || (tagSize =? 2) || (tagSize =? 4) || (tagSize =? 8)
      then [LoadMem R1 R0 0 (asmSizeFor (u32 tagSize))] else [Imm Mov R1 0])
  ++ [StoreMem RFP tagSlot R1 DWord].

(** The loop of [keyHasGaps] from [covered] on. *)
Fixpoint gaps_from (covered keySize : Z) (fs : list SetKeyField) : bool :=
  match fs with
  | [] => negb (covered =? keySize)
  | f :: fs => if negb (sk_FieldOff f =? covered) then true else gaps_from (u32 (covered + sk_FieldSize f)) keySize fs
  end.

Definition keyHasGaps (s : SetFilter) : bool := gaps_from 0 (sf_KeySize s) (sf_Fields s).

(** [for off := 0; off < KeySize; off += 8] *)
Fixpoint key_zeroes (fuel : nat) (off keySize : Z) : list Instruction :=
  match fuel with
  | O => []
  | S fuel =>
      if off <? keySize then StoreMem RFP (i16 (setKeyBase + off)) R3 DWord :: key_zeroes fuel (off + 8) keySize else []
  end.

Definition key_zeroing (s : SetFilter) : list Instruction :=
  if keyHasGaps s then Imm Mov R3 0 :: key_zeroes (S (Z.to_nat (sf_KeySize s))) 0 (sf_KeySize s) else [].

(** [snap.off] of a key field. *)
Definition key_off (snap : option fieldSnap) (f : SetKeyField) : Z :=
  snap_off snap (sk_ParamIdx f) (sk_Deref f) false (sk_Offset f) (sk_ParamSize f) (sk_ParamSigned f).

(** One turn of the loop over a set's fields; [written] are the slots that
    hold their read. *)
Definition key_field_step (snap : option fieldSnap) (f : SetKeyField) (written : gset Z) : list Instruction * gset Z :=
  let off := key_off snap f in
  let reuse := (0 <=? off) && bool_decide (off ∈ written) in
  let fd := match snap with Some s => sn_fd s | None => 0 end in
  let key := match snap with Some s => sn_key s | None => 0 end in
  ((if reuse then emitSnapLoad fd key off
    else if sk_Deref f
    then emitArgMemberLoad (sk_ParamIdx f) (sk_Offset f) (sk_ParamSize f) (sk_ParamSigned f) exit_label ++ [load_args]
    else emitIntArgLoad R2 (sk_ParamIdx f) (sk_Offset f) (sk_ParamSize f) (sk_ParamSigned f))
   ++ (if (0 <=? off) && negb (bool_decide (off ∈ written)) then emitSnapStore fd key off else [])
   ++ [StoreMem RFP (i16 (setKeyBase + sk_FieldOff f)) R3 (asmSizeFor (sk_FieldSize f))],
   if (0 <=? off) && negb (bool_decide (off ∈ written)) then {[ off ]} ∪ written else written).

Fixpoint key_fields (snap : option fieldSnap) (fs : list SetKeyField) (written : gset Z) : list Instruction * gset Z :=
  match fs with
  | [] => ([], written)
  | f :: fs =>
      let '(code, written) := key_field_step snap f written in
      let '(rest, written) := key_fields snap fs written in (code ++ rest, written)
  end.

Section Sets.
(** [setMapFD(s.Map)] *)
Variable setMapFD : SetFilter -> Z.

Fixpoint emitSetFilters (sets : list SetFilter) (snap : option fieldSnap) (written : gset Z) : list Instruction :=
  match sets with
  | [] => []
  | s :: sets =>
      let '(fields, written) := key_fields snap (sf_Fields s) written in
      key_zeroing s ++ [load_args] ++ fields
      ++ emitSetLookup (setMapFD s) setKeyBase (sf_TagWidth s) (sf_StateOff s)
      ++ emitSetFilters sets snap written
  end.

(** The slots [buildFilterBody] marks as read by the argument filters. *)
Fixpoint arg_written (snap : option fieldSnap) (args : list ArgFilter) : gset Z :=
  match args with
  | [] => ∅
  | f :: args =>
      let off := snap_off snap (ParamIndex f) (Deref f) (Pointer f) (ArgFilter.Offset f) (ParamSize f) (Signed f) in
      if 0 <=? off then {[ off ]} ∪ arg_written snap args else arg_written snap args
  end.

(** The part of [buildFilterBody] before the packet filter. *)
Definition arg_gate (tf : TargetFilters) (snap : option fieldSnap) : list Instruction :=
  emitTagSlotZero ++ buildArgFilter (Args tf) snap ++ emitSetFilters (Sets tf) snap (arg_written snap (Args tf)).
End Sets.
