(* ===== verification/GateFacts.v ===== *)
(** * GateFacts: what the emitted filters decide

    For any kernel that keeps [Helpers]: the emitted argument filters fall
    through exactly when every condition [passes] on the value its field has
    when it is read, and otherwise leave for [exit]; nothing but the scratch
    slots and [R0] to [R5] changes. *)

From Stdlib Require Import ZArith Lia Bool Ascii String List.
From stdpp Require Import base list strings numbers option gmap.
From S2P Require Import Prelude GoStd GoBytes HookAbi ArgExpr ArgFilter Record RecordBuild Asm Ebpf EbpfFacts Helpers Gate.
Local Open Scope Z_scope.

(** ** What a fragment leaves alone *)

(** [n] bytes at [a] outside every window. *)
Definition apart (a : Z) (n : nat) (w : list (Z * Z)) : Prop := Forall (fun '(lo, hi) => a + Z.of_nat n <= lo \/ hi <= a) w.

Record frame (w : list (Z * Z)) (s s' : st) : Prop := mkFrame {
  fr_regs : forall r, 6 <= r -> getr r s' = getr r s;
  fr_stack : forall a n, apart a n w -> peek a n (stack s') = peek a n (stack s);
  fr_words : words s' = words s;
  fr_nargs : nargs s' = nargs s;
  fr_resv : resv s' = resv s;
  fr_submitted : submitted s' = submitted s
}.

Lemma frame_refl w s : frame w s s.
Proof. now split. Qed.

Lemma frame_trans w s1 s2 s3 : frame w s1 s2 -> frame w s2 s3 -> frame w s1 s3.
Proof.
  intros [R1 S1 W1 N1 V1 U1] [R2 S2 W2 N2 V2 U2]. split; try congruence.
  - intros r Hr. now rewrite R2, R1.
  - intros a n Ha. now rewrite S2, S1.
Qed.

Lemma frame_incl w w' s s' : w ⊆ w' -> frame w s s' -> frame w' s s'.
Proof. intros Hw [R S W N V U]. split; auto. intros a n Ha. apply S. unfold apart in *. rewrite Forall_forall in *. intros x Hx. apply Ha, Hw, Hx. Qed.

Lemma frame_setr w r v s : r < 6 -> frame w s (setr r v s).
Proof. intros Hr. split; try reflexivity. intros r' Hr'. apply getr_other. lia. Qed.

Lemma frame_returned w v s : frame w s (returned v s).
Proof. split; try reflexivity. intros r Hr. now apply getr_returned. Qed.

Lemma frame_wr w a cs s : (exists lo hi, (lo, hi) ∈ w /\ lo <= a /\ a + Z.of_nat (length cs) <= hi) -> frame w s (wr a cs s).
Proof.
  intros (lo & hi & Hin & Hlo & Hhi). split; try reflexivity. intros b n Hb. cbn [wr set_stack stack]. apply peek_write_other.
  unfold apart in Hb. rewrite Forall_forall in Hb. specialize (Hb _ Hin). cbn in Hb. lia.
Qed.

Lemma ldst_frame w a n s s' : frame w s s' -> apart a n w -> ldst a n s' = ldst a n s.
Proof. intros F Ha. unfold ldst. now rewrite (read_peek a n _ (stack s) (fr_stack _ _ _ F a n Ha)). Qed.

(** The fragment's own updates, innermost last; a store is in one of the
    windows. *)
Ltac in_window :=
  first [ do 2 eexists; split; [left|cbn; rewrite ?length_map, ?le_length; lia]
        | do 2 eexists; split; [right; left|cbn; rewrite ?length_map, ?le_length; lia]
        | do 2 eexists; split; [right; right; left|cbn; rewrite ?length_map, ?le_length; lia]
        | do 2 eexists; split; [right; right; right; left|cbn; rewrite ?length_map, ?le_length; lia] ].

Ltac frame_steps :=
  repeat first
    [ apply frame_refl
    | lazymatch goal with |- frame _ _ (setr _ _ ?t) => apply (frame_trans _ _ t); [|apply frame_setr; reflexivity] end
    | lazymatch goal with |- frame _ _ (returned _ ?t) => apply (frame_trans _ _ t); [|apply frame_returned] end
    | lazymatch goal with |- frame _ _ (wr _ _ ?t) =>
        apply (frame_trans _ _ t); [|apply frame_wr; in_window] end ].

(** ** The values of fields *)

Definition args_saved (s : st) : Prop := ldst (-48) 8 s = Some (Ptr Ctx 0).

(** Every context word is a u64, and the arguments are there. *)
Definition ctx_ok (s : st) : Prop := Forall in_u64 (words s) /\ nargs s <= Z.of_nat (length (words s)).

(** [bpf_get_func_arg]'s value. *)
Definition arg (idx : Z) (s : st) : option Z := if idx <? nargs s then words s !! Z.to_nat idx else None.

Section Facts.
Context `{HK : Helpers}.

Lemma frame_arg w s s' idx : frame w s s' -> arg idx s' = arg idx s.
Proof. intros F. unfold arg. now rewrite (fr_nargs _ _ _ F), (fr_words _ _ _ F). Qed.

(** The window of [argMemberTmp]. *)
Definition tmp : list (Z * Z) := [(-128, -120)].

Lemma frame_args w s s' : frame w s s' -> apart (-48) 8 w -> args_saved s -> args_saved s'.
Proof. intros F Ha Hs. unfold args_saved. now rewrite (ldst_frame w _ _ s s' F Ha). Qed.

Lemma exec_pointer l idx fail s :
  args_saved s -> 0 <= idx < 2 ^ 31 -> has_text fail = true -> ctx_ok s ->
  exists s',
    exec (emitArgPointerLoad idx fail ++ l) None s =
      match arg idx s with Some _ => exec l None s' | None => exec l (Some fail) s' end /\
    (forall w, arg idx s = Some w -> getr R3 s' = Some (Num w)) /\
    frame tmp s s' /\ maps s' = maps s /\ clock s' = S (clock s).
Proof.
  intros Hargs Hi Hf [Hw Hn]. unfold emitArgPointerLoad, argMemberTmp. cbn [app].
  assert (Ei : i32 idx = idx) by (apply i32_small; lia). rewrite Ei.
  do 7 step. erewrite get_func_arg; [|regs|regs|regs].
  match goal with |- context [nargs ?u] => set (t := u) end.
  assert (Ft : frame tmp s t) by (unfold t; frame_steps).
  change (nargs t) with (nargs s). change (words t) with (words s). rewrite u64_small by (unfold in_u64, two64; lia).
  unfold arg. destruct (idx <? nargs s) eqn:Hlt.
  - destruct (lookup_lt_is_Some_2 (words s) (Z.to_nat idx)) as [w Hwi]; [lia|]. rewrite Hwi. cbn [mbind option_bind].
    assert (Hu : in_u64 w) by (eapply Forall_lookup_1; eauto).
    change (put_bytes (Ptr Stack (0 + -128)) (le 8 w) t) with (Some (wr (-128) (map CByte (le 8 w)) t)). cbn [option_map].
    erewrite exec_JImm; [|regs|reflexivity|exact Hf]. cbn [negb Z.eqb]. step.
    eexists. split; [reflexivity|]. split; [|split; [|split; reflexivity]].
    + intros w' [= <-]. rewrite getr_same by discriminate. do 2 f_equal. apply Z.mod_small. exact Hu.
    + apply (frame_trans _ _ t); [exact Ft|]. frame_steps.
  - destruct einval_nonzero as [Hz Hu]. erewrite exec_JImm; [|regs| |exact Hf].
    2: { cbv [cmp_val cmp64]. change (u64 0) with 0. rewrite (proj2 (Z.eqb_neq _ _) Hz). reflexivity. }
    cbn [negb]. exists (returned (Num einval) t). split; [|split; [discriminate|split; [|split; reflexivity]]].
    + now rewrite exec_pass.
    + apply (frame_trans _ _ t); [exact Ft|]. frame_steps.
Qed.

(** Loading a value of a given width. *)
Lemma size_bytes size : access_size size -> Z.to_nat (Sizeof (asmSizeFor size)) = Z.to_nat size /\ 1 <= size <= 8.
Proof. intros [->|[->|[->| ->]]]; split; easy. Qed.

Lemma widen_shift size x :
  access_size size -> size < 8 -> 0 <= x < 2 ^ (8 * size) ->
  u64 (Z.shiftr (int64_of_u64 (u64 (Z.shiftl x (8 * (8 - size))))) (8 * (8 - size))) = widen size true x.
Proof.
  intros Hs H8 Hx. pose proof (proj2 (size_bytes size Hs)) as Hr. unfold widen. cbn [andb]. rewrite Z.shiftl_mul_pow2, Z.shiftr_div_pow2 by lia.
  assert (E : 2 ^ (8 * size) * 2 ^ (8 * (8 - size)) = two64) by (rewrite <- Z.pow_add_r by lia; now replace (8 * size + 8 * (8 - size)) with 64 by lia).
  assert (E2 : 2 * 2 ^ (8 * size - 1) = 2 ^ (8 * size)) by (rewrite <- Z.pow_succ_r by lia; f_equal; lia).
  assert (Hp : 0 < 2 ^ (8 * (8 - size))) by (apply Z.pow_pos_nonneg; lia).
  set (p := 2 ^ (8 * (8 - size))) in *. set (h := 2 ^ (8 * size - 1)) in *. rewrite <- E2 in *.
  rewrite (u64_small (x * p)) by (unfold in_u64; nia). unfold int64_of_u64.
  assert (Et : two63 = h * p) by (unfold two64, two63 in *; lia).
  destruct (Z.leb_spec h x) as [Hh|Hh].
  - replace (x * p <? two63) with false by (symmetry; apply Z.ltb_ge; nia).
    replace (x * p - two64) with ((x - 2 * h) * p) by nia. now rewrite Z.div_mul by lia.
  - replace (x * p <? two63) with true by (symmetry; apply Z.ltb_lt; nia). rewrite Z.div_mul by lia. apply u64_small. unfold in_u64. nia.
Qed.

Lemma exec_arg_load l dst base off size signed p x s :
  access_size size -> dst <> RFP -> getr base s = Some p ->
  load (add_off p off) (Z.to_nat size) s = Some (Num x) -> 0 <= x < 2 ^ (8 * size) ->
  exec (emitArgLoad dst base off size signed ++ l) None s = exec l None (setr dst (Num (widen size signed x)) s).
Proof.
  intros Hs Hd Hp Hl Hx. destruct (size_bytes size Hs) as [Es Hr]. unfold emitArgLoad. cbn [app].
  erewrite exec_LoadMem; [|exact Hd|exact Hp|rewrite Es; exact Hl].
  destruct (signed && (size <? 8)) eqn:E.
  - apply andb_prop in E as [-> E]. cbn [app].
    assert (Ek : i32 (u32 (u32 (8 - size) * 8)) = 8 * (8 - size)) by (destruct Hs as [->|[->|[->| ->]]]; reflexivity). rewrite Ek.
    assert (Em : u64 (8 * (8 - size)) mod 64 = 8 * (8 - size)) by (destruct Hs as [->|[->|[->| ->]]]; easy).
    erewrite exec_Imm; [|discriminate|discriminate|exact Hd|now apply getr_same|reflexivity].
    erewrite exec_Imm; [|discriminate|discriminate|exact Hd|now apply getr_same|reflexivity].
    rewrite !setr_setr. do 3 f_equal. rewrite Em. now rewrite widen_shift by (auto; lia).
  - replace (widen size signed x) with x; [reflexivity|]. unfold widen. destruct signed; [|reflexivity]. cbn [andb] in *.
    assert (size = 8) as -> by lia. change (2 ^ (8 * 8)) with two64 in *. destruct (_ <=? x); [|reflexivity].
    unfold u64. apply (Z.mod_unique_pos _ _ (-1)); unfold two64 in *; lia.
Qed.

(** The bytes of a field as a number, read when [t] helpers have been called;
    [None] when there is no such argument, the pointer is NULL or the read
    faults. *)
Definition raw (k : field) (s : st) (t : nat) : option Z :=
  if fk_ptr k then arg (fk_index k) s
  else if fk_deref k then
    match arg (fk_index k) s with
    | Some p => if p =? 0 then None else option_map unle (kbytes (S t) (u64 (p + fk_offset k)) (Z.to_nat (fk_size k)))
    | None => None
    end
  else option_map (fun w => (w / 2 ^ (8 * fk_offset k)) mod 2 ^ (8 * fk_size k)) (words s !! Z.to_nat (fk_index k)).

(** The helpers a successful read calls. *)
Definition ticks (k : field) : nat := if fk_ptr k then 1 else if fk_deref k then 2 else 0.

(** Fields as resolution makes them: a loadable size; a pointer is compared
    whole; a part of an argument (status.flags) is unsigned and ends at the
    top of its word. *)
Definition field_ok (k : field) (s : st) : Prop :=
  access_size (fk_size k) /\ 0 <= fk_index k < 4096 /\ 0 <= fk_offset k < 2 ^ 31 /\
  (fk_ptr k = true -> fk_size k = 8 /\ fk_signed k = false) /\
  (fk_ptr k = false -> fk_deref k = false ->
     fk_index k < Z.of_nat (length (words s)) /\
     (fk_offset k <> 0 -> fk_signed k = false /\ fk_offset k + fk_size k = 8)).

Definition field_code (k : field) : list Instruction :=
  if fk_ptr k then emitArgPointerLoad (fk_index k) exit_label
  else if fk_deref k then emitArgMemberLoad (fk_index k) (fk_offset k) (fk_size k) (fk_signed k) exit_label
  else emitIntArgLoad R2 (fk_index k) (fk_offset k) (fk_size k) (fk_signed k).

Lemma pow256 n : 256 ^ n = 2 ^ (8 * n).
Proof. destruct (Z.le_gt_cases 0 n); [now rewrite Z.pow_mul_r by lia|]. rewrite !Z.pow_neg_r by lia. reflexivity. Qed.

Lemma kbytes_length t a n bs : kbytes t a n = Some bs -> length bs = n.
Proof. unfold kbytes. intros Hm. apply length_mapM in Hm. now rewrite length_seq in Hm. Qed.

(** Kernel memory holds bytes. *)
Definition mem_ok : Prop := forall t a b, kmem t a = Some b -> byte b.

Lemma kbytes_byte t a n bs : mem_ok -> kbytes t a n = Some bs -> Forall byte bs.
Proof.
  unfold kbytes. intros Hm Hb. apply mapM_Some in Hb. induction Hb as [|k b ks bs Hk _ IH]; constructor; [|exact IH]. now apply Hm in Hk.
Qed.

Lemma exec_int l k s :
  fk_ptr k = false -> fk_deref k = false -> field_ok k s -> ctx_ok s -> getr R2 s = Some (Ptr Ctx 0) ->
  exists x, raw k s (clock s) = Some x /\
    exec (emitIntArgLoad R2 (fk_index k) (fk_offset k) (fk_size k) (fk_signed k) ++ l) None s =
    exec l None (setr R3 (Num (widen (fk_size k) (fk_signed k) x)) s).
Proof.
  intros Hp Hd (Hs & Hi & Ho & _ & Hc) [Hw _] H2. destruct (Hc Hp Hd) as [Hlen Hoff]. clear Hc. unfold raw. rewrite Hp, Hd.
  destruct (lookup_lt_is_Some_2 (words s) (Z.to_nat (fk_index k))) as [w Hwi]; [lia|]. rewrite Hwi. cbn [option_map].
  assert (Hu : in_u64 w) by (eapply Forall_lookup_1; eauto). eexists. split; [reflexivity|].
  assert (Ei : i16 (fk_index k * 8) = fk_index k * 8) by (rewrite i16_small; lia).
  assert (Hl : forall n, load (add_off (Ptr Ctx 0) (i16 (fk_index k * 8))) n s = Some (Num (w mod 256 ^ Z.of_nat n))).
  { intros n. cbn [add_off load Z.add]. rewrite Ei, Z.add_0_l. unfold load_ctx. rewrite Z_mod_mult, Z.div_mul by lia.
    replace (0 <=? fk_index k * 8) with true by lia. cbn [andb Z.eqb]. now rewrite Hwi. }
  unfold emitIntArgLoad. destruct (Z.eqb_spec (fk_offset k) 0) as [E0|E0]; cbn [negb].
  - rewrite E0. change (2 ^ (8 * 0)) with 1. rewrite Z.div_1_r. destruct (size_bytes _ Hs) as [_ Hr].
    apply (exec_arg_load _ _ _ _ _ _ (Ptr Ctx 0)); [exact Hs|discriminate|exact H2| |apply Z.mod_pos_bound; apply Z.pow_pos_nonneg; lia].
    rewrite Hl. rewrite Z2Nat.id by lia. now rewrite pow256.
  - destruct (Hoff E0) as [Hsg Hsum]. cbn [app]. destruct (size_bytes _ Hs) as [_ Hr].
    erewrite exec_LoadMem; [|discriminate|exact H2|apply Hl].
    change (256 ^ Z.of_nat (Z.to_nat (Sizeof DWord))) with two64. rewrite (Z.mod_small w) by exact Hu.
    assert (Ek : i32 (u32 (fk_offset k * 8)) = 8 * fk_offset k) by (rewrite u32_small, i32_small; lia). rewrite Ek.
    erewrite exec_Imm; [|discriminate|discriminate|discriminate|now apply getr_same|reflexivity].
    rewrite setr_setr. do 4 f_equal. rewrite u64_small by (unfold in_u64, two64; lia). rewrite Z.mod_small by lia.
    rewrite Z.shiftr_div_pow2 by lia. unfold widen. rewrite Hsg. cbn [andb]. symmetry. apply Z.mod_small. split.
    + apply Z.div_pos; [unfold in_u64 in Hu; lia|apply Z.pow_pos_nonneg; lia].
    + apply Z.div_lt_upper_bound; [apply Z.pow_pos_nonneg; lia|]. rewrite <- Z.pow_add_r by lia.
      replace (8 * fk_offset k + 8 * fk_size k) with 64 by lia. apply Hu.
Qed.

Lemma put_tmp bs s : (length bs <= 8)%nat -> put_bytes (Ptr Stack argMemberTmp) bs s = Some (wr argMemberTmp (map CByte bs) s).
Proof. intros Hb. unfold put_bytes, in_frame, argMemberTmp. replace (_ && _) with true by (symmetry; apply andb_true_intro; lia). reflexivity. Qed.

Lemma ticks_deref k : fk_ptr k = false -> fk_deref k = true -> ticks k = 2%nat.
Proof. unfold ticks. now intros -> ->. Qed.

Lemma exec_member l k s :
  mem_ok -> fk_ptr k = false -> fk_deref k = true -> field_ok k s -> ctx_ok s -> args_saved s ->
  exists s',
    exec (emitArgMemberLoad (fk_index k) (fk_offset k) (fk_size k) (fk_signed k) exit_label ++ l) None s =
      match raw k s (clock s) with Some _ => exec l None s' | None => exec l (Some exit_label) s' end /\
    (forall x, raw k s (clock s) = Some x -> getr R3 s' = Some (Num (widen (fk_size k) (fk_signed k) x)) /\ clock s' = S (S (clock s))) /\
    frame tmp s s' /\ maps s' = maps s.
Proof.
  intros Hm Hp Hd (Hs & Hi & Ho & _ & _) Hc Ha. unfold raw. rewrite Hp, Hd. destruct (size_bytes _ Hs) as [_ Hr].
  assert (Hin : in_frame argMemberTmp (Z.to_nat (fk_size k)) = true) by (unfold in_frame, argMemberTmp; rewrite Z2Nat.id by lia; lia).
  unfold emitArgMemberLoad. rewrite <- !app_assoc.
  match goal with |- context [exec (emitArgPointerLoad _ _ ++ ?r) None s] =>
    destruct (exec_pointer r (fk_index k) exit_label s Ha ltac:(lia) eq_refl Hc) as (s1 & E1 & H3 & F1 & M1 & C1) end.
  rewrite E1. clear E1. destruct (arg (fk_index k) s) as [w|] eqn:Ew.
  2: { exists s1. split; [|split; [discriminate|now split]]. cbn [app]. rewrite !exec_pass by reflexivity.
       unfold emitArgLoad. destruct (_ && _); cbn [app]; rewrite !exec_pass by reflexivity; reflexivity. }
  specialize (H3 w eq_refl). assert (Hu : in_u64 w).
  { unfold arg in Ew. destruct (_ <? _); [|discriminate]. destruct Hc as [Hw _]. eapply Forall_lookup_1; eauto. }
  cbn [app]. erewrite exec_JImm; [|exact H3|reflexivity|reflexivity]. change (u64 0) with 0. destruct (w =? 0) eqn:Hz.
  { exists s1. split; [|split; [discriminate|now split]]. rewrite !exec_pass by reflexivity.
    unfold emitArgLoad. destruct (_ && _); cbn [app]; rewrite !exec_pass by reflexivity; reflexivity. }
  assert (Eo : i32 (fk_offset k) = fk_offset k) by (apply i32_small; lia). rewrite Eo.
  assert (Es : i32 (fk_size k) = fk_size k) by (apply i32_small; lia). rewrite Es.
  erewrite exec_Imm; [|discriminate|discriminate|discriminate|exact H3|reflexivity].
  rewrite (u64_small (fk_offset k)) by (unfold in_u64, two64; lia). do 4 step.
  erewrite probe_read; [|regs|regs|regs].
  match goal with |- context [clock ?u] => set (t := u) end.
  assert (Ft : frame tmp s t) by (apply (frame_trans _ _ s1); [exact F1|unfold t; frame_steps]).
  change (clock t) with (clock s1). rewrite C1, (u64_small (fk_size k)) by (unfold in_u64, two64; lia).
  change (Ptr Stack (0 + argMemberTmp)) with (Ptr Stack argMemberTmp).
  destruct (kbytes _ _ _) as [bs|] eqn:Ek; cbn [option_map].
  - pose proof (kbytes_length _ _ _ _ Ek) as Hlen. rewrite put_tmp by (rewrite Hlen; lia). cbn [option_map].
    erewrite exec_JImm; [|regs|reflexivity|reflexivity]. cbn [negb Z.eqb].
    assert (Hx : 0 <= unle bs < 2 ^ (8 * fk_size k)).
    { rewrite <- pow256. pose proof (unle_range bs (kbytes_byte _ _ _ _ Hm Ek)) as Hb. unfold len in Hb. rewrite Hlen, Z2Nat.id in Hb by lia. exact Hb. }
    erewrite exec_arg_load; [|exact Hs|discriminate|reflexivity| |exact Hx].
    2: { cbn [add_off Z.add load]. change (0 + argMemberTmp) with argMemberTmp.
         rewrite Hin.
         change (ldst argMemberTmp (Z.to_nat (fk_size k)) (wr argMemberTmp (map CByte bs) t) = Some (Num (unle bs))).
         rewrite ldst_wr_same by (rewrite length_map; lia). apply decode_bytes. }
    eexists. split; [reflexivity|]. split; [|split].
    + intros x [= <-]. split; [now apply getr_same|]. change (S (clock s1) = S (S (clock s))). now rewrite C1.
    + apply (frame_trans _ _ t); [exact Ft|]. frame_steps. unfold tmp. apply frame_wr. do 2 eexists. split; [left|].
      rewrite length_map, Hlen. unfold argMemberTmp. lia.
    + exact M1.
  - rewrite put_tmp by (rewrite repeat_length; lia). cbn [option_map]. destruct efault_nonzero as [Hz' _].
    erewrite exec_JImm; [|regs| |reflexivity]. 2: { cbv [cmp_val cmp64]. change (u64 0) with 0. rewrite (proj2 (Z.eqb_neq _ _) Hz'). reflexivity. }
    cbn [negb]. exists (returned (Num efault) (wr argMemberTmp (map CByte (repeat 0 (Z.to_nat (fk_size k)))) t)). split; [|split; [discriminate|split; [|exact M1]]].
    + unfold emitArgLoad. destruct (_ && _); cbn [app]; rewrite !exec_pass by reflexivity; reflexivity.
    + apply (frame_trans _ _ t); [exact Ft|]. frame_steps. apply frame_wr. do 2 eexists. split; [left|].
      rewrite length_map, repeat_length. unfold argMemberTmp. lia.
Qed.

(** Reading a field into [R3]. *)
Lemma exec_field l k s :
  mem_ok -> field_ok k s -> ctx_ok s -> args_saved s -> getr R2 s = Some (Ptr Ctx 0) ->
  exists s',
    exec (field_code k ++ l) None s =
      match raw k s (clock s) with Some _ => exec l None s' | None => exec l (Some exit_label) s' end /\
    (forall x, raw k s (clock s) = Some x ->
       getr R3 s' = Some (Num (widen (fk_size k) (fk_signed k) x)) /\ clock s' = (clock s + ticks k)%nat /\
       (ticks k = O -> getr R2 s' = Some (Ptr Ctx 0))) /\
    frame tmp s s' /\ maps s' = maps s.
Proof.
  intros Hm Hk Hc Ha H2. unfold field_code, ticks. destruct (fk_ptr k) eqn:Ep; [|destruct (fk_deref k) eqn:Ed].
  - pose proof Hk as (_ & Hi & _ & Hps & _). destruct (Hps Ep) as [Hsz Hsg].
    destruct (exec_pointer l (fk_index k) exit_label s Ha ltac:(lia) eq_refl Hc) as (s1 & E1 & H3 & F1 & M1 & C1).
    exists s1. unfold raw. rewrite Ep. split; [exact E1|]. split; [|now split]. intros x Hx. rewrite Hsg. cbn [widen andb].
    split; [now apply H3|]. split; [lia|discriminate].
  - destruct (exec_member l k s Hm Ep Ed Hk Hc Ha) as (s1 & E1 & H3 & F1 & M1). exists s1. split; [exact E1|]. split; [|now split].
    intros x Hx. destruct (H3 x Hx) as [H3' C1]. split; [exact H3'|]. split; [lia|discriminate].
  - destruct (exec_int l k s Ep Ed Hk Hc H2) as (x & Hx & E). rewrite Hx. eexists. split; [exact E|]. split; [|split; [frame_steps|reflexivity]].
    intros y [= <-]. split; [now apply getr_same|]. split; [cbn; lia|]. intros _. now rewrite getr_other.
Qed.

(** ** Comparisons *)

(** Only [R4] may differ. *)
Definition but_r4 (s s' : st) : Prop := s' = s \/ exists v, s' = setr R4 v s.

Lemma but_r4_trans s1 s2 s3 : but_r4 s1 s2 -> but_r4 s2 s3 -> but_r4 s1 s3.
Proof. intros [->|[v ->]] [->|[w ->]]; [now left|right; eauto|right; eauto|]. right. exists w. apply setr_setr. Qed.

Lemma but_r4_getr s s' r : but_r4 s s' -> r <> R4 -> getr r s' = getr r s.
Proof. intros [->|[v ->]] Hr; [reflexivity|]. now apply getr_other. Qed.

Lemma but_r4_frame w s s' : but_r4 s s' -> frame w s s' /\ maps s' = maps s /\ clock s' = clock s.
Proof. intros [->|[v ->]]; (split; [|split; reflexivity]); [apply frame_refl|now apply frame_setr]. Qed.

Lemma exec_cmp_jump l op value v b s :
  in_u64 value -> getr R3 s = Some (Num v) -> cmp64 op v value = Some b ->
  exists s', but_r4 s s' /\
    exec (appendCmpJump op value ++ l) None s = if b then exec l (Some exit_label) s' else exec l None s'.
Proof.
  intros Hv H3 Hc. unfold appendCmpJump. destruct (Z.leb_spec value 0x7FFFFFFF) as [Hle|Hgt]; cbn [app].
  - exists s. split; [now left|]. unfold in_u64 in Hv.
    apply exec_JImm with (a := Num v); [exact H3| |reflexivity]. cbv [cmp_val]. rewrite i32_small by lia. now rewrite u64_small by exact Hv.
  - exists (setr R4 (Num value) s). split; [right; now exists (Num value)|]. rewrite exec_LoadImm by discriminate.
    assert (E : u64 (i64 value) = value).
    { unfold i64, u64, two63, two64, in_u64 in *. rewrite Zminus_mod_idemp_l. apply Z.mod_small in Hv.
      replace (value + 9223372036854775808 - 9223372036854775808) with value by lia. exact Hv. }
    rewrite E. apply exec_JReg with (a := Num v) (c := Num value); [|now apply getr_same|exact Hc|reflexivity].
    now rewrite getr_other by discriminate.
Qed.

(** The conditions of one filter on the value in [R3]. *)
Lemma exec_compare l f x s :
  in_u64 (ArgFilter.Value f) -> in_u64 (MaxValue f) -> getr R3 s = Some (Num (widen (ParamSize f) (Signed f) x)) ->
  exists s', but_r4 s s' /\
    exec (emitArgCompare f ++ l) None s = if passes f x then exec l None s' else exec l (Some exit_label) s'.
Proof.
  intros Hv Hm H3. unfold emitArgCompare, passes. set (v := widen _ _ _) in *.
  assert (Hone : forall l op value b, in_u64 value -> cmp64 op v value = Some b ->
    exists s', but_r4 s s' /\ exec (appendCmpJump op value ++ l) None s = if b then exec l (Some exit_label) s' else exec l None s').
  { intros l' op value b Hval Hc. now apply exec_cmp_jump with (v := v). }
  set (jLT := if Signed f then JSLT else JLT). set (jGT := if Signed f then JSGT else JGT).
  set (leq := fun a b => if Signed f then int64_of_u64 a <=? int64_of_u64 b else a <=? b).
  assert (Hlt : forall w, cmp64 jLT v w = Some (negb (leq w v))) by (intros w; unfold jLT, leq; destruct (Signed f); cbn [cmp64]; f_equal; lia).
  assert (Hgt : forall w, cmp64 jGT v w = Some (negb (leq v w))) by (intros w; unfold jGT, leq; destruct (Signed f); cbn [cmp64]; f_equal; lia).
  assert (Hle : forall a b, (if Signed f then int64_of_u64 a <=? int64_of_u64 b else a <=? b) = leq a b) by reflexivity.
  rewrite !Hle. clearbody leq. clear Hle. destruct (Op f).
  - destruct (Hone l JNE (ArgFilter.Value f) _ Hv eq_refl) as (s' & H4 & E). exists s'. split; [exact H4|]. rewrite E. now destruct (v =? ArgFilter.Value f).
  - destruct (Hone l jLT (ArgFilter.Value f) _ Hv (Hlt _)) as (s' & H4 & E). exists s'. split; [exact H4|]. rewrite E. now destruct (leq _ _).
  - destruct (Hone l jGT (ArgFilter.Value f) _ Hv (Hgt _)) as (s' & H4 & E). exists s'. split; [exact H4|]. rewrite E. now destruct (leq _ _).
  - rewrite <- app_assoc. destruct (Hone (appendCmpJump jGT (MaxValue f) ++ l) jLT (ArgFilter.Value f) _ Hv (Hlt _)) as (s1 & H4 & ->).
    destruct (leq (ArgFilter.Value f) v); cbn [negb andb].
    + destruct (exec_cmp_jump l jGT (MaxValue f) v _ s1 Hm ltac:(rewrite (but_r4_getr _ _ _ H4); [exact H3|discriminate]) (Hgt _)) as (s2 & H5 & ->).
      exists s2. split; [now apply (but_r4_trans _ s1)|]. now destruct (leq v _).
    + exists s1. split; [exact H4|]. unfold appendCmpJump. destruct (_ <=? _); cbn [app]; now rewrite !exec_pass.
  - destruct (Hone l JEq (ArgFilter.Value f) _ Hv eq_refl) as (s' & H4 & E). exists s'. split; [exact H4|]. rewrite E. now destruct (v =? ArgFilter.Value f).
Qed.

(** ** The argument filters *)

(** Every condition on the value its field has when it is read. *)
Fixpoint all_pass (fs : list ArgFilter) (s : st) (t : nat) : bool :=
  match fs with
  | [] => true
  | f :: fs =>
      match raw (field_of f) s t with
      | Some x => passes f x && all_pass fs s (t + ticks (field_of f))
      | None => false
      end
  end.

Definition filter_ok (f : ArgFilter) (s : st) : Prop := field_ok (field_of f) s /\ in_u64 (ArgFilter.Value f) /\ in_u64 (MaxValue f).

(** A fragment without labels lets a jump pass. *)
Definition unlabelled (l : list Instruction) : Prop := Forall (fun i => Symbol i = []) l.

Lemma exec_unlabelled l m label s : unlabelled l -> has_text label = true -> exec (l ++ m) (Some label) s = exec m (Some label) s.
Proof. intros Hl Ht. induction Hl as [|i l Hi _ IH]; [reflexivity|]. cbn [app]. now rewrite exec_pass. Qed.


Lemma unlabelled_app l m : unlabelled l -> unlabelled m -> unlabelled (l ++ m).
Proof. intros Hl Hm. now apply List.Forall_app. Qed.

Lemma unlabelled_pointer idx fail : unlabelled (emitArgPointerLoad idx fail).
Proof. repeat constructor. Qed.

Lemma unlabelled_arg_load dst base off size signed : unlabelled (emitArgLoad dst base off size signed).
Proof. unfold emitArgLoad. destruct (signed && _); repeat constructor. Qed.

Lemma unlabelled_member idx off size signed fail : unlabelled (emitArgMemberLoad idx off size signed fail).
Proof. apply unlabelled_app; [apply unlabelled_pointer|]. apply unlabelled_app; [repeat constructor|apply unlabelled_arg_load]. Qed.

Lemma unlabelled_int base idx off size signed : unlabelled (emitIntArgLoad base idx off size signed).
Proof. unfold emitIntArgLoad. destruct (negb _); [repeat constructor|apply unlabelled_arg_load]. Qed.

Lemma unlabelled_cmp op v : unlabelled (appendCmpJump op v).
Proof. unfold appendCmpJump. destruct (_ <=? _); repeat constructor. Qed.

Lemma unlabelled_compare f : unlabelled (emitArgCompare f).
Proof. unfold emitArgCompare. destruct (Op f); repeat first [apply unlabelled_app|apply unlabelled_cmp]. Qed.

Lemma unlabelled_flat_map {A} (g : A -> list Instruction) xs : (forall x, unlabelled (g x)) -> unlabelled (flat_map g xs).
Proof. intros Hg. induction xs as [|x xs IH]; [constructor|]. now apply unlabelled_app. Qed.

Lemma unlabelled_if (b : bool) l m : unlabelled l -> unlabelled m -> unlabelled (if b then l else m).
Proof. now destruct b. Qed.

#[local] Hint Resolve unlabelled_app unlabelled_pointer unlabelled_arg_load unlabelled_member unlabelled_int unlabelled_cmp
  unlabelled_compare unlabelled_if : core.

Lemma unlabelled_field k : unlabelled (field_code k).
Proof. unfold field_code. auto. Qed.

Lemma unlabelled_step f : unlabelled (arg_filter_step f).
Proof. unfold arg_filter_step. repeat first [apply unlabelled_app|apply unlabelled_if]; auto; repeat constructor. Qed.

(** Facts that survive a fragment. *)
Lemma raw_frame w s s' k t : frame w s s' -> raw k s' t = raw k s t.
Proof. intros F. unfold raw. now rewrite (frame_arg w s s' _ F), (fr_words _ _ _ F). Qed.

Lemma ctx_ok_frame w s s' : frame w s s' -> ctx_ok s -> ctx_ok s'.
Proof. intros F Hc. unfold ctx_ok. now rewrite (fr_words _ _ _ F), (fr_nargs _ _ _ F). Qed.

Lemma field_ok_frame w s s' k : frame w s s' -> field_ok k s -> field_ok k s'.
Proof. intros F Hk. unfold field_ok. now rewrite (fr_words _ _ _ F). Qed.

Lemma filter_ok_frame w s s' f : frame w s s' -> filter_ok f s -> filter_ok f s'.
Proof. intros F (Hk & Hv). split; [now apply (field_ok_frame w s)|exact Hv]. Qed.

Lemma all_pass_frame w s s' fs t : frame w s s' -> all_pass fs s' t = all_pass fs s t.
Proof.
  intros F. revert t. induction fs as [|f fs IH]; intros t; [reflexivity|]. cbn [all_pass]. rewrite (raw_frame w s s' _ _ F).
  destruct (raw _ s t); [|reflexivity]. now rewrite IH.
Qed.

(** [R2] points at the arguments again. *)
Lemma exec_load_args l s : args_saved s -> exec (load_args :: l) None s = exec l None (setr R2 (Ptr Ctx 0) s).
Proof. intros Ha. unfold load_args. erewrite exec_load_stack; [reflexivity|discriminate|regs|reflexivity|exact Ha]. Qed.

Lemma tmp_apart : apart (-48) 8 tmp.
Proof. unfold apart, tmp. constructor; [cbn; lia|constructor]. Qed.

(** What a fragment of the gate needs, and keeps. *)
Definition gate_ready (s : st) : Prop := ctx_ok s /\ args_saved s.

Lemma gate_ready_frame w s s' : frame w s s' -> apart (-48) 8 w -> gate_ready s -> gate_ready s'.
Proof. intros F Ha [Hc Hs]. split; [now apply (ctx_ok_frame w s)|now apply (frame_args w s)]. Qed.

(** One filter: its field is read, then compared. *)
Lemma exec_arg_step l f s :
  mem_ok -> filter_ok f s -> gate_ready s -> getr R2 s = Some (Ptr Ctx 0) ->
  exists s', frame tmp s s' /\ maps s' = maps s /\
    match raw (field_of f) s (clock s) with
    | Some x =>
        if passes f x
        then exec (arg_filter_step f ++ l) None s = exec l None s' /\ clock s' = (clock s + ticks (field_of f))%nat /\ getr R2 s' = Some (Ptr Ctx 0)
        else exec (arg_filter_step f ++ l) None s = exec l (Some exit_label) s'
    | None => exec (arg_filter_step f ++ l) None s = exec l (Some exit_label) s'
    end.
Proof.
  intros Hm (Hk & Hv & Hmx) [Hc Ha] H2. unfold arg_filter_step.
  set (again := if Pointer f then [load_args] else if Deref f then [load_args] else []).
  assert (Hcode : forall l, (if Pointer f then emitArgPointerLoad (ParamIndex f) exit_label ++ [load_args]
     else if Deref f then emitArgMemberLoad (ParamIndex f) (ArgFilter.Offset f) (ParamSize f) (Signed f) exit_label ++ [load_args]
     else emitIntArgLoad R2 (ParamIndex f) (ArgFilter.Offset f) (ParamSize f) (Signed f)) ++ l = field_code (field_of f) ++ again ++ l).
  { intros l'. unfold field_code, again. cbn [field_of fk_ptr fk_deref fk_index fk_offset fk_size fk_signed]. destruct (Pointer f), (Deref f); now rewrite <- ?app_assoc. }
  rewrite <- app_assoc, Hcode. clear Hcode.
  destruct (exec_field (again ++ emitArgCompare f ++ l) (field_of f) s Hm Hk Hc Ha H2) as (s1 & E1 & H3 & F1 & M1). rewrite E1. clear E1.
  assert (Hag : unlabelled again) by (unfold again; apply unlabelled_if; [|apply unlabelled_if]; repeat constructor).
  destruct (raw (field_of f) s (clock s)) as [x|] eqn:Ex.
  2: { exists s1. split; [exact F1|]. split; [exact M1|]. now rewrite !exec_unlabelled by (reflexivity || auto). }
  destruct (H3 x eq_refl) as (Hx & C1 & Hn). clear H3.
  assert (Hagain : exists s2, exec (again ++ emitArgCompare f ++ l) None s1 = exec (emitArgCompare f ++ l) None s2 /\
    getr R2 s2 = Some (Ptr Ctx 0) /\ getr R3 s2 = getr R3 s1 /\ frame tmp s1 s2 /\ maps s2 = maps s1 /\ clock s2 = clock s1).
  { assert (Ha1 : args_saved s1) by (apply (frame_args tmp s); auto using tmp_apart). unfold again. unfold ticks in Hn. cbn in Hn.
    destruct (Pointer f); [|destruct (Deref f)]; cbn [app].
    3: { exists s1. splits; auto using frame_refl. }
    all: rewrite exec_load_args by exact Ha1; eexists; split; [reflexivity|]; splits; auto; [now apply getr_same|now rewrite getr_other by discriminate|now apply frame_setr]. }
  destruct Hagain as (s2 & -> & H22 & H32 & F2 & M2 & C2).
  destruct (exec_compare l f x s2 Hv Hmx ltac:(rewrite H32; exact Hx)) as (s3 & B3 & E3).
  destruct (but_r4_frame tmp _ _ B3) as (F3 & M3 & C3). exists s3. split; [|split; [congruence|]].
  - apply (frame_trans _ _ s1); [exact F1|]. now apply (frame_trans _ _ s2).
  - destruct (passes f x); [|exact E3]. split; [exact E3|]. split; [congruence|]. now rewrite (but_r4_getr _ _ _ B3).
Qed.

Fixpoint ticks_of (fs : list ArgFilter) : nat := match fs with [] => O | f :: fs => (ticks (field_of f) + ticks_of fs)%nat end.

Lemma exec_arg_steps l fs : mem_ok -> forall s,
  Forall (fun f => filter_ok f s) fs -> gate_ready s -> getr R2 s = Some (Ptr Ctx 0) ->
  exists s', frame tmp s s' /\ maps s' = maps s /\
    if all_pass fs s (clock s)
    then exec (flat_map arg_filter_step fs ++ l) None s = exec l None s' /\ clock s' = (clock s + ticks_of fs)%nat
    else exec (flat_map arg_filter_step fs ++ l) None s = exec l (Some exit_label) s'.
Proof.
  intros Hm. induction fs as [|f fs IH]; intros s Hf Hr H2.
  { exists s. split; [apply frame_refl|]. split; [reflexivity|]. cbn. split; [reflexivity|lia]. }
  inversion Hf as [|? ? Hf1 Hfs]; subst. cbn [flat_map all_pass ticks_of]. rewrite <- app_assoc.
  destruct (exec_arg_step (flat_map arg_filter_step fs ++ l) f s Hm Hf1 Hr H2) as (s1 & F1 & M1 & E1).
  assert (Hpass : unlabelled (flat_map arg_filter_step fs)) by (apply unlabelled_flat_map, unlabelled_step).
  destruct (raw (field_of f) s (clock s)) as [x|].
  2: { exists s1. split; [exact F1|]. split; [exact M1|]. rewrite E1. now apply exec_unlabelled. }
  destruct (passes f x).
  2: { exists s1. split; [exact F1|]. split; [exact M1|]. cbn [andb]. rewrite E1. now apply exec_unlabelled. }
  destruct E1 as (E1 & C1 & H21). destruct (IH s1) as (s2 & F2 & M2 & E2).
  - eapply List.Forall_impl; [|exact Hfs]. intros g Hg. now apply (filter_ok_frame tmp s).
  - apply (gate_ready_frame tmp s); auto using tmp_apart.
  - exact H21.
  - exists s2. split; [now apply (frame_trans _ _ s1)|]. split; [congruence|]. rewrite C1, (all_pass_frame tmp s s1 _ _ F1) in E2. cbn [andb].
    rewrite E1. destruct (all_pass fs s _); [|exact E2]. destruct E2 as [E2 C2]. split; [exact E2|]. lia.
Qed.

(** The whole gate without a snapshot. *)
Lemma exec_arg_filter l fs s :
  mem_ok -> Forall (fun f => filter_ok f s) fs -> gate_ready s ->
  exists s', frame tmp s s' /\ maps s' = maps s /\
    if all_pass fs s (clock s)
    then exec (buildArgFilter fs None ++ l) None s = exec l None s' /\ clock s' = (clock s + ticks_of fs)%nat
    else exec (buildArgFilter fs None ++ l) None s = exec l (Some exit_label) s'.
Proof.
  intros Hm Hf Hg. destruct fs as [|f fs]; [exists s; split; [apply frame_refl|]; split; [reflexivity|]; cbn; split; [reflexivity|lia]|].
  assert (Eb : buildArgFilter (f :: fs) None = load_args :: flat_map arg_filter_step (f :: fs)) by reflexivity. rewrite Eb. clear Eb. cbn [app].
  rewrite exec_load_args by apply Hg. set (s0 := setr R2 (Ptr Ctx 0) s). assert (F0 : frame tmp s s0) by now apply frame_setr.
  destruct (exec_arg_steps l (f :: fs) Hm s0) as (s1 & F1 & M1 & E1).
  - eapply List.Forall_impl; [|exact Hf]. intros g. now apply (filter_ok_frame tmp s).
  - apply (gate_ready_frame tmp s); auto using tmp_apart.
  - now apply getr_same.
  - exists s1. split; [now apply (frame_trans _ _ s0)|]. split; [exact M1|]. change (clock s0) with (clock s) in E1.
    now rewrite (all_pass_frame tmp s s0 _ _ F0) in E1.
Qed.

(** The emitted argument filters decide exactly what the expressions
    say. For any kernel that keeps the helpers' documented behaviour and any
    machine state in which the arguments are saved at R10-48, running the
    instructions falls through when the field of every filter can be read and
    its value, widened from its own size and signedness, passes the filter
    (signed or unsigned comparison, immediates and 64-bit constants alike),
    and leaves for [exit] otherwise, a null pointer and a faulting read
    included; the maps, [R6] to [R9] and the stack outside the scratch slot
    are as before. *)
Theorem buildArgFilter_decides fs s :
  mem_ok -> Forall (fun f => filter_ok f s) fs -> gate_ready s ->
  exists s', frame tmp s s' /\ maps s' = maps s /\
    exec (buildArgFilter fs None) None s = if all_pass fs s (clock s) then Next s' else Goto exit_label s'.
Proof.
  intros Hm Hf Hg. destruct (exec_arg_filter [] fs s Hm Hf Hg) as (s' & F & M & E). exists s'. split; [exact F|]. split; [exact M|].
  rewrite app_nil_r in E. destruct (all_pass fs s (clock s)); [exact (proj1 E)|exact E].
Qed.

(** ** Snapshots *)

(** The scratch slot and the key of a map lookup. *)
Definition scratch : list (Z * Z) := [(-128, -120); (-16, -12)].

Lemma scratch_apart : apart (-48) 8 scratch.
Proof. unfold apart, scratch. repeat constructor; cbn; lia. Qed.

Lemma frame_scratch s s' : frame tmp s s' -> frame scratch s s'.
Proof. apply frame_incl. intros x Hx. apply list_elem_of_singleton in Hx as ->. left. Qed.

Lemma bytes_at_wr a bs s : in_frame a (length bs) = true -> bytes_at (Ptr Stack a) (length bs) (wr a (map CByte bs) s) = Some bs.
Proof.
  intros Hf. cbn [bytes_at]. rewrite Hf. cbn [wr set_stack stack]. rewrite read_write_same by apply length_map.
  cbn [mbind option_bind]. apply bytes_of_cells.
Qed.

(** The snapshot's entry in its map. *)
Definition snap_key (snap : fieldSnap) : list Z := le 4 (sn_key snap).

Definition snap_value (snap : fieldSnap) (s : st) : option (list Z) := value (sn_fd snap) (snap_key snap) s.

Definition snap_ready (snap : fieldSnap) (s : st) : Prop :=
  keySize (sn_fd snap) = 4%nat /\ 0 <= sn_key snap < 2 ^ 31 /\ (length (Fields (sn_layout snap)) <= 32)%nat /\
  exists b, snap_value snap s = Some b /\ 8 * Z.of_nat (length (Fields (sn_layout snap))) <= len b.

Lemma exec_snap_lookup l snap s :
  snap_ready snap s ->
  exists s', exec (snap_lookup (sn_fd snap) (sn_key snap) ++ l) None s = exec l None s' /\
    getr R0 s' = Some (Ptr (ValueOf (sn_fd snap) (snap_key snap)) 0) /\ ldst (-128) 8 s' = ldst (-128) 8 s /\
    frame [(-16, -12)] s s' /\ maps s' = maps s /\ clock s' = S (clock s).
Proof.
  intros (Hks & Hkey & _ & b & Hb & _). unfold snap_value, value in Hb. destruct (maps s !! sn_fd snap) as [m|] eqn:Em; [|discriminate].
  cbn [mbind option_bind] in Hb. unfold snap_lookup. cbn [app]. do 5 step.
  erewrite map_lookup; [|regs|regs| |exact Em].
  2: { rewrite Hks. change 4%nat with (length (le 4 (u64 (sn_key snap)))). apply bytes_at_wr. reflexivity. }
  rewrite !(u64_small (sn_key snap)) by (unfold in_u64, two64; lia). change (le (Z.to_nat (Sizeof Word)) (sn_key snap)) with (snap_key snap). rewrite Hb.
  erewrite exec_JImm; [|regs|reflexivity|reflexivity]. eexists. split; [reflexivity|]. split; [regs|]. split; [slots|].
  split; [|split; reflexivity]. frame_steps.
Qed.

(** The maps after the snapshot became [b]. *)
Definition snap_maps (snap : fieldSnap) (b : list Z) (s s' : st) : Prop :=
  maps s' = maps (set_object (ValueOf (sn_fd snap) (snap_key snap)) b s).

Lemma snap_maps_value snap b s s' : snap_maps snap b s s' -> snap_value snap s' = Some b.
Proof. intros Hs. unfold snap_value, value. rewrite Hs. apply value_set_same. Qed.

Lemma snap_maps_refl snap b s s' : snap_value snap s = Some b -> maps s' = maps s -> snap_maps snap b s s'.
Proof.
  unfold snap_value, value, snap_maps. intros Hb ->. cbn [set_object set_maps maps].
  destruct (maps s !! sn_fd snap) as [m|] eqn:Em; [|discriminate]. cbn [mbind option_bind from_option id] in *.
  rewrite (insert_id m) by exact Hb. now rewrite insert_id.
Qed.

Lemma snap_maps_trans snap b b' s1 s2 s3 : snap_maps snap b s1 s2 -> snap_maps snap b' s2 s3 -> snap_maps snap b' s1 s3.
Proof.
  unfold snap_maps. cbn [set_object set_maps maps]. intros H1 H2. rewrite H2, H1, lookup_insert_eq. cbn [from_option id]. now rewrite !insert_insert_eq.
Qed.

Lemma snap_ready_maps snap b s s' : snap_ready snap s -> snap_maps snap b s s' -> 8 * Z.of_nat (length (Fields (sn_layout snap))) <= len b -> snap_ready snap s'.
Proof. intros (Hks & Hkey & Hl & _) Hs Hb. unfold snap_ready. splits; try tauto; try lia. exists b. split; [now apply (snap_maps_value snap b s)|exact Hb]. Qed.

(** A snapshot slot of the layout. *)
Definition slot_ok (snap : fieldSnap) (off : Z) : Prop := 0 <= off /\ off + 8 <= 8 * Z.of_nat (length (Fields (sn_layout snap))).

Lemma exec_snap_store l snap off v b s :
  snap_ready snap s -> args_saved s -> slot_ok snap off -> getr R3 s = Some (Num v) -> in_u64 v -> snap_value snap s = Some b ->
  8 * Z.of_nat (length (Fields (sn_layout snap))) <= len b ->
  exists s', exec (emitSnapStore (sn_fd snap) (sn_key snap) off ++ l) None s = exec l None s' /\
    getr R3 s' = Some (Num v) /\ getr R2 s' = Some (Ptr Ctx 0) /\ frame scratch s s' /\
    snap_maps snap (put_cell off (le 8 v) b) s s' /\ clock s' = S (clock s).
Proof.
  intros Hr Ha [Ho Ho8] H3 Hv Hb Hlen. unfold emitSnapStore, argMemberTmp. cbn [app]. rewrite <- app_assoc. cbn [app]. step.
  set (s1 := wr (0 + -128) _ s). assert (F1 : frame tmp s s1) by (unfold s1; frame_steps).
  match goal with |- context [exec (snap_lookup _ _ ++ ?r) None s1] =>
    destruct (exec_snap_lookup r snap s1 Hr) as (s2 & -> & H0 & Hslot & F2 & M2 & C2) end.
  assert (Hl : ldst (-128) 8 s2 = Some (Num v)).
  { rewrite Hslot. unfold s1. rewrite ldst_wr_same by reflexivity. apply decode_encode8; [|reflexivity]. now intros z [= <-]. }
  erewrite exec_load_stack; [|discriminate|regs|reflexivity|exact Hl].
  assert (Hv2 : value (sn_fd snap) (snap_key snap) s2 = Some b) by (unfold value; rewrite M2; exact Hb).
  erewrite exec_StoreMem; [|rewrite getr_other by discriminate; exact H0|now apply getr_same|].
  2: { cbn [add_off Z.add]. apply store_value; [exact Hv2|exact Ho|]. change (Z.of_nat (Z.to_nat (Sizeof DWord))) with 8. lia. }
  set (s3 := set_object _ _ _). assert (F3 : frame scratch s s3).
  { apply (frame_trans _ _ s2); [apply (frame_trans _ _ s1); [now apply frame_scratch|]|].
    - apply (frame_incl [(-16, -12)]); [|exact F2]. intros x Hx. apply list_elem_of_singleton in Hx as ->. unfold scratch. right. left.
    - unfold s3. split; try reflexivity. intros r Hr6. change (getr r (setr R3 (Num v) s2) = getr r s2). apply getr_other. unfold R3. lia. }
  rewrite exec_load_args by (apply (frame_args scratch s); auto using scratch_apart). eexists. split; [reflexivity|].
  split; [rewrite getr_other by discriminate; now apply (getr_same R3 (Num v) s2)|]. split; [now apply getr_same|].
  split; [apply (frame_trans _ _ s3); [exact F3|now apply frame_setr]|]. split; [|exact C2].
  unfold snap_maps. change (maps s3 = maps (set_object (ValueOf (sn_fd snap) (snap_key snap)) (put_cell off (le 8 v) b) s)).
  unfold s3. cbn [set_object set_maps maps]. change (maps (setr R3 (Num v) s2)) with (maps s2). now rewrite M2.
Qed.

Lemma exec_snap_load l snap off v b s :
  snap_ready snap s -> args_saved s -> snap_value snap s = Some b -> cell_at off 8 b = Some v ->
  exists s', exec (emitSnapLoad (sn_fd snap) (sn_key snap) off ++ l) None s = exec l None s' /\
    getr R3 s' = Some (Num v) /\ getr R2 s' = Some (Ptr Ctx 0) /\ frame [(-16, -12)] s s' /\ maps s' = maps s /\ clock s' = S (clock s).
Proof.
  intros Hr Ha Hb Hc. unfold emitSnapLoad. rewrite <- app_assoc. cbn [app].
  destruct (exec_snap_lookup (LoadMem R3 R0 off DWord :: load_args :: l) snap s Hr) as (s2 & -> & H0 & _ & F2 & M2 & C2).
  assert (Hv2 : value (sn_fd snap) (snap_key snap) s2 = Some b) by (unfold value; rewrite M2; exact Hb).
  erewrite exec_LoadMem; [|discriminate|exact H0|cbn [add_off Z.add]; eapply load_value; [exact Hv2|exact Hc]].
  assert (F3 : frame [(-16, -12)] s (setr R3 (Num v) s2)) by (apply (frame_trans _ _ s2); [exact F2|now apply frame_setr]).
  rewrite exec_load_args by (apply (frame_args _ s _ F3); [repeat constructor; cbn; lia|exact Ha]).
  eexists. split; [reflexivity|]. split; [rewrite getr_other by discriminate; now apply getr_same|]. split; [now apply getr_same|].
  split; [apply (frame_trans _ _ _ _ F3); now apply frame_setr|]. split; [exact M2|exact C2].
Qed.
End Facts.
