(* ===== verification/GateRecord.v ===== *)
(** * GateRecord: recording filters read every field once

    With a snapshot, the emitted filters group their conditions by field:
    each field is read once, the value read is stored in the field's slot of
    the snapshot and every condition on the field is tested on it. So when
    the gate is passed, what the record block will show is what the
    conditions were tested on, whatever the kernel did to the memory in the
    meantime. *)

From Stdlib Require Import ZArith Lia Bool Ascii String List.
From stdpp Require Import base list strings numbers option gmap.
From S2P Require Import Prelude GoStd GoBytes HookAbi ArgExpr ArgFilter Record RecordBuild Asm Ebpf EbpfFacts Helpers Gate GateFacts.
Local Open Scope Z_scope.

Lemma Forall2_both {A B} (P Q : A -> B -> Prop) l m : Forall2 P l m -> Forall2 Q l m -> Forall2 (fun x y => P x y /\ Q x y) l m.
Proof. induction 1 as [|x y l m Hx _ IH]; intros HQ; [constructor|]. inversion HQ; subst. constructor; auto. Qed.

(** ** Slots of a layout *)

Definition field_slot (snap : fieldSnap) (k : field) : Z :=
  snap_off (Some snap) (fk_index k) (fk_deref k) (fk_ptr k) (fk_offset k) (fk_size k) (fk_signed k).

Definition matches_field (k : field) (f : Field) : Prop :=
  FParamIndex f = fk_index k /\ FDeref f = fk_deref k /\ FPointer f = fk_ptr k /\ FOffset f = fk_offset k /\
  FSize f = fk_size k /\ FSigned f = fk_signed k.

Lemma matches_inj k k' f : matches_field k f -> matches_field k' f -> k = k'.
Proof. destruct k, k'. unfold matches_field. cbn. intuition congruence. Qed.

Lemma fieldIndex_from_spec k fs i r : 0 <= i ->
  fieldIndex_from i fs (fk_index k) (fk_deref k) (fk_ptr k) (fk_offset k) (fk_size k) (fk_signed k) = r ->
  r = -1 \/ exists j f, r = i + Z.of_nat j /\ fs !! j = Some f /\ matches_field k f.
Proof.
  revert i. induction fs as [|f fs IH]; intros i Hi; cbn [fieldIndex_from]; [now left|]. destruct (_ && _) eqn:E.
  - intros <-. right. exists O, f. split; [lia|]. split; [reflexivity|]. repeat (apply andb_prop in E as [E ?]).
    repeat match goal with H : (_ =? _) = true |- _ => apply Z.eqb_eq in H | H : Bool.eqb _ _ = true |- _ => apply eqb_prop in H end.
    unfold matches_field. splits; auto.
  - intros Hr. destruct (IH (i + 1) ltac:(lia) Hr) as [Hm|(j & g & Hj & Hg & Hm)]; [now left|]. right. exists (S j), g.
    split; [lia|]. now split.
Qed.

Lemma field_slot_spec snap k : (length (Fields (sn_layout snap)) <= 32)%nat -> 0 <= field_slot snap k ->
  exists j f, field_slot snap k = 8 * Z.of_nat j /\ Fields (sn_layout snap) !! j = Some f /\ matches_field k f.
Proof.
  unfold field_slot, snap_off. cbv zeta. intros Hl. destruct (FieldIndex (sn_layout snap) _ _ _ _ _ _) as [|p|p] eqn:E; cbn [Z.ltb Z.compare]; try lia.
  all: destruct (fieldIndex_from_spec k (Fields (sn_layout snap)) 0 _ ltac:(lia) E) as [Hm|(j & f & Hj & Hf & Hm)]; [discriminate|].
  all: intros _; exists j, f; split; [|now split]; apply lookup_lt_Some in Hf; rewrite i16_small; lia.
Qed.

Lemma field_slot_ok snap k : (length (Fields (sn_layout snap)) <= 32)%nat -> 0 <= field_slot snap k -> slot_ok snap (field_slot snap k).
Proof. intros Hl Hk. destruct (field_slot_spec snap k Hl Hk) as (j & f & E & Hf & _). apply lookup_lt_Some in Hf. unfold slot_ok. lia. Qed.

(** Different fields have different slots. *)
Lemma field_slot_apart snap k k' : (length (Fields (sn_layout snap)) <= 32)%nat -> 0 <= field_slot snap k -> 0 <= field_slot snap k' -> k <> k' ->
  field_slot snap k' + 8 <= field_slot snap k \/ field_slot snap k + 8 <= field_slot snap k'.
Proof.
  intros Hl Hk Hk' Hn. destruct (field_slot_spec snap k Hl Hk) as (j & f & E & Hf & Hm).
  destruct (field_slot_spec snap k' Hl Hk') as (j' & f' & E' & Hf' & Hm'). destruct (Nat.eq_dec j j') as [<-|Hj]; [|lia].
  exfalso. apply Hn. rewrite Hf in Hf'. injection Hf' as <-. now apply (matches_inj k k' f).
Qed.

(** ** Groups *)

Definition group_ok (kg : field * group) : Prop := field_of (g_rep (snd kg)) = fst kg /\ Forall (fun c => field_of c = fst kg) (g_conds (snd kg)).

Lemma add_cond_keys f gs : map fst (add_cond f gs) = if bool_decide (field_of f ∈ map fst gs) then map fst gs else map fst gs ++ [field_of f].
Proof.
  induction gs as [|[k g] gs IH]; [reflexivity|]. cbn [add_cond map fst]. destruct (decide (k = field_of f)) as [->|Hn].
  - rewrite !bool_decide_true by (reflexivity || left). reflexivity.
  - rewrite bool_decide_false by exact Hn. cbn [map fst]. rewrite IH. destruct (decide (field_of f ∈ map fst gs)) as [Hi|Hi].
    + rewrite !bool_decide_true by (exact Hi || now right). reflexivity.
    + rewrite !bool_decide_false; [reflexivity| |exact Hi]. intros Hc. apply elem_of_cons in Hc as [Hc|Hc]; congruence.
Qed.

Lemma add_cond_ok f gs : Forall group_ok gs -> Forall group_ok (add_cond f gs).
Proof.
  induction 1 as [|[k g] gs [Hr Hc] Hgs IH]; cbn [add_cond]; [repeat constructor|]. case_bool_decide as E; [|now repeat constructor].
  constructor; [|exact Hgs]. split; [exact Hr|]. cbn. apply Forall_app. split; [exact Hc|]. now constructor.
Qed.

(** The conditions of the groups are the filters. *)
Lemma add_cond_conds f gs c : (exists kg, kg ∈ add_cond f gs /\ c ∈ g_conds (snd kg)) <-> c = f \/ exists kg, kg ∈ gs /\ c ∈ g_conds (snd kg).
Proof.
  induction gs as [|[k g] gs IH]; cbn [add_cond].
  - split.
    + intros (kg & Hk & Hc). apply list_elem_of_singleton in Hk as ->. cbn in Hc. apply list_elem_of_singleton in Hc. now left.
    + intros [->|(kg & Hk & _)]; [|now apply elem_of_nil in Hk]. eexists. split; [left|]. left.
  - case_bool_decide as E.
    + split.
      * intros (kg & Hk & Hc). apply elem_of_cons in Hk as [->|Hk]; [|right; exists kg; split; [now right|exact Hc]]. cbn in Hc.
        apply elem_of_app in Hc as [Hc|Hc]; [right; exists (k, g); split; [left|exact Hc]|left; now apply list_elem_of_singleton in Hc].
      * intros [->|(kg & Hk & Hc)]; [eexists; split; [left|]; cbn; apply elem_of_app; right; left|].
        apply elem_of_cons in Hk as [->|Hk]; [eexists; split; [left|]; cbn; apply elem_of_app; now left|].
        exists kg. split; [now right|exact Hc].
    + split.
      * intros (kg & Hk & Hc). apply elem_of_cons in Hk as [->|Hk]; [right; eexists; split; [left|exact Hc]|].
        destruct (proj1 IH (ex_intro _ kg (conj Hk Hc))) as [->|(kg' & Hk' & Hc')]; [now left|]. right. exists kg'. split; [now right|exact Hc'].
      * intros [->|(kg & Hk & Hc)].
        -- destruct (proj2 IH (or_introl eq_refl)) as (kg & Hk & Hc). exists kg. split; [now right|exact Hc].
        -- apply elem_of_cons in Hk as [->|Hk]; [eexists; split; [left|exact Hc]|].
           destruct (proj2 IH (or_intror (ex_intro _ kg (conj Hk Hc)))) as (kg' & Hk' & Hc'). exists kg'. split; [now right|exact Hc'].
Qed.

Lemma group_conds_nonempty fs : Forall (fun kg => g_conds (snd kg) <> []) (group_filters fs).
Proof.
  unfold group_filters. assert (H : forall gs, Forall (fun kg : field * group => g_conds (snd kg) <> []) gs ->
    Forall (fun kg => g_conds (snd kg) <> []) (fold_left (fun gs f => add_cond f gs) fs gs)); [|apply H; constructor].
  induction fs as [|f fs IH]; intros gs Hgs; [exact Hgs|]. cbn [fold_left]. apply IH. clear IH.
  induction Hgs as [|[k g] gs Hg Hgs IH]; cbn [add_cond]; [repeat constructor; discriminate|]. case_bool_decide.
  - constructor; [|exact Hgs]. cbn. now destruct (g_conds g).
  - now constructor.
Qed.

Lemma group_filters_spec fs :
  NoDup (map fst (group_filters fs)) /\ Forall group_ok (group_filters fs) /\
  forall c, c ∈ fs <-> exists kg, kg ∈ group_filters fs /\ c ∈ g_conds (snd kg).
Proof.
  unfold group_filters.
  assert (H : forall gs, NoDup (map fst gs) -> Forall group_ok gs ->
    let r := fold_left (fun gs f => add_cond f gs) fs gs in
    NoDup (map fst r) /\ Forall group_ok r /\
    forall c, (exists kg, kg ∈ r /\ c ∈ g_conds (snd kg)) <-> c ∈ fs \/ exists kg, kg ∈ gs /\ c ∈ g_conds (snd kg)).
  { induction fs as [|f fs IH]; intros gs Hn Hok; cbn [fold_left].
    - split; [exact Hn|]. split; [exact Hok|]. intros c. split; [now right|]. intros [Hc|Hc]; [now apply elem_of_nil in Hc|exact Hc].
    - destruct (IH (add_cond f gs)) as (Hn' & Hok' & Hc').
      + rewrite add_cond_keys. case_bool_decide as E; [exact Hn|]. apply NoDup_app. split; [exact Hn|]. split; [|apply NoDup_singleton].
        intros x Hx Hx'. apply list_elem_of_singleton in Hx' as ->. contradiction.
      + now apply add_cond_ok.
      + split; [exact Hn'|]. split; [exact Hok'|]. intros c. rewrite Hc', add_cond_conds, elem_of_cons. tauto. }
  destruct (H [] (NoDup_nil_2) (List.Forall_nil _)) as (Hn & Hok & Hc). split; [exact Hn|]. split; [exact Hok|]. intros c. rewrite Hc.
  split; [now left|]. intros [Hf|(kg & Hk & _)]; [exact Hf|now apply elem_of_nil in Hk].
Qed.

Lemma group_member fs kg c : kg ∈ group_filters fs -> c ∈ g_conds (snd kg) -> field_of c = fst kg.
Proof.
  destruct (group_filters_spec fs) as (_ & Hok & _). rewrite Forall_forall in Hok. intros Hkg Hc. destruct (Hok kg Hkg) as [_ Hcs].
  rewrite Forall_forall in Hcs. now apply Hcs.
Qed.

Lemma group_covers fs f : f ∈ fs -> field_of f ∈ map fst (group_filters fs).
Proof.
  intros Hf. destruct (group_filters_spec fs) as (_ & _ & Hc). apply Hc in Hf as (kg & Hkg & Hcc). rewrite (group_member fs kg f Hkg Hcc).
  apply list_elem_of_fmap. now exists kg.
Qed.

(** ** Running the groups *)

Section Recording.
Context `{HK : Helpers}.
Variable snap : fieldSnap.

Definition snap_ticks (k : field) : nat := if 0 <=? field_slot snap k then 1 else 0.

(** The values read, one per group, when every condition passes. *)
Fixpoint run_groups (gs : list (field * group)) (s : st) (t : nat) : option (list Z) :=
  match gs with
  | [] => Some []
  | (k, g) :: gs =>
      match raw k s t with
      | Some x =>
          if forallb (fun c => passes c x) (g_conds g) then option_map (cons x) (run_groups gs s (t + ticks k + snap_ticks k)) else None
      | None => None
      end
  end.

Lemma exec_conds l k x cs : forall s,
  Forall (fun c => field_of c = k) cs -> Forall (fun c => in_u64 (ArgFilter.Value c) /\ in_u64 (MaxValue c)) cs ->
  getr R3 s = Some (Num (widen (fk_size k) (fk_signed k) x)) ->
  exists s', but_r4 s s' /\
    exec (flat_map emitArgCompare cs ++ l) None s = if forallb (fun c => passes c x) cs then exec l None s' else exec l (Some exit_label) s'.
Proof.
  induction cs as [|c cs IH]; intros s Hk Hv H3; [exists s; split; [now left|reflexivity]|]. cbn [flat_map forallb]. rewrite <- app_assoc.
  inversion Hk as [|? ? Hkc Hks]; subst. inversion Hv as [|? ? [Hv1 Hv2] Hvs]; subst.
  destruct (exec_compare (flat_map emitArgCompare cs ++ l) c x s Hv1 Hv2 H3) as (s1 & B1 & E1). destruct (passes c x); cbn [andb].
  - destruct (IH s1 Hks Hvs) as (s2 & B2 & E2); [now rewrite (but_r4_getr _ _ _ B1)|]. exists s2. split; [now apply (but_r4_trans _ s1)|].
    now rewrite E1.
  - exists s1. split; [exact B1|]. rewrite E1. apply exec_unlabelled; [|reflexivity]. apply unlabelled_flat_map, unlabelled_compare.
Qed.

(** A group: what it did to the snapshot [b]. *)
Definition group_wrote (k : field) (x : Z) (b b' : list Z) : Prop :=
  len b' = len b /\
  (0 <= field_slot snap k -> cell_at (field_slot snap k) 8 b' = Some (widen (fk_size k) (fk_signed k) x)) /\
  forall k', k' <> k -> 0 <= field_slot snap k' -> cell_at (field_slot snap k') 8 b' = cell_at (field_slot snap k') 8 b.

Definition conds_ok (kg : field * group) : Prop := Forall (fun c => in_u64 (ArgFilter.Value c) /\ in_u64 (MaxValue c)) (g_conds (snd kg)).

Definition snap_holds (b : list Z) (s : st) : Prop := snap_value snap s = Some b /\ 8 * Z.of_nat (length (Fields (sn_layout snap))) <= len b.

Lemma group_step_code g : group_step snap g =
  field_code (field_of (g_rep g))
  ++ (if 0 <=? field_slot snap (field_of (g_rep g)) then emitSnapStore (sn_fd snap) (sn_key snap) (field_slot snap (field_of (g_rep g))) else [load_args])
  ++ flat_map emitArgCompare (g_conds g).
Proof. reflexivity. Qed.

Lemma unlabelled_store fd key off : unlabelled (emitSnapStore fd key off).
Proof. repeat constructor. Qed.

(** The snapshot with a field's value in its slot. *)
Definition snap_put (k : field) (v : Z) (b : list Z) : list Z :=
  if 0 <=? field_slot snap k then put_cell (field_slot snap k) (le 8 v) b else b.

Fixpoint groups_snap (gs : list (field * group)) (xs : list Z) (b : list Z) : list Z :=
  match gs, xs with
  | (k, _) :: gs, x :: xs => groups_snap gs xs (snap_put k (widen (fk_size k) (fk_signed k) x) b)
  | _, _ => b
  end.

Definition groups_ticks (gs : list (field * group)) : nat := fold_right (fun kg n => (ticks kg.1 + snap_ticks kg.1 + n)%nat) O gs.

(** After a read: the value goes to its slot, [R2] is the arguments again. *)
Lemma exec_snapshot l k v b s :
  snap_ready snap s -> snap_holds b s -> args_saved s -> getr R3 s = Some (Num v) -> in_u64 v ->
  exists s' b',
    exec ((if 0 <=? field_slot snap k then emitSnapStore (sn_fd snap) (sn_key snap) (field_slot snap k) else [load_args]) ++ l) None s = exec l None s' /\
    getr R3 s' = Some (Num v) /\ getr R2 s' = Some (Ptr Ctx 0) /\ frame scratch s s' /\ snap_maps snap b' s s' /\
    clock s' = (clock s + snap_ticks k)%nat /\ len b' = len b /\ b' = snap_put k v b /\
    (0 <= field_slot snap k -> cell_at (field_slot snap k) 8 b' = Some v) /\
    forall k', k' <> k -> 0 <= field_slot snap k' -> cell_at (field_slot snap k') 8 b' = cell_at (field_slot snap k') 8 b.
Proof.
  intros Hr [Hb Hlen] Ha H3 Hv. unfold snap_ticks, snap_put. pose proof (proj1 (proj2 (proj2 Hr))) as Hn. destruct (Z.leb_spec 0 (field_slot snap k)) as [Hk|Hk].
  - pose proof (field_slot_ok snap k Hn Hk) as Hok. assert (Hok' := Hok). destruct Hok' as [Hlo Hhi].
    destruct (exec_snap_store l snap _ v b s Hr Ha Hok H3 Hv Hb Hlen) as (s1 & E1 & H31 & H21 & F1 & M1 & C1).
    assert (H8 : len (le 8 v) = 8) by reflexivity.
    exists s1, (put_cell (field_slot snap k) (le 8 v) b). splits; [exact E1|exact H31|exact H21|exact F1|exact M1|lia|apply put_cell_length; lia|reflexivity| |].
    + intros _. rewrite cell_put_same by lia. f_equal. apply Z.mod_small. exact Hv.
    + intros k' Hk' Hs'. apply cell_put_other; rewrite ?H8; try lia. change (Z.of_nat 8) with 8. now apply or_comm, field_slot_apart.
  - cbn [app]. rewrite exec_load_args by exact Ha. eexists _, b. split; [reflexivity|].
    splits; [now rewrite getr_other|now apply getr_same|now apply frame_setr|now apply snap_maps_refl|cbn; lia|reflexivity|reflexivity|lia|reflexivity].
Qed.

Lemma widen_u64 k x : access_size (fk_size k) -> 0 <= x < 2 ^ (8 * fk_size k) -> in_u64 (widen (fk_size k) (fk_signed k) x).
Proof. intros Hs Hx. now apply widen_range. Qed.

Lemma raw_range k s t x : mem_ok -> field_ok k s -> ctx_ok s -> raw k s t = Some x -> 0 <= x < 2 ^ (8 * fk_size k).
Proof.
  intros Hm (Hs & _ & _ & Hp & _) [Hw _]. unfold raw. destruct (size_bytes _ Hs) as [_ Hr]. destruct (fk_ptr k).
  - destruct (Hp eq_refl) as [-> _]. unfold arg. destruct (_ <? _); [|discriminate]. intros Hx.
    change (in_u64 x). eapply Forall_lookup_1; eauto.
  - destruct (fk_deref k).
    + destruct (arg _ s) as [p|]; [|discriminate]. destruct (p =? 0); [discriminate|]. destruct (kbytes _ _ _) as [bs|] eqn:Ek; [|discriminate].
      intros [= <-]. pose proof (unle_range bs (kbytes_byte _ _ _ _ Hm Ek)) as Hb. unfold len in Hb. rewrite (kbytes_length _ _ _ _ Ek), Z2Nat.id in Hb by lia.
      now rewrite <- pow256.
    + destruct (words s !! _); [|discriminate]. intros [= <-]. apply Z.mod_pos_bound, Z.pow_pos_nonneg; lia.
Qed.

Lemma exec_group l k g b s :
  mem_ok -> group_ok (k, g) -> conds_ok (k, g) -> field_ok k s -> gate_ready s -> snap_ready snap s -> snap_holds b s -> getr R2 s = Some (Ptr Ctx 0) ->
  exists s' b', frame scratch s s' /\ snap_maps snap b' s s' /\ len b' = len b /\
    match raw k s (clock s) with
    | Some x =>
        if forallb (fun c => passes c x) (g_conds g)
        then exec (group_step snap g ++ l) None s = exec l None s' /\ clock s' = (clock s + ticks k + snap_ticks k)%nat /\
             getr R2 s' = Some (Ptr Ctx 0) /\ group_wrote k x b b' /\ b' = snap_put k (widen (fk_size k) (fk_signed k) x) b
        else exec (group_step snap g ++ l) None s = exec l (Some exit_label) s'
    | None => exec (group_step snap g ++ l) None s = exec l (Some exit_label) s'
    end.
Proof.
  intros Hm [Hrep Hcs] Hv Hk [Hc Ha] Hr Hb H2. cbn [fst snd] in *. rewrite group_step_code, Hrep, <- !app_assoc. unfold conds_ok in Hv. cbn [snd] in Hv.
  match goal with |- context [exec (field_code k ++ ?r) None s] =>
    destruct (exec_field r k s Hm Hk Hc Ha H2) as (s1 & E1 & H3 & F1 & M1) end.
  assert (Hul : forall x, unlabelled (if 0 <=? x then emitSnapStore (sn_fd snap) (sn_key snap) x else [load_args]))
    by (intros x; apply unlabelled_if; [apply unlabelled_store|repeat constructor]).
  assert (Huc : unlabelled (flat_map emitArgCompare (g_conds g))) by (apply unlabelled_flat_map, unlabelled_compare).
  destruct (raw k s (clock s)) as [x|] eqn:Ex.
  2: { exists s1, b. split; [now apply frame_scratch|]. split; [now apply snap_maps_refl; [apply Hb|]|]. split; [reflexivity|].
       rewrite E1, !exec_unlabelled by (reflexivity || auto). reflexivity. }
  destruct (H3 x eq_refl) as (Hx & C1 & _). pose proof (raw_range _ _ _ _ Hm Hk Hc Ex) as Hxr.
  assert (Hb1 : snap_holds b s1) by (destruct Hb as [Hb Hl]; split; [unfold snap_value, value in *; now rewrite M1|exact Hl]).
  assert (Hr1 : snap_ready snap s1) by (apply (snap_ready_maps snap b s); [exact Hr|apply snap_maps_refl; [apply Hb|exact M1]|apply Hb]).
  destruct (exec_snapshot (flat_map emitArgCompare (g_conds g) ++ l) k _ b s1 Hr1 Hb1 (frame_args tmp s s1 F1 tmp_apart Ha) Hx (widen_u64 k x (proj1 Hk) Hxr))
    as (s2 & b' & E2 & H32 & H22 & F2 & M2 & C2 & Hlen & Hput & Hslot & Hoth).
  destruct (exec_conds l k x (g_conds g) s2 Hcs Hv H32) as (s3 & B3 & E3). destruct (but_r4_frame scratch _ _ B3) as (F3 & M3 & C3).
  exists s3, b'. split; [apply (frame_trans _ _ s1); [now apply frame_scratch|now apply (frame_trans _ _ s2)]|].
  split; [unfold snap_maps in *; rewrite M3, M2; cbn [set_object set_maps maps]; now rewrite M1|]. split; [exact Hlen|].
  rewrite E1, E2, E3. destruct (forallb _ _); [|reflexivity]. split; [reflexivity|]. split; [lia|].
  split; [rewrite (but_r4_getr _ _ _ B3); [exact H22|discriminate]|]. now repeat split.
Qed.

Lemma run_groups_frame w gs s s' t : frame w s s' -> run_groups gs s' t = run_groups gs s t.
Proof.
  intros F. revert t. induction gs as [|[k g] gs IH]; intros t; [reflexivity|]. cbn [run_groups]. rewrite (raw_frame w s s' _ _ F).
  destruct (raw k s t); [|reflexivity]. now rewrite IH.
Qed.

Lemma unlabelled_group g : unlabelled (group_step snap g).
Proof.
  rewrite group_step_code. repeat apply unlabelled_app; [apply unlabelled_field| |apply unlabelled_flat_map, unlabelled_compare].
  apply unlabelled_if; [apply unlabelled_store|repeat constructor].
Qed.

Definition slot_holds (b : list Z) (k : field) (x : Z) : Prop :=
  0 <= field_slot snap k -> cell_at (field_slot snap k) 8 b = Some (widen (fk_size k) (fk_signed k) x).

Lemma exec_groups l gs : mem_ok -> forall s b,
  NoDup (map fst gs) -> Forall group_ok gs -> Forall conds_ok gs -> Forall (fun kg => field_ok (fst kg) s) gs ->
  gate_ready s -> snap_ready snap s -> snap_holds b s -> getr R2 s = Some (Ptr Ctx 0) ->
  exists s' b', frame scratch s s' /\ snap_maps snap b' s s' /\ len b' = len b /\
    match run_groups gs s (clock s) with
    | Some xs =>
        exec (flat_map (fun kg => group_step snap (snd kg)) gs ++ l) None s = exec l None s' /\
        b' = groups_snap gs xs b /\ clock s' = (clock s + groups_ticks gs)%nat /\
        Forall2 (slot_holds b') (map fst gs) xs /\
        forall k', k' ∉ map fst gs -> 0 <= field_slot snap k' -> cell_at (field_slot snap k') 8 b' = cell_at (field_slot snap k') 8 b
    | None => exec (flat_map (fun kg => group_step snap (snd kg)) gs ++ l) None s = exec l (Some exit_label) s'
    end.
Proof.
  intros Hm. induction gs as [|[k g] gs IH]; intros s b Hn Hok Hv Hf Hg Hr Hb H2.
  { exists s, b. split; [apply frame_refl|]. split; [now apply snap_maps_refl; [apply Hb|]|]. split; [reflexivity|]. cbn. splits; [reflexivity|reflexivity|lia|constructor|reflexivity]. }
  cbn [map fst] in Hn. apply NoDup_cons in Hn as [Hk Hn]. inversion Hok as [|? ? Hok1 Hoks]; subst. inversion Hv as [|? ? Hv1 Hvs]; subst.
  inversion Hf as [|? ? Hf1 Hfs]; subst. cbn [flat_map run_groups snd]. rewrite <- app_assoc.
  destruct (exec_group (flat_map (fun kg => group_step snap (snd kg)) gs ++ l) k g b s Hm Hok1 Hv1 Hf1 Hg Hr Hb H2) as (s1 & b1 & F1 & M1 & L1 & E1).
  assert (Hul : unlabelled (flat_map (fun kg => group_step snap (snd kg)) gs)) by (apply unlabelled_flat_map; intros kg; apply unlabelled_group).
  destruct (raw k s (clock s)) as [x|].
  2: { exists s1, b1. splits; auto. rewrite E1. now apply exec_unlabelled. }
  destruct (forallb _ _).
  2: { exists s1, b1. splits; auto. rewrite E1. now apply exec_unlabelled. }
  destruct E1 as (E1 & C1 & H21 & (_ & Hslot & Hoth) & Hput).
  assert (Hb1 : snap_holds b1 s1) by (split; [now apply (snap_maps_value snap b1 s)|destruct Hb; lia]).
  destruct (IH s1 b1) as (s2 & b2 & F2 & M2 & L2 & E2); auto.
  - eapply List.Forall_impl; [|exact Hfs]. intros kg Hkg. now apply (field_ok_frame scratch s).
  - apply (gate_ready_frame scratch s); auto using scratch_apart.
  - apply (snap_ready_maps snap b1 s); auto. apply Hb1.
  - exists s2, b2. split; [now apply (frame_trans _ _ s1)|]. split; [now apply (snap_maps_trans snap b1 b2 s s1 s2)|]. split; [lia|].
    rewrite C1, (run_groups_frame scratch gs s s1 _ F1) in E2. destruct (run_groups gs s _) as [xs|]; cbn [option_map]; rewrite E1; [|exact E2].
    destruct E2 as (E2 & Hb2 & C2 & Hxs & Hoth2). split; [exact E2|]. split; [cbn [groups_snap]; now rewrite <- Hput|].
    split; [unfold groups_ticks in *; cbn [fold_right fst]; lia|]. split.
    + constructor; [|exact Hxs]. intros Hs. rewrite Hoth2; auto.
    + intros k' Hk' Hs. cbn [map fst] in Hk'. apply not_elem_of_cons in Hk' as [Hk1 Hk2]. rewrite Hoth2, Hoth; auto.
Qed.

(** What one group's read was: at some moment of the run the field held it,
    and every filter on the field passes on it. *)
Definition read_once (fs : list ArgFilter) (s : st) (k : field) (x : Z) : Prop :=
  (exists t, (clock s <= t)%nat /\ raw k s t = Some x) /\ forall c, c ∈ fs -> field_of c = k -> passes c x = true.

Lemma run_groups_reads gs s t xs : NoDup (map fst gs) -> Forall group_ok gs -> run_groups gs s t = Some xs ->
  Forall2 (fun k x => k ∈ map fst gs /\ (exists u, (t <= u)%nat /\ raw k s u = Some x) /\
    forall kg c, kg ∈ gs -> fst kg = k -> c ∈ g_conds (snd kg) -> passes c x = true) (map fst gs) xs.
Proof.
  revert t xs. induction gs as [|[k g] gs IH]; intros t xs Hn Hok; cbn [run_groups map fst]; [intros [= <-]; constructor|].
  cbn [map fst] in Hn. apply NoDup_cons in Hn as [Hk Hn]. inversion Hok as [|? ? Hok1 Hoks]; subst.
  destruct (raw k s t) as [x|] eqn:Ex; [|discriminate]. destruct (forallb _ _) eqn:Ef; [|discriminate].
  destruct (run_groups gs s _) as [ys|] eqn:Er; [|discriminate]. cbn [option_map]. intros [= <-]. constructor.
  - split; [left|]. split; [now exists t|]. intros kg c Hkg Hfst Hc. apply elem_of_cons in Hkg as [->|Hkg].
    + rewrite forallb_forall in Ef. now apply Ef, list_elem_of_In.
    + exfalso. apply Hk. rewrite <- Hfst. apply list_elem_of_fmap. now exists kg.
  - eapply Forall2_impl; [exact (IH _ _ Hn Hoks Er)|]. cbn beta. intros k' y (Hin & (u & Hu & Hy) & Hc). split; [now right|].
    split; [exists u; split; [lia|exact Hy]|]. intros kg c Hkg Hfst Hcc. apply elem_of_cons in Hkg as [->|Hkg]; [|now apply (Hc kg)].
    cbn [fst] in Hfst. now subst.
Qed.

Lemma exec_recording l fs s b :
  mem_ok -> Forall (fun f => filter_ok f s) fs -> gate_ready s -> snap_ready snap s -> snap_holds b s ->
  exists s' b', frame scratch s s' /\ snap_maps snap b' s s' /\ len b' = len b /\
    match run_groups (group_filters fs) s (clock s) with
    | Some xs =>
        exec (buildArgFilter fs (Some snap) ++ l) None s = exec l None s' /\
        b' = groups_snap (group_filters fs) xs b /\ clock s' = (clock s + groups_ticks (group_filters fs))%nat /\
        Forall2 (fun k x => read_once fs s k x /\ slot_holds b' k x) (map fst (group_filters fs)) xs
    | None => exec (buildArgFilter fs (Some snap) ++ l) None s = exec l (Some exit_label) s'
    end.
Proof.
  intros Hm Hf Hg Hr Hb. assert (Hcase : fs = [] \/ fs <> []) by (destruct fs; [now left|now right]). destruct Hcase as [->|Hne].
  { exists s, b. split; [apply frame_refl|]. split; [now apply snap_maps_refl; [apply Hb|]|]. split; [reflexivity|]. cbn. splits; [reflexivity|reflexivity|lia|constructor]. }
  destruct (group_filters_spec fs) as (Hn & Hok & Hc). pose proof (group_member fs) as Hfk.
  assert (Hwf : Forall (fun kg => field_ok (fst kg) s /\ conds_ok kg) (group_filters fs)).
  { pose proof (group_conds_nonempty fs) as Hnc. pose proof Hf as Hf0. rewrite Forall_forall in Hnc. rewrite Forall_forall in Hf0. rewrite Forall_forall.
    intros kg Hkg. split.
    - pose proof (Hnc kg Hkg) as Hne'. destruct (g_conds (snd kg)) as [|c cs] eqn:Ec; [easy|].
      assert (Hcc : c ∈ g_conds (snd kg)) by (rewrite Ec; left). rewrite <- (Hfk kg c Hkg Hcc). apply Hf0, Hc. now exists kg.
    - unfold conds_ok. rewrite Forall_forall. intros c Hcc. apply (Hf0 c). apply Hc. now exists kg. }
  assert (Eb : buildArgFilter fs (Some snap) = load_args :: flat_map (fun kg => group_step snap (snd kg)) (group_filters fs)).
  { destruct fs; [easy|reflexivity]. }
  rewrite Eb. cbn [app]. rewrite exec_load_args by apply Hg. set (s0 := setr R2 (Ptr Ctx 0) s). assert (F0 : frame scratch s s0) by now apply frame_setr.
  destruct (exec_groups l (group_filters fs) Hm s0 b) as (s1 & b1 & F1 & M1 & L1 & E1); auto.
  - eapply List.Forall_impl; [|exact Hwf]. now intros kg [_ Hkg].
  - eapply List.Forall_impl; [|exact Hwf]. intros kg [Hkg _]. now apply (field_ok_frame scratch s).
  - now apply getr_same.
  - exists s1, b1. split; [now apply (frame_trans _ _ s0)|]. split; [exact M1|]. split; [exact L1|]. change (clock s0) with (clock s) in E1.
    rewrite (run_groups_frame scratch _ s s0 _ F0) in E1.
    destruct (run_groups (group_filters fs) s (clock s)) as [xs|] eqn:Er; [|exact E1]. destruct E1 as (E1 & Hb1 & C1 & Hxs & _). split; [exact E1|]. split; [exact Hb1|].
    split; [exact C1|]. pose proof (run_groups_reads _ _ _ _ Hn Hok Er) as Hrd. apply Forall2_both; [|exact Hxs].
    eapply Forall2_impl; [exact Hrd|]. cbn beta. intros k x (_ & Hx & Hcs). split; [exact Hx|].
    intros c Hcf Hck. apply Hc in Hcf as (kg & Hkg & Hcc). apply (Hcs kg); auto. now rewrite <- (Hfk kg c Hkg Hcc).
Qed.

(** A recording capture reads every field its filters mention once. The
    emitted filters fall through exactly when [run_groups] finds a value for
    every field that passes all the conditions on it, and leave for [exit]
    otherwise. When they fall through, every field's value was read at one
    moment of the run, every condition on the field passes on that value, and
    the field's slot of the snapshot, which the record block is filled from,
    holds that value; [R6] to [R9], the arguments and the stack outside the
    scratch slots are as before. *)
Theorem buildArgFilter_recorded fs s b :
  mem_ok -> Forall (fun f => filter_ok f s) fs -> gate_ready s -> snap_ready snap s -> snap_holds b s ->
  NoDup (map fst (group_filters fs)) /\ (forall f, f ∈ fs -> field_of f ∈ map fst (group_filters fs)) /\
  exists s', frame scratch s s' /\
    match run_groups (group_filters fs) s (clock s) with
    | Some xs =>
        exec (buildArgFilter fs (Some snap)) None s = Next s' /\
        exists b', snap_value snap s' = Some b' /\
          Forall2 (fun k x => read_once fs s k x /\ slot_holds b' k x) (map fst (group_filters fs)) xs
    | None => exec (buildArgFilter fs (Some snap)) None s = Goto exit_label s'
    end.
Proof.
  intros Hm Hf Hg Hr Hb. split; [apply group_filters_spec|]. split; [apply group_covers|].
  destruct (exec_recording [] fs s b Hm Hf Hg Hr Hb) as (s' & b' & F & M & _ & E). exists s'. split; [exact F|].
  rewrite app_nil_r in E. destruct (run_groups _ s (clock s)); [|exact E]. destruct E as (E & _ & _ & Hxs). split; [exact E|].
  exists b'. split; [now apply (snap_maps_value snap b' s)|exact Hxs].
Qed.
End Recording.
