(* ===== verification/GateSets.v ===== *)
(** * GateSets: what the emitted set filters decide

    A set filter builds the set's key out of argument values in a stack
    buffer, looks it up and takes the entry's tag. The key is the one
    [key_of] describes (each field's value at its width, zero in the gaps),
    a missing or inactive entry leaves for [exit], and the tag slot holds the
    last set's tag. *)

From Stdlib Require Import ZArith Lia Bool Ascii String List.
From stdpp Require Import base list strings numbers option gmap.
From S2P Require Import Prelude GoStd GoBytes HookAbi ArgExpr ArgFilter Record RecordBuild Asm Ebpf EbpfFacts Helpers Gate GateFacts GateRecord.
Local Open Scope Z_scope.

(** ** Keys *)

(** [bs] written at [off] of a buffer. *)
Definition put_at {A} (off : Z) (bs buf : list A) : list A :=
  take (Z.to_nat off) buf ++ bs ++ drop (Z.to_nat off + length bs) buf.

Lemma put_at_length {A} off (bs buf : list A) : 0 <= off -> off + Z.of_nat (length bs) <= Z.of_nat (length buf) -> length (put_at off bs buf) = length buf.
Proof. unfold put_at. intros Ho Hb. rewrite !length_app, length_take, length_drop. lia. Qed.

Definition key_bytes (f : SetKeyField) (v : Z) : list Z := le (Z.to_nat (sk_FieldSize f)) v.

Fixpoint put_fields (fs : list SetKeyField) (vs : list Z) (buf : list Z) : list Z :=
  match fs, vs with
  | f :: fs, v :: vs => put_fields fs vs (put_at (sk_FieldOff f) (key_bytes f v) buf)
  | _, _ => buf
  end.

(** The key of a set for its fields' values. *)
Definition key_of (s : SetFilter) (vs : list Z) : list Z := put_fields (sf_Fields s) vs (repeat 0 (Z.to_nat (sf_KeySize s))).

(** The same on what the stack holds. *)
Fixpoint put_cells (fs : list SetKeyField) (vs : list Z) (buf : list (option cell)) : list (option cell) :=
  match fs, vs with
  | f :: fs, v :: vs => put_cells fs vs (put_at (sk_FieldOff f) (map Some (map CByte (key_bytes f v))) buf)
  | _, _ => buf
  end.

Definition key_field_ok (keySize : Z) (f : SetKeyField) : Prop :=
  access_size (sk_FieldSize f) /\ 0 <= sk_FieldOff f /\ sk_FieldOff f + sk_FieldSize f <= keySize.

Lemma key_bytes_length f v : length (key_bytes f v) = Z.to_nat (sk_FieldSize f).
Proof. apply le_length. Qed.

Lemma put_cells_map fs vs buf : put_cells fs vs (map Some (map CByte buf)) = map Some (map CByte (put_fields fs vs buf)).
Proof.
  revert vs buf. induction fs as [|f fs IH]; intros [|v vs] buf; try reflexivity. cbn [put_cells put_fields]. rewrite <- IH. f_equal.
  unfold put_at. now rewrite !map_app, !length_map, !firstn_map, !skipn_map.
Qed.

Lemma put_cells_length K fs vs buf :
  Forall (key_field_ok K) fs -> length buf = Z.to_nat K -> length (put_cells fs vs buf) = Z.to_nat K.
Proof.
  intros Hf. revert vs buf. induction Hf as [|f fs (Hs & Ho & Hk) _ IH]; intros [|v vs] buf Hl; try exact Hl. cbn [put_cells]. apply IH.
  destruct (size_bytes _ Hs) as [_ Hr]. rewrite put_at_length; rewrite ?length_map, ?key_bytes_length; lia.
Qed.

Lemma put_at_prefix {A} off (bs b1 b2 : list A) :
  0 <= off -> take (Z.to_nat off) b1 = take (Z.to_nat off) b2 -> off + Z.of_nat (length bs) <= Z.of_nat (length b1) -> length b1 = length b2 ->
  take (Z.to_nat (off + Z.of_nat (length bs))) (put_at off bs b1) = take (Z.to_nat (off + Z.of_nat (length bs))) (put_at off bs b2).
Proof.
  intros Ho Ht Hb Hl. assert (Hp : forall b, off + Z.of_nat (length bs) <= Z.of_nat (length b) ->
    take (Z.to_nat (off + Z.of_nat (length bs))) (put_at off bs b) = take (Z.to_nat off) b ++ bs).
  { intros b Hb'. unfold put_at. rewrite app_assoc. apply take_app_length'. rewrite length_app, length_take. lia. }
  rewrite !Hp by lia. now rewrite Ht.
Qed.

(** Without gaps every byte is written: the buffer's old content is gone. *)
Lemma put_cells_full K fs : Forall (key_field_ok K) fs -> forall covered vs b1 b2,
  gaps_from covered K fs = false -> 0 <= covered -> K <= 64 -> length vs = length fs ->
  length b1 = Z.to_nat K -> length b2 = Z.to_nat K -> take (Z.to_nat covered) b1 = take (Z.to_nat covered) b2 ->
  put_cells fs vs b1 = put_cells fs vs b2.
Proof.
  intros Hf. induction Hf as [|f fs (Hs & Ho & Hk) _ IH]; intros covered vs b1 b2 Hg Hc HK Hv H1 H2 Ht.
  - destruct vs; [|discriminate]. cbn in Hg |- *. apply negb_false_iff, Z.eqb_eq in Hg as ->. rewrite !take_ge in Ht by lia. exact Ht.
  - destruct vs as [|v vs]; [discriminate|]. cbn [gaps_from] in Hg. destruct (Z.eqb_spec (sk_FieldOff f) covered) as [E|E]; [|discriminate].
    cbn [negb] in Hg. cbn [put_cells]. destruct (size_bytes _ Hs) as [_ Hr]. rewrite u32_small in Hg by lia.
    assert (Hbl : length (map Some (map CByte (key_bytes f v))) = Z.to_nat (sk_FieldSize f)) by (rewrite !length_map; apply key_bytes_length).
    apply (IH (covered + sk_FieldSize f)); auto; try lia.
    + rewrite put_at_length; rewrite ?Hbl; lia.
    + rewrite put_at_length; rewrite ?Hbl; lia.
    + replace (sk_FieldSize f) with (Z.of_nat (length (map Some (map CByte (key_bytes f v))))) by (rewrite Hbl; lia). rewrite <- E in *.
      apply put_at_prefix; auto; rewrite ?Hbl; lia.
Qed.

(** ** The key buffer *)

(** The stack a set filter writes: the key buffer with the scratch slot
    below it, the key of a snapshot lookup, the tag slot. *)
Definition set_window : list (Z * Z) := [(-128, -56); (-16, -12); (-8, 0)].

Lemma set_apart : apart (-48) 8 set_window.
Proof. unfold apart, set_window. repeat constructor; cbn; lia. Qed.

Lemma frame_set s s' : frame scratch s s' -> frame set_window s s'.
Proof.
  intros [R S W N V U]. split; auto. intros a n Ha. apply S. unfold apart, set_window, scratch in *.
  inversion Ha as [|? ? H1 Ht]; subst. inversion Ht as [|? ? H2 _]; subst. cbn in H1, H2.
  constructor; [cbn; lia|]. constructor; [cbn; lia|constructor].
Qed.

Lemma peek_same a n m m' : (forall i, (i < n)%nat -> m !! (a + Z.of_nat i) = m' !! (a + Z.of_nat i)) -> peek a n m = peek a n m'.
Proof.
  intros Hi. unfold peek. apply map_ext_in. intros i Hin. apply in_seq in Hin. apply Hi. lia.
Qed.

Lemma peek_const a n m c : (forall i, (i < n)%nat -> m !! (a + Z.of_nat i) = Some c) -> peek a n m = repeat (Some c) n.
Proof.
  revert a. induction n as [|n IH]; intros a Hi; [reflexivity|]. rewrite peek_S. cbn [repeat]. f_equal.
  - rewrite <- (Hi O) by lia. f_equal. lia.
  - apply IH. intros i Hl. rewrite <- (Hi (S i)) by lia. f_equal. lia.
Qed.

Definition buffer (s : st) (K : Z) : list (option cell) := peek setKeyBase (Z.to_nat K) (stack s).

Section Sets.
Context `{HK : Helpers}.

Lemma exec_zeroes l K fuel : K <= 64 -> forall off s,
  0 <= off -> (8 | off) -> K - off <= 8 * Z.of_nat fuel -> getr R3 s = Some (Num 0) ->
  exists s', exec (key_zeroes fuel off K ++ l) None s = exec l None s' /\ frame set_window s s' /\ maps s' = maps s /\ clock s' = clock s /\
    (forall a, setKeyBase + off <= a < setKeyBase + K -> stack s' !! a = Some (CByte 0)) /\
    (forall a, a < setKeyBase + off -> stack s' !! a = stack s !! a).
Proof.
  intros HK64. induction fuel as [|fuel IH]; intros off s Ho Hd Hf H3; cbn [key_zeroes].
  { exists s. splits; auto using frame_refl. intros a Ha. lia. }
  destruct (Z.ltb_spec off K) as [Hlt|Hge]; [|exists s; splits; auto using frame_refl; intros a Ha; lia].
  destruct Hd as [q Hq]. cbn [app]. assert (Ei : i16 (setKeyBase + off) = setKeyBase + off) by (unfold setKeyBase; apply i16_small; lia). rewrite Ei.
  assert (Hq8 : off + 8 <= 64) by lia. erewrite exec_store_stack; [|reflexivity|exact H3| |reflexivity].
  2: { unfold in_frame, setKeyBase. change (Z.of_nat (Z.to_nat (Sizeof DWord))) with 8. lia. }
  set (cs := map CByte (le (Z.to_nat (Sizeof DWord)) 0)). set (s1 := wr (0 + (setKeyBase + off)) cs s).
  destruct (IH (off + 8) s1) as (s2 & E2 & F2 & M2 & C2 & Hz & Hb); [lia|exists (q + 1); lia|lia|exact H3|].
  exists s2. split; [exact E2|]. split; [|split; [exact M2|split; [exact C2|split]]].
  - apply (frame_trans _ _ s1); [|exact F2]. apply frame_wr. do 2 eexists. split; [left|]. unfold setKeyBase. change (Z.of_nat (length cs)) with 8. lia.
  - intros a Ha. destruct (Z.lt_ge_cases a (setKeyBase + (off + 8))) as [Hl|Hl]; [|apply Hz; lia]. rewrite Hb by exact Hl.
    unfold s1. cbn [wr set_stack stack]. rewrite Z.add_0_l.
    replace a with (setKeyBase + off + Z.of_nat (Z.to_nat (a - (setKeyBase + off)))) by lia.
    assert (Hi : (Z.to_nat (a - (setKeyBase + off)) < 8)%nat) by lia. revert Hi. generalize (Z.to_nat (a - (setKeyBase + off))) as i. intros i Hi.
    pose proof (peek_write_same (setKeyBase + off) cs (stack s)) as Hp. apply (f_equal (fun l => l !! i)) in Hp. unfold peek in Hp.
    change (length cs) with 8%nat in Hp. do 8 (destruct i as [|i]; [cbn in Hp |- *; injection Hp as Hp; exact Hp|]). lia.
  - intros a Ha. rewrite Hb by lia. unfold s1. cbn [wr set_stack stack]. apply write_other. lia.
Qed.

Variable snap : option fieldSnap.

Definition kf (f : SetKeyField) : field := mkFieldKey (sk_ParamIdx f) (sk_Deref f) false (sk_Offset f) (sk_ParamSize f) (sk_ParamSigned f).

(** The snapshot's content, when there is one. *)
Definition memo_ready (b : list Z) (s : st) : Prop := match snap with Some sn => snap_ready sn s /\ snap_holds sn b s | None => True end.
Definition memo_maps (b : list Z) (s s' : st) : Prop := match snap with Some sn => snap_maps sn b s s' | None => maps s' = maps s end.

Lemma memo_refl b s s' : memo_ready b s -> maps s' = maps s -> memo_maps b s s'.
Proof. unfold memo_ready, memo_maps. destruct snap; [|auto]. intros [_ [Hb _]]. now apply snap_maps_refl. Qed.

Lemma memo_trans b b' s1 s2 s3 : memo_maps b s1 s2 -> memo_maps b' s2 s3 -> memo_maps b' s1 s3.
Proof. unfold memo_maps. destruct snap; [apply snap_maps_trans|congruence]. Qed.

Lemma memo_ready_maps b b' s s' : memo_ready b s -> memo_maps b' s s' -> len b' = len b -> memo_ready b' s'.
Proof.
  unfold memo_ready, memo_maps. destruct snap as [sn|]; [|auto]. intros [Hr [Hb Hl]] Hm He.
  split; [apply (snap_ready_maps sn b' s); auto; lia|]. split; [now apply (snap_maps_value sn b' s)|lia].
Qed.

(** The value of a key field: the one already recorded, or a read that is
    recorded when the layout has the field; with the snapshot and the clock
    after it. *)
Definition key_read (f : SetKeyField) (w : gset Z) (b : list Z) (s : st) (t : nat) : option (Z * list Z * nat) :=
  let off := key_off snap f in
  if (0 <=? off) && bool_decide (off ∈ w) then option_map (fun v => (v, b, S t)) (cell_at off 8 b)
  else
    match raw (kf f) s t with
    | Some x =>
        let v := widen (sk_ParamSize f) (sk_ParamSigned f) x in
        if 0 <=? off then Some (v, put_cell off (le 8 v) b, S (t + ticks (kf f))) else Some (v, b, (t + ticks (kf f))%nat)
    | None => None
    end.

Lemma key_off_slot sn f : snap = Some sn -> key_off snap f = field_slot sn (kf f).
Proof. now intros ->. Qed.

Lemma cell_at_some off b : 0 <= off -> off + 8 <= len b -> exists v, cell_at off 8 b = Some v.
Proof.
  unfold cell_at, rd, len. intros Ho Hb. replace (0 <=? off) with true by lia.
  replace (_ <=? _)%nat with true by (symmetry; apply Nat.leb_le; lia). now eexists.
Qed.

Definition key_value_code (f : SetKeyField) (w : gset Z) : list Instruction :=
  let off := key_off snap f in
  let fd := match snap with Some s => sn_fd s | None => 0 end in
  let key := match snap with Some s => sn_key s | None => 0 end in
  (if (0 <=? off) && bool_decide (off ∈ w) then emitSnapLoad fd key off
   else if sk_Deref f
   then emitArgMemberLoad (sk_ParamIdx f) (sk_Offset f) (sk_ParamSize f) (sk_ParamSigned f) exit_label ++ [load_args]
   else emitIntArgLoad R2 (sk_ParamIdx f) (sk_Offset f) (sk_ParamSize f) (sk_ParamSigned f))
  ++ (if (0 <=? off) && negb (bool_decide (off ∈ w)) then emitSnapStore fd key off else []).

(** Reading a key field into [R3]. *)
Lemma exec_key_value l f w b s :
  mem_ok -> memo_ready b s -> gate_ready s -> field_ok (kf f) s -> getr R2 s = Some (Ptr Ctx 0) ->
  exists s' b', frame scratch s s' /\ memo_maps b' s s' /\ len b' = len b /\
    match key_read f w b s (clock s) with
    | Some (v, b1, t) => b1 = b' /\ exec (key_value_code f w ++ l) None s = exec l None s' /\ clock s' = t /\
        getr R3 s' = Some (Num v) /\ getr R2 s' = Some (Ptr Ctx 0)
    | None => exec (key_value_code f w ++ l) None s = exec l (Some exit_label) s'
    end.
Proof.
  intros Hm Hb [Hc Ha] Hk H2. unfold key_value_code, key_read. cbv zeta. set (off := key_off snap f).
  assert (Hoff : 0 <= off -> exists sn, snap = Some sn /\ off = field_slot sn (kf f) /\ slot_ok sn off /\ snap_ready sn s /\ snap_holds sn b s).
  { unfold off, memo_ready in *. destruct snap as [sn|]; [|unfold key_off, snap_off; lia]. intros Ho. destruct Hb as [Hr Hh]. exists sn.
    split; [reflexivity|]. split; [reflexivity|]. split; [|now split]. exact (field_slot_ok sn (kf f) (proj1 (proj2 (proj2 Hr))) Ho). }
  destruct ((0 <=? off) && bool_decide (off ∈ w)) eqn:E.
  - apply andb_prop in E as [E1 E2]. rewrite E2, andb_false_r, app_nil_r. destruct (Hoff ltac:(lia)) as (sn & Es & _ & [Ho1 Ho2] & Hr & Hh). rewrite Es.
    destruct (cell_at_some off b Ho1) as [v Hv]; [destruct Hh; lia|]. rewrite Hv. cbn [option_map].
    destruct (exec_snap_load l sn off v b s Hr Ha (proj1 Hh) Hv) as (s1 & E1' & H31 & H21 & F1 & M1 & C1).
    exists s1, b. split; [|split; [now apply memo_refl|]].
    + apply (frame_incl [(-16, -12)]); [|exact F1]. intros x Hx. apply list_elem_of_singleton in Hx as ->. right. left.
    + repeat split; auto.
  - set (again := if sk_Deref f then [load_args] else []).
    assert (Hcode : forall l, (if sk_Deref f then emitArgMemberLoad (sk_ParamIdx f) (sk_Offset f) (sk_ParamSize f) (sk_ParamSigned f) exit_label ++ [load_args]
       else emitIntArgLoad R2 (sk_ParamIdx f) (sk_Offset f) (sk_ParamSize f) (sk_ParamSigned f)) ++ l = field_code (kf f) ++ again ++ l).
    { intros l'. unfold field_code, again. cbn [kf fk_ptr fk_deref fk_index fk_offset fk_size fk_signed]. destruct (sk_Deref f); now rewrite <- ?app_assoc. }
    rewrite <- app_assoc, Hcode. clear Hcode. set (st_code := if (0 <=? off) && negb _ then _ else []).
    destruct (exec_field (again ++ st_code ++ l) (kf f) s Hm Hk Hc Ha H2) as (s1 & E1 & H3 & F1 & M1). rewrite E1. clear E1.
    assert (Hag : unlabelled again) by (unfold again; destruct (sk_Deref f); repeat constructor).
    assert (Hst : unlabelled st_code) by (unfold st_code; apply unlabelled_if; repeat constructor).
    destruct (raw (kf f) s (clock s)) as [x|] eqn:Ex.
    2: { exists s1, b. split; [now apply frame_scratch|]. split; [now apply memo_refl|]. split; [reflexivity|].
         now rewrite !exec_unlabelled by (reflexivity || assumption). }
    destruct (H3 x eq_refl) as (Hx & C1 & Hn). clear H3. cbn [kf fk_size fk_signed] in Hx.
    assert (Hagain : exists s2, exec (again ++ st_code ++ l) None s1 = exec (st_code ++ l) None s2 /\ getr R2 s2 = Some (Ptr Ctx 0) /\
      getr R3 s2 = getr R3 s1 /\ frame tmp s1 s2 /\ maps s2 = maps s1 /\ clock s2 = clock s1).
    { unfold again, ticks in *. cbn [kf fk_ptr fk_deref] in Hn. destruct (sk_Deref f); cbn [app]; [|exists s1; splits; auto using frame_refl].
      rewrite exec_load_args by (apply (frame_args tmp s); auto using tmp_apart). eexists. split; [reflexivity|].
      splits; auto; [now apply getr_same|now rewrite getr_other by discriminate|now apply frame_setr]. }
    destruct Hagain as (s2 & -> & H22 & H32 & F2 & M2 & C2). rewrite Hx in H32.
    assert (F02 : frame scratch s s2) by (apply frame_scratch; now apply (frame_trans _ _ s1)).
    pose proof (raw_range _ _ _ _ Hm Hk Hc Ex) as Hxr. pose proof (widen_u64 (kf f) x (proj1 Hk) Hxr) as Hwu. cbn [kf fk_size fk_signed] in Hwu.
    assert (Hm2 : maps s2 = maps s) by congruence. unfold st_code. clear Hst st_code. destruct (Z.leb_spec 0 off) as [Ho|Ho].
    + cbn [andb] in E. rewrite E. cbn [andb negb]. destruct (Hoff Ho) as (sn & Es & Eo & Hok & Hr & Hh).
      assert (Hmm : memo_maps b s s2) by now apply memo_refl.
      assert (Hb2 : memo_ready b s2) by now apply (memo_ready_maps b b s).
      unfold memo_ready in Hb2. rewrite Es in Hb2. destruct Hb2 as [Hr2 Hh2]. rewrite Es.
      destruct (exec_snap_store l sn off _ b s2 Hr2 (frame_args scratch s s2 F02 scratch_apart Ha) Hok H32 Hwu (proj1 Hh2) (proj2 Hh2))
        as (s3 & E3 & H33 & H23 & F3 & M3 & C3).
      exists s3, (put_cell off (le 8 (widen (sk_ParamSize f) (sk_ParamSigned f) x)) b). split; [now apply (frame_trans _ _ s2)|].
      split; [apply (memo_trans b _ s s2 s3 Hmm); unfold memo_maps; rewrite Es; exact M3|].
      split; [destruct Hok; apply put_cell_length; [lia|change (len (le 8 _)) with 8; destruct Hh; lia]|].
      repeat split; auto. cbn [kf fk_size fk_signed] in *. lia.
    + cbn [andb app]. exists s2, b. split; [exact F02|]. split; [now apply memo_refl|]. split; [reflexivity|]. repeat split; auto. lia.
Qed.

Lemma key_field_step_code f w :
  fst (key_field_step snap f w) = key_value_code f w ++ [StoreMem RFP (i16 (setKeyBase + sk_FieldOff f)) R3 (asmSizeFor (sk_FieldSize f))].
Proof. unfold key_field_step, key_value_code. cbn [fst]. now rewrite <- app_assoc. Qed.

Lemma exec_key_field l K f w b s :
  mem_ok -> memo_ready b s -> gate_ready s -> field_ok (kf f) s -> key_field_ok K f -> K <= 64 -> getr R2 s = Some (Ptr Ctx 0) ->
  exists s' b', frame set_window s s' /\ memo_maps b' s s' /\ len b' = len b /\
    match key_read f w b s (clock s) with
    | Some (v, b1, t) => b1 = b' /\ exec (fst (key_field_step snap f w) ++ l) None s = exec l None s' /\ clock s' = t /\
        getr R2 s' = Some (Ptr Ctx 0) /\ buffer s' K = put_at (sk_FieldOff f) (map Some (map CByte (key_bytes f v))) (buffer s K)
    | None => exec (fst (key_field_step snap f w) ++ l) None s = exec l (Some exit_label) s'
    end.
Proof.
  intros Hm Hb Hg Hk (Hs & Ho & HoK) HK64 H2. rewrite key_field_step_code, <- app_assoc. destruct (size_bytes _ Hs) as [Es Hr].
  match goal with |- context [exec (key_value_code f w ++ ?r) None s] =>
    destruct (exec_key_value r f w b s Hm Hb Hg Hk H2) as (s1 & b1 & F1 & M1 & L1 & E1) end.
  destruct (key_read f w b s (clock s)) as [[[v b2] t]|].
  2: { exists s1, b1. split; [now apply frame_set|]. split; [exact M1|]. split; [exact L1|]. rewrite E1. cbn [app]. now rewrite exec_pass. }
  destruct E1 as (-> & E1 & C1 & H31 & H21).
  assert (Ei : i16 (setKeyBase + sk_FieldOff f) = setKeyBase + sk_FieldOff f) by (unfold setKeyBase; apply i16_small; lia).
  set (cs := map CByte (key_bytes f v)). set (s2 := wr (setKeyBase + sk_FieldOff f) cs s1). exists s2, b1.
  assert (Hcl : length cs = Z.to_nat (sk_FieldSize f)) by (unfold cs; rewrite length_map; apply key_bytes_length).
  split; [|split; [exact M1|split; [exact L1|split; [reflexivity|split; [|split; [exact C1|split; [exact H21|]]]]]]].
  - apply (frame_trans _ _ s1); [now apply frame_set|]. apply frame_wr. do 2 eexists. split; [left|]. rewrite Hcl, Z2Nat.id by lia. unfold setKeyBase. lia.
  - rewrite E1. cbn [app]. erewrite exec_store_stack; [|reflexivity|exact H31| |].
    2: { unfold in_frame, setKeyBase in *. rewrite Ei, Es, Z2Nat.id by lia. lia. }
    2: { rewrite Es. reflexivity. }
    rewrite Ei. reflexivity.
  - unfold buffer, s2. cbn [wr set_stack stack]. rewrite (peek_write_inside _ cs (stack s1) setKeyBase (Z.to_nat K) (Z.to_nat (sk_FieldOff f))) by lia.
    unfold put_at. rewrite length_map, Hcl.
    assert (Hbuf : peek setKeyBase (Z.to_nat K) (stack s1) = peek setKeyBase (Z.to_nat K) (stack s)).
    { apply (fr_stack _ _ _ F1). unfold apart, scratch, setKeyBase. constructor; [cbn; lia|]. constructor; [|constructor]. rewrite Z2Nat.id by lia. lia. }
    now rewrite Hbuf.
Qed.

(** ** The fields of a key *)

Fixpoint read_fields (fs : list SetKeyField) (w : gset Z) (b : list Z) (s : st) (t : nat) : option (list Z * list Z * nat) :=
  match fs with
  | [] => Some ([], b, t)
  | f :: fs =>
      match key_read f w b s t with
      | Some (v, b, t) =>
          match read_fields fs (snd (key_field_step snap f w)) b s t with
          | Some (vs, b, t) => Some (v :: vs, b, t)
          | None => None
          end
      | None => None
      end
  end.

Lemma key_read_frame w' f w b s s' t : frame w' s s' -> key_read f w b s' t = key_read f w b s t.
Proof. intros F. unfold key_read. now rewrite (raw_frame w' s s' _ _ F). Qed.

Lemma read_fields_frame w' fs w b s s' t : frame w' s s' -> read_fields fs w b s' t = read_fields fs w b s t.
Proof.
  intros F. revert w b t. induction fs as [|f fs IH]; intros w b t; [reflexivity|]. cbn [read_fields]. rewrite (key_read_frame w' f w b s s' t F).
  destruct (key_read f w b s t) as [[[v b1] t1]|]; [|reflexivity]. now rewrite IH.
Qed.

Lemma key_fields_cons f fs w :
  key_fields snap (f :: fs) w =
  (fst (key_field_step snap f w) ++ fst (key_fields snap fs (snd (key_field_step snap f w))), snd (key_fields snap fs (snd (key_field_step snap f w)))).
Proof. cbn [key_fields]. destruct (key_field_step snap f w) as [c w1]. cbn [fst snd]. now destruct (key_fields snap fs w1). Qed.

Lemma unlabelled_key_value f w : unlabelled (key_value_code f w).
Proof.
  unfold key_value_code. apply unlabelled_app; [|apply unlabelled_if; repeat constructor].
  apply unlabelled_if; [repeat constructor|]. apply unlabelled_if; [|apply unlabelled_int]. apply unlabelled_app; [apply unlabelled_member|repeat constructor].
Qed.

Lemma unlabelled_key_fields fs : forall w, unlabelled (fst (key_fields snap fs w)).
Proof.
  induction fs as [|f fs IH]; intros w; [constructor|]. rewrite key_fields_cons. cbn [fst]. apply unlabelled_app; [|apply IH].
  rewrite key_field_step_code. apply unlabelled_app; [apply unlabelled_key_value|repeat constructor].
Qed.

Lemma exec_key_fields l K fs : mem_ok -> K <= 64 -> Forall (key_field_ok K) fs -> forall w b s,
  Forall (fun f => field_ok (kf f) s) fs -> memo_ready b s -> gate_ready s -> getr R2 s = Some (Ptr Ctx 0) ->
  exists s' b', frame set_window s s' /\ memo_maps b' s s' /\ len b' = len b /\
    match read_fields fs w b s (clock s) with
    | Some (vs, b1, t) => b1 = b' /\ exec (fst (key_fields snap fs w) ++ l) None s = exec l None s' /\ clock s' = t /\
        length vs = length fs /\ buffer s' K = put_cells fs vs (buffer s K)
    | None => exec (fst (key_fields snap fs w) ++ l) None s = exec l (Some exit_label) s'
    end.
Proof.
  intros Hm HK64 Hkf. induction Hkf as [|f fs Hkf1 Hkfs IH]; intros w b s Hf Hb Hg H2.
  { exists s, b. split; [apply frame_refl|]. split; [now apply memo_refl|]. split; [reflexivity|]. cbn. auto. }
  inversion Hf as [|? ? Hf1 Hfs]; subst. rewrite key_fields_cons. cbn [fst read_fields]. rewrite <- app_assoc.
  match goal with |- context [exec (_ ++ ?r) None s] => destruct (exec_key_field r K f w b s Hm Hb Hg Hf1 Hkf1 HK64 H2) as (s1 & b1 & F1 & M1 & L1 & E1) end.
  destruct (key_read f w b s (clock s)) as [[[v b2] t]|].
  2: { exists s1, b1. splits; auto. rewrite E1. apply exec_unlabelled; [apply unlabelled_key_fields|reflexivity]. }
  destruct E1 as (-> & E1 & C1 & H21 & B1).
  destruct (IH (snd (key_field_step snap f w)) b1 s1) as (s2 & b3 & F2 & M2 & L2 & E2).
  - eapply List.Forall_impl; [|exact Hfs]. intros g Hg'. now apply (field_ok_frame set_window s).
  - now apply (memo_ready_maps b b1 s).
  - apply (gate_ready_frame set_window s); auto using set_apart.
  - exact H21.
  - exists s2, b3. split; [now apply (frame_trans _ _ s1)|]. split; [now apply (memo_trans b1 b3 s s1 s2)|]. split; [lia|].
    rewrite C1, (read_fields_frame set_window fs _ b1 s s1 t F1) in E2. rewrite E1.
    destruct (read_fields fs _ b1 s t) as [[[vs b4] t']|]; [|exact E2]. destruct E2 as (-> & E2 & C2 & Hl & B2).
    repeat split; auto; [cbn; lia|]. cbn [put_cells]. now rewrite B2, B1.
Qed.

(** ** The lookup *)

Definition tag_width_ok (w : Z) : bool := (w =? 1) || (w =? 2) || (w =? 4) || (w =? 8).

(** The tag an entry gives, if it is active. *)
Definition entry_tag (width stateOff : Z) (v : list Z) : option Z :=
  if (0 <=? stateOff) && negb (bool_decide (cell_at stateOff 1 v = Some 0)) then None
  else Some (if tag_width_ok width then default 0 (cell_at 0 (Z.to_nat width) v) else 0).

(** A set's map: its key size, and values its layout fits. *)
Definition set_map_ok (s : SetFilter) (fd : Z) (c : st) : Prop :=
  keySize fd = Z.to_nat (sf_KeySize s) /\ sf_StateOff s < 32768 /\
  exists m, maps c !! fd = Some m /\
    forall k v, m !! k = Some v -> Forall byte v /\ (0 <= sf_StateOff s -> sf_StateOff s + 1 <= len v) /\ (tag_width_ok (sf_TagWidth s) = true -> sf_TagWidth s <= len v).

Lemma cell_at_range off n v x : Forall byte v -> (n <= 8)%nat -> cell_at off n v = Some x -> in_u64 x.
Proof.
  unfold cell_at, rd. intros Hv Hn. destruct (0 <=? off); [|discriminate]. destruct (_ <=? _)%nat; [|discriminate]. intros [= <-].
  assert (Hb : Forall byte (take n (drop (Z.to_nat off) v))) by now apply Forall_take, Forall_drop.
  pose proof (unle_range _ Hb) as Hr. unfold len in Hr. rewrite length_take in Hr.
  assert (Hp : 256 ^ Z.of_nat (Nat.min n (length (drop (Z.to_nat off) v))) <= 256 ^ 8) by (apply Z.pow_le_mono_r; lia).
  change (256 ^ 8) with two64 in Hp. unfold in_u64. lia.
Qed.

Lemma tag_width_size w : tag_width_ok w = true -> access_size w /\ u32 w = w.
Proof.
  unfold tag_width_ok. intros Hw. repeat (apply orb_prop in Hw as [Hw|Hw]); apply Z.eqb_eq in Hw as ->; (split; [|reflexivity]); unfold access_size; auto.
Qed.

(** The tag part, with the entry's address in [R0]. *)
Lemma exec_tag l fd key width v s :
  value fd key s = Some v -> Forall byte v -> (tag_width_ok width = true -> width <= len v) -> getr R0 s = Some (Ptr (ValueOf fd key) 0) ->
  exists s', exec ((if tag_width_ok width then [LoadMem R1 R0 0 (asmSizeFor (u32 width))] else [Imm Mov R1 0]) ++ StoreMem RFP tagSlot R1 DWord :: l) None s = exec l None s' /\
    ldst tagSlot 8 s' = Some (Num (if tag_width_ok width then default 0 (cell_at 0 (Z.to_nat width) v) else 0)) /\
    frame [(-8, 0)] s s' /\ maps s' = maps s /\ clock s' = clock s.
Proof.
  intros Hv Hby Hw H0.
  assert (Hst : forall x s1, in_u64 x -> getr R1 s1 = Some (Num x) ->
    exists s', exec (StoreMem RFP tagSlot R1 DWord :: l) None s1 = exec l None s' /\ ldst tagSlot 8 s' = Some (Num x) /\
      frame [(-8, 0)] s1 s' /\ maps s' = maps s1 /\ clock s' = clock s1).
  { intros x s1 Hx H1. erewrite exec_store_stack; [|reflexivity|exact H1|reflexivity|reflexivity]. eexists. split; [reflexivity|].
    split; [|split; [|split; reflexivity]].
    - change (0 + tagSlot) with tagSlot. rewrite ldst_wr_same by reflexivity. apply decode_encode8; [|reflexivity]. now intros z [= <-].
    - apply frame_wr. do 2 eexists. split; [left|]. rewrite length_map, le_length. unfold tagSlot. change (Z.of_nat (Z.to_nat (Sizeof DWord))) with 8. lia. }
  destruct (tag_width_ok width) eqn:E; cbn [app].
  - destruct (tag_width_size _ E) as [Hs Eu]. destruct (size_bytes _ Hs) as [Es Hr]. specialize (Hw eq_refl). rewrite Eu.
    assert (Hc : exists x, cell_at 0 (Z.to_nat width) v = Some x).
    { unfold cell_at, rd. cbn [Z.leb Z.compare]. unfold len in Hw. replace (_ <=? _)%nat with true by (symmetry; apply Nat.leb_le; lia). now eexists. }
    destruct Hc as [x Hc]. rewrite Hc. cbn [from_option id].
    erewrite exec_LoadMem; [|discriminate|exact H0|rewrite Es; cbn [add_off Z.add]; eapply load_value; [exact Hv|exact Hc]].
    destruct (Hst x (setr R1 (Num x) s)) as (s' & E1 & Ht & F & M & C); [apply (cell_at_range 0 (Z.to_nat width) v); auto; lia|now apply getr_same|].
    exists s'. split; [exact E1|]. split; [exact Ht|]. split; [|now split]. apply (frame_trans _ _ (setr R1 (Num x) s)); [now apply frame_setr|exact F].
  - rewrite exec_Mov_Imm by discriminate. change (u64 0) with 0.
    destruct (Hst 0 (setr R1 (Num 0) s)) as (s' & E1 & Ht & F & M & C); [unfold in_u64, two64; lia|now apply getr_same|].
    exists s'. split; [exact E1|]. split; [exact Ht|]. split; [|now split]. apply (frame_trans _ _ (setr R1 (Num 0) s)); [now apply frame_setr|exact F].
Qed.

Lemma exec_set_lookup l sf fd off key m s :
  keySize fd = length key -> bytes_at (Ptr Stack off) (length key) s = Some key -> maps s !! fd = Some m -> -512 <= off <= 0 ->
  set_map_ok sf fd s ->
  exists s', frame [(-8, 0)] s s' /\ maps s' = maps s /\ clock s' = S (clock s) /\
    match m !! key ≫= entry_tag (sf_TagWidth sf) (sf_StateOff sf) with
    | Some tag => exec (emitSetLookup fd off (sf_TagWidth sf) (sf_StateOff sf) ++ l) None s = exec l None s' /\ ldst tagSlot 8 s' = Some (Num tag)
    | None => exec (emitSetLookup fd off (sf_TagWidth sf) (sf_StateOff sf) ++ l) None s = exec l (Some exit_label) s'
    end.
Proof.
  intros Hks Hkey Hm Hoff (_ & Hso & m' & Hm' & Hvals). rewrite Hm in Hm'. injection Hm' as <-. unfold emitSetLookup. rewrite <- !app_assoc.
  cbn [app]. rewrite exec_LoadMapPtr by discriminate. step. assert (Eo : i32 off = off) by (apply i32_small; lia). rewrite Eo.
  erewrite exec_Add_ptr; [|discriminate|unfold two63; lia|regs]. rewrite exec_Call, Z.add_0_l.
  erewrite map_lookup; [|regs|regs|rewrite Hks; exact Hkey|exact Hm].
  match goal with |- context [returned _ ?u] => set (t := u) end.
  assert (Ft : frame [(-8, 0)] s t) by (unfold t; repeat (eapply frame_trans; [|apply frame_setr; reflexivity]); apply frame_refl).
  fold (tag_width_ok (sf_TagWidth sf)). destruct (m !! key) as [v|] eqn:Hv.
  2: { erewrite exec_JImm; [|regs|reflexivity|reflexivity]. change (0 =? u64 0) with true. cbv iota. exists (returned (Num 0) t).
       split; [eapply frame_trans; [exact Ft|apply frame_returned]|]. split; [reflexivity|]. split; [reflexivity|]. cbn [mbind option_bind].
       rewrite !exec_unlabelled; try reflexivity; repeat (apply unlabelled_if; repeat constructor). }
  erewrite exec_JImm; [|regs|reflexivity|reflexivity]. set (s1 := returned _ t). destruct (Hvals key v Hv) as (Hby & Hst & Htw).
  assert (F1 : frame [(-8, 0)] s s1) by (eapply frame_trans; [exact Ft|apply frame_returned]).
  assert (H0 : getr R0 s1 = Some (Ptr (ValueOf fd key) 0)) by apply getr_returned_0.
  assert (Hval : value fd key s1 = Some v) by (unfold value; change (maps s1) with (maps s); now rewrite Hm). cbn [mbind option_bind].
  unfold entry_tag. set (tag := if tag_width_ok _ then _ else 0).
  destruct (Z.leb_spec 0 (sf_StateOff sf)) as [Hs0|Hs0]; cbn [app andb].
  2: { destruct (exec_tag l fd key (sf_TagWidth sf) v s1 Hval Hby Htw H0) as (s2 & E2 & Ht & F2 & M2 & C2). exists s2.
       split; [now apply (frame_trans _ _ s1)|]. split; [exact M2|]. split; [exact C2|]. now split. }
  specialize (Hst Hs0). assert (Es : i16 (sf_StateOff sf) = sf_StateOff sf) by (apply i16_small; lia). rewrite Es.
  assert (Hc : exists x, cell_at (sf_StateOff sf) 1 v = Some x).
  { unfold cell_at, rd. replace (0 <=? sf_StateOff sf) with true by lia. unfold len in Hst. replace (_ <=? _)%nat with true by (symmetry; apply Nat.leb_le; lia). now eexists. }
  destruct Hc as [x Hc]. rewrite Hc.
  erewrite exec_LoadMem; [|discriminate|exact H0|cbn [add_off Z.add]; eapply load_value; [exact Hval|exact Hc]].
  erewrite exec_JImm; [|now apply getr_same|reflexivity|reflexivity]. change (u64 0) with 0. destruct (Z.eqb_spec x 0) as [->|Hx]; cbn [negb].
  - rewrite bool_decide_true by reflexivity. cbn [negb].
    destruct (exec_tag l fd key (sf_TagWidth sf) v (setr R1 (Num 0) s1)) as (s2 & E2 & Ht & F2 & M2 & C2); auto; [now rewrite getr_other|].
    exists s2. split; [apply (frame_trans _ _ (setr R1 (Num 0) s1)); [apply (frame_trans _ _ s1); [exact F1|now apply frame_setr]|exact F2]|].
    split; [exact M2|]. split; [exact C2|]. now split.
  - rewrite bool_decide_false by congruence. cbn [negb]. exists (setr R1 (Num x) s1).
    split; [apply (frame_trans _ _ s1); [exact F1|now apply frame_setr]|]. split; [reflexivity|]. split; [reflexivity|].
    rewrite exec_unlabelled; [|apply unlabelled_if; repeat constructor|reflexivity]. now rewrite exec_pass.
Qed.

(** ** One set *)

(** The buffer before the fields are written: zero when the fields leave
    gaps. *)
Lemma exec_zeroing l x s :
  0 <= sf_KeySize x <= 64 ->
  exists s', exec (key_zeroing x ++ l) None s = exec l None s' /\ frame set_window s s' /\ maps s' = maps s /\ clock s' = clock s /\
    (keyHasGaps x = true -> buffer s' (sf_KeySize x) = map Some (map CByte (repeat 0 (Z.to_nat (sf_KeySize x))))).
Proof.
  intros Hsz. unfold key_zeroing. destruct (keyHasGaps x) eqn:Eg.
  2: { exists s. splits; auto using frame_refl. discriminate. }
  cbn [app]. rewrite exec_Mov_Imm by discriminate. change (u64 0) with 0.
  destruct (exec_zeroes l (sf_KeySize x) (S (Z.to_nat (sf_KeySize x))) ltac:(lia) 0 (setr R3 (Num 0) s)) as (s1 & E1 & F1 & M1 & C1 & Hz & _);
    [lia|now exists 0|lia|now apply getr_same|].
  exists s1. split; [exact E1|]. split; [apply (frame_trans _ _ (setr R3 (Num 0) s)); [now apply frame_setr|exact F1]|].
  split; [exact M1|]. split; [exact C1|]. intros _. unfold buffer. rewrite (peek_const _ _ _ (CByte 0)) by (intros i Hi; apply Hz; lia).
  generalize (Z.to_nat (sf_KeySize x)) as n. induction n as [|n IH]; [reflexivity|]. cbn [repeat map]. now rewrite IH.
Qed.

(** Whatever the stack held, the fields then make the set's key. *)
Lemma key_written x vs buf :
  0 <= sf_KeySize x <= 64 -> Forall (key_field_ok (sf_KeySize x)) (sf_Fields x) -> length vs = length (sf_Fields x) ->
  length buf = Z.to_nat (sf_KeySize x) ->
  (keyHasGaps x = true -> buf = map Some (map CByte (repeat 0 (Z.to_nat (sf_KeySize x))))) ->
  put_cells (sf_Fields x) vs buf = map Some (map CByte (key_of x vs)).
Proof.
  intros Hsz Hf Hv Hb Hz. unfold key_of. rewrite <- put_cells_map. destruct (keyHasGaps x) eqn:Eg; [now rewrite Hz|].
  apply (put_cells_full (sf_KeySize x) _ Hf 0); auto; try lia. now rewrite !length_map, repeat_length.
Qed.

Lemma key_of_length x vs : Forall (key_field_ok (sf_KeySize x)) (sf_Fields x) -> length (key_of x vs) = Z.to_nat (sf_KeySize x).
Proof.
  intros Hf. pose proof (put_cells_length (sf_KeySize x) _ vs (map Some (map CByte (repeat 0 (Z.to_nat (sf_KeySize x))))) Hf) as Hl.
  rewrite put_cells_map, !length_map in Hl. apply Hl. apply repeat_length.
Qed.

Lemma buffer_bytes s K key :
  0 <= K <= 64 -> buffer s K = map Some (map CByte key) -> bytes_at (Ptr Stack setKeyBase) (length key) s = Some key.
Proof.
  intros Hsz Hb. assert (Hl : Z.to_nat K = length key) by (apply (f_equal length) in Hb; unfold buffer, peek in Hb; now rewrite !length_map, length_seq in Hb).
  cbn [bytes_at]. replace (in_frame _ _) with true by (unfold in_frame, setKeyBase; lia).
  unfold read. unfold buffer in Hb. rewrite Hl in Hb. rewrite Hb.
  assert (Hm : mapM id (map Some (map CByte key)) = Some (map CByte key)) by (apply mapM_Some, Forall2_fmap_l, Forall_Forall2_diag; apply Forall_true; reflexivity).
  rewrite Hm. cbn [mbind option_bind]. apply bytes_of_cells.
Qed.

Variable setMapFD : SetFilter -> Z.

(** A set of numeric key fields (of 1, 2, 4 or 8 bytes, as [SetKeyField]
    documents) with its map. Resolution also lets 16-byte address fields
    through; they are not in scope here, and [SetGate] shows what becomes of
    one. *)
Definition set_ok (x : SetFilter) (s : st) : Prop :=
  0 <= sf_KeySize x <= 64 /\ Forall (key_field_ok (sf_KeySize x)) (sf_Fields x) /\ Forall (fun f => field_ok (kf f) s) (sf_Fields x) /\
  set_map_ok x (setMapFD x) s /\ match snap with Some sn => sn_fd sn <> setMapFD x | None => True end.

Definition set_entry (x : SetFilter) (key : list Z) (s : st) : option Z :=
  value (setMapFD x) key s ≫= entry_tag (sf_TagWidth x) (sf_StateOff x).

(** The sets one after the other: the tags found, with the snapshot and the
    clock at the end. *)
Fixpoint run_sets (sets : list SetFilter) (w : gset Z) (b : list Z) (s : st) (t : nat) : option (list Z * list Z * nat) :=
  match sets with
  | [] => Some ([], b, t)
  | x :: sets =>
      match read_fields (sf_Fields x) w b s t with
      | Some (vs, b, t) =>
          match set_entry x (key_of x vs) s, run_sets sets (snd (key_fields snap (sf_Fields x) w)) b s (S t) with
          | Some tag, Some (tags, b, t) => Some (tag :: tags, b, t)
          | _, _ => None
          end
      | None => None
      end
  end.

Lemma frame_tag s s' : frame [(-8, 0)] s s' -> frame set_window s s'.
Proof. apply frame_incl. intros w Hw. apply list_elem_of_singleton in Hw as ->. unfold set_window. do 2 right. left. Qed.

Lemma memo_value b s s' fd key : memo_maps b s s' -> match snap with Some sn => sn_fd sn <> fd | None => True end -> value fd key s' = value fd key s.
Proof.
  unfold memo_maps, snap_maps. destruct snap as [sn|]; intros Hm Hn; unfold value; rewrite Hm; [|reflexivity].
  cbn [set_object set_maps maps]. now rewrite lookup_insert_ne.
Qed.

Lemma memo_lookup b s s' fd : memo_maps b s s' -> match snap with Some sn => sn_fd sn <> fd | None => True end -> maps s' !! fd = maps s !! fd.
Proof.
  unfold memo_maps, snap_maps. destruct snap as [sn|]; intros Hm Hn; rewrite Hm; [|reflexivity].
  cbn [set_object set_maps maps]. now rewrite lookup_insert_ne.
Qed.

Lemma set_ok_kept b x s s' : frame set_window s s' -> memo_maps b s s' -> set_ok x s -> set_ok x s'.
Proof.
  intros F Hm (Hk & Hf & Hfo & (Hks & Hso & m & Hmap & Hv) & Hn). split; [exact Hk|]. split; [exact Hf|]. split; [|split; [|exact Hn]].
  - eapply List.Forall_impl; [|exact Hfo]. intros f. now apply (field_ok_frame set_window s).
  - split; [exact Hks|]. split; [exact Hso|]. exists m. split; [|exact Hv]. now rewrite (memo_lookup b s s').
Qed.

Lemma run_sets_kept b0 sets : forall w b s s' t,
  frame set_window s s' -> memo_maps b0 s s' -> Forall (fun x => set_ok x s) sets -> run_sets sets w b s' t = run_sets sets w b s t.
Proof.
  induction sets as [|x sets IH]; intros w b s s' t F Hm Hs; [reflexivity|]. cbn [run_sets]. inversion Hs as [|? ? Hs1 Hss]; subst.
  rewrite (read_fields_frame set_window _ w b s s' t F). destruct (read_fields _ w b s t) as [[[vs b1] t1]|]; [|reflexivity].
  unfold set_entry. rewrite (memo_value b0 s s' _ _ Hm) by apply Hs1. destruct (_ ≫= _); [|reflexivity]. now rewrite (IH _ b1 s s').
Qed.

(** One set: key, lookup and tag. *)
Definition set_code (x : SetFilter) (w : gset Z) : list Instruction :=
  key_zeroing x ++ [load_args] ++ fst (key_fields snap (sf_Fields x) w) ++ emitSetLookup (setMapFD x) setKeyBase (sf_TagWidth x) (sf_StateOff x).

Lemma exec_set l x w b s :
  mem_ok -> set_ok x s -> memo_ready b s -> gate_ready s ->
  exists s' b', frame set_window s s' /\ memo_maps b' s s' /\ len b' = len b /\
    match read_fields (sf_Fields x) w b s (clock s) with
    | Some (vs, b1, t) =>
        b1 = b' /\ clock s' = S t /\
        match set_entry x (key_of x vs) s with
        | Some tag => exec (set_code x w ++ l) None s = exec l None s' /\ ldst tagSlot 8 s' = Some (Num tag)
        | None => exec (set_code x w ++ l) None s = exec l (Some exit_label) s'
        end
    | None => exec (set_code x w ++ l) None s = exec l (Some exit_label) s'
    end.
Proof.
  intros Hm (Hsz & Hf & Hfo & Hmap & Hn) Hb Hg. unfold set_code. rewrite <- !app_assoc.
  destruct (exec_zeroing ([load_args] ++ fst (key_fields snap (sf_Fields x) w) ++ emitSetLookup (setMapFD x) setKeyBase (sf_TagWidth x) (sf_StateOff x) ++ l) x s Hsz)
    as (s0 & -> & F0 & M0 & C0 & Hz). cbn [app].
  pose proof (gate_ready_frame _ _ _ F0 set_apart Hg) as [Hc0 Ha0]. rewrite exec_load_args by exact Ha0. set (s1 := setr R2 (Ptr Ctx 0) s0).
  assert (F1 : frame set_window s s1) by (apply (frame_trans _ _ s0); [exact F0|now apply frame_setr]).
  assert (Hm1 : memo_maps b s s1) by now apply memo_refl.
  destruct (exec_key_fields (emitSetLookup (setMapFD x) setKeyBase (sf_TagWidth x) (sf_StateOff x) ++ l) (sf_KeySize x) (sf_Fields x) Hm (proj2 Hsz) Hf w b s1)
    as (s2 & b2 & F2 & M2 & L2 & E2).
  { eapply List.Forall_impl; [|exact Hfo]. intros f. now apply (field_ok_frame set_window s). }
  { now apply (memo_ready_maps b b s). }
  { now apply (gate_ready_frame set_window s); auto using set_apart. }
  { now apply getr_same. }
  assert (F12 : frame set_window s s2) by now apply (frame_trans _ _ s1).
  assert (M12 : memo_maps b2 s s2) by now apply (memo_trans b b2 s s1 s2).
  change (clock s1) with (clock s0) in E2. rewrite C0, (read_fields_frame set_window _ w b s s1 _ F1) in E2.
  destruct (read_fields (sf_Fields x) w b s (clock s)) as [[[vs b3] t]|].
  2: { exists s2, b2. splits; auto. rewrite E2. apply exec_unlabelled; [|reflexivity]. unfold emitSetLookup.
       repeat first [apply unlabelled_app|apply unlabelled_if]; repeat constructor. }
  destruct E2 as (-> & E2 & C2 & Hlv & Hbuf). rewrite E2.
  rewrite key_written in Hbuf; auto.
  2: { unfold buffer, peek. now rewrite length_map, length_seq. }
  pose proof (buffer_bytes s2 _ _ Hsz Hbuf) as Hkey. pose proof (key_of_length x vs Hf) as Hkl.
  assert (Hmap2 : set_map_ok x (setMapFD x) s2).
  { destruct Hmap as (Hks & Hso & m & Hmm & Hv). split; [exact Hks|]. split; [exact Hso|]. exists m. split; [|exact Hv]. now rewrite (memo_lookup b2 s s2). }
  assert (Hmm2 : exists m, maps s2 !! setMapFD x = Some m) by (destruct Hmap2 as (_ & _ & m & Hmm & _); now exists m). destruct Hmm2 as [m Hmm2].
  destruct (exec_set_lookup l x (setMapFD x) setKeyBase (key_of x vs) m s2) as (s3 & F3 & M3 & C3 & E3); auto.
  { rewrite Hkl. apply Hmap. }
  { unfold setKeyBase. lia. }
  exists s3, b2. split; [apply (frame_trans _ _ s2); [exact F12|now apply frame_tag]|].
  split; [unfold memo_maps, snap_maps in *; destruct snap; rewrite M3; exact M12|]. split; [exact L2|]. split; [reflexivity|]. split; [lia|].
  unfold set_entry. rewrite <- (memo_value b2 s s2 _ _ M12 Hn). unfold value. rewrite Hmm2. cbn [mbind option_bind].
  destruct (m !! key_of x vs ≫= entry_tag (sf_TagWidth x) (sf_StateOff x)); [exact E3|exact E3].
Qed.

Lemma emitSetFilters_cons x sets w :
  emitSetFilters setMapFD (x :: sets) snap w = set_code x w ++ emitSetFilters setMapFD sets snap (snd (key_fields snap (sf_Fields x) w)).
Proof. unfold set_code. cbn [emitSetFilters]. destruct (key_fields snap (sf_Fields x) w) as [c w1]. cbn [fst snd]. rewrite <- !app_assoc. reflexivity. Qed.

Lemma unlabelled_zeroes fuel : forall off K, unlabelled (key_zeroes fuel off K).
Proof. induction fuel as [|fuel IH]; intros off K; cbn [key_zeroes]; [constructor|]. destruct (_ <? _); [|constructor]. constructor; [reflexivity|apply IH]. Qed.

Lemma unlabelled_sets sets : forall w, unlabelled (emitSetFilters setMapFD sets snap w).
Proof.
  induction sets as [|x sets IH]; intros w; [constructor|]. rewrite emitSetFilters_cons. apply unlabelled_app; [|apply IH]. unfold set_code, key_zeroing.
  repeat apply unlabelled_app; [apply unlabelled_if; [|constructor]|repeat constructor|apply unlabelled_key_fields| | | |].
  - constructor; [reflexivity|]. apply unlabelled_zeroes.
  - repeat constructor.
  - apply unlabelled_if; repeat constructor.
  - apply unlabelled_if; repeat constructor.
  - repeat constructor.
Qed.

Definition tag_of (tags : list Z) (old : option val) : option val := match last tags with Some tag => Some (Num tag) | None => old end.

Lemma exec_sets l sets : mem_ok -> forall w b s,
  Forall (fun x => set_ok x s) sets -> memo_ready b s -> gate_ready s ->
  exists s' b', frame set_window s s' /\ memo_maps b' s s' /\ len b' = len b /\
    match run_sets sets w b s (clock s) with
    | Some (tags, b1, t) =>
        b1 = b' /\ clock s' = t /\ exec (emitSetFilters setMapFD sets snap w ++ l) None s = exec l None s' /\
        ldst tagSlot 8 s' = tag_of tags (ldst tagSlot 8 s)
    | None => exec (emitSetFilters setMapFD sets snap w ++ l) None s = exec l (Some exit_label) s'
    end.
Proof.
  intros Hm. induction sets as [|x sets IH]; intros w b s Hs Hb Hg.
  { exists s, b. split; [apply frame_refl|]. split; [now apply memo_refl|]. split; [reflexivity|]. cbn. auto. }
  inversion Hs as [|? ? Hs1 Hss]; subst. rewrite emitSetFilters_cons. cbn [run_sets]. rewrite <- app_assoc. set (w1 := snd (key_fields snap (sf_Fields x) w)).
  destruct (exec_set (emitSetFilters setMapFD sets snap w1 ++ l) x w b s Hm Hs1 Hb Hg) as (s1 & b1 & F1 & M1 & L1 & E1).
  destruct (read_fields (sf_Fields x) w b s (clock s)) as [[[vs b2] t]|].
  2: { exists s1, b1. splits; auto. rewrite E1. apply exec_unlabelled; [apply unlabelled_sets|reflexivity]. }
  destruct E1 as (-> & C1 & E1). destruct (set_entry x (key_of x vs) s) as [tag|].
  2: { exists s1, b1. splits; auto. rewrite E1. apply exec_unlabelled; [apply unlabelled_sets|reflexivity]. }
  destruct E1 as [E1 Ht]. destruct (IH w1 b1 s1) as (s2 & b3 & F2 & M2 & L2 & E2).
  - eapply List.Forall_impl; [|exact Hss]. intros y. now apply (set_ok_kept b1).
  - now apply (memo_ready_maps b b1 s).
  - apply (gate_ready_frame set_window s); auto using set_apart.
  - exists s2, b3. split; [now apply (frame_trans _ _ s1)|]. split; [now apply (memo_trans b1 b3 s s1 s2)|]. split; [lia|].
    rewrite C1, (run_sets_kept b1 sets w1 b1 s s1 _ F1 M1 Hss) in E2. rewrite E1. fold w1.
    destruct (run_sets sets w1 b1 s (S t)) as [[[tags b4] t']|]; [|exact E2]. destruct E2 as (-> & C2 & E2 & Ht2). splits; auto.
    rewrite Ht2. unfold tag_of. rewrite Ht. rewrite last_cons. now destruct (last tags).
Qed.
End Sets.
