(* ===== verification/GateWhole.v ===== *)
(** * GateWhole: the gate in front of the packet filter

    The tag slot, the argument filters and the set filters one after the
    other ([arg_gate]). Without a snapshot the gate falls through exactly
    when every condition passes and every set holds its key; with one, what
    the snapshot holds at the end satisfies every condition and gives every
    set's key. *)

From Stdlib Require Import ZArith Lia Bool Ascii String List.
From stdpp Require Import base list strings numbers option gmap.
From S2P Require Import Prelude GoStd GoBytes HookAbi ArgExpr ArgFilter Record RecordBuild Asm Ebpf EbpfFacts Helpers Gate GateFacts GateRecord GateSets.
Local Open Scope Z_scope.

Section Whole.
Context `{HK : Helpers}.
Variable setMapFD : SetFilter -> Z.

(** ** Without a snapshot *)

Lemma exec_tag_zero l s :
  exists s', exec (emitTagSlotZero ++ l) None s = exec l None s' /\ frame set_window s s' /\ maps s' = maps s /\ clock s' = clock s /\
    ldst tagSlot 8 s' = Some (Num 0).
Proof.
  unfold emitTagSlotZero. cbn [app]. rewrite exec_Mov_Imm by discriminate. change (u64 0) with 0.
  erewrite exec_store_stack; [|reflexivity|now apply getr_same|reflexivity|reflexivity]. eexists. split; [reflexivity|].
  split; [|split; [reflexivity|split; [reflexivity|]]].
  - apply (frame_trans _ _ (setr R3 (Num 0) s)); [now apply frame_setr|]. apply frame_wr. exists (-8), 0.
    split; [unfold set_window; do 2 right; left|]. unfold tagSlot. rewrite length_map, le_length. change (Z.of_nat (Z.to_nat (Sizeof DWord))) with 8. lia.
  - change (0 + tagSlot) with tagSlot. rewrite ldst_wr_same by reflexivity. apply decode_encode8; [|reflexivity]. intros z [= <-]. unfold in_u64, two64. lia.
Qed.

Lemma frame_tmp s s' : frame tmp s s' -> frame set_window s s'.
Proof. intros F. now apply frame_set, frame_scratch. Qed.

Lemma tag_apart : apart tagSlot 8 tmp /\ apart tagSlot 8 scratch.
Proof. unfold apart, tmp, scratch, tagSlot. split; repeat (apply List.Forall_cons; [lia|]); apply List.Forall_nil. Qed.

Definition gate_ok (snap : option fieldSnap) (tf : TargetFilters) (s : st) : Prop :=
  Forall (fun f => filter_ok f s) (Args tf) /\ Forall (fun x => set_ok snap setMapFD x s) (Sets tf) /\ gate_ready s.

(** The tags the sets give once the argument filters have passed, read when
    their helpers have been called. *)
Definition gate_tags (tf : TargetFilters) (s : st) : option (list Z) :=
  if all_pass (Args tf) s (clock s)
  then option_map (fun r => r.1.1) (run_sets None setMapFD (Sets tf) ∅ [] s (clock s + ticks_of (Args tf)))
  else None.

(** C8: the gate in front of the packet filter admits exactly the packets
    the expressions select. Without recording, running the emitted code
    falls through when every argument condition passes and every set's key,
    built from the argument values in its layout with zero padding, is in its
    map with an active entry, and leaves for [exit] otherwise; it never gets
    stuck, so every stack byte it hands to a lookup was written. When it
    falls through the tag slot holds the tag of the last set, or zero when
    there is none. *)
Theorem arg_gate_decides tf s :
  mem_ok -> gate_ok None tf s ->
  exists s', frame set_window s s' /\ maps s' = maps s /\
    match gate_tags tf s with
    | Some tags => exec (arg_gate setMapFD tf None) None s = Next s' /\ ldst tagSlot 8 s' = Some (Num (default 0 (last tags)))
    | None => exec (arg_gate setMapFD tf None) None s = Goto exit_label s'
    end.
Proof.
  intros Hm (Hf & Hs & Hg). unfold arg_gate, gate_tags.
  assert (Ew : arg_written None (Args tf) = ∅) by (induction (Args tf) as [|f fs IH]; [reflexivity|]; cbn; apply IH; now inversion Hf). rewrite Ew.
  destruct (exec_tag_zero (buildArgFilter (Args tf) None ++ emitSetFilters setMapFD (Sets tf) None ∅) s) as (s0 & E0 & F0 & M0 & C0 & T0). rewrite E0.
  destruct (exec_arg_filter (emitSetFilters setMapFD (Sets tf) None ∅) (Args tf) s0 Hm) as (s1 & F1 & M1 & E1).
  { eapply List.Forall_impl; [|exact Hf]. intros f. now apply (filter_ok_frame set_window s). }
  { now apply (gate_ready_frame set_window s); auto using set_apart. }
  rewrite C0, (all_pass_frame set_window s s0 _ _ F0) in E1.
  assert (F01 : frame set_window s s1) by (apply (frame_trans _ _ s0); [exact F0|now apply frame_tmp]).
  destruct (all_pass (Args tf) s (clock s)).
  2: { exists s1. split; [exact F01|]. split; [congruence|]. rewrite E1.
       pose proof (exec_unlabelled (emitSetFilters setMapFD (Sets tf) None ∅) [] exit_label s1 (unlabelled_sets None setMapFD _ _) eq_refl) as Eu.
       rewrite app_nil_r in Eu. exact Eu. }
  destruct E1 as [E1 C1]. rewrite E1.
  assert (Hs1 : Forall (fun x => set_ok None setMapFD x s1) (Sets tf)).
  { eapply List.Forall_impl; [|exact Hs]. intros x. apply (set_ok_kept None setMapFD [] x s s1 F01). cbn. congruence. }
  destruct (exec_sets None setMapFD [] (Sets tf) Hm ∅ [] s1 Hs1 I) as (s2 & b2 & F2 & M2 & _ & E2).
  { now apply (gate_ready_frame set_window s); auto using set_apart. }
  exists s2. split; [now apply (frame_trans _ _ s1)|]. split; [cbn in M2; congruence|].
  rewrite C1, (run_sets_kept None setMapFD [] (Sets tf) ∅ [] s s1 _ F01) in E2; [|cbn; congruence|exact Hs]. rewrite app_nil_r in E2.
  destruct (run_sets None setMapFD (Sets tf) ∅ [] s (clock s + ticks_of (Args tf))) as [[[tags b3] t]|]; [|exact E2].
  destruct E2 as (_ & _ & E2 & Ht). split; [exact E2|]. rewrite Ht. unfold tag_of. cbn [fst]. destruct (last tags); [reflexivity|].
  rewrite (ldst_frame tmp _ _ s0 s1 F1 (proj1 tag_apart)). exact T0.
Qed.

(** ** With a snapshot *)

Variable sn : fieldSnap.

Definition slots_of (w : gset Z) : Prop := forall off, off ∈ w -> 0 <= off /\ exists k, off = field_slot sn k.

Lemma slots_apart off off' : (length (Fields (sn_layout sn)) <= 32)%nat -> 0 <= off -> 0 <= off' ->
  (exists k, off = field_slot sn k) -> (exists k, off' = field_slot sn k) -> off <> off' -> off' + 8 <= off \/ off + 8 <= off'.
Proof.
  intros Hl Ho Ho' [k ->] [k' ->] Hn. destruct (field_slot_spec sn k Hl Ho) as (j & _ & E & _). destruct (field_slot_spec sn k' Hl Ho') as (j' & _ & E' & _).
  rewrite E, E' in *. lia.
Qed.

(** A read keeps the slots that hold theirs, and its own slot holds it. *)
Definition kept (w w' : gset Z) (b b' : list Z) : Prop :=
  len b' = len b /\ slots_of w' /\ w ⊆ w' /\ forall off, off ∈ w -> cell_at off 8 b' = cell_at off 8 b.

Definition holds_key (w : gset Z) (b : list Z) (f : SetKeyField) (v : Z) : Prop :=
  0 <= field_slot sn (kf f) -> field_slot sn (kf f) ∈ w /\ cell_at (field_slot sn (kf f)) 8 b = Some v.

Lemma kept_refl w b : slots_of w -> kept w w b b.
Proof. intros Hw. now split. Qed.

Lemma kept_trans w1 w2 w3 b1 b2 b3 : kept w1 w2 b1 b2 -> kept w2 w3 b2 b3 -> kept w1 w3 b1 b3.
Proof.
  intros (L1 & S1 & I1 & C1) (L2 & S2 & I2 & C2). split; [congruence|]. split; [exact S2|]. split; [set_solver|].
  intros off Ho. rewrite C2 by set_solver. now apply C1.
Qed.

Lemma holds_kept w w' b b' f v : kept w w' b b' -> holds_key w b f v -> holds_key w' b' f v.
Proof. intros (_ & _ & I & C) Hh Hs. destruct (Hh Hs) as [Hin Hc]. split; [set_solver|]. now rewrite C. Qed.

Lemma key_read_kept f w b s t v b1 t1 :
  mem_ok -> ctx_ok s -> field_ok (kf f) s -> (length (Fields (sn_layout sn)) <= 32)%nat -> 8 * Z.of_nat (length (Fields (sn_layout sn))) <= len b ->
  slots_of w -> key_read (Some sn) f w b s t = Some (v, b1, t1) ->
  let w1 := snd (key_field_step (Some sn) f w) in kept w w1 b b1 /\ holds_key w1 b1 f v.
Proof.
  intros Hm Hc Hf Hl Hb Hw. unfold key_read, key_field_step. cbn [snd]. rewrite !(key_off_slot (Some sn) sn f eq_refl).
  set (off := field_slot sn (kf f)). destruct (Z.leb_spec 0 off) as [Ho|Ho]; cbn [andb].
  - destruct (decide (off ∈ w)) as [Hin|Hin].
    + rewrite !bool_decide_true by exact Hin. cbn [negb]. destruct (cell_at off 8 b) as [x|] eqn:Ex; [|discriminate]. cbn [option_map].
      intros [= <- <- _]. split; [now apply kept_refl|]. intros _. now split.
    + rewrite !bool_decide_false by exact Hin. cbn [negb]. destruct (raw (kf f) s t) as [x|] eqn:Ex; [|discriminate].
      pose proof (raw_range _ _ _ _ Hm Hf Hc Ex) as Hxr. pose proof (widen_u64 (kf f) x (proj1 Hf) Hxr) as Hu. cbn [kf fk_size fk_signed] in Hu.
      destruct (field_slot_ok sn (kf f) Hl Ho) as [_ Ho8]. fold off in Ho8. set (y := widen _ _ x) in *.
      assert (H8 : len (le 8 y) = 8) by reflexivity. pose proof (cell_put_same off 8 y b Ho ltac:(lia)) as Hsame. rewrite Z.mod_small in Hsame by exact Hu.
      generalize dependent (le 8 y). intros bs H8 Hsame [= <- <- _]. split.
      * split; [apply put_cell_length; lia|]. split; [|split; [set_solver|]].
        -- intros o Hoin. apply elem_of_union in Hoin as [Hoin|Hoin]; [|now apply Hw]. apply elem_of_singleton in Hoin as ->. split; [exact Ho|]. now exists (kf f).
        -- intros o Hoin. destruct (Hw o Hoin) as [Ho0 Hk]. apply cell_put_other; try lia. rewrite H8. change (Z.of_nat 8) with 8.
           apply (slots_apart off o Hl Ho Ho0); [now exists (kf f)|exact Hk|congruence].
      * intros _. split; [set_solver|]. exact Hsame.
  - destruct (raw (kf f) s t) as [x|]; [|discriminate]. intros [= <- <- _]. split; [now apply kept_refl|]. intros Hs. fold off in Hs. lia.
Qed.

Lemma read_fields_kept fs s : mem_ok -> ctx_ok s -> (length (Fields (sn_layout sn)) <= 32)%nat ->
  Forall (fun f => field_ok (kf f) s) fs -> forall w b t vs b1 t1,
  8 * Z.of_nat (length (Fields (sn_layout sn))) <= len b -> slots_of w -> read_fields (Some sn) fs w b s t = Some (vs, b1, t1) ->
  let w1 := snd (key_fields (Some sn) fs w) in kept w w1 b b1 /\ Forall2 (holds_key w1 b1) fs vs.
Proof.
  intros Hm Hc Hl. induction 1 as [|f fs Hf _ IH]; intros w b t vs b1 t1 Hb Hw; cbn [read_fields].
  { intros [= <- <- _]. split; [now apply kept_refl|constructor]. }
  rewrite key_fields_cons. cbn [snd]. destruct (key_read (Some sn) f w b s t) as [[[v b2] t2]|] eqn:Er; [|discriminate].
  destruct (key_read_kept f w b s t v b2 t2 Hm Hc Hf Hl Hb Hw Er) as [K1 H1]. set (w2 := snd (key_field_step (Some sn) f w)) in *.
  destruct (read_fields (Some sn) fs w2 b2 s t2) as [[[us b3] t3]|] eqn:Es; [|discriminate]. intros [= <- <- _].
  destruct (IH w2 b2 t2 us b3 t3) as [K2 H2]; auto; [destruct K1 as (L1 & _); lia|apply K1|].
  split; [now apply (kept_trans _ w2 _ _ b2)|]. constructor; [now apply (holds_kept w2 _ b2)|exact H2].
Qed.

(** The values a set's key was made of are in its fields' slots, and the key
    is in the set's map. *)
Definition set_recorded (s : st) (b : list Z) (x : SetFilter) (tag : Z) : Prop :=
  exists vs, set_entry setMapFD x (key_of x vs) s = Some tag /\
    Forall2 (fun f v => 0 <= field_slot sn (kf f) -> cell_at (field_slot sn (kf f)) 8 b = Some v) (sf_Fields x) vs.

Lemma run_sets_kept_slots sets s : mem_ok -> ctx_ok s -> (length (Fields (sn_layout sn)) <= 32)%nat ->
  Forall (fun x => set_ok (Some sn) setMapFD x s) sets -> forall w b t tags b1 t1,
  8 * Z.of_nat (length (Fields (sn_layout sn))) <= len b -> slots_of w -> run_sets (Some sn) setMapFD sets w b s t = Some (tags, b1, t1) ->
  (exists w1, kept w w1 b b1) /\ Forall2 (set_recorded s b1) sets tags.
Proof.
  intros Hm Hc Hl. induction 1 as [|x sets Hx _ IH]; intros w b t tags b1 t1 Hb Hw; cbn [run_sets].
  { intros [= <- <- _]. split; [exists w; now apply kept_refl|constructor]. }
  destruct (read_fields (Some sn) (sf_Fields x) w b s t) as [[[vs b2] t2]|] eqn:Er; [|discriminate].
  destruct (read_fields_kept (sf_Fields x) s Hm Hc Hl (proj1 (proj2 (proj2 Hx))) w b t vs b2 t2 Hb Hw Er) as [K1 H1].
  set (w2 := snd (key_fields (Some sn) (sf_Fields x) w)) in *.
  destruct (set_entry setMapFD x (key_of x vs) s) as [tag|] eqn:Et; [|discriminate].
  destruct (run_sets (Some sn) setMapFD sets w2 b2 s (S t2)) as [[[us b3] t3]|] eqn:Es; [|discriminate]. intros [= <- <- _].
  destruct (IH w2 b2 (S t2) us b3 t3) as [[w3 K2] H2]; auto; [destruct K1 as (L1 & _); lia|apply K1|]. split; [exists w3; now apply (kept_trans _ w2 _ _ b2)|].
  constructor; [|exact H2]. exists vs. split; [exact Et|]. eapply Forall2_impl; [exact H1|]. intros f v Hh Hs.
  now apply (holds_kept w2 w3 b2 b3 f v K2 Hh).
Qed.

Lemma arg_written_slots fs : slots_of (arg_written (Some sn) fs) /\
  forall f, f ∈ fs -> 0 <= field_slot sn (field_of f) -> field_slot sn (field_of f) ∈ arg_written (Some sn) fs.
Proof.
  induction fs as [|f fs [IH1 IH2]]; cbn [arg_written]; [split; [intros o Ho; set_solver|intros f Hf; now apply elem_of_nil in Hf]|].
  change (snap_off _ _ _ _ _ _ _) with (field_slot sn (field_of f)). destruct (Z.leb_spec 0 (field_slot sn (field_of f))) as [Hs|Hs].
  - split.
    + intros o Ho. apply elem_of_union in Ho as [Ho|Ho]; [|now apply IH1]. apply elem_of_singleton in Ho as ->. split; [exact Hs|]. now exists (field_of f).
    + intros g Hg Hgs. apply elem_of_cons in Hg as [->|Hg]; set_solver.
  - split; [exact IH1|]. intros g Hg Hgs. apply elem_of_cons in Hg as [->|Hg]; [lia|auto].
Qed.

(** The gate's reads: the tags, and the snapshot at the end. *)
Definition gate_record (tf : TargetFilters) (b : list Z) (s : st) : option (list Z * list Z) :=
  match run_groups sn (group_filters (Args tf)) s (clock s) with
  | Some xs =>
      option_map (fun r => (r.1.1, r.1.2))
        (run_sets (Some sn) setMapFD (Sets tf) (arg_written (Some sn) (Args tf)) (groups_snap sn (group_filters (Args tf)) xs b) s
           (clock s + groups_ticks sn (group_filters (Args tf))))
  | None => None
  end.

(** A condition was tested on a value the field had during the run, and the
    field's slot holds it. *)
Definition arg_recorded (s : st) (b : list Z) (f : ArgFilter) : Prop :=
  exists x, (exists t, (clock s <= t)%nat /\ raw (field_of f) s t = Some x) /\ passes f x = true /\ slot_holds sn b (field_of f) x.

(** C9: what a recording capture records is what its filters decided on.
    With a snapshot, running the gate falls through exactly when the groups'
    and the sets' reads succeed ([gate_record]), and otherwise leaves for
    [exit]. When it falls through, every argument condition passed on a value
    its field had during the run, and every set's key is in its map; and for
    each field that has a slot in the record's layout (a field reached
    through an opaque member has none, is not recorded and is read again by
    a key), the snapshot at the end, which the record block is filled from,
    holds that value, the same one for every condition and key that uses the
    field. The tag slot holds the last set's tag. *)
Theorem arg_gate_recorded tf b s :
  mem_ok -> gate_ok (Some sn) tf s -> snap_ready sn s -> snap_holds sn b s ->
  exists s', frame set_window s s' /\
    match gate_record tf b s with
    | Some (tags, b') =>
        exec (arg_gate setMapFD tf (Some sn)) None s = Next s' /\ snap_value sn s' = Some b' /\
        Forall (arg_recorded s b') (Args tf) /\ Forall2 (set_recorded s b') (Sets tf) tags /\
        ldst tagSlot 8 s' = Some (Num (default 0 (last tags)))
    | None => exec (arg_gate setMapFD tf (Some sn)) None s = Goto exit_label s'
    end.
Proof.
  intros Hm (Hf & Hs & Hg) Hr Hb. unfold arg_gate, gate_record. set (w := arg_written (Some sn) (Args tf)). set (sets := emitSetFilters setMapFD (Sets tf) (Some sn) w).
  destruct (exec_tag_zero (buildArgFilter (Args tf) (Some sn) ++ sets) s) as (s0 & E0 & F0 & M0 & C0 & T0). rewrite E0. clear E0.
  assert (M00 : snap_maps sn b s s0) by (apply snap_maps_refl; [apply Hb|exact M0]).
  assert (Hb0 : snap_holds sn b s0) by (split; [now apply (snap_maps_value sn b s)|apply Hb]).
  destruct (exec_recording sn sets (Args tf) s0 b Hm) as (s1 & b1 & F1 & M1 & L1 & E1); auto.
  { eapply List.Forall_impl; [|exact Hf]. intros f. now apply (filter_ok_frame set_window s). }
  { now apply (gate_ready_frame set_window s); auto using set_apart. }
  { apply (snap_ready_maps sn b s); auto. apply Hb. }
  rewrite C0, (run_groups_frame sn set_window _ s s0 _ F0) in E1.
  assert (F01 : frame set_window s s1) by (apply (frame_trans _ _ s0); [exact F0|now apply frame_set]).
  pose proof (snap_maps_trans sn b b1 s s0 s1 M00 M1) as M01.
  destruct (run_groups sn (group_filters (Args tf)) s (clock s)) as [xs|].
  2: { exists s1. split; [exact F01|]. rewrite E1.
       pose proof (exec_unlabelled sets [] exit_label s1 (unlabelled_sets (Some sn) setMapFD _ _) eq_refl) as Eu. now rewrite app_nil_r in Eu. }
  destruct E1 as (E1 & Hb1 & C1 & Hxs). rewrite E1. clear E1.
  assert (Hs1 : Forall (fun x => set_ok (Some sn) setMapFD x s1) (Sets tf)).
  { eapply List.Forall_impl; [|exact Hs]. intros x. now apply (set_ok_kept (Some sn) setMapFD b1 x s s1 F01). }
  assert (Hr1 : memo_ready (Some sn) b1 s1).
  { split; [apply (snap_ready_maps sn b1 s); auto; destruct Hb; lia|]. split; [now apply (snap_maps_value sn b1 s)|destruct Hb; lia]. }
  destruct (exec_sets (Some sn) setMapFD [] (Sets tf) Hm w b1 s1 Hs1 Hr1) as (s2 & b2 & F2 & M2 & L2 & E2).
  { now apply (gate_ready_frame set_window s); auto using set_apart. }
  exists s2. split; [now apply (frame_trans _ _ s1)|].
  rewrite C1, (run_sets_kept (Some sn) setMapFD b1 (Sets tf) w b1 s s1 _ F01 M01 Hs), app_nil_r in E2. rewrite <- Hb1.
  destruct (run_sets (Some sn) setMapFD (Sets tf) w b1 s (clock s + groups_ticks sn (group_filters (Args tf)))%nat) as [[[tags b3] t]|] eqn:Er; [|exact E2]. cbn [option_map fst snd].
  destruct E2 as (-> & _ & E2 & Ht). split; [exact E2|]. split; [now apply (snap_maps_value sn b2 s1)|].
  destruct (arg_written_slots (Args tf)) as [Hw Hwin]. fold w in Hw, Hwin.
  destruct (run_sets_kept_slots (Sets tf) s Hm (proj1 Hg) (proj1 (proj2 (proj2 Hr))) Hs w b1 (clock s + groups_ticks sn (group_filters (Args tf)))%nat tags b2 t) as [[w1 K] Hsets]; [destruct Hb; lia|exact Hw|exact Er|].
  split; [|split; [exact Hsets|]].
  - rewrite Forall_forall. intros f Hff. destruct (list_elem_of_lookup_1 _ _ (group_covers (Args tf) f Hff)) as [i Hi].
    destruct (Forall2_lookup_l _ _ _ _ _ Hxs Hi) as (x & _ & (Hread & Hcs) & Hslot). exists x. split; [|split; [now apply Hcs|]].
    + destruct Hread as (u & Hu & Hx). exists u. rewrite C0 in Hu. split; [exact Hu|]. now rewrite <- (raw_frame set_window s s0 _ _ F0).
    + intros Hsl. destruct K as (_ & _ & _ & Hcell). rewrite Hcell by (now apply Hwin). now apply Hslot.
  - rewrite Ht. unfold tag_of. destruct (last tags); [reflexivity|]. rewrite (ldst_frame scratch _ _ s0 s1 F1 (proj2 tag_apart)). exact T0.
Qed.
End Whole.
