(* ===== verification/SetFilters.v ===== *)
(** * SetFilters: references to sets in argument filters
    (internal/filter/setfilter.go)

    [--arg-filter "@NAME"] names a pinned map; its key fields are bound to
    the arguments of one target. Resolution keeps the map's layout, so the key
    the emitted code builds is the key [set add] writes its entries under. *)

From Stdlib Require Import ZArith Lia Bool Ascii String List.
From stdpp Require Import base list strings numbers option gmap.
From S2P Require Import Prelude GoStd GoBytes GoText HookAbi ArgExpr SetMap RecordBuild.
Local Open Scope Z_scope.
Local Open Scope go_scope.

(** ["@name"] expressions and the others. *)
Fixpoint SplitFilterExprs (exprs : list bytes) : list bytes * list bytes :=
  match exprs with
  | [] => ([], [])
  | e :: exprs =>
      let '(refs, plain) := SplitFilterExprs exprs in
      match CutPrefix e (B "@") with
      | Some name => (name :: refs, plain)
      | None => (refs, e :: plain)
      end
  end.

Definition keyFieldList (d : Definition_) : bytes := Join (map kf_Name (d_Fields d)) (B ", ").

(** [srcFor]: the explicit source of each mapped key field. *)
Fixpoint sources (ref : bytes) (d : Definition_) (ms : list MapEntry) (acc : gmap bytes bytes) : result error (gmap bytes bytes) :=
  match ms with
  | [] => Ok acc
  | m :: ms =>
      match DField d (me_Field m) with
      | None => errf "@%s: key(...) names field %q but the map key has: %s" [abytes ref; abytes (me_Field m); abytes (keyFieldList d)]
      | Some _ => sources ref d ms (<[me_Field m := me_Source m]> acc)
      end
  end.

Section Resolve.
Context `{Btf}.

(** The pointer members and pointees a key field may mean. *)
Definition member_matches (name : bytes) (params : list FuncParamInfo) : list FuncParamInfo :=
  flat_map (fun ptr =>
    if is_empty (PKind ptr) then []
    else
      (match ResolveArg (PName ptr ++ B "->" ++ name) params with Ok m => [m] | Err _ => [] end)
      ++ (if bool_decide (PName ptr = name)
          then match ResolveArg (PName ptr ++ B "[0]") params with Ok m => [m] | Err _ => [] end else [])) params.

(** One turn of the loop over the key fields. *)
Definition resolve_key_field (ref : bytes) (srcFor : gmap bytes bytes) (params : list FuncParamInfo) (f : KeyField) : result error SetKeyField :=
  let ok := is_Some_b (srcFor !! kf_Name f) in
  let src := default (B "arg:" ++ kf_Name f) (srcFor !! kf_Name f) in
  let paramName := TrimPrefix src (B "arg:") in
  let bind paramName p :=
    if kf_Size f <? PSize p then
      errf "@%s: arg %s (u%d) is wider than key field %s (u%d) — truncation is not supported"
        [abytes ref; abytes paramName; AInt (PSize p * 8); abytes (kf_Name f); AInt (kf_Size f * 8)]
    else
      Ok (mkSetKeyField (kf_Name f) (kf_Off f) (kf_Size f) paramName (PIndex p) (PSize p) (PSigned p) (PDeref p) (POffset p) (PThroughOpaque p)) in
  match ResolveArg paramName params with
  | Ok p => bind paramName p
  | Err e =>
      let bad :=
        errf "@%s: key field %s needs arg %q (see --list-params); map it with key(%s=arg:<expression>): %w"
          [abytes ref; abytes (kf_Name f); abytes paramName; abytes (kf_Name f); AErr e] in
      if ok then bad
      else
        match member_matches (kf_Name f) params with
        | [] => bad
        | [m] => bind (PName m) m
        | _ =>
            errf "@%s: key field %s matches multiple pointer members; use key(%s=arg:<expression>)"
              [abytes ref; abytes (kf_Name f); abytes (kf_Name f)]
        end
  end.

Fixpoint resolve_key_fields (ref : bytes) (srcFor : gmap bytes bytes) (params : list FuncParamInfo) (fs : list KeyField)
    : result error (list SetKeyField) :=
  match fs with
  | [] => Ok []
  | f :: fs =>
      let? k := resolve_key_field ref srcFor params f in
      let? ks := resolve_key_fields ref srcFor params fs in
      Ok (k :: ks)
  end.

Definition resolve_set (s : Set_) (ref : bytes) (params : list FuncParamInfo) : result error SetFilter :=
  let d := s_Def s in
  let? srcFor := sources ref d (sr_Mapping (s_Ref s)) ∅ in
  let? fields := resolve_key_fields ref srcFor params (d_Fields d) in
  Ok (mkSetFilter (sr_Name (s_Ref s)) (d_KeySize d) fields (TagWidth d) (StateOff d)).

(** A later set of the same name hides an earlier one. *)
Definition byName (sets : list Set_) : gmap bytes Set_ := fold_left (fun m s => <[sr_Name (s_Ref s) := s]> m) sets ∅.

Fixpoint resolve_refs (sets : gmap bytes Set_) (refs : list bytes) (params : list FuncParamInfo) : result error (list SetFilter) :=
  match refs with
  | [] => Ok []
  | ref :: refs =>
      match sets !! ref with
      | None =>
          if ContainsAny ref (B ">.[") then errf "@%s: member syntax is not supported in set references" [abytes ref]
          else errf "@%s: no such set (define it with --set %q)" [abytes ref; abytes (ref ++ B "=/sys/fs/bpf/...")]
      | Some s =>
          let? sf := resolve_set s ref params in
          let? sfs := resolve_refs sets refs params in
          Ok (sf :: sfs)
      end
  end.

Definition ResolveSetFilters (sets : list Set_) (refs : list bytes) (params : list FuncParamInfo) : result error (list SetFilter) :=
  resolve_refs (byName sets) refs params.

End Resolve.
