(* ===== verification/SetGate.v ===== *)
(** * SetGate: set add meets the gate

    [bpf-ninja set add] writes an entry from texts; the gate looks a key up
    that it builds out of argument values. Both follow one layout, so an
    entry that was added is found by the packets whose arguments have its
    values, with its tag, until it is parked or deleted. *)

From Stdlib Require Import ZArith Lia Bool Ascii String List.
From stdpp Require Import base list strings numbers option gmap.
From S2P Require Import Prelude GoStd GoBytes GoText HookAbi ArgExpr SetMap SetMapFacts SetEntries RecordBuild SetFilters.
From S2P Require Import ArgFilter Record Asm Ebpf EbpfFacts Helpers Gate GateFacts GateRecord GateSets.
Local Open Scope Z_scope.
Local Open Scope go_scope.

(** A filter bound to a map's layout. *)
Definition bound (d : Definition_) (x : SetFilter) : Prop :=
  sf_KeySize x = d_KeySize d /\ sf_TagWidth x = TagWidth d /\ sf_StateOff x = StateOff d /\
  Forall2 (fun f k => sk_FieldOff k = kf_Off f /\ sk_FieldSize k = kf_Size f /\ sk_ParamSize k <= sk_FieldSize k) (d_Fields d) (sf_Fields x).

Section Bound.
Context `{Btf}.

Lemma resolve_key_field_bound ref src params f k :
  resolve_key_field ref src params f = Ok k -> sk_FieldOff k = kf_Off f /\ sk_FieldSize k = kf_Size f /\ sk_ParamSize k <= sk_FieldSize k.
Proof.
  unfold resolve_key_field. cbv zeta.
  assert (Hbind : forall name p, (if kf_Size f <? PSize p then
      errf "@%s: arg %s (u%d) is wider than key field %s (u%d) — truncation is not supported"
        [abytes ref; abytes name; AInt (PSize p * 8); abytes (kf_Name f); AInt (kf_Size f * 8)]
    else Ok (mkSetKeyField (kf_Name f) (kf_Off f) (kf_Size f) name (PIndex p) (PSize p) (PSigned p) (PDeref p) (POffset p) (PThroughOpaque p))) = Ok k ->
    sk_FieldOff k = kf_Off f /\ sk_FieldSize k = kf_Size f /\ sk_ParamSize k <= sk_FieldSize k).
  { intros name p. destruct (Z.ltb_spec (kf_Size f) (PSize p)); [discriminate|]. intros [= <-]. cbn. lia. }
  destruct (ResolveArg _ params); [apply Hbind|]. destruct (is_Some_b _); [discriminate|].
  destruct (member_matches _ params) as [|m [|m' ms]]; [discriminate|apply Hbind|discriminate].
Qed.

Lemma resolve_key_fields_bound ref src params fs ks :
  resolve_key_fields ref src params fs = Ok ks ->
  Forall2 (fun f k => sk_FieldOff k = kf_Off f /\ sk_FieldSize k = kf_Size f /\ sk_ParamSize k <= sk_FieldSize k) fs ks.
Proof.
  revert ks. induction fs as [|f fs IH]; intros ks; cbn [resolve_key_fields]; [intros [= <-]; constructor|].
  intros Hr. apply result_bind_ok in Hr as (k & Hk & Hr). apply result_bind_ok in Hr as (ks' & Hks & [= <-]).
  constructor; [now apply (resolve_key_field_bound ref src params)|now apply IH].
Qed.

Lemma resolve_set_bound st ref params x : resolve_set st ref params = Ok x -> bound (s_Def st) x.
Proof.
  unfold resolve_set. intros Hr. apply result_bind_ok in Hr as (src & _ & Hr). apply result_bind_ok in Hr as (ks & Hks & [= <-]).
  splits; try reflexivity. now apply resolve_key_fields_bound in Hks.
Qed.

Lemma ResolveSetFilters_bound sets refs params xs :
  ResolveSetFilters sets refs params = Ok xs -> Forall2 (fun ref x => exists st, byName sets !! ref = Some st /\ bound (s_Def st) x) refs xs.
Proof.
  unfold ResolveSetFilters. revert xs. induction refs as [|ref refs IH]; intros xs; cbn [resolve_refs]; [intros [= <-]; constructor|].
  destruct (byName sets !! ref) as [st|] eqn:Es; [|destruct (ContainsAny _ _); discriminate].
  intros Hr. apply result_bind_ok in Hr as (x & Hx & Hr). apply result_bind_ok in Hr as (xs' & Hxs & [= <-]).
  constructor; [|now apply IH]. exists st. split; [exact Es|]. now apply resolve_set_bound in Hx.
Qed.
End Bound.

(** ** One key *)

(** The value a text gives a numeric field is the argument's, at the
    field's width. *)
Definition same_value (values : gmap bytes bytes) (f : KeyField) (v : Z) : Prop :=
  exists t n, values !! kf_Name f = Some t /\ field_value f t = Ok (inl n) /\ v mod 256 ^ kf_Size f = n.

Lemma key_bytes_field f k t b n v :
  sk_FieldSize k = kf_Size f -> kind_ok (kf_Size f) (kf_IsBytes f) -> field_bytes f t = Ok b -> field_value f t = Ok (inl n) -> v mod 256 ^ kf_Size f = n ->
  b = key_bytes k v.
Proof.
  intros Hs Hk Hb Hv <-. destruct (field_bytes_spec _ _ _ Hk Hb) as (_ & w & Hw & Hbw). rewrite Hv in Hw. injection Hw as <-.
  destruct Hbw as [-> _]. unfold key_bytes. rewrite Hs. destruct (kind_align _ _ Hk) as (_ & Hsz & _).
  rewrite <- (Z2Nat.id (kf_Size f)) at 2 by lia. apply le_mod.
Qed.

Lemma build_put values fs ks vs :
  Forall2 (fun f k => sk_FieldOff k = kf_Off f /\ sk_FieldSize k = kf_Size f /\ sk_ParamSize k <= sk_FieldSize k) fs ks ->
  Forall (fun f => kind_ok (kf_Size f) (kf_IsBytes f)) fs -> Forall2 (same_value values) fs vs ->
  forall buf key, build_fields fs values buf = Ok key -> put_fields ks vs buf = key.
Proof.
  intros Hks. revert vs. induction Hks as [|f k fs ks (Ho & Hs & _) _ IH]; intros vs Hkinds Hvs buf key; cbn [build_fields].
  { intros [= <-]. inversion Hvs. reflexivity. }
  inversion Hvs as [|? v ? vs' (t & n & Ht & Hn & Hvn) Hvs']; subst. inversion Hkinds as [|? ? Hkind Hkinds']; subst. rewrite Ht.
  destruct (field_bytes f t) as [b|] eqn:Eb; [|discriminate]. intros Hr. apply result_bind_ok in Hr as (_ & _ & Hr).
  apply result_bind_ok in Hr as (buf' & Hbuf & Hr). cbn [put_fields].
  rewrite (key_bytes_field f k t b _ v Hs Hkind Eb Hn eq_refl) in Hbuf. unfold copy_at in Hbuf. destruct (_ <=? _)%nat; [|discriminate].
  injection Hbuf as <-. unfold put_at. rewrite Ho. now apply IH.
Qed.

Lemma built_key d x values vs key :
  bound d x -> chain 0 (d_Fields d) (d_KeySize d) -> Forall2 (same_value values) (d_Fields d) vs -> BuildKey d values = Ok key -> key_of x vs = key.
Proof.
  intros (Hk & _ & _ & Hf) Hc Hvs Hb. unfold BuildKey in Hb. apply result_bind_ok in Hb as (key' & Hb & He).
  destruct (find _ _) as [[? ?]|]; [discriminate|]. injection He as <-. unfold key_of. rewrite Hk.
  apply (build_put values (d_Fields d)); auto. eapply List.Forall_impl; [|exact (chain_kinds _ _ _ Hc)]. now intros f [_ Hf'].
Qed.

(** ** Entries *)

(** The entry already carried the tag and was parked. *)
Definition parked (d : Definition_) (tag : Z) (old : option (list Z)) : bool :=
  match old with
  | Some o => match cells_of d o with Ok c => (cl_tag c =? tag) && negb (default 0 (cl_state c) =? 0) | Err _ => false end
  | None => false
  end.

Lemma cell_field size f val z :
  in_value size f -> stored size val -> getField val f = Ok z -> cell_at (kf_Off f) (Z.to_nat (kf_Size f)) val = Some z.
Proof.
  intros Hf Hs Hg. destruct (getField_some size f val Hf Hs) as [E _]. rewrite E in Hg. injection Hg as <-. destruct Hf as (H0 & H1 & Hk).
  destruct (kind_align _ _ Hk) as (_ & Hsz & _). destruct Hs as [Hl _]. unfold len in Hl. unfold cell_at, rd. replace (0 <=? kf_Off f) with true by lia.
  replace (_ <=? _)%nat with true by (symmetry; apply Nat.leb_le; lia). reflexivity.
Qed.

Lemma tag_width_kind d : value_ok d -> tag_width_ok (TagWidth d) = true.
Proof.
  intros Hd. destruct (tag_in_value d Hd) as (_ & _ & Hk). unfold TagWidth, tag_width_ok. cbn in Hk. destruct Hk as [->|[->|[->| ->]]]; reflexivity.
Qed.

(** What the gate reads in a stored value. *)
Lemma entry_tag_cells d x val c :
  value_ok d -> widths_ok d -> kf_Off (TagField d) = 0 -> sf_TagWidth x = TagWidth d -> sf_StateOff x = StateOff d ->
  stored (d_ValueSize d) val -> cells_of d val = Ok c ->
  entry_tag (sf_TagWidth x) (sf_StateOff x) val = if default 0 (cl_state c) =? 0 then Some (cl_tag c) else None.
Proof.
  intros Hd [Hw _] Ht0 -> -> Hs Hc. unfold cells_of in Hc. apply result_bind_ok in Hc as (tag & Htag & Hc).
  apply result_bind_ok in Hc as (st & Hst & Hc). apply result_bind_ok in Hc as (mb & _ & [= <-]). cbn [cl_state cl_tag].
  pose proof (cell_field _ _ _ _ (tag_in_value d Hd) Hs Htag) as Hcell. rewrite Ht0 in Hcell. fold (TagWidth d) in Hcell.
  unfold entry_tag. rewrite (tag_width_kind d Hd), Hcell. unfold StateOff. unfold get_if in Hst.
  destruct (ValField d ValFieldState) as [f|] eqn:Ef; [|injection Hst as <-; reflexivity].
  apply result_bind_ok in Hst as (z & Hz & [= <-]). pose proof (ValField_in_value d Hd _ _ Ef) as Hin.
  pose proof (cell_field _ _ _ _ Hin Hs Hz) as Hcs. rewrite (Hw f eq_refl) in Hcs. change (Z.to_nat 1) with 1%nat in Hcs. rewrite Hcs.
  destruct Hin as (H0 & _). replace (0 <=? kf_Off f) with true by lia. cbn [andb from_option id].
  destruct (Z.eqb_spec z 0) as [->|Hn]; [now rewrite bool_decide_true|rewrite bool_decide_false by congruence]; reflexivity.
Qed.

(** C12: an entry that was added admits the packets it describes. Resolve
    set references against a target, and let [d] be a numeric key layout of
    one of the sets: when [set add] succeeds for some texts, and the
    arguments of a packet have the texts' values, then the key the gate's
    code builds is the key the entry was written under, and on the map as
    [set add] left it the lookup gives the entry's tag, unless the key
    already carried that tag and was parked. When [set del] of the same texts
    succeeds, the lookup misses. *)
Theorem set_add_admits `{Btf} (setMapFD : SetFilter -> Z) sets refs params xs i ref st x K max values ev m m' vs s :
  let d := s_Def st in
  ResolveSetFilters sets refs params = Ok xs -> refs !! i = Some ref -> xs !! i = Some x -> byName sets !! ref = Some st ->
  chain 0 (d_Fields d) (d_KeySize d) -> value_ok d -> widths_ok d -> kf_Off (TagField d) = 0 -> 0 <= d_ValueSize d ->
  sized d m -> in_u64 (ev_Tag ev) -> in_u64 (ev_MaxBytes ev) -> Forall2 (same_value values) (d_Fields d) vs ->
  (SetMap.Add K max d values ev m = Ok m' -> maps s !! setMapFD x = Some m' ->
     set_entry setMapFD x (key_of x vs) s = if parked d (ev_Tag ev) (m !! key_of x vs) then None else Some (ev_Tag ev)) /\
  (Delete K d values m = Ok m' -> maps s !! setMapFD x = Some m' -> set_entry setMapFD x (key_of x vs) s = None).
Proof.
  intros d Hr Hi Hx Hst Hc Hd Hw Ht0 Hz Hm Htag Hmb Hvs.
  destruct (Forall2_lookup_lr _ _ _ _ _ _ (ResolveSetFilters_bound _ _ _ _ Hr) Hi Hx) as (st' & Hst' & Hb).
  rewrite Hst in Hst'. injection Hst' as <-. fold d in Hb. unfold set_entry, value. split.
  - intros Ha Hmap. destruct (Add_entry K max d values ev m m' Hd Hw Hz Hm Htag Hmb Ha) as (key & v & Hk & -> & Hsz & old & Hcells & Hold).
    rewrite (built_key d x values vs key Hb Hc Hvs Hk), Hmap. cbn [mbind option_bind]. rewrite lookup_insert_eq. cbn [mbind option_bind].
    destruct Hb as (_ & Htw & Hso & _).
    rewrite (entry_tag_cells d x v _ Hd Hw Ht0 Htw Hso (Hsz key v ltac:(apply lookup_insert_eq)) Hcells). unfold added, parked.
    cbn [cl_state cl_tag]. destruct (m !! key) as [o|].
    + destruct Hold as (c & Hco & ->). rewrite Hco. destruct (cl_tag c =? ev_Tag ev); cbn [andb negb].
      * destruct (ValField d ValFieldState) eqn:Ef; cbn [from_option id].
        -- destruct (default 0 (cl_state c) =? 0); reflexivity.
        -- unfold cells_of in Hco. apply result_bind_ok in Hco as (? & _ & Hco). rewrite Ef in Hco. cbn [get_if result_bind] in Hco.
           apply result_bind_ok in Hco as (? & _ & [= <-]). reflexivity.
      * destruct (ValField d ValFieldState); reflexivity.
    + subst old. destruct (ValField d ValFieldState); reflexivity.
  - intros Hdel Hmap. unfold Delete in Hdel. apply result_bind_ok in Hdel as (key & Hk & Hdel).
    rewrite (built_key d x values vs key Hb Hc Hvs Hk), Hmap. destruct (delete_err K); [discriminate|]. destruct (m !! key); [|discriminate]. injection Hdel as <-.
    cbn [mbind option_bind]. now rewrite lookup_delete_eq.
Qed.

(** ** Address keys *)

Definition sids : Set_ :=
  mkSet (mkSpecRef (B "sids") (B "/sys/fs/bpf/sids") []) (mkDefinition 16 4 [mkKeyField (B "dst") 0 16 true] true [mkKeyField ValFieldTag 0 4 false]).
Definition dst_param : FuncParamInfo := mkParam (B "dst") 0 8 false [] (B "u64") None false 0 false 0 false.
Definition sids_filter : SetFilter :=
  mkSetFilter (B "sids") 16 [mkSetKeyField (B "dst") 0 16 (B "dst") 0 8 false false 0 false] 4 (-1).

(** C15: a 16-byte address key is accepted by the resolution of set
    references, which compares sizes only, but the emitted code does not
    build it: the field is stored as eight bytes, the layout counts as
    gapless so nothing is zeroed, and when the code calls the lookup the upper
    half of the key is whatever the stack held. On a fresh stack the key is
    not readable at all, which the verifier rejects. *)
Theorem address_key_half_written `{Btf} `{Kernel} (setMapFD : SetFilter -> Z) s w :
  args_saved s -> words s !! 0%nat = Some w ->
  ResolveSetFilters [sids] [B "sids"] [dst_param] = Ok [sids_filter] /\
  exists pre post s',
    emitSetFilters setMapFD [sids_filter] None ∅ = pre ++ BuiltinCall FnMapLookupElem :: post /\
    exec pre None s = Next s' /\ getr R2 s' = Some (Ptr Stack setKeyBase) /\
    (forall i, 8 <= i < 16 -> stack s' !! (setKeyBase + i) = stack s !! (setKeyBase + i)) /\
    (stack s !! (setKeyBase + 8) = None -> bytes_at (Ptr Stack setKeyBase) 16 s' = None).
Proof.
  intros Ha Hw. split; [vm_compute; reflexivity|].
  exists [load_args; LoadMem R3 R2 0 DWord; StoreMem RFP setKeyBase R3 DWord; LoadMapPtr R1 (setMapFD sids_filter); Reg Mov R2 RFP; Imm Add R2 (-120)].
  eexists. assert (Hl : load_ctx 0 8 s = Some (Num (w mod 256 ^ 8))) by (unfold load_ctx; change (Z.to_nat (0 / 8)) with 0%nat; rewrite Hw; reflexivity).
  rewrite exec_load_args by exact Ha.
  erewrite exec_LoadMem; [|discriminate|now apply getr_same|cbn [add_off load Z.add]; exact Hl].
  erewrite exec_store_stack; [|reflexivity|now apply getr_same|reflexivity|reflexivity].
  rewrite exec_LoadMapPtr by discriminate. step.
  erewrite exec_Add_ptr; [|discriminate|unfold two63; lia|regs]. eexists.
  assert (Hst : forall i, 8 <= i < 16 -> stack (wr (0 + setKeyBase) (map CByte (le 8 (w mod 256 ^ 8))) s) !! (setKeyBase + i) = stack s !! (setKeyBase + i)).
  { intros i Hi. cbn [wr set_stack stack]. apply write_other. rewrite length_map, le_length. lia. }
  split; [reflexivity|]. split; [reflexivity|]. split; [regs|]. split; [exact Hst|].
  intros Hn. cbn [bytes_at in_frame]. change (in_frame setKeyBase 16) with true. cbv iota. unfold read.
  match goal with |- (mapM id (peek _ _ ?m) ≫= _) = _ => set (m0 := m) end.
  assert (Hm0 : m0 !! (setKeyBase + 8) = None) by (rewrite <- Hn; now apply (Hst 8)).
  replace (mapM id (peek setKeyBase 16 m0)) with (@None (list cell)); [reflexivity|]. symmetry. apply mapM_None. apply Exists_exists. exists None. split; [|reflexivity].
  unfold peek. rewrite <- Hm0. apply (list_elem_of_fmap_2 (fun k => m0 !! (setKeyBase + Z.of_nat k)) _ 8%nat). apply elem_of_seq. lia.
Qed.
