(* ===== verification/GateExamples.v ===== *)
(** * GateExamples: runs of the gate

    A kernel, a target with an integer argument and a pointer to a struct, a
    condition on each, and a set keyed by both with padding between the
    fields; and one state in which they pass. *)

From Stdlib Require Import ZArith Lia Bool Ascii String List.
From stdpp Require Import base list strings numbers option gmap.
From S2P Require Import Prelude GoStd GoBytes HookAbi ArgExpr ArgFilter SetMap SetMapFacts SetEntries Record RecordBuild SetFilters.
From S2P Require Import Asm Ebpf EbpfFacts Helpers Gate GateFacts GateRecord GateSets GateWhole SetGate.
Local Open Scope Z_scope.

(** -3 as an int32 at 0x1008. *)
Definition demo_mem (t : nat) (a : Z) : option Z := Some (nth (Z.to_nat (a - 0x1008)) (le 4 (2 ^ 32 - 3)) 0 mod 256).
Definition demo_ks (fd : Z) : nat := if fd =? 9 then 4%nat else 16%nat.

#[export] Instance gate_kernel : Kernel := demo_kernel demo_ks demo_mem.
#[export] Instance gate_helpers : Helpers := demo_helpers demo_ks demo_mem.


Definition id_filter : ArgFilter := mkArgFilter (B "id") 0 4 true false false 0 OpRange 5 9 false.
(** ctx->delta >= -10 *)
Definition delta_filter : ArgFilter := mkArgFilter (B "ctx->delta") 1 4 true false true 8 OpGreaterEqual (two64 - 10) 0 false.

Definition flows_filter : SetFilter :=
  mkSetFilter (B "flows") 16
    [mkSetKeyField (B "id") 0 4 (B "id") 0 4 true false 0 false; mkSetKeyField (B "delta") 8 8 (B "ctx->delta") 1 4 true true 8 false] 4 4.

Definition demo_tf : TargetFilters := mkTargetFilters [id_filter; delta_filter] [flows_filter].
Definition demo_fd (_ : SetFilter) : Z := 7.

(** id 6, delta -3: tag 21, active. *)
Definition demo_key : list Z := le 4 6 ++ [0; 0; 0; 0] ++ le 8 (two64 - 3).
Definition demo_value : list Z := le 4 21 ++ [0; 0; 0; 0].

Definition demo_snap : fieldSnap :=
  mkSnap 9 0 (mkLayout ModeFilter [mkField (B "id") 0 4 true false false 0; mkField (B "ctx->delta") 1 4 true true false 8]
    noScalar noScalar noBytes noBytes).

Definition demo_state : st :=
  mkSt ∅ (write (-48) (parts (Ptr Ctx 0)) ∅) [6; 0x1000] 2
    (<[9 := {[ le 4 0 := repeat 0 16 ]}]> {[ 7 := {[ demo_key := demo_value ]} ]}) None [] 0.

Lemma demo_mem_ok : mem_ok.
Proof. intros t a b. cbn. unfold demo_mem. intros [= <-]. now apply Z.mod_pos_bound. Qed.

Lemma demo_ctx_ok : gate_ready demo_state.
Proof. split; [split; [repeat constructor; unfold in_u64, two64; cbn; lia|cbn; lia]|vm_compute; reflexivity]. Qed.

Lemma demo_filters_ok : Forall (fun f => filter_ok f demo_state) (Args demo_tf).
Proof.
  apply List.Forall_cons; [|apply List.Forall_cons; [|apply List.Forall_nil]].
  all: split; [|vm_compute; intuition congruence].
  all: split; [unfold access_size; cbn; auto|]; vm_compute; intuition congruence.
Qed.

Lemma demo_set_ok sn : match sn with Some s => sn_fd s <> 7 | None => True end -> Forall (fun x => set_ok sn demo_fd x demo_state) (Sets demo_tf).
Proof.
  intros Hsn. apply List.Forall_cons; [|apply List.Forall_nil]. split; [cbn; lia|]. split; [|split; [|split; [|exact Hsn]]].
  - apply List.Forall_cons; [|apply List.Forall_cons; [|apply List.Forall_nil]]; (split; [unfold access_size; cbn; auto|cbn; lia]).
  - apply List.Forall_cons; [|apply List.Forall_cons; [|apply List.Forall_nil]];
      (split; [unfold access_size; cbn; auto|]; vm_compute; intuition congruence).
  - split; [reflexivity|]. split; [cbn; lia|]. exists {[ demo_key := demo_value ]}. split; [vm_compute; reflexivity|].
    intros k v Hv. apply lookup_singleton_Some in Hv as [_ <-]. split; [|cbn; vm_compute; intuition congruence].
    apply (List.Forall_forall byte). intros x Hx. vm_compute in Hx. unfold byte. intuition (subst; lia).
Qed.

(** A run without recording and one with: the packet passes, and the tag is
    its entry's. *)
Lemma arg_gate_decides_witness :
  exists s', exec (arg_gate demo_fd demo_tf None) None demo_state = Next s' /\ ldst tagSlot 8 s' = Some (Num 21).
Proof.
  destruct (arg_gate_decides demo_fd demo_tf demo_state demo_mem_ok (conj demo_filters_ok (conj (demo_set_ok None I) demo_ctx_ok))) as (s' & _ & _ & E).
  assert (Et : gate_tags demo_fd demo_tf demo_state = Some [21]) by (vm_compute; reflexivity). rewrite Et in E. exists s'. exact E.
Defined.

Lemma demo_snap_ok : snap_ready demo_snap demo_state /\ snap_holds demo_snap (repeat 0 16) demo_state.
Proof.
  assert (Hv : snap_value demo_snap demo_state = Some (repeat 0 16)) by (vm_compute; reflexivity).
  assert (Hl : 8 * Z.of_nat (length (Fields (sn_layout demo_snap))) <= len (repeat 0 16)) by (vm_compute; discriminate).
  split; [split; [reflexivity|split; [cbn; lia|split; [cbn; lia|exists (repeat 0 16); split; [exact Hv|exact Hl]]]]|split; [exact Hv|exact Hl]].
Qed.

Definition demo_recorded : list Z := le 8 6 ++ le 8 (two64 - 3).

Lemma arg_gate_recorded_witness :
  exists s', exec (arg_gate demo_fd demo_tf (Some demo_snap)) None demo_state = Next s' /\
    snap_value demo_snap s' = Some demo_recorded /\ ldst tagSlot 8 s' = Some (Num 21).
Proof.
  destruct (arg_gate_recorded demo_fd demo_snap demo_tf (repeat 0 16) demo_state demo_mem_ok
    (conj demo_filters_ok (conj (demo_set_ok (Some demo_snap) ltac:(discriminate)) demo_ctx_ok)) (proj1 demo_snap_ok) (proj2 demo_snap_ok)) as (s' & _ & E).
  assert (Et : gate_record demo_fd demo_snap demo_tf (repeat 0 16) demo_state = Some ([21], demo_recorded)) by (vm_compute; reflexivity).
  rewrite Et in E. destruct E as (E & Hv & _ & _ & Ht). exists s'. split; [exact E|]. split; [exact Hv|exact Ht].
Defined.

(** ** set add, then a packet *)

Definition flows_def : Definition_ :=
  mkDefinition 16 8 [mkKeyField (B "id") 0 4 false; mkKeyField (B "teid") 8 8 false] false
    [mkKeyField ValFieldTag 0 4 false; mkKeyField ValFieldState 4 1 false].
Definition flows_set : Set_ := mkSet (mkSpecRef (B "flows") (B "/sys/fs/bpf/flows") [mkMapEntry (B "teid") (B "arg:tunnel")]) flows_def.
Definition flows_params : list FuncParamInfo :=
  [mkParam (B "id") 0 4 true [] (B "int") None false 0 false 0 false; mkParam (B "tunnel") 1 8 false [] (B "u64") None false 0 false 0 false].
Definition flows_bound : SetFilter :=
  mkSetFilter (B "flows") 16
    [mkSetKeyField (B "id") 0 4 (B "id") 0 4 true false 0 false; mkSetKeyField (B "teid") 8 8 (B "tunnel") 1 8 false false 0 false] 4 4.

Definition flows_texts : gmap bytes bytes := <[B "id" := B "0x6"]> {[B "teid" := B "4096"]}.
Definition flows_key : list Z := le 4 6 ++ [0; 0; 0; 0] ++ le 8 4096.
Definition flows_entries : entries := {[ flows_key := demo_value ]}.
Definition flows_state : st := set_maps {[ 7 := flows_entries ]} demo_state.

Lemma flows_value_ok : value_ok flows_def.
Proof.
  split; [vm_compute; intuition congruence|]. split; [repeat constructor|]. eexists. split; [reflexivity|]. split; [reflexivity|].
  rewrite list_elem_of_In. vm_compute. intuition congruence.
Qed.

Lemma flows_empty_sized : sized flows_def ∅.
Proof. intros k v Hv. now rewrite lookup_empty in Hv. Qed.

Lemma flows_widths : widths_ok flows_def.
Proof. split; intros f Hf; vm_compute in Hf; [injection Hf as <-; reflexivity|discriminate]. Qed.

Lemma flows_values : Forall2 (same_value flows_texts) (d_Fields flows_def) [6; 4096].
Proof.
  constructor; [exists (B "0x6"), 6|constructor; [exists (B "4096"), 4096|constructor]]; (split; [vm_compute; reflexivity|split; vm_compute; reflexivity]).
Qed.

Lemma set_add_admits_witness :
  set_entry demo_fd flows_bound (key_of flows_bound [6; 4096]) flows_state = Some 21.
Proof.
  destruct (@set_add_admits strip_btf demo_fd [flows_set] [B "flows"] flows_params [flows_bound] 0 (B "flows") flows_set flows_bound (sample_calls []) 10 flows_texts
    (mkEntryValue 21 0 true false) ∅ flows_entries [6; 4096] flows_state) as [Ha _].
  - vm_compute. reflexivity.
  - reflexivity.
  - reflexivity.
  - vm_compute. reflexivity.
  - vm_compute. intuition congruence.
  - exact flows_value_ok.
  - exact flows_widths.
  - reflexivity.
  - vm_compute. discriminate.
  - exact flows_empty_sized.
  - vm_compute. intuition congruence.
  - vm_compute. intuition congruence.
  - exact flows_values.
  - apply Ha; vm_compute; reflexivity.
Defined.

Lemma address_key_half_written_witness :
  let _ := strip_btf in
  ResolveSetFilters [sids] [B "sids"] [dst_param] = Ok [sids_filter] /\
  exists pre post s', emitSetFilters demo_fd [sids_filter] None ∅ = pre ++ BuiltinCall FnMapLookupElem :: post /\
    exec pre None demo_state = Next s' /\ bytes_at (Ptr Stack setKeyBase) 16 s' = None.
Proof.
  intros b. destruct (address_key_half_written demo_fd demo_state 6) as (Hr & pre & post & s' & Hc & He & _ & _ & Hn); [vm_compute; reflexivity|reflexivity|].
  split; [exact Hr|]. exists pre, post, s'. split; [exact Hc|]. split; [exact He|]. apply Hn. vm_compute. reflexivity.
Defined.
