(* ===== verification/RingHelpers.v ===== *)
(** * RingHelpers: the kernel helpers of the capture epilogue

    [Rings] adds to [Helpers] what the kernel documents of the clock, the
    CPU number, ring buffers found in an array of maps, and the return value
    of an fexit. [ring_kernel] is a kernel that keeps both. *)

From Stdlib Require Import ZArith Lia Bool Ascii String List.
From stdpp Require Import base list strings numbers option gmap.
From S2P Require Import Prelude GoStd GoBytes HookAbi Asm Ebpf EbpfFacts Helpers.
Local Open Scope Z_scope.

(** A helper without a result leaves [R0] unreadable. *)
Definition returned_void (s : st) : st := set_clock (S (clock s)) (set_regs (delete R0 (clobber_regs (regs s))) s).

Class Rings `{Helpers} := {
  (** The time and the CPU number at the [n]th helper call of the run. *)
  now : nat -> Z; now_u64 : forall t, in_u64 (now t);
  cpu : Z; cpu_u32 : 0 <= cpu < 2 ^ 32;
  (** Whether an array of rings has one under a key, what the ring tells when
      it is queried, and the memory a reservation gets (the ring's old
      bytes), [None] when it is full. *)
  has_ring : Z -> list Z -> bool;
  query : Z -> list Z -> Z -> nat -> Z; query_u64 : forall fd key sel t, in_u64 (query fd key sel t);
  room : Z -> list Z -> Z -> nat -> option (list Z);
  room_bytes : forall fd key n t b, room fd key n t = Some b -> len b = n /\ Forall byte b;

  ktime : forall s, helper FnKtimeGetNs s = Some (returned (Num (now (clock s))) s);
  processor : forall s, helper FnGetSmpProcessorId s = Some (returned (Num cpu) s);

  (** [bpf_map_lookup_elem] on an array of maps. *)
  ring_lookup : forall s fd p key,
    getr R1 s = Some (Ptr (MapOf fd) 0) -> getr R2 s = Some p -> bytes_at p 4 s = Some key -> maps s !! fd = None ->
    helper FnMapLookupElem s = Some (returned (if has_ring fd key then Ptr (RingOf fd key) 0 else Num 0) s);

  (** [bpf_ringbuf_query(ring, selector)] *)
  ring_query : forall s fd key sel,
    getr R1 s = Some (Ptr (RingOf fd key) 0) -> getr R2 s = Some (Num sel) ->
    helper FnRingbufQuery s = Some (returned (Num (query fd key sel (clock s))) s);

  (** [bpf_ringbuf_reserve(ring, size, 0)] *)
  ring_reserve : forall s fd key n,
    getr R1 s = Some (Ptr (RingOf fd key) 0) -> getr R2 s = Some (Num n) -> getr R3 s = Some (Num 0) -> resv s = None ->
    helper FnRingbufReserve s =
      Some (match room fd key n (clock s) with
            | Some b => returned (Ptr Reserved 0) (set_resv (Some b) s)
            | None => returned (Num 0) s
            end);

  (** [bpf_ringbuf_submit(record, flags)], [bpf_ringbuf_discard(record, flags)] *)
  ring_submit : forall s fl b,
    getr R1 s = Some (Ptr Reserved 0) -> getr R2 s = Some (Num fl) -> resv s = Some b ->
    helper FnRingbufSubmit s = Some (returned_void (set_resv None (set_submitted (submitted s ++ [(b, fl)]) s)));
  ring_discard : forall s fl b,
    getr R1 s = Some (Ptr Reserved 0) -> getr R2 s = Some (Num fl) -> resv s = Some b ->
    helper FnRingbufDiscard s = Some (returned_void (set_resv None s));

  (** [bpf_get_func_ret(ctx, dst)]: the word behind the arguments. *)
  func_ret : forall s dst,
    getr R1 s = Some (Ptr Ctx 0) -> getr R2 s = Some dst ->
    helper FnGetFuncRet s =
      match words s !! Z.to_nat (nargs s) with
      | Some w => option_map (returned (Num 0)) (put_bytes dst (le 8 w) s)
      | None => Some (returned (Num einval) s)
      end
}.

Lemma getr_void r s : 6 <= r -> getr r (returned_void s) = getr r s.
Proof.
  intros Hr. unfold getr, returned_void. cbn [regs set_clock set_regs]. destruct (r =? RFP); [reflexivity|]. unfold clobber_regs.
  rewrite !lookup_delete_ne by (unfold R0, R1, R2, R3, R4, R5; lia). reflexivity.
Qed.

(** ** A kernel *)

Section Demo.
Variables (ks : Z -> nat) (mem : nat -> Z -> option Z) (clk : nat -> Z) (id : Z) (rings : Z -> list Z -> bool).
Variables (tells : Z -> list Z -> Z -> nat -> Z) (free : Z -> list Z -> Z -> nat -> bool).

Definition demo_room (fd : Z) (key : list Z) (n : Z) (t : nat) : option (list Z) :=
  if free fd key n t && (0 <=? n) then Some (repeat 0xAA (Z.to_nat n)) else None.

Definition ring_or_value (s : st) : option st :=
  match getr R1 s, getr R2 s with
  | Some (Ptr (MapOf fd) 0), Some p =>
      match maps s !! fd with
      | Some _ => demo_lookup ks s
      | None => bytes_at p 4 s ≫= fun key => Some (returned (if rings fd key then Ptr (RingOf fd key) 0 else Num 0) s)
      end
  | _, _ => None
  end.

Definition demo_reserve (s : st) : option st :=
  match getr R1 s, getr R2 s, getr R3 s, resv s with
  | Some (Ptr (RingOf fd key) 0), Some (Num n), Some (Num 0), None =>
      Some (match demo_room fd key n (clock s) with
            | Some b => returned (Ptr Reserved 0) (set_resv (Some b) s)
            | None => returned (Num 0) s
            end)
  | _, _, _, _ => None
  end.

Definition demo_commit (submit : bool) (s : st) : option st :=
  match getr R1 s, getr R2 s, resv s with
  | Some (Ptr Reserved 0), Some (Num fl), Some b =>
      Some (returned_void (set_resv None (if submit then set_submitted (submitted s ++ [(b, fl)]) s else s)))
  | _, _, _ => None
  end.

Definition demo_query (s : st) : option st :=
  match getr R1 s, getr R2 s with
  | Some (Ptr (RingOf fd key) 0), Some (Num sel) => Some (returned (Num (u64 (tells fd key sel (clock s)))) s)
  | _, _ => None
  end.

Definition demo_ret (s : st) : option st :=
  match getr R1 s, getr R2 s with
  | Some (Ptr Ctx 0), Some dst =>
      match words s !! Z.to_nat (nargs s) with
      | Some w => option_map (returned (Num 0)) (put_bytes dst (le 8 w) s)
      | None => Some (returned (Num (two64 - 22)) s)
      end
  | _, _ => None
  end.

Definition ring_helper (fn : Z) (s : st) : option st :=
  if fn =? FnMapLookupElem then ring_or_value s
  else if fn =? FnKtimeGetNs then Some (returned (Num (u64 (clk (clock s)))) s)
  else if fn =? FnGetSmpProcessorId then Some (returned (Num (u32 id)) s)
  else if fn =? FnRingbufQuery then demo_query s
  else if fn =? FnRingbufReserve then demo_reserve s
  else if fn =? FnRingbufSubmit then demo_commit true s
  else if fn =? FnRingbufDiscard then demo_commit false s
  else if fn =? FnGetFuncRet then demo_ret s
  else demo_helper ks mem fn s.

Definition ring_kernel : Kernel := {| helper := ring_helper; keySize := ks; kmem := mem |}.

Definition ring_helpers : @Helpers ring_kernel.
Proof.
  refine (@Build_Helpers ring_kernel (two64 - 14) _ (two64 - 22) _ _ _ _).
  - now vm_compute.
  - now vm_compute.
  - intros s fd p key m H1 H2 Hk Hm. change (ring_or_value s = Some (returned (match m !! key with Some _ => Ptr (ValueOf fd key) 0 | None => Num 0 end) s)).
    unfold ring_or_value. rewrite H1, H2, Hm. unfold demo_lookup. rewrite H1, H2. cbn [keySize ring_kernel] in Hk. rewrite Hk. cbn [mbind option_bind].
    now rewrite Hm.
  - apply (@probe_read (demo_kernel ks mem) (demo_helpers ks mem)).
  - apply (@get_func_arg (demo_kernel ks mem) (demo_helpers ks mem)).
Defined.

Definition ring_rings : @Rings ring_kernel ring_helpers.
Proof.
  refine (@Build_Rings ring_kernel ring_helpers (fun t => u64 (clk t)) _ (u32 id) _ rings (fun fd key sel t => u64 (tells fd key sel t)) _ demo_room _ _ _ _ _ _ _ _ _).
  - intros t. now apply Z.mod_pos_bound.
  - now apply Z.mod_pos_bound.
  - intros fd key sel t. now apply Z.mod_pos_bound.
  - intros fd key n t b. unfold demo_room. destruct (_ && _) eqn:E; [|discriminate]. intros [= <-]. split.
    + unfold len. rewrite repeat_length. lia.
    + apply Forall_forall. intros x Hx. apply list_elem_of_In, repeat_spec in Hx as ->. unfold byte. lia.
  - reflexivity.
  - reflexivity.
  - intros s fd p key H1 H2 Hk Hm. change (ring_or_value s = Some (returned (if rings fd key then Ptr (RingOf fd key) 0 else Num 0) s)).
    unfold ring_or_value. rewrite H1, H2, Hm. cbn [keySize ring_kernel] in Hk. now rewrite Hk.
  - intros s fd key sel H1 H2. change (demo_query s = Some (returned (Num (u64 (tells fd key sel (clock s)))) s)). unfold demo_query. now rewrite H1, H2.
  - intros s fd key n H1 H2 H3 Hr. change (demo_reserve s = Some (match demo_room fd key n (clock s) with
      | Some b => returned (Ptr Reserved 0) (set_resv (Some b) s) | None => returned (Num 0) s end)). unfold demo_reserve. now rewrite H1, H2, H3, Hr.
  - intros s fl b H1 H2 Hr. change (demo_commit true s = Some (returned_void (set_resv None (set_submitted (submitted s ++ [(b, fl)]) s)))).
    unfold demo_commit. now rewrite H1, H2, Hr.
  - intros s fl b H1 H2 Hr. change (demo_commit false s = Some (returned_void (set_resv None s))). unfold demo_commit. now rewrite H1, H2, Hr.
  - intros s dst H1 H2. change (demo_ret s = match words s !! Z.to_nat (nargs s) with
      | Some w => option_map (returned (Num 0)) (put_bytes dst (le 8 w) s) | None => Some (returned (Num (@einval ring_kernel ring_helpers)) s) end).
    unfold demo_ret. now rewrite H1, H2.
Defined.
End Demo.
