(* ===== verification/Capture.v ===== *)
(** * Capture: the epilogue of a capture program (internal/program)

    What a tracing program runs once its filters passed: the clock, the
    reservation on the CPU's ring with its wakeup flag, the record block, the
    metadata, the packet bytes, submit or discard, and the export counters
    (captureWithRecord of program.go, record.go, sharded_ringbuf.go,
    export_stats.go, tag_barrier.go, fexit_layout.go), as the instruction
    lists the functions return. *)

From Stdlib Require Import ZArith Lia Bool Ascii String List.
From stdpp Require Import base list strings numbers option gmap.
From S2P Require Import Prelude GoStd GoBytes HookAbi ArgFilter Record RecordBuild Asm Gate.
Local Open Scope Z_scope.

Definition metadataSize : Z := 32.
Definition defaultCapLen : Z := 1500.
Definition savedReturnSlot : Z := -12.
Definition wakeFlagSlot : Z := -24.
Definition reservedSlot : Z := -32.
Definition recordValidSlot : Z := -64.
Definition BPF_RB_NO_WAKEUP : Z := 1.
Definition bpfRBAvailData : Z := 0.
Definition bpfRBRingSize : Z := 1.
Definition fexitReturnViaHelper : Z := -1.
Definition ModeRecordFlag : Z := 0x80.

Definition statReserveFail : Z := 0.
Definition statSubmitted : Z := 1.
Definition statLookupMiss : Z := 2.
Definition statCopyFail : Z := 3.

(** ** Rings *)

(** [bits.Len32] *)
Definition Len32 (n : Z) : Z := if n =? 0 then 0 else Z.log2 n + 1.

Definition shardRingbufSize (total numCPUs : Z) : Z :=
  let perShard := Z.max (total / u32 numCPUs) 65536 in u32 (Z.shiftl 1 (Len32 perShard - 1)).

Section Wakeup.
(** [capture.NoWakeup], fixed before programs are built. *)
Variable NoWakeup : bool.

Definition ringbufSubmitFlag : Instruction :=
  if NoWakeup then Imm Mov R2 BPF_RB_NO_WAKEUP else LoadMem R2 RFP wakeFlagSlot DWord.

Definition emitWakeFlag (reserveSize : Z) : list Instruction :=
  if NoWakeup then []
  else
    let recLen := Z.ldiff (i32 (8 + reserveSize + 7)) 7 in
    [StoreMem RFP wakeFlagSlot R0 DWord;
     Reg Mov R1 R0;
     Imm Mov R2 bpfRBRingSize;
     BuiltinCall FnRingbufQuery;
     Imm RSh R0 2;
     StoreMem RFP reservedSlot R0 DWord;
     LoadMem R1 RFP wakeFlagSlot DWord;
     Imm Mov R2 bpfRBAvailData;
     BuiltinCall FnRingbufQuery;
     Reg Mov R1 R0;
     Imm Add R1 recLen;
     Reg Xor R1 R0;
     LoadMem R2 RFP reservedSlot DWord;
     Imm Sub R2 1;
     Reg Sub R2 R1;
     Imm RSh R2 63;
     Imm Add R2 BPF_RB_NO_WAKEUP;
     LoadMem R0 RFP wakeFlagSlot DWord;
     StoreMem RFP wakeFlagSlot R2 DWord].

Definition emitShardedRBReserve (eventsFD statsFD reserveSize : Z) : list Instruction :=
  let failSym := if 0 <? statsFD then B "rb_fail" else B "exit" in
  let lookupSym := if 0 <? statsFD then B "rb_lookup_fail" else B "exit" in
  [LoadMapPtr R1 eventsFD;
   Reg Mov R2 RFP; Imm Add R2 (-16);
   BuiltinCall FnMapLookupElem;
   JImm JEq R0 0 lookupSym]
  ++ emitWakeFlag reserveSize
  ++ [Reg Mov R1 R0;
      Imm Mov R2 reserveSize;
      Imm Mov R3 0;
      BuiltinCall FnRingbufReserve;
      JImm JEq R0 0 failSym;
      StoreMem RFP (-32) R0 DWord].

(** ** Counters *)

Definition emitExportCounter (fd key : Z) (label : bytes) : list Instruction :=
  if fd <=? 0 then [WithSymbol label (JaLabel (B "exit"))]
  else
    [WithSymbol label (StoreImm RFP (-16) key Word);
     LoadMapPtr R1 fd; Reg Mov R2 RFP; Imm Add R2 (-16); BuiltinCall FnMapLookupElem; JImm JEq R0 0 (B "exit");
     Imm Mov R1 1; StoreXAdd R0 R1 DWord; JaLabel (B "exit")].

Definition emitCounterInc (fd key : Z) (next : bytes) : list Instruction :=
  if fd <=? 0 then []
  else
    [StoreImm RFP (-16) key Word;
     LoadMapPtr R1 fd; Reg Mov R2 RFP; Imm Add R2 (-16); BuiltinCall FnMapLookupElem; JImm JEq R0 0 next;
     Imm Mov R1 1; StoreXAdd R0 R1 DWord].

Definition emitExportTerminals (fd : Z) : list Instruction :=
  emitExportCounter fd statSubmitted (B "rb_submitted")
  ++ (if 0 <? fd
      then emitExportCounter fd statReserveFail (B "rb_fail") ++ emitExportCounter fd statLookupMiss (B "rb_lookup_fail") else [])
  ++ [WithSymbol (B "rb_copy_fail") (LoadMem R1 RFP (-32) DWord); ringbufSubmitFlag; BuiltinCall FnRingbufDiscard]
  ++ emitExportCounter fd statCopyFail (B "rb_copy_count").

Definition emitTagBarrier (fd : Z) : list Instruction :=
  if fd <=? 0 then []
  else
    [LoadMem R1 RFP tagSlot DWord;
     StoreMem RFP (-16) R1 Word;
     LoadMapPtr R1 fd;
     Reg Mov R2 RFP; Imm Add R2 (-16);
     BuiltinCall FnMapLookupElem; JImm JNE R0 0 (B "exit")].

(** ** The record block *)

Definition emitRecordValid (bit : Z) : list Instruction :=
  [LoadMem R1 RFP recordValidSlot DWord;
   Imm Or R1 (i32 bit);
   StoreMem RFP recordValidSlot R1 DWord].

Definition emitRecordScalar (index size off bit : Z) : list Instruction :=
  [LoadMem R2 RFP (-48) DWord;
   LoadMem R3 R2 (i16 (index * 8)) DWord;
   LoadMem R1 RFP reservedSlot DWord;
   StoreMem R1 off R3 (asmSizeFor size)]
  ++ emitRecordValid bit.

Definition emitRecordBytes (b : Bytes) (off bit : Z) (label : bytes) : list Instruction :=
  if negb (Bytes_Present b) || (BLen b =? 0) then []
  else if negb (BPointer b) then emitRecordScalar (BParamIndex b) (BLen b) off bit
  else
    let null := label ++ B "_null" in
    let read := label ++ B "_read" in
    let done := label ++ B "_done" in
    emitArgPointerLoad (BParamIndex b) null
    ++ [JaLabel read;
        WithSymbol null (Imm Mov R3 0);
        WithSymbol read (LoadMem R1 RFP reservedSlot DWord);
        Imm Add R1 off;
        Imm Mov R2 (i32 (BLen b));
        BuiltinCall FnProbeReadKernel;
        JImm JNE R0 0 done;
        LoadMem R1 RFP recordValidSlot DWord;
        Imm Or R1 (i32 bit);
        StoreMem RFP recordValidSlot R1 DWord;
        WithSymbol done (Imm Mov R1 0)].

Definition block_head (l : Layout) : list Instruction :=
  [StoreImm R0 (metadataSize + OffLen) (Layout_Size l) Half;
   StoreImm R0 (metadataSize + OffVersion) BlockVersion Byte;
   StoreImm R0 (metadataSize + OffKind) (Layout_Kind l) Byte].

(** The snapshot's address is kept at -40. *)
Definition snap_address (snap : fieldSnap) : list Instruction :=
  [StoreImm RFP (-16) (sn_key snap) Word;
   LoadMapPtr R1 (sn_fd snap);
   Reg Mov R2 RFP; Imm Add R2 (-16);
   BuiltinCall FnMapLookupElem;
   JImm JEq R0 0 (B "rb_copy_fail");
   StoreMem RFP (-40) R0 DWord].

(** One turn of the loop over the fields. *)
Definition field_store (i : nat) : list Instruction :=
  [LoadMem R1 RFP (-40) DWord;
   LoadMem R1 R1 (i16 (8 * Z.of_nat i)) DWord;
   LoadMem R0 RFP reservedSlot DWord;
   StoreMem R0 (i16 (metadataSize + HeaderSize + i16 (8 * Z.of_nat i))) R1 DWord].

(** [int32(uint32(uint64(1)<<len(l.Fields) - 1))] *)
Definition field_mask (n : nat) : Z := i32 (u32 (u64 (u64 (Z.shiftl 1 (Z.of_nat n)) - 1))).

Definition filter_block_code (l : Layout) (snap : fieldSnap) : list Instruction :=
  snap_address snap
  ++ flat_map field_store (seq 0 (length (Fields l)))
  ++ [LoadMem R0 RFP reservedSlot DWord;
      Imm Mov R1 (field_mask (length (Fields l)));
      StoreMem R0 (metadataSize + OffValid) R1 Word].

(** The closure [zero] on the sizes it is called with. *)
Definition zero_words (off : Z) (n : nat) : list Instruction := map (fun k => StoreImm R0 (off + 4 * Z.of_nat k) 0 Word) (seq 0 n).

Definition entry_block_code (l : Layout) : list Instruction :=
  [Imm Mov R1 0; StoreMem RFP recordValidSlot R1 DWord]
  ++ zero_words (metadataSize + EntryOffSite) 1
  ++ zero_words (metadataSize + EntryOffStatus) 2
  ++ [StoreImm R0 (metadataSize + EntryOffKeyLen) (BLen (Key l)) Half;
      StoreImm R0 (metadataSize + EntryOffValueLen) (BLen (Value l)) Half]
  ++ (if Scalar_Present (Site l) then emitRecordScalar (SParamIndex (Site l)) 4 (metadataSize + EntryOffSite) (2 ^ ValidSite) else [])
  ++ (if Scalar_Present (Status l) then emitRecordScalar (SParamIndex (Status l)) 8 (metadataSize + EntryOffStatus) (2 ^ ValidStatus) else [])
  ++ emitRecordBytes (Key l) (metadataSize + EntryOffBytes) (2 ^ ValidKey) (B "rec_key")
  ++ emitRecordBytes (Value l) (i16 (metadataSize + EntryOffBytes + i16 (BLen (Key l)))) (2 ^ ValidValue) (B "rec_value")
  ++ [LoadMem R1 RFP recordValidSlot DWord;
      LoadMem R0 RFP reservedSlot DWord;
      StoreMem R0 (metadataSize + OffValid) R1 Word].

(** A filter layout comes with its snapshot. *)
Definition emitRecordBlock (l : Layout) (snap : fieldSnap) : list Instruction :=
  block_head l ++ (if bool_decide (LMode l = ModeFilter) then filter_block_code l snap else entry_block_code l).

Definition recordMode (mode : Z) : Z := Z.lor mode ModeRecordFlag.

(** ** The epilogue *)

Definition origLenFromR8 : list Instruction := [Reg Mov R1 R8].

Definition clock_code : list Instruction :=
  [BuiltinCall FnKtimeGetNs;
   StoreMem RFP (-56) R0 DWord;
   BuiltinCall FnGetSmpProcessorId;
   StoreMem RFP (-16) R0 Word].

(** Action, mode and site. *)
Definition action_code (isFexit : bool) (rec : option Layout) (siteID : Z) : list Instruction :=
  let mode := if isFexit then 1 else 0 in
  let mode := match rec with Some _ => recordMode mode | None => mode end in
  (if isFexit
   then [LoadMem R2 RFP savedReturnSlot Word; StoreMem R0 8 R2 Word; StoreImm R0 12 mode Byte]
   else [StoreImm R0 8 0 Word; StoreImm R0 12 mode Byte])
  ++ [StoreImm R0 13 siteID Byte].

Definition length_code (maxCapLen : Z) : list Instruction :=
  [Reg Mov R3 R9;
   JImm JLE R3 (i32 maxCapLen) (B "rb_cap_ok");
   Imm Mov R3 (i32 maxCapLen);
   WithSymbol (B "rb_cap_ok") (StoreMem RFP (-40) R3 Word);
   StoreMem R0 14 R3 Half].

Definition copy_code (dataOff : Z) : list Instruction :=
  [Reg Mov R1 R0; Imm Add R1 dataOff;
   Reg Mov R2 R3;
   Reg Mov R3 R7;
   BuiltinCall FnProbeReadKernel;
   JImm JNE R0 0 (B "rb_copy_fail")].

Definition data_off (rec : option Layout) : Z := match rec with Some l => i32 (metadataSize + i32 (Layout_Size l)) | None => metadataSize end.

(** [snap] is the filter layout's snapshot, unused otherwise. *)
Definition captureWithRecord (eventsFD statsFD : Z) (isFexit : bool) (maxCapLen : Z) (packetID origLen : list Instruction)
    (rec : option Layout) (siteID : Z) (snap : fieldSnap) : list Instruction :=
  let maxCapLen := if maxCapLen <=? 0 then defaultCapLen else maxCapLen in
  let dataOff := data_off rec in
  let reserveSize := i32 (dataOff + i32 maxCapLen) in
  clock_code
  ++ emitShardedRBReserve eventsFD statsFD reserveSize
  ++ (match rec with Some l => emitRecordBlock l snap | None => [] end)
  ++ [LoadMem R1 RFP (-56) DWord; StoreMem R0 0 R1 DWord]
  ++ packetID ++ [StoreMem R0 20 R1 DWord]
  ++ action_code isFexit rec siteID
  ++ length_code maxCapLen
  ++ [LoadMem R1 RFP tagSlot DWord; StoreMem R0 16 R1 Word]
  ++ origLen ++ [StoreMem R0 28 R1 Word]
  ++ copy_code dataOff
  ++ [LoadMem R1 RFP (-32) DWord; ringbufSubmitFlag; BuiltinCall FnRingbufSubmit].

Definition captureWithRingbuf (eventsFD statsFD : Z) (isFexit : bool) (maxCapLen : Z) (packetID origLen : list Instruction) (snap : fieldSnap) :=
  captureWithRecord eventsFD statsFD isFexit maxCapLen packetID origLen None 0 snap.

(** [buildRecordingInsns] after the filter gate: packet id 0, the length the
    prologue left in [R8]. *)
Definition capture_tail (eventsFD statsFD gateFD : Z) (isFexit : bool) (maxCapLen : Z) (rec : option Layout) (siteID : Z) (snap : fieldSnap) : list Instruction :=
  emitTagBarrier gateFD
  ++ captureWithRecord eventsFD statsFD isFexit maxCapLen [Imm Mov R1 0] origLenFromR8 rec siteID snap
  ++ emitExportTerminals statsFD.
End Wakeup.

(** [finishProgram] of a filter without callbacks. *)
Definition finishProgram (insns : list Instruction) (ret : Z) : list Instruction :=
  insns ++ [WithSymbol (B "exit") (Imm Mov R0 ret); Return].

(** ** The saved return value *)

Definition loadSavedReturn (offset : Z) : list Instruction :=
  if offset =? fexitReturnViaHelper then
    [LoadMem R1 RFP (-48) DWord;
     StoreImm RFP argMemberTmp 0 Word;
     StoreImm RFP (argMemberTmp + 4) 0 Word;
     Reg Mov R2 RFP; Imm Add R2 argMemberTmp;
     BuiltinCall FnGetFuncRet;
     JImm JNE R0 0 (B "exit");
     LoadMem R2 RFP argMemberTmp Word;
     StoreMem RFP savedReturnSlot R2 Word]
  else [LoadMem R2 RFP (-48) DWord; LoadMem R2 R2 offset Word; StoreMem RFP savedReturnSlot R2 Word].
