(* ===== verification/CaptureFacts.v ===== *)
(** * CaptureFacts: running the epilogue's parts

    Stores into the reservation, the wakeup flag, the reserve, the record
    blocks and the counters, each as a rule over the machine. *)

From Stdlib Require Import ZArith Lia Bool Ascii String List.
From stdpp Require Import base list strings numbers option gmap.
From S2P Require Import Prelude GoStd GoBytes HookAbi ArgFilter Record RecordBuild Asm Ebpf EbpfFacts Helpers RingHelpers Gate GateFacts Capture.
Local Open Scope Z_scope.

(** ** Bytes at an offset of a buffer *)

Definition has (b : list Z) (off : Z) (bs : list Z) : Prop := 0 <= off /\ sl (Z.to_nat off) (Z.to_nat off + length bs) b = Some bs.

Lemma has_iff b off bs : has b off bs <-> 0 <= off /\ off + len bs <= len b /\ take (length bs) (drop (Z.to_nat off) b) = bs.
Proof.
  unfold has, sl, len. split.
  - intros [Ho Hs]. destruct (_ && _) eqn:E; [|discriminate]. injection Hs as Hs. bools. split; [exact Ho|]. split; [lia|].
    rewrite Nat.add_comm, Nat.add_sub in Hs. exact Hs.
  - intros (Ho & Hb & Ht). split; [exact Ho|]. replace (_ && _) with true by (symmetry; apply andb_true_intro; split; apply Nat.leb_le; lia).
    rewrite Nat.add_comm, Nat.add_sub. now rewrite Ht.
Qed.

Lemma has_put_same off bs b : 0 <= off -> off + len bs <= len b -> has (put_cell off bs b) off bs.
Proof.
  intros Ho Hb. apply has_iff. rewrite put_cell_length by assumption. split; [exact Ho|]. split; [exact Hb|].
  unfold put_cell, len in *. rewrite drop_app_length' by (rewrite length_take; lia). now rewrite take_app_length.
Qed.

Lemma has_put_other off bs b o xs :
  has b o xs -> 0 <= off -> off + len bs <= len b -> o + len xs <= off \/ off + len bs <= o -> has (put_cell off bs b) o xs.
Proof.
  rewrite !has_iff. intros (Ho & Hx & Ht) Hoff Hb Hd. rewrite put_cell_length by assumption. split; [exact Ho|]. split; [exact Hx|].
  rewrite <- Ht at 2. unfold put_cell, len in *. destruct Hd as [Hd|Hd].
  - rewrite !take_drop_commute. f_equal. rewrite take_app_le by (rewrite length_take; lia). rewrite take_take. f_equal. lia.
  - f_equal. rewrite app_assoc, drop_app_ge by (rewrite length_app, length_take; lia). rewrite length_app, length_take, drop_drop. f_equal. lia.
Qed.

Lemma has_app b off xs ys : has b off xs -> has b (off + len xs) ys -> has b off (xs ++ ys).
Proof.
  rewrite !has_iff. intros (Ho & Hx & Ex) (_ & Hy & Ey). unfold len in *. rewrite length_app. split; [exact Ho|]. split; [lia|].
  replace (Z.to_nat (off + Z.of_nat (length xs))) with (Z.to_nat off + length xs)%nat in Ey by lia. rewrite <- drop_drop in Ey.
  rewrite <- (take_drop (length xs) (take (length xs + length ys) (drop (Z.to_nat off) b))). rewrite take_take, Nat.min_l by lia.
  rewrite Ex. f_equal. rewrite skipn_firstn_comm. replace (length xs + length ys - length xs)%nat with (length ys) by lia. exact Ey.
Qed.

(** A buffer from its start on. *)
Lemma has_all b bs : has b 0 bs -> b = bs ++ drop (length bs) b.
Proof. intros H. apply has_iff in H as (_ & _ & E). rewrite drop_0 in E. rewrite <- E at 1. now rewrite take_drop. Qed.

Lemma has_nil b off : 0 <= off <= len b -> has b off [].
Proof. intros H. apply has_iff. change (len []) with 0. split; [lia|]. split; [lia|reflexivity]. Qed.

Lemma put_cell_byte off bs b : Forall byte bs -> Forall byte b -> Forall byte (put_cell off bs b).
Proof. intros Hs Hb. unfold put_cell. apply Forall_app. split; [now apply Forall_take|]. apply Forall_app. split; [exact Hs|now apply Forall_drop]. Qed.

(** ** The reservation *)

Lemma resv_set_resv o s : resv (set_resv o s) = o.
Proof. reflexivity. Qed.

Section Reservation.
Context `{Kernel}.

Lemma put_resv off bs b s :
  resv s = Some b -> 0 <= off -> off + len bs <= len b -> put_bytes (Ptr Reserved off) bs s = Some (set_resv (Some (put_cell off bs b)) s).
Proof.
  intros Hb Ho Hl. unfold put_bytes, object. replace (0 <=? off) with true by lia. rewrite Hb. cbn [mbind option_bind].
  unfold copy_at, len in *. replace (_ <=? _)%nat with true by (symmetry; apply Nat.leb_le; lia). reflexivity.
Qed.

Lemma exec_store_resv l dst off src size v b s :
  getr dst s = Some (Ptr Reserved 0) -> getr src s = Some (Num v) -> resv s = Some b -> 0 <= off -> off + Sizeof size <= len b -> 0 < Sizeof size ->
  exec (StoreMem dst off src size :: l) None s = exec l None (set_resv (Some (put_cell off (le (Z.to_nat (Sizeof size)) v) b)) s).
Proof.
  intros Hd Hv Hb Ho Hl Hs. apply (exec_StoreMem _ _ _ _ _ _ (Ptr Reserved 0) (Num v)); auto. cbn [add_off Z.add]. unfold store.
  apply put_resv; auto. unfold len in *. rewrite le_length, Z2Nat.id by lia. lia.
Qed.

Lemma exec_storei_resv l dst off k size b s :
  getr dst s = Some (Ptr Reserved 0) -> resv s = Some b -> 0 <= off -> off + Sizeof size <= len b -> 0 < Sizeof size ->
  exec (StoreImm dst off k size :: l) None s = exec l None (set_resv (Some (put_cell off (le (Z.to_nat (Sizeof size)) (u64 k)) b)) s).
Proof.
  intros Hd Hb Ho Hl Hs. apply (exec_StoreImm _ _ _ _ _ _ (Ptr Reserved 0)); auto. cbn [add_off Z.add]. unfold store.
  apply put_resv; auto. unfold len in *. rewrite le_length, Z2Nat.id by lia. lia.
Qed.

(** ** Labels *)

Lemma exec1_symbol label i s : exec1 (WithSymbol label i) s = exec1 i s.
Proof. reflexivity. Qed.

Lemma exec_at label l i s : exec (WithSymbol label i :: l) (Some label) s = exec (i :: l) None s.
Proof. cbn [exec]. rewrite bool_decide_true by reflexivity. now rewrite exec1_symbol. Qed.

Lemma exec_by label l i s : exec (WithSymbol label i :: l) None s = exec (i :: l) None s.
Proof. cbn [exec]. now rewrite exec1_symbol. Qed.

Lemma exec_over l m label s : label ∉ symbols l -> exec (l ++ m) (Some label) s = exec m (Some label) s.
Proof. intros Hl. rewrite exec_app. now rewrite exec_skip. Qed.

Lemma unlabelled_symbols l label : unlabelled l -> has_text label = true -> label ∉ symbols l.
Proof.
  intros Hu Ht Hin. apply list_elem_of_fmap in Hin as (i & -> & Hi). unfold unlabelled in Hu. rewrite Forall_forall in Hu. now rewrite (Hu i Hi) in Ht.
Qed.

(** An atomic add to a map value. *)
Lemma exec_xadd_value l fd key o b v n s :
  getr R0 s = Some (Ptr (ValueOf fd key) o) -> getr R1 s = Some (Num n) -> value fd key s = Some b -> cell_at o 8 b = Some v -> 0 <= o -> o + 8 <= len b ->
  exec (StoreXAdd R0 R1 DWord :: l) None s = exec l None (set_object (ValueOf fd key) (put_cell o (le 8 (u64 (v + n))) b) s).
Proof.
  intros H0 H1 Hb Hc Ho Hl. assert (E : atomic_add (StoreXAdd R0 R1 DWord) s = Some (set_object (ValueOf fd key) (put_cell o (le 8 (u64 (v + n))) b) s)).
  { unfold atomic_add. change (Dst (StoreXAdd R0 R1 DWord)) with R0. change (Src (StoreXAdd R0 R1 DWord)) with R1.
    change (Offset (StoreXAdd R0 R1 DWord)) with 0. change (size_of (StoreXAdd R0 R1 DWord)) with 8%nat. rewrite H0, H1. cbn [mbind option_bind add_off].
    rewrite Z.add_0_r, (load_value fd key o 8 b v s Hb Hc). cbn [mbind option_bind alu_val alu64 option_map].
    apply store_value; auto. }
  change (exec (StoreXAdd R0 R1 DWord :: l) None s) with
    (match next (atomic_add (StoreXAdd R0 R1 DWord) s) with Next s => exec l None s | Goto label s => exec l (Some label) s | o => o end).
  now rewrite E.
Qed.
End Reservation.

(** ** The wakeup flag *)

(** What the branch-free code computes from the ring's size, its backlog and
    the length of this record. *)
Definition wake_flag (size backlog recLen : Z) : Z :=
  u64 (Z.shiftr (u64 (u64 (Z.shiftr size 2 - u64 1) - Z.lxor (u64 (backlog + u64 recLen)) backlog)) 63 + u64 BPF_RB_NO_WAKEUP).

(** Adding crosses a multiple of a power of two exactly when a high bit
    changes. *)
Lemma crosses_xor k b r : 0 <= k -> 0 <= b -> 0 <= r -> 2 ^ k <= Z.lxor (b + r) b <-> (b + r) / 2 ^ k <> b / 2 ^ k.
Proof.
  intros Hk Hb Hr. rewrite <- !Z.shiftr_div_pow2 by lia. assert (Hx : 0 <= Z.lxor (b + r) b) by (apply Z.lxor_nonneg; lia).
  assert (Hp : 0 < 2 ^ k) by (apply Z.pow_pos_nonneg; lia).
  rewrite <- (Z.lxor_eq_0_iff (Z.shiftr (b + r) k) (Z.shiftr b k)), <- Z.shiftr_lxor, Z.shiftr_div_pow2 by lia. split.
  - intros Hle E. pose proof (Z.div_le_mono _ _ (2 ^ k) Hp Hle) as Hd. rewrite Z.div_same in Hd by lia. lia.
  - intros Hne. destruct (Z.le_gt_cases (2 ^ k) (Z.lxor (b + r) b)) as [Hle|Hgt]; [exact Hle|]. exfalso. apply Hne. apply Z.div_small. lia.
Qed.

Lemma lxor_lt a b n : 0 <= a < 2 ^ n -> 0 <= b < 2 ^ n -> 0 <= n -> 0 <= Z.lxor a b < 2 ^ n.
Proof.
  intros Ha Hb Hn. split; [apply Z.lxor_nonneg; lia|]. destruct (Z.eq_dec (Z.lxor a b) 0) as [->|Hne]; [apply Z.pow_pos_nonneg; lia|].
  assert (0 <= Z.lxor a b) by (apply Z.lxor_nonneg; lia). apply Z.log2_lt_pow2; [lia|]. pose proof (Z.log2_lxor a b ltac:(lia) ltac:(lia)) as Hl.
  assert (Hlog : forall x, 0 <= x < 2 ^ n -> x = 0 \/ Z.log2 x < n).
  { intros x Hx. destruct (Z.eq_dec x 0) as [->|Hx0]; [now left|]. right. apply Z.log2_lt_pow2; lia. }
  destruct (Hlog a Ha) as [->|La], (Hlog b Hb) as [->|Lb]; rewrite ?Z.lxor_0_l, ?Z.lxor_0_r in *; lia.
Qed.

(** [BPF_RB_FORCE_WAKEUP] is 2. *)
Lemma wake_flag_crosses k b r :
  0 <= k < 62 -> 0 <= b -> 0 <= r -> b + r < two63 ->
  wake_flag (2 ^ (k + 2)) b r = if (b + r) / 2 ^ k =? b / 2 ^ k then BPF_RB_NO_WAKEUP else 2.
Proof.
  intros Hk Hb Hr Hs. unfold wake_flag. assert (E : Z.shiftr (2 ^ (k + 2)) 2 = 2 ^ k).
  { rewrite Z.shiftr_div_pow2, Z.pow_add_r by lia. now rewrite Z.div_mul. }
  rewrite E. change (u64 1) with 1. assert (Hp1 : 0 < 2 ^ k) by (apply Z.pow_pos_nonneg; lia). assert (Hp2 : 2 ^ k <= 2 ^ 61) by (apply Z.pow_le_mono_r; lia).
  change (u64 BPF_RB_NO_WAKEUP) with 1. rewrite (u64_small r), (u64_small (b + r)) by (unfold in_u64, two64, two63 in *; lia).
  assert (Hx : 0 <= Z.lxor (b + r) b < 2 ^ 63) by (apply lxor_lt; unfold two63 in *; lia).
  pose proof (crosses_xor k b r ltac:(lia) Hb Hr) as Hc. destruct (Z.eqb_spec ((b + r) / 2 ^ k) (b / 2 ^ k)) as [He|He].
  - assert (Hlt : Z.lxor (b + r) b < 2 ^ k) by (destruct (Z.le_gt_cases (2 ^ k) (Z.lxor (b + r) b)) as [Hge|Hlt]; [exfalso; exact (proj1 Hc Hge He)|lia]).
    rewrite (u64_small (2 ^ k - 1)), (u64_small (2 ^ k - 1 - _)) by (unfold in_u64, two64; lia). rewrite Z.shiftr_div_pow2, Z.div_small by lia. reflexivity.
  - assert (Hge : 2 ^ k <= Z.lxor (b + r) b) by now apply Hc. rewrite (u64_small (2 ^ k - 1)) by (unfold in_u64, two64; lia). unfold u64 at 2. rewrite <- (Z.mod_add _ 1) by (unfold two64; lia).
    rewrite Z.mod_small by (unfold two64; lia). rewrite Z.shiftr_div_pow2 by lia.
    replace ((2 ^ k - 1 - Z.lxor (b + r) b + 1 * two64) / 2 ^ 63) with 1; [reflexivity|]. apply Z.div_unique_pos with (2 ^ k - 1 - Z.lxor (b + r) b + 2 ^ 63); unfold two64; lia.
Qed.

(** ** What the epilogue keeps *)

(** [frame] without the ring: the epilogue changes it. *)
Record keeps (w : list (Z * Z)) (s s' : st) : Prop := mkKeeps {
  ke_regs : forall r, 6 <= r -> getr r s' = getr r s;
  ke_stack : forall a n, apart a n w -> peek a n (stack s') = peek a n (stack s);
  ke_words : words s' = words s;
  ke_nargs : nargs s' = nargs s
}.

Lemma keeps_refl w s : keeps w s s.
Proof. now split. Qed.

Lemma keeps_frame w s s' : frame w s s' -> keeps w s s'.
Proof. intros [R S W N _ _]. now split. Qed.

Lemma keeps_trans w s1 s2 s3 : keeps w s1 s2 -> keeps w s2 s3 -> keeps w s1 s3.
Proof.
  intros [R1 S1 W1 N1] [R2 S2 W2 N2]. split; try congruence.
  - intros r Hr. now rewrite R2, R1.
  - intros a n Ha. now rewrite S2, S1.
Qed.

Lemma keeps_wider w w' s s' : (forall a n, apart a n w' -> apart a n w) -> keeps w s s' -> keeps w' s s'.
Proof. intros Hw [R S W N]. split; auto. Qed.

Lemma keeps_same w s s' : regs s' = regs s -> stack s' = stack s -> words s' = words s -> nargs s' = nargs s -> keeps w s s'.
Proof. intros R S W N. split; auto; [intros r _; unfold getr; now rewrite R|intros; now rewrite S]. Qed.

Lemma keeps_setr w r v s : r < 6 -> keeps w s (setr r v s).
Proof. intros Hr. apply keeps_frame. now apply frame_setr. Qed.

Lemma keeps_void w s : keeps w s (returned_void s).
Proof. split; try reflexivity. intros r Hr. now apply getr_void. Qed.

Lemma keeps_wr w a cs s : (exists lo hi, (lo, hi) ∈ w /\ lo <= a /\ a + Z.of_nat (length cs) <= hi) -> keeps w s (wr a cs s).
Proof. intros H. apply keeps_frame. now apply frame_wr. Qed.

Lemma ldst_keeps w a n s s' : keeps w s s' -> apart a n w -> ldst a n s' = ldst a n s.
Proof. intros F Ha. unfold ldst. now rewrite (read_peek a n _ (stack s) (ke_stack _ _ _ F a n Ha)). Qed.

Ltac keeps_steps :=
  repeat first
    [ apply keeps_refl
    | lazymatch goal with |- keeps _ _ (setr _ _ ?t) => apply (keeps_trans _ _ t); [|apply keeps_setr; reflexivity] end
    | lazymatch goal with |- keeps _ _ (returned _ ?t) => apply (keeps_trans _ _ t); [|apply keeps_frame, frame_returned] end
    | lazymatch goal with |- keeps _ _ (returned_void ?t) => apply (keeps_trans _ _ t); [|apply keeps_void] end
    | lazymatch goal with |- keeps _ _ (set_resv _ ?t) => apply (keeps_trans _ _ t); [|now apply keeps_same] end
    | lazymatch goal with |- keeps _ _ (set_submitted _ ?t) => apply (keeps_trans _ _ t); [|now apply keeps_same] end
    | lazymatch goal with |- keeps _ _ (set_object _ _ ?t) => apply (keeps_trans _ _ t); [|now apply keeps_same] end
    | lazymatch goal with |- keeps _ _ (wr _ _ ?t) => apply (keeps_trans _ _ t); [|apply keeps_wr; in_window] end ].

Section Reserve.
Context `{HK : Rings}.
Variable NoWakeup : bool.

(** The slots the reserve writes. *)
Definition ring_window : list (Z * Z) := [(-32, -16)].

Definition recLen (reserveSize : Z) : Z := Z.ldiff (i32 (8 + reserveSize + 7)) 7.

(** With the ring in [R0], the flag for this record is left in its slot. *)
Lemma exec_wake l reserveSize fd key s :
  getr R0 s = Some (Ptr (RingOf fd key) 0) ->
  exists s', exec (emitWakeFlag NoWakeup reserveSize ++ l) None s = exec l None s' /\ getr R0 s' = Some (Ptr (RingOf fd key) 0) /\
    frame ring_window s s' /\ maps s' = maps s /\ (clock s <= clock s')%nat /\
    (NoWakeup = false ->
     ldst wakeFlagSlot 8 s' = Some (Num (wake_flag (query fd key bpfRBRingSize (clock s)) (query fd key bpfRBAvailData (S (clock s))) (recLen reserveSize)))).
Proof.
  intros Hring. unfold emitWakeFlag. destruct NoWakeup.
  { exists s. splits; auto using frame_refl. discriminate. }
  fold (recLen reserveSize). unfold wakeFlagSlot, reservedSlot. cbn [app]. do 4 step. erewrite ring_query; [|regs|regs].
  change (clock (setr R2 _ _)) with (clock s). change (u64 bpfRBRingSize) with bpfRBRingSize. set (q := query fd key bpfRBRingSize (clock s)).
  assert (Hq : in_u64 q) by apply query_u64. assert (HT : in_u64 (Z.shiftr q 2)).
  { unfold in_u64 in *. rewrite Z.shiftr_div_pow2 by lia. split; [apply Z.div_pos; lia|]. apply Z.div_lt_upper_bound; lia. }
  erewrite exec_Imm; [|discriminate|discriminate|discriminate|regs|reflexivity]. change (u64 2 mod 64) with 2. set (T := Z.shiftr q 2) in *. step.
  do 3 step. erewrite ring_query; [|regs|regs]. change (clock (setr R2 _ _)) with (S (clock s)). change (u64 bpfRBAvailData) with bpfRBAvailData.
  set (back := query fd key bpfRBAvailData (S (clock s))). step.
  erewrite exec_Imm; [|discriminate|discriminate|discriminate|regs|reflexivity].
  erewrite exec_Reg; [|discriminate|discriminate|discriminate|regs|regs|reflexivity].
  erewrite exec_load_stack; [|discriminate|regs|reflexivity|].
  2: { repeat first [rewrite ldst_setr|rewrite ldst_returned]. rewrite ldst_wr_same by reflexivity. apply (decode_encode8 (Num T)); [|reflexivity]. now intros z [= <-]. }
  erewrite exec_Imm; [|discriminate|discriminate|discriminate|regs|reflexivity].
  erewrite exec_Reg; [|discriminate|discriminate|discriminate|regs|regs|reflexivity].
  do 2 (erewrite exec_Imm; [|discriminate|discriminate|discriminate|regs|reflexivity]). do 2 step.
  eexists. split; [reflexivity|]. split; [regs|]. split; [frame_steps|split; [reflexivity|split; [cbn; lia|]]].
  intros _. change (0 + -24) with (-24). rewrite ldst_wr_same by reflexivity. apply decode_encode8; [|reflexivity]. intros z [= <-]. now apply Z.mod_pos_bound.
Qed.

(** The flag the submit loads. *)
Definition flag_ready (s : st) : Prop := NoWakeup = true \/ exists fl, ldst wakeFlagSlot 8 s = Some (Num fl).

Definition lookupSym (statsFD : Z) : bytes := if 0 <? statsFD then B "rb_lookup_fail" else B "exit".
Definition failSym (statsFD : Z) : bytes := if 0 <? statsFD then B "rb_fail" else B "exit".

Lemma exec_reserve l eventsFD statsFD n key s :
  bytes_at (Ptr Stack (-16)) 4 s = Some key -> maps s !! eventsFD = None -> resv s = None ->
  exists s', keeps ring_window s s' /\ maps s' = maps s /\ submitted s' = submitted s /\ (clock s <= clock s')%nat /\
    ((has_ring eventsFD key = false /\ resv s' = None /\
      exec (emitShardedRBReserve NoWakeup eventsFD statsFD n ++ l) None s = exec l (Some (lookupSym statsFD)) s') \/
     (has_ring eventsFD key = true /\ exists t, room eventsFD key (u64 n) t = None /\ resv s' = None /\
      exec (emitShardedRBReserve NoWakeup eventsFD statsFD n ++ l) None s = exec l (Some (failSym statsFD)) s') \/
     (has_ring eventsFD key = true /\ exists t b, room eventsFD key (u64 n) t = Some b /\ resv s' = Some b /\
      getr R0 s' = Some (Ptr Reserved 0) /\ ldst reservedSlot 8 s' = Some (Ptr Reserved 0) /\ flag_ready s' /\
      exec (emitShardedRBReserve NoWakeup eventsFD statsFD n ++ l) None s = exec l None s')).
Proof.
  intros Hkey Hmap Hres. unfold emitShardedRBReserve. fold (lookupSym statsFD) (failSym statsFD). rewrite <- !app_assoc. cbn [app].
  assert (Ht1 : has_text (lookupSym statsFD) = true) by (unfold lookupSym; now destruct (0 <? statsFD)).
  assert (Ht2 : has_text (failSym statsFD) = true) by (unfold failSym; now destruct (0 <? statsFD)).
  do 4 step. erewrite ring_lookup; [|regs|regs|exact Hkey|exact Hmap]. set (s1 := returned _ _).
  assert (F1 : frame ring_window s s1) by (unfold s1; frame_steps). destruct (has_ring eventsFD key) eqn:Eh.
  2: { exists s1. split; [now apply keeps_frame|]. split; [reflexivity|]. split; [reflexivity|]. split; [cbn; lia|]. left. split; [reflexivity|]. split; [exact Hres|].
       erewrite exec_JImm; [|unfold s1; regs|reflexivity|exact Ht1]. cbn [negb Z.eqb]. change (0 =? u64 0) with true. cbv iota.
       rewrite exec_over; [cbn [app]; now rewrite !exec_pass by (exact Ht1 || reflexivity)|].
       apply unlabelled_symbols; [|exact Ht1]. unfold emitWakeFlag. destruct NoWakeup; repeat constructor. }
  erewrite exec_JImm; [|unfold s1; regs|reflexivity|exact Ht1].
  match goal with |- context [exec (emitWakeFlag _ _ ++ ?r) None s1] =>
    destruct (exec_wake r n eventsFD key s1) as (s2 & E2 & Hr2 & F2 & M2 & C2 & Hfl); [unfold s1; regs|] end.
  rewrite E2. clear E2. step. do 2 step. rewrite exec_Call.
  erewrite ring_reserve; [|regs|regs|regs|].
  2: { change (resv (setr R3 _ _)) with (resv s2). rewrite (fr_resv _ _ _ F2), (fr_resv _ _ _ F1). exact Hres. }
  change (clock (setr R3 _ _)) with (clock s2). destruct (room eventsFD key (u64 n) (clock s2)) as [b|] eqn:Er.
  - erewrite exec_JImm; [|regs|reflexivity|exact Ht2]. cbv iota. erewrite exec_store_stack; [|regs|regs|reflexivity|reflexivity].
    set (s3 := returned _ _).
    assert (K3 : keeps ring_window s s3).
    { unfold s3. keeps_steps. apply (keeps_trans _ _ s1); now apply keeps_frame. }
    exists (wr (0 + -32) (parts (Ptr Reserved 0)) s3). split; [keeps_steps; exact K3|]. split; [exact M2|].
    split; [cbn; rewrite (fr_submitted _ _ _ F2), (fr_submitted _ _ _ F1); reflexivity|]. split; [cbn in C2 |- *; lia|].
    right; right. split; [reflexivity|]. exists (clock s2), b. split; [exact Er|]. split; [reflexivity|]. split; [unfold s3; regs|].
    split; [change (0 + -32) with reservedSlot; rewrite ldst_wr_same by reflexivity; apply decode_parts|]. split; [|reflexivity].
    unfold flag_ready. destruct NoWakeup; [now left|]. right. eexists. change (0 + -32) with (-32).
    rewrite ldst_wr_other by (unfold wakeFlagSlot; cbn; lia). unfold s3. rewrite ldst_returned, ldst_set_resv, !ldst_setr. exact (Hfl eq_refl).
  - erewrite exec_JImm; [|regs|reflexivity|exact Ht2]. change (0 =? u64 0) with true. cbv iota. set (s3 := returned _ _).
    assert (K3 : keeps ring_window s s3).
    { unfold s3. keeps_steps. apply (keeps_trans _ _ s1); now apply keeps_frame. }
    exists s3. split; [exact K3|]. split; [exact M2|]. split; [cbn; rewrite (fr_submitted _ _ _ F2), (fr_submitted _ _ _ F1); reflexivity|].
    split; [cbn in C2 |- *; lia|]. right; left. split; [reflexivity|]. exists (clock s2). split; [exact Er|].
    split; [change (resv s3) with (resv s2); rewrite (fr_resv _ _ _ F2), (fr_resv _ _ _ F1); exact Hres|].
    cbn [app]. now rewrite !exec_pass by (exact Ht2 || reflexivity).
Qed.
End Reserve.
