(* ===== verification/CaptureBlock.v ===== *)
(** * CaptureBlock: the record block the epilogue writes

    A filter block is the snapshot of the gate, field by field: the bytes
    are [filter_block] of [RecordFacts], which [CheckBlock] accepts and the
    comment renders. An entry block holds the site, status, key and value
    read behind the arguments, each marked valid only when it was read. *)

From Stdlib Require Import ZArith Lia Bool Ascii String List.
From stdpp Require Import base list strings numbers option gmap.
From S2P Require Import Prelude GoStd GoBytes HookAbi ArgFilter Record RecordFacts RecordBuild Asm Ebpf EbpfFacts Helpers RingHelpers.
From S2P Require Import Gate GateFacts GateRecord Capture CaptureFacts.
Local Open Scope Z_scope.

(** ** Filter blocks *)

(** The fields from the [i]th on, each in its eight bytes. *)
Fixpoint fields_put (i : nat) (vals : list Z) (b : list Z) : list Z :=
  match vals with
  | [] => b
  | v :: vals => fields_put (S i) vals (put_cell (40 + 8 * Z.of_nat i) (le 8 v) b)
  end.

Definition cells8 (vals : list Z) : list Z := concat (map (le 8) vals).

Lemma cells8_len vals : len (cells8 vals) = 8 * Z.of_nat (length vals).
Proof. unfold cells8, len. induction vals as [|v vals IH]; [reflexivity|]. cbn [map concat length]. rewrite length_app, le_length. lia. Qed.

Lemma fields_put_spec vals : forall i b, 40 + 8 * Z.of_nat i + 8 * Z.of_nat (length vals) <= len b ->
  len (fields_put i vals b) = len b /\ has (fields_put i vals b) (40 + 8 * Z.of_nat i) (cells8 vals) /\
  (Forall byte b -> Forall byte (fields_put i vals b)) /\
  forall o xs, has b o xs -> o + len xs <= 40 + 8 * Z.of_nat i \/ 40 + 8 * Z.of_nat i + 8 * Z.of_nat (length vals) <= o -> has (fields_put i vals b) o xs.
Proof.
  induction vals as [|v vals IH]; intros i b Hb; cbn [fields_put].
  { splits; auto. apply has_nil. cbn in Hb. lia. }
  cbn [length] in Hb |- *. set (b1 := put_cell _ _ b). assert (H8 : len (le 8 v) = 8) by reflexivity.
  assert (Hl1 : len b1 = len b) by (apply put_cell_length; lia). destruct (IH (S i) b1) as (L & H & B & K); [lia|]. split; [congruence|]. split; [|split].
  - unfold cells8. cbn [map concat]. fold (cells8 vals). apply has_app.
    + apply K; [apply has_put_same; lia|]. rewrite H8. lia.
    + rewrite H8. replace (40 + 8 * Z.of_nat i + 8) with (40 + 8 * Z.of_nat (S i)) by lia. exact H.
  - intros Hby. apply B. apply put_cell_byte; [apply le_byte|exact Hby].
  - intros o xs Hx Ho. apply K; [|lia]. apply has_put_other; auto; lia.
Qed.

Lemma mask_bits n : (n <= 32)%nat -> le 4 (u64 (field_mask n)) = le 4 (2 ^ Z.of_nat n - 1).
Proof.
  intros Hn. rewrite <- (le_mod 4 (u64 (field_mask n))), <- (le_mod 4 (2 ^ Z.of_nat n - 1)). f_equal.
  do 33 (destruct n as [|n]; [vm_compute; reflexivity|]). lia.
Qed.

Lemma all_valid vals : valid_bits (map Some vals) = 2 ^ Z.of_nat (length vals) - 1.
Proof.
  induction vals as [|v vals IH]; [reflexivity|]. cbn [map valid_bits fold_right length]. fold (valid_bits (map Some vals)). rewrite IH.
  rewrite Nat2Z.inj_succ, Z.pow_succ_r by lia. cbn [is_Some_b Z.b2z]. lia.
Qed.

Lemma filter_block_all vals :
  filter_block (map Some vals) = le 2 (8 + 8 * Z.of_nat (length vals)) ++ [BlockVersion; KindFilter] ++ le 4 (2 ^ Z.of_nat (length vals) - 1) ++ cells8 vals.
Proof. unfold filter_block. rewrite all_valid, length_map, map_map. reflexivity. Qed.

Section Block.
Context `{HK : Rings}.

Definition block_window : list (Z * Z) := [(-128, -120); (-64, -56); (-40, -32); (-16, -12)].

(** The reservation's part a fragment writes. *)
Definition rest_kept (lo hi : Z) (b b' : list Z) : Prop :=
  len b' = len b /\ (Forall byte b -> Forall byte b') /\ forall o xs, has b o xs -> o + len xs <= lo \/ hi <= o -> has b' o xs.

Lemma rest_refl lo hi b : rest_kept lo hi b b.
Proof. now split. Qed.

Lemma rest_trans lo hi b1 b2 b3 : rest_kept lo hi b1 b2 -> rest_kept lo hi b2 b3 -> rest_kept lo hi b1 b3.
Proof. intros (L1 & B1 & K1) (L2 & B2 & K2). split; [congruence|]. split; auto. Qed.

Lemma rest_put lo hi off bs b : 0 <= off -> lo <= off -> off + len bs <= hi -> off + len bs <= len b -> Forall byte bs -> rest_kept lo hi b (put_cell off bs b).
Proof.
  intros Ho Hlo Hhi Hb Hby. split; [now apply put_cell_length|]. split; [now apply put_cell_byte|]. intros o xs Hx Hd. apply has_put_other; auto. lia.
Qed.

Lemma exec_snap_address l snap s :
  snap_ready snap s ->
  exists s', exec (snap_address snap ++ l) None s = exec l None s' /\ ldst (-40) 8 s' = Some (Ptr (ValueOf (sn_fd snap) (snap_key snap)) 0) /\
    frame block_window s s' /\ maps s' = maps s /\ clock s' = S (clock s).
Proof.
  intros (Hks & Hkey & _ & b & Hb & _). unfold snap_value, value in Hb. destruct (maps s !! sn_fd snap) as [m|] eqn:Em; [|discriminate].
  cbn [mbind option_bind] in Hb. unfold snap_address. cbn [app]. do 5 step.
  erewrite map_lookup; [|regs|regs| |exact Em].
  2: { rewrite Hks. change 4%nat with (length (le 4 (u64 (sn_key snap)))). apply bytes_at_wr. reflexivity. }
  rewrite !(u64_small (sn_key snap)) by (unfold in_u64, two64; lia). change (le (Z.to_nat (Sizeof Word)) (sn_key snap)) with (snap_key snap). rewrite Hb.
  erewrite exec_JImm; [|regs|reflexivity|reflexivity]. cbv iota. step. eexists. split; [reflexivity|].
  split; [change (0 + -40) with (-40); rewrite ldst_wr_same by reflexivity; apply decode_parts|]. split; [frame_steps|]. now split.
Qed.

Lemma load_snapshot snap i b v s :
  snap_value snap s = Some b -> cell_at (8 * Z.of_nat i) 8 b = Some v -> (i < 32)%nat ->
  load (add_off (Ptr (ValueOf (sn_fd snap) (snap_key snap)) 0) (i16 (8 * Z.of_nat i))) 8 s = Some (Num v).
Proof. intros Hb Hc Hi. rewrite i16_small by lia. cbn [add_off Z.add]. eapply load_value; eauto. Qed.

(** The snapshot's values from the [i]th slot on. *)
Definition slots_hold (i : nat) (vals b : list Z) : Prop := forall j v, vals !! j = Some v -> cell_at (8 * Z.of_nat (i + j)) 8 b = Some v.

Lemma exec_fields l snap sv vals : forall i b s,
  ldst (-40) 8 s = Some (Ptr (ValueOf (sn_fd snap) (snap_key snap)) 0) -> ldst reservedSlot 8 s = Some (Ptr Reserved 0) ->
  snap_value snap s = Some sv -> slots_hold i vals sv -> (i + length vals <= 32)%nat ->
  resv s = Some b -> 40 + 8 * Z.of_nat i + 8 * Z.of_nat (length vals) <= len b ->
  exists s', exec (flat_map field_store (seq i (length vals)) ++ l) None s = exec l None s' /\ keeps [] s s' /\ maps s' = maps s /\
    submitted s' = submitted s /\ clock s' = clock s /\ resv s' = Some (fields_put i vals b).
Proof.
  induction vals as [|v vals IH]; intros i b s Ha Hr Hv Hs Hi Hb Hl; cbn [length seq flat_map].
  { exists s. splits; auto using keeps_refl. }
  cbn [length] in Hi, Hl. unfold field_store at 1. rewrite <- !app_assoc. cbn [app].
  erewrite exec_load_stack; [|discriminate|regs|reflexivity|exact Ha].
  erewrite exec_LoadMem; [|discriminate|regs|]. 2: { apply (load_snapshot snap i sv v); [exact Hv| |lia]. rewrite <- (Nat.add_0_r i). now apply Hs. }
  unfold reservedSlot in *. erewrite exec_load_stack; [|discriminate|regs|reflexivity|rewrite !ldst_setr; exact Hr].
  assert (Ei : i16 (metadataSize + HeaderSize + i16 (8 * Z.of_nat i)) = 40 + 8 * Z.of_nat i).
  { rewrite (i16_small (8 * Z.of_nat i)) by lia. apply i16_small. unfold metadataSize, HeaderSize. lia. }
  rewrite Ei. erewrite exec_store_resv; [|regs|regs|exact Hb|lia|cbn [Sizeof]; lia|reflexivity].
  set (s1 := set_resv _ _). assert (K1 : keeps [] s s1) by (unfold s1; keeps_steps).
  destruct (IH (S i) (put_cell (40 + 8 * Z.of_nat i) (le 8 v) b) s1) as (s2 & E2 & K2 & M2 & U2 & C2 & R2); auto.
  - intros j w Hj. replace (S i + j)%nat with (i + S j)%nat by lia. now apply Hs.
  - lia.
  - rewrite put_cell_length; [lia|lia|]. change (len (le 8 v)) with 8. lia.
  - exists s2. split; [exact E2|]. split; [now apply (keeps_trans _ _ s1)|]. splits; auto.
Qed.

(** The header of either block. *)
Lemma exec_block_head l lay b s :
  getr R0 s = Some (Ptr Reserved 0) -> resv s = Some b -> 36 <= len b -> 0 <= Layout_Size lay < 65536 ->
  exists b', exec (block_head lay ++ l) None s = exec l None (set_resv (Some b') s) /\ rest_kept 32 36 b b' /\
    has b' 32 (le 2 (Layout_Size lay) ++ [BlockVersion; Layout_Kind lay]).
Proof.
  intros Hreg Hb Hlen Hsz. unfold block_head. cbn [app].
  change (metadataSize + OffLen) with 32. change (metadataSize + OffVersion) with 34. change (metadataSize + OffKind) with 35.
  assert (Hput : forall off bs c, 32 <= off -> off + len bs <= 36 -> 36 <= len c -> Forall byte bs -> rest_kept 32 36 c (put_cell off bs c) /\ 36 <= len (put_cell off bs c)).
  { intros off bs c H1 H2 H3 H4. assert (K : rest_kept 32 36 c (put_cell off bs c)) by (apply rest_put; auto; lia). split; [exact K|]. destruct K as (-> & _). exact H3. }
  erewrite exec_storei_resv; [|exact Hreg|exact Hb|lia|cbn [Sizeof]; lia|reflexivity]. rewrite u64_small by (unfold in_u64, two64; lia).
  change (Z.to_nat (Sizeof Half)) with 2%nat. set (s1 := le 2 (Layout_Size lay)). assert (L1 : len s1 = 2) by reflexivity.
  destruct (Hput 32 s1 b) as [K1 N1]; [lia|lia|lia|apply le_byte|]. set (b1 := put_cell 32 s1 b) in *.
  rewrite (exec_storei_resv _ _ _ _ _ b1); [|exact Hreg|reflexivity|lia|cbn [Sizeof]; lia|reflexivity].
  change (le (Z.to_nat (Sizeof Byte)) (u64 BlockVersion)) with [BlockVersion].
  destruct (Hput 34 [BlockVersion] b1) as [K2 N2]; [lia|vm_compute; discriminate|exact N1|repeat constructor; unfold byte, BlockVersion; lia|]. set (b2 := put_cell 34 [BlockVersion] b1) in *.
  rewrite (exec_storei_resv _ _ _ _ _ b2); [|exact Hreg|reflexivity|lia|cbn [Sizeof]; lia|reflexivity].
  assert (Ek : le (Z.to_nat (Sizeof Byte)) (u64 (Layout_Kind lay)) = [Layout_Kind lay] /\ byte (Layout_Kind lay)).
  { unfold Layout_Kind. destruct (bool_decide _); split; try reflexivity; unfold byte, KindFilter, KindEntry; lia. }
  destruct Ek as [-> Hbk]. destruct (Hput 35 [Layout_Kind lay] b2) as [K3 N3]; [lia|now change (len [Layout_Kind lay]) with 1|exact N2|apply List.Forall_cons; [exact Hbk|apply List.Forall_nil]|].
  eexists. split; [reflexivity|]. split; [exact (rest_trans _ _ _ _ _ K1 (rest_trans _ _ _ _ _ K2 K3))|].
  assert (Lv : len [BlockVersion] = 1) by reflexivity. assert (Lk : len [Layout_Kind lay] = 1) by reflexivity. set (ver := [BlockVersion]) in *. set (kd := [Layout_Kind lay]) in *.
  assert (H1 : has b1 32 s1) by (apply has_put_same; lia). assert (H2 : has b2 34 ver) by (apply has_put_same; lia).
  change (BlockVersion :: kd) with (ver ++ kd). apply has_app; [|rewrite L1; apply has_app].
  - apply has_put_other; [apply has_put_other; [exact H1|lia|lia|lia]|lia|lia|lia].
  - change (32 + 2) with 34. apply has_put_other; [exact H2|lia|lia|lia].
  - rewrite Lv. change (32 + 2 + 1) with 35. apply has_put_same; lia.
Qed.

(** The whole filter block. *)
Lemma exec_filter_block l lay snap sv vals b s :
  LMode lay = ModeFilter -> length vals = length (Fields lay) -> (length vals <= 32)%nat ->
  snap_ready snap s -> snap_value snap s = Some sv -> slots_hold 0 vals sv ->
  getr R0 s = Some (Ptr Reserved 0) -> ldst reservedSlot 8 s = Some (Ptr Reserved 0) -> resv s = Some b ->
  metadataSize + Layout_Size lay <= len b ->
  exists s' b', exec (emitRecordBlock lay snap ++ l) None s = exec l None s' /\ keeps block_window s s' /\ maps s' = maps s /\
    submitted s' = submitted s /\ (clock s <= clock s')%nat /\ getr R0 s' = Some (Ptr Reserved 0) /\ resv s' = Some b' /\
    rest_kept metadataSize (metadataSize + Layout_Size lay) b b' /\ has b' metadataSize (filter_block (map Some vals)).
Proof.
  intros Hm Hlen H32 Hr Hv Hsl Hreg Hslot Hb Hsize. unfold emitRecordBlock. rewrite bool_decide_true by exact Hm.
  assert (Hsz : Layout_Size lay = 8 + 8 * Z.of_nat (length vals)) by (unfold Layout_Size, HeaderSize; rewrite bool_decide_true by exact Hm; lia).
  assert (Hkind : Layout_Kind lay = KindFilter) by (unfold Layout_Kind; now rewrite bool_decide_true by exact Hm).
  unfold metadataSize in Hsize. rewrite <- app_assoc.
  destruct (exec_block_head (filter_block_code lay snap ++ l) lay b s Hreg Hb ltac:(lia) ltac:(lia)) as (b1 & E1 & K1 & H1). rewrite E1. clear E1.
  unfold filter_block_code. rewrite <- !app_assoc. rewrite <- Hlen.
  match goal with |- context [exec (snap_address snap ++ ?r) None ?t] => destruct (exec_snap_address r snap t Hr) as (s2 & E2 & A2 & F2 & M2 & C2) end.
  rewrite E2. clear E2.
  assert (L1 : len b1 = len b) by apply K1. assert (Hslot2 : ldst reservedSlot 8 s2 = Some (Ptr Reserved 0)).
  { rewrite (ldst_frame block_window _ _ _ _ F2); [exact Hslot|]. unfold apart, block_window, reservedSlot. repeat (apply List.Forall_cons; [lia|]). apply List.Forall_nil. }
  match goal with |- context [exec (flat_map field_store _ ++ ?r) None s2] =>
    destruct (exec_fields r snap sv vals 0 b1 s2 A2 Hslot2) as (s3 & E3 & K3 & M3 & U3 & C3 & R3) end; auto.
  { unfold snap_value, value in *. now rewrite M2. }
  { rewrite (fr_resv _ _ _ F2). reflexivity. }
  { lia. }
  rewrite E3. clear E3. cbn [app]. destruct (fields_put_spec vals 0 b1 ltac:(lia)) as (L3 & H3 & By3 & O3). set (b3 := fields_put 0 vals b1) in *.
  assert (Hslot3 : ldst reservedSlot 8 s3 = Some (Ptr Reserved 0)) by (rewrite (ldst_keeps [] _ _ s2 s3 K3); [exact Hslot2|constructor]).
  unfold reservedSlot in *. erewrite exec_load_stack; [|discriminate|regs|reflexivity|exact Hslot3]. step.
  change (metadataSize + OffValid) with 36. erewrite exec_store_resv; [|regs|regs|exact R3|lia|cbn [Sizeof]; lia|reflexivity].
  change (Z.to_nat (Sizeof Word)) with 4%nat. rewrite mask_bits by exact H32. set (mask := le 4 _). assert (Lm : len mask = 4) by reflexivity.
  assert (K03 : keeps block_window s s3).
  { apply (keeps_trans _ _ s2); [|apply (keeps_wider []); [intros; constructor|exact K3]].
    apply (keeps_trans _ _ (set_resv (Some b1) s)); [now apply keeps_same|now apply keeps_frame]. }
  eexists _, (put_cell 36 mask b3). split; [reflexivity|]. split; [keeps_steps; exact K03|]. split; [cbn; rewrite M3, M2; reflexivity|].
  split; [cbn; rewrite U3, (fr_submitted _ _ _ F2); reflexivity|]. split; [cbn in *; lia|]. split; [rewrite getr_set_resv; regs|]. split; [reflexivity|].
  assert (Kf : rest_kept 32 (32 + Layout_Size lay) b b1) by (destruct K1 as (? & ? & K1); split; [assumption|]; split; [assumption|]; intros o xs Hx Ho; apply K1; [exact Hx|lia]).
  assert (Kg : rest_kept 32 (32 + Layout_Size lay) b1 b3) by (split; [exact L3|]; split; [exact By3|]; intros o xs Hx Ho; apply O3; [exact Hx|lia]).
  unfold metadataSize. split.
  - apply (rest_trans _ _ _ b1); [exact Kf|]. apply (rest_trans _ _ _ b3); [exact Kg|]. apply rest_put; try lia. apply le_byte.
  - rewrite filter_block_all. rewrite Hsz, Hkind in H1. rewrite app_assoc. set (hd := le 2 _ ++ _) in *. assert (Lh : len hd = 4) by reflexivity. apply has_app.
    + apply has_put_other; [apply O3; [exact H1|lia]|lia|lia|lia].
    + rewrite Lh. change (32 + 4) with 36. fold mask. apply has_app; [apply has_put_same; lia|]. rewrite Lm. apply has_put_other; [exact H3|lia|lia|lia].
Qed.
End Block.
