(* ===== verification/CaptureSample.v ===== *)
(** * CaptureSample: what a written record parses to

    The fields the epilogue writes into a reservation, at the offsets the
    parser of [RawSample] reads. *)

From Stdlib Require Import ZArith Lia Bool Ascii String List.
From stdpp Require Import base list strings numbers option gmap.
From S2P Require Import Prelude GoStd GoBytes HookAbi RawSample Asm Ebpf EbpfFacts Helpers RingHelpers Gate GateFacts Capture CaptureFacts.
Local Open Scope Z_scope.
Local Open Scope go_scope.

Lemma has_rd b off n v : has b off (le n v) -> rd n (Z.to_nat off) b = Some (v mod 256 ^ Z.of_nat n).
Proof.
  intros H. apply has_iff in H as (Ho & Hl & E). unfold len in Hl. rewrite le_length in Hl, E. unfold rd.
  replace (_ <=? _)%nat with true by (symmetry; apply Nat.leb_le; lia). now rewrite E, unle_le.
Qed.

Lemma has_sl b off xs : has b off xs -> sl (Z.to_nat off) (Z.to_nat (off + len xs)) b = Some xs.
Proof. intros [Ho Hs]. unfold len. replace (Z.to_nat (off + Z.of_nat (length xs))) with (Z.to_nat off + length xs)%nat by lia. exact Hs. Qed.

Lemma has_len b off xs : has b off xs -> 0 <= off /\ off + len xs <= len b.
Proof. intros H. apply has_iff in H. tauto. Qed.

Lemma has_prefix b off xs ys : has b off (xs ++ ys) -> has b off xs.
Proof.
  rewrite !has_iff. unfold len. rewrite length_app. intros (Ho & Hl & E). split; [exact Ho|]. split; [lia|].
  transitivity (take (length xs) (xs ++ ys)); [|now rewrite take_app_length]. rewrite <- E, take_take. f_equal. lia.
Qed.

(** The metadata and the block of a record. *)
Record sample := mkSample {
  s_time : Z; s_action : Z; s_mode : Z; s_site : Z; s_caplen : Z; s_tag : Z; s_id : Z; s_orig : Z; s_block : option (list Z); s_data : list Z
}.

Definition sample_start (x : sample) : Z := match s_block x with Some blk => metadataSize + len blk | None => metadataSize end.

(** A record's block starts with its own length. *)
Definition block_led (blk : list Z) : Prop := RecordHeaderSize <= len blk < 2 ^ 16 /\ exists rest, blk = le 2 (len blk) ++ rest.

Definition written (x : sample) (raw : list Z) : Prop :=
  has raw 0 (le 8 (s_time x)) /\ has raw 8 (le 4 (s_action x)) /\ has raw 12 (le 1 (s_mode x + match s_block x with Some _ => ModeRecordFlag | None => 0 end)) /\
  has raw 13 (le 1 (s_site x)) /\ has raw 14 (le 2 (s_caplen x)) /\ has raw 16 (le 4 (s_tag x)) /\ has raw 20 (le 8 (s_id x)) /\ has raw 28 (le 4 (s_orig x)) /\
  (match s_block x with Some blk => has raw metadataSize blk /\ block_led blk | None => True end) /\ has raw (sample_start x) (s_data x).

Definition sample_ok (x : sample) : Prop :=
  in_u64 (s_time x) /\ 0 <= s_action x < 2 ^ 32 /\ 0 <= s_mode x <= 2 /\ 0 <= s_site x < 256 /\ s_caplen x = len (s_data x) /\ s_caplen x < 2 ^ 16 /\
  0 <= s_tag x < 2 ^ 32 /\ in_u64 (s_id x) /\ 0 <= s_orig x < 2 ^ 32.

Definition packet_of (WallOffsetNs : Z) (x : sample) : Packet :=
  mkPacket (int64_of_u64 (u64 (s_time x + WallOffsetNs))) (s_data x) (s_action x) (s_mode x) (s_caplen x) (s_orig x) (s_tag x) (s_id x) (s_site x) (s_block x).

Lemma uint_has raw off n v : has raw off (le n v) -> 0 <= v < 256 ^ Z.of_nat n -> uint n off raw = Ok v.
Proof. intros H Hv. unfold uint. rewrite (has_rd _ _ _ _ H). cbn [getp]. now rewrite Z.mod_small. Qed.

Lemma mode_bits m : 0 <= m <= 2 -> Z.land m RecordFlag = 0 /\ Z.land (m + ModeRecordFlag) RecordFlag <> 0 /\ Z.ldiff (m + ModeRecordFlag) RecordFlag = m.
Proof. intros Hm. assert (m = 0 \/ m = 1 \/ m = 2) as [->|[->| ->]] by lia; now repeat split. Qed.

Lemma record_block_has raw blk : has raw metadataSize blk -> block_led blk -> record_block raw = Ok blk.
Proof.
  intros Hb [Hn (rest & E)]. pose proof (has_len _ _ _ Hb) as [_ Hl]. unfold record_block, metadataSize, MetadataSize, RecordHeaderSize in *.
  replace (len raw <? 32 + 8) with false by lia. rewrite E in Hb. rewrite (uint_has raw 32 2 (len blk)); [|exact (has_prefix _ _ _ _ Hb)|exact Hn || lia].
  cbn [result_bind]. replace ((len blk <? 8) || (len raw <? 32 + len blk)) with false by lia. rewrite <- E in Hb. now rewrite (has_sl _ _ _ Hb).
Qed.

Lemma sample_parsed WallOffsetNs x raw : written x raw -> sample_ok x -> ParseRawSample WallOffsetNs raw = Ok (packet_of WallOffsetNs x).
Proof.
  intros (Ht & Ha & Hm & Hsi & Hc & Hg & Hid & Ho & Hb & Hd) (It & Ia & Im & Isi & Ic & Ic' & Ig & Iid & Io).
  destruct (mode_bits (s_mode x) Im) as (M0 & M1 & M2). pose proof (has_len _ _ _ Ho) as [_ Hl]. pose proof (has_len _ _ _ Hd) as [_ Hd'].
  change (len (le 4 (s_orig x))) with 4 in Hl. unfold ParseRawSample, MetadataSize. replace (len raw <? 32) with false by lia.
  unfold RecordKernelTs, RecordCapLen, RecordOrigLen, OffsetKernelTs, OffsetCapLen, OffsetOrigLen, OffsetMode, OffsetAction, OffsetSiteID, OffsetTag, OffsetPacketID.
  rewrite (uint_has _ _ _ _ Ht), (uint_has _ _ _ _ Hc) by (unfold in_u64 in *; try exact It; pose proof (len_nonneg (s_data x)); lia).
  cbn [result_bind]. rewrite (uint_has _ _ _ _ Hm) by (change (256 ^ Z.of_nat 1) with 256; unfold ModeRecordFlag; destruct (s_block x); lia). cbn [result_bind].
  rewrite (uint_has _ _ _ _ Ha), (uint_has _ _ _ _ Hsi), (uint_has _ _ _ _ Ho), (uint_has _ _ _ _ Hg), (uint_has _ _ _ _ Hid) by assumption.
  unfold packet_of, sample_start in *. destruct (s_block x) as [blk|].
  - destruct Hb as [Hb Hled]. apply Z.eqb_neq in M1. rewrite M1. cbn [negb]. rewrite (record_block_has _ _ Hb Hled). cbn [result_bind]. rewrite M2. rewrite Ic. unfold metadataSize in *.
    replace (len raw <? 32 + len blk + len (s_data x)) with false by lia. replace (2 <? s_mode x) with false by lia. cbn [result_bind].
    now rewrite (has_sl _ _ _ Hd).
  - rewrite Z.add_0_r, M0. cbn [negb Z.eqb result_bind]. rewrite Ic. unfold metadataSize in *.
    replace (len raw <? 32 + len (s_data x)) with false by lia. replace (2 <? s_mode x) with false by lia. cbn [result_bind].
    now rewrite (has_sl _ _ _ Hd).
Qed.
