(* ===== verification/CaptureRun.v ===== *)
(** * CaptureRun: running the whole epilogue

    The metadata, the copy of the packet, submit or discard and the
    counters, and the theorem on a capture program's tail. *)

From Stdlib Require Import ZArith Lia Bool Ascii String List.
From stdpp Require Import base list strings numbers option gmap.
From S2P Require Import Prelude GoStd GoBytes HookAbi RawSample Record RecordBuild Asm Ebpf EbpfFacts Helpers RingHelpers.
From S2P Require Import Gate GateFacts Capture CaptureFacts CaptureBlock CaptureSample.
Local Open Scope Z_scope.

Lemma put_field off n hi v b : 0 <= off -> off + Z.of_nat n = hi -> hi <= len b ->
  exists b', put_cell off (le n v) b = b' /\ rest_kept off hi b b' /\ has b' off (le n v).
Proof.
  intros Ho Hh Hl. assert (E : len (le n v) = Z.of_nat n) by (unfold len; now rewrite le_length). eexists. split; [reflexivity|]. split.
  - apply rest_put; try lia. apply le_byte.
  - apply has_put_same; lia.
Qed.

Lemma rest_wider lo hi lo' hi' b b' : lo' <= lo -> hi <= hi' -> rest_kept lo hi b b' -> rest_kept lo' hi' b b'.
Proof. intros Hlo Hhi (L & B & O). split; [exact L|]. split; [exact B|]. intros o xs Hx Hd. apply O; [exact Hx|lia]. Qed.

(** What was written before a fragment fills other bytes. *)
Lemma rest_has lo hi b b' o n v : rest_kept lo hi b b' -> has b o (le n v) -> o + Z.of_nat n <= lo \/ hi <= o -> has b' o (le n v).
Proof. intros (_ & _ & O) H Hd. apply O; [exact H|]. unfold len. now rewrite le_length. Qed.

Section Run.
Context `{HK : Rings}.
Variable NoWakeup : bool.

(** The action the record carries. *)
Definition action_of (isFexit : bool) (s : st) : option Z :=
  if isFexit then match ldst savedReturnSlot 4 s with Some (Num v) => Some v | _ => None end else Some 0.

Definition mode_of (isFexit : bool) (rec : option Layout) : Z :=
  (if isFexit then 1 else 0) + match rec with Some _ => ModeRecordFlag | None => 0 end.

(** Registers, slots and maps are left alone but for [w]; the reservation
    becomes [b']. *)
Definition fills (w : list (Z * Z)) (b' : list Z) (s s' : st) : Prop :=
  keeps w s s' /\ maps s' = maps s /\ submitted s' = submitted s /\ clock s' = clock s /\
  getr R0 s' = Some (Ptr Reserved 0) /\ resv s' = Some b'.

Lemma exec_action l isFexit rec siteID v b s :
  getr R0 s = Some (Ptr Reserved 0) -> resv s = Some b -> 32 <= len b -> action_of isFexit s = Some v -> 0 <= siteID < 256 ->
  exists s' b', exec (action_code isFexit rec siteID ++ l) None s = exec l None s' /\ fills [] b' s s' /\ rest_kept 8 14 b b' /\
    has b' 8 (le 4 v) /\ has b' 12 (le 1 (mode_of isFexit rec)) /\ has b' 13 (le 1 siteID).
Proof.
  intros Hr Hb Hl Hv Hs. assert (H4 : exists s1 b1, exec (action_code isFexit rec siteID ++ l) None s =
      exec (StoreImm R0 12 (match rec with Some _ => recordMode (if isFexit then 1 else 0) | None => if isFexit then 1 else 0 end) Byte :: StoreImm R0 13 siteID Byte :: l) None s1 /\
      fills [] b1 s s1 /\ rest_kept 8 12 b b1 /\ has b1 8 (le 4 v)).
  { destruct (put_field 8 4 12 v b) as (b1 & E1 & Hk); [lia|lia|lia|]. unfold action_of in Hv. unfold action_code. destruct isFexit.
    - destruct (ldst savedReturnSlot 4 s) as [[z|]|] eqn:Es; try discriminate. injection Hv as ->. unfold savedReturnSlot in *. cbn [app].
      erewrite exec_load_stack; [|discriminate|regs|reflexivity|exact Es]. erewrite exec_store_resv; [|regs|regs|exact Hb|lia|cbn [Sizeof]; lia|reflexivity].
      change (Z.to_nat (Sizeof Word)) with 4%nat. rewrite E1. eexists _, b1. split; [reflexivity|]. split; [|exact Hk].
      split; [keeps_steps|]. splits; [reflexivity..|regs|reflexivity].
    - injection Hv as <-. cbn [app]. erewrite exec_storei_resv; [|exact Hr|exact Hb|lia|cbn [Sizeof]; lia|reflexivity].
      change (u64 0) with 0. change (Z.to_nat (Sizeof Word)) with 4%nat. rewrite E1. eexists _, b1. split; [reflexivity|]. split; [|exact Hk].
      split; [keeps_steps|]. splits; [reflexivity..|regs|reflexivity]. }
  destruct H4 as (s1 & b1 & -> & (K1 & M1 & U1 & C1 & R1' & V1) & O1 & H1). pose proof (proj1 O1) as L1.
  destruct (put_field 12 1 13 (mode_of isFexit rec) b1) as (b2 & E2 & O2 & H2); [lia|lia|lia|]. pose proof (proj1 O2) as L2.
  destruct (put_field 13 1 14 siteID b2) as (b3 & E3 & O3 & H3); [lia|lia|lia|].
  erewrite exec_storei_resv; [|exact R1'|exact V1|lia|cbn [Sizeof]; lia|reflexivity].
  replace (le (Z.to_nat (Sizeof Byte)) (u64 _)) with (le 1 (mode_of isFexit rec)) by (unfold mode_of; destruct rec, isFexit; reflexivity). rewrite E2.
  erewrite exec_storei_resv; [|exact R1'|reflexivity|lia|cbn [Sizeof]; lia|reflexivity].
  rewrite (u64_small siteID) by (unfold in_u64, two64; lia). change (Z.to_nat (Sizeof Byte)) with 1%nat. rewrite E3.
  eexists _, b3. split; [reflexivity|]. split; [|split; [|split; [|split]]].
  - split; [keeps_steps; exact K1|]. splits; [exact M1|exact U1|exact C1|exact R1'|reflexivity].
  - apply (rest_trans _ _ _ b1); [now apply (rest_wider 8 12)|]. apply (rest_trans _ _ _ b2); [now apply (rest_wider 12 13)|now apply (rest_wider 13 14)].
  - apply (rest_has _ _ _ _ _ _ _ O3); [apply (rest_has _ _ _ _ _ _ _ O2)|]; [exact H1|lia|lia].
  - apply (rest_has _ _ _ _ _ _ _ O3); [exact H2|lia].
  - exact H3.
Qed.

(** The length, capped: in [R3], the slot and the record. *)
Lemma exec_length l maxCapLen n b s :
  getr R0 s = Some (Ptr Reserved 0) -> getr R9 s = Some (Num n) -> resv s = Some b -> 32 <= len b -> 0 < maxCapLen < 2 ^ 31 -> in_u64 n ->
  exists s' b', exec (length_code maxCapLen ++ l) None s = exec l None s' /\ fills [(-40, -36)] b' s s' /\ rest_kept 14 16 b b' /\
    has b' 14 (le 2 (Z.min n maxCapLen)) /\ getr R3 s' = Some (Num (Z.min n maxCapLen)).
Proof.
  intros Hr0 Hr9 Hb Hl Hm Hn. unfold length_code. rewrite (i32_small maxCapLen) by lia. cbn [app].
  assert (Hj : exists s1, exec (Reg Mov R3 R9 :: JImm JLE R3 maxCapLen (B "rb_cap_ok") :: Imm Mov R3 maxCapLen ::
      WithSymbol (B "rb_cap_ok") (StoreMem RFP (-40) R3 Word) :: StoreMem R0 14 R3 Half :: l) None s =
      exec (StoreMem RFP (-40) R3 Word :: StoreMem R0 14 R3 Half :: l) None s1 /\ getr R3 s1 = Some (Num (Z.min n maxCapLen)) /\
      getr R0 s1 = Some (Ptr Reserved 0) /\ resv s1 = Some b /\ fills [(-40, -36)] b s s1).
  { step. erewrite exec_JImm; [|regs|reflexivity|reflexivity]. rewrite (u64_small maxCapLen) by (unfold in_u64, two64; lia).
    destruct (Z.leb_spec n maxCapLen) as [Hle|Hgt].
    - rewrite exec_pass by reflexivity. rewrite exec_at. eexists. split; [reflexivity|]. rewrite Z.min_l by exact Hle. splits; [regs|regs|exact Hb|].
      split; [keeps_steps|]. splits; [reflexivity..|regs|exact Hb].
    - step. rewrite exec_by. rewrite (u64_small maxCapLen) by (unfold in_u64, two64; lia). eexists. split; [reflexivity|]. rewrite Z.min_r by lia. splits; [regs|regs|exact Hb|].
      split; [keeps_steps|]. splits; [reflexivity..|regs|exact Hb]. }
  destruct Hj as (s1 & -> & Hr3 & Hr0' & Hb1 & K1 & M1 & U1 & C1 & _ & _). step.
  destruct (put_field 14 2 16 (Z.min n maxCapLen) b) as (b1 & E1 & O1 & H1); [lia|lia|lia|].
  erewrite exec_store_resv; [|regs|regs|exact Hb1|lia|cbn [Sizeof]; lia|reflexivity]. change (Z.to_nat (Sizeof Half)) with 2%nat. rewrite E1.
  eexists _, b1. split; [reflexivity|]. split; [|split; [exact O1|split; [exact H1|regs]]].
  split; [keeps_steps; exact K1|]. splits; [exact M1|exact U1|exact C1|regs|reflexivity].
Qed.

Definition meta_code (isFexit : bool) (rec : option Layout) (siteID maxCapLen : Z) : list Instruction :=
  [LoadMem R1 RFP (-56) DWord; StoreMem R0 0 R1 DWord] ++ [Imm Mov R1 0] ++ [StoreMem R0 20 R1 DWord]
  ++ action_code isFexit rec siteID ++ length_code maxCapLen
  ++ [LoadMem R1 RFP tagSlot DWord; StoreMem R0 16 R1 Word] ++ origLenFromR8 ++ [StoreMem R0 28 R1 Word].

(** What the metadata is written from. *)
Record metadata := mkMetadata { m_time : Z; m_action : Z; m_tag : Z; m_orig : Z; m_len : Z }.

Definition meta_ready (isFexit : bool) (m : metadata) (s : st) : Prop :=
  ldst (-56) 8 s = Some (Num (m_time m)) /\ action_of isFexit s = Some (m_action m) /\ ldst tagSlot 8 s = Some (Num (m_tag m)) /\
  getr R8 s = Some (Num (m_orig m)) /\ getr R9 s = Some (Num (m_len m)).

Lemma exec_meta l isFexit rec siteID maxCapLen m b s :
  meta_ready isFexit m s -> getr R0 s = Some (Ptr Reserved 0) -> resv s = Some b -> 32 <= len b ->
  0 < maxCapLen < 2 ^ 31 -> in_u64 (m_len m) -> 0 <= siteID < 256 ->
  exists s' b', exec (meta_code isFexit rec siteID maxCapLen ++ l) None s = exec l None s' /\ fills [(-40, -36)] b' s s' /\
    getr R3 s' = Some (Num (Z.min (m_len m) maxCapLen)) /\ rest_kept 0 32 b b' /\
    has b' 0 (le 8 (m_time m)) /\ has b' 8 (le 4 (m_action m)) /\ has b' 12 (le 1 (mode_of isFexit rec)) /\ has b' 13 (le 1 siteID) /\
    has b' 14 (le 2 (Z.min (m_len m) maxCapLen)) /\ has b' 16 (le 4 (m_tag m)) /\ has b' 20 (le 8 0) /\ has b' 28 (le 4 (m_orig m)).
Proof.
  intros (Ht & Ha & Hg & Ho & Hn) Hr Hb Hl Hm Hin Hs. unfold meta_code, origLenFromR8. rewrite <- !app_assoc. cbn [app].
  erewrite exec_load_stack; [|discriminate|regs|reflexivity|exact Ht].
  destruct (put_field 0 8 8 (m_time m) b) as (b1 & E1 & O1 & H1); [lia|lia|lia|]. pose proof (proj1 O1) as L1.
  erewrite exec_store_resv; [|regs|regs|exact Hb|lia|cbn [Sizeof]; lia|reflexivity]. change (Z.to_nat (Sizeof DWord)) with 8%nat. rewrite E1. step.
  change (u64 0) with 0. destruct (put_field 20 8 28 0 b1) as (b2 & E2 & O2 & H2); [lia|lia|lia|]. pose proof (proj1 O2) as L2.
  erewrite exec_store_resv; [|regs|regs|reflexivity|lia|cbn [Sizeof]; lia|reflexivity]. change (Z.to_nat (Sizeof DWord)) with 8%nat. rewrite E2.
  match goal with |- context [exec (action_code _ _ _ ++ ?r) None ?t] =>
    destruct (exec_action r isFexit rec siteID (m_action m) b2 t) as (s3 & b3 & E3 & (K3 & M3 & U3 & C3 & Z3 & V3) & O3 & Ha3 & Hm3 & Hs3); [regs|reflexivity|lia|exact Ha|exact Hs|] end.
  rewrite E3. clear E3. pose proof (proj1 O3) as L3. assert (K03 : keeps [] s s3) by (eapply keeps_trans; [|exact K3]; keeps_steps).
  match goal with |- context [exec (length_code _ ++ ?r) None s3] =>
    destruct (exec_length r maxCapLen (m_len m) b3 s3) as (s4 & b4 & E4 & (K4 & M4 & U4 & C4 & Z4 & V4) & O4 & Hc4 & R4); auto end.
  { rewrite (ke_regs _ _ _ K03) by (unfold R9; lia). exact Hn. }
  { lia. }
  rewrite E4. clear E4. pose proof (proj1 O4) as L4. assert (K04 : keeps [(-40, -36)] s s4) by (apply (keeps_trans _ _ s3); [|exact K4]; apply (keeps_wider []); [constructor|exact K03]).
  cbn [app]. unfold tagSlot in *. erewrite exec_load_stack; [|discriminate|regs|reflexivity|]. 2: { rewrite (ldst_keeps _ _ _ _ _ K04); [exact Hg|]. repeat constructor; lia. }
  destruct (put_field 16 4 20 (m_tag m) b4) as (b5 & E5 & O5 & H5); [lia|lia|lia|]. pose proof (proj1 O5) as L5.
  erewrite exec_store_resv; [|regs|regs|exact V4|lia|cbn [Sizeof]; lia|reflexivity]. change (Z.to_nat (Sizeof Word)) with 4%nat. rewrite E5.
  erewrite exec_Mov_Reg; [|discriminate|]. 2: { rewrite getr_set_resv, getr_other by discriminate. rewrite (ke_regs _ _ _ K04) by (unfold R8; lia). exact Ho. }
  destruct (put_field 28 4 32 (m_orig m) b5) as (b6 & E6 & O6 & H6); [lia|lia|lia|].
  erewrite exec_store_resv; [|regs|regs|reflexivity|lia|cbn [Sizeof]; lia|reflexivity]. change (Z.to_nat (Sizeof Word)) with 4%nat. rewrite E6.
  eexists _, b6. split; [reflexivity|]. split; [split; [keeps_steps; exact K04|]; splits; [cbn; now rewrite M4, M3|cbn; now rewrite U4, U3|cbn; now rewrite C4, C3|regs|reflexivity]|].
  split; [regs|]. split.
  { apply (rest_trans _ _ _ b1); [now apply (rest_wider 0 8)|]. apply (rest_trans _ _ _ b2); [now apply (rest_wider 20 28)|]. apply (rest_trans _ _ _ b3); [now apply (rest_wider 8 14)|].
    apply (rest_trans _ _ _ b4); [now apply (rest_wider 14 16)|]. apply (rest_trans _ _ _ b5); [now apply (rest_wider 16 20)|now apply (rest_wider 28 32)]. }
  splits; repeat first [assumption | eapply rest_has; [first [exact O6|exact O5|exact O4|exact O3|exact O2]| |lia]].
Qed.

Lemma exec_copy l dataOff cap a b s :
  getr R0 s = Some (Ptr Reserved 0) -> getr R3 s = Some (Num cap) -> getr R7 s = Some (Num a) -> resv s = Some b ->
  0 <= dataOff < 2 ^ 31 -> 0 <= cap -> dataOff + cap <= len b ->
  exists s', keeps [] s s' /\ maps s' = maps s /\ submitted s' = submitted s /\
    match kbytes (clock s) a (Z.to_nat cap) with
    | Some data => exec (copy_code dataOff ++ l) None s = exec l None s' /\ resv s' = Some (put_cell dataOff data b)
    | None => exec (copy_code dataOff ++ l) None s = exec l (Some (B "rb_copy_fail")) s' /\ exists b', resv s' = Some b'
    end.
Proof.
  intros Hr0 Hr3 Hr7 Hb Ho Hc Hl. unfold copy_code. cbn [app]. step. erewrite exec_Add_ptr; [|discriminate|unfold two63; lia|regs]. do 2 step. rewrite exec_Call.
  erewrite probe_read; [|regs|regs|regs]. change (clock (setr R3 _ _)) with (clock s). destruct (kbytes (clock s) a (Z.to_nat cap)) as [data|] eqn:Ek.
  - pose proof (kbytes_length _ _ _ _ Ek) as Hd. rewrite (put_resv (0 + dataOff) data b) by (try exact Hb; unfold len in *; lia). cbn [option_map].
    erewrite exec_JImm; [|regs|reflexivity|reflexivity]. eexists. split; [|split; [|split; [|split; [reflexivity|reflexivity]]]]; [keeps_steps|reflexivity..].
  - rewrite (put_resv (0 + dataOff) (repeat 0 (Z.to_nat cap)) b) by (try exact Hb; unfold len in *; rewrite ?repeat_length; lia). cbn [option_map].
    destruct efault_nonzero as [Hz _]. erewrite exec_JImm; [|regs| |reflexivity].
    2: { cbn [cmp_val cmp64]. change (u64 0) with 0. apply Z.eqb_neq in Hz. now rewrite Hz. }
    eexists. split; [|split; [|split; [|split; [reflexivity|eexists; reflexivity]]]]; [keeps_steps|reflexivity..].
Qed.

(** ** Submit and discard *)

Lemma exec_flag l s :
  flag_ready NoWakeup s ->
  exists fl, exec (ringbufSubmitFlag NoWakeup :: l) None s = exec l None (setr R2 (Num fl) s).
Proof.
  unfold ringbufSubmitFlag. intros [Hw|[fl Hf]]; [rewrite Hw; eexists; now step|]. destruct NoWakeup; [eexists; now step|]. exists fl.
  now rewrite (exec_load_stack _ _ R2 RFP wakeFlagSlot DWord 0 (Num fl)) by (try discriminate; try reflexivity; exact Hf).
Qed.

Lemma exec_submit l b s :
  ldst reservedSlot 8 s = Some (Ptr Reserved 0) -> flag_ready NoWakeup s -> resv s = Some b ->
  exists s' fl, exec ([LoadMem R1 RFP (-32) DWord; ringbufSubmitFlag NoWakeup; BuiltinCall FnRingbufSubmit] ++ l) None s = exec l None s' /\
    keeps [] s s' /\ maps s' = maps s /\ submitted s' = submitted s ++ [(b, fl)] /\ resv s' = None.
Proof.
  intros Hs Hf Hb. unfold reservedSlot in Hs. cbn [app]. erewrite exec_load_stack; [|discriminate|regs|reflexivity|exact Hs].
  destruct (exec_flag (BuiltinCall FnRingbufSubmit :: l) (setr R1 (Ptr Reserved 0) s) Hf) as [fl ->]. rewrite exec_Call.
  erewrite ring_submit; [|regs|regs|exact Hb]. eexists _, fl. split; [reflexivity|]. splits; [keeps_steps|reflexivity..].
Qed.

Lemma exec_discard l b s :
  ldst reservedSlot 8 s = Some (Ptr Reserved 0) -> flag_ready NoWakeup s -> resv s = Some b ->
  exists s', exec ([WithSymbol (B "rb_copy_fail") (LoadMem R1 RFP (-32) DWord); ringbufSubmitFlag NoWakeup; BuiltinCall FnRingbufDiscard] ++ l) (Some (B "rb_copy_fail")) s = exec l None s' /\
    keeps [] s s' /\ maps s' = maps s /\ submitted s' = submitted s /\ resv s' = None.
Proof.
  intros Hs Hf Hb. unfold reservedSlot in Hs. cbn [app]. rewrite exec_at. erewrite exec_load_stack; [|discriminate|regs|reflexivity|exact Hs].
  destruct (exec_flag (BuiltinCall FnRingbufDiscard :: l) (setr R1 (Ptr Reserved 0) s) Hf) as [fl ->]. rewrite exec_Call.
  erewrite ring_discard; [|regs|regs|exact Hb]. eexists. split; [reflexivity|]. splits; [keeps_steps|reflexivity..].
Qed.

(** ** Counters *)

(** One more in a counter's entry; nothing without counters, or without the
    entry. *)
Definition count (fd key : Z) (ms : gmap Z (gmap (list Z) (list Z))) : gmap Z (gmap (list Z) (list Z)) :=
  if fd <=? 0 then ms
  else match ms !! fd with
       | Some m => match m !! le 4 key with
                   | Some b => <[fd := <[le 4 key := put_cell 0 (le 8 (unle (take 8 b) + 1)) b]> m]> ms
                   | None => ms
                   end
       | None => ms
       end.

Definition counters_ok (fd : Z) (s : st) : Prop :=
  0 < fd -> keySize fd = 4%nat /\ exists m, maps s !! fd = Some m /\ forall key b, m !! key = Some b -> 8 <= len b.

Lemma exec_counter l fd key label pend s :
  0 <= key < 2 ^ 31 -> counters_ok fd s -> has_text label = true -> pend = None \/ pend = Some label -> 
  exists s', exec (emitExportCounter fd key label ++ l) pend s = exec l (Some (B "exit")) s' /\ keeps [(-16, -12)] s s' /\
    maps s' = count fd key (maps s) /\ submitted s' = submitted s /\ resv s' = resv s.
Proof.
  intros Hkey Hok Hlab Hp. unfold emitExportCounter, count. destruct (Z.leb_spec fd 0) as [Hfd|Hfd].
  { exists s. split; [|now splits; [apply keeps_refl|..]]. cbn [app]. destruct Hp as [->| ->]; [rewrite exec_by|rewrite exec_at]; now rewrite exec_Ja. }
  destruct (Hok Hfd) as (Hks & m & Em & Hm). cbn [app].
  assert (E : forall r, exec (WithSymbol label (StoreImm RFP (-16) key Word) :: r) pend s = exec (StoreImm RFP (-16) key Word :: r) None s).
  { intros r. destruct Hp as [->| ->]; [apply exec_by|apply exec_at]. }
  rewrite E. do 5 step. erewrite map_lookup; [|regs|regs| |exact Em].
  2: { rewrite Hks. change 4%nat with (length (le 4 (u64 key))). apply bytes_at_wr. reflexivity. }
  rewrite !(u64_small key) by (unfold in_u64, two64; lia). change (le (Z.to_nat (Sizeof Word)) key) with (le 4 key). rewrite Em.
  set (s1 := wr (0 + -16) _ s). destruct (m !! le 4 key) as [b|] eqn:Eb.
  - erewrite exec_JImm; [|regs|reflexivity|reflexivity]. step. change (u64 1) with 1.
    assert (Hv : value fd (le 4 key) s1 = Some b) by (unfold value; change (maps s1) with (maps s); rewrite Em; exact Eb). assert (Hb8 : 8 <= len b) by exact (Hm _ _ Eb).
    erewrite exec_xadd_value; [|regs|regs|exact Hv| |lia|lia].
    2: { unfold cell_at, rd. change (0 <=? 0) with true. unfold len in Hb8. replace (_ <=? _)%nat with true by (symmetry; apply Nat.leb_le; lia). reflexivity. }
    rewrite exec_Ja by reflexivity. eexists. split; [reflexivity|]. splits; [unfold s1; keeps_steps| |reflexivity..].
    cbn [maps set_object set_maps]. change (drop (Z.to_nat 0) b) with b. rewrite <- (le_mod 8 (u64 _)), <- (le_mod 8 (unle (take 8 b) + 1)).
    change (256 ^ Z.of_nat 8) with two64. unfold u64. rewrite Z.mod_mod by easy. change (maps (setr _ _ _)) with (maps s). now rewrite Em.
  - erewrite exec_JImm; [|regs|reflexivity|reflexivity]. change (0 =? u64 0) with true. cbv iota. rewrite !exec_pass by reflexivity.
    eexists. split; [reflexivity|]. splits; [unfold s1; keeps_steps|reflexivity..].
Qed.

(** ** Terminals *)

Lemma counter_over l fd key label label' s :
  has_text label' = true -> label' <> label -> exec (emitExportCounter fd key label ++ l) (Some label') s = exec l (Some label') s.
Proof.
  intros Ht Hn. apply exec_over. assert (He : label' <> []) by (intros ->; discriminate). unfold emitExportCounter. destruct (fd <=? 0); cbn;
    repeat (apply not_elem_of_cons; split; [assumption|]); apply not_elem_of_nil.
Qed.

Lemma discard_over l label s :
  has_text label = true -> label <> B "rb_copy_fail" ->
  exec (([WithSymbol (B "rb_copy_fail") (LoadMem R1 RFP (-32) DWord); ringbufSubmitFlag NoWakeup; BuiltinCall FnRingbufDiscard]) ++ l) (Some label) s = exec l (Some label) s.
Proof.
  intros Ht Hn. apply exec_over. assert (He : label <> []) by (intros ->; discriminate). unfold ringbufSubmitFlag. destruct NoWakeup; cbn;
    repeat (apply not_elem_of_cons; split; [assumption|]); apply not_elem_of_nil.
Qed.

Lemma terminals_exit l fd s : exec (emitExportTerminals NoWakeup fd ++ l) (Some (B "exit")) s = exec l (Some (B "exit")) s.
Proof.
  unfold emitExportTerminals. rewrite <- !app_assoc, counter_over by easy. destruct (0 <? fd);
    [rewrite <- app_assoc, !counter_over by easy|rewrite app_nil_l]; now rewrite discard_over, counter_over by easy.
Qed.

(** Where an epilogue comes in, and the counter it ends in. *)
Inductive ending := Submitted | NoRing | NoRoom | Faulted.

Definition ending_label (fd : Z) (e : ending) : option bytes :=
  match e with Submitted => None | NoRing => Some (lookupSym fd) | NoRoom => Some (failSym fd) | Faulted => Some (B "rb_copy_fail") end.

Definition ending_stat (e : ending) : Z :=
  match e with Submitted => statSubmitted | NoRing => statLookupMiss | NoRoom => statReserveFail | Faulted => statCopyFail end.

(** A record that was not submitted is discarded. *)
Definition ending_ready (e : ending) (s : st) : Prop :=
  match e with
  | Faulted => ldst reservedSlot 8 s = Some (Ptr Reserved 0) /\ flag_ready NoWakeup s /\ exists b, resv s = Some b
  | _ => resv s = None
  end.

Lemma exec_terminals l fd e s :
  counters_ok fd s -> ending_ready e s ->
  exists s', exec (emitExportTerminals NoWakeup fd ++ l) (ending_label fd e) s = exec l (Some (B "exit")) s' /\ keeps [(-16, -12)] s s' /\
    maps s' = count fd (ending_stat e) (maps s) /\ submitted s' = submitted s /\ resv s' = None.
Proof.
  intros Hc He. pose proof (terminals_exit l fd) as Hexit. unfold emitExportTerminals in *. rewrite <- !app_assoc in *.
  destruct e; cbn [ending_label ending_stat ending_ready] in *; unfold lookupSym, failSym.
  - match goal with |- context [exec (emitExportCounter fd statSubmitted _ ++ ?r) None s] =>
      destruct (exec_counter r fd statSubmitted (B "rb_submitted") None s ltac:(easy) Hc eq_refl (or_introl eq_refl)) as (s' & E & K & M & U & V) end.
    exists s'. rewrite E. specialize (Hexit s'). rewrite counter_over in Hexit by easy. rewrite Hexit. splits; auto. congruence.
  - destruct (Z.ltb_spec 0 fd) as [Hfd|Hfd].
    + rewrite counter_over by easy. rewrite <- app_assoc, counter_over by easy.
      match goal with |- context [exec (emitExportCounter fd statLookupMiss _ ++ ?r) _ s] =>
        destruct (exec_counter r fd statLookupMiss (B "rb_lookup_fail") (Some (B "rb_lookup_fail")) s ltac:(easy) Hc eq_refl (or_intror eq_refl)) as (s' & E & K & M & U & V) end.
      exists s'. rewrite E, discard_over, counter_over by easy. splits; auto. congruence.
    + exists s. rewrite Hexit. unfold count. replace (fd <=? 0) with true by lia. splits; auto using keeps_refl.
  - destruct (Z.ltb_spec 0 fd) as [Hfd|Hfd].
    + rewrite counter_over by easy. rewrite <- app_assoc.
      match goal with |- context [exec (emitExportCounter fd statReserveFail _ ++ ?r) _ s] =>
        destruct (exec_counter r fd statReserveFail (B "rb_fail") (Some (B "rb_fail")) s ltac:(easy) Hc eq_refl (or_intror eq_refl)) as (s' & E & K & M & U & V) end.
      exists s'. rewrite E, counter_over, discard_over, counter_over by easy. splits; auto. congruence.
    + exists s. rewrite Hexit. unfold count. replace (fd <=? 0) with true by lia. splits; auto using keeps_refl.
  - rewrite counter_over by easy. destruct He as (Hs & Hf & b & Hb).
    assert (Hgo : forall r, exec ((if 0 <? fd then emitExportCounter fd statReserveFail (B "rb_fail") ++ emitExportCounter fd statLookupMiss (B "rb_lookup_fail") else []) ++ r)
      (Some (B "rb_copy_fail")) s = exec r (Some (B "rb_copy_fail")) s).
    { intros r. destruct (0 <? fd); [|reflexivity]. now rewrite <- app_assoc, !counter_over by easy. }
    rewrite Hgo. match goal with |- context [exec ([_; _; _] ++ ?r) _ s] => destruct (exec_discard r b s Hs Hf Hb) as (s1 & E1 & K1 & M1 & U1 & V1) end. rewrite E1.
    assert (Hc1 : counters_ok fd s1) by (intros Hfd; rewrite M1; exact (Hc Hfd)).
    destruct (exec_counter l fd statCopyFail (B "rb_copy_count") None s1 ltac:(easy) Hc1 eq_refl (or_introl eq_refl)) as (s2 & E2 & K2 & M2 & U2 & V2).
    exists s2. rewrite E2. split; [reflexivity|]. split; [apply (keeps_trans _ _ s1); [apply (keeps_wider []); [constructor|exact K1]|exact K2]|].
    splits; congruence.
Qed.

(** ** The body *)

Definition block_code (rec : option Layout) (snap : fieldSnap) : list Instruction := match rec with Some lay => emitRecordBlock lay snap | None => [] end.
Definition block_size (rec : option Layout) : Z := match rec with Some lay => Layout_Size lay | None => 0 end.

(** What a record block's code promises the epilogue, from states in [Pre]:
    it writes a block that is [good], inside its bytes. *)
Record block_runs (rec : option Layout) (snap : fieldSnap) (Pre : st -> Prop) (good : option (list Z) -> Prop) : Prop := mkBlockRuns {
  br_size : 0 <= block_size rec < 2 ^ 15;
  br_stable : forall w s s', keeps w s s' -> maps s' = maps s -> apart (-48) 8 w -> Pre s -> Pre s';
  br_labels : forall label, In label [B "exit"; B "rb_fail"; B "rb_lookup_fail"; B "rb_copy_fail"] -> label ∉ symbols (block_code rec snap);
  br_run : forall l b s,
    Pre s -> getr R0 s = Some (Ptr Reserved 0) -> ldst reservedSlot 8 s = Some (Ptr Reserved 0) -> resv s = Some b -> Forall byte b ->
    metadataSize + block_size rec <= len b ->
    exists s' b' blk, exec (block_code rec snap ++ l) None s = exec l None s' /\ keeps block_window s s' /\ maps s' = maps s /\ submitted s' = submitted s /\
      getr R0 s' = Some (Ptr Reserved 0) /\ resv s' = Some b' /\ rest_kept metadataSize (metadataSize + block_size rec) b b' /\ good blk /\
      match rec, blk with
      | Some lay, Some blk => has b' metadataSize blk /\ len blk = Layout_Size lay /\ block_led blk
      | None, None => True
      | _, _ => False
      end
}.

Definition body_window : list (Z * Z) := [(-128, -120); (-64, -48); (-40, -12)].

Lemma exec_clock l s :
  exists s' t, exec (clock_code ++ l) None s = exec l None s' /\ keeps [(-56, -48); (-16, -12)] s s' /\ maps s' = maps s /\ submitted s' = submitted s /\
    resv s' = resv s /\ ldst (-56) 8 s' = Some (Num (now t)) /\ bytes_at (Ptr Stack (-16)) 4 s' = Some (le 4 cpu).
Proof.
  unfold clock_code. cbn [app]. rewrite exec_Call, ktime. step. rewrite exec_Call, processor. step. eexists _, (clock s). split; [reflexivity|].
  splits; [keeps_steps|reflexivity..| |].
  - change (0 + -16) with (-16). rewrite ldst_wr_other by (cbn; lia). rewrite ldst_returned. change (0 + -56) with (-56). rewrite ldst_wr_same by reflexivity.
    apply (decode_encode8 (Num (now (clock s)))); [|reflexivity]. intros z [= <-]. apply now_u64.
  - change (0 + -16) with (-16). apply (bytes_at_wr (-16) (le 4 cpu)). reflexivity.
Qed.
End Run.
