(* ===== verification/EntryBlock.v ===== *)
(** * EntryBlock: the entry block the epilogue writes

    Site and status are the low bytes of argument words, key and value are
    read behind pointers or taken from argument words; each has its valid
    bit when the read succeeded, and zeros in its place when it faulted. *)

From Stdlib Require Import ZArith Lia Bool Ascii String List.
From stdpp Require Import base list strings numbers option gmap.
From S2P Require Import Prelude GoStd GoBytes HookAbi ArgExpr ArgFilter RawSample Record RecordFacts RecordBuild Asm Ebpf EbpfFacts Helpers RingHelpers.
From S2P Require Import Gate GateFacts GateRecord Capture CaptureFacts CaptureBlock CaptureSample CaptureRun.
Local Open Scope Z_scope.

Lemma lor_lt a b n : 0 < n -> 0 <= a < 2 ^ n -> 0 <= b < 2 ^ n -> 0 <= Z.lor a b < 2 ^ n.
Proof.
  intros Hn Ha Hb. assert (H0 : 0 <= Z.lor a b) by (apply Z.lor_nonneg; lia). split; [exact H0|].
  destruct (Z.eq_dec (Z.lor a b) 0) as [->|Hne]; [apply Z.pow_pos_nonneg; lia|]. apply Z.log2_lt_pow2; [lia|]. rewrite Z.log2_lor by lia.
  assert (Hlog : forall x, 0 <= x < 2 ^ n -> Z.log2 x < n).
  { intros x Hx. destruct (Z.eq_dec x 0) as [->|]; [exact Hn|]. apply Z.log2_lt_pow2; lia. }
  apply Z.max_lub_lt; auto.
Qed.

(** A jump passes over another label. *)
Lemma exec_miss `{Kernel} label label' i l s : label <> label' -> exec (WithSymbol label i :: l) (Some label') s = exec l (Some label') s.
Proof. intros Hn. cbn [exec]. now rewrite bool_decide_false by exact Hn. Qed.

Section Entry.
Context `{HK : Rings}.

(** ** What is read *)

(** [v] is the valid bit, [x] the number stored. *)
Definition scalar_read (c : Scalar) (s : st) (v : bool) (x : Z) : Prop :=
  if Scalar_Present c then v = true /\ words s !! Z.to_nat (SParamIndex c) = Some x else v = false /\ x = 0.

Definition bytes_read (b : Bytes) (s : st) (v : bool) (bs : list Z) : Prop :=
  if negb (Bytes_Present b) || (BLen b =? 0) then v = false /\ bs = []
  else if BPointer b then
    exists t, match kbytes t (default 0 (arg (BParamIndex b) s)) (Z.to_nat (BLen b)) with
              | Some data => v = true /\ bs = data
              | None => v = false /\ bs = repeat 0 (Z.to_nat (BLen b))
              end
  else v = true /\ exists w, words s !! Z.to_nat (BParamIndex b) = Some w /\ bs = le (Z.to_nat (BLen b)) w.

(** The parameters [Build] names are arguments of the program. *)
Definition scalar_ok (c : Scalar) (s : st) : Prop := Scalar_Present c = true -> SParamIndex c < 2 ^ 12 /\ SParamIndex c < Z.of_nat (length (words s)).

Definition bytes_ok (b : Bytes) (s : st) : Prop :=
  0 <= BLen b <= MaxBytesLimit /\ (Bytes_Present b = false -> BLen b = 0) /\
  (Bytes_Present b = true -> BParamIndex b < 2 ^ 12 /\ (BLen b <> 0 -> BPointer b = false -> access_size (BLen b) /\ BParamIndex b < Z.of_nat (length (words s)))).

(** ** The fragments *)

(** The reservation, the valid bits so far and the arguments. *)
Record filling (mask : Z) (b : list Z) (s : st) : Prop := mkFilling {
  fi_mask : ldst recordValidSlot 8 s = Some (Num mask);
  fi_slot : ldst reservedSlot 8 s = Some (Ptr Reserved 0);
  fi_args : args_saved s;
  fi_ctx : ctx_ok s;
  fi_resv : resv s = Some b
}.

Definition entry_window : list (Z * Z) := [(-128, -120); (-64, -56)].

Lemma exec_valid l bit mask b s :
  filling mask b s -> in_u64 mask -> 0 <= bit < 16 -> 
  exists s', exec (emitRecordValid bit ++ l) None s = exec l None s' /\ keeps entry_window s s' /\ maps s' = maps s /\ submitted s' = submitted s /\
    filling (Z.lor mask bit) b s'.
Proof.
  intros [Fm Fs Fa Fc Fr] Hm Hb. unfold emitRecordValid, recordValidSlot in *. rewrite i32_small by lia. cbn [app].
  erewrite exec_load_stack; [|discriminate|regs|reflexivity|exact Fm]. erewrite exec_Imm; [|discriminate|discriminate|discriminate|regs|reflexivity].
  rewrite (u64_small bit) by (unfold in_u64, two64; lia). step. eexists. split; [reflexivity|]. splits; [keeps_steps|reflexivity..|]. split.
  - unfold recordValidSlot. change (0 + -64) with (-64). rewrite ldst_wr_same by reflexivity. apply (decode_encode8 (Num (Z.lor mask bit))); [|reflexivity]. intros z [= <-].
    apply (lor_lt _ _ 64); [reflexivity|exact Hm|]. change (2 ^ 64) with two64. unfold two64. lia.
  - unfold reservedSlot in *. slots.
  - unfold args_saved in *. slots.
  - exact Fc.
  - exact Fr.
Qed.

Lemma load_word idx w n s : words s !! Z.to_nat idx = Some w -> 0 <= idx < 2 ^ 12 -> in_u64 w ->
  load (add_off (Ptr Ctx 0) (i16 (idx * 8))) n s = Some (Num (w mod 256 ^ Z.of_nat n)).
Proof.
  intros Hw Hi Hu. rewrite i16_small by lia. cbn [add_off load Z.add]. unfold load_ctx. rewrite Z.add_0_l, Z_mod_mult, Z.div_mul by lia.
  replace (0 <=? idx * 8) with true by lia. cbn [andb Z.eqb]. now rewrite Hw.
Qed.

Lemma exec_scalar l idx size off bit mask b w s :
  filling mask b s -> in_u64 mask -> 0 <= bit < 16 -> access_size size -> 0 <= idx < 2 ^ 12 -> words s !! Z.to_nat idx = Some w ->
  0 <= off -> off + size <= len b ->
  exists s' b', exec (emitRecordScalar idx size off bit ++ l) None s = exec l None s' /\ keeps entry_window s s' /\ maps s' = maps s /\ submitted s' = submitted s /\
    filling (Z.lor mask bit) b' s' /\ rest_kept off (off + size) b b' /\ has b' off (le (Z.to_nat size) w).
Proof.
  intros F Hm Hbit Hs Hi Hw Ho Hl. destruct (size_bytes size Hs) as [Es Hr]. pose proof F as [Fm Fs Fa Fc Fr]. unfold emitRecordScalar. rewrite <- app_assoc. cbn [app].
  assert (Hu : in_u64 w) by (destruct Fc as [Fc _]; eapply Forall_lookup_1; eauto). unfold reservedSlot, args_saved in *.
  erewrite exec_load_stack; [|discriminate|regs|reflexivity|exact Fa]. erewrite exec_LoadMem; [|discriminate|regs|apply (load_word idx w _ _ Hw Hi Hu)].
  change (256 ^ Z.of_nat (Z.to_nat (Sizeof DWord))) with two64. rewrite (Z.mod_small w) by exact Hu.
  erewrite exec_load_stack; [|discriminate|regs|reflexivity|rewrite !ldst_setr; exact Fs].
  destruct (put_field off (Z.to_nat size) (off + size) w b) as (b1 & E1 & O1 & H1); [exact Ho|lia|exact Hl|].
  assert (Ez : Sizeof (asmSizeFor size) = size) by (destruct Hs as [->|[->|[->| ->]]]; reflexivity).
  erewrite exec_store_resv; [|regs|regs|exact Fr|exact Ho|lia|lia]. rewrite Es, E1.
  match goal with |- context [exec (emitRecordValid bit ++ l) None ?t] => destruct (exec_valid l bit mask b1 t) as (s1 & E & K & M & U & F1); auto end.
  { split; [exact Fm|exact Fs|exact Fa|exact Fc|reflexivity]. }
  exists s1, b1. split; [exact E|]. split; [|split; [exact M|split; [exact U|split; [exact F1|now split]]]]. refine (keeps_trans _ _ _ _ _ K). keeps_steps.
Qed.

(** Behind the pointer load: the address is in [R3], or is zero. *)
Definition read_code (len_ off bit : Z) (null read done : bytes) : list Instruction :=
  [JaLabel read; WithSymbol null (Imm Mov R3 0); WithSymbol read (LoadMem R1 RFP reservedSlot DWord);
   Imm Add R1 off; Imm Mov R2 (i32 len_); BuiltinCall FnProbeReadKernel; JImm JNE R0 0 done;
   LoadMem R1 RFP recordValidSlot DWord; Imm Or R1 (i32 bit); StoreMem RFP recordValidSlot R1 DWord;
   WithSymbol done (Imm Mov R1 0)].

Lemma exec_read l n off bit null read done pend a mask b s :
  mem_ok ->   has_text null = true -> has_text read = true -> has_text done = true -> null <> read ->
  pend = None /\ getr R3 s = Some (Num a) \/ pend = Some null /\ a = 0 ->
  filling mask b s -> in_u64 mask -> 0 <= bit < 16 -> 0 < n <= MaxBytesLimit -> 0 <= off < 2 ^ 15 -> off + n <= len b ->
  exists s' b' (v : bool) t bs, exec (read_code n off bit null read done ++ l) pend s = exec l None s' /\ keeps entry_window s s' /\ maps s' = maps s /\ submitted s' = submitted s /\
    filling (if v then Z.lor mask bit else mask) b' s' /\ rest_kept off (off + n) b b' /\ has b' off bs /\ len bs = n /\
    match kbytes t a (Z.to_nat n) with Some data => v = true /\ bs = data | None => v = false /\ bs = repeat 0 (Z.to_nat n) end.
Proof.
  intros Hmem Tn Tr Td Hnr Hp F Hm Hbit Hn Ho Hl. unfold MaxBytesLimit in Hn. unfold read_code. cbn [app]. rewrite (i32_small n) by lia.
  assert (Hgo : exists s1, exec (JaLabel read :: WithSymbol null (Imm Mov R3 0) :: WithSymbol read (LoadMem R1 RFP reservedSlot DWord) :: Imm Add R1 off :: Imm Mov R2 n :: BuiltinCall FnProbeReadKernel :: JImm JNE R0 0 done ::
      LoadMem R1 RFP recordValidSlot DWord :: Imm Or R1 (i32 bit) :: StoreMem RFP recordValidSlot R1 DWord :: WithSymbol done (Imm Mov R1 0) :: l) pend s =
      exec (LoadMem R1 RFP reservedSlot DWord :: Imm Add R1 off :: Imm Mov R2 n :: BuiltinCall FnProbeReadKernel :: JImm JNE R0 0 done ::
      emitRecordValid bit ++ WithSymbol done (Imm Mov R1 0) :: l) None s1 /\ getr R3 s1 = Some (Num a) /\ (s1 = s \/ s1 = setr R3 (Num 0) s)).
  { destruct Hp as [[-> H3]|[-> ->]].
    - exists s. rewrite exec_Ja by exact Tr. rewrite exec_miss, exec_at by exact Hnr. split; [reflexivity|]. auto.
    - exists (setr R3 (Num 0) s). rewrite exec_pass, exec_at by easy. step. rewrite exec_by. split; [reflexivity|]. split; [regs|auto]. }
  destruct Hgo as (s1 & -> & Hr3 & Hs1). assert (F1 : filling mask b s1) by (destruct Hs1 as [->| ->]; [exact F|destruct F; split; assumption]).
  assert (K1 : keeps entry_window s s1 /\ maps s1 = maps s /\ submitted s1 = submitted s) by (destruct Hs1 as [->| ->]; splits; try reflexivity; keeps_steps).
  destruct K1 as (K1 & M1 & U1). clear Hs1 F Hp. destruct F1 as [Fm Fs Fa Fc Fr]. unfold reservedSlot in Fs.
  unfold reservedSlot at 1. erewrite exec_load_stack; [|discriminate|regs|reflexivity|exact Fs]. erewrite exec_Add_ptr; [|discriminate|unfold two63; lia|regs]. step.
  rewrite exec_Call. erewrite probe_read; [|regs|regs|regs]. match goal with |- context [clock ?u] => set (t := clock u); set (s2 := u) in * end. rewrite (u64_small n) by (unfold in_u64, two64; lia).
  assert (F2 : forall bs (r : val), filling mask (put_cell (0 + off) bs b) (returned r (set_resv (Some (put_cell (0 + off) bs b)) s2))) by (intros bs r; split; assumption || reflexivity).
  assert (K2 : forall o (r : val), keeps entry_window s (returned r (set_resv o s2))) by (intros o r; unfold s2; keeps_steps; exact K1).
  assert (Hrd : forall bs, length bs = Z.to_nat n -> put_bytes (Ptr Reserved (0 + off)) bs s2 = Some (set_resv (Some (put_cell (0 + off) bs b)) s2)).
  { intros bs Hb. apply put_resv; [exact Fr|lia|unfold len in *; lia]. }
  assert (Hput : forall bs, length bs = Z.to_nat n -> Forall byte bs -> rest_kept off (off + n) b (put_cell (0 + off) bs b) /\ has (put_cell (0 + off) bs b) off bs /\ len bs = n).
  { intros bs Hb Hby. rewrite Z.add_0_l. assert (len bs = n) by (unfold len; lia). splits; [apply rest_put; auto; lia|apply has_put_same; lia|assumption]. }
  destruct (kbytes t a (Z.to_nat n)) as [data|] eqn:Ek.
  - pose proof (kbytes_length _ _ _ _ Ek) as Hd. destruct (Hput data Hd (kbytes_byte _ _ _ _ Hmem Ek)) as (O & Hh & Hn').
    rewrite (Hrd data Hd). cbn [option_map]. erewrite exec_JImm; [|regs|reflexivity|exact Td]. cbn [negb Z.eqb].
    match goal with |- context [exec (emitRecordValid bit ++ ?r) None ?u] => destruct (exec_valid r bit mask (put_cell (0 + off) data b) u (F2 _ _) Hm Hbit) as (s3 & -> & K3 & M3 & U3 & F3) end.
    rewrite exec_by. step. exists (setr R1 (Num (u64 0)) s3), (put_cell (0 + off) data b), true, t, data. split; [reflexivity|].
    split; [keeps_steps; refine (keeps_trans _ _ _ _ (K2 _ _) K3)|]. split; [cbn; rewrite M3; exact M1|]. split; [cbn; rewrite U3; exact U1|].
    split; [destruct F3; split; assumption|]. split; [exact O|]. split; [exact Hh|]. split; [exact Hn'|]. rewrite Ek. now split.
  - assert (Hz : length (repeat 0 (Z.to_nat n)) = Z.to_nat n) by apply repeat_length.
    assert (Hzb : Forall byte (repeat 0 (Z.to_nat n))). { apply Forall_forall. intros x Hx. apply list_elem_of_In, repeat_spec in Hx as ->. unfold byte. lia. }
    destruct (Hput _ Hz Hzb) as (O & Hh & Hn'). rewrite (Hrd _ Hz). cbn [option_map]. destruct efault_nonzero as [Hne _].
    erewrite exec_JImm; [|regs| |exact Td]. 2: { cbn [cmp_val cmp64]. change (u64 0) with 0. apply Z.eqb_neq in Hne. now rewrite Hne. }
    unfold emitRecordValid. cbn [app negb]. rewrite !exec_pass by (exact Td || reflexivity). rewrite exec_at. step.
    match goal with |- context [returned (Num efault) ?u] => exists (setr R1 (Num (u64 0)) (returned (Num efault) u)) end.
    exists (put_cell (0 + off) (repeat 0 (Z.to_nat n)) b), false, t, (repeat 0 (Z.to_nat n)). split; [reflexivity|]. split; [eapply keeps_trans; [apply (K2 (Some (put_cell (0 + off) (repeat 0 (Z.to_nat n)) b)) (Num efault))|now apply keeps_setr]|].
    split; [change (maps s1 = maps s); exact M1|]. split; [change (submitted s1 = submitted s); exact U1|]. split; [destruct (F2 (repeat 0 (Z.to_nat n)) (Num efault)); split; assumption|].
    split; [exact O|]. split; [exact Hh|]. split; [exact Hn'|]. rewrite Ek. now split.
Qed.

Lemma filling_frame mask b s s' : frame tmp s s' -> filling mask b s -> filling mask b s'.
Proof.
  intros Ft [Fm Fs Fa Fc Fr]. assert (Ha : forall a, -120 <= a -> apart a 8 tmp) by (intros a Ha; unfold apart, tmp; apply List.Forall_cons; [lia|constructor]). split.
  - rewrite (ldst_frame _ _ _ _ _ Ft); [exact Fm|now apply Ha].
  - rewrite (ldst_frame _ _ _ _ _ Ft); [exact Fs|now apply Ha].
  - exact (frame_args _ _ _ Ft tmp_apart Fa).
  - exact (ctx_ok_frame _ _ _ Ft Fc).
  - rewrite (fr_resv _ _ _ Ft). exact Fr.
Qed.

Lemma exec_bytes l v off bit label mask b s :
  mem_ok -> label = B "rec_key" \/ label = B "rec_value" -> filling mask b s -> in_u64 mask -> 0 <= bit < 16 -> bytes_ok v s -> 0 <= off < 2 ^ 15 -> off + BLen v <= len b ->
  exists s' b' (r : bool) bs, exec (emitRecordBytes v off bit label ++ l) None s = exec l None s' /\ keeps entry_window s s' /\ maps s' = maps s /\ submitted s' = submitted s /\
    filling (if r then Z.lor mask bit else mask) b' s' /\ rest_kept off (off + BLen v) b b' /\ has b' off bs /\ len bs = BLen v /\ bytes_read v s r bs.
Proof.
  intros Hmem Hlab F Hm Hbit (Hn & Habs & Hpres) Ho Hl. unfold emitRecordBytes, bytes_read. destruct (negb (Bytes_Present v) || (BLen v =? 0)) eqn:E.
  { assert (Hz : BLen v = 0). { apply orb_prop in E as [E|E]; [apply negb_true_iff in E; auto|lia]. }
    exists s, b, false, []. splits; auto using keeps_refl, rest_refl. apply has_nil. lia. }
  apply orb_false_iff in E as [E1 E2]. apply negb_false_iff in E1. destruct (Hpres E1) as [Hi Hdir]. unfold Bytes_Present in E1. destruct (BPointer v) eqn:Ep; cbn [negb].
  - rewrite <- app_assoc. destruct F as [Fm Fs Fa Fc Fr] eqn:EF. clear EF.
    assert (Hlabs : has_text (label ++ B "_null") = true /\ has_text (label ++ B "_read") = true /\ has_text (label ++ B "_done") = true /\ label ++ B "_null" <> label ++ B "_read").
    { destruct Hlab as [->| ->]; splits; easy. }
    destruct Hlabs as (Tn & Tr & Td & Hne).
    match goal with |- context [exec (emitArgPointerLoad _ _ ++ ?r) None s] =>
      destruct (exec_pointer r (BParamIndex v) (label ++ B "_null") s Fa ltac:(lia) Tn Fc) as (s1 & E & Hr3 & Ft & M1 & C1) end.
    assert (F1 : filling mask b s1) by exact (filling_frame _ _ _ _ Ft F).
    assert (Hread : forall pend a, pend = None /\ getr R3 s1 = Some (Num a) \/ pend = Some (label ++ B "_null") /\ a = 0 -> _) by
      exact (fun pend a Hp => exec_read l (BLen v) off bit _ _ _ pend a mask b s1 Hmem Tn Tr Td Hne Hp F1 Hm Hbit ltac:(lia) Ho Hl).
    assert (Hfin : exists pend, (pend = None /\ getr R3 s1 = Some (Num (default 0 (arg (BParamIndex v) s))) \/ pend = Some (label ++ B "_null") /\ default 0 (arg (BParamIndex v) s) = 0) /\
      match arg (BParamIndex v) s with Some _ => exec (read_code (BLen v) off bit (label ++ B "_null") (label ++ B "_read") (label ++ B "_done") ++ l) None s1
      | None => exec (read_code (BLen v) off bit (label ++ B "_null") (label ++ B "_read") (label ++ B "_done") ++ l) (Some (label ++ B "_null")) s1 end =
      exec (read_code (BLen v) off bit (label ++ B "_null") (label ++ B "_read") (label ++ B "_done") ++ l) pend s1).
    { destruct (arg (BParamIndex v) s) as [w|]; [exists None|exists (Some (label ++ B "_null"))]; (split; [|reflexivity]); [left|right]; split; auto. }
    destruct Hfin as (pend & Hp & Epend). destruct (Hread pend _ Hp) as (s2 & b2 & r & t & bs & E3 & K3 & M3 & U3 & F3 & O3 & H3 & L3 & R3').
    exists s2, b2, r, bs. split; [|split; [|split; [|split; [|split; [|split; [|split; [|split]]]]]]]; try assumption.
    + change (exec (emitArgPointerLoad (BParamIndex v) (label ++ B "_null") ++ read_code (BLen v) off bit (label ++ B "_null") (label ++ B "_read") (label ++ B "_done") ++ l) None s = exec l None s2).
      etransitivity; [exact E|]. etransitivity; [exact Epend|]. exact E3.
    + apply (keeps_trans _ _ s1); [|exact K3]. apply keeps_frame. apply (frame_incl tmp); [|exact Ft]. intros x Hx. apply list_elem_of_singleton in Hx as ->. left.
    + congruence.
    + rewrite U3. exact (fr_submitted _ _ _ Ft).
    + exists t. destruct (kbytes _ _ _); exact R3'.
  - destruct (Hdir ltac:(lia) eq_refl) as [Hs Hw]. destruct (lookup_lt_is_Some_2 (words s) (Z.to_nat (BParamIndex v))) as [w Ew]; [lia|].
    destruct (exec_scalar l (BParamIndex v) (BLen v) off bit mask b w s) as (s1 & b1 & E & K & M & U & F1 & O1 & H1); auto; try lia.
    exists s1, b1, true, (le (Z.to_nat (BLen v)) w). splits; auto; [unfold len; rewrite le_length; lia|now exists w].
Qed.

(** A number that is zero unless its argument is there. *)
Lemma exec_number l c size off bit mask b s :
  filling mask b s -> in_u64 mask -> 0 <= bit < 16 -> access_size size -> scalar_ok c s -> 0 <= off -> off + size <= len b -> has b off (le (Z.to_nat size) 0) ->
  exists s' b' (r : bool) x, exec ((if Scalar_Present c then emitRecordScalar (SParamIndex c) size off bit else []) ++ l) None s = exec l None s' /\
    keeps entry_window s s' /\ maps s' = maps s /\ submitted s' = submitted s /\ filling (if r then Z.lor mask bit else mask) b' s' /\
    rest_kept off (off + size) b b' /\ has b' off (le (Z.to_nat size) x) /\ scalar_read c s r x.
Proof.
  intros F Hm Hbit Hs Hc Ho Hl Hz. unfold scalar_read, scalar_ok in *. destruct (Scalar_Present c) eqn:E.
  - destruct (Hc eq_refl) as [Hi Hw]. unfold Scalar_Present in E. destruct (lookup_lt_is_Some_2 (words s) (Z.to_nat (SParamIndex c))) as [w Ew]; [lia|].
    destruct (exec_scalar l (SParamIndex c) size off bit mask b w s) as (s1 & b1 & E1 & K & M & U & F1 & O1 & H1); auto; try lia.
    exists s1, b1, true, w. splits; auto.
  - exists s, b, false, 0. splits; auto using keeps_refl, rest_refl.
Qed.

(** Zeroing before the reads, and the lengths. *)
Lemma exec_entry_start l klen vlen b s :
  getr R0 s = Some (Ptr Reserved 0) -> ldst reservedSlot 8 s = Some (Ptr Reserved 0) -> args_saved s -> ctx_ok s -> resv s = Some b -> 56 <= len b ->
  0 <= klen < 2 ^ 16 -> 0 <= vlen < 2 ^ 16 ->
  exists s' b', exec ([Imm Mov R1 0; StoreMem RFP recordValidSlot R1 DWord] ++ zero_words (metadataSize + EntryOffSite) 1 ++ zero_words (metadataSize + EntryOffStatus) 2 ++
      [StoreImm R0 (metadataSize + EntryOffKeyLen) klen Half; StoreImm R0 (metadataSize + EntryOffValueLen) vlen Half] ++ l) None s = exec l None s' /\
    keeps entry_window s s' /\ maps s' = maps s /\ submitted s' = submitted s /\ filling 0 b' s' /\ rest_kept 40 56 b b' /\
    has b' 40 (le 4 0) /\ has b' 44 (le 2 klen) /\ has b' 46 (le 2 vlen) /\ has b' 48 (le 8 0).
Proof.
  intros Hr Hs Ha Hc Hb Hl Hk Hv. cbn [app zero_words map seq]. unfold recordValidSlot. change (metadataSize + EntryOffSite + 4 * Z.of_nat 0) with 40.
  change (metadataSize + EntryOffStatus + 4 * Z.of_nat 0) with 48. change (metadataSize + EntryOffStatus + 4 * Z.of_nat 1) with 52.
  change (metadataSize + EntryOffKeyLen) with 44. change (metadataSize + EntryOffValueLen) with 46. do 2 step. change (u64 0) with 0.
  destruct (put_field 40 4 44 0 b) as (b1 & E1 & O1 & H1); [lia|lia|lia|]. pose proof (proj1 O1) as L1.
  destruct (put_field 48 4 52 0 b1) as (b2 & E2 & O2 & H2); [lia|lia|lia|]. pose proof (proj1 O2) as L2.
  destruct (put_field 52 4 56 0 b2) as (b3 & E3 & O3 & H3); [lia|lia|lia|]. pose proof (proj1 O3) as L3.
  destruct (put_field 44 2 46 klen b3) as (b4 & E4 & O4 & H4); [lia|lia|lia|]. pose proof (proj1 O4) as L4.
  destruct (put_field 46 2 48 vlen b4) as (b5 & E5 & O5 & H5); [lia|lia|lia|].
  erewrite exec_storei_resv; [|regs|exact Hb|lia|cbn [Sizeof]; lia|reflexivity]. change (u64 0) with 0. change (Z.to_nat (Sizeof Word)) with 4%nat. rewrite E1.
  erewrite exec_storei_resv; [|regs|reflexivity|lia|cbn [Sizeof]; lia|reflexivity]. change (u64 0) with 0. change (Z.to_nat (Sizeof Word)) with 4%nat. rewrite E2.
  erewrite exec_storei_resv; [|regs|reflexivity|lia|cbn [Sizeof]; lia|reflexivity]. change (u64 0) with 0. change (Z.to_nat (Sizeof Word)) with 4%nat. rewrite E3.
  erewrite exec_storei_resv; [|regs|reflexivity|lia|cbn [Sizeof]; lia|reflexivity]. rewrite (u64_small klen) by (unfold in_u64, two64; lia). change (Z.to_nat (Sizeof Half)) with 2%nat. rewrite E4.
  erewrite exec_storei_resv; [|regs|reflexivity|lia|cbn [Sizeof]; lia|reflexivity]. rewrite (u64_small vlen) by (unfold in_u64, two64; lia). change (Z.to_nat (Sizeof Half)) with 2%nat. rewrite E5.
  eexists _, b5. split; [reflexivity|]. split; [keeps_steps|]. split; [reflexivity|]. split; [reflexivity|]. split; [|split].
  - unfold reservedSlot in *. split; [unfold recordValidSlot; slots|unfold reservedSlot; slots|unfold args_saved in *; slots|exact Hc|reflexivity].
  - apply (rest_trans _ _ _ b1); [now apply (rest_wider 40 44)|]. apply (rest_trans _ _ _ b2); [now apply (rest_wider 48 52)|]. apply (rest_trans _ _ _ b3); [now apply (rest_wider 52 56)|].
    apply (rest_trans _ _ _ b4); [now apply (rest_wider 44 46)|now apply (rest_wider 46 48)].
  - assert (H2' : has b5 48 (le 4 0)) by (repeat first [assumption | eapply rest_has; [first [exact O5|exact O4|exact O3]| |lia]]).
    assert (H3' : has b5 52 (le 4 0)) by (repeat first [assumption | eapply rest_has; [first [exact O5|exact O4]| |lia]]).
    splits; try (change (le 8 0) with (le 4 0 ++ le 4 0); now apply has_app); repeat first [assumption | eapply rest_has; [first [exact O5|exact O4|exact O3|exact O2]| |lia]].
Qed.

(** ** The block *)

Definition entry_mask (site status key value : bool) : Z := Z.b2z site + 2 * Z.b2z status + 4 * Z.b2z key + 8 * Z.b2z value.

Definition entry_block (lay : Layout) (mask site status : Z) (key value : list Z) : list Z :=
  le 2 (Layout_Size lay) ++ [BlockVersion; KindEntry] ++ le 4 mask ++ le 4 site ++ le 2 (BLen (Key lay)) ++ le 2 (BLen (Value lay)) ++ le 8 status ++ key ++ value.

(** The block an entry's state gives. *)
Definition entry_holds (lay : Layout) (s : st) (blk : list Z) : Prop :=
  exists (r1 r2 r3 r4 : bool) site status key value, scalar_read (Site lay) s r1 site /\ scalar_read (Status lay) s r2 status /\
    bytes_read (Key lay) s r3 key /\ bytes_read (Value lay) s r4 value /\ len key = BLen (Key lay) /\ len value = BLen (Value lay) /\
    blk = entry_block lay (entry_mask r1 r2 r3 r4) site status key value.

Definition entry_ok (lay : Layout) (s : st) : Prop := scalar_ok (Site lay) s /\ scalar_ok (Status lay) s /\ bytes_ok (Key lay) s /\ bytes_ok (Value lay) s.

Lemma entry_window_args : apart (-48) 8 entry_window.
Proof. unfold apart, entry_window. repeat (apply List.Forall_cons; [lia|]). apply List.Forall_nil. Qed.

(** What the reads look at is not written. *)
Lemma reads_keep w s s' : keeps w s s' ->
  (forall c r x, scalar_read c s' r x <-> scalar_read c s r x) /\ (forall b r bs, bytes_read b s' r bs <-> bytes_read b s r bs) /\
  (forall c, scalar_ok c s' <-> scalar_ok c s) /\ (forall b, bytes_ok b s' <-> bytes_ok b s).
Proof.
  intros [_ _ W N]. unfold scalar_read, bytes_read, scalar_ok, bytes_ok, arg. rewrite W, N. tauto.
Qed.

Lemma exec_entry_code l lay b s :
  mem_ok -> LMode lay <> ModeFilter -> entry_ok lay s -> gate_ready s -> getr R0 s = Some (Ptr Reserved 0) -> ldst reservedSlot 8 s = Some (Ptr Reserved 0) -> resv s = Some b ->
  metadataSize + Layout_Size lay <= len b ->
  exists s' b' (r1 r2 r3 r4 : bool) site status key value, exec (entry_block_code lay ++ l) None s = exec l None s' /\ keeps entry_window s s' /\ maps s' = maps s /\
    submitted s' = submitted s /\ getr R0 s' = Some (Ptr Reserved 0) /\ resv s' = Some b' /\ rest_kept 36 (metadataSize + Layout_Size lay) b b' /\
    scalar_read (Site lay) s r1 site /\ scalar_read (Status lay) s r2 status /\ bytes_read (Key lay) s r3 key /\ bytes_read (Value lay) s r4 value /\
    len key = BLen (Key lay) /\ len value = BLen (Value lay) /\
    has b' 36 (le 4 (entry_mask r1 r2 r3 r4) ++ le 4 site ++ le 2 (BLen (Key lay)) ++ le 2 (BLen (Value lay)) ++ le 8 status ++ key ++ value).
Proof.
  intros Hmem Hmode (Os & Ot & Ok & Ov) [Hctx Hargs] Hr Hslot Hb Hsize. assert (Hsz : Layout_Size lay = 24 + BLen (Key lay) + BLen (Value lay)) by (unfold Layout_Size; now rewrite bool_decide_false by exact Hmode).
  pose proof (proj1 Ok) as Rk. pose proof (proj1 Ov) as Rv. unfold MaxBytesLimit, metadataSize in *. unfold entry_block_code. rewrite <- !app_assoc.
  match goal with |- context [[StoreImm R0 _ _ Half; StoreImm R0 _ _ Half] ++ ?r] =>
    destruct (exec_entry_start r (BLen (Key lay)) (BLen (Value lay)) b s Hr Hslot Hargs Hctx Hb ltac:(lia) ltac:(lia) ltac:(lia)) as (s0 & b0 & E0 & K0 & M0 & U0 & F0 & O0 & Z1 & Z2 & Z3 & Z4) end.
  rewrite E0. clear E0. pose proof (proj1 O0) as L0. destruct (reads_keep _ _ _ K0) as (S0 & B0 & S0' & B0').
  change (metadataSize + EntryOffSite) with 40. change (metadataSize + EntryOffStatus) with 48. change (metadataSize + EntryOffBytes) with 56.
  match goal with |- context [exec ((if Scalar_Present (Site lay) then _ else _) ++ ?r) None s0] =>
    destruct (exec_number r (Site lay) 4 40 (2 ^ ValidSite) 0 b0 s0) as (s1 & b1 & r1 & site & E1 & K1 & M1 & U1 & F1 & O1 & H1 & R1') end;
    [exact F0|easy|easy|unfold access_size; lia|now apply S0'|lia|lia|exact Z1|].
  rewrite E1. clear E1. pose proof (proj1 O1) as L1. assert (Q1 : in_u64 (if r1 then Z.lor 0 (2 ^ ValidSite) else 0)) by (now destruct r1).
  assert (K01 : keeps entry_window s s1) by (now apply (keeps_trans _ _ s0)). destruct (reads_keep _ _ _ K01) as (S1 & B1 & S1' & B1').
  match goal with |- context [exec ((if Scalar_Present (Status lay) then _ else _) ++ ?r) None s1] =>
    destruct (exec_number r (Status lay) 8 48 (2 ^ ValidStatus) _ b1 s1 F1 Q1) as (s2 & b2 & r2 & status & E2 & K2 & M2 & U2 & F2 & O2 & H2 & R2') end;
    [easy|unfold access_size; lia|now apply S1'|lia|lia|apply (rest_has _ _ _ _ _ _ _ O1); [exact Z4|lia]|].
  rewrite E2. clear E2. pose proof (proj1 O2) as L2. assert (Q2 : in_u64 (if r2 then Z.lor (if r1 then Z.lor 0 (2 ^ ValidSite) else 0) (2 ^ ValidStatus) else if r1 then Z.lor 0 (2 ^ ValidSite) else 0)) by (now destruct r1, r2).
  assert (K02 : keeps entry_window s s2) by (now apply (keeps_trans _ _ s1)). destruct (reads_keep _ _ _ K02) as (S2 & B2 & S2' & B2').
  match goal with |- context [exec (emitRecordBytes (Key lay) _ _ _ ++ ?r) None s2] =>
    destruct (exec_bytes r (Key lay) 56 (2 ^ ValidKey) (B "rec_key") _ b2 s2 Hmem (or_introl eq_refl) F2 Q2) as (s3 & b3 & r3 & key & E3 & K3 & M3 & U3 & F3 & O3 & H3 & N3 & R3') end;
    [easy|now apply B2'|lia|lia|].
  rewrite E3. clear E3. pose proof (proj1 O3) as L3. set (m2 := if r2 then _ else _) in *. assert (Q3 : in_u64 (if r3 then Z.lor m2 (2 ^ ValidKey) else m2)) by (unfold m2; now destruct r1, r2, r3).
  assert (K03 : keeps entry_window s s3) by (now apply (keeps_trans _ _ s2)). destruct (reads_keep _ _ _ K03) as (S3 & B3 & S3' & B3').
  rewrite (i16_small (BLen (Key lay))), (i16_small (56 + _)) by lia.
  match goal with |- context [exec (emitRecordBytes (Value lay) _ _ _ ++ ?r) None s3] =>
    destruct (exec_bytes r (Value lay) (56 + BLen (Key lay)) (2 ^ ValidValue) (B "rec_value") _ b3 s3 Hmem (or_intror eq_refl) F3 Q3) as (s4 & b4 & r4 & value & E4 & K4 & M4 & U4 & F4 & O4 & H4 & N4 & R4') end;
    [easy|now apply B3'|lia|lia|].
  rewrite E4. clear E4. pose proof (proj1 O4) as L4. set (m3 := if r3 then _ else _) in *. assert (K04 : keeps entry_window s s4) by (now apply (keeps_trans _ _ s3)).
  destruct F4 as [Fm Fs Fa Fc Fr]. unfold recordValidSlot, reservedSlot in Fm, Fs. cbn [app]. unfold recordValidSlot, reservedSlot.
  erewrite exec_load_stack; [|discriminate|regs|reflexivity|exact Fm]. erewrite exec_load_stack; [|discriminate|regs|reflexivity|rewrite ldst_setr; exact Fs].
  change (metadataSize + OffValid) with 36. destruct (put_field 36 4 40 (if r4 then Z.lor m3 (2 ^ ValidValue) else m3) b4) as (b5 & E5 & O5 & H5); [lia|lia|lia|].
  erewrite exec_store_resv; [|regs|regs|exact Fr|lia|cbn [Sizeof]; lia|reflexivity]. change (Z.to_nat (Sizeof Word)) with 4%nat. rewrite E5.
  eexists _, b5, r1, r2, r3, r4, site, status, key, value. split; [reflexivity|]. split; [keeps_steps; exact K04|]. split; [cbn; congruence|]. split; [cbn; congruence|]. split; [regs|].
  split; [reflexivity|]. split; [|split; [|split; [|split; [|split; [|split; [|split]]]]]]; [|now apply S0|now apply S1|now apply B2|now apply B3|exact N3|exact N4|].
  - unfold metadataSize. rewrite Hsz. apply (rest_trans _ _ _ b0); [apply (rest_wider 40 56); auto; lia|]. apply (rest_trans _ _ _ b1); [apply (rest_wider 40 44); auto; lia|].
    apply (rest_trans _ _ _ b2); [apply (rest_wider 48 56); auto; lia|]. apply (rest_trans _ _ _ b3); [apply (rest_wider 56 (56 + BLen (Key lay))); auto; lia|].
    apply (rest_trans _ _ _ b4); [apply (rest_wider (56 + BLen (Key lay)) (56 + BLen (Key lay) + BLen (Value lay))); auto; lia|apply (rest_wider 36 40); auto; lia].
  - replace (if r4 then Z.lor m3 (2 ^ ValidValue) else m3) with (entry_mask r1 r2 r3 r4) in H5 by (unfold m3, m2; now destruct r1, r2, r3, r4).
    apply has_app; [exact H5|]. change (36 + len (le 4 _)) with 40. change (Z.to_nat 4) with 4%nat in *. change (Z.to_nat 8) with 8%nat in *.
    assert (G : forall o n x, 40 <= o -> o + Z.of_nat n <= 56 -> has b2 o (le n x) -> has b5 o (le n x)).
    { intros o n x Ho1 Ho2 Hx. eapply rest_has; [exact O5| |lia]. eapply rest_has; [exact O4| |lia]. eapply rest_has; [exact O3|exact Hx|lia]. }
    assert (Hk : has b5 56 key) by (apply (proj2 (proj2 O5)); [apply (proj2 (proj2 O4)); [exact H3|lia]|lia]). assert (Hv : has b5 (56 + BLen (Key lay)) value) by (apply (proj2 (proj2 O5)); [exact H4|lia]).
    assert (G1 : forall o n x, 44 <= o -> o + Z.of_nat n <= 48 -> has b0 o (le n x) -> has b5 o (le n x)).
    { intros o n x Ho1 Ho2 Hx. apply G; [lia|lia|]. eapply rest_has; [exact O2| |lia]. eapply rest_has; [exact O1|exact Hx|lia]. }
    apply has_app; [apply G; [lia|lia|]; eapply rest_has; [exact O2|exact H1|lia]|]. change (40 + len (le 4 _)) with 44.
    apply has_app; [apply G1; auto; lia|]. change (44 + len (le 2 _)) with 46. apply has_app; [apply G1; auto; lia|]. change (46 + len (le 2 _)) with 48.
    apply has_app; [apply G; [lia|lia|exact H2]|]. change (48 + len (le 8 _)) with 56. apply has_app; [exact Hk|]. now rewrite N3.
Qed.

Lemma exec_entry_block l lay snap b s :
  mem_ok -> LMode lay <> ModeFilter -> entry_ok lay s -> gate_ready s -> getr R0 s = Some (Ptr Reserved 0) -> ldst reservedSlot 8 s = Some (Ptr Reserved 0) -> resv s = Some b ->
  metadataSize + Layout_Size lay <= len b ->
  exists s' b' blk, exec (emitRecordBlock lay snap ++ l) None s = exec l None s' /\ keeps entry_window s s' /\ maps s' = maps s /\ submitted s' = submitted s /\
    getr R0 s' = Some (Ptr Reserved 0) /\ resv s' = Some b' /\ rest_kept metadataSize (metadataSize + Layout_Size lay) b b' /\
    entry_holds lay s blk /\ has b' metadataSize blk /\ len blk = Layout_Size lay.
Proof.
  intros Hmem Hmode Hok Hg Hr Hslot Hb Hsize. unfold emitRecordBlock. rewrite bool_decide_false by exact Hmode. rewrite <- app_assoc.
  assert (Hsz : Layout_Size lay = 24 + BLen (Key lay) + BLen (Value lay)) by (unfold Layout_Size; now rewrite bool_decide_false by exact Hmode).
  destruct Hok as (Os & Ot & Ok & Ov) eqn:EO. clear EO. pose proof (proj1 Ok) as Rk. pose proof (proj1 Ov) as Rv. unfold metadataSize, MaxBytesLimit in *.
  destruct (exec_block_head (entry_block_code lay ++ l) lay b s Hr Hb ltac:(lia) ltac:(lia)) as (b1 & E1 & O1 & H1). rewrite E1. clear E1.
  destruct (exec_entry_code l lay b1 (set_resv (Some b1) s)) as (s2 & b2 & r1 & r2 & r3 & r4 & site & status & key & value & E2 & K2 & M2 & U2 & G2 & V2 & O2 & A1 & A2 & A3 & A4 & N3 & N4 & H2); auto.
  { rewrite (proj1 O1). exact Hsize. }
  assert (K02 : keeps entry_window s s2) by (refine (keeps_trans _ _ _ _ _ K2); now apply keeps_same). unfold metadataSize in *.
  exists s2, b2, (entry_block lay (entry_mask r1 r2 r3 r4) site status key value). splits; try assumption.
  - apply (rest_trans _ _ _ b1); [apply (rest_wider 32 36)|apply (rest_wider 36 (32 + Layout_Size lay))]; auto; lia.
  - now exists r1, r2, r3, r4, site, status, key, value.
  - unfold entry_block. rewrite app_assoc. unfold Layout_Kind in H1. rewrite bool_decide_false in H1 by exact Hmode. apply has_app; [|exact H2].
    apply (proj2 (proj2 O2)); [exact H1|]. left. reflexivity.
  - unfold entry_block, len in *. rewrite !length_app, !le_length. cbn [length]. lia.
Qed.

Lemma entry_led lay s blk : entry_holds lay s blk -> len blk = Layout_Size lay -> 24 <= Layout_Size lay < 2 ^ 16 -> block_led blk.
Proof.
  intros (r1 & r2 & r3 & r4 & site & status & key & value & _ & _ & _ & _ & _ & _ & E) Hl Hs. split; [unfold RecordHeaderSize; lia|]. rewrite Hl, E. unfold entry_block. eexists. reflexivity.
Qed.

(** [CheckBlock] accepts the block. *)
Lemma entry_checked lay s blk :
  LMode lay = ModeEntry -> entry_holds lay s blk -> len blk = Layout_Size lay -> 0 <= BLen (Key lay) <= MaxBytesLimit -> 0 <= BLen (Value lay) <= MaxBytesLimit ->
  CheckBlock lay blk = Ok tt.
Proof.
  intros Hm (r1 & r2 & r3 & r4 & site & status & key & value & _ & _ & _ & _ & N3 & N4 & E) Hl Hk Hv. unfold MaxBytesLimit in *.
  assert (Hsz : Layout_Size lay = 24 + BLen (Key lay) + BLen (Value lay)) by (unfold Layout_Size; now rewrite bool_decide_false by (rewrite Hm; discriminate)).
  assert (R : forall pre n v post, blk = pre ++ le n v ++ post -> 0 <= v < 256 ^ Z.of_nat n -> rd n (length pre) blk = Some v).
  { intros pre n v post -> Hr. rewrite rd_app by reflexivity. rewrite rd_le. now rewrite Z.mod_small. }
  set (m4 := le 4 (entry_mask r1 r2 r3 r4)) in E. unfold entry_block in E. fold m4 in E. set (z2 := le 2 (Layout_Size lay)) in E. set (k2 := le 2 (BLen (Key lay))) in E.
  assert (A0 : rd 2 0 blk = Some (Layout_Size lay)) by (apply (R [] 2%nat _ _ E); change (256 ^ Z.of_nat 2) with 65536; lia).
  assert (A2 : rd 1 2 blk = Some BlockVersion) by (apply (R z2 1%nat BlockVersion ([KindEntry] ++ m4 ++ le 4 site ++ k2 ++ le 2 (BLen (Value lay)) ++ le 8 status ++ key ++ value)); [exact E|easy]).
  assert (A3 : rd 1 3 blk = Some KindEntry) by (apply (R (z2 ++ [BlockVersion]) 1%nat KindEntry (m4 ++ le 4 site ++ k2 ++ le 2 (BLen (Value lay)) ++ le 8 status ++ key ++ value)); [exact E|easy]).
  assert (A12 : rd 2 12 blk = Some (BLen (Key lay))) by (apply (R (z2 ++ [BlockVersion; KindEntry] ++ m4 ++ le 4 site) 2%nat _ (le 2 (BLen (Value lay)) ++ le 8 status ++ key ++ value)); [exact E|change (256 ^ Z.of_nat 2) with 65536; lia]).
  assert (A14 : rd 2 14 blk = Some (BLen (Value lay))) by (apply (R (z2 ++ [BlockVersion; KindEntry] ++ m4 ++ le 4 site ++ k2) 2%nat _ (le 8 status ++ key ++ value)); [exact E|change (256 ^ Z.of_nat 2) with 65536; lia]).
  unfold CheckBlock. rewrite Hl. unfold HeaderSize. replace (Layout_Size lay <? 8) with false by lia. unfold Record.load.
  change (Z.to_nat OffLen) with 0%nat. change (Z.to_nat OffVersion) with 2%nat. change (Z.to_nat OffKind) with 3%nat. change (Z.to_nat EntryOffKeyLen) with 12%nat. change (Z.to_nat EntryOffValueLen) with 14%nat.
  rewrite A0. cbn [getp result_bind]. rewrite Z.eqb_refl. cbn [negb orb]. rewrite A2, A3. unfold Layout_Kind. rewrite bool_decide_false by (rewrite Hm; discriminate).
  cbn [getp result_bind]. rewrite !Z.eqb_refl. cbn [negb orb]. rewrite bool_decide_true by exact Hm. rewrite A12, A14. cbn [getp result_bind]. now rewrite !Z.eqb_refl.
Qed.
End Entry.
