(* ===== verification/CaptureTail.v ===== *)
(** * CaptureTail: what a capture program's tail does

    The tail runs after the filters passed: the barrier of the active tags,
    the record, the counters and the exit. Every run ends, holds no
    reservation, and either submits one record, which the reader parses to
    the packet that was seen, or submits nothing and says why in a
    counter. *)

From Stdlib Require Import ZArith Lia Bool Ascii String List.
From stdpp Require Import base list strings numbers option gmap.
From S2P Require Import Prelude GoStd GoBytes HookAbi RawSample Record RecordBuild Asm Ebpf EbpfFacts Helpers RingHelpers.
From S2P Require Import Gate GateFacts Capture CaptureFacts CaptureBlock CaptureSample CaptureRun.
Local Open Scope Z_scope.

(** A fragment keeps what is apart from more than it writes. *)
Ltac wider :=
  let a := fresh "a" in let n := fresh "n" in let Ha := fresh "Ha" in
  intros a n Ha; unfold apart in *; repeat (apply Forall_cons in Ha as [? Ha]);
  repeat (apply List.Forall_cons; [lia|]); apply List.Forall_nil.

Ltac away := unfold apart, body_window, block_window, ring_window, reservedSlot, tagSlot, savedReturnSlot, wakeFlagSlot;
  repeat (apply List.Forall_cons; [lia|]); apply List.Forall_nil.

(** What the gate and the prologue leave for the tail. *)
Record inputs := mkInputs { i_action : Z; i_tag : Z; i_orig : Z; i_len : Z; i_addr : Z }.

Section Tail.
Context `{HK : Rings}.
Variables (NoWakeup : bool) (eventsFD statsFD gateFD : Z) (isFexit : bool) (maxCapLen : Z) (rec : option Layout) (siteID : Z) (snap : fieldSnap).
Variables (Pre : st -> Prop) (good : option (list Z) -> Prop).
Hypothesis Hblock : block_runs rec snap Pre good.

Definition cap : Z := if maxCapLen <=? 0 then defaultCapLen else maxCapLen.

Hypothesis Hcap : cap < 2 ^ 16.
Hypothesis Hsite : 0 <= siteID < 256.

Definition submit_code : list Instruction := [LoadMem R1 RFP (-32) DWord; ringbufSubmitFlag NoWakeup; BuiltinCall FnRingbufSubmit].
Definition reserve_size : Z := metadataSize + block_size rec + cap.

Lemma cap_range : 0 < cap < 2 ^ 16.
Proof. split; [|exact Hcap]. unfold cap, defaultCapLen. destruct (Z.leb_spec maxCapLen 0); lia. Qed.

Lemma data_off_size : data_off rec = metadataSize + block_size rec.
Proof.
  pose proof (br_size _ _ _ _ Hblock) as Hs. unfold data_off, block_size, metadataSize in *. destruct rec as [lay|]; [|reflexivity].
  rewrite (i32_small (Layout_Size lay)), i32_small by lia. reflexivity.
Qed.

Lemma capture_shape :
  captureWithRecord NoWakeup eventsFD statsFD isFexit maxCapLen [Imm Mov R1 0] origLenFromR8 rec siteID snap =
  clock_code ++ emitShardedRBReserve NoWakeup eventsFD statsFD reserve_size ++ block_code rec snap ++ meta_code isFexit rec siteID cap ++
  copy_code (data_off rec) ++ submit_code.
Proof.
  unfold captureWithRecord. fold cap. rewrite data_off_size. pose proof cap_range as Hc. pose proof (br_size _ _ _ _ Hblock) as Hs.
  rewrite (i32_small cap), i32_small by (unfold metadataSize; lia). unfold reserve_size, meta_code, block_code, submit_code. now rewrite <- !app_assoc.
Qed.

Lemma meta_symbols label : has_text label = true -> label <> B "rb_cap_ok" -> label ∉ symbols (meta_code isFexit rec siteID cap ++ copy_code (data_off rec) ++ submit_code).
Proof.
  intros Ht Hn. assert (He : label <> []) by (intros ->; discriminate). unfold meta_code, action_code, submit_code, ringbufSubmitFlag.
  destruct isFexit, NoWakeup; cbn; repeat (apply not_elem_of_cons; split; [assumption|]); apply not_elem_of_nil.
Qed.

Lemma rest_over l label s :
  In label [B "exit"; B "rb_fail"; B "rb_lookup_fail"; B "rb_copy_fail"] ->
  exec (block_code rec snap ++ meta_code isFexit rec siteID cap ++ copy_code (data_off rec) ++ submit_code ++ l) (Some label) s = exec l (Some label) s.
Proof.
  intros Hin. rewrite exec_over by exact (br_labels _ _ _ _ Hblock label Hin). rewrite !(app_assoc _ _ l), !app_assoc, <- (app_assoc (meta_code _ _ _ _)).
  apply exec_over. cbn [In] in Hin. apply meta_symbols; destruct Hin as [<-|[<-|[<-|[<-|[]]]]]; easy.
Qed.

Lemma lookup_label : In (lookupSym statsFD) [B "exit"; B "rb_fail"; B "rb_lookup_fail"; B "rb_copy_fail"].
Proof. unfold lookupSym. destruct (0 <? statsFD); cbn; auto. Qed.
Lemma fail_label : In (failSym statsFD) [B "exit"; B "rb_fail"; B "rb_lookup_fail"; B "rb_copy_fail"].
Proof. unfold failSym. destruct (0 <? statsFD); cbn; auto. Qed.

(** ** The record *)

Definition tail_ready (i : inputs) (s : st) : Prop :=
  action_of isFexit s = Some (i_action i) /\ ldst tagSlot 8 s = Some (Num (i_tag i)) /\ getr R8 s = Some (Num (i_orig i)) /\
  getr R9 s = Some (Num (i_len i)) /\ getr R7 s = Some (Num (i_addr i)) /\ in_u64 (i_len i) /\
  resv s = None /\ maps s !! eventsFD = None /\ counters_ok statsFD s /\ Pre s.

(** The record of a packet seen at [t] with [data] read and block [blk]. *)
Definition sample_of (i : inputs) (t : Z) (data : list Z) (blk : option (list Z)) : sample :=
  mkSample t (u32 (i_action i)) (if isFexit then 1 else 0) siteID (Z.min (i_len i) cap) (u32 (i_tag i)) 0 (u32 (i_orig i)) blk data.

(** What a run of the body ends in. *)
Definition ended (e : ending) (i : inputs) (s s' : st) : Prop :=
  match e with
  | NoRing => has_ring eventsFD (le 4 cpu) = false /\ submitted s' = submitted s
  | NoRoom => has_ring eventsFD (le 4 cpu) = true /\ submitted s' = submitted s /\ exists t, room eventsFD (le 4 cpu) reserve_size t = None
  | Faulted => has_ring eventsFD (le 4 cpu) = true /\ submitted s' = submitted s /\ exists t, kbytes t (i_addr i) (Z.to_nat (Z.min (i_len i) cap)) = None
  | Submitted => has_ring eventsFD (le 4 cpu) = true /\ exists t0 t data blk raw fl,
      kbytes t (i_addr i) (Z.to_nat (Z.min (i_len i) cap)) = Some data /\ good blk /\ submitted s' = submitted s ++ [(raw, fl)] /\
      written (sample_of i (now t0) data blk) raw /\ sample_ok (sample_of i (now t0) data blk)
  end.

Lemma flag_keeps w s s' : keeps w s s' -> apart wakeFlagSlot 8 w -> flag_ready NoWakeup s -> flag_ready NoWakeup s'.
Proof. intros K Ha [Hw|[fl Hf]]; [now left|right]. exists fl. now rewrite (ldst_keeps _ _ _ _ _ K). Qed.

Lemma action_keeps w s s' : keeps w s s' -> apart savedReturnSlot 4 w -> action_of isFexit s' = action_of isFexit s.
Proof. intros K Ha. unfold action_of. destruct isFexit; [|reflexivity]. now rewrite (ldst_keeps _ _ _ _ _ K). Qed.

Lemma u32_byte4 z : le 4 (u32 z) = le 4 z.
Proof. apply (le_mod 4). Qed.


Lemma sample_of_ok i t data blk tm :
  in_u64 t -> kbytes tm (i_addr i) (Z.to_nat (Z.min (i_len i) cap)) = Some data -> 0 <= i_len i -> sample_ok (sample_of i t data blk).
Proof.
  intros Ht Hd Hn. pose proof cap_range as Hc. apply kbytes_length in Hd. unfold sample_ok, sample_of. cbn [s_time s_action s_mode s_site s_caplen s_tag s_id s_orig s_data].
  assert (Hl : len data = Z.min (i_len i) cap) by (unfold len; rewrite Hd; lia). splits; try assumption; try (apply Z.mod_pos_bound; reflexivity); try (unfold in_u64, two64; lia).
  all: destruct isFexit; lia.
Qed.

(** The buffer after the metadata and the copy. *)
Lemma written_put b1 b2 i t data blk :
  rest_kept 0 32 b1 b2 -> has b2 0 (le 8 t) -> has b2 8 (le 4 (i_action i)) -> has b2 12 (le 1 (mode_of isFexit rec)) -> has b2 13 (le 1 siteID) ->
  has b2 14 (le 2 (Z.min (i_len i) cap)) -> has b2 16 (le 4 (i_tag i)) -> has b2 20 (le 8 0) -> has b2 28 (le 4 (i_orig i)) ->
  match rec, blk with
  | Some lay, Some blk => has b1 metadataSize blk /\ len blk = Layout_Size lay /\ block_led blk
  | None, None => True
  | _, _ => False
  end ->
  len data <= cap -> len b2 = 32 + block_size rec + cap -> len b1 = len b2 ->
  written (sample_of i t data blk) (put_cell (data_off rec) data b2).
Proof.
  intros O2 F1 F2 F3 F4 F5 F6 F7 F8 Hblk Hd L2 L1. pose proof (br_size _ _ _ _ Hblock) as Hsz. pose proof data_off_size as Hoff. unfold metadataSize in *.
  assert (Hmeta : forall o n v, has b2 o (le n v) -> o + Z.of_nat n <= 32 -> has (put_cell (data_off rec) data b2) o (le n v)).
  { intros o n v Hx Hb. apply has_put_other; [exact Hx|lia|lia|]. left. unfold len. rewrite le_length. lia. }
  assert (Hdata : has (put_cell (data_off rec) data b2) (data_off rec) data) by (apply has_put_same; lia).
  unfold written, sample_of, sample_start, metadataSize. cbn [s_time s_action s_mode s_site s_caplen s_tag s_id s_orig s_block s_data]. rewrite !u32_byte4.
  splits; try (apply Hmeta; [assumption|lia]).
  - unfold mode_of in F3. destruct rec, blk; try contradiction; apply Hmeta; try exact F3; lia.
  - destruct rec as [lay|], blk as [blk|]; try contradiction; auto. destruct Hblk as (Hb & Hn & Hl). split; [|exact Hl]. cbn [block_size] in *.
    apply has_put_other; [apply O2; [exact Hb|lia]|lia|lia|lia].
  - destruct rec as [lay|], blk as [blk|]; try contradiction; cbn [block_size] in *; rewrite ?(proj1 (proj2 Hblk)); rewrite Hoff in Hdata at 2; rewrite ?Z.add_0_r in Hdata; exact Hdata.
Qed.

(** After the reserve: the block, the metadata, the copy and the submit. *)
Lemma exec_rest l i b t0 s :
  tail_ready i (set_resv None s) -> ldst (-56) 8 s = Some (Num (now t0)) ->
  getr R0 s = Some (Ptr Reserved 0) -> ldst reservedSlot 8 s = Some (Ptr Reserved 0) -> flag_ready NoWakeup s -> resv s = Some b -> Forall byte b ->
  len b = reserve_size -> has_ring eventsFD (le 4 cpu) = true ->
  exists e s', exec (block_code rec snap ++ meta_code isFexit rec siteID cap ++ copy_code (data_off rec) ++ submit_code ++ l) None s = exec l (ending_label statsFD e) s' /\
    ending_ready NoWakeup e s' /\ keeps body_window s s' /\ maps s' = maps s /\ ended e i s s'.
Proof.
  intros (Ha & Hg & H8 & H9 & H7 & Hn & _ & _ & _ & Hpre) Ht Hr Hs Hf Hb Hby Hlen Hring. pose proof cap_range as Hc.
  pose proof (br_size _ _ _ _ Hblock) as Hsz. unfold reserve_size in Hlen. unfold metadataSize in *.
  assert (HpreS : Pre s) by (apply (br_stable _ _ _ _ Hblock [] (set_resv None s)); [now apply keeps_same|reflexivity|constructor|exact Hpre]).
  destruct (br_run _ _ _ _ Hblock (meta_code isFexit rec siteID cap ++ copy_code (data_off rec) ++ submit_code ++ l) b s) as (s1 & b1 & blk & E1 & K1 & M1 & U1 & R1' & V1 & O1 & Hgood & Hblk); auto.
  { unfold metadataSize. lia. }
  rewrite E1. clear E1. unfold metadataSize in *.
  destruct (exec_meta (copy_code (data_off rec) ++ submit_code ++ l) isFexit rec siteID cap (mkMetadata (now t0) (i_action i) (i_tag i) (i_orig i) (i_len i)) b1 s1)
    as (s2 & b2 & E2 & (K2 & M2 & U2 & C2 & R2' & V2) & R3' & O2 & F1 & F2 & F3 & F4 & F5 & F6 & F7 & F8); auto.
  { unfold meta_ready. splits; cbn [m_time m_action m_tag m_orig m_len].
    - rewrite (ldst_keeps _ _ _ _ _ K1) by away. exact Ht.
    - rewrite (action_keeps _ _ _ K1) by away. exact Ha.
    - rewrite (ldst_keeps _ _ _ _ _ K1) by away. exact Hg.
    - rewrite (ke_regs _ _ _ K1) by (unfold R8; lia). exact H8.
    - rewrite (ke_regs _ _ _ K1) by (unfold R9; lia). exact H9. }
  { rewrite (proj1 O1). lia. }
  { lia. }
  rewrite E2. clear E2. cbn [m_time m_action m_tag m_orig m_len] in *.
  assert (K02 : keeps body_window s s2) by (apply (keeps_trans _ _ s1); [refine (keeps_wider _ _ _ _ _ K1); wider|refine (keeps_wider _ _ _ _ _ K2); wider]).
  assert (L2 : len b2 = 32 + block_size rec + cap) by (rewrite (proj1 O2), (proj1 O1); exact Hlen).
  destruct (exec_copy (submit_code ++ l) (data_off rec) (Z.min (i_len i) cap) (i_addr i) b2 s2 R2' R3') as (s3 & K3 & M3 & U3 & Hcopy); auto.
  { rewrite (ke_regs _ _ _ K02) by (unfold R7; lia). exact H7. }
  { rewrite data_off_size. unfold metadataSize. lia. }
  { unfold in_u64 in Hn. lia. }
  { rewrite data_off_size. unfold metadataSize. lia. }
  assert (K03 : keeps body_window s s3) by (apply (keeps_trans _ _ s2); [exact K02|refine (keeps_wider _ _ _ _ _ K3); constructor]).
  assert (Hs3 : ldst reservedSlot 8 s3 = Some (Ptr Reserved 0)). { rewrite (ldst_keeps _ _ _ _ _ K3), (ldst_keeps _ _ _ _ _ K2), (ldst_keeps _ _ _ _ _ K1) by away. exact Hs. }
  assert (Hf3 : flag_ready NoWakeup s3). { apply (flag_keeps _ _ _ K3); [away|]. apply (flag_keeps _ _ _ K2); [away|]. apply (flag_keeps _ _ _ K1); [away|]. exact Hf. }
  destruct (kbytes (clock s2) (i_addr i) _) as [data|] eqn:Ek.
  - destruct Hcopy as [-> V3]. unfold submit_code. destruct (exec_submit NoWakeup l _ s3 Hs3 Hf3 V3) as (s4 & fl & -> & K4 & M4 & U4 & V4).
    exists Submitted, s4. split; [reflexivity|]. split; [exact V4|]. split; [apply (keeps_trans _ _ s3); [exact K03|refine (keeps_wider _ _ _ _ _ K4); constructor]|].
    split; [congruence|]. split; [exact Hring|]. exists t0, (clock s2), data, blk, (put_cell (data_off rec) data b2), fl.
    split; [exact Ek|]. split; [exact Hgood|]. split; [congruence|]. split; [|apply (sample_of_ok _ _ _ _ (clock s2)); [apply now_u64|exact Ek|unfold in_u64 in Hn; lia]].
    apply kbytes_length in Ek. unfold in_u64 in Hn.
    assert (Hd : len data <= cap) by (unfold len; rewrite Ek; lia). pose proof (proj1 O2) as L12. now apply (written_put b1 b2).
  - destruct Hcopy as [-> [b' V3]]. exists Faulted, s3. split.
    + apply exec_over. unfold submit_code, ringbufSubmitFlag. destruct NoWakeup; cbn; repeat (apply not_elem_of_cons; split; [discriminate|]); apply not_elem_of_nil.
    + splits; try assumption; try congruence; [split; [exact Hs3|split; [exact Hf3|now exists b']]|]. split; [exact Hring|]. split; [congruence|]. now exists (clock s2).
Qed.

(** ** The reserve and the record *)

Lemma exec_body l i s :
  tail_ready i s ->
  exists e s', exec (captureWithRecord NoWakeup eventsFD statsFD isFexit maxCapLen [Imm Mov R1 0] origLenFromR8 rec siteID snap ++ l) None s = exec l (ending_label statsFD e) s' /\
    ending_ready NoWakeup e s' /\ keeps body_window s s' /\ maps s' = maps s /\ ended e i s s'.
Proof.
  intros (Ha & Hg & H8 & H9 & H7 & Hn & Hv & Hev & Hc & Hpre). rewrite capture_shape, <- !app_assoc.
  match goal with |- context [exec (clock_code ++ ?r) None s] => destruct (exec_clock r s) as (s1 & t0 & E1 & K1 & M1 & U1 & V1 & T1 & Hcpu) end. rewrite E1. clear E1.
  match goal with |- context [exec (emitShardedRBReserve _ _ _ _ ++ ?r) None s1] =>
    destruct (exec_reserve NoWakeup r eventsFD statsFD reserve_size (le 4 cpu) s1 Hcpu) as (s2 & K2 & M2 & U2 & C2 & Hres); [now rewrite M1|congruence|] end.
  assert (K02 : keeps body_window s s2) by (apply (keeps_trans _ _ s1); [refine (keeps_wider _ _ _ _ _ K1); wider|refine (keeps_wider _ _ _ _ _ K2); wider]).
  destruct Hres as [(Hr & V2 & E2)|[(Hr & t & Hroom & V2 & E2)|(Hr & t & b & Hroom & V2 & R2' & S2 & F2 & E2)]]; rewrite E2; clear E2.
  - exists NoRing, s2. rewrite rest_over by apply lookup_label. splits; try reflexivity; try assumption; try congruence. split; [exact Hr|congruence].
  - exists NoRoom, s2. rewrite rest_over by apply fail_label. splits; try reflexivity; try assumption; try congruence. split; [exact Hr|]. split; [congruence|]. exists t.
    rewrite u64_small in Hroom; [exact Hroom|]. pose proof cap_range as Hcr. pose proof (br_size _ _ _ _ Hblock) as Hsz. unfold reserve_size, metadataSize, in_u64, two64. lia.
  - pose proof cap_range as Hcr. pose proof (br_size _ _ _ _ Hblock) as Hsz. destruct (room_bytes _ _ _ _ _ Hroom) as [Hlen Hby].
    rewrite u64_small in Hlen by (unfold reserve_size, metadataSize, in_u64, two64; lia).
    destruct (exec_rest l i b t0 s2) as (e & s3 & -> & Hend & K3 & M3 & He); auto.
    { unfold tail_ready. splits; try reflexivity.
      - change (action_of isFexit s2 = Some (i_action i)). rewrite (action_keeps _ _ _ K02) by away. exact Ha.
      - rewrite ldst_set_resv, (ldst_keeps _ _ _ _ _ K02) by away. exact Hg.
      - rewrite getr_set_resv, (ke_regs _ _ _ K02) by (unfold R8; lia). exact H8.
      - rewrite getr_set_resv, (ke_regs _ _ _ K02) by (unfold R9; lia). exact H9.
      - rewrite getr_set_resv, (ke_regs _ _ _ K02) by (unfold R7; lia). exact H7.
      - exact Hn.
      - change (maps s2 !! eventsFD = None). now rewrite M2, M1.
      - intros Hfd. change (maps (set_resv None s2)) with (maps s2). rewrite M2, M1. exact (Hc Hfd).
      - apply (br_stable _ _ _ _ Hblock body_window s); [|change (maps s2 = maps s); congruence|away|exact Hpre].
        apply (keeps_trans _ _ s2); [exact K02|now apply keeps_same]. }
    { rewrite (ldst_keeps _ _ _ _ _ K2) by away. exact T1. }
    exists e, s3. split; [reflexivity|]. split; [exact Hend|]. split; [now apply (keeps_trans _ _ s2)|]. split; [congruence|].
    assert (Us : submitted s2 = submitted s) by congruence. unfold ended in *. rewrite Us in He. exact He.
Qed.

(** ** The tag barrier *)

Definition held (tag : Z) (ms : gmap Z (gmap (list Z) (list Z))) : bool :=
  (0 <? gateFD) && match ms !! gateFD with Some m => bool_decide (is_Some (m !! le 4 tag)) | None => false end.

Definition barrier_ok (s : st) : Prop := 0 < gateFD -> keySize gateFD = 4%nat /\ exists m, maps s !! gateFD = Some m.

Lemma exec_barrier l tag s :
  barrier_ok s -> ldst tagSlot 8 s = Some (Num tag) ->
  exists s', exec (emitTagBarrier gateFD ++ l) None s = exec l (if held tag (maps s) then Some (B "exit") else None) s' /\ keeps [(-16, -12)] s s' /\
    maps s' = maps s /\ submitted s' = submitted s /\ resv s' = resv s.
Proof.
  intros Hok Ht. unfold emitTagBarrier, held. destruct (Z.leb_spec gateFD 0) as [Hfd|Hfd].
  { replace (0 <? gateFD) with false by lia. exists s. splits; auto using keeps_refl. }
  replace (0 <? gateFD) with true by lia. destruct (Hok Hfd) as (Hks & m & Em). rewrite Em. cbn [andb app]. unfold tagSlot in *.
  erewrite exec_load_stack; [|discriminate|regs|reflexivity|exact Ht]. do 5 step.
  erewrite map_lookup; [|regs|regs| |exact Em]. 2: { rewrite Hks. change 4%nat with (length (le 4 tag)). apply bytes_at_wr. reflexivity. }
  change (le (Z.to_nat (Sizeof Word)) tag) with (le 4 tag). destruct (m !! le 4 tag) as [v|] eqn:Ev.
  - erewrite exec_JImm; [|regs|reflexivity|reflexivity]. rewrite bool_decide_true by (now exists v). eexists. split; [reflexivity|]. splits; [keeps_steps|reflexivity..].
  - erewrite exec_JImm; [|regs|reflexivity|reflexivity]. rewrite bool_decide_false by (intros [? ?]; discriminate). cbn [negb Z.eqb]. change (0 =? u64 0) with true. cbn [negb].
    eexists. split; [reflexivity|]. splits; [keeps_steps|reflexivity..].
Qed.

Lemma capture_over l s :
  exec (captureWithRecord NoWakeup eventsFD statsFD isFexit maxCapLen [Imm Mov R1 0] origLenFromR8 rec siteID snap ++ l) (Some (B "exit")) s = exec l (Some (B "exit")) s.
Proof.
  rewrite capture_shape, <- !app_assoc. rewrite (exec_unlabelled clock_code) by (repeat constructor || reflexivity).
  rewrite (exec_unlabelled (emitShardedRBReserve _ _ _ _)); [now rewrite rest_over by (cbn; auto)| |reflexivity].
  unfold emitShardedRBReserve, emitWakeFlag. destruct NoWakeup; repeat constructor.
Qed.

Lemma exec_finish ret s : exists s', exec [WithSymbol (B "exit") (Imm Mov R0 ret); Return] (Some (B "exit")) s = Done s' /\ getr R0 s' = Some (Num (u64 ret)) /\
  maps s' = maps s /\ submitted s' = submitted s /\ resv s' = resv s.
Proof. rewrite exec_at. step. eexists. split; [reflexivity|]. splits; [regs|reflexivity..]. Qed.

(** The whole tail. *)
Lemma tail_ends i ret s :
  tail_ready i s -> barrier_ok s ->
  exists s', exec (finishProgram (capture_tail NoWakeup eventsFD statsFD gateFD isFexit maxCapLen rec siteID snap) ret) None s = Done s' /\
    getr R0 s' = Some (Num (u64 ret)) /\ resv s' = None /\
    if held (i_tag i) (maps s) then maps s' = maps s /\ submitted s' = submitted s
    else exists e, maps s' = count statsFD (ending_stat e) (maps s) /\ ended e i s s'.
Proof.
  intros Hr Hb. pose proof Hr as (Ha & Hg & H8 & H9 & H7 & Hn & Hv & Hev & Hc & Hpre). unfold finishProgram, capture_tail. rewrite <- !app_assoc.
  match goal with |- context [exec (emitTagBarrier gateFD ++ ?r) None s] => destruct (exec_barrier r (i_tag i) s Hb Hg) as (s1 & E1 & K1 & M1 & U1 & V1) end.
  rewrite E1. clear E1. destruct (held (i_tag i) (maps s)).
  - rewrite capture_over, terminals_exit. destruct (exec_finish ret s1) as (s2 & -> & R2' & M2 & U2 & V2). exists s2. splits; congruence.
  - assert (Hr1 : tail_ready i s1).
    { unfold tail_ready. splits; try congruence.
      - rewrite (action_keeps _ _ _ K1) by away. exact Ha.
      - rewrite (ldst_keeps _ _ _ _ _ K1) by away. exact Hg.
      - rewrite (ke_regs _ _ _ K1) by (unfold R8; lia). exact H8.
      - rewrite (ke_regs _ _ _ K1) by (unfold R9; lia). exact H9.
      - rewrite (ke_regs _ _ _ K1) by (unfold R7; lia). exact H7.
      - intros Hfd. rewrite M1. exact (Hc Hfd).
      - apply (br_stable _ _ _ _ Hblock [(-16, -12)] s); [exact K1|exact M1|away|exact Hpre]. }
    match goal with |- context [exec (captureWithRecord _ _ _ _ _ _ _ _ _ _ ++ ?r) None s1] => destruct (exec_body r i s1 Hr1) as (e & s2 & E2 & Hend & K2 & M2 & He) end. rewrite E2. clear E2.
    assert (Hc2 : counters_ok statsFD s2) by (intros Hfd; rewrite M2, M1; exact (Hc Hfd)).
    match goal with |- context [exec (emitExportTerminals _ _ ++ ?r) _ s2] => destruct (exec_terminals NoWakeup r statsFD e s2 Hc2 Hend) as (s3 & E3 & K3 & M3 & U3 & V3) end. rewrite E3. clear E3.
    destruct (exec_finish ret s3) as (s4 & -> & R4 & M4 & U4 & V4). exists s4. split; [reflexivity|]. split; [exact R4|]. split; [congruence|].
    exists e. split; [congruence|]. assert (U : submitted s4 = submitted s2) by congruence. unfold ended in *. rewrite U, <- U1. exact He.
Qed.
End Tail.
