(* ===== verification/CaptureWhole.v ===== *)
(** * CaptureWhole: records from the kernel to the reader

    The three kinds of capture program, without a record block, with a
    filter block and with an entry block, and the theorem on their tail:
    what is submitted is parsed to the packet that was seen. *)

From Stdlib Require Import ZArith Lia Bool Ascii String List.
From stdpp Require Import base list strings numbers option gmap.
From S2P Require Import Prelude GoStd GoBytes HookAbi ArgExpr ArgFilter RawSample Record RecordFacts RecordBuild Asm Ebpf EbpfFacts Helpers RingHelpers.
From S2P Require Import Gate GateFacts GateRecord Capture CaptureFacts CaptureBlock CaptureSample CaptureRun EntryBlock CaptureTail.
Local Open Scope Z_scope.

Section Whole.
Context `{HK : Rings}.

(** The values a filter block is filled from are in the snapshot. *)
Definition snapshot (lay : Layout) (snap : fieldSnap) (vals : list Z) (s : st) : Prop :=
  length vals = length (Fields lay) /\ (length vals <= 32)%nat /\ snap_ready snap s /\ exists sv, snap_value snap s = Some sv /\ slots_hold 0 vals sv.

(** What the code of a record block asks of the state. *)
Definition record_ready (rec : option Layout) (snap : fieldSnap) (vals : list Z) (s : st) : Prop :=
  match rec with
  | Some lay => match LMode lay with
                | ModeFilter => snapshot lay snap vals s
                | ModeEntry => entry_ok lay s /\ gate_ready s
                | ModeNone => False
                end
  | None => True
  end.

(** The block a record of this state carries: one [CheckBlock] accepts. *)
Definition record_block_of (rec : option Layout) (vals : list Z) (s : st) (blk : option (list Z)) : Prop :=
  match rec, blk with
  | Some lay, Some b => CheckBlock lay b = Ok tt /\ match LMode lay with ModeFilter => b = filter_block (map Some vals) | _ => entry_holds lay s b end
  | None, None => True
  | _, _ => False
  end.

Lemma filter_block_led vals : (length vals <= 32)%nat -> block_led (filter_block (map Some vals)).
Proof.
  intros Hl. destruct (filter_block_layout (map Some vals)) as (_ & _ & _ & E). rewrite length_map in E. split; [unfold RecordHeaderSize; lia|]. rewrite E.
  rewrite filter_block_all. eexists. reflexivity.
Qed.

Lemma no_record_runs snap : block_runs None snap (fun _ => True) (record_block_of None [] (mkSt ∅ ∅ [] 0 ∅ None [] 0)).
Proof.
  split; [cbn; lia|auto|intros label _; apply not_elem_of_nil|]. intros l b s _ Hr Hs Hb Hby Hl. exists s, b, None.
  splits; auto using keeps_refl, rest_refl. now cbn.
Qed.

Lemma filter_record_runs lay snap vals : LMode lay = ModeFilter -> length vals = length (Fields lay) -> (length vals <= 32)%nat ->
  forall s0, block_runs (Some lay) snap (snapshot lay snap vals) (record_block_of (Some lay) vals s0).
Proof.
  intros Hm Hlen H32 s0. assert (Hsz : Layout_Size lay = 8 + 8 * Z.of_nat (length vals)) by (unfold Layout_Size, HeaderSize; rewrite bool_decide_true by exact Hm; lia). split.
  - cbn [block_size]. lia.
  - intros w s s' K M _ (H1 & H2 & (R1' & R2' & R3' & b & Hb & Hl) & sv & Hv & Hs). 
    assert (E : snap_value snap s' = snap_value snap s) by (unfold snap_value, value; now rewrite M). unfold snapshot, snap_ready. rewrite E.
    split; [exact H1|]. split; [exact H2|]. split; [split; [exact R1'|split; [exact R2'|split; [exact R3'|now exists b]]]|now exists sv].
  - intros label Hin. assert (Ht : has_text label = true) by (cbn [In] in Hin; destruct Hin as [<-|[<-|[<-|[<-|[]]]]]; reflexivity).
    apply unlabelled_symbols; [|exact Ht]. cbn [block_code]. unfold emitRecordBlock. rewrite bool_decide_true by exact Hm. apply unlabelled_app; [repeat constructor|].
    unfold filter_block_code. apply unlabelled_app; [repeat constructor|]. apply unlabelled_app; [apply unlabelled_flat_map; intros i; repeat constructor|repeat constructor].
  - intros l b s (_ & _ & Hr & sv & Hv & Hs) Hr0 Hslot Hb Hby Hl. cbn [block_code block_size] in *.
    destruct (exec_filter_block l lay snap sv vals b s Hm Hlen H32 Hr Hv Hs Hr0 Hslot Hb Hl) as (s' & b' & E & K & M & U & C & R & V & O & Hh).
    exists s', b', (Some (filter_block (map Some vals))). splits; auto.
    + split; [|now rewrite Hm]. apply filter_block_header; rewrite ?length_map; auto.
    + destruct (filter_block_layout (map Some vals)) as (_ & _ & _ & Ev). rewrite Ev, length_map. lia.
    + now apply filter_block_led.
Qed.

(** Only the reads behind pointers have labels, of their own. *)
Lemma bytes_symbols v off bit lab label :
  lab = B "rec_key" \/ lab = B "rec_value" -> In label [B "exit"; B "rb_fail"; B "rb_lookup_fail"; B "rb_copy_fail"] -> label ∉ symbols (emitRecordBytes v off bit lab).
Proof.
  intros Hlab Hin. unfold emitRecordBytes. destruct (_ || _); [apply not_elem_of_nil|]. cbn [In] in Hin.
  destruct Hlab as [->| ->], Hin as [<-|[<-|[<-|[<-|[]]]]], (BPointer v); cbn; repeat (apply not_elem_of_cons; split; [discriminate|]); apply not_elem_of_nil.
Qed.

Lemma symbols_app l m : symbols (l ++ m) = symbols l ++ symbols m.
Proof. apply map_app. Qed.

Lemma entry_symbols lay label : In label [B "exit"; B "rb_fail"; B "rb_lookup_fail"; B "rb_copy_fail"] -> label ∉ symbols (block_head lay ++ entry_block_code lay).
Proof.
  intros Hin. assert (Ht : has_text label = true) by (cbn [In] in Hin; destruct Hin as [<-|[<-|[<-|[<-|[]]]]]; reflexivity).
  assert (Hu : forall l, unlabelled l -> label ∉ symbols l) by (intros l Hl; now apply unlabelled_symbols).
  assert (Hif : forall (c : bool) i k o bit, unlabelled (if c then emitRecordScalar i k o bit else [])) by (intros [] i k o bit; repeat constructor).
  unfold entry_block_code. repeat (rewrite symbols_app, not_elem_of_app; split); try (now apply bytes_symbols; auto); apply Hu; try apply Hif; repeat constructor.
Qed.

(** States with the arguments of [s0]. *)
Definition same_args (s0 s : st) : Prop := words s = words s0 /\ nargs s = nargs s0.

Lemma entry_record_runs lay snap s0 : mem_ok -> LMode lay = ModeEntry -> entry_ok lay s0 ->
  block_runs (Some lay) snap (fun s => same_args s0 s /\ gate_ready s) (record_block_of (Some lay) [] s0).
Proof.
  intros Hmem Hm Hok. assert (Hne : LMode lay <> ModeFilter) by (rewrite Hm; discriminate). pose proof Hok as (_ & _ & (Rk & _) & (Rv & _)). unfold MaxBytesLimit in *.
  assert (Hsz : Layout_Size lay = 24 + BLen (Key lay) + BLen (Value lay)) by (unfold Layout_Size; now rewrite bool_decide_false by exact Hne).
  assert (Hsame : forall s, same_args s0 s -> (entry_ok lay s) /\ (forall blk, entry_holds lay s blk -> entry_holds lay s0 blk)).
  { intros s [W N]. assert (K : keeps [] (set_stack (stack s) (set_regs (regs s) s0)) s) by (split; [reflexivity|reflexivity|exact W|exact N]).
    destruct (reads_keep _ _ _ K) as (S & Bd & S' & B'). split; [split; [|split; [|split]]; [apply S'|apply S'|apply B'|apply B']; apply Hok|].
    intros blk (r1 & r2 & r3 & r4 & site & status & key & value & A1 & A2 & A3 & A4 & A5). exists r1, r2, r3, r4, site, status, key, value.
    split; [now apply S in A1|]. split; [now apply S in A2|]. split; [now apply Bd in A3|]. split; [now apply Bd in A4|exact A5]. }
  split.
  - cbn [block_size]. lia.
  - intros w s s' K M Ha ([W N] & [Hc Hn] & Hargs). split; [split; [now rewrite (ke_words _ _ _ K)|now rewrite (ke_nargs _ _ _ K)]|]. split; [split; [rewrite (ke_words _ _ _ K); exact Hc|rewrite (ke_words _ _ _ K), (ke_nargs _ _ _ K); exact Hn]|].
    unfold args_saved. now rewrite (ldst_keeps _ _ _ _ _ K Ha).
  - intros label Hin. cbn [block_code]. unfold emitRecordBlock. rewrite bool_decide_false by exact Hne. now apply entry_symbols.
  - intros l b s [Hs Hg] Hr0 Hslot Hb Hby Hl. cbn [block_code block_size] in *. destruct (Hsame s Hs) as [Hok' Hhold].
    destruct (exec_entry_block l lay snap b s Hmem Hne Hok' Hg Hr0 Hslot Hb Hl) as (s' & b' & blk & E & K & M & U & R & V & O & Hh & Hhas & Hn).
    exists s', b', (Some blk). split; [exact E|]. split; [refine (keeps_wider _ _ _ _ _ K); wider|]. splits; auto.
    + split; [apply (entry_checked lay s); auto|rewrite Hm; auto].
    + apply (entry_led lay s); auto; lia.
Qed.

Variables (NoWakeup : bool) (eventsFD statsFD gateFD : Z) (isFexit : bool) (maxCapLen : Z) (rec : option Layout) (siteID : Z) (snap : fieldSnap) (vals : list Z).

(** What a run of the tail that was not held did, by how it ended. *)
Definition outcome_of (WallOffsetNs : Z) (e : ending) (i : inputs) (s s' : st) : Prop :=
  let ring := le 4 cpu in
  let n := Z.min (i_len i) (cap maxCapLen) in
  match e with
  | NoRing => has_ring eventsFD ring = false /\ submitted s' = submitted s
  | NoRoom => submitted s' = submitted s /\ exists t, room eventsFD ring (metadataSize + block_size rec + cap maxCapLen) t = None
  | Faulted => submitted s' = submitted s /\ exists t, kbytes t (i_addr i) (Z.to_nat n) = None
  | Submitted =>
      exists t0 t data blk raw fl, kbytes t (i_addr i) (Z.to_nat n) = Some data /\ record_block_of rec vals s blk /\
        submitted s' = submitted s ++ [(raw, fl)] /\
        ParseRawSample WallOffsetNs raw =
          Ok (mkPacket (int64_of_u64 (u64 (now t0 + WallOffsetNs))) data (u32 (i_action i)) (if isFexit then 1 else 0) n
                (u32 (i_orig i)) (u32 (i_tag i)) 0 siteID blk)
  end.

(** The states the tail starts from. The capture length is below 2^16: the
    code does not check it, and [caplen_truncated] is about the others. *)
Definition tail_pre (i : inputs) (s : st) : Prop :=
  tail_ready eventsFD statsFD isFexit (fun _ => True) i s /\ barrier_ok gateFD s /\ record_ready rec snap vals s /\
  cap maxCapLen < 2 ^ 16 /\ 0 <= siteID < 256.

(** What ends a run given any block code that keeps its promise. *)
Lemma tail_parsed Pre s0 WallOffsetNs i ret s :
  block_runs rec snap Pre (record_block_of rec vals s0) -> tail_pre i s -> Pre s -> (forall blk, record_block_of rec vals s0 blk -> record_block_of rec vals s blk) ->
  exists s', exec (finishProgram (capture_tail NoWakeup eventsFD statsFD gateFD isFexit maxCapLen rec siteID snap) ret) None s = Done s' /\
    getr R0 s' = Some (Num (u64 ret)) /\ resv s' = None /\
    if held gateFD (i_tag i) (maps s) then maps s' = maps s /\ submitted s' = submitted s
    else exists e, maps s' = count statsFD (ending_stat e) (maps s) /\ outcome_of WallOffsetNs e i s s'.
Proof.
  intros Hb ((Ha & Hg & H8 & H9 & H7 & Hn & Hv & Hev & Hc & _) & Hbar & _ & Hcap & Hsite) Hpre Hblk.
  destruct (tail_ends NoWakeup eventsFD statsFD gateFD isFexit maxCapLen rec siteID snap Pre _ Hb Hcap Hsite i ret s) as (s' & E & R & V & Hend).
  { unfold tail_ready. splits; assumption. }
  { exact Hbar. }
  exists s'. split; [exact E|]. split; [exact R|]. split; [exact V|]. destruct (held _ _ _); [exact Hend|]. destruct Hend as (e & M & He). exists e. split; [exact M|].
  unfold ended, outcome_of in *. destruct e.
  - destruct He as (_ & t0 & t & data & blk & raw & fl & Hk & Hgood & Hsub & Hw & Hok). exists t0, t, data, blk, raw, fl. split; [exact Hk|]. split; [now apply Hblk|].
    split; [exact Hsub|]. rewrite (sample_parsed _ _ _ Hw Hok). reflexivity.
  - exact He.
  - exact (proj2 He).
  - exact (proj2 He).
Qed.

(** C10: a capture program's tail hands userspace exactly the packets it
    was called on, for a capture length below 2^16 (what a longer one does
    is [caplen_truncated]) and a site below 256. Run from any state the gate
    and the prologue leave (tag, lengths, data pointer, the exit's action),
    on any kernel that keeps the helpers' contracts, the code ends with the
    program's return value and no reservation held, and, when the program
    has a statistics map, with one counter moved for each call that is not
    held back: the tag is on hold and nothing happens; the CPU has no ring,
    the ring is full or
    the packet faults, and nothing is submitted; or one record is
    submitted, which [ParseRawSample] reads back to the packet: its time,
    action, mode, tag and site, the bytes at the data pointer up to the
    capture length, the original length, and a block that [CheckBlock]
    accepts, holding the gate's snapshot in filter mode, and in entry mode
    the site, status, key and value of the arguments, each marked valid only
    when it was read. *)
Theorem capture_tail_recorded WallOffsetNs i ret s :
  mem_ok -> tail_pre i s ->
  exists s', exec (finishProgram (capture_tail NoWakeup eventsFD statsFD gateFD isFexit maxCapLen rec siteID snap) ret) None s = Done s' /\
    getr R0 s' = Some (Num (u64 ret)) /\ resv s' = None /\
    if held gateFD (i_tag i) (maps s) then maps s' = maps s /\ submitted s' = submitted s
    else exists e, maps s' = count statsFD (ending_stat e) (maps s) /\ outcome_of WallOffsetNs e i s s'.
Proof.
  intros Hmem Hp. pose proof (proj1 (proj2 (proj2 Hp))) as Hrec. pose proof tail_parsed as T. unfold record_ready in Hrec. destruct rec as [lay|].
  2: { now apply (T (fun _ => True) s); [apply no_record_runs|..]. }
  destruct (LMode lay) eqn:Hm; [contradiction| |].
  - destruct Hrec as (Hlen & H32 & Hr & Hs) eqn:EH. clear EH. apply (T (snapshot lay snap vals) s); auto. now apply filter_record_runs.
  - destruct Hrec as [Hok Hg]. apply (T (fun u => same_args s u /\ gate_ready u) s); auto; [|now split].
    pose proof (entry_record_runs lay snap s Hmem Hm Hok) as R. unfold record_block_of in *. rewrite Hm in *. exact R.
Qed.
End Whole.

(** ** The wakeup flag *)

Lemma Len32_log2 p : 0 < p -> Len32 p - 1 = Z.log2 p.
Proof. intros Hp. unfold Len32. replace (p =? 0) with false by lia. lia. Qed.

(** A shard's ring is the largest power of two its share allows. *)
Lemma shardRingbufSize_power total numCPUs : 0 <= total < 2 ^ 32 -> 1 <= numCPUs < 2 ^ 31 ->
  exists k, 14 <= k < 30 /\ shardRingbufSize total numCPUs = 2 ^ (k + 2) /\
    shardRingbufSize total numCPUs <= Z.max (total / numCPUs) 65536 < 2 * shardRingbufSize total numCPUs.
Proof.
  intros Ht Hn. unfold shardRingbufSize. cbv zeta. rewrite (u32_small numCPUs) by lia. set (p := Z.max (total / numCPUs) 65536).
  assert (Hp : 65536 <= p < 2 ^ 32). { pose proof (Z.div_le_upper_bound total numCPUs (2 ^ 32 - 1) ltac:(lia) ltac:(nia)). lia. }
  rewrite Len32_log2 by lia. pose proof (Z.log2_spec p ltac:(lia)) as Hl. assert (Hlo : 16 <= Z.log2 p) by (apply Z.log2_le_pow2; lia).
  assert (Hhi : Z.log2 p < 32) by (apply Z.log2_lt_pow2; lia). rewrite Z.shiftl_mul_pow2, Z.mul_1_l by lia.
  assert (Hpow : 2 ^ Z.log2 p <= 2 ^ 31) by (apply Z.pow_le_mono_r; lia). rewrite (u32_small (2 ^ Z.log2 p)) by (pose proof (Z.pow_nonneg 2 (Z.log2 p)); lia).
  exists (Z.log2 p - 2). split; [lia|]. split; [f_equal; lia|]. rewrite Z.pow_succ_r in Hl by lia. lia.
Qed.

(** A ring's record: its header, rounded up to eight bytes. *)
Lemma recLen_round n : 0 <= n < 2 ^ 30 -> recLen n mod 8 = 0 /\ n + 8 <= recLen n < n + 16.
Proof.
  intros Hn. unfold recLen. rewrite i32_small by lia. assert (E : Z.ldiff (8 + n + 7) 7 = (8 + n + 7) / 8 * 8).
  { change 7 with (Z.ones 3) at 2. rewrite Z.ldiff_ones_r, Z.shiftr_div_pow2, Z.shiftl_mul_pow2 by lia. reflexivity. }
  rewrite E. split; [now rewrite Z.mod_mul|]. pose proof (Z.div_mod (8 + n + 7) 8). pose proof (Z.mod_pos_bound (8 + n + 7) 8). lia.
Qed.

(** C17: the reader is woken once per quarter of a ring. On a shard's ring,
    whose size is a power of two, the branch-free code in front of the
    reserve leaves in its slot [BPF_RB_FORCE_WAKEUP] exactly when this
    record takes the backlog over a multiple of a quarter of the ring, and
    [BPF_RB_NO_WAKEUP] otherwise; the length it adds is the record's with
    the kernel's header, rounded up to eight bytes. *)
Theorem wake_flag_quarter `{HK : Rings} total numCPUs reserveSize fd key s :
  0 <= total < 2 ^ 32 -> 1 <= numCPUs < 2 ^ 31 -> 0 <= reserveSize < 2 ^ 30 -> getr R0 s = Some (Ptr (RingOf fd key) 0) ->
  query fd key bpfRBRingSize (clock s) = shardRingbufSize total numCPUs ->
  let backlog := query fd key bpfRBAvailData (S (clock s)) in
  backlog < 2 ^ 32 ->
  exists s' quarter added, exec (emitWakeFlag false reserveSize) None s = Next s' /\ getr R0 s' = Some (Ptr (RingOf fd key) 0) /\
    65536 <= 4 * quarter /\ 4 * quarter = shardRingbufSize total numCPUs /\ added mod 8 = 0 /\ reserveSize + 8 <= added < reserveSize + 16 /\
    ldst wakeFlagSlot 8 s' = Some (Num (if (backlog + added) / quarter =? backlog / quarter then BPF_RB_NO_WAKEUP else 2)).
Proof.
  intros Ht Hn Hs Hr Hq backlog Hb. destruct (shardRingbufSize_power total numCPUs Ht Hn) as (k & Hk & Ek & _). destruct (recLen_round reserveSize Hs) as [Hm Ha].
  destruct (exec_wake false [] reserveSize fd key s Hr) as (s' & E & R & _ & _ & _ & Hf). rewrite app_nil_r in E. exists s', (2 ^ k), (recLen reserveSize).
  assert (E4 : 2 ^ (k + 2) = 4 * 2 ^ k) by (rewrite Z.pow_add_r by lia; lia). assert (H14 : 2 ^ 14 <= 2 ^ k) by (apply Z.pow_le_mono_r; lia).
  split; [exact E|]. split; [exact R|]. split; [lia|]. split; [lia|]. split; [exact Hm|]. split; [exact Ha|]. rewrite (Hf eq_refl), Hq, Ek. fold backlog.
  rewrite wake_flag_crosses; [reflexivity|lia|apply query_u64|lia|]. unfold two63. lia.
Qed.

(** C16: a capture length past 65535 is copied but not reported. The
    reservation and the copy take the whole length, which neither
    [--snaplen] nor a capture clause bounds, while the record's caplen field
    has sixteen bits: the reader is told the length modulo 65536. *)
Theorem caplen_truncated `{HK : Rings} maxCapLen n b s :
  getr R0 s = Some (Ptr Reserved 0) -> getr R9 s = Some (Num n) -> resv s = Some b -> 32 <= len b -> 2 ^ 16 <= maxCapLen < 2 ^ 31 -> 2 ^ 16 <= n -> in_u64 n ->
  exists s' b' told, exec (length_code maxCapLen) None s = Next s' /\ getr R3 s' = Some (Num (Z.min n maxCapLen)) /\ resv s' = Some b' /\
    RecordCapLen b' = Ok told /\ told = Z.min n maxCapLen mod 2 ^ 16 /\ told < Z.min n maxCapLen.
Proof.
  intros Hr H9 Hb Hl Hm Hn Hu. destruct (exec_length [] maxCapLen n b s Hr H9 Hb Hl ltac:(lia) Hu) as (s' & b' & E & (_ & _ & _ & _ & _ & V) & _ & Hh & R).
  rewrite app_nil_r in E. exists s', b', (Z.min n maxCapLen mod 2 ^ 16). split; [exact E|]. split; [exact R|]. split; [exact V|]. split; [|split; [reflexivity|]].
  - unfold RecordCapLen, uint. change (Z.to_nat OffsetCapLen) with (Z.to_nat 14). now rewrite (has_rd _ _ _ _ Hh).
  - pose proof (Z.mod_pos_bound (Z.min n maxCapLen) (2 ^ 16)). lia.
Qed.
