(* ===== verification/CaptureExamples.v ===== *)
(** * CaptureExamples: runs of the epilogue

    A kernel with a ring per CPU, and a filter-mode capture of one packet
    whose gate left two values and a tag. *)

From Stdlib Require Import ZArith Lia Bool Ascii String List.
From stdpp Require Import base list strings numbers option gmap.
From S2P Require Import Prelude GoStd GoBytes HookAbi ArgExpr ArgFilter RawSample Record RecordFacts RecordBuild Asm Ebpf EbpfFacts Helpers RingHelpers.
From S2P Require Import Gate GateFacts GateRecord Capture CaptureFacts CaptureBlock CaptureSample CaptureRun EntryBlock CaptureTail CaptureWhole.
Local Open Scope Z_scope.

Definition ring_mem (t : nat) (a : Z) : option Z := Some (a mod 256).
Definition ring_tells (fd : Z) (key : list Z) (sel : Z) (t : nat) : Z := if sel =? bpfRBRingSize then 65536 else 16380.

#[export] Instance tail_kernel : Kernel := ring_kernel (fun _ => 4%nat) ring_mem (fun t => 1000 + Z.of_nat t) 3 (fun _ _ => true) ring_tells (fun _ _ _ _ => true).
#[export] Instance tail_helpers : Helpers := ring_helpers (fun _ => 4%nat) ring_mem (fun t => 1000 + Z.of_nat t) 3 (fun _ _ => true) ring_tells (fun _ _ _ _ => true).
#[export] Instance tail_rings : Rings := ring_rings (fun _ => 4%nat) ring_mem (fun t => 1000 + Z.of_nat t) 3 (fun _ _ => true) ring_tells (fun _ _ _ _ => true).

Definition two_fields : Layout :=
  mkLayout ModeFilter [mkField (B "id") 0 4 true false false 0; mkField (B "ctx->delta") 1 4 true true false 8] noScalar noScalar noBytes noBytes.
Definition tail_snap : fieldSnap := mkSnap 9 0 two_fields.
Definition tail_vals : list Z := [6; two64 - 3].

(** Tag 21, 60 bytes at 0x1000; counters at 6, tags on hold at 5. *)
Definition tail_state : st :=
  mkSt (<[R7 := Num 0x1000]> (<[R8 := Num 1514]> {[R9 := Num 60]})) (write (-48) (parts (Ptr Ctx 0)) (write (-8) (map CByte (le 8 21)) ∅)) [6; 0x1000] 2
    (<[9 := {[ le 4 0 := le 8 6 ++ le 8 (two64 - 3) ]}]> (<[5 := {[ le 4 7 := [1] ]}]> {[ 6 := {[ le 4 1 := le 8 41 ]} ]})) None [] 0.

Lemma capture_tail_recorded_witness :
  exists s' t0 t raw fl data, exec (finishProgram (capture_tail false 4 6 5 false 128 (Some two_fields) 2 tail_snap) 0) None tail_state = Done s' /\
    submitted s' = [(raw, fl)] /\ kbytes t 0x1000 60 = Some data /\
    ParseRawSample 0 raw = Ok (mkPacket (int64_of_u64 (u64 (now t0 + 0))) data 0 0 60 1514 21 0 2 (Some (filter_block (map Some tail_vals)))).
Proof.
  destruct (capture_tail_recorded false 4 6 5 false 128 (Some two_fields) 2 tail_snap tail_vals 0 (mkInputs 0 21 1514 60 0x1000) 0 tail_state) as (s' & E & _ & _ & Hend).
  - intros t a b [= <-]. now apply Z.mod_pos_bound.
  - split; [unfold tail_ready; splits; try reflexivity; [easy|]|split; [|split; [|split; [reflexivity|easy]]]].
    + intros _. split; [reflexivity|]. exists {[ le 4 1 := le 8 41 ]}. split; [vm_compute; reflexivity|]. intros key b Hb. apply lookup_singleton_Some in Hb as [_ <-]. vm_compute. discriminate.
    + intros _. split; [reflexivity|]. eexists. vm_compute. reflexivity.
    + split; [reflexivity|]. split; [cbn; lia|]. split.
      * split; [reflexivity|]. split; [easy|]. split; [cbn; lia|]. eexists. split; [vm_compute; reflexivity|]. vm_compute. discriminate.
      * exists (le 8 6 ++ le 8 (two64 - 3)). split; [vm_compute; reflexivity|]. intros [|[|j]] v Hv; try discriminate; injection Hv as <-; vm_compute; reflexivity.
  - change (held 5 21 (maps tail_state)) with false in Hend. cbv iota in Hend. destruct Hend as ([| | |] & _ & Hout).
    + destruct Hout as (t0 & t & data & blk & raw & fl & Hk & Hb & Hs & Hp). exists s', t0, t, raw, fl, data. split; [exact E|]. split; [exact Hs|]. split; [exact Hk|].
      destruct blk as [blk|]; [|contradiction]. destruct Hb as [_ ->]. exact Hp.
    + destruct Hout as [Hn _]. discriminate.
    + destruct Hout as (_ & t & Hn). discriminate.
    + destruct Hout as (_ & t & Hn). exfalso. revert Hn. generalize t. intros u Hn. discriminate.
Defined.

(** 65536 bytes: a quarter is 16384, and the record crosses it. *)
Lemma wake_flag_quarter_witness :
  exists s', exec (emitWakeFlag false 160) None (setr R0 (Ptr (RingOf 4 (le 4 3)) 0) tail_state) = Next s' /\ ldst wakeFlagSlot 8 s' = Some (Num 2).
Proof.
  destruct (wake_flag_quarter (4 * 1024 * 1024) 64 160 4 (le 4 3) (setr R0 (Ptr (RingOf 4 (le 4 3)) 0) tail_state)) as (s' & q & a & E & _ & _ & Hq & _ & Ha & Hf);
    [easy|easy|easy|reflexivity|reflexivity|reflexivity|].
  exists s'. split; [exact E|]. rewrite Hf. change (shardRingbufSize (4 * 1024 * 1024) 64) with 65536 in Hq. assert (q = 16384) as -> by lia.
  change (query 4 (le 4 3) bpfRBAvailData (S (clock (setr R0 (Ptr (RingOf 4 (le 4 3)) 0) tail_state)))) with 16380. assert (Hx : (16380 + a) / 16384 = 1) by (symmetry; apply Z.div_unique with (a - 4); lia).
  rewrite Hx. reflexivity.
Defined.

(** [--snaplen 70000] and a packet of 65540 bytes: four are reported. *)
Lemma caplen_truncated_witness :
  let s := setr R0 (Ptr Reserved 0) (setr R9 (Num 65540) (set_resv (Some (repeat 0 32)) tail_state)) in
  exists s' b', exec (length_code 70000) None s = Next s' /\ getr R3 s' = Some (Num 65540) /\ resv s' = Some b' /\ RecordCapLen b' = Ok 4.
Proof.
  intros s. destruct (caplen_truncated 70000 65540 (repeat 0 32) s) as (s' & b' & told & E & R & V & P & -> & _); [reflexivity|reflexivity|reflexivity|easy|easy|easy|easy|].
  exists s', b'. split; [exact E|]. split; [exact R|]. split; [exact V|exact P].
Defined.
