(* ===== verification/Heap.v ===== *)
(** * Heap: Go's container/heap

    The merge keeps one pending packet per shard in a [container/heap]; the
    package is written out here as the Go library has it ([up], [down],
    [Push], [Pop]) over a list indexed from 0, for a [Less] that compares
    integer keys. The lemmas say what the merge relies on: the elements are
    kept, the heap order is kept, and [Pop] returns an element of smallest
    key. *)

From Stdlib Require Import ZArith Lia Bool List.
From stdpp Require Import base list numbers option.
From S2P Require Import Prelude.

Section Heap.
Context {A : Type} (key : A -> Z).

Definition Less (h : list A) (i j : nat) : bool :=
  match h !! i, h !! j with Some a, Some b => (key a <? key b)%Z | _, _ => false end.

Definition Swap (h : list A) (i j : nat) : list A :=
  match h !! i, h !! j with Some a, Some b => <[i := b]> (<[j := a]> h) | _, _ => h end.

(** [fuel] bounds the number of levels. *)
Fixpoint up (fuel : nat) (h : list A) (j : nat) : list A :=
  match fuel with
  | O => h
  | S fuel' =>
      let i := ((j - 1) / 2)%nat in
      if (i =? j)%nat || negb (Less h j i) then h else up fuel' (Swap h i j) i
  end.

Fixpoint down (fuel : nat) (h : list A) (i n : nat) : list A :=
  match fuel with
  | O => h
  | S fuel' =>
      let j1 := (2 * i + 1)%nat in
      if (n <=? j1)%nat then h
      else
        let j2 := (j1 + 1)%nat in
        let j := if (j2 <? n)%nat && Less h j2 j1 then j2 else j1 in
        if negb (Less h j i) then h else down fuel' (Swap h i j) j n
  end.

Definition Push (x : A) (h : list A) : list A :=
  let h := h ++ [x] in up (length h) h (length h - 1).

(** [None]: the empty heap, where the library panics. *)
Definition Pop (h : list A) : option (A * list A) :=
  let n := (length h - 1)%nat in
  let h := down (length h) (Swap h 0 n) 0 n in
  match h !! n with Some x => Some (x, take n h) | None => None end.

(** ** Lemmas *)

Definition get (h : list A) (k : nat) : Z := match h !! k with Some a => key a | None => 0%Z end.

(** Heap order below [n], except between [j] and its parent. *)
Definition ordered_up (h : list A) (j : nat) : Prop :=
  (forall k, 0 < k < length h -> k <> j -> (get h ((k - 1) / 2) <= get h k)%Z) /\
  (forall k, 0 < k < length h -> 0 < j -> (k - 1) / 2 = j -> (get h ((j - 1) / 2) <= get h k)%Z).

(** Heap order below [n], except between [i] and its children. *)
Definition ordered_down (h : list A) (i n : nat) : Prop :=
  (forall k, 0 < k < n -> (k - 1) / 2 <> i -> (get h ((k - 1) / 2) <= get h k)%Z) /\
  (forall k, 0 < k < n -> 0 < i -> (k - 1) / 2 = i -> (get h ((i - 1) / 2) <= get h k)%Z).

Definition heap (h : list A) : Prop :=
  forall k, 0 < k < length h -> (get h ((k - 1) / 2) <= get h k)%Z.

Lemma parent_lt k : 0 < k -> (k - 1) / 2 < k.
Proof. intros H. apply Nat.Div0.div_lt_upper_bound. lia. Qed.

Lemma parent_iff k i : 0 < k -> (k - 1) / 2 = i <-> k = 2 * i + 1 \/ k = 2 * i + 2.
Proof.
  intros H. pose proof (Nat.div_mod (k - 1) 2 ltac:(lia)).
  pose proof (Nat.mod_upper_bound (k - 1) 2 ltac:(lia)). lia.
Qed.

Lemma Less_get h i j : i < length h -> j < length h -> Less h i j = (get h i <? get h j)%Z.
Proof.
  intros Hi Hj. unfold Less, get.
  destruct (lookup_lt_is_Some_2 h i Hi) as [a ->], (lookup_lt_is_Some_2 h j Hj) as [b ->]. reflexivity.
Qed.

Lemma Swap_length h i j : length (Swap h i j) = length h.
Proof. unfold Swap. repeat case_goal; rewrite ?length_insert; reflexivity. Qed.

Lemma Swap_lookup h i j k : i < length h -> j < length h ->
  Swap h i j !! k = if (k =? i)%nat then h !! j else if (k =? j)%nat then h !! i else h !! k.
Proof.
  intros Hi Hj. unfold Swap.
  destruct (lookup_lt_is_Some_2 h i Hi) as [a Ea], (lookup_lt_is_Some_2 h j Hj) as [b Eb]. rewrite Ea, Eb.
  destruct (Nat.eqb_spec k i) as [->|Hk].
  - rewrite list_lookup_insert_eq; [reflexivity|now rewrite length_insert].
  - rewrite list_lookup_insert_ne by congruence. destruct (Nat.eqb_spec k j) as [->|Hk'].
    + now rewrite list_lookup_insert_eq.
    + now rewrite list_lookup_insert_ne by congruence.
Qed.

Lemma Swap_get h i j k : i < length h -> j < length h ->
  get (Swap h i j) k = if (k =? i)%nat then get h j else if (k =? j)%nat then get h i else get h k.
Proof. intros Hi Hj. unfold get. rewrite Swap_lookup by assumption. repeat case_goal; congruence. Qed.

Lemma Swap_perm h i j : Swap h i j ≡ₚ h.
Proof.
  unfold Swap. destruct (h !! i) as [a|] eqn:Ea, (h !! j) as [b|] eqn:Eb; auto.
  now apply Permutation_insert_swap.
Qed.

Lemma up_length fuel h j : length (up fuel h j) = length h.
Proof.
  revert h j. induction fuel as [|fuel IH]; intros h j; simpl; [reflexivity|].
  case_goal; [reflexivity|]. now rewrite IH, Swap_length.
Qed.

Lemma up_perm fuel h j : up fuel h j ≡ₚ h.
Proof.
  revert h j. induction fuel as [|fuel IH]; intros h j; simpl; [reflexivity|].
  case_goal; [reflexivity|]. now rewrite IH, Swap_perm.
Qed.

Lemma down_length fuel h i n : length (down fuel h i n) = length h.
Proof.
  revert h i. induction fuel as [|fuel IH]; intros h i; cbn [down]; [reflexivity|]. cbv zeta.
  case_goal; [reflexivity|]. destruct (negb _); [reflexivity|]. now rewrite IH, Swap_length.
Qed.

Lemma down_perm fuel h i n : down fuel h i n ≡ₚ h.
Proof.
  revert h i. induction fuel as [|fuel IH]; intros h i; cbn [down]; [reflexivity|]. cbv zeta.
  case_goal; [reflexivity|]. destruct (negb _); [reflexivity|]. now rewrite IH, Swap_perm.
Qed.

Lemma up_heap fuel h j : j < length h -> j < fuel -> ordered_up h j -> heap (up fuel h j).
Proof.
  revert h j. induction fuel as [|fuel IH]; intros h j Hj Hf [H1 H2]; [lia|]. cbn [up].
  destruct (Nat.eqb_spec ((j - 1) / 2) j) as [E|E].
  { assert (j = 0) as -> by (destruct j; [reflexivity|pose proof (parent_lt (S j) ltac:(lia)); lia]).
    cbn [orb]. intros k Hk. apply H1; lia. }
  assert (Hpos : 0 < j) by (destruct j; [now cbn in E|lia]). pose proof (parent_lt j Hpos) as Hp.
  rewrite Less_get by lia. cbn [orb]. destruct (Z.ltb_spec (get h j) (get h ((j - 1) / 2))) as [Hl|Hl]; cbn [negb].
  - apply IH; [rewrite Swap_length; lia|lia|]. set (p := (j - 1) / 2) in *. split; rewrite Swap_length.
    + intros k Hk Hkp. rewrite !Swap_get by lia.
      destruct (Nat.eqb_spec k p); [lia|]. destruct (Nat.eqb_spec k j) as [->|Hkj].
      * fold p. rewrite Nat.eqb_refl. lia.
      * destruct (Nat.eqb_spec ((k - 1) / 2) p) as [E1|E1].
        -- specialize (H1 k ltac:(lia) Hkj). rewrite E1 in H1. lia.
        -- destruct (Nat.eqb_spec ((k - 1) / 2) j) as [E2|E2]; [now apply H2; lia|apply H1; lia].
    + intros k Hk Hp0 Hkp. pose proof (parent_lt p Hp0). rewrite !Swap_get by lia.
      destruct (Nat.eqb_spec ((p - 1) / 2) p); [lia|]. destruct (Nat.eqb_spec ((p - 1) / 2) j); [lia|].
      destruct (Nat.eqb_spec k p) as [->|]; [pose proof (parent_lt p Hp0); lia|].
      destruct (Nat.eqb_spec k j) as [->|Hkj]; [apply H1; lia|].
      pose proof (H1 p ltac:(lia) ltac:(lia)). specialize (H1 k ltac:(lia) Hkj). rewrite Hkp in H1. lia.
  - intros k Hk. destruct (Nat.eq_dec k j) as [->|]; [lia|apply H1; lia].
Qed.

Lemma down_above fuel h i n k : i < n <= length h -> n <= k -> down fuel h i n !! k = h !! k.
Proof.
  revert h i. induction fuel as [|fuel IH]; intros h i Hi Hk; cbn [down]; [reflexivity|]. cbv zeta.
  destruct (Nat.leb_spec n (2 * i + 1)) as [|Hn]; [reflexivity|].
  match goal with |- context [negb (Less _ ?x _)] => set (j := x) end. assert (Hj : i < j < n) by (subst j; case_goal; bools; lia).
  destruct (negb _); [reflexivity|]. rewrite IH by (rewrite ?Swap_length; lia). rewrite Swap_lookup by lia.
  destruct (Nat.eqb_spec k i); [lia|]. destruct (Nat.eqb_spec k j); [lia|]. reflexivity.
Qed.

Lemma down_ordered fuel h i n : i < n <= length h -> n - i <= fuel -> ordered_down h i n ->
  forall k, 0 < k < n -> (get (down fuel h i n) ((k - 1) / 2) <= get (down fuel h i n) k)%Z.
Proof.
  revert h i. induction fuel as [|fuel IH]; intros h i Hi Hf [H1 H2]; [lia|]. cbn [down]. cbv zeta.
  destruct (Nat.leb_spec n (2 * i + 1)) as [Hn|Hn].
  { intros k Hk. apply H1; [lia|]. rewrite parent_iff by lia. lia. }
  match goal with |- context [negb (Less _ ?x _)] => set (j := x) end.
  assert (Hj : (j = 2 * i + 1 \/ j = 2 * i + 2) /\ j < n /\
               forall c, 0 < c < n -> (c - 1) / 2 = i -> (get h j <= get h c)%Z).
  { subst j. destruct (Nat.ltb_spec (2 * i + 1 + 1) n) as [Hl|Hl]; cbn [andb].
    - rewrite Less_get by lia. destruct (Z.ltb_spec (get h (2 * i + 1 + 1)) (get h (2 * i + 1))).
      + splits; [lia|lia|]. intros c Hc Hcp. apply parent_iff in Hcp as [->| ->]; [lia| |lia].
        replace (2 * i + 2) with (2 * i + 1 + 1) by lia. lia.
      + splits; [lia|lia|]. intros c Hc Hcp. apply parent_iff in Hcp as [->| ->]; [lia| |lia].
        replace (2 * i + 2) with (2 * i + 1 + 1) by lia. lia.
    - splits; [lia|lia|]. intros c Hc Hcp. apply parent_iff in Hcp as [->| ->]; lia. }
  clearbody j. destruct Hj as (Hj & Hjn & Hmin). assert (Hpj : (j - 1) / 2 = i) by (apply parent_iff; lia).
  rewrite Less_get by lia. destruct (Z.ltb_spec (get h j) (get h i)) as [Hl|Hl]; cbn [negb].
  - apply IH; [rewrite Swap_length; lia|lia|]. split.
    + intros k Hk Hkp. rewrite !Swap_get by lia. pose proof (parent_lt k ltac:(lia)).
      destruct (Nat.eqb_spec ((k - 1) / 2) i) as [E1|E1].
      * destruct (Nat.eqb_spec k i); [lia|]. destruct (Nat.eqb_spec k j) as [->|]; [lia|]. now apply Hmin.
      * destruct (Nat.eqb_spec ((k - 1) / 2) j); [lia|]. destruct (Nat.eqb_spec k i) as [->|].
        -- apply H2; lia.
        -- destruct (Nat.eqb_spec k j) as [->|]; [lia|]. apply H1; lia.
    + intros k Hk Hj0 Hkp. rewrite Hpj, !Swap_get by lia. rewrite Nat.eqb_refl.
      destruct (Nat.eqb_spec k i) as [->|]; [apply parent_iff in Hkp; lia|].
      destruct (Nat.eqb_spec k j) as [->|]; [apply parent_iff in Hkp; lia|].
      rewrite <- Hkp. apply H1; [lia|]. lia.
  - intros k Hk. destruct (Nat.eq_dec ((k - 1) / 2) i) as [E|E]; [|now apply H1].
    rewrite E. specialize (Hmin k Hk E). lia.
Qed.

Lemma Push_perm x h : Push x h ≡ₚ x :: h.
Proof. unfold Push. rewrite up_perm. symmetry. apply Permutation_cons_append. Qed.

Lemma Push_heap x h : heap h -> heap (Push x h).
Proof.
  intros H. unfold Push. rewrite length_app. simpl length. apply up_heap; rewrite ?length_app; simpl length; [lia..|].
  replace (length h + 1 - 1) with (length h) by lia.
  assert (G : forall k, k < length h -> get (h ++ [x]) k = get h k).
  { intros k Hk. unfold get. now rewrite lookup_app_l by exact Hk. }
  split; rewrite length_app; simpl length; intros k Hk.
  - intros Hne. pose proof (parent_lt k ltac:(lia)). rewrite !G by lia. apply H. lia.
  - intros _ E. pose proof (parent_lt k ltac:(lia)). lia.
Qed.

Lemma heap_root h k : heap h -> k < length h -> (get h 0 <= get h k)%Z.
Proof.
  intros H. induction k as [k IH] using lt_wf_ind. intros Hk. destruct k as [|k]; [lia|].
  pose proof (parent_lt (S k) ltac:(lia)) as Hp. specialize (IH _ Hp ltac:(lia)).
  specialize (H (S k) ltac:(lia)). lia.
Qed.

Lemma Pop_spec h : heap h -> h <> [] ->
  exists x h', Pop h = Some (x, h') /\ h ≡ₚ x :: h' /\ heap h' /\ forall y, y ∈ h -> (key x <= key y)%Z.
Proof.
  intros H Hne. assert (Hlen : 0 < length h) by (destruct h; [easy|simpl; lia]).
  unfold Pop. set (n := length h - 1). set (h1 := Swap h 0 n). set (h2 := down (length h) h1 0 n).
  assert (L1 : length h1 = length h) by apply Swap_length.
  assert (L2 : length h2 = length h) by (unfold h2; rewrite down_length; exact L1).
  assert (A2 : h2 !! n = h !! 0).
  { destruct (Nat.eq_dec n 0) as [E|E].
    - unfold h2. rewrite E. destruct (length h) as [|m] eqn:El; [lia|]. cbn [down]. cbv zeta.
      cbn [Nat.leb]. unfold h1. rewrite Swap_lookup by lia. rewrite E. reflexivity.
    - unfold h2. rewrite down_above by lia. unfold h1. rewrite Swap_lookup by lia.
      destruct (Nat.eqb_spec n 0); [lia|]. now rewrite Nat.eqb_refl. }
  destruct (lookup_lt_is_Some_2 h 0 Hlen) as [x Ex]. rewrite A2, Ex. exists x, (take n h2). splits; [reflexivity|..].
  - transitivity h2; [unfold h2; rewrite down_perm; unfold h1; now rewrite Swap_perm|].
    rewrite <- (take_drop n h2) at 1. rewrite (drop_S h2 x n) by congruence.
    rewrite (drop_ge h2 (S n)) by lia. symmetry. apply Permutation_cons_append.
  - intros k Hk. rewrite length_take in Hk. pose proof (parent_lt k ltac:(lia)).
    assert (G : forall q, q < n -> get (take n h2) q = get h2 q).
    { intros q Hq. unfold get. now rewrite lookup_take_lt. }
    rewrite !G by lia. apply down_ordered; [lia|lia| |lia]. split; [|lia].
    intros q Hq Hqp. pose proof (parent_lt q ltac:(lia)). unfold h1. rewrite !Swap_get by lia.
    repeat match goal with |- context [(?a =? ?b)%nat] => destruct (Nat.eqb_spec a b); [lia|] end. apply H. lia.
  - intros y Hy. apply list_elem_of_lookup in Hy as [k Ek].
    pose proof (heap_root h k H (lookup_lt_Some _ _ _ Ek)) as G. unfold get in G. now rewrite Ex, Ek in G.
Qed.

Lemma heap_nil : heap [].
Proof. intros k Hk. simpl in Hk. lia. Qed.

End Heap.
