(* ===== verification/KWay.v ===== *)
(** * KWay: the k-way merge loop

    [mergeFiles] and [mergeHookFiles] (internal/output) share one loop: fill
    a heap with the first item of every reader, then pop the earliest item,
    write it, and read the next item of the reader it came from, until the
    heap is empty. The loop is written once here over a state, a [next] and
    a [emit]; the class [Source] states what the loop needs of them: each
    reader is a stream of its own, reading one reader leaves the pending
    items of the others alone, and writing appends the item's value. The
    theorems of the clients instantiate it. *)

From Stdlib Require Import ZArith Lia Bool List Sorted.
From stdpp Require Import base list sorting numbers option.
From S2P Require Import Prelude Heap.
Local Open Scope nat_scope.

Inductive nres (I E : Type) := Got (it : I) | AtEOF | Failed (e : E).
Arguments Got {I E}. Arguments AtEOF {I E}. Arguments Failed {I E}.

(** The outcome of a merge; [MFuel] is a loop cut short. *)
Inductive mres (S E : Type) := MDone (s : S) | MErr (e : E) | MFuel.
Arguments MDone {S E}. Arguments MErr {S E}. Arguments MFuel {S E}.

Section Loop.
Context {St Item Error : Type} (ts : Item -> Z) (idx : Item -> nat).
Context (next : nat -> St -> nres Item Error * St) (emit : Item -> St -> result Error St).

(** [for i := range readers { ... heap.Push }]. *)
Fixpoint prime (rs : list nat) (h : list Item) (s : St) : mres (list Item * St) Error :=
  match rs with
  | [] => MDone (h, s)
  | i :: rs =>
      match next i s with
      | (Got it, s) => prime rs (Push ts it h) s
      | (AtEOF, s) => prime rs h s
      | (Failed e, _) => MErr e
      end
  end.

(** [for h.Len() > 0 { ... }]. *)
Fixpoint drain (fuel : nat) (h : list Item) (s : St) : mres St Error :=
  match fuel with
  | O => MFuel
  | S fuel =>
      match Pop ts h with
      | None => MDone s
      | Some (it, h) =>
          match emit it s with
          | Err e => MErr e
          | Ok s =>
              match next (idx it) s with
              | (Got it, s) => drain fuel (Push ts it h) s
              | (AtEOF, s) => drain fuel h s
              | (Failed e, _) => MErr e
              end
          end
      end
  end.

Definition kway (fuel n : nat) (s : St) : mres St Error :=
  match prime (seq 0 n) [] s with
  | MDone (h, s) => drain fuel h s
  | MErr e => MErr e
  | MFuel => MFuel
  end.
End Loop.

(** ** The interface *)

(** One pure step of a reader: a value and the rest, its end, or a fault. *)
Inductive sres (R P : Type) := SGot (p : P) (r : R) | SEnd | SFault.
Arguments SGot {R P}. Arguments SEnd {R P}. Arguments SFault {R P}.

(** [stream step r l]: reading [r] gives exactly [l] and then its end. *)
Inductive stream {R P} (step : R -> sres R P) : R -> list P -> Prop :=
| stream_end r : step r = SEnd -> stream step r []
| stream_cons r p r' l : step r = SGot p r' -> stream step r' l -> stream step r (p :: l).

Section Interface.
Context {St Item Error R P : Type} (ts : Item -> Z) (idx : Item -> nat).
Context (next : nat -> St -> nres Item Error * St) (emit : Item -> St -> result Error St).

(** [out s] is the log of values written, each with its reader; [live s it]
    says the value [val s it] of a pending item can still be read. *)
Class Source := {
  step : R -> sres R P;
  src : St -> nat -> R;
  out : St -> list (nat * P);
  val : St -> Item -> P;
  pts : P -> Z;
  live : St -> Item -> Prop;
  inv : St -> Prop;
  (** reading reader [i] disturbs no other reader and no pending item of another reader *)
  apart i s s' := (forall j, j <> i -> src s' j = src s j) /\ out s' = out s /\ inv s' /\
    (forall it, live s it -> idx it <> i -> live s' it /\ val s' it = val s it);
  next_got i s it s' : inv s -> next i s = (Got it, s') ->
    apart i s s' /\ step (src s i) = SGot (val s' it) (src s' i) /\ idx it = i /\ live s' it;
  next_eof i s s' : inv s -> next i s = (AtEOF, s') -> apart i s s' /\ step (src s i) = SEnd;
  live_ts s it : live s it -> ts it = pts (val s it);
  emit_ok it s s' : inv s -> live s it -> emit it s = Ok s' ->
    inv s' /\ out s' = out s ++ [(idx it, val s it)] /\ (forall j, src s' j = src s j) /\
    (forall it', live s it' -> live s' it' /\ val s' it' = val s it')
}.
End Interface.
Arguments Source {_ _ _} _ _ _ _ _ _.
Arguments step {_ _ _ _ _ _ _ _ _ _}.
Arguments src {_ _ _ _ _ _ _ _ _ _}.
Arguments out {_ _ _ _ _ _ _ _ _ _}.
Arguments val {_ _ _ _ _ _ _ _ _ _}.
Arguments pts {_ _ _ _ _ _ _ _ _ _}.
Arguments live {_ _ _ _ _ _ _ _ _ _}.
Arguments inv {_ _ _ _ _ _ _ _ _ _}.
Arguments apart {_ _ _ _ _ _ _ _ _ _}.
Arguments next_got {_ _ _ _ _ _ _ _ _ _}.
Arguments next_eof {_ _ _ _ _ _ _ _ _ _}.
Arguments live_ts {_ _ _ _ _ _ _ _ _ _}.
Arguments emit_ok {_ _ _ _ _ _ _ _ _ _}.

(** ** What a merged output is *)

Section Spec.
Context {P : Type} (pts : P -> Z).

(** The values of reader [i], in output order. *)
Definition from (i : nat) (m : list (nat * P)) : list P := map snd (filter (fun x => x.1 = i) m).

Definition in_order (l : list P) : Prop := StronglySorted (fun p q => (pts p <= pts q)%Z) l.

Lemma from_cons i j p m : from i ((j, p) :: m) = if decide (j = i) then p :: from i m else from i m.
Proof. unfold from. rewrite list.filter_cons. simpl. case_decide; reflexivity. Qed.

Lemma from_app i m1 m2 : from i (m1 ++ m2) = from i m1 ++ from i m2.
Proof. unfold from. now rewrite list.filter_app, map_app. Qed.

Lemma from_elem i p m : (i, p) ∈ m <-> p ∈ from i m.
Proof.
  unfold from. rewrite list_elem_of_fmap. split.
  - intros H. exists (i, p). split; [reflexivity|]. now apply list_elem_of_filter.
  - intros ([j q] & -> & H). apply list_elem_of_filter in H as [E H]. simpl in E. now subst.
Qed.

(** Taking the head of one of [n] lists. *)
Lemma concat_update n j p (l l' : nat -> list P) :
  l j = p :: l' j -> (forall i, i <> j -> l i = l' i) -> j < n ->
  concat (map l (seq 0 n)) ≡ₚ p :: concat (map l' (seq 0 n)).
Proof.
  intros Hj Ho Hn. replace (seq 0 n) with (seq 0 j ++ j :: seq (S j) (n - S j)).
  - rewrite !map_app, !concat_app. cbn [map concat]. rewrite Hj.
    assert (E : forall ks, ~ j ∈ ks -> map l ks = map l' ks).
    { intros ks. induction ks as [|i ks IH]; intros Hni; [reflexivity|]. cbn [map].
      rewrite Ho by (intros ->; apply Hni; left). f_equal. apply IH. intros H. apply Hni. now right. }
    rewrite !E by (rewrite elem_of_seq; lia). cbn [app]. now rewrite <- Permutation_middle.
  - replace n with (j + S (n - S j)) at 2 by lia. rewrite seq_app. reflexivity.
Qed.

(** An output whose parts are those of [n] readers is a permutation of them. *)
Lemma from_permutation n m (l : nat -> list P) :
  (forall i, from i m = l i) -> (forall i, n <= i -> l i = []) ->
  map snd m ≡ₚ concat (map l (seq 0 n)).
Proof.
  revert l. induction m as [|[j p] m IH]; intros l Hl Hn.
  - assert (E : forall i, l i = []) by (intros i; rewrite <- Hl; reflexivity). clear -E.
    induction (seq 0 n) as [|i ks IH]; simpl; [reflexivity|]. now rewrite E.
  - assert (Hj : l j = p :: from j m) by (rewrite <- Hl, from_cons, decide_True; reflexivity).
    assert (Ho : forall i, i <> j -> l i = from i m)
      by (intros i Hi; rewrite <- Hl, from_cons, decide_False by congruence; reflexivity).
    assert (Hjn : j < n) by (destruct (le_lt_dec n j) as [H|H]; [rewrite Hn in Hj by exact H; discriminate|exact H]).
    rewrite (concat_update n j p l (fun i => from i m)) by assumption. simpl. f_equiv.
    apply IH; [reflexivity|]. intros i Hi. rewrite <- Ho by lia. now apply Hn.
Qed.

(** The readers' order is kept and the keys are merged: what one pop adds. *)
Lemma merge_sorted_cons i0 p0 (m : list (nat * P)) :
  (forall i, in_order (from i ((i0, p0) :: m))) ->
  ((forall i, in_order (from i m)) -> in_order (map snd m)) ->
  (forall i q l, i <> i0 -> from i m = q :: l -> (pts p0 <= pts q)%Z) ->
  in_order (map snd ((i0, p0) :: m)).
Proof.
  intros Hs IH Hmin. unfold in_order in *. cbn [map snd]. constructor.
  - apply IH. intros i. specialize (Hs i). rewrite from_cons in Hs. case_decide; [now inversion Hs|exact Hs].
  - apply List.Forall_forall. intros q Hq. apply in_map_iff in Hq as ([j q'] & Eq & Hin). simpl in Eq. subst q'.
    assert (Hq : q ∈ from j m) by (apply from_elem; now apply list_elem_of_In).
    specialize (Hs j). rewrite from_cons in Hs. case_decide as D.
    + subst j. inversion Hs as [|? ? _ Hall]. rewrite List.Forall_forall in Hall. apply Hall.
      now apply list_elem_of_In.
    + destruct (from j m) as [|x l] eqn:E; [now apply elem_of_nil in Hq|].
      pose proof (Hmin j x l ltac:(congruence) E) as Hx. apply list.elem_of_cons in Hq as [->|Hq]; [exact Hx|].
      inversion Hs as [|? ? _ Hall]. rewrite List.Forall_forall in Hall.
      specialize (Hall q ltac:(now apply list_elem_of_In)). lia.
Qed.
End Spec.

(** ** Soundness and completeness of the loop *)

Section Facts.
Context {St Item Error R P : Type} (ts : Item -> Z) (idx : Item -> nat).
Context (next : nat -> St -> nres Item Error * St) (emit : Item -> St -> result Error St).
Context `{S : !Source R P ts idx next emit}.

(** What reader [i] still has to give: the value of its item in the heap,
    if it has one, and then its stream. *)
Definition pending (s : St) (h : list Item) (i : nat) (l : list P) : Prop :=
  (exists it l', it ∈ h /\ idx it = i /\ stream step (src s i) l' /\ l = val s it :: l') \/
  ((forall it, it ∈ h -> idx it <> i) /\ l = []).

Definition ok (s : St) (h : list Item) : Prop :=
  inv s /\ heap ts h /\ (forall it, it ∈ h -> live s it) /\ NoDup (map idx h).

Lemma pending_ext s s' h h' i l :
  (forall it, idx it = i -> it ∈ h <-> it ∈ h') -> (forall it, it ∈ h -> idx it = i -> val s' it = val s it) ->
  src s' i = src s i -> pending s h i l <-> pending s' h' i l.
Proof.
  intros Hh Hv Hs. unfold pending. rewrite Hs. split; intros [(it & l' & Hin & Hi & Hst & ->)|[Hno ->]].
  - left. exists it, l'. rewrite Hv by assumption. splits; auto. now apply Hh.
  - right. split; [|reflexivity]. intros it Hin Hi. apply (Hno it); [|exact Hi]. now apply Hh.
  - left. exists it, l'. apply Hh in Hin; [|exact Hi]. rewrite Hv by assumption. splits; auto.
  - right. split; [|reflexivity]. intros it Hin Hi. apply (Hno it); [|exact Hi]. now apply Hh.
Qed.

Lemma idx_unique h it it' : NoDup (map idx h) -> it ∈ h -> it' ∈ h -> idx it = idx it' -> it = it'.
Proof.
  induction h as [|x h IH]; intros Hnd H1 H2 E; [now apply elem_of_nil in H1|].
  cbn [map] in Hnd. apply list.NoDup_cons in Hnd as [Hni Hnd].
  apply list.elem_of_cons in H1 as [->|H1], H2 as [->|H2]; auto.
  - destruct Hni. rewrite E. apply list_elem_of_In, in_map. now apply list_elem_of_In.
  - destruct Hni. rewrite <- E. apply list_elem_of_In, in_map. now apply list_elem_of_In.
Qed.

(** The heap after reading reader [j], which had no item in it. *)
Lemma ok_push s s' h j it :
  ok s h -> (forall it, it ∈ h -> idx it <> j) -> next j s = (Got it, s') -> ok s' (Push ts it h).
Proof.
  intros (Hinv & Hh & Hl & Hnd) Hj E. destruct (next_got j s it s' Hinv E) as ((Hsrc & Hout & Hinv' & Hap) & _ & Hi & Hlive).
  unfold ok. splits; [exact Hinv'|now apply Push_heap|..].
  - intros it' Hin. rewrite Push_perm in Hin. apply list.elem_of_cons in Hin as [->|Hin]; [exact Hlive|].
    apply Hap; auto.
  - assert (Hp : map idx (Push ts it h) ≡ₚ map idx (it :: h)) by now rewrite Push_perm.
    rewrite Hp. cbn [map]. constructor; [|exact Hnd]. rewrite Hi. intros Hin.
    apply list_elem_of_In, in_map_iff in Hin as (it' & E' & Hin'). apply (Hj it'); [now apply list_elem_of_In|exact E'].
Qed.

Lemma ok_eof s s' h j :
  ok s h -> (forall it, it ∈ h -> idx it <> j) -> next j s = (AtEOF, s') -> ok s' h.
Proof.
  intros (Hinv & Hh & Hl & Hnd) Hj E. destruct (next_eof j s s' Hinv E) as ((Hsrc & Hout & Hinv' & Hap) & _).
  unfold ok. splits; auto. intros it Hin. apply Hap; auto.
Qed.

(** Reading reader [j] turns its stream into what is pending of it, and
    leaves the others as they are. *)
Lemma pending_push s s' h j it i l :
  ok s h -> (forall it, it ∈ h -> idx it <> j) -> next j s = (Got it, s') ->
  pending s' (Push ts it h) i l <-> if decide (i = j) then stream step (src s i) l else pending s h i l.
Proof.
  intros Hok Hj E. pose proof Hok as (Hinv & _ & Hl & _).
  destruct (next_got j s it s' Hinv E) as ((Hsrc & Hout & _ & Hap) & Hstep & Hi & _).
  case_decide as D.
  - subst j i. destruct (ok_push s s' h _ it Hok Hj E) as (_ & _ & _ & Hnd).
    assert (Hin : it ∈ Push ts it h) by (rewrite Push_perm; left). split.
    + intros [(it' & l' & Hin' & Hi' & Hst & ->)|[Hno ->]]; [|now destruct (Hno it Hin)].
      rewrite (idx_unique _ it' it Hnd Hin' Hin Hi'). eapply stream_cons; eassumption.
    + intros Hst. left. inversion Hst as [r Hend|r p r' l' Hs Hst']; subst; [congruence|].
      rewrite Hstep in Hs. injection Hs as <- <-. exists it, l'. splits; auto.
  - symmetry. apply pending_ext.
    + intros it' Hi'. rewrite Push_perm, list.elem_of_cons. split; [auto|]. intros [->|H]; [congruence|exact H].
    + intros it' Hin Hi'. apply Hap; auto.
    + now apply Hsrc.
Qed.

Lemma pending_eof s s' h j i l :
  ok s h -> (forall it, it ∈ h -> idx it <> j) -> next j s = (AtEOF, s') ->
  pending s' h i l <-> if decide (i = j) then stream step (src s i) l else pending s h i l.
Proof.
  intros (Hinv & _ & Hl & _) Hj E. destruct (next_eof j s s' Hinv E) as ((Hsrc & Hout & _ & Hap) & Hstep).
  case_decide as D.
  - subst i. split.
    + intros [(it' & l' & Hin' & Hi' & _)|[_ ->]]; [now destruct (Hj it' Hin')|now apply stream_end].
    + intros Hst. right. split; [exact Hj|]. inversion Hst; [reflexivity|congruence].
  - symmetry. apply pending_ext; [reflexivity| |now apply Hsrc]. intros it' Hin Hi'. apply Hap; [now apply Hl|congruence].
Qed.

(** Popping and writing the earliest item. *)
Lemma pop_emit s h it h' s' :
  ok s h -> Pop ts h = Some (it, h') -> emit it s = Ok s' ->
  ok s' h' /\ it ∈ h /\ (forall it', it' ∈ h' -> idx it' <> idx it) /\
  out s' = out s ++ [(idx it, val s it)] /\ src s' (idx it) = src s (idx it) /\
  (forall i l, i <> idx it -> pending s' h' i l <-> pending s h i l) /\
  (forall y, y ∈ h -> (pts (val s it) <= pts (val s y))%Z).
Proof.
  intros (Hinv & Hh & Hl & Hnd) E Ee.
  assert (Hne : h <> []) by (intros ->; cbn in E; discriminate).
  destruct (Pop_spec ts h Hh Hne) as (x & h1 & E' & Hp & Hh' & Hmin). rewrite E in E'. injection E' as <- <-.
  assert (Hin : it ∈ h) by (rewrite Hp; left).
  assert (Hsub : forall it', it' ∈ h' -> it' ∈ h) by (intros it' H; rewrite Hp; now right).
  assert (Hnd' : NoDup (map idx (it :: h'))) by (rewrite <- Hp; exact Hnd).
  cbn [map] in Hnd'. apply list.NoDup_cons in Hnd' as [Hni Hnd'].
  assert (Hoth : forall it', it' ∈ h' -> idx it' <> idx it).
  { intros it' H Ei. apply Hni. rewrite <- Ei. apply list_elem_of_In, in_map. now apply list_elem_of_In. }
  destruct (emit_ok it s s' Hinv (Hl it Hin) Ee) as (Hinv' & Hout & Hsrc & Hlv).
  splits; auto.
  - unfold ok. splits; auto. intros it' H. apply Hlv, Hl, Hsub, H.
  - intros i l Hi. symmetry. apply pending_ext.
    + intros it' Hi'. rewrite Hp, list.elem_of_cons. split; [|auto]. intros [->|H]; [congruence|exact H].
    + intros it' H Hi'. apply Hlv, Hl, H.
    + apply Hsrc.
  - intros y Hy. rewrite <- !live_ts by auto. now apply Hmin.
Qed.

(** A finished loop wrote every pending item, each reader's in its order,
    and in key order when every reader's were. *)
Lemma drain_sound fuel h s s' :
  ok s h -> drain ts idx next emit fuel h s = MDone s' ->
  inv s' /\ exists m, out s' = out s ++ m /\ (forall i, pending s h i (from i m)) /\
    ((forall i, in_order pts (from i m)) -> in_order pts (map snd m)).
Proof.
  revert h s. induction fuel as [|fuel IH]; intros h s Hok E; [discriminate|]. cbn [drain] in E.
  destruct (Pop ts h) as [[it h1]|] eqn:Ep.
  2: { injection E as <-. split; [apply Hok|]. exists []. rewrite app_nil_r. splits; [reflexivity| |].
       - intros i. right. split; [|reflexivity]. destruct h as [|x h]; [intros it H; now apply elem_of_nil in H|].
         destruct (Pop_spec ts (x :: h) ltac:(apply Hok) ltac:(discriminate)) as (? & ? & E' & _). congruence.
       - intros _. constructor. }
  destruct (emit it s) as [s1|] eqn:Ee; [|discriminate].
  destruct (pop_emit s h it h1 s1 Hok Ep Ee) as (Hok1 & Hin & Hoth & Hout & Hsrc & Hpend & Hmin).
  assert (Hgo : exists s2 h2, drain ts idx next emit fuel h2 s2 = MDone s' /\ ok s2 h2 /\ out s2 = out s1 /\
    forall i l, pending s2 h2 i l <-> if decide (i = idx it) then stream step (src s1 i) l else pending s1 h1 i l).
  { destruct (next (idx it) s1) as [[it2| |e] s2] eqn:En; [..|discriminate].
    - exists s2, (Push ts it2 h1). splits; [exact E|now apply (ok_push s1 s2 h1 (idx it))| |].
      + apply (next_got (idx it) s1 it2 s2 (proj1 Hok1) En).
      + intros i l. now apply pending_push.
    - exists s2, h1. splits; [exact E|now apply (ok_eof s1 s2 h1 (idx it))| |].
      + apply (next_eof (idx it) s1 s2 (proj1 Hok1) En).
      + intros i l. now apply pending_eof. }
  destruct Hgo as (s2 & h2 & Ed & Hok2 & Ho2 & Hp2).
  destruct (IH h2 s2 Hok2 Ed) as (Hinv' & m & Hm & Hpm & Hord). split; [exact Hinv'|].
  exists ((idx it, val s it) :: m). rewrite Hm, Ho2, Hout, <- app_assoc.
  assert (Hpd : forall i, pending s h i (from i ((idx it, val s it) :: m))).
  { intros i. rewrite from_cons. specialize (Hpm i). apply Hp2 in Hpm. case_decide as D.
    - subst i. rewrite decide_True by reflexivity. rewrite Hsrc in Hpm. left. exists it, (from (idx it) m). splits; auto.
    - rewrite decide_False by congruence. now apply Hpend. }
  splits; [reflexivity|exact Hpd|].
  intros Hall. apply merge_sorted_cons; [exact Hall|exact Hord|].
  intros i q l Hi Hq. specialize (Hpd i). rewrite from_cons, decide_False, Hq in Hpd by congruence.
  destruct Hpd as [(it' & l' & Hin' & _ & _ & [= -> _])|[_ [=]]]. now apply Hmin.
Qed.

Lemma prime_sound rs h s h' s' :
  NoDup rs -> ok s h -> (forall it, it ∈ h -> idx it ∉ rs) -> prime ts next rs h s = MDone (h', s') ->
  ok s' h' /\ out s' = out s /\
  forall i l, pending s' h' i l <-> if decide (i ∈ rs) then stream step (src s i) l else pending s h i l.
Proof.
  revert h s. induction rs as [|j rs IH]; intros h s Hnd Hok Hdis E; cbn [prime] in E.
  { injection E as <- <-. splits; auto. }
  apply list.NoDup_cons in Hnd as [Hni Hnd].
  assert (Hj : forall it, it ∈ h -> idx it <> j) by (intros it H Ej; apply (Hdis it H); rewrite Ej; left).
  assert (Hgo : exists s1 h1, prime ts next rs h1 s1 = MDone (h', s') /\ ok s1 h1 /\ apart j s s1 /\
    (forall it, it ∈ h1 -> idx it ∉ rs) /\
    forall i l, pending s1 h1 i l <-> if decide (i = j) then stream step (src s i) l else pending s h i l).
  { destruct (next j s) as [[it| |e] s1] eqn:En; [..|discriminate].
    - destruct (next_got j s it s1 (proj1 Hok) En) as (Hap & _ & Hi & _).
      exists s1, (Push ts it h). splits; [exact E|now apply (ok_push s s1 h j)|exact Hap| |].
      + intros it' H. rewrite Push_perm in H. apply list.elem_of_cons in H as [->|H]; [congruence|].
        intros Hr. apply (Hdis it' H). now right.
      + intros i l. now apply pending_push.
    - destruct (next_eof j s s1 (proj1 Hok) En) as (Hap & _).
      exists s1, h. splits; [exact E|now apply (ok_eof s s1 h j)|exact Hap| |].
      + intros it' H Hr. apply (Hdis it' H). now right.
      + intros i l. now apply pending_eof. }
  destruct Hgo as (s1 & h1 & Ep & Hok1 & (Hsrc & Hout & _) & Hd1 & Hp1).
  destruct (IH h1 s1 Hnd Hok1 Hd1 Ep) as (Hok' & Ho' & Hp'). splits; [exact Hok'|congruence|].
  intros i l. rewrite Hp'. case_decide as D1.
  - rewrite decide_True by now right. rewrite Hsrc by (intros ->; contradiction). reflexivity.
  - rewrite Hp1. case_decide as D2; [rewrite decide_True by (subst; left); reflexivity|].
    rewrite decide_False; [reflexivity|]. rewrite list.elem_of_cons. tauto.
Qed.

Lemma ok_nil s : inv s -> ok s [].
Proof. intros H. unfold ok. splits; [exact H|apply heap_nil|intros it Hin; now apply elem_of_nil in Hin|constructor]. Qed.

(** A merge that succeeds read every reader to its end and wrote exactly
    what the readers gave. *)
Lemma kway_sound fuel n s s' :
  inv s -> kway ts idx next emit fuel n s = MDone s' ->
  inv s' /\ exists m, out s' = out s ++ m /\ (forall i, i < n -> stream step (src s i) (from i m)) /\
    (forall i, n <= i -> from i m = []) /\ ((forall i, in_order pts (from i m)) -> in_order pts (map snd m)).
Proof.
  intros Hinv E. unfold kway in E. destruct (prime ts next (seq 0 n) [] s) as [[h1 s1]|e|] eqn:Ep; [|discriminate..].
  destruct (prime_sound (seq 0 n) [] s h1 s1) as (Hok & Ho & Hp); auto.
  { apply NoDup_seq. } { now apply ok_nil. } { intros it H. now apply elem_of_nil in H. }
  destruct (drain_sound fuel h1 s1 s' Hok E) as (Hinv' & m & Hm & Hpm & Hord). split; [exact Hinv'|].
  exists m. rewrite Hm, Ho. splits; [reflexivity| | |exact Hord]; intros i Hi; specialize (Hpm i); apply Hp in Hpm.
  - now rewrite decide_True in Hpm by (apply elem_of_seq; lia).
  - rewrite decide_False in Hpm by (rewrite elem_of_seq; lia).
    destruct Hpm as [(it & l' & H & _)|[_ H]]; [now apply elem_of_nil in H|exact H].
Qed.

(** *** Completeness: only a fault of a reader or of the writer stops the merge *)

Context (n : nat) (good : St -> Prop) (okp : P -> Prop).
Context (good_next : forall i s, i < n -> inv s -> good s ->
  match step (src s i) with
  | SGot p _ => okp p -> exists it s', next i s = (Got it, s') /\ good s'
  | SEnd => exists s', next i s = (AtEOF, s') /\ good s'
  | SFault => True
  end).
Context (good_emit : forall it s s', inv s -> good s -> live s it -> emit it s = Ok s' -> good s').

Lemma next_stream i s l :
  i < n -> inv s -> good s -> stream step (src s i) l -> (forall p, p ∈ l -> okp p) ->
  exists s', good s' /\ ((exists it, next i s = (Got it, s')) \/ next i s = (AtEOF, s')).
Proof.
  intros Hi Hinv Hg Hst Hp. specialize (good_next i s Hi Hinv Hg).
  inversion Hst as [r Hs|r p r' l' Hs _]; subst; rewrite Hs in good_next.
  - destruct good_next as (s' & E & G). eauto.
  - destruct good_next as (it & s' & E & G); [apply Hp; left|]. eauto 6.
Qed.

Lemma drain_complete fuel h s L :
  ok s h -> good s -> (forall i, pending s h i (L i)) -> (forall i p, p ∈ L i -> okp p) ->
  (forall i, n <= i -> L i = []) -> length (concat (map L (seq 0 n))) < fuel ->
  (exists s', drain ts idx next emit fuel h s = MDone s') \/
  (exists it s0 e, emit it s0 = Err e /\ drain ts idx next emit fuel h s = MErr e).
Proof.
  revert h s L. induction fuel as [|fuel IH]; intros h s L Hok Hg Hp Hpo Hn Hf; [lia|]. cbn [drain].
  destruct (Pop ts h) as [[it h1]|] eqn:Ep; [|left; eauto].
  destruct (emit it s) as [s1|e] eqn:Ee; [|right; eauto 6].
  destruct (pop_emit s h it h1 s1 Hok Ep Ee) as (Hok1 & Hin & Hoth & Hout & Hsrc & Hpend & Hmin).
  assert (Hg1 : good s1) by (eapply (good_emit it s); eauto; apply Hok; exact Hin).
  destruct (Hp (idx it)) as [(it' & l' & Hin' & Hi' & Hst & HL)|[Hno _]]; [|now destruct (Hno it Hin)].
  assert (it' = it) as -> by (eapply idx_unique; eauto; apply Hok).
  set (L' := fun i => if decide (i = idx it) then l' else L i).
  assert (HLe : L' (idx it) = l') by (unfold L'; now rewrite decide_True).
  assert (HLn : forall i, i <> idx it -> L i = L' i) by (intros i Hi; unfold L'; now rewrite decide_False).
  assert (Hlt : idx it < n).
  { destruct (le_lt_dec n (idx it)) as [H|H]; [|exact H]. rewrite Hn in HL by exact H. discriminate. }
  assert (Hf' : length (concat (map L' (seq 0 n))) < fuel).
  { rewrite (concat_update n (idx it) (val s it) L L') in Hf; [simpl in Hf; lia|now rewrite HLe|exact HLn|exact Hlt]. }
  assert (Hpo' : forall i p, p ∈ L' i -> okp p).
  { intros i p Hpi. unfold L' in Hpi. case_decide; [|now apply (Hpo i)]. apply (Hpo (idx it)). rewrite HL. now right. }
  assert (Hn' : forall i, n <= i -> L' i = []) by (intros i Hi; rewrite <- HLn by lia; now apply Hn).
  rewrite <- Hsrc in Hst.
  destruct (next_stream (idx it) s1 l') as (s2 & Hg2 & [[it2 En]|En]); auto.
  { apply Hok1. } { intros p H. apply (Hpo' (idx it)). now rewrite HLe. }
  - rewrite En. apply (IH _ _ L'); auto; [now apply (ok_push s1 s2 h1 (idx it))|].
    intros i. rewrite (pending_push s1 s2 h1 (idx it)) by assumption. case_decide as D; [subst i; now rewrite HLe|].
    rewrite <- HLn by exact D. now apply Hpend.
  - rewrite En. apply (IH _ _ L'); auto; [now apply (ok_eof s1 s2 h1 (idx it))|].
    intros i. rewrite (pending_eof s1 s2 h1 (idx it)) by assumption. case_decide as D; [subst i; now rewrite HLe|].
    rewrite <- HLn by exact D. now apply Hpend.
Qed.

Lemma prime_complete rs h s L :
  NoDup rs -> (forall i, i ∈ rs -> i < n) -> ok s h -> good s -> (forall it, it ∈ h -> idx it ∉ rs) ->
  (forall i, i ∈ rs -> stream step (src s i) (L i)) -> (forall i p, p ∈ L i -> okp p) ->
  exists h' s', prime ts next rs h s = MDone (h', s') /\ good s'.
Proof.
  revert h s. induction rs as [|j rs IH]; intros h s Hnd Hrn Hok Hg Hdis Hst Hpo; cbn [prime]; [eauto|].
  apply list.NoDup_cons in Hnd as [Hni Hnd].
  assert (Hj : forall it, it ∈ h -> idx it <> j) by (intros it H Ej; apply (Hdis it H); rewrite Ej; left).
  destruct (next_stream j s (L j)) as (s1 & Hg1 & [[it En]|En]); eauto.
  { apply Hrn. left. } { apply Hok. } { apply Hst. left. }
  - destruct (next_got j s it s1 (proj1 Hok) En) as ((Hsrc & _) & _ & Hi & _). rewrite En. apply IH; auto.
    + intros i Hir. apply Hrn. now right.
    + now apply (ok_push s s1 h j).
    + intros it' H. rewrite Push_perm in H. apply list.elem_of_cons in H as [->|H]; [congruence|].
      intros Hr. apply (Hdis it' H). now right.
    + intros i Hir. rewrite Hsrc by (intros ->; contradiction). apply Hst. now right.
  - destruct (next_eof j s s1 (proj1 Hok) En) as ((Hsrc & _) & _). rewrite En. apply IH; auto.
    + intros i Hir. apply Hrn. now right.
    + now apply (ok_eof s s1 h j).
    + intros it' H Hr. apply (Hdis it' H). now right.
    + intros i Hir. rewrite Hsrc by (intros ->; contradiction). apply Hst. now right.
Qed.

(** With every reader a finite stream of acceptable values and fuel for all
    of them, the merge succeeds or the writer failed. *)
Lemma kway_complete fuel s L :
  inv s -> good s -> (forall i, i < n -> stream step (src s i) (L i)) -> (forall i p, p ∈ L i -> okp p) ->
  (forall i, n <= i -> L i = []) -> length (concat (map L (seq 0 n))) < fuel ->
  (exists s', kway ts idx next emit fuel n s = MDone s') \/
  (exists it s0 e, emit it s0 = Err e /\ kway ts idx next emit fuel n s = MErr e).
Proof.
  intros Hinv Hg Hst Hpo Hn Hf. unfold kway.
  assert (Hno : forall it : Item, it ∈ [] -> idx it ∉ seq 0 n) by (intros it H; now apply elem_of_nil in H).
  assert (Hst' : forall i, i ∈ seq 0 n -> stream step (src s i) (L i)) by (intros i H; apply elem_of_seq in H; apply Hst; lia).
  destruct (prime_complete (seq 0 n) [] s L) as (h1 & s1 & Ep & Hg1); auto.
  { apply NoDup_seq. } { intros i H. apply elem_of_seq in H. lia. } { now apply ok_nil. }
  destruct (prime_sound (seq 0 n) [] s h1 s1) as (Hok & Ho & Hp); auto.
  { apply NoDup_seq. } { now apply ok_nil. }
  rewrite Ep. apply (drain_complete fuel h1 s1 L); auto.
  intros i. rewrite Hp. case_decide as D; [now apply Hst'|].
  right. split; [intros it H; now apply elem_of_nil in H|]. apply Hn. rewrite elem_of_seq in D. lia.
Qed.
End Facts.
