(* ===== verification/Merge.v ===== *)
(** * Merge: publishing per-CPU shards as one file (internal/output)

    hookmerge.go's [mergeHookFiles] and merge.go's [mergeFiles], as
    instances of the loop of KWay.v. Hook shards are byte strings read block
    by block; the file is published only when everything succeeded. The
    plain merge reads packets through a third-party reader into one reusable
    buffer per shard: the buffers live in an explicit store of arrays, and a
    pending packet is a slice of one of them. *)

From Stdlib Require Import ZArith Lia Bool String Ascii List Sorted.
From stdpp Require Import base list strings numbers option gmap.
From S2P Require Import Prelude GoStd GoBytes PcapNg Heap KWay.
Local Open Scope Z_scope.

(** A slice of an array of the store: its address and length; the array's
    length is the capacity. *)
Record slice := mkSlice { addr : nat; slen : nat }.

Record mergeItem := mkMergeItem {
  ts : Z;               (* nanoseconds *)
  data : option slice;
  itemOrigLen : Z;
  blk : list Z;
  srcIface : Z;
  idx : nat
}.

(** ** The header of a hook file *)

Definition bytes_of (s : string) : list Z := map ord (B s).

Definition hookDescriptionPrefix : string := "bpf-ninja capture site_id=".

Record Config := mkConfig { LinkType : Z; Hooks : list (list Z) }.

Definition linkTypeOrDefault (cfg : Config) : Z := if LinkType cfg =? 0 then 1 else LinkType cfg.

Fixpoint initHooks_loop (hooks seen : list (list Z)) (i : Z) (fw : FastNgWriter) : wres :=
  match hooks with
  | [] => Some (fw, None)
  | name :: hooks =>
      if (length name =? 0)%nat || bool_decide (name ∈ seen)
      then fail (Errorf "empty or duplicate hook name %q" []) fw
      else
        andThen (writeIDBDescription (linkType fw) name
                   (bytes_of hookDescriptionPrefix ++ bytes_of (fmtd (i + 1))) fw) (fun fw =>
        initHooks_loop hooks (name :: seen) (i + 1) (set_nIfaces (nIfaces fw + 1) fw))
  end.

(** [dest] is the writer before the call, its interface count 0. *)
Definition initHooks (cfg : Config) (dest : nat) : wres :=
  andThen (writeSHB (mkW [] dest (u16 (linkTypeOrDefault cfg)) 0)) (fun fw =>
  if 255 <? Z.of_nat (length (Hooks cfg))
  then fail (Errorf "hook layout needs 1..255 hooks, got %d" [AInt (Z.of_nat (length (Hooks cfg)))]) fw
  else initHooks_loop (Hooks cfg) [] 0 fw).

(** The bytes [initHooks] writes: what a [bytes.Buffer], which grows as
    needed, must hold. *)
Fixpoint idb_bytes (lt : Z) (hooks : list (list Z)) (i : Z) : list Z :=
  match hooks with
  | [] => []
  | name :: hooks =>
      idbBytes lt name (bytes_of hookDescriptionPrefix ++ bytes_of (fmtd (i + 1))) ++ idb_bytes lt hooks (i + 1)
  end.

Definition hook_header (cfg : Config) : list Z :=
  shbBytes ++ idb_bytes (u16 (linkTypeOrDefault cfg)) (Hooks cfg) 0.

(** ** The world *)

(** The operating system as the merge meets it: the content of each input
    (absent, or failing to open), whether the temporary file can be
    created, how many bytes it takes, and whether closing and renaming it,
    and closing an input, succeed. *)
Inductive openErr := ErrNotExist | ErrOpen (e : error).

Record World := mkWorld {
  open : string -> result openErr (list Z);
  createErr : option error;
  diskRoom : nat;
  closeErr : option error;
  renameErr : option error;
  closeIn : string -> option error
}.

(** What a merge leaves behind: the bytes published at the output path, if
    the rename was reached, and the error returned. *)
Record Outcome := mkOutcome { published : option (list Z); failure : option error }.

Definition failed (e : error) : Outcome := mkOutcome None (Some e).

(** ** mergeHookFiles *)

(** The local variables of the loop; [log] lists the items written so far,
    each with [dest.Write(it.block)]. *)
Record hstate := mkH {
  readers : list (list Z);
  runIDs : option bool;
  dest : list Z;
  log : list mergeItem
}.

Definition errRead (e : readErr) : error :=
  match e with EOF => Errorf "EOF" [] | UnexpectedEOF => Errorf "unexpected EOF" [] end.

Definition herr_error (e : herr) : error :=
  match e with HRead e => errRead e | HFmt e => e | HPanic => Errorf "panic" [] end.

(** The closure [next], with the wrapping its callers give an error (less
    the path of the shard). *)
Definition hook_next (nhooks : Z) (i : nat) (s : hstate) : nres mergeItem error * hstate :=
  match readers s !! i with
  | None => (Failed (Errorf "panic" []), s)
  | Some r =>
      match hookNext nhooks r with
      | Err (HRead EOF) => (AtEOF, s)
      | Err e => (Failed (Errorf "reading hook shard %s: %w" [AErr (herr_error e)]), s)
      | Ok (it, r) =>
          let s := mkH (<[i := r]> (readers s)) (runIDs s) (dest s) (log s) in
          let got := Got (mkMergeItem (int64_of_u64 (its it)) None 0 (block it) 0 i) in
          match runIDs s with
          | None => (got, mkH (readers s) (Some (hasID it)) (dest s) (log s))
          | Some b =>
              if bool_decide (b = hasID it) then (got, s)
              else (Failed (Errorf "reading hook shard %s: %w"
                              [AErr (Errorf "hook EPB epb_packetid presence changes mid-stream" [])]), s)
          end
      end
  end.

(** [dest.Write(it.block)]: the buffered writer fails once the bytes no
    longer fit, at this write or, for the buffered tail, at [Flush]. *)
Definition hook_emit (room : nat) (it : mergeItem) (s : hstate) : result error hstate :=
  if (length (dest s ++ blk it) <=? room)%nat
  then Ok (mkH (readers s) (runIDs s) (dest s ++ blk it) (log s ++ [it]))
  else Err shortWrite.

(** Opens the shards that exist and checks that each starts with the
    header; the result is the rest of each. *)
Fixpoint open_shards (w : World) (header : list Z) (paths : list string) : result error (list (list Z)) :=
  match paths with
  | [] => Ok []
  | path :: paths =>
      match open w path with
      | Err ErrNotExist => open_shards w header paths
      | Err (ErrOpen e) => Err e
      | Ok f =>
          match readFull (length header) f with
          | Err e => Err (Errorf "hook shard %s header: %w" [AStr path; AErr (errRead e)])
          | Ok (got, r) =>
              if negb (bool_decide (got = header)) then Err (Errorf "hook shard %s interface table differs" [AStr path])
              else match open_shards w header paths with
                   | Ok rs => Ok (r :: rs)
                   | Err e => Err e
                   end
          end
      end
  end.

(** The deferred closing of the inputs joins its errors to the result. *)
Definition close_inputs (w : World) (paths : list string) (o : Outcome) : Outcome :=
  mkOutcome (published o)
    (fold_left (fun acc p => match open w p, closeIn w p with
                             | Ok _, Some e => Some (match acc with
                                                     | Some a => Errorf "errors.Join" [AErr a; AErr e]
                                                     | None => e
                                                     end)
                             | _, _ => acc
                             end) paths (failure o)).

(** From the creation of the temporary file to the rename. *)
Definition merge_open (w : World) (nhooks : Z) (header : list Z) (rs : list (list Z)) : Outcome :=
  match createErr w with
  | Some e => failed e
  | None =>
      if (diskRoom w <? length header)%nat then failed shortWrite
      else
        match kway ts idx (hook_next nhooks) (hook_emit (diskRoom w)) (S (length (concat rs))) (length rs)
                (mkH rs None header []) with
        | MErr e => failed e
        | MFuel => failed (Errorf "out of fuel" [])
        | MDone s =>
            match closeErr w, renameErr w with
            | Some e, _ => failed e
            | None, Some e => failed e
            | None, None => mkOutcome (Some (dest s)) None
            end
        end
  end.

Definition mergeHookFiles (w : World) (paths : list string) (cfg : Config) : Outcome :=
  match initHooks cfg (length (hook_header cfg)) with
  | None => failed (Errorf "panic" [])
  | Some (_, Some e) => failed e
  | Some (fw, None) =>
      close_inputs w paths
        match open_shards w (written fw) paths with
        | Err e => failed e
        | Ok rs => merge_open w (Z.of_nat (length (Hooks cfg))) (written fw) rs
        end
  end.

(** ** Lemmas: reading blocks *)

Lemma hookItem_block nhooks b it : hookItem nhooks b = Ok it -> block it = b.
Proof. unfold hookItem. intros H. repeat (case_in H; try discriminate). now injection H as <-. Qed.

Lemma readFull_inv n r a rest : readFull n r = Ok (a, rest) -> r = a ++ rest /\ length a = n.
Proof.
  unfold readFull. case_goal; [discriminate|]. intros [= <- <-]. bools. split; [now rewrite take_drop|].
  rewrite length_take. lia.
Qed.

Lemma readHookBlock_inv r b rest :
  readHookBlock r = Ok (b, rest) ->
  r = b ++ rest /\ (12 <= length b)%nat /\ forall rest', readHookBlock (b ++ rest') = Ok (b, rest').
Proof.
  unfold readHookBlock. destruct (readFull 8 r) as [[hdr r1]|] eqn:E1; [|discriminate].
  destruct (readFull_inv _ _ _ _ E1) as [-> L1]. case_goal; [discriminate|].
  destruct (readFull _ r1) as [[body r2]|] eqn:E2; [|discriminate].
  destruct (readFull_inv _ _ _ _ E2) as [-> L2]. case_goal; [|discriminate]. case_goal; [discriminate|].
  intros [= <- <-]. rewrite <- app_assoc. splits; [reflexivity|rewrite length_app; bools; lia|].
  intros rest'. rewrite <- app_assoc, readFull_app by exact L1. rewrite E, readFull_app by exact L2.
  now rewrite E0, E3.
Qed.

Lemma hookNext_inv nhooks r it rest :
  hookNext nhooks r = Ok (it, rest) ->
  r = block it ++ rest /\ (12 <= length (block it))%nat /\ hookItem nhooks (block it) = Ok it /\
  forall rest', hookNext nhooks (block it ++ rest') = Ok (it, rest').
Proof.
  unfold hookNext. destruct (readHookBlock r) as [[b r1]|] eqn:E; [|discriminate].
  destruct (hookItem nhooks b) as [it'|] eqn:Ei; [|discriminate]. intros [= <- <-].
  destruct (readHookBlock_inv _ _ _ E) as (-> & Hl & Hr). pose proof (hookItem_block _ _ _ Ei) as Eb.
  rewrite Eb. splits; auto. intros rest'. now rewrite Hr, Ei.
Qed.

(** One step of a shard, as a pure reader. *)
Definition hook_step (nhooks : Z) (r : list Z) : sres (list Z) epbItem :=
  match hookNext nhooks r with
  | Ok (it, r) => SGot it r
  | Err (HRead EOF) => SEnd
  | Err _ => SFault
  end.

Lemma options_no_read fuel o pos h s e : options_loop fuel o pos h s <> Err (HRead e).
Proof.
  revert pos h s. induction fuel as [|fuel IH]; intros pos h s; cbn [options_loop]; [discriminate|]. cbv zeta.
  repeat case_goal; try discriminate; apply IH.
Qed.

Lemma hookItem_no_read nhooks b e : hookItem nhooks b <> Err (HRead e).
Proof.
  unfold hookItem. repeat case_goal; try discriminate. intros [= ->].
  match goal with H : checkHookOptions _ = _ |- _ => revert H end. unfold checkHookOptions.
  destruct (_ =? 0)%nat; [discriminate|apply options_no_read].
Qed.

Lemma hook_step_end nhooks r : hook_step nhooks r = SEnd -> r = [].
Proof.
  unfold hook_step, hookNext. destruct (readHookBlock r) as [[b r']|e] eqn:E.
  - destruct (hookItem nhooks b) as [|[e'| |]] eqn:E'; try discriminate. now apply hookItem_no_read in E'.
  - unfold readHookBlock in E. destruct (readFull 8 r) as [[hdr r1]|e'] eqn:E1.
    + repeat (case_in E; try discriminate); injection E as <-; discriminate.
    + injection E as <-. unfold readFull in E1. case_in E1; [|discriminate]. injection E1 as <-. case_goal; [|discriminate].
      intros _. bools. now destruct r.
Qed.

Lemma hook_stream_bytes nhooks r l : stream (hook_step nhooks) r l -> r = concat (map block l).
Proof.
  induction 1 as [r E|r p r' l E _ IH]; [now apply hook_step_end in E|].
  unfold hook_step in E. destruct (hookNext nhooks r) as [[it r1]|[e| |]] eqn:En; [|destruct e; discriminate|discriminate..].
  injection E as <- <-. destruct (hookNext_inv _ _ _ _ En) as (-> & _). simpl. now rewrite IH.
Qed.

(** Blocks that were read can be read again, in any order. *)
Lemma hook_stream_again nhooks (l : list epbItem) :
  Forall (fun it => exists r rest, hookNext nhooks r = Ok (it, rest)) l ->
  stream (hook_step nhooks) (concat (map block l)) l.
Proof.
  induction 1 as [|it l (r & rest & E) _ IH]; [now apply stream_end|].
  destruct (hookNext_inv _ _ _ _ E) as (_ & _ & _ & Hr). simpl. eapply stream_cons; [|exact IH].
  unfold hook_step. now rewrite Hr.
Qed.

Lemma hook_stream_read nhooks r l :
  stream (hook_step nhooks) r l -> Forall (fun it => exists r rest, hookNext nhooks r = Ok (it, rest)) l.
Proof.
  induction 1 as [r E|r p r' l E _ IH]; constructor; [|exact IH]. exists r, r'.
  unfold hook_step in E. destruct (hookNext nhooks r) as [[it r1]|[e| |]] eqn:En; [|destruct e; discriminate|discriminate..].
  now injection E as <- <-.
Qed.

(** ** The hook merge as an instance of the loop *)

Section HookSource.
Context (nhooks : Z) (room : nat) (header : list Z).

Definition hook_val (it : mergeItem) : epbItem :=
  match hookItem nhooks (blk it) with Ok e => e | Err _ => mkItem 0 (blk it) false end.

(** A pending item is a block that was read, its run-id shape the latched one. *)
Definition hook_live (s : hstate) (it : mergeItem) : Prop :=
  hookItem nhooks (blk it) = Ok (hook_val it) /\ runIDs s = Some (hasID (hook_val it)) /\
  ts it = int64_of_u64 (its (hook_val it)).

Definition hook_inv (s : hstate) : Prop :=
  dest s = header ++ concat (map blk (log s)) /\ forall it, it ∈ log s -> hook_live s it.

Lemma hook_val_block it : block (hook_val it) = blk it.
Proof. unfold hook_val. destruct (hookItem _ _) eqn:E; [now apply hookItem_block in E|reflexivity]. Qed.

Definition hook_src (s : hstate) (i : nat) : list Z := default [] (readers s !! i).

Definition hook_apart (i : nat) (s s' : hstate) : Prop :=
  (forall j, j <> i -> hook_src s' j = hook_src s j) /\ log s' = log s /\ dest s' = dest s /\
  (runIDs s' = runIDs s \/ runIDs s = None).

Lemma hook_next_cases i s r s' :
  hook_next nhooks i s = (r, s') ->
  match r with
  | Got it => exists e, hook_step nhooks (hook_src s i) = SGot e (hook_src s' i) /\ hook_apart i s s' /\
      blk it = block e /\ idx it = i /\ ts it = int64_of_u64 (its e) /\ runIDs s' = Some (hasID e) /\
      hookItem nhooks (blk it) = Ok e
  | AtEOF => hook_step nhooks (hook_src s i) = SEnd /\ s' = s
  | Failed _ => True
  end.
Proof.
  unfold hook_next. destruct (readers s !! i) as [rd|] eqn:Er; [|now intros [= <- <-]].
  assert (Hs : hook_src s i = rd) by (unfold hook_src; now rewrite Er). unfold hook_step. rewrite Hs.
  destruct (hookNext nhooks rd) as [[it rest]|e] eqn:En.
  2: { destruct e as [[|]| |]; intros [= <- <-]; auto. }
  assert (Hi : hook_src (mkH (<[i := rest]> (readers s)) (runIDs s) (dest s) (log s)) i = rest).
  { unfold hook_src. simpl. rewrite list_lookup_insert_eq; [reflexivity|eapply lookup_lt_Some; exact Er]. }
  assert (Hj : forall j, j <> i -> hook_src (mkH (<[i := rest]> (readers s)) (runIDs s) (dest s) (log s)) j = hook_src s j).
  { intros j H. unfold hook_src. simpl. now rewrite list_lookup_insert_ne. }
  destruct (hookNext_inv _ _ _ _ En) as (_ & _ & Hit & _).
  cbv zeta. cbn [readers runIDs dest log]. destruct (runIDs s) as [b|] eqn:Eb; [case_bool_decide as D|]; intros [= <- <-]; auto.
  - exists it. unfold hook_apart. cbn [readers runIDs dest log blk idx ts]. subst b.
    splits; auto. unfold hook_src in *. cbn [readers] in *. now rewrite Hi.
  - exists it. unfold hook_apart. cbn [readers runIDs dest log blk idx ts].
    splits; auto. unfold hook_src in *. cbn [readers] in *. now rewrite Hi.
Qed.

Lemma hook_live_apart i s s' it : hook_apart i s s' -> hook_live s it -> hook_live s' it.
Proof. intros (_ & _ & _ & H) (H1 & H2 & H3). unfold hook_live. splits; auto. destruct H as [->|H]; congruence. Qed.

#[export] Program Instance hook_source :
  Source (list Z) epbItem ts idx (hook_next nhooks) (hook_emit room) := {
  step := hook_step nhooks;
  src := hook_src;
  out s := map (fun it => (idx it, hook_val it)) (log s);
  val s it := hook_val it;
  pts e := int64_of_u64 (its e);
  live := hook_live;
  inv := hook_inv
}.
Next Obligation.
  intros i s it s' [Hd Hl] E. destruct (hook_next_cases i s _ s' E) as (e & Hs & Hap & Hb & Hi & Ht & Hr & Hit).
  assert (Hv : hook_val it = e) by (unfold hook_val; now rewrite Hit).
  pose proof Hap as (Hsrc & Hlog & Hdest & Hrun). unfold hook_inv. rewrite Hlog, Hdest, Hv. splits; auto.
  - intros it' H. eapply hook_live_apart; [exact Hap|now apply Hl].
  - intros it' H _. split; [|reflexivity]. eapply hook_live_apart; [exact Hap|exact H].
  - unfold hook_live. rewrite Hv. auto.
Qed.
Next Obligation.
  intros i s s' Hinv E. destruct (hook_next_cases i s _ s' E) as [Hs ->]. splits; auto.
Qed.
Next Obligation. intros s it (_ & _ & H). exact H. Qed.
Next Obligation.
  intros it s s' [Hd Hl] Hlive E. unfold hook_emit in E. case_if E; [|discriminate]. injection E as <-.
  unfold hook_inv, hook_live in *. cbn [dest log runIDs]. rewrite !map_app, concat_app, Hd. simpl.
  rewrite app_nil_r, <- app_assoc. splits; auto.
  intros it' H. apply elem_of_app in H as [H|H]; [now apply Hl|]. apply list_elem_of_singleton in H as ->. exact Hlive.
Qed.
End HookSource.

(** ** Lemmas: opening and the header *)

Definition shards (w : World) (paths : list string) : list (list Z) :=
  omap (fun p => match open w p with Ok f => Some f | Err _ => None end) paths.

Lemma open_shards_inv w header paths rs :
  open_shards w header paths = Ok rs -> shards w paths = map (app header) rs.
Proof.
  revert rs. induction paths as [|p paths IH]; intros rs E; cbn [open_shards] in E; [now injection E as <-|].
  unfold shards in *. cbn [omap list_omap]. destruct (open w p) as [f|[|e]] eqn:Eo; [|now apply IH|discriminate].
  destruct (readFull (length header) f) as [[got r]|] eqn:Er; [|discriminate].
  destruct (readFull_inv _ _ _ _ Er) as [-> _]. case_bool_decide as D; [|discriminate]. cbn [negb] in E. subst got.
  destruct (open_shards w header paths) as [rs'|]; [|discriminate]. injection E as <-. simpl. f_equal. now apply IH.
Qed.

Lemma andThen_ok m k fw : andThen m k = Some (fw, None) -> exists fw1, m = Some (fw1, None) /\ k fw1 = Some (fw, None).
Proof. destruct m as [[fw1 [e|]]|]; simpl; intros H; try discriminate. eauto. Qed.

Lemma appends_ok m b fw fw' :
  appends m b -> m fw = Some (fw', None) -> written fw' = written fw ++ b /\ linkType fw' = linkType fw.
Proof.
  intros Ha E. destruct (Ha fw) as (fw1 & e & Hm & Hl & _ & H). rewrite E in Hm. injection Hm as <- <-.
  split; [|exact Hl]. destruct (_ <=? _)%nat; [apply H|now destruct H].
Qed.

Lemma initHooks_loop_written hooks seen i fw fw' :
  initHooks_loop hooks seen i fw = Some (fw', None) ->
  written fw' = written fw ++ idb_bytes (linkType fw) hooks i.
Proof.
  revert seen i fw. induction hooks as [|name hooks IH]; intros seen i fw E; cbn [initHooks_loop idb_bytes] in *.
  { injection E as <-. now rewrite app_nil_r. }
  case_if E; [discriminate|]. apply andThen_ok in E as (fw1 & E1 & E). apply IH in E. cbn [set_nIfaces written linkType] in E.
  unfold writeIDBDescription in E1. case_if E1; [discriminate|].
  destruct (appends_ok _ _ fw fw1 (appends_write_raw _) E1) as [Hw Hl]. rewrite E, Hw, Hl. now rewrite <- app_assoc.
Qed.

Lemma initHooks_written cfg dest fw : initHooks cfg dest = Some (fw, None) -> written fw = hook_header cfg.
Proof.
  unfold initHooks. intros E. apply andThen_ok in E as (fw1 & E1 & E). case_if E; [discriminate|].
  destruct (appends_ok _ _ _ fw1 (appends_write_raw _) E1) as [Hw Hl].
  rewrite (initHooks_loop_written _ _ _ _ _ E), Hw, Hl. reflexivity.
Qed.

(** The outcome of the loop on the rests of the shards. *)
Lemma hook_kway_sound nhooks room header fuel rs s :
  kway ts idx (hook_next nhooks) (hook_emit room) fuel (length rs) (mkH rs None header []) = MDone s ->
  exists mt : list (nat * epbItem),
    dest s = header ++ concat (map block (map snd mt)) /\
    (forall i, (i < length rs)%nat -> stream (hook_step nhooks) (default [] (rs !! i)) (from i mt)) /\
    (forall i, (length rs <= i)%nat -> from i mt = []) /\
    (exists b, Forall (fun it => hasID it = b) (map snd mt)) /\
    ((forall i, in_order (fun e => int64_of_u64 (its e)) (from i mt)) ->
     in_order (fun e => int64_of_u64 (its e)) (map snd mt)).
Proof.
  intros E. destruct (kway_sound ts idx _ _ (S := hook_source nhooks room header) fuel (length rs) (mkH rs None header []) s) as (Hinv & mt & Hout & H1 & H2 & H3); [|exact E|].
  { split; simpl; [now rewrite app_nil_r|]. intros it H. now apply elem_of_nil in H. }
  destruct Hinv as [Hd Hl]. simpl in Hout. exists mt.
  assert (Em : map snd mt = map (hook_val nhooks) (log s)) by (rewrite <- Hout, map_map; reflexivity).
  splits; auto.
  - rewrite Hd, Em, map_map. f_equal. f_equal. apply map_ext. intros it. symmetry. apply hook_val_block.
  - rewrite Em. destruct (runIDs s) as [b|] eqn:Er.
    + exists b. apply List.Forall_forall. intros e He. apply in_map_iff in He as (it & <- & Hin).
      destruct (Hl it ltac:(now apply list_elem_of_In)) as (_ & Hr & _). congruence.
    + exists false. apply List.Forall_forall. intros e He. apply in_map_iff in He as (it & <- & Hin).
      destruct (Hl it ltac:(now apply list_elem_of_In)) as (_ & Hr & _). congruence.
Qed.

(** ** Recording sessions *)

Record hookPacket := mkHookPacket {
  pTs : Z; pData : list Z; pOrig : Z; pIface : Z; pID : Z; pComment : list Z
}.

Fixpoint write_packets (pkts : list hookPacket) (fw : FastNgWriter) : wres :=
  match pkts with
  | [] => Some (fw, None)
  | p :: pkts =>
      andThen (WriteHookPacket (pTs p) (pData p) (pOrig p) (pIface p) (pID p) (pComment p) fw) (write_packets pkts)
  end.

(** One shard: the header, then its packets. *)
Definition session (cfg : Config) (room : nat) (pkts : list hookPacket) : wres :=
  andThen (initHooks cfg room) (write_packets pkts).

Definition pkt_ok (nhooks : Z) (p : hookPacket) : Prop :=
  len (pData p) <= 65535 /\ 0 <= pTs p < 2 ^ 64 /\ 0 <= pID p < 2 ^ 64 /\ 0 <= pIface p < nhooks.

Definition pkt_bytes (p : hookPacket) : list Z :=
  epbBytes (pTs p) (pData p) (pOrig p) (pIface p) (hookOptions (pID p) (pComment p)).

Definition pkt_item (p : hookPacket) : epbItem := mkItem (pTs p) (pkt_bytes p) (negb (pID p =? 0)).

Lemma appends_room m b fw : appends m b -> (length b <= room fw)%nat -> exists fw', m fw = Some (fw', None) /\
  written fw' = written fw ++ b /\ room fw' = (room fw - length b)%nat /\ linkType fw' = linkType fw.
Proof.
  intros Ha Hr. destruct (Ha fw) as (fw' & e & Hm & Hl & _ & H). rewrite (proj2 (Nat.leb_le _ _) Hr) in H.
  destruct H as (-> & Hw & Hrm). eauto 6.
Qed.

(** A session's outcome is its bytes, and any larger room gives the same. *)
Lemma write_packets_inv nhooks pkts fw fw' :
  Forall (pkt_ok nhooks) pkts -> write_packets pkts fw = Some (fw', None) ->
  Forall (fun p => len (pComment p) <= 65535) pkts /\ written fw' = written fw ++ concat (map pkt_bytes pkts).
Proof.
  intros Hok. revert fw. induction Hok as [|p pkts Hp _ IH]; intros fw E; cbn [write_packets] in E.
  { injection E as <-. split; [constructor|]. simpl. now rewrite app_nil_r. }
  apply andThen_ok in E as (fw1 & E1 & E). pose proof (WriteHookPacket_comment _ _ _ _ _ _ _ _ E1) as Hc.
  destruct (IH _ E) as [Hcs Hw]. split; [now constructor|]. destruct Hp as (Hd & _).
  destruct (appends_ok _ _ _ _ (appends_WriteHookPacket (pTs p) (pData p) (pOrig p) (pIface p) (pID p) (pComment p) ltac:(lia) Hc) E1) as [Hw1 _].
  rewrite Hw, Hw1, <- app_assoc. reflexivity.
Qed.

Lemma write_packets_room nhooks pkts fw :
  Forall (pkt_ok nhooks) pkts -> Forall (fun p => len (pComment p) <= 65535) pkts ->
  (length (concat (map pkt_bytes pkts)) <= room fw)%nat -> exists fw', write_packets pkts fw = Some (fw', None).
Proof.
  intros Hok. revert fw. induction Hok as [|p pkts Hp _ IH]; intros fw Hc Hr; cbn [write_packets]; [eauto|].
  inversion Hc as [|? ? Hcp Hcs]; subst. destruct Hp as (Hd & _). cbn [map concat] in Hr. rewrite length_app in Hr.
  destruct (appends_room _ _ fw (appends_WriteHookPacket (pTs p) (pData p) (pOrig p) (pIface p) (pID p) (pComment p) ltac:(lia) Hcp))
    as (fw1 & -> & _ & Hr1 & _); [unfold pkt_bytes in Hr; lia|]. simpl. apply IH; [exact Hcs|].
  rewrite Hr1. fold (pkt_bytes p). lia.
Qed.

Lemma initHooks_loop_room hooks seen i fw fw' fw0 :
  initHooks_loop hooks seen i fw = Some (fw', None) -> linkType fw0 = linkType fw ->
  (length (idb_bytes (linkType fw0) hooks i) <= room fw0)%nat ->
  exists fw0', initHooks_loop hooks seen i fw0 = Some (fw0', None) /\
    room fw0' = (room fw0 - length (idb_bytes (linkType fw0) hooks i))%nat.
Proof.
  revert seen i fw fw0. induction hooks as [|name hooks IH]; intros seen i fw fw0 E Hl Hr; cbn [initHooks_loop idb_bytes] in *.
  { exists fw0. split; [reflexivity|simpl; lia]. }
  match type of E with (if ?c then _ else _) = _ => destruct c eqn:Ec; [discriminate|] end. apply andThen_ok in E as (fw1 & E1 & E). unfold writeIDBDescription in *.
  match type of E1 with (if ?c then _ else _) = _ => destruct c eqn:Ec1; [discriminate|] end. rewrite length_app in *.
  destruct (appends_ok _ _ fw fw1 (appends_write_raw _) E1) as [_ Hl1].
  destruct (appends_room _ (idbBytes (linkType fw0) name (bytes_of hookDescriptionPrefix ++ bytes_of (fmtd (i + 1)))) fw0
             (appends_write_raw _)) as (fw2 & E2 & _ & Hr2 & Hl2); [lia|].
  rewrite E2. cbn [andThen].
  destruct (IH _ _ _ (set_nIfaces (nIfaces fw2 + 1) fw2) E) as (fw3 & E3 & Hr3); cbn [set_nIfaces linkType room] in *; [congruence| |].
  - rewrite Hl2, Hr2. lia.
  - exists fw3. split; [exact E3|]. rewrite Hr3, Hl2, Hr2. lia.
Qed.

Lemma initHooks_room cfg room fw n :
  initHooks cfg room = Some (fw, None) -> (length (hook_header cfg) <= n)%nat ->
  exists fw', initHooks cfg n = Some (fw', None) /\ PcapNg.room fw' = (n - length (hook_header cfg))%nat.
Proof.
  unfold initHooks, hook_header. intros E Hn. rewrite length_app in *. apply andThen_ok in E as (fw1 & E1 & E). match type of E with (if ?c then _ else _) = _ => destruct c eqn:Ec; [discriminate|] end.
  destruct (appends_ok _ _ _ fw1 (appends_write_raw _) E1) as [_ Hl]. cbn [linkType] in Hl.
  destruct (appends_room _ shbBytes (mkW [] n (u16 (linkTypeOrDefault cfg)) 0) (appends_write_raw _))
    as (fw2 & E2 & _ & Hr2 & Hl2); [cbn [PcapNg.room]; lia|]. cbn [PcapNg.room linkType] in *.
  unfold writeSHB. rewrite E2. cbn [andThen]. rewrite ?Ec.
  destruct (initHooks_loop_room _ _ _ _ fw fw2 E) as (fw3 & E3 & Hr3); [congruence|rewrite Hl2, Hr2; lia|].
  exists fw3. split; [exact E3|]. rewrite Hr3, Hl2, Hr2. lia.
Qed.

Lemma pkt_item_stream nhooks pkts :
  nhooks <= 255 -> Forall (pkt_ok nhooks) pkts -> Forall (fun p => len (pComment p) <= 65535) pkts ->
  stream (hook_step nhooks) (concat (map pkt_bytes pkts)) (map pkt_item pkts).
Proof.
  intros Hn Hok. induction Hok as [|p pkts Hp _ IH]; intros Hc; [now apply stream_end|].
  inversion Hc as [|? ? Hcp Hcs]; subst. destruct Hp as (Hd & Ht & Hi & Hf). cbn [map concat].
  eapply stream_cons; [|now apply IH]. unfold hook_step, pkt_bytes at 1. rewrite hookNext_epb by (assumption || lia). reflexivity.
Qed.

Lemma stream_det {R P} (st : R -> sres R P) r l1 l2 : stream st r l1 -> stream st r l2 -> l1 = l2.
Proof.
  intros H. revert l2. induction H as [r E|r p r' l E _ IH]; intros l2 H2; inversion H2 as [? E'|? p2 r2 l2' E' H2']; subst;
    try congruence. rewrite E in E'. injection E' as <- <-. f_equal. now apply IH.
Qed.

Lemma published_inv w paths cfg out :
  published (mergeHookFiles w paths cfg) = Some out ->
  exists rs s, shards w paths = map (app (hook_header cfg)) rs /\ out = dest s /\
    kway ts idx (hook_next (Z.of_nat (length (Hooks cfg)))) (hook_emit (diskRoom w)) (S (length (concat rs))) (length rs)
      (mkH rs None (hook_header cfg) []) = MDone s.
Proof.
  unfold mergeHookFiles. destruct (initHooks cfg _) as [[fw [e|]]|] eqn:Ei; try discriminate.
  pose proof (initHooks_written _ _ _ Ei) as Hw. rewrite Hw.
  destruct (open_shards w (hook_header cfg) paths) as [rs|e] eqn:Eo; [|discriminate]. cbn [close_inputs published].
  unfold merge_open. destruct (createErr w); [discriminate|]. destruct (_ <? _)%nat; [discriminate|].
  destruct (kway _ _ _ _ _ _ _) as [s| |] eqn:Ek; try discriminate.
  destruct (closeErr w); [discriminate|]. destruct (renameErr w); [discriminate|]. intros [= <-].
  exists rs, s. splits; auto. now apply open_shards_inv.
Qed.

(** The list of the readers' parts. *)
Definition parts {P} (n : nat) (mt : list (nat * P)) : list (list P) := map (fun i => from i mt) (seq 0 n).

Lemma parts_permutation {P} n (mt : list (nat * P)) :
  (forall i, (n <= i)%nat -> from i mt = []) -> map snd mt ≡ₚ concat (parts n mt).
Proof. intros H. now apply from_permutation. Qed.

Lemma parts_Forall2 {P} (Q : list Z -> list P -> Prop) rs (mt : list (nat * P)) :
  (forall i, (i < length rs)%nat -> Q (default [] (rs !! i)) (from i mt)) -> Forall2 Q rs (parts (length rs) mt).
Proof.
  intros H. unfold parts. apply Forall2_fmap_r. apply Forall2_same_length_lookup. split; [now rewrite length_seq|].
  intros i r k Er Ek. apply lookup_seq in Ek as [-> Hi]. specialize (H i Hi). now rewrite Er in H.
Qed.

Lemma parts_in_order {P} (key : P -> Z) n (mt : list (nat * P)) :
  (forall i, (n <= i)%nat -> from i mt = []) -> Forall (in_order key) (parts n mt) ->
  forall i, in_order key (from i mt).
Proof.
  intros Hn H i. destruct (le_lt_dec n i) as [Hi|Hi]; [rewrite Hn by exact Hi; constructor|].
  unfold parts in H. rewrite List.Forall_forall in H. apply H. apply in_map_iff. exists i. split; [reflexivity|].
  apply in_seq. lia.
Qed.

(** The time a hook block is merged by. *)
Definition hook_time (e : epbItem) : Z := int64_of_u64 (its e).

(** ** Lemmas: merging recorded sessions *)

Definition pkt_time (p : hookPacket) : Z := int64_of_u64 (pTs p).

Lemma in_order_map pkts :
  in_order hook_time (map pkt_item pkts) <-> in_order pkt_time pkts.
Proof.
  unfold in_order. induction pkts as [|p pkts IH]; simpl; [split; constructor|].
  split; intros H; inversion H as [|? ? H1 H2]; subst; constructor; try (now apply IH).
  - rewrite List.Forall_forall in *. intros q Hq. apply (H2 (pkt_item q)). now apply in_map.
  - rewrite List.Forall_forall in *. intros e He. apply in_map_iff in He as (q & <- & Hq). now apply H2.
Qed.

Lemma map_default_seq {A} (l : list (list A)) : map (fun i => default [] (l !! i)) (seq 0 (length l)) = l.
Proof.
  apply list_eq. intros i. rewrite list_lookup_fmap. destruct (decide (i < length l)%nat) as [Hi|Hi].
  - rewrite lookup_seq_lt by exact Hi. simpl. destruct (lookup_lt_is_Some_2 l i Hi) as [x ->]. reflexivity.
  - rewrite lookup_seq_ge by lia. symmetry. apply lookup_ge_None. lia.
Qed.

Lemma pkts_le_bytes pkts : (length pkts <= length (concat (map pkt_bytes pkts)))%nat.
Proof.
  induction pkts as [|p pkts IH]; simpl; [lia|]. rewrite length_app.
  assert (12 <= length (pkt_bytes p))%nat; [|lia].
  unfold pkt_bytes. rewrite (proj1 (epb_frame _ _ _ _ _)), frame_length. lia.
Qed.

Lemma close_inputs_id w paths o : (forall p, closeIn w p = None) -> close_inputs w paths o = o.
Proof.
  intros H. unfold close_inputs. destruct o as [pb f]. simpl. f_equal. induction paths as [|p paths IH]; simpl; [reflexivity|].
  rewrite H. destruct (open w p); exact IH.
Qed.

Lemma open_shards_all w header paths (body : string -> list Z) :
  (forall p, p ∈ paths -> open w p = Ok (header ++ body p)) -> open_shards w header paths = Ok (map body paths).
Proof.
  induction paths as [|p paths IH]; intros H; cbn [open_shards]; [reflexivity|].
  rewrite (H p) by left. rewrite readFull_app by reflexivity. rewrite bool_decide_true by reflexivity. cbn [negb].
  rewrite IH by (intros q Hq; apply H; now right). reflexivity.
Qed.

Lemma hook_next_good nhooks n b header i s :
  (i < n)%nat -> hook_inv nhooks header s ->
  length (readers s) = n /\ (runIDs s = None \/ runIDs s = Some b) ->
  match hook_step nhooks (hook_src s i) with
  | SGot p _ => hasID p = b -> exists it s', hook_next nhooks i s = (Got it, s') /\
      length (readers s') = n /\ (runIDs s' = None \/ runIDs s' = Some b)
  | SEnd => exists s', hook_next nhooks i s = (AtEOF, s') /\
      length (readers s') = n /\ (runIDs s' = None \/ runIDs s' = Some b)
  | SFault => True
  end.
Proof.
  intros Hi _ [Hl Hr]. unfold hook_next, hook_src. destruct (lookup_lt_is_Some_2 (readers s) i ltac:(lia)) as [rd E].
  rewrite E. change (default [] (Some rd)) with rd. unfold hook_step. destruct (hookNext nhooks rd) as [[it rest]|[[|]| |]]; [|eauto|exact I..].
  intros Hb. cbv zeta. cbn [readers runIDs dest log]. destruct Hr as [Hr|Hr]; rewrite Hr.
  - eexists _, _. splits; [reflexivity|simpl; now rewrite length_insert|right; now rewrite <- Hb].
  - rewrite bool_decide_true by congruence. eexists _, _. splits; [reflexivity|simpl; now rewrite length_insert|now right].
Qed.

Lemma hook_emit_good nhooks room n b it s s' :
  length (readers s) = n /\ (runIDs s = None \/ runIDs s = Some b) -> hook_live nhooks s it ->
  hook_emit room it s = Ok s' -> length (readers s') = n /\ (runIDs s' = None \/ runIDs s' = Some b).
Proof. intros Hg _ E. unfold hook_emit in E. case_if E; [|discriminate]. now injection E as <-. Qed.

(** Over shards that are sessions of packets of one run-id shape, the loop
    ends, unless the disk fills up. *)
Lemma hook_kway_sessions nhooks room header (pks : list (list hookPacket)) b :
  nhooks <= 255 -> Forall (Forall (pkt_ok nhooks)) pks ->
  Forall (Forall (fun p => len (pComment p) <= 65535)) pks ->
  Forall (Forall (fun p => (pID p =? 0) = b)) pks ->
  let rs := map (fun pkts => concat (map pkt_bytes pkts)) pks in
  let run := kway ts idx (hook_next nhooks) (hook_emit room) (S (length (concat rs))) (length rs) (mkH rs None header []) in
  run = MErr shortWrite \/
  exists s m, run = MDone s /\ dest s = header ++ concat (map pkt_bytes m) /\ m ≡ₚ concat pks /\
    (Forall (in_order pkt_time) pks -> in_order pkt_time m).
Proof.
  intros Hn Hok Hc Hb rs run. set (items := map (map pkt_item) pks).
  assert (Hlen : length items = length rs) by (unfold items, rs; now rewrite !length_map).
  assert (Hst : forall i, (i < length rs)%nat -> stream (hook_step nhooks) (default [] (rs !! i)) (default [] (items !! i))).
  { intros i Hi. unfold rs, items in *. rewrite length_map in Hi. rewrite !list_lookup_fmap.
    destruct (lookup_lt_is_Some_2 pks i Hi) as [pkts E]. rewrite E. cbn [option_fmap option_map fmap default].
    apply pkt_item_stream; [lia|eapply Forall_lookup_1; eassumption..]. }
  assert (Hnil : forall i, (length rs <= i)%nat -> default [] (items !! i) = []).
  { intros i Hi. rewrite lookup_ge_None_2 by lia. reflexivity. }
  destruct (kway_complete ts idx (hook_next nhooks) (hook_emit room) (S := hook_source nhooks room header) (length rs)
              (fun s => length (readers s) = length rs /\ (runIDs s = None \/ runIDs s = Some (negb b)))
              (fun p => hasID p = negb b)
              (fun i s Hi => hook_next_good nhooks _ _ header i s Hi)
              (fun it s s' _ Hg Hl => hook_emit_good nhooks room _ _ it s s' Hg Hl)
              (S (length (concat rs))) (mkH rs None header []) (fun i => default [] (items !! i)))
    as [[s Es]|(it & s0 & e & Ee & Er)]; auto.
  - split; simpl; [now rewrite app_nil_r|]. intros it H. now apply elem_of_nil in H.
  - intros i p Hp. destruct (items !! i) as [l|] eqn:E; [|now apply elem_of_nil in Hp]. cbn [default] in Hp.
    unfold items in E. rewrite list_lookup_fmap in E. destruct (pks !! i) as [pkts|] eqn:E2; [|discriminate].
    injection E as <-. apply list_elem_of_fmap in Hp as (q & -> & Hq). simpl. f_equal.
    pose proof (Forall_lookup_1 _ _ _ _ Hb E2) as Hf. rewrite List.Forall_forall in Hf. apply Hf. now apply list_elem_of_In.
  - rewrite <- Hlen, map_default_seq. unfold items, rs. clear. apply Nat.lt_succ_r.
    induction pks as [|pkts pks IH]; simpl; [lia|]. rewrite !length_app, length_map. pose proof (pkts_le_bytes pkts). lia.
  - right. destruct (hook_kway_sound _ _ _ _ _ _ Es) as (mt & Hd & Hst' & Hnil' & _ & Hord).
    assert (Hfrom : forall i, from i mt = default [] (items !! i)).
    { intros i. destruct (le_lt_dec (length rs) i) as [Hi|Hi]; [now rewrite Hnil, Hnil'|].
      eapply stream_det; [now apply Hst'|now apply Hst]. }
    assert (Hp : map snd mt ≡ₚ map pkt_item (concat pks)).
    { rewrite (from_permutation (length rs) mt _ Hfrom Hnil), <- Hlen, map_default_seq. unfold items. now rewrite concat_map. }
    apply Permutation_map_inv in Hp as (m & Em & Hm). exists s, m. splits; auto.
    + rewrite Hd, Em, map_map. reflexivity.
    + now symmetry.
    + intros Hs. apply in_order_map. rewrite <- Em. apply Hord. intros i. rewrite Hfrom.
      destruct (items !! i) as [l|] eqn:E; [|constructor]. cbn [default]. unfold items in E. rewrite list_lookup_fmap in E.
      destruct (pks !! i) as [pkts|] eqn:E2; [|discriminate]. injection E as <-.
      apply in_order_map. eapply Forall_lookup_1; eassumption.
  - left. unfold hook_emit in Ee. case_if Ee; [discriminate|]. now injection Ee as <-.
Qed.

(** ** Properties *)

(** A hook merge that publishes has read every shard that exists to
    its end: each was the header followed by well-formed blocks of one
    run-id shape, and the published file is the header followed by exactly
    those blocks, each shard's in its order, and in time order when every
    shard was. The published file is itself a shard that can be merged. *)
Theorem mergeHookFiles_sound w paths cfg out :
  published (mergeHookFiles w paths cfg) = Some out ->
  exists mt : list (nat * epbItem),
    let n := length (shards w paths) in
    let merged := map snd mt in
    let read r l := stream (hook_step (Z.of_nat (length (Hooks cfg)))) r l in
    Forall2 (fun f l => exists r, f = hook_header cfg ++ r /\ r = concat (map block l) /\ read r l)
      (shards w paths) (parts n mt) /\
    out = hook_header cfg ++ concat (map block merged) /\ merged ≡ₚ concat (parts n mt) /\
    (exists b, Forall (fun e => hasID e = b) merged) /\
    (Forall (in_order hook_time) (parts n mt) -> in_order hook_time merged) /\
    read (concat (map block merged)) merged.
Proof.
  intros E. destruct (published_inv _ _ _ _ E) as (rs & s & Hsh & -> & Ek).
  destruct (hook_kway_sound _ _ _ _ _ _ Ek) as (mt & Hd & Hst & Hnil & Hb & Hord). exists mt. cbv zeta.
  rewrite Hsh, length_map. splits; auto.
  - apply Forall2_fmap_l. apply parts_Forall2. intros i Hi. specialize (Hst i Hi).
    exists (default [] (rs !! i)). splits; auto. eapply hook_stream_bytes; exact Hst.
  - now apply parts_permutation.
  - intros H. apply Hord. now apply (parts_in_order hook_time (length rs)).
  - apply hook_stream_again. rewrite (parts_permutation (length rs) mt Hnil). apply Forall_concat.
    unfold parts. apply List.Forall_forall. intros l Hl. apply in_map_iff in Hl as (i & <- & Hi).
    apply in_seq in Hi. eapply hook_stream_read. apply Hst. lia.
Qed.

(** A concrete capture: two shards of one hook, out of step in time. *)
Definition demo_cfg : Config := mkConfig 0 [bytes_of "mirror"].
Definition demo_pkts (p : string) : list hookPacket :=
  if String.eqb p "cap.cpu0" then [mkHookPacket 10 [1; 2] 2 0 7 []; mkHookPacket 30 [3] 1 0 8 (bytes_of "key=1")]
  else [mkHookPacket 20 [4; 5; 6] 3 0 9 []].
Definition demo_shard (p : string) : list Z :=
  match session demo_cfg 1000 (demo_pkts p) with Some (fw, None) => written fw | _ => [] end.
Definition demo_world : World :=
  mkWorld (fun p => Ok (demo_shard p)) None 1000 None None (fun _ => None).

(** C33: merging the shards of recording sessions of one run-id shape
    succeeds unless the disk fills up, and publishes the file one writer
    would have recorded: the same header and the packets of all sessions,
    in time order when every session recorded in time order. *)
Theorem mergeHookFiles_sessions w paths cfg (pk : string -> list hookPacket) b :
  (forall p, p ∈ paths -> exists room fw, session cfg room (pk p) = Some (fw, None) /\ open w p = Ok (written fw)) ->
  (forall p, p ∈ paths -> Forall (pkt_ok (Z.of_nat (length (Hooks cfg)))) (pk p)) ->
  (forall p, p ∈ paths -> Forall (fun q => (pID q =? 0) = b) (pk p)) ->
  paths <> [] -> createErr w = None -> closeErr w = None -> renameErr w = None -> (forall p, closeIn w p = None) ->
  mergeHookFiles w paths cfg = failed shortWrite \/
  exists m room fw, session cfg room m = Some (fw, None) /\
    mergeHookFiles w paths cfg = mkOutcome (Some (written fw)) None /\
    m ≡ₚ concat (map pk paths) /\
    ((forall p, p ∈ paths -> in_order pkt_time (pk p)) -> in_order pkt_time m).
Proof.
  intros Hsess Hok Hb Hne Hcr Hcl Hrn Hci. set (hdr := hook_header cfg).
  assert (Hinit : forall n, (length hdr <= n)%nat -> exists fw, initHooks cfg n = Some (fw, None) /\
    written fw = hdr /\ PcapNg.room fw = (n - length hdr)%nat).
  { destruct paths as [|p paths]; [easy|]. destruct (Hsess p) as (rm & fw & E & _); [left|].
    apply andThen_ok in E as (fw1 & E1 & _). intros n Hn. destruct (initHooks_room _ _ _ n E1 Hn) as (fw' & E' & Hr).
    exists fw'. splits; auto. eapply initHooks_written; exact E'. }
  assert (Hn255 : Z.of_nat (length (Hooks cfg)) <= 255).
  { destruct (Hinit (length hdr) ltac:(lia)) as (fw & E & _). unfold initHooks in E.
    apply andThen_ok in E as (fw1 & _ & E). case_if E; [discriminate|]. bools. lia. }
  assert (Hsh : forall p, p ∈ paths -> open w p = Ok (hdr ++ concat (map pkt_bytes (pk p))) /\
    Forall (fun q => len (pComment q) <= 65535) (pk p)).
  { intros p Hp. destruct (Hsess p Hp) as (rm & fw & E & Ho). apply andThen_ok in E as (fw1 & E1 & E2).
    destruct (write_packets_inv _ _ _ _ (Hok p Hp) E2) as [Hc Hw]. rewrite Ho, Hw, (initHooks_written _ _ _ E1). now split. }
  assert (Hall : forall Q : hookPacket -> Prop, (forall p, p ∈ paths -> Forall Q (pk p)) -> Forall (Forall Q) (map pk paths)).
  { intros Q HQ. apply List.Forall_forall. intros l Hl. apply in_map_iff in Hl as (p & <- & Hp). apply HQ.
    now apply list_elem_of_In. }
  unfold mergeHookFiles. destruct (Hinit (length hdr) ltac:(lia)) as (fw0 & E0 & Hw0 & _). fold hdr. rewrite E0, Hw0.
  rewrite close_inputs_id by exact Hci.
  rewrite (open_shards_all w hdr paths (fun p => concat (map pkt_bytes (pk p)))) by (intros p Hp; now apply Hsh).
  unfold merge_open. rewrite Hcr, Hcl, Hrn. destruct (_ <? _)%nat; [now left|].
  pose proof (hook_kway_sessions (Z.of_nat (length (Hooks cfg))) (diskRoom w) hdr (map pk paths) b Hn255) as H. rewrite map_map in H.
  destruct H as [E|(s & m & E & Hd & Hp & Hord)];
    [now apply Hall|apply Hall; intros p Hp'; now apply Hsh|now apply Hall|rewrite E; now left|].
  rewrite E. right.
  assert (Hmk : forall Q : hookPacket -> Prop, Forall (Forall Q) (map pk paths) -> Forall Q m).
  { intros Q HQ. rewrite Hp. now apply Forall_concat. }
  destruct (Hinit (length hdr + length (concat (map pkt_bytes m)))%nat ltac:(lia)) as (fw1 & E1 & Hw1 & Hr1).
  destruct (write_packets_room (Z.of_nat (length (Hooks cfg))) m fw1) as (fw2 & E2);
    [now apply Hmk, Hall|apply Hmk, Hall; intros p Hp'; now apply Hsh|rewrite Hr1; lia|].
  exists m, (length hdr + length (concat (map pkt_bytes m)))%nat, fw2. unfold session. rewrite E1. cbn [andThen].
  destruct (write_packets_inv _ _ _ _ (Hmk _ (Hall _ Hok)) E2) as [_ Hw2]. splits; auto.
  - now rewrite Hd, Hw2, Hw1.
  - intros Hs. apply Hord. apply List.Forall_forall. intros l Hl. apply in_map_iff in Hl as (p & <- & Hp').
    apply Hs. now apply list_elem_of_In.
Qed.

Lemma mergeHookFiles_sessions_witness :
  let paths := ["cap.cpu0"; "cap.cpu1"]%string in
  exists m room fw, session demo_cfg room m = Some (fw, None) /\
    mergeHookFiles demo_world paths demo_cfg = mkOutcome (Some (written fw)) None /\
    m ≡ₚ concat (map demo_pkts paths) /\
    ((forall p, p ∈ paths -> in_order pkt_time (demo_pkts p)) -> in_order pkt_time m).
Proof.
  intros paths.
  destruct (mergeHookFiles_sessions demo_world paths demo_cfg demo_pkts false) as [E|H]; try reflexivity; [..|exact H].
  - intros p Hp. exists 1000%nat. destruct (session demo_cfg 1000 (demo_pkts p)) as [[fw [e|]]|] eqn:E.
    + exfalso. repeat (apply list.elem_of_cons in Hp as [->|Hp]; [vm_compute in E; discriminate|]). now apply elem_of_nil in Hp.
    + exists fw. split; [reflexivity|]. cbn [open demo_world]. unfold demo_shard. now rewrite E.
    + exfalso. repeat (apply list.elem_of_cons in Hp as [->|Hp]; [vm_compute in E; discriminate|]). now apply elem_of_nil in Hp.
  - intros p Hp. repeat (apply list.elem_of_cons in Hp as [->|Hp];
      [repeat constructor; vm_compute; (reflexivity || discriminate)|]). now apply elem_of_nil in Hp.
  - intros p Hp. repeat (apply list.elem_of_cons in Hp as [->|Hp]; [repeat constructor|]). now apply elem_of_nil in Hp.
  - discriminate.
  - vm_compute in E. discriminate.
Defined.

Lemma mergeHookFiles_sound_witness :
  exists out (mt : list (nat * epbItem)), published (mergeHookFiles demo_world ["cap.cpu0"; "cap.cpu1"]%string demo_cfg) = Some out /\
    out = hook_header demo_cfg ++ concat (map block (map snd mt)) /\ map its (map snd mt) = [10; 20; 30].
Proof.
  destruct (published (mergeHookFiles demo_world ["cap.cpu0"; "cap.cpu1"]%string demo_cfg)) as [out|] eqn:E;
    [|vm_compute in E; discriminate].
  vm_compute in E. destruct (mergeHookFiles_sound demo_world ["cap.cpu0"; "cap.cpu1"]%string demo_cfg out E) as (mt & H).
  cbv zeta in H. destruct H as (H1 & H2 & H3 & _ & H5 & H6). exists out, mt. splits; [reflexivity|exact H2|].
  assert (Hd : map snd mt = map pkt_item [mkHookPacket 10 [1; 2] 2 0 7 []; mkHookPacket 20 [4; 5; 6] 3 0 9 [];
    mkHookPacket 30 [3] 1 0 8 (bytes_of "key=1")]); [|now rewrite Hd].
  apply (stream_det _ _ _ _ H6). replace (concat (map block (map snd mt))) with (drop (length (hook_header demo_cfg)) out)
    by (rewrite H2; apply drop_app_length).
  injection E as <-.
  match goal with |- stream _ ?r (map pkt_item ?l) => replace r with (concat (map pkt_bytes l)) by (vm_compute; reflexivity) end.
  apply (pkt_item_stream 1 [mkHookPacket 10 [1; 2] 2 0 7 []; mkHookPacket 20 [4; 5; 6] 3 0 9 [];
    mkHookPacket 30 [3] 1 0 8 (bytes_of "key=1")]); [lia|..]; repeat constructor; vm_compute; (reflexivity || discriminate).
Defined.
