(* ===== verification/MergePcap.v ===== *)
(** * MergePcap: the shard merge through reused buffers (internal/output)

    merge.go's loop for captures without hooks. Packets come from the
    third-party pcap-ng reader, a parameter with the two documented facts
    the merge relies on (a packet names a known interface, and an interface
    table only grows), and go to the third-party or fast writer, a parameter
    that numbers interfaces in the order they are added. Each shard has one
    buffer that is overwritten by its next packet while the packets of the
    other shards are pending in the heap: the buffers are arrays of an
    explicit store, and pending packets are slices of them. *)

From Stdlib Require Import ZArith Lia Bool String List.
From stdpp Require Import base list strings numbers option gmap.
From S2P Require Import Prelude GoStd GoBytes PcapNg Heap KWay Merge.
Local Open Scope Z_scope.

Record CaptureInfo := mkCI { Timestamp : Z; Length : Z; InterfaceIndex : Z }.

Inductive rderr := RdEOF | RdErr (e : error).

(** ** The third-party reader and writer *)

Class NgReader (R : Type) := {
  ReadPacketData : R -> result rderr (list Z * CaptureInfo) * R;
  Interface : R -> Z -> option string;
  Interface_packet r d ci r' :
    ReadPacketData r = (Ok (d, ci), r') -> is_Some (Interface r' (InterfaceIndex ci));
  Interface_grows r x r' k name :
    ReadPacketData r = (x, r') -> Interface r k = Some name -> Interface r' k = Some name
}.

Class NgWriter (W : Type) := {
  AddInterface : string -> W -> result error (nat * W);
  WritePacket : Z -> list Z -> Z -> nat -> W -> result error W;
  names : W -> list string;
  AddInterface_names name w id w' :
    AddInterface name w = Ok (id, w') -> id = length (names w) /\ names w' = names w ++ [name];
  WritePacket_names t d o i w w' : WritePacket t d o i w = Ok w' -> names w' = names w
}.

Section Merge.
Context {R W : Type} `{NgReader R} `{NgWriter W}.

(** ** output.go: the writer *)

Record Writer := mkWriter { nameToID : gmap string nat; pcapWriter : W; wfailure : option error }.

(** [remember] keeps the first failure. *)
Definition remember (e : error) (w : Writer) : Writer :=
  mkWriter (nameToID w) (pcapWriter w) (match wfailure w with None => Some e | f => f end).

Definition ifaceIDByName (name : string) (w : Writer) : nat * Writer :=
  match nameToID w !! name with
  | Some id => (id, w)
  | None =>
      match AddInterface name (pcapWriter w) with
      | Ok (id, pw) => (id, mkWriter (<[name := id]> (nameToID w)) pw (wfailure w))
      | Err e => (0%nat, mkWriter (<[name := 0%nat]> (nameToID w)) (pcapWriter w) (wfailure (remember e w)))
      end
  end.

Definition writePacketIface (t : Z) (d : list Z) (o : Z) (i : nat) (w : Writer) : result error Writer :=
  match wfailure w with
  | Some e => Err e
  | None =>
      match WritePacket t d o i (pcapWriter w) with
      | Ok pw => Ok (mkWriter (nameToID w) pw None)
      | Err e => Err (Errorf "writing pcap packet: %w" [AErr e])
      end
  end.

(** ** merge.go *)

(** One call of [writePacketIface], with the reader it came from and the
    name of the interface it was looked up by. *)
Record call := mkCall {
  cIdx : nat; cTs : Z; cData : list Z; cOrig : Z; cName : string; cIface : nat
}.

(** The local variables of [mergeFiles]; [store] holds the arrays behind
    the slices and [top] is the next free address. *)
Record mstate := mkM {
  mreaders : list R;
  bufs : list (option slice);
  store : gmap nat (list Z);
  top : nat;
  ifaceMap : list (gmap Z nat);
  outw : Writer;
  calls : list call
}.

Definition array (s : mstate) (a : nat) : list Z := default [] (store s !! a).

(** The bytes a slice (nil when absent) holds now. *)
Definition read (s : mstate) (d : option slice) : list Z :=
  match d with Some sl => take (slen sl) (array s (addr sl)) | None => [] end.

Definition cap (s : mstate) (d : option slice) : nat :=
  match d with Some sl => length (array s (addr sl)) | None => 0 end.

(** [copy(dst, src)] for [len(dst) = len(src)]. *)
Definition copy_in (d : list Z) (arr : list Z) : list Z := d ++ drop (length d) arr.

(** [nextItem(r, i, &bufs[i])]. *)
Definition nextItem (i : nat) (s : mstate) : nres mergeItem error * mstate :=
  match mreaders s !! i, bufs s !! i with
  | Some r, Some buf =>
      let '(res, r) := ReadPacketData r in
      let rs := <[i := r]> (mreaders s) in
      match res with
      | Err RdEOF => (AtEOF, mkM rs (bufs s) (store s) (top s) (ifaceMap s) (outw s) (calls s))
      | Err (RdErr e) =>
          (Failed (Errorf "reading shard packet: %w" [AErr e]),
           mkM rs (bufs s) (store s) (top s) (ifaceMap s) (outw s) (calls s))
      | Ok (d, ci) =>
          let '(buf, st, tp) :=
            if (cap s buf <? length d)%nat
            then (Some (mkSlice (top s) (length d)), <[top s := repeat 0 (length d)]> (store s), S (top s))
            else (match buf with Some sl => Some (mkSlice (addr sl) (length d)) | None => None end, store s, top s) in
          let st := match buf with
                    | Some sl => <[addr sl := copy_in d (default [] (st !! addr sl))]> st
                    | None => st
                    end in
          (Got (mkMergeItem (Timestamp ci) buf (u32 (Length ci)) [] (InterfaceIndex ci) i),
           mkM rs (<[i := buf]> (bufs s)) st tp (ifaceMap s) (outw s) (calls s))
      end
  | _, _ => (Failed (Errorf "panic" []), s)
  end.

(** The closure [outIface]; [name] is the interface's name, when the reader
    has it. *)
Definition outIface (IsFexit : bool) (i : nat) (k : Z) (s : mstate) : nat * mstate :=
  if negb IsFexit then (0%nat, s)
  else
    let m := default ∅ (ifaceMap s !! i) in
    match m !! k with
    | Some id => (id, s)
    | None =>
        let '(id, w) :=
          match mreaders s !! i with
          | Some r => match Interface r k with
                      | Some name => ifaceIDByName name (outw s)
                      | None => (0%nat, outw s)
                      end
          | None => (0%nat, outw s)
          end in
        (id, mkM (mreaders s) (bufs s) (store s) (top s) (<[i := <[k := id]> m]> (ifaceMap s)) w (calls s))
    end.

Definition iface_name (s : mstate) (i : nat) (k : Z) : string :=
  match mreaders s !! i with Some r => default ""%string (Interface r k) | None => "" end.

Definition writeItem (IsFexit : bool) (it : mergeItem) (s : mstate) : result error mstate :=
  let name := iface_name s (idx it) (srcIface it) in
  let '(id, s) := outIface IsFexit (idx it) (srcIface it) s in
  let d := read s (data it) in
  match writePacketIface (ts it) d (itemOrigLen it) id (outw s) with
  | Err e => Err (Errorf "writing merged packet: %w" [AErr e])
  | Ok w =>
      Ok (mkM (mreaders s) (bufs s) (store s) (top s) (ifaceMap s) w
            (calls s ++ [mkCall (idx it) (ts it) d (itemOrigLen it) name id]))
  end.

(** The readers and the output writer are open; [fuel] bounds the number of
    packets. *)
Definition mergeReaders (IsFexit : bool) (fuel : nat) (rs : list R) (out : Writer) : mres mstate error :=
  kway ts idx nextItem (writeItem IsFexit) fuel (length rs)
    (mkM rs (replicate (length rs) None) ∅ 0 (replicate (length rs) ∅) out []).

(** ** The merge as an instance of the loop *)

(** A packet as the readers give it. *)
Definition packet : Type := Z * list Z * Z * string.
Definition packet_time (p : packet) : Z := p.1.1.1.

Definition packet_step (r : R) : sres R packet :=
  match ReadPacketData r with
  | (Ok (d, ci), r) =>
      SGot (Timestamp ci, d, u32 (Length ci), default ""%string (Interface r (InterfaceIndex ci))) r
  | (Err RdEOF, _) => SEnd
  | (Err _, _) => SFault
  end.

Definition call_packet (c : call) : packet := (cTs c, cData c, cOrig c, cName c).

Definition item_packet (s : mstate) (it : mergeItem) : packet :=
  (ts it, read s (data it), itemOrigLen it, iface_name s (idx it) (srcIface it)).

(** A pending item is a slice of its own shard's buffer, of a packet on a
    known interface. *)
Definition item_live (s : mstate) (it : mergeItem) : Prop :=
  bufs s !! idx it = Some (data it) /\
  exists r, mreaders s !! idx it = Some r /\ is_Some (Interface r (srcIface it)).

(** No two shards share an array. *)
Definition apart_below (bs : list (option slice)) (n : nat) : Prop :=
  (forall i sl, bs !! i = Some (Some sl) -> (addr sl < n)%nat) /\
  (forall i j a b, bs !! i = Some (Some a) -> bs !! j = Some (Some b) -> addr a = addr b -> i = j).

Definition buffers_apart (s : mstate) : Prop := apart_below (bufs s) (top s).

(** Every interface id handed out stands for its name in the output's table. *)
Definition ifaces_ok (s : mstate) : Prop :=
  (forall name id, nameToID (outw s) !! name = Some id -> names (pcapWriter (outw s)) !! id = Some name) /\
  (forall i m k id, ifaceMap s !! i = Some m -> m !! k = Some id ->
     exists r name, mreaders s !! i = Some r /\ Interface r k = Some name /\
       names (pcapWriter (outw s)) !! id = Some name).

Definition calls_ok (IsFexit : bool) (s : mstate) : Prop :=
  forall c, c ∈ calls s ->
    if IsFexit then names (pcapWriter (outw s)) !! cIface c = Some (cName c) else cIface c = 0%nat.

Definition merge_inv (IsFexit : bool) (s : mstate) : Prop :=
  wfailure (outw s) = None /\ buffers_apart s /\ ifaces_ok s /\ calls_ok IsFexit s.

Lemma copy_take d arr : take (length d) (copy_in d arr) = d.
Proof. unfold copy_in. apply take_app_length. Qed.

Lemma array_insert s a l b :
  default [] (<[a := l]> (store s) !! b) = if decide (b = a) then l else array s b.
Proof.
  unfold array. case_decide as D; [subst; now rewrite lookup_insert_eq|now rewrite lookup_insert_ne by congruence].
Qed.

Lemma apart_insert bs n i buf m :
  apart_below bs n -> (n <= m)%nat ->
  (forall sl, buf = Some sl -> (addr sl < m)%nat /\
     forall j a, j <> i -> bs !! j = Some (Some a) -> addr a <> addr sl) ->
  apart_below (<[i := buf]> bs) m.
Proof.
  intros [Htop Hap] Hnm Hbuf. split.
  - intros j sl Hj. apply list_lookup_insert_Some in Hj as [(_ & -> & _)|(_ & Hj)]; [now apply Hbuf|].
    specialize (Htop _ _ Hj). lia.
  - intros j k a b Hj Hk E. apply list_lookup_insert_Some in Hj as [(Ej & Hj & _)|(Nj & Hj)];
      apply list_lookup_insert_Some in Hk as [(Ek & Hk & _)|(Nk & Hk)]; [congruence| | |eauto].
    + destruct (proj2 (Hbuf a Hj) k b ltac:(congruence) Hk). now symmetry.
    + now destruct (proj2 (Hbuf b Hk) j a ltac:(congruence) Hj).
Qed.

(** What one read of a shard does: its buffer alone changes. *)
Lemma nextItem_got i s it s' :
  buffers_apart s -> nextItem i s = (Got it, s') ->
  exists r r' d ci, mreaders s !! i = Some r /\ ReadPacketData r = (Ok (d, ci), r') /\
    mreaders s' = <[i := r']> (mreaders s) /\
    it = mkMergeItem (Timestamp ci) (data it) (u32 (Length ci)) [] (InterfaceIndex ci) i /\
    bufs s' = <[i := data it]> (bufs s) /\ (i < length (bufs s))%nat /\ read s' (data it) = d /\
    ifaceMap s' = ifaceMap s /\ outw s' = outw s /\ calls s' = calls s /\ buffers_apart s' /\
    (forall j sl, bufs s !! j = Some (Some sl) -> j <> i -> array s' (addr sl) = array s (addr sl)).
Proof.
  intros Hbs. pose proof Hbs as [Htop Hap]. unfold nextItem. destruct (mreaders s !! i) as [r|] eqn:Er; [|discriminate].
  destruct (bufs s !! i) as [buf|] eqn:Eb; [|discriminate].
  assert (Hi : (i < length (bufs s))%nat) by (eapply lookup_lt_Some; exact Eb).
  destruct (ReadPacketData r) as [[[d ci]|[|e]] r'] eqn:Ep; [|discriminate..].
  destruct (Nat.ltb_spec (cap s buf) (length d)) as [Hc|Hc]; [|destruct buf as [sl|]].
  - intros [= <- <-]. exists r, r', d, ci. cbn [mreaders bufs store top ifaceMap outw calls data read].
    splits; auto.
    + cbn [addr slen]. unfold array. cbn [store]. rewrite lookup_insert_eq. cbn [default]. apply copy_take.
    + apply (apart_insert _ (top s)); [exact Hbs|simpl; lia|]. intros sl [= <-]. simpl. split; [lia|].
      intros j a _ Hj. specialize (Htop _ _ Hj). lia.
    + intros j sl Hj Hne. specialize (Htop _ _ Hj). unfold array. cbn [store addr].
      now rewrite !lookup_insert_ne by lia.
  - intros [= <- <-]. exists r, r', d, ci. cbn [mreaders bufs store top ifaceMap outw calls data read].
    splits; auto.
    + cbn [addr slen]. unfold array. cbn [store]. rewrite lookup_insert_eq. cbn [default]. apply copy_take.
    + apply (apart_insert _ (top s)); [exact Hbs|simpl; lia|]. intros b [= <-]. simpl. split; [eauto|].
      intros j a Hne Hj E. apply Hne. eauto.
    + intros j b Hj Hne. unfold array. cbn [store addr]. rewrite lookup_insert_ne; [reflexivity|].
      intros E. apply Hne. symmetry. eauto.
  - intros [= <- <-]. exists r, r', d, ci. cbn [mreaders bufs store top ifaceMap outw calls data read].
    cbn [cap] in Hc. assert (d = []) as -> by (destruct d; [reflexivity|simpl in Hc; lia]).
    splits; auto. now apply (apart_insert _ (top s)).
Qed.

Lemma nextItem_eof i s s' :
  nextItem i s = (AtEOF, s') ->
  exists r r', mreaders s !! i = Some r /\ ReadPacketData r = (Err RdEOF, r') /\
    s' = mkM (<[i := r']> (mreaders s)) (bufs s) (store s) (top s) (ifaceMap s) (outw s) (calls s).
Proof.
  unfold nextItem. destruct (mreaders s !! i) as [r|] eqn:Er; [|discriminate].
  destruct (bufs s !! i) as [buf|] eqn:Eb; [|discriminate].
  destruct (ReadPacketData r) as [[[d ci]|[|e]] r'] eqn:Ep.
  - destruct (_ <? _)%nat; discriminate.
  - intros [= <-]. eauto.
  - discriminate.
Qed.

(** Advancing a reader keeps the names it has given. *)
Lemma ifaces_ok_advance s s' i r x r' :
  mreaders s !! i = Some r -> ReadPacketData r = (x, r') -> mreaders s' = <[i := r']> (mreaders s) ->
  ifaceMap s' = ifaceMap s -> outw s' = outw s -> ifaces_ok s -> ifaces_ok s'.
Proof.
  intros Er Ep Em Ei Eo [H1 H2]. unfold ifaces_ok. rewrite Ei, Eo, Em. split; [exact H1|].
  intros j m k id Hj Hk. destruct (H2 j m k id Hj Hk) as (r0 & name & Hr & Hn & Hid).
  destruct (decide (j = i)) as [->|Hne].
  - exists r', name. rewrite list_lookup_insert_eq by (eapply lookup_lt_Some; exact Er). splits; auto.
    replace r0 with r in Hn by congruence. eapply Interface_grows; eassumption.
  - exists r0, name. now rewrite list_lookup_insert_ne by congruence.
Qed.

Lemma item_live_advance s s' i it :
  item_live s it -> idx it <> i -> mreaders s' !! idx it = mreaders s !! idx it ->
  bufs s' !! idx it = bufs s !! idx it -> (forall sl, bufs s !! idx it = Some (Some sl) -> array s' (addr sl) = array s (addr sl)) ->
  item_live s' it /\ item_packet s' it = item_packet s it.
Proof.
  intros [Hb (r & Hr & Hi)] Hne Em Eb Ea. split.
  - split; [congruence|]. exists r. split; [congruence|exact Hi].
  - unfold item_packet, iface_name. rewrite Em. f_equal. f_equal. f_equal. destruct (data it) as [sl|]; [|reflexivity].
    simpl. now rewrite Ea.
Qed.

Definition names_ok (w : Writer) : Prop :=
  forall name id, nameToID w !! name = Some id -> names (pcapWriter w) !! id = Some name.

Lemma ifaceIDByName_spec name w id w1 :
  names_ok w -> wfailure w = None -> ifaceIDByName name w = (id, w1) -> wfailure w1 = None ->
  names_ok w1 /\ (exists ext, names (pcapWriter w1) = names (pcapWriter w) ++ ext) /\
  names (pcapWriter w1) !! id = Some name.
Proof.
  intros Hok Hf. unfold ifaceIDByName. destruct (nameToID w !! name) as [c|] eqn:Et.
  { intros [= <- <-] _. splits; [exact Hok|exists []; now rewrite app_nil_r|now apply Hok]. }
  destruct (AddInterface name (pcapWriter w)) as [[c pw]|e] eqn:Ea; intros [= <- <-] Hf1.
  2: { unfold remember in Hf1. simpl in Hf1. now rewrite Hf in Hf1. }
  destruct (AddInterface_names _ _ _ _ Ea) as [-> Hn]. cbn [pcapWriter nameToID].
  assert (Hnew : names pw !! length (names (pcapWriter w)) = Some name).
  { rewrite Hn, lookup_app_r, Nat.sub_diag by lia. reflexivity. }
  splits; [|eauto|exact Hnew]. intros nm c E. cbn [nameToID pcapWriter] in *.
  apply lookup_insert_Some in E as [(-> & <-)|(_ & E)]; [exact Hnew|]. rewrite Hn. apply lookup_app_l_Some. now apply Hok.
Qed.

Definition cache_ok (s : mstate) : Prop :=
  forall i m k id, ifaceMap s !! i = Some m -> m !! k = Some id ->
    exists r name, mreaders s !! i = Some r /\ Interface r k = Some name /\
      names (pcapWriter (outw s)) !! id = Some name.

(** A successful lookup of a live item's interface gives an id that stands
    for its name in the output. *)
Lemma outIface_spec IsFexit i k s id s1 r name :
  ifaces_ok s -> wfailure (outw s) = None -> mreaders s !! i = Some r -> Interface r k = Some name ->
  outIface IsFexit i k s = (id, s1) -> wfailure (outw s1) = None ->
  (mreaders s1 = mreaders s /\ bufs s1 = bufs s /\ store s1 = store s /\ top s1 = top s /\ calls s1 = calls s) /\
  ifaces_ok s1 /\ (exists ext, names (pcapWriter (outw s1)) = names (pcapWriter (outw s)) ++ ext) /\
  if IsFexit then names (pcapWriter (outw s1)) !! id = Some name else id = 0%nat.
Proof.
  intros Hok Hf Hr Hn. pose proof Hok as [H1 H2]. unfold outIface. destruct IsFexit; cbn [negb].
  2: { intros [= <- <-] _. splits; auto. exists []. now rewrite app_nil_r. }
  set (m := default ∅ (ifaceMap s !! i)).
  assert (Hm : forall k' id', m !! k' = Some id' -> exists m', ifaceMap s !! i = Some m' /\ m' !! k' = Some id').
  { intros k' id' E. unfold m in E. destruct (ifaceMap s !! i) as [m'|]; simpl in E; [eauto|]. now rewrite lookup_empty in E. }
  destruct (m !! k) as [c|] eqn:Ec.
  { intros [= <- <-] _. splits; auto; [exists []; now rewrite app_nil_r|].
    destruct (Hm _ _ Ec) as (m' & Em & Ec'). destruct (H2 i m' k c Em Ec') as (r0 & name0 & Hr0 & Hn0 & Hid). congruence. }
  rewrite Hr, Hn. destruct (ifaceIDByName name (outw s)) as [c w1] eqn:Ew. intros [= <- <-] Hf1.
  cbn [mreaders bufs store top ifaceMap outw calls] in *.
  destruct (ifaceIDByName_spec name (outw s) c w1 H1 Hf Ew Hf1) as (Hnames & [ext Hext] & Hid).
  splits; auto; [split; [exact Hnames|]|eauto]. intros j m' k' id' Hj Hk. cbn [ifaceMap mreaders outw] in *.
  assert (Hold : forall j m', ifaceMap s !! j = Some m' -> m' !! k' = Some id' -> exists r name,
    mreaders s !! j = Some r /\ Interface r k' = Some name /\ names (pcapWriter w1) !! id' = Some name).
  { intros j' m0 E1 E2. destruct (H2 _ _ _ _ E1 E2) as (r0 & nm & A & B & C). exists r0, nm. splits; auto.
    rewrite Hext. now apply lookup_app_l_Some. }
  apply list_lookup_insert_Some in Hj as [(<- & <- & _)|(_ & Hj)]; [|eauto].
  apply lookup_insert_Some in Hk as [(<- & <-)|(_ & Hk)]; [eauto|]. destruct (Hm _ _ Hk) as (m0 & E1 & E2). eauto.
Qed.

Lemma writeItem_spec IsFexit it s s' :
  merge_inv IsFexit s -> item_live s it -> writeItem IsFexit it s = Ok s' ->
  merge_inv IsFexit s' /\ mreaders s' = mreaders s /\ bufs s' = bufs s /\ store s' = store s /\
  exists id, calls s' = calls s ++ [mkCall (idx it) (ts it) (read s (data it)) (itemOrigLen it)
                                 (iface_name s (idx it) (srcIface it)) id].
Proof.
  intros (Hf & Hap & Hif & Hc) [Hb (r & Hr & [name Hn])]. unfold writeItem.
  destruct (outIface IsFexit (idx it) (srcIface it) s) as [id s1] eqn:Eo.
  unfold writePacketIface. destruct (wfailure (outw s1)) eqn:Ef1; [discriminate|].
  destruct (outIface_spec IsFexit _ _ s id s1 r name Hif Hf Hr Hn Eo Ef1) as ((Em & Eb & Es & Et & Ec) & Hif1 & [ext Hext] & Hid).
  destruct (WritePacket _ _ _ _ _) as [pw|] eqn:Ew; [|discriminate]. intros [= <-].
  apply WritePacket_names in Ew.
  assert (Hread : read s1 (data it) = read s (data it)) by (unfold read, array; now rewrite Es).
  assert (Hnm : iface_name s (idx it) (srcIface it) = name) by (unfold iface_name; now rewrite Hr, Hn).
  unfold merge_inv, buffers_apart. cbn [outw wfailure bufs top mreaders store calls]. rewrite Hnm, Hread, Em, Eb, Es, Et, Ec.
  splits; auto; [| |eauto].
  - destruct Hif1 as [A B]. split; [intros nm c E; cbn [outw pcapWriter] in *; rewrite Ew; exact (A nm c E)|].
    intros i m k c E1 E2. cbn [outw pcapWriter ifaceMap mreaders] in *. rewrite Ew, <- Em. now apply (B i m k c).
  - intros c Hin. cbn [calls outw pcapWriter] in *. apply elem_of_app in Hin as [Hin|Hin].
    + specialize (Hc c Hin). destruct IsFexit; [|exact Hc]. rewrite Ew, Hext. now apply lookup_app_l_Some.
    + apply list_elem_of_singleton in Hin as ->. cbn [cIface cName]. destruct IsFexit; [now rewrite Ew|exact Hid].
Qed.

Lemma item_live_ext s s' it :
  mreaders s' = mreaders s -> bufs s' = bufs s -> store s' = store s ->
  item_live s it -> item_live s' it /\ item_packet s' it = item_packet s it.
Proof.
  intros Em Eb Es Hl. unfold item_live, item_packet, iface_name, read, array in *. rewrite Em, Eb, Es. now split.
Qed.

Definition opt_step (r : option R) : sres (option R) packet :=
  match r with
  | Some r => match packet_step r with SGot p r => SGot p (Some r) | SEnd => SEnd | SFault => SFault end
  | None => SFault
  end.

#[export] Program Instance pcap_source (IsFexit : bool) :
  Source (option R) packet ts idx nextItem (writeItem IsFexit) := {
  step := opt_step;
  src s i := mreaders s !! i;
  out s := map (fun c => (cIdx c, call_packet c)) (calls s);
  val := item_packet;
  pts := packet_time;
  live := item_live;
  inv := merge_inv IsFexit
}.
Next Obligation.
  intros IsFexit i s it s' (Hf & Hap & Hif & Hc) E.
  destruct (nextItem_got i s it s' Hap E) as (r & r' & d & ci & Er & Ep & Em & Eit & Eb & Hi & Hread & Eif & Eo & Ec & Hap' & Har).
  assert (Hi' : mreaders s' !! i = Some r') by (rewrite Em, list_lookup_insert_eq by (eapply lookup_lt_Some; exact Er); reflexivity).
  assert (Hj : forall j, j <> i -> mreaders s' !! j = mreaders s !! j) by (intros j Hj; now rewrite Em, list_lookup_insert_ne by congruence).
  assert (Hidx : idx it = i) by (rewrite Eit; reflexivity).
  assert (Hsrc : srcIface it = InterfaceIndex ci) by (rewrite Eit; reflexivity).
  splits; auto.
  - now rewrite Ec.
  - unfold merge_inv, calls_ok. rewrite Eo, Ec. splits; auto.
    exact (ifaces_ok_advance s s' i r _ r' Er Ep Em Eif Eo Hif).
  - intros it' Hl Hne. apply (item_live_advance s s' i); auto.
    + rewrite Eb. now rewrite list_lookup_insert_ne by congruence.
    + intros sl Hsl. eapply Har; [exact Hsl|exact Hne].
  - rewrite Er. unfold opt_step, packet_step. rewrite Ep, Hi'. unfold item_packet, iface_name. rewrite Hidx, Hi', Hread, Hsrc.
    rewrite Eit. reflexivity.
  - split; [rewrite Hidx, Eb; now apply list_lookup_insert_eq|]. exists r'. rewrite Hidx, Hi', Hsrc. split; [reflexivity|].
    eapply Interface_packet; exact Ep.
Qed.
Next Obligation.
  intros IsFexit i s s' (Hf & Hap & Hif & Hc) E. destruct (nextItem_eof i s s' E) as (r & r' & Er & Ep & ->).
  splits; auto.
  - intros j Hj. simpl. now rewrite list_lookup_insert_ne by congruence.
  - unfold merge_inv. splits; auto. eapply ifaces_ok_advance; [exact Er|exact Ep|reflexivity..|exact Hif].
  - intros it' Hl Hne. apply (item_live_advance s _ i); auto. simpl. now rewrite list_lookup_insert_ne by congruence.
  - rewrite Er. unfold opt_step, packet_step. now rewrite Ep.
Qed.
Next Obligation. intros IsFexit s it _. reflexivity. Qed.
Next Obligation.
  intros IsFexit it s s' Hinv Hl E. destruct (writeItem_spec IsFexit it s s' Hinv Hl E) as (Hinv' & Em & Eb & Es & id & Ec).
  splits; auto.
  - rewrite Ec, map_app. reflexivity.
  - intros j. now rewrite Em.
  - intros it' Hl'. now apply item_live_ext.
Qed.

(** Nothing is pending or cached before the first read. *)
Lemma initial_inv IsFexit rs out :
  wfailure out = None -> names_ok out ->
  merge_inv IsFexit (mkM rs (replicate (length rs) None) ∅ 0 (replicate (length rs) ∅) out []).
Proof.
  intros Hf Hn. unfold merge_inv, buffers_apart, apart_below. cbn [outw bufs top]. splits; auto.
  - intros i sl E. now apply lookup_replicate in E as [[=] _].
  - intros i j a b E. now apply lookup_replicate in E as [[=] _].
  - split; [exact Hn|]. intros i m k id E Ek. cbn [ifaceMap] in E. apply lookup_replicate in E as [-> _].
    now rewrite lookup_empty in Ek.
  - intros c Hc. now apply elem_of_nil in Hc.
Qed.

Lemma packet_stream r l :
  stream opt_step (Some r) l -> stream packet_step r l.
Proof.
  intros H1. remember (Some r) as o eqn:Eo. revert r Eo. induction H1 as [o E|o p o' l E _ IH]; intros r ->; cbn [opt_step] in E.
  - apply stream_end. destruct (packet_step r); congruence.
  - destruct (packet_step r) as [p0 r'| |] eqn:Ep; try discriminate. injection E as -> <-.
    eapply stream_cons; [exact Ep|]. now apply IH.
Qed.

(** ** Properties *)

(** The writer [NewWriter] returns: every name it maps is in its table. *)
Definition fresh_writer (w : Writer) : Prop := wfailure w = None /\ names_ok w.

(** A shard merge that succeeds writes every packet of every shard,
    each once, with the bytes, time and original length its reader gave,
    although each shard's buffer is overwritten by the shard's next packet
    while others are still pending; each shard's packets keep their order,
    and all are in time order when every shard was. In exit mode each packet
    goes to the output interface whose name is that of its interface in its
    own shard; otherwise to interface 0. *)
Theorem mergeReaders_sound IsFexit fuel rs ow s :
  fresh_writer ow -> mergeReaders IsFexit fuel rs ow = MDone s ->
  exists mt : list (nat * packet),
    map call_packet (calls s) = map snd mt /\
    (forall i r, rs !! i = Some r -> stream packet_step r (from i mt)) /\
    map snd mt ≡ₚ concat (parts (length rs) mt) /\
    (Forall (in_order packet_time) (parts (length rs) mt) -> in_order packet_time (map snd mt)) /\
    forall c, c ∈ calls s ->
      if IsFexit then names (pcapWriter (outw s)) !! cIface c = Some (cName c) else cIface c = 0%nat.
Proof.
  intros [Hf Hn] E. unfold mergeReaders in E.
  destruct (kway_sound ts idx nextItem (writeItem IsFexit) (S := pcap_source IsFexit) _ _ _ s (initial_inv _ _ _ Hf Hn) E)
    as ((_ & _ & _ & Hc) & mt & Hout & Hst & Hnil & Hord).
  cbn [out pcap_source calls map app] in Hout. exists mt. splits.
  - rewrite <- Hout, map_map. reflexivity.
  - intros i r Hr. specialize (Hst i (lookup_lt_Some _ _ _ Hr)). cbn [src pcap_source mreaders] in Hst. rewrite Hr in Hst.
    exact (packet_stream _ _ Hst).
  - now apply parts_permutation.
  - intros Ho. apply Hord. now apply (parts_in_order packet_time (length rs)).
  - exact Hc.
Qed.
End Merge.

(** A reader over a list of packets and a writer over a table of names. *)
Definition demo_reader : Type := list (list Z * CaptureInfo) * list string.
Definition demo_ok (r : demo_reader) : Prop :=
  Forall (fun p => is_Some (nth_error r.2 (Z.to_nat (InterfaceIndex p.2)))) r.1.

Definition demo_read (r : {r : demo_reader | demo_ok r}) :
    result rderr (list Z * CaptureInfo) * {r : demo_reader | demo_ok r} :=
  match r with
  | exist _ (p :: ps, names) H => (Ok p, exist _ (ps, names) (Forall_inv_tail H))
  | exist _ ([], names) H => (Err RdEOF, exist _ ([], names) H)
  end.

#[local] Program Instance demo_ngreader : NgReader {r : demo_reader | demo_ok r} := {
  ReadPacketData := demo_read;
  Interface r k := nth_error (snd (proj1_sig r)) (Z.to_nat k)
}.
Next Obligation.
  intros [[[|p ps] nm] H] d ci r' E; simpl in E; [discriminate|]. injection E as -> <-. exact (Forall_inv H).
Qed.
Next Obligation. intros [[[|p ps] nm] H] x r' k name E Hk; simpl in E; injection E as <- <-; exact Hk. Qed.

#[local] Program Instance demo_ngwriter : NgWriter (list string) := {
  AddInterface name w := Ok (length w, w ++ [name]);
  WritePacket _ _ _ _ w := Ok w;
  names w := w
}.
Next Obligation. intros name w id w' [= <- <-]. now split. Qed.
Next Obligation. intros t d o i w w' [= <-]. reflexivity. Qed.

Definition demo_r0 : demo_reader :=
  ([([1; 1], mkCI 10 2 0); ([2], mkCI 40 9 1)], ["xdp:PASS"; "xdp:DROP"]%string).
Definition demo_r1 : demo_reader := ([([3; 3; 3], mkCI 20 3 0); ([4; 4], mkCI 30 2 0)], ["xdp:DROP"]%string).
Lemma demo_r0_ok : demo_ok demo_r0.
Proof. repeat constructor; eexists; reflexivity. Qed.
Lemma demo_r1_ok : demo_ok demo_r1.
Proof. repeat constructor; eexists; reflexivity. Qed.

Lemma mergeReaders_sound_witness :
  let rs := [exist demo_ok demo_r0 demo_r0_ok; exist demo_ok demo_r1 demo_r1_ok] in
  let ow := mkWriter (W := list string) {["xdp:PASS"%string := 0%nat]} ["xdp:PASS"%string] None in
  exists s (mt : list (nat * packet)), mergeReaders true 9 rs ow = MDone s /\
    map call_packet (calls s) = map snd mt /\ map cData (calls s) = [[1; 1]; [3; 3; 3]; [4; 4]; [2]].
Proof.
  intros rs ow. destruct (mergeReaders true 9 rs ow) as [s| |] eqn:E; [|vm_compute in E; discriminate..].
  destruct (mergeReaders_sound true 9 rs ow s) as (mt & H & _); [|exact E|].
  - split; [reflexivity|]. intros name id Hn. unfold ow in Hn. cbn [nameToID] in Hn. apply lookup_singleton_Some in Hn as [<- <-]. reflexivity.
  - exists s, mt. splits; [reflexivity|exact H|]. vm_compute in E. injection E as <-. reflexivity.
Defined.
