(* ===== verification/Codegen.v ===== *)
(** * Codegen: what the parts of the DSL code generator share

    Labels, scratch slots, jump tables and constant loads of
    pkg/kunai/codegen, and the relations its correctness is stated with:
    [runs] says what a fragment of generated code does from a state
    (falls through with a value, leaves for the fail label, or rejects the
    packet), [upto] what it may have written, and [owned] which labels it
    holds. Code of a condition falls through when the condition holds and
    leaves for the fail label when it does not. *)

From Stdlib Require Import ZArith Lia Bool Ascii String List.
From stdpp Require Import base list strings numbers option gmap pretty.
From S2P Require Import Prelude GoStd GoBytes Ast HookAbi Asm Ebpf EbpfFacts.
Local Open Scope Z_scope.
Local Open Scope go_scope.

(** ** Errors and labels

    [ErrNotImplemented] is wrapped by the first kind; [CFuel] is a
    recursion that ran out of fuel (it never does), [CPanic] an index out
    of range or a nil dereference, [CAt] an error with a source position. *)
Inductive cerr := CNotImplemented (e : error) | CErr (e : error) | CFuel | CPanic | CAt (p : Position) (e : cerr).

Definition withPos {A} (r : result cerr A) (p : Position) : result cerr A :=
  match r with Ok a => Ok a | Err (CAt q e) => Err (CAt q e) | Err e => Err (CAt p e) end.

Definition notImplemented {A} (f : string) (args : list fmtarg) : result cerr A := Err (CNotImplemented (Errorf f args)).
Definition cerrorf {A} (f : string) (args : list fmtarg) : result cerr A := Err (CErr (Errorf f args)).

(** A computation that numbers labels ([whereCtx.labels]). *)
Definition gen (A : Type) : Type := Z -> result cerr (A * Z).

Definition gret {A} (a : A) : gen A := fun n => Ok (a, n).
Definition glift {A} (r : result cerr A) : gen A := fun n => let? a := r in Ok (a, n).
Definition gbind {A B} (m : gen A) (k : A -> gen B) : gen B := fun n => let? r := m n in k (fst r) (snd r).

Notation "'let!' x ':=' m 'in' k" := (gbind m (fun x => k)) (at level 10, x pattern, m at level 100, k at level 200) : go_scope.

(** [fmt.Sprintf("dsl_%s_%d", prefix, n)] *)
Definition label_text (prefix : string) (n : Z) : bytes := B "dsl_" ++ B prefix ++ B "_" ++ B (fmtd n).

Definition freshLabel (prefix : string) : gen bytes := fun n => Ok (label_text prefix (n + 1), n + 1).

Definition dslReject : bytes := B "dsl_reject".

Definition landingNoop (label : bytes) : Instruction := WithSymbol label (Reg Mov R3 R3).

(** ** Scratch slots *)

Definition arithStackBase : Z := -56.
Definition maxArithDepth : Z := 16.
Definition arith128ReservedSlots : Z := 5.
Definition boolEqOperandReserve : Z := arith128ReservedSlots.

Definition arithStackSlot (depth : Z) : Z := i16 (arithStackBase - depth * 8).

(** ** Constants *)

Definition MaxInt32 : Z := 2147483647.
Definition MinInt32 : Z := -2147483648.

Definition loadConst (dst value : Z) : list Instruction :=
  let v := int64_of_u64 value in
  if (MinInt32 <=? v) && (v <=? MaxInt32) then [Imm Mov dst (i32 v)] else [LoadImm dst v].

Definition cmpRegConst (reg : Z) (jumpOp : JumpOp_) (value : Z) (label : bytes) : list Instruction :=
  if value <=? 0x7FFFFFFF then [JImm jumpOp reg (i32 value) label]
  else [LoadImm R5 (int64_of_u64 value); JReg jumpOp reg R5 label].

Definition cmpR3Const (jumpOp : JumpOp_) (value : Z) (label : bytes) : list Instruction := cmpRegConst R3 jumpOp value label.

Definition cmpRegEqU32 (jumpOp : JumpOp_) (expected : Z) (failLabel : bytes) : list Instruction :=
  [LoadImm R5 (int64_of_u64 expected); JReg jumpOp R3 R5 failLabel].

Definition constantFail (label : bytes) : list Instruction := [Imm Mov R3 0; JImm JEq R3 0 label].

(** ** Jump tables *)

Definition rejectingJumpOp (op : CmpOp) : JumpOp_ :=
  match op with CmpEq => JNE | CmpNeq => JEq | CmpLt => JGE | CmpLe => JGT | CmpGt => JLE | CmpGe => JLT end.

Definition ipEqualityJumpOp (op : CmpOp) : option JumpOp_ :=
  match op with CmpEq | CmpNeq => Some (rejectingJumpOp op) | _ => None end.

(** Go's zero [JumpOp] where the source has no jump. *)
Definition highHalfJumps (op : CmpOp) : JumpOp_ * JumpOp_ :=
  match op with
  | CmpLt | CmpLe => (JLT, JGT)
  | CmpGt | CmpGe => (JGT, JLT)
  | _ => (InvalidJumpOp, InvalidJumpOp)
  end.

Definition lowHalfMissJump (op : CmpOp) : JumpOp_ :=
  match op with CmpLt => JGE | CmpLe => JGT | CmpGt => JLE | CmpGe => JLT | _ => InvalidJumpOp end.

(** [byteSwap] and [swapValueBytes]: the low [bytes] bytes reversed. *)
Fixpoint byteSwap_loop (n : nat) (out v : Z) : Z :=
  match n with
  | O => out
  | S n => byteSwap_loop n (Z.lor (u64 (Z.shiftl out 8)) (Z.land v 0xFF)) (Z.shiftr v 8)
  end.
Definition byteSwap (v bytes : Z) : Z := byteSwap_loop (Z.to_nat bytes) 0 v.
Definition swapValueBytes (v bytes : Z) : Z := byteSwap_loop (Z.to_nat bytes) 0 v.

(** ** What a comparison means *)

Definition cmpZ (op : CmpOp) (a b : Z) : bool :=
  match op with
  | CmpEq => a =? b
  | CmpNeq => negb (a =? b)
  | CmpLt => a <? b
  | CmpLe => a <=? b
  | CmpGt => b <? a
  | CmpGe => b <=? a
  end.

Lemma rejectingJumpOp_spec op a b : cmp64 (rejectingJumpOp op) a b = Some (negb (cmpZ op a b)).
Proof.
  destruct op; cbn; f_equal; rewrite ?negb_involutive; try reflexivity;
    [destruct (Z.leb_spec b a), (Z.ltb_spec a b)|destruct (Z.ltb_spec b a), (Z.leb_spec a b)
    |destruct (Z.leb_spec a b), (Z.ltb_spec b a)|destruct (Z.ltb_spec a b), (Z.leb_spec b a)]; try lia; reflexivity.
Qed.

(** ** What generated code does *)

(** What reading a field of a packet gives: its value, nothing when its
    layer, option or entry is absent, or a position past the packet, which
    rejects it. *)
Inductive seen (A : Type) : Type := Present (a : A) | Missing | Beyond.
Arguments Present {A} _.
Arguments Missing {A}.
Arguments Beyond {A}.

Definition sbind {A C} (r : seen A) (k : A -> seen C) : seen C :=
  match r with Present a => k a | Missing => Missing | Beyond => Beyond end.

(** A condition: it holds, it does not, or the packet is rejected. *)
Abbreviation verdict := (seen unit).
Definition test (b : bool) : verdict := if b then Present tt else Missing.

Section Runs.
Context `{Kernel}.

(** The fragment from [s]: it falls through in a state of [Q], or jumps to
    [fail] or [dslReject]; in any case in a state of [F]. *)
Definition runs {A} (F : st -> Prop) (Q : A -> st -> Prop) (code : list Instruction) (fail : bytes) (s : st) (r : seen A) : Prop :=
  match r with
  | Present a => exists s', exec code None s = Next s' /\ F s' /\ Q a s'
  | Missing => exists s', exec code None s = Goto fail s' /\ F s'
  | Beyond => exists s', exec code None s = Goto dslReject s' /\ F s'
  end.

(** Code that falls through. *)
Definition falls (F Q : st -> Prop) (code : list Instruction) (s : st) : Prop :=
  exists s', exec code None s = Next s' /\ F s' /\ Q s'.

End Runs.

(** What an evaluation may write: registers R2, R3 and R5, and the scratch
    slots of [P]. *)
Definition in_slot (d a : Z) : Prop := arithStackBase - d * 8 <= a < arithStackBase - d * 8 + 8.

Definition rest (s : st) := (words s, nargs s, maps s, resv s, submitted s, clock s).

Record upto (P : Z -> Prop) (s s' : st) : Prop := mkUpto {
  up_regs : forall r, r <> R2 -> r <> R3 -> r <> R5 -> getr r s' = getr r s;
  up_set : is_Some (getr R3 s) -> is_Some (getr R3 s');
  up_stack : forall a, (forall d, P d -> ~ in_slot d a) -> stack s' !! a = stack s !! a;
  up_rest : rest s' = rest s
}.

(** The prefixes [whereCtx.freshLabel] is called with; the labels of
    [labeler.fresh] have others. *)
Definition wherePrefixes : list string :=
  ["bool_zero"; "bool_done"; "any_match"; "quant_skip"; "or_right"; "or_done"; "not_succ"; "ne128_match"; "lt128_match";
   "v128_nocarry"; "v128_noborrow"; "v128_ff_nocarry"; "v128_ff_noborrow"; "where_lit_match"; "auxwalk_cb"; "auxwalk_skip"]%string.

(** Label [k] of the where clause. *)
Definition numbered (k : Z) (sym : bytes) : Prop := exists p, p ∈ wherePrefixes /\ sym = label_text p k /\ 0 <= k.

(** The labels of a fragment: none, a label numbered in the interval, or
    one that is neither [dslReject] nor numbered by this counter. *)
Definition outside (sym : bytes) : Prop := sym <> dslReject /\ forall k, ~ numbered k sym.

Definition owned (lo hi : Z) (code : list Instruction) : Prop :=
  forall sym, sym ∈ symbols code -> sym = [] \/ outside sym \/ exists k, numbered k sym /\ lo < k <= hi.

(** A label code with counter [n] may leave for. *)
Definition target (n : Z) (fail : bytes) : Prop := fail = dslReject \/ exists k, numbered k fail /\ k <= n.

(** * Rules for generated code

    Labels are distinct when their numbers are; [park] and [slot] write and
    read a scratch slot; [upto] is a preorder that the allowed writes stay
    within; [runs] composes along concatenation. *)

Create HintDb codegen.

(** ** Labels *)

Definition underscore : ascii := "_"%char.

Lemma pretty_N_digits x s : underscore ∉ B s -> underscore ∉ B (pretty_N_go x s).
Proof.
  revert s. induction (N.lt_wf_0 x) as [x _ IH]; intros s Hs. destruct (decide (x = 0)%N) as [->|Hx]; [now rewrite pretty_N_go_0|].
  rewrite pretty_N_go_step by lia. apply IH; [apply N.div_lt; lia|]. unfold B in *. cbn [list_ascii_of_string]. apply not_elem_of_cons. split; [|exact Hs].
  pose proof (N.mod_lt x 10 ltac:(lia)) as Hd. set (y := (x `mod` 10)%N) in *. clearbody y.
  assert (Hy : y ∈ [0; 1; 2; 3; 4; 5; 6; 7; 8; 9]%N) by (rewrite !elem_of_cons, elem_of_nil; lia).
  assert (Ht : forallb (fun y => negb (Ascii.eqb underscore (pretty_N_char y))) [0; 1; 2; 3; 4; 5; 6; 7; 8; 9]%N = true) by reflexivity.
  rewrite forallb_forall in Ht. specialize (Ht y (proj1 (list_elem_of_In _ _) Hy)). intros E. rewrite <- E, Ascii.eqb_refl in Ht. discriminate.
Qed.

Lemma fmtd_digits n : 0 <= n -> underscore ∉ B (fmtd n).
Proof.
  intros Hn. unfold fmtd. destruct n as [|p|p]; [apply not_elem_of_cons; split; [discriminate|apply not_elem_of_nil]|..|lia].
  change (underscore ∉ B (pretty (N.pos p))). unfold pretty, pretty_N. destruct (decide _) as [E|_]; [discriminate E|].
  apply pretty_N_digits, not_elem_of_nil.
Qed.

Lemma split_last_underscore (a b c d : bytes) :
  underscore ∉ b -> underscore ∉ d -> a ++ underscore :: b = c ++ underscore :: d -> a = c /\ b = d.
Proof.
  revert c. induction a as [|x a IH]; intros [|y c] Hb Hd E; cbn [app] in E.
  - injection E as E. now split.
  - injection E as E1 E2. destruct Hb. rewrite E2, elem_of_app, elem_of_cons. auto.
  - injection E as E1 E2. destruct Hd. rewrite <- E2, elem_of_app, elem_of_cons. auto.
  - injection E as -> E. destruct (IH c Hb Hd E) as [-> ->]. now split.
Qed.

Lemma label_number p k q m : 0 <= k -> 0 <= m -> label_text p k = label_text q m -> k = m.
Proof.
  unfold label_text. rewrite !app_assoc. intros Hk Hm E. rewrite <- (app_assoc _ (B "_")), <- (app_assoc _ (B "_")) in E.
  apply split_last_underscore in E as [_ E]; [|now apply fmtd_digits..].
  assert (Es : fmtd k = fmtd m) by (rewrite <- (string_list_ascii_inv (fmtd k)), <- (string_list_ascii_inv (fmtd m)); unfold B in E; now rewrite E).
  unfold fmtd in Es. now apply (inj pretty) in Es.
Qed.

Lemma label_not_reject p k : label_text p k <> dslReject.
Proof.
  unfold label_text, dslReject. change (B "dsl_reject") with (B "dsl_" ++ B "reject"). intros E. apply app_inv_head in E.
  assert (Hu : underscore ∈ B "reject") by (rewrite <- E, !elem_of_app; right; left; left). revert Hu.
  exact (bool_decide_eq_true_1 (underscore ∉ B "reject") eq_refl).
Qed.

Lemma label_has_text p k : has_text (label_text p k) = true.
Proof. reflexivity. Qed.

Lemma numbered_text k sym : numbered k sym -> has_text sym = true.
Proof. intros (p & _ & -> & _). reflexivity. Qed.

Lemma numbered_unique k m sym : numbered k sym -> numbered m sym -> k = m.
Proof. intros (p & _ & -> & Hk) (q & _ & E & Hm). now apply label_number in E. Qed.

Lemma numbered_not_reject k : ~ numbered k dslReject.
Proof. intros (p & _ & E & _). now apply (label_not_reject p k). Qed.

Lemma target_text n fail : target n fail -> has_text fail = true.
Proof. intros [->|(k & Hk & _)]; [reflexivity|now apply numbered_text in Hk]. Qed.

Lemma target_le n m fail : n <= m -> target n fail -> target m fail.
Proof. intros Hn [->|(k & Hk & ?)]; [now left|]. right. exists k. split; [exact Hk|lia]. Qed.

Lemma target_reject n : target n dslReject.
Proof. now left. Qed.

Lemma owned_le lo hi lo' hi' code : lo' <= lo -> hi <= hi' -> owned lo hi code -> owned lo' hi' code.
Proof. intros Hl Hh Ho sym Hs. destruct (Ho sym Hs) as [?|[?|(k & Hk & ?)]]; auto. right; right. exists k. split; [exact Hk|lia]. Qed.

Lemma owned_nil lo hi : owned lo hi [].
Proof. intros sym Hs. now apply elem_of_nil in Hs. Qed.

Lemma owned_app lo hi a b : owned lo hi a -> owned lo hi b -> owned lo hi (a ++ b).
Proof. intros Ha Hb sym Hs. unfold symbols in Hs. rewrite map_app, elem_of_app in Hs. destruct Hs; auto. Qed.

Lemma owned_cons lo hi i l : Symbol i = [] -> owned lo hi l -> owned lo hi (i :: l).
Proof. intros Hi Hl sym Hs. cbn [symbols map] in Hs. apply elem_of_cons in Hs as [->|Hs]; auto. Qed.

Lemma owned_landing lo hi k label l : numbered k label -> lo < k <= hi -> owned lo hi l -> owned lo hi (landingNoop label :: l).
Proof. intros Hn Hk Hl sym Hs. cbn [symbols map] in Hs. apply elem_of_cons in Hs as [->|Hs]; auto. right; right. now exists k. Qed.

(** Code without labels of the where clause. *)
Definition plain (code : list Instruction) : Prop := forall sym, sym ∈ symbols code -> sym = [] \/ outside sym.

Lemma plain_owned lo hi code : plain code -> owned lo hi code.
Proof. intros Hp sym Hs. destruct (Hp sym Hs); auto. Qed.

Lemma plain_nil : plain [].
Proof. intros sym Hs. now apply elem_of_nil in Hs. Qed.

Lemma plain_cons i l : Symbol i = [] -> plain l -> plain (i :: l).
Proof. intros Hi Hl sym Hs. cbn [symbols map] in Hs. apply elem_of_cons in Hs as [->|Hs]; auto. Qed.

Lemma plain_app a b : plain a -> plain b -> plain (a ++ b).
Proof. intros Ha Hb sym Hs. unfold symbols in Hs. rewrite map_app, elem_of_app in Hs. destruct Hs; auto. Qed.

Lemma plain_app_inv a b : plain (a ++ b) -> plain a /\ plain b.
Proof. intros Hp. split; intros sym Hs; apply Hp; unfold symbols; rewrite map_app, elem_of_app; auto. Qed.

Lemma plain_target n code fail : plain code -> target n fail -> fail ∉ symbols code.
Proof.
  intros Hp Ht Hs. pose proof (target_text _ _ Ht) as Hf. destruct (Hp fail Hs) as [->|[Hr Ho]]; [discriminate|].
  destruct Ht as [->|(k & Hk & _)]; [easy|]. now apply (Ho k).
Qed.

Lemma plain_loadConst dst v : plain (loadConst dst v).
Proof. unfold loadConst. case_match; apply plain_cons; try reflexivity; apply plain_nil. Qed.

(** A fragment does not hold the labels code before it may leave for. *)
Lemma owned_target lo hi code fail : owned lo hi code -> target lo fail -> fail ∉ symbols code.
Proof.
  intros Ho Ht Hs. pose proof (target_text _ _ Ht) as Hf. destruct (Ho fail Hs) as [->|[[Hr Ho']|(k & Hk & ?)]]; [discriminate| |];
    destruct Ht as [->|(m & Hm & ?)]; try easy.
  - now apply (Ho' m).
  - now apply numbered_not_reject in Hk.
  - pose proof (numbered_unique _ _ _ Hk Hm). lia.
Qed.

Lemma owned_fresh lo hi code k label : owned lo hi code -> numbered k label -> ~ (lo < k <= hi) -> label ∉ symbols code.
Proof.
  intros Ho Hn Hk Hs. destruct (Ho label Hs) as [->|[[_ Ho']|(m & Hm & ?)]].
  - now apply numbered_text in Hn.
  - now apply (Ho' k).
  - pose proof (numbered_unique _ _ _ Hn Hm). lia.
Qed.

(** ** The generator monad *)

(** [case_if] of a computation applied to its counter. *)
Ltac gcase E :=
  match type of E with (if ?b then _ else _) _ = _ => let Eb := fresh "E" in destruct b eqn:Eb end.

Lemma gbind_ok {A C} (m : gen A) (k : A -> gen C) n r n' :
  gbind m k n = Ok (r, n') <-> exists a n1, m n = Ok (a, n1) /\ k a n1 = Ok (r, n').
Proof.
  unfold gbind. rewrite result_bind_ok. split.
  - intros ([a n1] & Hm & Hk). now exists a, n1.
  - intros (a & n1 & Hm & Hk). now exists (a, n1).
Qed.

Lemma glift_ok {A} (m : result cerr A) n r n' : glift m n = Ok (r, n') <-> m = Ok r /\ n' = n.
Proof. unfold glift. destruct m; cbn; split; [intros [= -> ->]|intros [[= ->] ->]|..]; try easy. Qed.

Lemma gret_ok {A} (a r : A) n n' : gret a n = Ok (r, n') <-> r = a /\ n' = n.
Proof. unfold gret. split; [now intros [= -> ->]|now intros [-> ->]]. Qed.

Lemma freshLabel_ok p n label n' :
  p ∈ wherePrefixes -> 0 <= n -> freshLabel p n = Ok (label, n') -> numbered n' label /\ n' = n + 1.
Proof. unfold freshLabel. intros Hp Hn [= <- <-]. split; [|reflexivity]. exists p. split; [exact Hp|split; [reflexivity|lia]]. Qed.

(** ** Scratch slots *)

Definition cells (v : val) : list cell := match v with Num z => map CByte (le 8 z) | Ptr _ _ => parts v end.

Definition park (d : Z) (v : val) (s : st) : st := wr (arithStackSlot d) (cells v) s.
Definition slot (d : Z) (s : st) : option val := ldst (arithStackSlot d) 8 s.

Lemma cells_length v : length (cells v) = 8%nat.
Proof. destruct v; [|reflexivity]. cbn [cells]. now rewrite length_map, le_length. Qed.

Lemma encode_cells v : encode 8 v = Some (cells v).
Proof. now destruct v. Qed.

Lemma arithStackSlot_eq d : 0 <= d < 16 -> arithStackSlot d = -56 - d * 8.
Proof. intros Hd. unfold arithStackSlot, arithStackBase. apply i16_small. lia. Qed.

Lemma slot_in_frame d : 0 <= d < 16 -> in_frame (arithStackSlot d) 8 = true.
Proof. intros Hd. rewrite arithStackSlot_eq by exact Hd. unfold in_frame. apply andb_true_intro. split; apply Z.leb_le; lia. Qed.

Lemma slot_park_same d z s : in_u64 z -> slot d (park d (Num z) s) = Some (Num z).
Proof.
  intros Hz. unfold slot, park. rewrite ldst_wr_same by apply cells_length. cbn [cells]. rewrite decode_bytes, unle_le.
  now rewrite Z.mod_small by (unfold in_u64, two64 in Hz; lia).
Qed.

Lemma slot_park_other d e v s : 0 <= d < 16 -> 0 <= e < 16 -> d <> e -> slot d (park e v s) = slot d s.
Proof.
  intros Hd He Hn. unfold slot, park. apply ldst_wr_other. rewrite cells_length, !arithStackSlot_eq by assumption. lia.
Qed.

Lemma slot_setr d r v s : slot d (setr r v s) = slot d s.
Proof. reflexivity. Qed.

Lemma getr_park r d v s : getr r (park d v s) = getr r s.
Proof. reflexivity. Qed.

(** Equal cells give equal words. *)
Lemma peek_agree a n m m' : (forall k, a <= k < a + Z.of_nat n -> m' !! k = m !! k) -> peek a n m' = peek a n m.
Proof.
  revert a. induction n as [|n IH]; intros a Ha; [reflexivity|]. rewrite !peek_S, Ha by lia. f_equal. apply IH. intros k Hk. apply Ha. lia.
Qed.

Lemma ldst_agree a n s s' : (forall k, a <= k < a + Z.of_nat n -> stack s' !! k = stack s !! k) -> ldst a n s' = ldst a n s.
Proof. intros Ha. unfold ldst. f_equal. now apply read_peek, peek_agree. Qed.

(** ** What is kept *)

Lemma upto_refl P s : upto P s s.
Proof. split; auto. Qed.

Lemma upto_trans P s s1 s2 : upto P s s1 -> upto P s1 s2 -> upto P s s2.
Proof.
  intros [R1 S1 K1 E1] [R2' S2 K2 E2]. split; auto; [..|congruence].
  - intros r H2 H3 H5. rewrite R2' by assumption. auto.
  - intros a Ha. rewrite K2 by assumption. auto.
Qed.

#[export] Instance upto_preorder P : PreOrder (upto P).
Proof. split; [intros s; apply upto_refl|intros s s1 s2; apply upto_trans]. Qed.

Lemma upto_weaken (P Q : Z -> Prop) s s' : (forall d, P d -> Q d) -> upto P s s' -> upto Q s s'.
Proof. intros HPQ [R S K E]. split; auto. Qed.

Lemma upto_slot P s s' d : 0 <= d < 16 -> (forall e, P e -> e <> d) -> upto P s s' -> slot d s' = slot d s.
Proof.
  intros Hd Hn [_ _ K _]. unfold slot. apply ldst_agree. intros k Hk. apply K. intros e He Hs. specialize (Hn e He).
  rewrite arithStackSlot_eq in Hk by exact Hd. unfold in_slot, arithStackBase in Hs. lia.
Qed.

Lemma upto_getr P s s' r : upto P s s' -> r <> R2 -> r <> R3 -> r <> R5 -> getr r s' = getr r s.
Proof. intros [R _ _ _]. auto. Qed.

Lemma getr_setr_set r v s : is_Some (getr R3 s) -> r <> RFP -> is_Some (getr R3 (setr r v s)).
Proof.
  intros Hs Hr. destruct (decide (R3 = r)) as [<-|Hn]; [rewrite getr_same by exact Hr; now eexists|]. now rewrite getr_other.
Qed.

Lemma upto_setr P r v s : r = R2 \/ r = R3 \/ r = R5 -> upto P s (setr r v s).
Proof.
  intros Hr. split; try reflexivity.
  - intros q H2 H3 H5. apply getr_other. destruct Hr as [->|[->| ->]]; assumption.
  - intros Hs. apply getr_setr_set; [exact Hs|]. destruct Hr as [->|[->| ->]]; discriminate.
Qed.

Lemma upto_park (P : Z -> Prop) d v s : 0 <= d < 16 -> P d -> upto P s (park d v s).
Proof.
  intros Hd HP. split; try reflexivity; [auto|]. intros a Ha. unfold park, wr. cbn [set_stack stack]. apply write_other.
  rewrite cells_length, arithStackSlot_eq by exact Hd. specialize (Ha d HP). unfold in_slot, arithStackBase in Ha. lia.
Qed.

(** ** Rules *)

Section Rules.
Context `{Kernel}.

Lemma exec_park l s d r v : 0 <= d < 16 -> getr r s = Some v -> exec (StoreMem RFP (arithStackSlot d) r DWord :: l) None s = exec l None (park d v s).
Proof.
  intros Hd Hv. unfold park. rewrite (exec_store_stack l s _ _ _ _ 0 v (cells v)); [reflexivity|apply getr_fp|exact Hv| |apply encode_cells].
  now apply slot_in_frame.
Qed.

Lemma exec_unpark l s dst d v : dst <> RFP -> 0 <= d < 16 -> slot d s = Some v -> exec (LoadMem dst RFP (arithStackSlot d) DWord :: l) None s = exec l None (setr dst v s).
Proof.
  intros Hr Hd Hv. apply (exec_load_stack l s _ _ _ _ 0 v); [exact Hr|apply getr_fp| |exact Hv]. now apply slot_in_frame.
Qed.

(** A jump that arrives. *)
Lemma exec_land i l label s : Symbol i = label -> exec (i :: l) (Some label) s = exec (i :: l) None s.
Proof. intros Hs. cbn [exec]. now rewrite bool_decide_true. Qed.

Lemma exec_symbol_None i l sym s : exec (WithSymbol sym i :: l) None s = exec (i :: l) None s.
Proof. reflexivity. Qed.

Lemma exec_landing l label s v : getr R3 s = Some v -> exec (landingNoop label :: l) None s = exec l None (setr R3 v s).
Proof. intros Hv. unfold landingNoop. rewrite exec_symbol_None. now rewrite (exec_Mov_Reg _ _ _ _ v) by (try discriminate; exact Hv). Qed.

Lemma exec_arrive l label s v : getr R3 s = Some v -> exec (landingNoop label :: l) (Some label) s = exec l None (setr R3 v s).
Proof. intros Hv. rewrite exec_land by reflexivity. now apply exec_landing. Qed.

Lemma exec_loadConst l s dst v : dst <> RFP -> in_u64 v -> exec (loadConst dst v ++ l) None s = exec l None (setr dst (Num v) s).
Proof.
  intros Hd Hv. unfold loadConst, MinInt32, MaxInt32. assert (Hr : u64 (int64_of_u64 v) = v).
  { unfold in_u64, int64_of_u64, u64, two63, two64 in *. destruct (Z.ltb_spec v 9223372036854775808); [apply Z.mod_small; lia|].
    symmetry. apply (Z.mod_unique_pos _ _ (-1)); lia. }
  destruct (_ && _) eqn:E; cbn [app].
  - rewrite exec_Mov_Imm by exact Hd. bools. now rewrite i32_small, Hr by lia.
  - rewrite exec_LoadImm by exact Hd. now rewrite Hr.
Qed.

(** Jumps of [runs]. *)
Lemma runs_weaken {A} (F F' : st -> Prop) (Q Q' : A -> st -> Prop) code fail s r :
  (forall t, F t -> F' t) -> (forall a t, F t -> Q a t -> Q' a t) -> runs F Q code fail s r -> runs F' Q' code fail s r.
Proof. intros HF HQ. destruct r; intros (t & ? & ?); exists t; deex; repeat split; auto. Qed.

Lemma runs_app {A C} (F1 F2 : st -> Prop) (Q1 : A -> st -> Prop) (Q2 : C -> st -> Prop) c1 c2 fail s r k :
  runs F1 Q1 c1 fail s r -> (forall a t, r = Present a -> F1 t -> Q1 a t -> runs F2 Q2 c2 fail t (k a)) -> (forall t, F1 t -> F2 t) ->
  fail ∉ symbols c2 -> dslReject ∉ symbols c2 -> runs F2 Q2 (c1 ++ c2) fail s (sbind r k).
Proof.
  intros H1 H2 HF Hf Hd. destruct r as [a| |]; cbn [sbind runs] in *.
  - destruct H1 as (t & E & HFt & HQ). specialize (H2 a t eq_refl HFt HQ). destruct (k a); cbn [runs] in *; deex; eexists; rewrite exec_app, E; eauto.
  - destruct H1 as (t & E & HFt). exists t. rewrite exec_app, E. split; [now apply exec_skip|auto].
  - destruct H1 as (t & E & HFt). exists t. rewrite exec_app, E. split; [now apply exec_skip|auto].
Qed.

Lemma runs_exec {A} (F : st -> Prop) (Q : A -> st -> Prop) c c' fail s s' r :
  exec c None s = exec c' None s' -> runs F Q c' fail s' r -> runs F Q c fail s r.
Proof. intros E. unfold runs. now rewrite E. Qed.

(** Appending code that falls through. *)
Lemma runs_then {A} (F1 F2 : st -> Prop) (Q1 Q2 : A -> st -> Prop) c1 c2 fail s r :
  runs F1 Q1 c1 fail s r -> (forall a t, r = Present a -> F1 t -> Q1 a t -> falls F2 (Q2 a) c2 t) -> (forall t, F1 t -> F2 t) ->
  fail ∉ symbols c2 -> dslReject ∉ symbols c2 -> runs F2 Q2 (c1 ++ c2) fail s r.
Proof.
  intros H1 H2 HF Hf Hd. replace r with (sbind r Present) by now destruct r.
  eapply runs_app; [exact H1| |exact HF|exact Hf|exact Hd]. intros a t Hr HFt HQ. destruct (H2 a t Hr HFt HQ) as (t' & E & ? & ?). exists t'. auto.
Qed.

Lemma exec_HostToBE l s dst size a :
  dst <> RFP -> getr dst s = Some (Num a) -> exec (HostToBE dst size :: l) None s = exec l None (setr dst (Num (to_be (Z.to_nat (Sizeof size)) a)) s).
Proof.
  intros Hd Ha. apply Z.eqb_neq in Hd. cbn [exec]. unfold exec1, HostToBE, bare, class. cbn [OpCode Class]. unfold exec_alu. cbn [ALUOp OpCode Dst Constant].
  rewrite Ha. unfold put_reg. rewrite Hd. cbn [next]. do 5 f_equal. rewrite Z.mul_comm, Z.div_mul by easy. reflexivity.
Qed.

End Rules.

#[export] Hint Resolve plain_nil plain_cons plain_app plain_loadConst : codegen.
