(* ===== verification/WhereArith.v ===== *)
(** * WhereArith: arithmetic of a where clause as instructions (pkg/kunai/codegen/where.go)

    The code generator's arithmetic: 64-bit expressions in R3 with one
    scratch slot per level of binary nodes, 128-bit expressions as a pair
    of registers (R3 high, R5 low), and the comparison of two of them. How
    a field's bytes reach a register depends on where its layer starts and
    on the vocabulary: the class [FieldCode] is that part of the generator
    as the arithmetic uses it. What an expression means ([evalArith],
    [evalCompare]) and which references the theorems are about ([ref_ok],
    of a place known when the clause is compiled) are here too. *)

From Stdlib Require Import ZArith Lia Bool Ascii String List.
From stdpp Require Import base list strings numbers option gmap.
From S2P Require Import Prelude GoStd GoBytes Ast Ir Asm Ebpf Codegen.
Local Open Scope Z_scope.
Local Open Scope go_scope.

(** [genArithFieldLoad] loads a field of at most 64 bits into R3;
    [field128] is what the two loads of a 128-bit one run after (its gating
    and address) and the load of the eight bytes at an offset into R3. The
    label is the one an absent field jumps to. *)
Class FieldCode := {
  genArithFieldLoad : FieldRef -> bytes -> result cerr (list Instruction);
  field128 : FieldRef -> bytes -> result cerr (list Instruction * (Z -> list Instruction));
  optionFieldName : FieldRef -> string
}.

(** The scoped part of [whereCtx]: what a call sets for the calls below it
    and restores. *)
Record whereCtx := mkWhereCtx { wideHold : Z; boolEqDepth : Z; atomFail : bytes; presentLayers : list LayerInstance }.

Definition with_atomFail (f : bytes) (c : whereCtx) : whereCtx := mkWhereCtx (wideHold c) (boolEqDepth c) f (presentLayers c).
Definition hold2 (c : whereCtx) : whereCtx := mkWhereCtx (wideHold c + 2) (boolEqDepth c) (atomFail c) (presentLayers c).
Definition deeper (c : whereCtx) : whereCtx := mkWhereCtx (wideHold c) (boolEqDepth c + 1) (atomFail c) (presentLayers c).
Definition with_present (l : LayerInstance) (c : whereCtx) : whereCtx := mkWhereCtx (wideHold c) (boolEqDepth c) (atomFail c) (l :: presentLayers c).

Definition absent (c : whereCtx) : bytes := if has_text (atomFail c) then atomFail c else dslReject.

(** ** Widths and nesting *)

Fixpoint arithMaxFieldBits (e : IR.ArithExpr) : Z :=
  match e with
  | IR.ArithConst _ _ _ wide _ => if wide then 128 else 0
  | IR.ArithField f _ => EffectiveBits f
  | IR.ArithBinOp _ le re _ =>
      let l := arithMaxFieldBits le in
      let r := arithMaxFieldBits re in
      if r <? l then l else r
  end.

Definition arithCmpTargetBits (l r : IR.ArithExpr) : Z :=
  let lb := arithMaxFieldBits l in
  let rb := arithMaxFieldBits r in
  if rb <? lb then lb else rb.

Definition isConst (e : IR.ArithExpr) : bool := match e with IR.ArithConst _ _ _ _ _ => true | _ => false end.

Definition isNarrowArith (e : IR.ArithExpr) : bool := negb (isConst e) && (arithMaxFieldBits e <=? 64).

Fixpoint arithNesting (e : IR.ArithExpr) : Z :=
  match e with
  | IR.ArithBinOp _ l r _ => 1 + Z.max (arithNesting l) (arithNesting r)
  | _ => 0
  end.

(** The constant and its sign when [isLowConst128] holds. *)
Definition lowConst128 (e : IR.ArithExpr) : option (Z * bool) :=
  match e with IR.ArithConst v hi neg _ _ => if hi =? 0 then Some (v, neg) else None | _ => None end.

Definition isLowConst128 (e : IR.ArithExpr) : bool := is_Some_b (lowConst128 e).

Fixpoint parks128 (e : IR.ArithExpr) : bool :=
  match e with
  | IR.ArithBinOp _ l r _ => if isNarrowArith e then false else if isLowConst128 r then parks128 l else true
  | _ => false
  end.

Definition arithALUOp (op : ArithOp) : ALUOp_ :=
  match op with
  | ArithAdd => Add | ArithSub => Sub | ArithMul => Mul | ArithDiv => Div | ArithMod => Mod
  | ArithAnd => And | ArithOr => Or | ArithXor => Xor | ArithShl => LSh | ArithShr => RSh
  end.

Section Arith.
Context `{FieldCode}.

(** ** 64 bits *)

(** [genArithWithBits] and [genArithBinOp]; [depth] is the first slot the
    expression may use, [targetBits] the width a constant is narrowed to. *)
Fixpoint genArithWithBits (c : whereCtx) (e : IR.ArithExpr) (depth targetBits : Z) : result cerr (list Instruction) :=
  let ceiling := maxArithDepth - boolEqDepth c in
  match e with
  | IR.ArithConst v hi _ wide _ =>
      if wide || negb (hi =? 0) then cerrorf "codegen: an int<128> literal reached the 64-bit pipeline" []
      else
        let v := if (0 <? targetBits) && (targetBits <? 64) then Z.land v (Z.shiftl 1 targetBits - 1) else v in
        Ok (loadConst R3 v)
  | IR.ArithField f _ => genArithFieldLoad f (absent c)
  | IR.ArithBinOp op l r _ =>
      if ceiling <=? depth then notImplemented "%w: arith expression nested deeper than %d levels" [AInt ceiling]
      else
        let? leftInsns := genArithWithBits c l (depth + 1) (arithMaxFieldBits r) in
        let? rightInsns := genArithWithBits c r (depth + 1) (arithMaxFieldBits l) in
        let slot := arithStackSlot depth in
        Ok (leftInsns ++ [StoreMem RFP slot R3 DWord] ++ rightInsns
            ++ [LoadMem R5 RFP slot DWord; Reg (arithALUOp op) R5 R3; Reg Mov R3 R5])
  end.

(** ** 128 bits *)

Definition arith128Halves (load : Z -> list Instruction) : list Instruction :=
  load 0 ++ [HostToBE R3 DWord; StoreMem RFP (arithStackSlot 4) R3 DWord]
  ++ load 8 ++ [HostToBE R3 DWord; Reg Mov R5 R3; LoadMem R3 RFP (arithStackSlot 4) DWord].

Definition genArithField128Load (c : whereCtx) (f : FieldRef) : result cerr (list Instruction) :=
  match RefField f with
  | None => cerrorf "codegen: bit<128> field load with nil ref" []
  | Some fd =>
      if negb (Bits fd =? 128) then cerrorf "codegen: bit<128> path called with %d-bit field" [AInt (Bits fd)]
      else let? p := field128 f (absent c) in Ok (fst p ++ arith128Halves (snd p))
  end.

Definition genArith128Narrow (c : whereCtx) (e : IR.ArithExpr) : result cerr (list Instruction) :=
  let base := arith128ReservedSlots + wideHold c in
  let room := maxArithDepth - boolEqDepth c - base in
  if room <? arithNesting e
  then notImplemented "%w: a sub-64-bit expression next to an Int<128> operand nests deeper than %d levels" [AInt room]
  else let? insns := genArithWithBits c e base 0 in Ok (insns ++ [Reg Mov R5 R3; Imm Mov R3 0]).

(** The left operand is in slots 2 and 3, the right one in R3 and R5. *)
Definition genArith128Combine (op : ArithOp) : gen (list Instruction) :=
  let lhsHigh := arithStackSlot 2 in
  let lhsLow := arithStackSlot 3 in
  match op with
  | ArithAdd =>
      let! noCarry := freshLabel "v128_ff_nocarry" in
      gret [StoreMem RFP (arithStackSlot 4) R3 DWord; LoadMem R3 RFP lhsLow DWord; Reg Add R5 R3;
            JReg JGE R5 R3 noCarry;
            LoadMem R3 RFP lhsHigh DWord; Imm Add R3 1; StoreMem RFP lhsHigh R3 DWord;
            landingNoop noCarry;
            StoreMem RFP lhsLow R5 DWord; LoadMem R3 RFP (arithStackSlot 4) DWord; LoadMem R5 RFP lhsHigh DWord;
            Reg Add R3 R5; LoadMem R5 RFP lhsLow DWord]
  | ArithSub =>
      let! noBorrow := freshLabel "v128_ff_noborrow" in
      gret [StoreMem RFP (arithStackSlot 4) R3 DWord; LoadMem R3 RFP lhsLow DWord;
            JReg JGE R3 R5 noBorrow;
            LoadMem R3 RFP lhsHigh DWord; Imm Sub R3 1; StoreMem RFP lhsHigh R3 DWord; LoadMem R3 RFP lhsLow DWord;
            landingNoop noBorrow;
            Reg Sub R3 R5; StoreMem RFP lhsLow R3 DWord; LoadMem R3 RFP lhsHigh DWord; LoadMem R5 RFP (arithStackSlot 4) DWord;
            Reg Sub R3 R5; LoadMem R5 RFP lhsLow DWord]
  | _ => gret []
  end.

(** The constant of [x op const]: a negative literal is the other operator
    on its magnitude. *)
Definition foldedConst (op : ArithOp) (v : Z) (negative : bool) : ArithOp * Z :=
  if negative then (if bool_decide (op = ArithAdd) then ArithSub else ArithAdd, u64 (- v)) else (op, v).

Definition genArith128FieldOpConst (leftInsns : list Instruction) (op : ArithOp) (v : Z) (negative : bool) : gen (list Instruction) :=
  let '(op, imm) := foldedConst op v negative in
  let wide := 0x7FFFFFFF <? imm in
  let load := if wide then loadConst R2 imm else [] in
  let alu (op : ALUOp_) := if wide then Reg op R5 R2 else Imm op R5 (i32 imm) in
  let geConst (label : bytes) := if wide then JReg JGE R5 R2 label else JImm JGE R5 (i32 imm) label in
  match op with
  | ArithAdd =>
      let! noCarry := freshLabel "v128_nocarry" in
      gret (leftInsns ++ load ++ [alu Add; geConst noCarry; Imm Add R3 1; landingNoop noCarry])
  | ArithSub =>
      let! noBorrow := freshLabel "v128_noborrow" in
      gret (leftInsns ++ load ++ [geConst noBorrow; Imm Sub R3 1; landingNoop noBorrow; alu Sub])
  | _ => gret (leftInsns ++ load)
  end.

(** Both sides park an operand in slots 2 and 3. *)
Definition genArith128BothPark (c : whereCtx) (op : ArithOp) (genLeft genRight : whereCtx -> gen (list Instruction))
    : gen (list Instruction) :=
  let hold := arith128ReservedSlots + wideHold c in
  if maxArithDepth - boolEqDepth c <? hold + 2
  then glift (notImplemented "%w: bit<128> arith nests 128-bit expressions on both sides of %s too deeply" [AStr (ArithOp_String op)])
  else
    let! leftInsns := genLeft c in
    let! rightInsns := genRight (hold2 c) in
    let holdHigh := arithStackSlot hold in
    let holdLow := arithStackSlot (hold + 1) in
    let! combine := genArith128Combine op in
    gret (leftInsns ++ [StoreMem RFP holdHigh R3 DWord; StoreMem RFP holdLow R5 DWord] ++ rightInsns
          ++ [LoadMem R2 RFP holdHigh DWord; StoreMem RFP (arithStackSlot 2) R2 DWord;
              LoadMem R2 RFP holdLow DWord; StoreMem RFP (arithStackSlot 3) R2 DWord] ++ combine).

(** R3, R5 and slots 2, 3 exchange. *)
Definition exchange128 : list Instruction :=
  [LoadMem R2 RFP (arithStackSlot 2) DWord; StoreMem RFP (arithStackSlot 2) R3 DWord; Reg Mov R3 R2;
   LoadMem R2 RFP (arithStackSlot 3) DWord; StoreMem RFP (arithStackSlot 3) R5 DWord; Reg Mov R5 R2].

Definition genArith128FieldOpField (c : whereCtx) (op : ArithOp) (l r : IR.ArithExpr) (genLeft genRight : whereCtx -> gen (list Instruction))
    : gen (list Instruction) :=
  if parks128 l && parks128 r then genArith128BothPark c op genLeft genRight
  else
    let rightFirst := parks128 r in
    let! first := (if rightFirst then genRight else genLeft) c in
    let! second := (if rightFirst then genLeft else genRight) c in
    let! combine := genArith128Combine op in
    gret (first ++ [StoreMem RFP (arithStackSlot 2) R3 DWord; StoreMem RFP (arithStackSlot 3) R5 DWord] ++ second
          ++ (if rightFirst && bool_decide (op = ArithSub) then exchange128 else []) ++ combine).

Fixpoint genArith128 (c : whereCtx) (e : IR.ArithExpr) : gen (list Instruction) :=
  if isNarrowArith e then glift (genArith128Narrow c e)
  else
    match e with
    | IR.ArithField f _ =>
        if is_Some_b (RefField f) && negb (EffectiveBits f =? 128) then
          let name := match Slice f with
                      | Some s => optionFieldName f +:+ "[" +:+ fmtd (Lo s) +:+ ":" +:+ fmtd (Hi s) +:+ "]"
                      | None => optionFieldName f end in
          glift (notImplemented "%w: %s (bit<%d>) next to an Int<128> operand: a slice between 65 and 127 bits is not wired; compare it with == or != against a slice of the same width, or use the whole field" [AStr name; AInt (EffectiveBits f)])
        else glift (genArithField128Load c f)
    | IR.ArithBinOp op l r _ =>
        if negb (bool_decide (op = ArithAdd)) && negb (bool_decide (op = ArithSub))
        then glift (cerrorf "codegen: %s on Int<128> operands reached codegen; the resolver should have rejected it" [AStr (ArithOp_String op)])
        else
          match lowConst128 r with
          | Some (v, neg) =>
              let! leftInsns := genArith128 c l in
              genArith128FieldOpConst leftInsns op v neg
          | None => genArith128FieldOpField c op l r (fun c => genArith128 c l) (fun c => genArith128 c r)
          end
    | IR.ArithConst v hi neg wide _ =>
        if wide then gret (loadConst R3 hi ++ loadConst R5 v)
        else
          let high := if neg && (int64_of_u64 v <? 0) then -1 else 0 in
          gret ([Imm Mov R3 high] ++ loadConst R5 v)
    end.

Definition genArithCompare128 (c : whereCtx) (al : IR.ArithExpr) (op : CmpOp) (ar : IR.ArithExpr) (failLabel : bytes) (targetBits : Z)
    : gen (list Instruction) :=
  if negb (targetBits =? 128)
  then glift (notImplemented "%w: a bit<%d> value compares only with == or != against a slice of the same width (no mid-width arith or constant compare)" [AInt targetBits])
  else
    let! leftInsns := genArith128 c al in
    let! rightInsns := genArith128 c ar in
    let lhsHigh := arithStackSlot 0 in
    let lhsLow := arithStackSlot 1 in
    let rhsLow := arithStackSlot 2 in
    let reloadLows := [LoadMem R3 RFP lhsLow DWord; LoadMem R5 RFP rhsLow DWord] in
    let head := leftInsns ++ [StoreMem RFP lhsHigh R3 DWord; StoreMem RFP lhsLow R5 DWord] ++ rightInsns
                ++ [StoreMem RFP rhsLow R5 DWord; LoadMem R5 RFP lhsHigh DWord] in
    match op with
    | CmpEq => gret (head ++ [JReg JNE R5 R3 failLabel] ++ reloadLows ++ [JReg JNE R3 R5 failLabel])
    | CmpNeq =>
        let! matchLabel := freshLabel "ne128_match" in
        gret (head ++ [JReg JNE R5 R3 matchLabel] ++ reloadLows ++ [JReg JEq R3 R5 failLabel; landingNoop matchLabel])
    | _ =>
        let! matchLabel := freshLabel "lt128_match" in
        let '(highSuccess, highFail) := highHalfJumps op in
        let lowMiss := lowHalfMissJump op in
        gret (head ++ [JReg highSuccess R5 R3 matchLabel; JReg highFail R5 R3 failLabel] ++ reloadLows
              ++ [JReg lowMiss R3 R5 failLabel; landingNoop matchLabel])
    end.

(** ** Comparisons *)

Definition genArithCompare (c : whereCtx) (al : IR.ArithExpr) (op : CmpOp) (ar : IR.ArithExpr) (failLabel : bytes) : gen (list Instruction) :=
  let targetBits := arithCmpTargetBits al ar in
  let c := with_atomFail failLabel c in
  if 64 <? targetBits then genArithCompare128 c al op ar failLabel targetBits
  else glift (
    let? leftInsns := genArithWithBits c al 0 targetBits in
    let? rightInsns := genArithWithBits c ar 0 targetBits in
    let jumpOp := rejectingJumpOp op in
    let nl := arithNesting al in
    let nr := arithNesting ar in
    if maxArithDepth - boolEqDepth c <=? Z.min nl nr
    then notImplemented "%w: both sides of the comparison nest %d levels; one must leave a slot to park the other" [AInt (Z.min nl nr)]
    else if nr <=? nl then
      let slot := arithStackSlot nr in
      Ok (leftInsns ++ [StoreMem RFP slot R3 DWord] ++ rightInsns ++ [LoadMem R5 RFP slot DWord; JReg jumpOp R5 R3 failLabel])
    else
      let slot := arithStackSlot nl in
      Ok (rightInsns ++ [StoreMem RFP slot R3 DWord] ++ leftInsns
          ++ [Reg Mov R5 R3; LoadMem R3 RFP slot DWord; JReg jumpOp R5 R3 failLabel])).

End Arith.

(** * What a where clause means

    The reference semantics the generated code is held against, as the
    repository's specification (src/spec/lean, Kunai/Eval/Where.lean) gives
    it: widths of arithmetic, constants narrowed to the width of their
    sibling, 64-bit or 128-bit binary operations, comparisons false when a
    field they read is absent. A field read past the packet rejects. The
    value of a field is an argument. *)

(** T-ArithBin: 0 is the width of an expression of constants. *)
Fixpoint width (e : IR.ArithExpr) : Z :=
  match e with
  | IR.ArithConst _ _ _ wide _ => if wide then 128 else 0
  | IR.ArithField f _ => EffectiveBits f
  | IR.ArithBinOp _ l r _ => Z.max (width l) (width r)
  end.

(** The width a constant on one side of a node is narrowed to, when the
    other side is [w] wide. *)
Definition sibling_width (w : Z) : Z := if w =? 0 then 64 else w.

(** The integer a literal denotes. *)
Definition literal (v : Z) (negative : bool) : Z := if negative then int64_of_u64 v else v.

(** A node computes in 64 bits up to 64-bit operands and in the width of
    its operands above that. Division by zero gives zero, modulo by zero
    the dividend; shift amounts are taken modulo 64. *)
Definition binop (op : ArithOp) (a b w : Z) : Z :=
  let m := 2 ^ w in
  match op with
  | ArithAdd => (a + b) mod m
  | ArithSub => (a - b) mod m
  | ArithMul => (a * b) mod m
  | ArithDiv => if b =? 0 then 0 else a / b
  | ArithMod => if b =? 0 then a else a mod b
  | ArithAnd => Z.land a b
  | ArithOr => Z.lor a b
  | ArithXor => Z.lxor a b
  | ArithShl => Z.shiftl a (b mod 64) mod m
  | ArithShr => Z.shiftr a (b mod 64)
  end.

Definition node_width (l r : IR.ArithExpr) : Z := if Z.max (width l) (width r) <=? 64 then 64 else Z.max (width l) (width r).

(** Two operands, evaluated in the order the code computes them. The order
    matters only when one is absent and the other past the packet. *)
Definition both {A} (right_first : bool) (a b : seen Z) (k : Z -> Z -> seen A) : seen A :=
  if right_first then sbind b (fun b => sbind a (fun a => k a b)) else sbind a (fun a => sbind b (fun b => k a b)).

(** A 128-bit node computes a right operand that parks first. *)
Definition node_right_first (e l r : IR.ArithExpr) : bool := negb (isNarrowArith e) && parks128 r && negb (parks128 l).

(** A 64-bit comparison computes the side that nests deeper first. *)
Definition compare_right_first (l r : IR.ArithExpr) : bool :=
  (Z.max (width l) (width r) <=? 64) && (arithNesting l <? arithNesting r).

Section Eval.
Variable value : FieldRef -> seen Z.

(** [ctx] is the width a constant is narrowed to. *)
Fixpoint evalArith (ctx : Z) (e : IR.ArithExpr) : seen Z :=
  match e with
  | IR.ArithConst v hi neg wide _ => Present (if wide then hi * 2 ^ 64 + v else literal v neg mod 2 ^ ctx)
  | IR.ArithField f _ => value f
  | IR.ArithBinOp op l r _ =>
      both (node_right_first e l r) (evalArith (sibling_width (width r)) l) (evalArith (sibling_width (width l)) r)
        (fun a b => Present (binop op a b (node_width l r)))
  end.

Definition evalCompare (l : IR.ArithExpr) (op : CmpOp) (r : IR.ArithExpr) : verdict :=
  both (compare_right_first l r) (evalArith (sibling_width (width r)) l) (evalArith (sibling_width (width l)) r)
    (fun a b => test (cmpZ op a b)).

End Eval.

(** ** Entries whose place is known when the clause is compiled *)

(** What the parse machine of a layer's protocol says of an auxiliary
    header, by its out parameter or its header's name. *)
Class AuxVocab := {
  (* the walk records where it is: [AuxLayout.IsDynamicEligible] *)
  IsDynamicEligible : LayerInstance -> string -> bool;
  (* [variableTailFor] of the layer's protocol finds the header *)
  hasVariableTail : LayerInstance -> string -> bool
}.

Section Known.
Context `{AuxVocab}.

Definition isVarTailStack (ref : FieldRef) : bool :=
  match Aux ref with
  | Some aux => is_Some_b (Ir.Stack aux) && negb (is_Some_b (OwnerOption aux)) && hasVariableTail (RefLayer ref) (HeaderName aux)
  | None => false
  end.

Definition needsEntryAddress (ref : FieldRef) : bool :=
  match Aux ref ≫= Ir.Stack with
  | None => false
  | Some st => negb (IsStatic st) || ((0 <? Static st) && isVarTailStack ref)
  end.

(** ** Well-formed expressions

    What parsing and resolving leave in an expression: constants fit their
    words, a negative one is the two's complement of its magnitude, a field
    is one of its header and a slice lies inside its field. *)
Definition field_bits (f : FieldRef) : Z :=
  match Aux f, RefField f with
  | Some a, _ => FieldBitWidth a
  | None, Some fd => Bits fd
  | None, None => 0
  end.

(** Offsets and gating bytes are those of headers (below [2 ^ 20]). *)
Definition small (z : Z) : Prop := 0 <= z < 2 ^ 20.

Definition gating_ok (g : AuxGating) : Prop := small (GateByteOff g) /\ small (GateMask g) /\ small (GateValue g).

Definition aux_ok (a : AuxRef) : Prop :=
  small (OffsetInLayer a) /\ small (FieldBitOff a) /\ small (FieldBitWidth a) /\
  (forall g, Gating a = Some g -> gating_ok g) /\
  (forall st, Ir.Stack a = Some st -> IsStatic st = true -> small (Static st * HeaderSize a) /\ small (OffsetAfterOwner a + Static st * HeaderSize a)).

Definition field_known (f : FieldRef) : Prop :=
  match Aux f, RefField f, Spec (RefLayer f) with
  | Some a, Some _, Some _ => aux_ok a
  | None, Some fd, Some spec => exists off, small off /\ BitOffsetIn (Fields spec) (Name fd) = Some (off, Bits fd)
  | _, _, _ => False
  end.

(** The address of an entry of a runtime index, or behind entries of variable
    length, is not among the code the theorems are about. *)
Definition ref_ok (f : FieldRef) : Prop :=
  field_known f /\ 0 < field_bits f < 2 ^ 20 /\ EffectiveBits f <= 128 /\
  match Slice f with Some s => 0 <= Lo s < Hi s /\ Hi s <= field_bits f | None => True end /\
  needsEntryAddress f = false.

Fixpoint wf_arith (e : IR.ArithExpr) : Prop :=
  match e with
  | IR.ArithConst v hi neg wide _ => in_u64 v /\ in_u64 hi /\ (neg = true -> int64_of_u64 v <= 0) /\ (if wide then neg = false else hi = 0)
  | IR.ArithField f _ => ref_ok f
  | IR.ArithBinOp _ l r _ => wf_arith l /\ wf_arith r
  end.

Lemma ref_ok_width f : ref_ok f -> 0 < EffectiveBits f <= 128.
Proof.
  unfold ref_ok, field_bits, EffectiveBits. destruct (Slice f), (Aux f), (RefField f); cbn [FieldSlice_Bits]; lia.
Qed.

End Known.
