(* ===== verification/WhereArithFacts.v ===== *)
(** * WhereArithFacts: the generated arithmetic computes the reference

    [FieldCodeOk] is what the arithmetic asks of field loads: on a packet
    they leave the field's value in R3, or leave for the label of an absent
    field, or reject, writing nothing but scratch registers. Under it the
    code of an expression leaves the expression's value and writes only
    scratch slots from its depth up; a 128-bit one leaves it in the pair R3,
    R5, with carry and borrow; a comparison falls through when it holds. *)

From Stdlib Require Import ZArith Lia Bool Ascii String List.
From stdpp Require Import base list strings numbers option gmap.
From S2P Require Import Prelude GoStd GoBytes Ast Ir HookAbi Asm Ebpf EbpfFacts Codegen WhereArith.
Local Open Scope Z_scope.
Local Open Scope go_scope.

(** ** What field loads promise *)

Definition scratch_slots (d : Z) : Prop := 0 <= d < 16.
Definition no_slots (_ : Z) : Prop := False.

(** The two loads of a 128-bit field: [ready] holds after the prelude and
    survives what happens between the loads. *)
Record halves_ok `{Kernel} (s : st) (pre : list Instruction) (at_ : Z -> list Instruction) (fail : bytes) (v : seen Z)
    (presence : verdict) (half : Z -> seen Z) (ready : st -> Prop) : Prop := mkHalves {
  ready_park : forall t x d w, ready t -> 0 <= d < 16 -> ready (park d w (setr R3 x t));
  ready_setr : forall t x, ready t -> ready (setr R3 x t);
  pre_runs : runs (upto no_slots s) (fun _ t => ready t) pre fail s presence;
  at_runs : forall k t, k = 0 \/ k = 8 -> ready t ->
    runs (upto no_slots t) (fun raw t' => getr R3 t' = Some (Num raw) /\ ready t') (at_ k) fail t (half k);
  halves_value : v = sbind presence (fun _ => sbind (half 0) (fun h => sbind (half 8) (fun l => Present (to_be 8 h * 2 ^ 64 + to_be 8 l))))
}.

(** Field loads on one packet: [site] are the states its bytes are read
    in, [value] what each field holds. *)
Class FieldCodeOk `{Kernel} `{AuxVocab} `{FieldCode} (site : st -> Prop) (value : FieldRef -> seen Z) := {
  site_upto : forall s s', site s -> upto scratch_slots s s' -> site s';
  value_range : forall f v, ref_ok f -> value f = Present v -> 0 <= v < 2 ^ EffectiveBits f;
  load_plain : forall f fail code, genArithFieldLoad f fail = Ok code -> ref_ok f -> plain code;
  load_runs : forall f fail code s, genArithFieldLoad f fail = Ok code -> ref_ok f -> EffectiveBits f <= 64 -> has_text fail = true -> site s ->
    fail ∉ symbols code -> runs (upto no_slots s) (fun v t => getr R3 t = Some (Num v)) code fail s (value f);
  field128_plain : forall f fail pre at_, field128 f fail = Ok (pre, at_) -> ref_ok f -> plain pre /\ forall k, plain (at_ k);
  field128_runs : forall f fail pre at_ s, field128 f fail = Ok (pre, at_) -> ref_ok f -> EffectiveBits f = 128 -> has_text fail = true -> site s ->
    exists presence half ready, halves_ok s pre at_ fail (value f) presence half ready
}.

(** Sets of slots are lambdas. *)
Ltac slia := intros; cbv beta in *; unfold scratch_slots, no_slots in *; lia.

(** ** Widths, constants and operations *)

Lemma arithMaxFieldBits_width e : arithMaxFieldBits e = width e.
Proof.
  induction e as [v hi neg wide p|f p|op l IHl r IHr p]; [reflexivity..|]. cbn [arithMaxFieldBits width]. rewrite IHl, IHr.
  destruct (Z.ltb_spec (width r) (width l)); lia.
Qed.

Lemma arithCmpTargetBits_width l r : arithCmpTargetBits l r = Z.max (width l) (width r).
Proof. unfold arithCmpTargetBits. rewrite !arithMaxFieldBits_width. destruct (Z.ltb_spec (width r) (width l)); lia. Qed.

Lemma width_nonneg `{AuxVocab} e : wf_arith e -> 0 <= width e.
Proof. induction e as [v hi neg wide p|f p|op l IHl r IHr p]; cbn [wf_arith width];
  [destruct wide; lia|intros Hf; apply ref_ok_width in Hf; lia|intros [Hl Hr]; specialize (IHl Hl); lia]. Qed.

Lemma sibling_width_range w : 0 <= w <= 64 -> 0 < sibling_width w <= 64.
Proof. unfold sibling_width. destruct (Z.eqb_spec w 0); lia. Qed.

Lemma two64_pow : two64 = 2 ^ 64.
Proof. reflexivity. Qed.

(** A literal and the word that holds it agree at any width up to 64. *)
Lemma literal_mod v neg w : in_u64 v -> 0 <= w <= 64 -> literal v neg mod 2 ^ w = v mod 2 ^ w.
Proof.
  intros Hv Hw. unfold literal. destruct neg; [|reflexivity]. unfold int64_of_u64. destruct (v <? two63); [reflexivity|].
  rewrite two64_pow. replace (2 ^ 64) with (2 ^ (64 - w) * 2 ^ w) by (rewrite <- Z.pow_add_r by lia; f_equal; lia).
  replace (v - 2 ^ (64 - w) * 2 ^ w) with (v + (- 2 ^ (64 - w)) * 2 ^ w) by ring. apply Z.mod_add. apply Z.pow_nonzero; lia.
Qed.

Lemma narrowed v bits : in_u64 v -> 0 <= bits <= 64 ->
  (if (0 <? bits) && (bits <? 64) then Z.land v (Z.shiftl 1 bits - 1) else v) = v mod 2 ^ sibling_width bits.
Proof.
  intros Hv Hb. unfold sibling_width. destruct (Z.eqb_spec bits 0) as [->|Hn].
  { cbn [Z.ltb andb]. symmetry. apply Z.mod_small. exact Hv. }
  destruct (Z.ltb_spec 0 bits); [|lia]. destruct (Z.ltb_spec bits 64); cbn [andb].
  - rewrite Z.shiftl_1_l, <- Z.land_ones by lia. now rewrite Z.ones_equiv.
  - replace bits with 64 by lia. symmetry. apply Z.mod_small. exact Hv.
Qed.

Lemma land_u64 a b : in_u64 a -> in_u64 b -> in_u64 (Z.land a b).
Proof.
  unfold in_u64. rewrite two64_pow. intros Ha Hb. split; [apply Z.land_nonneg; lia|].
  destruct (Z.eq_dec (Z.land a b) 0) as [->|Hn]; [lia|]. apply Z.log2_lt_pow2; [pose proof (Z.land_nonneg a b); lia|].
  eapply Z.le_lt_trans; [apply Z.log2_land; lia|]. destruct (Z.eq_dec a 0) as [->|]; [now rewrite Z.land_0_l in Hn|].
  apply Z.min_lt_iff. left. apply Z.log2_lt_pow2; lia.
Qed.

Lemma lor_lxor_u64 f a b :
  (forall a b, 0 <= a -> 0 <= b -> 0 <= f a b /\ Z.log2 (f a b) <= Z.max (Z.log2 a) (Z.log2 b)) ->
  in_u64 a -> in_u64 b -> in_u64 (f a b).
Proof.
  unfold in_u64. rewrite two64_pow. intros Hf Ha Hb. destruct (Hf a b) as [Hn Hl]; [lia..|]. split; [exact Hn|].
  destruct (Z.eq_dec (f a b) 0) as [->|]; [lia|]. apply Z.log2_lt_pow2; [lia|].
  assert (Hlog : forall x, 0 <= x < 2 ^ 64 -> Z.log2 x < 64).
  { intros x Hx. destruct (Z.eq_dec x 0) as [->|]; [reflexivity|]. apply Z.log2_lt_pow2; lia. }
  pose proof (Hlog a Ha). pose proof (Hlog b Hb). lia.
Qed.

Lemma binop_u64 op a b : in_u64 a -> in_u64 b -> in_u64 (binop op a b 64).
Proof.
  intros Ha Hb. assert (Hm : forall z, in_u64 (z mod 2 ^ 64)) by (intros z; unfold in_u64; rewrite two64_pow; apply Z.mod_pos_bound; lia).
  destruct op; cbn [binop]; auto.
  - destruct (Z.eqb_spec b 0); [unfold in_u64, two64; lia|]. unfold in_u64 in *. split; [apply Z.div_pos; lia|].
    apply Z.div_lt_upper_bound; [lia|]. nia.
  - destruct (Z.eqb_spec b 0); [exact Ha|]. unfold in_u64 in *. pose proof (Z.mod_pos_bound a b). lia.
  - now apply land_u64.
  - apply lor_lxor_u64; auto. intros x y Hx Hy. split; [now apply Z.lor_nonneg|]. now rewrite Z.log2_lor by assumption.
  - apply lor_lxor_u64; auto. intros x y Hx Hy. split; [apply Z.lxor_nonneg; lia|]. now apply Z.log2_lxor.
  - unfold in_u64 in *. rewrite Z.shiftr_div_pow2 by (apply Z.mod_pos_bound; lia).
    assert (0 < 2 ^ (b mod 64)) by (apply Z.pow_pos_nonneg; [lia|apply Z.mod_pos_bound; lia]).
    split; [apply Z.div_pos; lia|]. apply Z.div_lt_upper_bound; nia.
Qed.

Lemma arithALUOp_spec op a b : alu64 (arithALUOp op) a b = Some (binop op a b 64).
Proof. destruct op; reflexivity. Qed.

Lemma arithALUOp_alu op : arithALUOp op <> Mov /\ arithALUOp op <> Swap.
Proof. destruct op; split; discriminate. Qed.

Lemma alu_val_num op a b : alu_val true (arithALUOp op) (Num a) (Num b) = Some (Num (binop op a b 64)).
Proof. unfold alu_val. destruct op; reflexivity. Qed.

Lemma both_Present {A} rf a b (k : Z -> Z -> seen A) v : both rf a b k = Present v -> exists x y, a = Present x /\ b = Present y /\ k x y = Present v.
Proof. unfold both. destruct rf, a as [x| |], b as [y| |]; cbn; intros E; try discriminate; now exists x, y. Qed.

(** A narrow node computes its left operand first. *)
Lemma node_narrow op l r p : Z.max (width l) (width r) <= 64 -> node_right_first (IR.ArithBinOp op l r p) l r = false.
Proof.
  intros Hw. unfold node_right_first, isNarrowArith. rewrite arithMaxFieldBits_width. cbn [isConst width].
  now replace (_ <=? 64) with true by (symmetry; apply Z.leb_le; lia).
Qed.

Section Arith64.
Context `{HKern : Kernel} `{HV : AuxVocab} `{HF : FieldCode} {site : st -> Prop} {value : FieldRef -> seen Z} `{HOk : !FieldCodeOk site value}.

Lemma eval_u64 ctx e v : wf_arith e -> width e <= 64 -> 0 < ctx <= 64 -> evalArith value ctx e = Present v -> in_u64 v.
Proof.
  revert ctx v. induction e as [c hi neg wide p|f p|op l IHl r IHr p]; intros ctx v Hwf Hw Hc E; cbn [wf_arith width evalArith] in *.
  - destruct wide; [lia|]. injection E as <-. unfold in_u64. rewrite two64_pow. pose proof (Z.mod_pos_bound (literal c neg) (2 ^ ctx) ltac:(lia)).
    pose proof (Z.pow_le_mono_r 2 ctx 64). lia.
  - apply value_range in E; [|exact Hwf]. unfold in_u64. rewrite two64_pow. pose proof (Z.pow_le_mono_r 2 (EffectiveBits f) 64). lia.
  - destruct Hwf as [Hl Hr]. pose proof (width_nonneg l Hl). pose proof (width_nonneg r Hr).
    apply both_Present in E as (a & b & Ea & Eb & [= <-]).
    unfold node_width. destruct (Z.leb_spec (Z.max (width l) (width r)) 64); [|lia]. apply binop_u64.
    + apply (IHl (sibling_width (width r))); auto; [lia|apply sibling_width_range; lia].
    + apply (IHr (sibling_width (width l))); auto; [lia|apply sibling_width_range; lia].
Qed.

Lemma genArith64_plain c e depth bits code : genArithWithBits c e depth bits = Ok code -> wf_arith e -> plain code.
Proof.
  revert depth bits code. induction e as [v hi neg wide p|f p|op l IHl r IHr p]; intros depth bits code E Hwf; cbn [genArithWithBits wf_arith] in *.
  - case_if E; [discriminate|]. injection E as <-. apply plain_loadConst.
  - now apply load_plain in E.
  - case_if E; [discriminate|]. apply result_bind_ok in E as (cl & El & E). apply result_bind_ok in E as (cr & Er & E). injection E as <-.
    destruct Hwf as [Hl Hr]. apply IHl in El; [|exact Hl]. apply IHr in Er; [|exact Hr]. eauto 12 with codegen.
Qed.

Lemma load_target_runs n f fail code s :
  genArithFieldLoad f fail = Ok code -> ref_ok f -> EffectiveBits f <= 64 -> target n fail -> site s ->
  runs (upto no_slots s) (fun v t => getr R3 t = Some (Num v)) code fail s (value f).
Proof.
  intros E Hf Hw Ht Hs. apply load_runs; auto; [now apply target_text in Ht|]. apply (plain_target n); [|exact Ht]. now apply load_plain in E.
Qed.

(** Code that compiles keeps below the ceiling. *)
Lemma arithNesting_nonneg e : 0 <= arithNesting e.
Proof. induction e; cbn; lia. Qed.

Lemma genArith64_nesting c e depth bits code :
  genArithWithBits c e depth bits = Ok code -> arithNesting e = 0 \/ depth + arithNesting e <= maxArithDepth - boolEqDepth c.
Proof.
  revert depth bits code. induction e as [v hi neg wide p|f p|op l IHl r IHr p]; intros depth bits code E; cbn [arithNesting]; [now left..|].
  right. cbn [genArithWithBits] in E. case_if E; [discriminate|]. bools. apply result_bind_ok in E as (cl & El & E). apply result_bind_ok in E as (cr & Er & E).
  apply IHl in El. apply IHr in Er. lia.
Qed.

(** What the 64-bit code of [e] does from [s]. *)
Definition computes64 (lo hi : Z) (code : list Instruction) (fail : bytes) (s : st) (r : seen Z) : Prop :=
  runs (upto (fun d => lo <= d < hi) s) (fun v t => getr R3 t = Some (Num v)) code fail s r.

Lemma genArith64_runs c e depth bits code n s :
  genArithWithBits c e depth bits = Ok code -> wf_arith e -> width e <= 64 -> 0 <= depth -> 0 <= boolEqDepth c -> 0 <= bits <= 64 ->
  target n (absent c) -> site s ->
  computes64 depth (depth + arithNesting e) code (absent c) s (evalArith value (sibling_width bits) e).
Proof.
  unfold computes64. revert depth bits code s. induction e as [v hi neg wide p|f p|op l IHl r IHr p]; intros depth bits code s E Hwf Hw Hd Hb Hbits Ht Hs;
    pose proof E as Ep; (apply genArith64_plain in Ep; [|exact Hwf]); pose proof (genArith64_nesting _ _ _ _ _ E) as Hnest; cbn [genArithWithBits wf_arith width evalArith arithNesting] in *.
  - destruct wide; [discriminate|]. destruct Hwf as (Hv & _ & _ & ->). cbn [orb negb Z.eqb] in E. injection E as <-.
    rewrite narrowed by assumption. rewrite literal_mod by (try assumption; pose proof (sibling_width_range bits); lia).
    set (k := v mod 2 ^ sibling_width bits) in *. assert (Hk : in_u64 k).
    { subst k. unfold in_u64. rewrite two64_pow. pose proof (sibling_width_range bits ltac:(lia)).
      pose proof (Z.mod_pos_bound v (2 ^ sibling_width bits) ltac:(lia)). pose proof (Z.pow_le_mono_r 2 (sibling_width bits) 64). lia. }
    exists (setr R3 (Num k) s). split; [|split; [apply upto_setr; auto|apply getr_same; discriminate]].
    rewrite <- (app_nil_r (loadConst R3 k)). now rewrite exec_loadConst.
  - eapply runs_weaken; [| |apply (load_target_runs n f (absent c) code s E); auto; lia]; [|auto].
    intros t. apply upto_weaken. intros d [].
  - case_if E; [discriminate|]. bools. unfold maxArithDepth in *. pose proof (arithNesting_nonneg l). pose proof (arithNesting_nonneg r).
    apply result_bind_ok in E as (cl & El & E). apply result_bind_ok in E as (cr & Er & E). injection E as <-. destruct Hwf as [Hwl Hwr].
    pose proof (width_nonneg l Hwl). pose proof (width_nonneg r Hwr). rewrite !arithMaxFieldBits_width in *.
    apply plain_app_inv in Ep as [_ Pl]. pose proof (plain_target n _ _ Pl Ht) as Nf. pose proof (plain_target n _ _ Pl (target_reject n)) as Nd.
    unfold node_width. destruct (Z.leb_spec (Z.max (width l) (width r)) 64); [|lia].
    rewrite node_narrow by lia. unfold both. eapply runs_app; [apply (IHl _ _ _ s El Hwl); auto; lia| | |exact Nf|exact Nd]; [|intros t; apply upto_weaken; slia].
    intros a t Ea Ut Ra. apply eval_u64 in Ea; [|assumption|lia|apply sibling_width_range; lia].
    eapply runs_exec; [cbn [app]; apply exec_park; [lia|exact Ra]|].
    assert (Up : upto (fun d => depth <= d < depth + (1 + Z.max (arithNesting l) (arithNesting r))) s (park depth (Num a) t)).
    { eapply upto_trans; [eapply upto_weaken; [|exact Ut]; slia|]. apply upto_park; slia. }
    assert (Pt : plain [LoadMem R5 RFP (arithStackSlot depth) DWord; Reg (arithALUOp op) R5 R3; Reg Mov R3 R5]) by auto 6 with codegen.
    eapply runs_app; [apply (IHr _ _ _ (park depth (Num a) t) Er Hwr); auto; try lia| | |now apply (plain_target n)|apply (plain_target n _ _ Pt), target_reject].
    + eapply site_upto; [exact Hs|]. eapply upto_weaken; [|exact Up]. slia.
    + intros b t' Eb Ut' Rb. apply eval_u64 in Eb; [|assumption|lia|apply sibling_width_range; lia].
      destruct (arithALUOp_alu op) as [Hmov Hswap].
      assert (Hslot : slot depth t' = Some (Num a)).
      { rewrite (upto_slot _ _ _ depth) with (3 := Ut') by slia. now apply slot_park_same. }
      eexists. split; [|split].
      * rewrite (exec_unpark _ _ _ _ (Num a)) by (try discriminate; auto; lia).
        erewrite exec_Reg; [|exact Hmov|exact Hswap|discriminate|apply getr_same; discriminate|rewrite getr_other by discriminate; exact Rb|apply alu_val_num].
        erewrite exec_Mov_Reg; [|discriminate|apply getr_same; discriminate]. reflexivity.
      * eapply upto_trans; [exact Up|]. eapply upto_trans; [eapply upto_weaken; [|exact Ut']; slia|].
        eapply upto_trans; [|apply upto_setr; auto]. eapply upto_trans; apply upto_setr; auto.
      * apply getr_same. discriminate.
    + intros t' Ut'. eapply upto_trans; [exact Up|]. eapply upto_weaken; [|exact Ut']; slia.
Qed.
End Arith64.

(** * The generated 128-bit arithmetic computes the reference

    A value is a pair of words, high in R3 and low in R5. Carry and borrow
    between the halves, the operand held in slots 2 and 3 while the other
    is computed, and the pairs of slots enclosing nodes hold above the
    reserved ones. *)

(** ** Symbolic execution of scratch code *)

(** Slots 2 to 4. *)
Definition low_slots (d : Z) : Prop := 2 <= d < 5.

Ltac u64s := first [ assumption | apply u64_range | (unfold in_u64, two64; lia) ].

Ltac cgregs :=
  repeat first [ rewrite getr_same by discriminate | rewrite getr_other by discriminate | rewrite getr_park ]; first [ reflexivity | eassumption ].

Ltac cgslots :=
  repeat first [ rewrite slot_setr | rewrite slot_park_same by u64s | rewrite slot_park_other by lia ]; first [ reflexivity | eassumption ].

Ltac cgstep :=
  lazymatch goal with
  | |- context [exec (StoreMem RFP (arithStackSlot _) _ _ :: _) None _] => erewrite exec_park; [|lia|cgregs]
  | |- context [exec (LoadMem _ RFP (arithStackSlot _) _ :: _) None _] => erewrite exec_unpark; [|discriminate|lia|cgslots]
  | |- context [exec (Imm Mov _ _ :: _) None _] => rewrite exec_Mov_Imm by discriminate
  | |- context [exec (Reg Mov _ _ :: _) None _] => erewrite exec_Mov_Reg; [|discriminate|cgregs]
  | |- context [exec (Reg _ _ _ :: _) None _] => erewrite exec_Reg; [|discriminate|discriminate|discriminate|cgregs|cgregs|reflexivity]
  | |- context [exec (Imm _ _ _ :: _) None _] => erewrite exec_Imm; [|discriminate|discriminate|discriminate|cgregs|reflexivity]
  | |- context [exec (JReg _ _ _ _ :: _) None _] => erewrite exec_JReg; [|cgregs|cgregs|reflexivity|assumption]
  | |- context [exec (JImm _ _ _ _ :: _) None _] => erewrite exec_JImm; [|cgregs|reflexivity|assumption]
  | |- context [exec (landingNoop _ :: _) None _] => erewrite exec_landing; [|cgregs]
  | |- context [exec (landingNoop ?k :: _) (Some ?k) _] => erewrite exec_arrive; [|cgregs]
  | |- context [exec (_ :: _) (Some _) _] => rewrite exec_pass by (try assumption; reflexivity)
  end.

Ltac uptos :=
  repeat first [ apply upto_refl | assumption | eapply upto_trans; [|apply upto_setr; tauto] | eapply upto_trans; [|apply upto_park; first [ assumption | unfold low_slots; slia ]] ].

(** Runs to the end, taking the jumps [Ec] decides. *)
Ltac wide_run Ec := repeat first [ progress rewrite Ec | cgstep ]; reflexivity.

Lemma imm_u64 imm : in_u64 imm -> (0x7FFFFFFF <? imm) = false -> u64 (i32 imm) = imm.
Proof. intros Hi E. bools. unfold in_u64 in Hi. rewrite i32_small by lia. now apply u64_small. Qed.

(** The same with a constant [imm], in R2 when it is wide. *)
Ltac const_run Ec Hi :=
  repeat first [ progress cbn [app] | rewrite exec_loadConst by (try discriminate; exact Hi) | progress rewrite Ec | progress (rewrite imm_u64 by assumption) | cgstep ]; reflexivity.

(** ** Pairs of words *)

(** [v] is the number whose high word is [hi] and low word [lo]. *)
Definition pair128 (v hi lo : Z) : Prop := v = hi * 2 ^ 64 + lo /\ in_u64 hi /\ in_u64 lo.

(** R3 holds the high word of [v] and R5 the low one. *)
Definition in_pair (v : Z) (t : st) : Prop := exists hi lo, pair128 v hi lo /\ getr R3 t = Some (Num hi) /\ getr R5 t = Some (Num lo).

Definition parked_pair (d e v : Z) (t : st) : Prop := exists hi lo, pair128 v hi lo /\ slot d t = Some (Num hi) /\ slot e t = Some (Num lo).

Lemma add_pair a ah al b bh bl :
  pair128 a ah al -> pair128 b bh bl ->
  pair128 ((a + b) mod 2 ^ 128) (u64 (bh + u64 (ah + if al <=? u64 (bl + al) then 0 else 1))) (u64 (bl + al)).
Proof.
  unfold pair128. intros (-> & Hah & Hal) (-> & Hbh & Hbl). split; [|split; apply u64_range].
  unfold in_u64 in *. unfold u64 at 1 2. rewrite two64_pow in *. set (M := 2 ^ 64) in *. assert (HM : 0 < M) by reflexivity.
  change (2 ^ 128) with (M * M). assert (Hlow : u64 (bl + al) = if M <=? bl + al then bl + al - M else bl + al).
  { unfold u64. rewrite two64_pow. fold M. destruct (Z.leb_spec M (bl + al)); [|apply Z.mod_small; lia].
    symmetry. apply (Z.mod_unique_pos _ _ 1); lia. }
  rewrite Hlow. clear Hlow. set (c := if al <=? _ then 0 else 1).
  assert (Hc : (if M <=? bl + al then bl + al - M else bl + al) = bl + al - c * M).
  { subst c. destruct (Z.leb_spec M (bl + al)); [destruct (Z.leb_spec al (bl + al - M)); lia|destruct (Z.leb_spec al (bl + al)); lia]. }
  assert (Hr : 0 <= bl + al - c * M < M).
  { subst c. destruct (Z.leb_spec M (bl + al)); [destruct (Z.leb_spec al (bl + al - M)); lia|destruct (Z.leb_spec al (bl + al)); lia]. }
  rewrite Hc. rewrite Zplus_mod_idemp_r. symmetry.
  pose proof (Z_div_mod_eq_full (bh + (ah + c)) M) as Hd. pose proof (Z.mod_pos_bound (bh + (ah + c)) M HM) as Hb.
  apply (Z.mod_unique_pos _ _ ((bh + (ah + c)) / M)); nia.
Qed.

Lemma sub_pair a ah al b bh bl :
  pair128 a ah al -> pair128 b bh bl ->
  pair128 ((a - b) mod 2 ^ 128) (u64 (u64 (ah - if bl <=? al then 0 else 1) - bh)) (u64 (al - bl)).
Proof.
  unfold pair128. intros (-> & Hah & Hal) (-> & Hbh & Hbl). split; [|split; apply u64_range].
  unfold in_u64 in *. unfold u64 at 1 2. rewrite two64_pow in *. set (M := 2 ^ 64) in *. assert (HM : 0 < M) by reflexivity.
  change (2 ^ 128) with (M * M). set (c := if bl <=? al then 0 else 1). assert (Hlow : u64 (al - bl) = al - bl + c * M).
  { unfold u64. rewrite two64_pow. fold M. subst c. destruct (Z.leb_spec bl al); [rewrite Z.mod_small; lia|].
    symmetry. apply (Z.mod_unique_pos _ _ (-1)); lia. }
  assert (Hr : 0 <= al - bl + c * M < M) by (subst c; destruct (Z.leb_spec bl al); lia).
  rewrite Hlow. rewrite Zminus_mod_idemp_l. symmetry.
  pose proof (Z_div_mod_eq_full (ah - c - bh) M) as Hd. pose proof (Z.mod_pos_bound (ah - c - bh) M HM) as Hb.
  apply (Z.mod_unique_pos _ _ ((ah - c - bh) / M)); nia.
Qed.

(** ** Adding and subtracting pairs *)

Section Combine.
Context `{HKern : Kernel}.

Definition addsub (op : ArithOp) : Prop := op = ArithAdd \/ op = ArithSub.


Lemma combine_owned op n code n' : addsub op -> 0 <= n -> genArith128Combine op n = Ok (code, n') -> owned n n' code /\ n' = n + 1.
Proof.
  intros Hop Hn E. assert (Hs : forall p, p ∈ wherePrefixes -> forall label m, freshLabel p n = Ok (label, m) -> numbered m label /\ m = n + 1)
    by (intros; now apply (freshLabel_ok p)).
  destruct Hop as [->| ->]; cbn [genArith128Combine] in E; apply gbind_ok in E as (label & m & El & E); apply gret_ok in E as [-> ->];
    (apply Hs in El as [Hl ->]; [|unfold wherePrefixes; rewrite !elem_of_cons; tauto]); (split; [|reflexivity]);
    repeat first [apply owned_nil | apply owned_cons; [reflexivity|] | eapply owned_landing; [exact Hl|lia|]].
Qed.

Lemma combine_runs op n code n' a b s :
  addsub op -> 0 <= n -> genArith128Combine op n = Ok (code, n') -> parked_pair 2 3 a s -> in_pair b s ->
  falls (upto low_slots s) (in_pair (binop op a b 128)) code s.
Proof.
  intros Hop Hn E (ah & al & Ha & S2 & S3) (bh & bl & Hb & G3 & G5). pose proof Ha as (_ & Hah & Hal). pose proof Hb as (_ & Hbh & Hbl).
  destruct Hop as [->| ->]; cbn [genArith128Combine] in E; apply gbind_ok in E as (label & m & El & E); apply gret_ok in E as [-> ->];
    (apply freshLabel_ok in El as [Hl _]; [|unfold wherePrefixes; rewrite !elem_of_cons; tauto|exact Hn]); apply numbered_text in Hl.
  - pose proof (add_pair a ah al b bh bl Ha Hb) as Hsum. cbn [binop]. destruct (al <=? u64 (bl + al)) eqn:Ec.
    + rewrite Z.add_0_r, (u64_small ah Hah) in Hsum. eexists. split; [wide_run Ec|]. split; [uptos|].
      do 2 eexists. split; [exact Hsum|]. split; cgregs.
    + eexists. split; [wide_run Ec|]. split; [uptos|]. do 2 eexists. split; [exact Hsum|]. split; cgregs.
  - pose proof (sub_pair a ah al b bh bl Ha Hb) as Hsum. cbn [binop]. destruct (bl <=? al) eqn:Ec.
    + rewrite Z.sub_0_r, (u64_small ah Hah) in Hsum. eexists. split; [wide_run Ec|]. split; [uptos|].
      do 2 eexists. split; [exact Hsum|]. split; cgregs.
    + eexists. split; [wide_run Ec|]. split; [uptos|]. do 2 eexists. split; [exact Hsum|]. split; cgregs.
Qed.
(** The constant and the operator [foldedConst] leaves. *)
Lemma foldedConst_spec op v neg :
  addsub op -> in_u64 v -> (neg = true -> int64_of_u64 v <= 0) ->
  let '(op', imm) := foldedConst op v neg in
  addsub op' /\ in_u64 imm /\ forall a, binop op a (literal v neg mod 2 ^ 128) 128 = binop op' a imm 128.
Proof.
  intros Hop Hv Hneg. unfold foldedConst, literal. destruct neg.
  - specialize (Hneg eq_refl). assert (Hm : u64 (- v) = - int64_of_u64 v).
    { revert Hneg. unfold int64_of_u64, u64, in_u64, two63, two64 in *. destruct (Z.ltb_spec v 9223372036854775808); intros Hneg.
      - replace v with 0 by lia. reflexivity.
      - symmetry. apply (Z.mod_unique_pos _ _ (-1)); lia. }
    rewrite Hm. split; [destruct Hop as [->| ->]; [right|left]; reflexivity|].
    split; [rewrite <- Hm; apply u64_range|]. intros a. destruct Hop as [->| ->].
    + rewrite bool_decide_true by reflexivity. unfold binop. rewrite Zplus_mod_idemp_r. f_equal. lia.
    + rewrite bool_decide_false by discriminate. unfold binop. rewrite Zminus_mod_idemp_r. f_equal.
  - split; [exact Hop|]. split; [exact Hv|]. intros a. unfold in_u64 in Hv. rewrite (Z.mod_small v); [reflexivity|].
    rewrite two64_pow in Hv. pose proof (Z.pow_le_mono_r 2 64 128). lia.
Qed.

Lemma pair_small v : in_u64 v -> pair128 v 0 v.
Proof. intros Hv. split; [lia|]. split; [unfold in_u64, two64; lia|exact Hv]. Qed.

(** The code after the left operand. *)
Lemma fieldOpConst_spec leftInsns op v neg n code n' :
  addsub op -> in_u64 v -> (neg = true -> int64_of_u64 v <= 0) -> 0 <= n -> genArith128FieldOpConst leftInsns op v neg n = Ok (code, n') ->
  n' = n + 1 /\ exists tail, code = leftInsns ++ tail /\ owned n n' tail /\
    forall a s, in_pair a s -> falls (upto no_slots s) (in_pair (binop op a (literal v neg mod 2 ^ 128) 128)) tail s.
Proof.
  intros Hop Hv Hneg Hn E. pose proof (foldedConst_spec op v neg Hop Hv Hneg) as Hf. unfold genArith128FieldOpConst in E.
  destruct (foldedConst op v neg) as [op' imm]. destruct Hf as (Hop' & Hi & Hf).
  assert (Hgen : exists p label mid, p ∈ wherePrefixes /\ freshLabel p n = Ok (label, n') /\ code = leftInsns ++ (if 0x7FFFFFFF <? imm then loadConst R2 imm else []) ++ mid /\
    mid = match op' with
          | ArithAdd => [(if 0x7FFFFFFF <? imm then Reg Add R5 R2 else Imm Add R5 (i32 imm));
                         (if 0x7FFFFFFF <? imm then JReg JGE R5 R2 label else JImm JGE R5 (i32 imm) label); Imm Add R3 1; landingNoop label]
          | _ => [(if 0x7FFFFFFF <? imm then JReg JGE R5 R2 label else JImm JGE R5 (i32 imm) label); Imm Sub R3 1; landingNoop label;
                  (if 0x7FFFFFFF <? imm then Reg Sub R5 R2 else Imm Sub R5 (i32 imm))]
          end).
  { destruct Hop' as [->| ->]; apply gbind_ok in E as (label & m & El & E); apply gret_ok in E as [-> ->]; do 3 eexists;
      (split; [|split; [exact El|split; reflexivity]]); unfold wherePrefixes; rewrite !elem_of_cons; tauto. }
  destruct Hgen as (p & label & mid & Hp & El & -> & ->). apply freshLabel_ok in El as [Hl ->]; [|exact Hp|exact Hn]. split; [reflexivity|].
  eexists. split; [reflexivity|]. split.
  { apply owned_app; [destruct (_ <? imm); [apply plain_owned, plain_loadConst|apply owned_nil]|].
    destruct Hop' as [->| ->]; destruct (_ <? imm);
      repeat first [apply owned_nil | apply owned_cons; [reflexivity|] | eapply owned_landing; [exact Hl|lia|]]. }
  intros a s (ah & al & Ha & G3 & G5). rewrite Hf. apply numbered_text in Hl. pose proof Ha as (_ & Hah & Hal). pose proof (pair_small imm Hi) as Hb.
  destruct Hop' as [->| ->]; cbn [binop].
  - pose proof (add_pair imm 0 imm a ah al Hb Ha) as Hsum. rewrite (Z.add_comm imm a) in Hsum.
    destruct (imm <=? u64 (al + imm)) eqn:Ec; rewrite ?Z.add_0_l, ?Z.add_0_r, ?(u64_small ah Hah) in Hsum;
      change (u64 0) with 0 in Hsum; change (u64 1) with 1 in Hsum; rewrite ?Z.add_0_r, ?(u64_small ah Hah) in Hsum;
      destruct (0x7FFFFFFF <? imm) eqn:Ew; (eexists; split; [const_run Ec Hi|split; [uptos|]]);
      do 2 eexists; (split; [exact Hsum|split; cgregs]).
  - pose proof (sub_pair a ah al imm 0 imm Ha Hb) as Hsum.
    destruct (imm <=? al) eqn:Ec; rewrite !Z.sub_0_r, ?(u64_small (u64 _)), ?(u64_small ah Hah) in Hsum by apply u64_range;
      destruct (0x7FFFFFFF <? imm) eqn:Ew; (eexists; split; [const_run Ec Hi|split; [uptos|]]);
      do 2 eexists; (split; [exact Hsum|split; cgregs]).
Qed.
End Combine.

(** ** The expression *)

Lemma to_be8_u64 a : in_u64 (to_be 8 a).
Proof.
  unfold to_be. assert (Hb : Forall byte (rev (le 8 a))) by (apply Forall_rev, le_byte).
  pose proof (unle_range _ Hb) as Hr. unfold len in Hr. rewrite length_rev, le_length in Hr. exact Hr.
Qed.

(** The slots the 128-bit code of [e] writes. *)
Definition area (c : whereCtx) (e : IR.ArithExpr) (d : Z) : Prop :=
  (parks128 e = true /\ (d = 2 \/ d = 3)) \/ d = 4 \/ 5 + wideHold c <= d < 16 - boolEqDepth c.

Definition ctx_ok (c : whereCtx) : Prop := 0 <= wideHold c /\ 0 <= boolEqDepth c.

Lemma area_scratch c e d : ctx_ok c -> area c e d -> scratch_slots d.
Proof. unfold ctx_ok, area, scratch_slots. lia. Qed.

Section Arith128.
Context `{HKern : Kernel} `{HV : AuxVocab} `{HF : FieldCode} {site : st -> Prop} {value : FieldRef -> seen Z} `{HOk : !FieldCodeOk site value}.

Lemma arith128Halves_plain at_ : (forall k, plain (at_ k)) -> plain (arith128Halves at_).
Proof. intros Hp. unfold arith128Halves. auto 12 with codegen. Qed.

Lemma halves_runs s pre at_ fail v presence half ready n :
  halves_ok s pre at_ fail v presence half ready -> plain pre -> (forall k, plain (at_ k)) -> target n fail ->
  runs (upto (fun d => d = 4) s) in_pair (pre ++ arith128Halves at_) fail s v.
Proof.
  intros [Hpark Hset Hpre Hat ->] Ppre Pat Ht.
  assert (N : forall l, plain l -> (fail ∉ symbols l) /\ (dslReject ∉ symbols l)).
  { intros l Hl. split; [now apply (plain_target n)|apply (plain_target n); [exact Hl|apply target_reject]]. }
  assert (U : forall t t', upto no_slots t t' -> upto (fun d => d = 4) t t') by (intros t t'; apply upto_weaken; intros d []).
  destruct (N (arith128Halves at_)) as [N1 N2]; [now apply arith128Halves_plain|].
  eapply runs_app; [exact Hpre| |intros t; apply U|exact N1|exact N2]. intros [] t Hr Ut Rt. unfold arith128Halves.
  eapply runs_app; [apply (Hat 0 t); [now left|exact Rt]| | |apply N; auto 12 with codegen|apply N; auto 12 with codegen].
  2: { intros t' Ut'. eapply upto_trans; [exact (U _ _ Ut)|exact (U _ _ Ut')]. }
  intros h t1 _ U1 [G1 R1]. cbv beta. cbn [app].
  eapply runs_exec. { rewrite (exec_HostToBE _ _ _ _ h) by (try discriminate; exact G1). apply exec_park; [lia|]. apply getr_same. discriminate. }
  change (Z.to_nat (Sizeof DWord)) with 8%nat. set (t2 := park 4 _ _). assert (R2 : ready t2) by (apply Hpark; [exact R1|lia]).
  assert (U2 : upto (fun d => d = 4) s t2).
  { apply U in Ut, U1. eapply upto_trans; [exact Ut|]. eapply upto_trans; [exact U1|]. subst t2. uptos. }
  eapply runs_app; [apply (Hat 8 t2); [now right|exact R2]| | |apply N; auto 12 with codegen|apply N; auto 12 with codegen].
  2: { intros t' Ut'. eapply upto_trans; [exact U2|exact (U _ _ Ut')]. }
  intros l t3 _ U3 [G3 R3']. assert (S3 : slot 4 t3 = Some (Num (to_be 8 h))).
  { rewrite (upto_slot _ _ _ 4) with (3 := U3) by slia. subst t2. apply slot_park_same, to_be8_u64. }
  eexists. split; [|split].
  - rewrite (exec_HostToBE _ _ _ _ l) by (try discriminate; exact G3). change (Z.to_nat (Sizeof DWord)) with 8%nat. repeat cgstep. reflexivity.
  - apply U in U3. eapply upto_trans; [exact U2|]. eapply upto_trans; [exact U3|]. uptos.
  - exists (to_be 8 h), (to_be 8 l). split; [|split; cgregs]. split; [reflexivity|]. split; apply to_be8_u64.
Qed.

Lemma genArithField128_plain c f code : genArithField128Load c f = Ok code -> ref_ok f -> plain code.
Proof.
  unfold genArithField128Load. destruct (RefField f) as [fd|]; [|discriminate]. destruct (negb _); [discriminate|].
  intros E Hok. apply result_bind_ok in E as ([pre at_] & E & [= <-]). apply field128_plain in E as [Hp Ha]; [|exact Hok]. apply plain_app; [exact Hp|now apply arith128Halves_plain].
Qed.

Lemma genArith128Narrow_plain c e code : genArith128Narrow c e = Ok code -> wf_arith e -> plain code.
Proof.
  unfold genArith128Narrow. destruct (_ <? _); [discriminate|]. intros E Hwf. apply result_bind_ok in E as (l & E & [= <-]).
  apply genArith64_plain in E; [|exact Hwf]. auto 6 with codegen.
Qed.

(** Labels grow by what the code of a part holds. *)
Definition grows (n n' : Z) (code : list Instruction) : Prop := n <= n' /\ owned n n' code.

Lemma grows_plain n code : plain code -> grows n n code.
Proof. intros Hp. split; [lia|now apply plain_owned]. Qed.

Lemma grows_app n m n' a b : grows n m a -> grows m n' b -> grows n n' (a ++ b).
Proof. intros [H1 O1] [H2 O2]. split; [lia|]. apply owned_app; eapply owned_le; [| |exact O1| | |exact O2]; lia. Qed.

Lemma grows_plain_app n n' a b : plain a -> grows n n' b -> grows n n' (a ++ b).
Proof. intros Ha Hb. eapply grows_app; [now apply grows_plain|exact Hb]. Qed.

(** [parks128] of the operands of a node, by what its right one is. *)
Lemma genArith128_grows c e n code n' : 0 <= n -> wf_arith e -> genArith128 c e n = Ok (code, n') -> grows n n' code.
Proof.
  revert c n code n'. induction e as [v hi neg wide p|f p|op l IHl r IHr p]; intros c n code n' Hn Hwf E; cbn [genArith128 wf_arith] in *.
  - destruct (isNarrowArith _) eqn:En; [apply glift_ok in E as [E ->]; apply grows_plain; now apply genArith128Narrow_plain in E|].
    destruct wide; apply gret_ok in E as [-> ->]; apply grows_plain; auto with codegen.
  - gcase E; [apply glift_ok in E as [E ->]; apply grows_plain; now apply genArith128Narrow_plain in E|].
    gcase E; [now apply glift_ok in E as [[=] _]|]. apply glift_ok in E as [E ->]. apply grows_plain. now apply genArithField128_plain in E.
  - destruct Hwf as [Hwl Hwr]. gcase E; [apply glift_ok in E as [E ->]; apply grows_plain; now apply genArith128Narrow_plain in E|].
    gcase E; [now apply glift_ok in E as [[=] _]|]. assert (Hop : addsub op) by (destruct op; try discriminate; [now left|now right]).
    destruct (lowConst128 r) as [[v neg]|] eqn:Er.
    + apply gbind_ok in E as (cl & m & El & E). apply IHl in El as Gl; auto.
      unfold lowConst128 in Er. destruct r as [v0 hi neg0 wide p0| |]; try discriminate. case_if Er; [|discriminate]. injection Er as -> ->.
      cbn [wf_arith] in Hwr. destruct Hwr as (Hv & _ & Hneg & _).
      apply fieldOpConst_spec in E as (-> & tail & -> & Ho & _); auto; [|destruct Gl; lia].
      eapply grows_app; [exact Gl|]. split; [lia|exact Ho].
    + assert (Hc : forall m k combine, 0 <= m -> genArith128Combine op m = Ok (combine, k) -> grows m k combine).
      { intros m k combine Hm Ec. apply combine_owned in Ec as [Ho ->]; auto. split; [lia|exact Ho]. }
      unfold genArith128FieldOpField in E. destruct (parks128 l && parks128 r).
      * unfold genArith128BothPark in E. gcase E; [now apply glift_ok in E as [[=] _]|].
        apply gbind_ok in E as (cl & m1 & El & E). apply gbind_ok in E as (cr & m2 & Er2 & E). apply gbind_ok in E as (cc & m3 & Ec & E).
        apply gret_ok in E as [-> ->]. apply IHl in El as Gl; auto. pose proof Gl as [? _]. apply IHr in Er2 as Gr; auto; [|lia]. pose proof Gr as [? _].
        eapply grows_app; [exact Gl|]. apply grows_plain_app; [auto with codegen|]. eapply grows_app; [exact Gr|].
        apply grows_plain_app; [auto 8 with codegen|]. apply (Hc m2); [lia|exact Ec].
      * assert (HS : forall x : bool, plain (if x then exchange128 else [])) by (intros []; unfold exchange128; auto 10 with codegen).
        destruct (parks128 r); apply gbind_ok in E as (c1 & m1 & Ef & E); apply gbind_ok in E as (c2 & m2 & Es & E); apply gbind_ok in E as (cc & m3 & Ec & E);
          apply gret_ok in E as [-> ->];
          [apply IHr in Ef as G1; auto; pose proof G1 as [? _]; apply IHl in Es as G2; auto; [|lia]
          |apply IHl in Ef as G1; auto; pose proof G1 as [? _]; apply IHr in Es as G2; auto; [|lia]]; pose proof G2 as [? _];
          (eapply grows_app; [exact G1|]; apply grows_plain_app; [auto with codegen|]; eapply grows_app; [exact G2|];
           apply grows_plain_app; [apply HS|]; apply (Hc m2); [lia|exact Ec]).
Qed.

(** ** Widths of what compiles *)

Lemma width_le e : wf_arith e -> 0 <= width e <= 128.
Proof.
  induction e as [v hi neg wide p|f p|op l IHl r IHr p]; cbn [wf_arith width]; [destruct wide; lia|intros Hf; apply ref_ok_width in Hf; lia|].
  intros [Hl Hr]. specialize (IHl Hl). specialize (IHr Hr). lia.
Qed.

(** The operands of a node that compiles compile. *)
Lemma genArith128_operands c op l r p n code n' :
  isNarrowArith (IR.ArithBinOp op l r p) = false -> genArith128 c (IR.ArithBinOp op l r p) n = Ok (code, n') ->
  addsub op /\ (exists c m o, genArith128 c l m = Ok o) /\ (is_Some (lowConst128 r) \/ exists c m o, genArith128 c r m = Ok o).
Proof.
  intros En E. cbn [genArith128] in E. rewrite En in E. gcase E; [now apply glift_ok in E as [[=] _]|].
  split; [destruct op; try discriminate; [now left|now right]|]. destruct (lowConst128 r) as [[v neg]|] eqn:Er.
  { apply gbind_ok in E as (cl & m & El & E). split; [now exists c, n, (cl, m)|left; now eexists]. }
  unfold genArith128FieldOpField, genArith128BothPark in E. destruct (parks128 l && parks128 r).
  - gcase E; [now apply glift_ok in E as [[=] _]|]. apply gbind_ok in E as (cl & m1 & El & E). apply gbind_ok in E as (cr & m2 & Er2 & E).
    split; [now exists c, n, (cl, m1)|right; now exists (hold2 c), m1, (cr, m2)].
  - destruct (parks128 r); apply gbind_ok in E as (c1 & m1 & Ef & E); apply gbind_ok in E as (c2 & m2 & Es & E).
    + split; [now exists c, m1, (c2, m2)|right; now exists c, n, (c1, m1)].
    + split; [now exists c, n, (c1, m1)|right; now exists c, m1, (c2, m2)].
Qed.

Lemma isNarrow_width e : isNarrowArith e = negb (isConst e) && (width e <=? 64).
Proof. unfold isNarrowArith. now rewrite arithMaxFieldBits_width. Qed.

Lemma const_width e : isConst e = true -> width e = 0 \/ width e = 128.
Proof. destruct e as [v hi neg wide p| |]; try discriminate. intros _. cbn. destruct wide; auto. Qed.

(** A wide operand that compiles is 128 bits wide. *)
Lemma genArith128_width c e n code n' :
  wf_arith e -> genArith128 c e n = Ok (code, n') -> width e <= 64 \/ width e = 128.
Proof.
  revert c n code n'. induction e as [v hi neg wide p|f p|op l IHl r IHr p]; intros c n code n' Hwf E.
  - cbn. destruct wide; [now right|left; lia].
  - cbn [genArith128] in E. rewrite isNarrow_width in E. cbn [isConst negb andb width] in *. destruct (Z.leb_spec (EffectiveBits f) 64); [now left|].
    gcase E; [now apply glift_ok in E as [[=] _]|]. right. apply glift_ok in E as [E _]. unfold genArithField128Load in E.
    destruct (RefField f); [|discriminate]. cbn [is_Some_b andb] in *. bools. assumption.
  - destruct (isNarrowArith (IR.ArithBinOp op l r p)) eqn:En.
    { rewrite isNarrow_width in En. bools. now left. }
    pose proof Hwf as [Hl Hr]. pose proof (width_le l Hl). pose proof (width_le r Hr).
    destruct (genArith128_operands _ _ _ _ _ _ _ _ En E) as (_ & (c1 & m1 & [o1 k1] & El) & Hor).
    apply IHl in El; [|exact Hl]. assert (Hwr : width r <= 64 \/ width r = 128).
    { destruct Hor as [[k Hk]|(c2 & m2 & [o2 k2] & Er)]; [|now apply IHr in Er].
      destruct (const_width r) as [-> | ->]; [now destruct r|lia..]. }
    cbn [width]. lia.
Qed.

(** The constant on one side of a 128-bit node is narrowed to 128 bits. *)
Lemma eval_wide_ctx w e : isConst e = false \/ w = 128 -> evalArith value (sibling_width w) e = evalArith value 128 e.
Proof. intros [Hc| ->]; [now destruct e|reflexivity]. Qed.

Lemma operand_ctx l r : wf_arith r -> Z.max (width l) (width r) = 128 -> evalArith value (sibling_width (width r)) l = evalArith value 128 l.
Proof.
  intros Hr Hw. destruct (isConst l) eqn:Ec; [|apply eval_wide_ctx; now left]. destruct l as [v hi neg wide p| |]; try discriminate.
  destruct wide; [reflexivity|]. apply eval_wide_ctx. right. cbn [width] in Hw. pose proof (width_le r Hr). lia.
Qed.

(** ** Moving pairs *)

Lemma store_pair d e x l s :
  0 <= d < 16 -> 0 <= e < 16 -> d <> e -> in_pair x s ->
  exists s', exec ([StoreMem RFP (arithStackSlot d) R3 DWord; StoreMem RFP (arithStackSlot e) R5 DWord] ++ l) None s = exec l None s' /\
    parked_pair d e x s' /\ forall P : Z -> Prop, P d -> P e -> upto P s s'.
Proof.
  intros Hd He Hn (hi & lo & Hp & G3 & G5). pose proof Hp as (_ & Hh & Hl). eexists. split; [cbn [app]; do 2 cgstep; reflexivity|].
  split; [exists hi, lo; split; [exact Hp|split; cgslots]|]. intros P Pd Pe. uptos.
Qed.

Lemma parked_upto (P : Z -> Prop) d e x s s' :
  0 <= d < 16 -> 0 <= e < 16 -> (forall k, P k -> k <> d) -> (forall k, P k -> k <> e) -> upto P s s' -> parked_pair d e x s -> parked_pair d e x s'.
Proof.
  intros Hd He Nd Ne U (hi & lo & Hp & S1 & S2). exists hi, lo. split; [exact Hp|].
  now rewrite (upto_slot _ _ _ d Hd Nd U), (upto_slot _ _ _ e He Ne U).
Qed.

(** The exchange leaves the slots' pair in the registers and the registers'
    in the slots. *)
Lemma exchange_spec x y l s :
  parked_pair 2 3 x s -> in_pair y s ->
  exists s', exec (exchange128 ++ l) None s = exec l None s' /\ parked_pair 2 3 y s' /\ in_pair x s' /\ upto low_slots s s'.
Proof.
  intros (xh & xl & Hx & S2 & S3) (yh & yl & Hy & G3 & G5). pose proof Hx as (_ & ? & ?). pose proof Hy as (_ & ? & ?).
  unfold exchange128. eexists. split; [cbn [app]; repeat cgstep; reflexivity|]. split; [exists yh, yl; split; [exact Hy|split; cgslots]|].
  split; [exists xh, xl; split; [exact Hx|split; cgregs]|]. uptos.
Qed.

(** Slots [d] and [e] move to slots 2 and 3. *)
Lemma unhold_spec d e x y l s :
  5 <= d < 16 -> 5 <= e < 16 -> d <> e -> parked_pair d e x s -> in_pair y s ->
  exists s', exec ([LoadMem R2 RFP (arithStackSlot d) DWord; StoreMem RFP (arithStackSlot 2) R2 DWord;
                    LoadMem R2 RFP (arithStackSlot e) DWord; StoreMem RFP (arithStackSlot 3) R2 DWord] ++ l) None s = exec l None s' /\
    parked_pair 2 3 x s' /\ in_pair y s' /\ upto low_slots s s'.
Proof.
  intros Hd He Hn (xh & xl & Hx & S2 & S3) (yh & yl & Hy & G3 & G5). pose proof Hx as (_ & ? & ?).
  eexists. split; [cbn [app]; repeat cgstep; reflexivity|]. split; [exists xh, xl; split; [exact Hx|split; cgslots]|].
  split; [exists yh, yl; split; [exact Hy|split; cgregs]|]. uptos.
Qed.

(** ** The runs of an expression *)

Lemma narrow_runs c e code n s :
  genArith128Narrow c e = Ok code -> isNarrowArith e = true -> wf_arith e -> ctx_ok c -> target n (absent c) -> site s ->
  runs (upto (area c e) s) in_pair code (absent c) s (evalArith value 128 e).
Proof.
  intros E En Hwf [Hw Hb] Ht Hs. unfold genArith128Narrow in E. case_if E; [discriminate|]. apply result_bind_ok in E as (l & E & [= <-]).
  rewrite isNarrow_width in En. bools. unfold arith128ReservedSlots, maxArithDepth in *.
  assert (Hev : evalArith value 128 e = evalArith value (sibling_width 0) e) by (now destruct e). rewrite Hev.
  pose proof (genArith64_plain _ _ _ _ _ E Hwf) as Pl. assert (Pt : plain [Reg Mov R5 R3; Imm Mov R3 0]) by auto with codegen.
  eapply runs_then; [eapply (genArith64_runs c e _ 0 l n s E); auto; lia| | |now apply (plain_target n)|apply (plain_target n _ _ Pt), target_reject].
  - intros v t Ev Ut Gt. cbv beta in Gt. apply eval_u64 in Ev; [|assumption|lia|cbn; lia]. eexists. split; [repeat cgstep; reflexivity|]. split.
    + eapply upto_trans; [eapply upto_weaken; [|exact Ut]|uptos]. unfold area. slia.
    + exists 0, v. split; [now apply pair_small|]. split; cgregs.
  - intros t. apply upto_weaken. unfold area. slia.
Qed.

Lemma pow_128 : 2 ^ 128 = 2 ^ 64 * 2 ^ 64.
Proof. reflexivity. Qed.

Lemma u64_minus1 : u64 (-1) = 2 ^ 64 - 1.
Proof. reflexivity. Qed.

Lemma u64_0 : u64 0 = 0.
Proof. reflexivity. Qed.

Lemma int64_zero v : 0 <= v < two64 -> int64_of_u64 v = 0 -> v = 0.
Proof. unfold int64_of_u64, two63, two64. destruct (Z.ltb_spec v 9223372036854775808); lia. Qed.

Lemma literal_pair v neg :
  in_u64 v -> (neg = true -> int64_of_u64 v <= 0) ->
  pair128 (literal v neg mod 2 ^ 128) (u64 (if neg && (int64_of_u64 v <? 0) then -1 else 0)) v.
Proof.
  intros Hv Hneg. split; [|split; [apply u64_range|exact Hv]]. unfold in_u64 in Hv. rewrite two64_pow in Hv. unfold literal.
  destruct neg; cbn [andb].
  - specialize (Hneg eq_refl). destruct (Z.ltb_spec (int64_of_u64 v) 0).
    + unfold int64_of_u64 in *. rewrite two64_pow in *. destruct (Z.ltb_spec v two63); [unfold two63 in *; lia|]. rewrite u64_minus1.
      symmetry. apply (Z.mod_unique_pos _ _ (-1)); rewrite pow_128; lia.
    + assert (Hi0 : int64_of_u64 v = 0) by lia. rewrite Hi0, u64_0, Zmod_0_l. rewrite Z.mul_0_l, Z.add_0_l. symmetry. apply int64_zero; [rewrite two64_pow; exact Hv|exact Hi0].
  - rewrite u64_0, Z.mul_0_l, Z.add_0_l. apply Z.mod_small. rewrite pow_128. lia.
Qed.

Lemma const_runs (P : Z -> Prop) v hi neg wide p s :
  wf_arith (IR.ArithConst v hi neg wide p) ->
  exists s', exec (if wide then loadConst R3 hi ++ loadConst R5 v else [Imm Mov R3 (if neg && (int64_of_u64 v <? 0) then -1 else 0)] ++ loadConst R5 v) None s = Next s' /\
    upto P s s' /\ in_pair (if wide then hi * 2 ^ 64 + v else literal v neg mod 2 ^ 128) s'.
Proof.
  cbn [wf_arith]. intros (Hv & Hhi & Hneg & Hwide). rewrite <- (app_nil_r (loadConst R5 v)). destruct wide.
  - eexists. split; [rewrite !exec_loadConst by (try discriminate; assumption); reflexivity|]. split; [uptos|].
    exists hi, v. split; [split; auto|split; cgregs].
  - pose proof (literal_pair v neg Hv Hneg) as Hp. set (k := if neg && _ then -1 else 0) in *. clearbody k.
    eexists. split; [cbn [app]; cgstep; rewrite exec_loadConst by (try discriminate; assumption); reflexivity|].
    split; [uptos|]. exists (u64 k), v. split; [exact Hp|split; cgregs].
Qed.

(** A node as the two of its operands, at 128 bits. *)
Lemma eval_node op l r p :
  wf_arith l -> wf_arith r -> Z.max (width l) (width r) = 128 ->
  evalArith value 128 (IR.ArithBinOp op l r p) =
  both (parks128 r && negb (parks128 l)) (evalArith value 128 l) (evalArith value 128 r) (fun a b => Present (binop op a b 128)).
Proof.
  intros Hl Hr Hw. cbn [evalArith]. rewrite (operand_ctx l r Hr Hw). rewrite Z.max_comm in Hw. rewrite (operand_ctx r l Hl Hw). rewrite Z.max_comm in Hw.
  unfold node_width, node_right_first. rewrite Hw, isNarrow_width. cbn [isConst negb andb width]. now rewrite Hw.
Qed.

(** ** The runs of a node *)

Section Node.
Context (c : whereCtx) (n : Z).
Hypothesis Hctx : ctx_ok c.
Hypothesis Ht : target n (absent c).

(** The labels of code generated later are not those code before leaves
    for. *)
Lemma later_target m m' code : n <= m -> grows m m' code -> (absent c ∉ symbols code) /\ (dslReject ∉ symbols code).
Proof.
  intros Hm [_ Ho]. split; apply (owned_target m m'); auto; [now apply (target_le n)|apply target_reject].
Qed.

(** Both operands, the second computed while the first is parked in slots
    [d] and [e]; [tail] is what follows. *)
Lemma two_runs {A} (P1 P2 P : Z -> Prop) (Q : A -> st -> Prop) c1 c2 tail d e a b (k : Z -> Z -> seen A) m1 m2 m3 s :
  0 <= d < 16 -> 0 <= e < 16 -> d <> e -> (forall x, P1 x -> P x) -> (forall x, P2 x -> P x /\ x <> d /\ x <> e) -> P d -> P e ->
  n <= m1 -> grows m1 m2 c2 -> grows m2 m3 tail ->
  runs (upto P1 s) in_pair c1 (absent c) s a ->
  (forall t, upto P s t -> runs (upto P2 t) in_pair c2 (absent c) t b) ->
  (forall x y t, parked_pair d e x t -> in_pair y t -> upto P s t -> runs (upto P s) Q tail (absent c) t (k x y)) ->
  runs (upto P s) Q (c1 ++ [StoreMem RFP (arithStackSlot d) R3 DWord; StoreMem RFP (arithStackSlot e) R5 DWord] ++ c2 ++ tail)
    (absent c) s (both false a b k).
Proof.
  intros Hd He Hn HP1 HP2 Pd Pe Hm G2 G3 R1 R2 R3. pose proof G2 as [Hm2 _]. unfold both.
  assert (Gs : grows m1 m3 ([StoreMem RFP (arithStackSlot d) Asm.R3 DWord; StoreMem RFP (arithStackSlot e) R5 DWord] ++ c2 ++ tail)).
  { apply grows_plain_app; [auto with codegen|]. now apply (grows_app _ m2). }
  destruct (later_target m1 m3 _ Hm Gs) as [N1 N2].
  eapply runs_app; [exact R1| |intros t; now apply upto_weaken|exact N1|exact N2]. intros x t _ U1 I1.
  destruct (store_pair d e x (c2 ++ tail) t Hd He Hn I1) as (t1 & E1 & K1 & U1').
  eapply runs_exec; [exact E1|]. assert (U : upto P s t1) by (eapply upto_trans; [eapply upto_weaken; [exact HP1|exact U1]|now apply U1']).
  destruct (later_target m2 m3 _ ltac:(lia) G3) as [N3 N4].
  eapply runs_app; [apply R2; exact U| | |exact N3|exact N4].
  - intros y t2 _ U2 I2. apply R3; [|exact I2|].
    + eapply parked_upto; [exact Hd|exact He| | |exact U2|exact K1]; intros x0 Hx0; now apply HP2.
    + eapply upto_trans; [exact U|]. eapply upto_weaken; [|exact U2]. intros x0 Hx0. now apply HP2.
  - intros t2 U2. eapply upto_trans; [exact U|]. eapply upto_weaken; [|exact U2]. intros x0 Hx0. now apply HP2.
Qed.

(** The combination at the end. *)
Lemma combine_end (P : Z -> Prop) op m combine m' x y s t :
  (forall d, low_slots d -> P d) -> addsub op -> 0 <= m -> genArith128Combine op m = Ok (combine, m') ->
  parked_pair 2 3 x t -> in_pair y t -> upto P s t -> runs (upto P s) in_pair combine (absent c) t (Present (binop op x y 128)).
Proof.
  intros HP Hop Hm E K I U. destruct (combine_runs op m combine m' x y t Hop Hm E K I) as (t' & E' & U' & I').
  exists t'. split; [exact E'|]. split; [|exact I']. eapply upto_trans; [exact U|]. now apply (upto_weaken low_slots).
Qed.

End Node.

(** ** The 128-bit code of an expression *)

Lemma parks_node op l r p :
  isNarrowArith (IR.ArithBinOp op l r p) = false -> parks128 (IR.ArithBinOp op l r p) = if isLowConst128 r then parks128 l else true.
Proof. intros En. cbn [parks128]. now rewrite En. Qed.

Lemma parks_narrow e : isNarrowArith e = true -> parks128 e = false.
Proof. intros En. destruct e; try reflexivity. cbn [parks128]. now rewrite En. Qed.

(** A node whose operands both park: the left value is held above the
    reserved slots. *)
Lemma bothPark_runs c op l r p n code n' s :
  (forall c n code n' s, genArith128 c l n = Ok (code, n') -> wf_arith l -> ctx_ok c -> 0 <= n -> target n (absent c) -> site s ->
     runs (upto (area c l) s) in_pair code (absent c) s (evalArith value 128 l)) ->
  (forall c n code n' s, genArith128 c r n = Ok (code, n') -> wf_arith r -> ctx_ok c -> 0 <= n -> target n (absent c) -> site s ->
     runs (upto (area c r) s) in_pair code (absent c) s (evalArith value 128 r)) ->
  isNarrowArith (IR.ArithBinOp op l r p) = false -> isLowConst128 r = false -> addsub op -> parks128 l = true ->
  genArith128BothPark c op (fun c => genArith128 c l) (fun c => genArith128 c r) n = Ok (code, n') ->
  wf_arith l -> wf_arith r -> ctx_ok c -> 0 <= n -> target n (absent c) -> site s ->
  runs (upto (area c (IR.ArithBinOp op l r p)) s) in_pair code (absent c) s
    (both false (evalArith value 128 l) (evalArith value 128 r) (fun a b => Present (binop op a b 128))).
Proof.
  intros IHl IHr En Er Hop Hpl E Hl Hr Hc Hn Ht Hs. pose proof Hc as [Hw Hb]. unfold genArith128BothPark in E. gcase E; [now apply glift_ok in E as [[=] _]|].
  bools. unfold arith128ReservedSlots, maxArithDepth in *.
  apply gbind_ok in E as (cl & m1 & El & E). apply gbind_ok in E as (cr & m2 & Er2 & E). apply gbind_ok in E as (cc & m3 & Ec & E). apply gret_ok in E as [-> ->].
  pose proof (genArith128_grows _ _ _ _ _ Hn Hl El) as Gl. pose proof Gl as [? _].
  pose proof (genArith128_grows (hold2 c) r m1 cr m2 ltac:(lia) Hr Er2) as Gr. pose proof Gr as [? _].
  pose proof (combine_owned op m2 cc m3 Hop ltac:(lia) Ec) as [Oc ->].
  assert (Hwide : forall d, area (hold2 c) r d -> area c (IR.ArithBinOp op l r p) d /\ d <> 5 + wideHold c /\ d <> 5 + wideHold c + 1).
  { unfold area. rewrite parks_node, Er by exact En. cbn [hold2 wideHold boolEqDepth]. lia. }
  assert (Hup : forall t, upto (area c (IR.ArithBinOp op l r p)) s t -> site t).
  { intros t U. eapply site_upto; [exact Hs|]. eapply upto_weaken; [|exact U]. intros d. now apply area_scratch. }
  eapply (two_runs c n Ht (area c l) (area (hold2 c) r) _ _ _ _ _ _ _ _ _ _ m1 m2 (m2 + 1)); try lia.
  - unfold area. rewrite parks_node, Er, Hpl by exact En. lia.
  - exact Hwide.
  - unfold area. lia.
  - unfold area. lia.
  - exact Gr.
  - apply (grows_plain_app m2 (m2 + 1)); [auto 8 with codegen|]. split; [lia|exact Oc].
  - now apply (IHl c n cl m1).
  - intros t U. change (absent c) with (absent (hold2 c)). apply (IHr (hold2 c) m1 cr m2); auto; [unfold ctx_ok, hold2; cbn; lia|lia|].
    change (absent (hold2 c)) with (absent c). apply (target_le n); [lia|exact Ht].
  - intros x y t K I U. destruct (unhold_spec (5 + wideHold c) (5 + wideHold c + 1) x y cc t ltac:(lia) ltac:(lia) ltac:(lia) K I) as (t' & E' & K' & I' & U').
    eapply runs_exec; [exact E'|]. eapply combine_end; [|exact Hop| |exact Ec|exact K'|exact I'|]; [|lia|].
    + unfold low_slots, area. rewrite parks_node, Er by exact En. lia.
    + eapply upto_trans; [exact U|]. eapply upto_weaken; [|exact U']. unfold low_slots, area. rewrite parks_node, Er by exact En. lia.
Qed.

(** A node of which at most one operand parks. *)
Lemma onePark_runs c op l r p n code n' s :
  (forall n code n' s, genArith128 c l n = Ok (code, n') -> 0 <= n -> target n (absent c) -> site s ->
     runs (upto (area c l) s) in_pair code (absent c) s (evalArith value 128 l)) ->
  (forall n code n' s, genArith128 c r n = Ok (code, n') -> 0 <= n -> target n (absent c) -> site s ->
     runs (upto (area c r) s) in_pair code (absent c) s (evalArith value 128 r)) ->
  isNarrowArith (IR.ArithBinOp op l r p) = false -> isLowConst128 r = false -> addsub op -> parks128 l && parks128 r = false ->
  genArith128FieldOpField c op l r (fun c => genArith128 c l) (fun c => genArith128 c r) n = Ok (code, n') ->
  wf_arith l -> wf_arith r -> ctx_ok c -> 0 <= n -> target n (absent c) -> site s ->
  runs (upto (area c (IR.ArithBinOp op l r p)) s) in_pair code (absent c) s
    (both (parks128 r && negb (parks128 l)) (evalArith value 128 l) (evalArith value 128 r) (fun a b => Present (binop op a b 128))).
Proof.
  intros IHl IHr En Er Hop Hpk E Hl Hr Hc Hn Ht Hs. pose proof Hc as [Hwh Hbd]. unfold genArith128FieldOpField in E. rewrite Hpk in E.
  apply gbind_ok in E as (c1 & m1 & Ef & E). apply gbind_ok in E as (c2 & m2 & Es & E). apply gbind_ok in E as (cc & m3 & Ec & E). apply gret_ok in E as [-> ->].
  assert (HP : forall d, area c (IR.ArithBinOp op l r p) d <-> 2 <= d < 5 \/ 5 + wideHold c <= d < 16 - boolEqDepth c).
  { intros d. unfold area. rewrite parks_node, Er by exact En. split; [lia|]. intros [?|?]; [|now right; right].
    assert (Hd : d = 2 \/ d = 3 \/ d = 4) by lia. destruct Hd as [?|[?|?]]; [left; auto..|now right; left]. }
  assert (Hup : forall t, upto (area c (IR.ArithBinOp op l r p)) s t -> site t).
  { intros t U. eapply site_upto; [exact Hs|]. eapply upto_weaken; [|exact U]. intros d. now apply area_scratch. }
  destruct (parks128 r) eqn:Er1; cbn [andb negb].
  - rewrite andb_true_r in Hpk. rewrite Hpk. cbn [negb]. pose proof (genArith128_grows _ _ _ _ _ Hn Hr Ef) as G1. pose proof G1 as [? _].
    pose proof (genArith128_grows _ _ m1 _ _ ltac:(lia) Hl Es) as G2. pose proof G2 as [? _].
    pose proof (combine_owned op m2 cc m3 Hop ltac:(lia) Ec) as [Oc ->].
    change (both true ?a ?b ?k) with (both false b a (fun y x => k x y)). cbv beta.
    eapply (two_runs c n Ht (area c r) (area c l) _ _ _ _ _ _ _ _ _ _ m1 m2 (m2 + 1)); try lia.
    + intros d Hd. apply HP. unfold area in Hd. lia.
    + intros d Hd. rewrite HP. unfold area in Hd. destruct Hd as [[Hd _]|Hd]; [congruence|lia].
    + apply HP. lia.
    + apply HP. lia.
    + exact G2.
    + apply grows_plain_app; [case_match; unfold exchange128; auto 10 with codegen|split; [lia|exact Oc]].
    + now apply (IHr n c1 m1).
    + intros t U. apply (IHl m1 c2 m2); auto; [lia|now apply (target_le n)].
    + intros y x t K I U. destruct Hop as [->| ->].
      * rewrite bool_decide_false by discriminate. cbn [app]. replace (binop ArithAdd x y 128) with (binop ArithAdd y x 128) by (cbn [binop]; f_equal; lia).
        eapply combine_end; [|now left| |exact Ec|exact K|exact I|exact U]; [|lia]. unfold low_slots. intros d Hd. apply HP. lia.
      * rewrite bool_decide_true by reflexivity. destruct (exchange_spec y x cc t K I) as (t' & E' & K' & I' & U').
        eapply runs_exec; [exact E'|]. eapply combine_end; [|now right| |exact Ec|exact K'|exact I'|]; [|lia|].
        -- unfold low_slots. intros d Hd. apply HP. lia.
        -- eapply upto_trans; [exact U|]. eapply upto_weaken; [|exact U']. unfold low_slots. intros d Hd. apply HP. lia.
  - pose proof (genArith128_grows _ _ _ _ _ Hn Hl Ef) as G1. pose proof G1 as [? _].
    pose proof (genArith128_grows _ _ m1 _ _ ltac:(lia) Hr Es) as G2. pose proof G2 as [? _].
    pose proof (combine_owned op m2 cc m3 Hop ltac:(lia) Ec) as [Oc ->].
    eapply (two_runs c n Ht (area c l) (area c r) _ _ _ _ _ _ _ _ _ _ m1 m2 (m2 + 1)); try lia.
    + intros d Hd. apply HP. unfold area in Hd. lia.
    + intros d Hd. rewrite HP. unfold area in Hd. destruct Hd as [[Hd _]|Hd]; [congruence|lia].
    + apply HP. lia.
    + apply HP. lia.
    + exact G2.
    + cbn [app]. split; [lia|exact Oc].
    + now apply (IHl n c1 m1).
    + intros t U. apply (IHr m1 c2 m2); auto; [lia|now apply (target_le n)].
    + intros x y t K I U. cbn [app]. eapply combine_end; [|exact Hop| |exact Ec|exact K|exact I|exact U]; [|lia]. unfold low_slots. intros d Hd. apply HP. lia.
Qed.

Lemma genArith128_runs c e n code n' s :
  genArith128 c e n = Ok (code, n') -> wf_arith e -> ctx_ok c -> 0 <= n -> target n (absent c) -> site s ->
  runs (upto (area c e) s) in_pair code (absent c) s (evalArith value 128 e).
Proof.
  revert c n code n' s. induction e as [v hi neg wide p|f p|op l IHl r IHr p]; intros c n code n' s E Hwf Hc Hn Ht Hs;
    match type of E with genArith128 _ ?e _ = _ =>
      destruct (isNarrowArith e) eqn:En; [cbn [genArith128] in E; rewrite En in E; apply glift_ok in E as [E ->]; now apply (narrow_runs c e _ n)|] end.
  - pose proof (const_runs (area c (IR.ArithConst v hi neg wide p)) v hi neg wide p s Hwf) as Hr. cbn [genArith128] in E.
    destruct wide; apply gret_ok in E as [-> ->]; exact Hr.
  - cbn [genArith128] in E. rewrite En in E. gcase E; [now apply glift_ok in E as [[=] _]|]. apply glift_ok in E as [E ->].
    unfold genArithField128Load in E. destruct (RefField f) as [fd|]; [|discriminate]. destruct (negb (Bits fd =? 128)); [discriminate|].
    apply result_bind_ok in E as ([pre at_] & E & [= <-]). cbn [is_Some_b andb] in *. bools.
    assert (Htx : has_text (absent c) = true) by now apply target_text in Ht.
    destruct (field128_plain _ _ _ _ E Hwf) as [Pp Pa]. destruct (field128_runs _ _ _ _ s E) as (pres & half & rdy & Hh); auto.
    eapply runs_weaken; [| |eapply halves_runs; eauto]; [|auto]. intros t. apply upto_weaken. unfold area. slia.
  - pose proof Hwf as [Hl Hr]. assert (Hw : Z.max (width l) (width r) = 128).
    { pose proof E as Ew. apply genArith128_width in Ew; [|exact Hwf]. rewrite isNarrow_width in En. cbn [isConst negb andb width] in *. bools. lia. }
    rewrite (eval_node op l r p Hl Hr Hw). destruct (genArith128_operands _ _ _ _ _ _ _ _ En E) as (Hop & _).
    cbn [genArith128] in E. rewrite En in E. gcase E; [now apply glift_ok in E as [[=] _]|].
    destruct (lowConst128 r) as [[v neg]|] eqn:Er.
    + unfold lowConst128 in Er. destruct r as [v0 hi neg0 wide p0| |]; try discriminate. case_if Er; [|discriminate]. injection Er as -> ->. bools. subst hi.
      pose proof Hr as (Hv & _ & Hneg & Hwide). apply gbind_ok in E as (cl & m & El & E). pose proof (genArith128_grows _ _ _ _ _ Hn Hl El) as [Hm _].
      apply fieldOpConst_spec in E as (-> & tail & -> & Ho & Htail); auto; [|lia].
      assert (N : (absent c ∉ symbols tail) /\ (dslReject ∉ symbols tail)) by (apply (later_target c n Ht m (m + 1)); [exact Hm|split; [lia|exact Ho]]).
      destruct N as [N1 N2]. cbn [parks128 andb both evalArith].
      eapply runs_app; [apply (IHl c n cl m s El); auto| |intros t; apply upto_weaken; unfold area; rewrite parks_node by exact En; cbn [isLowConst128 lowConst128 Z.eqb is_Some_b]; tauto|exact N1|exact N2].
      intros a t _ U I. cbn [sbind]. destruct (Htail a t I) as (t' & E' & U' & I'). exists t'. split; [exact E'|]. split.
      * eapply upto_trans; [eapply upto_weaken; [|exact U]|eapply upto_weaken; [|exact U']; intros d []]. unfold area. rewrite parks_node by exact En.
        cbn [isLowConst128 lowConst128 Z.eqb is_Some_b]. tauto.
      * replace (if wide then 0 * 2 ^ 64 + v else literal v neg mod 2 ^ 128) with (literal v neg mod 2 ^ 128); [exact I'|]. destruct wide; [|reflexivity].
        rewrite Hwide. unfold literal. apply Z.mod_small. unfold in_u64 in Hv. rewrite two64_pow in Hv. rewrite pow_128. lia.
    + assert (Elow : isLowConst128 r = false) by (unfold isLowConst128; now rewrite Er).
      destruct (parks128 l && parks128 r) eqn:Ep.
      * pose proof E as E2. unfold genArith128FieldOpField in E2. rewrite Ep in E2. apply andb_true_iff in Ep as [Epl Epr]. rewrite Epl, Epr. cbn [andb negb].
        apply (bothPark_runs c op l r p n code n'); auto.
      * apply (onePark_runs c op l r p n code n'); eauto.
Qed.
End Arith128.

(** * The generated comparison of two expressions decides

    Up to 64 bits the side that nests deeper is computed first and parked
    in one slot; above that each side is a pair, the left one held in slots
    0 and 1 while the right one is computed. Either way the code falls
    through when the comparison holds and leaves for the fail label when it
    does not or a field is absent. *)

(** ** Comparing pairs *)

Lemma pair_eq a ah al b bh bl : pair128 a ah al -> pair128 b bh bl -> (a =? b) = (ah =? bh) && (al =? bl).
Proof.
  unfold pair128, in_u64. intros (-> & ? & ?) (-> & ? & ?). rewrite two64_pow in *. set (M := 2 ^ 64) in *.
  destruct (Z.eqb_spec ah bh) as [->|], (Z.eqb_spec al bl) as [->|]; cbn [andb];
    first [apply Z.eqb_refl | apply Z.eqb_neq; nia].
Qed.

Lemma pair_lt a ah al b bh bl : pair128 a ah al -> pair128 b bh bl -> (a <? b) = if ah =? bh then al <? bl else ah <? bh.
Proof.
  unfold pair128, in_u64. intros (-> & ? & ?) (-> & ? & ?). rewrite two64_pow in *. set (M := 2 ^ 64) in *.
  destruct (Z.eqb_spec ah bh) as [->|].
  - destruct (Z.ltb_spec al bl); [apply Z.ltb_lt|apply Z.ltb_ge]; lia.
  - destruct (Z.ltb_spec ah bh); [apply Z.ltb_lt|apply Z.ltb_ge]; nia.
Qed.

Definition ordered (op : CmpOp) : Prop := op <> CmpEq /\ op <> CmpNeq.

Lemma pair_cmp op a ah al b bh bl :
  ordered op -> pair128 a ah al -> pair128 b bh bl -> cmpZ op a b = if ah =? bh then cmpZ op al bl else cmpZ op ah bh.
Proof.
  intros [H1 H2] Ha Hb. pose proof (pair_lt a ah al b bh bl Ha Hb) as Hlt. pose proof (pair_lt b bh bl a ah al Hb Ha) as Hgt.
  rewrite (Z.eqb_sym bh) in Hgt. destruct op; try easy; cbn [cmpZ]; rewrite ?Z.leb_antisym, ?Hlt, ?Hgt; now destruct (ah =? bh).
Qed.

(** The jumps on the high halves decide when these differ. *)
Lemma highHalfJumps_spec op a b :
  ordered op -> cmp64 (fst (highHalfJumps op)) a b = Some (negb (a =? b) && cmpZ op a b) /\
                cmp64 (snd (highHalfJumps op)) a b = Some (negb (a =? b) && negb (cmpZ op a b)).
Proof.
  intros [H1 H2]. destruct op; try easy; cbn; rewrite ?Z.leb_antisym, ?negb_involutive;
    destruct (Z.eqb_spec a b), (Z.ltb_spec a b), (Z.ltb_spec b a); try lia; auto.
Qed.

Lemma lowHalfMissJump_spec op : ordered op -> lowHalfMissJump op = rejectingJumpOp op.
Proof. intros [H1 H2]. now destruct op. Qed.

Lemma cmp_val_num op a b : cmp_val op (Num a) (Num b) = cmp64 op a b.
Proof. now destruct op. Qed.

Section Compare.
Context `{HKern : Kernel} `{HV : AuxVocab} `{HF : FieldCode} {site : st -> Prop} {value : FieldRef -> seen Z} `{HOk : !FieldCodeOk site value}.

(** The slots a comparison writes. *)
Definition compare_slots (c : whereCtx) (d : Z) : Prop := 0 <= d < 16 - boolEqDepth c.

(** A comparison leaves the slots enclosing boolean comparisons hold. *)
Definition cmp_ctx_ok (c : whereCtx) : Prop := ctx_ok c /\ boolEqDepth c <= maxArithDepth - boolEqOperandReserve.

Lemma absent_fail c n failLabel : target n failLabel -> absent (with_atomFail failLabel c) = failLabel.
Proof. intros Ht. apply target_text in Ht. unfold absent. cbn [with_atomFail atomFail]. now rewrite Ht. Qed.

(** ** Up to 64 bits *)

Lemma eval_const_width l r : wf_arith l -> wf_arith r -> Z.max (width l) (width r) <= 64 ->
  evalArith value (sibling_width (Z.max (width l) (width r))) l = evalArith value (sibling_width (width r)) l.
Proof.
  intros Hl Hr Hw. destruct l as [v hi neg wide p| |]; try reflexivity. cbn [width] in *. destruct wide; [lia|].
  pose proof (width_nonneg r Hr). now rewrite Z.max_r by lia.
Qed.

(** The second side is computed with the first one parked in slot [d]; [tail]
    decides. *)
Lemma parked_compare c n fail d h1 c1 c2 tail a b (k : Z -> Z -> verdict) s :
  target n fail -> plain c2 -> plain tail -> 0 <= d < 16 - boolEqDepth c -> 0 <= boolEqDepth c -> h1 <= 16 - boolEqDepth c ->
  (forall v, a = Present v -> in_u64 v) -> (forall v, b = Present v -> in_u64 v) ->
  computes64 0 h1 c1 fail s a -> (forall t, upto (compare_slots c) s t -> computes64 0 d c2 fail t b) ->
  (forall x y t, in_u64 x -> in_u64 y -> slot d t = Some (Num x) -> getr R3 t = Some (Num y) -> runs (upto no_slots t) (fun _ _ => True) tail fail t (k x y)) ->
  runs (upto (compare_slots c) s) (fun _ _ => True) (c1 ++ [StoreMem RFP (arithStackSlot d) R3 DWord] ++ c2 ++ tail) fail s
    (sbind a (fun x => sbind b (fun y => k x y))).
Proof.
  intros Ht P2 Pt Hd Hb Hh Ha Hbv R1 R2 R3. unfold computes64, compare_slots in *.
  assert (Ps : plain ([StoreMem RFP (arithStackSlot d) Asm.R3 DWord] ++ c2 ++ tail)) by auto with codegen.
  eapply runs_app; [exact R1| |intros t; apply upto_weaken; slia|now apply (plain_target n)|apply (plain_target n _ _ Ps), target_reject].
  intros x t Ex U1 G1. cbv beta in G1. eapply runs_exec; [cbn [app]; apply exec_park; [lia|exact G1]|].
  assert (Up : upto (fun e => 0 <= e < 16 - boolEqDepth c) s (park d (Num x) t)).
  { eapply upto_trans; [eapply upto_weaken; [|exact U1]; slia|]. apply upto_park; slia. }
  eapply runs_app; [apply R2; exact Up| | |now apply (plain_target n)|apply (plain_target n _ _ Pt), target_reject].
  - intros y t' Ey U2 G2. cbv beta in G2. eapply runs_weaken; [| |apply (R3 x y t' (Ha x Ex) (Hbv y Ey)); [|exact G2]]; [|auto|].
    + intros t2 U3. eapply upto_trans; [exact Up|]. eapply upto_trans; [eapply upto_weaken; [|exact U2]; slia|]. eapply upto_weaken; [|exact U3]. intros e [].
    + rewrite (upto_slot _ _ _ d) with (3 := U2) by slia. apply slot_park_same. now apply Ha.
  - intros t2 U2. eapply upto_trans; [exact Up|]. eapply upto_weaken; [|exact U2]. slia.
Qed.

(** A register comparison that ends a condition. *)
Lemma compare_end op x y fail l s n :
  target n fail -> getr R5 s = Some (Num x) -> getr R3 s = Some (Num y) ->
  exec (JReg (rejectingJumpOp op) R5 R3 fail :: l) None s = if cmpZ op x y then exec l None s else exec l (Some fail) s.
Proof.
  intros Ht G5 G3. erewrite exec_JReg; [|exact G5|exact G3|rewrite cmp_val_num; apply rejectingJumpOp_spec|now apply target_text in Ht].
  now destruct (cmpZ op x y).
Qed.

(** A deciding tail: its run by [tac], then what it wrote. *)
Ltac decided tac := eexists; split; [tac; reflexivity|first [ split; [uptos|exact I] | uptos ]].

(** The slot's value is back in a register and compared; [Ec] decides. *)
Ltac compare64_tail :=
  erewrite exec_unpark; [|discriminate|lia|cgslots];
  erewrite compare_end; [|eassumption|cgregs..];
  match goal with Ec : cmpZ _ _ _ = _ |- _ => rewrite Ec end.

Lemma compare64_runs c al op ar failLabel n code n' s :
  arithCmpTargetBits al ar <= 64 -> genArithCompare c al op ar failLabel n = Ok (code, n') -> wf_arith al -> wf_arith ar -> cmp_ctx_ok c ->
  target n failLabel -> site s ->
  runs (upto (compare_slots c) s) (fun _ _ => True) code failLabel s (evalCompare value al op ar).
Proof.
  intros Hbits E Hl Hr [[_ Hb] Hb2] Ht Hs. unfold genArithCompare in E. destruct (Z.ltb_spec 64 (arithCmpTargetBits al ar)); [lia|].
  apply glift_ok in E as [E ->]. apply result_bind_ok in E as (cl & El & E). apply result_bind_ok in E as (cr & Er & E).
  rewrite arithCmpTargetBits_width in *. pose proof (width_nonneg al Hl). pose proof (width_nonneg ar Hr).
  set (c1 := with_atomFail failLabel c) in *. assert (Ab : absent c1 = failLabel) by now apply (absent_fail c n).
  pose proof (genArith64_nesting _ _ _ _ _ El) as Nl. pose proof (genArith64_nesting _ _ _ _ _ Er) as Nr.
  pose proof (genArith64_plain _ _ _ _ _ El Hl) as Pl. pose proof (genArith64_plain _ _ _ _ _ Er Hr) as Pr.
  pose proof (arithNesting_nonneg al). pose proof (arithNesting_nonneg ar). unfold maxArithDepth, boolEqOperandReserve, arith128ReservedSlots in *.
  change (boolEqDepth c1) with (boolEqDepth c) in *.
  assert (Hup : forall t, upto (compare_slots c) s t -> site t).
  { intros t U. eapply site_upto; [exact Hs|]. eapply upto_weaken; [|exact U]. unfold compare_slots. slia. }
  assert (Wl : forall t, site t -> computes64 0 (arithNesting al) cl failLabel t (evalArith value (sibling_width (width ar)) al)).
  { intros t St. rewrite <- eval_const_width, <- Ab by (assumption || lia). apply (genArith64_runs c1 al 0 _ cl n t El); auto; try lia; rewrite ?Ab; assumption. }
  assert (Wr : forall t, site t -> computes64 0 (arithNesting ar) cr failLabel t (evalArith value (sibling_width (width al)) ar)).
  { intros t St. rewrite <- eval_const_width, <- Ab by (assumption || lia). rewrite (Z.max_comm (width ar)).
    apply (genArith64_runs c1 ar 0 _ cr n t Er); auto; try lia; rewrite ?Ab; assumption. }
  assert (Ul : forall v, evalArith value (sibling_width (width ar)) al = Present v -> in_u64 v)
    by (intros v; apply eval_u64; [exact Hl|lia|apply sibling_width_range; lia]).
  assert (Ur : forall v, evalArith value (sibling_width (width al)) ar = Present v -> in_u64 v)
    by (intros v; apply eval_u64; [exact Hr|lia|apply sibling_width_range; lia]).
  case_if E; [discriminate|]. bools. unfold evalCompare, compare_right_first. rewrite (proj2 (Z.leb_le _ 64)) by lia. cbn [andb].
  pose proof (target_text _ _ Ht) as Htx. destruct (Z.leb_spec (arithNesting ar) (arithNesting al)); injection E as <-.
  - destruct (Z.ltb_spec (arithNesting al) (arithNesting ar)); [lia|]. unfold both.
    apply (parked_compare c n failLabel _ (arithNesting al)); auto with codegen; try lia.
    intros x y t Hx Hy Sx Gy. destruct (cmpZ op x y) eqn:Ec; cbn [test runs]; decided compare64_tail.
  - destruct (Z.ltb_spec (arithNesting al) (arithNesting ar)); [|lia]. unfold both.
    apply (parked_compare c n failLabel _ (arithNesting ar) _ _ _ _ _ (fun y x => test (cmpZ op x y))); auto 6 with codegen; try lia.
    intros y x t Hy Hx Sy Gx. destruct (cmpZ op x y) eqn:Ec; cbn [test runs]; decided ltac:(cgstep; compare64_tail).
Qed.

(** ** 128 bits *)

(** What follows the two sides: the right high word is in R3 and its low
    one in slot 2, the left high word in R5 and its low one in slot 1. *)
Definition compare128_tail (op : CmpOp) (label fail : bytes) : list Instruction :=
  let reloadLows := [LoadMem R3 RFP (arithStackSlot 1) DWord; LoadMem R5 RFP (arithStackSlot 2) DWord] in
  match op with
  | CmpEq => [JReg JNE R5 R3 fail] ++ reloadLows ++ [JReg JNE R3 R5 fail]
  | CmpNeq => [JReg JNE R5 R3 label] ++ reloadLows ++ [JReg JEq R3 R5 fail; landingNoop label]
  | _ => [JReg (fst (highHalfJumps op)) R5 R3 label; JReg (snd (highHalfJumps op)) R5 R3 fail] ++ reloadLows
         ++ [JReg (lowHalfMissJump op) R3 R5 fail; landingNoop label]
  end.

Lemma genArithCompare128_shape c al op ar fail n code n' :
  0 <= n -> wf_arith al -> wf_arith ar -> genArithCompare128 c al op ar fail (arithCmpTargetBits al ar) n = Ok (code, n') ->
  arithCmpTargetBits al ar = 128 /\
  exists cl m1 cr m2 label, genArith128 c al n = Ok (cl, m1) /\ genArith128 c ar m1 = Ok (cr, m2) /\ m2 <= n' /\
    (op = CmpEq /\ n' = m2 \/ op <> CmpEq /\ numbered n' label /\ n' = m2 + 1) /\
    code = cl ++ [StoreMem RFP (arithStackSlot 0) R3 DWord; StoreMem RFP (arithStackSlot 1) R5 DWord] ++ cr
           ++ [StoreMem RFP (arithStackSlot 2) R5 DWord; LoadMem R5 RFP (arithStackSlot 0) DWord] ++ compare128_tail op label fail.
Proof.
  intros Hn Hl Hr E. unfold genArithCompare128 in E. gcase E; [now apply glift_ok in E as [[=] _]|]. bools. split; [assumption|].
  apply gbind_ok in E as (cl & m1 & El & E). apply gbind_ok in E as (cr & m2 & Er & E).
  pose proof (genArith128_grows _ _ _ _ _ Hn Hl El) as [? _]. pose proof (genArith128_grows c ar m1 cr m2 ltac:(lia) Hr Er) as [? _].
  exists cl, m1, cr, m2.
  destruct op; cbn [highHalfJumps] in E; [apply gret_ok in E as [-> ->]; exists []; rewrite <- !app_assoc; auto 10 with lia|..];
    (apply gbind_ok in E as (label & m & Em & E); apply gret_ok in E as [-> ->];
     apply freshLabel_ok in Em as [Hlab ->]; [|unfold wherePrefixes; rewrite !elem_of_cons; tauto|lia];
     exists label; rewrite <- !app_assoc; (split; [exact El|]); (split; [exact Er|]); (split; [lia|]); (split; [|reflexivity]); right; split; [discriminate|auto]).
Qed.

(** A jump over the landing of another label. *)
Lemma exec_past_landing l label fail s : label <> fail -> has_text fail = true -> exec (landingNoop label :: l) (Some fail) s = exec l (Some fail) s.
Proof. intros Hn Hf. cbn [exec]. rewrite bool_decide_false by exact Hn. destruct fail as [|x fail]; [discriminate|]. reflexivity. Qed.

Ltac tailstep :=
  lazymatch goal with
  | Hn : ?label <> ?fail |- context [exec (landingNoop ?label :: _) (Some ?fail) _] => rewrite (exec_past_landing _ _ _ _ Hn) by assumption
  | _ => cgstep
  end.

Ltac tail_run := repeat first [ progress cbn [app negb andb] | match goal with E : _ = _ :> bool |- _ => progress rewrite E end | tailstep ].

Lemma compare128_tail_runs op label fail n a b s :
  target n fail -> (op = CmpEq \/ has_text label = true /\ label <> fail) ->
  (exists ah al, pair128 a ah al /\ getr R5 s = Some (Num ah) /\ slot 1 s = Some (Num al) /\
   exists bh bl, pair128 b bh bl /\ getr R3 s = Some (Num bh) /\ slot 2 s = Some (Num bl)) ->
  runs (upto no_slots s) (fun _ _ => True) (compare128_tail op label fail) fail s (test (cmpZ op a b)).
Proof.
  intros Ht Hlab (ah & al & Ha & G5 & S1 & bh & bl & Hb & G3 & S2). pose proof (target_text _ _ Ht) as Htx.
  pose proof (pair_eq a ah al b bh bl Ha Hb) as Heq.
  destruct (decide (op = CmpEq)) as [->|He]; [|destruct (decide (op = CmpNeq)) as [->|Hne]].
  - cbn [cmpZ compare128_tail]. rewrite Heq. destruct (ah =? bh) eqn:E1, (al =? bl) eqn:E2; cbn [andb test runs]; decided tail_run.
  - destruct Hlab as [|[Hlx Hn]]; [easy|]. cbn [cmpZ compare128_tail]. rewrite Heq.
    destruct (ah =? bh) eqn:E1, (al =? bl) eqn:E2; cbn [andb negb test runs]; decided tail_run.
  - destruct Hlab as [|[Hlx Hn]]; [easy|]. assert (Ho : ordered op) by now split. rewrite (pair_cmp op a ah al b bh bl Ho Ha Hb).
    destruct (highHalfJumps_spec op ah bh Ho) as [J1 J2]. rewrite <- cmp_val_num in J1, J2.
    pose proof (rejectingJumpOp_spec op al bl) as J3. rewrite <- cmp_val_num in J3.
    replace (compare128_tail op label fail) with
      ([JReg (fst (highHalfJumps op)) R5 R3 label; JReg (snd (highHalfJumps op)) R5 R3 fail;
        LoadMem R3 RFP (arithStackSlot 1) DWord; LoadMem R5 RFP (arithStackSlot 2) DWord; JReg (rejectingJumpOp op) R3 R5 fail; landingNoop label])
      by (rewrite <- lowHalfMissJump_spec by exact Ho; now destruct op).
    destruct (ah =? bh) eqn:E1; cbn [andb negb] in J1, J2.
    + destruct (cmpZ op al bl) eqn:E2; cbn [negb] in J3; cbn [test runs];
        decided ltac:(erewrite exec_JReg; [|cgregs|cgregs|exact J1|assumption]; erewrite exec_JReg; [|cgregs|cgregs|exact J2|assumption];
                      do 2 cgstep; erewrite exec_JReg; [|cgregs|cgregs|exact J3|assumption]; tail_run).
    + destruct (cmpZ op ah bh) eqn:E2; cbn [negb] in J1, J2; cbn [test runs];
        decided ltac:(erewrite exec_JReg; [|cgregs|cgregs|exact J1|assumption]; try (erewrite exec_JReg; [|cgregs|cgregs|exact J2|assumption]); tail_run).
Qed.

Lemma compare128_tail_plain op label fail : plain (compare128_tail CmpEq label fail) /\
  forall lo hi k, numbered k label -> lo < k <= hi -> owned lo hi (compare128_tail op label fail).
Proof.
  split; [unfold compare128_tail; auto 8 with codegen|]. intros lo hi k Hk Hb.
  destruct op; cbn [compare128_tail app]; repeat first [apply owned_nil | apply owned_cons; [reflexivity|] | eapply owned_landing; [exact Hk|exact Hb|]].
Qed.

(** The scratch a side of a 128-bit comparison uses is above slots 0 and 1. *)
Lemma area_compare c e d : cmp_ctx_ok c -> area c e d -> compare_slots c d /\ d <> 0 /\ d <> 1.
Proof.
  unfold cmp_ctx_ok, ctx_ok, area, compare_slots, maxArithDepth, boolEqOperandReserve, arith128ReservedSlots. intros [[Hw Hb] Hd] [[_ [->| ->]]|[->|H]]; lia.
Qed.

(** The code from the left high word's store on. *)
Lemma compare128_runs c al op ar failLabel n code n' s :
  64 < arithCmpTargetBits al ar -> genArithCompare c al op ar failLabel n = Ok (code, n') -> wf_arith al -> wf_arith ar -> cmp_ctx_ok c ->
  0 <= n -> target n failLabel -> site s ->
  runs (upto (compare_slots c) s) (fun _ _ => True) code failLabel s (evalCompare value al op ar).
Proof.
  intros Hbits E Hl Hr Hc Hn Ht Hs. unfold genArithCompare in E. destruct (Z.ltb_spec 64 (arithCmpTargetBits al ar)); [|lia].
  apply genArithCompare128_shape in E as (Hw & cl & m1 & cr & m2 & label & El & Er & Hm & Hlab & ->); auto.
  set (c1 := with_atomFail failLabel c) in *. assert (Ab : absent c1 = failLabel) by now apply (absent_fail c n). assert (Hc1 : cmp_ctx_ok c1) by exact Hc.
  assert (Htc : target n (absent c1)) by now rewrite Ab. rewrite arithCmpTargetBits_width in Hw.
  pose proof (genArith128_grows _ _ _ _ _ Hn Hl El) as [? _]. pose proof (genArith128_grows c1 ar m1 cr m2 ltac:(lia) Hr Er) as Gr. pose proof Gr as [? _].
  unfold evalCompare, compare_right_first. rewrite (proj2 (Z.leb_gt _ 64)) by lia. cbn [andb]. rewrite (operand_ctx al ar Hr Hw).
  rewrite Z.max_comm in Hw. rewrite (operand_ctx ar al Hl Hw).
  assert (Gt : grows m2 n' ([StoreMem RFP (arithStackSlot 2) R5 DWord; LoadMem R5 RFP (arithStackSlot 0) DWord] ++ compare128_tail op label failLabel)).
  { apply grows_plain_app; [auto with codegen|]. split; [exact Hm|]. destruct Hlab as [[-> ->]|(_ & Hk & ->)]; [apply plain_owned, (compare128_tail_plain CmpEq)|].
    apply (compare128_tail_plain op label) with (k := m2 + 1); [exact Hk|lia]. }
  pose proof Hc as [[Hwh Hbd] Hbe]. unfold maxArithDepth, boolEqOperandReserve, arith128ReservedSlots in Hbe.
  pose proof (fun d => area_compare c1 al d Hc1) as Al. pose proof (fun d => area_compare c1 ar d Hc1) as Ar.
  change (compare_slots c1) with (compare_slots c) in *.
  rewrite <- Ab at 2. eapply (two_runs c1 n Htc (area c1 al) (area c1 ar) (compare_slots c)) with (m1 := m1) (m2 := m2) (m3 := n');
    try lia; try (unfold compare_slots; lia).
  - intros d Hd. now apply Al.
  - exact Ar.
  - exact Gr.
  - exact Gt.
  - apply (genArith128_runs c1 al n cl m1); auto. apply Hc1.
  - intros t U. apply (genArith128_runs c1 ar m1 cr m2); auto; [apply Hc1|lia|now apply (target_le n)|].
    eapply site_upto; [exact Hs|]. eapply upto_weaken; [|exact U]. unfold compare_slots. slia.
  - intros x y t (xh & xl & Hx & S0 & S1) (yh & yl & Hy & G3 & G5) U. pose proof Hx as (_ & ? & ?). pose proof Hy as (_ & ? & ?). rewrite Ab.
    eapply runs_exec; [cbn [app]; do 2 cgstep; reflexivity|].
    eapply runs_weaken; [| |apply (compare128_tail_runs op label failLabel n x y)]; [|auto|exact Ht| |].
    + intros t2 U2. eapply upto_trans; [exact U|]. eapply upto_trans; [|eapply upto_weaken; [|exact U2]; intros d []].
      eapply upto_trans; [|apply upto_setr; tauto]. apply upto_park; [lia|]. unfold compare_slots. lia.
    + destruct Hlab as [[-> _]|(_ & Hk & ->)]; [now left|right]. split; [now apply numbered_text in Hk|]. intros ->.
      destruct Ht as [->|(k & Hk2 & ?)]; [now apply numbered_not_reject in Hk|]. pose proof (numbered_unique _ _ _ Hk Hk2). lia.
    + exists xh, xl. split; [exact Hx|]. split; [cgregs|]. split; [cgslots|]. exists yh, yl. split; [exact Hy|]. split; [cgregs|cgslots].
Qed.

Lemma genArithCompare_grows c al op ar failLabel n code n' :
  genArithCompare c al op ar failLabel n = Ok (code, n') -> wf_arith al -> wf_arith ar -> 0 <= n -> grows n n' code.
Proof.
  intros E Hl Hr Hn. unfold genArithCompare in E. gcase E.
  - apply genArithCompare128_shape in E as (_ & cl & m1 & cr & m2 & label & El & Er & Hm & Hlab & ->); auto.
    pose proof (genArith128_grows _ _ _ _ _ Hn Hl El) as Gl. pose proof Gl as [? _].
    pose proof (genArith128_grows _ ar m1 cr m2 ltac:(lia) Hr Er) as Gr. pose proof Gr as [? _].
    eapply grows_app; [exact Gl|]. apply grows_plain_app; [auto with codegen|]. eapply grows_app; [exact Gr|]. apply grows_plain_app; [auto with codegen|].
    destruct Hlab as [[-> ->]|(_ & Hk & ->)]; [apply grows_plain, (compare128_tail_plain CmpEq)|]. split; [exact Hm|].
    apply (compare128_tail_plain op label) with (k := m2 + 1); [exact Hk|lia].
  - apply glift_ok in E as [E ->]. apply result_bind_ok in E as (cl & El & E). apply result_bind_ok in E as (cr & Er & E).
    apply genArith64_plain in El; [|exact Hl]. apply genArith64_plain in Er; [|exact Hr]. case_if E; [discriminate|]. apply grows_plain. case_if E; injection E as <-; auto 8 with codegen.
Qed.

Lemma genArithCompare_runs c al op ar failLabel n code n' s :
  genArithCompare c al op ar failLabel n = Ok (code, n') -> wf_arith al -> wf_arith ar -> cmp_ctx_ok c -> 0 <= n -> target n failLabel -> site s ->
  runs (upto (compare_slots c) s) (fun _ _ => True) code failLabel s (evalCompare value al op ar).
Proof.
  intros. destruct (Z.le_gt_cases (arithCmpTargetBits al ar) 64); [eapply compare64_runs|eapply compare128_runs]; eauto; lia.
Qed.
End Compare.
