(* ===== verification/FieldLoad.v ===== *)
(** * FieldLoad: how a field's bits reach a register (pkg/kunai/codegen/codegen.go)

    The bit geometry of a field or a slice (the window of 1, 2, 4, 8 or 9
    bytes that covers it), the bounded loads off a layer's anchor or an
    option's recorded position, and the shift and mask that leave the value.
    Which options a walk records, where entries of variable length start
    and where a layer starts are decided elsewhere in the generator: the
    class [AuxVocab] and the fields of [fieldLoadSite]. *)

From Stdlib Require Import ZArith Lia Bool Ascii String List.
From stdpp Require Import base list strings numbers option.
From S2P Require Import Prelude GoStd GoBytes Ast Ir Asm Codegen WhereArith.
Local Open Scope Z_scope.
Local Open Scope go_scope.

Definition ScratchBufSize : Z := 512.
Definition offsetBase : Z := R4.
Definition layerEntryAbsent : Z := -1.
Definition dynamicAuxSentinel : Z := -1.

(** ** Bounded loads *)

Record layerAnchor := mkAnchor {
  UseR4 : bool; AbsOffset : Z; UseSlot : bool; SlotOff : Z;
  WriteBack : bool; WriteBackOff : Z; WriteBackSlot : Z
}.

Definition r4Anchor : layerAnchor := mkAnchor true 0 false 0 false 0 0.
Definition absAnchor (off : Z) : layerAnchor := mkAnchor false off false 0 false 0 0.
Definition slotAnchor (slot : Z) : layerAnchor := mkAnchor false 0 true slot false 0 0.

Definition foldOffsetIntoScalar (dst src off : Z) (failLabel : bytes) : list Instruction :=
  (if off <? 0 then [JImm JLT src (- off) failLabel] else [])
  ++ (if negb (dst =? src) then [Reg Mov dst src] else [])
  ++ (if off <? 0 then [Imm Sub dst (- off)] else if 0 <? off then [Imm Add dst off] else []).

Definition boundedScalarLoad (dst scratchStart scalar scratchEnd : Z) (size : Size_) (failLabel : bytes) : list Instruction :=
  let sizeBytes := i32 (Sizeof size) in
  [JImm JGT scalar (ScratchBufSize - sizeBytes) failLabel]
  ++ (if dst =? scalar then [Reg Add dst scratchStart] else [Reg Mov dst scratchStart; Reg Add dst scalar])
  ++ [Imm Add dst sizeBytes; JReg JGT dst scratchEnd failLabel; LoadMem dst dst (i16 (- sizeBytes)) size].

Definition emitFieldLoadTo (dst : Z) (anchor : layerAnchor) (fieldOff : Z) (size : Size_) (failLabel : bytes) : list Instruction :=
  if WriteBack anchor && (fieldOff =? WriteBackOff anchor) && bool_decide (size = Byte)
  then [LoadMem dst RFP (WriteBackSlot anchor) DWord]
  else
    let sizeBytes := i32 (Sizeof size) in
    if UseSlot anchor then
      [LoadMem dst RFP (SlotOff anchor) DWord] ++ foldOffsetIntoScalar dst dst (i32 fieldOff) failLabel
      ++ boundedScalarLoad dst R0 dst R1 size failLabel
    else if UseR4 anchor then
      foldOffsetIntoScalar dst offsetBase (i32 fieldOff) failLabel ++ boundedScalarLoad dst R0 dst R1 size failLabel
    else
      let totalOff := i32 (i32 (AbsOffset anchor + fieldOff) + sizeBytes) in
      [Reg Mov dst R0; Imm Add dst totalOff; JReg JGT dst R1 failLabel; LoadMem dst dst (i16 (- sizeBytes)) size].

Definition emitFieldLoad (anchor : layerAnchor) (fieldOff : Z) (size : Size_) : list Instruction :=
  emitFieldLoadTo R3 anchor fieldOff size dslReject.

Definition emitHeaderCount (dst : Z) (anchor : layerAnchor) (cnt : StackCountSpec) (failLabel : bytes) : list Instruction :=
  emitFieldLoadTo dst anchor (CountByteOff cnt) Byte failLabel
  ++ (if negb (Addend cnt =? 0) then [Imm Add dst (i32 (Addend cnt))] else []).

Definition emitDynamicAuxByteLoad (slot byteOff : Z) (size : Size_) (failLabel : bytes) : list Instruction :=
  [LoadMem R3 RFP slot DWord; JImm JEq R3 dynamicAuxSentinel failLabel]
  ++ foldOffsetIntoScalar R5 R3 (i32 byteOff) failLabel
  ++ boundedScalarLoad R3 R0 R5 R1 size failLabel.

Definition emitAuxGating (g : option AuxGating) (base : layerAnchor) (failLabel : bytes) : list Instruction :=
  match g with
  | None => []
  | Some g =>
      emitFieldLoad base (GateByteOff g) Byte ++ [Imm And R3 (i32 (GateMask g))]
      ++ match GateOp g with
         | GatingNe => [JImm JEq R3 (i32 (GateValue g)) failLabel]
         | GatingEq => [JImm JNE R3 (i32 (GateValue g)) failLabel]
         end
  end.

(** ** Where a field is *)

Definition findFieldBitOffset (spec : ProtocolSpec) (name : string) : result cerr (Z * Z) :=
  match BitOffsetIn (Fields spec) name with
  | None => cerrorf "codegen: field %s.%s not found" [AStr (SpecName spec); AStr name]
  | Some r => Ok r
  end.

Definition findFieldByteOffset (spec : ProtocolSpec) (name : string) : result cerr (Z * Z) :=
  let? (bitOff, bits) := findFieldBitOffset spec name in
  if negb (bitOff mod 8 =? 0)
  then notImplemented "%w: field %s.%s starts at bit %d (not byte-aligned)" [AStr (SpecName spec); AStr name; AInt bitOff]
  else if negb (bits mod 8 =? 0)
  then notImplemented "%w: field %s.%s is %d bits (not byte-sized)" [AStr (SpecName spec); AStr name; AInt bits]
  else if 8 <? bits / 8
  then notImplemented "%w: field %s.%s is %d bytes (max 8)" [AStr (SpecName spec); AStr name; AInt (bits / 8)]
  else Ok (bitOff / 8, bits / 8).

Definition findFieldByteOffset128 (spec : ProtocolSpec) (name : string) : result cerr (Z * Z) :=
  let? (bitOff, bits) := findFieldBitOffset spec name in
  if negb (bitOff mod 8 =? 0)
  then notImplemented "%w: field %s.%s starts at bit %d (not byte-aligned)" [AStr (SpecName spec); AStr name; AInt bitOff]
  else if negb (bits =? 128)
  then notImplemented "%w: bit<128> path called with %d-bit field %s.%s" [AInt bits; AStr (SpecName spec); AStr name]
  else Ok (bitOff / 8, bits / 8).

(** 0 when no load covers [cover] bytes. *)
Definition nextLDXSize (cover : Z) : Z :=
  if cover <=? 1 then 1 else if cover <=? 2 then 2 else if cover <=? 4 then 4 else if cover <=? 8 then 8 else 0.

Definition subByteWindow (bitOff width : Z) : option (Z * Z) :=
  if width <=? 0 then None
  else if (bitOff mod 8 =? 0) && (width mod 8 =? 0) then None
  else
    let loadBytes := nextLDXSize ((bitOff mod 8 + width + 7) / 8) in
    if loadBytes =? 0 then None else Some (bitOff / 8, loadBytes).

(** The field and the header of a primary reference that names both. *)
Definition primary (ref : FieldRef) : option (Field * ProtocolSpec) :=
  match RefField ref, Spec (RefLayer ref) with Some fd, Some spec => Some (fd, spec) | _, _ => None end.

Definition fieldIntraByteBit (ref : FieldRef) : Z :=
  match Aux ref with
  | Some a => FieldBitOff a mod 8
  | None =>
      match primary ref with
      | None => 0
      | Some (fd, spec) => match BitOffsetIn (Fields spec) (Name fd) with Some (bitOff, _) => bitOff mod 8 | None => 0 end
      end
  end.

(** The bits of slice [s] of [ref], from the field's first byte. *)
Definition sliceBits (ref : FieldRef) (s : FieldSlice) : Z * Z :=
  let o := fieldIntraByteBit ref in (Lo s + o, Hi s + o).

Definition bareSubByteField (ref : FieldRef) : option (Z * Z) :=
  match Slice ref with
  | Some _ => None
  | None =>
      let unclean '(bitOff, width) := if negb (bitOff mod 8 =? 0) || negb (width mod 8 =? 0) then Some (bitOff, width) else None in
      match Aux ref with
      | Some a => unclean (FieldBitOff a, FieldBitWidth a)
      | None =>
          match primary ref with
          | None => None
          | Some (fd, spec) => match findFieldBitOffset spec (Name fd) with Ok r => unclean r | Err _ => None end
          end
      end
  end.

Definition sliceSplitWindow : Z := 9.

Definition with_slice (ref : FieldRef) (s : option FieldSlice) : FieldRef := mkFieldRef (RefLayer ref) (RefField ref) (Aux ref) s.

Definition splitBareField (ref : FieldRef) : FieldRef :=
  match bareSubByteField ref with
  | Some (bitOff, w) =>
      if (64 <? w) || negb ((bitOff mod 8 + w + 7) / 8 =? sliceSplitWindow) then ref else with_slice ref (Some (mkFieldSlice 0 w))
  | None => ref
  end.

Definition fieldIsSubByte (ref : FieldRef) : bool :=
  match bareSubByteField ref with
  | Some (bitOff, width) => is_Some_b (subByteWindow bitOff width)
  | None => false
  end.

Definition fieldNeedsNarrowing (ref : FieldRef) : bool :=
  let ref := splitBareField ref in is_Some_b (Slice ref) || fieldIsSubByte ref.

Definition sliceWindowStart (ref : FieldRef) (s : FieldSlice) (loadBytes : Z) : Z :=
  let lo := fst (sliceBits ref s) in
  let start := lo / 8 in
  let fieldBits := match Aux ref, RefField ref with Some a, _ => FieldBitWidth a | None, Some fd => Bits fd | None, None => 0 end in
  if (fieldIntraByteBit ref =? 0) && (fieldBits mod 8 =? 0) && (loadBytes <=? fieldBits / 8) && (fieldBits / 8 <? start + loadBytes)
  then fieldBits / 8 - loadBytes else start.

Definition applySliceToOffset (ref : FieldRef) (off size : Z) : result cerr (Z * Z) :=
  match Slice ref with
  | None => Ok (off, size)
  | Some s =>
      let '(lo, hi) := sliceBits ref s in
      let cover := (hi + 7) / 8 - lo / 8 in
      let loadBytes := nextLDXSize cover in
      let loadBytes := if (loadBytes =? 0) && (cover =? sliceSplitWindow) && (FieldSlice_Bits (Some s) <=? 64) then sliceSplitWindow else loadBytes in
      if loadBytes =? 0
      then notImplemented "%w: bit-slice [%d:%d] needs a %d-byte window; a slice reads at most 64 bits over at most %d bytes" [AInt (Lo s); AInt (Hi s); AInt cover; AInt sliceSplitWindow]
      else Ok (off + sliceWindowStart ref s loadBytes, loadBytes)
  end.

Definition applyExactSlice (ref : FieldRef) (off size : Z) : result cerr (Z * Z) :=
  match Slice ref with
  | None => Ok (off, size)
  | Some s =>
      let '(lo, hi) := sliceBits ref s in
      if negb (lo mod 8 =? 0) || negb (hi mod 8 =? 0)
      then notImplemented "%w: bit-slice [%d:%d] compared with a network literal must start and end on a byte boundary" [AInt (Lo s); AInt (Hi s)]
      else Ok (off + lo / 8, FieldSlice_Bits (Some s) / 8)
  end.

Definition sliceSplitsLoad (ref : FieldRef) : bool :=
  let ref := splitBareField ref in
  match Slice ref with
  | None => false
  | Some s =>
      if 64 <? FieldSlice_Bits (Some s) then false
      else let '(lo, hi) := sliceBits ref s in (hi + 7) / 8 - lo / 8 =? sliceSplitWindow
  end.

(** Shift and mask, both 0 when the load is the value. *)
Definition slicePostAdjust (ref : FieldRef) (loadBytes : Z) : Z * Z :=
  let ref := splitBareField ref in
  let loadBits := loadBytes * 8 in
  let adjust hiInLoad width := (loadBits - hiInLoad, if 64 <=? width then u64 (-1) else Z.shiftl 1 width - 1) in
  match Slice ref with
  | Some s =>
      let byteStart := sliceWindowStart ref s loadBytes in
      let '(lo, hi) := sliceBits ref s in
      let hiInLoad := hi - byteStart * 8 in
      let width := FieldSlice_Bits (Some s) in
      if (hiInLoad =? loadBits) && (lo =? byteStart * 8) && (width =? loadBits) then (0, 0) else adjust hiInLoad width
  | None =>
      match bareSubByteField ref with
      | None => (0, 0)
      | Some (bitOff, w) => adjust (bitOff mod 8 + w) w
      end
  end.

Definition emitSliceShiftMask (f : FieldRef) (loadBytes : Z) : list Instruction :=
  let '(shift, mask) := slicePostAdjust f loadBytes in
  if (shift =? 0) && (mask =? 0) then []
  else
    (if 0 <? shift then [Imm RSh R3 (i32 shift)] else [])
    ++ (if negb (mask =? 0) && negb (mask =? u64 (-1)) then
          if mask <=? MaxInt32 then [Imm And R3 (i32 mask)] else loadConst R5 mask ++ [Reg And R3 R5]
        else []).

(** ** Auxiliary headers *)

(** [dynamicOffsetAuxEntryOff]: an entry of a stack of an option, from the
    option. *)
Definition dynamicOffsetAuxEntryOff (f : FieldRef) : result cerr Z :=
  match Aux f with
  | None => Err CPanic
  | Some aux =>
      if negb (is_Some_b (OwnerOption aux)) then Ok 0
      else
        match Ir.Stack aux with
        | None => notImplemented "%w: owner-bound aux %q has no stack index — predicate codegen needs Static/Dynamic/Iterator" [AStr (OutParam aux)]
        | Some st =>
            if negb (IsStatic st) then notImplemented "%w: owner-bound aux %q with non-static index is not yet supported" [AStr (OutParam aux)]
            else Ok (OffsetAfterOwner aux + Static st * HeaderSize aux)
        end
  end.

Section Load.
Context `{AuxVocab}.

(** [dynamicAuxLayoutOf] is not nil. *)
Definition dynamicAuxLayoutOf (f : FieldRef) : bool :=
  match Aux f, Spec (RefLayer f) with
  | Some aux, Some _ => is_Some_b (OwnerOption aux) || IsDynamicEligible (RefLayer f) (OutParam aux)
  | _, _ => false
  end.

(** Layer, aux and field names for a message; nil pointers are caught
    before. *)
Definition aux_names (ref : FieldRef) : list fmtarg :=
  [AStr (match Spec (RefLayer ref) with Some sp => SpecName sp | None => "" end);
   AStr (match Aux ref with Some a => OutParam a | None => "" end);
   AStr (match RefField ref with Some fd => Name fd | None => "" end)].

Definition auxFieldWindow (ref : FieldRef) : result cerr (Z * Z) :=
  let ref := splitBareField ref in
  match Aux ref with
  | None => Err CPanic
  | Some aux =>
      let? (start, size) :=
        (if is_Some_b (Slice ref) then applySliceToOffset ref (FieldBitOff aux / 8) 0
         else if (FieldBitOff aux mod 8 =? 0) && (FieldBitWidth aux mod 8 =? 0) then
           if 8 <? FieldBitWidth aux / 8 then notImplemented "%w: aux field %s.%s.%s is %d bytes (max 8)" (aux_names ref ++ [AInt (FieldBitWidth aux / 8)])
           else Ok (FieldBitOff aux / 8, FieldBitWidth aux / 8)
         else
           match subByteWindow (FieldBitOff aux) (FieldBitWidth aux) with
           | Some r => Ok r
           | None => notImplemented "%w: aux field %s.%s.%s (bit-off %d, %d bits) needs a window over 8 bytes" (aux_names ref ++ [AInt (FieldBitOff aux); AInt (FieldBitWidth aux)])
           end) in
      if negb (is_Some_b (Slice ref)) && (FieldBitOff aux mod 8 =? 0) && (FieldBitWidth aux mod 8 =? 0) then Ok (start, size)
      else if negb (fieldIntraByteBit ref =? 0) || negb (FieldBitWidth aux mod 8 =? 0) then
        let end_ := start + size in
        if (0 <? HeaderSize aux) && (HeaderSize aux <? end_)
        then notImplemented "%w: aux field %s.%s.%s is read through bytes [%d,%d), past its %d-byte entry" (aux_names ref ++ [AInt start; AInt end_; AInt (HeaderSize aux)])
        else Ok (start, size)
      else Ok (start, size)
  end.

Definition fieldRefByteOffset (ref : FieldRef) : result cerr (Z * Z) :=
  let ref := splitBareField ref in
  match Aux ref with
  | None =>
      match primary ref with
      | None => Err CPanic
      | Some (fd, spec) =>
          let? (off, size) :=
            (match findFieldByteOffset spec (Name fd) with
             | Ok r => Ok r
             | Err err =>
                 let? (bitOff, bits) := findFieldBitOffset spec (Name fd) in
                 match Slice ref with
                 | Some s => Ok (bitOff / 8, FieldSlice_Bits (Some s) / 8)
                 | None => match subByteWindow bitOff bits with Some r => Ok r | None => Err err end
                 end
             end) in
          applySliceToOffset ref off size
      end
  | Some aux =>
      let? (start, size) := auxFieldWindow ref in
      let off := OffsetInLayer aux + start in
      match Ir.Stack aux with
      | None => Ok (off, size)
      | Some st =>
          if needsEntryAddress ref
          then notImplemented "%w: %s.%s entry has no constant offset (runtime index or variable-length entries); use emitStackEntryAddress" (aux_names ref)
          else Ok (off + Static st * HeaderSize aux, size)
      end
  end.

Definition scalarFieldWindow (ref : FieldRef) : result cerr (Z * Z) :=
  if dynamicAuxLayoutOf ref then
    let? base := dynamicOffsetAuxEntryOff ref in
    let? (start, size) := auxFieldWindow ref in
    Ok (base + start, size)
  else if needsEntryAddress ref then auxFieldWindow ref
  else fieldRefByteOffset ref.

(** ** Loading a field *)

Record fieldLoadSite := mkSite {
  gate : layerAnchor;
  load_ : layerAnchor;
  entryAddr : FieldRef -> layerAnchor -> bytes -> result cerr (list Instruction);
  optionSlot : FieldRef -> option Z;
  fail_ : bytes
}.

Definition asmSizeFor (bytes : Z) : result cerr Size_ :=
  if bytes =? 1 then Ok Byte else if bytes =? 2 then Ok Half else if bytes =? 4 then Ok Word else if bytes =? 8 then Ok DWord
  else notImplemented "%w: field size %d bytes not supported" [AInt bytes].

Definition emitSplitSliceLoad (ref : FieldRef) (site : fieldLoadSite) (off : Z) : result cerr (list Instruction * Z * Size_) :=
  if dynamicAuxLayoutOf ref
  then notImplemented "%w: bit-slice [%d:%d] of option field %s.%s straddles 9 bytes" (aux_names ref)
  else if needsEntryAddress ref then
    let? addr := entryAddr site ref (gate site) (fail_ site) in
    Ok (addr ++ [LoadMem R2 R5 (i16 (off + 8)) Byte; LoadMem R3 R5 (i16 off) DWord], 8, DWord)
  else
    let gating := match Aux ref with Some a => emitAuxGating (Gating a) (gate site) (fail_ site) | None => [] end in
    Ok (gating ++ emitFieldLoadTo R2 (load_ site) (off + 8) Byte dslReject ++ emitFieldLoad (load_ site) off DWord, 8, DWord).

Definition emitScalarFieldLoad (ref : FieldRef) (site : fieldLoadSite) : result cerr (list Instruction * Z * Size_) :=
  let ref := splitBareField ref in
  let? (off, bytes) := scalarFieldWindow ref in
  if bytes =? sliceSplitWindow then emitSplitSliceLoad ref site off
  else
    let? size := asmSizeFor bytes in
    if dynamicAuxLayoutOf ref then
      match optionSlot site ref with
      | None => cerrorf "codegen: option %s.%s not in the demand set" (aux_names ref)
      | Some slot => Ok (emitDynamicAuxByteLoad slot off size (fail_ site), bytes, size)
      end
    else if needsEntryAddress ref then
      let? addr := entryAddr site ref (gate site) (fail_ site) in
      Ok (addr ++ [LoadMem R3 R5 (i16 off) size], bytes, size)
    else
      let gating := match Aux ref with Some a => emitAuxGating (Gating a) (gate site) (fail_ site) | None => [] end in
      Ok (gating ++ emitFieldLoad (load_ site) off size, bytes, size).

Definition emitFieldValue (ref : FieldRef) (bytes : Z) (size : Size_) : list Instruction :=
  let ref := splitBareField ref in
  match (if sliceSplitsLoad ref then Slice ref else None) with
  | Some sl =>
      let s := i32 (fst (sliceBits ref sl) mod 8) in
      let w := FieldSlice_Bits (Some sl) in
      [HostToBE R3 DWord; Imm LSh R3 s; Imm RSh R2 (8 - s); Reg Or R3 R2] ++ (if w <? 64 then [Imm RSh R3 (i32 (64 - w))] else [])
  | None => (if 1 <? bytes then [HostToBE R3 size] else []) ++ emitSliceShiftMask ref bytes
  end.

(** [genArithFieldLoad]: the code and the value of a scalar field of a where
    clause at [site]. *)
Definition scalarFieldValue (f : FieldRef) (site : fieldLoadSite) : result cerr (list Instruction) :=
  let? (insns, bytes, size) := emitScalarFieldLoad f site in Ok (insns ++ emitFieldValue f bytes size).

End Load.

(** * The fields of a where clause

    The field loads the arithmetic of a where clause uses, as code that
    reads a packet: [where_fields] is the instance of [FieldCode]. Which
    slot an option's position is in, where a layer starts and how an entry
    behind variable-length ones is found are the stack plan's and the
    vocabulary's part: the class [WherePlan]. *)

Class WherePlan := {
  layerAnchorFor : LayerInstance -> result cerr layerAnchor;
  optionSlotFor : FieldRef -> option Z;
  stackEntryAddress : FieldRef -> layerAnchor -> bytes -> result cerr (list Instruction);
  (* the display name of a reference in a message *)
  refName : FieldRef -> string
}.

Definition auxStaticByteOffset (aux : AuxRef) : result cerr Z :=
  if negb (FieldBitOff aux mod 8 =? 0)
  then notImplemented "%w: aux field %s (%s) starts at bit %d (not byte-aligned)" [AStr (OutParam aux); AStr (HeaderName aux); AInt (FieldBitOff aux)]
  else
    let off := OffsetInLayer aux + FieldBitOff aux / 8 in
    match Ir.Stack aux with
    | None => Ok off
    | Some st =>
        if negb (IsStatic st) then notImplemented "%w: dynamic aux stack index needs a runtime offset (use a constant index)" []
        else Ok (off + Static st * HeaderSize aux)
    end.

Definition auxEntryFieldStart (ref : FieldRef) : result cerr Z :=
  match Aux ref with
  | None => Err CPanic
  | Some aux =>
      if negb (FieldBitOff aux mod 8 =? 0) || negb (FieldBitWidth aux mod 8 =? 0)
      then notImplemented "%w: aux field %s.%s.%s not byte-aligned" (aux_names ref)
      else Ok (FieldBitOff aux / 8 + match Slice ref with Some s => Lo s / 8 | None => 0 end)
  end.

Section Load.
Context `{AuxVocab} `{WherePlan}.

Definition dynamicOffsetAuxByteOff (f : FieldRef) : result cerr Z :=
  match Aux f with
  | None => Err CPanic
  | Some aux =>
      if negb (FieldBitOff aux mod 8 =? 0) || negb (FieldBitWidth aux mod 8 =? 0)
      then notImplemented "%w: dynamic-offset aux field %s.%s not byte-aligned (bit-off %d, %d bits)" (aux_names f ++ [AInt (FieldBitOff aux); AInt (FieldBitWidth aux)])
      else let? base := dynamicOffsetAuxEntryOff f in Ok (base + FieldBitOff aux / 8)
  end.

(** [whereCtx.genArithFieldLoad] *)
Definition whereFieldLoad (f : FieldRef) (failLabel : bytes) : result cerr (list Instruction) :=
  let? anchor := layerAnchorFor (RefLayer f) in
  scalarFieldValue f (mkSite anchor anchor stackEntryAddress optionSlotFor failLabel).

(** The prelude and the two loads of [genArithField128Load] and
    [genArithAuxField128Load], whose width check is [genArithField128Load]'s. *)
Definition whereField128 (f : FieldRef) (failLabel : bytes) : result cerr (list Instruction * (Z -> list Instruction)) :=
  match Aux f with
  | None =>
      let? anchor := layerAnchorFor (RefLayer f) in
      match primary f with
      | None => Err CPanic
      | Some (fd, spec) =>
          let? (byteOff, _) := findFieldByteOffset128 spec (Name fd) in
          Ok ([], fun delta => emitFieldLoad anchor (byteOff + delta) DWord)
      end
  | Some aux =>
      if negb (FieldBitWidth aux =? 128) then cerrorf "codegen: bit<128> aux path called with %d-bit field %s.%s.%s" (AInt (FieldBitWidth aux) :: aux_names f)
      else
        match optionSlotFor f with
        | Some slot =>
            let? byteOff := dynamicOffsetAuxByteOff f in
            Ok ([], fun delta => emitDynamicAuxByteLoad slot (byteOff + delta) DWord failLabel)
        | None =>
            let? anchor := layerAnchorFor (RefLayer f) in
            if needsEntryAddress f then
              let? fieldByteOff := auxEntryFieldStart f in
              let? addr := stackEntryAddress f anchor failLabel in
              Ok (addr, fun delta => [LoadMem R3 R5 (i16 (fieldByteOff + delta)) DWord])
            else
              let? fieldOff := auxStaticByteOffset aux in
              Ok (emitAuxGating (Gating aux) anchor failLabel, fun delta => emitFieldLoad anchor (fieldOff + delta) DWord)
        end
  end.

#[export] Instance where_fields : FieldCode := {
  genArithFieldLoad := whereFieldLoad;
  field128 := whereField128;
  optionFieldName := refName
}.
End Load.
