(* ===== verification/FieldLoadFacts.v ===== *)
(** * FieldLoadFacts: the generated loads read the field's bits

    A packet between R0 and R1; the value of a field is given by bit
    positions in the packet read as one big-endian number ([bits_at]). The
    bounded loads read the window that covers a field and reject when it is
    past the packet, and the shift and mask that follow leave exactly the
    field's bits. *)

From Stdlib Require Import ZArith Lia Bool Ascii String List.
From stdpp Require Import base list strings numbers option gmap.
From S2P Require Import Prelude GoStd GoBytes Ast Ir HookAbi Asm Ebpf EbpfFacts Codegen WhereArith WhereArithFacts FieldLoad.
Local Open Scope Z_scope.
Local Open Scope go_scope.

(** ** Bytes as numbers *)

(** Bytes in network order. *)
Definition be (l : list Z) : Z := unle (rev l).

Lemma unle_app a b : unle (a ++ b) = unle a + 256 ^ len a * unle b.
Proof.
  induction a as [|x a IH]; [unfold len; cbn [app length]; change (256 ^ Z.of_nat 0) with 1; cbn [unle fold_right]; lia|].
  cbn [app unle fold_right]. fold (unle (a ++ b)) (unle a). rewrite IH. unfold len. cbn [length].
  rewrite Nat2Z.inj_succ, Z.pow_succ_r by lia. lia.
Qed.

Lemma be_app a b : be (a ++ b) = be a * 256 ^ len b + be b.
Proof. unfold be. rewrite rev_app_distr, unle_app. unfold len. rewrite length_rev. lia. Qed.

Lemma be_range l : Forall byte l -> 0 <= be l < 256 ^ len l.
Proof. intros Hl. unfold be. replace (len l) with (len (rev l)) by (unfold len; now rewrite length_rev). now apply unle_range, Forall_rev. Qed.

Lemma le_unle l : Forall byte l -> le (length l) (unle l) = l.
Proof.
  induction 1 as [|x l Hx _ IH]; [reflexivity|]. cbn [length le unle fold_right]. fold (unle l). unfold byte in Hx.
  replace ((x + 256 * unle l) mod 256) with x by (apply (Z.mod_unique_pos _ _ (unle l)); lia).
  replace ((x + 256 * unle l) / 256) with (unle l) by (apply (Z.div_unique_pos _ _ _ x); lia). now rewrite IH.
Qed.

Lemma to_be_unle l : Forall byte l -> to_be (length l) (unle l) = be l.
Proof. intros Hl. unfold to_be, be. now rewrite le_unle. Qed.

(** [n] bytes of the packet at [p]. *)
Definition window (P : list Z) (p : Z) (n : nat) : list Z := take n (drop (Z.to_nat p) P).

(** [width] bits of the packet from bit [pos]. *)
Definition bits_at (P : list Z) (pos width : Z) : Z := (be P / 2 ^ (8 * len P - (pos + width))) mod 2 ^ width.

Lemma pow_256 n : 0 <= n -> 256 ^ n = 2 ^ (8 * n).
Proof. intros Hn. change 256 with (2 ^ 8). rewrite <- Z.pow_mul_r by lia. reflexivity. Qed.

Lemma window_length P p n : 0 <= p -> p + Z.of_nat n <= len P -> length (window P p n) = n.
Proof. unfold window, len. intros Hp Hn. rewrite length_take, length_drop. lia. Qed.

Lemma be_window P p n :
  Forall byte P -> 0 <= p -> p + Z.of_nat n <= len P -> be (window P p n) = bits_at P (8 * p) (8 * Z.of_nat n).
Proof.
  intros HP Hp Hn. pose proof (window_length P p n Hp Hn) as Hw. unfold window, bits_at in *.
  assert (HP2 : P = take (Z.to_nat p) P ++ take n (drop (Z.to_nat p) P) ++ drop n (drop (Z.to_nat p) P)) by now rewrite !take_drop.
  set (a := take (Z.to_nat p) P) in *. set (w := take n (drop (Z.to_nat p) P)) in *. set (c := drop n (drop (Z.to_nat p) P)) in *.
  assert (Ha : len a = p) by (unfold len, a; rewrite length_take; unfold len in Hn; lia).
  assert (Hc : len c = len P - (p + Z.of_nat n)) by (unfold len, c in *; rewrite !length_drop; lia).
  assert (Hb : Forall byte w /\ Forall byte c) by (rewrite HP2, !Forall_app in HP; tauto). destruct Hb as [Hbw Hbc].
  assert (Hlw : len w = Z.of_nat n) by (unfold len; now rewrite Hw).
  assert (HbeP : be P = (be a * 256 ^ Z.of_nat n + be w) * 256 ^ len c + be c).
  { rewrite HP2 at 1. rewrite !be_app. replace (len (w ++ c)) with (Z.of_nat n + len c) by (unfold len in *; rewrite length_app; lia).
    rewrite Z.pow_add_r by lia. lia. }
  rewrite HbeP. replace (8 * len P - (8 * p + 8 * Z.of_nat n)) with (8 * len c) by lia. rewrite <- !pow_256 by lia.
  pose proof (be_range c Hbc). pose proof (be_range w Hbw) as Hrw. rewrite Hlw in Hrw.
  rewrite Z.div_add_l by lia. rewrite Z.div_small, Z.add_0_r by lia.
  rewrite Z.add_comm, Z.mod_add by lia. symmetry. apply Z.mod_small. lia.
Qed.

(** Bits inside a window. *)
Lemma bits_of_bits P pos w o n :
  0 <= pos -> 0 <= w -> 0 <= o -> o <= pos -> pos + w <= o + n -> o + n <= 8 * len P ->
  (bits_at P o n / 2 ^ (o + n - (pos + w))) mod 2 ^ w = bits_at P pos w.
Proof.
  intros Hp Hw Ho Hop Hn HP. unfold bits_at. set (s := o + n - (pos + w)).
  rewrite <- !Z.shiftr_div_pow2 by lia. apply Z.bits_inj'. intros i Hi.
  rewrite !Z.testbit_mod_pow2 by lia. destruct (Z.ltb_spec i w); cbn [andb]; [|reflexivity].
  rewrite Z.shiftr_spec by lia. rewrite Z.testbit_mod_pow2 by lia. rewrite (proj2 (Z.ltb_lt (i + s) n)) by lia. cbn [andb].
  rewrite !Z.shiftr_spec by lia. f_equal. lia.
Qed.

Lemma bits_range P pos w : 0 <= w -> 0 <= bits_at P pos w < 2 ^ w.
Proof. intros Hw. apply Z.mod_pos_bound. apply Z.pow_pos_nonneg; lia. Qed.

(** ** The packet *)

(** A register is written, nothing else. *)
Definition only (dst : Z) (s t : st) : Prop := t = s \/ exists v, t = setr dst v s.

Definition scratch_reg (dst : Z) : Prop := dst = R2 \/ dst = R3 \/ dst = R5.

Lemma only_upto Q dst s t : scratch_reg dst -> only dst s t -> upto Q s t.
Proof. intros Hd [->|[v ->]]; [apply upto_refl|now apply upto_setr]. Qed.

(** A load at [p] of [n] bytes, of which [lim] can be read; [fail] takes it
    past them. *)
Definition load_at (P : list Z) (lim p : Z) (n : nat) : seen Z :=
  if p + Z.of_nat n <=? lim then Present (unle (window P p n)) else Missing.

Definition size_bytes (size : Size_) : Prop := size = Byte \/ size = Half \/ size = Word \/ size = DWord.

Lemma i16_size size : size_bytes size -> i32 (Sizeof size) = Sizeof size /\ i16 (- Sizeof size) = - Sizeof size /\ 0 < Sizeof size <= 8.
Proof. intros [->|[->|[->| ->]]]; repeat split; try reflexivity; easy. Qed.

Lemma size_nat size : size_bytes size -> Z.of_nat (Z.to_nat (Sizeof size)) = Sizeof size.
Proof. intros Hs. rewrite Z2Nat.id; [reflexivity|]. destruct (i16_size size Hs) as (_ & _ & ?). lia. Qed.

Section Packet.
Context `{HKern : Kernel} (fd : Z) (key : list Z) (base : Z) (P : list Z).

Definition at_ (p : Z) : val := Ptr (ValueOf fd key) (base + p).

Record packet (s : st) : Prop := mkPacket {
  pk_start : getr R0 s = Some (at_ 0);
  pk_end : getr R1 s = Some (at_ (len P));
  pk_bytes : exists before after, value fd key s = Some (before ++ P ++ after) /\ len before = base
}.

Lemma packet_upto Q s s' : packet s -> upto Q s s' -> packet s'.
Proof.
  intros [Hs He Hb] [R _ _ Hr]. split.
  - rewrite R; [exact Hs|discriminate..].
  - rewrite R; [exact He|discriminate..].
  - unfold value. unfold rest in Hr. injection Hr as _ _ Hm _ _ _. now rewrite Hm.
Qed.


Lemma packet_setr dst v s : scratch_reg dst -> packet s -> packet (setr dst v s).
Proof. intros Hd Hp. apply (packet_upto (fun _ => False) s); [exact Hp|]. now apply upto_setr. Qed.

Lemma packet_load s p n : packet s -> 0 <= p -> p + Z.of_nat n <= len P -> load (at_ p) n s = Some (Num (unle (window P p n))).
Proof.
  intros [_ _ (before & after & Hv & Hb)] Hp Hn. unfold at_. apply (load_value _ _ _ _ _ _ _ Hv). unfold cell_at, len in *.
  rewrite (proj2 (Z.leb_le _ _)) by lia. unfold rd. rewrite !length_app. rewrite (proj2 (Nat.leb_le _ _)) by lia. f_equal. f_equal. unfold window.
  replace (Z.to_nat (base + p)) with (length before + Z.to_nat p)%nat by lia. rewrite <- drop_drop, drop_app_length.
  rewrite drop_app_le by lia. rewrite take_app_le; [reflexivity|]. rewrite length_drop. lia.
Qed.

(** ** The loads *)

Lemma absolute_load dst off size fail s :
  packet s -> scratch_reg dst -> size_bytes size -> has_text fail = true -> 0 <= off < 2 ^ 31 - 8 ->
  runs (only dst s) (fun raw t => t = setr dst (Num raw) s)
    [Reg Mov dst R0; Imm Add dst (i32 (off + Sizeof size)); JReg JGT dst R1 fail; LoadMem dst dst (i16 (- Sizeof size)) size] fail s
    (load_at P (len P) off (Z.to_nat (Sizeof size))).
Proof.
  intros Hp Hd Hs Hf Ho. destruct (i16_size size Hs) as (_ & E16 & Hn). rewrite i32_small, E16 by lia.
  assert (Hr : dst <> RFP /\ dst <> R0 /\ dst <> R1) by (destruct Hd as [->|[->| ->]]; repeat split; discriminate). destruct Hr as (Hfp & H0 & H1).
  pose proof (pk_start _ Hp) as G0. pose proof (pk_end _ Hp) as G1. unfold load_at. rewrite size_nat by exact Hs.
  assert (Hrun : forall l, exec (Reg Mov dst R0 :: Imm Add dst (off + Sizeof size) :: JReg JGT dst R1 fail :: l) None s =
    let t := setr dst (at_ (off + Sizeof size)) s in if len P <? off + Sizeof size then exec l (Some fail) t else exec l None t).
  { intros l. erewrite exec_Mov_Reg; [|exact Hfp|exact G0]. erewrite exec_Add_ptr; [|exact Hfp|unfold two63; lia|apply getr_same; exact Hfp].
    rewrite setr_setr, Z.add_0_r. cbv zeta. fold (at_ (off + Sizeof size)).
    erewrite exec_JReg; [reflexivity|apply getr_same; exact Hfp|rewrite getr_other by congruence; exact G1| |exact Hf].
    unfold cmp_val, at_. rewrite bool_decide_true by reflexivity. cbn. f_equal. destruct (Z.ltb_spec (len P) (off + Sizeof size)); [apply Z.ltb_lt|apply Z.ltb_ge]; lia. }
  destruct (Z.leb_spec (off + Sizeof size) (len P)) as [Hle|Hgt]; cbn [runs]; rewrite Hrun; cbv zeta.
  - rewrite (proj2 (Z.ltb_ge _ _)) by lia. exists (setr dst (Num (unle (window P off (Z.to_nat (Sizeof size))))) s). split; [|split; [right; now eexists|reflexivity]].
    erewrite exec_LoadMem; [rewrite setr_setr; reflexivity|exact Hfp|apply getr_same; exact Hfp|].
    replace (add_off (at_ (off + Sizeof size)) (- Sizeof size)) with (at_ off) by (unfold at_, add_off; f_equal; lia).
    apply packet_load; [now apply packet_setr|lia|rewrite size_nat by exact Hs; exact Hle].
  - rewrite (proj2 (Z.ltb_lt _ _)) by lia. eexists. split; [|right; now eexists]. rewrite exec_pass by (try exact Hf; reflexivity). reflexivity.
Qed.

Definition bound : Z := Z.min (len P) ScratchBufSize.

Lemma bounded_load dst scalar size fail s o :
  packet s -> scratch_reg dst -> size_bytes size -> has_text fail = true -> scalar <> RFP -> getr scalar s = Some (Num o) -> 0 <= o ->
  runs (only dst s) (fun raw t => t = setr dst (Num raw) s) (boundedScalarLoad dst R0 scalar R1 size fail) fail s
    (load_at P bound o (Z.to_nat (Sizeof size))).
Proof.
  intros Hp Hd Hs Hf Hsc Go Ho. destruct (i16_size size Hs) as (E32 & E16 & Hn). unfold boundedScalarLoad, load_at, bound, ScratchBufSize. rewrite E32, E16, size_nat by exact Hs.
  assert (Hr : dst <> RFP /\ dst <> R0 /\ dst <> R1) by (destruct Hd as [->|[->| ->]]; repeat split; discriminate). destruct Hr as (Hfp & H0 & H1).
  pose proof (pk_start _ Hp) as G0. pose proof (pk_end _ Hp) as G1. cbn [app].
  assert (Hj : forall l, exec (JImm JGT scalar (512 - Sizeof size) fail :: l) None s = if 512 - Sizeof size <? o then exec l (Some fail) s else exec l None s).
  { intros l. erewrite exec_JImm; [|exact Go| |exact Hf]; [reflexivity|]. rewrite u64_small by (unfold in_u64, two64; lia). reflexivity. }
  assert (Hskip : forall a b c : Instruction, Symbol a = [] -> Symbol b = [] -> Symbol c = [] -> forall pre t, (forall i, i ∈ pre -> Symbol i = []) ->
    exec (pre ++ [a; b; c]) (Some fail) t = Goto fail t).
  { intros a b c Ha Hb Hc pre t Hpre. apply exec_skip. unfold symbols. rewrite map_app, elem_of_app. cbn [map]. rewrite Ha, Hb, Hc.
    intros [Hin|Hin]; [|repeat (apply elem_of_cons in Hin as [->|Hin]; [discriminate|]); now apply elem_of_nil in Hin].
    apply list_elem_of_fmap in Hin as (i & -> & Hin). rewrite (Hpre i Hin) in Hf. discriminate. }
  destruct (Z.ltb_spec (512 - Sizeof size) o) as [Hbig|Hsmall].
  { rewrite (proj2 (Z.leb_gt _ _)) by lia. exists s. split; [|now left]. cbn [runs]. rewrite Hj.
    apply Hskip; try reflexivity. intros i. destruct (dst =? scalar); rewrite ?elem_of_cons, elem_of_nil; intros Hi; deex; repeat destruct Hi as [->|Hi]; try reflexivity; easy. }
  assert (Hadd : forall l, exec ((if dst =? scalar then [Reg Add dst R0] else [Reg Mov dst R0; Reg Add dst scalar]) ++ l) None s = exec l None (setr dst (at_ o) s)).
  { intros l. assert (Hint : int64_of_u64 o = o) by (unfold int64_of_u64, two63; rewrite (proj2 (Z.ltb_lt _ _)) by lia; reflexivity).
    destruct (Z.eqb_spec dst scalar) as [<-|Hne]; cbn [app].
    - erewrite exec_Reg; [reflexivity|discriminate|discriminate|exact Hfp|exact Go|exact G0|]. cbv [alu_val add_off at_]. rewrite Hint. do 2 f_equal. lia.
    - erewrite exec_Mov_Reg; [|exact Hfp|exact G0]. erewrite exec_Reg; [rewrite setr_setr; reflexivity|discriminate|discriminate|exact Hfp|apply getr_same; exact Hfp|rewrite getr_other by congruence; exact Go|].
      cbv [alu_val add_off at_]. rewrite Hint. do 2 f_equal. lia. }
  assert (Hrun : forall l, exec (Imm Add dst (Sizeof size) :: JReg JGT dst R1 fail :: l) None (setr dst (at_ o) s) =
    let t := setr dst (at_ (o + Sizeof size)) s in if len P <? o + Sizeof size then exec l (Some fail) t else exec l None t).
  { intros l. erewrite exec_Add_ptr; [|exact Hfp|unfold two63; lia|apply getr_same; exact Hfp]. rewrite setr_setr, <- Z.add_assoc. cbv zeta. fold (at_ (o + Sizeof size)).
    erewrite exec_JReg; [reflexivity|apply getr_same; exact Hfp|rewrite getr_other by congruence; exact G1| |exact Hf].
    unfold cmp_val, at_. rewrite bool_decide_true by reflexivity. cbn. f_equal. destruct (Z.ltb_spec (len P) (o + Sizeof size)); [apply Z.ltb_lt|apply Z.ltb_ge]; lia. }
  destruct (Z.leb_spec (o + Sizeof size) (Z.min (len P) 512)) as [Hle|Hgt]; cbn [runs]; rewrite Hj, Hadd, Hrun; cbv zeta.
  - rewrite (proj2 (Z.ltb_ge _ _)) by lia. exists (setr dst (Num (unle (window P o (Z.to_nat (Sizeof size))))) s). split; [|split; [right; now eexists|reflexivity]].
    erewrite exec_LoadMem; [rewrite setr_setr; reflexivity|exact Hfp|apply getr_same; exact Hfp|].
    replace (add_off (at_ (o + Sizeof size)) (- Sizeof size)) with (at_ o) by (unfold at_, add_off; f_equal; lia).
    apply packet_load; [now apply packet_setr|lia|rewrite size_nat by exact Hs; lia].
  - rewrite (proj2 (Z.ltb_lt _ _)) by lia. eexists. split; [|right; now eexists]. rewrite exec_pass by (try exact Hf; reflexivity). reflexivity.
Qed.

Lemma setr_same r v s : r <> RFP -> getr r s = Some v -> setr r v s = s.
Proof.
  intros Hr Hg. unfold getr in Hg. apply Z.eqb_neq in Hr. rewrite Hr in Hg. destruct s. unfold setr, set_regs. cbn in *. f_equal. now apply insert_id.
Qed.

Lemma fold_offset dst src off fail s o l :
  0 <= off < 2 ^ 31 -> dst <> RFP -> getr src s = Some (Num o) -> in_u64 o ->
  exec (foldOffsetIntoScalar dst src off fail ++ l) None s = exec l None (setr dst (Num (u64 (o + off))) s).
Proof.
  intros Ho Hd Hg Hu. unfold foldOffsetIntoScalar. rewrite (proj2 (Z.ltb_ge off 0)) by lia. cbn [app].
  assert (Hu0 : u64 (o + 0) = o) by (rewrite Z.add_0_r; now apply u64_small).
  assert (Huo : u64 off = off) by (apply u64_small; unfold in_u64, two64; lia).
  destruct (Z.eqb_spec dst src) as [<-|Hn]; cbn [negb app].
  - destruct (Z.ltb_spec 0 off); cbn [app].
    + erewrite exec_Imm; [reflexivity|discriminate|discriminate|exact Hd|exact Hg|]. rewrite Huo. reflexivity.
    + replace off with 0 by lia. now rewrite Hu0, setr_same.
  - erewrite exec_Mov_Reg; [|exact Hd|exact Hg]. destruct (Z.ltb_spec 0 off); cbn [app].
    + erewrite exec_Imm; [rewrite setr_setr; reflexivity|discriminate|discriminate|exact Hd|apply getr_same; exact Hd|]. rewrite Huo. reflexivity.
    + replace off with 0 by lia. now rewrite Hu0.
Qed.

(** Where an anchor's layer starts, and the byte a walk wrote back. *)
Record anchored (a : layerAnchor) (o wb : Z) (s : st) : Prop := mkAnchored {
  an_u64 : in_u64 o;
  an_start : if UseSlot a then in_frame (SlotOff a) 8 = true /\ ldst (SlotOff a) 8 s = Some (Num o)
             else if UseR4 a then getr R4 s = Some (Num o) else o = AbsOffset a /\ o < 2 ^ 29;
  an_back : WriteBack a = true -> in_frame (WriteBackSlot a) 8 = true /\ ldst (WriteBackSlot a) 8 s = Some (Num wb)
}.

Definition runtime (a : layerAnchor) : bool := UseSlot a || UseR4 a.

(** What a load of [size] bytes at [off] from the anchor reads. *)
Definition reads (a : layerAnchor) (o wb off : Z) (size : Size_) : seen Z :=
  if WriteBack a && (off =? WriteBackOff a) && bool_decide (size = Byte) then Present wb
  else if runtime a then load_at P bound (u64 (o + off)) (Z.to_nat (Sizeof size)) else load_at P (len P) (o + off) (Z.to_nat (Sizeof size)).

Lemma only_setr dst v s t : only dst (setr dst v s) t -> only dst s t.
Proof. intros [->|[w ->]]; [right; now eexists|rewrite setr_setr; right; now eexists]. Qed.

(** Running on from a state that differs in the loaded register. *)
Lemma runs_setr dst v c fail s r :
  runs (only dst (setr dst v s)) (fun raw t => t = setr dst (Num raw) (setr dst v s)) c fail (setr dst v s) r ->
  runs (only dst s) (fun raw t => t = setr dst (Num raw) s) c fail (setr dst v s) r.
Proof.
  apply runs_weaken; [intros t; apply only_setr|]. intros raw t _ ->. apply setr_setr.
Qed.

Lemma field_load dst a o wb off size fail s :
  packet s -> anchored a o wb s -> scratch_reg dst -> size_bytes size -> has_text fail = true -> 0 <= off < 2 ^ 29 ->
  runs (only dst s) (fun raw t => t = setr dst (Num raw) s) (emitFieldLoadTo dst a off size fail) fail s (reads a o wb off size).
Proof.
  intros Hp [Hu Ha Hw] Hd Hs Hf Ho. assert (Hfp : dst <> RFP) by (destruct Hd as [->|[->| ->]]; discriminate).
  unfold emitFieldLoadTo, reads, runtime. destruct (WriteBack a && _ && _) eqn:Eb.
  { apply andb_true_iff in Eb as [Eb _]. apply andb_true_iff in Eb as [Eb _]. destruct (Hw Eb) as [Hfr Hv]. cbn [runs]. exists (setr dst (Num wb) s).
    split; [|split; [right; now eexists|reflexivity]]. erewrite exec_load_stack; [reflexivity|exact Hfp|apply getr_fp|exact Hfr|exact Hv]. }
  destruct (i16_size size Hs) as (E32 & _ & Hn). rewrite (i32_small off) by lia. destruct (UseSlot a) eqn:Es; cbn [orb].
  - destruct Ha as [Hfr Hv]. eapply runs_exec.
    { cbn [app]. erewrite exec_load_stack; [|exact Hfp|apply getr_fp|exact Hfr|exact Hv].
      rewrite fold_offset with (o := o) by (try lia; try assumption; apply getr_same; exact Hfp). reflexivity. }
    rewrite setr_setr. apply runs_setr, bounded_load; try assumption; [now apply packet_setr|apply getr_same; exact Hfp|apply u64_range].
  - destruct (UseR4 a) eqn:E4; cbn [orb].
    + eapply runs_exec; [rewrite fold_offset with (o := o) by (try lia; assumption); reflexivity|].
      apply runs_setr, bounded_load; try assumption; [now apply packet_setr|apply getr_same; exact Hfp|apply u64_range].
    + destruct Ha as [-> Hsm]. rewrite E32, (i32_small (AbsOffset a + off)) by (unfold in_u64 in Hu; lia). apply absolute_load; try assumption. unfold in_u64 in Hu. lia.
Qed.

End Packet.

(** ** Windows cover their fields *)

(** The first bit of the field in its header, and of the slice. *)
Definition origin (ref : FieldRef) : Z :=
  match Aux ref with
  | Some a => FieldBitOff a
  | None => match primary ref with Some (fd, spec) => from_option fst 0 (BitOffsetIn (Fields spec) (Name fd)) | None => 0 end
  end.

Definition first_bit (ref : FieldRef) : Z := origin ref + match Slice ref with Some s => Lo s | None => 0 end.

Lemma intra_origin ref : fieldIntraByteBit ref = origin ref mod 8.
Proof.
  unfold fieldIntraByteBit, origin. destruct (Aux ref); [reflexivity|]. destruct (primary ref) as [[fd spec]|]; [|reflexivity].
  now destruct (BitOffsetIn _ _) as [[b w]|].
Qed.

(** How a window of [size] bytes at [start] is chosen. *)
Definition covers (ref : FieldRef) (start size : Z) : Prop :=
  match Slice ref with
  | Some _ => exists size0, applySliceToOffset ref (origin ref / 8) size0 = Ok (start, size)
  | None => (origin ref mod 8 = 0 /\ field_bits ref mod 8 = 0 /\ start = origin ref / 8 /\ size = field_bits ref / 8) \/
            subByteWindow (origin ref) (field_bits ref) = Some (start, size)
  end.

Definition field_mask (w : Z) : Z := if 64 <=? w then u64 (-1) else Z.shiftl 1 w - 1.

(** What the choice guarantees. *)
Record geometry (ref : FieldRef) (start size : Z) : Prop := mkGeometry {
  geo_start : 0 <= start;
  geo_lo : 8 * start <= first_bit ref;
  geo_hi : first_bit ref + EffectiveBits ref <= 8 * (start + size);
  geo_adjust : (size = 9 /\ start = first_bit ref / 8 /\ sliceSplitsLoad ref = true) \/
    (0 < size <= 8 /\ sliceSplitsLoad ref = false /\
     (slicePostAdjust ref size = (0, 0) /\ first_bit ref = 8 * start /\ EffectiveBits ref = 8 * size \/
      slicePostAdjust ref size = (8 * (start + size) - (first_bit ref + EffectiveBits ref), field_mask (EffectiveBits ref))))
}.

Lemma nextLDXSize_spec cover : (8 < cover /\ nextLDXSize cover = 0) \/ (cover <= nextLDXSize cover <= 8 /\ 0 < nextLDXSize cover).
Proof.
  unfold nextLDXSize. destruct (Z.leb_spec cover 1), (Z.leb_spec cover 2), (Z.leb_spec cover 4), (Z.leb_spec cover 8); lia.
Qed.

Lemma field_bits_window `{AuxVocab} ref s n : Slice ref = Some s -> ref_ok ref ->
  sliceWindowStart ref s n = fst (sliceBits ref s) / 8 \/
  (origin ref mod 8 = 0 /\ field_bits ref mod 8 = 0 /\ n <= field_bits ref / 8 < fst (sliceBits ref s) / 8 + n /\ sliceWindowStart ref s n = field_bits ref / 8 - n).
Proof.
  intros Hs _. unfold sliceWindowStart. rewrite intra_origin. fold (field_bits ref). destruct (_ && _) eqn:E; [right|now left]. bools. tauto.
Qed.

Lemma EffectiveBits_slice ref s : Slice ref = Some s -> EffectiveBits ref = Hi s - Lo s.
Proof. unfold EffectiveBits. now intros ->. Qed.

Lemma EffectiveBits_bare ref : Slice ref = None -> EffectiveBits ref = field_bits ref.
Proof. unfold EffectiveBits, field_bits. now intros ->. Qed.

Lemma slice_geometry `{AuxVocab} ref s start size :
  Slice ref = Some s -> ref_ok ref -> 0 <= origin ref -> EffectiveBits ref <= 64 -> covers ref start size -> geometry ref start size.
Proof.
  intros Hs Hok Ho Hw Hc. pose proof Hok as (_ & Hf & _ & Hsl & _). rewrite Hs in Hsl. unfold covers in Hc. rewrite Hs in Hc. destruct Hc as (size0 & Hc).
  unfold applySliceToOffset in Hc. change sliceSplitWindow with 9 in Hc. rewrite Hs in Hc. unfold sliceBits in Hc. rewrite intra_origin in Hc. set (b := origin ref mod 8) in *.
  assert (Hb : 0 <= b < 8) by (apply Z.mod_pos_bound; lia). assert (Horig : origin ref = 8 * (origin ref / 8) + b) by (apply Z_div_mod_eq_full).
  set (lo := Lo s + b) in *. set (hi := Hi s + b) in *. assert (Hbits : FieldSlice_Bits (Some s) = Hi s - Lo s) by reflexivity. rewrite Hbits in Hc.
  assert (Hfb : first_bit ref = 8 * (origin ref / 8) + lo) by (unfold first_bit; rewrite Hs; subst lo; lia).
  pose proof (EffectiveBits_slice ref s Hs) as Heff. assert (Hq : 0 <= origin ref / 8) by (apply Z.div_pos; lia).
  set (cover := (hi + 7) / 8 - lo / 8) in *. assert (Hlo : 8 * (lo / 8) <= lo < 8 * (lo / 8) + 8) by (pose proof (Z_div_mod_eq_full lo 8); pose proof (Z.mod_pos_bound lo 8); lia).
  assert (Hhi : hi <= 8 * (lo / 8 + cover)) by (subst cover; pose proof (Z_div_mod_eq_full (hi + 7) 8); pose proof (Z.mod_pos_bound (hi + 7) 8); lia).
  assert (Hhi' : 8 * (lo / 8 + cover) < hi + 8) by (subst cover; pose proof (Z_div_mod_eq_full (hi + 7) 8); pose proof (Z.mod_pos_bound (hi + 7) 8); lia).
  assert (Hsplit : sliceSplitsLoad ref = (cover =? 9)).
  { unfold sliceSplitsLoad, splitBareField, bareSubByteField. rewrite Hs. cbv beta iota zeta. rewrite Hs, Hbits. rewrite (proj2 (Z.ltb_ge _ _)) by lia. unfold sliceBits. now rewrite intra_origin. }
  assert (Hpost : forall n, slicePostAdjust ref n =
    let byteStart := sliceWindowStart ref s n in
    if (hi - byteStart * 8 =? n * 8) && (lo =? byteStart * 8) && (Hi s - Lo s =? n * 8) then (0, 0)
    else (n * 8 - (hi - byteStart * 8), field_mask (Hi s - Lo s))).
  { intros n. unfold slicePostAdjust, splitBareField, bareSubByteField. rewrite Hs. cbv beta iota zeta. rewrite Hs, Hbits. unfold sliceBits. now rewrite intra_origin. }
  assert (Hn : 0 < size /\ ((size = 9 /\ cover = 9) \/ (size <= 8 /\ cover <= size /\ cover <> 9)) /\ start = origin ref / 8 + sliceWindowStart ref s size).
  { destruct (nextLDXSize_spec cover) as [[H8 Hz]|[Hle Hpos]].
    - rewrite Hz in Hc. cbn [Z.eqb andb] in Hc. destruct (Z.eqb_spec cover 9) as [E9|]; [|discriminate].
      rewrite (proj2 (Z.leb_le _ _)) in Hc by lia. cbn [andb Z.eqb] in Hc. injection Hc as <- <-. lia.
    - rewrite (proj2 (Z.eqb_neq (nextLDXSize cover) 0)) in Hc by lia. cbn [andb] in Hc. rewrite (proj2 (Z.eqb_neq (nextLDXSize cover) 0)) in Hc by lia.
      injection Hc as <- <-. lia. }
  clear Hc. destruct Hn as (Hpos & Hn & ->). pose proof (field_bits_window ref s size Hs Hok) as Hws. unfold sliceBits in Hws. rewrite intra_origin in Hws. fold b in Hws. cbn [fst] in Hws. fold lo in Hws.
  set (ws := sliceWindowStart ref s size) in *.
  assert (Hwin : 0 <= ws <= lo / 8 /\ hi <= 8 * (ws + size) /\ (size = 9 -> ws = lo / 8)).
  { destruct Hws as [-> | (H0 & Hm & Hr & ->)].
    - split; [split; [apply Z.div_pos; lia|lia]|]. split; [lia|auto].
    - fold b in H0. pose proof (Z_div_mod_eq_full (field_bits ref) 8). split; [lia|]. split; [lia|]. intros ->. destruct Hn as [[_ H9]|]; [|lia]. lia. }
  split; [lia|lia|lia|]. destruct Hn as [[-> H9]|(H8 & Hcov & Hne)].
  - left. split; [reflexivity|]. split; [|now rewrite Hsplit, H9]. rewrite Hfb. destruct Hwin as (_ & _ & ->); [|reflexivity].
    rewrite Z.mul_comm, Z.div_add_l by lia. reflexivity.
  - right. split; [lia|]. split; [rewrite Hsplit; now apply Z.eqb_neq|]. rewrite Hpost. cbv zeta. fold ws. destruct (_ && _) eqn:E.
    + left. bools. split; [reflexivity|]. lia.
    + right. rewrite Heff. f_equal; lia.
Qed.

(** Bits that do not fill their bytes. *)
Definition unclean (ref : FieldRef) : bool := negb (origin ref mod 8 =? 0) || negb (field_bits ref mod 8 =? 0).

Lemma bareSubByte_eq ref : field_known ref -> Slice ref = None ->
  bareSubByteField ref = if unclean ref then Some (origin ref, field_bits ref) else None.
Proof.
  unfold field_known, bareSubByteField, unclean, origin, field_bits, primary, findFieldBitOffset. intros Hk ->.
  destruct (Aux ref); [reflexivity|]. destruct (RefField ref) as [fd|]; [|easy]. destruct (Spec (RefLayer ref)) as [spec|]; [|easy].
  destruct Hk as (off & _ & ->). reflexivity.
Qed.

(** [splitBareField] returns it as it is. *)
Definition whole (ref : FieldRef) : Prop := splitBareField ref = ref.

Lemma sliced_whole ref s : Slice ref = Some s -> whole ref.
Proof. unfold whole, splitBareField, bareSubByteField. now intros ->. Qed.

Lemma splitBareField_whole ref : whole (splitBareField ref).
Proof.
  assert (H : splitBareField ref = ref \/ exists s, Slice (splitBareField ref) = Some s).
  { unfold splitBareField. destruct (bareSubByteField ref) as [[o w]|]; [|now left]. destruct (_ || _); [now left|right]. now eexists. }
  destruct H as [H|[s Hs]]; [|now apply (sliced_whole _ s)]. unfold whole. now rewrite !H.
Qed.

Lemma bare_geometry `{AuxVocab} ref start size :
  Slice ref = None -> whole ref -> ref_ok ref -> 0 <= origin ref -> EffectiveBits ref <= 64 -> covers ref start size -> geometry ref start size.
Proof.
  intros Hs Hwh (Hk & Hf & _ & _) Ho Hw Hc. rewrite EffectiveBits_bare in Hw by exact Hs. pose proof (bareSubByte_eq ref Hk Hs) as Hbare.
  assert (Hsplit : sliceSplitsLoad ref = false) by (unfold sliceSplitsLoad; now rewrite Hwh, Hs).
  assert (Hfb : first_bit ref = origin ref) by (unfold first_bit; rewrite Hs; lia).
  assert (Hpost : forall n, slicePostAdjust ref n =
    if unclean ref then (n * 8 - (origin ref mod 8 + field_bits ref), field_mask (field_bits ref)) else (0, 0)).
  { intros n. unfold slicePostAdjust. rewrite Hwh, Hs, Hbare. now destruct (unclean ref). }
  pose proof (Z_div_mod_eq_full (origin ref) 8) as Hd. pose proof (Z.mod_pos_bound (origin ref) 8 ltac:(lia)) as Hb. pose proof (Z_div_mod_eq_full (field_bits ref) 8) as Hd2.
  assert (Hq : 0 <= origin ref / 8) by (apply Z.div_pos; lia).
  unfold covers in Hc. rewrite Hs in Hc. destruct Hc as [(H0 & H1 & -> & ->)|Hc].
  - assert (Hcl : unclean ref = false) by (unfold unclean; now rewrite H0, H1). rewrite Hcl in Hpost.
    split; [lia|rewrite Hfb; lia|rewrite Hfb, EffectiveBits_bare by exact Hs; lia|]. right. split; [lia|]. split; [exact Hsplit|]. left.
    rewrite Hfb, EffectiveBits_bare by exact Hs. split; [apply Hpost|lia].
  - unfold subByteWindow in Hc. destruct (_ <=? 0); [discriminate|]. destruct (_ && _) eqn:Ecl; [discriminate|].
    assert (Hcl : unclean ref = true) by (unfold unclean; rewrite <- negb_andb, Ecl; reflexivity). rewrite Hcl in Hpost.
    set (cover := (origin ref mod 8 + field_bits ref + 7) / 8) in *.
    assert (Hcov : origin ref mod 8 + field_bits ref <= 8 * cover)
      by (subst cover; pose proof (Z_div_mod_eq_full (origin ref mod 8 + field_bits ref + 7) 8); pose proof (Z.mod_pos_bound (origin ref mod 8 + field_bits ref + 7) 8); lia).
    destruct (Z.eqb_spec (nextLDXSize cover) 0); [discriminate|]. injection Hc as <- <-.
    destruct (nextLDXSize_spec cover) as [[_ Hz]|[Hle Hpos]]; [lia|].
    split; [lia|rewrite Hfb; lia|rewrite Hfb, EffectiveBits_bare by exact Hs; lia|]. right. split; [lia|]. split; [exact Hsplit|]. right.
    rewrite Hpost, Hfb, EffectiveBits_bare by exact Hs. f_equal. lia.
Qed.

Lemma origin_small ref : field_known ref -> small (origin ref).
Proof.
  unfold field_known, origin, primary. destruct (Aux ref) as [a|].
  - destruct (RefField ref), (Spec (RefLayer ref)); try easy. unfold aux_ok. tauto.
  - destruct (RefField ref); [|easy]. destruct (Spec (RefLayer ref)); [|easy]. intros (off & Ho & ->). exact Ho.
Qed.

Lemma covers_geometry `{AuxVocab} ref start size :
  whole ref -> ref_ok ref -> EffectiveBits ref <= 64 -> covers ref start size -> geometry ref start size.
Proof.
  intros Hwh Hok Hw Hc. assert (Ho : 0 <= origin ref) by (destruct Hok as [Hk _]; apply origin_small in Hk; unfold small in Hk; lia).
  destruct (Slice ref) as [s|] eqn:Hs; [now apply (slice_geometry ref s)|now apply bare_geometry].
Qed.

(** A bare field read as its whole slice is the same field. *)
Lemma splitBareField_same `{AuxVocab} ref : ref_ok ref ->
  ref_ok (splitBareField ref) /\ EffectiveBits (splitBareField ref) = EffectiveBits ref /\ first_bit (splitBareField ref) = first_bit ref /\
  RefLayer (splitBareField ref) = RefLayer ref /\ RefField (splitBareField ref) = RefField ref /\ Aux (splitBareField ref) = Aux ref.
Proof.
  intros Hok. unfold splitBareField. destruct (bareSubByteField ref) as [[o w]|] eqn:E; [|now splits].
  destruct (_ || _) eqn:Eb; [now splits|]. assert (Hs : Slice ref = None) by (unfold bareSubByteField in E; destruct (Slice ref); [discriminate|reflexivity]).
  pose proof Hok as (Hk & Hf & He & _ & Hne). rewrite (bareSubByte_eq ref Hk Hs) in E. destruct (unclean ref); [|discriminate]. injection E as <- <-.
  assert (Hfb : field_bits (with_slice ref (Some (mkFieldSlice 0 (field_bits ref)))) = field_bits ref) by reflexivity. bools.
  splits; try reflexivity.
  - split; [exact Hk|]. rewrite Hfb. split; [exact Hf|]. split; [cbn; lia|]. split; [cbn; lia|exact Hne].
  - cbn. rewrite EffectiveBits_bare by exact Hs. lia.
  - unfold first_bit. cbn [with_slice Slice Lo]. rewrite Hs. reflexivity.
Qed.

Section Windows.
Context `{AuxVocab}.

Lemma primary_covers ref off size :
  whole ref -> Aux ref = None -> fieldRefByteOffset ref = Ok (off, size) -> field_known ref -> covers ref off size.
Proof.
  intros Hwh Ha E Hk. unfold fieldRefByteOffset in E. rewrite Hwh, Ha in E. unfold field_known in Hk. rewrite Ha in Hk. unfold covers, origin, field_bits, primary in *. rewrite Ha.
  destruct (RefField ref) as [fd|]; [|easy]. destruct (Spec (RefLayer ref)) as [spec|]; [|easy]. destruct Hk as (b & _ & Hb). rewrite Hb. cbn [from_option fst].
  apply result_bind_ok in E as ([o n] & Eo & E). unfold findFieldByteOffset, findFieldBitOffset in Eo. rewrite Hb in Eo. cbn [result_bind] in Eo.
  destruct (negb (b mod 8 =? 0)) eqn:E1, (negb (Bits fd mod 8 =? 0)) eqn:E2, (8 <? Bits fd / 8) eqn:E3; cbn [result_bind] in Eo;
    unfold applySliceToOffset in *; destruct (Slice ref) as [s|] eqn:Es; cbn [result_bind] in Eo;
    try (injection Eo as <- <-; first [exists (FieldSlice_Bits (Some s) / 8); exact E|exists (Bits fd / 8); exact E]);
    try (injection Eo as <- <-; injection E as <- <-; left; bools; auto);
    right; (destruct (subByteWindow b (Bits fd)) as [[o' n']|]; [injection Eo as <- <-; injection E as <- <-; reflexivity|discriminate]).
Qed.

Lemma aux_covers ref aux start size :
  whole ref -> Aux ref = Some aux -> auxFieldWindow ref = Ok (start, size) -> covers ref start size.
Proof.
  intros Hwh Ha E. unfold auxFieldWindow in E. rewrite Hwh, Ha in E. apply result_bind_ok in E as ([o n] & Eo & E).
  assert (Hon : (start, size) = (o, n)) by (repeat (case_match; try discriminate); injection E as <- <-; reflexivity). injection Hon as -> ->. clear E.
  unfold covers, origin, field_bits. rewrite Ha. destruct (Slice ref); cbn [is_Some_b] in Eo; [exists 0; exact Eo|].
  destruct (_ && _) eqn:Ec.
  - left. bools. case_if Eo; [discriminate|]. injection Eo as <- <-. auto.
  - right. destruct (subByteWindow _ _) as [[o' n']|]; [now injection Eo as <- <-|discriminate].
Qed.

Lemma asmSizeFor_ok bytes size : asmSizeFor bytes = Ok size -> size_bytes size /\ Sizeof size = bytes.
Proof.
  unfold asmSizeFor, size_bytes. intros E. repeat (case_if E; [injection E as <-; bools; subst; cbn; auto|]). discriminate.
Qed.
End Windows.

(** ** From the window to the value *)

Lemma bits_testbit P pos w i : 0 <= w -> 0 <= i -> pos + w <= 8 * len P ->
  Z.testbit (bits_at P pos w) i = (i <? w) && Z.testbit (be P) (8 * len P - (pos + w) + i).
Proof.
  intros Hw Hi Hp. unfold bits_at. rewrite Z.testbit_mod_pow2 by lia. f_equal. rewrite <- Z.shiftr_div_pow2 by lia. rewrite Z.shiftr_spec by lia. f_equal. lia.
Qed.

Lemma split_bits P q s w :
  0 <= q -> q + 9 <= len P -> 0 <= s < 8 -> 0 < w <= 64 -> 64 < s + w ->
  Z.shiftr (Z.lor (u64 (Z.shiftl (bits_at P (8 * q) 64) s)) (Z.shiftr (bits_at P (8 * (q + 8)) 8) (8 - s))) (64 - w) = bits_at P (8 * q + s) w.
Proof.
  intros Hq HP Hs Hw Hsw. apply Z.bits_inj'. intros i Hi. rewrite Z.shiftr_spec, Z.lor_spec by lia. unfold u64. rewrite two64_pow.
  rewrite Z.testbit_mod_pow2, Z.shiftr_spec by lia. rewrite Z.shiftl_spec by lia. rewrite (bits_testbit P (8 * (q + 8)) 8), (bits_testbit P (8 * q + s) w) by lia.
  destruct (Z.ltb_spec i w) as [Hiw|Hiw]; cbn [andb].
  - rewrite (proj2 (Z.ltb_lt (i + (64 - w)) 64)) by lia. cbn [andb]. destruct (Z.ltb_spec (i + (64 - w) + (8 - s)) 8) as [Hlow|Hhigh]; cbn [andb].
    + rewrite (Z.testbit_neg_r _ (i + (64 - w) - s)) by lia. cbn [orb]. f_equal. lia.
    + rewrite orb_false_r, bits_testbit by lia. rewrite (proj2 (Z.ltb_lt _ 64)) by lia. cbn [andb]. f_equal. lia.
  - rewrite (proj2 (Z.ltb_ge (i + (64 - w)) 64)) by lia. rewrite (proj2 (Z.ltb_ge (i + (64 - w) + (8 - s)) 8)) by lia. reflexivity.
Qed.

Lemma land_mask x w : 0 <= x -> 0 < w < 64 -> Z.land x (field_mask w) = x mod 2 ^ w.
Proof.
  intros Hx Hw. unfold field_mask. rewrite (proj2 (Z.leb_gt _ _)) by lia. rewrite Z.shiftl_1_l, <- Z.land_ones by lia. now rewrite Z.ones_equiv.
Qed.

Section Value.
Context `{HKern : Kernel}.

(** The shift and mask that follow a load of [n] bytes. *)
Lemma shift_mask_runs ref n s x :
  getr R3 s = Some (Num x) -> 0 < n <= 8 -> 0 <= x < 2 ^ (8 * n) -> 0 < EffectiveBits ref <= 64 ->
  (forall shift, slicePostAdjust ref n = (shift, field_mask (EffectiveBits ref)) -> 0 <= shift < 64) ->
  (slicePostAdjust ref n = (0, 0) /\ EffectiveBits ref = 8 * n) \/ (exists shift, slicePostAdjust ref n = (shift, field_mask (EffectiveBits ref))) ->
  exists s', exec (emitSliceShiftMask ref n) None s = Next s' /\ upto (fun _ => False) s s' /\
    getr R3 s' = Some (Num ((x / 2 ^ fst (slicePostAdjust ref n)) mod 2 ^ EffectiveBits ref)).
Proof.
  intros G Hn Hx Hw Hsh Hadj. set (w := EffectiveBits ref) in *. unfold emitSliceShiftMask. destruct Hadj as [[E Hw8]|(shift & E)]; rewrite E.
  { cbn [fst Z.eqb andb]. exists s. split; [reflexivity|]. split; [apply upto_refl|]. rewrite Z.pow_0_r, Z.div_1_r, Hw8, Z.mod_small by lia. exact G. }
  specialize (Hsh shift E). cbn [fst]. assert (Hm : field_mask w <> 0).
  { unfold field_mask. destruct (64 <=? w); [discriminate|]. rewrite Z.shiftl_1_l. pose proof (Z.pow_gt_1 2 w). lia. }
  rewrite (proj2 (Z.eqb_neq (field_mask w) 0) Hm), andb_false_r. cbn [negb andb].
  assert (Hx64 : 0 <= x < 2 ^ 64) by (pose proof (Z.pow_le_mono_r 2 (8 * n) 64); lia).
  assert (Hy : 0 <= x / 2 ^ shift < 2 ^ 64).
  { assert (0 < 2 ^ shift) by (apply Z.pow_pos_nonneg; lia). split; [apply Z.div_pos; lia|]. apply Z.div_lt_upper_bound; [lia|]. nia. }
  set (s1 := setr R3 (Num (x / 2 ^ shift)) s).
  assert (E1 : forall l, exec ((if 0 <? shift then [Imm RSh R3 (i32 shift)] else []) ++ l) None s = exec l None s1).
  { intros l. subst s1. destruct (Z.ltb_spec 0 shift); cbn [app].
    - rewrite i32_small by lia. erewrite exec_Imm; [reflexivity|discriminate|discriminate|discriminate|exact G|].
      cbn. rewrite u64_small by (unfold in_u64, two64; lia). rewrite Z.mod_small by lia. rewrite Z.shiftr_div_pow2 by lia. reflexivity.
    - replace shift with 0 by lia. rewrite Z.pow_0_r, Z.div_1_r, setr_same; [reflexivity|discriminate|exact G]. }
  rewrite E1. assert (U1 : upto (fun _ => False) s s1) by (apply upto_setr; auto). assert (G1 : getr R3 s1 = Some (Num (x / 2 ^ shift))) by (apply getr_same; discriminate).
  destruct (Z.eqb_spec (field_mask w) (u64 (-1))) as [Em|Em]; cbn [negb].
  { exists s1. split; [reflexivity|]. split; [exact U1|]. rewrite Z.mod_small; [exact G1|].
    assert (w = 64) as ->; [|lia]. destruct (Z.eq_dec w 64); [assumption|]. exfalso. unfold field_mask in Em. rewrite (proj2 (Z.leb_gt _ _)) in Em by lia.
    rewrite Z.shiftl_1_l in Em. change (u64 (-1)) with (2 ^ 64 - 1) in Em. pose proof (Z.pow_lt_mono_r 2 w 64). lia. }
  assert (Hw63 : 0 < w < 64) by (destruct (Z.eq_dec w 64) as [Ew|]; [unfold field_mask in Em; rewrite Ew in Em; easy|lia]).
  assert (Hmr : 0 <= field_mask w < 2 ^ 63).
  { unfold field_mask. rewrite (proj2 (Z.leb_gt _ _)), Z.shiftl_1_l by lia. pose proof (Z.pow_le_mono_r 2 w 63). pose proof (Z.pow_pos_nonneg 2 w). lia. }
  rewrite <- land_mask by lia. unfold MaxInt32. destruct (Z.leb_spec (field_mask w) 2147483647).
  - rewrite i32_small by lia. eexists. split; [erewrite exec_Imm; [reflexivity|discriminate|discriminate|discriminate|exact G1|]|].
    { cbn. rewrite u64_small by (unfold in_u64, two64; lia). reflexivity. }
    split; [eapply upto_trans; [exact U1|apply upto_setr; auto]|apply getr_same; discriminate].
  - eexists. split; [rewrite exec_loadConst by (try discriminate; unfold in_u64, two64; lia);
      erewrite exec_Reg; [reflexivity|discriminate|discriminate|discriminate|rewrite getr_other by discriminate; exact G1|apply getr_same; discriminate|reflexivity]|].
    split; [eapply upto_trans; [exact U1|]; eapply upto_trans; apply upto_setr; auto|apply getr_same; discriminate].
Qed.

(** The bytes a load leaves in R3, in network order after the swap. *)
Lemma swap_runs size bs s :
  size_bytes size -> Z.of_nat (length bs) = Sizeof size -> Forall byte bs -> getr R3 s = Some (Num (unle bs)) ->
  exists s', exec (if 1 <? Sizeof size then [HostToBE R3 size] else []) None s = Next s' /\ upto (fun _ => False) s s' /\ getr R3 s' = Some (Num (be bs)).
Proof.
  intros Hs Hl Hb G. destruct (Z.ltb_spec 1 (Sizeof size)).
  - eexists. split; [rewrite (exec_HostToBE _ _ _ _ (unle bs)) by (try discriminate; exact G); reflexivity|]. split; [apply upto_setr; auto|].
    replace (Z.to_nat (Sizeof size)) with (length bs) by lia. rewrite to_be_unle by exact Hb. apply getr_same. discriminate.
  - exists s. split; [reflexivity|]. split; [apply upto_refl|]. destruct (i16_size size Hs) as (_ & _ & ?).
    destruct bs as [|b [|]]; cbn [length] in Hl; try lia. exact G.
Qed.

(** The value of a field whose window holds [bs]. *)
Definition value_of (ref : FieldRef) (start : Z) (bs : list Z) : Z := bits_at bs (first_bit ref - 8 * start) (EffectiveBits ref).

Lemma field_mask_inj w : 0 < w -> field_mask w <> 0.
Proof. intros Hw. unfold field_mask. destruct (64 <=? w); [discriminate|]. rewrite Z.shiftl_1_l. pose proof (Z.pow_gt_1 2 w). lia. Qed.

Lemma value_runs ref start size bs s :
  whole ref -> geometry ref start (Sizeof size) -> size_bytes size -> 0 < EffectiveBits ref <= 64 -> Z.of_nat (length bs) = Sizeof size -> Forall byte bs ->
  getr R3 s = Some (Num (unle bs)) ->
  exists s', exec (emitFieldValue ref (Sizeof size) size) None s = Next s' /\ upto (fun _ => False) s s' /\ getr R3 s' = Some (Num (value_of ref start bs)).
Proof.
  intros Hwh [_ Hlo Hhi Hadj] Hs Hw Hl Hb G. destruct (i16_size size Hs) as (_ & _ & Hn). destruct Hadj as [[H9 _]|(_ & Hsp & Hadj)]; [lia|].
  unfold emitFieldValue. rewrite Hwh, Hsp. destruct (swap_runs size bs s Hs Hl Hb G) as (s1 & E1 & U1 & G1). rewrite exec_app, E1.
  pose proof (be_range bs Hb) as Hr. unfold len in Hr. rewrite Hl, pow_256 in Hr by lia.
  assert (Hbits : forall shift, shift = 8 * (start + Sizeof size) - (first_bit ref + EffectiveBits ref) ->
    (be bs / 2 ^ shift) mod 2 ^ EffectiveBits ref = value_of ref start bs).
  { intros shift ->. unfold value_of, bits_at, len. rewrite Hl. do 3 f_equal. lia. }
  destruct (shift_mask_runs ref (Sizeof size) s1 (be bs) G1 Hn Hr Hw) as (s2 & E2 & U2 & G2).
  - intros shift E. destruct Hadj as [(E0 & _)|E0]; rewrite E0 in E; injection E as <-; [|lia].
    exfalso. now apply (field_mask_inj (EffectiveBits ref)); [lia|].
  - destruct Hadj as [(E0 & _ & ?)|E0]; [left; auto|right; eexists; exact E0].
  - exists s2. split; [exact E2|]. split; [now apply (upto_trans _ s s1)|]. rewrite G2. do 2 f_equal.
    destruct Hadj as [(Ea & ? & ?)|Ea]; rewrite Ea; cbn [fst]; apply Hbits; lia.
Qed.

Lemma split_value_runs ref start h b s :
  whole ref -> geometry ref start 9 -> 0 < EffectiveBits ref <= 64 -> length h = 8%nat -> length b = 1%nat -> Forall byte h -> Forall byte b ->
  getr R3 s = Some (Num (unle h)) -> getr R2 s = Some (Num (unle b)) ->
  exists s', exec (emitFieldValue ref 8 DWord) None s = Next s' /\ upto (fun _ => False) s s' /\ getr R3 s' = Some (Num (value_of ref start (h ++ b))).
Proof.
  intros Hwh [_ Hlo Hhi Hadj] Hw Hlh Hlb Hh Hb G3 G2. destruct Hadj as [(_ & Hst & Hsp)|(? & _)]; [|lia].
  unfold emitFieldValue. rewrite Hwh, Hsp. pose proof Hsp as Hsl. unfold sliceSplitsLoad in Hsl. rewrite Hwh in Hsl.
  destruct (Slice ref) as [sl|] eqn:Es; [|discriminate]. rewrite <- (EffectiveBits_slice ref sl Es : EffectiveBits ref = FieldSlice_Bits (Some sl)) in *.
  rewrite (proj2 (Z.ltb_ge _ _)) in Hsl by lia. set (w := EffectiveBits ref) in *. unfold sliceBits in *. rewrite intra_origin in *. cbn [fst].
  set (s0 := (Lo sl + origin ref mod 8) mod 8). assert (Hs0 : 0 <= s0 < 8) by (apply Z.mod_pos_bound; lia).
  assert (Hfs : first_bit ref - 8 * start = s0).
  { unfold first_bit in *. rewrite Es in *. subst s0. rewrite Zplus_mod_idemp_r, (Z.add_comm (Lo sl)), Hst. pose proof (Z_div_mod_eq_full (origin ref + Lo sl) 8). lia. }
  assert (Hsw : 64 < s0 + w).
  { bools. unfold sliceSplitWindow in Hsl. pose proof (EffectiveBits_slice ref sl Es) as He. fold w in He.
    pose proof (Z_div_mod_eq_full (Lo sl + origin ref mod 8) 8) as Hd. fold s0 in Hd. pose proof (Z_div_mod_eq_full (Hi sl + origin ref mod 8 + 7) 8). pose proof (Z.mod_pos_bound (Hi sl + origin ref mod 8 + 7) 8). lia. }
  rewrite (i32_small s0), (i32_small (64 - w)) by lia.
  assert (Hlen : len (h ++ b) = 9) by (unfold len; rewrite length_app, Hlh, Hlb; reflexivity). assert (Hbb : Forall byte (h ++ b)) by now apply Forall_app.
  assert (Eh : be h = bits_at (h ++ b) (8 * 0) 64).
  { etransitivity; [|apply (be_window (h ++ b) 0 8); [exact Hbb|lia..]]. unfold window. change (Z.to_nat 0) with 0%nat. rewrite drop_0, take_app_le, take_ge by lia. reflexivity. }
  assert (Eb : unle b = bits_at (h ++ b) (8 * (0 + 8)) 8).
  { etransitivity; [|apply (be_window (h ++ b) 8 1); [exact Hbb|lia..]]. unfold window. change (Z.to_nat 8) with 8%nat. rewrite <- Hlh, drop_app_length, take_ge by lia.
    destruct b as [|x [|]]; try discriminate. reflexivity. }
  pose proof (split_bits (h ++ b) 0 s0 w ltac:(lia) ltac:(lia) Hs0 Hw Hsw) as Hval. rewrite <- Eh, <- Eb in Hval.
  assert (Hv : value_of ref start (h ++ b) = bits_at (h ++ b) (8 * 0 + s0) w) by (unfold value_of; now rewrite Hfs). rewrite Hv, <- Hval.
  set (x := Z.lor (u64 (Z.shiftl (be h) s0)) (Z.shiftr (unle b) (8 - s0))).
  assert (E : forall l, exec ([HostToBE R3 DWord; Imm LSh R3 s0; Imm RSh R2 (8 - s0); Reg Or R3 R2] ++ l) None s =
    exec l None (setr R3 (Num x) (setr R2 (Num (Z.shiftr (unle b) (8 - s0))) (setr R3 (Num (u64 (Z.shiftl (be h) s0))) (setr R3 (Num (be h)) s))))).
  { intros l. cbn [app]. rewrite (exec_HostToBE _ _ _ _ (unle h)) by (try discriminate; exact G3). change (Z.to_nat (Sizeof DWord)) with 8%nat.
    rewrite <- Hlh at 1. rewrite to_be_unle by exact Hh.
    erewrite exec_Imm; [|discriminate|discriminate|discriminate|apply getr_same; discriminate|cbn; rewrite (u64_small s0) by (unfold in_u64, two64; lia); rewrite (Z.mod_small s0) by lia; reflexivity].
    erewrite exec_Imm; [|discriminate|discriminate|discriminate|rewrite !getr_other by discriminate; exact G2|cbn; rewrite (u64_small (8 - s0)) by (unfold in_u64, two64; lia); rewrite (Z.mod_small (8 - s0)) by lia; reflexivity].
    erewrite exec_Reg; [reflexivity|discriminate|discriminate|discriminate|rewrite getr_other by discriminate; apply getr_same; discriminate|apply getr_same; discriminate|reflexivity]. }
  rewrite E. destruct (Z.ltb_spec w 64).
  - eexists. split; [erewrite exec_Imm; [reflexivity|discriminate|discriminate|discriminate|apply getr_same; discriminate|]|].
    { cbn. rewrite u64_small by (unfold in_u64, two64; lia). rewrite Z.mod_small by lia. reflexivity. }
    split; [|apply getr_same; discriminate]. repeat (eapply upto_trans; [|apply upto_setr; tauto]). apply upto_refl.
  - eexists. split; [reflexivity|]. split; [repeat (eapply upto_trans; [|apply upto_setr; tauto]); apply upto_refl|].
    rewrite getr_same by discriminate. replace (64 - w) with 0 by lia. now rewrite Z.shiftr_0_r.
Qed.
End Value.

(** * Field loads of a where clause on a packet

    [value] is what a field holds on a packet, by bytes: the window the code
    reads, of which the field's bits are taken. The loads compute it, leave
    for the fail label when a gate or an option says the field is absent,
    and reject past the packet: [where_fields] is what the arithmetic was
    proved against. *)

(** ** Code without symbols *)

Definition unlabelled (code : list Instruction) : Prop := Forall (fun i => Symbol i = []) code.

Lemma unlabelled_plain code : unlabelled code -> plain code.
Proof.
  unfold unlabelled. rewrite Forall_forall. intros Hc sym Hs. left. apply list_elem_of_fmap in Hs as (i & -> & Hi). now apply Hc.
Qed.

Lemma unlabelled_notin code sym : unlabelled code -> has_text sym = true -> sym ∉ symbols code.
Proof.
  unfold unlabelled. rewrite Forall_forall. intros Hc Hs Hin. apply list_elem_of_fmap in Hin as (i & E & Hi). rewrite (Hc i Hi) in E. now subst.
Qed.

Ltac unlab := unfold unlabelled; repeat first [apply Forall_nil_2 | apply Forall_cons_2; [reflexivity|] | apply Forall_app_2 | case_match].

Lemma fold_unlabelled dst src off fail : unlabelled (foldOffsetIntoScalar dst src off fail).
Proof. unfold foldOffsetIntoScalar. unlab. Qed.

Lemma bounded_unlabelled dst a b c size fail : unlabelled (boundedScalarLoad dst a b c size fail).
Proof. unfold boundedScalarLoad. unlab. Qed.

Lemma field_load_unlabelled dst a off size fail : unlabelled (emitFieldLoadTo dst a off size fail).
Proof.
  unfold emitFieldLoadTo. repeat case_match; try (unlab; fail);
    unfold unlabelled; rewrite ?Forall_app; repeat split; first [apply fold_unlabelled|apply bounded_unlabelled|unlab].
Qed.

Lemma option_load_unlabelled slot off size fail : unlabelled (emitDynamicAuxByteLoad slot off size fail).
Proof. unfold emitDynamicAuxByteLoad, unlabelled. rewrite !Forall_app. repeat split; first [apply fold_unlabelled|apply bounded_unlabelled|unlab]. Qed.

Lemma gating_unlabelled g a fail : unlabelled (emitAuxGating g a fail).
Proof.
  unfold emitAuxGating, emitFieldLoad. destruct g as [g|]; [|unlab]. unfold unlabelled. rewrite !Forall_app. repeat split; [apply field_load_unlabelled|unlab..].
Qed.

Lemma loadConst_unlabelled dst v : unlabelled (loadConst dst v).
Proof. unfold loadConst. unlab. Qed.

Lemma value_unlabelled ref n size : unlabelled (emitFieldValue ref n size).
Proof.
  unfold emitFieldValue. destruct (if sliceSplitsLoad _ then _ else _); [unlab|]. unfold unlabelled. rewrite Forall_app. split; [unlab|].
  unfold emitSliceShiftMask. destruct (slicePostAdjust _ _) as [shift mask]. destruct (_ && _); [unlab|]. rewrite Forall_app. split; [unlab|].
  destruct (_ && _); [|unlab]. destruct (_ <=? _); [unlab|]. rewrite Forall_app. split; [apply loadConst_unlabelled|unlab].
Qed.

(** ** What a packet holds *)

(** Scratch that the plan keeps values in lies below the arithmetic's. *)
Definition plan_slot (x : Z) : Prop := -512 <= x <= -184.

Definition gate_holds (g : AuxGating) (b : Z) : bool :=
  match GateOp g with GatingEq => Z.land b (GateMask g) =? GateValue g | GatingNe => negb (Z.land b (GateMask g) =? GateValue g) end.

Section Where.
Context `{HKern : Kernel} `{HV : AuxVocab} `{HP : WherePlan}.
Context (fd : Z) (key : list Z) (base : Z) (P : list Z) (start wb : LayerInstance -> Z) (opt : FieldRef -> Z).

(** The states the where clause runs in: the packet between R0 and R1,
    where every layer starts, the byte a walk wrote back, and where it
    found every option. *)
Record site (s : st) : Prop := mkSiteState {
  site_packet : packet fd key base P s;
  site_anchor : forall l a, layerAnchorFor l = Ok a ->
    anchored a (start l) (wb l) s /\ (UseSlot a = true -> plan_slot (SlotOff a)) /\ (WriteBack a = true -> plan_slot (WriteBackSlot a));
  site_option : forall f slot, optionSlotFor f = Some slot -> plan_slot slot /\ in_u64 (opt f) /\ ldst slot 8 s = Some (Num (opt f))
}.

(** The bytes a load off a layer's anchor sees. *)
Definition piece (l : LayerInstance) (off n : Z) : seen (list Z) :=
  match layerAnchorFor l with
  | Err _ => Missing
  | Ok a =>
      if WriteBack a && (off =? WriteBackOff a) && (n =? 1) then Present [wb l]
      else
        let p := if runtime a then u64 (start l + off) else start l + off in
        if p + n <=? (if runtime a then bound P else len P) then Present (window P p (Z.to_nat n)) else Beyond
  end.

(** The bytes of an option; one that was not found, or that is not inside
    the window, is absent. *)
Definition option_bytes (at_ off n : Z) : seen (list Z) :=
  if at_ =? u64 dynamicAuxSentinel then Missing
  else let p := u64 (at_ + off) in if p + n <=? bound P then Present (window P p (Z.to_nat n)) else Missing.

Definition option_piece (f : FieldRef) (off n : Z) : seen (list Z) := option_bytes (opt f) off n.

Definition gate_verdict (f : FieldRef) : verdict :=
  match Aux f ≫= Gating with
  | None => Present tt
  | Some g => sbind (piece (RefLayer f) (GateByteOff g) 1) (fun bs => test (gate_holds g (unle bs)))
  end.

(** Where the header (or entry) a field is in starts in its layer. *)
Definition header_at (f : FieldRef) : Z :=
  if dynamicAuxLayoutOf f then match dynamicOffsetAuxEntryOff f with Ok b => b | Err _ => 0 end
  else match Aux f with
       | None => 0
       | Some a => OffsetInLayer a + match Ir.Stack a with Some st => Static st * HeaderSize a | None => 0 end
       end.

Definition split_bytes (l : LayerInstance) (off : Z) : seen (list Z) :=
  sbind (piece l (off + 8) 1) (fun b => sbind (piece l off 8) (fun h => Present (h ++ b))).

Definition value64 (f : FieldRef) : seen Z :=
  let f := splitBareField f in
  match scalarFieldWindow f with
  | Err _ => Missing
  | Ok (off, n) =>
      let bytes := if dynamicAuxLayoutOf f then option_piece f off n
                   else sbind (gate_verdict f) (fun _ => if n =? sliceSplitWindow then split_bytes (RefLayer f) off else piece (RefLayer f) off n) in
      sbind bytes (fun bs => Present (value_of f (off - header_at f) bs))
  end.

(** The two halves of a 128-bit field. *)
Definition half128 (f : FieldRef) (k : Z) : seen Z :=
  match Aux f with
  | Some aux =>
      match optionSlotFor f with
      | Some _ => match dynamicOffsetAuxByteOff f with Ok off => sbind (option_piece f (off + k) 8) (fun bs => Present (unle bs)) | Err _ => Missing end
      | None => match auxStaticByteOffset aux with Ok off => sbind (piece (RefLayer f) (off + k) 8) (fun bs => Present (unle bs)) | Err _ => Missing end
      end
  | None =>
      match primary f with
      | None => Missing
      | Some (fd, spec) =>
          match findFieldByteOffset128 spec (Name fd) with
          | Ok (off, _) => sbind (piece (RefLayer f) (off + k) 8) (fun bs => Present (unle bs))
          | Err _ => Missing
          end
      end
  end.

Definition presence128 (f : FieldRef) : verdict :=
  match Aux f with Some _ => if is_Some_b (optionSlotFor f) then Present tt else gate_verdict f | None => Present tt end.

Definition value128 (f : FieldRef) : seen Z :=
  sbind (presence128 f) (fun _ => sbind (half128 f 0) (fun h => sbind (half128 f 8) (fun l => Present (to_be 8 h * 2 ^ 64 + to_be 8 l)))).

Definition value (f : FieldRef) : seen Z := if EffectiveBits f =? 128 then value128 f else value64 f.

(** ** The site is kept *)

Lemma ldst_plan slot s s' : plan_slot slot -> upto scratch_slots s s' -> ldst slot 8 s' = ldst slot 8 s.
Proof.
  intros Hp [_ _ K _]. apply ldst_agree. intros k Hk. apply K. intros d Hd. unfold plan_slot, scratch_slots, in_slot, arithStackBase in *. lia.
Qed.

Lemma site_kept s s' : site s -> upto scratch_slots s s' -> site s'.
Proof.
  intros [Hpk Ha Ho] U. split.
  - now apply (packet_upto _ _ _ _ scratch_slots s).
  - intros l a E. destruct (Ha l a E) as ([Hu Hs Hw] & P1 & P2). split; [|split; assumption]. split; [exact Hu| |].
    + destruct (UseSlot a); [rewrite (ldst_plan _ s) by auto; exact Hs|]. destruct (UseR4 a); [|exact Hs].
      rewrite (upto_getr _ _ _ _ U) by discriminate. exact Hs.
    + intros Ew. rewrite (ldst_plan _ s) by auto. now apply Hw.
  - intros f slot E. destruct (Ho f slot E) as (Hp & Hu & Hl). splits; auto. now rewrite (ldst_plan _ s).
Qed.

Lemma site_none s s' : site s -> upto no_slots s s' -> site s'.
Proof. intros Hs U. apply (site_kept s); [exact Hs|]. eapply upto_weaken; [|exact U]. intros d []. Qed.

(** ** The loads *)

Hypothesis HPb : Forall byte P.
Hypothesis Hwb : forall l, byte (wb l).

Lemma window_byte p n : Forall byte (window P p n).
Proof. unfold window. apply Forall_take, Forall_drop, HPb. Qed.

(** [bs] is what a load of [size] leaves in [dst]. *)
Definition loaded (dst : Z) (size : Size_) (s : st) (bs : list Z) (t : st) : Prop :=
  t = setr dst (Num (unle bs)) s /\ Z.of_nat (length bs) = Sizeof size /\ Forall byte bs.

Lemma size_one size : size_bytes size -> bool_decide (size = Byte) = (Sizeof size =? 1).
Proof. intros [->|[->|[->| ->]]]; reflexivity. Qed.

Lemma u64_le z : 0 <= u64 z.
Proof. apply u64_range. Qed.

Lemma piece_runs dst l a off size fail s :
  layerAnchorFor l = Ok a -> site s -> scratch_reg dst -> size_bytes size -> 0 <= off < 2 ^ 29 ->
  runs (only dst s) (loaded dst size s) (emitFieldLoadTo dst a off size dslReject) fail s (piece l off (Sizeof size)).
Proof.
  intros El Hs Hd Hsz Ho. destruct (site_anchor _ Hs l a El) as (Han & _). pose proof (i16_size size Hsz) as (_ & _ & Hn).
  pose proof (field_load fd key base P dst a (start l) (wb l) off size dslReject s (site_packet _ Hs) Han Hd Hsz eq_refl Ho) as Hr.
  unfold piece. rewrite El. unfold reads in Hr. rewrite size_one in Hr by exact Hsz. destruct (WriteBack a && _ && _) eqn:Eb.
  { destruct Hr as (t & E & O & ->). exists (setr dst (Num (wb l)) s). split; [exact E|]. split; [exact O|].
    bools. split; [cbn [unle fold_right]; do 3 f_equal; lia|]. split; [cbn [length]; lia|]. constructor; [apply Hwb|constructor]. }
  assert (Hgen : forall p lim, 0 <= p -> lim <= len P -> runs (only dst s) (fun raw t => t = setr dst (Num raw) s) (emitFieldLoadTo dst a off size dslReject) dslReject s (load_at P lim p (Z.to_nat (Sizeof size))) ->
    runs (only dst s) (loaded dst size s) (emitFieldLoadTo dst a off size dslReject) fail s (if p + Sizeof size <=? lim then Present (window P p (Z.to_nat (Sizeof size))) else Beyond)).
  { intros p lim Hp Hlim. unfold load_at. rewrite size_nat by exact Hsz. destruct (Z.leb_spec (p + Sizeof size) lim); [|exact id].
    intros (t & E & O & ->). eexists. split; [exact E|]. split; [exact O|]. split; [reflexivity|]. split; [|apply window_byte].
    rewrite window_length; [now apply size_nat|exact Hp|rewrite size_nat by exact Hsz; lia]. }
  destruct Han as [Hu Ha _]. cbv zeta. destruct (runtime a) eqn:Er; apply Hgen; try exact Hr; try (unfold bound; lia); [apply u64_le|unfold in_u64 in Hu; lia].
Qed.

(** A load off a position kept in a slot. *)
Lemma slot_runs at_ slot off size fail s :
  plan_slot slot -> in_u64 at_ -> ldst slot 8 s = Some (Num at_) -> site s -> size_bytes size -> has_text fail = true -> 0 <= off < 2 ^ 29 ->
  runs (upto no_slots s) (fun bs t => getr R3 t = Some (Num (unle bs)) /\ Z.of_nat (length bs) = Sizeof size /\ Forall byte bs)
    (emitDynamicAuxByteLoad slot off size fail) fail s (option_bytes at_ off (Sizeof size)).
Proof.
  intros Hpl Hu Hl Hs Hsz Hf Ho. unfold emitDynamicAuxByteLoad, option_bytes. rewrite (i32_small off) by lia.
  assert (Hfr : in_frame slot 8 = true) by (unfold in_frame, plan_slot in *; apply andb_true_intro; split; apply Z.leb_le; lia).
  set (s1 := setr R3 (Num (at_)) s). assert (U1 : upto no_slots s s1) by (apply upto_setr; auto).
  assert (E1 : forall l, exec (LoadMem R3 RFP slot DWord :: JImm JEq R3 dynamicAuxSentinel fail :: l) None s =
    if at_ =? u64 dynamicAuxSentinel then exec l (Some fail) s1 else exec l None s1).
  { intros l. erewrite exec_load_stack; [|discriminate|apply getr_fp|exact Hfr|exact Hl].
    erewrite exec_JImm; [reflexivity|apply getr_same; discriminate|reflexivity|exact Hf]. }
  destruct (at_ =? u64 dynamicAuxSentinel) eqn:Es.
  { exists s1. split; [|exact U1]. cbn [app]. rewrite E1. apply exec_skip, unlabelled_notin; [|exact Hf].
    unfold unlabelled. rewrite Forall_app. split; [apply fold_unlabelled|apply bounded_unlabelled]. }
  eapply runs_exec; [cbn [app]; rewrite E1; rewrite fold_offset with (o := at_) by (try lia; try discriminate; try assumption; apply getr_same; discriminate); reflexivity|].
  set (s2 := setr R5 _ s1). assert (U2 : upto no_slots s s2) by (eapply upto_trans; [exact U1|apply upto_setr; auto]).
  pose proof (bounded_load fd key base P R3 R5 size fail s2 (u64 (at_ + off)) (site_packet _ (site_none _ _ Hs U2))
    ltac:(unfold scratch_reg; auto) Hsz Hf ltac:(discriminate) ltac:(apply getr_same; discriminate) (u64_le _)) as Hr.
  unfold load_at in Hr. rewrite size_nat in Hr by exact Hsz. cbv zeta. destruct (_ <=? bound P) eqn:Eb.
  - destruct Hr as (t & E2 & O & ->). eexists. split; [exact E2|]. split; [eapply upto_trans; [exact U2|apply upto_setr; auto]|].
    split; [apply getr_same; discriminate|]. split; [|apply window_byte]. rewrite window_length; [now apply size_nat|apply u64_le|].
    rewrite size_nat by exact Hsz. unfold bound in Eb. bools. lia.
  - destruct Hr as (t & E2 & O). exists t. split; [exact E2|]. eapply upto_trans; [exact U2|]. apply (only_upto no_slots R3); [unfold scratch_reg; auto|exact O].
Qed.

Lemma option_runs f slot off size fail s :
  optionSlotFor f = Some slot -> site s -> size_bytes size -> has_text fail = true -> 0 <= off < 2 ^ 29 ->
  runs (upto no_slots s) (fun bs t => getr R3 t = Some (Num (unle bs)) /\ Z.of_nat (length bs) = Sizeof size /\ Forall byte bs)
    (emitDynamicAuxByteLoad slot off size fail) fail s (option_piece f off (Sizeof size)).
Proof. intros E Hs. destruct (site_option _ Hs f slot E) as (Hpl & Hu & Hl). now apply slot_runs. Qed.

(** The gate of an aux header. *)
Lemma gating_runs f a fail s :
  layerAnchorFor (RefLayer f) = Ok a -> site s -> has_text fail = true -> (forall g, Aux f ≫= Gating = Some g -> gating_ok g) ->
  runs (upto no_slots s) (fun _ _ => True) (emitAuxGating (Aux f ≫= Gating) a fail) fail s (gate_verdict f).
Proof.
  intros El Hs Hf Hg. unfold gate_verdict, emitAuxGating. destruct (Aux f ≫= Gating) as [g|]; [|exists s; split; [reflexivity|split; [apply upto_refl|exact I]]].
  destruct (Hg g eq_refl) as (Ho & Hm & Hv). unfold small in *. clear Hg. unfold emitFieldLoad.
  set (tail := [Imm And R3 (i32 (GateMask g))] ++ _). assert (Ut : unlabelled tail) by (unfold tail; destruct (GateOp g); unlab).
  eapply runs_app; [apply (piece_runs R3 (RefLayer f) a (GateByteOff g) Byte fail s El Hs); [unfold scratch_reg; auto|now left|lia]| | | |].
  - intros bs t _ O (-> & _ & _). set (s1 := setr R3 (Num (unle bs)) s). assert (U1 : upto no_slots s s1) by (apply upto_setr; auto).
    set (x := Z.land (unle bs) (GateMask g)). set (s2 := setr R3 (Num x) s1). assert (U2 : upto no_slots s s2) by (eapply upto_trans; [exact U1|apply upto_setr; auto]).
    assert (Em : forall z, 0 <= z < 2 ^ 20 -> u64 (i32 z) = z) by (intros z Hz; rewrite i32_small by lia; apply u64_small; unfold in_u64, two64; lia).
    assert (E : forall l, exec (Imm And R3 (i32 (GateMask g)) :: l) None s1 = exec l None s2).
    { intros l. erewrite exec_Imm; [reflexivity|discriminate|discriminate|discriminate|apply getr_same; discriminate|]. rewrite Em by exact Hm. reflexivity. }
    unfold tail, gate_holds. cbn [app]. destruct (GateOp g).
    + destruct (x =? GateValue g) eqn:Ex; unfold x in Ex; rewrite Ex; cbn [test runs]; exists s2; rewrite E;
        (erewrite exec_JImm; [|apply getr_same; discriminate|rewrite Em by exact Hv; cbn; unfold x; rewrite Ex; reflexivity|exact Hf]); cbn [negb]; auto.
    + destruct (x =? GateValue g) eqn:Ex; unfold x in Ex; rewrite Ex; cbn [test runs negb]; exists s2; rewrite E;
        (erewrite exec_JImm; [|apply getr_same; discriminate|rewrite Em by exact Hv; cbn; unfold x; rewrite Ex; reflexivity|exact Hf]); auto.
  - intros t. apply only_upto. unfold scratch_reg; auto.
  - now apply unlabelled_notin.
  - now apply unlabelled_notin.
Qed.

(** ** The value of a scalar field *)

Lemma aux_known f aux : ref_ok f -> Aux f = Some aux -> aux_ok aux.
Proof. intros (Hk & _) Ha. unfold field_known in Hk. rewrite Ha in Hk. now destruct (RefField f), (Spec (RefLayer f)). Qed.

Lemma entry_small f b : ref_ok f -> dynamicOffsetAuxEntryOff f = Ok b -> small b.
Proof.
  intros Hok E. unfold dynamicOffsetAuxEntryOff in E. destruct (Aux f) as [aux|] eqn:Ea; [|discriminate].
  case_if E; [injection E as <-; unfold small; lia|]. destruct (Ir.Stack aux) as [ix|] eqn:Ei; [|discriminate]. case_if E; [discriminate|]. injection E as <-.
  destruct (aux_known f aux Hok Ea) as (_ & _ & _ & _ & Hst). bools. now apply Hst.
Qed.
(** Entries of a runtime offset are not read. *)

Lemma window_covers ref off n :
  whole ref -> ref_ok ref -> scalarFieldWindow ref = Ok (off, n) -> dynamicAuxLayoutOf ref = true \/ needsEntryAddress ref = false ->
  covers ref (off - header_at ref) n /\ 0 <= header_at ref < 2 ^ 22.
Proof.
  intros Hwh Hok E Hd. pose proof Hok as (Hk & _). unfold scalarFieldWindow, header_at in *. destruct (dynamicAuxLayoutOf ref) eqn:Edy.
  - apply result_bind_ok in E as (b & Eb & E). rewrite Eb. apply result_bind_ok in E as ([st sz] & Ew & [= <- <-]).
    pose proof (entry_small _ _ Hok Eb) as Hs. unfold small in Hs. split; [|lia]. replace (b + st - b) with st by lia.
    destruct (Aux ref) as [a|] eqn:Ea; [now apply (aux_covers ref a)|]. unfold auxFieldWindow in Ew. rewrite Hwh, Ea in Ew. discriminate.
  - destruct Hd as [|Hd]; [discriminate|]. rewrite Hd in E. destruct (Aux ref) as [a|] eqn:Ea.
    + unfold fieldRefByteOffset in E. rewrite Hwh, Ea in E. apply result_bind_ok in E as ([st sz] & Ew & E). apply (aux_covers ref a) in Ew; [|exact Hwh|exact Ea].
      unfold field_known in Hk. rewrite Ea in Hk. destruct (RefField ref); [|easy]. destruct (Spec (RefLayer ref)); [|easy]. destruct Hk as (Ho & _ & _ & _ & Hst). unfold small in *.
      unfold needsEntryAddress in *. rewrite Ea in *. cbn [mbind option_bind] in *. destruct (Ir.Stack a) as [ix|] eqn:Eix.
      * rewrite Hd in E. injection E as <- <-. apply orb_false_elim in Hd as [Hd _]. apply negb_false_iff in Hd. specialize (Hst ix eq_refl Hd). split; [|lia].
        now replace (OffsetInLayer a + st + Static ix * HeaderSize a - (OffsetInLayer a + Static ix * HeaderSize a)) with st by lia.
      * injection E as <- <-. split; [|lia]. now replace (OffsetInLayer a + st - (OffsetInLayer a + 0)) with st by lia.
    + apply (primary_covers ref) in E; auto. split; [|lia]. now rewrite Z.sub_0_r.
Qed.

Lemma window_bounds ref st n : ref_ok ref -> geometry ref st n -> 0 <= st < 2 ^ 19.
Proof.
  intros (Hk & Hf & _ & Hsl) [H0 Hlo _ _]. apply origin_small in Hk. unfold small, first_bit in *. destruct (Slice ref); lia.
Qed.

Lemma gating_known f : ref_ok f -> forall g, Aux f ≫= Gating = Some g -> gating_ok g.
Proof.
  intros (Hk & _) g Hg. unfold field_known in Hk. destruct (Aux f) as [a|]; [|discriminate]. destruct (RefField f); [|easy]. destruct (Spec (RefLayer f)); [|easy].
  destruct Hk as (_ & _ & _ & Hgo & _). now apply Hgo.
Qed.

Lemma gate_code f a fail : match Aux f with Some x => emitAuxGating (Gating x) a fail | None => [] end = emitAuxGating (Aux f ≫= Gating) a fail.
Proof. now destruct (Aux f). Qed.

(** What follows a load of whole bytes. *)
Lemma narrow_falls ref st size bs s t :
  whole ref -> ref_ok ref -> EffectiveBits ref <= 64 -> geometry ref st (Sizeof size) -> size_bytes size ->
  Z.of_nat (length bs) = Sizeof size -> Forall byte bs -> upto no_slots s t -> getr R3 t = Some (Num (unle bs)) ->
  runs (upto no_slots s) (fun v t => getr R3 t = Some (Num v)) (emitFieldValue ref (Sizeof size) size) dslReject t (Present (value_of ref st bs)).
Proof.
  intros Hwh Hok Hw Hg Hsz Hl Hb U G. pose proof (ref_ok_width ref Hok) as Hw2.
  destruct (value_runs ref st size bs t Hwh Hg Hsz ltac:(lia) Hl Hb G) as (t' & E & U' & G'). exists t'. split; [exact E|]. split; [|exact G'].
  eapply upto_trans; [exact U|exact U'].
Qed.

Lemma runs_present {A} (F : st -> Prop) (Q : A -> st -> Prop) code fail fail' s a : runs F Q code fail s (Present a) -> runs F Q code fail' s (Present a).
Proof. exact id. Qed.

(** A load off the layer's anchor, and the value. *)
Lemma plain_load_runs ref a off st size fail s :
  layerAnchorFor (RefLayer ref) = Ok a -> site s -> whole ref -> ref_ok ref -> EffectiveBits ref <= 64 -> size_bytes size ->
  geometry ref st (Sizeof size) -> 0 <= off < 2 ^ 29 -> has_text fail = true ->
  runs (upto no_slots s) (fun v t => getr R3 t = Some (Num v)) (emitFieldLoad a off size ++ emitFieldValue ref (Sizeof size) size) fail s
    (sbind (piece (RefLayer ref) off (Sizeof size)) (fun bs => Present (value_of ref st bs))).
Proof.
  intros El Hs Hwh Hok Hw Hsz Hg Ho Hf. unfold emitFieldLoad. pose proof (value_unlabelled ref (Sizeof size) size) as Uv.
  eapply runs_app; [apply (piece_runs R3 (RefLayer ref) a off size fail s El Hs); [unfold scratch_reg; auto|exact Hsz|exact Ho]| | |now apply unlabelled_notin|now apply unlabelled_notin].
  - intros bs t _ _ (-> & Hl & Hb). apply (runs_present _ _ _ dslReject). apply narrow_falls; auto; [apply upto_setr; auto|apply getr_same; discriminate].
  - intros t. apply only_upto. unfold scratch_reg; auto.
Qed.

(** The load of nine bytes, and the value. *)
Lemma split_load_runs ref a off st fail s :
  layerAnchorFor (RefLayer ref) = Ok a -> site s -> whole ref -> ref_ok ref -> EffectiveBits ref <= 64 ->
  geometry ref st 9 -> 0 <= off < 2 ^ 28 -> has_text fail = true ->
  runs (upto no_slots s) (fun v t => getr R3 t = Some (Num v))
    (emitFieldLoadTo R2 a (off + 8) Byte dslReject ++ emitFieldLoad a off DWord ++ emitFieldValue ref 8 DWord) fail s
    (sbind (split_bytes (RefLayer ref) off) (fun bs => Present (value_of ref st bs))).
Proof.
  intros El Hs Hwh Hok Hw Hg Ho Hf. unfold emitFieldLoad, split_bytes. pose proof (value_unlabelled ref 8 DWord) as Uv. pose proof (ref_ok_width ref Hok) as Hw2.
  replace (sbind (sbind _ _) _) with (sbind (piece (RefLayer ref) (off + 8) 1) (fun b => sbind (piece (RefLayer ref) off 8) (fun h => Present (value_of ref st (h ++ b)))))
    by (destruct (piece _ _ 1); [|reflexivity..]; now destruct (piece _ _ 8)).
  assert (Uc : unlabelled (emitFieldLoadTo R3 a off DWord dslReject ++ emitFieldValue ref 8 DWord)) by (apply Forall_app; split; [apply field_load_unlabelled|exact Uv]).
  eapply runs_app; [apply (piece_runs R2 (RefLayer ref) a (off + 8) Byte fail s El Hs); [unfold scratch_reg; auto|now left|lia]| | |now apply unlabelled_notin|now apply unlabelled_notin].
  - intros b t _ _ (-> & Hlb & Hb). set (s1 := setr R2 (Num (unle b)) s). assert (U1 : upto no_slots s s1) by (apply upto_setr; auto).
    eapply runs_app; [apply (piece_runs R3 (RefLayer ref) a off DWord fail s1 El (site_none _ _ Hs U1)); [unfold scratch_reg; auto|unfold size_bytes; auto|lia]| | |now apply unlabelled_notin|now apply unlabelled_notin].
    + intros h t _ _ (-> & Hlh & Hh).
      destruct (split_value_runs ref st h b (setr R3 (Num (unle h)) s1) Hwh Hg) as (t' & E & U' & G'); auto; [lia|cbn in Hlh; lia|cbn in Hlb; lia|apply getr_same; discriminate| |].
      { rewrite getr_other by discriminate. apply getr_same. discriminate. }
      exists t'. split; [exact E|]. split; [|exact G']. eapply upto_trans; [exact U1|]. eapply upto_trans; [|exact U']. apply upto_setr; auto.
    + intros t O. eapply upto_trans; [exact U1|]. apply (only_upto no_slots R3); [unfold scratch_reg; auto|exact O].
  - intros t. apply only_upto. unfold scratch_reg; auto.
Qed.

Lemma emitFieldValue_split f n size : emitFieldValue (splitBareField f) n size = emitFieldValue f n size.
Proof. unfold emitFieldValue. now rewrite (splitBareField_whole f : splitBareField (splitBareField f) = splitBareField f). Qed.

Lemma scalar_code f site0 code :
  scalarFieldValue f site0 = Ok code -> exists off n, scalarFieldWindow (splitBareField f) = Ok (off, n) /\
    ((n = 9 /\ exists insns, emitSplitSliceLoad (splitBareField f) site0 off = Ok (insns, 8, DWord) /\ code = insns ++ emitFieldValue (splitBareField f) 8 DWord) \/
     (n <> 9 /\ exists insns size, size_bytes size /\ Sizeof size = n /\ code = insns ++ emitFieldValue (splitBareField f) n size /\
      if dynamicAuxLayoutOf (splitBareField f) then exists slot, optionSlot site0 (splitBareField f) = Some slot /\ insns = emitDynamicAuxByteLoad slot off size (fail_ site0)
      else if needsEntryAddress (splitBareField f) then exists addr, entryAddr site0 (splitBareField f) (gate site0) (fail_ site0) = Ok addr
      else insns = emitAuxGating (Aux (splitBareField f) ≫= Gating) (gate site0) (fail_ site0) ++ emitFieldLoad (load_ site0) off size)).
Proof.
  unfold scalarFieldValue. intros E. apply result_bind_ok in E as ([[insns n] size] & E & [= <-]). rewrite <- emitFieldValue_split.
  unfold emitScalarFieldLoad in E. set (ref := splitBareField f) in *. apply result_bind_ok in E as ([off n0] & Ew & E). exists off, n0. split; [exact Ew|].
  destruct (Z.eqb_spec n0 sliceSplitWindow) as [E9|E9].
  - left. split; [exact E9|]. unfold emitSplitSliceLoad in *. destruct (dynamicAuxLayoutOf ref); [discriminate|]. destruct (needsEntryAddress ref).
    + apply result_bind_ok in E as (addr & Ea & [= <- <- <-]). rewrite Ea. cbn [result_bind]. eexists. split; reflexivity.
    + injection E as <- <- <-. eexists. split; reflexivity.
  - right. split; [exact E9|]. apply result_bind_ok in E as (sz & Es & E). apply asmSizeFor_ok in Es as [Hsz Hn].
    destruct (dynamicAuxLayoutOf ref); [|destruct (needsEntryAddress ref)].
    + destruct (optionSlot site0 ref) as [slot|]; [|discriminate]. injection E as <- <- <-. do 2 eexists. split; [exact Hsz|]. split; [exact Hn|]. split; [reflexivity|]. now exists slot.
    + apply result_bind_ok in E as (addr & Ea & [= <- <- <-]). do 2 eexists. split; [exact Hsz|]. split; [exact Hn|]. split; [reflexivity|]. now exists addr.
    + injection E as <- <- <-. do 2 eexists. split; [exact Hsz|]. split; [exact Hn|]. split; [reflexivity|]. now rewrite gate_code.
Qed.

Lemma ref_ok_place f : ref_ok f -> needsEntryAddress f = false.
Proof. intros (_ & _ & _ & _ & Hne). exact Hne. Qed.

Lemma whereFieldLoad_plain f fail code : whereFieldLoad f fail = Ok code -> ref_ok f -> unlabelled code.
Proof.
  unfold whereFieldLoad. intros E Hok. destruct (splitBareField_same f Hok) as (Hne%ref_ok_place & _). apply result_bind_ok in E as (a & _ & E). apply scalar_code in E as (off & n & _ & E). cbn [gate load_ entryAddr optionSlot fail_] in E.
  destruct E as [(_ & insns & E & ->)|(_ & insns & size & _ & _ & -> & E)]; unfold unlabelled; (rewrite Forall_app; split; [|apply value_unlabelled]).
  - unfold emitSplitSliceLoad in E. destruct (dynamicAuxLayoutOf _); [discriminate|]. rewrite Hne in E.
    + rewrite gate_code in E. injection E as <-. rewrite !Forall_app. repeat split; [apply gating_unlabelled|apply field_load_unlabelled..].
  - destruct (dynamicAuxLayoutOf _); [destruct E as (slot & _ & ->); apply option_load_unlabelled|]. rewrite Hne in E.
    + subst insns. rewrite !Forall_app. split; [apply gating_unlabelled|apply field_load_unlabelled].
Qed.

Lemma value64_runs f fail code s :
  whereFieldLoad f fail = Ok code -> ref_ok f -> EffectiveBits f <= 64 -> has_text fail = true -> site s ->
  runs (upto no_slots s) (fun v t => getr R3 t = Some (Num v)) code fail s (value64 f).
Proof.
  intros E Hok Hw Hf Hs. unfold whereFieldLoad in E. apply result_bind_ok in E as (a & El & E). apply scalar_code in E as (off & n & Ew & E).
  cbn [gate load_ entryAddr optionSlot fail_] in E. destruct (splitBareField_same f Hok) as (Hok' & Hw' & _ & Hl' & _ & _).
  unfold value64. set (ref := splitBareField f) in *. rewrite Ew. rewrite <- Hl' in El. rewrite <- Hw' in Hw. assert (Hwh : whole ref) by apply splitBareField_whole.
  assert (Hgeo : dynamicAuxLayoutOf ref = true \/ needsEntryAddress ref = false -> geometry ref (off - header_at ref) n /\ 0 <= off < 2 ^ 28).
  { intros Hd. destruct (window_covers ref off n Hwh Hok' Ew Hd) as [Hc Hh]. pose proof (covers_geometry ref _ _ Hwh Hok' Hw Hc) as Hg.
    pose proof (window_bounds ref _ _ Hok' Hg). split; [exact Hg|lia]. }
  assert (Hgate : forall c r, dynamicAuxLayoutOf ref = false -> unlabelled c ->
    (forall t, site t -> runs (upto no_slots t) (fun v t => getr R3 t = Some (Num v)) c fail t r) ->
    runs (upto no_slots s) (fun v t => getr R3 t = Some (Num v)) (emitAuxGating (Aux ref ≫= Gating) a fail ++ c) fail s (sbind (gate_verdict ref) (fun _ => r))).
  { intros c r _ Uc Hr. eapply runs_app; [apply (gating_runs ref a fail s El Hs Hf (gating_known ref Hok'))| |auto|now apply unlabelled_notin|now apply unlabelled_notin].
    intros _ t _ U _. eapply runs_weaken; [| |apply Hr, (site_none _ _ Hs U)]; [|auto]. intros t' U'. now apply (upto_trans _ s t). }
  destruct E as [(-> & insns & E & ->)|(Hn9 & insns & size & Hsz & <- & -> & E)].
  - unfold emitSplitSliceLoad in E. cbn [gate load_ entryAddr optionSlot fail_] in E. destruct (dynamicAuxLayoutOf ref) eqn:Ed; [discriminate|]. rewrite (ref_ok_place ref Hok') in E.
    rewrite gate_code in E. injection E as <-. destruct (Hgeo (or_intror (ref_ok_place ref Hok'))) as [Hg Ho]. change (9 =? sliceSplitWindow) with true. cbv iota.
    rewrite <- app_assoc. replace (sbind (sbind _ _) _) with (sbind (gate_verdict ref) (fun _ => sbind (split_bytes (RefLayer ref) off) (fun bs => Present (value_of ref (off - header_at ref) bs))))
      by (destruct (gate_verdict ref); reflexivity).
    apply Hgate; [reflexivity|unfold unlabelled; rewrite !Forall_app; repeat split; [apply field_load_unlabelled..|apply value_unlabelled]|].
    intros t St. rewrite <- app_assoc. now apply split_load_runs.
  - destruct (dynamicAuxLayoutOf ref) eqn:Ed.
    + destruct E as (slot & Eo & ->). destruct (Hgeo (or_introl eq_refl)) as [Hg Ho]. pose proof (value_unlabelled ref (Sizeof size) size) as Uv.
      eapply runs_app; [apply (option_runs ref slot off size fail s Eo Hs Hsz Hf); lia| |auto|now apply unlabelled_notin|now apply unlabelled_notin].
      intros bs t _ U (G & Hlb & Hb). apply (runs_present _ _ _ dslReject). now apply narrow_falls.
    + rewrite (ref_ok_place ref Hok') in E. subst insns. destruct (Hgeo (or_intror (ref_ok_place ref Hok'))) as [Hg Ho].
      rewrite (proj2 (Z.eqb_neq _ sliceSplitWindow)) by exact Hn9. rewrite <- app_assoc.
      replace (sbind (sbind _ _) _) with (sbind (gate_verdict ref) (fun _ => sbind (piece (RefLayer ref) off (Sizeof size)) (fun bs => Present (value_of ref (off - header_at ref) bs))))
        by (destruct (gate_verdict ref); reflexivity).
      apply Hgate; [reflexivity|unfold unlabelled; rewrite !Forall_app; split; [apply field_load_unlabelled|apply value_unlabelled]|].
      intros t St. apply plain_load_runs; auto. lia.
Qed.

(** ** 128 bits *)

Lemma dword : size_bytes DWord.
Proof. unfold size_bytes. auto. Qed.

Lemma piece_half l a off fail s :
  layerAnchorFor l = Ok a -> site s -> 0 <= off < 2 ^ 29 ->
  runs (upto no_slots s) (fun raw t => getr R3 t = Some (Num raw) /\ site t) (emitFieldLoad a off DWord) fail s
    (sbind (piece l off 8) (fun bs => Present (unle bs))).
Proof.
  intros El Hs Ho. unfold emitFieldLoad. pose proof (piece_runs R3 l a off DWord fail s El Hs ltac:(unfold scratch_reg; auto) dword Ho) as Hr.
  change (Sizeof DWord) with 8 in Hr. destruct (piece l off 8) as [bs| |]; cbn [sbind runs] in *; destruct Hr as (t & E & O);
    [destruct O as (O & -> & _)|..]; (eexists; split; [exact E|]); try (apply (only_upto no_slots R3); [unfold scratch_reg; auto|exact O]).
  assert (U : upto no_slots s (setr R3 (Num (unle bs)) s)) by (apply upto_setr; auto). split; [exact U|]. split; [apply getr_same; discriminate|now apply (site_none s)].
Qed.

Lemma option_half f slot off fail s :
  optionSlotFor f = Some slot -> site s -> has_text fail = true -> 0 <= off < 2 ^ 29 ->
  runs (upto no_slots s) (fun raw t => getr R3 t = Some (Num raw) /\ site t) (emitDynamicAuxByteLoad slot off DWord fail) fail s
    (sbind (option_piece f off 8) (fun bs => Present (unle bs))).
Proof.
  intros Eo Hs Hf Ho. pose proof (option_runs f slot off DWord fail s Eo Hs dword Hf Ho) as Hr. change (Sizeof DWord) with 8 in Hr.
  destruct (option_piece f off 8) as [bs| |]; cbn [sbind runs] in *; [|exact Hr..]. destruct Hr as (t & E & U & G & _). exists t. split; [exact E|].
  split; [exact U|]. split; [exact G|now apply (site_none s)].
Qed.

Lemma site_scratch t d w x : site t -> 0 <= d < 16 -> site (park d w (setr R3 x t)).
Proof.
  intros Hs Hd. apply (site_kept t); [exact Hs|]. eapply upto_trans; [apply upto_setr; right; left; reflexivity|]. now apply upto_park.
Qed.

Lemma site_setr3 t x : site t -> site (setr R3 x t).
Proof. intros Hs. apply (site_none t); [exact Hs|]. apply upto_setr; auto. Qed.

Lemma halves_at f fail s pre at_ :
  EffectiveBits f = 128 -> site s ->
  runs (upto no_slots s) (fun _ _ => True) pre fail s (presence128 f) ->
  (forall k t, k = 0 \/ k = 8 -> site t -> runs (upto no_slots t) (fun raw t' => getr R3 t' = Some (Num raw) /\ site t') (at_ k) fail t (half128 f k)) ->
  exists presence half ready, halves_ok s pre at_ fail (value f) presence half ready.
Proof.
  intros Hw Hs Hpre Hat. exists (presence128 f), (half128 f), site. split.
  - intros t x d w. apply site_scratch.
  - intros t x. apply site_setr3.
  - eapply runs_weaken; [| |exact Hpre]; [auto|]. intros _ t U _. now apply (site_none s).
  - exact Hat.
  - unfold value. now rewrite Hw.
Qed.

Lemma runs_nothing s fail : runs (upto no_slots s) (fun (_ : unit) _ => True) [] fail s (Present tt).
Proof. exists s. split; [reflexivity|]. split; [apply upto_refl|exact I]. Qed.

Lemma whereField128_plain f fail pre at_ : whereField128 f fail = Ok (pre, at_) -> ref_ok f -> plain pre /\ forall k, plain (at_ k).
Proof.
  unfold whereField128. intros E Hne%ref_ok_place. destruct (Aux f) as [aux|].
  - case_if E; [discriminate|]. destruct (optionSlotFor f) as [slot|].
    + apply result_bind_ok in E as (b & _ & [= <- <-]). split; [apply plain_nil|]. intros k. apply unlabelled_plain, option_load_unlabelled.
    + apply result_bind_ok in E as (a & _ & E). rewrite Hne in E.
      * apply result_bind_ok in E as (b & _ & [= <- <-]). split; [|intros k]; apply unlabelled_plain; [apply gating_unlabelled|apply field_load_unlabelled].
  - apply result_bind_ok in E as (a & _ & E). destruct (primary f) as [[g spec]|]; [|discriminate]. apply result_bind_ok in E as ([b n] & _ & [= <- <-]).
    split; [apply plain_nil|]. intros k. apply unlabelled_plain, field_load_unlabelled.
Qed.

Lemma whereField128_runs f fail pre at_ s :
  whereField128 f fail = Ok (pre, at_) -> ref_ok f -> EffectiveBits f = 128 -> has_text fail = true -> site s ->
  exists presence half ready, halves_ok s pre at_ fail (value f) presence half ready.
Proof.
  unfold whereField128. intros E Hok Hw Hf Hs. destruct (Aux f) as [aux|] eqn:Ea.
  - pose proof (aux_known f aux Hok Ea) as (Ho & Hb & _ & _ & Hst). unfold small in *. case_if E; [discriminate|].
    assert (Hq : 0 <= FieldBitOff aux / 8 <= FieldBitOff aux) by (split; [apply Z.div_pos; lia|apply Z.div_le_upper_bound; lia]).
    destruct (optionSlotFor f) as [slot|] eqn:Eo.
    + apply result_bind_ok in E as (off & Eb & [= <- <-]). apply (halves_at f fail s); auto.
      { unfold presence128. rewrite Ea, Eo. apply runs_nothing. }
      intros k t Hk St. unfold half128. rewrite Ea, Eo, Eb. apply (option_half f slot); auto.
      unfold dynamicOffsetAuxByteOff in Eb. rewrite Ea in Eb. case_if Eb; [discriminate|]. apply result_bind_ok in Eb as (b & Eb & [= <-]).
      apply (entry_small f) in Eb; [|exact Hok]. unfold small in Eb. lia.
    + apply result_bind_ok in E as (a & El & E). rewrite (ref_ok_place f Hok) in E.
      apply result_bind_ok in E as (off & Eb & [= <- <-]). apply (halves_at f fail s); auto.
      { unfold presence128. rewrite Ea, Eo. cbn [is_Some_b]. replace (Gating aux) with (Aux f ≫= Gating) by (rewrite Ea; reflexivity). now apply gating_runs; [|..|apply gating_known]. }
      intros k t Hk St. unfold half128. rewrite Ea, Eo, Eb. apply (piece_half _ a); auto.
      unfold auxStaticByteOffset in Eb. case_if Eb; [discriminate|]. destruct (Ir.Stack aux) as [ix|]; [|injection Eb as <-; lia].
      destruct (IsStatic ix) eqn:Ei; [|discriminate]. injection Eb as <-. specialize (Hst ix eq_refl Ei). lia.
  - apply result_bind_ok in E as (a & El & E). destruct (primary f) as [[g spec]|] eqn:Ep; [|discriminate]. apply result_bind_ok in E as ([off n] & Eb & [= <- <-]).
    apply (halves_at f fail s); auto; [unfold presence128; rewrite Ea; apply runs_nothing|].
    intros k t Hk St. unfold half128. rewrite Ea, Ep, Eb. apply (piece_half _ a); auto.
    destruct Hok as (Hkn & _). unfold field_known, primary, small in *. rewrite Ea in Hkn. destruct (RefField f) as [x|]; [|discriminate]. destruct (Spec (RefLayer f)); [|discriminate].
    injection Ep as -> ->. destruct Hkn as (o & Hso & Hb). unfold findFieldByteOffset128, findFieldBitOffset in Eb. rewrite Hb in Eb. cbn [result_bind] in Eb.
    case_if Eb; [discriminate|]. case_if Eb; [discriminate|]. injection Eb as <- <-.
    assert (0 <= o / 8 <= o) by (split; [apply Z.div_pos; lia|apply Z.div_le_upper_bound; lia]). lia.
Qed.

Lemma value_in_range f v : ref_ok f -> value f = Present v -> 0 <= v < 2 ^ EffectiveBits f.
Proof.
  intros Hok E. pose proof (ref_ok_width f Hok). unfold value in E. destruct (Z.eqb_spec (EffectiveBits f) 128) as [->|].
  - unfold value128 in E. destruct (presence128 f); [|discriminate..]. destruct (half128 f 0); [|discriminate..]. destruct (half128 f 8); [|discriminate..]. injection E as <-.
    assert (Hu : forall x, 0 <= to_be 8 x < 2 ^ 64).
    { intros x. unfold to_be. assert (Hb : Forall byte (rev (le 8 x))) by (apply Forall_rev, le_byte). pose proof (unle_range _ Hb) as Hr.
      unfold len in Hr. rewrite length_rev, le_length in Hr. exact Hr. }
    pose proof (Hu a0). pose proof (Hu a1). change (2 ^ 128) with (2 ^ 64 * 2 ^ 64). nia.
  - destruct (splitBareField_same f Hok) as (_ & Hw' & _). unfold value64 in E. destruct (scalarFieldWindow _) as [[off m]|]; [|discriminate].
    match type of E with sbind ?b _ = _ => destruct b; [|discriminate..] end. injection E as <-. unfold value_of. rewrite Hw'. apply bits_range. lia.
Qed.

#[export] Instance where_fields_ok : FieldCodeOk site value.
Proof.
  split.
  - exact site_kept.
  - exact value_in_range.
  - intros f fail code E Hok. apply unlabelled_plain. exact (whereFieldLoad_plain f fail code E Hok).
  - intros f fail code s E Hok Hw Hf Hs _. unfold value. rewrite (proj2 (Z.eqb_neq _ 128)) by lia. now apply value64_runs.
  - exact whereField128_plain.
  - exact whereField128_runs.
Qed.

End Where.
