(* ===== verification/Where.v ===== *)
(** * Where: conditions of a where clause as instructions (pkg/kunai/codegen/where.go)

    Constant folding, the guards of absent layers and of entries past a
    stack's count, [any] and [all] unrolled over the entries of a stack,
    [and], [or], [not] and comparisons of conditions. The code of a
    condition falls through when it holds and leaves for the label it is
    given when it does not. The class [WhereProgram] is what the rest of
    the generator decided before (the layers of the chain, the stack plan,
    the host's actions); [LiteralCode] is the comparison of a field with a
    network literal, and the [bpf_loop] form of a long unroll. The second
    part of the file is that comparison ([where_literals]). *)

From Stdlib Require Import ZArith Lia Bool Ascii String List.
From stdpp Require Import base list strings numbers option gmap.
From S2P Require Import Prelude GoStd GoBytes Ast Ir Asm Codegen WhereArith FieldLoad.
Local Open Scope Z_scope.
Local Open Scope go_scope.

(** ** References of a condition (pkg/kunai/ir/walk.go) *)

Fixpoint WalkArithFieldRefs (a : IR.ArithExpr) : list FieldRef :=
  match a with
  | IR.ArithField f _ => [f]
  | IR.ArithBinOp _ l r _ => WalkArithFieldRefs l ++ WalkArithFieldRefs r
  | IR.ArithConst _ _ _ _ _ => []
  end.

(** In the order the walker visits them. *)
Fixpoint WalkConditionFieldRefs (c : IR.Condition) : list FieldRef :=
  match c with
  | IR.CAtomLiteralCmp f _ _ _ | IR.CAtomBoolExists f _ | IR.CAtomBoolValid f _ => [f]
  | IR.CAtomArith l _ r _ => WalkArithFieldRefs l ++ WalkArithFieldRefs r
  | IR.COr l r _ | IR.CAnd l r _ | IR.CAtomBoolEq l _ r _ => WalkConditionFieldRefs l ++ WalkConditionFieldRefs r
  | IR.CNot w _ | IR.CAny w _ _ | IR.CAll w _ _ => WalkConditionFieldRefs w
  | IR.CAtomAction _ _ | IR.CAtomBoolLit _ _ => []
  end.

Definition ConditionPos (c : IR.Condition) : Position :=
  match c with
  | IR.COr _ _ p | IR.CAnd _ _ p | IR.CNot _ p | IR.CAny _ _ p | IR.CAll _ _ p | IR.CAtomArith _ _ _ p | IR.CAtomLiteralCmp _ _ _ p
  | IR.CAtomAction _ p | IR.CAtomBoolLit _ p | IR.CAtomBoolExists _ p | IR.CAtomBoolValid _ p | IR.CAtomBoolEq _ _ _ p => p
  end.

Definition isIterator (f : FieldRef) : bool :=
  match Aux f ≫= Ir.Stack with Some st => IsIterator st | None => false end.

(** ** Rebinding the iterator of a quantifier *)

Definition layerName (l : LayerInstance) : string :=
  match l with
  | mkLayerInstance None _ _ _ _ _ => "?"
  | mkLayerInstance (Some spec) label _ _ _ _ => if bool_decide (label = ""%string) then SpecName spec else SpecName spec +:+ "@" +:+ label
  end.

(** [rebindFieldRef]: the iterator becomes entry [idx], which the unroll has
    guarded. *)
Definition rebindFieldRef (ref : FieldRef) (target : IR.QuantTarget) (idx : Z) : result cerr FieldRef :=
  match Aux ref with
  | None => Ok ref
  | Some aux =>
      if negb (isIterator ref) then Ok ref
      else if negb (bool_decide (RefLayer ref = IR.QLayer target)) || negb (bool_decide (OutParam aux = IR.QOutParam target))
      then cerrorf "codegen: iterator FieldRef references stack %s.%s but quantifier target is %s.%s"
             [AStr (layerName (RefLayer ref)); AStr (OutParam aux); AStr (layerName (IR.QLayer target)); AStr (IR.QOutParam target)]
      else
        let st := mkStackIndex (IR.Capacity target) true idx None false true in
        Ok (mkFieldRef (RefLayer ref) (RefField ref)
              (Some (mkAux (OutParam aux) (HeaderName aux) (OffsetInLayer aux) (HeaderSize aux) (Gating aux) (FieldBitOff aux) (FieldBitWidth aux)
                       (Some st) (OwnerOption aux) (OffsetAfterOwner aux)))
              (Slice ref))
  end.

Fixpoint cloneArithWithRebind (a : IR.ArithExpr) (target : IR.QuantTarget) (idx : Z) : result cerr IR.ArithExpr :=
  match a with
  | IR.ArithConst _ _ _ _ _ => Ok a
  | IR.ArithField f p => let? f := rebindFieldRef f target idx in Ok (IR.ArithField f p)
  | IR.ArithBinOp op l r p =>
      let? l := cloneArithWithRebind l target idx in
      let? r := cloneArithWithRebind r target idx in
      Ok (IR.ArithBinOp op l r p)
  end.

(** [BoolField] and the operands of a comparison of conditions are left as
    they are. *)
Fixpoint cloneConditionWithRebind (c : IR.Condition) (target : IR.QuantTarget) (idx : Z) : result cerr IR.Condition :=
  match c with
  | IR.CAtomLiteralCmp f op v p => let? f := rebindFieldRef f target idx in Ok (IR.CAtomLiteralCmp f op v p)
  | IR.CAtomArith l op r p =>
      let? l := cloneArithWithRebind l target idx in
      let? r := cloneArithWithRebind r target idx in
      Ok (IR.CAtomArith l op r p)
  | IR.COr l r p =>
      let? l := cloneConditionWithRebind l target idx in
      let? r := cloneConditionWithRebind r target idx in
      Ok (IR.COr l r p)
  | IR.CAnd l r p =>
      let? l := cloneConditionWithRebind l target idx in
      let? r := cloneConditionWithRebind r target idx in
      Ok (IR.CAnd l r p)
  | IR.CNot w p => let? w := cloneConditionWithRebind w target idx in Ok (IR.CNot w p)
  | IR.CAny w t p => let? w := cloneConditionWithRebind w target idx in Ok (IR.CAny w t p)
  | IR.CAll w t p => let? w := cloneConditionWithRebind w target idx in Ok (IR.CAll w t p)
  | IR.CAtomAction _ _ | IR.CAtomBoolLit _ _ | IR.CAtomBoolExists _ _ | IR.CAtomBoolValid _ _ | IR.CAtomBoolEq _ _ _ _ => Ok c
  end.

Definition rebindIterator (inner : IR.Condition) (target : IR.QuantTarget) (idx : Z) : result cerr IR.Condition :=
  cloneConditionWithRebind inner target idx.

(** ** How many entries a stack has *)

(** [quantCountSource]: what its constructor sets, one of three. *)
Inductive countFrom :=
| FromHdr (Hdr : StackCountSpec)
| FromOwner (Owner : string) (ByteOff SubBefore RShAfter : Z)
| FromPush (Stack : string).

Record quantCountSource := mkCountSource { CountLayer : LayerInstance; From : countFrom }.

(** [math/bits.TrailingZeros] of a power of two. *)
Definition log2PowerOfTwo (n : Z) : Z := if (n <=? 0) || negb (Z.land n (n - 1) =? 0) then -1 else Z.log2 n.

(** What the parse machine of a layer's protocol says of its stacks. *)
Class StackVocab := {
  (* [needsPushCount]'s [isPushedStack], of a protocol with a machine *)
  isPushedStack : LayerInstance -> string -> bool;
  (* [ProtocolSpec.StackPushBound] *)
  pushBound : LayerInstance -> string -> Z
}.

(** The slots of the stack plan and what the code knows of the layers. *)
Class WherePlanSlots := {
  stackCountSlot : LayerInstance -> string -> option Z;
  (* [dynamicAuxSlotForLayout] of a layer and an option *)
  ownerSlot : LayerInstance -> string -> option Z;
  (* index of an alternation member in its group, and the slot of the group *)
  LayerPos : LayerInstance -> Z;
  members : LayerInstance -> option Z;
  matchedSlot : Z -> option Z;
  readsAltMember : bool;
  NeedsRuntimeOffset : LayerInstance -> bool;
  entrySlot : LayerInstance -> result cerr Z;
  validSlot : LayerInstance -> option Z
}.

(** The program and the host. *)
Class WhereProgram := {
  Layers : list LayerInstance;
  Action : option (gmap string Z);
  ActionFetcher : option (Z -> list Instruction)
}.

(** [genLiteralCompare] of an atom, and [genQuantBpfLoop] of a quantifier
    ([true] for [any]); the callback the second appends is not part of the
    clause's instructions. *)
Class LiteralCode := {
  genLiteralCompare : whereCtx -> FieldRef -> CmpOp -> Value -> bytes -> gen (list Instruction);
  genQuantBpfLoop : whereCtx -> IR.Condition -> IR.QuantTarget -> bytes -> bool -> gen (list Instruction)
}.

(** ** Slices of whole bytes *)

Definition sliceNeedsScalarLoad (ref : FieldRef) : bool :=
  match Slice ref with
  | None => false
  | Some s => let '(lo, hi) := sliceBits ref s in negb (lo mod 8 =? 0) || negb (hi mod 8 =? 0)
  end.

Definition auxWalkLiteralWidth (v : Value) : option Z :=
  match Val v with
  | ValIPv4 _ | ValCIDR4 _ _ => Some 4
  | ValIPv6 _ | ValCIDR6 _ _ => Some 16
  | ValMAC _ => Some 6
  | _ => None
  end.

Definition staticAuxCap : Z := 2.

(** [l.Spec.Name] in a message. *)
Definition SpecNameOf (l : LayerInstance) : string := match Spec l with Some sp => SpecName sp | None => "" end.

Definition isLiteral (w : IR.Condition) : option bool := match w with IR.CAtomBoolLit b _ => Some b | _ => None end.

Definition iteratorRef (w : IR.Condition) : option FieldRef := list_find isIterator (WalkConditionFieldRefs w) ≫= fun p => Some (snd p).

Section Counts.
Context `{StackVocab}.

Definition needsPushCount (f : FieldRef) : bool :=
  match Aux f, Spec (RefLayer f) with
  | Some aux, Some spec =>
      is_Some_b (Ir.Stack aux) && negb (is_Some_b (OwnerOption aux)) && isPushedStack (RefLayer f) (OutParam aux)
      && negb (is_Some_b (StackCounts spec !! OutParam aux))
  | _, _ => false
  end.

(** [None] when the stack has no count source. *)
Definition refCountSource (ref : FieldRef) : result cerr (option quantCountSource) :=
  match Aux ref with
  | None => Err CPanic
  | Some aux =>
      match OwnerOption aux with
      | Some owner =>
          let shift := log2PowerOfTwo (HeaderSize aux) in
          if shift <? 0 then cerrorf "codegen: stack element size %d is not a power of two (cannot derive count via shift)" [AInt (HeaderSize aux)]
          else Ok (Some (mkCountSource (RefLayer ref) (FromOwner owner 1 (OffsetAfterOwner aux) shift)))
      | None =>
          match Spec (RefLayer ref) with
          | None => Err CPanic
          | Some spec =>
              match StackCounts spec !! OutParam aux with
              | Some cnt => Ok (Some (mkCountSource (RefLayer ref) (FromHdr cnt)))
              | None => Ok (if needsPushCount ref then Some (mkCountSource (RefLayer ref) (FromPush (OutParam aux))) else None)
              end
          end
      end
  end.

(** Of a quantifier, given its [Inner]. *)
Definition stackCountSource (inner : IR.Condition) : result cerr (option quantCountSource) :=
  match iteratorRef inner with
  | None => cerrorf "codegen: quantifier inner has no iterator field reference" []
  | Some ref => refCountSource ref
  end.

(** ** Constant folding (pkg/kunai/codegen/where_fold.go) *)

(** The first literal of [left; right] decides. *)
Definition foldPair (conj : bool) (l r whole : IR.Condition) (literal : bool -> IR.Condition) : IR.Condition :=
  match isLiteral l, isLiteral r with
  | Some v, _ => if Bool.eqb v conj then r else literal v
  | None, Some v => if Bool.eqb v conj then l else literal v
  | None, None => whole
  end.

Definition literal_at (p : Position) (v : bool) : IR.Condition := IR.CAtomBoolLit v p.

Fixpoint foldBooleanConstants (w : IR.Condition) : IR.Condition :=
  match w with
  | IR.CAny inner t p =>
      match isLiteral (foldBooleanConstants inner) with
      | Some false => literal_at p false
      | _ => w
      end
  | IR.CAll inner t p =>
      match isLiteral (foldBooleanConstants inner), stackCountSource inner with
      | Some false, Ok None => if 0 <? IR.Capacity t then literal_at p false else w
      | _, _ => w
      end
  | IR.CNot inner p =>
      let inner := foldBooleanConstants inner in
      match isLiteral inner with Some v => literal_at p (negb v) | None => IR.CNot inner p end
  | IR.CAnd l r p =>
      let l := foldBooleanConstants l in
      let r := foldBooleanConstants r in
      foldPair true l r (IR.CAnd l r p) (literal_at p)
  | IR.COr l r p =>
      let l := foldBooleanConstants l in
      let r := foldBooleanConstants r in
      foldPair false l r (IR.COr l r p) (literal_at p)
  | IR.CAtomBoolEq l op r p =>
      let l := foldBooleanConstants l in
      let r := foldBooleanConstants r in
      match isLiteral l, isLiteral r with
      | Some a, Some b => literal_at p (xorb (Bool.eqb a b) (bool_decide (op = CmpNeq)))
      | _, _ => IR.CAtomBoolEq l op r p
      end
  | _ => w
  end.

(** [bpf_loop] instead of an unroll, in [any] and [all]. *)
Definition useBpfLoopAuxWalk (inner : IR.Condition) (t : IR.QuantTarget) : result cerr bool :=
  if IR.Capacity t <=? staticAuxCap then Ok false
  else
    match inner with
    | IR.CAtomLiteralCmp ref CmpEq v _ =>
        if negb (isIterator ref) then Ok false
        else if sliceNeedsScalarLoad ref || negb (fieldIntraByteBit ref =? 0) then Ok false
        else if negb (is_Some_b (auxWalkLiteralWidth v)) then Ok false
        else
          let? cs := stackCountSource inner in
          Ok (match cs with Some (mkCountSource _ (FromPush _)) | None => false | Some _ => true end)
    | _ => Ok false
    end.

End Counts.

(** ** Guards *)

Section Where.
Context `{AuxVocab} `{WherePlan} `{StackVocab} `{WherePlanSlots} `{WhereProgram} `{LiteralCode}.

Definition hasAbsentableLayer : bool := readsAltMember || existsb Absentable Layers.

Definition absentLayerGuard (c : whereCtx) (l : LayerInstance) (failLabel : bytes) : result cerr (list Instruction) :=
  if bool_decide (l ∈ presentLayers c) then Ok []
  else
    match members l with
    | Some idx =>
        match matchedSlot (LayerPos l) with
        | None => cerrorf "codegen: the alternation at chain position %d has no matched-member slot for a read of %q" [AInt (LayerPos l + 1); AStr (SpecNameOf l)]
        | Some slot => Ok [LoadMem R3 RFP slot DWord; JImm JNE R3 (i32 idx) failLabel]
        end
    | None =>
        if negb (Absentable l) then Ok []
        else if negb (NeedsRuntimeOffset l)
        then notImplemented "%w: where-clause field on quantified layer %q without a runtime entry slot" [AStr (SpecNameOf l)]
        else let? slot := entrySlot l in Ok [LoadMem R3 RFP slot DWord; JImm JEq R3 layerEntryAbsent failLabel]
    end.

(** The guards of the distinct layers of [refs]. *)
Fixpoint layerGuards (c : whereCtx) (refs : list FieldRef) (seen_ : list LayerInstance) (failLabel : bytes) : result cerr (list Instruction) :=
  match refs with
  | [] => Ok []
  | ref :: refs =>
      if bool_decide (RefLayer ref ∈ seen_) then layerGuards c refs seen_ failLabel
      else
        let? g := absentLayerGuard c (RefLayer ref) failLabel in
        let? gs := layerGuards c refs (RefLayer ref :: seen_) failLabel in
        Ok (g ++ gs)
  end.

Definition withLayerGuards (c : whereCtx) (refs : list FieldRef) (failLabel : bytes) (body : gen (list Instruction)) : gen (list Instruction) :=
  if negb hasAbsentableLayer then body
  else
    let! guards := glift (layerGuards c refs [] failLabel) in
    let! insns := body in
    gret (guards ++ insns).

Definition emitOwnerCountGuard (slot byteOff subBefore rshAfter idx : Z) (skipLabel : bytes) : list Instruction :=
  emitDynamicAuxByteLoad slot byteOff Byte skipLabel
  ++ [JImm JLT R3 (i32 subBefore) skipLabel; Imm Sub R3 (i32 subBefore); Imm RSh R3 (i32 rshAfter); JImm JLE R3 (i32 idx) skipLabel].

(** Leaves for the label when the stack holds at most [idx] entries. *)
Definition emitCountGuard (src : quantCountSource) (idx : Z) (skipLabel : bytes) : result cerr (list Instruction) :=
  let l := CountLayer src in
  match From src with
  | FromPush stack =>
      match stackCountSlot l stack with
      | None => cerrorf "codegen: push count of stack %q not in demand set" [AStr stack]
      | Some slot => Ok [LoadMem R3 RFP slot DWord; JImm JLE R3 (i32 idx) skipLabel]
      end
  | FromOwner owner byteOff subBefore rshAfter =>
      match ownerSlot l owner with
      | None => cerrorf "codegen: quantifier owner option %q not in demand set" [AStr owner]
      | Some slot => Ok (emitOwnerCountGuard slot byteOff subBefore rshAfter idx skipLabel)
      end
  | FromHdr hdr =>
      let? anchor := layerAnchorFor l in
      Ok (emitHeaderCount R3 anchor hdr dslReject ++ [JImm JLE R3 (i32 idx) skipLabel])
  end.

(** The static entry a reference reads and no unroll has guarded. *)
Definition staticEntry (ref : FieldRef) : option (LayerInstance * string * Z) :=
  match Aux ref with
  | Some aux =>
      match Ir.Stack aux with
      | Some st => if IsStatic st && negb (Guarded st) then Some (RefLayer ref, OutParam aux, Static st) else None
      | None => None
      end
  | None => None
  end.

(** The guards of the distinct static entries of [refs]. *)
Fixpoint stackGuards (refs : list FieldRef) (guarded : list (LayerInstance * string * Z)) (failLabel : bytes) : result cerr (list Instruction) :=
  match refs with
  | [] => Ok []
  | ref :: refs =>
      match staticEntry ref with
      | None => stackGuards refs guarded failLabel
      | Some key =>
          if bool_decide (key ∈ guarded) then stackGuards refs guarded failLabel
          else
            let? src := refCountSource ref in
            let? g := match src with None => Ok [] | Some src => emitCountGuard src (snd key) failLabel end in
            let? gs := stackGuards refs (key :: guarded) failLabel in
            Ok (g ++ gs)
      end
  end.

Definition withStackGuards (refs : list FieldRef) (failLabel : bytes) (body : gen (list Instruction)) : gen (list Instruction) :=
  let! guards := glift (stackGuards refs [] failLabel) in
  let! insns := body in
  gret (guards ++ insns).

(** ** Atoms *)

Definition genBoolLit (v : bool) (failLabel : bytes) : list Instruction := if v then [] else [JaLabel failLabel].

Definition genBoolExists (f : FieldRef) (failLabel : bytes) : result cerr (list Instruction) :=
  match Aux f with
  | None => cerrorf "codegen: bool exists atom lacks aux reference" []
  | Some aux =>
      match optionSlotFor f with
      | Some slot => Ok [LoadMem R3 RFP slot DWord; JImm JEq R3 dynamicAuxSentinel failLabel]
      | None =>
          if dynamicAuxLayoutOf f
          then cerrorf "codegen: option %s.%s has no offset slot for .exists" [AStr (SpecNameOf (RefLayer f)); AStr (OutParam aux)]
          else let? anchor := layerAnchorFor (RefLayer f) in Ok (emitAuxGating (Gating aux) anchor failLabel)
      end
  end.

Definition genBoolValid (f : FieldRef) (failLabel : bytes) : result cerr (list Instruction) :=
  match validSlot (RefLayer f) with
  | None => cerrorf "codegen: %s has no option-validity slot" [AStr (DisplayName (RefLayer f))]
  | Some slot => Ok [LoadMem R3 RFP slot DWord; JImm JEq R3 0 failLabel]
  end.

Definition genActionAtom (value : string) (failLabel : bytes) : result cerr (list Instruction) :=
  match Action, ActionFetcher with
  | Some actions, Some fetch =>
      match actions !! value with
      | None => cerrorf "codegen: unknown action %q (host LangCaps.Action has %d entries)" [AStr value; AInt (Z.of_nat (size actions))]
      | Some val => Ok (fetch R3 ++ [JImm32 JNE R3 val failLabel])
      end
  | _, _ => notImplemented "%w: `action == %s` is not available on this host (action atoms require both LangCaps.Action and LangCaps.ActionFetcher to be set)" [AStr value]
  end.

(** ** Quantifiers *)

Section Quant.
Variable gen_ : whereCtx -> IR.Condition -> bytes -> gen (list Instruction).

(** [genQuantIterBody] of entry [idx]; [acceptLabel] is [any]'s. *)
Definition genQuantIterBody (c : whereCtx) (inner : IR.Condition) (target : IR.QuantTarget) (idx : Z) (acceptLabel failLabel iterSkip : bytes)
    (anySemantics : bool) : gen (list Instruction) :=
  let! rebound := glift (rebindIterator inner target idx) in
  let! body := gen_ c rebound (if anySemantics then iterSkip else failLabel) in
  gret (body ++ if anySemantics then [JaLabel acceptLabel] else []).

Fixpoint unroll (n : nat) (i : Z) (countSrc : option quantCountSource) (c : whereCtx) (inner : IR.Condition) (target : IR.QuantTarget)
    (acceptLabel failLabel : bytes) (anySemantics : bool) : gen (list Instruction) :=
  match n with
  | O => gret []
  | S n =>
      let! iterSkip := freshLabel "quant_skip" in
      let! guard := glift (match countSrc with Some src => emitCountGuard src i iterSkip | None => Ok [] end) in
      let! body := genQuantIterBody c inner target i acceptLabel failLabel iterSkip anySemantics in
      let! insns := unroll n (i + 1) countSrc c inner target acceptLabel failLabel anySemantics in
      gret (guard ++ body ++ [landingNoop iterSkip] ++ insns)
  end.

(** How many entries are unrolled. *)
Definition unrolled (countSrc : option quantCountSource) (target : IR.QuantTarget) : Z :=
  match countSrc with
  | Some (mkCountSource _ (FromPush stack)) => Z.min (IR.Capacity target) (pushBound (IR.QLayer target) stack)
  | _ => IR.Capacity target
  end.

Definition genQuantUnroll (c : whereCtx) (inner : IR.Condition) (target : IR.QuantTarget) (acceptLabel failLabel : bytes) (anySemantics : bool)
    : gen (list Instruction) :=
  if IR.Capacity target <=? 0 then glift (cerrorf "codegen: quantifier target capacity %d is non-positive" [AInt (IR.Capacity target)])
  else
    let! countSrc := glift (stackCountSource inner) in
    unroll (Z.to_nat (unrolled countSrc target)) 0 countSrc c inner target acceptLabel failLabel anySemantics.

(** The body of the quantifier runs with its layer guarded, unless the
    guard is empty. *)
Definition withQuantLayerGuard (c : whereCtx) (target : IR.QuantTarget) (failLabel : bytes) (body : whereCtx -> gen (list Instruction))
    : gen (list Instruction) :=
  let! guard := glift (absentLayerGuard c (IR.QLayer target) failLabel) in
  let! insns := body (match guard with [] => c | _ :: _ => with_present (IR.QLayer target) c end) in
  gret (guard ++ insns).

Definition genAny (c : whereCtx) (inner : IR.Condition) (target : IR.QuantTarget) (failLabel : bytes) : gen (list Instruction) :=
  withQuantLayerGuard c target failLabel (fun c =>
    let! use := glift (useBpfLoopAuxWalk inner target) in
    if use : bool then genQuantBpfLoop c inner target failLabel true
    else
      let! matchLabel := freshLabel "any_match" in
      let! insns := genQuantUnroll c inner target matchLabel failLabel true in
      gret (insns ++ [JaLabel failLabel; landingNoop matchLabel])).

(** A stack with more entries than were kept fails [all]. *)
Definition truncatedStackGuard (inner : IR.Condition) (target : IR.QuantTarget) (failLabel : bytes) : result cerr (list Instruction) :=
  let? src := stackCountSource inner in
  match src with
  | Some (mkCountSource l (FromHdr hdr)) =>
      let? anchor := layerAnchorFor l in
      Ok (emitHeaderCount R3 anchor hdr dslReject ++ [JImm JGT R3 (i32 (IR.Capacity target)) failLabel])
  | _ => Ok []
  end.

Definition genAllBody (c : whereCtx) (inner : IR.Condition) (target : IR.QuantTarget) (failLabel : bytes) : gen (list Instruction) :=
  let! use := glift (useBpfLoopAuxWalk inner target) in
  if use : bool then genQuantBpfLoop c inner target failLabel false else genQuantUnroll c inner target [] failLabel false.

Definition genAll (c : whereCtx) (inner : IR.Condition) (target : IR.QuantTarget) (failLabel : bytes) : gen (list Instruction) :=
  withQuantLayerGuard c target failLabel (fun c =>
    let! truncated := glift (truncatedStackGuard inner target failLabel) in
    let! insns := genAllBody c inner target failLabel in
    gret (truncated ++ insns)).

(** ** And, or, not, comparisons of conditions *)

Definition genAnd (c : whereCtx) (l r : IR.Condition) (failLabel : bytes) : gen (list Instruction) :=
  let! leftInsns := gen_ c l failLabel in
  let! rightInsns := gen_ c r failLabel in
  gret (leftInsns ++ rightInsns).

Definition genOr (c : whereCtx) (l r : IR.Condition) (failLabel : bytes) : gen (list Instruction) :=
  let! tryRight := freshLabel "or_right" in
  let! orDone := freshLabel "or_done" in
  let! leftInsns := gen_ c l tryRight in
  let! rightInsns := gen_ c r failLabel in
  match rightInsns with
  | [] => glift (cerrorf "codegen: or right side produced no instructions" [])
  | i :: tl =>
      if has_text (Symbol i) then glift (cerrorf "codegen: or right side already carries symbol %q" [AStr (string_of_list_ascii (Symbol i))])
      else gret (leftInsns ++ [JaLabel orDone] ++ (WithSymbol tryRight i :: tl) ++ [landingNoop orDone])
  end.

Definition genNot (c : whereCtx) (inner : IR.Condition) (failLabel : bytes) : gen (list Instruction) :=
  let! notSucc := freshLabel "not_succ" in
  let! insns := gen_ c inner notSucc in
  gret (insns ++ [JaLabel failLabel; landingNoop notSucc]).

(** R3 is 1 or 0. *)
Definition genConditionAsBool (c : whereCtx) (cond : IR.Condition) : gen (list Instruction) :=
  let cond := foldBooleanConstants cond in
  match isLiteral cond with
  | Some v => gret [Imm Mov R3 (if v then 1 else 0)]
  | None =>
      let! falsyLabel := freshLabel "bool_zero" in
      let! doneLabel := freshLabel "bool_done" in
      let! inner := gen_ c cond falsyLabel in
      gret (inner ++ [Imm Mov R3 1; JaLabel doneLabel; WithSymbol falsyLabel (Imm Mov R3 0); landingNoop doneLabel])
  end.

Definition boolEqJump (op : CmpOp) : option JumpOp_ := match op with CmpEq => Some JNE | CmpNeq => Some JEq | _ => None end.

Definition genBoolEq (c : whereCtx) (l : IR.Condition) (op : CmpOp) (r : IR.Condition) (failLabel : bytes) : gen (list Instruction) :=
  match boolEqJump op with
  | None => glift (cerrorf "codegen: bool-eq with op %v not supported" [AStr (CmpOp_String op)])
  | Some jumpOp =>
      let slotDepth := maxArithDepth - 1 - boolEqDepth c in
      if slotDepth <? boolEqOperandReserve
      then glift (notImplemented "%w: bool-eq nested deeper than %d levels" [AInt (maxArithDepth - boolEqOperandReserve)])
      else
        let slot := arithStackSlot slotDepth in
        let! leftInsns := genConditionAsBool (deeper c) l in
        let! rightInsns := genConditionAsBool (deeper c) r in
        gret (leftInsns ++ [StoreMem RFP slot R3 DWord] ++ rightInsns ++ [LoadMem R5 RFP slot DWord; JReg jumpOp R5 R3 failLabel])
  end.

End Quant.

(** ** Conditions *)

(** [whereCtx.gen]. *)
Fixpoint whereGen (fuel : nat) (c : whereCtx) (w : IR.Condition) (failLabel : bytes) : gen (list Instruction) :=
  match fuel with
  | O => glift (Err CFuel)
  | S fuel =>
      let w := foldBooleanConstants w in
      let refs := WalkConditionFieldRefs w in
      match w with
      | IR.CAtomAction v _ => glift (genActionAtom v failLabel)
      | IR.CAtomArith l op r _ => withLayerGuards c refs failLabel (withStackGuards refs failLabel (genArithCompare c l op r failLabel))
      | IR.CAtomLiteralCmp f op v _ => withLayerGuards c refs failLabel (withStackGuards refs failLabel (genLiteralCompare c f op v failLabel))
      | IR.CAnd l r _ => genAnd (whereGen fuel) c l r failLabel
      | IR.COr l r _ => genOr (whereGen fuel) c l r failLabel
      | IR.CNot inner _ => genNot (whereGen fuel) c inner failLabel
      | IR.CAny inner t _ => genAny (whereGen fuel) c inner t failLabel
      | IR.CAll inner t _ => genAll (whereGen fuel) c inner t failLabel
      | IR.CAtomBoolLit v _ => gret (genBoolLit v failLabel)
      | IR.CAtomBoolExists f _ => withLayerGuards c refs failLabel (glift (genBoolExists f failLabel))
      | IR.CAtomBoolValid f _ => withLayerGuards c refs failLabel (glift (genBoolValid f failLabel))
      | IR.CAtomBoolEq l op r _ => genBoolEq (whereGen fuel) c l op r failLabel
      end
  end.

Fixpoint depth (w : IR.Condition) : nat :=
  match w with
  | IR.COr l r _ | IR.CAnd l r _ | IR.CAtomBoolEq l _ r _ => S (Nat.max (depth l) (depth r))
  | IR.CNot w _ | IR.CAny w _ _ | IR.CAll w _ _ => S (depth w)
  | _ => 1%nat
  end.

(** The fuel is the depth of the condition: [whereGen_same] (WhereSpec.v). *)
Definition genCondition (w : IR.Condition) (failLabel : bytes) : result cerr (list Instruction) :=
  let? r := withPos (whereGen (depth w) (mkWhereCtx 0 0 [] []) w failLabel 0) (ConditionPos w) in Ok (fst r).

End Where.

(** * Comparing a field with a network literal

    A field against an address, a MAC or a network: the bytes are loaded as
    they lie in the packet and compared with constants swapped at
    compilation, in as many loads as the literal needs; a slice off byte
    boundaries compares as a number. [where_literals] is the instance of
    [LiteralCode]; the form of a quantifier that becomes a [bpf_loop] is an
    argument of it. *)

(** [binary.BigEndian.Uint16], [Uint32] and [Uint64] of that many bytes. *)
Definition BigEndian (bs : list Z) : Z := unle (rev bs).

Definition first_bytes (n : nat) (bs : list Z) : list Z := take n bs.
Definition bytes_from (k : nat) (bs : list Z) : list Z := drop k bs.

(** ** Masks *)

Definition ones64 : Z := u64 (-1).

Definition ipv4PrefixMaskBE (prefix : Z) : Z :=
  if prefix <=? 0 then 0 else if 32 <=? prefix then 0xffffffff else u32 (Z.shiftl 0xffffffff (32 - prefix)).

Definition ipv6PrefixMaskBE (prefix : Z) : Z * Z :=
  if prefix <=? 0 then (0, 0)
  else if 128 <=? prefix then (ones64, ones64)
  else if prefix <=? 64 then (u64 (Z.shiftl ones64 (64 - prefix)), 0)
  else (ones64, u64 (Z.shiftl ones64 (128 - prefix))).

(** ** Literals as numbers *)

Definition macValue (mac : list Z) : Z := fold_left (fun n b => Z.lor (u64 (Z.shiftl n 8)) b) mac 0.

Definition macLiteralLE (mac : list Z) : Z * Z :=
  (u32 (byteSwap (BigEndian (first_bytes 4 mac)) 4), u16 (byteSwap (BigEndian (bytes_from 4 mac)) 2)).

(** The number R3 against a literal, for a slice off byte boundaries. *)
Definition literalScalarCompare (v : Value) (op : CmpOp) (failLabel : bytes) : result cerr (list Instruction) :=
  let jumpOp := rejectingJumpOp op in
  match Val v with
  | ValIPv4 a => Ok (cmpR3Const jumpOp (BigEndian a) failLabel)
  | ValMAC a => Ok (cmpR3Const jumpOp (macValue a) failLabel)
  | ValCIDR4 a prefix =>
      if negb (is_Some_b (ipEqualityJumpOp op)) then notImplemented "%w: IPv4 CIDR supports only == / != (got %s)" [AStr (CmpOp_String op)]
      else if prefix <=? 0 then Ok (match op with CmpEq => [] | _ => constantFail failLabel end)
      else
        let mask := ipv4PrefixMaskBE prefix in
        Ok ([Imm And R3 (i32 mask)] ++ cmpR3Const jumpOp (Z.land (BigEndian a) mask) failLabel)
  | _ => cerrorf "codegen: a %v literal cannot compare with a slice off byte boundaries" [AStr (ValueKind_String (Value_Kind v))]
  end.

(** ** Where the bytes are *)

Definition unslicedLiteralFieldOffset (ref : FieldRef) : result cerr (Z * Z) :=
  match Aux ref with
  | None =>
      match primary ref with
      | None => Err CPanic
      | Some (fd, spec) =>
          let? (bitOff, bits) := findFieldBitOffset spec (Name fd) in
          if negb (bitOff mod 8 =? 0) || negb (bits mod 8 =? 0)
          then notImplemented "%w: %s.%s is not byte-aligned (bit offset %d, %d bits)" [AStr (SpecName spec); AStr (Name fd); AInt bitOff; AInt bits]
          else Ok (bitOff / 8, bits / 8)
      end
  | Some aux =>
      if negb (FieldBitOff aux mod 8 =? 0) || negb (FieldBitWidth aux mod 8 =? 0)
      then notImplemented "%w: aux field %s.%s.%s not byte-aligned" (aux_names ref)
      else
        let off := OffsetInLayer aux + FieldBitOff aux / 8 in
        match Ir.Stack aux with
        | None => Ok (off, FieldBitWidth aux / 8)
        | Some st =>
            if negb (IsStatic st) then notImplemented "%w: dynamic stack index requires runtime offset emit" []
            else Ok (off + Static st * HeaderSize aux, FieldBitWidth aux / 8)
        end
  end.

Definition literalFieldWindow (ref : FieldRef) : result cerr (Z * Z) :=
  let? (off, bytes) := unslicedLiteralFieldOffset ref in applyExactSlice ref off bytes.

(** ** Comparisons of several words *)

(** [==] leaves for the fail label on a mismatch, [!=] for a label after
    the jump to the fail label. *)
Definition whereMultiWordRoute (op : CmpOp) (failLabel : bytes) (body : bytes -> list Instruction) : gen (list Instruction) :=
  match op with
  | CmpEq => gret (body failLabel)
  | _ =>
      let! match_ := freshLabel "where_lit_match" in
      gret (body match_ ++ [JaLabel failLabel; landingNoop match_])
  end.

Definition whereIPv6HalfCheck (anchor : layerAnchor) (fieldOff mask host : Z) (failLabel : bytes) : list Instruction :=
  emitFieldLoad anchor fieldOff DWord
  ++ (if negb (mask =? ones64) then [LoadImm R5 (int64_of_u64 (byteSwap mask 8)); Reg And R3 R5] else [])
  ++ [LoadImm R5 (int64_of_u64 (byteSwap host 8)); JReg JNE R3 R5 failLabel].

(** The same of a load into R3, with R2 for the constants. *)
Definition ipv6AuxHalfCheck (load : Z -> Size_ -> list Instruction) (chunkOff mask host : Z) (failLabel : bytes) : list Instruction :=
  load chunkOff DWord
  ++ (if negb (mask =? ones64) then [LoadImm R2 (int64_of_u64 (byteSwap mask 8)); Reg And R3 R2] else [])
  ++ [LoadImm R2 (int64_of_u64 (byteSwap host 8)); JReg JNE R3 R2 failLabel].

(** The halves a mask keeps are checked. *)
Definition halves (check : Z -> Z -> Z -> list Instruction) (masks : Z * Z) (v6 : list Z) : list Instruction :=
  let '(maskHigh, maskLow) := masks in
  (if negb (maskHigh =? 0) then check 0 maskHigh (Z.land (BigEndian (first_bytes 8 v6)) maskHigh) else [])
  ++ (if negb (maskLow =? 0) then check 8 maskLow (Z.land (BigEndian (bytes_from 8 v6)) maskLow) else []).

(** A [/0] network: every address is in it, and the field is not read. *)
Definition everyAddress (op : CmpOp) (failLabel : bytes) : list Instruction := match op with CmpEq => [] | _ => constantFail failLabel end.

Definition swap32 (z : Z) : Z := u32 (byteSwap z 4).

(** Names of a layer and a field for a message. *)
Definition lit_names (ref : FieldRef) : list fmtarg := [AStr (SpecNameOf (RefLayer ref)); AStr (match RefField ref with Some fd => Name fd | None => "" end)].

Section Literal.
Context `{AuxVocab} `{WherePlan}.

Definition genIPv4CIDRCompare (ref : FieldRef) (op : CmpOp) (v4 : list Z) (prefix : Z) (anchor : layerAnchor) (fieldOff fieldBytes : Z) (failLabel : bytes) (jumpOp : JumpOp_)
    : gen (list Instruction) :=
  if negb (fieldBytes =? 4) then glift (notImplemented "%w: IPv4 CIDR needs a 4-byte field, got %d-byte %s.%s" (AInt fieldBytes :: lit_names ref))
  else if (prefix <? 0) || (32 <? prefix) then glift (cerrorf "codegen: IPv4 CIDR prefix %d out of [0,32]" [AInt prefix])
  else if prefix =? 32 then gret (emitFieldLoad anchor fieldOff Word ++ cmpRegEqU32 jumpOp (swap32 (BigEndian v4)) failLabel)
  else if prefix =? 0 then gret (everyAddress op failLabel)
  else
    let maskBE := u32 (Z.shiftl 0xFFFFFFFF (32 - prefix)) in
    let maskLE := swap32 maskBE in
    let hostLE := swap32 (Z.land (BigEndian v4) maskBE) in
    whereMultiWordRoute op failLabel (fun fail => emitFieldLoad anchor fieldOff Word ++ [Imm And R3 (i32 maskLE)] ++ cmpRegEqU32 JNE hostLE fail).

Definition genIPv6CIDRCompare (ref : FieldRef) (op : CmpOp) (v6 : list Z) (prefix : Z) (anchor : layerAnchor) (fieldOff fieldBytes : Z) (failLabel : bytes) : gen (list Instruction) :=
  if negb (fieldBytes =? 16) then glift (notImplemented "%w: IPv6 CIDR needs a 16-byte field, got %d-byte %s.%s" (AInt fieldBytes :: lit_names ref))
  else if (prefix <? 0) || (128 <? prefix) then glift (cerrorf "codegen: IPv6 CIDR prefix %d out of [0,128]" [AInt prefix])
  else if prefix =? 128 then
    whereMultiWordRoute op failLabel (fun fail =>
      whereIPv6HalfCheck anchor fieldOff ones64 (BigEndian (first_bytes 8 v6)) fail ++ whereIPv6HalfCheck anchor (fieldOff + 8) ones64 (BigEndian (bytes_from 8 v6)) fail)
  else if prefix =? 0 then gret (everyAddress op failLabel)
  else
    whereMultiWordRoute op failLabel (fun fail =>
      halves (fun delta mask host => whereIPv6HalfCheck anchor (fieldOff + delta) mask host fail) (ipv6PrefixMaskBE prefix) v6).

(** ** A slice off byte boundaries *)

Definition genLiteralScalarCompare (ref : FieldRef) (op : CmpOp) (v : Value) (failLabel : bytes) : result cerr (list Instruction) :=
  let? anchor := layerAnchorFor (RefLayer ref) in
  let? insns := scalarFieldValue ref (mkSite anchor anchor stackEntryAddress optionSlotFor failLabel) in
  let? cmp := literalScalarCompare v op failLabel in
  Ok (insns ++ cmp).

(** ** Entries of a runtime offset *)

(** R5 is the start of the entry. *)
Definition whereDynamicMultiByte (ref : FieldRef) (op : CmpOp) (failLabel : bytes) (body : bytes -> list Instruction) : gen (list Instruction) :=
  let! anchor := glift (layerAnchorFor (RefLayer ref)) in
  match op with
  | CmpEq => let! addr := glift (stackEntryAddress ref anchor failLabel) in gret (addr ++ body failLabel)
  | _ =>
      let! match_ := freshLabel "where_lit_match" in
      let! addr := glift (stackEntryAddress ref anchor failLabel) in
      gret (addr ++ body match_ ++ [JaLabel failLabel; landingNoop match_])
  end.

Definition entryLoad (fieldByteOff : Z) (delta : Z) (size : Size_) : list Instruction := [LoadMem R3 R5 (i16 (fieldByteOff + delta)) size].

Definition genDynamicCIDRv4 (ref : FieldRef) (op : CmpOp) (v4 : list Z) (prefix fieldByteOff fieldBytes : Z) (failLabel : bytes) : gen (list Instruction) :=
  if negb (fieldBytes =? 4) then glift (notImplemented "%w: IPv4 CIDR needs a 4-byte field, got %d-byte %s.%s.%s" (AInt fieldBytes :: aux_names ref))
  else if (prefix <? 0) || (32 <? prefix) then glift (cerrorf "codegen: IPv4 CIDR prefix %d out of [0,32]" [AInt prefix])
  else if prefix =? 0 then gret (everyAddress op failLabel)
  else
    let maskBE := u32 (Z.shiftl 0xFFFFFFFF (32 - prefix)) in
    let hostLE := swap32 (Z.land (BigEndian v4) maskBE) in
    (* the operator is in the jump and in the route: != leaves for the match label when the bytes are equal *)
    let jumpOp := match ipEqualityJumpOp op with Some j => j | None => InvalidJumpOp end in
    if prefix =? 32 then whereDynamicMultiByte ref op failLabel (fun fail => entryLoad fieldByteOff 0 Word ++ cmpRegEqU32 jumpOp hostLE fail)
    else whereDynamicMultiByte ref op failLabel (fun fail => entryLoad fieldByteOff 0 Word ++ [Imm And R3 (i32 (swap32 maskBE))] ++ cmpRegEqU32 JNE hostLE fail).

Definition genDynamicCIDRv6 (ref : FieldRef) (op : CmpOp) (v6 : list Z) (prefix fieldByteOff fieldBytes : Z) (failLabel : bytes) : gen (list Instruction) :=
  if negb (fieldBytes =? 16) then glift (notImplemented "%w: IPv6 CIDR needs a 16-byte field, got %d-byte %s.%s.%s" (AInt fieldBytes :: aux_names ref))
  else if (prefix <? 0) || (128 <? prefix) then glift (cerrorf "codegen: IPv6 CIDR prefix %d out of [0,128]" [AInt prefix])
  else if prefix =? 0 then gret (everyAddress op failLabel)
  else
    whereDynamicMultiByte ref op failLabel (fun fail =>
      halves (fun delta mask host => ipv6AuxHalfCheck (entryLoad fieldByteOff) delta mask host fail) (ipv6PrefixMaskBE prefix) v6).

Definition macCheck (load : Z -> Size_ -> list Instruction) (mac : list Z) (fail : bytes) : list Instruction :=
  let '(highLE, lowLE) := macLiteralLE mac in
  load 0 Word ++ [LoadImm R2 highLE; JReg JNE R3 R2 fail] ++ load 4 Half ++ [LoadImm R2 lowLE; JReg JNE R3 R2 fail].

Definition genLiteralCompareDynamic (ref : FieldRef) (op : CmpOp) (v : Value) (failLabel : bytes) : gen (list Instruction) :=
  match Aux ref with
  | None => glift (Err CPanic)
  | Some aux =>
      if negb (FieldBitOff aux mod 8 =? 0) || negb (FieldBitWidth aux mod 8 =? 0)
      then glift (notImplemented "%w: aux field %s.%s.%s not byte-aligned" (aux_names ref))
      else
        let! w := glift (applyExactSlice ref (FieldBitOff aux / 8) (FieldBitWidth aux / 8)) in
        let fieldByteOff := i16 (fst w) in
        let fieldBytes := snd w in
        match Val v with
        | ValIPv4 a =>
            if negb (fieldBytes =? 4) then glift (notImplemented "%w: IPv4 literal needs a 4-byte field, got %d-byte %s.%s.%s" (AInt fieldBytes :: aux_names ref))
            else whereDynamicMultiByte ref op failLabel (fun fail => entryLoad fieldByteOff 0 Word ++ cmpRegEqU32 JNE (swap32 (BigEndian a)) fail)
        | ValIPv6 a =>
            if negb (fieldBytes =? 16) then glift (notImplemented "%w: IPv6 literal needs a 16-byte field, got %d-byte %s.%s.%s" (AInt fieldBytes :: aux_names ref))
            else whereDynamicMultiByte ref op failLabel (fun fail =>
                   ipv6AuxHalfCheck (entryLoad fieldByteOff) 0 ones64 (BigEndian (first_bytes 8 a)) fail ++ ipv6AuxHalfCheck (entryLoad fieldByteOff) 8 ones64 (BigEndian (bytes_from 8 a)) fail)
        | ValMAC a =>
            if negb (fieldBytes =? 6) then glift (notImplemented "%w: MAC literal needs a 6-byte field, got %d-byte %s.%s.%s" (AInt fieldBytes :: aux_names ref))
            else whereDynamicMultiByte ref op failLabel (macCheck (entryLoad fieldByteOff) a)
        | ValCIDR4 a prefix => genDynamicCIDRv4 ref op a prefix fieldByteOff fieldBytes failLabel
        | ValCIDR6 a prefix => genDynamicCIDRv6 ref op a prefix fieldByteOff fieldBytes failLabel
        | _ => glift (notImplemented "%w: dynamic-index aux compare for literal kind %v" [AStr (ValueKind_String (Value_Kind v))])
        end
  end.

(** ** Options *)

(** [auxLoadEmitter] of an option the walk located: R5 is the entry's
    position, and each word is loaded off it. *)
Definition optionLoad (fieldByteOff : Z) (failLabel : bytes) (chunkOff : Z) (size : Size_) : list Instruction :=
  let delta := i32 (fieldByteOff + chunkOff) in
  [Reg Mov R2 R5] ++ (if negb (delta =? 0) then [Imm Add R2 delta] else []) ++ boundedScalarLoad R3 R0 R2 R1 size failLabel.

Definition auxLoadEmitter (ref : FieldRef) (failLabel : bytes) : result cerr (list Instruction * (Z -> Size_ -> list Instruction)) :=
  match Aux ref with
  | None => cerrorf "codegen: auxLoadEmitter on non-aux FieldRef" []
  | Some aux =>
      if match Slice ref with Some s => negb (Lo s mod 8 =? 0) || negb (Hi s mod 8 =? 0) | None => false end
      then notImplemented "%w: bit-slice [%d:%d] compared with a network literal must start and end on a byte boundary"
             (match Slice ref with Some s => [AInt (Lo s); AInt (Hi s)] | None => [] end)
      else
        let? fieldByteOff := auxEntryFieldStart ref in
        if is_Some_b (OwnerOption aux) && negb (match Ir.Stack aux with Some st => IsStatic st | None => false end)
        then notImplemented "%w: owner-bound aux %q requires a static stack index" [AStr (OutParam aux)]
        else
          match optionSlotFor ref with
          | None => cerrorf "codegen: option %q not in demand set for layer %q" [AStr (OutParam aux); AStr (SpecNameOf (RefLayer ref))]
          | Some slot =>
              let elemOff := match Ir.Stack aux with
                             | Some st => if is_Some_b (OwnerOption aux) then OffsetAfterOwner aux + Static st * HeaderSize aux else 0
                             | None => 0 end in
              Ok ([LoadMem R3 RFP slot DWord; JImm JEq R3 dynamicAuxSentinel failLabel; Reg Mov R5 R3]
                  ++ (if negb (elemOff =? 0) then [Imm Add R5 (i32 elemOff)] else []),
                  optionLoad fieldByteOff failLabel)
          end
  end.

Definition genOwnerBoundCIDRv4 (ref : FieldRef) (op : CmpOp) (v4 : list Z) (prefix : Z) (prelude : list Instruction) (load : Z -> Size_ -> list Instruction)
    (failLabel : bytes) (jumpOp : JumpOp_) : gen (list Instruction) :=
  if negb (EffectiveBits ref =? 32) then glift (notImplemented "%w: IPv4 CIDR needs a 32-bit field, got %s.%s.%s (%d bits)" (aux_names ref ++ [AInt (EffectiveBits ref)]))
  else if (prefix <? 0) || (32 <? prefix) then glift (cerrorf "codegen: IPv4 CIDR prefix %d out of [0,32]" [AInt prefix])
  else if prefix =? 0 then gret (prelude ++ everyAddress op failLabel)
  else
    let maskBE := u32 (Z.shiftl 0xFFFFFFFF (32 - prefix)) in
    let hostLE := swap32 (Z.land (BigEndian v4) maskBE) in
    if prefix =? 32 then gret (prelude ++ load 0 Word ++ cmpRegEqU32 jumpOp hostLE failLabel)
    else
      let! insns := whereMultiWordRoute op failLabel (fun fail => load 0 Word ++ [Imm And R3 (i32 (swap32 maskBE))] ++ cmpRegEqU32 JNE hostLE fail) in
      gret (prelude ++ insns).

Definition genOwnerBoundCIDRv6 (ref : FieldRef) (op : CmpOp) (v6 : list Z) (prefix : Z) (prelude : list Instruction) (load : Z -> Size_ -> list Instruction)
    (failLabel : bytes) : gen (list Instruction) :=
  if negb (EffectiveBits ref =? 128) then glift (notImplemented "%w: IPv6 CIDR needs a 128-bit field, got %s.%s.%s (%d bits)" (aux_names ref ++ [AInt (EffectiveBits ref)]))
  else if (prefix <? 0) || (128 <? prefix) then glift (cerrorf "codegen: IPv6 CIDR prefix %d out of [0,128]" [AInt prefix])
  else if prefix =? 0 then gret (prelude ++ everyAddress op failLabel)
  else
    let! insns := whereMultiWordRoute op failLabel (fun fail => halves (fun delta mask host => ipv6AuxHalfCheck load delta mask host fail) (ipv6PrefixMaskBE prefix) v6) in
    gret (prelude ++ insns).

Definition genOptionLiteralCompare (ref : FieldRef) (op : CmpOp) (v : Value) (failLabel : bytes) (jumpOp : JumpOp_) : gen (list Instruction) :=
  let! _ := glift (layerAnchorFor (RefLayer ref)) in
  let! p := glift (auxLoadEmitter ref failLabel) in
  let '(prelude, load) := p in
  let bits := aux_names ref ++ [AInt (EffectiveBits ref)] in
  match Val v with
  | ValIPv4 a =>
      if negb (EffectiveBits ref =? 32) then glift (notImplemented "%w: IPv4 literal needs a 32-bit field, got %s.%s.%s (%d bits)" bits)
      else gret (prelude ++ load 0 Word ++ cmpRegEqU32 jumpOp (swap32 (BigEndian a)) failLabel)
  | ValIPv6 a =>
      if negb (EffectiveBits ref =? 128) then glift (notImplemented "%w: IPv6 literal needs a 128-bit field, got %s.%s.%s (%d bits)" bits)
      else
        let! insns := whereMultiWordRoute op failLabel (fun fail =>
          ipv6AuxHalfCheck load 0 ones64 (BigEndian (first_bytes 8 a)) fail ++ ipv6AuxHalfCheck load 8 ones64 (BigEndian (bytes_from 8 a)) fail) in
        gret (prelude ++ insns)
  | ValMAC a =>
      if negb (EffectiveBits ref =? 48) then glift (notImplemented "%w: MAC literal needs a 48-bit field, got %s.%s.%s (%d bits)" bits)
      else let! insns := whereMultiWordRoute op failLabel (macCheck load a) in gret (prelude ++ insns)
  | ValCIDR4 a prefix => genOwnerBoundCIDRv4 ref op a prefix prelude load failLabel jumpOp
  | ValCIDR6 a prefix => genOwnerBoundCIDRv6 ref op a prefix prelude load failLabel
  | _ => glift (notImplemented "%w: option field compare for literal kind %v" [AStr (ValueKind_String (Value_Kind v))])
  end.

(** ** Fields at a constant offset *)

Definition macWords (anchor : layerAnchor) (fieldOff : Z) (mac : list Z) (fail : bytes) : list Instruction :=
  let '(highLE, lowLE) := macLiteralLE mac in
  emitFieldLoad anchor fieldOff Word ++ cmpRegEqU32 JNE highLE fail ++ emitFieldLoad anchor (fieldOff + 4) Half ++ cmpRegEqU32 JNE lowLE fail.

(** [genLiteralCompare]. A network is compared without the gate of an
    auxiliary header. *)
Definition whereLiteralCompare (ref : FieldRef) (op : CmpOp) (v : Value) (failLabel : bytes) : gen (list Instruction) :=
  match ipEqualityJumpOp op with
  | None => glift (notImplemented "%w: network literal supports only == / != (got %s)" [AStr (CmpOp_String op)])
  | Some jumpOp =>
      if sliceNeedsScalarLoad ref then glift (genLiteralScalarCompare ref op v failLabel)
      else if dynamicAuxLayoutOf ref then genOptionLiteralCompare ref op v failLabel jumpOp
      else if needsEntryAddress ref then genLiteralCompareDynamic ref op v failLabel
      else
        let! anchor := glift (layerAnchorFor (RefLayer ref)) in
        let! w := glift (literalFieldWindow ref) in
        let '(fieldOff, fieldBytes) := w in
        let prelude := match Aux ref with Some aux => emitAuxGating (Gating aux) anchor failLabel | None => [] end in
        match Val v with
        | ValIPv4 a =>
            if negb (fieldBytes =? 4) then glift (notImplemented "%w: IPv4 literal needs a 4-byte field, got %d-byte %s.%s" (AInt fieldBytes :: lit_names ref))
            else gret (prelude ++ emitFieldLoad anchor fieldOff Word ++ cmpRegEqU32 jumpOp (swap32 (BigEndian a)) failLabel)
        | ValMAC a =>
            if negb (fieldBytes =? 6) then glift (notImplemented "%w: MAC literal needs a 6-byte field, got %d-byte %s.%s" (AInt fieldBytes :: lit_names ref))
            else let! insns := whereMultiWordRoute op failLabel (macWords anchor fieldOff a) in gret (prelude ++ insns)
        | ValIPv6 a =>
            if negb (fieldBytes =? 16) then glift (notImplemented "%w: IPv6 literal needs a 16-byte field, got %d-byte %s.%s" (AInt fieldBytes :: lit_names ref))
            else
              let! insns := whereMultiWordRoute op failLabel (fun fail =>
                whereIPv6HalfCheck anchor fieldOff ones64 (BigEndian (first_bytes 8 a)) fail ++ whereIPv6HalfCheck anchor (fieldOff + 8) ones64 (BigEndian (bytes_from 8 a)) fail) in
              gret (prelude ++ insns)
        | ValCIDR4 a prefix => genIPv4CIDRCompare ref op a prefix anchor fieldOff fieldBytes failLabel jumpOp
        | ValCIDR6 a prefix => genIPv6CIDRCompare ref op a prefix anchor fieldOff fieldBytes failLabel
        | _ => glift (notImplemented "%w: where literal kind %v" [AStr (ValueKind_String (Value_Kind v))])
        end
  end.

End Literal.

(** The comparison as the where clause uses it; its context's fail label is
    the one it is given. *)
#[export] Instance where_literals `{AuxVocab} `{WherePlan} (loop : whereCtx -> IR.Condition -> IR.QuantTarget -> bytes -> bool -> gen (list Instruction)) : LiteralCode := {
  genLiteralCompare := fun _ f op v failLabel => whereLiteralCompare f op v failLabel;
  genQuantBpfLoop := loop
}.
