(* ===== verification/WhereSpec.v ===== *)
(** * WhereSpec: what a condition means

    The reference semantics of a where clause's conditions, after the
    repository's specification (src/spec/lean, Kunai/Eval/Where.lean): an
    atom on an absent layer, option or entry is false; [any] and [all]
    range over the entries the stack holds, with the iterator bound to each;
    a field read past the packet rejects unless the operands before it
    decide; [all] is false of a stack that was cut. What a packet holds is
    a [world]. Folding and the rebinding of a quantifier's body keep the
    meaning, and the generator's recursion ends within the depth of the
    condition. *)

From Stdlib Require Import ZArith Lia Bool Ascii String List.
From stdpp Require Import base list strings numbers option gmap.
From S2P Require Import Prelude GoStd GoBytes Ast Ir HookAbi Asm Ebpf EbpfFacts Codegen WhereArith WhereArithFacts FieldLoad Where.
Local Open Scope Z_scope.
Local Open Scope go_scope.

(** What the layers' walks found in a packet: the value of a field, whether
    a layer got a header, how many entries a stack has, whether an option
    is there and an option region parsed, and whether the action and a
    network literal match. *)
Record world := mkWorld {
  value_of_ : FieldRef -> seen Z;
  present : LayerInstance -> bool;
  count : quantCountSource -> seen Z;
  there : FieldRef -> verdict;
  parsed : LayerInstance -> bool;
  acted : string -> bool;
  matches_ : FieldRef -> CmpOp -> Value -> verdict
}.

(** ** Verdicts *)

Definition andv (a b : verdict) : verdict := sbind a (fun _ => b).
Definition orv (a b : verdict) : verdict := match a with Present _ => Present tt | Missing => b | Beyond => Beyond end.
Definition notv (a : verdict) : verdict := match a with Present _ => Missing | Missing => Present tt | Beyond => Beyond end.
Definition truth (a : verdict) : seen bool := match a with Present _ => Present true | Missing => Present false | Beyond => Beyond end.

(** Entries [i], [i + 1], ... for which a condition is tried in order. *)
Fixpoint any_of (n : nat) (i : Z) (f : Z -> verdict) : verdict :=
  match n with O => Missing | S n => orv (f i) (any_of n (i + 1) f) end.
Fixpoint all_of (n : nat) (i : Z) (f : Z -> verdict) : verdict :=
  match n with O => Present tt | S n => andv (f i) (all_of n (i + 1) f) end.

(** ** Bound iterators *)

(** A field of the iterator of a quantifier over [t]: its layer's, and of the
    stack with the target's out parameter. *)
Definition ranges_over (t : IR.QuantTarget) (f : FieldRef) : Prop :=
  RefLayer f = IR.QLayer t /\ exists a st, Aux f = Some a /\ OutParam a = IR.QOutParam t /\ Ir.Stack a = Some st /\ IsIterator st = true.

#[export] Instance ranges_over_dec t f : Decision (ranges_over t f).
Proof.
  destruct (decide (RefLayer f = IR.QLayer t)) as [E|N]; [|right; now intros []].
  destruct (Aux f) as [a|] eqn:Ea; [|right; intros (_ & a & _ & E' & _); congruence].
  destruct (decide (OutParam a = IR.QOutParam t)) as [Eo|N]; [|right; intros (_ & a' & _ & E' & ? & _); congruence].
  destruct (Ir.Stack a) as [st|] eqn:Es; [|right; intros (_ & a' & st & E' & _ & ? & _); congruence].
  destruct (IsIterator st) eqn:Ei; [left; split; [exact E|exists a, st; now rewrite Ea]|right; intros (_ & a' & st' & E' & _ & ? & ?); congruence].
Defined.

(** The same field of entry [i], which the quantifier knows to be there. *)
Definition field_of_entry (t : IR.QuantTarget) (i : Z) (f : FieldRef) : FieldRef :=
  let entry_ a :=
    mkAux (OutParam a) (HeaderName a) (OffsetInLayer a) (HeaderSize a) (Gating a) (FieldBitOff a) (FieldBitWidth a)
      (Some {| StackCapacity := IR.Capacity t; IsStatic := true; Static := i; Dynamic := None; IsIterator := false; Guarded := true |}) (OwnerOption a) (OffsetAfterOwner a) in
  mkFieldRef (RefLayer f) (RefField f) (entry_ <$> Aux f) (Slice f).

(** Entry [i] of the stack a quantifier ranges over, for its iterator. *)
Definition bind (t : IR.QuantTarget) (i : Z) (f : FieldRef) : FieldRef := if decide (ranges_over t f) then field_of_entry t i f else f.

Fixpoint map_arith (ρ : FieldRef -> FieldRef) (e : IR.ArithExpr) : IR.ArithExpr :=
  match e with
  | IR.ArithConst _ _ _ _ _ => e
  | IR.ArithField f p => IR.ArithField (ρ f) p
  | IR.ArithBinOp op l r p => IR.ArithBinOp op (map_arith ρ l) (map_arith ρ r) p
  end.

Section Eval.
Context `{StackVocab}.
Variable w : world.

(** What says how many entries the stack of [f] holds: the length byte of
    the option that owns it (its prefix and entries of a power of two bytes),
    a field of the header, or a count the walk pushed; some stacks have
    nothing of the kind. *)
Definition counter_of (f : FieldRef) : option quantCountSource :=
  a ← Aux f;
  let count_from c := Some {| CountLayer := RefLayer f; From := c |} in
  match OwnerOption a with
  | Some owner => count_from (FromOwner owner 1 (OffsetAfterOwner a) (Z.log2 (HeaderSize a)))
  | None =>
      spec ← Spec (RefLayer f);
      match StackCounts spec !! OutParam a with
      | Some hdr => count_from (FromHdr hdr)
      | None => if bool_decide (is_Some (Ir.Stack a)) && isPushedStack (RefLayer f) (OutParam a) then count_from (FromPush (OutParam a)) else None
      end
  end.

(** The entry a constant index names is there; a quantifier's own is. *)
Definition entry (f : FieldRef) : verdict :=
  match Aux f ≫= Ir.Stack with
  | Some st =>
      if IsStatic st && negb (Guarded st) then
        match counter_of f with Some src => sbind (count w src) (fun n => test (Static st <? n)) | None => Present tt end
      else Present tt
  | None => Present tt
  end.

Definition entries (refs : list FieldRef) : verdict := fold_right (fun f v => andv (entry f) v) (Present tt) refs.

Definition layers_present (refs : list FieldRef) : bool := forallb (fun f => present w (RefLayer f)) refs.

(** An atom that reads [refs]. *)
Definition atom (refs : list FieldRef) (v : verdict) : verdict := if layers_present refs then v else Missing.

(** How many entries a quantifier ranges over, and whether there are more
    than the stack keeps. *)
Definition quant_source (inner : IR.Condition) : option quantCountSource := iteratorRef inner ≫= counter_of.

Definition kept (src : option quantCountSource) (t : IR.QuantTarget) : seen Z :=
  match src with
  | None => Present (IR.Capacity t)
  | Some src => sbind (count w src) (fun n => Present (Z.min (IR.Capacity t) n))
  end.

Definition cut (src : option quantCountSource) (t : IR.QuantTarget) : verdict :=
  match src with
  | Some (mkCountSource l (FromHdr hdr)) => sbind (count w (mkCountSource l (FromHdr hdr))) (fun n => test (IR.Capacity t <? n))
  | _ => Missing
  end.

Fixpoint evalCond (ρ : FieldRef -> FieldRef) (c : IR.Condition) : verdict :=
  match c with
  | IR.COr l r _ => orv (evalCond ρ l) (evalCond ρ r)
  | IR.CAnd l r _ => andv (evalCond ρ l) (evalCond ρ r)
  | IR.CNot c _ => notv (evalCond ρ c)
  | IR.CAny inner t _ =>
      if present w (IR.QLayer t) then
        sbind (kept (quant_source inner) t) (fun n => any_of (Z.to_nat n) 0 (fun i => evalCond (fun f => bind t i (ρ f)) inner))
      else Missing
  | IR.CAll inner t _ =>
      if present w (IR.QLayer t) then
        andv (notv (cut (quant_source inner) t))
          (sbind (kept (quant_source inner) t) (fun n => all_of (Z.to_nat n) 0 (fun i => evalCond (fun f => bind t i (ρ f)) inner)))
      else Missing
  | IR.CAtomArith l op r _ =>
      let l := map_arith ρ l in
      let r := map_arith ρ r in
      let refs := WalkArithFieldRefs l ++ WalkArithFieldRefs r in
      atom refs (andv (entries refs) (evalCompare (value_of_ w) l op r))
  | IR.CAtomLiteralCmp f op v _ => atom [ρ f] (andv (entry (ρ f)) (matches_ w (ρ f) op v))
  | IR.CAtomAction a _ => test (acted w a)
  | IR.CAtomBoolLit b _ => test b
  | IR.CAtomBoolExists f _ => atom [ρ f] (there w (ρ f))
  | IR.CAtomBoolValid f _ => atom [ρ f] (test (parsed w (RefLayer (ρ f))))
  | IR.CAtomBoolEq l op r _ =>
      sbind (truth (evalCond ρ l)) (fun a => sbind (truth (evalCond ρ r)) (fun b => test (xorb (Bool.eqb a b) (bool_decide (op = CmpNeq)))))
  end.

End Eval.

(** [b] is what code may do when the reference is [a]: folding a constant
    leaves out an operand that would have rejected the packet. *)
Definition approx {A} (a b : seen A) : Prop := a = Beyond \/ a = b.

#[export] Instance approx_preorder A : PreOrder (@approx A).
Proof. split; [now right|]. intros a b c [-> | ->]; [now left|auto]. Qed.

(** ** Conditions the theorem is about

    What resolution leaves: references of an atom that name the same entry
    of a stack agree on how its entries are counted, the operands of a
    comparison of conditions and [exists] and [valid] atoms inside a
    quantifier do not read the iterator, a quantifier is not inside another
    (which binds its iterator first), and it is not one of those that
    become a [bpf_loop]. *)

Section Wf.
Context `{AuxVocab} `{StackVocab} `{WherePlanSlots} `{WhereProgram}.

Definition same_source (refs : list FieldRef) : Prop :=
  forall f g, f ∈ refs -> g ∈ refs -> is_Some (staticEntry f) -> staticEntry f = staticEntry g -> counter_of f = counter_of g.

Definition small_entry (f : FieldRef) : Prop := forall k, staticEntry f = Some k -> 0 <= snd k < 2 ^ 20.

Definition no_iterator (c : IR.Condition) : Prop := Forall (fun f => isIterator f = false) (WalkConditionFieldRefs c).

(** Rebinding reaches every iterator of the condition. *)
Fixpoint rebindable (c : IR.Condition) : Prop :=
  match c with
  | IR.COr l r _ | IR.CAnd l r _ => rebindable l /\ rebindable r
  | IR.CNot c _ => rebindable c
  | IR.CAny _ _ _ | IR.CAll _ _ _ => False
  | IR.CAtomBoolExists f _ | IR.CAtomBoolValid f _ => isIterator f = false
  | IR.CAtomBoolEq l _ r _ => no_iterator l /\ no_iterator r
  | _ => True
  end.

(** A layer of the chain, or a member of an alternation a clause reads. *)
Definition layer_ok (l : LayerInstance) : Prop :=
  (l ∈ Layers /\ members l = None) \/ (is_Some (members l) /\ readsAltMember = true).

(** An option's fixed prefix, a stack's elements and the field that counts
    them are those of headers. *)
Definition owner_ok (f : FieldRef) : Prop :=
  (forall aux, Aux f = Some aux -> is_Some (OwnerOption aux) -> small (OffsetAfterOwner aux) /\ small (HeaderSize aux)) /\
  (forall spec st hdr, Spec (RefLayer f) = Some spec -> StackCounts spec !! st = Some hdr -> small (CountByteOff hdr) /\ small (Addend hdr)).

(** The iterator of a quantifier is an entry of a stack of its layer. *)
Definition quant_ref (t : IR.QuantTarget) (f : FieldRef) : Prop := owner_ok f /\ (isIterator f = true -> RefLayer f = IR.QLayer t).

Definition refs_ok (refs : list FieldRef) : Prop := same_source refs /\ forall f, f ∈ refs -> layer_ok (RefLayer f) /\ small_entry f /\ owner_ok f.

(** A literal of its kind: bytes, as many as an address has, and a prefix
    an address has. *)
Definition literal_ok (v : Value) : Prop :=
  match Val v with
  | ValIPv4 a => Forall byte a /\ len a = 4
  | ValIPv6 a => Forall byte a /\ len a = 16
  | ValMAC a => Forall byte a /\ len a = 6
  | ValCIDR4 a p => Forall byte a /\ len a = 4 /\ 0 <= p <= 32
  | ValCIDR6 a p => Forall byte a /\ len a = 16 /\ 0 <= p <= 128
  | _ => False
  end.

Definition is_network (v : Value) : Prop := match Val v with ValCIDR4 _ _ | ValCIDR6 _ _ => True | _ => False end.

Definition literal_bits (v : Value) : Z :=
  match Val v with ValIPv4 _ | ValCIDR4 _ _ => 32 | ValMAC _ => 48 | _ => 128 end.

(** A [/0] network, of which the code does not read the field. *)
Definition every_address (v : Value) : Prop := match Val v with ValCIDR4 _ p | ValCIDR6 _ p => p = 0 | _ => False end.

(** The literal has the field's width; a field behind a gate is not compared
    with a network (the code does not test the gate then), and an option,
    which counts as absent when it ends past the packet, only with a literal
    of one word that the code reads. *)
Definition literal_known (f : FieldRef) (v : Value) : Prop :=
  ref_ok f /\ literal_ok v /\ EffectiveBits f = literal_bits v /\ (dynamicAuxLayoutOf f = true -> literal_bits v = 32 /\ ~ every_address v) /\
  (is_network v -> Aux f ≫= Gating = None).

Definition gates_ok (f : FieldRef) : Prop := forall g, Aux f ≫= Gating = Some g -> gating_ok g.

Fixpoint wf_cond (ρ : FieldRef -> FieldRef) (c : IR.Condition) : Prop :=
  match c with
  | IR.COr l r _ | IR.CAnd l r _ | IR.CAtomBoolEq l _ r _ => wf_cond ρ l /\ wf_cond ρ r
  | IR.CNot c _ => wf_cond ρ c
  | IR.CAny inner t _ | IR.CAll inner t _ =>
      rebindable inner /\ IR.Capacity t < 2 ^ 20 /\ Forall (quant_ref t) (WalkConditionFieldRefs inner) /\ useBpfLoopAuxWalk inner t = Ok false /\
      forall i, 0 <= i < IR.Capacity t -> wf_cond (fun f => bind t i (ρ f)) inner
  | IR.CAtomArith l _ r _ =>
      let l := map_arith ρ l in
      let r := map_arith ρ r in
      wf_arith l /\ wf_arith r /\ refs_ok (WalkArithFieldRefs l ++ WalkArithFieldRefs r)
  | IR.CAtomLiteralCmp f _ v _ => literal_known (ρ f) v /\ refs_ok [ρ f]
  | IR.CAtomBoolExists f _ => gates_ok (ρ f) /\ refs_ok [ρ f]
  | IR.CAtomBoolValid f _ => refs_ok [ρ f]
  | IR.CAtomAction _ _ | IR.CAtomBoolLit _ _ => True
  end.

End Wf.

(** * Folding and rebinding keep the meaning of a condition

    Folding a condition's constants leaves its verdict, or decides where an
    operand it left out would have rejected the packet; rebinding the
    iterator of a quantifier's body gives the body's meaning at that entry. *)

(** ** Verdicts *)

Lemma approx_beyond {A} (b : seen A) : approx Beyond b.
Proof. now left. Qed.
Lemma approx_refl {A} (a : seen A) : approx a a.
Proof. now right. Qed.

Lemma approx_sbind {A C} (a b : seen A) (f g : A -> seen C) : approx a b -> (forall x, approx (f x) (g x)) -> approx (sbind a f) (sbind b g).
Proof. intros [-> | ->] Hf; [now left|]. destruct b; cbn; [apply Hf|now right|now right]. Qed.

Lemma approx_andv a b c d : approx a b -> approx c d -> approx (andv a c) (andv b d).
Proof. intros H1 H2. now apply approx_sbind. Qed.
Lemma approx_orv a b c d : approx a b -> approx c d -> approx (orv a c) (orv b d).
Proof. intros [-> | ->] H; [now left|]. destruct b; [now right|exact H|now right]. Qed.
Lemma approx_notv a b : approx a b -> approx (notv a) (notv b).
Proof. intros [-> | ->]; [now left|now right]. Qed.
Lemma approx_truth a b : approx a b -> approx (truth a) (truth b).
Proof. intros [-> | ->]; [now left|now right]. Qed.

Lemma approx_any n i f g : (forall k, i <= k < i + Z.of_nat n -> approx (f k) (g k)) -> approx (any_of n i f) (any_of n i g).
Proof. revert i. induction n as [|n IH]; intros i Hf; cbn; [now right|]. apply approx_orv; [apply Hf; lia|]. apply IH. intros k Hk. apply Hf. lia. Qed.
Lemma approx_all n i f g : (forall k, i <= k < i + Z.of_nat n -> approx (f k) (g k)) -> approx (all_of n i f) (all_of n i g).
Proof. revert i. induction n as [|n IH]; intros i Hf; cbn; [now right|]. apply approx_andv; [apply Hf; lia|]. apply IH. intros k Hk. apply Hf. lia. Qed.

(** The code's counts are those. *)
Lemma log2PowerOfTwo_log2 n : 0 <= log2PowerOfTwo n -> log2PowerOfTwo n = Z.log2 n.
Proof. unfold log2PowerOfTwo. destruct (_ || _); [lia|reflexivity]. Qed.

Lemma refCountSource_counter `{StackVocab} f src : refCountSource f = Ok src -> src = counter_of f.
Proof.
  unfold refCountSource, counter_of, needsPushCount. destruct (Aux f) as [a|]; [|discriminate]. cbn [mbind option_bind]. destruct (OwnerOption a) as [o|].
  - destruct (Z.ltb_spec (log2PowerOfTwo (HeaderSize a)) 0); [discriminate|]. intros [= <-]. now rewrite log2PowerOfTwo_log2.
  - destruct (Spec (RefLayer f)) as [spec|]; [|discriminate]. cbn [mbind option_bind]. destruct (StackCounts spec !! OutParam a); intros [= <-]; [reflexivity|].
    destruct (Ir.Stack a); cbn [is_Some_b negb andb]; [|now rewrite bool_decide_eq_false_2 by (intros []; discriminate)].
    rewrite bool_decide_eq_true_2 by eauto. now destruct (isPushedStack _ _).
Qed.

Lemma stackCountSource_counter `{StackVocab} inner src : stackCountSource inner = Ok src -> quant_source inner = src.
Proof. unfold stackCountSource, quant_source. destruct (iteratorRef inner) as [f|]; [|discriminate]. intros E. symmetry. now apply refCountSource_counter. Qed.

Lemma entry_static `{StackVocab} w f : entry w f =
  match staticEntry f, counter_of f with Some (_, _, i), Some src => sbind (count w src) (fun n => test (i <? n)) | _, _ => Present tt end.
Proof.
  unfold entry, staticEntry. destruct (Aux f) as [a|]; [|reflexivity]. cbn [mbind option_bind]. destruct (Ir.Stack a) as [st|]; [|reflexivity]. now destruct (_ && _).
Qed.

Lemma any_false n i : any_of n i (fun _ => Missing) = Missing.
Proof. revert i. induction n as [|n IH]; intros i; cbn; auto. Qed.

Lemma any_ext n i f g : (forall k, f k = g k) -> any_of n i f = any_of n i g.
Proof. intros Hf. revert i. induction n as [|n IH]; intros i; cbn; [reflexivity|]. now rewrite Hf, IH. Qed.
Lemma all_ext n i f g : (forall k, f k = g k) -> all_of n i f = all_of n i g.
Proof. intros Hf. revert i. induction n as [|n IH]; intros i; cbn; [reflexivity|]. now rewrite Hf, IH. Qed.

Lemma sbind_ext {A C} (a : seen A) (f g : A -> seen C) : (forall x, f x = g x) -> sbind a f = sbind a g.
Proof. intros Hf. destruct a; cbn; auto. Qed.

Lemma truth_test b : truth (test b) = Present b.
Proof. now destruct b. Qed.

(** ** Substitutions *)

Lemma map_arith_refs ρ e : WalkArithFieldRefs (map_arith ρ e) = map ρ (WalkArithFieldRefs e).
Proof. induction e as [| |op l IHl r IHr p]; cbn; [reflexivity..|]. now rewrite IHl, IHr, map_app. Qed.

Lemma map_arith_ext ρ ρ' e : (forall f, f ∈ WalkArithFieldRefs e -> ρ f = ρ' f) -> map_arith ρ e = map_arith ρ' e.
Proof.
  induction e as [|f p|op l IHl r IHr p]; cbn; intros Hf; [reflexivity| |].
  - now rewrite Hf by set_solver.
  - rewrite IHl, IHr; [reflexivity|..]; intros f Hin; apply Hf; set_solver.
Qed.

Lemma map_arith_id e : map_arith id e = e.
Proof. induction e as [|f p|op l IHl r IHr p]; cbn; [reflexivity..|]. now rewrite IHl, IHr. Qed.

(** ** Folding *)

Section Fold.
Context `{AuxVocab} `{StackVocab} `{WherePlanSlots} `{WhereProgram}.
Variable w : world.

Lemma isLiteral_some c v : isLiteral c = Some v -> exists p, c = IR.CAtomBoolLit v p.
Proof. destruct c; try discriminate. intros [= <-]. eauto. Qed.

(** A folded operand that is a literal. *)
Lemma folded_literal ρ c v :
  approx (evalCond w ρ c) (evalCond w ρ (foldBooleanConstants c)) -> isLiteral (foldBooleanConstants c) = Some v -> approx (evalCond w ρ c) (test v).
Proof. intros Ha E. apply isLiteral_some in E as [p E]. now rewrite E in Ha. Qed.

(** What [and] ([true]) and [or] ([false]) make of a literal operand. *)
Definition joinv (conj : bool) (a b : verdict) : verdict := if conj then andv a b else orv a b.

Lemma approx_joinv conj a b c d : approx a b -> approx c d -> approx (joinv conj a c) (joinv conj b d).
Proof. destruct conj; [apply approx_andv|apply approx_orv]. Qed.

Lemma joinv_left conj v b : joinv conj (test v) b = if Bool.eqb v conj then b else test v.
Proof. now destruct conj, v. Qed.

Lemma joinv_right conj v a : approx (joinv conj a (test v)) (if Bool.eqb v conj then a else test v).
Proof. destruct conj, v, a as [[]| |]; cbn; first [now right|now left]. Qed.

Lemma foldPair_approx ρ conj l r whole p :
  evalCond w ρ whole = joinv conj (evalCond w ρ l) (evalCond w ρ r) ->
  approx (evalCond w ρ whole) (evalCond w ρ (foldPair conj l r whole (literal_at p))).
Proof.
  intros E. unfold foldPair. destruct (isLiteral l) as [v|] eqn:El.
  - apply isLiteral_some in El as [q ->]. rewrite E. cbn [evalCond]. rewrite joinv_left. now destruct (Bool.eqb v conj).
  - destruct (isLiteral r) as [v|] eqn:Er; [|now right]. apply isLiteral_some in Er as [q ->]. rewrite E. cbn [evalCond].
    pose proof (joinv_right conj v (evalCond w ρ l)). now destruct (Bool.eqb v conj).
Qed.

Lemma fold_approx c : forall ρ, approx (evalCond w ρ c) (evalCond w ρ (foldBooleanConstants c)).
Proof.
  induction c as [l IHl r IHr p|l IHl r IHr p|c IH p|c IH t p|c IH t p| | | | | | |l IHl op r IHr p]; intros ρ; cbn [foldBooleanConstants]; try (now right).
  - etransitivity; [|apply (foldPair_approx ρ false); reflexivity]. cbn [evalCond]. now apply approx_orv.
  - etransitivity; [|apply (foldPair_approx ρ true); reflexivity]. cbn [evalCond]. now apply approx_andv.
  - destruct (isLiteral (foldBooleanConstants c)) as [v|] eqn:E; [|cbn [evalCond]; now apply approx_notv].
    apply (folded_literal ρ) in E; [|apply IH]. apply approx_notv in E. cbn [evalCond literal_at]. etransitivity; [exact E|]. now destruct v.
  - destruct (isLiteral (foldBooleanConstants c)) as [[]|] eqn:E; [now right| |now right]. cbn [evalCond literal_at test].
    destruct (present w (IR.QLayer t)); [|now right]. destruct (kept w (quant_source c) t); [|now right|now left]. cbn [sbind].
    etransitivity; [|right; apply (any_false (Z.to_nat a) 0)]. apply approx_any. intros k _. apply (folded_literal _ c false); [apply IH|exact E].
  - destruct (isLiteral (foldBooleanConstants c)) as [[]|] eqn:E; [now right| |now right].
    destruct (stackCountSource c) as [[src|]|] eqn:Es; [now right| |now right]. destruct (Z.ltb_spec 0 (IR.Capacity t)); [|now right].
    cbn [evalCond literal_at test]. destruct (present w (IR.QLayer t)); [|now right]. rewrite (stackCountSource_counter c None Es). cbn [cut kept notv andv sbind].
    destruct (Z.to_nat (IR.Capacity t)) as [|n] eqn:En; [lia|]. cbn [all_of].
    pose proof (folded_literal (fun f => bind t 0 (ρ f)) c false (IH _) E) as [-> | ->]; [now left|now right].
  - destruct (isLiteral (foldBooleanConstants l)) as [a|] eqn:El; [destruct (isLiteral (foldBooleanConstants r)) as [b|] eqn:Er|].
    + cbn [evalCond literal_at]. apply (folded_literal ρ) in El; [|apply IHl]. apply (folded_literal ρ) in Er; [|apply IHr].
      apply approx_truth in El, Er. rewrite truth_test in El, Er. destruct El as [-> | ->]; [now left|]. destruct Er as [-> | ->]; [now left|now right].
    + cbn [evalCond]. repeat (apply approx_sbind; [apply approx_truth; auto|intros ?]). now right.
    + cbn [evalCond]. repeat (apply approx_sbind; [apply approx_truth; auto|intros ?]). now right.
Qed.

Lemma foldPair_wf ρ conj l r whole p : wf_cond ρ l -> wf_cond ρ r -> wf_cond ρ whole -> wf_cond ρ (foldPair conj l r whole (literal_at p)).
Proof. intros. unfold foldPair. repeat case_match; cbn; auto. Qed.

Lemma fold_wf ρ c : wf_cond ρ c -> wf_cond ρ (foldBooleanConstants c).
Proof.
  induction c as [l IHl r IHr p|l IHl r IHr p|c IH p|c _ t p|c _ t p| | | | | | |l IHl op r IHr p]; intros Hw; cbn [foldBooleanConstants]; try exact Hw.
  - destruct Hw. apply foldPair_wf; cbn; auto.
  - destruct Hw. apply foldPair_wf; cbn; auto.
  - repeat case_match; cbn; auto.
  - repeat case_match; cbn; auto.
  - repeat case_match; cbn; auto.
  - destruct Hw. repeat case_match; cbn; auto.
Qed.

Lemma foldPair_depth conj l r whole p n : (depth l <= n)%nat -> (depth r <= n)%nat -> (depth whole <= n)%nat -> (1 <= n)%nat ->
  (depth (foldPair conj l r whole (literal_at p)) <= n)%nat.
Proof. intros. unfold foldPair. repeat case_match; cbn; auto. Qed.

Lemma fold_depth c : (depth (foldBooleanConstants c) <= depth c)%nat.
Proof.
  induction c as [l IHl r IHr p|l IHl r IHr p|c IH p|c IH t p|c IH t p| | | | | | |l IHl op r IHr p]; cbn [foldBooleanConstants depth]; try lia;
    try (apply foldPair_depth; cbn; lia); repeat case_match; cbn; lia.
Qed.

(** ** Binding *)

Lemma evalCond_ext c : forall ρ ρ', (forall f, f ∈ WalkConditionFieldRefs c -> ρ f = ρ' f) -> evalCond w ρ c = evalCond w ρ' c.
Proof.
  induction c as [l IHl r IHr p|l IHl r IHr p|c IH p|c IH t p|c IH t p|l op r p|f op v p| | |f p|f p|l IHl op r IHr p]; intros ρ ρ' Hf; cbn [evalCond WalkConditionFieldRefs] in *.
  - rewrite (IHl ρ ρ'), (IHr ρ ρ'); [reflexivity|..]; intros; apply Hf; set_solver.
  - rewrite (IHl ρ ρ'), (IHr ρ ρ'); [reflexivity|..]; intros; apply Hf; set_solver.
  - now rewrite (IH ρ ρ').
  - destruct (present w _); [|reflexivity]. apply sbind_ext. intros n. apply any_ext. intros k. apply IH. intros f Hin. now rewrite Hf.
  - destruct (present w _); [|reflexivity]. f_equal. apply sbind_ext. intros n. apply all_ext. intros k. apply IH. intros f Hin. now rewrite Hf.
  - rewrite (map_arith_ext ρ ρ' l), (map_arith_ext ρ ρ' r); [reflexivity|..]; intros; apply Hf; set_solver.
  - rewrite Hf by set_solver. reflexivity.
  - reflexivity.
  - reflexivity.
  - rewrite Hf by set_solver. reflexivity.
  - rewrite Hf by set_solver. reflexivity.
  - rewrite (IHl ρ ρ'), (IHr ρ ρ'); [reflexivity|..]; intros; apply Hf; set_solver.
Qed.

Lemma wf_ext c : forall ρ ρ', (forall f, f ∈ WalkConditionFieldRefs c -> ρ f = ρ' f) -> wf_cond ρ c -> wf_cond ρ' c.
Proof.
  induction c as [l IHl r IHr p|l IHl r IHr p|c IH p|c IH t p|c IH t p|l op r p|f op v p| | |f p|f p|l IHl op r IHr p]; intros ρ ρ' Hf; cbn [wf_cond WalkConditionFieldRefs] in *.
  - intros [Wl Wr]. split; [apply (IHl ρ)|apply (IHr ρ)]; auto; intros; apply Hf; set_solver.
  - intros [Wl Wr]. split; [apply (IHl ρ)|apply (IHr ρ)]; auto; intros; apply Hf; set_solver.
  - now apply IH.
  - intros (? & ? & ? & ? & Hi). splits; auto. intros i Hr. eapply IH; [|now apply Hi]. intros f Hin. cbn. now rewrite Hf.
  - intros (? & ? & ? & ? & Hi). splits; auto. intros i Hr. eapply IH; [|now apply Hi]. intros f Hin. cbn. now rewrite Hf.
  - rewrite (map_arith_ext ρ ρ' l), (map_arith_ext ρ ρ' r); [exact id|..]; intros; apply Hf; set_solver.
  - rewrite Hf by set_solver. exact id.
  - exact id.
  - exact id.
  - rewrite Hf by set_solver. exact id.
  - rewrite Hf by set_solver. exact id.
  - intros [Wl Wr]. split; [apply (IHl ρ)|apply (IHr ρ)]; auto; intros; apply Hf; set_solver.
Qed.

Lemma bind_other t i f : isIterator f = false -> bind t i f = f.
Proof.
  intros E. unfold bind. destruct (decide (ranges_over t f)) as [(_ & a & st & Ea & _ & Es & Ei)|]; [|reflexivity].
  unfold isIterator in E. rewrite Ea in E. cbn in E. rewrite Es in E. congruence.
Qed.

(** The code's rebinding is that of the iterator. *)
Lemma rebind_bind f t i f' : rebindFieldRef f t i = Ok f' -> f' = bind t i f.
Proof.
  unfold rebindFieldRef. destruct (Aux f) as [a|] eqn:Ea.
  - destruct (isIterator f) eqn:Ei; cbn [negb]; [|intros [= <-]; now rewrite bind_other]. intros E. case_if E; [discriminate|]. injection E as <-. bools.
    rewrite bool_decide_eq_true in *.
    unfold bind. rewrite decide_True; [unfold field_of_entry; now rewrite Ea|]. split; [assumption|]. unfold isIterator in Ei. rewrite Ea in Ei. cbn in Ei.
    destruct (Ir.Stack a) as [st|] eqn:Es; [|discriminate]. now exists a, st.
  - intros [= <-]. symmetry. apply bind_other. unfold isIterator. now rewrite Ea.
Qed.

Lemma clone_arith e t i e' : cloneArithWithRebind e t i = Ok e' -> e' = map_arith (bind t i) e.
Proof.
  revert e'. induction e as [|f p|op l IHl r IHr p]; cbn; intros e'; [now intros [= <-]|..].
  - intros E. apply result_bind_ok in E as (f' & E & [= <-]). now apply rebind_bind in E as ->.
  - intros E. apply result_bind_ok in E as (l' & El & E). apply result_bind_ok in E as (r' & Er & [= <-]).
    now rewrite (IHl l' El), (IHr r' Er).
Qed.

Definition same_meaning (t : IR.QuantTarget) (i : Z) (c c' : IR.Condition) : Prop :=
  evalCond w id c' = evalCond w (bind t i) c /\ (wf_cond (bind t i) c -> wf_cond id c').

Lemma same_unbound t i c : no_iterator c -> same_meaning t i c c.
Proof.
  unfold no_iterator. rewrite Forall_forall. intros Hn. assert (He : forall f, f ∈ WalkConditionFieldRefs c -> bind t i f = id f) by (intros f Hin; now apply bind_other, Hn).
  split; [symmetry; now apply evalCond_ext|now apply wf_ext].
Qed.

Lemma clone_meaning t i c : forall c', cloneConditionWithRebind c t i = Ok c' -> rebindable c -> same_meaning t i c c'.
Proof.
  induction c as [l IHl r IHr p|l IHl r IHr p|c IH p|c IH t2 p|c IH t2 p|l op r p|f op v p| | |f p|f p|l IHl op r IHr p]; intros c' E Hr;
    cbn [cloneConditionWithRebind rebindable] in *.
  - destruct Hr. apply result_bind_ok in E as (l' & El & E). apply result_bind_ok in E as (r' & Er & [= <-]).
    destruct (IHl l' El), (IHr r' Er); auto. unfold same_meaning. cbn [evalCond wf_cond]. split; [congruence|tauto].
  - destruct Hr. apply result_bind_ok in E as (l' & El & E). apply result_bind_ok in E as (r' & Er & [= <-]).
    destruct (IHl l' El), (IHr r' Er); auto. unfold same_meaning. cbn [evalCond wf_cond]. split; [congruence|tauto].
  - apply result_bind_ok in E as (d & Ed & [= <-]). destruct (IH d Ed); auto. unfold same_meaning. cbn [evalCond wf_cond]. split; [congruence|tauto].
  - easy.
  - easy.
  - apply result_bind_ok in E as (l' & El & E). apply result_bind_ok in E as (r' & Er & [= <-]). apply clone_arith in El as ->, Er as ->.
    unfold same_meaning. cbn [evalCond wf_cond]. now rewrite !map_arith_id.
  - apply result_bind_ok in E as (f' & Ef & [= <-]). apply rebind_bind in Ef as ->. now split.
  - injection E as <-. now split.
  - injection E as <-. now split.
  - injection E as <-. apply same_unbound. unfold no_iterator. cbn. auto.
  - injection E as <-. apply same_unbound. unfold no_iterator. cbn. auto.
  - injection E as <-. destruct Hr. apply same_unbound. unfold no_iterator in *. cbn. now apply Forall_app_2.
Qed.

Lemma clone_depth t i c : forall c', cloneConditionWithRebind c t i = Ok c' -> depth c' = depth c.
Proof.
  induction c; intros c' E; cbn [cloneConditionWithRebind] in E;
    repeat match goal with E : result_bind _ _ = Ok _ |- _ => let a := fresh in let Ea := fresh in apply result_bind_ok in E as (a & Ea & E) end;
    injection E as <-; cbn [depth]; f_equal; auto; f_equal; auto.
Qed.
End Fold.

(** * Rules for code that decides a condition

    [decided]: the fragment falls through when the condition holds, leaves
    for the label it was given when it does not, and rejects when the
    packet is too short, writing nothing but scratch; up to [approx]. The
    rules put fragments together the way [and], [or], [not], the guards and
    the unrolled quantifiers do. *)

#[local] Arguments dslReject : simpl never.

Section Rules.
Context `{HKern : Kernel}.

(** ** Fragments entered at a label *)

(** [runs] of a verdict, from the label a jump before the fragment is
    looking for. *)
Definition ends (F : st -> Prop) (code : list Instruction) (pend : option bytes) (fail : bytes) (s : st) (r : verdict) : Prop :=
  match r with
  | Present _ => exists t, exec code pend s = Next t /\ F t
  | Missing => exists t, exec code pend s = Goto fail t /\ F t
  | Beyond => exists t, exec code pend s = Goto dslReject t /\ F t
  end.

Lemma ends_runs F code fail s r : ends F code None fail s r <-> runs F (fun _ _ => True) code fail s r.
Proof. destruct r; cbn; split; intros (t & ? & ?); exists t; tauto. Qed.

Lemma ends_weaken (F F' : st -> Prop) code pend fail s r : (forall t, F t -> F' t) -> ends F code pend fail s r -> ends F' code pend fail s r.
Proof. intros HF. destruct r; intros (t & ? & ?); exists t; auto. Qed.

(** What happens after a fragment with its own label. *)
Lemma ends_catch (F1 F2 : st -> Prop) c1 c2 pend label fail s r1 r :
  ends F1 c1 pend label s r1 ->
  (r1 = Present tt -> forall t, F1 t -> ends F2 c2 None fail t r) ->
  (r1 = Missing -> forall t, F1 t -> ends F2 c2 (Some label) fail t r) ->
  (r1 = Beyond -> r = Beyond /\ dslReject ∉ symbols c2) -> (forall t, F1 t -> F2 t) ->
  ends F2 (c1 ++ c2) pend fail s r.
Proof.
  intros H1 HP HM HB HF. destruct r1 as [[]| |]; destruct H1 as (t & E & Ht).
  - specialize (HP eq_refl t Ht). unfold ends in *. rewrite exec_app, E. exact HP.
  - specialize (HM eq_refl t Ht). unfold ends in *. rewrite exec_app, E. exact HM.
  - destruct (HB eq_refl) as [-> Hn]. exists t. rewrite exec_app, E. split; [now apply exec_skip|auto].
Qed.

(** A fragment after one that shares its label. *)
Lemma ends_seq (F1 F2 : st -> Prop) c1 c2 pend fail s r1 r2 :
  ends F1 c1 pend fail s r1 -> (r1 = Present tt -> forall t, F1 t -> ends F2 c2 None fail t r2) ->
  fail ∉ symbols c2 -> dslReject ∉ symbols c2 -> (forall t, F1 t -> F2 t) -> ends F2 (c1 ++ c2) pend fail s (andv r1 r2).
Proof.
  intros H1 H2 Hf Hd HF. eapply ends_catch; [exact H1|..]; auto.
  - intros ->. exact (H2 eq_refl).
  - intros -> t Ht. exists t. split; [now apply exec_skip|auto].
  - intros ->. auto.
Qed.

Lemma exec_other i l sym s : Symbol i <> sym -> exec (i :: l) (Some sym) s = exec l (Some sym) s.
Proof. intros Hs. cbn [exec]. now rewrite bool_decide_false. Qed.

Lemma exec_Ja_skip label sym l s : has_text sym = true -> exec (JaLabel label :: l) (Some sym) s = exec l (Some sym) s.
Proof. intros Hs. apply exec_other. cbn. intros <-. discriminate. Qed.

(** [code; Ja fail; landing label]: [not], and an entry of [any]. *)
Lemma ends_not (P : Z -> Prop) code label fail s r :
  ends (upto P s) code None label s r -> is_Some (getr R3 s) -> has_text label = true -> has_text fail = true -> label <> fail ->
  label <> dslReject ->
  ends (upto P s) (code ++ [JaLabel fail; landingNoop label]) None fail s (notv r).
Proof.
  intros Hc Hr Hl Hf Hn Hd. eapply ends_catch; [exact Hc|..]; auto.
  - intros -> t Ht. exists t. split; [|exact Ht]. rewrite exec_Ja by exact Hf. now rewrite exec_past_landing.
  - intros -> t Ht. pose proof (up_set _ _ _ Ht Hr) as [v Hv]. exists (setr R3 v t). rewrite exec_Ja_skip by exact Hl. split; [now apply exec_arrive|].
    eapply upto_trans; [exact Ht|]. apply upto_setr; auto.
  - intros ->. split; [reflexivity|]. cbn. intros Hin. apply elem_of_cons in Hin as [?|Hin]; [discriminate|]. apply list_elem_of_singleton in Hin. congruence.
Qed.

(** [guard; body; landing label]: an entry of [all] that is not there is
    skipped. *)
Lemma ends_guarded (P : Z -> Prop) guard body label fail s rg rb :
  ends (upto P s) guard None label s rg ->
  (rg = Present tt -> forall t, upto P s t -> ends (upto P s) body None fail t rb) ->
  is_Some (getr R3 s) -> has_text label = true -> has_text fail = true -> label <> fail -> label <> dslReject ->
  label ∉ symbols body -> dslReject ∉ symbols body ->
  ends (upto P s) (guard ++ body ++ [landingNoop label]) None fail s (match rg with Present _ => rb | Missing => Present tt | Beyond => Beyond end).
Proof.
  intros Hg Hb Hr Hl Hf Hn Hd Hlb Hdb.
  assert (Hland : forall t pend, upto P s t -> pend = None \/ pend = Some label -> ends (upto P s) [landingNoop label] pend fail t (Present tt)).
  { intros t pend Ht Hp. pose proof (up_set _ _ _ Ht Hr) as [v Hv]. exists (setr R3 v t).
    split; [destruct Hp as [-> | ->]; [now apply exec_landing|now apply exec_arrive]|]. eapply upto_trans; [exact Ht|]. apply upto_setr; auto. }
  assert (Hdl : dslReject ∉ symbols [landingNoop label]) by (cbn; intros Hin; apply list_elem_of_singleton in Hin; congruence).
  eapply ends_catch; [exact Hg|..]; auto.
  - intros -> t Ht. replace rb with (andv rb (Present tt)) by now destruct rb as [[]| |].
    eapply ends_seq; [apply Hb; auto|intros _ u Hu; apply Hland; auto| |exact Hdl|auto].
    cbn. intros Hin. apply list_elem_of_singleton in Hin. congruence.
  - intros -> t Ht. specialize (Hland t (Some label) Ht (or_intror eq_refl)). destruct Hland as (u & E & Hu). exists u.
    split; [|exact Hu]. rewrite exec_app. now rewrite exec_skip.
  - intros ->. split; [reflexivity|]. unfold symbols. rewrite map_app. intros Hin. apply elem_of_app in Hin as [?|?]; auto.
Qed.

(** [left; Ja done; right, labelled; landing done]. *)
Lemma ends_or (P : Z -> Prop) cl i cr label done fail s rl rr :
  ends (upto P s) cl None label s rl ->
  (rl = Missing -> forall t, upto P s t -> ends (upto P s) (i :: cr) None fail t rr) ->
  is_Some (getr R3 s) -> has_text label = true -> has_text done = true -> has_text fail = true -> label <> done -> fail <> done -> done <> dslReject ->
  Symbol i = [] -> done ∉ symbols cr -> fail <> label -> label <> dslReject -> fail ∉ symbols cr -> dslReject ∉ symbols cr ->
  ends (upto P s) (cl ++ [JaLabel done] ++ (WithSymbol label i :: cr) ++ [landingNoop done]) None fail s (orv rl rr).
Proof.
  intros Hcl Hcr Hr Hl Hdn Hf Hld Hfd Hdr Hi Hdc Hfl Hlr Hfc Hdrc.
  assert (Hland : forall t pend, upto P s t -> pend = None \/ pend = Some done -> ends (upto P s) [landingNoop done] pend fail t (Present tt)).
  { intros t pend Ht Hp. pose proof (up_set _ _ _ Ht Hr) as [v Hv]. exists (setr R3 v t).
    split; [destruct Hp as [-> | ->]; [now apply exec_landing|now apply exec_arrive]|]. eapply upto_trans; [exact Ht|]. apply upto_setr; auto. }
  assert (Hdl : dslReject ∉ symbols [landingNoop done]) by (cbn; intros Hin; apply list_elem_of_singleton in Hin; congruence).
  eapply ends_catch; [exact Hcl|..]; auto.
  - intros -> t Ht. destruct (Hland t (Some done) Ht (or_intror eq_refl)) as (u & E & Hu). exists u. split; [|exact Hu].
    cbn [app]. rewrite exec_Ja by exact Hdn. change (WithSymbol label i :: cr ++ [landingNoop done]) with ((WithSymbol label i :: cr) ++ [landingNoop done]).
    rewrite exec_app, exec_skip; [exact E|]. cbn. intros Hin. apply elem_of_cons in Hin as [?|?]; auto.
  - intros -> t Ht. cbn [app]. unfold ends in *. rewrite exec_Ja_skip by exact Hl.
    change (WithSymbol label i :: cr ++ [landingNoop done]) with ((WithSymbol label i :: cr) ++ [landingNoop done]).
    assert (Hw : ends (upto P s) (WithSymbol label i :: cr) (Some label) fail t rr).
    { specialize (Hcr eq_refl t Ht). unfold ends in *. rewrite exec_land by reflexivity. exact Hcr. }
    replace (orv Missing rr) with (andv rr (Present tt)) by now destruct rr as [[]| |].
    apply (ends_seq (upto P s) (upto P s) (WithSymbol label i :: cr) [landingNoop done] (Some label) fail t rr (Present tt)); [exact Hw|intros _ u Hu; apply Hland; auto| |exact Hdl|auto].
    cbn. intros Hin. apply list_elem_of_singleton in Hin. congruence.
  - intros ->. split; [reflexivity|]. cbn. rewrite map_app. intros Hin. apply elem_of_cons in Hin as [?|Hin]; [discriminate|].
    apply elem_of_cons in Hin as [?|Hin]; [auto|]. apply elem_of_app in Hin as [?|Hin]; [auto|]. now apply Hdl.
Qed.

(** The truth of a condition in R3. *)
Definition falsy_tail (falsy done : bytes) : list Instruction := [Imm Mov R3 1; JaLabel done; WithSymbol falsy (Imm Mov R3 0); landingNoop done].

Lemma runs_truth (P : Z -> Prop) code falsy done fail s r :
  ends (upto P s) code None falsy s r -> has_text falsy = true -> has_text done = true -> falsy <> done -> falsy <> dslReject -> done <> dslReject ->
  runs (upto P s) (fun (b : bool) t => getr R3 t = Some (Num (if b then 1 else 0))) (code ++ falsy_tail falsy done) fail s (truth r).
Proof.
  intros Hc Hfy Hdn Hn Hr Hd. destruct r as [[]| |]; destruct Hc as (t & E & Ht); cbn [truth runs]; rewrite exec_app, E; unfold falsy_tail.
  - eexists. split.
    + rewrite exec_Mov_Imm by discriminate. rewrite exec_Ja by exact Hdn. rewrite exec_other by exact Hn. apply exec_arrive. cgregs.
    + split; [|cgregs]. eapply upto_trans; [exact Ht|]. eapply upto_trans; apply upto_setr; auto.
  - eexists. split.
    + rewrite exec_other by (cbn; intros <-; discriminate). rewrite exec_Ja_skip by exact Hfy.
      rewrite exec_land by reflexivity. rewrite exec_symbol_None. rewrite exec_Mov_Imm by discriminate. apply exec_landing. cgregs.
    + split; [|cgregs]. eapply upto_trans; [exact Ht|]. eapply upto_trans; apply upto_setr; auto.
  - exists t. split; [|exact Ht]. apply exec_skip. cbn. rewrite !not_elem_of_cons. repeat split; try discriminate; auto. apply not_elem_of_nil.
Qed.
End Rules.

(** * The recursion of the where clause's generator ends

    [whereGen] takes fuel because folding and rebinding make new conditions;
    the depth of the condition is enough: more of it changes nothing. *)

(** Generators that agree at every counter. *)
Definition same_gen {A} (m m' : gen A) : Prop := forall n, m n = m' n.

#[export] Instance same_gen_equiv A : Equivalence (@same_gen A).
Proof. split; [easy|intros m m' Hm n; now symmetry|intros a b c Ha Hb n; now rewrite Ha]. Qed.

Lemma same_bind {A C} (m m' : gen A) (k k' : A -> gen C) : same_gen m m' -> (forall a, same_gen (k a) (k' a)) -> same_gen (gbind m k) (gbind m' k').
Proof. intros Hm Hk n. unfold gbind. rewrite Hm. destruct (m' n) as [[a n']|]; [apply Hk|reflexivity]. Qed.

Lemma same_refl {A} (m : gen A) : same_gen m m.
Proof. easy. Qed.

(** After a step that succeeds, the value it gives is known. *)
Lemma same_bind_lift {A C} (r : result cerr A) (k k' : A -> gen C) : (forall a, r = Ok a -> same_gen (k a) (k' a)) -> same_gen (gbind (glift r) k) (gbind (glift r) k').
Proof. intros Hk n. unfold gbind, glift. destruct r as [a|]; cbn; [now apply Hk|reflexivity]. Qed.

Ltac same := repeat first [apply same_refl | apply same_bind; [|intros ?] | match goal with |- same_gen (if ?b then _ else _) _ => destruct b end].

Section Fuel.
Context `{AuxVocab} `{WherePlan} `{StackVocab} `{WherePlanSlots} `{WhereProgram} `{LiteralCode}.

Section Combine.
Context (g g' : whereCtx -> IR.Condition -> bytes -> gen (list Instruction)).

(** The generators agree on conditions of depth at most [d]. *)
Definition agree (d : nat) : Prop := forall c w f, (depth w <= d)%nat -> same_gen (g c w f) (g' c w f).

Lemma genConditionAsBool_same c w d : agree d -> (depth w <= d)%nat -> same_gen (genConditionAsBool g c w) (genConditionAsBool g' c w).
Proof.
  intros Ha Hd. unfold genConditionAsBool. pose proof (fold_depth w). destruct (isLiteral _); [apply same_refl|]. same. apply Ha. lia.
Qed.

Lemma unroll_same n inner d : agree d -> (depth inner <= d)%nat -> forall i src c t a f any, same_gen (unroll g n i src c inner t a f any) (unroll g' n i src c inner t a f any).
Proof.
  intros Ha Hd. induction n as [|n IH]; intros i src c t a f any; cbn [unroll]; [apply same_refl|].
  do 2 (apply same_bind; [apply same_refl|intros ?]). apply same_bind; [|intros ?; same; apply IH].
  apply same_bind_lift. intros re Hre. apply clone_depth in Hre. same. apply Ha. lia.
Qed.

Lemma genQuantUnroll_same c inner t a f any d : agree d -> (depth inner <= d)%nat -> same_gen (genQuantUnroll g c inner t a f any) (genQuantUnroll g' c inner t a f any).
Proof. intros Ha Hd. unfold genQuantUnroll. destruct (_ <=? _); [apply same_refl|]. same. now apply (unroll_same _ _ d). Qed.

Lemma step_same d fuel fuel' c w f : agree d -> (depth w <= S d)%nat -> g = whereGen fuel -> g' = whereGen fuel' ->
  same_gen (whereGen (S fuel) c w f) (whereGen (S fuel') c w f).
Proof.
  intros Ha Hd Eg Eg'. cbn [whereGen]. rewrite <- Eg, <- Eg'. pose proof (fold_depth w) as Hf.
  destruct (foldBooleanConstants w) as [l r p|l r p|ci p|ci t p|ci t p|l op r p|u op v p|a p|b p|u p|u p|l op r p]; cbn [depth] in Hf; try apply same_refl.
  - unfold genOr. same; apply Ha; lia.
  - unfold genAnd. same; apply Ha; lia.
  - unfold genNot. same. apply Ha; lia.
  - unfold genAny, withQuantLayerGuard. same. apply (genQuantUnroll_same _ _ _ _ _ _ d); [exact Ha|lia].
  - unfold genAll, genAllBody, withQuantLayerGuard. same. apply (genQuantUnroll_same _ _ _ _ _ _ d); [exact Ha|lia].
  - unfold genBoolEq. destruct (boolEqJump op); [|apply same_refl]. same; apply (genConditionAsBool_same _ _ d); auto; lia.
Qed.
End Combine.

Lemma depth_pos w : (1 <= depth w)%nat.
Proof. destruct w; cbn; lia. Qed.

Lemma whereGen_same d : forall fuel fuel', (d <= fuel)%nat -> (d <= fuel')%nat -> agree (whereGen fuel) (whereGen fuel') d.
Proof.
  induction d as [|d IH]; intros fuel fuel' Hk Hk' c w f Hw; [pose proof (depth_pos w); lia|].
  destruct fuel as [|k]; [lia|]. destruct fuel' as [|k']; [lia|].
  apply (step_same (whereGen k) (whereGen k') d); auto. apply IH; lia.
Qed.
End Fuel.

(** ** The fuel is enough

    No step of the generator ends for want of fuel when the condition's depth
    is the fuel: [completes] of every function it calls, down to the loads of
    fields and the comparisons of literals. *)

Fixpoint out_of_fuel (e : cerr) : bool :=
  match e with CFuel => true | CAt _ e => out_of_fuel e | CNotImplemented _ | CErr _ | CPanic => false end.

Definition completes {A} (r : result cerr A) : Prop := match r with Ok _ => True | Err e => out_of_fuel e = false end.
Definition completes_gen {A} (m : gen A) : Prop := forall n, completes (m n).

Create HintDb complete discriminated.

Lemma completes_Ok {A} (a : A) : completes (Ok a).
Proof. exact I. Qed.
Lemma completes_panic {A} : completes (Err CPanic : result cerr A).
Proof. reflexivity. Qed.
Lemma completes_errorf {A} f args : completes (cerrorf f args : result cerr A).
Proof. reflexivity. Qed.
Lemma completes_notImplemented {A} f args : completes (notImplemented f args : result cerr A).
Proof. reflexivity. Qed.
Lemma completes_again {A C} (r : result cerr A) e : r = Err e -> completes r -> completes (Err e : result cerr C).
Proof. now intros ->. Qed.
Lemma completes_bind {A C} (m : result cerr A) (k : A -> result cerr C) : completes m -> (forall a, completes (k a)) -> completes (result_bind m k).
Proof. intros Hm Hk. destruct m as [a|e]; [apply Hk|exact Hm]. Qed.

Lemma completes_ret {A} (a : A) : completes_gen (gret a).
Proof. easy. Qed.
Lemma completes_lift {A} (r : result cerr A) : completes r -> completes_gen (glift r).
Proof. intros Hr n. now apply completes_bind. Qed.
Lemma completes_gbind {A C} (m : gen A) (k : A -> gen C) : completes_gen m -> (forall a, completes_gen (k a)) -> completes_gen (gbind m k).
Proof. intros Hm Hk n. apply completes_bind; [apply Hm|intros a; apply Hk]. Qed.
(** After a step that succeeds, the value it gives is known. *)
Lemma completes_lift_bind {A C} (r : result cerr A) (k : A -> gen C) : completes r -> (forall a, r = Ok a -> completes_gen (k a)) -> completes_gen (gbind (glift r) k).
Proof. intros Hr Hk n. unfold gbind, glift. destruct r as [a|e]; [now apply Hk|exact Hr]. Qed.
Lemma completes_label p : completes_gen (freshLabel p).
Proof. easy. Qed.

#[export] Hint Resolve completes_Ok completes_panic completes_errorf completes_notImplemented completes_ret completes_label completes_lift : complete.

Ltac completing := cbv zeta; repeat first
  [ solve [eauto 3 with complete]
  | solve [eapply completes_again; [eassumption|eauto 3 with complete]]
  | apply completes_gbind; [|intros ?] | apply completes_bind; [|intros ?] | apply completes_lift
  | match goal with |- completes (match ?x with _ => _ end) => destruct x eqn:? | |- completes_gen (match ?x with _ => _ end) => destruct x eqn:? end ].

Section Completes.
Context `{AuxVocab} `{WherePlan} `{StackVocab} `{WherePlanSlots} `{WhereProgram}.

(** ** Fields *)

Lemma findFieldBitOffset_completes spec n : completes (findFieldBitOffset spec n).
Proof. unfold findFieldBitOffset. completing. Qed.
#[local] Hint Resolve findFieldBitOffset_completes : complete.
Lemma findFieldByteOffset_completes spec n : completes (findFieldByteOffset spec n).
Proof. unfold findFieldByteOffset. completing. Qed.
#[local] Hint Resolve findFieldByteOffset_completes : complete.
Lemma findFieldByteOffset128_completes spec n : completes (findFieldByteOffset128 spec n).
Proof. unfold findFieldByteOffset128. completing. Qed.
Lemma applySliceToOffset_completes f off n : completes (applySliceToOffset f off n).
Proof. unfold applySliceToOffset. completing. Qed.
Lemma applyExactSlice_completes f off n : completes (applyExactSlice f off n).
Proof. unfold applyExactSlice. completing. Qed.
Lemma dynamicOffsetAuxEntryOff_completes f : completes (dynamicOffsetAuxEntryOff f).
Proof. unfold dynamicOffsetAuxEntryOff. completing. Qed.
#[local] Hint Resolve findFieldByteOffset128_completes applySliceToOffset_completes applyExactSlice_completes dynamicOffsetAuxEntryOff_completes : complete.
Lemma auxFieldWindow_completes f : completes (auxFieldWindow f).
Proof. unfold auxFieldWindow. completing. Qed.
#[local] Hint Resolve auxFieldWindow_completes : complete.
Lemma fieldRefByteOffset_completes f : completes (fieldRefByteOffset f).
Proof. unfold fieldRefByteOffset. completing. Qed.
#[local] Hint Resolve fieldRefByteOffset_completes : complete.
Lemma scalarFieldWindow_completes f : completes (scalarFieldWindow f).
Proof. unfold scalarFieldWindow. completing. Qed.
Lemma asmSizeFor_completes n : completes (asmSizeFor n).
Proof. unfold asmSizeFor. completing. Qed.
#[local] Hint Resolve scalarFieldWindow_completes asmSizeFor_completes : complete.
Lemma auxStaticByteOffset_completes a : completes (auxStaticByteOffset a).
Proof. unfold auxStaticByteOffset. completing. Qed.
Lemma auxEntryFieldStart_completes f : completes (auxEntryFieldStart f).
Proof. unfold auxEntryFieldStart. completing. Qed.
Lemma dynamicOffsetAuxByteOff_completes f : completes (dynamicOffsetAuxByteOff f).
Proof. unfold dynamicOffsetAuxByteOff. completing. Qed.
#[local] Hint Resolve auxStaticByteOffset_completes auxEntryFieldStart_completes dynamicOffsetAuxByteOff_completes : complete.

(** What the host's part answers is its own: an anchor, an entry's address
    or slot, or an error of theirs. *)
Record host_completes (loop : whereCtx -> IR.Condition -> IR.QuantTarget -> bytes -> bool -> gen (list Instruction)) : Prop := {
  anchor_completes : forall l, completes (layerAnchorFor l);
  address_completes : forall f a fail, completes (stackEntryAddress f a fail);
  slot_completes : forall l, completes (entrySlot l);
  loop_completes : forall c w t fail any, completes_gen (loop c w t fail any)
}.

Variable loop : whereCtx -> IR.Condition -> IR.QuantTarget -> bytes -> bool -> gen (list Instruction).
Hypothesis Hhost : host_completes loop.
#[local] Instance loop_literals : LiteralCode := where_literals loop.

Lemma layerAnchorFor_completes l : completes (layerAnchorFor l).
Proof. exact (anchor_completes loop Hhost l). Qed.
Lemma stackEntryAddress_completes f a fail : completes (stackEntryAddress f a fail).
Proof. exact (address_completes loop Hhost f a fail). Qed.
Lemma entrySlot_completes l : completes (entrySlot l).
Proof. exact (slot_completes loop Hhost l). Qed.
#[local] Hint Resolve layerAnchorFor_completes stackEntryAddress_completes entrySlot_completes : complete.

Lemma scalarFieldValue_completes f a b fail : completes (scalarFieldValue f (mkSite a b stackEntryAddress optionSlotFor fail)).
Proof. unfold scalarFieldValue, emitScalarFieldLoad, emitSplitSliceLoad. cbn [gate load_ entryAddr optionSlot fail_]. completing. Qed.
#[local] Hint Resolve scalarFieldValue_completes : complete.
Lemma whereFieldLoad_completes f fail : completes (whereFieldLoad f fail).
Proof. unfold whereFieldLoad. completing. Qed.
Lemma whereField128_completes f fail : completes (whereField128 f fail).
Proof. unfold whereField128. completing. Qed.
#[local] Hint Resolve whereFieldLoad_completes whereField128_completes : complete.

(** ** Arithmetic *)

Lemma genArithWithBits_completes c e : forall d w, completes (genArithWithBits c e d w).
Proof. induction e; intros d w; cbn [genArithWithBits genArithFieldLoad where_fields]; completing. Qed.
#[local] Hint Resolve genArithWithBits_completes : complete.
Lemma genArithField128Load_completes c f : completes (genArithField128Load c f).
Proof. unfold genArithField128Load. cbn [field128 where_fields]. completing. Qed.
Lemma genArith128Narrow_completes c e : completes (genArith128Narrow c e).
Proof. unfold genArith128Narrow. completing. Qed.
Lemma genArith128Combine_completes op : completes_gen (genArith128Combine op).
Proof. unfold genArith128Combine. completing. Qed.
Lemma genArith128FieldOpConst_completes l op v neg : completes_gen (genArith128FieldOpConst l op v neg).
Proof. unfold genArith128FieldOpConst. completing. Qed.
#[local] Hint Resolve genArithField128Load_completes genArith128Narrow_completes genArith128Combine_completes genArith128FieldOpConst_completes : complete.
Lemma genArith128FieldOpField_completes c op l r gl gr : (forall c, completes_gen (gl c)) -> (forall c, completes_gen (gr c)) ->
  completes_gen (genArith128FieldOpField c op l r gl gr).
Proof. intros Hl Hr. unfold genArith128FieldOpField, genArith128BothPark. destruct (parks128 l), (parks128 r); cbn [andb]; completing. Qed.
Lemma genArith128_completes e : forall c, completes_gen (genArith128 c e).
Proof. induction e; intros c; cbn [genArith128]; completing. apply genArith128FieldOpField_completes; auto. Qed.
#[local] Hint Resolve genArith128_completes : complete.
Lemma genArithCompare_completes c l op r fail : completes_gen (genArithCompare c l op r fail).
Proof. unfold genArithCompare, genArithCompare128. completing. Qed.
#[local] Hint Resolve genArithCompare_completes : complete.

(** ** Literals *)

Lemma route_completes op fail body : completes_gen (whereMultiWordRoute op fail body).
Proof. unfold whereMultiWordRoute. completing. Qed.
Lemma dynamic_route_completes f op fail body : completes_gen (whereDynamicMultiByte f op fail body).
Proof. unfold whereDynamicMultiByte. completing. Qed.
#[local] Hint Resolve route_completes dynamic_route_completes : complete.
Lemma genIPv4CIDRCompare_completes f op v p a off n fail j : completes_gen (genIPv4CIDRCompare f op v p a off n fail j).
Proof. unfold genIPv4CIDRCompare. completing. Qed.
Lemma genIPv6CIDRCompare_completes f op v p a off n fail : completes_gen (genIPv6CIDRCompare f op v p a off n fail).
Proof. unfold genIPv6CIDRCompare. completing. Qed.
Lemma genDynamicCIDRv4_completes f op v p off n fail : completes_gen (genDynamicCIDRv4 f op v p off n fail).
Proof. unfold genDynamicCIDRv4. completing. Qed.
Lemma genDynamicCIDRv6_completes f op v p off n fail : completes_gen (genDynamicCIDRv6 f op v p off n fail).
Proof. unfold genDynamicCIDRv6. completing. Qed.
Lemma genOwnerBoundCIDRv4_completes f op v p pre ld fail j : completes_gen (genOwnerBoundCIDRv4 f op v p pre ld fail j).
Proof. unfold genOwnerBoundCIDRv4. completing. Qed.
Lemma genOwnerBoundCIDRv6_completes f op v p pre ld fail : completes_gen (genOwnerBoundCIDRv6 f op v p pre ld fail).
Proof. unfold genOwnerBoundCIDRv6. completing. Qed.
#[local] Hint Resolve genIPv4CIDRCompare_completes genIPv6CIDRCompare_completes genDynamicCIDRv4_completes genDynamicCIDRv6_completes genOwnerBoundCIDRv4_completes genOwnerBoundCIDRv6_completes : complete.
Lemma literalScalarCompare_completes v op fail : completes (literalScalarCompare v op fail).
Proof. unfold literalScalarCompare. completing. Qed.
#[local] Hint Resolve literalScalarCompare_completes : complete.
Lemma genLiteralScalarCompare_completes f op v fail : completes (genLiteralScalarCompare f op v fail).
Proof. unfold genLiteralScalarCompare. completing. Qed.
Lemma auxLoadEmitter_completes f fail : completes (auxLoadEmitter f fail).
Proof. unfold auxLoadEmitter. completing. Qed.
Lemma literalFieldWindow_completes f : completes (literalFieldWindow f).
Proof. unfold literalFieldWindow, unslicedLiteralFieldOffset. completing. Qed.
Lemma genLiteralCompareDynamic_completes f op v fail : completes_gen (genLiteralCompareDynamic f op v fail).
Proof. unfold genLiteralCompareDynamic. completing. Qed.
#[local] Hint Resolve genLiteralScalarCompare_completes auxLoadEmitter_completes literalFieldWindow_completes genLiteralCompareDynamic_completes : complete.
Lemma genOptionLiteralCompare_completes f op v fail j : completes_gen (genOptionLiteralCompare f op v fail j).
Proof. unfold genOptionLiteralCompare. completing. Qed.
#[local] Hint Resolve genOptionLiteralCompare_completes : complete.
Lemma whereLiteralCompare_completes f op v fail : completes_gen (whereLiteralCompare f op v fail).
Proof. unfold whereLiteralCompare. completing. Qed.
#[local] Hint Resolve whereLiteralCompare_completes : complete.

(** ** Guards, atoms and rebinding *)

Lemma rebindFieldRef_completes f t i : completes (rebindFieldRef f t i).
Proof. unfold rebindFieldRef. completing. Qed.
#[local] Hint Resolve rebindFieldRef_completes : complete.
Lemma cloneArith_completes e t i : completes (cloneArithWithRebind e t i).
Proof. induction e; cbn [cloneArithWithRebind]; completing. Qed.
#[local] Hint Resolve cloneArith_completes : complete.
Lemma cloneCondition_completes c t i : completes (cloneConditionWithRebind c t i).
Proof. induction c; cbn [cloneConditionWithRebind]; completing. Qed.
#[local] Hint Resolve cloneCondition_completes : complete.
Lemma refCountSource_completes f : completes (refCountSource f).
Proof. unfold refCountSource. completing. Qed.
#[local] Hint Resolve refCountSource_completes : complete.
Lemma stackCountSource_completes c : completes (stackCountSource c).
Proof. unfold stackCountSource. completing. Qed.
#[local] Hint Resolve stackCountSource_completes : complete.
Lemma useBpfLoopAuxWalk_completes c t : completes (useBpfLoopAuxWalk c t).
Proof. unfold useBpfLoopAuxWalk. completing. Qed.
Lemma emitCountGuard_completes src i skip : completes (emitCountGuard src i skip).
Proof. unfold emitCountGuard. completing. Qed.
#[local] Hint Resolve useBpfLoopAuxWalk_completes emitCountGuard_completes : complete.
Lemma absentLayerGuard_completes c l fail : completes (absentLayerGuard c l fail).
Proof. unfold absentLayerGuard. completing. Qed.
#[local] Hint Resolve absentLayerGuard_completes : complete.
Lemma layerGuards_completes c refs : forall seen fail, completes (layerGuards c refs seen fail).
Proof. induction refs; intros seen fail; cbn [layerGuards]; completing. Qed.
Lemma stackGuards_completes refs : forall seen fail, completes (stackGuards refs seen fail).
Proof. induction refs; intros seen fail; cbn [stackGuards]; completing. Qed.
#[local] Hint Resolve layerGuards_completes stackGuards_completes : complete.
Lemma withLayerGuards_completes c refs fail body : completes_gen body -> completes_gen (withLayerGuards c refs fail body).
Proof. intros Hb. unfold withLayerGuards. completing. Qed.
Lemma withStackGuards_completes refs fail body : completes_gen body -> completes_gen (withStackGuards refs fail body).
Proof. intros Hb. unfold withStackGuards. completing. Qed.
#[local] Hint Resolve withLayerGuards_completes withStackGuards_completes : complete.
Lemma genBoolExists_completes f fail : completes (genBoolExists f fail).
Proof. unfold genBoolExists. completing. Qed.
Lemma genBoolValid_completes f fail : completes (genBoolValid f fail).
Proof. unfold genBoolValid. completing. Qed.
Lemma genActionAtom_completes a fail : completes (genActionAtom a fail).
Proof. unfold genActionAtom. completing. Qed.
Lemma truncatedStackGuard_completes c t fail : completes (truncatedStackGuard c t fail).
Proof. unfold truncatedStackGuard. completing. Qed.
#[local] Hint Resolve genBoolExists_completes genBoolValid_completes genActionAtom_completes truncatedStackGuard_completes : complete.
Lemma loop_code_completes c w t fail any : completes_gen (genQuantBpfLoop c w t fail any).
Proof. exact (loop_completes loop Hhost c w t fail any). Qed.
#[local] Hint Resolve loop_code_completes : complete.
Lemma genLiteralCompare_completes c f op v fail : completes_gen (genLiteralCompare c f op v fail).
Proof. exact (whereLiteralCompare_completes f op v fail). Qed.
#[local] Hint Resolve genLiteralCompare_completes : complete.

(** ** Conditions *)

Section Deep.
Context (g : whereCtx -> IR.Condition -> bytes -> gen (list Instruction)) (d : nat).

(** The generator completes on conditions of depth at most [d]. *)
Definition completes_to : Prop := forall c w f, (depth w <= d)%nat -> completes_gen (g c w f).
Hypothesis Hg : completes_to.

Lemma asBool_completes c w : (depth w <= d)%nat -> completes_gen (genConditionAsBool g c w).
Proof. intros Hd. unfold genConditionAsBool. pose proof (fold_depth w). completing. apply Hg. lia. Qed.

Lemma unroll_completes inner : (depth inner <= d)%nat -> forall n i src c t a f any, completes_gen (unroll g n i src c inner t a f any).
Proof.
  intros Hd. induction n as [|n IH]; intros i src c t a f any; cbn [unroll]; [completing|]. apply completes_gbind; [completing|intros skip].
  apply completes_gbind; [completing|intros guard]. apply completes_gbind; [|intros body; completing].
  apply completes_lift_bind; [apply cloneCondition_completes|]. intros re Hre. apply clone_depth in Hre. apply completes_gbind; [|intros ?; completing]. apply Hg. lia.
Qed.

Lemma genQuantUnroll_completes c inner t a f any : (depth inner <= d)%nat -> completes_gen (genQuantUnroll g c inner t a f any).
Proof. intros Hd. unfold genQuantUnroll. completing. now apply unroll_completes. Qed.

Lemma quant_guard_completes c t f body : (forall c, completes_gen (body c)) -> completes_gen (withQuantLayerGuard c t f body).
Proof. intros Hb. unfold withQuantLayerGuard. completing. Qed.
End Deep.

Lemma whereGen_completes d : forall fuel, (d <= fuel)%nat -> completes_to (whereGen fuel) d.
Proof.
  induction d as [|d IH]; intros fuel Hk c w f Hw; [pose proof (depth_pos w); lia|]. destruct fuel as [|k]; [lia|]. assert (Hg : completes_to (whereGen k) d) by (apply IH; lia).
  cbn [whereGen]. pose proof (fold_depth w) as Hf.
  destruct (foldBooleanConstants w) as [l r p|l r p|ci p|ci t p|ci t p|l op r p|u op v p|a p|b p|u p|u p|l op r p]; cbn [depth] in Hf; try solve [completing].
  - unfold genOr. completing; apply Hg; lia.
  - unfold genAnd. completing; apply Hg; lia.
  - unfold genNot. completing. apply Hg. lia.
  - unfold genAny. apply quant_guard_completes. intros c'. completing. apply (genQuantUnroll_completes _ d Hg). lia.
  - unfold genAll, genAllBody. apply quant_guard_completes. intros c'. completing. apply (genQuantUnroll_completes _ d Hg). lia.
  - unfold genBoolEq. completing; apply (asBool_completes _ d Hg); lia.
Qed.

Lemma genCondition_completes w fail : completes (genCondition w fail).
Proof.
  unfold genCondition. apply completes_bind; [|intros ?; exact I]. pose proof (whereGen_completes (depth w) (depth w) (le_n _) (mkWhereCtx 0 0 [] []) w fail (le_n _) 0) as Hc.
  destruct (whereGen _ _ _ _ _) as [r|e]; [exact I|]. cbn. destruct e; exact Hc.
Qed.

End Completes.
