(* ===== verification/WhereFacts.v ===== *)
(** * WhereFacts: the code of a condition decides it

    [WhereOk] is what the code asks of the states a where clause runs in:
    the slots of the stack plan hold what the walks of the layers found,
    and loads, literal comparisons and the host's action agree with the
    [world]. Under it the code of a condition falls through when the
    condition holds, leaves for the label it is given when it does not, and
    rejects where the reference does, up to operands that folding left out. *)

From Stdlib Require Import ZArith Lia Bool Ascii String List.
From stdpp Require Import base list strings numbers option gmap.
From S2P Require Import Prelude GoStd GoBytes Ast Ir HookAbi Asm Ebpf EbpfFacts Codegen WhereArith WhereArithFacts FieldLoad FieldLoadFacts Where WhereSpec.
Local Open Scope Z_scope.
Local Open Scope go_scope.

(** ** What the states of a where clause hold *)

(** A count source of the vocabulary. *)
Definition src_ok (src : quantCountSource) : Prop :=
  match From src with
  | FromHdr hdr => small (CountByteOff hdr) /\ small (Addend hdr)
  | FromOwner _ byteOff sub sh => byteOff = 1 /\ small sub /\ 0 <= sh < 20
  | FromPush _ => True
  end.

(** The code falls through or leaves for [fail] as [v] says, from any of
    the states, and has no label of its own. *)
Definition decides `{Kernel} (site : st -> Prop) (code : list Instruction) (fail : bytes) (v : verdict) : Prop :=
  plain code /\ forall s, site s -> ends (upto no_slots s) code None fail s v.

(** A slot that holds a number [ok] of. *)
Definition holds `{Kernel} (site : st -> Prop) (x : Z) (ok : Z -> Prop) : Prop :=
  forall s, site s -> in_frame x 8 = true /\ exists v, ldst x 8 s = Some (Num v) /\ ok v.

Class WhereOk `{Kernel} `{AuxVocab} `{WherePlan} `{StackVocab} `{WherePlanSlots} `{WhereProgram} `{LiteralCode} (site : st -> Prop) (w : world) := {
  wo_fields :: FieldCodeOk site (value_of_ w);
  wo_member : forall l idx x, members l = Some idx -> matchedSlot (LayerPos l) = Some x -> holds site x (fun v => (v =? u64 (i32 idx)) = present w l);
  wo_entry : forall l x, members l = None -> Absentable l = true -> entrySlot l = Ok x -> holds site x (fun v => (v =? u64 layerEntryAbsent) = negb (present w l));
  wo_always : forall l, members l = None -> Absentable l = false -> present w l = true;
  wo_count : forall src, src_ok src -> match count w src with Present k => 0 <= k | Missing => False | Beyond => True end;
  wo_push : forall l stack x, stackCountSlot l stack = Some x ->
    holds site x (fun k => in_u64 k /\ count w (mkCountSource l (FromPush stack)) = Present k);
  wo_push_bound : forall l stack k, count w (mkCountSource l (FromPush stack)) = Present k -> k <= pushBound l stack;
  wo_hdr : forall l hdr a, layerAnchorFor l = Ok a -> src_ok (mkCountSource l (FromHdr hdr)) -> plain (emitHeaderCount R3 a hdr dslReject) /\
    forall fail s, site s -> runs (upto no_slots s) (fun k t => getr R3 t = Some (Num k) /\ in_u64 k) (emitHeaderCount R3 a hdr dslReject) fail s (count w (mkCountSource l (FromHdr hdr)));
  wo_owner : forall l owner x sub sh idx skip, ownerSlot l owner = Some x -> src_ok (mkCountSource l (FromOwner owner 1 sub sh)) -> 0 <= idx < 2 ^ 20 -> has_text skip = true ->
    decides site (emitOwnerCountGuard x 1 sub sh idx skip) skip (sbind (count w (mkCountSource l (FromOwner owner 1 sub sh))) (fun k => test (idx <? k)));
  wo_exists : forall f fail code, genBoolExists f fail = Ok code -> gates_ok f -> has_text fail = true -> decides site code fail (there w f);
  wo_valid : forall l x, validSlot l = Some x -> holds site x (fun v => (v =? 0) = negb (parsed w l));
  wo_action : forall actions fetch a val, Action = Some actions -> ActionFetcher = Some fetch -> actions !! a = Some val ->
    plain (fetch R3) /\ forall s, site s -> exists v t, exec (fetch R3) None s = Next t /\ upto no_slots s t /\ getr R3 t = Some (Num v) /\ 0 <= v < 2 ^ 32 /\ (v =? u32 val) = acted w a;
  wo_literal : forall c f op v fail n code n', genLiteralCompare c f op v fail n = Ok (code, n') -> literal_known f v -> cmp_ctx_ok c -> 0 <= n -> target n fail ->
    grows n n' code /\ exists r, approx (matches_ w f op v) r /\ forall s, site s -> is_Some (getr R3 s) -> ends (upto (compare_slots c) s) code None fail s r
}.

Section Where.
Context `{HKern : Kernel} `{HA : AuxVocab} `{HP : WherePlan} `{HS : StackVocab} `{HSl : WherePlanSlots} `{HProg : WhereProgram} `{HL : LiteralCode}.
Context {site : st -> Prop} {w : world} `{HW : !WhereOk site w}.

Lemma site_unwritten s t : site s -> upto no_slots s t -> site t.
Proof. intros Hs U. apply (site_upto s); [exact Hs|]. eapply upto_weaken; [|exact U]. intros d []. Qed.

Lemma site_slots c s t : cmp_ctx_ok c -> site s -> upto (compare_slots c) s t -> site t.
Proof. intros [[_ Hc] _] Hs U. apply (site_upto s); [exact Hs|]. eapply upto_weaken; [|exact U]. unfold compare_slots, scratch_slots. lia. Qed.

(** ** Tests of a slot *)

Lemma slot_test op x k fail ok v s b :
  holds site x ok -> site s -> ldst x 8 s = Some (Num v) -> cmp64 op v (u64 k) = Some b -> has_text fail = true ->
  ends (upto no_slots s) [LoadMem R3 RFP x DWord; JImm op R3 k fail] None fail s (test (negb b)).
Proof.
  intros Hh Hs Hl Hc Ht. destruct (Hh s Hs) as [Hf _]. assert (U : upto no_slots s (setr R3 (Num v) s)) by (apply upto_setr; auto).
  assert (E : exec [LoadMem R3 RFP x DWord; JImm op R3 k fail] None s = if b then Goto fail (setr R3 (Num v) s) else Next (setr R3 (Num v) s)).
  { erewrite exec_load_stack; [|discriminate|apply getr_fp|exact Hf|exact Hl].
    erewrite exec_JImm; [|apply getr_same; discriminate|rewrite cmp_val_num; exact Hc|exact Ht]. now destruct b. }
  destruct b; cbn [negb test ends]; rewrite E; eauto.
Qed.

Lemma plain_slot_test op x k fail : plain [LoadMem R3 RFP x DWord; JImm op R3 k fail].
Proof. auto with codegen. Qed.

Lemma slot_decides op x k fail (ok : Z -> Prop) b :
  holds site x ok -> (forall v, ok v -> cmp64 op v (u64 k) = Some (negb b)) -> has_text fail = true ->
  decides site [LoadMem R3 RFP x DWord; JImm op R3 k fail] fail (test b).
Proof.
  intros Hh Hc Ht. split; [apply plain_slot_test|]. intros s Hs. destruct (Hh s Hs) as (_ & v & Hl & Hv).
  rewrite <- (negb_involutive b). eapply slot_test; eauto.
Qed.

Lemma nothing_decides fail : decides site [] fail (Present tt).
Proof. split; [apply plain_nil|]. intros s _. exists s. split; [reflexivity|apply upto_refl]. Qed.

Lemma decides_seq n a b fail v1 v2 : target n fail -> decides site a fail v1 -> (v1 = Present tt -> decides site b fail v2) -> plain b -> decides site (a ++ b) fail (andv v1 v2).
Proof.
  intros Ht [Pa Ha] Hb Pb. split; [auto with codegen|]. intros s Hs. eapply ends_seq; [now apply Ha| | | |auto].
  - intros Hv t Ut. eapply ends_weaken; [|apply (proj2 (Hb Hv)); now apply (site_unwritten s)]. intros u Uu. now apply (upto_trans _ _ t).
  - now apply (plain_target n).
  - apply (plain_target n); [exact Pb|apply target_reject].
Qed.

(** ** Layer guards *)

(** The layers enclosing quantifiers guarded are there. *)
Definition present_ok (c : whereCtx) : Prop := forall l, l ∈ presentLayers c -> present w l = true.

Lemma absentLayerGuard_decides c l fail g n :
  absentLayerGuard c l fail = Ok g -> present_ok c -> target n fail -> decides site g fail (test (present w l)).
Proof.
  intros E Hp Ht. apply target_text in Ht. unfold absentLayerGuard in E. destruct (bool_decide _) eqn:Eb; [|destruct (members l) as [idx|] eqn:Em].
  - apply bool_decide_eq_true in Eb. injection E as <-. rewrite (Hp l Eb). apply nothing_decides.
  - destruct (matchedSlot (LayerPos l)) as [x|] eqn:Ex; [|discriminate]. injection E as <-.
    eapply slot_decides; [exact (wo_member l idx x Em Ex)|intros v Hv; cbn; now rewrite Hv|exact Ht].
  - destruct (Absentable l) eqn:Ea; cbn [negb] in E.
    + case_if E; [discriminate|]. apply result_bind_ok in E as (x & Ex & [= <-]).
      eapply slot_decides; [exact (wo_entry l x Em Ea Ex)|intros v Hv; cbn; now rewrite Hv|exact Ht].
    + injection E as <-. rewrite (wo_always l Em Ea). apply nothing_decides.
Qed.

Lemma test_andb a b : test (a && b) = andv (test a) (test b).
Proof. now destruct a. Qed.

Lemma absentLayerGuard_plain c l fail g : absentLayerGuard c l fail = Ok g -> plain g.
Proof.
  unfold absentLayerGuard. intros E. repeat (case_match; try discriminate); try (injection E as <-; auto with codegen).
  apply result_bind_ok in E as (x & _ & [= <-]). auto with codegen.
Qed.

Lemma layerGuards_plain c refs seen_ fail g : layerGuards c refs seen_ fail = Ok g -> plain g.
Proof.
  revert seen_ g. induction refs as [|f refs IH]; cbn [layerGuards]; intros seen_ g E; [injection E as <-; apply plain_nil|].
  case_if E; [eapply IH; eauto|]. apply result_bind_ok in E as (a & Ea & E). apply result_bind_ok in E as (b & Eb & [= <-]).
  apply plain_app; [eapply absentLayerGuard_plain; eauto|eapply IH; eauto].
Qed.

Lemma layerGuards_decides c refs seen_ fail g n :
  layerGuards c refs seen_ fail = Ok g -> present_ok c -> target n fail -> (forall l, l ∈ seen_ -> present w l = true) ->
  decides site g fail (test (layers_present w refs)).
Proof.
  revert seen_ g. induction refs as [|f refs IH]; cbn [layerGuards layers_present forallb]; intros seen_ g E Hc Ht Hs; [injection E as <-; apply nothing_decides|].
  destruct (bool_decide _) eqn:Eb.
  - apply bool_decide_eq_true in Eb. rewrite (Hs _ Eb). eapply IH; eauto.
  - apply result_bind_ok in E as (a & Ea & E). apply result_bind_ok in E as (b & Eg & [= <-]). rewrite test_andb.
    eapply decides_seq; [exact Ht|eapply absentLayerGuard_decides; eauto| |eapply layerGuards_plain; eauto].
    intros Hp. eapply IH; eauto. intros l Hl. apply elem_of_cons in Hl as [->|Hl]; [|auto]. now destruct (present w (RefLayer f)).
Qed.

Lemma layer_present l : hasAbsentableLayer = false -> layer_ok l -> present w l = true.
Proof.
  unfold hasAbsentableLayer. intros E [[Hl Hm]|[_ Hr]]; bools; [|congruence]. apply wo_always; [exact Hm|].
  match goal with E : existsb _ _ = false |- _ => rename E into Ex end. apply list_elem_of_In in Hl. destruct (Absentable l) eqn:Ea; [|reflexivity].
  enough (existsb Absentable Layers = true) by congruence. apply existsb_exists. eauto.
Qed.

(** ** Count guards *)

Lemma log2_small z : small z -> 0 <= log2PowerOfTwo z -> log2PowerOfTwo z < 20.
Proof.
  unfold log2PowerOfTwo, small. intros Hz Hl. case_match; [lia|]. bools. apply Z.log2_lt_pow2; lia.
Qed.

Lemma refCountSource_ok f src : refCountSource f = Ok (Some src) -> owner_ok f -> src_ok src.
Proof.
  unfold refCountSource, src_ok. intros E [Ho Hh]. destruct (Aux f) as [aux|] eqn:Ea; [|discriminate]. destruct (OwnerOption aux) as [o|] eqn:Eo.
  - destruct (Ho aux eq_refl ltac:(rewrite Eo; eauto)) as [H1 H2]. case_if E; [discriminate|]. injection E as <-. cbn. unfold small in *. bools. splits; auto; try lia.
    apply log2_small; [exact H2|lia].
  - destruct (Spec (RefLayer f)) as [spec|] eqn:Es; [|discriminate]. destruct (StackCounts spec !! OutParam aux) as [cnt|] eqn:Ec.
    + injection E as <-. cbn. eauto.
    + destruct (needsPushCount f); [|discriminate]. now injection E as <-.
Qed.

Lemma emitCountGuard_decides src idx skip g n :
  emitCountGuard src idx skip = Ok g -> src_ok src -> 0 <= idx < 2 ^ 20 -> target n skip ->
  decides site g skip (sbind (count w src) (fun k => test (idx <? k))).
Proof.
  intros E Hok Hi Ht. pose proof (target_text _ _ Ht) as Hx. assert (Hui : u64 (i32 idx) = idx) by (rewrite i32_small by lia; apply u64_small; unfold in_u64, two64; lia).
  assert (Hle : forall k, cmp64 JLE k (u64 (i32 idx)) = Some (negb (idx <? k))) by (intros k; cbn; now rewrite Hui, Z.leb_antisym).
  unfold emitCountGuard in E. destruct src as [l [hdr|o b sub sh|st]]; cbn [From CountLayer] in E.
  - apply result_bind_ok in E as (a & Ea & [= <-]). destruct (wo_hdr l hdr a Ea Hok) as [Hp Hr]. split; [auto with codegen|].
    intros s Hs. apply ends_runs. eapply runs_app; [apply (Hr skip s Hs)| | | |].
    + intros k t _ U [G Hk]. apply ends_runs.
      assert (E : exec [JImm JLE R3 (i32 idx) skip] None t = if negb (idx <? k) then Goto skip t else Next t).
      { erewrite exec_JImm; [|exact G|rewrite cmp_val_num; apply Hle|exact Hx]. now destruct (idx <? k). }
      destruct (idx <? k); cbn [test ends negb] in *; rewrite E; eauto.
    + auto.
    + apply (plain_target n); [auto with codegen|exact Ht].
    + apply (plain_target n); [auto with codegen|apply target_reject].
  - destruct (ownerSlot l o) as [x|] eqn:Ex; [|discriminate]. injection E as <-. pose proof Hok as (-> & _). now apply wo_owner.
  - destruct (stackCountSlot l st) as [x|] eqn:Ex; [|discriminate]. injection E as <-. pose proof (wo_push l st x Ex) as Hh. split; [apply plain_slot_test|].
    intros s Hs. destruct (Hh s Hs) as (_ & k & Hl & _ & ->). cbn [sbind]. rewrite <- (negb_involutive (idx <? k)). eapply slot_test; eauto.
Qed.

Lemma stackGuards_plain refs guarded fail g n :
  stackGuards refs guarded fail = Ok g -> target n fail -> (forall f, f ∈ refs -> small_entry f /\ owner_ok f) -> plain g.
Proof.
  revert guarded g. induction refs as [|f refs IH]; cbn [stackGuards]; intros G g E Ht Hok; [injection E as <-; apply plain_nil|].
  assert (Hok' : forall g, g ∈ refs -> small_entry g /\ owner_ok g) by (intros; apply Hok; set_solver).
  destruct (staticEntry f) as [key|] eqn:Ek; [|eapply IH; eauto]. case_if E; [eapply IH; eauto|].
  apply result_bind_ok in E as (src & Es & E). apply result_bind_ok in E as (a & Ea & E). apply result_bind_ok in E as (b & Eb & [= <-]).
  apply plain_app; [|eapply IH; eauto]. destruct src as [src|]; [|injection Ea as <-; apply plain_nil]. destruct (Hok f ltac:(set_solver)) as [Hs Ho].
  eapply emitCountGuard_decides; [exact Ea|now apply (refCountSource_ok f)|now apply Hs|exact Ht].
Qed.

Lemma stackGuards_decides all refs guarded fail g n :
  stackGuards refs guarded fail = Ok g -> target n fail -> same_source all -> refs ⊆ all -> (forall f, f ∈ all -> small_entry f /\ owner_ok f) ->
  (forall f k, f ∈ all -> staticEntry f = Some k -> k ∈ guarded -> entry w f = Present tt) ->
  decides site g fail (entries w refs).
Proof.
  intros E Ht Hsame. revert guarded g E. induction refs as [|f refs IH]; cbn [stackGuards entries fold_right]; intros G g E Hsub Hok HG;
    [injection E as <-; apply nothing_decides|].
  assert (Hf : f ∈ all) by (apply Hsub; set_solver). assert (Hsub' : refs ⊆ all) by set_solver.
  destruct (staticEntry f) as [key|] eqn:Ek.
  2: { rewrite entry_static, Ek. exact (IH G g E Hsub' Hok HG). }
  destruct (bool_decide _) eqn:Eb.
  { apply bool_decide_eq_true in Eb. rewrite (HG f key Hf Ek Eb). exact (IH G g E Hsub' Hok HG). }
  apply result_bind_ok in E as (src & Es & E). apply result_bind_ok in E as (a & Ea & E). apply result_bind_ok in E as (b & Eg & [= <-]).
  destruct (Hok f Hf) as [Hs Ho]. assert (Hent : entry w f = match src with Some src => sbind (count w src) (fun k => test (snd key <? k)) | None => Present tt end)
    by (rewrite entry_static, Ek, <- (refCountSource_counter f src Es); destruct key as [[? ?] ?]; now destruct src).
  eapply decides_seq; [exact Ht| | |].
  - rewrite Hent. destruct src as [src|]; [|injection Ea as <-; apply nothing_decides].
    eapply emitCountGuard_decides; [exact Ea|now apply (refCountSource_ok f)|now apply Hs|exact Ht].
  - intros Hp. apply (IH (key :: G) b Eg Hsub' Hok). intros h k Hh Ekh Hk. apply elem_of_cons in Hk as [->|Hk]; [|eauto].
    enough (entry w h = entry w f) by congruence. rewrite !entry_static, Ekh, Ek, (Hsame f h) by (auto; rewrite ?Ek, ?Ekh; eauto). reflexivity.
  - eapply stackGuards_plain; [exact Eg|exact Ht|]. intros h Hh. apply Hok. now apply Hsub'.
Qed.
End Where.

(** * The code of a where clause decides it

    By the shape of a condition: atoms behind their guards, [and], [or],
    [not], comparisons of conditions, and unrolled quantifiers, whose
    entries are the body with the iterator bound. [genCondition_decides] is
    the whole clause; [whereGen_fuel] that the depth of a condition is fuel
    enough. *)

#[local] Arguments dslReject : simpl never.

Section Where.
Context `{HKern : Kernel} `{HA : AuxVocab} `{HP : WherePlan} `{HS : StackVocab} `{HSl : WherePlanSlots} `{HProg : WhereProgram} `{HL : LiteralCode}.
Context {site : st -> Prop} {w : world} `{HW : !WhereOk site w}.

Definition ready (s : st) : Prop := site s /\ is_Some (getr R3 s).

(** What generating a condition of verdict [v] promises: a verdict the
    code has from every state, which [v] allows. *)
Definition decided (c : whereCtx) (code : list Instruction) (fail : bytes) (r : verdict) : Prop :=
  forall s, ready s -> ends (upto (compare_slots c) s) code None fail s r.

Definition good (c : whereCtx) (n n' : Z) (code : list Instruction) (fail : bytes) (v : verdict) : Prop :=
  grows n n' code /\ (present_ok (w := w) c -> exists r, approx v r /\ decided c code fail r).

Lemma ready_slots c s t : cmp_ctx_ok c -> ready s -> upto (compare_slots c) s t -> ready t.
Proof. intros Hc [Hs Hr] U. split; [now apply (site_slots c s)|exact (up_set _ _ _ U Hr)]. Qed.

Lemma good_approx c n n' code fail v v' : approx v v' -> good c n n' code fail v' -> good c n n' code fail v.
Proof. intros Ha (Hg & Hd). split; [exact Hg|]. intros Hp. destruct (Hd Hp) as (r & Hr & He). exists r. split; [now transitivity v'|exact He]. Qed.

Lemma good_exact c n n' code fail v : grows n n' code -> (present_ok (w := w) c -> decided c code fail v) -> good c n n' code fail v.
Proof. intros Hg Hd. split; [exact Hg|]. intros Hp. exists v. split; [apply approx_refl|auto]. Qed.

Lemma good_grows c n n' code fail v : good c n n' code fail v -> grows n n' code.
Proof. now intros [? _]. Qed.

Lemma decides_decided c code fail v : decides site code fail v -> decided c code fail v.
Proof. intros [_ He] s [Hs _]. eapply ends_weaken; [|apply He, Hs]. intros t U. eapply upto_weaken; [|exact U]. intros d []. Qed.

Lemma decides_good c n code fail v : plain code -> (present_ok (w := w) c -> decides site code fail v) -> good c n n code fail v.
Proof. intros Hp Hd. apply good_exact; [now apply grows_plain|]. intros Hc. apply decides_decided. auto. Qed.

(** Code numbered after [n] does not hold the labels code before leaves for. *)
Lemma later_labels n m m' code fail : target n fail -> n <= m -> grows m m' code -> (fail ∉ symbols code) /\ (dslReject ∉ symbols code).
Proof. intros Ht Hm [_ Ho]. split; eapply owned_target; eauto using target_reject. now apply (target_le n). Qed.

Lemma decided_seq c a b fail ra rb :
  cmp_ctx_ok c -> fail ∉ symbols b -> dslReject ∉ symbols b -> decided c a fail ra -> (ra = Present tt -> decided c b fail rb) ->
  decided c (a ++ b) fail (andv ra rb).
Proof.
  intros Hc Hf Hd Ha Hb s Hs. eapply ends_seq; [now apply Ha| |exact Hf|exact Hd|auto].
  intros Hr t Ut. eapply ends_weaken; [|apply (Hb Hr); now apply (ready_slots c s)]. intros u. now apply (upto_trans _ _ t).
Qed.

(** Two fragments with the same label. *)
Lemma good_seq c n m n' a b fail va vb :
  cmp_ctx_ok c -> target n fail -> good c n m a fail va -> grows m n' b -> (present_ok (w := w) c -> va <> Missing -> good c m n' b fail vb) ->
  good c n n' (a ++ b) fail (andv va vb).
Proof.
  intros Hc Ht (Ga & Ea) Gb Hb. pose proof Ga as [? _]. split; [now apply (grows_app _ m)|]. intros Hp. destruct (Ea Hp) as (ra & Hra & Da).
  destruct (later_labels n m n' b fail Ht ltac:(lia) Gb) as [Hf Hd].
  destruct ra as [[]| |].
  - destruct (Hb Hp) as (_ & Eb); [intros ->; now destruct Hra|]. destruct (Eb Hp) as (rb & Hrb & Db). exists (andv (Present tt) rb).
    split; [now apply approx_andv|]. now apply decided_seq.
  - exists (andv Missing Missing). split; [destruct Hra as [-> | ->]; [now left|now right]|]. now apply decided_seq.
  - exists (andv Beyond Missing). split; [destruct Hra as [-> | ->]; now left|]. now apply decided_seq.
Qed.

(** ** Atoms *)

Lemma withLayerGuards_good c refs fail body n code n' v :
  withLayerGuards c refs fail body n = Ok (code, n') -> cmp_ctx_ok c -> target n fail -> (forall f, f ∈ refs -> layer_ok (RefLayer f)) ->
  (forall code' m, body n = Ok (code', m) -> good c n m code' fail v) -> good c n n' code fail (atom w refs v).
Proof.
  unfold withLayerGuards, atom. intros E Hc Ht Hl Hb. destruct (negb hasAbsentableLayer) eqn:Eh.
  - assert (Hp : layers_present w refs = true).
    { apply forallb_forall. intros f Hf. apply layer_present; [now apply negb_true_iff|]. apply Hl. now apply list_elem_of_In. }
    rewrite Hp. now apply Hb.
  - apply gbind_ok in E as (g & m & Eg & E). apply glift_ok in Eg as [Eg ->]. apply gbind_ok in E as (i & m & Ei & E). apply gret_ok in E as [-> ->].
    specialize (Hb i m Ei). replace (if layers_present w refs then v else Missing) with (andv (test (layers_present w refs)) v) by now destruct (layers_present w refs).
    eapply good_seq; [exact Hc|exact Ht| |eapply good_grows; exact Hb|auto]. apply decides_good; [eapply layerGuards_plain; eauto|].
    intros Hp. eapply layerGuards_decides; eauto. intros l Hn. now apply not_elem_of_nil in Hn.
Qed.

Lemma withStackGuards_good c refs fail body n code n' v :
  withStackGuards refs fail body n = Ok (code, n') -> cmp_ctx_ok c -> target n fail -> refs_ok refs ->
  (forall code' m, body n = Ok (code', m) -> good c n m code' fail v) -> good c n n' code fail (andv (entries w refs) v).
Proof.
  unfold withStackGuards. intros E Hc Ht [Hs Hr] Hb.
  apply gbind_ok in E as (g & m & Eg & E). apply glift_ok in Eg as [Eg ->]. apply gbind_ok in E as (i & m & Ei & E). apply gret_ok in E as [-> ->].
  specialize (Hb i m Ei). eapply good_seq; [exact Hc|exact Ht| |eapply good_grows; exact Hb|auto].
  assert (Hd : decides site g fail (entries w refs)).
  { apply (stackGuards_decides refs refs [] fail g n);
      [exact Eg|exact Ht|exact Hs|easy|intros f Hf; split; apply (Hr f Hf)|intros f k _ _ Hk; now apply not_elem_of_nil in Hk]. }
  apply decides_good; [apply Hd|auto].
Qed.

Lemma genArithCompare_good c l op r fail n code n' :
  genArithCompare c l op r fail n = Ok (code, n') -> wf_arith l -> wf_arith r -> cmp_ctx_ok c -> 0 <= n -> target n fail ->
  good c n n' code fail (evalCompare (value_of_ w) l op r).
Proof.
  intros E Hl Hr Hc Hn Ht. apply good_exact; [eapply genArithCompare_grows; eauto|]. intros _ s [Hs _]. apply ends_runs. eapply genArithCompare_runs; eauto.
Qed.

Lemma genBoolValid_decides f fail code : genBoolValid f fail = Ok code -> has_text fail = true -> decides site code fail (test (parsed w (RefLayer f))).
Proof.
  unfold genBoolValid. intros E Ht. destruct (validSlot (RefLayer f)) as [x|] eqn:Ex; [|discriminate]. injection E as <-.
  eapply slot_decides; [exact (wo_valid _ x Ex)| |exact Ht]. intros v Hv. cbn [cmp64]. change (u64 0) with 0. now rewrite Hv.
Qed.

Lemma exec_JNE32 l s a val label :
  getr R3 s = Some (Num a) -> 0 <= a < 2 ^ 32 -> has_text label = true ->
  exec (JImm32 JNE R3 val label :: l) None s = if a =? u32 val then exec l None s else exec l (Some label) s.
Proof.
  intros G Ha Hl. cbn [exec]. unfold exec1, JImm32, bare, class. cbn [OpCode Class]. unfold exec_jump32, operand. cbn [JumpOp OpCode Source Constant Dst]. rewrite G.
  unfold cmp32, cmp64. rewrite (u32_small a) by exact Ha. replace (u32 (u64 val)) with (u32 val).
  - unfold take_jump. cbn [Reference]. rewrite Hl. destruct (a =? u32 val); reflexivity.
  - unfold u32, u64. rewrite Z.mod_mod_divide; [reflexivity|]. now exists (2 ^ 32).
Qed.

Lemma genActionAtom_decides a n fail code : genActionAtom a fail = Ok code -> target n fail -> decides site code fail (test (acted w a)).
Proof.
  unfold genActionAtom. intros E Ht. destruct Action as [actions|] eqn:Ea; [|discriminate]. destruct ActionFetcher as [fetch|] eqn:Ef; [|discriminate].
  destruct (actions !! a) as [val|] eqn:Ev; [|discriminate]. injection E as <-. destruct (wo_action actions fetch a val Ea Ef Ev) as [Hp He].
  split; [auto with codegen|]. intros s Hs. destruct (He s Hs) as (v & t & Et & U & G & Hv & Hb).
  assert (E : exec (fetch R3 ++ [JImm32 JNE R3 val fail]) None s = if acted w a then Next t else Goto fail t).
  { rewrite exec_app, Et, (exec_JNE32 [] t v val fail G Hv (target_text _ _ Ht)), Hb. now destruct (acted w a). }
  destruct (acted w a); cbn [test ends] in *; rewrite E; eauto.
Qed.

(** ** And, or, not *)

(** A label numbered after the one code leaves for is another one. *)
Lemma fresh_other n label fail : numbered (n + 1) label -> target n fail -> label <> fail.
Proof.
  intros Hl Ht ->. destruct Ht as [->|(k & Hk & ?)]; [now apply numbered_not_reject in Hl|]. pose proof (numbered_unique _ _ _ Hl Hk). lia.
Qed.

Lemma numbered_target n k label : numbered k label -> k <= n -> target n label.
Proof. intros Hl Hk. right. eauto. Qed.

(** Numbered labels and where they are distinct. *)
Ltac labels :=
  first [ assumption | apply target_reject | eapply numbered_text; eassumption | eapply target_text; eassumption
        | (intros ->; eapply numbered_not_reject; eassumption)
        | (intros ?; subst; match goal with A : numbered _ ?l, C : numbered _ ?l |- _ => pose proof (numbered_unique _ _ _ A C); lia end)
        | (eapply numbered_target; [eassumption|lia]) | (eapply target_le; [|eassumption]; lia) ].

Ltac fresh_label E label k :=
  let F := fresh in apply gbind_ok in E as (label & k & F & E); apply freshLabel_ok in F as [? ->]; [|apply (bool_decide_eq_true_1 _); vm_compute; reflexivity|lia].

Section Combine.
Variable gen_ : whereCtx -> IR.Condition -> bytes -> gen (list Instruction).

Hypothesis Hgen : forall c cond fail n code n',
  gen_ c cond fail n = Ok (code, n') -> wf_cond id cond -> cmp_ctx_ok c -> 0 <= n -> target n fail -> good c n n' code fail (evalCond w id cond).

Lemma genAnd_good c l r fail n code n' :
  genAnd gen_ c l r fail n = Ok (code, n') -> wf_cond id l -> wf_cond id r -> cmp_ctx_ok c -> 0 <= n -> target n fail ->
  good c n n' code fail (andv (evalCond w id l) (evalCond w id r)).
Proof.
  unfold genAnd. intros E Hl Hr Hc Hn Ht. apply gbind_ok in E as (cl & m & El & E). apply gbind_ok in E as (cr & m' & Er & E). apply gret_ok in E as [-> ->].
  apply Hgen in El; auto. pose proof (good_grows _ _ _ _ _ _ El) as [? _]. apply Hgen in Er; auto; [|lia|labels].
  eapply good_seq; eauto using good_grows.
Qed.

(** [code; Ja fail; landing label], where [code] leaves for [label]. *)
Lemma not_good c n n' code label fail v :
  numbered (n + 1) label -> 0 <= n -> target n fail -> good c (n + 1) n' code label v -> cmp_ctx_ok c ->
  good c n n' (code ++ [JaLabel fail; landingNoop label]) fail (notv v).
Proof.
  intros Hl Hn Ht (Ga & Hd) Hc. pose proof Ga as [? Ho]. split.
  - split; [lia|]. apply owned_app; [eapply owned_le; [| |exact Ho]; lia|]. apply owned_cons; [reflexivity|].
    eapply owned_landing; [exact Hl|lia|apply owned_nil].
  - intros Hp. destruct (Hd Hp) as (r & Hr & He). exists (notv r). split; [now apply approx_notv|]. intros s Hs.
    apply ends_not; [now apply He|apply Hs|labels|labels|eapply fresh_other; eauto|labels].
Qed.

Lemma genNot_good c inner fail n code n' :
  genNot gen_ c inner fail n = Ok (code, n') -> wf_cond id inner -> cmp_ctx_ok c -> 0 <= n -> target n fail ->
  good c n n' code fail (notv (evalCond w id inner)).
Proof.
  unfold genNot. intros E Hi Hc Hn Ht. fresh_label E label k. apply gbind_ok in E as (ci & m & Ei & E). apply gret_ok in E as [-> ->].
  apply not_good; auto. apply Hgen in Ei; auto; [lia|labels].
Qed.

Lemma genOr_good c l r fail n code n' :
  genOr gen_ c l r fail n = Ok (code, n') -> wf_cond id l -> wf_cond id r -> cmp_ctx_ok c -> 0 <= n -> target n fail ->
  good c n n' code fail (orv (evalCond w id l) (evalCond w id r)).
Proof.
  unfold genOr. intros E Hl Hr Hc Hn Ht. fresh_label E tryRight k. fresh_label E orDone k'.
  apply gbind_ok in E as (cl & m & El & E). apply gbind_ok in E as (cr & m' & Er & E). destruct cr as [|i cr]; [now apply glift_ok in E as [[=] _]|].
  destruct (has_text (Symbol i)) eqn:Ei; [now apply glift_ok in E as [[=] _]|]. apply gret_ok in E as [-> ->].
  assert (Hi : Symbol i = []) by (destruct (Symbol i); [reflexivity|discriminate]).
  apply Hgen in El as ((? & Ol) & Dl); auto; [|lia|labels]. apply Hgen in Er as (Gr & Dr); auto; [|lia|labels]. pose proof Gr as [? Or].
  assert (Ocr : owned m m' cr) by (intros sym Hs; apply Or; cbn; now apply list_elem_of_further).
  split.
  - split; [lia|]. repeat first [apply owned_app | apply owned_nil | apply owned_cons; [reflexivity|] | eapply owned_landing; [eassumption|lia|]].
    + eapply owned_le; [| |exact Ol]; lia.
    + eapply owned_le; [| |exact Ocr]; lia.
  - intros Hp. destruct (Dl Hp) as (rl & Hrl & El). destruct (Dr Hp) as (rr & Hrr & Er). exists (orv rl rr). split; [now apply approx_orv|]. intros s Hs.
    assert (Hfr : (fail ∉ symbols cr) /\ (dslReject ∉ symbols cr)) by (eapply (later_labels n m m'); [exact Ht|lia|split; [lia|exact Ocr]]).
    apply ends_or; try labels; try apply Hfr; try apply Hs.
    + now apply El.
    + intros _ t Ut. eapply ends_weaken; [|apply Er; now apply (ready_slots c s)]. intros u. now apply (upto_trans _ _ t).
    + intros <-. eapply (fresh_other (n + 1)); [eassumption|apply (target_le n); [lia|exact Ht]|reflexivity].
    + eapply owned_fresh; [exact Ocr|eassumption|lia].
    + intros <-. eapply (fresh_other n); [eassumption|exact Ht|reflexivity].
Qed.

(** ** Comparisons of conditions *)

(** The truth of a condition in R3. *)
Definition truth_in (c : whereCtx) (code : list Instruction) (r : seen bool) : Prop :=
  forall fail s, ready s -> runs (upto (compare_slots c) s) (fun (b : bool) t => getr R3 t = Some (Num (if b then 1 else 0))) code fail s r.

Lemma genConditionAsBool_good c cond n code n' :
  genConditionAsBool gen_ c cond n = Ok (code, n') -> wf_cond id cond -> cmp_ctx_ok c -> 0 <= n ->
  grows n n' code /\ (present_ok (w := w) c -> exists r, approx (truth (evalCond w id cond)) r /\ truth_in c code r).
Proof.
  unfold genConditionAsBool. intros E Hw Hc Hn. pose proof (fold_approx w cond id) as Hfold. pose proof (fold_wf id cond Hw) as Hwf.
  set (folded := foldBooleanConstants cond) in *. destruct (isLiteral folded) as [v|] eqn:El.
  - apply isLiteral_some in El as [p El]. rewrite El in Hfold. cbn [evalCond] in Hfold. apply approx_truth in Hfold. rewrite truth_test in Hfold.
    apply gret_ok in E as [-> ->]. split; [apply grows_plain; auto with codegen|]. intros _. exists (Present v). split; [exact Hfold|].
    intros fail s _. eexists. split; [rewrite exec_Mov_Imm by discriminate; reflexivity|]. split; [apply upto_setr; auto|]. destruct v; cgregs.
  - fresh_label E falsy k. fresh_label E doneLabel k'. apply gbind_ok in E as (ci & m & Ei & E). apply gret_ok in E as [-> ->].
    apply Hgen in Ei as ((? & Oi) & Di); auto; [|lia|labels]. split.
    + split; [lia|]. apply owned_app; [eapply owned_le; [| |exact Oi]; lia|]. do 2 (apply owned_cons; [reflexivity|]).
      intros sym Hs. cbn in Hs. apply elem_of_cons in Hs as [->|Hs]; [right; right; exists (n + 1); split; [assumption|lia]|].
      apply list_elem_of_singleton in Hs as ->. right; right. exists (n + 1 + 1). split; [assumption|lia].
    + intros Hp. destruct (Di Hp) as (r & Hr & He). exists (truth r). split; [apply approx_truth; now transitivity (evalCond w id folded)|].
      intros fail s Hs. apply (runs_truth (compare_slots c) ci falsy doneLabel); [now apply He|labels..].
Qed.

Lemma genBoolEq_good c l op r fail n code n' :
  genBoolEq gen_ c l op r fail n = Ok (code, n') -> wf_cond id l -> wf_cond id r -> cmp_ctx_ok c -> 0 <= n -> target n fail ->
  good c n n' code fail
    (sbind (truth (evalCond w id l)) (fun a => sbind (truth (evalCond w id r)) (fun b => test (xorb (Bool.eqb a b) (bool_decide (op = CmpNeq)))))).
Proof.
  unfold genBoolEq. intros E Hl Hr Hc Hn Ht. destruct (boolEqJump op) as [jumpOp|] eqn:Ej; [|now apply glift_ok in E as [[=] _]].
  gcase E; [now apply glift_ok in E as [[=] _]|]. apply gbind_ok in E as (cl & m & El & E). apply gbind_ok in E as (cr & m' & Er & E). apply gret_ok in E as [-> ->].
  pose proof Hc as [[Hw0 Hb0] Hb1]. unfold maxArithDepth, boolEqOperandReserve, arith128ReservedSlots in *. bools.
  set (d := 16 - 1 - boolEqDepth c) in *. assert (Hd : compare_slots c d) by (unfold compare_slots; lia).
  assert (Hcd : cmp_ctx_ok (deeper c)) by (unfold cmp_ctx_ok, ctx_ok, maxArithDepth, boolEqOperandReserve, arith128ReservedSlots; cbn; lia).
  assert (Hdeep : forall x, compare_slots (deeper c) x -> compare_slots c x /\ x <> d) by (unfold compare_slots; cbn; lia).
  apply genConditionAsBool_good in El as (Gl & Dl); auto. pose proof Gl as [? Ol]. apply genConditionAsBool_good in Er as (Gr & Dr); auto; [|lia]. pose proof Gr as [? Or].
  assert (Hj : forall a b : bool, cmp64 jumpOp (if a then 1 else 0) (if b then 1 else 0) = Some (negb (xorb (Bool.eqb a b) (bool_decide (op = CmpNeq)))))
    by (intros a b; destruct op; try discriminate; injection Ej as <-; now destruct a, b).
  split.
  - apply (grows_app _ m); [exact Gl|]. apply grows_plain_app; [auto with codegen|]. apply (grows_app _ m'); [exact Gr|]. apply grows_plain. auto with codegen.
  - intros Hp. destruct (Dl Hp) as (rl & Hrl & El). destruct (Dr Hp) as (rr & Hrr & Er).
    exists (sbind rl (fun a => sbind rr (fun b => test (xorb (Bool.eqb a b) (bool_decide (op = CmpNeq)))))).
    split; [apply approx_sbind; [exact Hrl|]; intros a; apply approx_sbind; [exact Hrr|]; intros b; apply approx_refl|].
    intros s Hs. apply ends_runs. pose proof (target_text _ _ Ht) as Hx.
    assert (Gtail : grows m m' ([StoreMem RFP (arithStackSlot d) R3 DWord] ++ cr ++ [LoadMem R5 RFP (arithStackSlot d) DWord; JReg jumpOp R5 R3 fail])).
    { apply grows_plain_app; [auto with codegen|]. apply (grows_app _ m'); [exact Gr|]. apply grows_plain. auto with codegen. }
    destruct (later_labels n m m' _ fail Ht ltac:(lia) Gtail) as [Hf1 Hf2].
    eapply (runs_app (upto (compare_slots c) s)); [eapply runs_weaken; [| |exact (El fail s Hs)]| |auto|exact Hf1|exact Hf2].
    + intros t U. eapply upto_weaken; [|exact U]. intros x Hx'. now apply Hdeep.
    + intros a t _ Q. exact Q.
    + intros a t _ U G. set (t1 := park d (Num (if a : bool then 1 else 0)) t).
      assert (U1 : upto (compare_slots c) s t1) by (eapply upto_trans; [exact U|]; apply upto_park; [unfold compare_slots in *; lia|exact Hd]).
      eapply (runs_exec _ _ _ (cr ++ [LoadMem R5 RFP (arithStackSlot d) DWord; JReg jumpOp R5 R3 fail]) _ t t1);
        [cbn [app]; now rewrite (exec_park _ t d R3 (Num (if a then 1 else 0))) by (unfold compare_slots in *; first [lia|exact G])|].
      eapply (runs_app (fun u => upto (compare_slots c) s u /\ slot d u = Some (Num (if a then 1 else 0))));
        [eapply runs_weaken; [| |exact (Er fail t1 (ready_slots c s t1 Hc Hs U1))]| |now intros u []|apply (plain_target n); [auto with codegen|exact Ht]
        |apply (plain_target n); [auto with codegen|apply target_reject]].
      * intros u Uu. split; [eapply upto_trans; [exact U1|]; eapply upto_weaken; [|exact Uu]; intros x Hx'; now apply Hdeep|].
        rewrite (upto_slot (compare_slots (deeper c)) t1 u d); [|unfold compare_slots in *; lia|intros e He; now apply Hdeep|exact Uu].
        apply slot_park_same. unfold in_u64, two64. destruct a; lia.
      * intros b u _ Q. exact Q.
      * intros b u _ [Uu Su] Gb.
        set (u1 := setr R5 (Num (if a then 1 else 0)) u). assert (Uu1 : upto (compare_slots c) s u1) by (eapply upto_trans; [exact Uu|]; apply upto_setr; auto).
        assert (E : exec [LoadMem R5 RFP (arithStackSlot d) DWord; JReg jumpOp R5 R3 fail] None u =
                    if negb (xorb (Bool.eqb a b) (bool_decide (op = CmpNeq))) then Goto fail u1 else Next u1).
        { erewrite exec_unpark; [|discriminate|unfold compare_slots in *; lia|exact Su].
          erewrite exec_JReg; [|cgregs|cgregs|rewrite cmp_val_num; apply Hj|exact Hx]. now destruct (negb _). }
        destruct (xorb (Bool.eqb a b) (bool_decide (op = CmpNeq))); cbn [test runs negb] in *; rewrite E; eauto.
Qed.

(** ** Quantifiers *)

(** Entry [j] is there. *)
Definition entry_there (src : option quantCountSource) (j : Z) : verdict :=
  match src with None => Present tt | Some src => sbind (count w src) (fun z => test (j <? z)) end.

(** An entry that is not there does not count for [all]. *)
Definition implv (g b : verdict) : verdict := match g with Present _ => b | Missing => Present tt | Beyond => Beyond end.

Lemma notv_orv a b : andv (notv a) (notv b) = notv (orv a b).
Proof. now destruct a. Qed.

Lemma notv_notv (a : verdict) : notv (notv a) = a.
Proof. now destruct a as [[]| |]. Qed.

Lemma approx_implv g b b' : approx b b' -> approx (implv g b) (implv g b').
Proof. intros Ha. destruct g; cbn; [exact Ha|apply approx_refl|apply approx_refl]. Qed.

(** The guard of an entry. *)
Lemma entry_guard_decides src j skip g n :
  match src with Some src => emitCountGuard src j skip | None => Ok [] end = Ok g -> (forall s, src = Some s -> src_ok s) -> 0 <= j < 2 ^ 20 -> target n skip ->
  decides site g skip (entry_there src j).
Proof.
  intros E Hs Hj Ht. destruct src as [src|]; [|injection E as <-; apply nothing_decides].
  eapply emitCountGuard_decides; [exact E|now apply Hs|exact Hj|exact Ht].
Qed.

Section Entries.
Context (c : whereCtx) (inner : IR.Condition) (t : IR.QuantTarget) (src : option quantCountSource).
Hypothesis Hc : cmp_ctx_ok c.
Hypothesis Hre : rebindable inner.
Hypothesis Hsrc : forall s, src = Some s -> src_ok s.

Lemma entry_body_good j label n code n' :
  (let! rebound := glift (rebindIterator inner t j) in gen_ c rebound label) n = Ok (code, n') -> wf_cond (bind t j) inner -> 0 <= n -> target n label ->
  good c n n' code label (evalCond w (bind t j) inner).
Proof.
  intros E Hw Hn Ht. apply gbind_ok in E as (re & m & Er & E). apply glift_ok in Er as [Er ->].
  destruct (clone_meaning w t j inner re Er Hre) as [Hv Hwf]. rewrite <- Hv. apply Hgen; auto.
Qed.

Lemma unroll_any accept fail k : forall i m code m',
  unroll gen_ k i src c inner t accept fail true m = Ok (code, m') -> (forall j, i <= j < i + Z.of_nat k -> wf_cond (bind t j) inner) ->
  0 <= i -> i + Z.of_nat k <= 2 ^ 20 -> 0 <= m -> target m accept ->
  good c m m' code accept (notv (any_of k i (fun j => andv (entry_there src j) (evalCond w (bind t j) inner)))).
Proof.
  induction k as [|k IH]; intros i m code m' E Hw Hi Hk Hm Ht; cbn [unroll any_of] in *.
  { apply gret_ok in E as [-> ->]. apply decides_good; [apply plain_nil|]. intros _. apply nothing_decides. }
  fresh_label E skip m1. apply gbind_ok in E as (g & m2 & Eg & E). apply glift_ok in Eg as [Eg ->].
  apply gbind_ok in E as (b & m3 & Eb & E). apply gbind_ok in E as (tl & m4 & Et & E). apply gret_ok in E as [-> ->].
  unfold genQuantIterBody in Eb. apply gbind_ok in Eb as (re & m5 & Er & Eb). apply gbind_ok in Eb as (bi & m6 & Eb & E). apply gret_ok in E as [-> ->].
  assert (Hs : target (m + 1) skip) by labels.
  assert (Gg : decides site g skip (entry_there src i)) by (eapply entry_guard_decides; eauto; lia).
  assert (Gb : good c (m + 1) m6 bi skip (evalCond w (bind t i) inner)).
  { apply entry_body_good; [|apply Hw; lia|lia|exact Hs]. apply gbind_ok. eauto. }
  assert (G1 : good c (m + 1) m6 (g ++ bi) skip (andv (entry_there src i) (evalCond w (bind t i) inner))).
  { eapply good_seq; [exact Hc|exact Hs|apply decides_good; [apply Gg|auto]|eapply good_grows; exact Gb|auto]. }
  pose proof (good_grows _ _ _ _ _ _ G1) as [? _].
  assert (G2 : good c m m6 ((g ++ bi) ++ [JaLabel accept; landingNoop skip]) accept (notv (andv (entry_there src i) (evalCond w (bind t i) inner))))
    by (apply not_good; auto).
  apply IH in Et; [|intros; apply Hw; lia|lia|lia|lia|labels].
  replace (g ++ (bi ++ [JaLabel accept]) ++ [landingNoop skip] ++ tl) with (((g ++ bi) ++ [JaLabel accept; landingNoop skip]) ++ tl)
    by now rewrite <- !app_assoc.
  rewrite <- notv_orv. eapply good_seq; [exact Hc|exact Ht|exact G2|eapply good_grows; exact Et|auto].
Qed.

(** An entry of [all]. *)
Lemma guarded_good m n' g b skip fail vg vb :
  numbered (m + 1) skip -> 0 <= m -> target m fail -> decides site g skip vg -> good c (m + 1) n' b fail vb ->
  good c m n' (g ++ b ++ [landingNoop skip]) fail (implv vg vb).
Proof.
  intros Hl Hm Ht Dg (Gb & Db). pose proof Gb as [? Ob]. split.
  - split; [lia|]. apply owned_app; [apply plain_owned, Dg|]. apply owned_app; [eapply owned_le; [| |exact Ob]; lia|].
    eapply owned_landing; [exact Hl|lia|apply owned_nil].
  - intros Hp. destruct (Db Hp) as (r & Hr & He). exists (implv vg r). split; [now apply approx_implv|]. intros s Hs.
    apply ends_guarded; [now apply (decides_decided c)| |apply Hs|labels|labels|eapply fresh_other; eauto|labels| |].
    + intros _ u Uu. eapply ends_weaken; [|apply He; now apply (ready_slots c s)]. intros x. now apply (upto_trans _ _ u).
    + eapply owned_fresh; [exact Ob|exact Hl|lia].
    + eapply owned_target; [exact Ob|apply target_reject].
Qed.

Lemma unroll_all accept fail k : forall i m code m',
  unroll gen_ k i src c inner t accept fail false m = Ok (code, m') -> (forall j, i <= j < i + Z.of_nat k -> wf_cond (bind t j) inner) ->
  0 <= i -> i + Z.of_nat k <= 2 ^ 20 -> 0 <= m -> target m fail ->
  good c m m' code fail (all_of k i (fun j => implv (entry_there src j) (evalCond w (bind t j) inner))).
Proof.
  induction k as [|k IH]; intros i m code m' E Hw Hi Hk Hm Ht; cbn [unroll all_of] in *.
  { apply gret_ok in E as [-> ->]. apply decides_good; [apply plain_nil|]. intros _. apply nothing_decides. }
  fresh_label E skip m1. apply gbind_ok in E as (g & m2 & Eg & E). apply glift_ok in Eg as [Eg ->].
  apply gbind_ok in E as (b & m3 & Eb & E). apply gbind_ok in E as (tl & m4 & Et & E). apply gret_ok in E as [-> ->].
  unfold genQuantIterBody in Eb. apply gbind_ok in Eb as (re & m5 & Er & Eb). apply gbind_ok in Eb as (bi & m6 & Eb & E). apply gret_ok in E as [-> ->].
  rewrite app_nil_r.
  assert (Gg : decides site g skip (entry_there src i)) by (eapply (entry_guard_decides _ _ _ _ (m + 1)); eauto; [lia|labels]).
  assert (Gb : good c (m + 1) m6 bi fail (evalCond w (bind t i) inner)).
  { apply entry_body_good; [|apply Hw; lia|lia|labels]. apply gbind_ok. eauto. }
  pose proof (good_grows _ _ _ _ _ _ Gb) as [? _].
  assert (G1 : good c m m6 (g ++ bi ++ [landingNoop skip]) fail (implv (entry_there src i) (evalCond w (bind t i) inner))) by now apply guarded_good.
  apply IH in Et; [|intros; apply Hw; lia|lia|lia|lia|labels].
  replace (g ++ bi ++ [landingNoop skip] ++ tl) with ((g ++ bi ++ [landingNoop skip]) ++ tl) by now rewrite <- !app_assoc.
  eapply good_seq; [exact Hc|exact Ht|exact G1|eapply good_grows; exact Et|auto].
Qed.
End Entries.

(** The entries that are unrolled and there are the ones a quantifier
    ranges over. *)
Lemma any_there k i z f : 0 <= i -> any_of k i (fun j => andv (test (j <? z)) (f j)) = any_of (Z.to_nat (Z.min (i + Z.of_nat k) z - i)) i f.
Proof.
  revert i. induction k as [|k IH]; intros i Hi; cbn [any_of]; [now replace (Z.to_nat _) with 0%nat by lia|].
  rewrite IH by lia. destruct (Z.ltb_spec i z).
  - replace (Z.to_nat (Z.min (i + Z.of_nat (S k)) z - i)) with (S (Z.to_nat (Z.min (i + 1 + Z.of_nat k) z - (i + 1)))) by lia. reflexivity.
  - replace (Z.to_nat (Z.min (i + Z.of_nat (S k)) z - i)) with 0%nat by lia. now replace (Z.to_nat _) with 0%nat by lia.
Qed.

Lemma all_there k i z f : 0 <= i -> all_of k i (fun j => implv (test (j <? z)) (f j)) = all_of (Z.to_nat (Z.min (i + Z.of_nat k) z - i)) i f.
Proof.
  revert i. induction k as [|k IH]; intros i Hi; cbn [all_of]; [now replace (Z.to_nat _) with 0%nat by lia|].
  rewrite IH by lia. destruct (Z.ltb_spec i z).
  - replace (Z.to_nat (Z.min (i + Z.of_nat (S k)) z - i)) with (S (Z.to_nat (Z.min (i + 1 + Z.of_nat k) z - (i + 1)))) by lia. reflexivity.
  - replace (Z.to_nat (Z.min (i + Z.of_nat (S k)) z - i)) with 0%nat by lia. now replace (Z.to_nat _) with 0%nat by lia.
Qed.

(** The count source of a quantifier. *)
Definition quant_src (t : IR.QuantTarget) (src : quantCountSource) : Prop := src_ok src /\ CountLayer src = IR.QLayer t.

(** The bound of the unroll keeps every entry there. *)
Lemma unrolled_kept src t z :
  (forall s, src = Some s -> count w s = Present z /\ quant_src t s) -> is_Some src -> 0 < IR.Capacity t ->
  Z.to_nat (Z.min (0 + Z.of_nat (Z.to_nat (unrolled src t))) z - 0) = Z.to_nat (Z.min (IR.Capacity t) z).
Proof.
  intros Hz [s ->] Hcap. destruct (Hz s eq_refl) as (Hv & Hok & Hlay). pose proof (wo_count s Hok) as Hk. rewrite Hv in Hk.
  destruct s as [l [hdr|o b sub sh|st]]; cbn [unrolled CountLayer] in *; [rewrite Z2Nat.id; lia..|]. subst l.
  pose proof (wo_push_bound (IR.QLayer t) st z Hv) as Hb. rewrite Z2Nat.id; lia.
Qed.

Lemma domain_any src t f : (forall s, src = Some s -> quant_src t s) -> 0 < IR.Capacity t ->
  approx (sbind (kept w src t) (fun n => any_of (Z.to_nat n) 0 f)) (any_of (Z.to_nat (unrolled src t)) 0 (fun j => andv (entry_there src j) (f j))).
Proof.
  intros Hok Hcap. destruct src as [src|]; cbn [kept entry_there]; [|cbn [sbind unrolled]; right; apply any_ext; reflexivity].
  pose proof (wo_count src (proj1 (Hok src eq_refl))) as Hz. destruct (count w src) as [z| |] eqn:Ez; [|easy|apply approx_beyond].
  cbn [sbind]. rewrite any_there by lia. rewrite (unrolled_kept (Some src) t z); [apply approx_refl| |eauto|exact Hcap].
  intros s [= <-]. split; [exact Ez|now apply Hok].
Qed.

Lemma domain_all src t f : (forall s, src = Some s -> quant_src t s) -> 0 < IR.Capacity t ->
  approx (sbind (kept w src t) (fun n => all_of (Z.to_nat n) 0 f)) (all_of (Z.to_nat (unrolled src t)) 0 (fun j => implv (entry_there src j) (f j))).
Proof.
  intros Hok Hcap. destruct src as [src|]; cbn [kept entry_there]; [|cbn [sbind unrolled]; right; apply all_ext; reflexivity].
  pose proof (wo_count src (proj1 (Hok src eq_refl))) as Hz. destruct (count w src) as [z| |] eqn:Ez; [|easy|apply approx_beyond].
  cbn [sbind]. rewrite all_there by lia. rewrite (unrolled_kept (Some src) t z); [apply approx_refl| |eauto|exact Hcap].
  intros s [= <-]. split; [exact Ez|now apply Hok].
Qed.

Lemma refCountSource_layer f s : refCountSource f = Ok (Some s) -> CountLayer s = RefLayer f.
Proof.
  unfold refCountSource. intros E. repeat (case_match; try discriminate); injection E as <-; reflexivity.
Qed.

Lemma stackCountSource_ok inner t src : stackCountSource inner = Ok src -> Forall (quant_ref t) (WalkConditionFieldRefs inner) -> forall s, src = Some s -> quant_src t s.
Proof.
  unfold stackCountSource, iteratorRef. rewrite Forall_forall. intros E Ho s ->. destruct (list_find isIterator (WalkConditionFieldRefs inner)) as [[k f]|] eqn:Ef; [|discriminate].
  cbn [mbind option_bind snd] in E. apply list_find_Some in Ef as (Hf & Hi & _). destruct (Ho f ltac:(eapply list_elem_of_lookup_2; eauto)) as [Hof Hlf].
  split; [now apply (refCountSource_ok f s E)|]. rewrite (refCountSource_layer f s E). apply Hlf. now apply Is_true_true.
Qed.

Lemma genQuantUnroll_shape c inner t accept fail any n code n' :
  genQuantUnroll gen_ c inner t accept fail any n = Ok (code, n') ->
  0 < IR.Capacity t /\ exists src, stackCountSource inner = Ok src /\ quant_source inner = src /\
    unroll gen_ (Z.to_nat (unrolled src t)) 0 src c inner t accept fail any n = Ok (code, n').
Proof.
  unfold genQuantUnroll. intros E. gcase E; [now apply glift_ok in E as [[=] _]|]. bools. split; [lia|].
  apply gbind_ok in E as (src & m & Es & E). apply glift_ok in Es as [Es ->]. exists src. rewrite (stackCountSource_counter inner src Es). auto.
Qed.

Lemma unrolled_le src t : unrolled src t <= IR.Capacity t.
Proof. unfold unrolled. repeat case_match; lia. Qed.

(** A layer guard before a quantifier. *)
Lemma withQuantLayerGuard_good c t fail body n code n' v :
  withQuantLayerGuard c t fail body n = Ok (code, n') -> cmp_ctx_ok c -> target n fail ->
  (forall c' code' m, cmp_ctx_ok c' -> body c' n = Ok (code', m) -> good c' n m code' fail v) ->
  good c n n' code fail (if present w (IR.QLayer t) then v else Missing).
Proof.
  unfold withQuantLayerGuard. intros E Hc Ht Hb. apply gbind_ok in E as (g & m & Eg & E). apply glift_ok in Eg as [Eg ->].
  apply gbind_ok in E as (i & m & Ei & E). apply gret_ok in E as [-> ->].
  replace (if present w (IR.QLayer t) then v else Missing) with (andv (test (present w (IR.QLayer t))) v) by now destruct (present w (IR.QLayer t)).
  apply Hb in Ei; [|now destruct g]. destruct Ei as [Gi Di].
  eapply good_seq; [exact Hc|exact Ht|apply decides_good; [eapply absentLayerGuard_plain; eauto|intros; eapply absentLayerGuard_decides; eauto]|exact Gi|].
  intros Hp Hv. split; [exact Gi|]. intros _. destruct Di as (r & Hr & He); [|exists r; split; [exact Hr|now destruct g]].
  destruct g; [exact Hp|]. intros l Hl. cbn [presentLayers with_present] in Hl. apply elem_of_cons in Hl as [->|Hl]; [|now apply Hp].
  now destruct (present w (IR.QLayer t)).
Qed.

Section Quantifier.
Context (inner : IR.Condition) (t : IR.QuantTarget).
Hypothesis Hre : rebindable inner.
Hypothesis Hcap : IR.Capacity t < 2 ^ 20.
Hypothesis Hown : Forall (quant_ref t) (WalkConditionFieldRefs inner).
Hypothesis Huse : useBpfLoopAuxWalk inner t = Ok false.
Hypothesis Hwf : forall j, 0 <= j < IR.Capacity t -> wf_cond (bind t j) inner.

Lemma genAny_good c fail n code n' p :
  genAny gen_ c inner t fail n = Ok (code, n') -> cmp_ctx_ok c -> 0 <= n -> target n fail -> good c n n' code fail (evalCond w id (IR.CAny inner t p)).
Proof.
  unfold genAny. intros E Hc Hn Ht. eapply withQuantLayerGuard_good; [exact E|exact Hc|exact Ht|]. clear E code n'.
  intros c' code n' Hc' E. apply gbind_ok in E as (use & m & Eu & E). apply glift_ok in Eu as [Eu ->]. rewrite Huse in Eu. injection Eu as <-.
  fresh_label E label k. apply gbind_ok in E as (u & m & Eu & E). apply gret_ok in E as [-> ->].
  apply genQuantUnroll_shape in Eu as (Hpos & src & Es & Hq & Eu). pose proof (stackCountSource_ok inner t src Es Hown) as Hok. pose proof (fun s Hs => proj1 (Hok s Hs)) as Hok'. pose proof (unrolled_le src t).
  eapply good_approx; [rewrite Hq; apply domain_any; auto|]. rewrite <- notv_notv. apply not_good; auto.
  eapply unroll_any; eauto; try lia; try labels. intros j Hj. apply Hwf. lia.
Qed.

Lemma truncated_decides fail g n :
  truncatedStackGuard inner t fail = Ok g -> 0 < IR.Capacity t -> target n fail -> decides site g fail (notv (cut w (quant_source inner) t)).
Proof.
  unfold truncatedStackGuard. intros E Hpos Ht. apply result_bind_ok in E as (src & Es & E). rewrite (stackCountSource_counter inner src Es). pose proof (stackCountSource_ok inner t src Es Hown) as Hok.
  destruct src as [[l [hdr| |]]|]; try (injection E as <-; apply nothing_decides). apply result_bind_ok in E as (a & Ea & [= <-]).
  destruct (wo_hdr l hdr a Ea (proj1 (Hok _ eq_refl))) as [Hpl Hr]. pose proof (target_text _ _ Ht) as Hx. split; [auto with codegen|]. intros s Hs. cbn [cut].
  replace (notv (sbind (count w (mkCountSource l (FromHdr hdr))) (fun z => test (IR.Capacity t <? z))))
    with (sbind (count w (mkCountSource l (FromHdr hdr))) (fun z => test (negb (IR.Capacity t <? z))))
    by (pose proof (wo_count _ (proj1 (Hok _ eq_refl))); destruct (count w _); [cbn; now destruct (_ <? _)|easy|reflexivity]).
  apply ends_runs. eapply runs_app; [apply (Hr fail s Hs)| |auto|apply (plain_target n); [auto with codegen|exact Ht]|apply (plain_target n); [auto with codegen|apply target_reject]].
  intros z u _ U [G Hz]. apply ends_runs.
  assert (E : exec [JImm JGT R3 (i32 (IR.Capacity t)) fail] None u = if IR.Capacity t <? z then Goto fail u else Next u).
  { erewrite exec_JImm; [|exact G|rewrite cmp_val_num; cbn; rewrite i32_small by lia; rewrite (u64_small (IR.Capacity t)) by (unfold in_u64, two64; lia); reflexivity|exact Hx].
    now destruct (_ <? _). }
  destruct (IR.Capacity t <? z); cbn [test ends negb] in *; rewrite E; eauto.
Qed.

Lemma genAll_good c fail n code n' p :
  genAll gen_ c inner t fail n = Ok (code, n') -> cmp_ctx_ok c -> 0 <= n -> target n fail -> good c n n' code fail (evalCond w id (IR.CAll inner t p)).
Proof.
  unfold genAll. intros E Hc Hn Ht. eapply withQuantLayerGuard_good; [exact E|exact Hc|exact Ht|]. clear E code n'.
  intros c' code n' Hc' E. apply gbind_ok in E as (g & m & Eg & E). apply glift_ok in Eg as [Eg ->].
  apply gbind_ok in E as (u & m & Eu & E). apply gret_ok in E as [-> ->]. unfold genAllBody in Eu.
  apply gbind_ok in Eu as (use & k & Eu & Eb). apply glift_ok in Eu as [Eu ->]. rewrite Huse in Eu. injection Eu as <-.
  apply genQuantUnroll_shape in Eb as (Hpos & src & Es & Hq & Eu). pose proof (stackCountSource_ok inner t src Es Hown) as Hok. pose proof (fun s Hs => proj1 (Hok s Hs)) as Hok'. pose proof (unrolled_le src t).
  assert (Gu : good c' n m u fail (sbind (kept w (quant_source inner) t) (fun z => all_of (Z.to_nat z) 0 (fun j => evalCond w (bind t j) inner)))).
  { eapply good_approx; [rewrite Hq; apply domain_all; auto|]. eapply unroll_all; eauto; try lia. intros j Hj. apply Hwf. lia. }
  pose proof (truncated_decides fail g n Eg Hpos Ht) as Dg.
  eapply good_seq; [exact Hc'|exact Ht|apply decides_good; [apply Dg|auto]|eapply good_grows; exact Gu|auto].
Qed.
End Quantifier.
End Combine.

(** ** Conditions *)

Lemma whereGen_good fuel : forall c cond fail n code n',
  whereGen fuel c cond fail n = Ok (code, n') -> wf_cond id cond -> cmp_ctx_ok c -> 0 <= n -> target n fail -> good c n n' code fail (evalCond w id cond).
Proof.
  induction fuel as [|fuel IH]; intros c cond fail n code n' E Hw Hc Hn Ht; cbn [whereGen] in E; [now apply glift_ok in E as [[=] _]|].
  apply (good_approx _ _ _ _ _ _ _ (fold_approx w cond id)). apply (fold_wf id) in Hw.
  destruct (foldBooleanConstants cond) as [l r p|l r p|ci p|ci t p|ci t p|l op r p|f op v p|a p|b p|f p|f p|l op r p]; cbn [wf_cond] in Hw.
  - destruct Hw. eapply genOr_good; eauto.
  - destruct Hw. eapply genAnd_good; eauto.
  - eapply genNot_good; eauto.
  - destruct Hw as (? & ? & ? & ? & ?). eapply genAny_good; eauto.
  - destruct Hw as (? & ? & ? & ? & ?). eapply genAll_good; eauto.
  - rewrite !map_arith_id in Hw. destruct Hw as (Hl & Hr & Hrefs). cbn [evalCond]. rewrite !map_arith_id.
    eapply withLayerGuards_good; [exact E|exact Hc|exact Ht|intros f Hf; apply (proj2 Hrefs f Hf)|]. intros code1 m1 E1.
    eapply withStackGuards_good; [exact E1|exact Hc|exact Ht|exact Hrefs|]. intros code2 m2 E2. eapply genArithCompare_good; eauto.
  - destruct Hw as (Hok & Hrefs). cbn [evalCond id]. replace (entry w (id f)) with (entries w [f]) by (cbn; now destruct (entry w f) as [[]| |]).
    eapply withLayerGuards_good; [exact E|exact Hc|exact Ht|intros g Hg; apply (proj2 Hrefs g Hg)|]. intros code1 m1 E1.
    eapply withStackGuards_good; [exact E1|exact Hc|exact Ht|exact Hrefs|]. intros code2 m2 E2.
    destruct (wo_literal c f op v fail n code2 m2 E2 Hok Hc Hn Ht) as (Hg & r & Hr & Hd). split; [exact Hg|]. intros _. exists r. split; [exact Hr|]. intros s [Hs HR3]. now apply Hd.
  - apply glift_ok in E as [E ->]. pose proof (genActionAtom_decides a n fail code E Ht) as Hd. apply decides_good; [apply Hd|auto].
  - apply gret_ok in E as [-> ->]. pose proof (target_text _ _ Ht) as Hx. apply decides_good; [destruct b; cbn; auto with codegen|]. intros _.
    split; [destruct b; cbn; auto with codegen|]. intros s _. destruct b; cbn [genBoolLit test ends]; exists s; (split; [|apply upto_refl]); [reflexivity|now rewrite exec_Ja].
  - destruct Hw as (Hg & Hrefs). eapply withLayerGuards_good; [exact E|exact Hc|exact Ht|intros g Hf; apply (proj2 Hrefs g Hf)|].
    intros code1 m1 E1. apply glift_ok in E1 as [E1 ->]. pose proof (wo_exists f fail code1 E1 Hg (target_text _ _ Ht)) as Hd. apply decides_good; [apply Hd|auto].
  - eapply withLayerGuards_good; [exact E|exact Hc|exact Ht|intros g Hf; apply (proj2 Hw g Hf)|].
    intros code1 m1 E1. apply glift_ok in E1 as [E1 ->]. pose proof (genBoolValid_decides f fail code1 E1 (target_text _ _ Ht)) as Hd. apply decides_good; [apply Hd|auto].
  - destruct Hw. eapply genBoolEq_good; eauto.
Qed.

(** The where clause: the reference's verdict, or one where the reference
    rejects, by the code from every state it starts in. *)
Lemma genCondition_good cond fail code :
  genCondition cond fail = Ok code -> wf_cond id cond -> target 0 fail ->
  exists r, approx (evalCond w id cond) r /\ forall s, ready s -> ends (upto scratch_slots s) code None fail s r.
Proof.
  unfold genCondition. intros E Hw Ht. apply result_bind_ok in E as ([c n'] & E & [= <-]). cbn [fst].
  assert (E' : whereGen (depth cond) (mkWhereCtx 0 0 [] []) cond fail 0 = Ok (c, n')) by (destruct (whereGen _ _ _ _ _) as [|[]]; cbn in E; congruence).
  destruct (whereGen_good _ _ _ _ _ _ _ E' Hw) as (_ & Hd); [unfold cmp_ctx_ok, ctx_ok, maxArithDepth, boolEqOperandReserve, arith128ReservedSlots; cbn; lia|lia|exact Ht|].
  destruct Hd as (r & Hr & He); [intros l Hl; now apply not_elem_of_nil in Hl|]. exists r. split; [exact Hr|]. intros s Hs.
  eapply ends_weaken; [|now apply He]. intros u U. eapply upto_weaken; [|exact U]. unfold compare_slots, scratch_slots. cbn. lia.
Qed.
End Where.

(** * The where clause on a packet

    The states a where clause runs in, for a packet the walks of its layers
    have crossed: [wsite] adds to the packet and the anchors the slots in
    which the walks left which layers are there, how many entries were
    pushed, where options are and which option regions parsed. On them the
    code meets what [WhereOk] asks. *)

(** Field loads on fewer states. *)
Lemma FieldCodeOk_sub `{Kernel} `{AuxVocab} `{FieldCode} (site sub : st -> Prop) value :
  (forall s, sub s -> site s) -> (forall s s', sub s -> upto scratch_slots s s' -> sub s') -> FieldCodeOk site value -> FieldCodeOk sub value.
Proof.
  intros Hsub Hup Hok. split; [exact Hup|apply value_range|apply load_plain| |apply field128_plain|]; intros; [eapply load_runs|eapply field128_runs]; eauto.
Qed.

(** What the walks of the layers found. *)
Record found := mkFound {
  layer_start : LayerInstance -> Z;
  written_back : LayerInstance -> Z;
  option_at : FieldRef -> Z;
  owner_at : LayerInstance -> string -> Z;
  is_there : LayerInstance -> bool;
  pushed : LayerInstance -> string -> Z;
  region_parsed : LayerInstance -> bool;
  action_value : Z
}.

Section Where.
Context `{HKern : Kernel} `{HA : AuxVocab} `{HP : WherePlan} `{HS : StackVocab} `{HSl : WherePlanSlots} `{HProg : WhereProgram} `{HL : LiteralCode}.
Context (fd : Z) (key : list Z) (base : Z) (P : list Z) (F : found).

Definition holds_at (x : Z) (ok : Z -> Prop) (s : st) : Prop := plan_slot x /\ exists v, ldst x 8 s = Some (Num v) /\ ok v.

Record wsite (s : st) : Prop := mkWsite {
  ws_site : site fd key base P (layer_start F) (written_back F) (option_at F) s;
  ws_member : forall l idx x, members l = Some idx -> matchedSlot (LayerPos l) = Some x -> holds_at x (fun v => (v =? u64 (i32 idx)) = is_there F l) s;
  ws_entry : forall l x, members l = None -> Absentable l = true -> entrySlot l = Ok x -> holds_at x (fun v => (v =? u64 layerEntryAbsent) = negb (is_there F l)) s;
  ws_push : forall l stack x, stackCountSlot l stack = Some x -> holds_at x (fun v => v = pushed F l stack) s;
  ws_owner : forall l owner x, ownerSlot l owner = Some x -> holds_at x (fun v => v = owner_at F l owner) s;
  ws_valid : forall l x, validSlot l = Some x -> holds_at x (fun v => (v =? 0) = negb (region_parsed F l)) s
}.

(** Entries of a stack: what was pushed, what a byte of the header says, or
    what the length of the option leaves. *)
Definition stack_count (src : quantCountSource) : seen Z :=
  let l := CountLayer src in
  match From src with
  | FromPush stack => Present (pushed F l stack)
  | FromHdr hdr =>
      match piece P (layer_start F) (written_back F) l (CountByteOff hdr) 1 with
      | Present bs => Present (unle bs + Addend hdr)
      | Missing => Present 0
      | Beyond => Beyond
      end
  | FromOwner owner off sub sh =>
      Present (match option_bytes P (owner_at F l owner) off 1 with Present bs => if unle bs <? sub then 0 else Z.shiftr (unle bs - sub) sh | _ => 0 end)
  end.

(** An option the walk found, or a header its gate admits. *)
Definition aux_there (f : FieldRef) : verdict :=
  match optionSlotFor f with
  | Some _ => test (negb (option_at F f =? u64 dynamicAuxSentinel))
  | None => gate_verdict P (layer_start F) (written_back F) f
  end.

Definition action_matches (a : string) : bool :=
  match Action ≫= lookup a with Some val => action_value F =? u32 val | None => false end.

Variable literal_matches : FieldRef -> CmpOp -> Value -> verdict.

Definition packet_world : world := mkWorld (value P (layer_start F) (written_back F) (option_at F)) (is_there F) stack_count aux_there (region_parsed F) action_matches literal_matches.

(** ** The states are kept *)

Lemma holds_at_kept x ok s s' : holds_at x ok s -> upto scratch_slots s s' -> holds_at x ok s'.
Proof. intros (Hx & v & Hl & Hv) U. split; [exact Hx|]. exists v. split; [|exact Hv]. now rewrite (ldst_plan x s s'). Qed.

Lemma wsite_kept s s' : wsite s -> upto scratch_slots s s' -> wsite s'.
Proof.
  intros [Hs H1 H2 H3 H4 H5] U. split; intros.
  - now apply (site_kept fd key base P _ _ _ s).
  - eapply holds_at_kept; eauto.
  - eapply holds_at_kept; eauto.
  - eapply holds_at_kept; eauto.
  - eapply holds_at_kept; eauto.
  - eapply holds_at_kept; eauto.
Qed.

Lemma plan_slot_frame x : plan_slot x -> in_frame x 8 = true.
Proof. unfold plan_slot, in_frame. intros Hx. apply andb_true_intro; split; apply Z.leb_le; lia. Qed.

Lemma holds_site x (ok : Z -> Prop) : (forall s, wsite s -> holds_at x ok s) -> holds wsite x ok.
Proof. intros Hh s Hs. destruct (Hh s Hs) as (Hx & v & Hl & Hv). split; [now apply plan_slot_frame|eauto]. Qed.

(** ** What the code asks *)

Hypothesis HPb : Forall byte P.
Hypothesis Hwb : forall l, byte (written_back F l).
Hypothesis Halways : forall l, members l = None -> Absentable l = false -> is_there F l = true.
Hypothesis Hpushed : forall l stack, 0 <= pushed F l stack <= pushBound l stack /\ in_u64 (pushed F l stack).
Hypothesis Howner : forall l owner, in_u64 (owner_at F l owner).

Lemma unle_nonneg bs : Forall byte bs -> 0 <= unle bs.
Proof. intros Hb. apply (unle_range _ Hb). Qed.

Lemma piece_bytes l off n bs : piece P (layer_start F) (written_back F) l off n = Present bs -> Forall byte bs.
Proof.
  unfold piece. destruct (layerAnchorFor l) as [a|]; [|discriminate]. destruct (WriteBack a && _ && _); [intros [= <-]; constructor; [apply Hwb|constructor]|].
  cbv zeta. destruct (_ <=? _); [intros [= <-]; now apply window_byte|discriminate].
Qed.

Lemma option_bytes_byte at_ off n bs : option_bytes P at_ off n = Present bs -> Forall byte bs.
Proof. unfold option_bytes. cbv zeta. repeat (case_match; try discriminate). intros [= <-]. now apply window_byte. Qed.

Lemma stack_count_ok src : src_ok src -> match stack_count src with Present k => 0 <= k | Missing => False | Beyond => True end.
Proof.
  unfold src_ok, stack_count. destruct src as [l [hdr|o off sub sh|st]]; cbn [From CountLayer].
  - intros [_ Ha]. unfold small in Ha.
    destruct (piece _ _ _ _ _ _) as [bs| |] eqn:E; [|lia|exact I]. apply piece_bytes, unle_nonneg in E. lia.
  - intros (_ & _ & Hsh). destruct (option_bytes _ _ _ _) as [bs| |] eqn:E; [|lia..]. destruct (Z.ltb_spec (unle bs) sub); [lia|]. apply Z.shiftr_nonneg. lia.
  - intros _. apply (Hpushed l st).
Qed.

Lemma small_i32 z : 0 <= z < 2 ^ 20 -> u64 (i32 z) = z.
Proof. intros Hz. rewrite i32_small by lia. apply u64_small. unfold in_u64, two64. lia. Qed.

Lemma count_unlabelled a hdr : unlabelled (emitHeaderCount R3 a hdr dslReject).
Proof. unfold emitHeaderCount, unlabelled. rewrite Forall_app. split; [apply field_load_unlabelled|]. unlab. Qed.

Lemma unle_one bs : Z.of_nat (length bs) = 1 -> Forall byte bs -> 0 <= unle bs < 256.
Proof. intros Hn Hb. pose proof (unle_range _ Hb) as Hr. unfold len in Hr. now rewrite Hn in Hr. Qed.

Lemma header_count_runs l hdr a fail s :
  layerAnchorFor l = Ok a -> src_ok (mkCountSource l (FromHdr hdr)) -> wsite s ->
  runs (upto no_slots s) (fun k t => getr R3 t = Some (Num k) /\ in_u64 k) (emitHeaderCount R3 a hdr dslReject) fail s (stack_count (mkCountSource l (FromHdr hdr))).
Proof.
  intros El Hok Hs. destruct Hok as [Ho Ha]. cbn [From] in *. unfold small in *.
  pose proof (piece_runs fd key base P _ _ _ HPb Hwb R3 l a (CountByteOff hdr) Byte fail s El (ws_site _ Hs) ltac:(unfold scratch_reg; auto) ltac:(now left) ltac:(lia)) as Hr.
  change (Sizeof Byte) with 1 in Hr. unfold stack_count. cbn [From CountLayer]. unfold emitHeaderCount.
  destruct (piece _ _ _ l _ 1) as [bs| |] eqn:Ep.
  - destruct Hr as (t & E & O & (-> & Hn & Hb)). pose proof (unle_one bs Hn Hb) as Hu.
    assert (U : upto no_slots s (setr R3 (Num (unle bs)) s)) by (apply upto_setr; auto).
    destruct (Z.eqb_spec (Addend hdr) 0) as [->|Hne]; cbn [negb].
    + exists (setr R3 (Num (unle bs)) s). rewrite app_nil_r, Z.add_0_r. split; [exact E|]. split; [exact U|]. split; [apply getr_same; discriminate|].
      unfold in_u64, two64. lia.
    + exists (setr R3 (Num (unle bs + Addend hdr)) (setr R3 (Num (unle bs)) s)). split; [|split; [eapply upto_trans; [exact U|apply upto_setr; auto]|split; [apply getr_same; discriminate|]]].
      * rewrite exec_app, E. erewrite exec_Imm; [reflexivity|discriminate|discriminate|discriminate|apply getr_same; discriminate|].
        rewrite small_i32 by lia. cbn. do 2 f_equal. rewrite u64_small by (unfold in_u64, two64; lia). reflexivity.
      * unfold in_u64, two64. lia.
  - exfalso. unfold piece in Ep. rewrite El in Ep. destruct (WriteBack a && _ && _); [discriminate|]. cbv zeta in Ep. now destruct (_ <=? _).
  - destruct Hr as (t & E & O). exists t. split; [|apply (only_upto no_slots R3 s t); [unfold scratch_reg; auto|exact O]].
    rewrite exec_app, E. apply exec_skip. destruct (negb _); cbn; [|apply not_elem_of_nil]. intros Hin. now apply list_elem_of_singleton in Hin.
Qed.

Lemma owner_guard_decides l owner x sub sh idx skip :
  ownerSlot l owner = Some x -> src_ok (mkCountSource l (FromOwner owner 1 sub sh)) -> 0 <= idx < 2 ^ 20 -> has_text skip = true ->
  decides wsite (emitOwnerCountGuard x 1 sub sh idx skip) skip (sbind (stack_count (mkCountSource l (FromOwner owner 1 sub sh))) (fun k => test (idx <? k))).
Proof.
  intros Ex (_ & Hsub & Hsh) Hi Hx. unfold small in Hsub. unfold emitOwnerCountGuard.
  set (tail := [JImm JLT R3 (i32 sub) skip; Imm Sub R3 (i32 sub); Imm RSh R3 (i32 sh); JImm JLE R3 (i32 idx) skip]).
  assert (Ut : unlabelled tail) by (unfold tail; unlab).
  split; [apply unlabelled_plain; unfold unlabelled; rewrite Forall_app; split; [apply option_load_unlabelled|exact Ut]|].
  intros s Hs. destruct (ws_owner _ Hs l owner x Ex) as (Hp & v & Hl & ->).
  pose proof (slot_runs fd key base P _ _ _ HPb (owner_at F l owner) x 1 Byte skip s Hp (Howner l owner) Hl (ws_site _ Hs) ltac:(now left) Hx ltac:(lia)) as Hr.
  change (Sizeof Byte) with 1 in Hr. unfold stack_count. cbn [From CountLayer]. apply ends_runs.
  destruct (option_bytes P (owner_at F l owner) 1 1) as [bs| |] eqn:Eb; cbn [sbind].
  - destruct Hr as (t & E & U & G & Hn & Hb). pose proof (unle_one bs Hn Hb) as Hu. set (b := unle bs) in *.
    assert (E1 : forall l, exec (JImm JLT R3 (i32 sub) skip :: l) None t = if b <? sub then exec l (Some skip) t else exec l None t).
    { intros l0. erewrite exec_JImm; [reflexivity|exact G|rewrite cmp_val_num, small_i32 by lia; reflexivity|exact Hx]. }
    destruct (Z.ltb_spec b sub) as [Hlt|Hge].
    + replace (idx <? 0) with false by (symmetry; apply Z.ltb_ge; lia). exists t. split; [|exact U].
      rewrite exec_app, E. unfold tail. rewrite E1. apply exec_skip. apply unlabelled_notin; [unlab|exact Hx].
    + set (k := Z.shiftr (b - sub) sh). set (t1 := setr R3 (Num (b - sub)) t). set (t2 := setr R3 (Num k) t1).
      assert (Hk : 0 <= k <= b - sub) by (unfold k; rewrite Z.shiftr_div_pow2 by lia; split; [apply Z.div_pos; lia|apply Z.div_le_upper_bound; nia]).
      assert (U2 : upto no_slots s t2) by (eapply upto_trans; [exact U|]; eapply upto_trans; apply upto_setr; auto).
      assert (E2 : exec tail None t = if negb (idx <? k) then Goto skip t2 else Next t2).
      { unfold tail. rewrite E1.
        erewrite exec_Imm; [|discriminate|discriminate|discriminate|exact G|rewrite small_i32 by lia; cbn; rewrite (u64_small (b - sub)) by (unfold in_u64, two64; lia); reflexivity].
        erewrite exec_Imm; [|discriminate|discriminate|discriminate|apply getr_same; discriminate|rewrite small_i32 by lia; cbn; rewrite Z.mod_small by lia; reflexivity].
        erewrite exec_JImm; [|apply getr_same; discriminate|rewrite cmp_val_num, small_i32 by lia; cbn; rewrite Z.leb_antisym; reflexivity|exact Hx].
        now destruct (negb _). }
      destruct (idx <? k); cbn [negb test runs] in *; exists t2; rewrite exec_app, E, E2; auto.
  - destruct Hr as (t & E & U). replace (idx <? 0) with false by (symmetry; apply Z.ltb_ge; lia). exists t. split; [|exact U].
    rewrite exec_app, E. apply exec_skip, unlabelled_notin; [exact Ut|exact Hx].
  - exfalso. unfold option_bytes in Eb. cbv zeta in Eb. now repeat case_match.
Qed.

Lemma exists_decides f fail code :
  genBoolExists f fail = Ok code -> gates_ok f -> has_text fail = true -> decides wsite code fail (aux_there f).
Proof.
  unfold genBoolExists, aux_there. intros E Hg Hx. destruct (Aux f) as [aux|] eqn:Ea; [|discriminate]. destruct (optionSlotFor f) as [x|] eqn:Ex.
  - injection E as <-. apply (slot_decides _ _ _ _ (fun v => v = option_at F f)); [|intros v ->; cbn [cmp64]; now rewrite negb_involutive|exact Hx].
    intros s Hs. destruct (site_option _ _ _ _ _ _ _ _ (ws_site _ Hs) f x Ex) as (Hp & _ & Hl). split; [now apply plan_slot_frame|eauto].
  - case_if E; [discriminate|]. apply result_bind_ok in E as (a & El & [= <-]).
    replace (Gating aux) with (Aux f ≫= Gating) by now rewrite Ea. split; [apply unlabelled_plain, gating_unlabelled|].
    intros s Hs. apply ends_runs. apply (gating_runs fd key base P _ _ _ HPb Hwb f a fail s El (ws_site _ Hs) Hx Hg).
Qed.

(** The host's contract of [EmitFetch]: the action, as a 32-bit number, in
    the register. *)
Hypothesis Hfetch : forall fetch, ActionFetcher = Some fetch -> plain (fetch R3) /\
  forall s, wsite s -> exists t, exec (fetch R3) None s = Next t /\ upto no_slots s t /\ getr R3 t = Some (Num (action_value F)).
Hypothesis Haction : 0 <= action_value F < 2 ^ 32.

(** Comparisons with network literals decide [literal_matches]. *)
Hypothesis Hliteral : forall c f op v fail n code n', genLiteralCompare c f op v fail n = Ok (code, n') -> literal_known f v -> cmp_ctx_ok c -> 0 <= n -> target n fail ->
  grows n n' code /\ exists r, approx (literal_matches f op v) r /\ forall s, wsite s -> is_Some (getr R3 s) -> ends (upto (compare_slots c) s) code None fail s r.

#[export] Instance packet_ok : WhereOk wsite packet_world.
Proof.
  split.
  - apply (FieldCodeOk_sub (site fd key base P (layer_start F) (written_back F) (option_at F))); [apply ws_site|apply wsite_kept|].
    now apply where_fields_ok.
  - intros l idx x Em Ex. apply holds_site. intros s Hs. now apply (ws_member _ Hs l idx x).
  - intros l x Em Ea Ex. apply holds_site. intros s Hs. now apply (ws_entry _ Hs l x).
  - exact Halways.
  - exact stack_count_ok.
  - intros l stack x Ex. apply (holds_site x). intros s Hs. destruct (ws_push _ Hs l stack x Ex) as (Hp & v & Hl & ->). split; [exact Hp|].
    exists (pushed F l stack). split; [exact Hl|]. split; [apply Hpushed|reflexivity].
  - intros l stack k. cbn. intros [= <-]. apply Hpushed.
  - intros l hdr a El Hok. split; [apply unlabelled_plain, count_unlabelled|]. intros fail s Hs. now apply header_count_runs.
  - exact owner_guard_decides.
  - exact exists_decides.
  - intros l x Ex. apply holds_site. intros s Hs. now apply (ws_valid _ Hs l x).
  - intros actions fetch a val Ea Ef Ev. destruct (Hfetch fetch Ef) as [Hp He]. split; [exact Hp|]. intros s Hs. destruct (He s Hs) as (t & E & U & G).
    exists (action_value F), t. splits; auto; [apply Haction..|]. cbn. unfold action_matches. rewrite Ea. cbn. now rewrite Ev.
  - exact Hliteral.
Qed.
End Where.
