(* ===== verification/LiteralFacts.v ===== *)
(** * LiteralFacts: network order, and constants swapped at compilation

    A load leaves bytes in host order; the generated code compares them with
    constants the compiler swapped instead of swapping the load. The swap is
    an involution that commutes with masking, so the comparison is that of
    the numbers in network order, under a prefix mask that of the leading
    bits. [literal_matches] says when a field matches a literal;
    [literal_compares] that the code of every literal kind decides it. *)

From Stdlib Require Import ZArith Lia Bool Btauto Ascii String List.
From stdpp Require Import base list strings numbers option gmap.
From S2P Require Import Prelude GoStd GoBytes Ast Ir HookAbi Asm Ebpf EbpfFacts Codegen WhereArith WhereArithFacts FieldLoad FieldLoadFacts Where WhereSpec.
Local Open Scope Z_scope.
Local Open Scope go_scope.

(** ** The swap *)

Lemma to_be_S n v : to_be (S n) v = to_be n (v / 256) + 256 ^ Z.of_nat n * (v mod 256).
Proof.
  unfold to_be. cbn [le rev]. rewrite unle_app. unfold len. rewrite length_rev, le_length. cbn [unle fold_right]. lia.
Qed.

Lemma to_be_range n v : 0 <= to_be n v < 256 ^ Z.of_nat n.
Proof.
  unfold to_be. assert (Hb : Forall byte (rev (le n v))) by apply Forall_rev, le_byte.
  pose proof (unle_range _ Hb) as Hr. unfold len in Hr. now rewrite length_rev, le_length in Hr.
Qed.

Lemma to_be_swap n v : 0 <= v < 256 ^ Z.of_nat n -> to_be n (to_be n v) = v.
Proof.
  intros Hv. unfold to_be at 2. assert (Hb : Forall byte (rev (le n v))) by apply Forall_rev, le_byte.
  replace n with (length (rev (le n v))) at 1 by now rewrite length_rev, le_length.
  rewrite to_be_unle by exact Hb. unfold be. rewrite rev_involutive, unle_le. now apply Z.mod_small.
Qed.

Lemma unle_to_be l : Forall byte l -> unle l = to_be (length l) (be l).
Proof.
  intros Hl. rewrite <- (to_be_unle l Hl). symmetry. apply to_be_swap. exact (unle_range _ Hl).
Qed.

(** [k] bits under a number. *)
Lemma low_testbit k x y i : 0 <= k -> 0 <= x < 2 ^ k -> 0 <= i -> Z.testbit (x + 2 ^ k * y) i = if i <? k then Z.testbit x i else Z.testbit y (i - k).
Proof.
  intros Hk Hx Hi. destruct (Z.ltb_spec i k).
  - rewrite <- (Z.mod_pow2_bits_low _ k) by lia. f_equal. symmetry. apply (Z.mod_unique_pos _ _ y); lia.
  - replace i with (i - k + k) at 1 by lia. rewrite <- Z.div_pow2_bits by lia. f_equal. symmetry. apply (Z.div_unique_pos _ _ _ x); lia.
Qed.

Lemma high_testbit k x i : 0 <= x < 2 ^ k -> k <= i -> Z.testbit x i = false.
Proof. intros Hx Hi. rewrite <- (Z.mod_small x (2 ^ k)) by lia. destruct (Z.neg_nonneg_cases k); [rewrite Z.pow_neg_r in Hx by lia; lia|]. apply Z.mod_pow2_bits_high. lia. Qed.

Lemma land_range k x a : 0 <= k -> 0 <= x < 2 ^ k -> 0 <= Z.land x a < 2 ^ k.
Proof.
  intros Hk Hx. replace (Z.land x a) with (Z.land x a mod 2 ^ k); [apply Z.mod_pos_bound, Z.pow_pos_nonneg; lia|].
  apply Z.bits_inj'. intros i Hi. destruct (Z.ltb_spec i k); [now apply Z.mod_pow2_bits_low|].
  rewrite Z.mod_pow2_bits_high, Z.land_spec, (high_testbit k x) by lia. reflexivity.
Qed.

Lemma land_low k x y a b : 0 <= k -> 0 <= x < 2 ^ k -> 0 <= a < 2 ^ k -> Z.land (x + 2 ^ k * y) (a + 2 ^ k * b) = Z.land x a + 2 ^ k * Z.land y b.
Proof.
  intros Hk Hx Ha. pose proof (land_range k x a Hk Hx) as Hl.
  apply Z.bits_inj'. intros i Hi. rewrite Z.land_spec, !low_testbit by assumption. destruct (i <? k); now rewrite Z.land_spec.
Qed.

Lemma byte_mod v : byte (v mod 256).
Proof. apply Z.mod_pos_bound. lia. Qed.

Lemma byte_lor v x : byte x -> Z.lor (256 * v) x = x + 256 * v.
Proof.
  unfold byte. change 256 with (2 ^ 8). intros Hx. apply Z.bits_inj'. intros i Hi. rewrite Z.lor_spec, low_testbit by lia.
  replace (2 ^ 8 * v) with (0 + 2 ^ 8 * v) by lia. rewrite low_testbit by lia.
  destruct (Z.ltb_spec i 8); [now rewrite Z.bits_0|]. rewrite (high_testbit 8 x) by lia. apply orb_false_r.
Qed.

Lemma byteSwap_loop_to_be n : forall out v,
  0 <= out -> (out + 1) * 256 ^ Z.of_nat n <= two64 -> byteSwap_loop n out v = out * 256 ^ Z.of_nat n + to_be n v.
Proof.
  induction n as [|n IH]; intros out v Ho Hb; [change (to_be 0 v) with 0; change (256 ^ Z.of_nat 0) with 1 in *; cbn [byteSwap_loop]; lia|].
  cbn [byteSwap_loop]. rewrite Nat2Z.inj_succ, Z.pow_succ_r in * by lia. assert (Hp : 0 < 256 ^ Z.of_nat n) by (apply Z.pow_pos_nonneg; lia).
  rewrite Z.shiftl_mul_pow2, (u64_small (out * 2 ^ 8)) by (try lia; unfold in_u64; change (2 ^ 8) with 256; nia).
  change 0xFF with (Z.ones 8). rewrite Z.land_ones, Z.shiftr_div_pow2 by lia. change (2 ^ 8) with 256. pose proof (byte_mod v) as Hm.
  rewrite Z.mul_comm, byte_lor by exact Hm. unfold byte in Hm. rewrite IH, to_be_S by nia. ring.
Qed.

(** [byteSwap] of as many bytes as the number has. *)
Lemma byteSwap_to_be n v : 0 <= n <= 8 -> byteSwap v n = to_be (Z.to_nat n) v.
Proof. intros Hn. unfold byteSwap. rewrite byteSwap_loop_to_be, Z.mul_0_l; [reflexivity|lia|].
  change two64 with (256 ^ 8). rewrite Z.mul_1_l. apply Z.pow_le_mono_r; lia. Qed.

(** ** The swap commutes with masking *)

Lemma to_be_land n a b : to_be n (Z.land a b) = Z.land (to_be n a) (to_be n b).
Proof.
  revert a b. induction n as [|n IH]; intros a b; [reflexivity|]. rewrite !to_be_S.
  change 256 with (2 ^ 8). rewrite <- !Z.shiftr_div_pow2, Z.shiftr_land, IH, <- !Z.land_ones by lia.
  replace (Z.land (Z.land a b) (Z.ones 8)) with (Z.land (Z.land a (Z.ones 8)) (Z.land b (Z.ones 8))) by (apply Z.bits_inj'; intros i _; rewrite !Z.land_spec; btauto).
  rewrite <- Z.pow_mul_r by lia. symmetry. apply land_low; [lia|..]; rewrite Z.pow_mul_r by lia; apply to_be_range.
Qed.

(** A masked load is a swapped constant when the numbers agree under the
    mask. *)
Lemma masked_eqb bs m h :
  Forall byte bs -> 0 <= h < 256 ^ len bs ->
  (Z.land (unle bs) (to_be (length bs) m) =? to_be (length bs) h) = (Z.land (be bs) m =? h).
Proof.
  intros Hb Hh. pose proof (be_range bs Hb) as Hr. unfold len in *. rewrite (unle_to_be bs Hb), <- to_be_land.
  assert (Hl : 0 <= Z.land (be bs) m < 256 ^ Z.of_nat (length bs)) by (rewrite pow_256 in * by lia; apply land_range; lia).
  apply eq_iff_eq_true. rewrite !Z.eqb_eq. split; [|congruence]. intros E. rewrite <- (to_be_swap _ _ Hl), E. now apply to_be_swap.
Qed.

Lemma swapped_eqb bs h : Forall byte bs -> 0 <= h < 256 ^ len bs -> (unle bs =? to_be (length bs) h) = (be bs =? h).
Proof.
  intros Hb Hh. unfold len in *. rewrite (unle_to_be bs Hb). apply eq_iff_eq_true. rewrite !Z.eqb_eq. split; [|congruence].
  intros E. rewrite <- (to_be_swap (length bs) (be bs)), E by exact (be_range bs Hb). now apply to_be_swap.
Qed.

(** ** Prefix masks *)

(** The bits of a [w]-bit number above its low [k]. *)
Lemma land_prefix w k x : 0 <= k <= w -> 0 <= x < 2 ^ w -> Z.land x (2 ^ w - 2 ^ k) = x / 2 ^ k * 2 ^ k.
Proof.
  intros Hk Hx. replace (2 ^ w - 2 ^ k) with (0 + 2 ^ k * Z.ones (w - k)) by (rewrite Z.ones_equiv; replace (2 ^ w) with (2 ^ k * 2 ^ (w - k)) by (rewrite <- Z.pow_add_r by lia; f_equal; lia); lia).
  assert (Hp : 0 < 2 ^ k) by (apply Z.pow_pos_nonneg; lia). rewrite (Z.div_mod x (2 ^ k)) at 1 by lia. rewrite Z.add_comm.
  rewrite land_low by (try lia; apply Z.mod_pos_bound; lia). rewrite Z.land_0_r, Z.land_ones by lia. rewrite Z.mod_small; [lia|].
  split; [apply Z.div_pos; lia|]. apply Z.div_lt_upper_bound; [lia|]. rewrite <- Z.pow_add_r by lia. now replace (k + (w - k)) with w by lia.
Qed.

Lemma prefix_eqb w k x y : 0 <= k <= w -> 0 <= x < 2 ^ w -> 0 <= y < 2 ^ w ->
  (Z.land x (2 ^ w - 2 ^ k) =? Z.land y (2 ^ w - 2 ^ k)) = (x / 2 ^ k =? y / 2 ^ k).
Proof.
  intros Hk Hx Hy. rewrite !land_prefix by assumption. assert (Hp : 0 < 2 ^ k) by (apply Z.pow_pos_nonneg; lia).
  apply eq_iff_eq_true. rewrite !Z.eqb_eq. split; [intros E; now apply Z.mul_cancel_r in E; [|lia]|congruence].
Qed.

Lemma shifted_ones w k : 0 <= k <= w -> (2 ^ w - 1) * 2 ^ k mod 2 ^ w = if k =? w then 0 else 2 ^ w - 2 ^ k.
Proof.
  intros Hk. assert (Hp : 0 < 2 ^ k) by (apply Z.pow_pos_nonneg; lia). assert (Hw : 0 < 2 ^ w) by (apply Z.pow_pos_nonneg; lia).
  destruct (Z.eqb_spec k w) as [->|Hn]; [now rewrite Z.mod_mul by lia|]. assert (2 ^ k < 2 ^ w) by (apply Z.pow_lt_mono_r; lia).
  symmetry. apply (Z.mod_unique_pos _ _ (2 ^ k - 1)); nia.
Qed.

(** The mask of [p] leading bits of [w]. *)
Lemma prefix_mask w p : 0 < p <= w -> (2 ^ w - 1) * 2 ^ (w - p) mod 2 ^ w = 2 ^ w - 2 ^ (w - p).
Proof. intros Hp. rewrite shifted_ones by lia. now rewrite (proj2 (Z.eqb_neq _ _)) by lia. Qed.

Lemma mask32 p : 0 < p <= 32 -> u32 (Z.shiftl 0xFFFFFFFF (32 - p)) = 2 ^ 32 - 2 ^ (32 - p).
Proof. intros Hp. rewrite Z.shiftl_mul_pow2 by lia. change 0xFFFFFFFF with (2 ^ 32 - 1). now apply prefix_mask. Qed.

Lemma mask64 p : 0 < p <= 64 -> u64 (Z.shiftl ones64 (64 - p)) = 2 ^ 64 - 2 ^ (64 - p).
Proof. intros Hp. rewrite Z.shiftl_mul_pow2 by lia. change ones64 with (2 ^ 64 - 1). change two64 with (2 ^ 64). unfold u64. change two64 with (2 ^ 64). now apply prefix_mask. Qed.

(** ** Numbers in two parts *)

Lemma parts_eqb m h l h' l' : 0 <= l < m -> 0 <= l' < m -> (h * m + l =? h' * m + l') = (h =? h') && (l =? l').
Proof.
  intros Hl Hl'. apply eq_iff_eq_true. rewrite andb_true_iff, !Z.eqb_eq. split; [|intros [-> ->]; reflexivity].
  intros E. assert (h = h') by nia. subst. lia.
Qed.

Lemma be_parts k bs : Forall byte bs -> be bs = be (take k bs) * 256 ^ len (drop k bs) + be (drop k bs) /\ 0 <= be (drop k bs) < 256 ^ len (drop k bs).
Proof. intros Hb. rewrite <- be_app, take_drop. split; [reflexivity|]. now apply be_range, Forall_drop. Qed.

Lemma be_eqb k bs a : Forall byte bs -> Forall byte a -> len bs = len a ->
  (be bs =? be a) = (be (take k bs) =? be (take k a)) && (be (drop k bs) =? be (drop k a)).
Proof.
  intros Hb Ha Hn. destruct (be_parts k bs Hb) as [-> Hr]. destruct (be_parts k a Ha) as [-> Hr'].
  assert (El : len (drop k bs) = len (drop k a)) by (unfold len in *; rewrite !length_drop; lia). rewrite El in *. now apply parts_eqb.
Qed.

(** A prefix of two 64-bit halves: of the first, or all of it and a prefix
    of the second. *)
Lemma prefix_high p h l : 0 < p <= 64 -> 0 <= l < 2 ^ 64 -> (h * 2 ^ 64 + l) / 2 ^ (128 - p) = h / 2 ^ (64 - p).
Proof.
  intros Hp Hl. replace (128 - p) with (64 + (64 - p)) by lia. rewrite Z.pow_add_r by lia. rewrite <- Z.div_div by lia.
  rewrite Z.div_add_l by lia. rewrite (Z.div_small l) by lia. now rewrite Z.add_0_r.
Qed.

Lemma prefix_low p h l h' l' : 64 < p <= 128 -> 0 <= l < 2 ^ 64 -> 0 <= l' < 2 ^ 64 ->
  ((h * 2 ^ 64 + l) / 2 ^ (128 - p) =? (h' * 2 ^ 64 + l') / 2 ^ (128 - p)) = (h =? h') && (l / 2 ^ (128 - p) =? l' / 2 ^ (128 - p)).
Proof.
  intros Hp Hl Hl'. set (k := 128 - p). assert (Hk : 0 < 2 ^ k) by (apply Z.pow_pos_nonneg; lia).
  assert (E : forall x y, (x * 2 ^ 64 + y) / 2 ^ k = x * 2 ^ (64 - k) + y / 2 ^ k).
  { intros x y. replace (2 ^ 64) with (2 ^ (64 - k) * 2 ^ k) by (rewrite <- Z.pow_add_r by lia; f_equal; lia). rewrite Z.mul_assoc. apply Z.div_add_l. lia. }
  rewrite !E. apply parts_eqb; (split; [apply Z.div_pos; lia|]); apply Z.div_lt_upper_bound; try lia; rewrite <- Z.pow_add_r by lia; now replace (k + (64 - k)) with 64 by lia.
Qed.

Lemma be_macValue mac : Forall byte mac -> len mac <= 8 -> macValue mac = be mac.
Proof.
  intros Hm Hn. unfold macValue. assert (Hg : forall l n, Forall byte l -> 0 <= n -> (n + 1) * 256 ^ len l <= two64 ->
    fold_left (fun n b => Z.lor (u64 (Z.shiftl n 8)) b) l n = n * 256 ^ len l + be l).
  { clear. induction l as [|b l IH]; intros n Hl Hn Hb; [cbn; unfold be, len; cbn; lia|]. inversion Hl as [|? ? Hb0 Hl0]; subst.
    unfold len in Hb. cbn [length] in Hb. rewrite Nat2Z.inj_succ, Z.pow_succ_r in Hb by lia. fold (len l) in Hb. assert (Hp : 0 < 256 ^ len l) by (apply Z.pow_pos_nonneg; unfold len; lia).
    cbn [fold_left]. rewrite Z.shiftl_mul_pow2, (u64_small (n * 2 ^ 8)), Z.mul_comm by (try lia; unfold in_u64; change (2 ^ 8) with 256; nia). change (2 ^ 8) with 256.
    rewrite byte_lor by exact Hb0. unfold byte in Hb0. rewrite IH by (try assumption; nia). change (b :: l) with ([b] ++ l). rewrite be_app.
    unfold be at 2, len. cbn [length app rev unle fold_right]. rewrite Nat2Z.inj_succ, Z.pow_succ_r by lia. fold (len l). lia. }
  rewrite Hg; [lia|exact Hm|lia|]. change two64 with (256 ^ 8). rewrite Z.mul_1_l. apply Z.pow_le_mono_r; lia.
Qed.

(** * Comparisons with network literals decide them

    [literal_matches] is what a comparison with an address, a MAC or a
    network means: the number in the field's bits, or its leading bits,
    against the literal's. The code of every arm of [whereLiteralCompare]
    decides it on the states of [FieldLoadFacts.site]. *)

(** ** Verdicts *)

Lemma sbind_sbind {A C D} (a : seen A) (f : A -> seen C) (g : C -> seen D) : sbind (sbind a f) g = sbind a (fun x => sbind (f x) g).
Proof. now destruct a. Qed.

(** [!=] on something the code read. *)
Lemma notv_test {A} (a : seen A) f : a <> Missing -> notv (sbind a (fun x => test (f x))) = sbind a (fun x => test (negb (f x))).
Proof. destruct a as [x| |]; cbn; [now destruct (f x)|easy|reflexivity]. Qed.

Lemma approx_not a b : approx a b -> approx (notv a) (notv b).
Proof. intros [-> | ->]; [now left|now right]. Qed.

Lemma approx_bind {A} (a : seen A) f g : (forall x, approx (f x) (g x)) -> approx (sbind a f) (sbind a g : verdict).
Proof. intros Hf. destruct a; cbn; [apply Hf|now right..]. Qed.

(** The verdict of [op], [==] or [!=], from that of [==]. *)
Definition op_verdict (op : CmpOp) (v : verdict) : verdict := match op with CmpEq => v | _ => notv v end.

Lemma op_verdict_cmp {A} op (a : seen A) (f : A -> Z) k : is_Some (ipEqualityJumpOp op) -> a <> Missing ->
  op_verdict op (sbind a (fun x => test (f x =? k))) = sbind a (fun x => test (cmpZ op (f x) k)).
Proof. intros [j E] Ha. destruct op; try discriminate; [reflexivity|now apply notv_test]. Qed.

(** ** Masked comparisons *)

Section Compare.
Context `{HKern : Kernel}.

(** Code that leaves in R3 what compares as [μ] of the number a load of [n]
    bytes put there. *)
Definition masks (n : nat) (μ : Z -> Z) (mcode : list Instruction) : Prop :=
  unlabelled mcode /\ forall bs t l, Forall byte bs -> length bs = n -> getr R3 t = Some (Num (unle bs)) ->
    exists x t', exec (mcode ++ l) None t = exec l None t' /\ upto no_slots t t' /\ getr R3 t' = Some (Num x) /\
      forall h, 0 <= h < 256 ^ Z.of_nat n -> (x =? to_be n h) = (μ (be bs) =? h).

Lemma masks_none n : masks n id [].
Proof.
  split; [unlab|]. intros bs t l Hb Hn G. exists (unle bs), t. split; [reflexivity|]. split; [apply upto_refl|]. split; [exact G|].
  intros h Hh. subst n. now apply swapped_eqb.
Qed.

Lemma masks_alu n m mcode : unlabelled mcode ->
  (forall x t l, 0 <= x < 256 ^ Z.of_nat n -> getr R3 t = Some (Num x) ->
    exists t', exec (mcode ++ l) None t = exec l None t' /\ upto no_slots t t' /\ getr R3 t' = Some (Num (Z.land x (to_be n m)))) -> masks n (fun z => Z.land z m) mcode.
Proof.
  intros Hu He. split; [exact Hu|]. intros bs t l Hb Hn G. pose proof (unle_range _ Hb) as Hr. unfold len in Hr. rewrite Hn in Hr.
  destruct (He (unle bs) t l Hr G) as (t' & E & U & G'). exists (Z.land (unle bs) (to_be n m)), t'. splits; auto. intros h Hh. subst n. now apply masked_eqb.
Qed.

(** The sign extension of a 32-bit immediate does not reach a word. *)
Lemma land_imm32 x k : 0 <= x < 2 ^ 32 -> Z.land x (u64 (i32 k)) = Z.land x k.
Proof.
  intros Hx. assert (Hk : u64 (i32 k) mod 2 ^ 32 = k mod 2 ^ 32).
  { unfold u64, i32. rewrite (Z.mod_eq _ two64), (Z.mod_eq (k + 2147483648)) by easy. set (q := _ / two64). set (r := (k + _) / _).
    replace (k + 2147483648 - 4294967296 * r - 2147483648 - two64 * q) with (k + (- r - 4294967296 * q) * 2 ^ 32) by (unfold two64; lia). now apply Z.mod_add. }
  rewrite <- (Z.mod_small x (2 ^ 32)), <- Z.land_ones, <- !Z.land_assoc, !(Z.land_comm (Z.ones 32)), !Z.land_ones, Hk by lia. reflexivity.
Qed.

Lemma masks_word m : masks 4 (fun z => Z.land z m) [Imm And R3 (i32 (to_be 4 m))].
Proof.
  apply masks_alu; [unlab|]. intros x t l Hx G. exists (setr R3 (Num (Z.land x (to_be 4 m))) t).
  split; [|split; [apply upto_setr; auto|apply getr_same; discriminate]].
  cbn [app]. erewrite exec_Imm; [reflexivity|discriminate|discriminate|discriminate|exact G|].
  cbn [alu_val alu64]. do 2 f_equal. rewrite land_imm32 by exact Hx. reflexivity.
Qed.

Lemma u64_of_int64 k : in_u64 k -> u64 (int64_of_u64 k) = k.
Proof.
  unfold in_u64, u64, int64_of_u64. intros Hk. destruct (k <? two63); [now apply Z.mod_small|].
  replace (k - two64) with (k + (-1) * two64) by lia. rewrite Z.mod_add by easy. now apply Z.mod_small.
Qed.

Lemma to_be_u64 n v : (n <= 8)%nat -> in_u64 (to_be n v).
Proof.
  intros Hn. pose proof (to_be_range n v) as Hr. assert (256 ^ Z.of_nat n <= 256 ^ 8) by (apply Z.pow_le_mono_r; lia).
  change (256 ^ 8) with two64 in *. unfold in_u64. lia.
Qed.

Lemma masks_dword m r : r = R2 \/ r = R5 -> masks 8 (fun z => Z.land z m) [LoadImm r (int64_of_u64 (to_be 8 m)); Reg And R3 r].
Proof.
  intros Hr. assert (Hn : r <> RFP /\ r <> R3) by (destruct Hr as [-> | ->]; split; discriminate). destruct Hn as [Hf H3].
  apply masks_alu; [unlab|]. intros x t l Hx G. set (t1 := setr r (Num (to_be 8 m)) t). exists (setr R3 (Num (Z.land x (to_be 8 m))) t1).
  split; [|split; [eapply upto_trans; apply upto_setr; tauto|apply getr_same; discriminate]]. cbn [app].
  rewrite exec_LoadImm, u64_of_int64 by (try exact Hf; now apply to_be_u64). fold t1.
  erewrite exec_Reg; [reflexivity|discriminate|discriminate|discriminate|unfold t1; rewrite getr_other by congruence; exact G|apply getr_same; exact Hf|reflexivity].
Qed.

(** The comparison of what a load left with a constant. *)
Definition compare_tail (mcode : list Instruction) (r k : Z) (j : JumpOp_) (fail : bytes) : list Instruction := mcode ++ [LoadImm r k; JReg j R3 r fail].

Lemma compare_unlabelled n μ mcode r k j fail : masks n μ mcode -> unlabelled (compare_tail mcode r k j fail).
Proof. intros [Hu _]. unfold compare_tail, unlabelled. rewrite Forall_app. split; [exact Hu|unlab]. Qed.

Lemma compare_ends n μ mcode r k h op fail bs t :
  masks n μ mcode -> r = R2 \/ r = R5 -> u64 k = to_be n h -> 0 <= h < 256 ^ Z.of_nat n -> is_Some (ipEqualityJumpOp op) -> has_text fail = true ->
  Forall byte bs -> length bs = n -> getr R3 t = Some (Num (unle bs)) ->
  ends (upto no_slots t) (compare_tail mcode r k (rejectingJumpOp op) fail) None fail t (test (cmpZ op (μ (be bs)) h)).
Proof.
  intros [_ Hm] Hr Hk Hh Hop Hf Hb Hn G. assert (Hr' : r <> RFP /\ r <> R3) by (destruct Hr as [-> | ->]; split; discriminate). destruct Hr' as [Hfp H3].
  destruct (Hm bs t [LoadImm r k; JReg (rejectingJumpOp op) R3 r fail] Hb Hn G) as (x & t1 & E & U & G1 & Hx). specialize (Hx h Hh).
  set (t2 := setr r (Num (u64 k)) t1). assert (U2 : upto no_slots t t2) by (eapply upto_trans; [exact U|apply upto_setr; tauto]).
  assert (Ec : cmpZ op x (u64 k) = cmpZ op (μ (be bs)) h) by (rewrite Hk; destruct Hop as [jj Ej], op; try discriminate; cbn; now rewrite Hx).
  assert (Er : exec (compare_tail mcode r k (rejectingJumpOp op) fail) None t = if negb (cmpZ op (μ (be bs)) h) then Goto fail t2 else Next t2).
  { unfold compare_tail. rewrite E, exec_LoadImm by exact Hfp. fold t2.
    erewrite exec_JReg; [|unfold t2; rewrite getr_other by congruence; exact G1|apply getr_same; exact Hfp|rewrite cmp_val_num, rejectingJumpOp_spec, Ec; reflexivity|exact Hf].
    now destruct (negb _). }
  destruct (cmpZ op (μ (be bs)) h); (exists t2; split; [exact Er|exact U2]).
Qed.

(** The mask of a half of a 128-bit prefix, left out when it is all ones. *)
Definition half_mask (mask : Z) : list Instruction :=
  if negb (mask =? ones64) then [LoadImm R5 (int64_of_u64 (byteSwap mask 8)); Reg And R3 R5] else [].

Lemma masks_half mask : masks 8 (fun z => Z.land z mask) (half_mask mask).
Proof.
  unfold half_mask. destruct (Z.eqb_spec mask ones64) as [->|_]; cbn [negb]; [|rewrite byteSwap_to_be by lia; apply masks_dword; auto].
  destruct (masks_none 8) as [Hu Hm]. split; [exact Hu|]. intros bs t l Hb Hn G. destruct (Hm bs t l Hb Hn G) as (x & t' & E & U & G' & Hx).
  exists x, t'. splits; auto. intros h Hh. rewrite Hx by exact Hh. f_equal. change ones64 with (Z.ones 64). rewrite Z.land_ones by lia.
  pose proof (be_range bs Hb) as Hr. unfold len in Hr. rewrite Hn in Hr. symmetry. apply Z.mod_small. exact Hr.
Qed.

End Compare.

(** ** What a comparison means *)

(** The number [n] in the field's bits against the literal; a network
    compares its prefix. *)
Definition literal_holds (op : CmpOp) (n : Z) (v : Value) : bool :=
  match Val v with
  | ValIPv4 a | ValIPv6 a | ValMAC a => cmpZ op n (be a)
  | ValCIDR4 a p => cmpZ op (n / 2 ^ (32 - p)) (be a / 2 ^ (32 - p))
  | ValCIDR6 a p => cmpZ op (n / 2 ^ (128 - p)) (be a / 2 ^ (128 - p))
  | _ => false
  end.

Section Literal.
Context `{HKern : Kernel} `{HV : AuxVocab} `{HP : WherePlan}.
Context (fd : Z) (key : list Z) (base : Z) (P : list Z) (start wb : LayerInstance -> Z) (opt : FieldRef -> Z).

#[local] Abbreviation site := (site fd key base P start wb opt).
#[local] Abbreviation piece := (piece P start wb).
#[local] Abbreviation gate_verdict := (gate_verdict P start wb).
#[local] Abbreviation value := (value P start wb opt).

(** The bytes of a field of whole bytes. *)
Definition field_bytes (f : FieldRef) : seen (list Z) :=
  let off := header_at f + first_bit f / 8 in
  let n := EffectiveBits f / 8 in
  if dynamicAuxLayoutOf f then option_piece P opt f off n else sbind (gate_verdict f) (fun _ => piece (RefLayer f) off n).

(** The number in the bits of a field, or of a slice off byte boundaries. *)
Definition field_number (f : FieldRef) : seen Z :=
  if sliceNeedsScalarLoad f then value f else sbind (field_bytes f) (fun bs => Present (be bs)).

Definition literal_matches (f : FieldRef) (op : CmpOp) (v : Value) : verdict :=
  sbind (field_number f) (fun n => test (literal_holds op n v)).

Hypothesis HPb : Forall byte P.
Hypothesis Hwb : forall l, byte (wb l).
Hypothesis Hstart : forall l, 0 <= start l.

(** ** Pieces of a field *)

Lemma piece_read l a off n : layerAnchorFor l = Ok a -> piece l off n <> Missing.
Proof. unfold FieldLoadFacts.piece. intros ->. destruct (_ && _); [discriminate|]. cbv zeta. now destruct (_ <=? _). Qed.

Lemma window_sub p n k m : 0 <= p -> (k + m <= n)%nat -> window P (p + Z.of_nat k) m = take m (drop k (window P p n)).
Proof.
  intros Hp Hn. unfold window. rewrite Z2Nat.inj_add, Nat2Z.id by lia. rewrite <- drop_drop.
  rewrite !(take_drop_commute _ m k), take_take. do 2 f_equal. lia.
Qed.

Lemma piece_sound l a off n bs : layerAnchorFor l = Ok a -> 0 <= off -> 0 < n -> piece l off n = Present bs -> Forall byte bs /\ len bs = n.
Proof.
  unfold FieldLoadFacts.piece. intros -> Ho Hn. destruct (WriteBack a && _ && _) eqn:Eb; [intros [= <-]; split; [constructor; [apply Hwb|constructor]|]; bools; change (len [wb l]) with 1; lia|].
  cbv zeta. set (p := if runtime a then _ else _). assert (Hp : 0 <= p) by (unfold p; destruct (runtime a); [apply u64_range|pose proof (Hstart l); lia]).
  destruct (Z.leb_spec (p + n) (if runtime a then bound P else len P)) as [Hle|]; [|discriminate]. intros [= <-]. split; [now apply window_byte|].
  unfold len. rewrite window_length; [lia|exact Hp|]. rewrite Z2Nat.id by lia. unfold bound in Hle. destruct (runtime a); lia.
Qed.

Lemma piece_sub l a off n k m bs : layerAnchorFor l = Ok a -> 0 <= off -> 1 < n -> 1 < m -> 0 <= k -> k + m <= n -> piece l off n = Present bs ->
  piece l (off + k) m = Present (take (Z.to_nat m) (drop (Z.to_nat k) bs)).
Proof.
  unfold FieldLoadFacts.piece. intros -> Ho Hn Hm Hk Hkm. rewrite (proj2 (Z.eqb_neq n 1)), (proj2 (Z.eqb_neq m 1)), !andb_false_r by lia. cbv zeta.
  pose proof (Hstart l) as Hs. destruct (runtime a).
  - pose proof (u64_range (start l + off)) as Hu. unfold in_u64, two64 in Hu. unfold bound, ScratchBufSize. destruct (Z.leb_spec (u64 (start l + off) + n) (Z.min (len P) 512)) as [Hle|]; [|discriminate]. intros [= <-].
    assert (Eu : u64 (start l + (off + k)) = u64 (start l + off) + k).
    { replace (start l + (off + k)) with (start l + off + k) by lia. unfold u64 at 1. rewrite <- Zplus_mod_idemp_l. fold (u64 (start l + off)). apply Z.mod_small. unfold two64. lia. }
    rewrite Eu, (proj2 (Z.leb_le _ _)) by lia. f_equal. rewrite <- (window_sub _ _ (Z.to_nat k)) by lia. now rewrite Z2Nat.id.
  - destruct (Z.leb_spec (start l + off + n) (len P)) as [Hle|]; [|discriminate]. intros [= <-].
    rewrite (proj2 (Z.leb_le _ _)) by lia. f_equal. rewrite <- (window_sub _ _ (Z.to_nat k)) by lia. rewrite Z2Nat.id by lia. f_equal. lia.
Qed.

(** Two parts read one after the other. *)
Lemma two_pieces l a off n k f g : layerAnchorFor l = Ok a -> 0 <= off -> 1 < k -> 1 < n - k ->
  approx (sbind (piece l off n) (fun bs => test (f (take (Z.to_nat k) bs) && g (drop (Z.to_nat k) bs))))
         (andv (sbind (piece l off k) (fun bs => test (f bs))) (sbind (piece l (off + k) (n - k)) (fun bs => test (g bs)))).
Proof.
  intros El Ho Hk Hn. destruct (piece l off n) as [bs| |] eqn:Ep; [|now apply (piece_read l a) in Ep|now left]. right.
  destruct (piece_sound l a off n bs El Ho ltac:(lia) Ep) as [_ Hl].
  pose proof (piece_sub l a off n 0 k bs El Ho ltac:(lia) ltac:(lia) ltac:(lia) ltac:(lia) Ep) as E1. rewrite Z.add_0_r in E1. cbn [Z.to_nat drop] in E1.
  rewrite E1, (piece_sub l a off n k (n - k) bs El Ho) by (try lia; exact Ep). rewrite (take_ge (drop (Z.to_nat k) bs)) by (rewrite length_drop; unfold len in Hl; lia).
  cbn [sbind]. destruct (f _); cbn [test andv sbind andb]; reflexivity.
Qed.

Lemma one_piece l a off n k f : layerAnchorFor l = Ok a -> 0 <= off -> 1 < k -> k <= n ->
  approx (sbind (piece l off n) (fun bs => test (f (take (Z.to_nat k) bs)))) (sbind (piece l off k) (fun bs => test (f bs))).
Proof.
  intros El Ho Hk Hn. destruct (piece l off n) as [bs| |] eqn:Ep; [|now apply (piece_read l a) in Ep|now left]. right.
  pose proof (piece_sub l a off n 0 k bs El Ho ltac:(lia) ltac:(lia) ltac:(lia) ltac:(lia) Ep) as E1. rewrite Z.add_0_r in E1. now rewrite E1.
Qed.

(** ** Code that settles a verdict *)

Definition settles (code : list Instruction) (fail : bytes) (v : verdict) : Prop :=
  unlabelled code /\ forall s, site s -> ends (upto no_slots s) code None fail s v.

Lemma settles_seq a b fail va vb : settles a fail va -> settles b fail vb -> has_text fail = true -> settles (a ++ b) fail (andv va vb).
Proof.
  intros [Ua Ha] [Ub Hb] Hf. split; [unfold unlabelled; rewrite Forall_app; now split|]. intros s Hs. eapply ends_seq; [now apply Ha| | | |auto].
  - intros _ t U. eapply ends_weaken; [|now apply Hb, (site_none _ _ _ _ _ _ _ s)]. intros u. now apply (upto_trans _ s t).
  - now apply unlabelled_notin.
  - now apply unlabelled_notin.
Qed.

(** What a load of [size] leaves in R3. *)
Definition read_in (size : Size_) (bs : list Z) (t : st) : Prop :=
  getr R3 t = Some (Num (unle bs)) /\ Z.of_nat (length bs) = Sizeof size /\ Forall byte bs.

(** A load and a comparison of what it read. *)
Lemma settles_chunk size ld fail p μ mcode r k h op :
  unlabelled ld -> (forall s, site s -> runs (upto no_slots s) (read_in size) ld fail s p) ->
  masks (Z.to_nat (Sizeof size)) μ mcode -> r = R2 \/ r = R5 -> u64 k = to_be (Z.to_nat (Sizeof size)) h -> 0 <= h < 256 ^ Sizeof size -> size_bytes size ->
  is_Some (ipEqualityJumpOp op) -> has_text fail = true ->
  settles (ld ++ compare_tail mcode r k (rejectingJumpOp op) fail) fail (sbind p (fun bs => test (cmpZ op (μ (be bs)) h))).
Proof.
  intros Ul Hl Hm Hr Hk Hh Hsz Hop Hf. pose proof (compare_unlabelled _ _ _ r k (rejectingJumpOp op) fail Hm) as Uc.
  split; [unfold unlabelled; rewrite Forall_app; now split|]. intros s Hs. apply ends_runs.
  eapply runs_app; [now apply Hl| |auto|now apply unlabelled_notin|now apply unlabelled_notin].
  intros bs t _ U (G & Hn & Hb). apply ends_runs. eapply ends_weaken; [intros u; now apply (upto_trans _ s t)|].
  eapply (compare_ends (Z.to_nat (Sizeof size))); eauto; [rewrite size_nat by exact Hsz; exact Hh|lia].
Qed.

Lemma field_read l a off size fail s :
  layerAnchorFor l = Ok a -> site s -> size_bytes size -> 0 <= off < 2 ^ 29 ->
  runs (upto no_slots s) (read_in size) (emitFieldLoad a off size) fail s (piece l off (Sizeof size)).
Proof.
  intros El Hs Hsz Ho. pose proof (piece_runs fd key base P start wb opt HPb Hwb R3 l a off size fail s El Hs ltac:(unfold scratch_reg; auto) Hsz Ho) as Hr.
  eapply runs_weaken; [| |exact Hr]; [intros t O; apply (only_upto no_slots R3); [unfold scratch_reg; auto|exact O]|].
  intros bs t _ (-> & Hn & Hb). split; [apply getr_same; discriminate|now split].
Qed.

(** A word of the field against the literal's, for [==] and [!=]. *)
Lemma settles_word l a off size fail h op :
  layerAnchorFor l = Ok a -> size_bytes size -> 0 <= off < 2 ^ 29 -> 0 <= h < 256 ^ Sizeof size -> is_Some (ipEqualityJumpOp op) -> has_text fail = true ->
  settles (emitFieldLoad a off size ++ cmpRegEqU32 (rejectingJumpOp op) (to_be (Z.to_nat (Sizeof size)) h) fail) fail
    (sbind (piece l off (Sizeof size)) (fun bs => test (cmpZ op (be bs) h))).
Proof.
  intros El Hsz Ho Hh Hop Hf. apply (settles_chunk size _ fail _ id [] R5 _ h op); auto.
  - apply field_load_unlabelled.
  - intros s Hs. now apply field_read.
  - apply masks_none.
  - apply u64_of_int64, to_be_u64. destruct Hsz as [->|[->|[->| ->]]]; cbv; lia.
Qed.

Lemma settles_half l a off mask h fail :
  layerAnchorFor l = Ok a -> 0 <= off < 2 ^ 29 -> 0 <= h < 2 ^ 64 -> has_text fail = true ->
  settles (whereIPv6HalfCheck a off mask h fail) fail (sbind (piece l off 8) (fun bs => test (Z.land (be bs) mask =? h))).
Proof.
  intros El Ho Hh Hf. unfold whereIPv6HalfCheck. fold (half_mask mask).
  apply (settles_chunk DWord _ fail _ (fun z => Z.land z mask) (half_mask mask) R5 _ h CmpEq); auto.
  - apply field_load_unlabelled.
  - intros s Hs. apply (field_read _ _ _ DWord); auto. apply dword.
  - apply masks_half.
  - rewrite byteSwap_to_be by lia. now apply u64_of_int64, to_be_u64.
  - apply dword.
Qed.

(** ** Comparisons *)

(** The code numbers its labels and ends as [v] says. *)
Definition compares (n n' : Z) (code : list Instruction) (fail : bytes) (v : verdict) : Prop :=
  grows n n' code /\ exists r, approx v r /\ forall s, site s -> is_Some (getr R3 s) -> ends (upto no_slots s) code None fail s r.

Lemma compares_settled n code fail v r : settles code fail r -> approx v r -> compares n n code fail v.
Proof. intros [Hu He] Ha. split; [now apply grows_plain, unlabelled_plain|]. exists r. auto. Qed.

Lemma compares_after pre n n' code fail g v : settles pre fail g -> compares n n' code fail v -> target n fail -> compares n n' (pre ++ code) fail (andv g v).
Proof.
  intros [Up Hp] [[Hn Ho] (r & Ha & He)] Ht. split; [apply grows_plain_app; [now apply unlabelled_plain|now split]|]. exists (andv g r).
  split; [now apply approx_bind|]. intros s Hs Hr. eapply ends_seq; [now apply Hp| | | |auto].
  - intros _ t U. eapply ends_weaken; [intros u; now apply (upto_trans _ s t)|]. apply He; [now apply (site_none _ _ _ _ _ _ _ s)|exact (up_set _ _ _ U Hr)].
  - eapply owned_target; eauto.
  - eapply owned_target; [eauto|apply target_reject].
Qed.

Lemma compares_route op fail body n code n' r v :
  whereMultiWordRoute op fail body n = Ok (code, n') -> is_Some (ipEqualityJumpOp op) -> 0 <= n -> target n fail ->
  (forall label, has_text label = true -> settles (body label) label r) -> approx v (op_verdict op r) -> compares n n' code fail v.
Proof.
  intros E [j Hop] Hn Ht Hb Ha. unfold whereMultiWordRoute in E. destruct op; try discriminate.
  - apply gret_ok in E as [-> ->]. apply (compares_settled _ _ _ _ r); [apply Hb; now apply (target_text n)|exact Ha].
  - apply gbind_ok in E as (label & m & El & E). apply gret_ok in E as [-> ->]. apply freshLabel_ok in El as [El ->]; [|apply list_elem_of_In; cbn; tauto|exact Hn].
    pose proof (numbered_text _ _ El) as Hx. destruct (Hb label Hx) as [Ub He]. split.
    + split; [lia|]. apply owned_app; [now apply plain_owned, unlabelled_plain|]. apply owned_cons; [reflexivity|]. eapply owned_landing; [exact El|lia|apply owned_nil].
    + exists (notv r). split; [exact Ha|]. intros s Hs Hr. apply ends_not; [now apply He|exact Hr|exact Hx|now apply (target_text n)| |].
      * intros <-. destruct Ht as [-> | (k & Hk & ?)]; [now apply numbered_not_reject in El|]. pose proof (numbered_unique _ _ _ El Hk). lia.
      * intros ->. now apply numbered_not_reject in El.
Qed.

(** ** Where the bytes are *)

Lemma exact_slice ref off n off' n' :
  applyExactSlice ref off n = Ok (off', n') -> origin ref mod 8 = 0 -> ref_ok ref -> n = field_bits ref / 8 ->
  n' = EffectiveBits ref / 8 /\ off' = off + (first_bit ref - origin ref) / 8 /\ 0 <= off' - off < 2 ^ 20.
Proof.
  unfold applyExactSlice, first_bit. intros E Ho (_ & Hb & _ & Hsl & _) ->. destruct (Slice ref) as [s|] eqn:Es.
  - unfold sliceBits in E. rewrite intra_origin, Ho, !Z.add_0_r in E. case_if E; [discriminate|]. injection E as <- <-.
    rewrite (EffectiveBits_slice ref s Es). replace (origin ref + Lo s - origin ref) with (Lo s) by lia. split; [reflexivity|]. split; [reflexivity|].
    assert (0 <= Lo s / 8 <= Lo s) by (split; [apply Z.div_pos; lia|apply Z.div_le_upper_bound; lia]). lia.
  - injection E as <- <-. rewrite (EffectiveBits_bare ref Es). replace (origin ref + 0 - origin ref) with 0 by lia. rewrite Z.div_0_l by easy. split; [reflexivity|lia].
Qed.

Lemma literal_window ref off n :
  literalFieldWindow ref = Ok (off, n) -> ref_ok ref -> dynamicAuxLayoutOf ref = false ->
  off = header_at ref + first_bit ref / 8 /\ n = EffectiveBits ref / 8 /\ 0 <= off < 2 ^ 29 - 16.
Proof.
  unfold literalFieldWindow. intros E Hok Hd. apply result_bind_ok in E as ([o b] & Eu & E). pose proof Hok as (Hk & _).
  pose proof (origin_small ref Hk) as Hos. assert (Hh : o = header_at ref + origin ref / 8 /\ b = field_bits ref / 8 /\ origin ref mod 8 = 0 /\ 0 <= o < 2 ^ 22).
  { unfold unslicedLiteralFieldOffset, header_at, origin, field_bits, field_known, small in *. rewrite Hd.
    assert (Hq : forall z, 0 <= z < 2 ^ 20 -> 0 <= z / 8 < 2 ^ 20) by (intros z Hz; split; [apply Z.div_pos; lia|apply Z.div_lt_upper_bound; lia]).
    destruct (Aux ref) as [aux|] eqn:Ea.
    - case_if Eu; [discriminate|]. bools. destruct (RefField ref); [|easy]. destruct (Spec (RefLayer ref)); [|easy]. destruct Hk as (Ho & Hf & _ & _ & Hst). unfold small in *.
      specialize (Hq _ Hf). destruct (Ir.Stack aux) as [ix|].
      + case_if Eu; [discriminate|]. injection Eu as <- <-. bools. destruct (Hst ix eq_refl) as [? _]; [assumption|]. repeat split; try assumption; lia.
      + injection Eu as <- <-. repeat split; try assumption; lia.
    - destruct (primary ref) as [[g spec]|] eqn:Ep; [|discriminate]. unfold primary in Ep. destruct (RefField ref) as [x|]; [|easy]. destruct (Spec (RefLayer ref)); [|easy]. injection Ep as -> ->.
      destruct Hk as (fo & Hs & Hb). unfold findFieldBitOffset in Eu. rewrite Hb in *. cbn [result_bind from_option fst] in *. case_if Eu; [discriminate|]. injection Eu as <- <-. bools.
      specialize (Hq _ Hs). repeat split; try assumption; lia. }
  destruct Hh as (-> & Hb & Hm & Hr). destruct (exact_slice ref _ b off n E Hm Hok Hb) as (-> & -> & Hrange). split; [|split; [reflexivity|lia]].
  rewrite <- Z.add_assoc. f_equal. unfold first_bit. replace (origin ref + _ - origin ref) with (match Slice ref with Some s => Lo s | None => 0 end) by lia.
  pose proof (Z.div_mod (origin ref) 8 ltac:(lia)) as Hdm. rewrite Hm, Z.add_0_r in Hdm. rewrite Hdm at 2. rewrite Z.mul_comm, Z.div_add_l by lia. reflexivity.
Qed.

(** ** The arms at a constant offset *)

Lemma sbind_ext_present {A C} (a : seen A) (f g : A -> seen C) : (forall x, a = Present x -> f x = g x) -> sbind a f = sbind a g.
Proof. intros Hf. destruct a; cbn; auto. Qed.

Lemma swap32_to_be z : swap32 z = to_be 4 z.
Proof. unfold swap32. rewrite byteSwap_to_be by lia. apply u32_small. apply (to_be_range 4). Qed.

Lemma approx_op op a b : approx a b -> approx (op_verdict op a) (op_verdict op b).
Proof. intros Ha. destruct op; cbn; auto using approx_not. Qed.

Section Arms.
Context (l : LayerInstance) (a : layerAnchor) (off : Z) (op : CmpOp).
Hypothesis El : layerAnchorFor l = Ok a.
Hypothesis Ho : 0 <= off < 2 ^ 29 - 16.
Hypothesis Hop : is_Some (ipEqualityJumpOp op).

(** A verdict of [op] on a piece, from one of [==] read in parts. *)
Lemma op_approx {n k} {f : list Z -> Z} {r} : 0 < n -> approx (sbind (piece l off n) (fun bs => test (f bs =? k))) r ->
  approx (sbind (piece l off n) (fun bs => test (cmpZ op (f bs) k))) (op_verdict op r).
Proof. intros Hn Ha. rewrite <- (op_verdict_cmp op (piece l off n) f k Hop) by now apply (piece_read l a). now apply approx_op. Qed.

Lemma whole_word v4 n fail : Forall byte v4 -> len v4 = 4 -> has_text fail = true ->
  compares n n (emitFieldLoad a off Word ++ cmpRegEqU32 (rejectingJumpOp op) (swap32 (BigEndian v4)) fail) fail
    (sbind (piece l off 4) (fun bs => test (cmpZ op (be bs) (be v4)))).
Proof.
  intros Hb Hl Hf. rewrite swap32_to_be. pose proof (be_range v4 Hb) as Hr. rewrite Hl in Hr. eapply compares_settled; [|reflexivity].
  exact (settles_word l a off Word fail (be v4) op El ltac:(unfold size_bytes; auto) ltac:(lia) Hr Hop Hf).
Qed.

Lemma masked_word v4 p n fail code n' : Forall byte v4 -> len v4 = 4 -> 0 < p <= 32 -> 0 <= n -> target n fail ->
  whereMultiWordRoute op fail (fun fail => emitFieldLoad a off Word ++ [Imm And R3 (i32 (swap32 (u32 (Z.shiftl 0xFFFFFFFF (32 - p)))))]
    ++ cmpRegEqU32 JNE (swap32 (Z.land (BigEndian v4) (u32 (Z.shiftl 0xFFFFFFFF (32 - p))))) fail) n = Ok (code, n') ->
  compares n n' code fail (sbind (piece l off 4) (fun bs => test (cmpZ op (be bs / 2 ^ (32 - p)) (be v4 / 2 ^ (32 - p))))).
Proof.
  intros Hb Hl Hp Hn Ht E. rewrite mask32 in E by exact Hp. change (BigEndian v4) with (be v4) in E. rewrite !swap32_to_be in E. set (m := 2 ^ 32 - 2 ^ (32 - p)) in *.
  pose proof (be_range v4 Hb) as Hr. rewrite Hl in Hr. change (256 ^ 4) with (2 ^ 32) in Hr.
  eapply (compares_route _ _ _ _ _ _ (sbind (piece l off 4) (fun bs => test (Z.land (be bs) m =? Z.land (be v4) m)))); [exact E|exact Hop|exact Hn|exact Ht| |].
  - intros label Hx. apply (settles_chunk Word _ label _ (fun z => Z.land z m) [Imm And R3 (i32 (to_be 4 m))] R5 _ (Z.land (be v4) m) CmpEq); auto.
    + apply field_load_unlabelled.
    + intros s Hs. apply (field_read l a off Word); auto; [unfold size_bytes; auto|lia].
    + apply masks_word.
    + apply u64_of_int64, (to_be_u64 4). lia.
    + change (256 ^ Sizeof Word) with (2 ^ 32). now apply land_range.
    + unfold size_bytes; auto.
  - apply op_approx; [lia|]. right. apply sbind_ext_present. intros bs Ep. f_equal.
    destruct (piece_sound l a off 4 bs El ltac:(lia) ltac:(lia) Ep) as [Hbs Hlen]. pose proof (be_range bs Hbs) as Hrb. rewrite Hlen in Hrb.
    symmetry. apply prefix_eqb; [lia|exact Hrb|exact Hr].
Qed.

(** [==] of a number in two parts. *)
Definition in_two (k n : Z) (f1 f2 : list Z -> bool) : verdict :=
  andv (sbind (piece l off k) (fun bs => test (f1 bs))) (sbind (piece l (off + k) (n - k)) (fun bs => test (f2 bs))).

Lemma two_words n k lit f1 f2 : Forall byte lit -> len lit = n -> 1 < k -> 1 < n - k ->
  (forall bs, Forall byte bs -> len bs = k -> f1 bs = (be bs =? be (take (Z.to_nat k) lit))) ->
  (forall bs, Forall byte bs -> len bs = n - k -> f2 bs = (be bs =? be (drop (Z.to_nat k) lit))) ->
  approx (sbind (piece l off n) (fun bs => test (be bs =? be lit))) (in_two k n f1 f2).
Proof.
  intros Hlit Hl Hk Hn E1 E2. transitivity (sbind (piece l off n) (fun bs => test (f1 (take (Z.to_nat k) bs) && f2 (drop (Z.to_nat k) bs)))); [|apply (two_pieces l a); auto; lia].
  right. apply sbind_ext_present. intros bs Ep. f_equal.
  destruct (piece_sound l a off n bs El ltac:(lia) ltac:(lia) Ep) as [Hb Hlen]. rewrite E1, E2.
  - apply be_eqb; [exact Hb|exact Hlit|congruence].
  - now apply Forall_drop.
  - unfold len in *. rewrite length_drop. lia.
  - now apply Forall_take.
  - unfold len in *. rewrite length_take. lia.
Qed.

Lemma take_range k lit : Forall byte lit -> (k <= length lit)%nat -> 0 <= be (take k lit) < 256 ^ Z.of_nat k.
Proof. intros Hb Hk. pose proof (be_range (take k lit) (Forall_take _ _ _ Hb)) as Hr. unfold len in Hr. now rewrite length_take_le in Hr. Qed.

Lemma mac_words mac n fail code n' : Forall byte mac -> len mac = 6 -> 0 <= n -> target n fail ->
  whereMultiWordRoute op fail (macWords a off mac) n = Ok (code, n') ->
  compares n n' code fail (sbind (piece l off 6) (fun bs => test (cmpZ op (be bs) (be mac)))).
Proof.
  intros Hb Hl Hn Ht E. set (hi := be (take 4 mac)). set (lo := be (drop 4 mac)).
  assert (Hhi : 0 <= hi < 256 ^ 4) by (apply (take_range 4); [exact Hb|unfold len in Hl; lia]).
  assert (Hlo : 0 <= lo < 256 ^ 2) by (pose proof (be_range (drop 4 mac) (Forall_drop _ _ _ Hb)) as Hr; unfold len in Hr; rewrite length_drop in Hr; unfold len in Hl; now replace (Z.of_nat (length mac - 4)) with 2 in Hr by lia).
  eapply (compares_route _ _ _ _ _ _ (in_two 4 6 (fun bs => be bs =? hi) (fun bs => be bs =? lo))); [exact E|exact Hop|exact Hn|exact Ht| |].
  - intros label Hx. unfold macWords, macLiteralLE. rewrite byteSwap_to_be, byteSwap_to_be, app_assoc by lia. apply settles_seq; [| |exact Hx].
    + rewrite u32_small by apply (to_be_range 4). exact (settles_word l a off Word label hi CmpEq El ltac:(unfold size_bytes; auto) ltac:(lia) Hhi ltac:(now exists JNE) Hx).
    + assert (E16 : forall z, u16 (to_be 2 z) = to_be 2 z) by (intros z; apply Z.mod_small, (to_be_range 2)).
      rewrite E16. exact (settles_word l a (off + 4) Half label lo CmpEq El ltac:(unfold size_bytes; auto) ltac:(lia) Hlo ltac:(now exists JNE) Hx).
  - apply op_approx; [lia|]. apply two_words; auto; lia.
Qed.

Lemma half_ones bs h : Forall byte bs -> len bs = 8 -> (Z.land (be bs) ones64 =? h) = (be bs =? h).
Proof.
  intros Hb Hl. f_equal. change ones64 with (Z.ones 64). rewrite Z.land_ones by lia. apply Z.mod_small. pose proof (be_range bs Hb) as Hr. now rewrite Hl in Hr.
Qed.

(** The two halves of an address. *)
Definition hi64 (v6 : list Z) : Z := be (take 8 v6).
Definition lo64 (v6 : list Z) : Z := be (drop 8 v6).

Lemma halves_range v6 : Forall byte v6 -> len v6 = 16 -> 0 <= hi64 v6 < 2 ^ 64 /\ 0 <= lo64 v6 < 2 ^ 64.
Proof.
  intros Hb Hl. split; [apply (take_range 8); [exact Hb|unfold len in Hl; lia]|].
  pose proof (be_range (drop 8 v6) (Forall_drop _ _ _ Hb)) as Hr. unfold len in *. rewrite length_drop in Hr. now replace (Z.of_nat (length v6 - 8)) with 8 in Hr by lia.
Qed.

Lemma whole_v6 v6 n fail code n' : Forall byte v6 -> len v6 = 16 -> 0 <= n -> target n fail ->
  whereMultiWordRoute op fail (fun fail => whereIPv6HalfCheck a off ones64 (BigEndian (first_bytes 8 v6)) fail
    ++ whereIPv6HalfCheck a (off + 8) ones64 (BigEndian (bytes_from 8 v6)) fail) n = Ok (code, n') ->
  compares n n' code fail (sbind (piece l off 16) (fun bs => test (cmpZ op (be bs) (be v6)))).
Proof.
  intros Hb Hl Hn Ht E. destruct (halves_range v6 Hb Hl) as [Hhi Hlo].
  eapply (compares_route _ _ _ _ _ _ (in_two 8 16 (fun bs => Z.land (be bs) ones64 =? hi64 v6) (fun bs => Z.land (be bs) ones64 =? lo64 v6))); [exact E|exact Hop|exact Hn|exact Ht| |].
  - intros label Hx. apply settles_seq; [| |exact Hx].
    + apply settles_half; auto. lia.
    + apply settles_half; auto. lia.
  - apply op_approx; [lia|]. apply two_words; auto; try lia; intros bs Hbs Hlen; now apply half_ones.
Qed.

Lemma masked_v6 v6 p n fail code n' : Forall byte v6 -> len v6 = 16 -> 0 < p <= 128 -> 0 <= n -> target n fail ->
  whereMultiWordRoute op fail (fun fail => halves (fun delta mask host => whereIPv6HalfCheck a (off + delta) mask host fail) (ipv6PrefixMaskBE p) v6) n = Ok (code, n') ->
  compares n n' code fail (sbind (piece l off 16) (fun bs => test (cmpZ op (be bs / 2 ^ (128 - p)) (be v6 / 2 ^ (128 - p))))).
Proof.
  intros Hb Hl Hp Hn Ht E. destruct (halves_range v6 Hb Hl) as [Hhi Hlo]. destruct (be_parts 8 v6 Hb) as [Ev _].
  assert (Ed : forall bs, len bs = 16 -> len (drop 8 bs) = 8) by (intros bs; unfold len; rewrite length_drop; lia). rewrite (Ed v6 Hl) in Ev. change (256 ^ 8) with (2 ^ 64) in Ev. fold (hi64 v6) (lo64 v6) in Ev.
  unfold ipv6PrefixMaskBE in E. rewrite (proj2 (Z.leb_gt p 0)) in E by lia.
  destruct (Z.leb_spec p 64) as [Hle|Hgt].
  - rewrite (proj2 (Z.leb_gt 128 p)) in E by lia. rewrite mask64 in E by lia. set (m := 2 ^ 64 - 2 ^ (64 - p)) in *.
    assert (Hm : 0 < m) by (unfold m; pose proof (Z.pow_lt_mono_r 2 (64 - p) 64); lia).
    eapply (compares_route _ _ _ _ _ _ (sbind (piece l off 8) (fun bs => test (Z.land (be bs) m =? Z.land (hi64 v6) m)))); [exact E|exact Hop|exact Hn|exact Ht| |].
    + intros label Hx. unfold halves. rewrite (proj2 (Z.eqb_neq m 0)) by lia. cbn [negb Z.eqb]. rewrite app_nil_r, Z.add_0_r.
      apply settles_half; auto; [lia|]. now apply land_range.
    + apply op_approx; [lia|]. transitivity (sbind (piece l off 16) (fun bs => test (Z.land (be (take (Z.to_nat 8) bs)) m =? Z.land (hi64 v6) m))); [|apply (one_piece l a _ _ _ (fun bs => Z.land (be bs) m =? _)); auto; lia].
      right. apply sbind_ext_present. intros bs Ep. f_equal. destruct (piece_sound l a off 16 bs El ltac:(lia) ltac:(lia) Ep) as [Hbs Hlen].
      destruct (be_parts 8 bs Hbs) as [-> Hr]. rewrite (Ed bs Hlen) in *. change (256 ^ 8) with (2 ^ 64) in *. rewrite Ev, !prefix_high by lia. symmetry.
      apply prefix_eqb; [lia| |exact Hhi]. exact (proj1 (halves_range bs Hbs Hlen)).
  - assert (Em : (if 128 <=? p then (ones64, ones64) else (ones64, u64 (Z.shiftl ones64 (128 - p)))) = (ones64, 2 ^ 64 - 2 ^ (128 - p))).
    { destruct (Z.leb_spec 128 p); [now replace (128 - p) with 0 by lia|]. do 2 f_equal. replace (128 - p) with (64 - (p - 64)) by lia. apply mask64. lia. }
    rewrite Em in E. set (k := 128 - p) in *. set (m := 2 ^ 64 - 2 ^ k) in *.
    assert (Hm : 0 < m) by (unfold m; pose proof (Z.pow_lt_mono_r 2 k 64); lia).
    eapply (compares_route _ _ _ _ _ _ (in_two 8 16 (fun bs => Z.land (be bs) ones64 =? hi64 v6) (fun bs => Z.land (be bs) m =? Z.land (lo64 v6) m))); [exact E|exact Hop|exact Hn|exact Ht| |].
    + intros label Hx. unfold halves. rewrite (proj2 (Z.eqb_neq m 0)) by lia. change (negb (ones64 =? 0)) with true. cbn [negb]. rewrite Z.add_0_r.
      assert (Eh : Z.land (BigEndian (first_bytes 8 v6)) ones64 = hi64 v6) by (change ones64 with (Z.ones 64); rewrite Z.land_ones by lia; now apply Z.mod_small). rewrite Eh.
      apply settles_seq; [| |exact Hx]; apply settles_half; auto; try lia. now apply land_range.
    + apply op_approx; [lia|]. transitivity (sbind (piece l off 16) (fun bs => test ((Z.land (be (take (Z.to_nat 8) bs)) ones64 =? hi64 v6) && (Z.land (be (drop (Z.to_nat 8) bs)) m =? Z.land (lo64 v6) m))));
        [|apply (two_pieces l a off 16 8 (fun bs => Z.land (be bs) ones64 =? _) (fun bs => Z.land (be bs) m =? _)); auto; lia].
      right. apply sbind_ext_present. intros bs Ep. f_equal. destruct (piece_sound l a off 16 bs El ltac:(lia) ltac:(lia) Ep) as [Hbs Hlen].
      destruct (halves_range bs Hbs Hlen) as [_ Hr]. destruct (be_parts 8 bs Hbs) as [-> _]. rewrite (Ed bs Hlen), Ev. change (256 ^ 8) with (2 ^ 64). unfold k. change (Z.to_nat 8) with 8%nat.
      rewrite prefix_low by (try assumption; lia). f_equal; [symmetry; apply half_ones; [now apply Forall_take|unfold len in *; rewrite length_take; lia]|].
      symmetry. apply prefix_eqb; [lia|exact Hr|exact Hlo].
Qed.

End Arms.

(** ** The arms together *)

Lemma settles_gate f a fail : layerAnchorFor (RefLayer f) = Ok a -> has_text fail = true -> ref_ok f ->
  settles (emitAuxGating (Aux f ≫= Gating) a fail) fail (gate_verdict f).
Proof.
  intros El Hf Hok. split; [apply gating_unlabelled|]. intros s Hs. apply ends_runs.
  now apply (gating_runs fd key base P start wb opt HPb Hwb f a fail s El Hs Hf), gating_known.
Qed.

Lemma matches_bytes f op v : sliceNeedsScalarLoad f = false -> dynamicAuxLayoutOf f = false ->
  literal_matches f op v = andv (gate_verdict f) (sbind (piece (RefLayer f) (header_at f + first_bit f / 8) (EffectiveBits f / 8)) (fun bs => test (literal_holds op (be bs) v))).
Proof. unfold literal_matches, field_number, field_bytes. intros -> ->. now rewrite !sbind_sbind. Qed.

(** The network arms have the gate's code left out; there is none. *)
Lemma no_gate f v : Aux f ≫= Gating = None -> andv (gate_verdict f) v = v.
Proof. unfold FieldLoadFacts.gate_verdict. now intros ->. Qed.

(** Every number is in a [/0] network. *)
Definition every_verdict (op : CmpOp) : verdict := match op with CmpEq => Present tt | _ => Missing end.

Lemma every_ends op fail t : has_text fail = true -> ends (upto no_slots t) (everyAddress op fail) None fail t (every_verdict op).
Proof.
  intros Hf. assert (Hfail : ends (upto no_slots t) (constantFail fail) None fail t Missing).
  { exists (setr R3 (Num (u64 0)) t). split; [|apply upto_setr; auto]. unfold constantFail. rewrite exec_Mov_Imm by discriminate.
    erewrite exec_JImm; [|apply getr_same; discriminate|reflexivity|exact Hf]. reflexivity. }
  destruct op; try exact Hfail. exists t. split; [reflexivity|apply upto_refl].
Qed.

Lemma every_unlabelled op fail : unlabelled (everyAddress op fail).
Proof. destruct op; unlab. Qed.

Lemma every_test w op x y : is_Some (ipEqualityJumpOp op) -> 0 <= x < 2 ^ w -> 0 <= y < 2 ^ w -> test (cmpZ op (x / 2 ^ (w - 0)) (y / 2 ^ (w - 0))) = every_verdict op.
Proof. intros [j E] Hx Hy. rewrite !Z.sub_0_r, !Z.div_small by assumption. now destruct op. Qed.

Lemma every_compares l a off op w v fail n : layerAnchorFor l = Ok a -> 0 <= off -> is_Some (ipEqualityJumpOp op) -> 0 < w -> Forall byte v -> len v = w -> has_text fail = true ->
  compares n n (everyAddress op fail) fail (sbind (piece l off w) (fun bs => test (cmpZ op (be bs / 2 ^ (8 * w - 0)) (be v / 2 ^ (8 * w - 0))))).
Proof.
  intros El Ho Hop Hw Hb Hl Hf. apply (compares_settled _ _ _ _ (every_verdict op)).
  - split; [apply every_unlabelled|]. intros s _. now apply every_ends.
  - assert (Hr : forall bs, Forall byte bs -> len bs = w -> 0 <= be bs < 2 ^ (8 * w)) by (intros bs Hbs <-; rewrite Z.pow_mul_r by (unfold len; lia); now apply be_range).
    destruct (piece l off w) as [bs| |] eqn:Ep; [|now apply (piece_read l a) in Ep|now left]. right. cbn [sbind].
    destruct (piece_sound l a off w bs El Ho Hw Ep) as [Hbs Hlen]. now apply every_test; auto.
Qed.

Lemma cidr4_compares f op v4 p a off fail j n code n' :
  genIPv4CIDRCompare f op v4 p a off 4 fail j n = Ok (code, n') -> layerAnchorFor (RefLayer f) = Ok a -> 0 <= off < 2 ^ 29 - 16 -> ipEqualityJumpOp op = Some j ->
  Forall byte v4 -> len v4 = 4 -> 0 <= p <= 32 -> 0 <= n -> target n fail ->
  compares n n' code fail (sbind (piece (RefLayer f) off 4) (fun bs => test (cmpZ op (be bs / 2 ^ (32 - p)) (be v4 / 2 ^ (32 - p))))).
Proof.
  intros E El Ho Hj Hb Hl Hp Hn Ht. assert (Hop : is_Some (ipEqualityJumpOp op)) by now exists j.
  assert (Ej : j = rejectingJumpOp op) by (destruct op; try discriminate; now injection Hj). subst j.
  unfold genIPv4CIDRCompare in E. change (negb (4 =? 4)) with false in E. cbv iota in E. rewrite (proj2 (Z.ltb_ge p 0)), (proj2 (Z.ltb_ge 32 p)) in E by lia. cbn [orb] in E.
  destruct (Z.eqb_spec p 32) as [->|H32].
  - apply gret_ok in E as [-> ->]. change (32 - 32) with 0. change (2 ^ 0) with 1.
    replace (sbind _ _) with (sbind (piece (RefLayer f) off 4) (fun bs => test (cmpZ op (be bs) (be v4)))) by (apply sbind_ext_present; intros bs _; now rewrite !Z.div_1_r).
    apply whole_word; auto. now apply (target_text n).
  - destruct (Z.eqb_spec p 0) as [->|H0]; [apply gret_ok in E as [-> ->]; apply (every_compares _ a off op 4 v4); auto; [lia..|now apply (target_text n)]|].
    eapply masked_word; eauto. lia.
Qed.

Lemma cidr6_compares f op v6 p a off fail n code n' :
  genIPv6CIDRCompare f op v6 p a off 16 fail n = Ok (code, n') -> layerAnchorFor (RefLayer f) = Ok a -> 0 <= off < 2 ^ 29 - 16 -> is_Some (ipEqualityJumpOp op) ->
  Forall byte v6 -> len v6 = 16 -> 0 <= p <= 128 -> 0 <= n -> target n fail ->
  compares n n' code fail (sbind (piece (RefLayer f) off 16) (fun bs => test (cmpZ op (be bs / 2 ^ (128 - p)) (be v6 / 2 ^ (128 - p))))).
Proof.
  intros E El Ho Hop Hb Hl Hp Hn Ht. unfold genIPv6CIDRCompare in E. change (negb (16 =? 16)) with false in E. cbv iota in E.
  rewrite (proj2 (Z.ltb_ge p 0)), (proj2 (Z.ltb_ge 128 p)) in E by lia. cbn [orb] in E. destruct (Z.eqb_spec p 128) as [->|H128].
  - change (128 - 128) with 0. change (2 ^ 0) with 1.
    replace (sbind _ _) with (sbind (piece (RefLayer f) off 16) (fun bs => test (cmpZ op (be bs) (be v6)))) by (apply sbind_ext_present; intros bs _; now rewrite !Z.div_1_r).
    eapply whole_v6; eauto.
  - destruct (Z.eqb_spec p 0) as [->|H0]; [apply gret_ok in E as [-> ->]; apply (every_compares _ a off op 16 v6); auto; [lia..|now apply (target_text n)]|].
    eapply masked_v6; eauto. lia.
Qed.

(** A field at a constant offset. *)
Lemma static_compares f op v a off w fail j n code n' :
  literal_known f v -> sliceNeedsScalarLoad f = false -> dynamicAuxLayoutOf f = false -> layerAnchorFor (RefLayer f) = Ok a -> literalFieldWindow f = Ok (off, w) ->
  ipEqualityJumpOp op = Some j -> 0 <= n -> target n fail ->
  match Val v with
  | ValIPv4 b => code = emitAuxGating (Aux f ≫= Gating) a fail ++ emitFieldLoad a off Word ++ cmpRegEqU32 j (swap32 (BigEndian b)) fail /\ n' = n
  | ValMAC b => exists c, whereMultiWordRoute op fail (macWords a off b) n = Ok (c, n') /\ code = emitAuxGating (Aux f ≫= Gating) a fail ++ c
  | ValIPv6 b => exists c, whereMultiWordRoute op fail (fun fail => whereIPv6HalfCheck a off ones64 (BigEndian (first_bytes 8 b)) fail
      ++ whereIPv6HalfCheck a (off + 8) ones64 (BigEndian (bytes_from 8 b)) fail) n = Ok (c, n') /\ code = emitAuxGating (Aux f ≫= Gating) a fail ++ c
  | ValCIDR4 b p => genIPv4CIDRCompare f op b p a off w fail j n = Ok (code, n')
  | ValCIDR6 b p => genIPv6CIDRCompare f op b p a off w fail n = Ok (code, n')
  | _ => False
  end -> compares n n' code fail (literal_matches f op v).
Proof.
  intros (Hok & Hlit & Hw & _ & Hnet) Es Ed El Ew Hj Hn Ht E. assert (Hop : is_Some (ipEqualityJumpOp op)) by now exists j.
  assert (Ej : j = rejectingJumpOp op) by (destruct op; try discriminate; now injection Hj).
  destruct (literal_window f off w Ew Hok Ed) as (Eo & -> & Ho). rewrite (matches_bytes f op v Es Ed), <- Eo. clear Eo.
  pose proof (target_text n fail Ht) as Hf. pose proof (settles_gate f a fail El Hf Hok) as Hg.
  unfold literal_ok, literal_bits, is_network, literal_holds in *. rewrite Hw in *. destruct (Val v) as [? ?|b|b|b|b p|b p|? ?|?|?]; try easy.
  - destruct Hlit as [Hb Hl]. destruct E as [-> ->]. subst j. apply compares_after; auto. now apply whole_word.
  - destruct Hlit as [Hb Hl]. destruct E as (c & E & ->). apply compares_after; auto. eapply whole_v6; eauto.
  - destruct Hlit as [Hb Hl]. destruct E as (c & E & ->). apply compares_after; auto. eapply mac_words; eauto.
  - destruct Hlit as (Hb & Hl & Hp). rewrite no_gate by now apply Hnet. eapply cidr4_compares; eauto.
  - destruct Hlit as (Hb & Hl & Hp). rewrite no_gate by now apply Hnet. eapply cidr6_compares; eauto.
Qed.

(** ** A slice off byte boundaries *)

Lemma cmpR3_ends op x k fail t : getr R3 t = Some (Num x) -> in_u64 k -> has_text fail = true ->
  ends (upto no_slots t) (cmpR3Const (rejectingJumpOp op) k fail) None fail t (test (cmpZ op x k)).
Proof.
  intros G Hk Hf. unfold cmpR3Const, cmpRegConst. destruct (Z.leb_spec k 0x7FFFFFFF).
  - assert (E : exec [JImm (rejectingJumpOp op) R3 (i32 k) fail] None t = if negb (cmpZ op x k) then Goto fail t else Next t).
    { erewrite exec_JImm; [|exact G|rewrite cmp_val_num, rejectingJumpOp_spec, i32_small, u64_small by (unfold in_u64 in *; lia); reflexivity|exact Hf]. now destruct (negb _). }
    destruct (cmpZ op x k); (exists t; split; [exact E|apply upto_refl]).
  - set (t2 := setr R5 (Num k) t). assert (U : upto no_slots t t2) by (apply upto_setr; auto).
    assert (E : exec [LoadImm R5 (int64_of_u64 k); JReg (rejectingJumpOp op) R3 R5 fail] None t = if negb (cmpZ op x k) then Goto fail t2 else Next t2).
    { rewrite exec_LoadImm, u64_of_int64 by (try exact Hk; discriminate). fold t2.
      erewrite exec_JReg; [|unfold t2; rewrite getr_other by discriminate; exact G|apply getr_same; discriminate|rewrite cmp_val_num, rejectingJumpOp_spec; reflexivity|exact Hf]. now destruct (negb _). }
    destruct (cmpZ op x k); (exists t2; split; [exact E|exact U]).
Qed.

Lemma cmpR3_unlabelled j k fail : unlabelled (cmpR3Const j k fail).
Proof. unfold cmpR3Const, cmpRegConst. unlab. Qed.

Lemma lit32 a : Forall byte a -> len a = 4 -> 0 <= be a < 2 ^ 32.
Proof. intros Hb Hl. pose proof (be_range a Hb) as Hr. now rewrite Hl in Hr. Qed.

(** The comparison with a number that has the literal's width. *)
Lemma scalar_ends op v cmp x fail t :
  literalScalarCompare v op fail = Ok cmp -> literal_ok v -> is_Some (ipEqualityJumpOp op) -> has_text fail = true -> getr R3 t = Some (Num x) -> 0 <= x < 2 ^ literal_bits v ->
  unlabelled cmp /\ ends (upto no_slots t) cmp None fail t (test (literal_holds op x v)).
Proof.
  unfold literalScalarCompare, literal_ok, literal_bits, literal_holds. intros E Hlit Hop Hf G Hx. destruct (Val v) as [? ?|b|b|b|b p|b p|? ?|?|?]; try discriminate.
  - injection E as <-. destruct Hlit as [Hb Hl]. pose proof (lit32 b Hb Hl). split; [apply cmpR3_unlabelled|]. apply cmpR3_ends; auto. unfold in_u64, two64. change (BigEndian b) with (be b). lia.
  - injection E as <-. destruct Hlit as [Hb Hl]. pose proof (be_range b Hb) as Hr. rewrite Hl in Hr. rewrite be_macValue by (try exact Hb; lia).
    split; [apply cmpR3_unlabelled|]. apply cmpR3_ends; auto. unfold in_u64, two64. lia.
  - destruct Hlit as (Hb & Hl & Hp). pose proof (lit32 b Hb Hl) as Hr. case_if E; [discriminate|].
    destruct (Z.leb_spec p 0); [assert (p = 0) as -> by lia; rewrite (every_test 32) by auto; injection E as <-; split; [apply (every_unlabelled op)|now apply (every_ends op)]|]. injection E as <-.
    assert (Em : ipv4PrefixMaskBE p = 2 ^ 32 - 2 ^ (32 - p)).
    { unfold ipv4PrefixMaskBE. rewrite (proj2 (Z.leb_gt p 0)) by lia. destruct (Z.leb_spec 32 p); [now replace (32 - p) with 0 by lia|]. apply mask32. lia. }
    rewrite Em. set (m := 2 ^ 32 - 2 ^ (32 - p)). split; [apply Forall_cons_2; [reflexivity|apply cmpR3_unlabelled]|].
    set (t1 := setr R3 (Num (Z.land x m)) t). assert (U : upto no_slots t t1) by (apply upto_setr; auto).
    assert (He : ends (upto no_slots t1) (cmpR3Const (rejectingJumpOp op) (Z.land (BigEndian b) m) fail) None fail t1 (test (cmpZ op (Z.land x m) (Z.land (be b) m)))).
    { apply cmpR3_ends; [apply getr_same; discriminate| |exact Hf]. change (BigEndian b) with (be b). pose proof (land_range 32 (be b) m ltac:(lia) Hr). unfold in_u64, two64. lia. }
    replace (cmpZ op (x / _) _) with (cmpZ op (Z.land x m) (Z.land (be b) m)).
    + unfold ends in *. cbn [app]. erewrite exec_Imm; [|discriminate|discriminate|discriminate|exact G|cbn [alu_val alu64]; rewrite land_imm32 by exact Hx; reflexivity].
      fold t1. destruct (test _); destruct He as (u & E & U'); exists u; (split; [exact E|now apply (upto_trans _ t t1)]).
    + destruct Hop as [jj Ej]. destruct op; try discriminate; cbn [cmpZ]; unfold m; now rewrite prefix_eqb by (try assumption; lia).
Qed.

Lemma scalar_compares f op v fail n code :
  genLiteralScalarCompare f op v fail = Ok code -> literal_known f v -> sliceNeedsScalarLoad f = true -> is_Some (ipEqualityJumpOp op) -> target n fail ->
  compares n n code fail (literal_matches f op v).
Proof.
  intros E (Hok & Hlit & Hw & _) Es Hop Ht. unfold genLiteralScalarCompare in E. apply result_bind_ok in E as (a & El & E). apply result_bind_ok in E as (insns & Ei & E). apply result_bind_ok in E as (cmp & Ec & [= <-]).
  assert (Ef : whereFieldLoad f fail = Ok insns) by (unfold whereFieldLoad; rewrite El; exact Ei). pose proof (target_text n fail Ht) as Hf.
  assert (H64 : EffectiveBits f <= 64) by (rewrite Hw; unfold literal_bits, literalScalarCompare in *; destruct (Val v); (discriminate || lia)).
  assert (Uc : unlabelled cmp) by (unfold literalScalarCompare in Ec; repeat (case_match; try discriminate); injection Ec as <-; first [apply cmpR3_unlabelled|apply Forall_cons_2; [reflexivity|apply cmpR3_unlabelled]|unlab]).
  apply (compares_settled _ _ _ _ (literal_matches f op v)); [|reflexivity]. split; [unfold unlabelled; rewrite Forall_app; split; [eapply whereFieldLoad_plain; eauto|exact Uc]|].
  intros s Hs. pose proof (value64_runs fd key base P start wb opt HPb Hwb f fail insns s Ef Hok H64 Hf Hs) as Hr. apply ends_runs. unfold literal_matches, field_number. rewrite Es.
  assert (Ev : value f = value64 P start wb opt f) by (unfold FieldLoadFacts.value; now rewrite (proj2 (Z.eqb_neq (EffectiveBits f) 128)) by lia).
  rewrite Ev. eapply runs_app; [exact Hr| |auto|now apply unlabelled_notin|now apply unlabelled_notin].
  intros x t Hx U G. apply ends_runs. eapply ends_weaken; [intros u; now apply (upto_trans _ s t)|]. eapply scalar_ends; eauto. rewrite <- Hw. rewrite <- Ev in Hx.
  now apply (value_in_range P start wb opt f x Hok).
Qed.

(** ** Options *)

(** The start of the field in its entry, from [auxEntryFieldStart], is
    [first_bit], and the entry's offset [header_at]. *)
Lemma option_window f aux fbo fail :
  Aux f = Some aux -> auxEntryFieldStart f = Ok fbo -> ref_ok f -> dynamicAuxLayoutOf f = true ->
  match Slice f with Some s => negb (Lo s mod 8 =? 0) || negb (Hi s mod 8 =? 0) | None => false end = false ->
  forall slot prelude load, optionSlotFor f = Some slot -> auxLoadEmitter f fail = Ok (prelude, load) ->
  let elem := header_at f in
  fbo = first_bit f / 8 /\ 0 <= elem < 2 ^ 20 /\ 0 <= fbo < 2 ^ 21 /\ load = optionLoad fbo fail /\
  prelude = [LoadMem R3 RFP slot DWord; JImm JEq R3 dynamicAuxSentinel fail; Reg Mov R5 R3] ++ (if negb (elem =? 0) then [Imm Add R5 (i32 elem)] else []).
Proof.
  intros Ea Es Hok Hd Hsl slot prelude load Eo E. pose proof (aux_known f aux Hok Ea) as (_ & Hf & _). unfold small in Hf.
  assert (Hfb : fbo = first_bit f / 8 /\ 0 <= fbo < 2 ^ 21).
  { unfold auxEntryFieldStart, first_bit, origin in *. rewrite Ea in *. case_if Es; [discriminate|]. injection Es as <-. bools.
    pose proof (Z.div_mod (FieldBitOff aux) 8 ltac:(lia)) as Hdm. destruct Hok as (_ & Hfb & _ & Hs & _). destruct (Slice f) as [s|].
    - assert (0 <= Lo s / 8 <= Lo s) by (split; [apply Z.div_pos; lia|apply Z.div_le_upper_bound; lia]).
      split; [|lia]. rewrite Hdm at 2. replace (FieldBitOff aux mod 8) with 0. rewrite Z.add_0_r, Z.mul_comm, Z.div_add_l by lia. reflexivity.
    - rewrite !Z.add_0_r. split; [reflexivity|]. lia. }
  destruct Hfb as [Hfb Hr]. split; [exact Hfb|]. unfold auxLoadEmitter in E. rewrite Ea, Es, Eo in E. rewrite Hsl in E. cbn [result_bind] in E. case_if E; [discriminate|].
  assert (Eh : header_at f = match Ir.Stack aux with Some ix => if is_Some_b (OwnerOption aux) then OffsetAfterOwner aux + Static ix * HeaderSize aux else 0 | None => 0 end /\ 0 <= header_at f < 2 ^ 20).
  { unfold header_at. rewrite Hd. destruct (dynamicOffsetAuxEntryOff f) as [b|] eqn:Eb.
    - pose proof (entry_small f b Hok Eb) as Hb. unfold small in Hb. split; [|exact Hb]. unfold dynamicOffsetAuxEntryOff in Eb. rewrite Ea in Eb.
      destruct (is_Some_b (OwnerOption aux)); cbn [negb andb] in *; [|injection Eb as <-; now destruct (Ir.Stack aux)].
      destruct (Ir.Stack aux) as [ix|]; [|discriminate]. case_if Eb; [discriminate|]. now injection Eb as <-.
    - unfold dynamicOffsetAuxEntryOff in Eb. rewrite Ea in Eb. destruct (is_Some_b (OwnerOption aux)); cbn [negb andb] in *; [|discriminate].
      destruct (Ir.Stack aux) as [ix|]; [|discriminate]. destruct (IsStatic ix); discriminate. }
  destruct Eh as [Eh Hh]. cbv zeta. split; [exact Hh|]. split; [exact Hr|]. rewrite Eh. now injection E as <- <-.
Qed.

Lemma exec_add r k x l s : r <> RFP -> 0 <= k < 2 ^ 31 -> getr r s = Some (Num x) -> in_u64 x ->
  exec ((if negb (k =? 0) then [Imm Add r k] else []) ++ l) None s = exec l None (setr r (Num (u64 (x + k))) s).
Proof.
  intros Hr Hk G Hx. destruct (Z.eqb_spec k 0) as [->|Hn]; cbn [negb app].
  - rewrite Z.add_0_r, (u64_small x Hx). now rewrite setr_same.
  - erewrite exec_Imm; [reflexivity|discriminate|discriminate|exact Hr|exact G|]. rewrite (u64_small k) by (unfold in_u64, two64; lia). reflexivity.
Qed.

(** The word of an option's field. *)
Lemma option_word_runs f slot elem fbo fail s :
  optionSlotFor f = Some slot -> site s -> has_text fail = true -> 0 <= elem < 2 ^ 20 -> 0 <= fbo < 2 ^ 21 ->
  runs (upto no_slots s) (read_in Word)
    (([LoadMem R3 RFP slot DWord; JImm JEq R3 dynamicAuxSentinel fail; Reg Mov R5 R3] ++ (if negb (elem =? 0) then [Imm Add R5 (i32 elem)] else [])) ++ optionLoad fbo fail 0 Word)
    fail s (option_piece P opt f (elem + fbo) 4).
Proof.
  intros Eo Hs Hf He Hb. destruct (site_option _ _ _ _ _ _ _ _ Hs f slot Eo) as (Hpl & Hu & Hl). unfold option_piece, option_bytes. set (at_ := opt f) in *.
  assert (Hfr : in_frame slot 8 = true) by (unfold in_frame, plan_slot in *; apply andb_true_intro; split; apply Z.leb_le; lia).
  rewrite (i32_small elem) by lia. unfold optionLoad. rewrite Z.add_0_r, (i32_small fbo) by lia. cbv zeta.
  set (s1 := setr R3 (Num at_) s). assert (U1 : upto no_slots s s1) by (apply upto_setr; auto).
  set (rest_ := boundedScalarLoad R3 R0 R2 R1 Word fail).
  assert (E1 : forall l, exec (LoadMem R3 RFP slot DWord :: JImm JEq R3 dynamicAuxSentinel fail :: l) None s = if at_ =? u64 dynamicAuxSentinel then exec l (Some fail) s1 else exec l None s1).
  { intros l. erewrite exec_load_stack; [|discriminate|apply getr_fp|exact Hfr|exact Hl]. erewrite exec_JImm; [reflexivity|apply getr_same; discriminate|reflexivity|exact Hf]. }
  rewrite <- !app_assoc. cbn [app].
  destruct (at_ =? u64 dynamicAuxSentinel) eqn:Es.
  { exists s1. split; [|exact U1]. rewrite E1. apply exec_skip, unlabelled_notin; [|exact Hf].
    apply Forall_cons_2; [reflexivity|]. apply Forall_app_2; [unlab|]. apply Forall_cons_2; [reflexivity|]. apply Forall_app_2; [unlab|apply bounded_unlabelled]. }
  set (s2 := setr R5 (Num at_) s1). set (s3 := setr R5 (Num (u64 (at_ + elem))) s2). set (s4 := setr R2 (Num (u64 (at_ + elem))) s3).
  set (s5 := setr R2 (Num (u64 (at_ + (elem + fbo)))) s4).
  assert (U5 : upto no_slots s s5) by (apply (upto_trans _ _ s1); [exact U1|]; apply (upto_trans _ _ s2); [|apply (upto_trans _ _ s3); [|apply (upto_trans _ _ s4)]]; apply upto_setr; tauto).
  eapply (runs_exec _ _ _ rest_ _ _ s5).
  { rewrite E1. erewrite exec_Mov_Reg; [|discriminate|apply getr_same; discriminate]. fold s2.
    rewrite (exec_add R5 elem at_) by (try lia; try assumption; try discriminate; apply getr_same; discriminate). fold s3. cbn [app].
    erewrite exec_Mov_Reg; [|discriminate|apply getr_same; discriminate]. fold s4.
    rewrite (exec_add R2 fbo (u64 (at_ + elem))) by (try lia; try apply u64_range; try discriminate; apply getr_same; discriminate).
    replace (u64 (u64 (at_ + elem) + fbo)) with (u64 (at_ + (elem + fbo))) by (unfold u64; rewrite Zplus_mod_idemp_l; f_equal; lia). reflexivity. }
  pose proof (bounded_load fd key base P R3 R2 Word fail s5 (u64 (at_ + (elem + fbo))) (site_packet _ _ _ _ _ _ _ _ (site_none _ _ _ _ _ _ _ _ _ Hs U5))
    ltac:(unfold scratch_reg; auto) ltac:(unfold size_bytes; auto) Hf ltac:(discriminate) ltac:(apply getr_same; discriminate) ltac:(apply u64_range)) as Hr.
  unfold load_at in Hr. change (Z.of_nat (Z.to_nat (Sizeof Word))) with 4 in Hr. change (Z.to_nat (Sizeof Word)) with 4%nat in Hr. change (Z.to_nat 4) with 4%nat. fold rest_ in Hr.
  set (p := u64 (at_ + (elem + fbo))) in *. assert (Hp : 0 <= p) by apply u64_range. destruct (p + 4 <=? bound P) eqn:Hle.
  - destruct Hr as (t & E2 & O & ->). eexists. split; [exact E2|]. split; [eapply upto_trans; [exact U5|apply upto_setr; auto]|].
    split; [apply getr_same; discriminate|]. split; [|now apply window_byte]. rewrite window_length; [reflexivity|exact Hp|]. unfold bound in Hle. bools. lia.
  - destruct Hr as (t & E2 & O). exists t. split; [exact E2|]. eapply upto_trans; [exact U5|]. apply (only_upto no_slots R3); [unfold scratch_reg; auto|exact O].
Qed.

Lemma option_emitter f prelude load fail :
  auxLoadEmitter f fail = Ok (prelude, load) -> ref_ok f -> dynamicAuxLayoutOf f = true -> has_text fail = true ->
  unlabelled (prelude ++ load 0 Word) /\
  forall s, site s -> runs (upto no_slots s) (read_in Word) (prelude ++ load 0 Word) fail s (option_piece P opt f (header_at f + first_bit f / 8) 4).
Proof.
  intros E Hok Hd Hf. pose proof E as E'. unfold auxLoadEmitter in E'. destruct (Aux f) as [aux|] eqn:Ea; [|discriminate]. case_if E'; [discriminate|]. rename E0 into Hsl.
  apply result_bind_ok in E' as (fbo & Es & E'). case_if E'; [discriminate|]. destruct (optionSlotFor f) as [slot|] eqn:Eo; [|discriminate]. clear E' E0.
  destruct (option_window f aux fbo fail Ea Es Hok Hd Hsl slot prelude load Eo E) as (-> & He & Hb & -> & ->). split.
  - unfold unlabelled, optionLoad. cbv zeta. rewrite !Forall_app. repeat split; first [apply bounded_unlabelled | unlab].
  - intros s Hs. now apply option_word_runs.
Qed.

Lemma route_app op fail ld body n code n' :
  whereMultiWordRoute op fail (fun label => ld ++ body label) n = Ok (code, n') -> exists c, whereMultiWordRoute op fail body n = Ok (c, n') /\ code = ld ++ c.
Proof.
  unfold whereMultiWordRoute. destruct op; cbn; intros [= <- <-]; eexists; (split; [reflexivity|]); now rewrite ?app_assoc.
Qed.

(** The load's own jumps go to the label outside, the comparison's to the
    route's. *)
Lemma compares_loaded op fail ld p μ mcode k h n c n' :
  unlabelled ld -> (forall s, site s -> runs (upto no_slots s) (read_in Word) ld fail s p) -> masks 4 μ mcode -> u64 k = to_be 4 h -> 0 <= h < 2 ^ 32 ->
  is_Some (ipEqualityJumpOp op) -> 0 <= n -> target n fail ->
  whereMultiWordRoute op fail (compare_tail mcode R5 k JNE) n = Ok (c, n') ->
  compares n n' (ld ++ c) fail (sbind p (fun bs => test (cmpZ op (μ (be bs)) h))).
Proof.
  intros Ul Hl Hm Hk Hh [j Hop] Hn Ht E. pose proof (target_text n fail Ht) as Hf. unfold whereMultiWordRoute in E. destruct op; try discriminate.
  - apply gret_ok in E as [-> ->]. eapply compares_settled; [|reflexivity].
    exact (settles_chunk Word ld fail p μ mcode R5 k h CmpEq Ul Hl Hm ltac:(auto) Hk Hh ltac:(unfold size_bytes; auto) ltac:(now exists JNE) Hf).
  - apply gbind_ok in E as (label & m & El & E). apply gret_ok in E as [-> ->]. apply freshLabel_ok in El as [El ->]; [|apply list_elem_of_In; cbn; tauto|exact Hn].
    pose proof (numbered_text _ _ El) as Hx. pose proof (compare_unlabelled 4 μ mcode R5 k JNE label Hm) as Uc.
    assert (Hc : owned n (n + 1) (compare_tail mcode R5 k JNE label ++ [JaLabel fail; landingNoop label])).
    { apply owned_app; [now apply plain_owned, unlabelled_plain|]. apply owned_cons; [reflexivity|]. eapply owned_landing; [exact El|lia|apply owned_nil]. }
    split; [apply grows_plain_app; [now apply unlabelled_plain|split; [lia|exact Hc]]|].
    eexists. split; [reflexivity|]. intros s Hs Hr. apply ends_runs. eapply runs_app; [now apply Hl| |auto|eapply owned_target; eauto|eapply owned_target; [exact Hc|apply target_reject]].
    intros bs t _ U (G & Hlen & Hb). apply ends_runs. eapply ends_weaken; [intros u; now apply (upto_trans _ s t)|].
    replace (test (cmpZ CmpNeq (μ (be bs)) h)) with (notv (test (cmpZ CmpEq (μ (be bs)) h))) by (cbn [cmpZ]; now destruct (_ =? _)).
    apply ends_not; [|exact (up_set _ _ _ U Hr)|exact Hx|exact Hf| |].
    + apply (compare_ends 4 μ mcode R5 k h CmpEq); auto. change (Sizeof Word) with 4 in Hlen. lia.
    + intros <-. destruct Ht as [-> | (i & Hi & ?)]; [now apply numbered_not_reject in El|]. pose proof (numbered_unique _ _ _ El Hi). lia.
    + intros ->. now apply numbered_not_reject in El.
Qed.

(** The comparison of an option's word. *)
Lemma option_compares f op v n code n' fail j :
  genOptionLiteralCompare f op v fail j n = Ok (code, n') -> literal_known f v -> sliceNeedsScalarLoad f = false -> dynamicAuxLayoutOf f = true ->
  ipEqualityJumpOp op = Some j -> 0 <= n -> target n fail -> compares n n' code fail (literal_matches f op v).
Proof.
  intros E (Hok & Hlit & Hw & H32 & _) Es Hd Hj Hn Ht. destruct (H32 Hd) as [H32' Hev]. clear H32. rename H32' into H32. assert (Hop : is_Some (ipEqualityJumpOp op)) by now exists j.
  assert (Ej : j = rejectingJumpOp op) by (destruct op; try discriminate; now injection Hj). subst j. pose proof (target_text n fail Ht) as Hf.
  unfold genOptionLiteralCompare in E. apply gbind_ok in E as (? & ? & E0 & E). apply glift_ok in E0 as [_ ->]. apply gbind_ok in E as ([prelude load] & ? & El & E). apply glift_ok in El as [El ->].
  destruct (option_emitter f prelude load fail El Hok Hd Hf) as [Ul Hl]. unfold literal_matches, field_number, field_bytes. rewrite Es, Hd, Hw, H32, sbind_sbind. change (32 / 8) with 4.
  unfold literal_ok, literal_bits, literal_holds, every_address in *. rewrite Hw, ?H32 in E. destruct (Val v) as [? ?|b|b|b|b p|b p|? ?|?|?]; try easy.
  all: cbn [sbind].
  - destruct Hlit as [Hb Hlen]. change (negb (32 =? 32)) with false in E. cbv iota in E. apply gret_ok in E as [-> ->]. rewrite app_assoc, swap32_to_be.
    eapply compares_settled; [|reflexivity]. pose proof (lit32 b Hb Hlen) as Hr.
    refine (settles_chunk Word _ fail _ id [] R5 _ (be b) op Ul Hl (masks_none 4) ltac:(auto) _ Hr ltac:(unfold size_bytes; auto) Hop Hf).
    apply u64_of_int64, to_be_u64. cbn. lia.
  - destruct Hlit as (Hb & Hlen & Hp). assert (0 < p) by (destruct (Z.eq_dec p 0); [now destruct Hev|lia]). pose proof (lit32 b Hb Hlen) as Hr. unfold genOwnerBoundCIDRv4 in E. rewrite Hw in E. change (negb (32 =? 32)) with false in E. cbv iota in E.
    rewrite (proj2 (Z.ltb_ge p 0)), (proj2 (Z.ltb_ge 32 p)), (proj2 (Z.eqb_neq p 0)) in E by lia. cbn [orb] in E. rewrite mask32 in E by lia. rewrite !swap32_to_be in E. change (BigEndian b) with (be b) in E.
    set (m := 2 ^ 32 - 2 ^ (32 - p)) in *. destruct (Z.eqb_spec p 32) as [->|H32'].
    + apply gret_ok in E as [-> ->]. rewrite app_assoc. change (32 - 32) with 0. change (2 ^ 0) with 1.
      assert (Em : Z.land (be b) m = be b) by (unfold m; rewrite (land_prefix 32 (32 - 32)) by (try lia; exact Hr); change (2 ^ (32 - 32)) with 1; rewrite Z.div_1_r; lia). rewrite Em.
      replace (sbind _ _) with (sbind (option_piece P opt f (header_at f + first_bit f / 8) 4) (fun bs => test (cmpZ op (id (be bs)) (be b)))) by (apply sbind_ext_present; intros bs _; now rewrite !Z.div_1_r).
      eapply compares_settled; [|reflexivity].
      refine (settles_chunk Word _ fail _ id [] R5 _ (be b) op Ul Hl (masks_none 4) ltac:(auto) _ Hr ltac:(unfold size_bytes; auto) Hop Hf).
      apply u64_of_int64, to_be_u64. cbn. lia.
    + apply gbind_ok in E as (c & ? & E & E'). apply gret_ok in E' as [-> ->]. apply route_app in E as (c' & E & ->). rewrite app_assoc.
      replace (sbind _ _) with (sbind (option_piece P opt f (header_at f + first_bit f / 8) 4) (fun bs => test (cmpZ op (Z.land (be bs) m) (Z.land (be b) m)))).
      * eapply (compares_loaded op fail _ _ (fun z => Z.land z m) [Imm And R3 (i32 (to_be 4 m))] _ (Z.land (be b) m)); eauto; [apply masks_word| |now apply land_range].
        apply u64_of_int64, (to_be_u64 4). lia.
      * apply sbind_ext_present. intros bs Ep. f_equal. unfold option_piece, option_bytes in Ep. cbv zeta in Ep. repeat (case_match; try discriminate). injection Ep as <-.
        set (bs := window _ _ _). assert (Hbs : Forall byte bs) by now apply window_byte.
        assert (Hlb : len bs = 4) by (unfold bs, len, bound in *; bools; rewrite window_length; [reflexivity|apply u64_range|change (Z.of_nat (Z.to_nat 4)) with 4; lia]).
        pose proof (lit32 bs Hbs Hlb). destruct Hop as [jj Ejj]. destruct op; try discriminate; cbn [cmpZ]; unfold m; now rewrite prefix_eqb by (try assumption; lia).
Qed.

(** ** Every arm *)

Lemma literal_compares f op v fail n code n' :
  whereLiteralCompare f op v fail n = Ok (code, n') -> literal_known f v -> 0 <= n -> target n fail -> compares n n' code fail (literal_matches f op v).
Proof.
  unfold whereLiteralCompare. intros E Hk Hn Ht. destruct (ipEqualityJumpOp op) as [j|] eqn:Hj; [|now apply glift_ok in E as [[=] _]].
  destruct (sliceNeedsScalarLoad f) eqn:Es; [apply glift_ok in E as [E ->]; apply (scalar_compares f op v fail n code E Hk Es); [now exists j|exact Ht]|].
  destruct (dynamicAuxLayoutOf f) eqn:Ed; [eapply option_compares; eauto|]. rewrite (ref_ok_place f) in E by apply Hk.
  apply gbind_ok in E as (a & ? & El & E). apply glift_ok in El as [El ->]. apply gbind_ok in E as ([off w] & ? & Ew & E). apply glift_ok in Ew as [Ew ->].
  rewrite gate_code in E. apply (static_compares f op v a off w fail j n code n' Hk Es Ed El Ew Hj Hn Ht).
  destruct (Val v) as [? ?|b|b|b|b p|b p|? ?|?|?]; try exact E; try (now apply glift_ok in E as [[=] _]).
  - gcase E; [now apply glift_ok in E as [[=] _]|]. now apply gret_ok in E.
  - gcase E; [now apply glift_ok in E as [[=] _]|]. apply gbind_ok in E as (c & ? & E & E'). apply gret_ok in E' as [-> ->]. now exists c.
  - gcase E; [now apply glift_ok in E as [[=] _]|]. apply gbind_ok in E as (c & ? & E & E'). apply gret_ok in E' as [-> ->]. now exists c.
Qed.

End Literal.
