(* ===== verification/WherePacket.v ===== *)
(** * WherePacket: a where clause decides a packet

    The theorems of the where clause's code generator put together: on a
    packet whose layers the walks crossed ([where_known]), with network
    literals compared by [where_literals], the code of a condition decides
    it; a field's load leaves the field's bits. *)

From Stdlib Require Import ZArith Lia Bool Ascii String List.
From stdpp Require Import base list strings numbers option gmap.
From S2P Require Import Prelude GoStd GoBytes Ast Ir HookAbi Asm Ebpf EbpfFacts Helpers Codegen WhereArith WhereArithFacts FieldLoad FieldLoadFacts Where WhereSpec WhereFacts LiteralFacts.
Local Open Scope Z_scope.
Local Open Scope go_scope.

Section Packet.
Context `{HKern : Kernel} `{HA : AuxVocab} `{HP : WherePlan} `{HS : StackVocab} `{HSl : WherePlanSlots} `{HProg : WhereProgram}.

(** The form of a quantifier that becomes a [bpf_loop]. *)
Variable loop : whereCtx -> IR.Condition -> IR.QuantTarget -> bytes -> bool -> gen (list Instruction).

#[local] Instance literals : LiteralCode := where_literals loop.

Context (fd : Z) (key : list Z) (base : Z) (P : list Z) (F : found).

(** What the walks leave and the host gives. An entry behind entries of
    variable length, or of a runtime index, is not one of the clause's. *)
Record where_known : Prop := mkKnown {
  kn_packet : Forall byte P;
  kn_written : forall l, byte (written_back F l);
  kn_start : forall l, 0 <= layer_start F l;
  kn_always : forall l, members l = None -> Absentable l = false -> is_there F l = true;
  kn_pushed : forall l stack, 0 <= pushed F l stack <= pushBound l stack /\ in_u64 (pushed F l stack);
  kn_owner : forall l owner, in_u64 (owner_at F l owner);
  kn_fetch : forall fetch, ActionFetcher = Some fetch -> plain (fetch R3) /\
    forall s, wsite fd key base P F s -> exists t, exec (fetch R3) None s = Next t /\ upto no_slots s t /\ getr R3 t = Some (Num (action_value F));
  kn_action : 0 <= action_value F < 2 ^ 32
}.

Definition packet_literals : FieldRef -> CmpOp -> Value -> verdict := literal_matches P (layer_start F) (written_back F) (option_at F).

Lemma packet_literal_code : where_known -> forall c f op v fail n code n',
  genLiteralCompare c f op v fail n = Ok (code, n') -> literal_known f v -> cmp_ctx_ok c -> 0 <= n -> target n fail ->
  grows n n' code /\ exists r, approx (packet_literals f op v) r /\ forall s, wsite fd key base P F s -> is_Some (getr R3 s) -> ends (upto (compare_slots c) s) code None fail s r.
Proof.
  intros K c f op v fail n code n' E Hk Hc Hn Ht.
  destruct (literal_compares fd key base P (layer_start F) (written_back F) (option_at F) (kn_packet K) (kn_written K) (kn_start K) f op v fail n code n' E Hk Hn Ht)
    as (Hg & r & Ha & He). split; [exact Hg|]. exists r. split; [exact Ha|]. intros s Hs Hr. eapply ends_weaken; [|apply He; [apply Hs|exact Hr]].
  intros t U. eapply upto_weaken; [|exact U]. intros d [].
Qed.

(** ** The bits of a field *)

Lemma bits_window p n o w : Forall byte P -> 0 <= p -> p + Z.of_nat n <= len P -> 0 <= o -> 0 <= w -> o + w <= 8 * Z.of_nat n ->
  bits_at (window P p n) o w = bits_at P (8 * p + o) w.
Proof.
  intros HPb Hp Hn Ho Hw Hb. unfold bits_at at 1. unfold len at 1. rewrite window_length, be_window by assumption.
  replace (8 * Z.of_nat n - (o + w)) with (8 * p + 8 * Z.of_nat n - (8 * p + o + w)) by lia. apply bits_of_bits; lia.
Qed.

Lemma window_app p n m : 0 <= p -> window P p (n + m) = window P p n ++ window P (p + Z.of_nat n) m.
Proof. intros Hp. unfold window. rewrite Z2Nat.inj_add, Nat2Z.id, <- drop_drop by lia. symmetry. apply take_take_drop. Qed.

(** The window a field is loaded through: the fewest of 1, 2, 4, 8 or 9 bytes
    that hold its bits, from the byte of its first bit on; for a slice of a
    field of whole bytes, moved back inside the field where it fits. *)
Definition load_size (bytes : Z) : Z := default 9 (find (Z.leb bytes) [1; 2; 4; 8]).

Definition load_window (f : FieldRef) : Z * Z :=
  let byte_ := first_bit f / 8 in
  let n := load_size ((first_bit f + EffectiveBits f + 7) / 8 - byte_) in
  let first := origin f / 8 in
  let last := (origin f + field_bits f) / 8 in
  (if (origin f mod 8 =? 0) && (field_bits f mod 8 =? 0) && (n <=? last - first) then Z.min byte_ (last - n) else byte_, n).

(** The end of what a load may read: 512 bytes of a packet are checked for a
    layer whose place is a number the walk found. *)
Definition load_limit (a : layerAnchor) : Z := if runtime a then Z.min (len P) 512 else len P.

Lemma next_load_size cover : 0 < nextLDXSize cover -> nextLDXSize cover = load_size cover.
Proof. unfold nextLDXSize, load_size. cbn [find]. repeat (destruct (_ <=? _); [reflexivity|]). easy. Qed.

Lemma load_size_self n : n = 1 \/ n = 2 \/ n = 4 \/ n = 8 \/ n = 9 -> load_size n = n.
Proof. now intros [->|[->|[->|[->| ->]]]]. Qed.

Lemma bytes_of q b w : 0 <= b -> (8 * q + b + w + 7) / 8 = q + (b + w + 7) / 8.
Proof. intros _. replace (8 * q + b + w + 7) with (q * 8 + (b + w + 7)) by lia. now rewrite Z.div_add_l by lia. Qed.

Lemma covers_window ref start n : whole ref -> ref_ok ref -> EffectiveBits ref <= 64 -> covers ref start n -> n = 1 \/ n = 2 \/ n = 4 \/ n = 8 \/ n = 9 ->
  (start, n) = load_window ref.
Proof.
  intros Hwh (Hk & Hf & _ & Hs & _) Hw Hc Hn. pose proof (origin_small ref Hk) as Ho. unfold small in Ho. pose proof (Z_div_mod_eq_full (origin ref) 8) as Hd.
  pose proof (Z.mod_pos_bound (origin ref) 8 ltac:(lia)) as Hb. set (q := origin ref / 8) in *. set (b := origin ref mod 8) in *. unfold covers in Hc. unfold load_window, first_bit.
  fold q b. destruct (Slice ref) as [s|] eqn:Es.
  - destruct Hc as (size0 & Hc). unfold applySliceToOffset in Hc. rewrite Es in Hc. unfold sliceBits in Hc. rewrite intra_origin in Hc. fold q b in Hc.
    change (FieldSlice_Bits (Some s)) with (Hi s - Lo s) in Hc. rewrite (EffectiveBits_slice ref s Es) in *.
    replace (origin ref + Lo s) with (q * 8 + (Lo s + b)) by lia. rewrite Z.div_add_l by lia.
    replace (q * 8 + (Lo s + b) + (Hi s - Lo s) + 7) with (q * 8 + (Hi s + b + 7)) by lia. rewrite Z.div_add_l by lia.
    replace (q + (Hi s + b + 7) / 8 - (q + (Lo s + b) / 8)) with ((Hi s + b + 7) / 8 - (Lo s + b) / 8) by lia. set (cover := _ - _ / 8) in *.
    assert (E : start = q + sliceWindowStart ref s n /\ n = load_size cover).
    { destruct (nextLDXSize_spec cover) as [[H8 Hz]|[Hle Hpos]].
      - rewrite Hz in Hc. cbn [Z.eqb andb] in Hc. change sliceSplitWindow with 9 in Hc. destruct (Z.eqb_spec cover 9) as [E9|]; [|discriminate].
        rewrite (proj2 (Z.leb_le _ _)) in Hc by lia. cbn [andb Z.eqb] in Hc. injection Hc as <- <-. split; [reflexivity|now rewrite E9].
      - rewrite (proj2 (Z.eqb_neq (nextLDXSize cover) 0)) in Hc by lia. cbn [andb] in Hc. rewrite (proj2 (Z.eqb_neq (nextLDXSize cover) 0)) in Hc by lia.
        injection Hc as <- <-. split; [reflexivity|now apply next_load_size]. }
    destruct E as [-> <-]. f_equal. unfold sliceWindowStart, sliceBits. rewrite intra_origin. fold b. cbn [fst]. fold (field_bits ref).
    destruct (Z.eqb_spec b 0) as [Hb0|]; cbn [andb]; [|reflexivity]. destruct (field_bits ref mod 8 =? 0); cbn [andb]; [|reflexivity].
    replace (origin ref + field_bits ref) with (q * 8 + field_bits ref) by lia. rewrite Z.div_add_l by lia.
    replace (q + field_bits ref / 8 - q) with (field_bits ref / 8) by lia.
    destruct (n <=? field_bits ref / 8); cbn [andb]; [|reflexivity]. destruct (Z.ltb_spec (field_bits ref / 8) ((Lo s + b) / 8 + n)); lia.
  - rewrite Z.add_0_r, (EffectiveBits_bare ref Es) in *. fold q b.
    replace ((origin ref + field_bits ref + 7) / 8 - q) with ((b + field_bits ref + 7) / 8) by (rewrite Hd, bytes_of by lia; lia).
    destruct Hc as [(H0 & H1 & -> & ->)|Hc].
    + fold b in H0. rewrite H0, H1. cbn [Z.eqb andb]. pose proof (Z_div_mod_eq_full (field_bits ref) 8) as Hd2.
      replace ((0 + field_bits ref + 7) / 8) with (field_bits ref / 8) by (rewrite Hd2, H1; replace (0 + (8 * (field_bits ref / 8) + 0) + 7) with (field_bits ref / 8 * 8 + 7) by lia; rewrite Z.div_add_l by lia; change (7 / 8) with 0; replace (8 * (field_bits ref / 8) + 0) with (field_bits ref / 8 * 8) by lia; rewrite Z.div_mul by lia; lia).
      rewrite load_size_self by exact Hn. replace (origin ref + field_bits ref) with (q * 8 + field_bits ref) by lia. rewrite Z.div_add_l by lia.
      f_equal. destruct (Z.leb_spec (field_bits ref / 8) (q + field_bits ref / 8 - q)); lia.
    + unfold subByteWindow in Hc. destruct (_ <=? 0); [discriminate|]. fold b q in Hc. destruct (_ && _); [discriminate|]. cbn [andb].
      destruct (Z.eqb_spec (nextLDXSize ((b + field_bits ref + 7) / 8)) 0) as [|Hz]; [discriminate|]. injection Hc as <- <-. f_equal. apply next_load_size.
      destruct (nextLDXSize_spec ((b + field_bits ref + 7) / 8)) as [[_ ?]|[_ ?]]; lia.
Qed.

Lemma split_window f : ref_ok f -> load_window (splitBareField f) = load_window f.
Proof.
  intros Hok. destruct (splitBareField_same f Hok) as (_ & Hw & Hf & Hl & Hr & Ha). unfold load_window. rewrite Hw, Hf.
  assert (Ho : origin (splitBareField f) = origin f) by (unfold origin, primary; now rewrite Hl, Hr, Ha).
  assert (Hb : field_bits (splitBareField f) = field_bits f) by (unfold field_bits; now rewrite Hr, Ha). now rewrite Ho, Hb.
Qed.

(** A piece off an anchor that was not written back. *)
Lemma piece_window l a off n : layerAnchorFor l = Ok a -> WriteBack a = false -> 0 <= layer_start F l + off < 2 ^ 63 ->
  piece P (layer_start F) (written_back F) l off n =
    if layer_start F l + off + n <=? load_limit a then Present (window P (layer_start F l + off) (Z.to_nat n)) else Beyond.
Proof.
  unfold piece, load_limit. intros -> -> Ho. cbn [andb]. cbv zeta. rewrite u64_small by (unfold in_u64, two64; lia). now destruct (runtime a).
Qed.

(** What the load leaves of a field of a layer's own header. *)
Lemma field_value_bits f a code fail : where_known -> whereFieldLoad f fail = Ok code -> ref_ok f -> EffectiveBits f <= 64 -> Aux f = None ->
  layerAnchorFor (RefLayer f) = Ok a -> WriteBack a = false -> layer_start F (RefLayer f) < 2 ^ 62 ->
  value64 P (layer_start F) (written_back F) (option_at F) f =
    let '(off, n) := load_window f in
    if layer_start F (RefLayer f) + off + n <=? load_limit a then Present (bits_at P (8 * layer_start F (RefLayer f) + first_bit f) (EffectiveBits f)) else Beyond.
Proof.
  intros K E Hok Hw Ha El Hwb Hst. rewrite <- (split_window f Hok). unfold whereFieldLoad in E. rewrite El in E. apply scalar_code in E as (off & n & Ew & Hn).
  destruct (splitBareField_same f Hok) as (Hok' & Hw' & Hf' & Hl' & _ & Ha'). unfold value64. rewrite Ew. set (ref := splitBareField f) in *.
  assert (Hd : dynamicAuxLayoutOf ref = false) by (unfold dynamicAuxLayoutOf; now rewrite Ha', Ha).
  assert (Hh : header_at ref = 0) by (unfold header_at; now rewrite Hd, Ha', Ha). rewrite <- Hw', <- Hf', <- Hl' in *.
  assert (Hwh : whole ref) by apply splitBareField_whole. destruct (window_covers ref off n Hwh Hok' Ew (or_intror (ref_ok_place ref Hok'))) as [Hc _]. rewrite Hh, Z.sub_0_r in *.
  rewrite <- (covers_window ref off n Hwh Hok' Hw Hc); [|destruct Hn as [[-> _]|(_ & _ & size & [->|[->|[->| ->]]] & <- & _)]; cbn; tauto].
  pose proof (covers_geometry ref off n Hwh Hok' Hw Hc) as Hg. pose proof (window_bounds ref off n Hok' Hg) as Ho. pose proof (ref_ok_width ref Hok') as Hw2. pose proof (kn_start K (RefLayer ref)) as Hs0.
  unfold gate_verdict. rewrite Hd, Ha', Ha. cbn [mbind option_bind sbind]. set (p := layer_start F (RefLayer ref) + off) in *.
  pose proof Hg as [_ Hlo Hhi Hadj]. assert (Hn0 : 0 < n) by (destruct Hadj as [[-> _]|[? _]]; lia).
  assert (Hb : (if n =? sliceSplitWindow then split_bytes P (layer_start F) (written_back F) (RefLayer ref) off else piece P (layer_start F) (written_back F) (RefLayer ref) off n) =
    if p + n <=? load_limit a then Present (window P p (Z.to_nat n)) else Beyond).
  { destruct (Z.eqb_spec n sliceSplitWindow) as [->|_]; [|apply (piece_window _ a); auto; lia]. unfold split_bytes, sliceSplitWindow.
    rewrite !(piece_window _ a) by (auto; lia). fold p. replace (layer_start F (RefLayer ref) + (off + 8)) with (p + 8) by (unfold p; lia).
    destruct (Z.leb_spec (p + 8 + 1) (load_limit a)), (Z.leb_spec (p + 9) (load_limit a)); try lia; [|reflexivity]. rewrite (proj2 (Z.leb_le _ _)) by lia. cbn [sbind]. f_equal.
    symmetry. apply (window_app p 8 1). unfold p. lia. }
  rewrite Hb. destruct (Z.leb_spec (p + n) (load_limit a)) as [Hle|]; cbn [sbind]; [|reflexivity]. f_equal.
  assert (Hlim : load_limit a <= len P) by (unfold load_limit; destruct (runtime a); lia). assert (En : Z.of_nat (Z.to_nat n) = n) by (apply Z2Nat.id; lia).
  unfold value_of. rewrite bits_window; try (rewrite ?En; lia); [|apply K]. f_equal. unfold p. lia.
Qed.

(** C3: The code of a where clause decides the packet, for the conditions [wf_cond] describes. These read fields of headers and of entries whose place is known when the clause is compiled (no entry of a runtime index or behind entries of variable length), at offsets below 2^20; have no quantifier inside another, none of the form that becomes a [bpf_loop], and none whose body has [exists], [valid] or a comparison of conditions on the iterator; and compare with network literals as C13 says (no network on a header behind a gate, which C14 shows miscompiled, and on an option one word other than a /0). For such a condition that the code generator accepts, from every state in which the walks of the layers have left the packet between R0 and R1 and what they found in their slots, the code falls through when the condition holds of the packet, and leaves for the label it is given when it does not; where the meaning of the condition reads past the packet, it ends in one of the three ways the code can end, the same from every state (folding and a first word that decides leave out the read that rejects). It writes R2, R3, R5 and its sixteen scratch slots and nothing else. *)
Theorem where_clause_decides (cond : IR.Condition) (fail : bytes) (code : list Instruction) :
  where_known -> genCondition cond fail = Ok code -> wf_cond id cond -> target 0 fail ->
  exists r, approx (evalCond (packet_world P F packet_literals) id cond) r /\
    forall s, wsite fd key base P F s -> is_Some (getr R3 s) -> ends (upto scratch_slots s) code None fail s r.
Proof.
  intros K E Hw Ht. pose proof (packet_ok fd key base P F packet_literals (kn_packet K) (kn_written K) (kn_always K) (kn_pushed K) (kn_owner K)
    (kn_fetch K) (kn_action K) (packet_literal_code K)) as Hok.
  destruct (genCondition_good cond fail code E Hw Ht) as (r & Ha & He). exists r. split; [exact Ha|]. intros s Hs Hr. now apply He.
Qed.


(** C13: A comparison with a network literal of the field's width decides it. On a field, a byte-aligned or an unaligned slice, or an auxiliary header at a place known when the clause is compiled: for an IPv4, IPv6 or MAC address, the header's gate tested first, and for a network of either family and any prefix, /0 included, on a header without a gate (behind one the code is wrong: C14). On an option: for an IPv4 address or an IPv4 network other than /0 (wider literals and /0 are outside the theorem, since the code need not read all of an option that ends past the packet). The code falls through when the number in the field's bits (or its prefix) is, or for != is not, the literal's, and leaves for the label otherwise, an absent field included; where the field lies past the packet it ends in one of the three ways, the same from every state. *)
Theorem network_literal_decides (f : FieldRef) (op : CmpOp) (v : Value) (fail : bytes) (n : Z) (code : list Instruction) (n' : Z) :
  where_known -> whereLiteralCompare f op v fail n = Ok (code, n') -> literal_known f v -> 0 <= n -> target n fail ->
  exists r, approx (packet_literals f op v) r /\ forall s, wsite fd key base P F s -> is_Some (getr R3 s) -> ends (upto no_slots s) code None fail s r.
Proof.
  intros K E Hk Hn Ht.
  destruct (literal_compares fd key base P (layer_start F) (written_back F) (option_at F) (kn_packet K) (kn_written K) (kn_start K) f op v fail n code n' E Hk Hn Ht)
    as (_ & r & Ha & He). exists r. split; [exact Ha|]. intros s Hs. apply He, Hs.
Qed.

(** C19: A field's load leaves the field's bits, or rejects, and which is decided by the packet's length alone: for a field or slice of at most 64 bits of a layer's own header (one whose byte the walk did not keep in a slot of its own, a write-back), the load is of the smallest window of 1, 2, 4, 8 or 9 bytes that holds the bits (for a slice of a field of whole bytes moved back inside it); where the window ends inside the packet, for a layer whose place is found at run time inside its first 512 bytes, R3 holds exactly the bits of the packet from the field's first bit on, in network order; otherwise, and only then, the code leaves for dsl_reject. *)
Theorem field_load_bits (f : FieldRef) (fail : bytes) (code : list Instruction) (a : layerAnchor) (s : st) :
  where_known -> whereFieldLoad f fail = Ok code -> ref_ok f -> EffectiveBits f <= 64 -> Aux f = None -> has_text fail = true ->
  layerAnchorFor (RefLayer f) = Ok a -> WriteBack a = false -> layer_start F (RefLayer f) < 2 ^ 62 -> wsite fd key base P F s ->
  let '(off, n) := load_window f in
  if layer_start F (RefLayer f) + off + n <=? load_limit a
  then exists t, exec code None s = Next t /\ getr R3 t = Some (Num (bits_at P (8 * layer_start F (RefLayer f) + first_bit f) (EffectiveBits f)))
  else exists t, exec code None s = Goto dslReject t.
Proof.
  intros K E Hok Hw Ha Hf El Hwb Hst Hs.
  pose proof (value64_runs fd key base P (layer_start F) (written_back F) (option_at F) (kn_packet K) (kn_written K) f fail code s E Hok Hw Hf (ws_site _ _ _ _ _ _ Hs)) as Hr.
  rewrite (field_value_bits f a code fail) in Hr by assumption. destruct (load_window f) as [off n]. destruct (_ <=? load_limit a); cbn [runs] in Hr.
  - destruct Hr as (t & Et & _ & G). now exists t.
  - destruct Hr as (t & Et & _). now exists t.
Qed.

(** C14: A network comparison does not test the gate. For a field of an auxiliary header whose gate the packet does not meet, so that the field is absent and the comparison false, [== network] falls through all the same whenever the bytes at the header's place are in the network: the code of the other literal kinds runs the gate first, that of a network leaves it out. *)
Theorem gated_network_admits (f : FieldRef) (v : Value) (v4 : list Z) (p : Z) (fail : bytes) (n : Z) (code : list Instruction) (n' : Z) (bs : list Z) :
  where_known -> whereLiteralCompare f CmpEq v fail n = Ok (code, n') -> ref_ok f -> literal_ok v -> Val v = ValCIDR4 v4 p -> EffectiveBits f = 32 ->
  sliceNeedsScalarLoad f = false -> dynamicAuxLayoutOf f = false -> needsEntryAddress f = false -> 0 <= n -> target n fail ->
  gate_verdict P (layer_start F) (written_back F) f = Missing ->
  piece P (layer_start F) (written_back F) (RefLayer f) (header_at f + first_bit f / 8) 4 = Present bs -> be bs / 2 ^ (32 - p) = be v4 / 2 ^ (32 - p) ->
  packet_literals f CmpEq v = Missing /\
  forall s, wsite fd key base P F s -> is_Some (getr R3 s) -> ends (upto no_slots s) code None fail s (Present tt).
Proof.
  intros K E Hok Hlit Hv Hw Es Ed En Hn Ht Hg Hp Heq. split.
  - unfold packet_literals. rewrite (matches_bytes _ _ _ _ f CmpEq v Es Ed), Hg. reflexivity.
  - unfold whereLiteralCompare in E. cbn [ipEqualityJumpOp] in E. rewrite Es, Ed, En, Hv in E. unfold literal_ok in Hlit. rewrite Hv in Hlit. destruct Hlit as (Hb & Hl & Hpr).
    apply gbind_ok in E as (a & ? & El & E). apply glift_ok in El as [El ->]. apply gbind_ok in E as ([off w] & ? & Ew & E). apply glift_ok in Ew as [Ew ->].
    destruct (literal_window f off w Ew Hok Ed) as (Eo & -> & Ho). rewrite Hw in E. change (32 / 8) with 4 in E.
    destruct (cidr4_compares fd key base P (layer_start F) (written_back F) (option_at F) (kn_packet K) (kn_written K) (kn_start K) f CmpEq v4 p a off fail JNE n code n' E El Ho eq_refl Hb Hl Hpr Hn Ht)
      as (_ & r & Ha & He). rewrite Eo, Hp in Ha. cbn [sbind cmpZ] in Ha. rewrite (proj2 (Z.eqb_eq _ _) Heq) in Ha. destruct Ha as [|<-]; [discriminate|].
    intros s Hs. apply He, Hs.
Qed.

End Packet.

(** ** Folding, and the fuel *)

(** C22: Folding the boolean constants of a condition keeps its meaning on every packet, with the entries of a quantifier bound or not; the folded condition can only decide more: it may leave out an operand that would have rejected the packet. *)
Theorem folding_keeps_meaning `{StackVocab} (w : world) (ρ : FieldRef -> FieldRef) (c : IR.Condition) :
  evalCond w ρ c = Beyond \/ evalCond w ρ (foldBooleanConstants c) = evalCond w ρ c.
Proof. destruct (fold_approx w c ρ) as [E|E]; [now left|now right]. Qed.

(** C21: The generator's recursion ends on every condition, well formed or not: the depth of the condition is fuel enough. [genCondition] never stops for want of fuel (it returns the code, or an error of the compiler's own; the layer plan, the address of a runtime entry and the form of a [bpf_loop] quantifier being assumed to end in theirs), and more fuel gives the same code, labels and errors, although the generator folds a condition before it descends and compiles rebound copies of a quantifier's body. *)
Theorem where_fuel_enough `{AuxVocab} `{WherePlan} `{StackVocab} `{WherePlanSlots} `{WhereProgram}
    (loop : whereCtx -> IR.Condition -> IR.QuantTarget -> bytes -> bool -> gen (list Instruction)) (w : IR.Condition) (fail : bytes) :
  host_completes loop ->
  let literals := where_literals loop in
  completes (genCondition w fail) /\
  forall (fuel : nat) (c : whereCtx) (n : Z), (depth w <= fuel)%nat ->
    whereGen fuel c w fail n = whereGen (depth w) c w fail n /\ completes (whereGen fuel c w fail n).
Proof.
  intros Hh. split; [now apply genCondition_completes|]. intros fuel c n Hf. split; [now apply (whereGen_same (depth w))|].
  now apply (whereGen_completes loop Hh (depth w)).
Qed.

(** ** A packet

    A header of a version, a count, an address and up to two entries of a
    stack, and an auxiliary header behind a gate the packet does not meet. *)

Module Demo.

Definition noMem (_ : nat) (_ : Z) : option Z := None.
Definition keys (_ : Z) : nat := 4%nat.
#[export] Instance kernel : Kernel := Helpers.demo_kernel keys noMem.

Definition pos : Position := mkPos 1 1.
Definition spec : ProtocolSpec :=
  mkSpec "demo" [mkField "ver" 4; mkField "flags" 4; mkField "cnt" 8; mkField "dst" 32] {["items"%string := mkStackCount 1 0]}.
Definition layer : LayerInstance := mkLayerInstance (Some spec) "" QuantOne None None pos.

#[export] Instance aux : AuxVocab := {| IsDynamicEligible := fun _ _ => false; hasVariableTail := fun _ _ => false |}.
#[export] Instance plan : WherePlan :=
  {| layerAnchorFor := fun _ => Ok (absAnchor 0); optionSlotFor := fun _ => None; stackEntryAddress := fun _ _ _ => Err CPanic; refName := fun _ => ""%string |}.
#[export] Instance stacks : StackVocab := {| isPushedStack := fun _ _ => false; pushBound := fun _ _ => 0 |}.
#[export] Instance slots : WherePlanSlots :=
  {| stackCountSlot := fun _ _ => None; ownerSlot := fun _ _ => None; LayerPos := fun _ => 0; members := fun _ => None; matchedSlot := fun _ => None;
     readsAltMember := false; NeedsRuntimeOffset := fun _ => false; entrySlot := fun _ => Err CPanic; validSlot := fun _ => None |}.
#[export] Instance program : WhereProgram := {| Layers := [layer]; Action := None; ActionFetcher := None |}.

Definition loop (_ : whereCtx) (_ : IR.Condition) (_ : IR.QuantTarget) (_ : bytes) (_ : bool) : gen (list Instruction) := glift (Err CPanic).
#[export] Instance networks : LiteralCode := where_literals loop.

Definition bytes_ : list Z := [0x45; 2; 10; 1; 2; 3; 0; 0; 0; 7; 0; 0; 0; 9; 192; 168; 0; 1].
Definition found_ : found := mkFound (fun _ => 0) (fun _ => 0) (fun _ => 0) (fun _ _ => 0) (fun _ => true) (fun _ _ => 0) (fun _ => false) 0.
Definition key : list Z := [0; 0; 0; 0].
Definition state : st :=
  mkSt {[R0 := Ptr (ValueOf 5 key) 0; R1 := Ptr (ValueOf 5 key) 18; R3 := Num 0]} ∅ [] 0 {[5 := {[key := bytes_]}]} None [] 0.

Definition field (n : string) (w : Z) : FieldRef := mkFieldRef layer (Some (mkField n w)) None None.
Definition item : FieldRef :=
  mkFieldRef layer (Some (mkField "x" 32)) (Some (mkAux "items" "item" 6 4 None 0 32 (Some (mkStackIndex 2 false 0 None true false)) None 0)) None.
Definition items : IR.QuantTarget := IR.mkQuantTarget layer "items" "item" 6 4 2.
(** A gate on the low bit of the first byte, which is set. *)
Definition ext : FieldRef :=
  mkFieldRef layer (Some (mkField "a" 32)) (Some (mkAux "ext" "ext_h" 14 4 (Some (mkGating 0 1 GatingEq 0)) 0 32 None None 0)) None.

Definition ten : Value := mkValue (ValCIDR4 [10; 0; 0; 0] 8) "10.0.0.0/8" pos.
Definition lan : Value := mkValue (ValCIDR4 [192; 168; 0; 0] 16) "192.168.0.0/16" pos.
Definition num (n : Z) : IR.ArithExpr := IR.ArithConst n 0 false false pos.

(** [dst == 10.0.0.0/8 and ver == 4 and any(items.x == 9)] *)
Definition cond : IR.Condition :=
  IR.CAnd (IR.CAtomLiteralCmp (field "dst" 32) CmpEq ten pos)
    (IR.CAnd (IR.CAtomArith (IR.ArithField (field "ver" 4) pos) CmpEq (num 4) pos)
       (IR.CAny (IR.CAtomArith (IR.ArithField item pos) CmpEq (num 9) pos) items pos) pos) pos.

Definition code_of {A} (d : A) (r : result cerr A) : A := match r with Ok a => a | Err _ => d end.
Definition code : list Instruction := code_of [] (genCondition cond dslReject).

Lemma known : where_known 5 key 0 bytes_ found_.
Proof.
  split; try easy. repeat constructor; unfold byte; lia.
Qed.

Lemma at_site : wsite 5 key 0 bytes_ found_ state.
Proof.
  split; try easy. split; try easy.
  - split; [reflexivity|reflexivity|]. exists [], []. split; reflexivity.
  - intros l a [= <-]. split; [|easy]. split; [unfold in_u64, two64; cbn; lia|cbn; lia|easy].
Qed.

Lemma small_at z : 0 <= z < 2 ^ 20 -> small z.
Proof. exact id. Qed.

Lemma in_layers : layer_ok layer.
Proof. left. split; [apply list_elem_of_singleton; reflexivity|reflexivity]. Qed.

Lemma counts_small : forall sp st hdr, Spec layer = Some sp -> StackCounts sp !! st = Some hdr -> small (CountByteOff hdr) /\ small (Addend hdr).
Proof. intros sp st hdr [= <-]. cbn. intros Hl. apply lookup_singleton_Some in Hl as [_ <-]. unfold small. cbn. lia. Qed.

Lemma one_ref f : RefLayer f = layer -> small_entry f -> (forall a, Aux f = Some a -> OwnerOption a = None) -> refs_ok [f].
Proof.
  intros Hl Hs Ho. split.
  - intros g h Hg Hh _ _. apply list_elem_of_singleton in Hg, Hh. now subst.
  - intros g Hg. apply list_elem_of_singleton in Hg as ->. rewrite Hl. split; [exact in_layers|]. split; [exact Hs|]. split; [|rewrite Hl; exact counts_small].
    intros a Ha [o E]. rewrite (Ho a Ha) in E. discriminate.
Qed.

Lemma field_ok n w off : BitOffsetIn (Fields spec) n = Some (off, w) -> small off -> 0 < w <= 128 -> ref_ok (field n w).
Proof. intros E Hs Hw. split; [|cbn; repeat split; lia]. cbn. now exists off. Qed.

Definition item_at (i : Z) : FieldRef := bind items i item.

Lemma item_ok i : 0 <= i < 2 -> ref_ok (item_at i) /\ refs_ok [item_at i].
Proof.
  intros Hi. assert (Ei : i = 0 \/ i = 1) by lia. destruct Ei as [-> | ->]; split; try (apply one_ref; [reflexivity| |intros a [= <-]; reflexivity]).
  all: try (intros k Hk; vm_compute in Hk; injection Hk as <-; cbn; lia).
  all: repeat split; cbn; try lia; intros; try easy; injection H as <-; unfold small; cbn; lia.
Qed.

Lemma num_ok n : 0 <= n < 2 ^ 32 -> wf_arith (num n).
Proof. intros Hn. cbn. unfold in_u64, two64. repeat split; (easy || lia). Qed.

Lemma cond_ok : wf_cond id cond.
Proof.
  cbn [cond wf_cond]. split; [|split].
  - split; [|apply one_ref; [reflexivity|intros k [=]|intros a [=]]]. split; [apply (field_ok "dst" 32 16); [reflexivity|unfold small; lia..]|].
    split; [cbn; repeat split; try lia; repeat constructor; unfold byte; lia|]. split; [reflexivity|]. split; [discriminate|reflexivity].
  - split; [apply (field_ok "ver" 4 0); [reflexivity|unfold small; lia..]|]. split; [apply num_ok; lia|]. apply one_ref; [reflexivity|intros k [=]|intros a [=]].
  - split; [exact I|]. split; [cbn; lia|]. split; [|split; [vm_compute; reflexivity|]].
    + constructor; [|constructor]. split; [|reflexivity]. split; [intros a [= <-] [o [=]]|exact counts_small].
    + intros i Hi. destruct (item_ok i Hi) as [H1 H2]. split; [exact H1|]. split; [apply num_ok; lia|exact H2].
Qed.

Definition ctx : whereCtx := mkWhereCtx 0 0 [] [].



Definition host : Value := mkValue (ValIPv4 [192; 168; 0; 1]) "192.168.0.1" pos.
Definition literal_code (v : Value) : list Instruction := fst (code_of ([], 0) (whereLiteralCompare ext CmpEq v dslReject 0)).
Definition load_code : list Instruction := code_of [] (whereFieldLoad (field "dst" 32) dslReject).

Lemma ext_ok : ref_ok ext.
Proof. repeat split; cbn; try lia; intros; try easy; injection H as <-; unfold small; cbn; lia. Qed.

End Demo.

Import Demo.

(** The packet meets the condition: 10.1.2.3 is in 10.0.0.0/8, the version
    is 4 and the second entry is 9. *)
Lemma where_clause_decides_witness : exists s', exec code None state = Next s'.
Proof.
  destruct (where_clause_decides loop 5 key 0 bytes_ found_ cond dslReject code known) as (r & Ha & He).
  - vm_compute. reflexivity.
  - exact cond_ok.
  - apply target_reject.
  - assert (Ev : evalCond (packet_world bytes_ found_ (packet_literals bytes_ found_)) id cond = Present tt) by (vm_compute; reflexivity).
    rewrite Ev in Ha. destruct Ha as [|<-]; [discriminate|]. destruct (He state at_site ltac:(vm_compute; eauto)) as (s' & E & _). exists s'. exact E.
Defined.


(** The header behind the gate is absent: the comparison is false. *)
Lemma network_literal_decides_witness : exists s', exec (literal_code host) None state = Goto dslReject s'.
Proof.
  destruct (network_literal_decides 5 key 0 bytes_ found_ ext CmpEq host dslReject 0 (literal_code host) 0 known) as (r & Ha & He).
  - vm_compute. reflexivity.
  - split; [exact ext_ok|]. split; [cbn; split; [repeat constructor; unfold byte; lia|reflexivity]|]. split; [reflexivity|]. split; [discriminate|easy].
  - lia.
  - apply target_reject.
  - assert (Ev : packet_literals bytes_ found_ ext CmpEq host = Missing) by (vm_compute; reflexivity). rewrite Ev in Ha. destruct Ha as [|<-]; [discriminate|].
    destruct (He state at_site ltac:(vm_compute; eauto)) as (s' & E & _). exists s'. exact E.
Defined.

(** The same header, and the code of a network lets the packet through. *)
Lemma gated_network_admits_witness : packet_literals bytes_ found_ ext CmpEq lan = Missing /\ exists s', exec (literal_code lan) None state = Next s'.
Proof.
  destruct (gated_network_admits 5 key 0 bytes_ found_ ext lan [192; 168; 0; 0] 16 dslReject 0 (literal_code lan) 0 [192; 168; 0; 1] known)
    as [Hm He]; [vm_compute; reflexivity|exact ext_ok| |reflexivity..|lia|apply target_reject|vm_compute; reflexivity|vm_compute; reflexivity|vm_compute; reflexivity|].
  - cbn. split; [repeat constructor; unfold byte; lia|split; [reflexivity|lia]].
  - split; [exact Hm|]. destruct (He state at_site ltac:(vm_compute; eauto)) as (s' & E & _). exists s'. exact E.
Defined.

(** 10.1.2.3 *)
Lemma field_load_bits_witness : exists s', exec load_code None state = Next s' /\ getr R3 s' = Some (Num 0x0A010203).
Proof.
  assert (H := field_load_bits 5 key 0 bytes_ found_ (field "dst" 32) dslReject load_code (absAnchor 0) state known ltac:(vm_compute; reflexivity)
    (field_ok "dst" 32 16 eq_refl ltac:(unfold small; lia) ltac:(lia)) ltac:(cbn; lia) eq_refl eq_refl eq_refl eq_refl ltac:(cbn; lia) at_site).
  vm_compute load_window in H. cbv iota beta in H. vm_compute (_ <=? _) in H. destruct H as (s' & E & G). exists s'. split; [exact E|]. rewrite G. vm_compute. reflexivity.
Defined.

(** Fuel for one level less runs out. *)
Lemma where_fuel_enough_witness :
  whereGen 3 ctx cond dslReject 0 = Err CFuel /\ completes (genCondition cond dslReject) /\ whereGen 100 ctx cond dslReject 0 = whereGen 4 ctx cond dslReject 0.
Proof.
  destruct (where_fuel_enough loop cond dslReject) as [Hc Hf]; [now split|]. split; [vm_compute; reflexivity|]. split; [exact Hc|]. apply Hf. cbn. lia.
Defined.
